(* ===== verification/_CoqProject ===== *)
-Q . S2P
Prelude.v
StateError.v
Crypto.v
TreeTheory.v
Merkle.v
Transparency.v
Coverage.v
EpochState.v
CutoverMessages.v
FilePath.v
Storage.v
FileCache.v
HybridKem.v
Welcome.v
GroupUpdate.v
Cutover.v
Migration.v
EpochManager.v
FileContent.v
Json.v
FileHeader.v
GroupTransfer.v
Pinning.v
CloudState.v
JoinCards.v
WelcomeTrust.v
ErrorRecovery.v
Backup.v
Handoff.v
Authority.v
Pending.v
MountCache.v
MountFs.v
MountRead.v
FileManager.v
Rewrap.v
FileMessages.v
