(* ===== verification/Prelude.v ===== *)
(** * A verification library for the HybridCipher client

    HybridCipher encrypts shared folders under a group key that changes with
    every _epoch_.  A new device receives the group's epoch keys in a _welcome_,
    the roster and the epoch change by _group updates_, every file is encrypted
    under a key of its own that is wrapped under an epoch key, the _coverage log_
    records which epoch wraps which file and publishes the Merkle root of that map
    in a _transparency log_, and a _migration_ moves the group from one epoch to
    the next by a two-phase _cutover_ agreed with the other devices.  This library
    models that core from the Rust sources and proves what makes it correct.

    ** Files and what they model

    Foundations:
    - Prelude.v (this file): bytes, fixed-size arrays, [u64] arithmetic with its
      wrap, results with error, panic and non-termination, fuelled loops, and
      the list and arithmetic lemmas, hints and tactics that the others share.
    - StateError.v: the state and error monad of the managers, with the rules
      that carry an invariant, or the fact that it returns, through a handler.
    - Crypto.v: [crates/crypto/src] - [signatures.rs], [aead.rs], [epoch_id.rs],
      [error.rs].  The primitives of other crates (SHA-256, dalek,
      ChaCha20-Poly1305, hex) are type classes with their documented laws.
    - HybridKem.v: [crates/crypto/src/hybridkem.rs], [x25519.rs],
      [mlkem_adapter.rs].

    The log:
    - TreeTheory.v: the level-by-level Merkle construction shared by the two
      trees of the repository, for any combining function, and its agreement
      with the recursive RFC 6962 tree.
    - Merkle.v: [crates/merkle/src/lib.rs] - [MerkleTree] with its cached levels
      and root, [InclusionProof], batch verification.
    - Transparency.v: [crates/messages/src/transparency.rs] - entries and the
      verifiers of inclusion and consistency proofs.
    - Coverage.v: [crates/coverage/src/lib.rs] - [CoverageLog] and
      [CoverageManager]; calls Merkle.v and Transparency.v.

    Epochs ([crates/client/src/epoch], [crates/messages/src]):
    - EpochState.v: [epoch/state.rs], [epoch_key_source.rs] - epochs, members,
      the lifecycle, validation and the versioned stored form.
    - Storage.v: [storage/mod.rs], [storage/mock.rs] - the storage trait as the
      classes [Storage] and [StorageLaws], and the in-memory store that
      implements it; the managers below are written against the classes.
    - CutoverMessages.v, Cutover.v: [messages/src/cutover.rs] and
      [epoch/cutover/coordinator.rs] - the coordinator and its handlers.
    - Welcome.v: [messages/src/welcome.rs], [epoch/welcome.rs].
    - GroupUpdate.v: [messages/src/group_update.rs], [epoch/update.rs].
    - Migration.v: [epoch/migration.rs]; drives Cutover.v.
    - EpochManager.v: [epoch/mod.rs]; Migration.v, Welcome.v and GroupUpdate.v
      over one store.

    Files ([crates/client/src/file]):
    - FilePath.v: names and identifiers ([encrypt.rs], [ciphertext.rs]).
    - FileCache.v: [cache.rs] - [LruCache] and [CacheManager].
    - FileContent.v: key wrapping and the encryption of contents in one record
      or in chunks ([encrypt.rs], [decrypt.rs]).
    - Json.v: [serde_json] values with their accessors; printers, parsers, base64,
      UUID and time texts as classes with their laws.
    - FileHeader.v: the JSON header ([encrypt.rs], [ciphertext.rs]) with its bounded
      reader, the recognition of ciphertext, sparse layouts, and the manifest that is
      wrapped with the key ([content_manifest.rs]).
    - GroupTransfer.v: [group_transfer.rs] - rewrapping a file for another group in
      place, over a folder whose every call may fail.
    - Pinning.v: [pinning/mod.rs] - the store of device keys checked out of band, the
      fingerprints and safety numbers people compare, links and signed links.
    - CloudState.v: [windows-cloud-provider/src/state.rs] - what the Cloud Files
      provider knows of a folder, its transactions on a disk whose calls fail wholly
      or in part, and the identities and content versions of [provider-core].
    - Pending.v: [windows-cloud-provider/src/pending.rs] - operations that wait to be
      carried out: merging, retrying, and the checks before a replay.
    - MountCache.v, MountFs.v, MountRead.v: [crates/mount/src] - the caches of
      decrypted pieces and attributes ([cache/]), the handlers that read, write and
      resize a mounted file ([filesystem/hybridcipher.rs]), and the managers that
      decrypt a file piece by piece ([filesystem/decrypt.rs], [read.rs]).
    - JoinCards.v: [messages/src/join_card.rs], [messages/src/pin_attestation.rs],
      [client/src/invitation.rs] and the checks of [cli/src/session/mod.rs],
      [client/src/state/client/security.rs] and [welcome.rs] - the cards devices are
      invited by, what devices of one account attest to each other, and when a
      welcome is sealed to a card; over Pinning.v.
    - WelcomeTrust.v: [client/src/welcome_signers.rs], [state/client/welcome_trust.rs]
      - which devices may sign the welcomes of a group.
    - ErrorRecovery.v: [client/src/errors.rs], [client/src/recovery.rs].
    - Backup.v, Handoff.v: [crypto/src/account_protection.rs],
      [client/src/saved_code_recovery.rs], [local_recovery_kit.rs],
      [messages/src/recovery_handoff.rs] and the writer functions of the desktop
      application's [commands.rs] - the encrypted backup of epoch keys, the kit, and
      how a second device becomes a writer of the backup.
    - Authority.v: [client/src/entitlement.rs], [local_write_access.rs],
      [device_actions.rs] of the client and of the messages, and
      [recovery_credentials.rs] - licences, the check before a write, signed device
      actions and the credentials of a saved code.
    - Rewrap.v: [file/rewrap.rs], [file/access.rs] - moving stored files to the key of
      another epoch, alone, in a queue or in a concurrent batch, and reading them.
    - FileMessages.v: [messages/src/file_metadata.rs].
    - FileManager.v: [FileEncryption] and [FileDecryption], over EpochManager.v,
      Coverage.v, FileCache.v and FileContent.v.

    Definitions keep the names of the source; where a name is used by several
    types it is prefixed with the type ([MerkleTree_root]).  A [&mut self]
    method takes the state and returns it with the result, on every path, so
    that what an early return leaves behind is part of the model.

    ** Representation

    A [u8] is a [Byte.byte], a [Vec<u8>] a list of them, [[u8; n]] an
    [array n], a [String] a [string] of UTF-8 bytes.  [u64] is [N] with the
    wrap written out where the code can reach it, [usize] counters that are
    bounded by a collection's length are [nat].  [HashMap] is [gmap]; where
    the code depends on its iteration order the order is a parameter.  A time
    is a [Z] and a reading of the clock an argument, as is randomness.  Fallible
    code returns [res E A]: [Ok], [Err] with the source's error and its text,
    [Panic], and [Diverge] for a call that does not return.  Ratios of counts
    ([f64] in the code) are exact rationals, but the quorum of the cutover and the
    arithmetic of MountCache.v, MountRead.v, ErrorRecovery.v and Rewrap.v are computed
    with the rounding of [f64] and [f32].  Serialisers of other crates
    ([serde_json], [serde_cbor]) are parameters with their round trip as a law.

    Loops over lists are structural.  The verifiers of Transparency.v loop on
    [u64] indices that are halved at each turn: the fuel is 64 plus one and
    the theorems show that it is enough.  [from_utf8_lossy] consumes a byte at
    each turn, its fuel is the length of the input.  The loops of FileContent.v
    that read a stream are structural on what the reader's calls return, and
    [decrypt_content_returns] shows that they return.  The coordinator's polling
    loop is a step, taken any number of times.  The loops of MountCache.v that drop
    entries have the number of entries as fuel, and [read_entire_file_complete] of
    MountRead.v gives its loop one turn for each byte of the file.  The retries of
    ErrorRecovery.v have five turns, the most that a policy of the manager allows, which
    [execute_returns] shows to be enough.  The queue of Rewrap.v has the number of tries
    that its tasks have left as fuel, which [process_queue_ends] shows to be enough, and
    cutting a list into chunks the length of the list.

    Collision resistance is the decidable statement that finitely many given
    messages have pairwise distinct digests, so that it is a property of a run
    and not of all byte strings, which no hash function could have.

    ** What the theorems show

    - Merkle.v: the incrementally cached root is the RFC 6962 root after any
      sequence of operations; generated proofs verify; verified proofs are for
      members; the root binds the ordered leaves.
    - Transparency.v: inclusion and consistency proofs are complete and sound
      (an accepted consistency proof shows the old log to be a prefix).
    - Coverage.v: a recorded file verifies; the root binds the whole map;
      [verify_coverage] accepts exactly the consistent, validly signed logs;
      the transparency check pins the anchored entry; counts and progress; what
      a failing signer leaves behind.
    - EpochState.v: an invariant of the reachable epochs, refinement of an
      abstract lifecycle, one-way phases, preservation of [validate], round
      trip of the stored form, authority over members.
    - Storage.v: stored epochs and keys are loaded back, the in-memory store
      satisfies the laws of the interface.
    - Welcome.v, EpochManager.v: which welcomes are accepted, sealed secrets open
      for the recipient, and a device that accepted a welcome has the key of every
      epoch it was given.
    - GroupUpdate.v: an applied update installs its key, is applied once, and no
      sequence of updates replaces a key; that the signature is checked against a
      key in the message itself, that removals never succeed, and that an update
      cannot start on an empty store or leaves a migrating group without an
      active epoch.
    - Cutover.v, Migration.v: commits are authenticated, votes count once,
      rollback restores, the default quorum is at least two thirds, the manager's
      phases refine an abstract migration, finalisation wipes the old key; and the
      behaviours of the code that its documentation does not promise: one
      cutover per coordinator, an abort message that deadlocks, a commit error
      after the switch, a manager that never reaches the cutover.
    - HybridKem.v, FileContent.v, FileManager.v: round trips of the KEM, the key
      wrap, the chunked and the whole-file encryption; every altered, truncated or
      reordered chunked ciphertext is refused; decryption of any stream returns;
      the file manager's encryption and decryption compose, and its encryption is
      refused for every epoch state that the code itself produces.
    - FileCache.v: the hash-map cache refines a list ordered by recency and never
      holds more than its capacity.
    - FileHeader.v, GroupTransfer.v: headers round trip and are read in bounded
      space, the manifest pins the layout of the contents, a sparse layout is
      accepted exactly when it is sound; moving a file to another group is all or
      nothing under every failure and interruption, and keeps its contents.
    - Pinning.v: the stored pins are a map from users and devices to keys, storage
      failures included; signed links round trip, and a link reported as signed was
      signed by the key it carries within the time its policy allows.
    - CloudState.v: the state of a root is one cell that survives interruption at any
      point of any call; inventories keep local changes; moving a directory is undone
      by moving it back; the content version of a file binds its metadata.
    - Pending.v: compacting pending operations loses nothing and is done in one pass;
      retries are bounded in time and number; replays stay inside the folder and on
      the object and contents they were recorded for.
    - MountCache.v, MountFs.v, MountRead.v: the caches keep to their bounds after any
      calls and forget an invalidated file; the mounted files are a map from paths to
      contents that reads and writes act on, failures included; a decrypted piece is
      what the file has there.  That a piece cached at one offset is served at another,
      that counters drift and that a whole-file read may not end are theorems too.
    - JoinCards.v, WelcomeTrust.v: cards and attestations round trip and are accepted
      for exactly their time; trust in a key travels one hop when the card cache is
      not used, and further when it is; a welcome is sealed exactly to the cards the
      policy permits; the signers of a group are the closure of the first contact
      under authentic introductions, in whatever order these arrive.
    - ErrorRecovery.v: the rules of a breaker, that no breaker of the manager ever
      opens, and that retrying ends.
    - Backup.v, Handoff.v: backups and kits open with the password and the code and
      give back what was put in, a restore plan is exactly what the backup says, a
      hand-over reaches its target; and that a stranger's hand-over is accepted.
    - Authority.v: licences and challenges are accepted exactly when they are for
      this account, in time and signed; payloads bind their fields, and nothing that
      is signed for one purpose passes for another.
    - Rewrap.v: a rewrapped file is read unchanged in its new epoch; the schedule of a
      batch does not matter; the queue runs in the order of its priorities and ends;
      and what a file without metadata, or a file outside the queue, does.
    - FileMessages.v: which batches of updates are accepted, that they cannot confuse
      files, and that no key wrapped by the client fits the metadata.

    The main theorems with hypotheses are applied to a concrete input by the lemma
    of the same name with the suffix [_witness], with toy instances of the
    external primitives that satisfy their laws.

    ** What is not modelled

    - The journal file of the pending operations and the journal, recovery and
      directory handlers of the mounted file system: they are sequences of calls to
      the operating system's files, whose failures would be most of the model.
    - The client's orchestration of rekeying, coverage and group state
      ([client/src/state]) except the parts named above, the checkpoints of the
      transparency log, and the audit records: they join the components above over a
      network and a database.
    - Network transports, databases, key stores of the operating system, wiping of
      memory, the synchronisation and provider crates except CloudState.v and
      Pending.v, the command line and the desktop application except the checks that
      JoinCards.v and Handoff.v take from them: input and output around the parts above.
    - Concurrency, beyond the order in which handlers run, the schedules of the tasks of
      a batch (Rewrap.v), and the locks that a handler holds across a wait, takes twice
      or leaves poisoned by a panic. *)

From Stdlib Require Import Strings.Byte.
From stdpp Require Import base tactics numbers list gmap strings pretty option sorting countable.

Declare Scope hc_scope.
Delimit Scope hc_scope with hc.
Open Scope hc_scope.

(** ** Bytes and strings

    A Rust [u8] is a [Byte.byte], a [Vec<u8>] or [&[u8]] a list of bytes and a
    [String] a Rocq [string], read as its UTF-8 bytes. *)

Abbreviation byte := Byte.byte.
Abbreviation bytes := (list Byte.byte).

#[export] Instance byte_eq_dec : EqDecision byte := Byte.byte_eq_dec.

Definition byte_of_N (n : N) : byte := default x00 (Byte.of_N (n mod 256)).

Definition bytes_of (s : string) : bytes := String.list_byte_of_string s.

Lemma to_N_byte_of_N n : Byte.to_N (byte_of_N n) = (n mod 256)%N.
Proof.
  unfold byte_of_N. destruct (Byte.of_N (n mod 256)) as [b|] eqn:E; simpl.
  - by apply Byte.to_of_N.
  - apply Byte.of_N_None_iff in E. pose proof (N.mod_lt n 256). lia.
Qed.

Lemma byte_to_N_inj (a b : byte) : Byte.to_N a = Byte.to_N b → a = b.
Proof.
  intros E. pose proof (Byte.of_to_N a) as Ha. pose proof (Byte.of_to_N b) as Hb.
  rewrite E in Ha. congruence.
Qed.

Lemma byte_to_N_lt (b : byte) : (Byte.to_N b < 256)%N.
Proof. pose proof (Byte.to_N_bounded b). lia. Qed.

Lemma byte_of_to_N (b : byte) : byte_of_N (Byte.to_N b) = b.
Proof.
  apply byte_to_N_inj. rewrite to_N_byte_of_N, N.mod_small; [done|apply byte_to_N_lt].
Qed.

#[export] Instance byte_countable : Countable byte :=
  inj_countable' Byte.to_N byte_of_N byte_of_to_N.

Lemma bytes_of_inj (s1 s2 : string) : bytes_of s1 = bytes_of s2 → s1 = s2.
Proof.
  intros E. rewrite <-(String.string_of_list_byte_of_string s1).
  unfold bytes_of in E. rewrite E. apply String.string_of_list_byte_of_string.
Qed.

Lemma bytes_of_length s : length (bytes_of s) = String.length s.
Proof. induction s as [|a s IH]; [done|]. cbn. f_equal. exact IH. Qed.
Lemma bytes_of_app s1 s2 : bytes_of (s1 +:+ s2) = bytes_of s1 ++ bytes_of s2.
Proof.
  unfold bytes_of, String.list_byte_of_string.
  induction s1 as [|c s1 IH]; simpl; [done|by f_equal].
Qed.

(** [[u8; n]]: a byte list whose length is part of the type. *)
Definition array (n : nat) : Type := dsig (λ b : bytes, length b = n).

Definition arr {n} (a : array n) : bytes := proj1_sig a.
Coercion arr : array >-> list.

#[export] Instance array_eq_dec n : EqDecision (array n).
Proof. unfold array, dsig. apply _. Defined.

#[export] Instance array_countable n : Countable (array n).
Proof. unfold array, dsig. apply _. Defined.

(** [<[u8; n]>::try_from(slice)]. *)
Definition array_of (n : nat) (b : bytes) : option (array n) :=
  match decide (length b = n) with
  | left H => Some (dexist b H)
  | right _ => None
  end.

Definition zeros (n : nat) : array n :=
  dexist (replicate n x00) (length_replicate n x00).

Lemma arr_length {n} (a : array n) : length (arr a) = n.
Proof. destruct a as [b Hb]. exact (bool_decide_unpack _ Hb). Qed.

Lemma arr_inj {n} (a b : array n) : arr a = arr b → a = b.
Proof. intros E. by apply dsig_eq. Qed.

Lemma array_of_arr {n} (a : array n) : array_of n (arr a) = Some a.
Proof.
  unfold array_of. case_decide as H; [|by rewrite arr_length in H].
  f_equal. by apply arr_inj.
Qed.

Lemma array_of_Some n b a : array_of n b = Some a ↔ arr a = b.
Proof.
  split.
  - unfold array_of. case_decide; intros [= <-]. done.
  - intros <-. apply array_of_arr.
Qed.

(** ** Machine integers

    [u64], [u32] and [usize] (64-bit targets) are [N] below the bound; the
    arithmetic that the release profile lets wrap is written with [mod]. *)

Definition U64 : N := 18446744073709551616.
Definition U32 : N := 4294967296.
Definition u64_wrap (n : N) : N := n mod U64.

(** The fuel of a loop that halves a [u64]: one step per bit. *)
Definition u64_bits : nat := 64.
Lemma pow_u64_bits : (2 ^ N.of_nat u64_bits)%N = U64.
Proof. reflexivity. Qed.
Lemma u64_bits_S : ∃ k, u64_bits = S k.
Proof. by exists 63. Qed.
#[global] Opaque u64_bits.
Lemma lt_u64_bits n : (n < U64)%N → (n ≤ 2 ^ N.of_nat u64_bits)%N.
Proof. rewrite pow_u64_bits. lia. Qed.

Definition u64_checked_add (a b : N) : option N :=
  if (a + b <? U64)%N then Some (a + b)%N else None.
Definition u64_checked_mul (a b : N) : option N :=
  if (a * b <? U64)%N then Some (a * b)%N else None.
Definition u64_saturating_add (a b : N) : N := N.min (a + b) (U64 - 1).

Lemma u64_checked_add_Some a b c :
  u64_checked_add a b = Some c ↔ c = (a + b)%N ∧ (a + b < U64)%N.
Proof. unfold u64_checked_add. destruct (N.ltb_spec (a + b) U64); split; intros ?; destruct_and?; simplify_eq; auto; lia. Qed.

Lemma u64_checked_mul_Some a b c :
  u64_checked_mul a b = Some c ↔ c = (a * b)%N ∧ (a * b < U64)%N.
Proof. unfold u64_checked_mul. destruct (N.ltb_spec (a * b) U64); split; intros ?; destruct_and?; simplify_eq; auto; lia. Qed.

(** [to_le_bytes] / [from_le_bytes] and their big-endian versions, at [k]
    bytes of width. *)
Fixpoint le_bytes (k : nat) (n : N) : bytes :=
  match k with
  | O => []
  | S k => byte_of_N n :: le_bytes k (n / 256)
  end.
Fixpoint le_num (b : bytes) : N :=
  match b with
  | [] => 0
  | x :: b => Byte.to_N x + 256 * le_num b
  end.
Definition be_bytes (k : nat) (n : N) : bytes := reverse (le_bytes k n).
Definition be_num (b : bytes) : N := le_num (reverse b).

Lemma le_bytes_length k n : length (le_bytes k n) = k.
Proof. revert n. induction k; intros n; simpl; auto. Qed.

Lemma be_bytes_length k n : length (be_bytes k n) = k.
Proof. unfold be_bytes. by rewrite length_reverse, le_bytes_length. Qed.

Lemma le_num_bytes k n : (n < 256 ^ N.of_nat k)%N → le_num (le_bytes k n) = n.
Proof.
  revert n. induction k as [|k IH]; intros n Hn.
  - simpl in *. rewrite N.pow_0_r in Hn. lia.
  - cbn [le_bytes le_num]. rewrite to_N_byte_of_N, IH.
    + rewrite (N.div_mod n 256) at 3 by lia. lia.
    + apply N.Div0.div_lt_upper_bound. rewrite Nat2N.inj_succ, N.pow_succ_r' in Hn. lia.
Qed.

Lemma le_bytes_num b : le_bytes (length b) (le_num b) = b.
Proof.
  induction b as [|x b IH]; [done|]. cbn [length le_bytes le_num]. f_equal.
  - apply byte_to_N_inj. rewrite to_N_byte_of_N.
    rewrite N.mul_comm, N.Div0.mod_add. apply N.mod_small, byte_to_N_lt.
  - rewrite N.mul_comm, N.div_add, N.div_small, N.add_0_l; auto using byte_to_N_lt.
Qed.

Lemma le_num_lt b : (le_num b < 256 ^ N.of_nat (length b))%N.
Proof.
  induction b as [|x b IH]; [by vm_compute|].
  cbn [length le_num]. rewrite Nat2N.inj_succ, N.pow_succ_r'.
  pose proof (byte_to_N_lt x). lia.
Qed.

Lemma be_num_bytes k n : (n < 256 ^ N.of_nat k)%N → be_num (be_bytes k n) = n.
Proof. intros. unfold be_num, be_bytes. rewrite reverse_involutive. by apply le_num_bytes. Qed.

Lemma le_bytes_inj k m n :
  (m < 256 ^ N.of_nat k)%N → (n < 256 ^ N.of_nat k)%N →
  le_bytes k m = le_bytes k n → m = n.
Proof. intros Hm Hn E. by rewrite <-(le_num_bytes k m), <-(le_num_bytes k n), E. Qed.

Lemma be_bytes_num b : be_bytes (length b) (be_num b) = b.
Proof.
  unfold be_bytes, be_num. rewrite <-(length_reverse b), le_bytes_num. apply reverse_involutive.
Qed.

Lemma be_num_lt b : (be_num b < 256 ^ N.of_nat (length b))%N.
Proof. unfold be_num. rewrite <-(length_reverse b). apply le_num_lt. Qed.

Lemma U64_pow : U64 = (256 ^ N.of_nat 8)%N.
Proof. reflexivity. Qed.

(** ** Outcomes of fallible code

    [Ok] and [Err] are Rust's [Result]; [Panic] is an [unwrap], an index out of
    range or an arithmetic panic; [Diverge] is a loop whose fuel ran out, an
    outcome of the model only.  Theorems state [= Ok _] or [= Err _], so they
    exclude the last two. *)
Inductive res (E A : Type) : Type :=
| Ok (a : A)
| Err (e : E)
| Panic
| Diverge.
Arguments Ok {E A} a.
Arguments Err {E A} e.
Arguments Panic {E A}.
Arguments Diverge {E A}.

#[export] Instance res_eq_dec `{EqDecision E, EqDecision A} : EqDecision (res E A).
Proof. solve_decision. Defined.

Definition res_bind {E A B} (m : res E A) (f : A → res E B) : res E B :=
  match m with
  | Ok a => f a
  | Err e => Err e
  | Panic => Panic
  | Diverge => Diverge
  end.

(** [Result::map_err]. *)
Definition map_err {E F A} (f : E → F) (m : res E A) : res F A :=
  match m with
  | Ok a => Ok a
  | Err e => Err (f e)
  | Panic => Panic
  | Diverge => Diverge
  end.

(** [Option::ok_or]. *)
Definition ok_or {E A} (o : option A) (e : E) : res E A :=
  match o with Some a => Ok a | None => Err e end.

(** [Option::unwrap] and slice indexing. *)
Definition unwrap {E A} (o : option A) : res E A :=
  match o with Some a => Ok a | None => Panic end.

Notation "'let?' x ':=' m 'in' k" := (res_bind m (λ x, k))
  (at level 10, x pattern, m at level 100, k at level 200,
   format "'let?'  x  ':='  m  'in' '//' k") : hc_scope.

Definition is_ok {E A} (m : res E A) : bool :=
  match m with Ok _ => true | _ => false end.

Lemma Ok_inj {E A} (a b : A) : @Ok E A a = Ok b → a = b.
Proof. congruence. Qed.

Lemma res_bind_Ok {E A B} (m : res E A) (f : A → res E B) b :
  res_bind m f = Ok b ↔ ∃ a, m = Ok a ∧ f a = Ok b.
Proof. destruct m; naive_solver. Qed.

Lemma map_err_Ok {E F A} (f : E → F) (m : res E A) a : map_err f m = Ok a ↔ m = Ok a.
Proof. destruct m; naive_solver. Qed.

Lemma ok_or_Ok {E A} (o : option A) (e : E) a : ok_or o e = Ok a ↔ o = Some a.
Proof. destruct o; naive_solver. Qed.

Lemma unwrap_Ok {E A} (o : option A) (a : A) : @unwrap E A o = Ok a ↔ o = Some a.
Proof. destruct o; naive_solver. Qed.

(** [while cond { body }] with at most [fuel] iterations. *)
Fixpoint while {E S} (fuel : nat) (cond : S → bool) (body : S → res E S) (s : S) : res E S :=
  if cond s then
    match fuel with
    | O => Diverge
    | S fuel => let? s' := body s in while fuel cond body s'
    end
  else Ok s.

Lemma while_stop {E S} fuel cond (body : S → res E S) s :
  cond s = false → while fuel cond body s = Ok s.
Proof. intros H. destruct fuel; simpl; by rewrite H. Qed.

Lemma while_step {E S} fuel cond (body : S → res E S) s :
  cond s = true →
  while (Datatypes.S fuel) cond body s = let? s' := body s in while fuel cond body s'.
Proof. intros H. simpl. by rewrite H. Qed.

(** [inv_res]: split hypotheses about the outcome of a chain of [let?]. *)
Ltac inv_res :=
  repeat match goal with
  | H : res_bind _ _ = Ok _ |- _ =>
      apply res_bind_Ok in H; let a := fresh "a" in destruct H as (a & ? & H)
  | H : map_err _ _ = Ok _ |- _ => apply map_err_Ok in H
  | H : ok_or _ _ = Ok _ |- _ => apply ok_or_Ok in H
  | H : unwrap _ = Ok _ |- _ => apply unwrap_Ok in H
  | H : Ok _ = Ok _ |- _ => injection H as H; subst
  | H : Err _ = Ok _ |- _ => discriminate H
  | H : Panic = Ok _ |- _ => discriminate H
  | H : Diverge = Ok _ |- _ => discriminate H
  end.

(** [split_if]: case analysis on the tests of the code, in the goal or in a
    hypothesis, with the comparisons turned into propositions. *)
Ltac split_if :=
  repeat match goal with
  | H : context [if ?b then _ else _] |- _ => destruct b eqn:?
  | |- context [if ?b then _ else _] => destruct b eqn:?
  end.

Create HintDb hc.
Create Rewrite HintDb hc.
#[export] Hint Rewrite @length_app @length_reverse le_bytes_length be_bytes_length
  @arr_length @length_replicate @length_fmap : hc.
#[export] Hint Resolve arr_length le_bytes_length be_bytes_length : hc.

(** A pair is known from its first component. *)
Lemma fst_eq {A B} (x : A * B) (a : A) : x.1 = a → x = (a, x.2).
Proof. intros <-. by destruct x. Qed.
Ltac eval_fst :=
  match goal with |- ?x = (?a, _) => refine (fst_eq x a _); vm_compute; reflexivity end.

(** ** Lists *)

Lemma app_split_eq {A} (l1 l2 k1 k2 : list A) :
  length l1 = length l2 → l1 ++ k1 = l2 ++ k2 → l1 = l2 ∧ k1 = k2.
Proof. intros. by apply app_inj_1. Qed.

Lemma app_split_eq_r {A} (l1 l2 k1 k2 : list A) :
  length k1 = length k2 → l1 ++ k1 = l2 ++ k2 → l1 = l2 ∧ k1 = k2.
Proof. intros. by apply app_inj_2. Qed.

(** Two byte strings that differ at a common position cannot be equal. *)
Lemma app_prefix_ne {A} `{EqDecision A} (p q : list A) k l i x y :
  p !! i = Some x → q !! i = Some y → x ≠ y → p ++ k ≠ q ++ l.
Proof.
  intros Hp Hq Hne E. apply (f_equal (lookup i)) in E.
  rewrite (lookup_app_l_Some _ _ _ _ Hp), (lookup_app_l_Some _ _ _ _ Hq) in E. congruence.
Qed.

(** ** Decimal printing: [u64::to_string] is [pretty] on [N] *)

Fixpoint string_all (P : Ascii.ascii → bool) (s : string) : bool :=
  match s with
  | EmptyString => true
  | String c s => P c && string_all P s
  end.

Definition is_digit (c : Ascii.ascii) : bool :=
  (48 <=? Ascii.N_of_ascii c)%N && (Ascii.N_of_ascii c <=? 57)%N.

Lemma pretty_N_char_digit x : (x < 10)%N → is_digit (pretty_N_char x) = true.
Proof.
  intros H. assert (x = 0 ∨ x = 1 ∨ x = 2 ∨ x = 3 ∨ x = 4 ∨ x = 5 ∨ x = 6 ∨ x = 7
    ∨ x = 8 ∨ x = 9)%N as Hx by lia.
  destruct_or!; subst; reflexivity.
Qed.

Lemma pretty_N_go_digits x s :
  string_all is_digit s = true → string_all is_digit (pretty_N_go x s) = true.
Proof.
  revert s. induction (N.lt_wf_0 x) as [x _ IH]; intros s Hs.
  destruct (decide (x = 0)%N) as [->|Hx]; [by rewrite pretty_N_go_0|].
  rewrite pretty_N_go_step by lia. apply IH; [apply N.div_lt; lia|].
  simpl. rewrite Hs, pretty_N_char_digit; [done|]. by apply N.mod_lt.
Qed.

Lemma pretty_N_digits (n : N) : string_all is_digit (pretty n) = true.
Proof.
  unfold pretty, pretty_N. case_decide; [done|]. by apply pretty_N_go_digits.
Qed.

Lemma string_all_app P s1 s2 :
  string_all P (s1 +:+ s2) = string_all P s1 && string_all P s2.
Proof. induction s1 as [|c s1 IH]; simpl; [done|]. by rewrite IH, andb_assoc. Qed.

Lemma string_app_cons_inj (P : Ascii.ascii → bool) c a1 d1 a2 d2 :
  P c = false → string_all P d1 = true → string_all P d2 = true →
  a1 +:+ String c d1 = a2 +:+ String c d2 → a1 = a2 ∧ d1 = d2.
Proof.
  intros Hc H1 H2. revert a2. induction a1 as [|x a1 IH]; intros [|y a2]; simpl; intros E.
  - naive_solver.
  - injection E as -> ->. rewrite string_all_app in H1. simpl in H1.
    rewrite Hc in H1. by rewrite andb_false_r in H1.
  - injection E as <- <-. rewrite string_all_app in H2. simpl in H2.
    rewrite Hc in H2. by rewrite andb_false_r in H2.
  - injection E as -> E. destruct (IH _ E) as [-> ->]. done.
Qed.

Lemma string_cons_app_inj (P : Ascii.ascii → bool) c d1 a1 d2 a2 :
  P c = false → string_all P d1 = true → string_all P d2 = true →
  d1 +:+ String c a1 = d2 +:+ String c a2 → d1 = d2 ∧ a1 = a2.
Proof.
  intros Hc. revert d2. induction d1 as [|x d1 IH]; intros [|y d2]; simpl; intros H1 H2 E.
  - naive_solver.
  - injection E as <- _. by rewrite Hc in H2.
  - injection E as -> _. by rewrite Hc in H1.
  - injection E as -> E. apply andb_prop in H1 as [_ H1], H2 as [_ H2].
    destruct (IH d2) as [-> ->]; done.
Qed.

(** ** Parity and halving, on [nat] and on [N] *)

Lemma odd_mod i : (i mod 2 =? 1) = Nat.odd i.
Proof. by rewrite <-Nat.bit0_odd, Nat.bit0_eqb. Qed.

Lemma N_of_nat_eqb (a b : nat) : (N.of_nat a =? N.of_nat b)%N = (a =? b).
Proof. destruct (N.eqb_spec (N.of_nat a) (N.of_nat b)), (Nat.eqb_spec a b); try done; lia. Qed.

Lemma N_of_nat_ltb (a b : nat) : (N.of_nat a <? N.of_nat b)%N = (a <? b).
Proof. destruct (N.ltb_spec (N.of_nat a) (N.of_nat b)), (Nat.ltb_spec a b); try done; lia. Qed.

Lemma N_mod2_odd (i : nat) : (N.of_nat i mod 2 =? 1)%N = Nat.odd i.
Proof.
  change 2%N with (N.of_nat 2). change 1%N with (N.of_nat 1).
  by rewrite <-Nat2N.inj_mod, N_of_nat_eqb, odd_mod.
Qed.

Lemma N_mod2_even (i : nat) : (N.of_nat i mod 2 =? 0)%N = negb (Nat.odd i).
Proof.
  rewrite <-N_mod2_odd. pose proof (N.mod_lt (N.of_nat i) 2 ltac:(done)) as Hlt.
  generalize dependent (N.of_nat i mod 2)%N. intros m Hlt.
  destruct (N.eqb_spec m 0), (N.eqb_spec m 1); simpl; try done; lia.
Qed.

Lemma N_half (i : nat) : (N.of_nat i / 2)%N = N.of_nat (i / 2).
Proof. change 2%N with (N.of_nat 2). by rewrite <-Nat2N.inj_div. Qed.

(** ** Text in bytes *)

(** [String::from_utf8_lossy]: an ill-formed sequence becomes U+FFFD, taking the
    longest prefix that could start a character. *)
Definition in_range (lo hi : N) (b : byte) : bool :=
  (lo <=? Byte.to_N b)%N && (Byte.to_N b <=? hi)%N.
Definition is_cont (b : byte) : bool := in_range 128 191 b.
Definition fffd : bytes := [xef; xbf; xbd].
(** The number of continuation bytes after a lead byte, and the range of the
    first of them. *)
Definition utf8_lead (b : byte) : option (nat * (N * N)) :=
  if in_range 194 223 b then Some (1, (128%N, 191%N))
  else if in_range 224 224 b then Some (2, (160%N, 191%N))
  else if in_range 225 236 b then Some (2, (128%N, 191%N))
  else if in_range 237 237 b then Some (2, (128%N, 159%N))
  else if in_range 238 239 b then Some (2, (128%N, 191%N))
  else if in_range 240 240 b then Some (3, (144%N, 191%N))
  else if in_range 241 243 b then Some (3, (128%N, 191%N))
  else if in_range 244 244 b then Some (3, (128%N, 143%N))
  else None.
(** The continuation bytes of a character, as many as are well formed. *)
Fixpoint take_cont (n : nat) (range : N * N) (b : bytes) : bytes :=
  match n, b with
  | S n, x :: b => if in_range range.1 range.2 x then x :: take_cont n (128, 191)%N b else []
  | _, _ => []
  end.
Fixpoint utf8_lossy_bytes (fuel : nat) (b : bytes) : bytes :=
  match fuel, b with
  | _, [] => []
  | O, _ => []
  | S fuel, x :: b =>
      if in_range 0 127 x then x :: utf8_lossy_bytes fuel b
      else
        match utf8_lead x with
        | None => fffd ++ utf8_lossy_bytes fuel b
        | Some (n, range) =>
            let cs := take_cont n range b in
            (if (length cs =? n) then x :: cs else fffd)
              ++ utf8_lossy_bytes fuel (drop (length cs) b)
        end
  end.
Definition from_utf8_lossy (b : bytes) : string :=
  String.string_of_list_byte (utf8_lossy_bytes (length b) b).

(** [String::from_utf8]: the bytes are well formed exactly when the lossy decoding
    replaces nothing. *)
Definition from_utf8 (b : bytes) : option string :=
  if decide (utf8_lossy_bytes (length b) b = b) then Some (String.string_of_list_byte b) else None.

(** ** Hash maps

    [HashMap] iterates in some order of its entries, which depends on the
    hasher: code that depends on the order takes it as a parameter. *)
Class HashOrder := hash_order : ∀ (K A : Type) (e : EqDecision K) (c : Countable K), gmap K A → list (K * A).
Arguments hash_order {_ K A e c} m.
Class HashOrderLaws `{HashOrder} : Prop :=
  hash_order_perm : ∀ (K A : Type) (e : EqDecision K) (c : Countable K) (m : gmap K A),
    hash_order m ≡ₚ map_to_list m.

Lemma hash_order_singleton `{HashOrderLaws} `{Countable K} {A} (k : K) (a : A) :
  hash_order {[k := a]} = [(k, a)].
Proof.
  pose proof (hash_order_perm _ _ _ _ {[k := a]}) as Hperm. rewrite map_to_list_singleton in Hperm.
  by apply Permutation_singleton_r in Hperm.
Qed.

Lemma elem_of_hash_order `{HashOrderLaws} `{Countable K} {A} (m : gmap K A) k a :
  (k, a) ∈ hash_order m ↔ m !! k = Some a.
Proof. rewrite hash_order_perm. apply elem_of_map_to_list. Qed.

(** The order of the model's own maps. *)
Definition toy_hash_order : HashOrder := λ K A e c, map_to_list.
Lemma toy_hash_order_laws : @HashOrderLaws toy_hash_order.
Proof. intros K A e c m. done. Qed.

(** [Option::is_some]. *)
Definition is_some {A} (o : option A) : bool := match o with Some _ => true | None => false end.

(** A [Uuid] is its 16 bytes. *)
Abbreviation Uuid := (array 16).
