(* ===== verification/StateError.v ===== *)
(** * Stateful code with errors

    A handler of the program takes a state, may change it, and returns a result
    or an error; what it did before an error stays done.  This file has the monad
    in which the welcome, group update, epoch and file managers are written, with
    [?] as its bind, and the rule that lifts a property of the state through a
    handler. *)

From stdpp Require Import base tactics list.
From S2P Require Import Prelude.
Open Scope hc_scope.

Declare Scope hc_st_scope.
Delimit Scope hc_st_scope with st.

Definition ST (St E A : Type) : Type := St → res E A * St.

Section Monad.
Context {St E : Type}.

Definition st_ret {A} (a : A) : ST St E A := λ s, (Ok a, s).
Definition st_fail {A} (e : E) : ST St E A := λ s, (Err e, s).
Definition st_lift {A} (r : res E A) : ST St E A := λ s, (r, s).
Definition st_get : ST St E St := λ s, (Ok s, s).
Definition st_put (f : St → St) : ST St E unit := λ s, (Ok tt, f s).

Definition st_bind {A B} (m : ST St E A) (k : A → ST St E B) : ST St E B :=
  λ s, match m s with
       | (Ok a, s) => k a s
       | (Err e, s) => (Err e, s)
       | (Panic, s) => (Panic, s)
       | (Diverge, s) => (Diverge, s)
       end.

(** [map_err]. *)
Definition st_map_err {F A} (f : F → E) (m : ST St F A) : ST St E A :=
  λ s, let '(r, s) := m s in (map_err f r, s).

(** [match m { Ok(a) => .., Err(e) => .. }]. *)
Definition st_try {F A} (m : ST St F A) : ST St E (F + A) :=
  λ s, match m s with
       | (Ok a, s) => (Ok (inr a), s)
       | (Err e, s) => (Ok (inl e), s)
       | (Panic, s) => (Panic, s)
       | (Diverge, s) => (Diverge, s)
       end.

(** A [for] loop. *)
Fixpoint st_for {A} (l : list A) (f : A → ST St E unit) : ST St E unit :=
  match l with
  | [] => st_ret tt
  | a :: l => st_bind (f a) (λ _, st_for l f)
  end.

(** Run a handler of a component of the state. *)
Definition st_zoom {T A} (get : St → T) (set : T → St → St) (m : ST T E A) : ST St E A :=
  λ s, let '(r, t) := m (get s) in (r, set t s).
End Monad.

Notation "'let*' x ':=' m 'in' k" := (st_bind m (λ x, k))
  (at level 200, x pattern, m at level 100, k at level 200) : hc_st_scope.
Notation "'do*' m ';' k" := (st_bind m (λ _ : unit, k))
  (at level 200, m at level 100, k at level 200) : hc_st_scope.

(** ** Properties of the state that a handler keeps *)

Section Keeps.
Context {St E : Type}.

Definition keeps {F A} (P : St → Prop) (m : ST St F A) : Prop := ∀ s, P s → P (m s).2.

Variable P : St → Prop.

Lemma keeps_ret {A} (a : A) : keeps P (st_ret (E := E) a).
Proof. by intros s. Qed.
Lemma keeps_fail {A} (e : E) : keeps P (st_fail (A := A) e).
Proof. by intros s. Qed.
Lemma keeps_lift {A} (r : res E A) : keeps P (st_lift r).
Proof. by intros s. Qed.
Lemma keeps_get : keeps P (st_get (E := E)).
Proof. by intros s. Qed.
Lemma keeps_put f : (∀ s, P s → P (f s)) → keeps P (st_put (E := E) f).
Proof. intros Hf s. apply Hf. Qed.
Lemma keeps_bind {A B} (m : ST St E A) (k : A → ST St E B) :
  keeps P m → (∀ a, keeps P (k a)) → keeps P (st_bind m k).
Proof.
  intros Hm Hk s Hs. unfold st_bind. specialize (Hm s Hs).
  destruct (m s) as [[a|e| |] s']; simpl in *; auto. by apply Hk.
Qed.
Lemma keeps_lift_bind {A B} (r : res E A) (k : A → ST St E B) :
  (∀ a, r = Ok a → keeps P (k a)) → keeps P (st_bind (st_lift r) k).
Proof. intros Hk s Hs. unfold st_bind, st_lift. destruct r; try done. by apply Hk. Qed.
(** A bind that is known to start in a state where its first step keeps the property. *)
Lemma keeps_bind_at {A B} (m : ST St E A) (k : A → ST St E B) s :
  P (m s).2 → (∀ a, keeps P (k a)) → P (st_bind m k s).2.
Proof.
  intros Hm Hk. unfold st_bind. destruct (m s) as [[a|e| |] s']; simpl in *; auto. by apply Hk.
Qed.
Lemma keeps_map_err {F A} (f : F → E) (m : ST St F A) : keeps P m → keeps P (st_map_err f m).
Proof. intros Hm s Hs. unfold st_map_err. specialize (Hm s Hs). by destruct (m s). Qed.
Lemma keeps_try {F A} (m : ST St F A) : keeps P m → keeps P (st_try (E := E) m).
Proof. intros Hm s Hs. unfold st_try. specialize (Hm s Hs). by destruct (m s) as [[] ?]. Qed.
Lemma keeps_for {A} (l : list A) (f : A → ST St E unit) :
  (∀ a, a ∈ l → keeps P (f a)) → keeps P (st_for l f).
Proof.
  induction l as [|a l IH]; intros Hf; [apply keeps_ret|].
  apply keeps_bind; [apply Hf; by left|]. intros _. apply IH. intros x Hx. apply Hf. by right.
Qed.
End Keeps.

Create HintDb keeps.
#[export] Hint Resolve keeps_ret keeps_fail keeps_lift keeps_get keeps_map_err keeps_try : keeps.

(** Walks through a handler; leaves its calls and its updates of the state. *)
Ltac keep_st :=
  repeat match goal with
  | |- keeps _ (st_bind (st_lift _) _) => apply keeps_lift_bind; intros ? ?
  | |- keeps _ (st_bind _ _) => apply keeps_bind; [|intros ?]
  | |- keeps _ (st_map_err _ _) => apply keeps_map_err
  | |- keeps _ (st_try _) => apply keeps_try
  | |- keeps _ (st_ret _) => apply keeps_ret
  | |- keeps _ (st_fail _) => apply keeps_fail
  | |- keeps _ (st_lift _) => apply keeps_lift
  | |- keeps _ st_get => apply keeps_get
  | |- keeps _ (if ?b then _ else _) => destruct b
  | |- keeps _ (match ?x with _ => _ end) => destruct x eqn:?
  end.

(** ** Stepping through a successful run *)

Section Inversion.
Context {St E : Type}.

Lemma st_bind_Ok {A B} (m : ST St E A) (k : A → ST St E B) s b s' :
  st_bind m k s = (Ok b, s') ↔ ∃ a s1, m s = (Ok a, s1) ∧ k a s1 = (Ok b, s').
Proof. unfold st_bind. destruct (m s) as [[] ?]; naive_solver. Qed.

Lemma st_map_err_Ok {F A} (f : F → E) (m : ST St F A) s a s' :
  st_map_err f m s = (Ok a, s') ↔ m s = (Ok a, s').
Proof. unfold st_map_err. destruct (m s) as [[] ?]; naive_solver. Qed.

Lemma st_lift_Ok {A} (r : res E A) (s : St) a s' : st_lift r s = (Ok a, s') ↔ r = Ok a ∧ s' = s.
Proof. unfold st_lift. naive_solver. Qed.

Lemma st_try_Ok {F A} (m : ST St F A) s (x : F + A) s' :
  st_try (E := E) m s = (Ok x, s') ↔
    m s = (match x with inl e => Err e | inr a => Ok a end, s').
Proof. unfold st_try. destruct x, (m s) as [[] ?]; naive_solver. Qed.
Lemma st_bind_get {A} (k : St → ST St E A) s : st_bind st_get k s = k s s.
Proof. done. Qed.
Lemma st_bind_lift {A B} (r : res E A) (k : A → ST St E B) s :
  st_bind (st_lift r) k s =
    match r with Ok a => k a s | Err e => (Err e, s) | Panic => (Panic, s) | Diverge => (Diverge, s) end.
Proof. done. Qed.
End Inversion.

Ltac st_inv :=
  repeat match goal with
  | H : st_bind _ _ _ = (Ok _, _) |- _ =>
      apply st_bind_Ok in H; let a := fresh "a" in let s := fresh "s" in
      let H1 := fresh "Hst" in destruct H as (a & s & H1 & H)
  | H : st_map_err _ _ _ = (Ok _, _) |- _ => apply st_map_err_Ok in H
  | H : st_lift _ _ = (Ok _, _) |- _ => apply st_lift_Ok in H as [H ->]
  | H : st_try _ _ = (Ok _, _) |- _ => apply st_try_Ok in H
  | H : st_ret _ _ = (Ok _, _) |- _ => unfold st_ret in H; injection H as <- <-
  | H : st_get _ = (Ok _, _) |- _ => unfold st_get in H; injection H as <- <-
  | H : st_put _ _ = (Ok _, _) |- _ => unfold st_put in H; injection H as <- <-
  | H : st_fail _ _ = (Ok _, _) |- _ => discriminate H
  end.

(** ** Handlers that return, and handlers that succeed *)

Section Total.
Context {St E : Type}.

(** Neither a panic nor a wait for ever. *)
Definition settles {F A} (r : res F A) : Prop :=
  match r with Ok _ | Err _ => True | _ => False end.
Definition returns {F A} (m : ST St F A) : Prop := ∀ s, settles (m s).1.
Definition succeeds {F A} (m : ST St F A) : Prop := ∀ s, ∃ a s', m s = (Ok a, s').

Lemma returns_bind {A B} (m : ST St E A) (k : A → ST St E B) :
  returns m → (∀ a, returns (k a)) → returns (st_bind m k).
Proof.
  intros Hm Hk s. unfold st_bind. specialize (Hm s). destruct (m s) as [[a|e| |] s']; simpl in *; auto.
  apply Hk.
Qed.
Lemma returns_ret {A} (a : A) : returns (st_ret (St := St) (E := E) a).
Proof. by intros s. Qed.
Lemma returns_fail {A} (e : E) : returns (st_fail (St := St) (A := A) e).
Proof. by intros s. Qed.
Lemma returns_get : returns (st_get (St := St) (E := E)).
Proof. by intros s. Qed.
Lemma returns_lift {A} (r : res E A) : settles r → returns (st_lift (St := St) r).
Proof. by intros Hr s. Qed.
Lemma settles_map_err {F A} (f : F → E) (r : res F A) : settles r → settles (map_err f r).
Proof. by destruct r. Qed.
Lemma settles_bind {A B} (r : res E A) (k : A → res E B) :
  settles r → (∀ a, settles (k a)) → settles (res_bind r k).
Proof. intros Hr Hk. destruct r; try done. apply Hk. Qed.
Lemma returns_ok_or {A} (o : option A) (e : E) : returns (st_lift (St := St) (ok_or o e)).
Proof. intros s. by destruct o. Qed.
Lemma succeeds_returns {A} (m : ST St E A) : succeeds m → returns m.
Proof. intros Hm s. destruct (Hm s) as (a & s' & ->). done. Qed.

Lemma succeeds_ret {A} (a : A) : succeeds (st_ret (St := St) (E := E) a).
Proof. intros s. by eexists _, _. Qed.
Lemma succeeds_get : succeeds (st_get (St := St) (E := E)).
Proof. intros s. by eexists _, _. Qed.
Lemma succeeds_put f : succeeds (st_put (St := St) (E := E) f).
Proof. intros s. by eexists _, _. Qed.
Lemma succeeds_bind {A B} (m : ST St E A) (k : A → ST St E B) :
  succeeds m → (∀ a, succeeds (k a)) → succeeds (st_bind m k).
Proof.
  intros Hm Hk s. destruct (Hm s) as (a & s' & E'). unfold st_bind. rewrite E'. apply Hk.
Qed.
Lemma succeeds_try {F A} (m : ST St F A) : returns m → succeeds (st_try (E := E) m).
Proof.
  intros Hm s. specialize (Hm s). unfold st_try. destruct (m s) as [[] s']; simpl in Hm; naive_solver.
Qed.
Lemma succeeds_for {A} (l : list A) (f : A → ST St E unit) :
  (∀ a, succeeds (f a)) → succeeds (st_for l f).
Proof.
  intros Hf. induction l as [|a l IH]; [apply succeeds_ret|]. by apply succeeds_bind.
Qed.
End Total.
