(* ===== verification/Crypto.v ===== *)
(** * The crypto crate's wrappers ([crates/crypto/src])

    SHA-256, Ed25519 and ChaCha20-Poly1305 come from crates outside the
    repository, so each is a type class of operations with the laws that the
    library documents.  On top of them: the key, nonce and signature wrappers
    of [signatures.rs] and [aead.rs] with their length checks, the AAD domain
    separation, and the epoch identifier mapping of [epoch_id.rs].  The file
    ends with a small concrete instance of every class, used to evaluate the
    definitions on concrete inputs. *)

From S2P Require Import Prelude.
From Stdlib Require Import Strings.Byte.
From stdpp Require Import base tactics numbers list gmap strings pretty option.
Open Scope hc_scope.

(** ** SHA-256 *)

Class Sha256 := sha256 : bytes → array 32.

(** No two distinct messages of a finite set have the same digest.  A protocol
    run hashes finitely many messages, so this is what collision resistance
    gives for that run; it is decidable, and SHA-256 can satisfy it (an
    injective SHA-256 on all messages cannot exist). *)
Definition collision_free `{Sha256} (msgs : list bytes) : Prop :=
  Forall (λ x, Forall (λ y, sha256 x = sha256 y → x = y) msgs) msgs.

#[export] Instance collision_free_dec `{Sha256} msgs : Decision (collision_free msgs).
Proof. unfold collision_free. apply _. Defined.

Lemma collision_free_eq `{Sha256} msgs x y :
  collision_free msgs → x ∈ msgs → y ∈ msgs → sha256 x = sha256 y → x = y.
Proof.
  unfold collision_free. rewrite list.Forall_forall. intros Hcf Hx Hy.
  specialize (Hcf x Hx). rewrite list.Forall_forall in Hcf. auto.
Qed.

Lemma collision_free_subset `{Sha256} msgs msgs' :
  collision_free msgs → msgs' ⊆ msgs → collision_free msgs'.
Proof.
  intros Hcf Hsub. apply list.Forall_forall. intros x Hx. apply list.Forall_forall. intros y Hy.
  apply (collision_free_eq msgs); auto.
Qed.

(** The same, computing each digest once. *)
Fixpoint distinct_digests (dm : list (bytes * bytes)) : bool :=
  match dm with
  | [] => true
  | (d, m) :: dm =>
      forallb (λ dm', negb (bool_decide (d = dm'.1)) || bool_decide (m = dm'.2)) dm
      && distinct_digests dm
  end.

Lemma distinct_digests_sound `{Sha256} msgs :
  distinct_digests ((λ m, (arr (sha256 m), m)) <$> msgs) = true → collision_free msgs.
Proof.
  assert (∀ m l, forallb (λ dm', negb (bool_decide (arr (sha256 m) = dm'.1))
      || bool_decide (m = dm'.2)) ((λ m, (arr (sha256 m), m)) <$> l) = true →
    Forall (λ y, sha256 m = sha256 y → m = y) l) as Hall.
  { intros m l. induction l as [|y l IH]; [constructor|]. cbn [fmap list_fmap forallb fst snd].
    rewrite andb_true_iff, orb_true_iff, negb_true_iff, bool_decide_eq_false, bool_decide_eq_true.
    intros [Hy Hl]. constructor; [|auto]. intros E. destruct Hy as [Hy|Hy]; [|done].
    by rewrite E in Hy. }
  unfold collision_free. induction msgs as [|m msgs IH]; [constructor|].
  cbn [fmap list_fmap distinct_digests]. rewrite andb_true_iff. intros [Hm Hr].
  apply Hall in Hm. specialize (IH Hr). rewrite list.Forall_forall in Hm, IH |- *.
  intros x Hx. rewrite list.Forall_forall. intros y Hy E.
  apply elem_of_cons in Hx as [->|Hx], Hy as [->|Hy]; [done|auto|symmetry; auto|].
  specialize (IH x Hx). rewrite list.Forall_forall in IH. auto.
Qed.

(** Evaluates the hypothesis on concrete messages. *)
Ltac decide_collision_free := apply distinct_digests_sound; vm_compute; reflexivity.

(** ** Text encodings of bytes (the [hex] and [base64] crates) *)
Class Hex := {
  hex_encode : bytes → string;
  hex_decode : string → option bytes;
}.
Class HexLaws `{Hex} : Prop := hex_decode_encode : ∀ b, hex_decode (hex_encode b) = Some b.

(** ** Errors ([error.rs]) *)

Inductive CryptoError :=
| InvalidKey (msg : string)
| InvalidCiphertext (msg : string)
| InvalidSignature (msg : string)
| InvalidNonce (msg : string)
| EncryptionFailure (msg : string)
| DecryptionFailure (msg : string)
| RandomFailure (msg : string)
| KeyDerivationFailure (msg : string)
| Internal (msg : string).

Definition CryptoError_display (e : CryptoError) : string :=
  match e with
  | InvalidKey msg => "Invalid key: " +:+ msg
  | InvalidCiphertext msg => "Invalid ciphertext: " +:+ msg
  | InvalidSignature msg => "Invalid signature: " +:+ msg
  | InvalidNonce msg => "Invalid nonce: " +:+ msg
  | EncryptionFailure msg => "Encryption failed: " +:+ msg
  | DecryptionFailure msg => "Decryption failed: " +:+ msg
  | RandomFailure msg => "Random number generation failed: " +:+ msg
  | KeyDerivationFailure msg => "Key derivation failed: " +:+ msg
  | Internal msg => "Internal error: " +:+ msg
  end.

Definition bad_length (want got : nat) : string :=
  "Expected " +:+ pretty (N.of_nat want) +:+ " bytes, got " +:+ pretty (N.of_nat got).

(** ** Ed25519 ([signatures.rs]) *)

Definition SIGNING_KEY_LEN : nat := 32.
Definition VERIFYING_KEY_LEN : nat := 32.
Definition SIGNATURE_LEN : nat := 64.

(** The operations of [ed25519_dalek] that the wrapper calls.  A verifying key
    is compared by its 32 compressed bytes, and decoding those bytes can fail. *)
Class Ed25519 := {
  dalek_public : array 32 → array 32;
  dalek_point_error : array 32 → option string;
  dalek_sign : array 32 → bytes → res string (array 64);
  dalek_verify : array 32 → bytes → array 64 → option string;
}.

Class Ed25519Laws `{Ed25519} : Prop := {
  dalek_public_valid sk : dalek_point_error (dalek_public sk) = None;
  dalek_sign_verify sk m s :
    dalek_sign sk m = Ok s → dalek_verify (dalek_public sk) m s = None;
}.

Record SigningKey := mkSigningKey { sk_inner : array 32 }.
Record VerifyingKey := mkVerifyingKey { vk_inner : array 32 }.
Record Signature := mkSignature { sig_inner : array 64; sig_bytes : array 64 }.
Record Ed25519KeyPair := mkEd25519KeyPair {
  kp_signing_key : SigningKey;
  kp_verifying_key : VerifyingKey;
}.
(** [Ed25519KeyPair::public_key_bytes]. *)
Definition public_key_bytes (k : Ed25519KeyPair) : bytes := arr (vk_inner (kp_verifying_key k)).

#[export] Instance VerifyingKey_eq_dec : EqDecision VerifyingKey.
Proof. solve_decision. Defined.
#[export] Instance VerifyingKey_countable : Countable VerifyingKey.
Proof. apply (inj_countable' vk_inner mkVerifyingKey). by intros []. Defined.

Section Signatures.
Context `{Ed25519}.

Definition SigningKey_from_bytes (b : bytes) : res CryptoError SigningKey :=
  match array_of SIGNING_KEY_LEN b with
  | None => Err (InvalidKey (bad_length SIGNING_KEY_LEN (length b)))
  | Some a => Ok (mkSigningKey a)
  end.

Definition SigningKey_verifying_key (k : SigningKey) : VerifyingKey :=
  mkVerifyingKey (dalek_public (sk_inner k)).

Definition SigningKey_sign (k : SigningKey) (message : bytes) : res CryptoError Signature :=
  let? s := map_err (λ e, InvalidSignature ("Signing failed: " +:+ e))
              (dalek_sign (sk_inner k) message) in
  Ok (mkSignature s s).

Definition VerifyingKey_from_bytes (b : bytes) : res CryptoError VerifyingKey :=
  match array_of VERIFYING_KEY_LEN b with
  | None => Err (InvalidKey (bad_length VERIFYING_KEY_LEN (length b)))
  | Some a =>
      match dalek_point_error a with
      | Some e => Err (InvalidKey ("Invalid verifying key: " +:+ e))
      | None => Ok (mkVerifyingKey a)
      end
  end.

Definition VerifyingKey_to_bytes (k : VerifyingKey) : array 32 := vk_inner k.

Definition VerifyingKey_verify (k : VerifyingKey) (message : bytes) (s : Signature)
  : res CryptoError unit :=
  match dalek_verify (vk_inner k) message (sig_inner s) with
  | Some e => Err (InvalidSignature ("Verification failed: " +:+ e))
  | None => Ok tt
  end.

Definition Signature_from_bytes (b : bytes) : res CryptoError Signature :=
  match array_of SIGNATURE_LEN b with
  | None => Err (InvalidSignature (bad_length SIGNATURE_LEN (length b)))
  | Some a => Ok (mkSignature a a)
  end.

Definition Signature_to_bytes (s : Signature) : array 64 := sig_bytes s.

(** [signatures::sign] and [signatures::verify]. *)
Definition sign := SigningKey_sign.
Definition verify := VerifyingKey_verify.

Fixpoint batch_verify_loop (l : list (VerifyingKey * bytes * Signature)) : res CryptoError unit :=
  match l with
  | [] => Ok tt
  | (k, m, s) :: l => let? _ := VerifyingKey_verify k m s in batch_verify_loop l
  end.

Definition batch_verify (ks : list VerifyingKey) (ms : list bytes) (ss : list Signature)
  : res CryptoError unit :=
  if negb (length ks =? length ms)%nat || negb (length ms =? length ss)%nat
  then Err (InvalidSignature "Mismatched lengths for batch verification")
  else batch_verify_loop (zip (zip ks ms) ss).

Lemma VerifyingKey_from_to_bytes (k : VerifyingKey) :
  dalek_point_error (vk_inner k) = None →
  VerifyingKey_from_bytes (VerifyingKey_to_bytes k) = Ok k.
Proof.
  intros Hk. unfold VerifyingKey_from_bytes, VerifyingKey_to_bytes, VERIFYING_KEY_LEN.
  rewrite array_of_arr, Hk. by destruct k.
Qed.

Lemma Signature_from_to_bytes (k : SigningKey) m s :
  SigningKey_sign k m = Ok s → Signature_from_bytes (Signature_to_bytes s) = Ok s.
Proof.
  unfold SigningKey_sign. intros Hs. inv_res.
  unfold Signature_from_bytes, Signature_to_bytes, SIGNATURE_LEN. simpl.
  by rewrite array_of_arr.
Qed.

(** A signature made by a key passes [verify] under its verifying key. *)
Lemma sign_verify `{!Ed25519Laws} (k : SigningKey) m s :
  SigningKey_sign k m = Ok s → VerifyingKey_verify (SigningKey_verifying_key k) m s = Ok tt.
Proof.
  unfold SigningKey_sign, VerifyingKey_verify. intros Hs. inv_res. simpl.
  by erewrite dalek_sign_verify.
Qed.

Lemma batch_verify_loop_Ok l :
  batch_verify_loop l = Ok tt ↔
  Forall (λ '(k, m, s), VerifyingKey_verify k m s = Ok tt) l.
Proof.
  induction l as [|[[k m] s] l IH]; simpl; [split; auto|].
  rewrite list.Forall_cons. destruct (VerifyingKey_verify k m s) as [[]| | |] eqn:E; simpl.
  - rewrite IH. naive_solver.
  - naive_solver.
  - naive_solver.
  - naive_solver.
Qed.
End Signatures.

(** ** ChaCha20-Poly1305 ([aead.rs]) *)

Definition AEAD_KEY_LEN : nat := 32.
Definition AEAD_NONCE_LEN : nat := 12.
Definition AEAD_TAG_LEN : nat := 16.

(** [chacha20poly1305]'s [encrypt] and [decrypt] on a key, a nonce, the
    additional data and a message; [None] is the crate's opaque error. *)
Class Aead := {
  chacha_encrypt : array 32 → array 12 → bytes → bytes → option bytes;
  chacha_decrypt : array 32 → array 12 → bytes → bytes → option bytes;
}.

Class AeadLaws `{Aead} : Prop := {
  chacha_length k n aad m c :
    chacha_encrypt k n aad m = Some c → length c = length m + AEAD_TAG_LEN;
  chacha_correct k n aad m c :
    chacha_encrypt k n aad m = Some c → chacha_decrypt k n aad c = Some m;
}.

(** The crate only refuses messages of 2^32 - 1 blocks of 64 bytes or more. *)
Class AeadTotal `{Aead} : Prop :=
  chacha_total k n aad m :
    (N.of_nat (length m) < 64 * 4294967295)%N → is_Some (chacha_encrypt k n aad m).

Record Key := mkKey { key_bytes : array 32 }.
Record Nonce := mkNonce { nonce_bytes : array 12 }.

Inductive AeadContext := FileData | Welcome | GroupUpdate | RecoveryWriterHandoff.

Definition domain_prefix (c : AeadContext) : bytes :=
  match c with
  | FileData => bytes_of "filedata:"
  | Welcome => bytes_of "welcome:"
  | GroupUpdate => bytes_of "groupupdate:"
  | RecoveryWriterHandoff => bytes_of "recovery-writer-handoff:"
  end.

Definition Key_from_bytes (b : bytes) : res CryptoError Key :=
  match array_of AEAD_KEY_LEN b with
  | None => Err (InvalidKey (bad_length AEAD_KEY_LEN (length b)))
  | Some a => Ok (mkKey a)
  end.

Definition Nonce_from_bytes (b : bytes) : res CryptoError Nonce :=
  match array_of AEAD_NONCE_LEN b with
  | None => Err (InvalidNonce (bad_length AEAD_NONCE_LEN (length b)))
  | Some a => Ok (mkNonce a)
  end.

Section AeadOps.
Context `{Aead}.

Definition domain_aad (context : AeadContext) (aad : bytes) : bytes :=
  domain_prefix context ++ aad.

Definition seal (k : Key) (n : Nonce) (context : AeadContext) (aad plaintext : bytes)
  : res CryptoError bytes :=
  ok_or (chacha_encrypt (key_bytes k) (nonce_bytes n) (domain_aad context aad) plaintext)
        (EncryptionFailure "ChaCha20-Poly1305 encryption failed").

Definition open (k : Key) (n : Nonce) (context : AeadContext) (aad ciphertext : bytes)
  : res CryptoError bytes :=
  ok_or (chacha_decrypt (key_bytes k) (nonce_bytes n) (domain_aad context aad) ciphertext)
        (DecryptionFailure "ChaCha20-Poly1305 decryption failed").

Definition seal_with_aad (k : Key) (n : Nonce) (aad plaintext : bytes) : res CryptoError bytes :=
  ok_or (chacha_encrypt (key_bytes k) (nonce_bytes n) aad plaintext)
        (EncryptionFailure "ChaCha20-Poly1305 encryption failed").

Definition open_with_aad (k : Key) (n : Nonce) (aad ciphertext : bytes) : res CryptoError bytes :=
  ok_or (chacha_decrypt (key_bytes k) (nonce_bytes n) aad ciphertext)
        (DecryptionFailure "ChaCha20-Poly1305 decryption failed").

Lemma seal_open `{!AeadLaws} k n context aad m c :
  seal k n context aad m = Ok c → open k n context aad c = Ok m.
Proof.
  unfold seal, open. rewrite !ok_or_Ok. apply chacha_correct.
Qed.

Lemma seal_length `{!AeadLaws} k n context aad m c :
  seal k n context aad m = Ok c → length c = length m + AEAD_TAG_LEN.
Proof. unfold seal. rewrite ok_or_Ok. apply chacha_length. Qed.

Lemma seal_total `{!AeadTotal} k n context aad m :
  (N.of_nat (length m) < 64 * 4294967295)%N → ∃ c, seal k n context aad m = Ok c.
Proof. intros Hm. destruct (chacha_total (key_bytes k) (nonce_bytes n) (domain_aad context aad) m Hm)
  as [c Hc]. exists c. unfold seal. by rewrite Hc. Qed.

(** The context prefixes are pairwise different in their first byte, so the AAD
    handed to the cipher determines the context and the caller's AAD. *)
Lemma domain_aad_inj c1 c2 a1 a2 :
  domain_aad c1 a1 = domain_aad c2 a2 → c1 = c2 ∧ a1 = a2.
Proof.
  unfold domain_aad. destruct c1, c2; simpl; intros E; simplify_eq; auto.
Qed.
End AeadOps.

(** ** HKDF-SHA256 ([kdf.rs]) *)

Definition HKDF_MAX_OUTPUT_LEN : nat := 255 * 32.
Definition DERIVED_KEY_LEN : nat := 32.

(** The operations of the [hkdf] crate: extraction, the check of a given
    pseudorandom key, and expansion, with the text of their errors. *)
Class Hkdf := {
  hkdf_prk : option bytes → bytes → bytes;
  hkdf_prk_error : bytes → option string;
  hkdf_okm : bytes → bytes → nat → res string bytes;
}.

(** What the crate documents: a pseudorandom key of at least the hash length is
    accepted, and expansion up to the RFC 5869 limit yields the requested
    length. *)
Class HkdfLaws `{Hkdf} : Prop := {
  hkdf_prk_long prk : 32 ≤ length prk → hkdf_prk_error prk = None;
  hkdf_prk_length salt ikm : length (hkdf_prk salt ikm) = 32;
  hkdf_okm_total prk info len : len ≤ HKDF_MAX_OUTPUT_LEN →
    ∃ okm, hkdf_okm prk info len = Ok okm ∧ length okm = len;
}.

Inductive HkdfContext :=
| EpochKey | FileKey | MessageKey | AuthKey | WelcomeKey | GroupUpdateKey | KeyWrapping.

Definition info_string (c : HkdfContext) : bytes :=
  match c with
  | EpochKey => bytes_of "epoch-key-v1"
  | FileKey => bytes_of "file-key-v1"
  | MessageKey => bytes_of "message-key-v1"
  | AuthKey => bytes_of "auth-key-v1"
  | WelcomeKey => bytes_of "welcome-key-v1"
  | GroupUpdateKey => bytes_of "groupupdate-key-v1"
  | KeyWrapping => bytes_of "kek-wrap-v1"
  end.

Section Kdf.
Context `{Hkdf}.

Definition invalid_output_length (length : nat) : CryptoError :=
  KeyDerivationFailure ("Invalid output length: " +:+ pretty (N.of_nat length)
    +:+ " (max: " +:+ pretty (N.of_nat HKDF_MAX_OUTPUT_LEN) +:+ ")").

Definition hkdf_extract (salt : option bytes) (ikm : bytes) : bytes := hkdf_prk salt ikm.

Definition hkdf_expand_with_info (prk info : bytes) (length : nat) : res CryptoError bytes :=
  if (length =? 0) || (HKDF_MAX_OUTPUT_LEN <? length) then Err (invalid_output_length length)
  else
    match hkdf_prk_error prk with
    | Some e => Err (KeyDerivationFailure ("Invalid PRK: " +:+ e))
    | None => map_err (λ e, KeyDerivationFailure ("HKDF expansion failed: " +:+ e))
                (hkdf_okm prk info length)
    end.

Definition hkdf_expand (prk : bytes) (context : HkdfContext) (length : nat)
  : res CryptoError bytes :=
  hkdf_expand_with_info prk (info_string context) length.

Definition hkdf_derive (salt : option bytes) (ikm : bytes) (context : HkdfContext) (length : nat)
  : res CryptoError bytes :=
  if (length =? 0) || (HKDF_MAX_OUTPUT_LEN <? length) then Err (invalid_output_length length)
  else map_err (λ e, KeyDerivationFailure ("HKDF derivation failed: " +:+ e))
         (hkdf_okm (hkdf_prk salt ikm) (info_string context) length).

Fixpoint hkdf_expand_all (prk : bytes) (contexts_and_lengths : list (HkdfContext * nat))
  : res CryptoError (list bytes) :=
  match contexts_and_lengths with
  | [] => Ok []
  | (context, length) :: rest =>
      let? key := hkdf_expand prk context length in
      let? keys := hkdf_expand_all prk rest in
      Ok (key :: keys)
  end.
Definition hkdf_derive_multiple (salt : option bytes) (ikm : bytes)
    (contexts_and_lengths : list (HkdfContext * nat)) : res CryptoError (list bytes) :=
  hkdf_expand_all (hkdf_extract salt ikm) contexts_and_lengths.

(** [copy_from_slice] panics when the lengths differ. *)
Definition derive_key (salt : option bytes) (ikm : bytes) (context : HkdfContext)
  : res CryptoError (array 32) :=
  let? key_vec := hkdf_derive salt ikm context DERIVED_KEY_LEN in
  unwrap (array_of 32 key_vec).

Definition hkdf_stretch `{Sha256} (password salt : bytes) (iterations : N) (context : HkdfContext)
    (length : nat) : res CryptoError bytes :=
  if (iterations =? 0)%N then
    Err (KeyDerivationFailure "Iterations must be greater than 0")
  else
    let current := N.iter (iterations - 1) (λ c : bytes, arr (sha256 c))
                     (arr (sha256 (salt ++ password))) in
    hkdf_derive (Some salt) current context length.

(** A key of 32 bytes always yields a wrapping key of 32 bytes. *)
Lemma hkdf_expand_32 `{!HkdfLaws} prk context :
  32 ≤ length prk → ∃ okm, hkdf_expand prk context 32 = Ok okm ∧ length okm = 32.
Proof.
  intros Hprk. unfold hkdf_expand, hkdf_expand_with_info. cbn [Nat.eqb orb].
  rewrite hkdf_prk_long by done.
  destruct (hkdf_okm_total prk (info_string context) 32) as (okm & -> & Hl).
  { apply Nat.leb_le. reflexivity. }
  by exists okm.
Qed.
End Kdf.

(** ** Epoch identifiers ([epoch_id.rs])

    A [Uuid] is its 16 bytes. *)
Section EpochIdMapper.
Context `{Sha256}.

Definition epoch_mac (epoch_id : N) (group_context : bytes) : array 32 :=
  sha256 (group_context ++ be_bytes 8 epoch_id ++ bytes_of "epoch-map-v1").

Lemma u64_to_uuid_length epoch_id group_context :
  length (be_bytes 8 epoch_id ++ take 8 (epoch_mac epoch_id group_context)) = 16.
Proof. rewrite length_app, be_bytes_length, length_take, arr_length. done. Qed.

Definition u64_to_uuid (epoch_id : N) (group_context : bytes) : array 16 :=
  dexist (be_bytes 8 epoch_id ++ take 8 (epoch_mac epoch_id group_context))
         (u64_to_uuid_length epoch_id group_context).

Definition uuid_to_u64 (uuid : array 16) (group_context : bytes) : option N :=
  let epoch_id := be_num (take 8 uuid) in
  if decide (take 8 (arr (epoch_mac epoch_id group_context)) = drop 8 (arr uuid))
  then Some epoch_id
  else None.

Definition verify_epoch_mapping (u64_id : N) (uuid : array 16) (group_context : bytes) : bool :=
  bool_decide (u64_to_uuid u64_id group_context = uuid).

Lemma arr_u64_to_uuid e ctx :
  arr (u64_to_uuid e ctx) = be_bytes 8 e ++ take 8 (epoch_mac e ctx).
Proof. done. Qed.

Lemma uuid_to_u64_lt uuid ctx e : uuid_to_u64 uuid ctx = Some e → (e < U64)%N.
Proof.
  unfold uuid_to_u64. case_decide; intros [= <-]. rewrite U64_pow.
  eapply N.lt_le_trans; [apply be_num_lt|].
  rewrite length_take, arr_length. done.
Qed.

Lemma uuid_to_u64_sound uuid ctx e :
  uuid_to_u64 uuid ctx = Some e → u64_to_uuid e ctx = uuid.
Proof.
  unfold uuid_to_u64. case_decide as Hmac; intros [= <-]. apply arr_inj.
  rewrite arr_u64_to_uuid, Hmac. etransitivity; [|apply (take_drop 8)]. f_equal.
  rewrite <-(be_bytes_num (take 8 (arr uuid))) at 2. rewrite length_take, arr_length. done.
Qed.

Lemma uuid_to_u64_complete ctx e :
  (e < U64)%N → uuid_to_u64 (u64_to_uuid e ctx) ctx = Some e.
Proof.
  intros He. unfold uuid_to_u64. rewrite arr_u64_to_uuid.
  rewrite take_app_length', drop_app_length', be_num_bytes by
    (rewrite ?be_bytes_length, <-?U64_pow; done).
  by case_decide.
Qed.

(** the two directions of the mapping agree: a UUID decodes to an
    epoch exactly when that epoch encodes to it under the same group context. *)
Theorem epoch_id_mapping_exact uuid ctx e :
  uuid_to_u64 uuid ctx = Some e ↔ (e < U64)%N ∧ u64_to_uuid e ctx = uuid.
Proof.
  split.
  - eauto using uuid_to_u64_lt, uuid_to_u64_sound.
  - intros [He <-]. by apply uuid_to_u64_complete.
Qed.
End EpochIdMapper.

(** ** Concrete instances

    Small computable stand-ins that satisfy the laws, for evaluating the
    definitions.  They are definitions, not instances: a statement uses one
    only by naming it. *)

Definition toy_mask : N := 2 ^ 256 - 1.

Definition toy_digest_num (m : bytes) : N :=
  foldl (λ h b, N.land (h * 257 + Byte.to_N b + 1) toy_mask)%N 7%N m.

Definition hex_digit (n : N) : Ascii.ascii :=
  Ascii.ascii_of_N (if (n <? 10)%N then 48 + n else 87 + n)%N.
Definition hex_value (a : Ascii.ascii) : N :=
  let n := Ascii.N_of_ascii a in if (n <? 58)%N then (n - 48)%N else (n - 87)%N.
Fixpoint hex_enc (b : bytes) : string :=
  match b with
  | [] => ""
  | x :: b => String (hex_digit (Byte.to_N x / 16)) (String (hex_digit (Byte.to_N x mod 16)) (hex_enc b))
  end.
Fixpoint hex_dec (s : string) : option bytes :=
  match s with
  | String a (String b s) => cons (byte_of_N (hex_value a * 16 + hex_value b)) <$> hex_dec s
  | EmptyString => Some []
  | _ => None
  end.
Definition toy_hex : Hex := {| hex_encode := hex_enc; hex_decode := hex_dec |}.

Definition toy_sha256 : Sha256 :=
  λ m, dexist (le_bytes 32 (toy_digest_num m)) (le_bytes_length 32 (toy_digest_num m)).

Definition toy_tag (sk : array 32) (m : bytes) : array 64 :=
  let b := le_bytes 64 (toy_digest_num (arr sk ++ m)) in
  dexist b (le_bytes_length 64 (toy_digest_num (arr sk ++ m))).

Definition toy_ed25519 : Ed25519 := {|
  dalek_public := λ sk, sk;
  dalek_point_error := λ _, None;
  dalek_sign := λ sk m, Ok (toy_tag sk m);
  dalek_verify := λ vk m s,
    if decide (s = toy_tag vk m) then None else Some "signature error";
|}.

Lemma toy_ed25519_laws : @Ed25519Laws toy_ed25519.
Proof.
  split; [done|]. intros sk m s. simpl. intros [= <-]. by rewrite decide_True.
Qed.

Definition toy_aead_tag (k : array 32) (n : array 12) (aad m : bytes) : bytes :=
  le_bytes 16 (toy_digest_num (arr k ++ arr n ++ le_bytes 8 (N.of_nat (length aad)) ++ aad ++ m)).

Definition toy_aead : Aead := {|
  chacha_encrypt := λ k n aad m, Some (m ++ toy_aead_tag k n aad m);
  chacha_decrypt := λ k n aad c,
    let m := take (length c - 16) c in
    if decide (drop (length c - 16) c = toy_aead_tag k n aad m) then Some m else None;
|}.

Lemma toy_aead_laws : @AeadLaws toy_aead.
Proof.
  split; intros k n aad m c; simpl; intros [= <-].
  - rewrite length_app. unfold toy_aead_tag. by rewrite le_bytes_length.
  - assert (length (m ++ toy_aead_tag k n aad m) - 16 = length m) as ->.
    { rewrite length_app. unfold toy_aead_tag. rewrite le_bytes_length. lia. }
    rewrite take_app_length, drop_app_length. by rewrite decide_True.
Qed.

Definition toy_hkdf : Hkdf := {|
  hkdf_prk := λ salt ikm, le_bytes 32 (toy_digest_num (default [] salt ++ ikm));
  hkdf_prk_error := λ prk, if (length prk <? 32) then Some "invalid length" else None;
  hkdf_okm := λ prk info len,
    if (HKDF_MAX_OUTPUT_LEN <? len) then Err "invalid length"
    else Ok (le_bytes len (toy_digest_num (prk ++ info)));
|}.

Lemma toy_hkdf_laws : @HkdfLaws toy_hkdf.
Proof.
  split.
  - intros prk Hp. simpl. by destruct (Nat.ltb_spec (length prk) 32); [lia|].
  - intros. apply le_bytes_length.
  - intros prk info len Hl. simpl. destruct (Nat.ltb_spec HKDF_MAX_OUTPUT_LEN len); [lia|].
    eexists. split; [done|]. apply le_bytes_length.
Qed.

Lemma toy_aead_total : @AeadTotal toy_aead.
Proof. intros k n aad m _. by eexists. Qed.

(** A prefix-free serialiser, for the concrete instances of [serde_json]. *)
Class Ser (A : Type) := ser : A → bytes.
Class SerLaws (A : Type) `{Ser A} : Prop :=
  ser_app_inj : ∀ (a b : A) r s, ser a ++ r = ser b ++ s → a = b ∧ r = s.

#[export] Instance ser_array n : Ser (array n) := arr.
#[export] Instance ser_array_laws n : SerLaws (array n).
Proof.
  intros a b r s E. unfold ser, ser_array in E.
  apply app_split_eq in E as [E ->]; [|by rewrite !arr_length].
  split; [by apply arr_inj|done].
Qed.

#[export] Instance ser_byte : Ser byte := λ b, [b].
#[export] Instance ser_byte_laws : SerLaws byte.
Proof. intros a b r s E. by injection E. Qed.

Fixpoint ser_pos (p : positive) : bytes :=
  match p with
  | xH => [x00]
  | xO p => x01 :: ser_pos p
  | xI p => x02 :: ser_pos p
  end.
#[export] Instance ser_N : Ser N := λ n, match n with N0 => [x00] | Npos p => x01 :: ser_pos p end.
Lemma ser_pos_inj p q r s : ser_pos p ++ r = ser_pos q ++ s → p = q ∧ r = s.
Proof.
  revert q. induction p as [p IH|p IH|]; intros [q|q|] E; simpl in E; try discriminate E;
    injection E as E; [apply IH in E as [-> ->]|apply IH in E as [-> ->]|]; done.
Qed.
#[export] Instance ser_N_laws : SerLaws N.
Proof.
  intros [|p] [|q] r s E; try discriminate E; injection E as E; [done|].
  by apply ser_pos_inj in E as [-> ->].
Qed.

#[export] Instance ser_prod {A B} `{Ser A, Ser B} : Ser (A * B) := λ ab, ser ab.1 ++ ser ab.2.
#[export] Instance ser_prod_laws {A B} `{SerLaws A, SerLaws B} : SerLaws (A * B).
Proof.
  intros [a b] [c d] r s E. unfold ser, ser_prod in E. cbn [fst snd] in E.
  rewrite <-!app_assoc in E. apply ser_app_inj in E as [-> E]. by apply ser_app_inj in E as [-> ->].
Qed.

#[export] Instance ser_sum {A B} `{Ser A, Ser B} : Ser (A + B) :=
  λ ab, match ab with inl a => x00 :: ser a | inr b => x01 :: ser b end.
#[export] Instance ser_sum_laws {A B} `{SerLaws A, SerLaws B} : SerLaws (A + B).
Proof.
  intros [a|a] [b|b] r s E; try discriminate E; injection E as E;
    by apply ser_app_inj in E as [-> ->].
Qed.

#[export] Instance ser_option {A} `{Ser A} : Ser (option A) :=
  λ o, match o with None => [x00] | Some a => x01 :: ser a end.
#[export] Instance ser_option_laws {A} `{SerLaws A} : SerLaws (option A).
Proof.
  intros [a|] [b|] r s E; try discriminate E; injection E as E; [|done].
  by apply ser_app_inj in E as [-> ->].
Qed.

#[export] Instance ser_list {A} `{Ser A} : Ser (list A) :=
  fix go l := match l with [] => [x00] | a :: l => x01 :: ser a ++ go l end.
#[export] Instance ser_list_laws {A} `{SerLaws A} : SerLaws (list A).
Proof.
  intros a. induction a as [|x a IH]; intros [|y b] r s E; try discriminate E;
    injection E as E; [done|].
  rewrite <-!app_assoc in E. apply ser_app_inj in E as [-> E]. by apply IH in E as [-> ->].
Qed.

#[export] Instance ser_string : Ser string := λ s, ser (bytes_of s).
#[export] Instance ser_string_laws : SerLaws string.
Proof.
  intros a b r s E. unfold ser, ser_string in E. apply ser_app_inj in E as [E ->].
  split; [by apply bytes_of_inj|done].
Qed.

#[export] Instance ser_inj {A} `{SerLaws A} : Inj (=) (=) (ser (A := A)).
Proof.
  intros a b E. apply (ser_app_inj a b [] []). by rewrite E.
Qed.
