(* ===== verification/TreeTheory.v ===== *)
(** * Level-by-level Merkle trees, abstractly

    Both Merkle implementations of the repository ([crates/merkle] and the
    transparency log of [crates/messages/src/transparency.rs]) build a tree
    bottom-up: adjacent nodes of a level are combined, and the last node of an
    odd level is promoted unchanged.  This file has that construction for an
    arbitrary combining function, the recursive RFC 6962 tree hash it computes,
    and the theory of climbing from a leaf to the root. *)

From S2P Require Import Prelude.
From stdpp Require Import base tactics numbers sets list option.
Open Scope hc_scope.

Section Levels.
Context {A : Type} (f : A → A → A).

(** One level: [chunks(2)], a full chunk combined, a single one promoted. *)
Fixpoint pair_level (l : list A) : list A :=
  match l with
  | a :: b :: l => f a b :: pair_level l
  | l => l
  end.

(** Repeat until at most one node is left. *)
Fixpoint collapse (fuel : nat) (l : list A) : list A :=
  match fuel with
  | O => l
  | S fuel => if 1 <? length l then collapse fuel (pair_level l) else l
  end.

Definition root_of (l : list A) : option A := head (collapse (length l) l).

(** All levels, leaves first. *)
Fixpoint levels_of (fuel : nat) (l : list A) : list (list A) :=
  match fuel with
  | O => [l]
  | S fuel => if 1 <? length l then l :: levels_of fuel (pair_level l) else [l]
  end.

(** The pairs combined while building the tree. *)
Fixpoint chunk2 (l : list A) : list (A * A) :=
  match l with
  | a :: b :: l => (a, b) :: chunk2 l
  | _ => []
  end.

Fixpoint tree_pairs (fuel : nat) (l : list A) : list (A * A) :=
  match fuel with
  | O => []
  | S fuel => if 1 <? length l then chunk2 l ++ tree_pairs fuel (pair_level l) else []
  end.

Lemma pair_ind (P : list A → Prop) :
  P [] → (∀ a, P [a]) → (∀ a b l, P l → P (a :: b :: l)) → ∀ l, P l.
Proof.
  intros H0 H1 H2. fix IH 1. intros [|a [|b l]]; [exact H0|apply H1|apply H2, IH].
Qed.

Lemma pair_level_length l : length (pair_level l) = (length l + 1) / 2.
Proof.
  induction l as [|a|a b l IH] using pair_ind; [done|done|].
  cbn [pair_level length]. rewrite IH.
  replace (S (S (length l)) + 1) with ((length l + 1) + 1 * 2) by lia.
  rewrite Nat.div_add by lia. lia.
Qed.

Lemma pair_level_shorter l : 1 < length l → length (pair_level l) < length l.
Proof.
  intros H. rewrite pair_level_length. apply Nat.Div0.div_lt_upper_bound. lia.
Qed.

Lemma pair_level_nonempty l : 0 < length l → 0 < length (pair_level l).
Proof. destruct l as [|a [|b l]]; simpl; lia. Qed.

(** Induction along the levels of a tree. *)
Lemma level_ind (P : list A → Prop) :
  (∀ l, length l ≤ 1 → P l) →
  (∀ l, 1 < length l → P (pair_level l) → P l) → ∀ l, P l.
Proof.
  intros H1 H2. apply (well_founded_ind (Wf_nat.well_founded_ltof _ length)).
  intros l IH. destruct (decide (1 < length l)).
  - apply H2; [done|]. apply IH. by apply pair_level_shorter.
  - apply H1. lia.
Qed.

Lemma collapse_small fuel l : length l ≤ 1 → collapse fuel l = l.
Proof.
  intros H. destruct fuel; simpl; [done|].
  destruct (Nat.ltb_spec 1 (length l)); [lia|done].
Qed.

(** Fuel above the length changes nothing. *)
Lemma collapse_fuel fuel fuel' l :
  length l ≤ fuel → length l ≤ fuel' → collapse fuel l = collapse fuel' l.
Proof.
  revert fuel'. induction fuel as [|fuel IH] in l |- *; intros fuel' H1 H2.
  - by rewrite !collapse_small by lia.
  - destruct (decide (1 < length l)) as [Hl|Hl]; [|by rewrite !collapse_small by lia].
    destruct fuel' as [|fuel']; [lia|]. simpl.
    destruct (Nat.ltb_spec 1 (length l)); [|lia].
    pose proof (pair_level_shorter l Hl). apply IH; lia.
Qed.

Lemma root_of_step l : 1 < length l → root_of l = root_of (pair_level l).
Proof.
  intros Hl. unfold root_of. pose proof (pair_level_shorter l Hl).
  rewrite (collapse_fuel (length (pair_level l)) (length l - 1)) by lia.
  destruct (length l) as [|n] eqn:E; [lia|]. simpl. rewrite E.
  destruct (Nat.ltb_spec 1 (S n)); [|lia]. by rewrite Nat.sub_0_r.
Qed.

Lemma root_of_single a : root_of [a] = Some a.
Proof. done. Qed.

Lemma collapse_length l fuel : length l ≤ fuel → length (collapse fuel l) ≤ 1.
Proof.
  revert fuel. induction l as [l Hl|l Hl IH] using level_ind; intros fuel Hf.
  - by rewrite collapse_small.
  - destruct fuel as [|fuel]; [lia|]. simpl.
    destruct (Nat.ltb_spec 1 (length l)); [|lia].
    apply IH. pose proof (pair_level_shorter l Hl). lia.
Qed.

Lemma root_of_Some l : 0 < length l → is_Some (root_of l).
Proof.
  induction l as [l Hl|l Hl IH] using level_ind; intros H0.
  - destruct l as [|a [|b l]]; simpl in *; try lia. rewrite root_of_single. eauto.
  - rewrite root_of_step by done. apply IH. by apply pair_level_nonempty.
Qed.

(** ** The node above an index *)

Lemma pair_level_lookup l i :
  i < length l →
  pair_level l !! (i / 2) =
    if Nat.odd i then (l !! (i - 1)) ≫= λ x, f x <$> l !! i
    else (l !! i) ≫= λ x, match l !! (i + 1) with Some y => Some (f x y) | None => Some x end.
Proof.
  revert i. induction l as [|a|a b l IH] using pair_ind; intros i Hi.
  - simpl in Hi. lia.
  - simpl in Hi. by replace i with 0 by lia.
  - destruct i as [|[|i]]; [done|done|]. simpl in Hi.
    replace (S (S i) / 2) with (S (i / 2)).
    2:{ replace (S (S i)) with (i + 1 * 2) by lia. rewrite Nat.div_add by lia. lia. }
    change (S (S i) + 1) with (S (S (i + 1))).
    change (pair_level (a :: b :: l) !! S (i / 2)) with (pair_level l !! (i / 2)).
    rewrite IH by lia. rewrite (Nat.odd_succ_succ i).
    destruct (Nat.odd i) eqn:Ho; [|done].
    destruct i as [|i]; [done|]. simpl. by rewrite Nat.sub_0_r.
Qed.

Lemma chunk2_odd l i x y :
  Nat.odd i = true → l !! (i - 1) = Some x → l !! i = Some y → (x, y) ∈ chunk2 l.
Proof.
  revert i. induction l as [|a|a b l IH] using pair_ind; intros i Ho Hx Hy.
  - done.
  - destruct i as [|i]; [done|]. by destruct i.
  - destruct i as [|[|i]]; [done|simpl in *; simplify_eq; left|].
    right. apply (IH i).
    + by rewrite <-Nat.negb_even in Ho |- *.
    + destruct i as [|i]; [done|]. simpl in *. by rewrite Nat.sub_0_r in *.
    + done.
Qed.

Lemma chunk2_even l i x y :
  Nat.odd i = false → l !! i = Some x → l !! (i + 1) = Some y → (x, y) ∈ chunk2 l.
Proof.
  intros He Hx Hy. apply (chunk2_odd l (i + 1)).
  - by rewrite Nat.add_1_r, Nat.odd_succ, <-Nat.negb_odd, He.
  - by rewrite Nat.add_sub.
  - done.
Qed.
End Levels.

(** A map commutes with the construction when it commutes with the combining
    function. *)
Section Hom.
Context {A B : Type} (f : A → A → A) (g : B → B → B) (h : A → B).
Hypothesis h_hom : ∀ a b, h (f a b) = g (h a) (h b).

Lemma pair_level_hom l : h <$> pair_level f l = pair_level g (h <$> l).
Proof.
  induction l as [|a|a b l IH] using pair_ind; [done|done|].
  cbn. by rewrite h_hom, <-IH.
Qed.

Lemma root_of_hom l : h <$> root_of f l = root_of g (h <$> l).
Proof.
  induction l as [l Hl|l Hl IH] using (level_ind f).
  - destruct l as [|a [|b l]]; simpl in *; try done; lia.
  - rewrite (root_of_step f), (root_of_step g), IH by (rewrite ?length_fmap; done).
    by rewrite pair_level_hom.
Qed.
End Hom.

(** ** The RFC 6962 tree hash

    The reference definition: split at the largest power of two below the
    number of leaves. *)
Section Reference.
Context {A : Type} (f : A → A → A).

Definition split_point (n : nat) : nat := 2 ^ Nat.log2 (n - 1).

Fixpoint mth (fuel : nat) (l : list A) : option A :=
  match fuel with
  | O => None
  | S fuel =>
      match l with
      | [] => None
      | [a] => Some a
      | _ =>
          let k := split_point (length l) in
          mth fuel (take k l) ≫= λ x, f x <$> mth fuel (drop k l)
      end
  end.

Lemma split_point_spec n : 1 < n → split_point n < n ≤ 2 * split_point n.
Proof.
  intros Hn. unfold split_point.
  destruct (Nat.log2_spec (n - 1)) as [H1 H2]; [lia|]. rewrite Nat.pow_succ_r' in H2. lia.
Qed.

Lemma pair_level_app_even l1 l2 :
  Nat.even (length l1) = true → pair_level f (l1 ++ l2) = pair_level f l1 ++ pair_level f l2.
Proof.
  induction l1 as [|a|a b l1 IH] using pair_ind; intros He; [done|done|].
  cbn [app pair_level]. by rewrite IH.
Qed.

Lemma root_of_pair_level l : root_of f (pair_level f l) = root_of f l.
Proof.
  destruct (decide (1 < length l)); [by rewrite <-root_of_step|].
  by destruct l as [|a [|b l]]; simpl in *; try lia.
Qed.

Lemma root_of_split j l1 l2 :
  length l1 = 2 ^ j → 0 < length l2 ≤ 2 ^ j →
  root_of f (l1 ++ l2) = root_of f l1 ≫= λ x, f x <$> root_of f l2.
Proof.
  revert l1 l2. induction j as [|j IH]; intros l1 l2 H1 H2.
  - destruct l1 as [|a [|? ?]], l2 as [|b [|? ?]]; simpl in *; try lia. done.
  - rewrite Nat.pow_succ_r' in *. pose proof (Nat.pow_nonzero 2 j).
    rewrite root_of_step, pair_level_app_even, IH.
    + by rewrite !root_of_pair_level.
    + rewrite pair_level_length, H1, Nat.mul_comm, Nat.div_add_l by lia. simpl. lia.
    + rewrite pair_level_length. split.
      * rewrite <-pair_level_length with (f := f). apply pair_level_nonempty. lia.
      * apply Nat.lt_succ_r, Nat.Div0.div_lt_upper_bound. lia.
    + rewrite H1, Nat.even_mul. done.
    + rewrite length_app. lia.
Qed.

Lemma mth_root_of fuel l : length l ≤ fuel → mth fuel l = root_of f l.
Proof.
  revert l. induction fuel as [|fuel IH]; intros l Hl.
  - by destruct l; simpl in *; [|lia].
  - destruct l as [|a [|b l]]; [done|done|]. set (ll := a :: b :: l) in *.
    assert (1 < length ll) as Hll by (unfold ll; simpl; lia).
    pose proof (split_point_spec _ Hll) as Hk. pose proof (Nat.pow_nonzero 2 (Nat.log2 (length ll - 1))).
    change (mth (S fuel) ll) with
      (mth fuel (take (split_point (length ll)) ll) ≫= λ x,
        f x <$> mth fuel (drop (split_point (length ll)) ll)).
    rewrite !IH by (rewrite ?length_take, ?length_drop; unfold split_point in *; lia).
    rewrite <-(root_of_split (Nat.log2 (length ll - 1))).
    + by rewrite take_drop.
    + rewrite length_take. unfold split_point in *. lia.
    + rewrite length_drop. unfold split_point in *. lia.
Qed.
End Reference.

(** ** Climbing from a leaf to the root *)
Section Climb.
Context {A : Type} (f : A → A → A).

(** The sibling of node [i] on a level, with the side it stands on: [true] for
    a left sibling (the node is a right child).  A promoted node has none. *)
Definition sibling (i : nat) (l : list A) : option (bool * A) :=
  if Nat.odd i then pair true <$> l !! (i - 1) else pair false <$> l !! (i + 1).

Definition combine_step (h : A) (s : bool * A) : A :=
  if s.1 then f s.2 h else f h s.2.

Fixpoint path_of (fuel i : nat) (l : list A) : list (bool * A) :=
  match fuel with
  | O => []
  | S fuel =>
      if 1 <? length l
      then option_list (sibling i l) ++ path_of fuel (i / 2) (pair_level f l)
      else []
  end.

Definition climb (h : A) (p : list (bool * A)) : A := foldl combine_step h p.

(** The pairs combined on the way up. *)
Fixpoint climb_pairs (h : A) (p : list (bool * A)) : list (A * A) :=
  match p with
  | [] => []
  | s :: p => (if s.1 then (s.2, h) else (h, s.2)) :: climb_pairs (combine_step h s) p
  end.

(** The sides of the siblings, from the index and the number of leaves. *)
Fixpoint sides_of (fuel i n : nat) : list bool :=
  match fuel with
  | O => []
  | S fuel =>
      if 1 <? n then
        (if (i =? n - 1) && Nat.odd n then [] else [Nat.odd i])
          ++ sides_of fuel (i / 2) ((n + 1) / 2)
      else []
  end.

Lemma half_lt i n : i < n → i / 2 < (n + 1) / 2.
Proof.
  intros H. apply Nat.Div0.div_lt_upper_bound.
  pose proof (Nat.div_mod_eq (n + 1) 2). pose proof (Nat.mod_upper_bound (n + 1) 2). lia.
Qed.

Lemma node_above l i x :
  l !! i = Some x →
  pair_level f l !! (i / 2) = Some (foldl combine_step x (option_list (sibling i l))).
Proof.
  intros Hx. pose proof (lookup_lt_Some _ _ _ Hx) as Hi.
  rewrite pair_level_lookup by done. unfold sibling. rewrite Hx.
  destruct (Nat.odd i) eqn:Ho; simpl.
  - destruct (lookup_lt_is_Some_2 l (i - 1)) as [y Hy]; [lia|]. by rewrite Hy.
  - by destruct (l !! (i + 1)).
Qed.

(** The path of a node takes it to the root. *)
Lemma climb_path_of fuel l i x :
  length l ≤ fuel → l !! i = Some x → root_of f l = Some (climb x (path_of fuel i l)).
Proof.
  revert fuel i x. induction l as [l Hl|l Hl IH] using (level_ind f); intros fuel i x Hf Hx.
  - destruct l as [|a [|b l]]; simpl in *; try lia; [done|].
    destruct i; simpl in *; simplify_eq. by destruct fuel.
  - destruct fuel as [|fuel]; [lia|]. cbn [path_of].
    destruct (Nat.ltb_spec 1 (length l)); [|lia].
    unfold climb. rewrite foldl_app, root_of_step by done.
    pose proof (pair_level_shorter f l Hl).
    apply IH; [lia|]. by apply node_above.
Qed.

Lemma sibling_side l i :
  i < length l →
  fst <$> option_list (sibling i l) =
    if (i =? length l - 1) && Nat.odd (length l) then [] else [Nat.odd i].
Proof.
  intros Hi. unfold sibling. destruct (Nat.odd i) eqn:Ho.
  - destruct (lookup_lt_is_Some_2 l (i - 1)) as [y ->]; [lia|]. simpl.
    destruct (Nat.eqb_spec i (length l - 1)) as [->|]; simpl; [|done].
    destruct (length l) as [|n]; [lia|]. simpl in *. rewrite Nat.sub_0_r in Ho.
    by rewrite Nat.odd_succ, <-Nat.negb_odd, Ho.
  - destruct (Nat.eqb_spec i (length l - 1)) as [->|Hne]; simpl.
    + rewrite (lookup_ge_None_2 l) by lia. simpl.
      destruct (length l) as [|n]; [lia|]. simpl in *. rewrite Nat.sub_0_r in Ho.
      by rewrite Nat.odd_succ, <-Nat.negb_odd, Ho.
    + destruct (lookup_lt_is_Some_2 l (i + 1)) as [y ->]; [lia|]. done.
Qed.

Lemma sides_path_of fuel l i :
  i < length l → fst <$> path_of fuel i l = sides_of fuel i (length l).
Proof.
  revert i l. induction fuel as [|fuel IH]; intros i l Hi; [done|].
  cbn [path_of sides_of]. destruct (Nat.ltb_spec 1 (length l)); [|done].
  rewrite fmap_app, sibling_side, IH by (rewrite ?pair_level_length; auto using half_lt).
  by rewrite pair_level_length.
Qed.

(** Soundness of climbing: a path with the sides that the index and the number
    of leaves dictate reaches the root only from the node at that index, when
    the combining function does not collide on the pairs of the tree and of
    the climb. *)
Lemma climb_sound fuel l i x h p (hashed : list (A * A)) :
  (∀ a b c d, (a, b) ∈ hashed → (c, d) ∈ hashed → f a b = f c d → a = c ∧ b = d) →
  tree_pairs f fuel l ⊆ hashed → climb_pairs h p ⊆ hashed →
  length l ≤ fuel → l !! i = Some x →
  fst <$> p = sides_of fuel i (length l) →
  root_of f l = Some (climb h p) → h = x ∧ p = path_of fuel i l.
Proof.
  intros Hinj. revert fuel i x h p.
  induction l as [l Hl|l Hl IH] using (level_ind f); intros fuel i x h p Ht Hp Hf Hx Hs Hr.
  - destruct l as [|a [|b l]]; simpl in *; try lia; [done|].
    assert (p = []) as ->. { destruct p; [done|]. destruct fuel; discriminate Hs. }
    destruct i as [|i]; [|done]. rewrite root_of_single in Hr. simpl in *. simplify_eq.
    by destruct fuel.
  - destruct fuel as [|fuel]; [lia|]. cbn [path_of sides_of tree_pairs] in *.
    destruct (Nat.ltb_spec 1 (length l)); [|lia].
    pose proof (pair_level_shorter f l Hl).
    pose proof (lookup_lt_Some _ _ _ Hx) as Hi. pose proof (node_above l i x Hx) as Hn.
    rewrite <-(sibling_side l i Hi) in Hs. rewrite root_of_step in Hr by done.
    rewrite <-(pair_level_length f l) in Hs.
    destruct (sibling i l) as [[d y]|] eqn:Hsib; simpl in *.
    + destruct p as [|[d' s] p]; simpl in *; [done|]. injection Hs as -> Hs.
      destruct (IH fuel (i / 2) (combine_step x (d, y)) (combine_step h (d, s)) p)
        as [E ->]; [set_solver|set_solver|lia|done|done|done|].
      assert ((if d then (y, x) else (x, y)) ∈ hashed) as Hin.
      { apply Ht, elem_of_app. left. unfold sibling in Hsib.
        destruct (Nat.odd i) eqn:Ho; apply fmap_Some in Hsib as (z & Hz & Hd); simplify_eq.
        - by eapply chunk2_odd.
        - by eapply chunk2_even. }
      unfold combine_step in E. destruct d; simpl in *;
        (eapply Hinj in E as [-> ->]; [done|set_solver|done]).
    + destruct (IH fuel (i / 2) x h p) as [-> ->]; auto; [set_solver|lia].
Qed.

Lemma half_up_le n k : (N.of_nat n ≤ 2 ^ N.succ k)%N → (N.of_nat ((n + 1) / 2) ≤ 2 ^ k)%N.
Proof.
  rewrite N.pow_succ_r', Nat2N.inj_div, Nat2N.inj_add. intros H.
  apply N.lt_succ_r, N.Div0.div_lt_upper_bound. lia.
Qed.

(** The fuel does not matter once it covers the number of levels. *)
Lemma sides_of_fuel f1 f2 i n :
  (N.of_nat n ≤ 2 ^ N.of_nat f1)%N → (N.of_nat n ≤ 2 ^ N.of_nat f2)%N →
  sides_of f1 i n = sides_of f2 i n.
Proof.
  revert f2 i n. induction f1 as [|f1 IH]; intros f2 i n H1 H2.
  - simpl in H1. destruct f2 as [|f2]; [done|]. cbn [sides_of].
    destruct (Nat.ltb_spec 1 n); [lia|done].
  - destruct f2 as [|f2].
    + cbn [sides_of]. simpl in H2. destruct (Nat.ltb_spec 1 n); [lia|done].
    + cbn [sides_of]. destruct (Nat.ltb_spec 1 n); [|done]. f_equal.
      apply IH; apply half_up_le; by rewrite <-Nat2N.inj_succ.
Qed.

Lemma le_pow_fuel n : (N.of_nat n ≤ 2 ^ N.of_nat n)%N.
Proof. pose proof (N.pow_gt_lin_r 2 (N.of_nat n)). lia. Qed.

Lemma sides_of_length_path fuel l i :
  i < length l → length (path_of fuel i l) = length (sides_of fuel i (length l)).
Proof. intros H. by rewrite <-(sides_path_of fuel l i H), length_fmap. Qed.
End Climb.

(** ** Prefixes: the tree of the first leaves inside the tree of all

    The last node of a prefix climbs to the root of the prefix by its left
    siblings alone: a right sibling lies outside the prefix, where the node is
    promoted. *)
Section Prefix.
Context {A : Type} (f : A → A → A).

Definition left_only (p : list (bool * A)) : list (bool * A) := filter (λ s, s.1 = true) p.

Lemma pair_level_take_even l n :
  Nat.even n = true → n ≤ length l → take (n / 2) (pair_level f l) = pair_level f (take n l).
Proof.
  intros He Hn. rewrite <-(take_drop n l) at 1.
  assert (length (take n l) = n) as Hlen by (rewrite length_take; lia).
  rewrite pair_level_app_even by (by rewrite Hlen).
  apply take_app_length'. rewrite pair_level_length, Hlen.
  apply Nat.even_spec in He as [k ->].
  rewrite (Nat.mul_comm 2 k), Nat.div_add_l, Nat.div_mul by lia. simpl. lia.
Qed.

(** One level up, a prefix that agrees below its last node still does. *)
Lemma prefix_level l i x :
  i < length l →
  pair_level f (take i l ++ [x]) =
    take (i / 2) (pair_level f l) ++
      [foldl (combine_step f) x (left_only (option_list (sibling i l)))].
Proof.
  intros Hi. destruct (Nat.odd i) eqn:Ho; unfold sibling; rewrite Ho.
  - apply Nat.odd_spec in Ho as [k ->].
    assert ((2 * k + 1) / 2 = k) as -> by (rewrite Nat.mul_comm, Nat.div_add_l by lia; simpl; lia).
    assert (2 * k + 1 - 1 = 2 * k) as -> by lia.
    destruct (lookup_lt_is_Some_2 l (2 * k)) as [y Hy]; [lia|]. rewrite Hy.
    replace (2 * k + 1) with (S (2 * k)) by lia. rewrite (take_S_r _ _ _ Hy), <-app_assoc.
    rewrite pair_level_app_even; [|rewrite length_take; replace (_ `min` _) with (2 * k) by lia;
      apply Nat.even_spec; by exists k].
    rewrite <-(pair_level_take_even l (2 * k)) by (try apply Nat.even_spec; try lia; by exists k).
    by rewrite (Nat.mul_comm 2 k), Nat.div_mul by lia.
  - assert (Nat.even i = true) as He by (by rewrite <-Nat.negb_odd, Ho).
    rewrite pair_level_app_even by (rewrite length_take; by replace (i `min` _) with i by lia).
    rewrite <-pair_level_take_even by (done || lia). by destruct (l !! (i + 1)).
Qed.

Lemma root_prefix_with fuel l i x :
  length l ≤ fuel → i < length l →
  root_of f (take i l ++ [x]) = Some (climb f x (left_only (path_of f fuel i l))).
Proof.
  revert fuel i x. induction l as [l Hl|l Hl IH] using (level_ind f); intros fuel i x Hf Hi.
  - assert (i = 0) as -> by lia. rewrite take_0. destruct fuel; [done|]. cbn [path_of].
    destruct (Nat.ltb_spec 1 (length l)); [lia|]. done.
  - destruct fuel as [|fuel]; [lia|]. cbn [path_of].
    destruct (Nat.ltb_spec 1 (length l)); [|lia].
    pose proof (pair_level_shorter f l Hl).
    unfold left_only, climb. rewrite list.filter_app, foldl_app.
    rewrite <-root_of_pair_level, prefix_level by done.
    apply IH; [lia|]. rewrite pair_level_length. by apply half_lt.
Qed.

(** The root of a prefix from the path of its last node. *)
Lemma root_prefix fuel l i x :
  length l ≤ fuel → l !! i = Some x →
  root_of f (take (S i) l) = Some (climb f x (left_only (path_of f fuel i l))).
Proof.
  intros Hf Hx. rewrite (take_S_r _ _ _ Hx). apply root_prefix_with; [done|].
  by eapply lookup_lt_Some.
Qed.

(** The level-[k] list: [k] times one level up. *)
Fixpoint level_at (k : nat) (l : list A) : list A :=
  match k with
  | O => l
  | S k => level_at k (pair_level f l)
  end.

Lemma root_of_level_at k l : root_of f (level_at k l) = root_of f l.
Proof.
  revert l. induction k as [|k IH]; intros l; [done|]. simpl.
  by rewrite IH, root_of_pair_level.
Qed.

Lemma level_at_shorter k l : length (level_at k l) ≤ length l.
Proof.
  revert l. induction k as [|k IH]; intros l; [done|]. simpl.
  etrans; [apply IH|]. rewrite pair_level_length.
  destruct l; [done|]. cbn [length]. apply Nat.lt_succ_r, Nat.Div0.div_lt_upper_bound. lia.
Qed.

Lemma tree_pairs_fuel f1 f2 l :
  length l ≤ f1 → length l ≤ f2 → tree_pairs f f1 l = tree_pairs f f2 l.
Proof.
  revert f2 l. induction f1 as [|f1 IH]; intros f2 l H1 H2.
  - destruct l; [|simpl in H1; lia]. by destruct f2.
  - destruct f2 as [|f2]; [destruct l; [done|simpl in H2; lia]|]. cbn [tree_pairs].
    destruct (Nat.ltb_spec 1 (length l)) as [Hl|]; [|done]. f_equal.
    pose proof (pair_level_shorter f l Hl). apply IH; lia.
Qed.

Lemma tree_pairs_step l fuel :
  length l ≤ fuel → tree_pairs f fuel (pair_level f l) ⊆ tree_pairs f fuel l.
Proof.
  intros Hf. destruct (decide (1 < length l)) as [Hl|Hl].
  - pose proof (pair_level_shorter f l Hl).
    rewrite (tree_pairs_fuel fuel (fuel - 1) (pair_level f l)) by lia.
    destruct fuel as [|fuel]; [lia|]. cbn [tree_pairs].
    destruct (Nat.ltb_spec 1 (length l)); [|lia]. rewrite Nat.sub_succ, Nat.sub_0_r.
    by apply list_subseteq_app_r.
  - destruct l as [|a [|b l]]; simpl in *; [done|done|lia].
Qed.

Lemma tree_pairs_level_at k fuel l :
  length l ≤ fuel → tree_pairs f fuel (level_at k l) ⊆ tree_pairs f fuel l.
Proof.
  revert l. induction k as [|k IH]; intros l Hl; [done|]. simpl.
  pose proof (level_at_shorter 1 l) as Hs. simpl in Hs.
  etrans; [apply IH; lia|]. by apply tree_pairs_step.
Qed.

(** Two trees with equally many leaves and the same root are equal. *)
Lemma chunk2_inj (hashed : list (A * A)) l1 l2 :
  (∀ a b c d, (a, b) ∈ hashed → (c, d) ∈ hashed → f a b = f c d → a = c ∧ b = d) →
  length l1 = length l2 → chunk2 l1 ⊆ hashed → chunk2 l2 ⊆ hashed →
  pair_level f l1 = pair_level f l2 → l1 = l2.
Proof.
  intros Hinj. revert l2. induction l1 as [|a|a b l1 IH] using pair_ind;
    intros [|c [|d l2]] Hlen H1 H2 E; try done.
  simpl in *. injection E as E Er. simplify_eq.
  eapply Hinj in E as [-> ->]; [|set_solver..]. f_equal. f_equal. apply IH; set_solver.
Qed.

Lemma root_of_inj (hashed : list (A * A)) l1 l2 :
  (∀ a b c d, (a, b) ∈ hashed → (c, d) ∈ hashed → f a b = f c d → a = c ∧ b = d) →
  length l1 = length l2 →
  tree_pairs f (length l1) l1 ⊆ hashed → tree_pairs f (length l2) l2 ⊆ hashed →
  root_of f l1 = root_of f l2 → l1 = l2.
Proof.
  intros Hinj Hlen. rewrite <-Hlen. assert (length l1 ≤ length l1) as Hf by done.
  revert Hf. generalize (length l1) at 2 3 4 as fuel. revert l2 Hlen.
  induction l1 as [l1 Hl|l1 Hl IH] using (level_ind f); intros l2 Hlen fuel Hf H1 H2 E.
  - destruct l1 as [|a [|b l1]], l2 as [|c [|d l2]]; simpl in *; try done; try lia.
    rewrite !root_of_single in E. by simplify_eq.
  - destruct fuel as [|fuel]; [lia|]. cbn [tree_pairs] in *. rewrite <-Hlen in H2.
    destruct (Nat.ltb_spec 1 (length l1)); [|lia].
    pose proof (pair_level_shorter f l1 Hl).
    assert (∀ l : list (A * A), ∀ k : list (A * A), l ++ k ⊆ hashed → l ⊆ hashed ∧ k ⊆ hashed)
      as Happ by (intros l k Hlk; split; intros x Hx; apply Hlk, elem_of_app; auto).
    apply Happ in H1 as [H1 H1'], H2 as [H2 H2'].
    apply (chunk2_inj hashed); [done|done|done|done|].
    assert (length (pair_level f l1) = length (pair_level f l2)) as Hlen'
      by (by rewrite !pair_level_length, Hlen).
    apply (IH _ Hlen' fuel); [lia|done|done|]. by rewrite !root_of_pair_level.
Qed.
End Prefix.
