(* ===== verification/Merkle.v ===== *)
(** * The Merkle tree crate ([crates/merkle/src/lib.rs])

    [InclusionProof] and [MerkleTree] with their cached levels and root, every
    operation as a function on the tree value.  A [&mut self] method returns
    its result and the tree after it.  SHA-256 is the class [Sha256] of
    Crypto.v.  The theorems relate a tree to the list of leaf data it stands
    for. *)

From Stdlib Require Import Strings.Byte.
From stdpp Require Import base tactics numbers sets list gmap strings pretty option.
From S2P Require Import Prelude Crypto TreeTheory.
Open Scope hc_scope.

Definition LEAF_PREFIX : bytes := bytes_of "merkle-leaf-v1:".
Definition INTERNAL_PREFIX : bytes := bytes_of "merkle-internal-v1:".
Definition HASH_LEN : nat := 32.
Abbreviation Hash := (array 32).

Inductive MerkleError :=
| EmptyTree
| InvalidProof (msg : string)
| IndexOutOfBounds (index size : nat)
| InvalidLeaf (msg : string)
| SerializationError (msg : string).

#[export] Instance MerkleError_eq_dec : EqDecision MerkleError.
Proof. solve_decision. Defined.

Definition MerkleError_display (e : MerkleError) : string :=
  match e with
  | EmptyTree => "Empty tree has no root"
  | InvalidProof msg => "Invalid inclusion proof: " +:+ msg
  | IndexOutOfBounds index size =>
      "Index out of bounds: " +:+ pretty (N.of_nat index) +:+ " >= " +:+ pretty (N.of_nat size)
  | InvalidLeaf msg => "Invalid leaf data: " +:+ msg
  | SerializationError msg => "Serialization error: " +:+ msg
  end.

Record InclusionProof := mkInclusionProof {
  leaf_index : nat;
  leaf_hash : Hash;
  sibling_hashes : list Hash;
  directions : list bool;
}.

Record MerkleTree := mkMerkleTree {
  leaves : list Hash;
  levels : list (list Hash);
  cached_root : option Hash;
  root_valid : bool;
  levels_valid : bool;
}.

Section Merkle.
Context `{Sha256}.

Definition leaf_msg (data : bytes) : bytes := LEAF_PREFIX ++ data.
Definition internal_msg (l r : Hash) : bytes := INTERNAL_PREFIX ++ arr l ++ arr r.

Definition hash_leaf (data : bytes) : Hash := sha256 (leaf_msg data).
Definition hash_internal (left right : Hash) : Hash := sha256 (internal_msg left right).

(** ** [InclusionProof] *)

(** The loop of [verify]: one step per sibling and direction. *)
Fixpoint verify_loop (current_hash : Hash) (path : list (Hash * bool)) : Hash :=
  match path with
  | [] => current_hash
  | (sibling_hash, is_right) :: path =>
      verify_loop (if is_right : bool then hash_internal sibling_hash current_hash
                   else hash_internal current_hash sibling_hash) path
  end.

Definition InclusionProof_verify (p : InclusionProof) (root_hash : Hash) (leaf_data : bytes)
  : res MerkleError bool :=
  let computed_leaf_hash := hash_leaf leaf_data in
  if decide (computed_leaf_hash ≠ leaf_hash p) then Ok false
  else if decide (sibling_hashes p = []) then Ok (bool_decide (root_hash = leaf_hash p))
  else if decide (length (directions p) ≠ length (sibling_hashes p))
  then Err (InvalidProof "Directions count mismatch")
  else
    let current_hash := verify_loop (leaf_hash p) (zip (sibling_hashes p) (directions p)) in
    Ok (bool_decide (current_hash = root_hash)).

Definition InclusionProof_size_bytes (p : InclusionProof) : nat :=
  HASH_LEN + length (sibling_hashes p) * HASH_LEN + (length (directions p) + 7) / 8 + 8.

(** ** [MerkleTree] *)

Definition MerkleTree_new : MerkleTree := mkMerkleTree [] [] None false false.

Definition invalidate_cache (t : MerkleTree) : MerkleTree :=
  mkMerkleTree (leaves t) [] None false false.

Definition push_leaf (h : Hash) (t : MerkleTree) : MerkleTree :=
  mkMerkleTree (leaves t ++ [h]) (levels t) (cached_root t) (root_valid t) (levels_valid t).

Definition insert_leaf (leaf_data : bytes) (t : MerkleTree) : MerkleTree :=
  invalidate_cache (push_leaf (hash_leaf leaf_data) t).

Definition insert_leaves (leaf_data : list bytes) (t : MerkleTree) : MerkleTree :=
  invalidate_cache (foldl (λ t d, push_leaf (hash_leaf d) t) t leaf_data).

Definition from_leaves (leaf_data : list bytes) : MerkleTree :=
  foldl (λ t d, insert_leaf d t) MerkleTree_new leaf_data.

Definition MerkleTree_len (t : MerkleTree) : nat := length (leaves t).

Definition MerkleTree_is_empty (t : MerkleTree) : bool := (length (leaves t) =? 0).

(** The [while] loop of [compute_root], one level per iteration. *)
Definition compute_root_loop (current_level : list Hash) : res MerkleError (list Hash) :=
  while (length current_level) (λ l, 1 <? length l)
        (λ l, Ok (pair_level hash_internal l)) current_level.

Definition compute_root (t : MerkleTree) : res MerkleError Hash :=
  if MerkleTree_is_empty t then Err EmptyTree
  else if (length (leaves t) =? 1) then unwrap (leaves t !! 0)
  else
    let? current_level := compute_root_loop (leaves t) in
    unwrap (current_level !! 0).

Definition MerkleTree_root (t : MerkleTree) : res MerkleError Hash * MerkleTree :=
  if MerkleTree_is_empty t then (Err EmptyTree, t)
  else if root_valid t then (unwrap (cached_root t), t)
  else if levels_valid t then
    let c := list.last (levels t) ≫= head in
    let t' := mkMerkleTree (leaves t) (levels t) c (bool_decide (is_Some c)) (levels_valid t) in
    (unwrap c, t')
  else
    match compute_root t with
    | Ok r => (Ok r, mkMerkleTree (leaves t) (levels t) (Some r) true (levels_valid t))
    | e => (e, t)
    end.

(** The [while] loop of [ensure_levels]; the state is the vector of levels. *)
Definition ensure_levels_loop (fuel : nat) (ls : list (list Hash))
  : res MerkleError (list (list Hash)) :=
  while fuel (λ ls, 1 <? from_option length 0 (list.last ls))
        (λ ls, let? prev_level := unwrap (list.last ls) in
               Ok (ls ++ [pair_level hash_internal prev_level])) ls.

Definition ensure_levels (t : MerkleTree) : res MerkleError unit * MerkleTree :=
  if MerkleTree_is_empty t then (Err EmptyTree, t)
  else if levels_valid t then (Ok tt, t)
  else
    match ensure_levels_loop (length (leaves t)) [leaves t] with
    | Ok ls =>
        match list.last ls ≫= head with
        | Some root => (Ok tt, mkMerkleTree (leaves t) ls (Some root) true true)
        | None => (Ok tt, mkMerkleTree (leaves t) ls (cached_root t) (root_valid t) true)
        end
    | Err e => (Err e, t)
    | Panic => (Panic, t)
    | Diverge => (Diverge, t)
    end.

(** The [for] loop of [generate_proof] over all levels but the last. *)
Fixpoint proof_loop (ls : list (list Hash)) (current_index : nat) : list (Hash * bool) :=
  match ls with
  | [] => []
  | level :: ls =>
      let is_right := current_index mod 2 =? 1 in
      let sibling_index := if is_right then current_index - 1 else current_index + 1 in
      match level !! sibling_index with
      | Some s => [(s, is_right)]
      | None => []
      end ++ proof_loop ls (current_index / 2)
  end.

Definition generate_proof (leaf_index : nat) (t : MerkleTree)
  : res MerkleError InclusionProof * MerkleTree :=
  match leaves t !! leaf_index with
  | None => (Err (IndexOutOfBounds leaf_index (length (leaves t))), t)
  | Some leaf_hash =>
      if (length (leaves t) =? 1)
      then (Ok (mkInclusionProof leaf_index leaf_hash [] []), t)
      else
        match ensure_levels t with
        | (Ok _, t') =>
            let path :=
              if 1 <? length (levels t')
              then proof_loop (take (length (levels t') - 1) (levels t')) leaf_index
              else [] in
            (Ok (mkInclusionProof leaf_index leaf_hash path.*1 path.*2), t')
        | (Err e, t') => (Err e, t')
        | (Panic, t') => (Panic, t')
        | (Diverge, t') => (Diverge, t')
        end
  end.

Definition verify_proof (p : InclusionProof) (leaf_data : bytes) (t : MerkleTree)
  : res MerkleError bool * MerkleTree :=
  let '(r, t') := MerkleTree_root t in
  (let? root := r in InclusionProof_verify p root leaf_data, t').

(** [batch_verify_proofs], and the loop of [MerkleTree::batch_verify]. *)
Fixpoint batch_verify_proofs (proofs : list (InclusionProof * bytes)) (root_hash : Hash)
  : res MerkleError bool :=
  match proofs with
  | [] => Ok true
  | (proof, leaf_data) :: proofs =>
      let? ok := InclusionProof_verify proof root_hash leaf_data in
      if ok : bool then batch_verify_proofs proofs root_hash else Ok false
  end.

Definition MerkleTree_batch_verify (proofs : list (InclusionProof * bytes)) (t : MerkleTree)
  : res MerkleError bool * MerkleTree :=
  if decide (proofs = []) then (Ok true, t)
  else
    let '(r, t') := MerkleTree_root t in
    (let? root := r in batch_verify_proofs proofs root, t').

Definition MerkleTree_leaf_hash (index : nat) (t : MerkleTree) : res MerkleError Hash :=
  match leaves t !! index with
  | None => Err (IndexOutOfBounds index (length (leaves t)))
  | Some h => Ok h
  end.

Definition MerkleTree_clear (t : MerkleTree) : MerkleTree :=
  invalidate_cache (mkMerkleTree [] (levels t) (cached_root t) (root_valid t) (levels_valid t)).

Definition verify_inclusion_proof (p : InclusionProof) (root_hash : Hash) (leaf_data : bytes)
  : res MerkleError bool := InclusionProof_verify p root_hash leaf_data.
End Merkle.

(** ** The tree and the data it stands for *)
Section Represents.
Context `{Sha256}.

(** A tree represents the list of leaf data it was built from: the leaf hashes
    are those of the data, and a valid cache holds the levels and the root of
    the tree over them. *)
Record represents (t : MerkleTree) (data : list bytes) : Prop := {
  rep_leaves : leaves t = hash_leaf <$> data;
  rep_levels : levels_valid t = true →
    leaves t ≠ [] ∧ levels t = levels_of hash_internal (length (leaves t)) (leaves t);
  rep_root : root_valid t = true →
    leaves t ≠ [] ∧ cached_root t = root_of hash_internal (leaves t);
}.

(** The root that the data determine. *)
Definition data_root (data : list bytes) : option Hash :=
  root_of hash_internal (hash_leaf <$> data).

Lemma compute_root_loop_collapse fuel l :
  length l ≤ fuel →
  while fuel (λ l, 1 <? length l)
    (λ l, Ok (pair_level hash_internal l) : res MerkleError (list Hash)) l
  = Ok (collapse hash_internal fuel l).
Proof.
  revert l. induction fuel as [|fuel IH]; intros l Hl.
  - destruct l; simpl in *; [done|lia].
  - cbn [while collapse]. destruct (Nat.ltb_spec 1 (length l)) as [H1|H1]; [|done].
    simpl. apply IH. pose proof (pair_level_shorter hash_internal l H1). lia.
Qed.

Lemma compute_root_spec t r :
  root_of hash_internal (leaves t) = Some r → compute_root t = Ok r.
Proof.
  intros Hr. unfold compute_root, MerkleTree_is_empty, compute_root_loop.
  rewrite compute_root_loop_collapse by done.
  destruct (Nat.eqb_spec (length (leaves t)) 0) as [E|_].
  { by destruct (leaves t). }
  destruct (Nat.eqb_spec (length (leaves t)) 1) as [E|_].
  { destruct (leaves t) as [|a [|b l]]; simpl in *; try lia. injection Hr as ->. done. }
  simpl. unfold root_of in Hr. rewrite head_lookup in Hr. by rewrite Hr.
Qed.

Lemma ensure_levels_loop_spec fuel acc l :
  length l ≤ fuel →
  ensure_levels_loop fuel (acc ++ [l]) = Ok (acc ++ levels_of hash_internal fuel l).
Proof.
  unfold ensure_levels_loop. revert acc l.
  induction fuel as [|fuel IH]; intros acc l Hl; cbn [while levels_of]; rewrite last_snoc; simpl.
  - destruct l; simpl in *; [done|lia].
  - destruct (1 <? length l) eqn:H1; [|done]. apply Nat.ltb_lt in H1. simpl.
    pose proof (pair_level_shorter hash_internal l H1).
    rewrite IH by lia. by rewrite <-app_assoc.
Qed.

Lemma levels_of_length_pos fuel l : 0 < length (levels_of hash_internal fuel l).
Proof. destruct fuel; simpl; [lia|]. case_match; simpl; lia. Qed.

Lemma levels_of_length_two fuel l :
  1 < length l ≤ fuel → 1 < length (levels_of hash_internal fuel l).
Proof.
  intros Hl. destruct fuel as [|fuel]; [lia|]. cbn [levels_of].
  destruct (Nat.ltb_spec 1 (length l)); [|lia].
  pose proof (levels_of_length_pos fuel (pair_level hash_internal l)). simpl. lia.
Qed.

Lemma levels_of_root fuel l :
  length l ≤ fuel →
  list.last (levels_of hash_internal fuel l) ≫= head = root_of hash_internal l.
Proof.
  revert fuel. induction l as [l Hl|l Hl IH] using (level_ind hash_internal); intros fuel Hf.
  - destruct fuel as [|fuel]; simpl; [by destruct l; simpl in *; [|lia]|].
    destruct (Nat.ltb_spec 1 (length l)); [lia|].
    by destruct l as [|a [|b l]]; simpl in *; try lia.
  - destruct fuel as [|fuel]; [lia|]. cbn [levels_of].
    destruct (Nat.ltb_spec 1 (length l)); [|lia].
    pose proof (pair_level_shorter hash_internal l Hl).
    rewrite root_of_step, <-(IH fuel) by lia.
    rewrite (last_cons l). destruct (list.last _) eqn:Hlast; [done|].
    apply last_None in Hlast.
    pose proof (levels_of_length_pos fuel (pair_level hash_internal l)) as Hpos.
    rewrite Hlast in Hpos. simpl in Hpos. lia.
Qed.

Lemma proof_loop_path fuel l i :
  length l ≤ fuel →
  proof_loop (take (length (levels_of hash_internal fuel l) - 1)
                   (levels_of hash_internal fuel l)) i
  = prod_swap <$> path_of hash_internal fuel i l.
Proof.
  revert fuel i. induction l as [l Hl|l Hl IH] using (level_ind hash_internal); intros fuel i Hf.
  - destruct fuel as [|fuel]; [done|]. simpl.
    destruct (Nat.ltb_spec 1 (length l)); [lia|done].
  - destruct fuel as [|fuel]; [lia|]. cbn [levels_of path_of].
    destruct (Nat.ltb_spec 1 (length l)); [|lia].
    pose proof (pair_level_shorter hash_internal l Hl).
    pose proof (levels_of_length_pos fuel (pair_level hash_internal l)).
    cbn [length]. rewrite Nat.sub_succ, Nat.sub_0_r.
    destruct (length (levels_of _ _ _)) as [|k] eqn:Ek; [lia|]. cbn [take proof_loop].
    rewrite fmap_app, <-(IH fuel) by lia. rewrite Ek, Nat.sub_succ, Nat.sub_0_r.
    f_equal. rewrite odd_mod. unfold sibling.
    destruct (Nat.odd i); simpl; by destruct (l !! _).
Qed.

Lemma verify_loop_climb h p :
  verify_loop h (prod_swap <$> p) = climb hash_internal h p.
Proof.
  revert h. induction p as [|[d s] p IH]; intros h; [done|].
  simpl. rewrite IH. by destruct d.
Qed.

(** *** Every operation keeps the representation *)

Lemma represents_new : represents MerkleTree_new [].
Proof. by split. Qed.

Lemma represents_fresh ls data :
  ls = hash_leaf <$> data → represents (mkMerkleTree ls [] None false false) data.
Proof. by split. Qed.

Lemma insert_leaf_represents t data d :
  represents t data → represents (insert_leaf d t) (data ++ [d]).
Proof.
  intros [Hl _ _]. apply represents_fresh. simpl. by rewrite Hl, fmap_app.
Qed.

Lemma push_leaves_leaves t ds :
  leaves (foldl (λ t d, push_leaf (hash_leaf d) t) t ds) = leaves t ++ (hash_leaf <$> ds).
Proof.
  revert t. induction ds as [|d ds IH]; intros t; simpl; [by rewrite app_nil_r|].
  rewrite IH. simpl. by rewrite <-app_assoc.
Qed.

Lemma insert_leaves_represents t data ds :
  represents t data → represents (insert_leaves ds t) (data ++ ds).
Proof.
  intros [Hl _ _]. apply represents_fresh. by rewrite push_leaves_leaves, Hl, fmap_app.
Qed.

Lemma from_leaves_represents ds : represents (from_leaves ds) ds.
Proof.
  unfold from_leaves. change ds with ([] ++ ds) at 2.
  assert (∀ t data, represents t data →
    represents (foldl (λ t d, insert_leaf d t) t ds) (data ++ ds)) as Hgen; [|auto using represents_new].
  induction ds as [|d ds IH]; intros t data Ht; simpl; [by rewrite app_nil_r|].
  rewrite cons_middle, app_assoc. apply IH. by apply insert_leaf_represents.
Qed.

Lemma clear_represents t : represents (MerkleTree_clear t) [].
Proof. by apply represents_fresh. Qed.

Lemma represents_empty t data :
  represents t data → MerkleTree_is_empty t = bool_decide (data = []).
Proof.
  intros [Hl _ _]. unfold MerkleTree_is_empty. rewrite Hl, length_fmap.
  by destruct data.
Qed.

(** [root] returns the root of the data, from the cache or not, and keeps the
    representation; it never panics. *)
Lemma root_spec t data :
  represents t data →
  fst (MerkleTree_root t) = ok_or (data_root data) EmptyTree
  ∧ represents (snd (MerkleTree_root t)) data.
Proof.
  intros Ht. pose proof (represents_empty _ _ Ht) as He. pose proof Ht as [Hl Hlv Hrt].
  unfold MerkleTree_root, data_root. rewrite He, <-Hl.
  case_bool_decide as Hd; [by subst; rewrite Hl|].
  assert (leaves t ≠ []) as Hne by (rewrite Hl; by destruct data).
  destruct (root_of_Some hash_internal (leaves t)) as [r Hr]; [by destruct (leaves t); simpl; [|lia]|].
  rewrite Hr. destruct (root_valid t) eqn:Hrv.
  { destruct (Hrt eq_refl) as [_ ->]. by rewrite Hr. }
  destruct (levels_valid t) eqn:Hlvv.
  - destruct (Hlv eq_refl) as [_ Hls]. rewrite Hls, levels_of_root, Hr by done.
    simpl. split; [done|]. by split.
  - rewrite (compute_root_spec t r Hr). split; [done|]. by split.
Qed.

Lemma ensure_levels_spec t data :
  represents t data → data ≠ [] →
  fst (ensure_levels t) = Ok tt ∧ represents (snd (ensure_levels t)) data
  ∧ levels_valid (snd (ensure_levels t)) = true ∧ leaves (snd (ensure_levels t)) = leaves t.
Proof.
  intros Ht Hd. pose proof (represents_empty _ _ Ht) as He.
  unfold ensure_levels. rewrite He, bool_decide_eq_false_2 by done.
  destruct (levels_valid t) eqn:Hlvv; [done|]. destruct Ht as [Hl Hlv Hrt].
  pose proof (ensure_levels_loop_spec (length (leaves t)) [] (leaves t) (le_n _)) as Hloop.
  simpl app in Hloop. rewrite Hloop.
  rewrite levels_of_root by done.
  assert (leaves t ≠ []) as Hne by (rewrite Hl; by destruct data).
  destruct (root_of_Some hash_internal (leaves t)) as [r Hr]; [by destruct (leaves t); simpl; [|lia]|].
  rewrite Hr. split_and!; [done| |done|done]. by split.
Qed.

(** [generate_proof] on a valid index gives the sibling path of that leaf. *)
Lemma generate_proof_spec t data i d :
  represents t data → data !! i = Some d →
  fst (generate_proof i t) = Ok
    (let path := prod_swap <$> path_of hash_internal (length data) i (hash_leaf <$> data) in
     mkInclusionProof i (hash_leaf d) path.*1 path.*2)
  ∧ represents (snd (generate_proof i t)) data.
Proof.
  intros Ht Hd. pose proof Ht as [Hl _ _]. unfold generate_proof.
  assert (leaves t !! i = Some (hash_leaf d)) as Hi by (rewrite Hl, list_lookup_fmap, Hd; done).
  rewrite Hi. destruct (Nat.eqb_spec (length (leaves t)) 1) as [E|E].
  - split; [|done]. rewrite Hl, length_fmap in E. destruct data as [|d' [|? ?]]; simpl in *; try lia.
    done.
  - destruct (ensure_levels_spec t data Ht) as (Hok & Hrep & Hv & Hlv); [by intros ->|].
    destruct (ensure_levels t) as [r t']. simpl in *. subst r. split; [|done].
    destruct Hrep as [_ Hls _]. destruct (Hls Hv) as [_ ->].
    rewrite Hlv, Hl, length_fmap.
    assert (1 < length data).
    { rewrite Hl, length_fmap in E. apply lookup_lt_Some in Hd. lia. }
    rewrite proof_loop_path by (by rewrite length_fmap).
    pose proof (levels_of_length_two (length data) (hash_leaf <$> data)) as Htwo.
    rewrite length_fmap in Htwo. rewrite (proj2 (Nat.ltb_lt _ _)) by auto. done.
Qed.

Lemma zip_prod_swap (p : list (bool * Hash)) :
  zip (prod_swap <$> p).*1 (prod_swap <$> p).*2 = prod_swap <$> p.
Proof. apply zip_fst_snd. Qed.

(** A generated proof verifies against the root. *)
Lemma path_verifies data i d r :
  data !! i = Some d → data_root data = Some r →
  let path := prod_swap <$> path_of hash_internal (length data) i (hash_leaf <$> data) in
  InclusionProof_verify (mkInclusionProof i (hash_leaf d) path.*1 path.*2) r d = Ok true.
Proof.
  intros Hd Hr path. unfold InclusionProof_verify. cbn [leaf_hash sibling_hashes directions].
  rewrite decide_False by auto.
  assert (Some r = Some (verify_loop (hash_leaf d) (zip path.*1 path.*2))) as [= E].
  { unfold path. rewrite zip_prod_swap, verify_loop_climb, <-Hr. unfold data_root.
    apply climb_path_of; [by rewrite length_fmap|]. by rewrite list_lookup_fmap, Hd. }
  case_decide as Hp.
  - rewrite Hp in E. simpl in E. by rewrite bool_decide_eq_true_2.
  - rewrite decide_False by (rewrite !length_fmap; lia). by rewrite bool_decide_eq_true_2.
Qed.
End Represents.

(** ** Soundness: what a verified proof and an equal root show *)
Section Soundness.
Context `{Sha256}.

(** The tree as a term: its leaf data and its shape. *)
Inductive mtree := MLeaf (data : bytes) | MNode (l r : mtree).

Fixpoint mt_hash (t : mtree) : Hash :=
  match t with
  | MLeaf d => hash_leaf d
  | MNode l r => hash_internal (mt_hash l) (mt_hash r)
  end.

Fixpoint mt_leaves (t : mtree) : list bytes :=
  match t with
  | MLeaf d => [d]
  | MNode l r => mt_leaves l ++ mt_leaves r
  end.

(** The messages hashed to build it. *)
Fixpoint mt_msgs (t : mtree) : list bytes :=
  match t with
  | MLeaf d => [leaf_msg d]
  | MNode l r => internal_msg (mt_hash l) (mt_hash r) :: mt_msgs l ++ mt_msgs r
  end.

Definition tree_of (data : list bytes) : option mtree := root_of MNode (MLeaf <$> data).

(** All messages hashed to compute the root of the data. *)
Definition root_msgs (data : list bytes) : list bytes := from_option mt_msgs [] (tree_of data).

(** The messages hashed by [InclusionProof::verify]. *)
Definition verify_msgs (p : InclusionProof) (leaf_data : bytes) : list bytes :=
  leaf_msg leaf_data ::
  ((λ '(a, b), internal_msg a b) <$>
     climb_pairs hash_internal (leaf_hash p)
       (prod_swap <$> zip (sibling_hashes p) (directions p))).

Lemma tree_of_hash data : mt_hash <$> tree_of data = data_root data.
Proof.
  unfold tree_of, data_root. rewrite (root_of_hom MNode hash_internal mt_hash) by done.
  by rewrite <-list_fmap_compose.
Qed.

Lemma concat_pair_level (ls : list (list bytes)) : concat (pair_level app ls) = concat ls.
Proof.
  induction ls as [|a|a b ls IH] using pair_ind; [done|done|].
  simpl. by rewrite IH, app_assoc.
Qed.

Lemma root_of_app (ls : list (list bytes)) : ls ≠ [] → root_of app ls = Some (concat ls).
Proof.
  induction ls as [ls Hl|ls Hl IH] using (level_ind app); intros Hne.
  - destruct ls as [|a [|b ls]]; simpl in *; try done; [|lia].
    by rewrite app_nil_r, root_of_single.
  - rewrite root_of_step, IH, concat_pair_level; [done| |done].
    pose proof (pair_level_nonempty app ls). intros E. rewrite E in *. simpl in *. lia.
Qed.

Lemma tree_of_leaves data t : tree_of data = Some t → mt_leaves t = data.
Proof.
  intros Ht. assert (data ≠ []) by (intros ->; discriminate Ht).
  assert (mt_leaves <$> tree_of data = Some data) as E; [|rewrite Ht in E; by injection E].
  unfold tree_of. rewrite (root_of_hom MNode app mt_leaves) by done.
  rewrite <-list_fmap_compose, root_of_app by (by destruct data).
  f_equal. clear. induction data as [|d data IH]; [done|]. simpl. f_equal. exact IH.
Qed.

Lemma leaf_internal_ne d a b : leaf_msg d ≠ internal_msg a b.
Proof. by apply (app_prefix_ne _ _ _ _ 7 x6c x69). Qed.

Lemma leaf_msg_inj d d' : leaf_msg d = leaf_msg d' → d = d'.
Proof. apply app_inj_1. done. Qed.

Lemma internal_msg_inj a b c d : internal_msg a b = internal_msg c d → a = c ∧ b = d.
Proof.
  unfold internal_msg. intros E. apply app_inv_head in E.
  apply app_split_eq in E as [E1 E2]; [|by rewrite !arr_length].
  split; by apply arr_inj.
Qed.

(** Equal root hashes come from equal trees. *)
Lemma mt_hash_inj t1 t2 :
  collision_free (mt_msgs t1 ++ mt_msgs t2) → mt_hash t1 = mt_hash t2 → t1 = t2.
Proof.
  revert t2. induction t1 as [d|l1 IHl r1 IHr]; intros [d'|l2 r2] Hcf E; simpl in *.
  - f_equal. apply leaf_msg_inj. eapply collision_free_eq; [done|set_solver|set_solver|done].
  - exfalso. apply (leaf_internal_ne d (mt_hash l2) (mt_hash r2)).
    eapply collision_free_eq; [done|set_solver|set_solver|done].
  - exfalso. apply (leaf_internal_ne d' (mt_hash l1) (mt_hash r1)).
    eapply collision_free_eq; [done|set_solver|set_solver|done].
  - assert (internal_msg (mt_hash l1) (mt_hash r1) = internal_msg (mt_hash l2) (mt_hash r2))
      as [El Er]%internal_msg_inj
      by (eapply collision_free_eq; [done|set_solver|set_solver|done]).
    f_equal; [apply IHl|apply IHr]; auto; eapply collision_free_subset; try done; set_solver.
Qed.

Lemma data_root_inj data1 data2 r :
  data_root data1 = Some r → data_root data2 = Some r →
  collision_free (root_msgs data1 ++ root_msgs data2) → data1 = data2.
Proof.
  intros H1 H2 Hcf. rewrite <-tree_of_hash in H1, H2.
  apply fmap_Some in H1 as (t1 & Ht1 & E1). apply fmap_Some in H2 as (t2 & Ht2 & E2).
  unfold root_msgs in Hcf. rewrite Ht1, Ht2 in Hcf. simpl in Hcf.
  assert (t1 = t2) as -> by (apply mt_hash_inj; congruence).
  by rewrite <-(tree_of_leaves _ _ Ht1), <-(tree_of_leaves _ _ Ht2).
Qed.

Lemma climb_pairs_snoc h p s :
  climb_pairs hash_internal h (p ++ [s]) =
  climb_pairs hash_internal h p ++
    [if s.1 : bool then (s.2, climb hash_internal h p) else (climb hash_internal h p, s.2)].
Proof.
  revert h. induction p as [|s' p IH]; intros h; [done|]. simpl. by rewrite IH.
Qed.

(** A path that climbs from a leaf to the hash of a tree ends in a leaf of it. *)
Lemma climb_mtree_sound d p t :
  collision_free
    (mt_msgs t ++ leaf_msg d ::
       ((λ '(a, b), internal_msg a b) <$> climb_pairs hash_internal (hash_leaf d) p)) →
  climb hash_internal (hash_leaf d) p = mt_hash t → d ∈ mt_leaves t.
Proof.
  revert t. induction p as [|s p IH] using rev_ind; intros t Hcf E.
  - destruct t as [d'|l r]; simpl in *.
    + assert (leaf_msg d = leaf_msg d') as ->%leaf_msg_inj
        by (eapply collision_free_eq; [done|set_solver|set_solver|done]).
      set_solver.
    + exfalso. apply (leaf_internal_ne d (mt_hash l) (mt_hash r)).
      eapply collision_free_eq; [done|set_solver|set_solver|done].
  - unfold climb in E. rewrite foldl_app in E. fold (climb hash_internal (hash_leaf d) p) in E.
    rewrite climb_pairs_snoc, fmap_app in Hcf. simpl in E, Hcf.
    set (c := climb hash_internal (hash_leaf d) p) in *.
    destruct s as [dir s]. simpl in E, Hcf.
    set (ab := if dir then (s, c) else (c, s)) in *.
    assert (combine_step hash_internal c (dir, s) = sha256 (internal_msg ab.1 ab.2)) as Hab
      by (unfold ab; by destruct dir).
    rewrite Hab in E.
    assert ((let '(a, b) := ab in internal_msg a b) = internal_msg ab.1 ab.2) as Hm
      by (by destruct ab). rewrite Hm in Hcf.
    destruct t as [d'|l r]; simpl in *.
    + exfalso. apply (leaf_internal_ne d' ab.1 ab.2).
      eapply collision_free_eq; [done|set_solver|set_solver|done].
    + assert (internal_msg ab.1 ab.2 = internal_msg (mt_hash l) (mt_hash r)) as [El Er]%internal_msg_inj
        by (eapply collision_free_eq; [done|set_solver|set_solver|done]).
      unfold ab in El, Er. destruct dir; simpl in *; apply elem_of_app; [right|left];
        (apply IH; [eapply collision_free_subset; [done|set_solver]|done]).
Qed.

Lemma verified_leaf p data r d :
  data_root data = Some r → InclusionProof_verify p r d = Ok true →
  collision_free (root_msgs data ++ verify_msgs p d) → d ∈ data.
Proof.
  intros Hr Hv Hcf. rewrite <-tree_of_hash in Hr. unfold root_msgs, verify_msgs in Hcf.
  apply fmap_Some in Hr as (t & Ht & ->). rewrite Ht in Hcf. simpl in Hcf.
  rewrite <-(tree_of_leaves data t Ht).
  unfold InclusionProof_verify in Hv. case_decide as Hleaf; [done|].
  destruct (decide (hash_leaf d = leaf_hash p)) as [Hl|]; [|done]. clear Hleaf.
  rewrite <-Hl in *. case_decide as Hs.
  - apply (climb_mtree_sound d []); simpl.
    + eapply collision_free_subset; [done|set_solver].
    + injection Hv as Hv%bool_decide_eq_true. done.
  - case_decide; [done|]. injection Hv as Hv%bool_decide_eq_true.
    apply (climb_mtree_sound d (prod_swap <$> zip (sibling_hashes p) (directions p))); [done|].
    rewrite <-verify_loop_climb, <-list_fmap_compose, <-Hv. f_equal.
    clear. induction (zip _ _) as [|[??] l IH]; [done|]. simpl. f_equal. exact IH.
Qed.
End Soundness.

(** ** Sequences of operations *)
Section Operations.
Context `{Sha256}.

Inductive merkle_op :=
| OpInsert (d : bytes)
| OpInsertMany (ds : list bytes)
| OpRoot
| OpProof (i : nat)
| OpVerify (p : InclusionProof) (d : bytes)
| OpBatchVerify (ps : list (InclusionProof * bytes))
| OpClear.

(** The tree after a call, and the data after it in the specification. *)
Definition apply_op (t : MerkleTree) (o : merkle_op) : MerkleTree :=
  match o with
  | OpInsert d => insert_leaf d t
  | OpInsertMany ds => insert_leaves ds t
  | OpRoot => snd (MerkleTree_root t)
  | OpProof i => snd (generate_proof i t)
  | OpVerify p d => snd (verify_proof p d t)
  | OpBatchVerify ps => snd (MerkleTree_batch_verify ps t)
  | OpClear => MerkleTree_clear t
  end.

Definition spec_op (data : list bytes) (o : merkle_op) : list bytes :=
  match o with
  | OpInsert d => data ++ [d]
  | OpInsertMany ds => data ++ ds
  | OpClear => []
  | _ => data
  end.

Definition run_ops (ops : list merkle_op) : MerkleTree := foldl apply_op MerkleTree_new ops.
Definition spec_ops (ops : list merkle_op) : list bytes := foldl spec_op [] ops.

Lemma generate_proof_represents i t data :
  represents t data → represents (snd (generate_proof i t)) data.
Proof.
  intros Ht. destruct (data !! i) as [d|] eqn:Hd.
  - by eapply generate_proof_spec.
  - unfold generate_proof. destruct Ht as [Hl ? ?].
    assert (leaves t !! i = None) as ->; [|done].
    by rewrite Hl, list_lookup_fmap, Hd.
Qed.

Lemma apply_op_represents t data o :
  represents t data → represents (apply_op t o) (spec_op data o).
Proof.
  intros Ht. destruct o; simpl.
  - by apply insert_leaf_represents.
  - by apply insert_leaves_represents.
  - by apply root_spec.
  - by apply generate_proof_represents.
  - unfold verify_proof. pose proof (root_spec t data Ht) as [_ Hr].
    by destruct (MerkleTree_root t).
  - unfold MerkleTree_batch_verify. case_decide; [done|].
    pose proof (root_spec t data Ht) as [_ Hr]. by destruct (MerkleTree_root t).
  - apply clear_represents.
Qed.

Lemma run_ops_represents ops : represents (run_ops ops) (spec_ops ops).
Proof.
  unfold run_ops, spec_ops. generalize represents_new.
  generalize MerkleTree_new ([] : list bytes).
  induction ops as [|o ops IH]; intros t data Ht; simpl; [done|].
  apply IH. by apply apply_op_represents.
Qed.

Lemma path_of_length k fuel i (l : list Hash) :
  length l ≤ 2 ^ k → length (path_of hash_internal fuel i l) ≤ k.
Proof.
  revert fuel i l. induction k as [|k IH]; intros fuel i l Hl.
  - destruct fuel; simpl in *; [lia|]. destruct (Nat.ltb_spec 1 (length l)); simpl; lia.
  - destruct fuel as [|fuel]; [simpl; lia|]. cbn [path_of].
    destruct (1 <? length l); [|simpl; lia]. rewrite length_app.
    assert (length (option_list (sibling i l)) ≤ 1) by (destruct (sibling i l); simpl; lia).
    rewrite Nat.pow_succ_r' in Hl.
    pose proof (IH fuel (i / 2) (pair_level hash_internal l)) as Hrest.
    rewrite pair_level_length in Hrest.
    assert ((length l + 1) / 2 ≤ 2 ^ k) by (apply Nat.lt_succ_r, Nat.Div0.div_lt_upper_bound; lia).
    specialize (Hrest ltac:(done)). lia.
Qed.

(** C1: After any sequence of tree operations, cached or not, [root] is the
    RFC 6962 tree hash of the leaves inserted since the last [clear], and
    [EmptyTree] when there are none: it never panics and never returns a stale
    cache. *)
Theorem merkle_root_after_ops (ops : list merkle_op) :
  fst (MerkleTree_root (run_ops ops)) =
  ok_or (mth hash_internal (length (spec_ops ops)) (hash_leaf <$> spec_ops ops)) EmptyTree.
Proof.
  rewrite mth_root_of by (by rewrite length_fmap).
  apply root_spec, run_ops_represents.
Qed.

(** After any sequence of operations, [generate_proof] for an index in
    range succeeds and its proof verifies the leaf at that index against the
    tree's root. *)
Theorem merkle_proof_complete (ops : list merkle_op) (i : nat) (d : bytes) :
  spec_ops ops !! i = Some d →
  ∃ p r, fst (generate_proof i (run_ops ops)) = Ok p
    ∧ fst (MerkleTree_root (snd (generate_proof i (run_ops ops)))) = Ok r
    ∧ leaf_index p = i ∧ InclusionProof_verify p r d = Ok true.
Proof.
  intros Hd. pose proof (run_ops_represents ops) as Ht.
  destruct (generate_proof_spec _ _ _ _ Ht Hd) as [Hp Ht'].
  destruct (root_spec _ _ Ht') as [Hr _].
  assert (is_Some (data_root (spec_ops ops))) as [r Hroot].
  { apply root_of_Some. rewrite length_fmap. apply lookup_lt_Some in Hd. lia. }
  eexists _, r. split_and!; [done| |done|by apply path_verifies].
  by rewrite Hr, Hroot.
Qed.

(** C2: Soundness: when SHA-256 has no collision among the messages hashed to
    build the tree and to check the proof, a proof that [verify] accepts
    against the root of a list of leaves is for a member of that list. *)
Theorem merkle_proof_sound (p : InclusionProof) (data : list bytes) (r : Hash) (d : bytes) :
  fst (MerkleTree_root (from_leaves data)) = Ok r →
  InclusionProof_verify p r d = Ok true →
  collision_free (root_msgs data ++ verify_msgs p d) → d ∈ data.
Proof.
  intros Hr. rewrite (proj1 (root_spec _ _ (from_leaves_represents data))) in Hr.
  apply verified_leaf. by apply ok_or_Ok in Hr.
Qed.

(** C3: The root commits to the whole ordered list of leaves: two lists with
    the same root are equal, when SHA-256 has no collision among the messages
    hashed to build the two trees. *)
Theorem merkle_root_binding (data1 data2 : list bytes) (r : Hash) :
  fst (MerkleTree_root (from_leaves data1)) = Ok r →
  fst (MerkleTree_root (from_leaves data2)) = Ok r →
  collision_free (root_msgs data1 ++ root_msgs data2) → data1 = data2.
Proof.
  intros H1 H2.
  rewrite (proj1 (root_spec _ _ (from_leaves_represents data1))) in H1.
  rewrite (proj1 (root_spec _ _ (from_leaves_represents data2))) in H2.
  apply ok_or_Ok in H1, H2. by apply (data_root_inj data1 data2 r).
Qed.

(** Proofs are logarithmic: over at most [2^k] leaves a generated proof has
    at most [k] siblings, as many directions, and a size of at most
    [40 + 32k + ceil(k/8)] bytes. *)
Theorem merkle_proof_size (ops : list merkle_op) (i k : nat) (p : InclusionProof) :
  length (spec_ops ops) ≤ 2 ^ k →
  fst (generate_proof i (run_ops ops)) = Ok p →
  length (sibling_hashes p) ≤ k ∧ length (directions p) = length (sibling_hashes p)
  ∧ InclusionProof_size_bytes p ≤ 40 + 32 * k + (k + 7) / 8.
Proof.
  intros Hk Hp. pose proof (run_ops_represents ops) as Ht.
  destruct (spec_ops ops !! i) as [d|] eqn:Hd.
  - rewrite (proj1 (generate_proof_spec _ _ _ _ Ht Hd)) in Hp. injection Hp as <-.
    pose proof (path_of_length k (length (spec_ops ops)) i (hash_leaf <$> spec_ops ops)) as Hlen.
    rewrite length_fmap in Hlen. specialize (Hlen Hk). unfold InclusionProof_size_bytes, HASH_LEN.
    cbn [sibling_hashes directions]. rewrite !length_fmap. split_and!; [done|done|].
    pose proof (Nat.Div0.div_le_mono (length (path_of hash_internal (length (spec_ops ops)) i
      (hash_leaf <$> spec_ops ops)) + 7) (k + 7) 8). lia.
  - unfold generate_proof in Hp. destruct Ht as [Hl _ _].
    rewrite Hl, list_lookup_fmap, Hd in Hp. discriminate Hp.
Qed.
End Operations.

(** ** Evaluation on concrete trees *)

Definition leaf_a : bytes := bytes_of "a".
Definition leaf_b : bytes := bytes_of "b".
Definition leaf_c : bytes := bytes_of "c".
Definition three_ops : list merkle_op := [OpInsert leaf_a; OpRoot; OpInsertMany [leaf_b; leaf_c]].

Lemma merkle_proof_complete_witness :
  ∃ p r, fst (@generate_proof toy_sha256 2 (@run_ops toy_sha256 three_ops)) = Ok p
    ∧ fst (@MerkleTree_root toy_sha256
             (snd (@generate_proof toy_sha256 2 (@run_ops toy_sha256 three_ops)))) = Ok r
    ∧ leaf_index p = 2 ∧ @InclusionProof_verify toy_sha256 p r leaf_c = Ok true.
Proof. apply (@merkle_proof_complete toy_sha256 three_ops 2 leaf_c). reflexivity. Defined.

Definition three : list bytes := [leaf_a; leaf_b; leaf_c].
Definition three_root : Hash :=
  match fst (@MerkleTree_root toy_sha256 (@from_leaves toy_sha256 three)) with
  | Ok r => r
  | _ => zeros 32
  end.
Definition three_proof : InclusionProof :=
  match fst (@generate_proof toy_sha256 1 (@from_leaves toy_sha256 three)) with
  | Ok p => p
  | _ => mkInclusionProof 0 (zeros 32) [] []
  end.

Lemma merkle_proof_sound_witness :
  @InclusionProof_verify toy_sha256 three_proof three_root leaf_b = Ok true
  ∧ leaf_b ∈ three.
Proof.
  split; [vm_compute; reflexivity|].
  apply (@merkle_proof_sound toy_sha256 three_proof three three_root leaf_b).
  - vm_compute. reflexivity.
  - vm_compute. reflexivity.
  - decide_collision_free.
Defined.

Lemma merkle_root_binding_witness : three = [leaf_a; leaf_b; leaf_c].
Proof.
  apply (@merkle_root_binding toy_sha256 three [leaf_a; leaf_b; leaf_c] three_root).
  - vm_compute. reflexivity.
  - vm_compute. reflexivity.
  - decide_collision_free.
Defined.

Lemma merkle_proof_size_witness :
  length (sibling_hashes three_proof) ≤ 2
  ∧ length (directions three_proof) = length (sibling_hashes three_proof)
  ∧ InclusionProof_size_bytes three_proof ≤ 40 + 32 * 2 + (2 + 7) / 8.
Proof.
  apply (@merkle_proof_size toy_sha256 three_ops 1 2 three_proof).
  - vm_compute. lia.
  - vm_compute. reflexivity.
Defined.
