(* ===== verification/Transparency.v ===== *)
(** * The transparency log ([crates/messages/src/transparency.rs])

    Entries, inclusion proofs and consistency proofs with their verifiers.  The
    JSON encoding of an entry comes from [serde_json] and is a parameter.  The
    verifiers work on [u64] indices and sizes: the loops are run with fuel 64,
    one iteration per bit, and [(size + 1) / 2] is computed with the wrap of
    the release profile. *)

From Stdlib Require Import Strings.Byte.
From stdpp Require Import base tactics numbers sets list gmap strings pretty option.
From S2P Require Import Prelude Crypto TreeTheory.
Open Scope hc_scope.

Inductive RevocationReason :=
| UserRequested
| DeviceCompromised
| Administrative
| KeyRotation.

Inductive TransparencyOperation :=
| AddJoinCard (user_id device_id key_fingerprint : string)
| RevokeJoinCard (user_id device_id : string) (reason : RevocationReason)
| DirectoryUpdate (merkle_root : array 32) (file_count : N)
| EpochKeyRotation (epoch_number : N) (epoch_key_hash : array 32)
| CoverageSnapshot (merkle_root : array 32) (epoch_id file_count : N)
    (signing_key_id : option string) (verifying_key : array 32).

Record TransparencyEntry := mkTransparencyEntry {
  sequence_number : N;
  timestamp : N;
  join_card_hash : array 32;
  operation : TransparencyOperation;
  signature : bytes;
}.

Record TransparencyInclusionProof := mkTransparencyInclusionProof {
  entry : TransparencyEntry;
  leaf_index : N;
  proof_path : list (array 32);
  log_size : N;
  log_root : array 32;
}.

Record ConsistencyProof := mkConsistencyProof {
  old_size : N;
  new_size : N;
  old_root : array 32;
  new_root : array 32;
  consistency_path : list (array 32);
}.

Inductive TransparencyError :=
| InvalidInclusionProof
| InvalidConsistencyProof
| InvalidSignature
| InvalidEntry (msg : string)
| UnknownSigningKey (key_id : string)
| InvalidCheckpoint (msg : string).

Definition TransparencyError_display (e : TransparencyError) : string :=
  match e with
  | InvalidInclusionProof => "Invalid inclusion proof"
  | InvalidConsistencyProof => "Invalid consistency proof"
  | InvalidSignature => "Invalid signature on transparency entry"
  | InvalidEntry msg => "Invalid transparency entry: " +:+ msg
  | UnknownSigningKey key_id => "Unknown transparency signing key: " +:+ key_id
  | InvalidCheckpoint msg => "Invalid transparency checkpoint: " +:+ msg
  end.

#[export] Instance RevocationReason_eq_dec : EqDecision RevocationReason.
Proof. solve_decision. Defined.
#[export] Instance TransparencyOperation_eq_dec : EqDecision TransparencyOperation.
Proof. solve_decision. Defined.
#[export] Instance TransparencyEntry_eq_dec : EqDecision TransparencyEntry.
Proof. solve_decision. Defined.

(** [serde_json::to_vec] on an entry; the derived [Deserialize] reads it back. *)
Class EntryJson := json_entry : TransparencyEntry → bytes.
Class EntryJsonLaws `{EntryJson} : Prop := json_entry_inj : Inj (=) (=) json_entry.

Section Transparency.
Context {sha : Sha256} {ejson : EntryJson}.

Definition TransparencyEntry_hash (e : TransparencyEntry) : array 32 := sha256 (json_entry e).

Definition node_msg (left right : array 32) : bytes := arr left ++ arr right.
Definition hash_internal (left right : array 32) : array 32 := sha256 (node_msg left right).

(** ** Inclusion proofs *)

Record incl_state := mkIncl {
  is_hash : array 32;
  is_index : N;
  is_size : N;
  is_path : list (array 32);
}.

Definition incl_body (s : incl_state) : res TransparencyError incl_state :=
  let is_last := (is_index s =? is_size s - 1)%N in
  let odd := (is_size s mod 2 =? 1)%N in
  let? hp :=
    if negb (is_last && odd) then
      match is_path s with
      | [] => Err InvalidInclusionProof
      | sibling_hash :: path =>
          Ok (if (is_index s mod 2 =? 0)%N
              then (hash_internal (is_hash s) sibling_hash, path)
              else (hash_internal sibling_hash (is_hash s), path))
      end
    else Ok (is_hash s, is_path s) in
  Ok (mkIncl hp.1 (is_index s / 2) (u64_wrap (is_size s + 1) / 2) hp.2).

Definition InclusionProof_verify (p : TransparencyInclusionProof)
  : res TransparencyError bool :=
  if (log_size p <=? leaf_index p)%N then Ok false
  else
    let? s := while u64_bits (λ s, (1 <? is_size s)%N) incl_body
                (mkIncl (TransparencyEntry_hash (entry p)) (leaf_index p) (log_size p)
                        (proof_path p)) in
    match is_path s with
    | _ :: _ => Err InvalidInclusionProof
    | [] => Ok (bool_decide (is_hash s = log_root p))
    end.

(** ** Consistency proofs *)

Record cons_state := mkCons {
  cs_node : N;
  cs_last : N;
  cs_index : nat;
  cs_old : array 32;
  cs_new : array 32;
}.

Definition strip_body (s : N * N) : res TransparencyError (N * N) :=
  Ok (N.shiftr s.1 1, N.shiftr s.2 1).

Definition cons_body (path : list (array 32)) (s : cons_state)
  : res TransparencyError cons_state :=
  let? s' :=
    if (cs_node s mod 2 =? 1)%N then
      let? sibling := ok_or (path !! cs_index s) InvalidConsistencyProof in
      Ok (mkCons (cs_node s) (cs_last s) (S (cs_index s))
                 (hash_internal sibling (cs_old s)) (hash_internal sibling (cs_new s)))
    else if (cs_node s <? cs_last s)%N then
      let? sibling := ok_or (path !! cs_index s) InvalidConsistencyProof in
      Ok (mkCons (cs_node s) (cs_last s) (S (cs_index s))
                 (cs_old s) (hash_internal (cs_new s) sibling))
    else Ok s in
  Ok (mkCons (N.shiftr (cs_node s') 1) (N.shiftr (cs_last s') 1) (cs_index s')
             (cs_old s') (cs_new s')).

Definition extend_body (path : list (array 32)) (s : cons_state)
  : res TransparencyError cons_state :=
  let? sibling := ok_or (path !! cs_index s) InvalidConsistencyProof in
  Ok (mkCons (cs_node s) (N.shiftr (cs_last s) 1) (S (cs_index s))
             (cs_old s) (hash_internal (cs_new s) sibling)).

(** The part of [verify] before its second loop: strip the trailing ones of the
    old index, then take the starting hash. *)
Definition cons_start (p : ConsistencyProof) : res TransparencyError cons_state :=
  let? nl := while u64_bits (λ s, (s.1 mod 2 =? 1)%N) strip_body
               ((old_size p - 1)%N, (new_size p - 1)%N) in
  if (nl.1 =? 0)%N then Ok (mkCons nl.1 nl.2 0 (old_root p) (old_root p))
  else
    let? sibling := ok_or (consistency_path p !! 0) InvalidConsistencyProof in
    Ok (mkCons nl.1 nl.2 1 sibling sibling).

Definition cons_loops (path : list (array 32)) (s : cons_state)
  : res TransparencyError cons_state :=
  let? s := while u64_bits (λ s, negb (cs_node s =? 0)%N) (cons_body path) s in
  while u64_bits (λ s, negb (cs_last s =? 0)%N) (extend_body path) s.

Definition ConsistencyProof_verify (p : ConsistencyProof) : res TransparencyError bool :=
  let path := consistency_path p in
  if (new_size p <? old_size p)%N then Ok false
  else if (old_size p =? new_size p)%N then
    Ok (bool_decide (old_root p = new_root p) && bool_decide (path = []))
  else if (old_size p =? 0)%N then Ok (bool_decide (path = []))
  else
    let? start := cons_start p in
    let? s := cons_loops path start in
    if negb (cs_index s =? length path) then Err InvalidConsistencyProof
    else Ok (bool_decide (cs_old s = old_root p) && bool_decide (cs_new s = new_root p)).

(** ** The log itself

    The server keeps the entries; a proof is about the tree over their hashes. *)
Definition log_root_of (entries : list TransparencyEntry) : option (array 32) :=
  root_of hash_internal (TransparencyEntry_hash <$> entries).

Definition log_pairs (entries : list TransparencyEntry) : list (array 32 * array 32) :=
  tree_pairs hash_internal (length entries) (TransparencyEntry_hash <$> entries).

(** *** The inclusion loop is a climb along the sides of the index *)

Lemma incl_body_spec i n h path :
  i < n → (N.of_nat n + 1 < U64)%N →
  incl_body (mkIncl h (N.of_nat i) (N.of_nat n) path) =
    if (i =? n - 1) && Nat.odd n
    then Ok (mkIncl h (N.of_nat (i / 2)) (N.of_nat ((n + 1) / 2)) path)
    else match path with
         | [] => Err InvalidInclusionProof
         | s :: path =>
             Ok (mkIncl (combine_step hash_internal h (Nat.odd i, s))
                        (N.of_nat (i / 2)) (N.of_nat ((n + 1) / 2)) path)
         end.
Proof.
  intros Hi Hn. unfold incl_body. simpl.
  replace (N.of_nat n - 1)%N with (N.of_nat (n - 1)) by lia.
  rewrite N_of_nat_eqb, N_mod2_odd, N_mod2_even, N_half.
  unfold u64_wrap. rewrite N.mod_small by done.
  replace (N.of_nat n + 1)%N with (N.of_nat (n + 1)) by lia. rewrite N_half.
  destruct ((i =? n - 1) && Nat.odd n); simpl; [done|].
  destruct path as [|s path]; [done|]. by destruct (Nat.odd i).
Qed.

Lemma incl_loop_spec fuel i n h path :
  i < n → (N.of_nat n ≤ 2 ^ N.of_nat fuel)%N → (N.of_nat n + 1 < U64)%N →
  let sides := sides_of fuel i n in
  let run := while fuel (λ s, (1 <? is_size s)%N) incl_body
               (mkIncl h (N.of_nat i) (N.of_nat n) path) in
  (length path < length sides → run = Err InvalidInclusionProof) ∧
  (length sides ≤ length path → ∃ s, run = Ok s
     ∧ is_hash s = climb hash_internal h (zip sides path)
     ∧ is_path s = drop (length sides) path).
Proof.
  revert i n h path. induction fuel as [|fuel IH]; intros i n h path Hi Hn Hw; cbn zeta.
  { change (2 ^ N.of_nat 0)%N with 1%N in Hn. rewrite while_stop by (simpl; apply N.ltb_ge; lia). simpl.
    split; [lia|]. intros _. eexists. by rewrite drop_0. }
  destruct (decide (1 < n)) as [H1|H1].
  - rewrite while_step by (simpl; apply N.ltb_lt; lia). rewrite incl_body_spec by done.
    cbn [sides_of]. rewrite (proj2 (Nat.ltb_lt 1 n) H1).
    assert (N.of_nat ((n + 1) / 2) ≤ 2 ^ N.of_nat fuel)%N as Hn'
      by (apply half_up_le; by rewrite <-Nat2N.inj_succ).
    assert (N.of_nat ((n + 1) / 2) + 1 < U64)%N as Hw'.
    { assert ((n + 1) / 2 < n) by (apply Nat.Div0.div_lt_upper_bound; lia). lia. }
    pose proof (half_lt i n Hi) as Hi'.
    destruct ((i =? n - 1) && Nat.odd n); [by apply IH|].
    destruct path as [|s path]; [split; [done|simpl; lia]|].
    specialize (IH _ _ (combine_step hash_internal h (Nat.odd i, s)) path Hi' Hn' Hw').
    destruct IH as [IH1 IH2]. cbn [app length res_bind]. split.
    + intros Hlen. apply IH1. lia.
    + intros Hlen. apply IH2. lia.
  - rewrite while_stop by (simpl; apply N.ltb_ge; lia). cbn [sides_of].
    destruct (Nat.ltb_spec 1 n); [lia|]. split; [simpl; lia|].
    intros _. eexists. by rewrite drop_0.
Qed.

(** [verify] accepts exactly the paths of the right length that climb to the
    root. *)
Lemma InclusionProof_verify_spec p (i n : nat) :
  leaf_index p = N.of_nat i → log_size p = N.of_nat n → i < n → (N.of_nat n + 1 < U64)%N →
  InclusionProof_verify p =
    if decide (length (proof_path p) = length (sides_of u64_bits i n))
    then Ok (bool_decide (climb hash_internal (TransparencyEntry_hash (entry p))
                            (zip (sides_of u64_bits i n) (proof_path p)) = log_root p))
    else Err InvalidInclusionProof.
Proof.
  intros Hi Hn Hlt Hw. unfold InclusionProof_verify. rewrite Hi, Hn.
  destruct (N.leb_spec (N.of_nat n) (N.of_nat i)); [lia|].
  destruct (incl_loop_spec u64_bits i n (TransparencyEntry_hash (entry p)) (proof_path p))
    as [Hshort Hlong]; [done|apply lt_u64_bits; lia|done|].
  destruct (decide (length (proof_path p) < length (sides_of u64_bits i n))) as [Hs|Hs].
  - rewrite Hshort by done. rewrite decide_False by lia. reflexivity.
  - destruct Hlong as (s & -> & Hh & Hp); [lia|]. cbn [res_bind]. rewrite Hp, Hh.
    case_decide as E.
    + rewrite <-E, drop_all. reflexivity.
    + destruct (drop _ _) eqn:Ed; [|reflexivity].
      apply (f_equal length) in Ed. rewrite length_drop in Ed. cbn [length] in Ed. lia.
Qed.

Lemma hash_internal_inj_on hashed :
  collision_free ((λ '(a, b), node_msg a b) <$> hashed) →
  ∀ a b c d, (a, b) ∈ hashed → (c, d) ∈ hashed →
  hash_internal a b = hash_internal c d → a = c ∧ b = d.
Proof.
  intros Hcf a b c d Hab Hcd E.
  assert (node_msg a b = node_msg c d) as Em.
  { eapply collision_free_eq; [done| | |done]; apply list_elem_of_fmap;
      [exists (a, b)|exists (c, d)]; done. }
  unfold node_msg in Em. apply app_split_eq in Em as [? ?]; [|by rewrite !arr_length].
  split; by apply arr_inj.
Qed.

(** The pairs hashed by a run of [InclusionProof::verify]. *)
Definition incl_pairs (p : TransparencyInclusionProof) : list (array 32 * array 32) :=
  climb_pairs hash_internal (TransparencyEntry_hash (entry p))
    (zip (sides_of u64_bits (N.to_nat (leaf_index p)) (N.to_nat (log_size p))) (proof_path p)).

Lemma incl_verified_leaf p entries e :
  entries !! N.to_nat (leaf_index p) = Some e →
  log_size p = N.of_nat (length entries) → (log_size p + 1 < U64)%N →
  log_root_of entries = Some (log_root p) →
  collision_free ((λ '(a, b), node_msg a b) <$> (log_pairs entries ++ incl_pairs p)) →
  InclusionProof_verify p = Ok true →
  TransparencyEntry_hash (entry p) = TransparencyEntry_hash e.
Proof.
  intros He Hn Hw Hroot Hcf Hv. pose proof (lookup_lt_Some _ _ _ He) as Hlt.
  rewrite (InclusionProof_verify_spec p (N.to_nat (leaf_index p)) (length entries)) in Hv
    by (rewrite ?N2Nat.id, <-?Hn; done).
  case_decide as Hlen; [|done]. injection Hv as Hv%bool_decide_eq_true.
  unfold incl_pairs in Hcf. rewrite Hn, Nat2N.id in Hcf.
  unfold log_root_of, log_pairs in *.
  assert (sides_of u64_bits (N.to_nat (leaf_index p)) (length entries) =
          sides_of (length entries) (N.to_nat (leaf_index p)) (length entries)) as Hsides.
  { apply sides_of_fuel; [apply lt_u64_bits; lia|apply le_pow_fuel]. }
  rewrite Hsides in *.
  eapply (climb_sound hash_internal (length entries) (TransparencyEntry_hash <$> entries)
    (N.to_nat (leaf_index p))); [by apply hash_internal_inj_on|set_solver|by apply list_subseteq_app_r| | | |].
  - by rewrite length_fmap.
  - by rewrite list_lookup_fmap, He.
  - rewrite length_fmap. by apply fst_zip; lia.
  - by rewrite Hv.
Qed.

(** The proof that the log's tree gives for entry [i]. *)
Definition make_inclusion (entries : list TransparencyEntry) (i : nat) (e : TransparencyEntry)
    (root : array 32) : TransparencyInclusionProof :=
  mkTransparencyInclusionProof e (N.of_nat i)
    (path_of hash_internal (length entries) i (TransparencyEntry_hash <$> entries)).*2
    (N.of_nat (length entries)) root.

(** Completeness of inclusion: for a log of fewer than [2^64 - 1] entries,
    the sibling path of an entry verifies against the log's root. *)
Theorem inclusion_proof_complete (entries : list TransparencyEntry) (i : nat)
    (e : TransparencyEntry) (root : array 32) :
  entries !! i = Some e → (N.of_nat (length entries) + 1 < U64)%N →
  log_root_of entries = Some root →
  InclusionProof_verify (make_inclusion entries i e root) = Ok true.
Proof.
  intros He Hw Hroot. pose proof (lookup_lt_Some _ _ _ He) as Hlt.
  set (hs := TransparencyEntry_hash <$> entries).
  assert (length hs = length entries) as Hhs by (unfold hs; by rewrite length_fmap).
  assert (sides_of u64_bits i (length entries) = (path_of hash_internal (length entries) i hs).*1) as Hs.
  { rewrite sides_path_of, Hhs by lia. apply sides_of_fuel; [|apply le_pow_fuel].
    apply lt_u64_bits. lia. }
  rewrite (InclusionProof_verify_spec _ i (length entries)) by done.
  unfold make_inclusion. cbn [proof_path entry log_root]. fold hs.
  rewrite Hs, decide_True by (by rewrite !length_fmap). f_equal.
  rewrite zip_fst_snd. apply bool_decide_eq_true. apply (inj Some).
  rewrite <-Hroot. symmetry. apply climb_path_of; [lia|].
  unfold hs. by rewrite list_lookup_fmap, He.
Qed.

(** Soundness of inclusion: against the root of the log's entries, with the
    log's size, [verify] accepts only the entry that the log has at that
    index, when SHA-256 has no collision among the messages hashed. *)
Theorem inclusion_proof_sound `{!EntryJsonLaws} (p : TransparencyInclusionProof)
    (entries : list TransparencyEntry) (e : TransparencyEntry) :
  entries !! N.to_nat (leaf_index p) = Some e →
  log_size p = N.of_nat (length entries) → (log_size p + 1 < U64)%N →
  log_root_of entries = Some (log_root p) →
  InclusionProof_verify p = Ok true →
  collision_free ((λ '(a, b), node_msg a b) <$> (log_pairs entries ++ incl_pairs p)) →
  collision_free [json_entry (entry p); json_entry e] →
  entry p = e.
Proof.
  intros He Hn Hw Hroot Hv Hcf Hcf'. apply json_entry_inj.
  eapply collision_free_eq; [exact Hcf'|set_solver|set_solver|].
  by apply (incl_verified_leaf p entries).
Qed.

(** At the largest size a proof can claim, [(size + 1) / 2] wraps to 0 and
    the loop ends after its first level: a one-element path is accepted for any
    index when it hashes to the root, although a log of [2^64 - 1] entries has
    64 levels. *)
Theorem inclusion_proof_max_size (e : TransparencyEntry) (i : N) (s root : array 32) :
  (i < U64 - 2)%N →
  InclusionProof_verify (mkTransparencyInclusionProof e i [s] (U64 - 1) root) =
  Ok (bool_decide ((if (i mod 2 =? 0)%N then hash_internal (TransparencyEntry_hash e) s
                    else hash_internal s (TransparencyEntry_hash e)) = root)).
Proof.
  intros Hi. unfold InclusionProof_verify. cbn [log_size leaf_index entry proof_path log_root].
  destruct (N.leb_spec (U64 - 1) i); [lia|].
  destruct u64_bits_S as [k ->].
  rewrite while_step by done. unfold incl_body at 1. cbn [is_index is_size is_hash is_path].
  destruct (N.eqb_spec i (U64 - 1 - 1)); [lia|]. simpl andb. cbn [negb res_bind].
  change (u64_wrap (U64 - 1 + 1) / 2)%N with 0%N.
  destruct (i mod 2 =? 0)%N; cbn [fst snd res_bind]; by rewrite while_stop.
Qed.
(** ** Consistency: the loops are a climb on the level where the prefix ends *)

Lemma shiftr1_half i : N.shiftr (N.of_nat i) 1 = N.of_nat (i / 2).
Proof. by rewrite N.shiftr_div_pow2, <-N_half. Qed.

Lemma half_pred n : 0 < n → (n - 1) / 2 = (n + 1) / 2 - 1.
Proof.
  intros Hn. replace (n + 1) with (n - 1 + 1 * 2) by lia. rewrite Nat.div_add by lia. lia.
Qed.

Lemma sides_of_unfold f i n :
  (N.of_nat n ≤ 2 ^ N.of_nat f)%N → 1 < n →
  sides_of f i n = (if (i =? n - 1) && Nat.odd n then [] else [Nat.odd i])
                     ++ sides_of f (i / 2) ((n + 1) / 2).
Proof.
  intros Hn H1. destruct f as [|f]; [simpl in Hn; lia|].
  transitivity ((if (i =? n - 1) && Nat.odd n then [] else [Nat.odd i])
                  ++ sides_of f (i / 2) ((n + 1) / 2)).
  { cbn [sides_of]. by rewrite (proj2 (Nat.ltb_lt 1 n) H1). }
  f_equal. apply sides_of_fuel.
  - apply half_up_le. by rewrite <-Nat2N.inj_succ.
  - etrans; [|exact Hn]. assert ((n + 1) / 2 ≤ n); [|lia].
    apply Nat.lt_succ_r, Nat.Div0.div_lt_upper_bound. lia.
Qed.

(** The outcome of the two climbing loops from node [i] of [n]. *)
Definition cons_outcome (path : list (array 32)) (sides : list bool) (idx : nat)
    (old new : array 32) : res TransparencyError cons_state :=
  let rest := drop idx path in
  if decide (length sides ≤ length rest)
  then Ok (mkCons 0 0 (idx + length sides)
             (climb hash_internal old (left_only (zip sides rest)))
             (climb hash_internal new (zip sides rest)))
  else Err InvalidConsistencyProof.

Lemma cons_outcome_nil path idx old new :
  cons_outcome path [] idx old new = Ok (mkCons 0 0 idx old new).
Proof. unfold cons_outcome. rewrite decide_True by (simpl; lia). simpl. by rewrite Nat.add_0_r. Qed.

(** Taking one sibling from the path. *)
Lemma cons_outcome_cons path side sides idx old new :
  cons_outcome path (side :: sides) idx old new =
  let? s := ok_or (path !! idx) InvalidConsistencyProof in
  cons_outcome path sides (S idx)
    (if side then hash_internal s old else old)
    (combine_step hash_internal new (side, s)).
Proof.
  unfold cons_outcome. destruct (path !! idx) as [s|] eqn:E; cbn [ok_or res_bind].
  - rewrite (drop_S _ _ _ E). cbn [length zip zip_with]. fold (zip sides (drop (S idx) path)).
    destruct (decide (length sides ≤ length (drop (S idx) path))) as [Hl|Hl].
    + rewrite decide_True by lia. rewrite Nat.add_succ_r.
      unfold left_only. by destruct side.
    + by rewrite decide_False by lia.
  - apply lookup_ge_None in E. rewrite decide_False; [done|].
    rewrite length_drop. cbn [length]. lia.
Qed.

Lemma extend_loop path fuel n idx old new :
  0 < n → (N.of_nat n ≤ 2 ^ N.of_nat fuel)%N →
  while fuel (λ s, negb (cs_last s =? 0)%N) (extend_body path)
    (mkCons 0 (N.of_nat (n - 1)) idx old new) =
  cons_outcome path (sides_of fuel 0 n) idx old new.
Proof.
  revert n idx new. induction fuel as [|fuel IH]; intros n idx new H0 Hn.
  { change (2 ^ N.of_nat 0)%N with 1%N in Hn. assert (n = 1) as -> by lia.
    rewrite while_stop by done. symmetry. apply cons_outcome_nil. }
  destruct (decide (1 < n)) as [H1|H1].
  - rewrite while_step by (cbn [cs_last]; apply negb_true_iff, N.eqb_neq; lia).
    cbn [sides_of]. rewrite (proj2 (Nat.ltb_lt 1 n) H1).
    assert ((0 =? n - 1) = false) as -> by (apply Nat.eqb_neq; lia). cbn [andb app].
    rewrite cons_outcome_cons. unfold extend_body at 1. cbn [cs_index cs_node cs_last cs_old cs_new].
    destruct (path !! idx) as [s|]; [|done]. cbn [ok_or res_bind].
    rewrite shiftr1_half, half_pred by lia. change (0 / 2) with 0.
    apply IH; [apply (half_lt 0 n); lia|]. apply half_up_le. by rewrite <-Nat2N.inj_succ.
  - assert (n = 1) as -> by lia. rewrite while_stop by done. symmetry. apply cons_outcome_nil.
Qed.

Lemma cons_body_spec path i n idx old new :
  0 < i → i < n →
  cons_body path (mkCons (N.of_nat i) (N.of_nat (n - 1)) idx old new) =
  if (i =? n - 1) && Nat.odd n
  then Ok (mkCons (N.of_nat (i / 2)) (N.of_nat ((n + 1) / 2 - 1)) idx old new)
  else let? s := ok_or (path !! idx) InvalidConsistencyProof in
       Ok (mkCons (N.of_nat (i / 2)) (N.of_nat ((n + 1) / 2 - 1)) (S idx)
             (if Nat.odd i then hash_internal s old else old)
             (combine_step hash_internal new (Nat.odd i, s))).
Proof.
  intros H0 Hi. unfold cons_body. cbn [cs_index cs_node cs_last cs_old cs_new].
  rewrite N_mod2_odd, N_of_nat_ltb.
  assert ((i =? n - 1) && Nat.odd n = negb (Nat.odd i) && negb (i <? n - 1)) as ->.
  { destruct (Nat.eqb_spec i (n - 1)) as [->|Hne].
    2:{ rewrite (proj2 (Nat.ltb_lt i (n - 1))) by lia. by rewrite andb_false_r. }
    rewrite Nat.ltb_irrefl, andb_true_r. destruct n as [|n]; [lia|]. simpl. rewrite Nat.sub_0_r.
    by rewrite Nat.odd_succ, <-Nat.negb_odd. }
  destruct (Nat.odd i); cbn [negb andb]; [|destruct (i <? n - 1); cbn [negb]];
    (destruct (path !! idx); cbn [ok_or res_bind]; try done);
    cbn [cs_index cs_node cs_last cs_old cs_new]; by rewrite !shiftr1_half, half_pred by lia.
Qed.

Lemma climb_loop path fuel f2 i n idx old new :
  i < n → (N.of_nat i < 2 ^ N.of_nat fuel)%N → (N.of_nat n ≤ 2 ^ N.of_nat f2)%N →
  (let? s := while fuel (λ s, negb (cs_node s =? 0)%N) (cons_body path)
               (mkCons (N.of_nat i) (N.of_nat (n - 1)) idx old new) in
   while f2 (λ s, negb (cs_last s =? 0)%N) (extend_body path) s) =
  cons_outcome path (sides_of f2 i n) idx old new.
Proof.
  revert i n idx old new. induction fuel as [|fuel IH]; intros i n idx old new Hi Hf Hn.
  { change (2 ^ N.of_nat 0)%N with 1%N in Hf. assert (i = 0) as -> by lia.
    rewrite while_stop by done. apply extend_loop; [lia|done]. }
  destruct (decide (i = 0)) as [->|H0].
  - rewrite while_stop by done. apply extend_loop; [lia|done].
  - rewrite while_step by (cbn [cs_node]; apply negb_true_iff, N.eqb_neq; lia).
    rewrite cons_body_spec by lia. rewrite (sides_of_unfold f2 i n) by (done || lia).
    assert (i / 2 < (n + 1) / 2) as Hi' by (by apply half_lt).
    assert (N.of_nat (i / 2) < 2 ^ N.of_nat fuel)%N as Hf'.
    { rewrite Nat2N.inj_succ, N.pow_succ_r' in Hf. rewrite <-N_half.
      apply N.Div0.div_lt_upper_bound. lia. }
    assert (N.of_nat ((n + 1) / 2) ≤ 2 ^ N.of_nat f2)%N as Hn'.
    { etrans; [|exact Hn]. assert ((n + 1) / 2 ≤ n); [|lia].
      apply Nat.lt_succ_r, Nat.Div0.div_lt_upper_bound. lia. }
    destruct ((i =? n - 1) && Nat.odd n).
    + cbn [app res_bind]. by apply IH.
    + cbn [app]. rewrite cons_outcome_cons.
      destruct (path !! idx) as [s|]; [|done]. cbn [ok_or res_bind]. by apply IH.
Qed.
(** The level where the prefix of length [i + 1] has its last node as a left
    child, and the index of that node. *)
Fixpoint strip_level (fuel i : nat) (l : list (array 32)) : nat * list (array 32) :=
  match fuel with
  | O => (i, l)
  | S fuel => if Nat.odd i then strip_level fuel (i / 2) (pair_level hash_internal l) else (i, l)
  end.

Lemma strip_loop fuel i l :
  i < length l → (N.of_nat i < 2 ^ N.of_nat fuel)%N →
  while fuel (λ s, (s.1 mod 2 =? 1)%N) strip_body (N.of_nat i, N.of_nat (length l - 1)) =
  Ok (N.of_nat (strip_level fuel i l).1, N.of_nat (length (strip_level fuel i l).2 - 1)).
Proof.
  revert i l. induction fuel as [|fuel IH]; intros i l Hi Hf.
  { change (2 ^ N.of_nat 0)%N with 1%N in Hf. assert (i = 0) as -> by lia.
    by rewrite while_stop. }
  cbn [strip_level]. destruct (Nat.odd i) eqn:Ho.
  - rewrite while_step by (cbn [fst]; by rewrite N_mod2_odd). cbn [strip_body res_bind fst snd].
    rewrite !shiftr1_half, half_pred, <-(pair_level_length hash_internal) by lia.
    apply IH; [rewrite pair_level_length; by apply half_lt|].
    rewrite Nat2N.inj_succ, N.pow_succ_r' in Hf. rewrite <-N_half.
    apply N.Div0.div_lt_upper_bound. lia.
  - by rewrite while_stop by (cbn [fst]; by rewrite N_mod2_odd).
Qed.

Lemma strip_level_at fuel i l : ∃ k, (strip_level fuel i l).2 = level_at hash_internal k l.
Proof.
  revert i l. induction fuel as [|fuel IH]; intros i l; [by exists 0|]. cbn [strip_level].
  destruct (Nat.odd i); [|by exists 0].
  destruct (IH (i / 2) (pair_level hash_internal l)) as [k Hk]. by exists (S k).
Qed.

Lemma strip_level_prefix fuel i l :
  i < length l →
  (strip_level fuel i l).1 < length (strip_level fuel i l).2 ∧
  root_of hash_internal (take (S (strip_level fuel i l).1) (strip_level fuel i l).2) =
  root_of hash_internal (take (S i) l).
Proof.
  revert i l. induction fuel as [|fuel IH]; intros i l Hi; [done|]. cbn [strip_level].
  destruct (Nat.odd i) eqn:Ho; [|done].
  destruct (IH (i / 2) (pair_level hash_internal l)) as [H1 H2].
  { rewrite pair_level_length. by apply half_lt. }
  split; [done|]. rewrite H2. apply Nat.odd_spec in Ho as [k ->].
  assert ((2 * k + 1) / 2 = k) as -> by (rewrite Nat.mul_comm, Nat.div_add_l by lia; simpl; lia).
  replace (S (2 * k + 1)) with (S k * 2) by lia. rewrite <-(Nat.div_mul (S k) 2) at 1 by lia.
  rewrite pair_level_take_even by (lia || (apply Nat.even_spec; exists (S k); lia)).
  by rewrite root_of_pair_level.
Qed.

(** What the verifier does for [0 < m < n], on the stripped level. *)
Lemma ConsistencyProof_verify_spec p (leaves : list (array 32)) (m : nat) :
  old_size p = N.of_nat m → new_size p = N.of_nat (length leaves) →
  0 < m < length leaves → (N.of_nat (length leaves) < U64)%N →
  ConsistencyProof_verify p =
    let '(i, l) := strip_level u64_bits (m - 1) leaves in
    let sides := sides_of u64_bits i (length l) in
    let? s := (if i =? 0 then Ok (old_root p, consistency_path p)
               else match consistency_path p with
                    | [] => Err InvalidConsistencyProof
                    | x :: rest => Ok (x, rest)
                    end) in
    if decide (length s.2 = length sides)
    then Ok (bool_decide (climb hash_internal s.1 (left_only (zip sides s.2)) = old_root p)
             && bool_decide (climb hash_internal s.1 (zip sides s.2) = new_root p))
    else Err InvalidConsistencyProof.
Proof.
  intros Hm Hn Hmn Hw. unfold ConsistencyProof_verify, cons_start. rewrite Hm, Hn.
  destruct (N.ltb_spec (N.of_nat (length leaves)) (N.of_nat m)); [lia|].
  destruct (N.eqb_spec (N.of_nat m) (N.of_nat (length leaves))); [lia|].
  destruct (N.eqb_spec (N.of_nat m) 0); [lia|].
  replace (N.of_nat m - 1)%N with (N.of_nat (m - 1)) by lia.
  replace (N.of_nat (length leaves) - 1)%N with (N.of_nat (length leaves - 1)) by lia.
  rewrite strip_loop by (lia || (rewrite pow_u64_bits; lia)). cbn [res_bind fst snd].
  destruct (strip_level_prefix u64_bits (m - 1) leaves) as [Hi _]; [lia|].
  destruct (strip_level_at u64_bits (m - 1) leaves) as [k Hk].
  pose proof (level_at_shorter hash_internal k leaves) as Hlen. rewrite <-Hk in Hlen.
  destruct (strip_level u64_bits (m - 1) leaves) as [i l]. cbn [fst snd] in *.
  assert (∀ path idx h, cons_loops path
      (mkCons (N.of_nat i) (N.of_nat (length l - 1)) idx h h) =
    cons_outcome path (sides_of u64_bits i (length l)) idx h h) as Hloops.
  { intros path idx h. apply climb_loop; [done|rewrite pow_u64_bits; lia|apply lt_u64_bits; lia]. }
  clear Hk. rewrite (N_of_nat_eqb i 0 : (N.of_nat i =? 0)%N = _).
  set (sides := sides_of u64_bits i (length l)) in *. clearbody sides.
  destruct (i =? 0).
  - cbn [res_bind fst snd]. rewrite Hloops. unfold cons_outcome. rewrite drop_0.
    destruct (decide (length sides ≤ _)); [|by rewrite decide_False by lia].
    cbn [res_bind cs_index cs_old cs_new length Nat.add]. case_decide as E.
    + by rewrite E, Nat.eqb_refl.
    + by rewrite (proj2 (Nat.eqb_neq _ _)) by lia.
  - destruct (consistency_path p) as [|x rest]; [done|].
    cbn [lookup list_lookup ok_or res_bind fst snd]. rewrite Hloops. unfold cons_outcome.
    change (drop 1 (x :: rest)) with (drop 0 rest). rewrite drop_0.
    destruct (decide (length sides ≤ _)); [|by rewrite decide_False by lia].
    cbn [res_bind cs_index cs_old cs_new length Nat.add]. case_decide as E.
    + by rewrite E, Nat.eqb_refl.
    + by rewrite (proj2 (Nat.eqb_neq _ _)) by lia.
Qed.
(** The consistency path that the log's tree gives for its first [m] leaves. *)
Definition consistency_path_of (leaves : list (array 32)) (m : nat) : list (array 32) :=
  let '(i, l) := strip_level u64_bits (m - 1) leaves in
  (if i =? 0 then [] else option_list (l !! i)) ++ (path_of hash_internal (length l) i l).*2.

Definition make_consistency (entries : list TransparencyEntry) (m : nat)
    (old_root new_root : array 32) : ConsistencyProof :=
  mkConsistencyProof (N.of_nat m) (N.of_nat (length entries)) old_root new_root
    (consistency_path_of (TransparencyEntry_hash <$> entries) m).

(** The pairs hashed by a run of [ConsistencyProof::verify] for the new root. *)
Definition cons_pairs (p : ConsistencyProof) : list (array 32 * array 32) :=
  match cons_start p with
  | Ok s =>
      climb_pairs hash_internal (cs_new s)
        (zip (sides_of u64_bits (N.to_nat (cs_node s)) (N.to_nat (cs_last s) + 1))
             (drop (cs_index s) (consistency_path p)))
  | _ => []
  end.

Lemma sides_of_level i (l : list (array 32)) :
  i < length l → (N.of_nat (length l) < U64)%N →
  sides_of u64_bits i (length l) = (path_of hash_internal (length l) i l).*1.
Proof.
  intros Hi Hw. rewrite sides_path_of by done.
  apply sides_of_fuel; [apply lt_u64_bits; lia|apply le_pow_fuel].
Qed.

Lemma strip_level_short fuel i (l : list (array 32)) :
  length (strip_level fuel i l).2 ≤ length l.
Proof. destruct (strip_level_at fuel i l) as [k ->]. apply level_at_shorter. Qed.

Lemma strip_level_root fuel i (l : list (array 32)) :
  root_of hash_internal (strip_level fuel i l).2 = root_of hash_internal l.
Proof. destruct (strip_level_at fuel i l) as [k ->]. apply root_of_level_at. Qed.

(** Completeness of consistency: for a log of fewer than [2^64] entries and
    any non-empty proper prefix of it, the tree's consistency path verifies
    between the two roots. *)
Theorem consistency_proof_complete (entries : list TransparencyEntry) (m : nat)
    (r_old r_new : array 32) :
  0 < m < length entries → (N.of_nat (length entries) < U64)%N →
  log_root_of (take m entries) = Some r_old → log_root_of entries = Some r_new →
  ConsistencyProof_verify (make_consistency entries m r_old r_new) = Ok true.
Proof.
  intros Hm Hw Ho Hn. unfold log_root_of in Ho, Hn. rewrite fmap_take in Ho.
  set (hs := TransparencyEntry_hash <$> entries) in *.
  assert (length hs = length entries) as Hhs by (unfold hs; by rewrite length_fmap).
  rewrite (ConsistencyProof_verify_spec _ hs m) by (rewrite ?Hhs; done).
  unfold make_consistency, consistency_path_of. fold hs.
  cbn [consistency_path old_root new_root old_size new_size].
  destruct (strip_level_prefix u64_bits (m - 1) hs) as [Hi Hpre]; [lia|].
  pose proof (strip_level_short u64_bits (m - 1) hs) as Hlen.
  pose proof (strip_level_root u64_bits (m - 1) hs) as Hroot.
  destruct (strip_level u64_bits (m - 1) hs) as [i l]. cbn [fst snd] in *.
  replace (S (m - 1)) with m in Hpre by lia. rewrite Ho in Hpre. rewrite Hn in Hroot.
  destruct (lookup_lt_is_Some_2 l i Hi) as [x Hx].
  rewrite (root_prefix hash_internal (length l) l i x) in Hpre by done.
  rewrite (climb_path_of hash_internal (length l) l i x) in Hroot by done.
  injection Hpre as Hpre. injection Hroot as Hroot. rewrite sides_of_level by lia.
  destruct (Nat.eqb_spec i 0) as [->|Hne].
  - assert (left_only (path_of hash_internal (length l) 0 l) = []) as Hl.
    { clear. generalize (length l) as fuel. intros fuel. revert l.
      induction fuel as [|fuel IH]; intros l; [done|]. cbn [path_of].
      destruct (1 <? length l); [|done]. unfold left_only. rewrite list.filter_app.
      change (0 / 2) with 0. fold (left_only (path_of hash_internal fuel 0 (pair_level hash_internal l))).
      rewrite IH. unfold sibling. simpl. by destruct (l !! 1). }
    rewrite Hl in Hpre. simpl in Hpre. subst x.
    cbn [app res_bind fst snd]. rewrite decide_True by (by rewrite !length_fmap).
    rewrite zip_fst_snd, Hl, Hroot. simpl. by rewrite !bool_decide_true.
  - rewrite Hx. cbn [option_list option_rect app res_bind fst snd].
    rewrite decide_True by (by rewrite !length_fmap).
    rewrite zip_fst_snd, Hpre, Hroot. by rewrite !bool_decide_true.
Qed.

Lemma fmap_subseteq {A B} (g : A → B) (l k : list A) : l ⊆ k → g <$> l ⊆ g <$> k.
Proof.
  intros Hlk x Hx. apply list_elem_of_fmap in Hx as (y & -> & Hy).
  apply list_elem_of_fmap. exists y. auto.
Qed.

Lemma entry_hashes_inj `{!EntryJsonLaws} (all l1 l2 : list TransparencyEntry) :
  collision_free (json_entry <$> all) → l1 ⊆ all → l2 ⊆ all →
  TransparencyEntry_hash <$> l1 = TransparencyEntry_hash <$> l2 → l1 = l2.
Proof.
  intros Hcf. revert l2. induction l1 as [|e l1 IH]; intros [|e' l2] H1 H2 E; try done.
  injection E as Ee El. f_equal.
  - apply json_entry_inj. eapply collision_free_eq; [exact Hcf| | |exact Ee];
      apply list_elem_of_fmap_2; set_solver.
  - apply IH; set_solver.
Qed.

Lemma consistency_prefix_root p (leaves : list (array 32)) (m : nat) :
  old_size p = N.of_nat m → new_size p = N.of_nat (length leaves) →
  0 < m < length leaves → (N.of_nat (length leaves) < U64)%N →
  root_of hash_internal leaves = Some (new_root p) →
  collision_free ((λ '(a, b), node_msg a b) <$>
    (tree_pairs hash_internal (length leaves) leaves ++ cons_pairs p)) →
  ConsistencyProof_verify p = Ok true →
  root_of hash_internal (take m leaves) = Some (old_root p).
Proof.
  intros Hm Hn Hmn Hw Hroot Hcf Hv.
  rewrite (ConsistencyProof_verify_spec p leaves m) in Hv by done.
  unfold cons_pairs, cons_start in Hcf. rewrite Hm, Hn in Hcf.
  replace (N.of_nat m - 1)%N with (N.of_nat (m - 1)) in Hcf by lia.
  replace (N.of_nat (length leaves) - 1)%N with (N.of_nat (length leaves - 1)) in Hcf by lia.
  rewrite strip_loop in Hcf by (lia || (rewrite pow_u64_bits; lia)). cbn [res_bind fst snd] in Hcf.
  destruct (strip_level_prefix u64_bits (m - 1) leaves) as [Hi Hpre]; [lia|].
  pose proof (strip_level_short u64_bits (m - 1) leaves) as Hlen.
  pose proof (strip_level_root u64_bits (m - 1) leaves) as Hr. rewrite Hroot in Hr.
  destruct (strip_level_at u64_bits (m - 1) leaves) as [k Hk].
  destruct (strip_level u64_bits (m - 1) leaves) as [i l]. cbn [fst snd] in *.
  replace (S (m - 1)) with m in Hpre by lia. rewrite <-Hpre.
  destruct (lookup_lt_is_Some_2 l i Hi) as [x Hx].
  rewrite (root_prefix hash_internal (length leaves) l i x) by done. f_equal.
  rewrite (N_of_nat_eqb i 0 : (N.of_nat i =? 0)%N = _) in Hcf.
  assert (∃ h rest, (if i =? 0 then Ok (old_root p, consistency_path p)
      else match consistency_path p with
           | [] => Err InvalidConsistencyProof | x :: rest => Ok (x, rest) end) = Ok (h, rest) ∧
    collision_free ((λ '(a, b), node_msg a b) <$>
      (tree_pairs hash_internal (length leaves) leaves ++
       climb_pairs hash_internal h (zip (sides_of u64_bits i (length l)) rest))))
    as (h & rest & Es & Hcf').
  { destruct (i =? 0); [|destruct (consistency_path p) as [|y rest]; [done|]];
      cbn [lookup list_lookup ok_or res_bind cs_new cs_node cs_last cs_index] in Hcf;
      rewrite !Nat2N.id, Nat.sub_add in Hcf by lia; eauto. }
  rewrite Es in Hv. cbn [res_bind fst snd] in Hv. case_decide as Hl; [|done].
  injection Hv as [Ho Hnew]%andb_true_iff. apply bool_decide_eq_true in Ho, Hnew.
  assert (h = x ∧ zip (sides_of u64_bits i (length l)) rest
            = path_of hash_internal (length leaves) i l) as [-> Hz].
  { eapply (climb_sound hash_internal (length leaves) l i);
      [by apply hash_internal_inj_on| |by apply list_subseteq_app_r|done|done| |by rewrite Hnew].
    - rewrite Hk. etrans; [by apply tree_pairs_level_at|]. by apply list_subseteq_app_l.
    - rewrite fst_zip by lia. apply sides_of_fuel; [apply lt_u64_bits; lia|].
      etrans; [|apply le_pow_fuel]. lia. }
  by rewrite <-Hz.
Qed.

(** C4: Append-only: when [verify] accepts a consistency proof against the root
    and the size of the log's entries, the log that the old root was computed
    from is a prefix of them, when SHA-256 has no collision among the messages
    hashed. *)
Theorem consistency_proof_append_only `{!EntryJsonLaws} (p : ConsistencyProof)
    (entries old_entries : list TransparencyEntry) :
  0 < length old_entries →
  old_size p = N.of_nat (length old_entries) → log_root_of old_entries = Some (old_root p) →
  new_size p = N.of_nat (length entries) → log_root_of entries = Some (new_root p) →
  (new_size p < U64)%N →
  ConsistencyProof_verify p = Ok true →
  collision_free ((λ '(a, b), node_msg a b) <$>
    (log_pairs entries ++ cons_pairs p ++ log_pairs old_entries ++
     log_pairs (take (length old_entries) entries))) →
  collision_free (json_entry <$> (entries ++ old_entries)) →
  old_entries = take (length old_entries) entries.
Proof.
  intros H0 Hos Hor Hns Hnr Hw Hv Hcf Hj. unfold log_root_of, log_pairs in *.
  set (hs := TransparencyEntry_hash <$> entries) in *.
  set (ohs := TransparencyEntry_hash <$> old_entries) in *.
  assert (length hs = length entries) as Hhs by apply length_fmap.
  assert (length ohs = length old_entries) as Hohs by apply length_fmap.
  assert (length old_entries ≤ length entries) as Hle.
  { unfold ConsistencyProof_verify in Hv. rewrite Hos, Hns in Hv.
    destruct (N.ltb_spec (N.of_nat (length entries)) (N.of_nat (length old_entries)));
      [done|lia]. }
  assert (root_of hash_internal (take (length old_entries) hs) = Some (old_root p)) as Hpre.
  { destruct (decide (length old_entries = length entries)) as [E|Hne].
    - rewrite E, <-Hhs, take_ge by done. unfold ConsistencyProof_verify in Hv.
      rewrite Hos, Hns, E in Hv. rewrite N.ltb_irrefl, N.eqb_refl in Hv.
      injection Hv as [Hv%bool_decide_eq_true _]%andb_true_iff. by rewrite Hv.
    - eapply consistency_prefix_root; try (rewrite ?Hhs; done); [lia|lia|].
      rewrite Hhs. eapply collision_free_subset; [exact Hcf|]. apply fmap_subseteq.
      clear. intros ab Hab. set_solver. }
  assert (ohs = take (length old_entries) hs) as Heq.
  { apply (root_of_inj hash_internal
      (tree_pairs hash_internal (length old_entries) ohs ++
       tree_pairs hash_internal (length (take (length old_entries) entries))
         (take (length old_entries) hs))).
    - apply hash_internal_inj_on. unfold hs. rewrite <-fmap_take.
      eapply collision_free_subset; [exact Hcf|]. apply fmap_subseteq.
      clear. intros ab Hab. set_solver.
    - rewrite length_take. lia.
    - rewrite Hohs. by apply list_subseteq_app_l.
    - rewrite !length_take, Hhs. by apply list_subseteq_app_r.
    - congruence. }
  unfold hs, ohs in Heq. rewrite <-fmap_take in Heq.
  apply (entry_hashes_inj (entries ++ old_entries)); [done| | |done].
  - by apply list_subseteq_app_r.
  - intros e He. apply elem_of_app. left. apply elem_of_take in He as (i & Hi & _).
    by eapply list_elem_of_lookup_2.
Qed.
End Transparency.


(** ** Evaluation on a concrete log *)

Definition reason_tag (r : RevocationReason) : N :=
  match r with
  | UserRequested => 0
  | DeviceCompromised => 1
  | Administrative => 2
  | KeyRotation => 3
  end.
Definition operation_tuple (o : TransparencyOperation) :=
  match o with
  | AddJoinCard u d k => inl (u, d, k)
  | RevokeJoinCard u d r => inr (inl (u, d, reason_tag r))
  | DirectoryUpdate m c => inr (inr (inl (m, c)))
  | EpochKeyRotation e h => inr (inr (inr (inl (e, h))))
  | CoverageSnapshot m e c k v => inr (inr (inr (inr (m, e, c, k, v))))
  end.
Definition entry_tuple (e : TransparencyEntry) :=
  (sequence_number e, timestamp e, join_card_hash e, operation_tuple (operation e), signature e).

Definition toy_entry_json : EntryJson := λ e, ser (entry_tuple e).
Lemma toy_entry_json_laws : @EntryJsonLaws toy_entry_json.
Proof.
  intros [n t h o s] [n' t' h' o' s'] E. unfold json_entry, toy_entry_json in E.
  apply ser_inj in E. unfold entry_tuple in E. simpl in E.
  assert (o = o') as ->; [|by simplify_eq].
  assert (∀ r r', reason_tag r = reason_tag r' → r = r') as Hr by (by intros [] []).
  destruct o, o'; simpl in E; simplify_eq; try done. f_equal. auto.
Qed.

Definition log_entry (n : N) : TransparencyEntry :=
  mkTransparencyEntry n 1700000000 (zeros 32) (EpochKeyRotation n (zeros 32)) [].
Definition log3 : list TransparencyEntry := log_entry <$> [0; 1; 2]%N.
Definition log2 : list TransparencyEntry := take 2 log3.
Definition root_or_zero (o : option (array 32)) : array 32 := default (zeros 32) o.
Definition log3_root : array 32 := root_or_zero (@log_root_of toy_sha256 toy_entry_json log3).
Definition log2_root : array 32 := root_or_zero (@log_root_of toy_sha256 toy_entry_json log2).

Lemma inclusion_proof_complete_witness :
  @InclusionProof_verify toy_sha256 toy_entry_json
    (@make_inclusion toy_sha256 toy_entry_json log3 2 (log_entry 2) log3_root) = Ok true.
Proof.
  apply (@inclusion_proof_complete toy_sha256 toy_entry_json log3 2 (log_entry 2) log3_root);
    vm_compute; reflexivity.
Defined.

Definition log3_incl : TransparencyInclusionProof :=
  @make_inclusion toy_sha256 toy_entry_json log3 1 (log_entry 1) log3_root.
Lemma inclusion_proof_sound_witness : entry log3_incl = log_entry 1.
Proof.
  apply (@inclusion_proof_sound toy_sha256 toy_entry_json toy_entry_json_laws
           log3_incl log3 (log_entry 1)).
  1-5: vm_compute; reflexivity.
  all: decide_collision_free.
Defined.

Lemma inclusion_proof_max_size_witness :
  @InclusionProof_verify toy_sha256 toy_entry_json
    (mkTransparencyInclusionProof (log_entry 0) 5 [zeros 32] (U64 - 1) (zeros 32)) = Ok false.
Proof.
  rewrite (@inclusion_proof_max_size toy_sha256 toy_entry_json (log_entry 0) 5 (zeros 32) (zeros 32));
    [vm_compute; reflexivity|vm_compute; reflexivity].
Defined.

Definition log23_proof : ConsistencyProof :=
  @make_consistency toy_sha256 toy_entry_json log3 2 log2_root log3_root.
Lemma consistency_proof_complete_witness :
  @ConsistencyProof_verify toy_sha256 log23_proof = Ok true.
Proof.
  apply (@consistency_proof_complete toy_sha256 toy_entry_json log3 2 log2_root log3_root);
    try (vm_compute; reflexivity). simpl. lia.
Defined.

Lemma consistency_proof_append_only_witness : log2 = take 2 log3.
Proof.
  apply (@consistency_proof_append_only toy_sha256 toy_entry_json toy_entry_json_laws
           log23_proof log3 log2).
  - simpl. lia.
  - vm_compute. reflexivity.
  - vm_compute. reflexivity.
  - vm_compute. reflexivity.
  - vm_compute. reflexivity.
  - vm_compute. reflexivity.
  - vm_compute. reflexivity.
  - decide_collision_free.
  - decide_collision_free.
Defined.
