(* ===== verification/Coverage.v ===== *)
(** * The coverage log ([crates/coverage/src/lib.rs])

    [CoverageLog] maps every file to the epoch its key is wrapped under and
    signs the Merkle root of that map; [CoverageManager] drives it.  The signer,
    the publisher and the transparency verifier are the trait objects of the
    source: records of functions.  [HashMap] is [gmap], the [Mutex]es are taken
    one call at a time, and a method that fails half-way returns the state it
    leaves behind.  A ratio of two counts is kept as an exact rational. *)

From Stdlib Require Import Strings.Byte QArith.
From stdpp Require Import base tactics numbers sets list gmap strings pretty option sorting.
From S2P Require Import Prelude Crypto TreeTheory Transparency Merkle.
Close Scope Q_scope.
Open Scope hc_scope.

Inductive CoverageManagerError := Generic (msg : string).
Definition CoverageManagerError_display (e : CoverageManagerError) : string :=
  match e with Generic msg => "coverage error: " +:+ msg end.

Record FileEpochEntry := mkFileEpochEntry {
  fe_file_id : string;
  fe_epoch_id : N;
  fe_proof : Merkle.InclusionProof;
  fe_merkle_root : array 32;
  fe_signature : bytes;
  fe_verifying_key : array 32;
  fe_signing_key_id : option string;
}.

Definition default_verifying_key : array 32 := zeros 32.

Record CoverageLog := mkCoverageLog {
  entries : gmap string N;
  latest_root : option (array 32);
  latest_signature : option bytes;
  verifying_key : option (array 32);
  signing_key_id : option string;
  latest_epoch : option N;
}.

Record CoverageCounts := mkCoverageCounts { total_items : N; rewrapped_items : N }.

Record CoverageRootSnapshot := mkCoverageRootSnapshot {
  rs_merkle_root : array 32;
  rs_signature : bytes;
  rs_verifying_key : array 32;
  rs_signing_key_id : option string;
}.

Record CoveragePublication := mkCoveragePublication {
  pub_snapshot : CoverageRootSnapshot;
  pub_epoch_id : N;
  pub_total_files : N;
  pub_updated_at : Z;
}.

Record CoverageTransparencyRecord := mkCoverageTransparencyRecord {
  tr_proof : TransparencyInclusionProof;
}.

Record CoverageTransparencyMetadata := mkCoverageTransparencyMetadata {
  tm_sequence_number : N;
  tm_log_size : N;
  tm_leaf_index : N;
  tm_entry_timestamp : N;
}.

Definition from_record (record : CoverageTransparencyRecord) : CoverageTransparencyMetadata :=
  mkCoverageTransparencyMetadata
    (sequence_number (entry (tr_proof record)))
    (log_size (tr_proof record))
    (Transparency.leaf_index (tr_proof record))
    (timestamp (entry (tr_proof record))).

(** The trait objects. *)
Definition CoverageTransparencyVerifier : Type :=
  array 32 → res CoverageManagerError CoverageTransparencyRecord.
Definition CoveragePublisher : Type := CoveragePublication → res CoverageManagerError unit.
Record CoverageSigner := mkCoverageSigner {
  signer_sign : bytes → res CoverageManagerError bytes;
  signer_verifying_key : array 32;
  signer_key_id : option string;
}.

(** The [Debug] rendering of a transparency operation, in one error message. *)
Class OperationDebug := operation_debug : TransparencyOperation → string.

Section Signer.
Context {ed : Ed25519}.

(** [Ed25519CoverageSigner]: [new], [sign], [verifying_key] and [key_id]. *)
Definition Ed25519CoverageSigner_new (signing_key : SigningKey) (signing_key_id : option string)
  : CoverageSigner :=
  mkCoverageSigner
    (λ message,
       map_err (λ e, Generic ("signing failed: " +:+ CryptoError_display e))
         (let? s := sign signing_key message in Ok (arr (Signature_to_bytes s))))
    (VerifyingKey_to_bytes (SigningKey_verifying_key signing_key))
    signing_key_id.
End Signer.

Section Coverage.
Context {sha : Sha256} {ed : Ed25519} {ejson : EntryJson} {hex : Hex} {opdbg : OperationDebug}.

(** ** [CoverageLog] *)

Definition CoverageLog_new : CoverageLog := mkCoverageLog ∅ None None None None None.

Definition set_entries (m : gmap string N) (l : CoverageLog) : CoverageLog :=
  mkCoverageLog m (latest_root l) (latest_signature l) (verifying_key l) (signing_key_id l)
    (latest_epoch l).

Definition CoverageLog_insert (file_id : string) (epoch_id : N) (l : CoverageLog) : CoverageLog :=
  set_entries (<[file_id := epoch_id]> (entries l)) l.

Definition add_entry (e : FileEpochEntry) (l : CoverageLog) : CoverageLog :=
  mkCoverageLog
    (<[fe_file_id e := fe_epoch_id e]> (entries l))
    (Some (fe_merkle_root e))
    (if decide (fe_signature e = []) then latest_signature l else Some (fe_signature e))
    (if decide (fe_verifying_key e = default_verifying_key) then verifying_key l
     else Some (fe_verifying_key e))
    (match fe_signing_key_id e with
     | Some key_id => if decide (key_id = "") then signing_key_id l else Some key_id
     | None => signing_key_id l
     end)
    (Some (fe_epoch_id e)).

Definition get_entry (file_id : string) (l : CoverageLog) : option N := entries l !! file_id.

Definition remove_entry (file_id : string) (l : CoverageLog) : CoverageLog :=
  set_entries (delete file_id (entries l)) l.

Definition replace_entry (old_file_id : string) (e : FileEpochEntry) (l : CoverageLog)
  : CoverageLog := add_entry e (remove_entry old_file_id l).

Definition get_all_file_ids (l : CoverageLog) : list string := (map_to_list (entries l)).*1.

(** [a.0.cmp(&b.0)] on the byte strings. *)
Definition key_le (a b : string * N) : Prop := String.le a.1 b.1.
#[export] Instance key_le_dec : RelDecision key_le.
Proof. intros a b. unfold key_le. apply _. Defined.

Definition sorted_items (m : gmap string N) : list (string * N) :=
  merge_sort key_le (map_to_list m).

(** [format!("{fid}:{epoch}").as_bytes()] *)
Definition leaf_of (item : string * N) : bytes := bytes_of (item.1 +:+ ":" +:+ pretty item.2).

Definition build_tree (l : CoverageLog) : MerkleTree * list (string * N) :=
  let items := sorted_items (entries l) in
  (foldl (λ t item, insert_leaf (leaf_of item) t) MerkleTree_new items, items).

Definition merkle_root (l : CoverageLog) : res CoverageManagerError (array 32) :=
  let '(tree, _) := build_tree l in
  map_err (λ e, Generic (MerkleError_display e)) (fst (MerkleTree_root tree)).

Definition CoverageLog_get_merkle_root (l : CoverageLog) : res CoverageManagerError string :=
  let? root := merkle_root l in Ok (hex_encode (arr root)).

Definition position {A} (P : A → bool) (l : list A) : option nat :=
  fst <$> list_find (λ a, P a = true) l.

Definition inclusion_proof (file_id : string) (l : CoverageLog)
  : res CoverageManagerError (Merkle.InclusionProof * array 32) :=
  let '(tree, items) := build_tree l in
  let? index := ok_or (position (λ it, String.eqb it.1 file_id) items) (Generic "file not found") in
  let '(r, tree) := MerkleTree_root tree in
  let? root := map_err (λ e, Generic (MerkleError_display e)) r in
  let? proof := map_err (λ e, Generic (MerkleError_display e)) (fst (generate_proof index tree)) in
  Ok (proof, root).

Definition latest_snapshot (l : CoverageLog) : option CoverageRootSnapshot :=
  r ← latest_root l; s ← latest_signature l; k ← verifying_key l;
  Some (mkCoverageRootSnapshot r s k (signing_key_id l)).

Definition CoverageLog_apply_signed_snapshot (root : array 32) (sig : bytes) (vk : array 32)
    (key_id : option string) (l : CoverageLog) : CoverageLog :=
  mkCoverageLog (entries l) (Some root) (Some sig) (Some vk) key_id (latest_epoch l).

Definition values (l : CoverageLog) : list N := (map_to_list (entries l)).*2.

Definition counts_for_epoch (epoch_id : N) (l : CoverageLog) : CoverageCounts :=
  mkCoverageCounts (N.of_nat (size (entries l)))
    (N.of_nat (length (filter (λ e, e = epoch_id) (values l)))).

(** *** Verification *)

(** The loop over the sorted items: a proof for each, checked. *)
Fixpoint verify_items (tree : MerkleTree) (computed_root : array 32) (index : nat)
    (items : list (string * N)) : res CoverageManagerError unit :=
  match items with
  | [] => Ok tt
  | item :: items =>
      let '(r, tree) := generate_proof index tree in
      let? proof := map_err (λ e, Generic ("failed to generate inclusion proof for "
                      +:+ item.1 +:+ ": " +:+ MerkleError_display e)) r in
      let? proof_valid := map_err (λ e, Generic ("error validating inclusion proof for "
                      +:+ item.1 +:+ ": " +:+ MerkleError_display e))
                    (verify_inclusion_proof proof computed_root (leaf_of item)) in
      if negb proof_valid then Err (Generic ("inclusion proof invalid for file " +:+ item.1))
      else verify_items tree computed_root (S index) items
  end.

(** The [match] on the two key identifiers. *)
Definition check_key_ids (expected recorded : option string) : res CoverageManagerError unit :=
  match expected, recorded with
  | Some expected, Some recorded =>
      if String.eqb expected recorded then Ok tt
      else Err (Generic ("transparency coverage snapshot signing key mismatch: expected "
                  +:+ expected +:+ ", got " +:+ recorded))
  | Some expected, None =>
      Err (Generic ("transparency coverage snapshot missing signing key identifier (expected "
                  +:+ expected +:+ ")"))
  | None, Some recorded =>
      Err (Generic ("transparency coverage snapshot unexpectedly contains signing key identifier "
                  +:+ recorded))
  | None, None => Ok tt
  end.

(** [Iterator::max] on the epochs. *)
Definition epochs_max (es : list N) : option N :=
  match es with
  | [] => None
  | e :: es => Some (foldl N.max e es)
  end.

(** The checks on the entry that the transparency log returned. *)
Definition check_operation (computed_root : array 32) (total_files latest : N)
    (vk : array 32) (key_id : option string) (op : TransparencyOperation)
  : res CoverageManagerError unit :=
  match op with
  | CoverageSnapshot root epoch_id file_count entry_key_id entry_verifying_key =>
      if decide (root ≠ computed_root) then
        Err (Generic "transparency coverage snapshot does not reference the expected root")
      else if decide (file_count ≠ total_files) then
        Err (Generic ("transparency coverage snapshot file count mismatch: expected "
               +:+ pretty total_files +:+ ", got " +:+ pretty file_count))
      else if decide (epoch_id ≠ latest) then
        Err (Generic ("transparency coverage snapshot epoch mismatch: expected "
               +:+ pretty latest +:+ ", got " +:+ pretty epoch_id))
      else if decide (entry_verifying_key ≠ vk) then
        Err (Generic "transparency coverage snapshot verifying key mismatch")
      else check_key_ids key_id entry_key_id
  | other =>
      Err (Generic ("transparency entry operation mismatch: expected coverage snapshot, got "
             +:+ operation_debug other))
  end.

Definition check_transparency (l : CoverageLog) (items : list (string * N))
    (computed_root vk : array 32) (verifier : CoverageTransparencyVerifier)
  : res CoverageManagerError CoverageTransparencyRecord :=
  let? transparency := map_err (λ e, Generic ("transparency verification failed: "
                         +:+ CoverageManagerError_display e)) (verifier computed_root) in
  let proof := tr_proof transparency in
  let? proof_valid := map_err (λ e, Generic ("transparency inclusion verification failed: "
                         +:+ TransparencyError_display e))
                        (Transparency.InclusionProof_verify proof) in
  if negb proof_valid then Err (Generic "transparency inclusion proof invalid")
  else if decide (join_card_hash (entry proof) ≠ computed_root) then
    Err (Generic "transparency join_card_hash does not match coverage root")
  else
    let? latest := ok_or (match latest_epoch l with
                          | Some e => Some e
                          | None => epochs_max items.*2
                          end)
                     (Generic "unable to determine latest epoch for coverage verification") in
    let? _ := check_operation computed_root (N.of_nat (length items)) latest vk
                (signing_key_id l) (operation (entry proof)) in
    Ok transparency.

Definition verify_coverage_internal (verifier : option CoverageTransparencyVerifier)
    (l : CoverageLog) : res CoverageManagerError (option CoverageTransparencyRecord) :=
  if decide (entries l = ∅) then Err (Generic "coverage log is empty; nothing to verify")
  else
    let? recorded_root := ok_or (latest_root l) (Generic "coverage root not recorded") in
    let? signature_bytes := ok_or (latest_signature l)
                              (Generic "coverage root signature missing") in
    let? verifying_key_bytes := ok_or (verifying_key l)
                              (Generic "coverage verifying key missing") in
    let '(tree, items) := build_tree l in
    let '(r, tree) := MerkleTree_root tree in
    let? computed_root := map_err (λ e, Generic ("failed to compute Merkle root: "
                              +:+ MerkleError_display e)) r in
    if decide (computed_root ≠ recorded_root) then
      Err (Generic "computed Merkle root does not match recorded root")
    else
      let? vk := map_err (λ e, Generic ("invalid verifying key bytes: " +:+ CryptoError_display e))
                   (VerifyingKey_from_bytes (arr verifying_key_bytes)) in
      let? sig := map_err (λ e, Generic ("invalid coverage signature bytes: "
                   +:+ CryptoError_display e)) (Signature_from_bytes signature_bytes) in
      let? _ := map_err (λ e, Generic ("coverage signature verification failed: "
                   +:+ CryptoError_display e)) (verify vk (arr computed_root) sig) in
      let? _ := verify_items tree computed_root 0 items in
      match verifier with
      | Some verifier =>
          let? record := check_transparency l items computed_root verifying_key_bytes verifier in
          Ok (Some record)
      | None => Ok None
      end.

Definition verify_coverage (l : CoverageLog) : res CoverageManagerError unit :=
  let? _ := verify_coverage_internal None l in Ok tt.

Definition verify_coverage_with_transparency (verifier : CoverageTransparencyVerifier)
    (l : CoverageLog) : res CoverageManagerError CoverageTransparencyRecord :=
  let? r := verify_coverage_internal (Some verifier) l in
  ok_or r (Generic "transparency verifier did not return inclusion proof").

(** ** [CoverageManager]

    [published] lists the publications handed to the publisher, newest last. *)
Record CoverageManager := mkCoverageManager {
  cm_log : CoverageLog;
  cm_signer : CoverageSigner;
  cm_verifying_key : array 32;
  cm_signing_key_id : option string;
  cm_publisher : option CoveragePublisher;
  cm_transparency_verifier : option CoverageTransparencyVerifier;
  cm_latest_transparency : option CoverageTransparencyMetadata;
  cm_published : list CoveragePublication;
}.

Definition with_log (log : CoverageLog) (signer : CoverageSigner)
    (publisher : option CoveragePublisher) : CoverageManager :=
  mkCoverageManager log signer (signer_verifying_key signer) (signer_key_id signer)
    publisher None None [].

Definition CoverageManager_new (signer : CoverageSigner) : CoverageManager :=
  with_log CoverageLog_new signer None.

Definition new_with_signing_key_and_id (signing_key : SigningKey) (key_id : option string)
  : CoverageManager :=
  with_log CoverageLog_new (Ed25519CoverageSigner_new signing_key key_id) None.

Definition new_with_signing_key (signing_key : SigningKey) : CoverageManager :=
  new_with_signing_key_and_id signing_key None.

Definition new_with_signer_and_log (log : CoverageLog) (signer : CoverageSigner)
  : CoverageManager := with_log log signer None.

Definition new_standalone_with_id (log : CoverageLog) (signing_key : SigningKey)
    (key_id : option string) : CoverageManager :=
  with_log log (Ed25519CoverageSigner_new signing_key key_id) None.

Definition new_standalone (log : CoverageLog) (signing_key : SigningKey) : CoverageManager :=
  new_standalone_with_id log signing_key None.

Definition with_publisher (p : CoveragePublisher) (m : CoverageManager) : CoverageManager :=
  mkCoverageManager (cm_log m) (cm_signer m) (cm_verifying_key m) (cm_signing_key_id m)
    (Some p) (cm_transparency_verifier m) (cm_latest_transparency m) (cm_published m).

Definition with_transparency_verifier (v : CoverageTransparencyVerifier) (m : CoverageManager)
  : CoverageManager :=
  mkCoverageManager (cm_log m) (cm_signer m) (cm_verifying_key m) (cm_signing_key_id m)
    (cm_publisher m) (Some v) (cm_latest_transparency m) (cm_published m).

Definition set_log (l : CoverageLog) (m : CoverageManager) : CoverageManager :=
  mkCoverageManager l (cm_signer m) (cm_verifying_key m) (cm_signing_key_id m)
    (cm_publisher m) (cm_transparency_verifier m) (cm_latest_transparency m) (cm_published m).

Definition set_latest_transparency (t : option CoverageTransparencyMetadata) (m : CoverageManager)
  : CoverageManager :=
  mkCoverageManager (cm_log m) (cm_signer m) (cm_verifying_key m) (cm_signing_key_id m)
    (cm_publisher m) (cm_transparency_verifier m) t (cm_published m).

Definition push_published (p : CoveragePublication) (m : CoverageManager) : CoverageManager :=
  mkCoverageManager (cm_log m) (cm_signer m) (cm_verifying_key m) (cm_signing_key_id m)
    (cm_publisher m) (cm_transparency_verifier m) (cm_latest_transparency m)
    (cm_published m ++ [p]).

(** The publication step at the end of [log_file_epoch]. *)
Definition publish_snapshot (snapshot : option CoverageRootSnapshot) (epoch_id total_files : N)
    (now : Z) (m : CoverageManager) : res CoverageManagerError unit * CoverageManager :=
  match cm_publisher m, snapshot with
  | Some publisher, Some snapshot =>
      let publication := mkCoveragePublication snapshot epoch_id total_files now in
      (publisher publication, push_published publication m)
  | _, _ => (Ok tt, m)
  end.

Definition log_file_epoch (file_id : string) (epoch_id : N) (now : Z) (m : CoverageManager)
  : res CoverageManagerError FileEpochEntry * CoverageManager :=
  let log := CoverageLog_insert file_id epoch_id (cm_log m) in
  match inclusion_proof file_id log with
  | Ok (proof, root) =>
      match signer_sign (cm_signer m) (arr root) with
      | Ok signature =>
          let e := mkFileEpochEntry file_id epoch_id proof root signature
                     (cm_verifying_key m) (cm_signing_key_id m) in
          let log := add_entry e log in
          let m := set_latest_transparency None (set_log log m) in
          let '(r, m) := publish_snapshot (latest_snapshot log) epoch_id
                           (N.of_nat (size (entries log))) now m in
          (let? _ := r in Ok e, m)
      | Err er => (Err er, set_log log m)
      | Panic => (Panic, set_log log m)
      | Diverge => (Diverge, set_log log m)
      end
  | Err er => (Err er, set_log log m)
  | Panic => (Panic, set_log log m)
  | Diverge => (Diverge, set_log log m)
  end.

(** The loop of [insert_entries]: the log, [latest_epoch] and [have_epoch]. *)
Fixpoint insert_loop (es : list (string * N)) (log : CoverageLog) (latest : N) (have : bool)
  : CoverageLog * N * bool :=
  match es with
  | [] => (log, latest, have)
  | (file_id, epoch_id) :: es =>
      let log := CoverageLog_insert file_id epoch_id log in
      if negb have then insert_loop es log epoch_id true
      else if (latest <? epoch_id)%N then insert_loop es log epoch_id have
      else insert_loop es log latest have
  end.

Definition set_latest_epoch (e : option N) (l : CoverageLog) : CoverageLog :=
  mkCoverageLog (entries l) (latest_root l) (latest_signature l) (verifying_key l)
    (signing_key_id l) e.

Definition insert_entries (es : list (string * N)) (m : CoverageManager) : CoverageManager :=
  let log := cm_log m in
  let '(log, latest, have) :=
    insert_loop es log (default 0%N (latest_epoch log)) (bool_decide (is_Some (latest_epoch log))) in
  let log := if have : bool then set_latest_epoch (Some latest) log else log in
  set_latest_transparency None (set_log log m).

Definition CoverageManager_apply_signed_snapshot (root : array 32) (m : CoverageManager)
  : res CoverageManagerError CoverageRootSnapshot * CoverageManager :=
  match signer_sign (cm_signer m) (arr root) with
  | Ok sig =>
      (Ok (mkCoverageRootSnapshot root sig (cm_verifying_key m) (cm_signing_key_id m)),
       set_latest_transparency None
         (set_log (CoverageLog_apply_signed_snapshot root sig (cm_verifying_key m)
                     (cm_signing_key_id m) (cm_log m)) m))
  | Err e => (Err e, m)
  | Panic => (Panic, m)
  | Diverge => (Diverge, m)
  end.

(** [busy]: another task holds the lock, so [try_lock] fails. *)
Definition CoverageManager_get_merkle_root (busy : bool) (m : CoverageManager)
  : res CoverageManagerError (array 32) :=
  if busy then Err (Generic "coverage log is busy") else merkle_root (cm_log m).

Definition latest_root_snapshot (busy : bool) (m : CoverageManager)
  : option CoverageRootSnapshot :=
  if busy then None else latest_snapshot (cm_log m).

Definition ratio (part total : nat) : Q := Qmake (Z.of_nat part) (Pos.of_nat total).

Definition get_migration_progress (from to : N) (m : CoverageManager) : res CoverageManagerError Q :=
  let log := cm_log m in
  if decide (entries log = ∅) then Ok 0%Q
  else
    let migrated := length (filter (λ e, (to ≤ e)%N) (values log)) in
    Ok (ratio migrated (size (entries log))).

Definition get_coverage_status (m : CoverageManager) : res CoverageManagerError Q :=
  let log := cm_log m in
  if decide (entries log = ∅) then Ok 0%Q
  else
    let? max_epoch := unwrap (epochs_max (values log)) in
    let up_to_date := length (filter (λ e, e = max_epoch) (values log)) in
    Ok (ratio up_to_date (size (entries log))).

Definition get_coverage_log (m : CoverageManager) : res CoverageManagerError CoverageLog :=
  Ok (cm_log m).

Definition verify_integrity (m : CoverageManager)
  : res CoverageManagerError unit * CoverageManager :=
  match cm_transparency_verifier m with
  | Some verifier =>
      match verify_coverage_with_transparency verifier (cm_log m) with
      | Ok record => (Ok tt, set_latest_transparency (Some (from_record record)) m)
      | Err e => (Err e, m)
      | Panic => (Panic, m)
      | Diverge => (Diverge, m)
      end
  | None => (verify_coverage (cm_log m), m)
  end.

Definition latest_transparency_metadata (busy : bool) (m : CoverageManager)
  : option CoverageTransparencyMetadata :=
  if busy then None else cm_latest_transparency m.
End Coverage.

(** ** The tree over the log *)
Section CoverageTree.
Context {sha : Sha256} {ed : Ed25519} {ejson : EntryJson} {hex : Hex} {opdbg : OperationDebug}.

#[export] Instance key_le_trans : Transitive key_le.
Proof. intros a b c. unfold key_le. apply (PreOrder_Transitive (R := String.le)). Qed.
#[export] Instance key_le_total : Total key_le.
Proof. intros a b. apply String.le_total. Qed.

Lemma sorted_items_perm m : sorted_items m ≡ₚ map_to_list m.
Proof. apply merge_sort_Permutation. Qed.

Lemma elem_of_sorted_items m k e : (k, e) ∈ sorted_items m ↔ m !! k = Some e.
Proof. rewrite sorted_items_perm. apply elem_of_map_to_list. Qed.

Lemma sorted_items_length m : length (sorted_items m) = size m.
Proof. rewrite sorted_items_perm. apply length_map_to_list. Qed.

Lemma sorted_items_NoDup m : NoDup (sorted_items m).*1.
Proof. rewrite sorted_items_perm. apply NoDup_fst_map_to_list. Qed.

(** [HashMap] iterates in an arbitrary order: whatever it is, the sorted vector
    is the same. *)
Lemma sorted_items_any_order m l : l ≡ₚ map_to_list m → merge_sort key_le l = sorted_items m.
Proof.
  intros Hl. apply (StronglySorted_unique_strong key_le).
  - intros [k1 e1] [k2 e2] H1 H2 Hle Hge.
    assert (k1 = k2) as -> by (by apply (anti_symm String.le)).
    rewrite merge_sort_Permutation, Hl, elem_of_map_to_list in H1.
    apply elem_of_sorted_items in H2. by simplify_eq.
  - apply StronglySorted_merge_sort; apply _.
  - apply StronglySorted_merge_sort; apply _.
  - by rewrite merge_sort_Permutation, sorted_items_perm.
Qed.

Lemma sorted_items_inj m1 m2 : sorted_items m1 = sorted_items m2 → m1 = m2.
Proof.
  intros E. apply map_eq. intros k. apply option_eq. intros e.
  by rewrite <-!elem_of_sorted_items, E.
Qed.

(** A leaf determines its file and epoch: the epoch is the digits after the
    last colon, whatever colons the file identifier has. *)
Lemma leaf_of_inj a b : leaf_of a = leaf_of b → a = b.
Proof.
  destruct a as [f e], b as [f' e']. unfold leaf_of. simpl. intros E%bytes_of_inj.
  apply (string_app_cons_inj is_digit) in E as [-> E]; [|done|apply pretty_N_digits..].
  by apply (inj pretty) in E as ->.
Qed.

Definition leaves_of (m : gmap string N) : list bytes := leaf_of <$> sorted_items m.

Lemma leaves_of_inj m1 m2 : leaves_of m1 = leaves_of m2 → m1 = m2.
Proof.
  intros E. apply sorted_items_inj. unfold leaves_of in E.
  apply (list_fmap_eq_inj leaf_of); [|done]. exact leaf_of_inj.
Qed.

Lemma build_tree_items l : (build_tree l).2 = sorted_items (entries l).
Proof. done. Qed.

Lemma build_tree_represents l : represents (build_tree l).1 (leaves_of (entries l)).
Proof.
  unfold build_tree, leaves_of. cbn [fst].
  replace (foldl _ _ _) with (from_leaves (leaf_of <$> sorted_items (entries l))).
  - apply from_leaves_represents.
  - unfold from_leaves. generalize MerkleTree_new.
    induction (sorted_items (entries l)) as [|it its IH]; intros t; [done|]. simpl. apply IH.
Qed.

Lemma merkle_root_spec l :
  merkle_root l = ok_or (data_root (leaves_of (entries l)))
                        (Generic (MerkleError_display EmptyTree)).
Proof.
  unfold merkle_root. pose proof (build_tree_represents l) as Ht.
  destruct (build_tree l) as [t its]. cbn [fst] in Ht.
  rewrite (proj1 (root_spec _ _ Ht)). by destruct (data_root _).
Qed.

Lemma leaves_of_nonempty m : m ≠ ∅ → ∃ r, data_root (leaves_of m) = Some r.
Proof.
  intros Hm. apply root_of_Some. unfold leaves_of. rewrite !length_fmap, sorted_items_length.
  apply map_size_non_empty_iff in Hm. lia.
Qed.

(** A proof generated from the log's tree verifies. *)
Lemma verify_items_Ok t m root k :
  represents t (leaves_of m) → data_root (leaves_of m) = Some root →
  verify_items t root k (drop k (sorted_items m)) = Ok tt.
Proof.
  intros Ht Hr. remember (drop k (sorted_items m)) as its eqn:Hits.
  revert t k Ht Hits. induction its as [|it its IH]; intros t k Ht Hits; [done|].
  assert (sorted_items m !! k = Some it) as Hk.
  { rewrite <-(Nat.add_0_r k), <-lookup_drop, <-Hits. done. }
  assert (leaves_of m !! k = Some (leaf_of it)) as Hl
    by (unfold leaves_of; by rewrite list_lookup_fmap, Hk).
  cbn [verify_items]. destruct (generate_proof_spec _ _ _ _ Ht Hl) as [Hp Ht'].
  destruct (generate_proof k t) as [r t']. cbn [fst snd] in *. subst r.
  cbn [map_err res_bind]. unfold verify_inclusion_proof.
  rewrite (path_verifies _ _ _ _ Hl Hr). cbn [map_err res_bind negb].
  apply IH; [done|]. rewrite (drop_S _ _ _ Hk) in Hits. by simplify_eq.
Qed.

Lemma position_sorted m k e :
  m !! k = Some e →
  ∃ i, position (λ it, String.eqb it.1 k) (sorted_items m) = Some i
       ∧ sorted_items m !! i = Some (k, e).
Proof.
  intros Hk. unfold position.
  destruct (list_find_elem_of (λ it : string * N, String.eqb it.1 k = true) (sorted_items m) (k, e))
    as [[i it] Hf]; [by apply elem_of_sorted_items|apply String.eqb_refl|].
  rewrite Hf. exists i. split; [done|].
  apply list_find_Some in Hf as (Hi & Heq & _). destruct it as [k' e'].
  apply String.eqb_eq in Heq. simpl in Heq. subst k'.
  apply list_elem_of_lookup_2 in Hi as Hin. apply elem_of_sorted_items in Hin. congruence.
Qed.

Lemma inclusion_proof_spec file_id e l :
  entries l !! file_id = Some e →
  ∃ p r, inclusion_proof file_id l = Ok (p, r) ∧ merkle_root l = Ok r
    ∧ verify_inclusion_proof p r (leaf_of (file_id, e)) = Ok true.
Proof.
  intros He. unfold inclusion_proof. rewrite merkle_root_spec.
  pose proof (build_tree_represents l) as Ht.
  assert (build_tree l = ((build_tree l).1, sorted_items (entries l))) as -> by done.
  destruct (position_sorted _ _ _ He) as (i & Hpos & Hi). rewrite Hpos. cbn [ok_or res_bind].
  destruct (leaves_of_nonempty (entries l)) as [r Hr].
  { intros E. by rewrite E in He. }
  destruct (root_spec _ _ Ht) as [Hroot Ht'].
  destruct (MerkleTree_root (build_tree l).1) as [rr t']. cbn [fst snd] in *. subst rr.
  rewrite Hr. cbn [ok_or map_err res_bind].
  assert (leaves_of (entries l) !! i = Some (leaf_of (file_id, e))) as Hl
    by (unfold leaves_of; by rewrite list_lookup_fmap, Hi).
  rewrite (proj1 (generate_proof_spec _ _ _ _ Ht' Hl)). cbn [map_err res_bind].
  eexists _, r. split_and!; [done|done|]. by apply path_verifies.
Qed.

(** What the local verification accepts, exactly: the loop over the items never
    rejects. *)
Lemma verify_coverage_internal_None l :
  verify_coverage_internal None l =
    if decide (entries l = ∅) then Err (Generic "coverage log is empty; nothing to verify")
    else
      let? recorded_root := ok_or (latest_root l) (Generic "coverage root not recorded") in
      let? sb := ok_or (latest_signature l) (Generic "coverage root signature missing") in
      let? vb := ok_or (verifying_key l) (Generic "coverage verifying key missing") in
      let? root := merkle_root l in
      if decide (root ≠ recorded_root) then
        Err (Generic "computed Merkle root does not match recorded root")
      else
        let? vk := map_err (λ e, Generic ("invalid verifying key bytes: "
                     +:+ CryptoError_display e)) (VerifyingKey_from_bytes (arr vb)) in
        let? sig := map_err (λ e, Generic ("invalid coverage signature bytes: "
                     +:+ CryptoError_display e)) (Signature_from_bytes sb) in
        let? _ := map_err (λ e, Generic ("coverage signature verification failed: "
                     +:+ CryptoError_display e)) (verify vk (arr root) sig) in
        Ok None.
Proof.
  unfold verify_coverage_internal. case_decide as He; [done|].
  rewrite merkle_root_spec. destruct (leaves_of_nonempty _ He) as [r Hr]. rewrite Hr.
  pose proof (build_tree_represents l) as Ht.
  assert (build_tree l = ((build_tree l).1, sorted_items (entries l))) as -> by done.
  destruct (root_spec _ _ Ht) as [Hroot Ht'].
  destruct (MerkleTree_root (build_tree l).1) as [rr t']. cbn [fst snd] in *. subst rr.
  rewrite Hr. cbn [ok_or map_err res_bind].
  pose proof (verify_items_Ok _ _ _ 0 Ht' Hr) as Hloop. rewrite drop_0 in Hloop.
  destruct (latest_root l), (latest_signature l), (verifying_key l); cbn [ok_or res_bind]; try done.
  case_decide; [done|].
  destruct (map_err _ (VerifyingKey_from_bytes _)); cbn [res_bind]; try done.
  destruct (map_err _ (Signature_from_bytes _)); cbn [res_bind]; try done.
  destruct (map_err _ (verify _ _ _)); cbn [res_bind]; try done. by rewrite Hloop.
Qed.
End CoverageTree.

(** ** Properties *)
Section CoverageTheorems.
Context {sha : Sha256} {ed : Ed25519} {ejson : EntryJson} {hex : Hex} {opdbg : OperationDebug}.

(** What the manager relies on a signer for: a signature it returns is valid
    under the key it announces. *)
Definition signer_authentic (s : CoverageSigner) : Prop :=
  ∀ m sb, signer_sign s m = Ok sb →
  ∃ vk sig, VerifyingKey_from_bytes (arr (signer_verifying_key s)) = Ok vk
    ∧ Signature_from_bytes sb = Ok sig ∧ verify vk m sig = Ok tt.

Lemma Ed25519CoverageSigner_authentic `{!Ed25519Laws} sk key_id :
  signer_authentic (Ed25519CoverageSigner_new sk key_id).
Proof.
  intros m sb Hs. cbn [signer_sign Ed25519CoverageSigner_new] in Hs.
  apply map_err_Ok, res_bind_Ok in Hs as (s & Hs & [= <-]).
  exists (SigningKey_verifying_key sk), s. split_and!.
  - apply VerifyingKey_from_to_bytes, dalek_public_valid.
  - by eapply Signature_from_to_bytes.
  - by eapply sign_verify.
Qed.

(** A manager announces its signer's key ([with_log]). *)
Definition manager_keyed (m : CoverageManager) : Prop :=
  cm_verifying_key m = signer_verifying_key (cm_signer m).

Lemma Signature_from_bytes_nonempty sb sig : Signature_from_bytes sb = Ok sig → sb ≠ [].
Proof. intros H ->. discriminate H. Qed.

Lemma verify_coverage_Ok l :
  verify_coverage l = Ok tt ↔
  entries l ≠ ∅ ∧ ∃ root sb vb vk sig,
    merkle_root l = Ok root ∧ latest_root l = Some root ∧
    latest_signature l = Some sb ∧ verifying_key l = Some vb ∧
    VerifyingKey_from_bytes (arr vb) = Ok vk ∧ Signature_from_bytes sb = Ok sig ∧
    verify vk (arr root) sig = Ok tt.
Proof.
  unfold verify_coverage. rewrite verify_coverage_internal_None. split.
  - case_decide; [done|]. intros Hv. inv_res. case_decide as Hr; [done|]. inv_res.
    split; [done|].
    repeat match goal with u : unit |- _ => destruct u end. eauto 12.
  - intros (He & root & sb & vb & vk & sig & Hm & -> & -> & -> & Hvk & Hsig & Hv).
    rewrite decide_False by done. cbn [ok_or res_bind]. rewrite Hm. cbn [res_bind].
    rewrite decide_False by auto. by rewrite Hvk, Hsig; cbn [map_err res_bind]; rewrite Hv.
Qed.

Lemma merkle_root_set_entries m l : merkle_root (set_entries m l) =
  ok_or (data_root (leaves_of m)) (Generic (MerkleError_display EmptyTree)).
Proof. by rewrite merkle_root_spec. Qed.

Lemma merkle_root_entries l1 l2 : entries l1 = entries l2 → merkle_root l1 = merkle_root l2.
Proof. intros E. by rewrite !merkle_root_spec, E. Qed.

(** Recording a file's epoch: the log can always give its root and, when the
    signer signs that root, the returned entry carries a proof that verifies
    for the file's leaf against the root of the new log, and the new log
    passes [verify_coverage]. *)
Theorem log_file_epoch_verifies (m : CoverageManager) (file_id : string) (epoch_id : N) (now : Z) :
  signer_authentic (cm_signer m) → manager_keyed m →
  cm_verifying_key m ≠ default_verifying_key → cm_publisher m = None →
  ∃ root, merkle_root (CoverageLog_insert file_id epoch_id (cm_log m)) = Ok root ∧
    ∀ sb, signer_sign (cm_signer m) (arr root) = Ok sb →
    ∃ e, log_file_epoch file_id epoch_id now m = (Ok e, snd (log_file_epoch file_id epoch_id now m))
      ∧ fe_merkle_root e = root
      ∧ verify_inclusion_proof (fe_proof e) root (leaf_of (file_id, epoch_id)) = Ok true
      ∧ entries (cm_log (snd (log_file_epoch file_id epoch_id now m)))
          = <[file_id := epoch_id]> (entries (cm_log m))
      ∧ verify_coverage (cm_log (snd (log_file_epoch file_id epoch_id now m))) = Ok tt.
Proof.
  intros Hauth Hkeyed Hkey Hpub.
  set (log := CoverageLog_insert file_id epoch_id (cm_log m)).
  assert (entries log !! file_id = Some epoch_id) as Hlook by apply lookup_insert_eq.
  destruct (inclusion_proof_spec _ _ _ Hlook) as (p & root & Hp & Hroot & Hv).
  exists root. split; [done|]. intros sb Hsb.
  unfold log_file_epoch. fold log. rewrite Hp, Hsb. unfold publish_snapshot.
  cbn [set_latest_transparency set_log cm_publisher cm_log]. rewrite Hpub. cbn [res_bind fst snd].
  set (e := mkFileEpochEntry file_id epoch_id p root sb (cm_verifying_key m) (cm_signing_key_id m)).
  exists e. split; [reflexivity|]. split; [done|]. split; [done|].
  destruct (Hauth _ _ Hsb) as (vk & sig & Hvk & Hsig & Hver).
  assert (entries (add_entry e log) = entries log) as Hent by apply insert_insert_eq.
  split; [exact Hent|]. change (verify_coverage (add_entry e log) = Ok tt).
  apply verify_coverage_Ok. split.
  { rewrite Hent. apply insert_non_empty. }
  exists root, sb, (cm_verifying_key m), vk, sig.
  rewrite (merkle_root_entries _ _ Hent).
  unfold e. cbn [add_entry latest_root latest_signature verifying_key fe_merkle_root fe_signature
       fe_verifying_key].
  rewrite decide_False by (by eapply Signature_from_bytes_nonempty).
  rewrite decide_False by done. rewrite Hkeyed. done.
Qed.

(** The coverage root commits to the file-to-epoch map: logs with the same
    Merkle root have the same entries, for any file identifiers (colons
    included), when SHA-256 has no collision among the messages hashed for the
    two trees. *)
Theorem coverage_root_binds_entries (l1 l2 : CoverageLog) (root : array 32) :
  merkle_root l1 = Ok root → merkle_root l2 = Ok root →
  collision_free (root_msgs (leaves_of (entries l1)) ++ root_msgs (leaves_of (entries l2))) →
  entries l1 = entries l2.
Proof.
  rewrite !merkle_root_spec, !ok_or_Ok. intros H1 H2 Hcf.
  apply leaves_of_inj. by apply (data_root_inj _ _ root).
Qed.

(** The root does not depend on the iteration order of the [HashMap]: any
    enumeration of the entries sorts to the vector that [build_tree] uses. *)
Theorem coverage_order_independent (l : CoverageLog) (order : list (string * N)) :
  order ≡ₚ map_to_list (entries l) → merge_sort key_le order = (build_tree l).2.
Proof. rewrite build_tree_items. apply sorted_items_any_order. Qed.

(** [verify_coverage] accepts exactly the non-empty logs whose recorded root
    is the Merkle root of their entries and carries a valid signature under the
    recorded key; the per-file proofs that it re-checks never reject. *)
Theorem verify_coverage_exact (l : CoverageLog) :
  verify_coverage l = Ok tt ↔
  entries l ≠ ∅ ∧ ∃ root sb vb vk sig,
    merkle_root l = Ok root ∧ latest_root l = Some root ∧
    latest_signature l = Some sb ∧ verifying_key l = Some vb ∧
    VerifyingKey_from_bytes (arr vb) = Ok vk ∧ Signature_from_bytes sb = Ok sig ∧
    verify vk (arr root) sig = Ok tt.
Proof. apply verify_coverage_Ok. Qed.

(** Tampering is detected: after a log has verified, any other non-empty map
    under the same signed root is rejected with the root mismatch error. *)
Theorem verify_coverage_detects_tampering (l : CoverageLog) (m' : gmap string N) :
  verify_coverage l = Ok tt → m' ≠ entries l → m' ≠ ∅ →
  collision_free (root_msgs (leaves_of (entries l)) ++ root_msgs (leaves_of m')) →
  verify_coverage (set_entries m' l) =
    Err (Generic "computed Merkle root does not match recorded root").
Proof.
  intros Hv Hne Hem Hcf.
  apply verify_coverage_Ok in Hv as (He & root & sb & vb & vk & sig & Hm & Hr & Hs & Hk & _).
  unfold verify_coverage. rewrite verify_coverage_internal_None.
  change (entries (set_entries m' l)) with m'. rewrite decide_False by done.
  cbn [set_entries latest_root latest_signature verifying_key].
  rewrite Hr, Hs, Hk, merkle_root_set_entries. cbn [ok_or res_bind].
  destruct (leaves_of_nonempty m' Hem) as [r' Hr']. rewrite Hr'. cbn [ok_or res_bind].
  rewrite decide_True; [done|]. intros ->. apply Hne. symmetry. apply leaves_of_inj.
  rewrite merkle_root_spec, ok_or_Ok in Hm. by apply (data_root_inj _ _ root).
Qed.

(** The epoch that the transparency check expects. *)
Definition expected_epoch (l : CoverageLog) : option N :=
  match latest_epoch l with
  | Some e => Some e
  | None => epochs_max (sorted_items (entries l)).*2
  end.

Lemma check_key_ids_Ok expected recorded : check_key_ids expected recorded = Ok tt → recorded = expected.
Proof.
  destruct expected as [a|], recorded as [b|]; simpl; try done.
  destruct (String.eqb_spec a b) as [->|]; done.
Qed.

Lemma check_operation_Ok root total latest vk key_id op :
  check_operation root total latest vk key_id op = Ok tt →
  op = CoverageSnapshot root latest total key_id vk.
Proof.
  destruct op as [| | | |r e c k v]; try done. cbn [check_operation].
  repeat (case_decide; [done|]). intros ->%check_key_ids_Ok. by subst.
Qed.

Lemma verify_coverage_internal_Some v l r :
  verify_coverage_internal (Some v) l = Ok r →
  verify_coverage l = Ok tt ∧ ∃ root vb rec, r = Some rec ∧ merkle_root l = Ok root
    ∧ verifying_key l = Some vb
    ∧ check_transparency l (sorted_items (entries l)) root vb v = Ok rec.
Proof.
  intros Hv. unfold verify_coverage, verify_coverage_internal in *.
  rewrite merkle_root_spec. pose proof (build_tree_represents l) as Ht.
  assert (build_tree l = ((build_tree l).1, sorted_items (entries l))) as E by done.
  rewrite E in Hv |- *. case_decide; [done|].
  rewrite <-(proj1 (root_spec _ _ Ht)) || idtac.
  destruct (root_spec _ _ Ht) as [Hroot _].
  destruct (MerkleTree_root (build_tree l).1) as [rr t']. cbn [fst] in Hroot. subst rr.
  destruct (latest_root l), (latest_signature l), (verifying_key l) as [vb|];
    cbn [ok_or res_bind] in *; try done.
  destruct (data_root _) as [root|]; cbn [ok_or map_err res_bind] in *; [|done].
  case_decide; [done|].
  destruct (map_err _ (VerifyingKey_from_bytes _)); cbn [res_bind] in *; try done.
  destruct (map_err _ (Signature_from_bytes _)); cbn [res_bind] in *; try done.
  destruct (map_err _ (verify _ _ _)); cbn [res_bind] in *; try done.
  destruct (verify_items _ _ _ _); cbn [res_bind] in *; try done.
  inv_res. split; [done|]. eauto 10.
Qed.

(** C5: Verification against the transparency log: when it succeeds the log is
    locally valid, the returned record is the one fetched for the log's root,
    its inclusion proof verifies, and the anchored entry is the coverage
    snapshot of exactly this root, epoch, number of files, key identifier and
    verifying key. *)
Theorem transparency_verification_sound (v : CoverageTransparencyVerifier) (l : CoverageLog)
    (rec : CoverageTransparencyRecord) :
  verify_coverage_with_transparency v l = Ok rec →
  verify_coverage l = Ok tt ∧ ∃ root vb epoch,
    merkle_root l = Ok root ∧ verifying_key l = Some vb ∧ expected_epoch l = Some epoch
    ∧ v root = Ok rec
    ∧ Transparency.InclusionProof_verify (tr_proof rec) = Ok true
    ∧ join_card_hash (entry (tr_proof rec)) = root
    ∧ operation (entry (tr_proof rec)) =
        CoverageSnapshot root epoch (N.of_nat (size (entries l))) (signing_key_id l) vb.
Proof.
  unfold verify_coverage_with_transparency. intros Hv. inv_res.
  apply verify_coverage_internal_Some in H
    as (Hlocal & root & vb & rec' & -> & Hroot & Hvb & Hc). simplify_eq.
  split; [done|]. exists root, vb. unfold check_transparency in Hc. inv_res.
  match goal with H : (if negb ?b then _ else _) = Ok _ |- _ => destruct b eqn:Hb; [|done] end.
  cbn [negb] in Hc. case_decide as Hj; [done|]. inv_res.
  match goal with u : unit |- _ => destruct u end.
  match goal with H : check_operation _ _ _ _ _ _ = _ |- _ =>
    apply check_operation_Ok in H; rewrite sorted_items_length in H end.
  eexists. split_and!; eauto.
Qed.

(** A signing failure in [log_file_epoch] is not rolled back: the new epoch
    stays in the map while the root, the signature and the key stay those of
    the old log, so that (unless the map was unchanged) the log no longer
    verifies. *)
Theorem log_file_epoch_sign_failure (m : CoverageManager) (file_id : string) (epoch_id : N)
    (now : Z) (err : CoverageManagerError) :
  (∀ root : array 32, signer_sign (cm_signer m) (arr root) = Err err) →
  log_file_epoch file_id epoch_id now m =
    (Err err, set_log (set_entries (<[file_id := epoch_id]> (entries (cm_log m))) (cm_log m)) m).
Proof.
  intros Hs. unfold log_file_epoch. set (log := CoverageLog_insert file_id epoch_id (cm_log m)).
  assert (entries log !! file_id = Some epoch_id) as Hlook by apply lookup_insert_eq.
  destruct (inclusion_proof_spec _ _ _ Hlook) as (p & root & -> & _ & _). by rewrite Hs.
Qed.

(** The largest epoch seen, as the loop of [insert_entries] tracks it. *)
Definition max_seen (seen : option N) (e : N) : option N :=
  Some (match seen with Some x => N.max x e | None => e end).

Lemma insert_loop_spec es log latest have :
  ∃ latest' have', insert_loop es log latest have =
    (set_entries (foldl (λ m '(f, e), <[f := e]> m) (entries log) es) log, latest', have')
  ∧ (if have' : bool then Some latest' else None) =
      foldl max_seen (if have : bool then Some latest else None) es.*2.
Proof.
  revert log latest have. induction es as [|[f e] es IH]; intros log latest have.
  { exists latest, have. by destruct log. }
  cbn [insert_loop fmap list_fmap foldl snd].
  destruct have; cbn [negb];
    [change (max_seen (Some latest) e) with (Some (N.max latest e));
     destruct (N.ltb_spec latest e) as [Hlt|Hge]|].
  - destruct (IH (CoverageLog_insert f e log) e true) as (l' & h' & -> & Hl).
    exists l', h'. by rewrite N.max_r by lia.
  - destruct (IH (CoverageLog_insert f e log) latest true) as (l' & h' & -> & Hl).
    exists l', h'. by rewrite N.max_l by lia.
  - destruct (IH (CoverageLog_insert f e log) e true) as (l' & h' & -> & Hl). eauto.
Qed.

Lemma foldl_max_seen o es e :
  foldl max_seen o es = Some e → (∀ x, o = Some x → (x ≤ e)%N) ∧ (∀ x, x ∈ es → (x ≤ e)%N)
    ∧ (o = Some e ∨ e ∈ es).
Proof.
  revert o. induction es as [|a es IH]; intros o; simpl.
  { intros ->. split_and!; [intros; simplify_eq; lia|by intros ? ?%elem_of_nil|auto]. }
  intros (H1 & H2 & H3)%IH. specialize (H1 _ eq_refl). split_and!.
  - intros x ->. lia.
  - intros x [->|Hx]%elem_of_cons; [destruct o; lia|auto].
  - destruct H3 as [H3|H3]; [|right; by right]. injection H3 as H3. destruct o as [x|].
    + destruct (N.max_spec x a) as [[? E]|[? E]]; rewrite E in H3; subst; [right; left|auto].
    + subst. right. left.
Qed.

(** Bulk insertion: the map is updated in order, [latest_epoch] becomes the
    largest of the old one and the inserted epochs, and the signed root is left
    as it was: the cached transparency metadata is dropped. *)
Theorem insert_entries_spec (es : list (string * N)) (m : CoverageManager) :
  let l := cm_log (insert_entries es m) in
  entries l = foldl (λ m '(f, e), <[f := e]> m) (entries (cm_log m)) es
  ∧ (∀ e, latest_epoch l = Some e →
       (∀ x, latest_epoch (cm_log m) = Some x → (x ≤ e)%N) ∧ (∀ x, x ∈ es.*2 → (x ≤ e)%N)
       ∧ (latest_epoch (cm_log m) = Some e ∨ e ∈ es.*2))
  ∧ latest_snapshot l = latest_snapshot (cm_log m)
  ∧ cm_latest_transparency (insert_entries es m) = None.
Proof.
  unfold insert_entries.
  destruct (insert_loop_spec es (cm_log m) (default 0%N (latest_epoch (cm_log m)))
    (bool_decide (is_Some (latest_epoch (cm_log m))))) as (l' & h' & -> & Hl).
  assert ((if bool_decide (is_Some (latest_epoch (cm_log m)))
           then Some (default 0%N (latest_epoch (cm_log m))) else None)
          = latest_epoch (cm_log m)) as E by (by destruct (latest_epoch (cm_log m))).
  rewrite E in Hl. cbn [set_latest_transparency set_log cm_log cm_latest_transparency].
  split_and!; [by destruct h'| |by destruct h'|done].
  intros e He. apply foldl_max_seen. rewrite <-Hl.
  destruct h'; cbn [set_latest_epoch set_entries latest_epoch] in He; [done|].
  destruct (latest_epoch (cm_log m)) as [x|] eqn:Ex; [|done]. exfalso.
  clear -Hl. revert x Hl. induction (es.*2) as [|a k IH]; intros x Hl; simpl in Hl; [done|].
  by apply IH in Hl.
Qed.

Lemma values_length l : length (values l) = size (entries l).
Proof. unfold values. by rewrite length_fmap, length_map_to_list. Qed.

Lemma elem_of_values e l : e ∈ values l ↔ ∃ f, entries l !! f = Some e.
Proof.
  unfold values. rewrite list_elem_of_fmap. split.
  - intros ([f e'] & -> & Hin%elem_of_map_to_list). eauto.
  - intros [f Hf]. exists (f, e). by rewrite elem_of_map_to_list.
Qed.

Lemma filter_all_length {A} (P : A → Prop) `{!∀ x, Decision (P x)} (l : list A) :
  length (filter P l) = length l ↔ Forall P l.
Proof.
  split.
  - induction l as [|x l IH]; [constructor|]. rewrite filter_cons.
    destruct (decide (P x)); simpl; intros E; [constructor; auto|].
    pose proof (length_filter P l). lia.
  - intros HP. f_equal. by apply list_filter_all || (induction HP; [done|];
      rewrite filter_cons, decide_True by done; by f_equal).
Qed.

Lemma length_filter_snd (P : N → Prop) `{!∀ x, Decision (P x)}
    `{!∀ fe : string * N, Decision (P fe.2)} (l : list (string * N)) :
  length (filter (λ fe, P fe.2) l) = length (filter P l.*2).
Proof.
  induction l as [|[f e] l IH]; [done|]. cbn [fmap list_fmap snd].
  rewrite !filter_cons. repeat case_decide; simpl in *; try done. by rewrite IH.
Qed.

(** Counting: the rewrapped files are those in the target epoch, at most all
    of them, and all of them exactly when every file is in that epoch. *)
Theorem counts_for_epoch_spec (epoch_id : N) (l : CoverageLog) :
  total_items (counts_for_epoch epoch_id l) = N.of_nat (size (entries l))
  ∧ rewrapped_items (counts_for_epoch epoch_id l) =
      N.of_nat (size (filter (λ fe, fe.2 = epoch_id) (entries l)))
  ∧ (rewrapped_items (counts_for_epoch epoch_id l) ≤ total_items (counts_for_epoch epoch_id l))%N
  ∧ (rewrapped_items (counts_for_epoch epoch_id l) = total_items (counts_for_epoch epoch_id l)
     ↔ ∀ f e, entries l !! f = Some e → e = epoch_id).
Proof.
  unfold counts_for_epoch. cbn [total_items rewrapped_items]. split_and!.
  - done.
  - f_equal. rewrite <-length_map_to_list, map_filter_alt, map_to_list_to_map.
    + unfold values. symmetry. apply (length_filter_snd (λ e, e = epoch_id)).
    + eapply sublist_NoDup; [apply (NoDup_fst_map_to_list (entries l))|].
      apply fmap_sublist, sublist_filter.
  - pose proof (length_filter (λ e, e = epoch_id) (values l)) as Hle.
    rewrite values_length in Hle. lia.
  - rewrite <-values_length, Nat2N.inj_iff, filter_all_length, list.Forall_forall. split.
    + intros Hall f e Hf. apply Hall, elem_of_values. eauto.
    + intros Hall e [f Hf]%elem_of_values. eauto.
Qed.

Lemma epochs_max_Some es : es ≠ [] → ∃ e, epochs_max es = Some e ∧ e ∈ es ∧ ∀ x, x ∈ es → (x ≤ e)%N.
Proof.
  destruct es as [|a es]; [done|]. intros _. exists (foldl N.max a es). split; [done|].
  assert (foldl max_seen (Some a) es = Some (foldl N.max a es)) as E.
  { revert a. induction es as [|b es IH]; intros a; [done|]. simpl. apply IH. }
  apply foldl_max_seen in E as (H1 & H2 & H3). split.
  - destruct H3 as [[= <-]|H3]; [left|by right].
  - intros x [->|Hx]%elem_of_cons; auto.
Qed.

(** Progress and status: on a non-empty log both are defined (the [unwrap]
    of the maximum cannot panic); progress is 1 exactly when no file is left
    below the target epoch, and the status is 1 exactly when all files are in
    one epoch. *)
Theorem progress_and_status (from to : N) (m : CoverageManager) :
  entries (cm_log m) ≠ ∅ →
  ∃ p s total, get_migration_progress from to m = Ok (ratio p total)
    ∧ get_coverage_status m = Ok (ratio s total)
    ∧ total = size (entries (cm_log m)) ∧ p ≤ total ∧ 0 < s ≤ total
    ∧ (p = total ↔ ∀ f e, entries (cm_log m) !! f = Some e → (to ≤ e)%N)
    ∧ (s = total ↔ ∃ e0, ∀ f e, entries (cm_log m) !! f = Some e → e = e0).
Proof.
  intros Hne. unfold get_migration_progress, get_coverage_status.
  rewrite !decide_False by done. pose proof (values_length (cm_log m)) as Hlen.
  assert (0 < size (entries (cm_log m))).
  { apply map_size_non_empty_iff in Hne. lia. }
  destruct (epochs_max_Some (values (cm_log m))) as (e & He & Hin & Hmax).
  { intros E. rewrite E in Hlen. simpl in Hlen. lia. }
  rewrite He. cbn [unwrap res_bind].
  eexists _, _, _. split; [reflexivity|]. split; [reflexivity|]. rewrite <-!Hlen.
  split_and!; [done|apply length_filter| |apply length_filter| |].
  - assert (e ∈ filter (λ e', e' = e) (values (cm_log m))) as Hf
      by (by apply list_elem_of_filter).
    destruct (filter _ _); [by apply elem_of_nil in Hf|simpl; lia].
  - rewrite filter_all_length, list.Forall_forall. split.
    + intros Hall f e' Hf. apply Hall, elem_of_values. eauto.
    + intros Hall e' [f Hf]%elem_of_values. eauto.
  - rewrite filter_all_length, list.Forall_forall. split.
    + intros Hall. exists e. intros f e' Hf. apply Hall, elem_of_values. eauto.
    + intros [e0 Hall] e' [f Hf]%elem_of_values. apply elem_of_values in Hin as [f0 Hf0].
      rewrite (Hall _ _ Hf). symmetry. eauto.
Qed.
End CoverageTheorems.

(** ** Evaluation on concrete logs *)

#[local] Existing Instances toy_sha256 toy_ed25519 toy_entry_json toy_ed25519_laws.
Definition toy_operation_debug : OperationDebug := λ _, "operation".
#[local] Existing Instance toy_operation_debug.

Definition cov_key : SigningKey :=
  mkSigningKey (dexist (le_bytes 32 77) (le_bytes_length 32 77)).
Definition cov_manager : CoverageManager := new_standalone CoverageLog_new cov_key.

Lemma cov_manager_key : cm_verifying_key cov_manager ≠ default_verifying_key.
Proof. apply (bool_decide_unpack _). vm_compute. exact I. Qed.

Lemma log_file_epoch_verifies_witness :
  ∃ root, merkle_root (CoverageLog_insert "dir/a:1" 7 (cm_log cov_manager)) = Ok root ∧
    ∀ sb, signer_sign (cm_signer cov_manager) (arr root) = Ok sb →
    ∃ e, log_file_epoch "dir/a:1" 7 0 cov_manager
           = (Ok e, snd (log_file_epoch "dir/a:1" 7 0 cov_manager))
      ∧ fe_merkle_root e = root
      ∧ verify_inclusion_proof (fe_proof e) root (leaf_of ("dir/a:1", 7%N)) = Ok true
      ∧ entries (cm_log (snd (log_file_epoch "dir/a:1" 7 0 cov_manager)))
          = <["dir/a:1" := 7%N]> (entries (cm_log cov_manager))
      ∧ verify_coverage (cm_log (snd (log_file_epoch "dir/a:1" 7 0 cov_manager))) = Ok tt.
Proof.
  apply (log_file_epoch_verifies cov_manager "dir/a:1" 7 0).
  - apply Ed25519CoverageSigner_authentic.
  - reflexivity.
  - exact cov_manager_key.
  - reflexivity.
Defined.

Definition cov_log_ab : CoverageLog :=
  CoverageLog_insert "b" 2 (CoverageLog_insert "a" 1 CoverageLog_new).
Definition cov_log_ba : CoverageLog :=
  CoverageLog_insert "a" 1 (CoverageLog_insert "b" 2 CoverageLog_new).
Definition cov_root : array 32 :=
  match merkle_root cov_log_ab with Ok r => r | _ => zeros 32 end.

Lemma coverage_root_binds_entries_witness : entries cov_log_ab = entries cov_log_ba.
Proof.
  apply (coverage_root_binds_entries cov_log_ab cov_log_ba cov_root).
  - vm_compute. reflexivity.
  - vm_compute. reflexivity.
  - decide_collision_free.
Defined.

Lemma coverage_order_independent_witness :
  merge_sort key_le [("b", 2%N); ("a", 1%N)] = (build_tree cov_log_ab).2.
Proof.
  apply (coverage_order_independent cov_log_ab [("b", 2%N); ("a", 1%N)]).
  apply (bool_decide_unpack _). vm_compute. exact I.
Defined.

Definition cov_signed : CoverageLog := cm_log (snd (log_file_epoch "a" 1 0 cov_manager)).

Lemma verify_coverage_detects_tampering_witness :
  verify_coverage (set_entries {["a" := 2%N]} cov_signed) =
    Err (Generic "computed Merkle root does not match recorded root").
Proof.
  apply (verify_coverage_detects_tampering cov_signed {["a" := 2%N]}).
  - vm_compute. reflexivity.
  - apply (bool_decide_unpack _). vm_compute. exact I.
  - apply (bool_decide_unpack _). vm_compute. exact I.
  - decide_collision_free.
Defined.

(** A transparency log with one entry, the snapshot of the signed log. *)
Definition cov_entry (root : array 32) : TransparencyEntry :=
  mkTransparencyEntry 0 0 root
    (CoverageSnapshot root 1 1 None (cm_verifying_key cov_manager)) [].
Definition cov_verifier : CoverageTransparencyVerifier :=
  λ root, Ok (mkCoverageTransparencyRecord
    (mkTransparencyInclusionProof (cov_entry root) 0 [] 1
       (TransparencyEntry_hash (cov_entry root)))).
Definition cov_signed_root : array 32 := default (zeros 32) (latest_root cov_signed).
Definition cov_record : CoverageTransparencyRecord :=
  mkCoverageTransparencyRecord
    (mkTransparencyInclusionProof (cov_entry cov_signed_root) 0 [] 1
       (TransparencyEntry_hash (cov_entry cov_signed_root))).

Lemma transparency_verification_sound_witness :
  verify_coverage cov_signed = Ok tt ∧ ∃ root vb epoch,
    merkle_root cov_signed = Ok root ∧ verifying_key cov_signed = Some vb
    ∧ expected_epoch cov_signed = Some epoch
    ∧ cov_verifier root = Ok cov_record
    ∧ Transparency.InclusionProof_verify (tr_proof cov_record) = Ok true
    ∧ join_card_hash (entry (tr_proof cov_record)) = root
    ∧ operation (entry (tr_proof cov_record)) =
        CoverageSnapshot root epoch (N.of_nat (size (entries cov_signed)))
          (signing_key_id cov_signed) vb.
Proof.
  apply (transparency_verification_sound cov_verifier cov_signed cov_record).
  vm_compute. reflexivity.
Defined.

Definition broken_signer : CoverageSigner :=
  mkCoverageSigner (λ _, Err (Generic "signing failed: offline")) (zeros 32) None.
Lemma log_file_epoch_sign_failure_witness :
  log_file_epoch "a" 1 0 (CoverageManager_new broken_signer) =
    (Err (Generic "signing failed: offline"),
     set_log (set_entries (<["a" := 1%N]> (entries CoverageLog_new)) CoverageLog_new)
       (CoverageManager_new broken_signer)).
Proof.
  apply (log_file_epoch_sign_failure (CoverageManager_new broken_signer) "a" 1 0
           (Generic "signing failed: offline")).
  intros root. reflexivity.
Defined.

Lemma progress_and_status_witness :
  ∃ p s total, get_migration_progress 1 2 (set_log cov_log_ab cov_manager) = Ok (ratio p total)
    ∧ get_coverage_status (set_log cov_log_ab cov_manager) = Ok (ratio s total)
    ∧ total = size (entries cov_log_ab) ∧ p ≤ total ∧ 0 < s ≤ total
    ∧ (p = total ↔ ∀ f e, entries cov_log_ab !! f = Some e → (2 ≤ e)%N)
    ∧ (s = total ↔ ∃ e0, ∀ f e, entries cov_log_ab !! f = Some e → e = e0).
Proof.
  apply (progress_and_status 1 2 (set_log cov_log_ab cov_manager)).
  apply (bool_decide_unpack _). vm_compute. exact I.
Defined.
