(* ===== verification/EpochState.v ===== *)
(** * Epoch and member state ([crates/client/src/epoch/state.rs],
      [crates/client/src/epoch_key_source.rs])

    [EpochState] and [Member] with their lifecycle transitions, validation,
    queries and the versioned serialisation wrapper.  Times are integers
    (nanoseconds since the Unix epoch); a reading of [Utc::now()] is an
    argument: [t1] is the stamp put into a status and [t2] the one put into
    [updated_at].  The [Debug] text of a status (in error messages), the JSON
    of a status and the CBOR codec come from other crates and are classes.  A
    ratio of two counts is kept as an exact rational. *)

From Stdlib Require Import Strings.Byte QArith.
From stdpp Require Import base tactics numbers sets list gmap strings pretty option sorting.
From S2P Require Import Prelude Crypto.
Close Scope Q_scope.
Open Scope hc_scope.

Inductive EpochKeySource :=
| KeyWelcome | KeyGroupUpdate | KeyRecovery | KeyLocalInit | KeyLocalVault | KeyPlaceholder
| KeyUnknown.

Definition EpochKeySource_default : EpochKeySource := KeyUnknown.

Definition is_verified (s : EpochKeySource) : bool :=
  match s with
  | KeyWelcome | KeyGroupUpdate | KeyRecovery => true
  | _ => false
  end.

Definition is_locally_usable (s : EpochKeySource) : bool :=
  is_verified s || match s with KeyLocalVault => true | _ => false end.

Inductive MemberStatus :=
| MemberActive
| PendingMigration (target_epoch : N) (started_at : Z)
| Removed (removed_at : Z) (reason : string).

#[export] Instance MemberStatus_eq_dec : EqDecision MemberStatus.
Proof. solve_decision. Defined.

Record MemberCapabilities := mkMemberCapabilities {
  cap_read : bool;
  cap_write : bool;
  cap_invite : bool;
  cap_rekey : bool;
  cap_remove : bool;
  cap_admin : bool;
}.

Definition MemberCapabilities_default : MemberCapabilities :=
  mkMemberCapabilities true false false false false false.

Inductive MemberCapability := CapRead | CapWrite | CapInvite | CapRekey | CapRemove | CapAdmin.

Record Member := mkMember {
  member_id : bytes;
  public_key : bytes;
  member_status : MemberStatus;
  capabilities : MemberCapabilities;
  joined_at : Z;
  member_updated_at : Z;
}.

Inductive EpochStatus :=
| Initializing (started_at : Z)
| Active (activated_at : Z)
| Migrating (target_epoch : N) (started_at : Z)
| PendingCutover (target_epoch : N) (initiated_at : Z)
| Deprecated (deprecated_at : Z) (successor_epoch : N)
| Deleted (deleted_at : Z).

Inductive EpochLifecyclePhase := PhaseCreation | PhaseActive | PhaseMigration | PhaseDeletion.

#[export] Instance EpochLifecyclePhase_eq_dec : EqDecision EpochLifecyclePhase.
Proof. solve_decision. Defined.
#[export] Instance EpochLifecyclePhase_countable : Countable EpochLifecyclePhase.
Proof.
  refine (inj_countable'
    (λ p, match p with PhaseCreation => 0 | PhaseActive => 1
                     | PhaseMigration => 2 | PhaseDeletion => 3 end)
    (λ n, match n with 0 => PhaseCreation | 1 => PhaseActive
                     | 2 => PhaseMigration | _ => PhaseDeletion end) _).
  by intros [].
Defined.

Record EpochMetadata := mkEpochMetadata {
  description : option string;
  tags : gmap string string;
  version : N;
  notes : list string;
}.

Definition EpochMetadata_default : EpochMetadata := mkEpochMetadata None ∅ 1 [].

Record EpochState := mkEpochState {
  epoch_id : N;
  encryption_key : array 32;
  key_source : EpochKeySource;
  members : gmap bytes Member;
  status : EpochStatus;
  created_at : Z;
  updated_at : Z;
  file_count : N;
  metadata : EpochMetadata;
}.

Inductive EpochError :=
| MemberNotFound
| InvalidState (msg : string)
| AccessDenied (msg : string)
| ValidationFailed (msg : string)
| EpochStorage (msg : string)
| EpochSerialization (msg : string).

Definition EpochError_display (e : EpochError) : string :=
  match e with
  | MemberNotFound => "Member not found"
  | InvalidState msg => "Invalid epoch state: " +:+ msg
  | AccessDenied msg => "Epoch access denied: " +:+ msg
  | ValidationFailed msg => "Epoch validation failed: " +:+ msg
  | EpochStorage msg => "Storage error: " +:+ msg
  | EpochSerialization msg => "Serialization error: " +:+ msg
  end.

(** The [Debug] renderings that appear in [InvalidState] messages. *)
Class StatusDebug := {
  epoch_status_debug : EpochStatus → string;
  member_status_debug : MemberStatus → string;
}.

(** [serde_json::to_vec] on the parts that are hashed; [None] is an error, which
    the code turns into no bytes. *)
Class StatusJson := {
  json_member_status : MemberStatus → option bytes;
  json_capabilities : MemberCapabilities → option bytes;
  json_epoch_status : EpochStatus → option bytes;
}.

(** Seconds of a [chrono::Duration] given in nanoseconds. *)
Definition num_seconds (d : Z) : Z := Z.quot d 1000000000.

(** [Vec<u8>::cmp]. *)
Fixpoint bytes_leb (a b : bytes) : bool :=
  match a, b with
  | [], _ => true
  | _ :: _, [] => false
  | x :: a, y :: b =>
      if (Byte.to_N x <? Byte.to_N y)%N then true
      else if (Byte.to_N y <? Byte.to_N x)%N then false
      else bytes_leb a b
  end.
Definition bytes_le (a b : bytes) : Prop := bytes_leb a b = true.
#[export] Instance bytes_le_dec : RelDecision bytes_le.
Proof. intros a b. unfold bytes_le. apply _. Defined.

Section Members.
Context {sha : Sha256} {ed : Ed25519} {dbg : StatusDebug} {json : StatusJson}.

(** ** [Member] *)

Definition Member_new (id pk : bytes) (caps : MemberCapabilities) (now : Z) : Member :=
  mkMember id pk MemberActive caps now now.

Definition Member_is_active (m : Member) : bool := bool_decide (member_status m = MemberActive).

Definition Member_update_status (st : MemberStatus) (t2 : Z) (m : Member) : Member :=
  mkMember (member_id m) (public_key m) st (capabilities m) (joined_at m) t2.

Definition Member_validate (now : Z) (m : Member) : res EpochError unit :=
  if decide (member_id m = []) then Err (ValidationFailed "Member ID cannot be empty")
  else if decide (public_key m = []) then Err (ValidationFailed "Public key cannot be empty")
  else if decide (length (public_key m) ≠ 32) then
    Err (ValidationFailed "Public key must be 32 bytes for Ed25519")
  else if (member_updated_at m <? joined_at m)%Z then
    Err (ValidationFailed "Updated timestamp cannot be before join timestamp")
  else
    match member_status m with
    | PendingMigration target_epoch started_at =>
        if (target_epoch =? 0)%N then
          Err (ValidationFailed "Migration target epoch cannot be zero")
        else if (now <? started_at)%Z then
          Err (ValidationFailed "Migration start time cannot be in the future")
        else Ok tt
    | Removed removed_at reason =>
        if decide (reason = "") then Err (ValidationFailed "Removal reason cannot be empty")
        else if (now <? removed_at)%Z then
          Err (ValidationFailed "Removal time cannot be in the future")
        else Ok tt
    | MemberActive => Ok tt
    end.

Definition has_capability (c : MemberCapability) (m : Member) : bool :=
  match c with
  | CapRead => cap_read (capabilities m)
  | CapWrite => cap_write (capabilities m)
  | CapInvite => cap_invite (capabilities m)
  | CapRekey => cap_rekey (capabilities m)
  | CapRemove => cap_remove (capabilities m)
  | CapAdmin => cap_admin (capabilities m)
  end.

Definition Member_start_migration (target_epoch : N) (t1 t2 : Z) (m : Member)
  : res EpochError Member :=
  match member_status m with
  | MemberActive => Ok (Member_update_status (PendingMigration target_epoch t1) t2 m)
  | st => Err (InvalidState ("Cannot start migration from status: " +:+ member_status_debug st))
  end.

Definition Member_complete_migration (t2 : Z) (m : Member) : res EpochError Member :=
  match member_status m with
  | PendingMigration _ _ => Ok (Member_update_status MemberActive t2 m)
  | st => Err (InvalidState ("Cannot complete migration from status: " +:+ member_status_debug st))
  end.

Definition Member_remove (reason : string) (t1 t2 : Z) (m : Member) : res EpochError Member :=
  if decide (reason = "") then Err (ValidationFailed "Removal reason cannot be empty")
  else Ok (Member_update_status (Removed t1 reason) t2 m).

Definition Member_verifying_key (m : Member) : res EpochError VerifyingKey :=
  map_err (λ e, ValidationFailed ("Invalid public key: " +:+ CryptoError_display e))
    (VerifyingKey_from_bytes (public_key m)).

Definition Member_compute_hash (m : Member) : array 32 :=
  sha256 (member_id m ++ public_key m
          ++ default [] (json_member_status (member_status m))
          ++ default [] (json_capabilities (capabilities m))).

Definition Member_age_seconds (now : Z) (m : Member) : Z := num_seconds (now - joined_at m).

Definition can_operate_on (target : Member) (operation : MemberCapability) (m : Member) : bool :=
  if negb (Member_is_active m) || negb (has_capability operation m) then false
  else
    match operation with
    | CapRemove =>
        negb (bool_decide (member_id m = member_id target))
        && (has_capability CapAdmin m || negb (has_capability CapAdmin target))
    | CapAdmin => has_capability CapAdmin m
    | _ => true
    end.
End Members.

Section Epochs.
Context {sha : Sha256} {dbg : StatusDebug} {json : StatusJson}.

(** ** [EpochState] *)

Definition EpochState_new (id : N) (key : array 32) (now : Z) : EpochState :=
  mkEpochState id key KeyLocalInit ∅ (Initializing now) now now 0 EpochMetadata_default.

Definition set_members (ms : gmap bytes Member) (t2 : Z) (s : EpochState) : EpochState :=
  mkEpochState (epoch_id s) (encryption_key s) (key_source s) ms (status s) (created_at s) t2
    (file_count s) (metadata s).

Definition update_status (st : EpochStatus) (t2 : Z) (s : EpochState) : EpochState :=
  mkEpochState (epoch_id s) (encryption_key s) (key_source s) (members s) st (created_at s) t2
    (file_count s) (metadata s).

Definition set_key (key : array 32) (s : EpochState) : EpochState :=
  mkEpochState (epoch_id s) key (key_source s) (members s) (status s) (created_at s)
    (updated_at s) (file_count s) (metadata s).

Definition add_member (m : Member) (t2 : Z) (s : EpochState) : res EpochError EpochState :=
  Ok (set_members (<[member_id m := m]> (members s)) t2 s).

Definition with_status (st : MemberStatus) (m : Member) : Member :=
  mkMember (member_id m) (public_key m) st (capabilities m) (joined_at m) (member_updated_at m).

Definition remove_member (id : bytes) (reason : string) (t1 t2 : Z) (s : EpochState)
  : res EpochError EpochState :=
  match members s !! id with
  | Some m => Ok (set_members (<[id := with_status (Removed t1 reason) m]> (members s)) t2 s)
  | None => Err MemberNotFound
  end.

Definition is_active (s : EpochState) : bool :=
  match status s with Active _ => true | _ => false end.

Definition is_migrating (s : EpochState) : bool :=
  match status s with Migrating _ _ => true | _ => false end.

Definition member_values (s : EpochState) : list Member := (map_to_list (members s)).*2.

Definition active_member_count (s : EpochState) : nat :=
  length (filter (λ m, member_status m = MemberActive) (member_values s)).

Definition activate (t1 t2 : Z) (s : EpochState) : res EpochError EpochState :=
  match status s with
  | Initializing _ =>
      if decide (members s = ∅) then
        Err (ValidationFailed "Cannot activate epoch with no members")
      else Ok (update_status (Active t1) t2 s)
  | st => Err (InvalidState ("Cannot activate epoch in state: " +:+ epoch_status_debug st))
  end.

Definition start_migration (target : N) (t1 t2 : Z) (s : EpochState) : res EpochError EpochState :=
  match status s with
  | Active _ =>
      if (target <=? epoch_id s)%N then
        Err (ValidationFailed "Target epoch must be greater than current epoch")
      else Ok (update_status (Migrating target t1) t2 s)
  | st => Err (InvalidState ("Cannot start migration from state: " +:+ epoch_status_debug st))
  end.

Definition initiate_cutover (target : N) (t1 t2 : Z) (s : EpochState) : res EpochError EpochState :=
  match status s with
  | Migrating current_target _ =>
      if negb (target =? current_target)%N then
        Err (ValidationFailed "Cutover target epoch does not match migration target")
      else Ok (update_status (PendingCutover target t1) t2 s)
  | st => Err (InvalidState ("Cannot initiate cutover from state: " +:+ epoch_status_debug st))
  end.

Definition deprecate (successor : N) (t1 t2 : Z) (s : EpochState) : res EpochError EpochState :=
  match status s with
  | PendingCutover target _ =>
      if negb (successor =? target)%N then
        Err (ValidationFailed "Successor epoch does not match cutover target")
      else Ok (update_status (Deprecated t1 successor) t2 s)
  | st => Err (InvalidState ("Cannot deprecate epoch from state: " +:+ epoch_status_debug st))
  end.

Definition delete_epoch (t1 t2 : Z) (s : EpochState) : res EpochError EpochState :=
  match status s with
  | Deprecated _ _ => Ok (update_status (Deleted t1) t2 (set_key (zeros 32) s))
  | st => Err (InvalidState ("Cannot delete epoch from state: " +:+ epoch_status_debug st))
  end.

Definition is_deleted (s : EpochState) : bool :=
  match status s with Deleted _ => true | _ => false end.

(** The loop over the members in [validate]. *)
Fixpoint validate_members (now : Z) (ms : list Member) : res EpochError unit :=
  match ms with
  | [] => Ok tt
  | m :: ms => let? _ := Member_validate now m in validate_members now ms
  end.

(** The status-specific constraints of [validate]. *)
Definition validate_status (s : EpochState) : res EpochError unit :=
  match status s with
  | Migrating target _ =>
      if (target <=? epoch_id s)%N then
        Err (ValidationFailed "Migration target epoch must be greater than current epoch")
      else Ok tt
  | PendingCutover target _ =>
      if (target <=? epoch_id s)%N then
        Err (ValidationFailed "Cutover target epoch must be greater than current epoch")
      else Ok tt
  | Deprecated _ successor =>
      if (successor <=? epoch_id s)%N then
        Err (ValidationFailed "Successor epoch must be greater than current epoch")
      else Ok tt
  | _ => Ok tt
  end.

Definition EpochState_validate (now : Z) (s : EpochState) : res EpochError unit :=
  if (epoch_id s =? 0)%N then Err (ValidationFailed "Epoch ID cannot be zero")
  else if negb (is_deleted s) && bool_decide (encryption_key s = zeros 32) then
    Err (ValidationFailed "Encryption key cannot be all zeros")
  else if (updated_at s <? created_at s)%Z then
    Err (ValidationFailed "Updated timestamp cannot be before creation timestamp")
  else
    let? _ := validate_members now (member_values s) in
    validate_status s.

(** The bytes fed to the hasher by [compute_hash]. *)
Definition epoch_hash_msg (s : EpochState) : bytes :=
  let ids := merge_sort bytes_le (map_to_list (members s)).*1 in
  le_bytes 8 (epoch_id s)
  ++ (if is_deleted s then [] else arr (encryption_key s))
  ++ concat ((λ id, match members s !! id with
                    | Some m => id ++ public_key m
                                ++ default [] (json_member_status (member_status m))
                    | None => []
                    end) <$> ids)
  ++ default [] (json_epoch_status (status s)).

Definition compute_hash (s : EpochState) : array 32 := sha256 (epoch_hash_msg s).

Definition can_read (s : EpochState) : bool :=
  match status s with
  | Active _ | Migrating _ _ | PendingCutover _ _ | Deprecated _ _ => true
  | Initializing _ | Deleted _ => false
  end.

Definition can_write (s : EpochState) : bool :=
  match status s with Active _ => true | _ => false end.

Definition lifecycle_phase (s : EpochState) : EpochLifecyclePhase :=
  match status s with
  | Initializing _ => PhaseCreation
  | Active _ => PhaseActive
  | Migrating _ _ | PendingCutover _ _ => PhaseMigration
  | Deprecated _ _ | Deleted _ => PhaseDeletion
  end.

Definition filter_members_by_status (st : MemberStatus) (s : EpochState) : list Member :=
  filter (λ m, member_status m = st) (member_values s).

Definition get_members_with_capability (c : MemberCapability) (s : EpochState) : list Member :=
  filter (λ m, has_capability c m = true) (member_values s).

Definition age_seconds (now : Z) (s : EpochState) : Z := num_seconds (now - created_at s).

Definition is_stale (threshold_seconds : Z) (now : Z) (s : EpochState) : bool :=
  (threshold_seconds <? age_seconds now s)%Z.

(** ** Queries *)

Definition matches_lifecycle_phase (phase : EpochLifecyclePhase) (s : EpochState) : bool :=
  bool_decide (lifecycle_phase s = phase).

(** [std::mem::discriminant]. *)
Definition discriminant (st : EpochStatus) : nat :=
  match st with
  | Initializing _ => 0
  | Active _ => 1
  | Migrating _ _ => 2
  | PendingCutover _ _ => 3
  | Deprecated _ _ => 4
  | Deleted _ => 5
  end.

Definition matches_status (st : EpochStatus) (s : EpochState) : bool :=
  discriminant (status s) =? discriminant st.

Definition is_in_transition (s : EpochState) : bool :=
  match status s with
  | Migrating _ _ | PendingCutover _ _ => true
  | _ => false
  end.

Definition member_is_pending (m : Member) : bool :=
  match member_status m with PendingMigration _ _ => true | _ => false end.

Definition member_is_removed (m : Member) : bool :=
  match member_status m with Removed _ _ => true | _ => false end.

Definition migration_progress (s : EpochState) : Q :=
  if negb (is_migrating s) then (if is_active s then 0%Q else 1%Q)
  else
    let total_members := size (members s) in
    if (total_members =? 0) then 1%Q
    else Qmake (Z.of_nat (active_member_count s)) (Pos.of_nat total_members).

Definition get_pending_migration_members (s : EpochState) : list Member :=
  filter (λ m, member_is_pending m = true) (member_values s).

Definition all_members_migrated (s : EpochState) : bool :=
  forallb (λ m, Member_is_active m || member_is_removed m) (member_values s).

Definition get_admins (s : EpochState) : list Member :=
  filter (λ m, Member_is_active m = true) (get_members_with_capability CapAdmin s).

Definition can_member_join (id : bytes) (s : EpochState) : bool :=
  match status s with
  | Initializing _ | Active _ => true
  | _ => false
  end.

(** [remaining as i64] drops the fraction. *)
Definition estimate_migration_completion (t1 t2 : Z) (s : EpochState) : option Z :=
  match status s with
  | Migrating _ started_at =>
      let progress := migration_progress s in
      if negb (Qle_bool progress 0) && negb (Qle_bool 1 progress) then
        let elapsed := num_seconds (t1 - started_at) in
        let remaining := Qminus (Qdiv (inject_Z elapsed) progress) (inject_Z elapsed) in
        Some (t2 + Z.quot (Qnum remaining) (Zpos (Qden remaining)) * 1000000000)%Z
      else None
  | _ => None
  end.

Record EpochSummary := mkEpochSummary {
  sm_epoch_id : N;
  sm_status : EpochStatus;
  sm_lifecycle_phase : EpochLifecyclePhase;
  sm_total_members : nat;
  sm_active_members : nat;
  sm_pending_migration_members : nat;
  sm_file_count : N;
  sm_created_at : Z;
  sm_updated_at : Z;
  sm_age_seconds : Z;
  sm_migration_progress : option Q;
  sm_estimated_completion : option Z;
  sm_can_read : bool;
  sm_can_write : bool;
}.

Definition summary (now t1 t2 : Z) (s : EpochState) : EpochSummary :=
  mkEpochSummary (epoch_id s) (status s) (lifecycle_phase s) (size (members s))
    (active_member_count s) (length (get_pending_migration_members s)) (file_count s)
    (created_at s) (updated_at s) (age_seconds now s)
    (if is_migrating s then Some (migration_progress s) else None)
    (estimate_migration_completion t1 t2 s) (can_read s) (can_write s).

Record EpochQuery := mkEpochQuery {
  phases : option (gset EpochLifecyclePhase);
  min_age_seconds : option Z;
  max_age_seconds : option Z;
  member_count_range : option (nat * nat);
  required_capabilities : option (list MemberCapability);
  readable : option bool;
  writable : option bool;
}.

Definition EpochQuery_new : EpochQuery := mkEpochQuery None None None None None None None.

Definition with_phases (ps : gset EpochLifecyclePhase) (q : EpochQuery) : EpochQuery :=
  mkEpochQuery (Some ps) (min_age_seconds q) (max_age_seconds q) (member_count_range q)
    (required_capabilities q) (readable q) (writable q).
Definition with_age_range (mn mx : option Z) (q : EpochQuery) : EpochQuery :=
  mkEpochQuery (phases q) mn mx (member_count_range q)
    (required_capabilities q) (readable q) (writable q).
Definition with_member_count_range (mn mx : nat) (q : EpochQuery) : EpochQuery :=
  mkEpochQuery (phases q) (min_age_seconds q) (max_age_seconds q) (Some (mn, mx))
    (required_capabilities q) (readable q) (writable q).
Definition with_access (r w : option bool) (q : EpochQuery) : EpochQuery :=
  mkEpochQuery (phases q) (min_age_seconds q) (max_age_seconds q) (member_count_range q)
    (required_capabilities q) r w.

(** The chain of early returns of [matches]: a filter that is not set passes. *)
Definition query_matches (now : Z) (s : EpochState) (q : EpochQuery) : bool :=
  match phases q with
  | Some ps => bool_decide (lifecycle_phase s ∈ ps)
  | None => true
  end
  && (let age := age_seconds now s in
      match min_age_seconds q with Some mn => negb (age <? mn)%Z | None => true end
      && match max_age_seconds q with Some mx => negb (mx <? age)%Z | None => true end)
  && match member_count_range q with
     | Some (mn, mx) => negb ((size (members s) <? mn) || (mx <? size (members s)))
     | None => true
     end
  && match readable q with Some r => Bool.eqb (can_read s) r | None => true end
  && match writable q with Some w => Bool.eqb (can_write s) w | None => true end.
End Epochs.

(** ** Versioned serialisation *)

Definition CURRENT_VERSION : N := 1.
Definition MIN_SUPPORTED_VERSION : N := 1.

Record SerializationMetadata := mkSerializationMetadata {
  min_supported_version : N;
  features : gset string;
  checksum : array 32;
}.

Definition SerializationMetadata_default : SerializationMetadata :=
  mkSerializationMetadata MIN_SUPPORTED_VERSION ∅ (zeros 32).

Record VersionedEpochState := mkVersionedEpochState {
  ve_version : N;
  ve_epoch : EpochState;
  ve_serialized_at : Z;
  ve_metadata : SerializationMetadata;
}.

(** The [ciborium] and [serde_json] codecs of the wrapper: the error texts are
    theirs. *)
Class EpochCodec := {
  cbor_write : VersionedEpochState → res string bytes;
  cbor_read : bytes → res string VersionedEpochState;
  json_write : VersionedEpochState → res string string;
  json_read : string → res string VersionedEpochState;
}.
Class EpochCodecLaws `{EpochCodec} : Prop := {
  cbor_read_write v b : cbor_write v = Ok b → cbor_read b = Ok v;
  json_read_write v s : json_write v = Ok s → json_read s = Ok v;
}.

Section Versioned.
Context {sha : Sha256} {json : StatusJson} {codec : EpochCodec}.

Definition status_features (st : EpochStatus) : gset string :=
  match st with
  | Migrating _ _ => {["migration"]}
  | PendingCutover _ _ => {["cutover"]}
  | Deprecated _ _ => {["deprecation"]}
  | Deleted _ => {["deletion"]}
  | _ => ∅
  end.

Definition member_features (m : Member) : gset string :=
  (match member_status m with
   | PendingMigration _ _ => {["member_migration"]}
   | Removed _ _ => {["member_removal"]}
   | MemberActive => ∅
   end)
  ∪ (if cap_admin (capabilities m) then {["admin_capabilities"]} else ∅).

Definition detect_features (s : EpochState) : gset string :=
  status_features (status s)
  ∪ ⋃ (member_features <$> member_values s)
  ∪ (if decide (tags (metadata s) = ∅) then ∅ else {["metadata_tags"]})
  ∪ (if decide (notes (metadata s) = []) then ∅ else {["metadata_notes"]}).

Definition VersionedEpochState_new (s : EpochState) (now : Z) : res EpochError VersionedEpochState :=
  Ok (mkVersionedEpochState CURRENT_VERSION s now
        (mkSerializationMetadata MIN_SUPPORTED_VERSION (detect_features s) (compute_hash s))).

Definition VersionedEpochState_validate (now : Z) (v : VersionedEpochState) : res EpochError unit :=
  if (ve_version v <? MIN_SUPPORTED_VERSION)%N then
    Err (EpochSerialization ("Unsupported version: " +:+ pretty (ve_version v)))
  else if decide (compute_hash (ve_epoch v) ≠ checksum (ve_metadata v)) then
    Err (EpochSerialization "Checksum mismatch - data may be corrupted")
  else EpochState_validate now (ve_epoch v).

Definition to_cbor (v : VersionedEpochState) : res EpochError bytes :=
  map_err (λ e, EpochSerialization ("CBOR serialization failed: " +:+ e)) (cbor_write v).

Definition from_cbor (now : Z) (data : bytes) : res EpochError VersionedEpochState :=
  let? v := map_err (λ e, EpochSerialization ("CBOR deserialization failed: " +:+ e))
              (cbor_read data) in
  let? _ := VersionedEpochState_validate now v in
  Ok v.

Definition to_json (v : VersionedEpochState) : res EpochError string :=
  map_err (λ e, EpochSerialization ("JSON serialization failed: " +:+ e)) (json_write v).

Definition from_json (now : Z) (text : string) : res EpochError VersionedEpochState :=
  let? v := map_err (λ e, EpochSerialization ("JSON deserialization failed: " +:+ e))
              (json_read text) in
  let? _ := VersionedEpochState_validate now v in
  Ok v.

Definition migrate_if_needed (now : Z) (v : VersionedEpochState)
  : res EpochError VersionedEpochState :=
  if (ve_version v <? CURRENT_VERSION)%N then
    Ok (mkVersionedEpochState CURRENT_VERSION (ve_epoch v) now
          (mkSerializationMetadata MIN_SUPPORTED_VERSION (detect_features (ve_epoch v))
             (compute_hash (ve_epoch v))))
  else Ok v.

Definition into_epoch (v : VersionedEpochState) : EpochState := ve_epoch v.
End Versioned.

(** ** The lifecycle as a step relation

    The guarded operations of an epoch; [update_status], which sets any status,
    is not one of them. *)
Inductive epoch_op :=
| OpAddMember (m : Member)
| OpRemoveMember (id : bytes) (reason : string)
| OpActivate
| OpStartMigration (target : N)
| OpInitiateCutover (target : N)
| OpDeprecate (successor : N)
| OpDelete.

Section Lifecycle.
Context {sha : Sha256} {dbg : StatusDebug} {json : StatusJson}.

Definition apply_epoch_op (o : epoch_op) (t1 t2 : Z) (s : EpochState) : res EpochError EpochState :=
  match o with
  | OpAddMember m => add_member m t2 s
  | OpRemoveMember id reason => remove_member id reason t1 t2 s
  | OpActivate => activate t1 t2 s
  | OpStartMigration target => start_migration target t1 t2 s
  | OpInitiateCutover target => initiate_cutover target t1 t2 s
  | OpDeprecate successor => deprecate successor t1 t2 s
  | OpDelete => delete_epoch t1 t2 s
  end.

Inductive epoch_step : EpochState → EpochState → Prop :=
| epoch_step_op o t1 t2 s s' :
    apply_epoch_op o t1 t2 s = Ok s' → epoch_step s s'.

Definition epoch_reachable (id : N) (key : array 32) (s : EpochState) : Prop :=
  ∃ now, rtc epoch_step (EpochState_new id key now) s.

(** The target recorded in a status. *)
Definition status_target (st : EpochStatus) : option N :=
  match st with
  | Migrating t _ | PendingCutover t _ | Deprecated _ t => Some t
  | _ => None
  end.

(** The lifecycle that the operations implement, on statuses alone. *)
Inductive lifecycle_step (id : N) : EpochStatus → EpochStatus → Prop :=
| ls_activate a b : lifecycle_step id (Initializing a) (Active b)
| ls_start t a b : (id < t)%N → lifecycle_step id (Active a) (Migrating t b)
| ls_cutover t a b : lifecycle_step id (Migrating t a) (PendingCutover t b)
| ls_deprecate t a b : lifecycle_step id (PendingCutover t a) (Deprecated b t)
| ls_delete t a b : lifecycle_step id (Deprecated a t) (Deleted b).

Ltac epoch_simpl :=
  unfold is_deleted;
  cbn [set_members update_status set_key epoch_id encryption_key members status created_at
       updated_at].

(** An operation either leaves status and key alone or takes one step of the
    lifecycle. *)
Lemma apply_epoch_op_shape o t1 t2 s s' :
  apply_epoch_op o t1 t2 s = Ok s' →
  epoch_id s' = epoch_id s ∧ created_at s' = created_at s ∧ updated_at s' = t2 ∧
  ((status s' = status s ∧ encryption_key s' = encryption_key s ∧ members s' ≠ ∅) ∨
   (lifecycle_step (epoch_id s) (status s) (status s') ∧ members s' = members s ∧
    (discriminant (status s) = 0 → members s ≠ ∅) ∧
    encryption_key s' = if is_deleted s' then zeros 32 else encryption_key s)).
Proof.
  intros H.
  destruct o as [m|mid reason| |t|t|t|]; cbn [apply_epoch_op] in H;
    unfold add_member, remove_member, activate, start_migration, initiate_cutover, deprecate,
      delete_epoch in H.
  - injection H as <-. epoch_simpl. split_and!; try done. left. split_and!; [done|done|apply insert_non_empty].
  - case_match; [|done]. injection H as <-. epoch_simpl. split_and!; try done. left.
    split_and!; [done|done|apply insert_non_empty].
  - destruct (status s) as [a|a|t a|t a|a t|a] eqn:Hs; try done. case_decide as Hm; [done|].
    injection H as <-. epoch_simpl. split_and!; try done. right. split_and!; try done.
    constructor.
  - destruct (status s) as [a|a|t' a|t' a|a t'|a] eqn:Hs; try done.
    destruct (N.leb_spec t (epoch_id s)) as [Hle|Hlt]; [done|].
    injection H as <-. epoch_simpl. split_and!; try done. right. split_and!; try done.
    by constructor.
  - destruct (status s) as [a|a|t' a|t' a|a t'|a] eqn:Hs; try done.
    destruct (N.eqb_spec t t') as [->|Hne]; [|done].
    injection H as <-. epoch_simpl. split_and!; try done. right. split_and!; try done.
    constructor.
  - destruct (status s) as [a|a|t' a|t' a|a t'|a] eqn:Hs; try done.
    destruct (N.eqb_spec t t') as [->|Hne]; [|done].
    injection H as <-. epoch_simpl. split_and!; try done. right. split_and!; try done.
    constructor.
  - destruct (status s) as [a|a|t' a|t' a|a t'|a] eqn:Hs; try done.
    injection H as <-. epoch_simpl. split_and!; try done. right. split_and!; try done.
    constructor.
Qed.

(** What a reachable epoch satisfies: the key is the original one until deletion
    wipes it, only an epoch that has members leaves initialisation, and a
    recorded target lies above the epoch. *)
Record epoch_inv (id : N) (key : array 32) (s : EpochState) : Prop := {
  inv_id : epoch_id s = id;
  inv_key : encryption_key s = if is_deleted s then zeros 32 else key;
  inv_members : 0 < discriminant (status s) → members s ≠ ∅;
  inv_target t : status_target (status s) = Some t → (id < t)%N;
}.

Lemma lifecycle_step_discriminant id st st' :
  lifecycle_step id st st' → discriminant st' = S (discriminant st).
Proof. by destruct 1. Qed.

Lemma epoch_inv_step id key s s' : epoch_inv id key s → epoch_step s s' → epoch_inv id key s'.
Proof.
  intros Hinv Hs. destruct Hs as [o t1 t2 s s' H]. destruct Hinv as [Hid Hkey Hmem Htgt].
  apply apply_epoch_op_shape in H as (Hid' & _ & _ & [(Hst & Hk & Hm)|(Hst & Hm & H0 & Hk)]).
  - split; [congruence| |done|by rewrite Hst].
    rewrite Hk, Hkey. unfold is_deleted. by rewrite Hst.
  - split; [congruence| | |].
    + rewrite Hk, Hkey. unfold is_deleted. by destruct Hst.
    + intros _. rewrite Hm. destruct (decide (discriminant (status s) = 0)); [auto|].
      apply Hmem. lia.
    + intros t Ht. rewrite Hid in Hst. destruct Hst; simplify_eq/=; eauto.
Qed.

Lemma epoch_inv_reachable id key s : epoch_reachable id key s → epoch_inv id key s.
Proof.
  intros [now Hr]. remember (EpochState_new id key now) as s0 eqn:E.
  assert (epoch_inv id key s0) as H0 by (subst; split; simpl; done || lia).
  clear E. induction Hr as [|s0 s1 s2 Hs _ IH]; [done|]. apply IH. by eapply epoch_inv_step.
Qed.



Lemma epoch_step_monotone s s' : epoch_step s s' →
  epoch_id s' = epoch_id s ∧ discriminant (status s) ≤ discriminant (status s')
  ∧ (∀ t, status_target (status s) = Some t →
       status_target (status s') = Some t ∨ is_deleted s' = true)
  ∧ (is_deleted s = true → status s' = status s ∧ encryption_key s' = encryption_key s).
Proof.
  intros Hs. destruct Hs as [o t1 t2 s s' H].
  apply apply_epoch_op_shape in H as (Hid & _ & _ & [(Hst & Hk & _)|(Hst & _ & _ & Hk)]).
  - split_and!; [done|by rewrite Hst|rewrite Hst; auto|auto].
  - split_and!; [done| | |].
    + apply lifecycle_step_discriminant in Hst. lia.
    + intros t Ht. unfold is_deleted. destruct Hst; simplify_eq/=; auto.
    + unfold is_deleted. by destruct Hst.
Qed.

(** The lifecycle is one-way along any run of operations: the phase never goes
    back, a recorded target is kept until deletion, and a deleted epoch stays
    deleted, unreadable and without its key. *)
Theorem epoch_lifecycle_one_way (s s' : EpochState) :
  rtc epoch_step s s' →
  discriminant (status s) ≤ discriminant (status s')
  ∧ (∀ t, status_target (status s) = Some t →
       status_target (status s') = Some t ∨ is_deleted s' = true)
  ∧ (is_deleted s = true →
       is_deleted s' = true ∧ can_read s' = false ∧ can_write s' = false
       ∧ encryption_key s' = encryption_key s).
Proof.
  assert (∀ s, is_deleted s = true → can_read s = false ∧ can_write s = false) as Hdel.
  { intros x. unfold is_deleted, can_read, can_write. by destruct (status x). }
  induction 1 as [s|s s1 s2 Hs _ (IH1 & IH2 & IH3)].
  { split_and!; [done|auto|]. intros Hd. destruct (Hdel _ Hd). done. }
  destruct (epoch_step_monotone _ _ Hs) as (_ & H1 & H2 & H3). split_and!; [lia| |].
  - intros t Ht. destruct (H2 t Ht) as [Ht'|Hd]; [by apply IH2|].
    right. by destruct (IH3 Hd).
  - intros Hd. destruct (H3 Hd) as [Est Ek].
    assert (is_deleted s1 = true) as Hd1 by (unfold is_deleted; by rewrite Est).
    destruct (IH3 Hd1) as (? & ? & ? & ->). done.
Qed.
End Lifecycle.

(** ** Validation *)
Section Validation.
Context {sha : Sha256} {dbg : StatusDebug} {json : StatusJson} {codec : EpochCodec}.

(** What a valid member's status says at time [now]. *)
Definition status_ok (now : Z) (st : MemberStatus) : Prop :=
  match st with
  | MemberActive => True
  | PendingMigration t at_ => t ≠ 0%N ∧ (at_ ≤ now)%Z
  | Removed at_ reason => reason ≠ "" ∧ (at_ ≤ now)%Z
  end.

Lemma Member_validate_Ok now m :
  Member_validate now m = Ok tt ↔
  member_id m ≠ [] ∧ length (public_key m) = 32 ∧ (joined_at m ≤ member_updated_at m)%Z
  ∧ status_ok now (member_status m).
Proof.
  unfold Member_validate. destruct (decide (member_id m = [])) as [E|Hid]; [naive_solver|].
  destruct (decide (public_key m = [])) as [E|Hpk].
  { split; [done|]. intros (_ & Hl & _). by rewrite E in Hl. }
  destruct (decide (length (public_key m) ≠ 32)) as [Hl|Hl]; [naive_solver|].
  assert (length (public_key m) = 32) as Hl' by lia.
  destruct (Z.ltb_spec (member_updated_at m) (joined_at m)) as [Ht|Ht].
  { split; [done|]. intros (_ & _ & ? & _). lia. }
  unfold status_ok. destruct (member_status m) as [|t a|a r]; [naive_solver| |].
  - destruct (N.eqb_spec t 0); [naive_solver|].
    destruct (Z.ltb_spec now a); split; try done; intros (_ & _ & _ & _ & ?); lia.
  - case_decide; [naive_solver|].
    destruct (Z.ltb_spec now a); split; try done; intros (_ & _ & _ & _ & ?); lia.
Qed.

Lemma validate_members_Ok now ms :
  validate_members now ms = Ok tt ↔ Forall (λ m, Member_validate now m = Ok tt) ms.
Proof.
  induction ms as [|m ms IH]; cbn [validate_members]; [by split; constructor|].
  rewrite list.Forall_cons, <-IH. destruct (Member_validate now m) as [[]| | |]; naive_solver.
Qed.

Lemma validate_status_Ok s :
  validate_status s = Ok tt ↔ ∀ t, status_target (status s) = Some t → (epoch_id s < t)%N.
Proof.
  unfold validate_status. destruct (status s) as [a|a|t a|t a|a t|a]; cbn [status_target];
    [naive_solver|naive_solver| | | |naive_solver];
    (destruct (N.leb_spec t (epoch_id s)); split; [done|intros Ht; specialize (Ht t eq_refl); lia|
      intros _ ? [= <-]; done|done]).
Qed.

Lemma EpochState_validate_Ok now s :
  EpochState_validate now s = Ok tt ↔
  epoch_id s ≠ 0%N ∧ (is_deleted s = true ∨ encryption_key s ≠ zeros 32)
  ∧ (created_at s ≤ updated_at s)%Z
  ∧ (∀ id m, members s !! id = Some m → Member_validate now m = Ok tt)
  ∧ (∀ t, status_target (status s) = Some t → (epoch_id s < t)%N).
Proof.
  unfold EpochState_validate. destruct (N.eqb_spec (epoch_id s) 0) as [?|Hid]; [naive_solver|].
  destruct (is_deleted s) eqn:Hd; cbn [negb andb].
  2: case_bool_decide as Hk; [naive_solver|].
  all: destruct (Z.ltb_spec (updated_at s) (created_at s)) as [Ht|Ht];
    [split; [done|]; intros (_ & _ & ? & _); lia|].
  all: destruct (validate_members now (member_values s)) as [[]| | |] eqn:Hv; cbn [res_bind];
    [|split; [done|]; intros (_ & _ & _ & Hm & _);
      rewrite (proj2 (validate_members_Ok now (member_values s))) in Hv; [done|];
      apply list.Forall_forall; intros m Hin; unfold member_values in Hin;
      apply list_elem_of_fmap in Hin as ([i m'] & -> & Hin%elem_of_map_to_list); eauto ..].
  all: apply validate_members_Ok in Hv; rewrite list.Forall_forall in Hv.
  all: assert (∀ id m, members s !! id = Some m → Member_validate now m = Ok tt) as Hm
    by (intros i m Hi; apply Hv; unfold member_values; apply list_elem_of_fmap;
        exists (i, m); by rewrite elem_of_map_to_list).
  all: rewrite validate_status_Ok; naive_solver.
Qed.

(** What an operation must supply for the state to stay valid. *)
Definition op_valid (now : Z) (o : epoch_op) : Prop :=
  match o with
  | OpAddMember m => Member_validate now m = Ok tt
  | OpRemoveMember _ reason => reason ≠ ""
  | _ => True
  end.

Lemma Member_validate_later now now' m :
  (now ≤ now')%Z → Member_validate now m = Ok tt → Member_validate now' m = Ok tt.
Proof.
  rewrite !Member_validate_Ok. intros Hn (? & ? & ? & Hs). split_and!; try done.
  unfold status_ok in *. destruct (member_status m); naive_solver lia.
Qed.

Lemma op_members_valid o now now' t1 t2 s s' :
  (∀ id m, members s !! id = Some m → Member_validate now m = Ok tt) →
  apply_epoch_op o t1 t2 s = Ok s' → (now ≤ now')%Z → (t1 ≤ now')%Z → op_valid now' o →
  ∀ id m, members s' !! id = Some m → Member_validate now' m = Ok tt.
Proof.
  intros Hv H Hn Ht1 Ho i m Hi.
  destruct o as [m0|mid reason| |t|t|t|]; cbn [apply_epoch_op op_valid] in *;
    unfold add_member, remove_member, activate, start_migration, initiate_cutover, deprecate,
      delete_epoch in H.
  - injection H as <-. cbn [set_members members] in Hi.
    apply lookup_insert_Some in Hi as [[_ <-]|[_ Hi]]; eauto using Member_validate_later.
  - destruct (members s !! mid) as [m0|] eqn:Hm; [|done]. injection H as <-.
    cbn [set_members members] in Hi.
    apply lookup_insert_Some in Hi as [[_ <-]|[_ Hi]]; [|eauto using Member_validate_later].
    apply Hv, Member_validate_Ok in Hm as (? & ? & ? & _). by apply Member_validate_Ok.
  - repeat (case_match; try done); injection H as <-; eauto using Member_validate_later.
  - repeat (case_match; try done); injection H as <-; eauto using Member_validate_later.
  - repeat (case_match; try done); injection H as <-; eauto using Member_validate_later.
  - repeat (case_match; try done); injection H as <-; eauto using Member_validate_later.
  - repeat (case_match; try done); injection H as <-; eauto using Member_validate_later.
Qed.

(** C37: Validity is an invariant: an operation on a valid epoch, with a clock that
    does not run backwards, a valid member to add and a non-empty removal
    reason, gives a valid epoch. *)
Theorem epoch_validate_preserved (o : epoch_op) (now now' t1 t2 : Z) (s s' : EpochState) :
  EpochState_validate now s = Ok tt → apply_epoch_op o t1 t2 s = Ok s' →
  (now ≤ now')%Z → (t1 ≤ now')%Z → (updated_at s ≤ t2)%Z → op_valid now' o →
  EpochState_validate now' s' = Ok tt.
Proof.
  rewrite !EpochState_validate_Ok. intros (Hid & Hkey & Hup & Hmem & Htgt) H Hn Ht1 Ht2 Ho.
  pose proof (op_members_valid _ _ _ _ _ _ _ Hmem H Hn Ht1 Ho) as Hmem'.
  apply apply_epoch_op_shape in H as (Hid' & Hcr & Hup' & Hshape).
  rewrite Hid', Hcr, Hup'. split_and!; [done| |lia|done|].
  - destruct Hshape as [(Hst & Hk & _)|(Hst & _ & _ & Hk)]; unfold is_deleted in *.
    + by rewrite Hst, Hk.
    + rewrite Hk. destruct Hst; simpl; auto.
  - intros t Ht. destruct Hshape as [(Hst & _)|(Hst & _)].
    + apply Htgt. by rewrite <-Hst.
    + destruct Hst; simplify_eq/=; auto.
Qed.

(** [EpochState::remove_member] accepts an empty reason, which
    [Member::remove] rejects: the epoch is then invalid for good. *)
Theorem remove_member_empty_reason (id : bytes) (m : Member) (t1 t2 now : Z) (s : EpochState) :
  members s !! id = Some m →
  ∃ s', remove_member id "" t1 t2 s = Ok s' ∧ EpochState_validate now s' ≠ Ok tt
    ∧ Member_remove "" t1 t2 m = Err (ValidationFailed "Removal reason cannot be empty").
Proof.
  intros Hm. unfold remove_member. rewrite Hm. eexists. split; [done|]. split; [|done].
  rewrite EpochState_validate_Ok. intros (_ & _ & _ & Hv & _).
  specialize (Hv id (with_status (Removed t1 "") m)). cbn [set_members members] in Hv.
  rewrite lookup_insert_eq in Hv. specialize (Hv eq_refl).
  apply Member_validate_Ok in Hv as (_ & _ & _ & Hs & _). done.
Qed.
End Validation.

(** ** The integrity hash and the serialised form *)
Section Integrity.
Context {sha : Sha256} {dbg : StatusDebug} {json : StatusJson} {codec : EpochCodec}.

Lemma bytes_leb_cons x a y b :
  bytes_leb (x :: a) (y :: b) = true ↔
  (Byte.to_N x < Byte.to_N y)%N ∨ (x = y ∧ bytes_leb a b = true).
Proof.
  cbn [bytes_leb]. destruct (N.ltb_spec (Byte.to_N x) (Byte.to_N y)); [naive_solver|].
  destruct (N.ltb_spec (Byte.to_N y) (Byte.to_N x)).
  - split; [done|]. intros [?|[-> _]]; lia.
  - assert (x = y) as -> by (apply byte_to_N_inj; lia). naive_solver lia.
Qed.

#[export] Instance bytes_le_total : Total bytes_le.
Proof.
  unfold bytes_le. intros a. induction a as [|x a IH]; intros [|y b]; [by left|by left|by right|].
  rewrite !bytes_leb_cons.
  destruct (N.lt_total (Byte.to_N x) (Byte.to_N y)) as [?|[E%byte_to_N_inj|?]]; [tauto| |tauto].
  subst y. destruct (IH b); tauto.
Qed.

#[export] Instance bytes_le_trans : Transitive bytes_le.
Proof.
  unfold bytes_le. intros a. induction a as [|x a IH]; intros [|y b] [|z c]; try done.
  rewrite !bytes_leb_cons. intros [?|[-> ?]] [?|[-> ?]]; [left; lia|by left|by left|].
  right. split; [done|]. by eapply IH.
Qed.

#[export] Instance bytes_le_antisymm : AntiSymm (=) bytes_le.
Proof.
  unfold bytes_le. intros a. induction a as [|x a IH]; intros [|y b]; try done.
  rewrite !bytes_leb_cons. intros [?|[-> ?]] [?|[E ?]]; subst; try lia. f_equal. auto.
Qed.

(** The part of a member that [compute_hash] covers. *)
Definition hashed_part (m : Member) : bytes * MemberStatus := (public_key m, member_status m).

Lemma keys_of_fmap {A B} (f : A → B) (m : gmap bytes A) :
  (map_to_list (f <$> m)).*1 ≡ₚ (map_to_list m).*1.
Proof.
  rewrite map_to_list_fmap. rewrite <-list_fmap_compose.
  apply reflexive_eq, list_fmap_ext. by intros ? [].
Qed.

Lemma epoch_hash_msg_ext s s' :
  epoch_id s = epoch_id s' → encryption_key s = encryption_key s' → status s = status s' →
  hashed_part <$> members s = hashed_part <$> members s' →
  epoch_hash_msg s = epoch_hash_msg s'.
Proof.
  intros Hid Hk Hst Hm. unfold epoch_hash_msg, is_deleted. rewrite Hid, Hk, Hst.
  assert (merge_sort bytes_le (map_to_list (members s)).*1 =
          merge_sort bytes_le (map_to_list (members s')).*1) as ->.
  { apply (StronglySorted_unique bytes_le); [apply StronglySorted_merge_sort; apply _..|].
    by rewrite !merge_sort_Permutation, <-(keys_of_fmap hashed_part), Hm, keys_of_fmap. }
  f_equal. f_equal. f_equal. f_equal. apply list_fmap_ext. intros _ i _.
  assert (hashed_part <$> members s !! i = hashed_part <$> members s' !! i) as Hi
    by (by rewrite <-!lookup_fmap, Hm).
  destruct (members s !! i) as [[]|], (members s' !! i) as [[]|]; simpl in *; unfold hashed_part in *; simplify_eq/=; done.
Qed.

(** Replacing the capabilities of one member. *)
Definition set_capabilities (caps : MemberCapabilities) (m : Member) : Member :=
  mkMember (member_id m) (public_key m) (member_status m) caps (joined_at m) (member_updated_at m).
Definition regrant (id : bytes) (caps : MemberCapabilities) (s : EpochState) : EpochState :=
  set_members (alter (set_capabilities caps) id (members s)) (updated_at s) s.
Definition ve_with_epoch (s : EpochState) (v : VersionedEpochState) : VersionedEpochState :=
  mkVersionedEpochState (ve_version v) s (ve_serialized_at v) (ve_metadata v).

Lemma regrant_hash id caps s : compute_hash (regrant id caps s) = compute_hash s.
Proof.
  unfold compute_hash. f_equal. apply epoch_hash_msg_ext; [done..|].
  cbn [regrant set_members members]. apply map_eq. intros i. rewrite !lookup_fmap.
  destruct (decide (i = id)) as [->|Hne].
  - rewrite lookup_alter_eq. by destruct (members s !! id).
  - by rewrite lookup_alter_ne by done.
Qed.

(** The integrity checksum does not cover capabilities: granting a member of a
    stored epoch any capabilities, administration included, passes [validate]
    exactly when the unmodified state does. *)
Theorem checksum_misses_capabilities (now : Z) (id : bytes) (caps : MemberCapabilities)
    (v : VersionedEpochState) :
  VersionedEpochState_validate now (ve_with_epoch (regrant id caps (ve_epoch v)) v) = Ok tt ↔
  VersionedEpochState_validate now v = Ok tt.
Proof.
  unfold VersionedEpochState_validate. cbn [ve_with_epoch ve_version ve_epoch ve_metadata].
  rewrite regrant_hash. case_match; [done|]. case_decide; [done|].
  rewrite !EpochState_validate_Ok. set (s := ve_epoch v).
  assert ((∀ i m, members (regrant id caps s) !! i = Some m → Member_validate now m = Ok tt) ↔
          (∀ i m, members s !! i = Some m → Member_validate now m = Ok tt)) as E.
  { assert (∀ m, Member_validate now (set_capabilities caps m) = Member_validate now m) as Hm
      by done.
    cbn [regrant set_members members]. split; intros Hall i m Hi.
    - destruct (decide (i = id)) as [->|Hne].
      + rewrite <-Hm. apply (Hall id). by rewrite lookup_alter_eq, Hi.
      + apply (Hall i). by rewrite lookup_alter_ne.
    - destruct (decide (i = id)) as [->|Hne].
      + rewrite lookup_alter_eq in Hi. apply fmap_Some in Hi as (m' & Hi & ->).
        rewrite Hm. eauto.
      + rewrite lookup_alter_ne in Hi by done. eauto. }
  rewrite E. done.
Qed.

(** Serialisation round trip: a valid epoch wrapped by [new] and written as CBOR
    is read back as itself, and so is its JSON form. *)
Theorem epoch_serialization_roundtrip `{!EpochCodecLaws} (s : EpochState) (t now : Z)
    (v : VersionedEpochState) (b : bytes) (text : string) :
  EpochState_validate now s = Ok tt → VersionedEpochState_new s t = Ok v →
  to_cbor v = Ok b → to_json v = Ok text →
  from_cbor now b = Ok v ∧ from_json now text = Ok v ∧ into_epoch v = s.
Proof.
  intros Hs [= <-] Hb Ht. unfold to_cbor, to_json in *. inv_res.
  unfold from_cbor, from_json.
  erewrite cbor_read_write by eassumption. erewrite json_read_write by eassumption.
  cbn [map_err res_bind]. unfold VersionedEpochState_validate.
  cbn [ve_version ve_epoch ve_metadata checksum].
  rewrite decide_False by auto. rewrite Hs. done.
Qed.

(** Authority between members: only an active member with the capability can
    operate on another; nobody can remove themselves, and an administrator can
    only be removed by an administrator. *)
Theorem member_authority (m target : Member) (operation : MemberCapability) :
  can_operate_on target operation m = true →
  member_status m = MemberActive ∧ has_capability operation m = true
  ∧ (operation = CapRemove → member_id m ≠ member_id target
       ∧ (has_capability CapAdmin target = true → has_capability CapAdmin m = true)).
Proof.
  unfold can_operate_on, Member_is_active. case_bool_decide as Ha; [|done].
  destruct (has_capability operation m) eqn:Hc; [|done]. cbn [negb orb]. intros H.
  split_and!; [done|done|]. intros ->. apply andb_true_iff in H as [H1 H2].
  apply negb_true_iff, bool_decide_eq_false in H1. split; [done|].
  intros Ht. rewrite Ht in H2. by rewrite orb_false_r in H2.
Qed.

(** A removed member keeps a migration from ever reporting 100%: when every
    member has migrated or been removed, [all_members_migrated] holds, yet the
    progress stays below one if anybody was removed. *)
Theorem removed_members_stall_progress (s : EpochState) (id : bytes) (m : Member) :
  is_migrating s = true → members s !! id = Some m → member_is_removed m = true →
  (migration_progress s < 1)%Q.
Proof.
  intros Hmig Hm Hrm. unfold migration_progress. rewrite Hmig. cbn [negb].
  assert (m ∈ member_values s) as Hin.
  { unfold member_values. apply list_elem_of_fmap. exists (id, m). by rewrite elem_of_map_to_list. }
  assert (length (member_values s) = size (members s)) as Hlen
    by (unfold member_values; by rewrite length_fmap, length_map_to_list).
  assert (active_member_count s < size (members s)) as Hlt.
  { rewrite <-Hlen. unfold active_member_count. clear Hlen Hm.
    induction (member_values s) as [|x l IH]; [by apply elem_of_nil in Hin|].
    pose proof (length_filter (λ m, member_status m = MemberActive) l) as Hle.
    rewrite filter_cons. apply elem_of_cons in Hin as [<-|Hin].
    - rewrite decide_False; [simpl; lia|]. intros E. unfold member_is_removed in Hrm.
      by rewrite E in Hrm.
    - specialize (IH Hin). case_decide; simpl; lia. }
  destruct (Nat.eqb_spec (size (members s)) 0); [lia|].
  unfold Qlt. cbn [Qnum Qden]. rewrite Z.mul_1_r, Z.mul_1_l.
  destruct (size (members s)) as [|k] eqn:Ek; [done|].
  rewrite Pos.of_nat_succ || idtac. lia.
Qed.
End Integrity.

(** ** Evaluation on a concrete epoch *)

#[export] Instance EpochKeySource_eq_dec : EqDecision EpochKeySource.
Proof. solve_decision. Defined.
#[export] Instance MemberCapabilities_eq_dec : EqDecision MemberCapabilities.
Proof. solve_decision. Defined.
#[export] Instance Member_eq_dec : EqDecision Member.
Proof. solve_decision. Defined.
#[export] Instance EpochStatus_eq_dec : EqDecision EpochStatus.
Proof. solve_decision. Defined.
#[export] Instance EpochMetadata_eq_dec : EqDecision EpochMetadata.
Proof. solve_decision. Defined.
#[export] Instance EpochState_eq_dec : EqDecision EpochState.
Proof. solve_decision. Defined.
#[export] Instance SerializationMetadata_eq_dec : EqDecision SerializationMetadata.
Proof. solve_decision. Defined.
#[export] Instance VersionedEpochState_eq_dec : EqDecision VersionedEpochState.
Proof. solve_decision. Defined.

#[local] Existing Instance toy_sha256.
Definition toy_status_debug : StatusDebug := {|
  epoch_status_debug := λ _, "status";
  member_status_debug := λ _, "status";
|}.
Definition toy_status_json : StatusJson := {|
  json_member_status := λ st, match st with
    | MemberActive => Some (ser (inl 0%N : N + (N * N)))
    | PendingMigration t a => Some (ser (inr (t, Z.to_N a) : N + (N * N)))
    | Removed a r => Some (ser (Z.to_N a) ++ ser r)
    end;
  json_capabilities := λ c, Some (ser (if cap_admin c then 1%N else 0%N));
  json_epoch_status := λ st, Some (ser (N.of_nat (discriminant st)));
|}.
#[local] Existing Instances toy_status_debug toy_status_json.

Definition alice : Member :=
  Member_new (bytes_of "alice") (arr (zeros 32)) MemberCapabilities_default 10.
Definition epoch_key : array 32 := dexist (le_bytes 32 5) (le_bytes_length 32 5).
Definition epoch0 : EpochState := EpochState_new 1 epoch_key 10.
Definition run_or (s : EpochState) (r : res EpochError EpochState) : EpochState :=
  match r with Ok s' => s' | _ => s end.
Definition epoch_a : EpochState := run_or epoch0 (apply_epoch_op (OpAddMember alice) 11 11 epoch0).
Definition epoch_b : EpochState := run_or epoch0 (apply_epoch_op OpActivate 12 12 epoch_a).
Definition epoch_c : EpochState := run_or epoch0 (apply_epoch_op (OpStartMigration 2) 13 13 epoch_b).
Definition epoch_d : EpochState :=
  run_or epoch0 (apply_epoch_op (OpRemoveMember (bytes_of "alice") "left") 14 14 epoch_c).

Lemma epoch_run_abc : rtc epoch_step epoch_a epoch_c.
Proof.
  apply (rtc_l _ epoch_a epoch_b); [|apply (rtc_l _ epoch_b epoch_c); [|apply rtc_refl]].
  - apply (epoch_step_op OpActivate 12 12). vm_compute. reflexivity.
  - apply (epoch_step_op (OpStartMigration 2) 13 13). vm_compute. reflexivity.
Defined.

Lemma epoch_c_reachable : epoch_reachable 1 epoch_key epoch_c.
Proof.
  exists 10%Z. apply (rtc_l _ epoch0 epoch_a); [|exact epoch_run_abc].
  apply (epoch_step_op (OpAddMember alice) 11 11). vm_compute. reflexivity.
Defined.



Lemma epoch_lifecycle_one_way_witness :
  discriminant (status epoch_a) ≤ discriminant (status epoch_c)
  ∧ (∀ t, status_target (status epoch_a) = Some t →
       status_target (status epoch_c) = Some t ∨ is_deleted epoch_c = true)
  ∧ (is_deleted epoch_a = true →
       is_deleted epoch_c = true ∧ can_read epoch_c = false ∧ can_write epoch_c = false
       ∧ encryption_key epoch_c = encryption_key epoch_a).
Proof. apply (epoch_lifecycle_one_way epoch_a epoch_c). exact epoch_run_abc. Defined.

Lemma epoch_validate_preserved_witness : EpochState_validate 20 epoch_d = Ok tt.
Proof.
  apply (epoch_validate_preserved (OpRemoveMember (bytes_of "alice") "left") 15 20 14 14
           epoch_c epoch_d).
  - vm_compute. reflexivity.
  - vm_compute. reflexivity.
  - lia.
  - lia.
  - vm_compute. discriminate.
  - discriminate.
Defined.

Lemma remove_member_empty_reason_witness :
  ∃ s', remove_member (bytes_of "alice") "" 14 14 epoch_c = Ok s'
    ∧ EpochState_validate 20 s' ≠ Ok tt
    ∧ Member_remove "" 14 14 alice = Err (ValidationFailed "Removal reason cannot be empty").
Proof.
  apply (remove_member_empty_reason (bytes_of "alice") alice 14 14 20 epoch_c).
  vm_compute. reflexivity.
Defined.

(** A codec that knows one state. *)
Definition stored_epoch : VersionedEpochState :=
  match VersionedEpochState_new epoch_c 15 with
  | Ok v => v
  | _ => mkVersionedEpochState 0 epoch0 0 SerializationMetadata_default
  end.
Definition one_epoch_codec (v0 : VersionedEpochState) : EpochCodec := {|
  cbor_write := λ v, if decide (v = v0) then Ok [x00] else Err "unsupported";
  cbor_read := λ b, if decide (b = [x00]) then Ok v0 else Err "unsupported";
  json_write := λ v, if decide (v = v0) then Ok "{}" else Err "unsupported";
  json_read := λ s, if decide (s = "{}") then Ok v0 else Err "unsupported";
|}.
Lemma one_epoch_codec_laws v0 : @EpochCodecLaws (one_epoch_codec v0).
Proof.
  split; intros v w; cbn [cbor_write cbor_read json_write json_read one_epoch_codec];
    (destruct (decide (v = v0)) as [->|]; [|discriminate]); intros [= <-];
    by rewrite decide_True.
Qed.
Definition toy_epoch_codec : EpochCodec := one_epoch_codec stored_epoch.
Definition toy_epoch_codec_laws : @EpochCodecLaws toy_epoch_codec :=
  one_epoch_codec_laws stored_epoch.

Lemma epoch_serialization_roundtrip_witness :
  @from_cbor toy_sha256 toy_status_json toy_epoch_codec 20 [x00] = Ok stored_epoch
  ∧ @from_json toy_sha256 toy_status_json toy_epoch_codec 20 "{}" = Ok stored_epoch
  ∧ into_epoch stored_epoch = epoch_c.
Proof.
  apply (@epoch_serialization_roundtrip toy_sha256 toy_status_json toy_epoch_codec
           toy_epoch_codec_laws epoch_c 15 20 stored_epoch [x00] "{}");
    vm_compute; reflexivity.
Defined.

Definition root_caps : MemberCapabilities := mkMemberCapabilities true true true true true true.
Definition carol : Member := Member_new (bytes_of "carol") (arr (zeros 32)) root_caps 10.
Lemma member_authority_witness :
  member_status carol = MemberActive ∧ has_capability CapRemove carol = true
  ∧ (CapRemove = CapRemove → member_id carol ≠ member_id alice
       ∧ (has_capability CapAdmin alice = true → has_capability CapAdmin carol = true)).
Proof. apply (member_authority carol alice CapRemove). vm_compute. reflexivity. Defined.

Lemma removed_members_stall_progress_witness : (migration_progress epoch_d < 1)%Q.
Proof.
  apply (removed_members_stall_progress epoch_d (bytes_of "alice")
           (with_status (Removed 14 "left") alice)); vm_compute; reflexivity.
Defined.
