(* ===== verification/CutoverMessages.v ===== *)
(** * Cutover messages ([crates/messages/src/cutover.rs],
      [crates/messages/src/error.rs])

    The messages of the two-phase epoch cutover with their constructors and
    their validation. *)

From Stdlib Require Import Strings.Byte.
From stdpp Require Import base tactics numbers list gmap strings option.
From S2P Require Import Prelude Crypto.
Open Scope hc_scope.

Inductive MessageError :=
| MsgSerialization (msg : string)
| MsgDeserialization (msg : string)
| MsgInvalidFormat (msg : string)
| MsgCrypto (e : CryptoError)
| MsgCryptoError (msg : string)
| MsgSerializationError (msg : string)
| MsgSignatureError (msg : string)
| MsgTimestampError (msg : string)
| MsgExpiredCard (msg : string).

Definition MessageError_display (e : MessageError) : string :=
  match e with
  | MsgSerialization msg => "Serialization failed: " +:+ msg
  | MsgDeserialization msg => "Deserialization failed: " +:+ msg
  | MsgInvalidFormat msg => "Invalid message format: " +:+ msg
  | MsgCrypto e => "Crypto error: " +:+ CryptoError_display e
  | MsgCryptoError msg => "Crypto error: " +:+ msg
  | MsgSerializationError msg => "Serialization error: " +:+ msg
  | MsgSignatureError msg => "Signature error: " +:+ msg
  | MsgTimestampError msg => "Timestamp error: " +:+ msg
  | MsgExpiredCard msg => "Expired: " +:+ msg
  end.

Inductive CutoverPhase := Prepare | Proposal | Vote | Commit | Abort.
Inductive CutoverVote := Approve | Reject.
Inductive ConsensusState := Voting | Achieved | ConsensusFailed | TimedOut.

#[export] Instance CutoverPhase_eq_dec : EqDecision CutoverPhase.
Proof. solve_decision. Defined.
#[export] Instance CutoverVote_eq_dec : EqDecision CutoverVote.
Proof. solve_decision. Defined.

Record CutoverMessage := mkCutoverMessage {
  phase : CutoverPhase;
  from_epoch_id : bytes;
  to_epoch_id : bytes;
  coverage_root : bytes;
  sender_key : bytes;
  msg_timestamp : Z;
  vote : option CutoverVote;
  msg_signature : bytes;
  transparency_sequence : option N;
  transparency_log_size : option N;
  transparency_leaf_index : option N;
  transparency_entry_timestamp : option N;
}.

Definition CutoverMessage_validate (m : CutoverMessage) : res MessageError unit :=
  if bool_decide (length (from_epoch_id m) ≠ 32) && negb (bool_decide (from_epoch_id m = [])) then
    Err (MsgInvalidFormat "from_epoch_id must be 32 bytes or empty")
  else if decide (length (to_epoch_id m) ≠ 32) then
    Err (MsgInvalidFormat "to_epoch_id must be 32 bytes")
  else if bool_decide (length (coverage_root m) ≠ 32) && negb (bool_decide (coverage_root m = [])) then
    Err (MsgInvalidFormat "coverage_root must be 32 bytes or empty")
  else if decide (length (sender_key m) ≠ 32) then
    Err (MsgInvalidFormat "sender_key must be 32 bytes")
  else if bool_decide (phase m = Vote) && negb (bool_decide (is_Some (vote m))) then
    Err (MsgInvalidFormat "vote phase requires vote field")
  else Ok tt.

Definition CutoverMessage_new (p : CutoverPhase) (from to root : bytes) (sender : VerifyingKey)
    (now : Z) : res MessageError CutoverMessage :=
  let message := mkCutoverMessage p from to root (arr (VerifyingKey_to_bytes sender)) now None
                   (replicate 64 x00) None None None None in
  let? _ := CutoverMessage_validate message in
  Ok message.

Definition CutoverMessage_new_vote (from to root : bytes) (sender : VerifyingKey)
    (v : CutoverVote) (now : Z) : res MessageError CutoverMessage :=
  let message := mkCutoverMessage Vote from to root (arr (VerifyingKey_to_bytes sender)) now
                   (Some v) (replicate 64 x00) None None None None in
  let? _ := CutoverMessage_validate message in
  Ok message.

Definition set_msg_signature (sig : bytes) (m : CutoverMessage) : CutoverMessage :=
  mkCutoverMessage (phase m) (from_epoch_id m) (to_epoch_id m) (coverage_root m) (sender_key m)
    (msg_timestamp m) (vote m) sig (transparency_sequence m) (transparency_log_size m)
    (transparency_leaf_index m) (transparency_entry_timestamp m).

Definition set_msg_transparency (seq size index time : option N) (m : CutoverMessage)
  : CutoverMessage :=
  mkCutoverMessage (phase m) (from_epoch_id m) (to_epoch_id m) (coverage_root m) (sender_key m)
    (msg_timestamp m) (vote m) (msg_signature m) seq size index time.

Record LeaderElection := mkLeaderElection {
  le_coordinator_id : string;
  le_term : N;
  le_votes : gmap string bool;
  le_signature : bytes;
}.

Record Cutover := mkCutover {
  cut_from_epoch_id : bytes;
  cut_to_epoch_id : bytes;
  cut_phase : CutoverPhase;
  cut_coordinator_id : string;
  cut_term : N;
  affected_files : list bytes;
  timeout : N;
  acks : gmap string bool;
  coordinator_signature : bytes;
  cut_timestamp : N;
}.

Record CutoverRollback := mkCutoverRollback {
  rb_from_epoch_id : bytes;
  rb_to_epoch_id : bytes;
  rb_coordinator_id : string;
  rollback_files : list bytes;
  rb_reason : string;
  recovery_state : gmap string bytes;
  rb_signature : bytes;
  rb_timestamp : N;
}.

Definition Cutover_validate (c : Cutover) : res MessageError unit :=
  if decide (cut_coordinator_id c = "") then
    Err (MsgInvalidFormat "coordinator_id cannot be empty")
  else if (timeout c <=? cut_timestamp c)%N then
    Err (MsgInvalidFormat "timeout must be in the future")
  else if decide (length (coordinator_signature c) ≠ 64) then
    Err (MsgInvalidFormat "coordinator_signature must be 64 bytes")
  else Ok tt.

(** [clock] is the system time in seconds, [None] when it lies before 1970. *)
Definition Cutover_new (from to : bytes) (p : CutoverPhase) (coordinator : string) (term : N)
    (files : list bytes) (tmo : N) (sig : bytes) (clock : option N) : res MessageError Cutover :=
  let? now := ok_or clock (MsgTimestampError "System clock error") in
  let cutover := mkCutover from to p coordinator term files tmo ∅ sig now in
  let? _ := Cutover_validate cutover in
  Ok cutover.

Definition is_timed_out (current_time : N) (c : Cutover) : bool := (timeout c <? current_time)%N.

Definition add_ack (participant : string) (ack : bool) (c : Cutover) : Cutover :=
  mkCutover (cut_from_epoch_id c) (cut_to_epoch_id c) (cut_phase c) (cut_coordinator_id c)
    (cut_term c) (affected_files c) (timeout c) (<[participant := ack]> (acks c))
    (coordinator_signature c) (cut_timestamp c).

Definition all_acked (required : list string) (c : Cutover) : bool :=
  forallb (λ p, Bool.eqb (default false (acks c !! p)) true) required.

Definition CutoverRollback_validate (r : CutoverRollback) : res MessageError unit :=
  if decide (rb_coordinator_id r = "") then
    Err (MsgInvalidFormat "coordinator_id cannot be empty")
  else if decide (rb_reason r = "") then Err (MsgInvalidFormat "reason cannot be empty")
  else if decide (length (rb_signature r) ≠ 64) then
    Err (MsgInvalidFormat "signature must be 64 bytes")
  else Ok tt.

Definition CutoverRollback_new (from to : bytes) (coordinator : string) (files : list bytes)
    (reason : string) (recovery : gmap string bytes) (sig : bytes) (clock : option N)
  : res MessageError CutoverRollback :=
  let? now := ok_or clock (MsgTimestampError "System clock error") in
  let rollback := mkCutoverRollback from to coordinator files reason recovery sig now in
  let? _ := CutoverRollback_validate rollback in
  Ok rollback.

(** A message built by the constructors has the lengths of the wire format. *)
Lemma CutoverMessage_validate_Ok m :
  CutoverMessage_validate m = Ok tt ↔
  (length (from_epoch_id m) = 32 ∨ from_epoch_id m = []) ∧ length (to_epoch_id m) = 32
  ∧ (length (coverage_root m) = 32 ∨ coverage_root m = []) ∧ length (sender_key m) = 32
  ∧ (phase m = Vote → is_Some (vote m)).
Proof.
  unfold CutoverMessage_validate.
  destruct (decide (length (from_epoch_id m) = 32 ∨ from_epoch_id m = [])) as [H1|H1].
  2:{ rewrite !bool_decide_eq_true_2, bool_decide_eq_false_2 by tauto. cbn. naive_solver. }
  assert (bool_decide (length (from_epoch_id m) ≠ 32) && negb (bool_decide (from_epoch_id m = []))
          = false) as -> by (repeat case_bool_decide; cbn; tauto).
  destruct (decide (length (to_epoch_id m) ≠ 32)) as [?|H2]; [naive_solver|].
  destruct (decide (length (coverage_root m) = 32 ∨ coverage_root m = [])) as [H3|H3].
  2:{ rewrite !bool_decide_eq_true_2, bool_decide_eq_false_2 by tauto. cbn. naive_solver. }
  assert (bool_decide (length (coverage_root m) ≠ 32) && negb (bool_decide (coverage_root m = []))
          = false) as -> by (repeat case_bool_decide; cbn; tauto).
  destruct (decide (length (sender_key m) ≠ 32)) as [?|H4]; [naive_solver|].
  assert (length (to_epoch_id m) = 32) by lia. assert (length (sender_key m) = 32) by lia.
  repeat case_bool_decide; cbn; naive_solver.
Qed.

(** Acknowledgements: every required participant has acknowledged exactly when
    the last acknowledgement recorded for each of them is positive, so that a
    later negative one revokes an earlier one. *)
Theorem all_acked_spec (required : list string) (acked : list (string * bool)) (c : Cutover) :
  all_acked required (foldl (λ c '(p, a), add_ack p a c) c acked) = true ↔
  ∀ p, p ∈ required →
    match list_find (λ pa, pa.1 = p) (reverse acked) with
    | Some (_, (_, a)) => a = true
    | None => acks c !! p = Some true
    end.
Proof.
  assert (∀ p, acks (foldl (λ c '(p, a), add_ack p a c) c acked) !! p =
    match list_find (λ pa, pa.1 = p) (reverse acked) with
    | Some (_, (_, a)) => Some a
    | None => acks c !! p
    end) as Hacks.
  { intros p. induction acked as [|[q a] acked IH] using rev_ind; [done|].
    rewrite foldl_app, reverse_app. cbn [foldl reverse rev_append app].
    change (reverse [(q, a)] ++ reverse acked) with ((q, a) :: reverse acked).
    cbn [list_find fst add_ack acks]. case_decide as E.
    - subst. by rewrite lookup_insert_eq.
    - rewrite lookup_insert_ne by done. rewrite IH.
      by destruct (list_find _ (reverse acked)) as [[? []]|]. }
  unfold all_acked. rewrite forallb_forall. split.
  - intros H p Hp. apply list_elem_of_In in Hp. specialize (H p Hp). rewrite Hacks in H.
    destruct (list_find _ _) as [[? [? []]]|]; [done|done|].
    by destruct (acks c !! p) as [[]|].
  - intros H p Hp. apply list_elem_of_In in Hp. specialize (H p Hp). rewrite Hacks.
    destruct (list_find _ _) as [[? [? []]]|]; [done|done|]. by rewrite H.
Qed.
