(* ===== verification/FilePath.v ===== *)
(** * File names and identifiers ([crates/client/src/file/encrypt.rs],
      [crates/client/src/file/ciphertext.rs])

    The text functions of the Rust standard library that the file code uses
    (trimming of Unicode white space, splitting, ASCII case), the normalised
    file identifier, the file name that key wrapping authenticates, and the
    classification of [.encrypted] names.  A [string] is the UTF-8 encoding of
    a Rust [str]. *)

From Stdlib Require Import Strings.Byte Strings.Ascii.
From stdpp Require Import base tactics numbers list strings option.
From S2P Require Import Prelude.
Open Scope hc_scope.

(** ** [str] *)

Definition slash : Ascii.ascii := "/"%char.
Definition backslash : Ascii.ascii := "\"%char.

Definition code (a : Ascii.ascii) : N := Ascii.N_of_ascii a.

(** [char::is_whitespace] on the encodings of one, two and three bytes. *)
Definition ws1 (a : Ascii.ascii) : bool :=
  ((9 <=? code a) && (code a <=? 13) || (code a =? 32))%N.
Definition ws2 (a b : Ascii.ascii) : bool :=
  ((code a =? 194) && ((code b =? 133) || (code b =? 160)))%N.
Definition ws3 (a b c : Ascii.ascii) : bool :=
  ((code a =? 225) && (code b =? 154) && (code c =? 128)
   || (code a =? 226) && (code b =? 128)
      && ((128 <=? code c) && (code c <=? 138) || (code c =? 168) || (code c =? 169)
          || (code c =? 175))
   || (code a =? 226) && (code b =? 129) && (code c =? 159)
   || (code a =? 227) && (code b =? 128) && (code c =? 128))%N.

(** [str::trim_start], and the same on a reversed string. *)
Fixpoint trim_start (s : string) : string :=
  match s with
  | String a ((String b ((String c s3) as s2)) as s1) =>
      if ws1 a then trim_start s1
      else if ws2 a b then trim_start s2
      else if ws3 a b c then trim_start s3
      else s
  | String a ((String b s2) as s1) =>
      if ws1 a then trim_start s1 else if ws2 a b then trim_start s2 else s
  | String a s1 => if ws1 a then trim_start s1 else s
  | "" => ""
  end.
Fixpoint trim_start_rev (s : string) : string :=
  match s with
  | String a ((String b ((String c s3) as s2)) as s1) =>
      if ws1 a then trim_start_rev s1
      else if ws2 b a then trim_start_rev s2
      else if ws3 c b a then trim_start_rev s3
      else s
  | String a ((String b s2) as s1) =>
      if ws1 a then trim_start_rev s1 else if ws2 b a then trim_start_rev s2 else s
  | String a s1 => if ws1 a then trim_start_rev s1 else s
  | "" => ""
  end.
Definition trim (s : string) : string :=
  String.rev (trim_start_rev (String.rev (trim_start s))).

(** [str::replace] of one character by another. *)
Fixpoint replace_char (old new : Ascii.ascii) (s : string) : string :=
  match s with
  | "" => ""
  | String a s => String (if decide (a = old) then new else a) (replace_char old new s)
  end.

(** [str::split] at a set of characters. *)
Fixpoint split_on (sep : Ascii.ascii → bool) (s : string) : list string :=
  match s with
  | "" => [""]
  | String a s =>
      if sep a then "" :: split_on sep s
      else match split_on sep s with
           | part :: parts => String a part :: parts
           | [] => [String a ""]
           end
  end.
Definition is_char (c a : Ascii.ascii) : bool := bool_decide (a = c).

Definition starts_with_char (c : Ascii.ascii) (s : string) : bool :=
  match s with String a _ => is_char c a | "" => false end.

(** [str::strip_prefix]. *)
Fixpoint strip_prefix (p s : string) : option string :=
  match p, s with
  | EmptyString, _ => Some s
  | String a p, String b s => if decide (a = b) then strip_prefix p s else None
  | _, _ => None
  end.

(** [eq_ignore_ascii_case]. *)
Definition ascii_lower (a : Ascii.ascii) : Ascii.ascii :=
  if ((65 <=? code a) && (code a <=? 90))%N then Ascii.ascii_of_N (code a + 32) else a.
Fixpoint to_lower (s : string) : string :=
  match s with
  | "" => ""
  | String a s => String (ascii_lower a) (to_lower s)
  end.
Definition eq_ignore_ascii_case (s t : string) : bool := bool_decide (to_lower s = to_lower t).

(** ** Normalised identifiers ([encrypt.rs]) *)

Definition normalize_file_identifier (path : string) : string :=
  let trimmed := trim path in
  if decide (trimmed = "") then "/"
  else
    let replaced := replace_char backslash slash trimmed in
    let segments := filter (λ part, part ≠ "" ∧ part ≠ ".") (split_on (is_char slash) replaced) in
    let normalized := String.concat "/" segments in
    if starts_with_char slash replaced then
      if decide (normalized = "") then "/" else "/" +:+ normalized
    else if decide (normalized = "") then "/"
    else normalized.

(** The file name: the last segment that is not empty. *)
Definition aad_label_from_path (path : string) : string :=
  let normalized := normalize_file_identifier path in
  default "/" (head (filter (λ segment, segment ≠ "") (reverse (split_on (is_char slash) normalized)))).

(** ** Names of ciphertexts ([ciphertext.rs]) *)

Definition ENCRYPTED_SUFFIX : string := ".encrypted".
Definition FOLDER_RECORD_FILE_NAME : string := ".hybridcipher_dir.encrypted".

Inductive CiphertextKind := CkFile | CkFolderRecord | CkNotEncrypted.

#[export] Instance CiphertextKind_eq_dec : EqDecision CiphertextKind.
Proof. solve_decision. Defined.

(** [str::is_char_boundary]: no continuation byte at the position. *)
Definition is_char_boundary (n : nat) (s : string) : bool :=
  match String.get n s with
  | Some a => negb ((128 <=? code a) && (code a <=? 191))%N
  | None => n =? String.length s
  end.

Definition strip_encrypted_suffix (value : string) : option string :=
  if (String.length value <=? String.length ENCRYPTED_SUFFIX) then None
  else
    let split := String.length value - String.length ENCRYPTED_SUFFIX in
    if negb (is_char_boundary split value) then None
    else
      let body := String.substring 0 split value in
      let suffix := String.substring split (String.length value - split) value in
      if eq_ignore_ascii_case suffix ENCRYPTED_SUFFIX then Some body else None.

Definition classify_name (name : string) : CiphertextKind :=
  if eq_ignore_ascii_case name FOLDER_RECORD_FILE_NAME then CkFolderRecord
  else if decide (is_Some (strip_encrypted_suffix name)) then CkFile
  else CkNotEncrypted.

(** [rsplit(['/', '\\']).next()] is the part after the last separator. *)
Definition classify_relative (relative_path : string) : CiphertextKind :=
  classify_name (default relative_path
    (list.last (split_on (λ a, is_char slash a || is_char backslash a) relative_path))).

(** [classify] on the file name of a path, [None] when there is none or it is
    not UTF-8. *)
Definition classify (file_name : option string) : CiphertextKind :=
  match file_name with
  | Some name => classify_name name
  | None => CkNotEncrypted
  end.

Example normalize_examples :
  normalize_file_identifier "  .\docs//./a.txt " = "docs/a.txt"
  ∧ normalize_file_identifier "//" = "/" ∧ aad_label_from_path "/x/y/b.txt" = "b.txt"
  ∧ classify_name "Report.ENCRYPTED" = CkFile ∧ classify_relative "a\.HybridCipher_dir.encrypted" = CkFolderRecord
  ∧ classify_name ".encrypted" = CkNotEncrypted.
Proof. by vm_compute. Qed.

(** ** Splitting and joining *)

Definition avoids (c : Ascii.ascii) : string → bool := string_all (λ a, negb (is_char c a)).

Lemma string_app_cons a s t : String a s +:+ t = String a (s +:+ t).
Proof. done. Qed.

Lemma string_app_nil_r s : s +:+ "" = s.
Proof. induction s as [|a s IH]; [done|]. by rewrite string_app_cons, IH. Qed.

Lemma string_app_assoc (a b c : string) : (a +:+ b) +:+ c = a +:+ (b +:+ c).
Proof. induction a as [|x a IH]; [done|]. rewrite !string_app_cons. by rewrite IH. Qed.

Lemma strip_prefix_app p s : strip_prefix p (p +:+ s) = Some s.
Proof. induction p as [|a p IH]; [done|]. rewrite string_app_cons. simpl. by rewrite decide_True. Qed.
Lemma strip_prefix_Some p s r : strip_prefix p s = Some r ↔ s = p +:+ r.
Proof.
  split; [|intros ->; apply strip_prefix_app].
  revert s. induction p as [|a p IH]; intros [|b s] H; simpl in H; try done; [by injection H as <-..|].
  case_decide as E; [|done]. subst b. by rewrite (IH s H).
Qed.

Lemma split_on_cons sep s : ∃ part parts, split_on sep s = part :: parts.
Proof.
  induction s as [|a s IH]; cbn [split_on]; [eauto|].
  destruct (sep a); [eauto|]. destruct IH as (p & ps & ->). eauto.
Qed.

Lemma split_on_app sep s t part parts :
  string_all (λ a, negb (sep a)) s = true → split_on sep t = part :: parts →
  split_on sep (s +:+ t) = (s +:+ part) :: parts.
Proof.
  intros Hs Ht. induction s as [|a s IH]; [done|]. cbn in Hs. apply andb_true_iff in Hs as [Ha Hs].
  apply negb_true_iff in Ha. rewrite string_app_cons. cbn [split_on]. by rewrite Ha, (IH Hs).
Qed.

Lemma split_on_id sep s :
  string_all (λ a, negb (sep a)) s = true → split_on sep s = [s].
Proof.
  intros Hs. rewrite <-(string_app_nil_r s) at 1. erewrite split_on_app; [|done|done].
  by rewrite string_app_nil_r.
Qed.

Lemma split_on_concat sep c l :
  sep c = true → l ≠ [] → Forall (λ s, string_all (λ a, negb (sep a)) s = true) l →
  split_on sep (String.concat (String c "") l) = l.
Proof.
  intros Hc Hne Hl. induction l as [|s l IH]; [done|]. apply list.Forall_cons in Hl as [Hs Hl].
  destruct l as [|s' l]; [by apply split_on_id|].
  change (String.concat (String c "") (s :: s' :: l))
    with (s +:+ String c (String.concat (String c "") (s' :: l))).
  erewrite (split_on_app _ _ _ "" (s' :: l)); [by rewrite string_app_nil_r|done|].
  cbn [split_on]. rewrite Hc. f_equal. by apply IH.
Qed.

Lemma split_on_forall sep P s :
  string_all P s = true →
  Forall (λ part, string_all P part = true ∧ string_all (λ a, negb (sep a)) part = true)
         (split_on sep s).
Proof.
  induction s as [|a s IH]; cbn [split_on string_all]; intros Hs.
  { by repeat constructor. }
  apply andb_true_iff in Hs as [Ha Hs]. specialize (IH Hs).
  destruct (sep a) eqn:Hsep; [by constructor|].
  destruct (split_on_cons sep s) as (p & ps & E). rewrite E in *.
  apply list.Forall_cons in IH as [[Hp1 Hp2] Hps]. constructor; [|done].
  cbn. by rewrite Ha, Hp1, Hsep, Hp2.
Qed.

Lemma replace_char_avoids old new s : new ≠ old → avoids old (replace_char old new s) = true.
Proof.
  intros Hne. unfold avoids. induction s as [|a s IH]; [done|]. cbn. rewrite IH, andb_true_r.
  apply negb_true_iff, bool_decide_eq_false. by case_decide.
Qed.

Lemma replace_char_id old new s : avoids old s = true → replace_char old new s = s.
Proof.
  unfold avoids. induction s as [|a s IH]; [done|]. cbn. intros H.
  apply andb_true_iff in H as [Ha Hs]. apply negb_true_iff, bool_decide_eq_false in Ha.
  rewrite decide_False by done. by rewrite IH.
Qed.

Lemma avoids_app c s t : avoids c (s +:+ t) = avoids c s && avoids c t.
Proof. apply string_all_app. Qed.

Lemma avoids_concat c sep l :
  avoids c sep = true → Forall (λ s, avoids c s = true) l → avoids c (String.concat sep l) = true.
Proof.
  intros Hsep Hl. induction Hl as [|s l Hs Hl IH]; [done|].
  destruct l as [|s' l]; [done|].
  change (String.concat sep (s :: s' :: l)) with (s +:+ (sep +:+ String.concat sep (s' :: l))).
  by rewrite !avoids_app, Hs, Hsep, IH.
Qed.

(** ** The normal form *)

(** A segment that normalisation keeps as it is. *)
Definition clean_segment (s : string) : Prop :=
  s ≠ "" ∧ s ≠ "." ∧ avoids slash s = true ∧ avoids backslash s = true.

Definition normal_path (absolute : bool) (segments : list string) : string :=
  match segments with
  | [] => "/"
  | _ => (if absolute then "/" else "") +:+ String.concat "/" segments
  end.

Lemma concat_eq_empty segs :
  Forall clean_segment segs → String.concat "/" segs = "" ↔ segs = [].
Proof.
  intros Hc. split; [|by intros ->]. destruct segs as [|s l]; [done|].
  apply list.Forall_cons in Hc as [(Hs & _) _]. destruct s as [|a s]; [done|].
  by destruct l.
Qed.

Lemma normalize_normal_path p :
  ∃ absolute segs, Forall clean_segment segs ∧ normalize_file_identifier p = normal_path absolute segs.
Proof.
  unfold normalize_file_identifier. case_decide as Ht; [by exists true, []|].
  set (r := replace_char backslash slash (trim p)). set (segs := filter _ _).
  exists (starts_with_char slash r), segs.
  assert (Forall clean_segment segs) as Hc.
  { pose proof (split_on_forall (is_char slash) (λ a, negb (is_char backslash a)) r
      (replace_char_avoids backslash slash (trim p) ltac:(done))) as Hf.
    subst segs. apply list.Forall_forall. intros s Hs. apply list_elem_of_filter in Hs as [[? ?] Hs].
    rewrite list.Forall_forall in Hf. destruct (Hf s Hs). done. }
  split; [done|]. pose proof (concat_eq_empty segs Hc) as He.
  unfold normal_path. destruct segs as [|s l].
  - by destruct (starts_with_char slash r).
  - destruct (starts_with_char slash r); case_decide as H; try done; by apply He in H.
Qed.

Lemma split_normal_path absolute segs :
  Forall clean_segment segs → segs ≠ [] →
  split_on (is_char slash) (normal_path absolute segs) = (if absolute then [""] else []) ++ segs.
Proof.
  intros Hc Hne. destruct segs as [|s l]; [done|]. cbn [normal_path].
  assert (split_on (is_char slash) (String.concat "/" (s :: l)) = s :: l) as E.
  { apply (split_on_concat _ slash); [done|done|].
    eapply list.Forall_impl; [exact Hc|]. by intros x (_ & _ & Hx & _). }
  destruct absolute; [|done]. cbn [app]. change ("/" +:+ String.concat "/" (s :: l))
    with (String slash (String.concat "/" (s :: l))). cbn [split_on]. by rewrite E.
Qed.

Lemma filter_clean segs :
  Forall clean_segment segs → filter (λ part, part ≠ "" ∧ part ≠ ".") segs = segs.
Proof.
  induction 1 as [|s l (Hs & Hd & _) Hl IH]; [done|]. rewrite filter_cons_True by done. by rewrite IH.
Qed.

Lemma normalize_canonical absolute segs :
  Forall clean_segment segs → trim (normal_path absolute segs) = normal_path absolute segs →
  normalize_file_identifier (normal_path absolute segs) = normal_path absolute segs.
Proof.
  intros Hc Ht. unfold normalize_file_identifier. rewrite Ht.
  destruct segs as [|s l]; [done|]. remember (s :: l) as segs eqn:Es.
  assert (segs ≠ []) as Hne by (by subst).
  assert (String.concat "/" segs ≠ "") as Hne'
    by (intros E; by apply concat_eq_empty in E).
  assert (avoids backslash (normal_path absolute segs) = true) as Hb.
  { subst segs. cbn [normal_path]. rewrite avoids_app, andb_true_iff.
    split; [by destruct absolute|]. apply avoids_concat; [done|].
    eapply list.Forall_impl; [exact Hc|]. by intros x (_ & _ & _ & Hx). }
  rewrite replace_char_id by done. rewrite split_normal_path by done.
  rewrite list.filter_app, (filter_clean segs) by done.
  replace (filter _ (if absolute then [""] else [])) with (@nil string) by (by destruct absolute).
  rewrite app_nil_l.
  assert (normal_path absolute segs = (if absolute then "/" else "") +:+ String.concat "/" segs)
    as E by (by subst segs).
  rewrite decide_False.
  2:{ rewrite E. by destruct absolute. }
  rewrite E. destruct absolute.
  - change (starts_with_char slash ("/" +:+ String.concat "/" segs)) with true. cbv iota.
    by rewrite decide_False.
  - change ("" +:+ String.concat "/" segs) with (String.concat "/" segs).
    assert (starts_with_char slash (String.concat "/" segs) = false) as ->.
    { subst segs. apply list.Forall_cons in Hc as [(Hs & _ & Hsl & _) _].
      destruct s as [|a s]; [done|]. cbn in Hsl. apply andb_true_iff in Hsl as [Ha _].
      apply negb_true_iff in Ha. by destruct l. }
    by rewrite decide_False.
Qed.

(** Normalised identifiers are canonical: the result is the root or a sequence
    of segments that are neither empty nor [.] and contain no separator, and
    normalising it again changes nothing unless it begins or ends with white
    space. *)
Theorem normalize_idempotent (p : string) :
  trim (normalize_file_identifier p) = normalize_file_identifier p →
  normalize_file_identifier (normalize_file_identifier p) = normalize_file_identifier p
  ∧ ∃ absolute segs, Forall clean_segment segs
      ∧ normalize_file_identifier p = normal_path absolute segs.
Proof.
  intros Ht. destruct (normalize_normal_path p) as (absolute & segs & Hc & E).
  split; [|by eauto]. rewrite E in *. by apply normalize_canonical.
Qed.

(** The file name of a normal path. *)
Lemma aad_label_normal absolute segs name :
  Forall clean_segment (segs ++ [name]) →
  trim (normal_path absolute (segs ++ [name])) = normal_path absolute (segs ++ [name]) →
  aad_label_from_path (normal_path absolute (segs ++ [name])) = name.
Proof.
  intros Hc Ht. unfold aad_label_from_path. rewrite normalize_canonical by done.
  rewrite split_normal_path; [|done|by destruct segs].
  apply Forall_app in Hc as [_ Hn]. apply list.Forall_cons in Hn as [(Hn & _) _].
  rewrite app_assoc, reverse_snoc. by rewrite filter_cons_True.
Qed.

Lemma normalize_not_idempotent :
  normalize_file_identifier "./ ./ b" = " ./ b"
  ∧ normalize_file_identifier " ./ b" = " b" ∧ normalize_file_identifier " b" = "b".
Proof. by vm_compute. Qed.

(** *** Suffixes *)

Lemma string_length_app s t : String.length (s +:+ t) = String.length s + String.length t.
Proof. induction s as [|a s IH]; [done|]. rewrite string_app_cons. cbn. by rewrite IH. Qed.

Lemma substring_app_l s t : String.substring 0 (String.length s) (s +:+ t) = s.
Proof.
  induction s as [|a s IH]; [by destruct t|]. rewrite string_app_cons. cbn. by rewrite IH.
Qed.

Lemma substring_all s : String.substring 0 (String.length s) s = s.
Proof. rewrite <-(string_app_nil_r s) at 2. apply substring_app_l. Qed.

Lemma substring_app_r s t :
  String.substring (String.length s) (String.length t) (s +:+ t) = t.
Proof.
  induction s as [|a s IH]; [apply substring_all|]. rewrite string_app_cons. cbn. by rewrite IH.
Qed.

Lemma string_split_at n s :
  n ≤ String.length s →
  ∃ u v, s = u +:+ v ∧ String.length u = n.
Proof.
  revert s. induction n as [|n IH]; intros s Hn; [by exists "", s|].
  destruct s as [|a s]; cbn in Hn; [lia|]. destruct (IH s) as (u & v & -> & Hu); [lia|].
  exists (String a u), v. split; [done|]. cbn. by rewrite Hu.
Qed.

Lemma get_app_r s a t : String.get (String.length s) (s +:+ String a t) = Some a.
Proof. induction s as [|b s IH]; [done|]. rewrite string_app_cons. cbn. done. Qed.

Lemma to_lower_length s : String.length (to_lower s) = String.length s.
Proof. induction s as [|a s IH]; cbn; auto. Qed.

Lemma code_lt a : (code a < 256)%N.
Proof. apply Ascii.N_ascii_bounded. Qed.

(** Lower-casing leaves the byte of a full stop to full stops alone. *)
Lemma ascii_lower_dot a : ascii_lower a = "."%char → a = "."%char.
Proof.
  unfold ascii_lower. case_match eqn:E; [|done]. apply andb_true_iff in E as [E1 E2].
  apply N.leb_le in E1, E2. intros H. apply (f_equal Ascii.N_of_ascii) in H.
  rewrite Ascii.N_ascii_embedding in H by lia. change (Ascii.N_of_ascii ".") with 46%N in H. lia.
Qed.

Lemma strip_suffix_app body suffix :
  body ≠ "" → to_lower suffix = ENCRYPTED_SUFFIX →
  strip_encrypted_suffix (body +:+ suffix) = Some body.
Proof.
  intros Hb Hs. pose proof (to_lower_length suffix) as Hl. rewrite Hs in Hl.
  assert (0 < String.length body) by (destruct body; [done|cbn; lia]).
  unfold strip_encrypted_suffix. rewrite string_length_app, <-Hl.
  destruct (Nat.leb_spec (String.length body + String.length ENCRYPTED_SUFFIX)
              (String.length ENCRYPTED_SUFFIX)); [lia|].
  replace (_ + _ - _) with (String.length body) by lia.
  replace (_ + _ - _) with (String.length suffix) by lia.
  rewrite substring_app_l, substring_app_r. unfold eq_ignore_ascii_case. rewrite Hs.
  rewrite bool_decide_eq_true_2 by done.
  destruct suffix as [|a suffix]; [done|]. injection Hs as Ha _. apply ascii_lower_dot in Ha as ->.
  unfold is_char_boundary. by rewrite get_app_r.
Qed.

(** Stripping the suffix is exact: a name yields a body exactly when it is
    that non-empty body followed by [.encrypted] in any letter case, so that
    adding the suffix to a name and stripping it gives the name back. *)
Theorem strip_encrypted_suffix_spec (value body : string) :
  strip_encrypted_suffix value = Some body ↔
  ∃ suffix, value = body +:+ suffix ∧ body ≠ "" ∧ to_lower suffix = ENCRYPTED_SUFFIX.
Proof.
  split; [|intros (suffix & -> & Hb & Hs); by apply strip_suffix_app].
  unfold strip_encrypted_suffix. intros H.
  destruct (Nat.leb_spec (String.length value) (String.length ENCRYPTED_SUFFIX)); [done|].
  destruct (negb _); [done|].
  destruct (string_split_at (String.length value - String.length ENCRYPTED_SUFFIX) value)
    as (u & v & -> & Hu); [lia|].
  rewrite <-Hu in H. rewrite string_length_app in *.
  replace (_ + _ - _) with (String.length v) in H by lia.
  rewrite substring_app_l, substring_app_r in H. case_match eqn:He; [|done]. injection H as <-.
  apply bool_decide_eq_true in He. exists v. split_and!; [done| |exact He].
  intros ->. cbn in *. lia.
Qed.

Lemma normalize_idempotent_witness :
  normalize_file_identifier (normalize_file_identifier " ./a//b c\d.txt") = "a/b c/d.txt"
  ∧ ∃ absolute segs, Forall clean_segment segs
      ∧ normalize_file_identifier " ./a//b c\d.txt" = normal_path absolute segs.
Proof.
  destruct (normalize_idempotent " ./a//b c\d.txt") as [E H]; [vm_compute; reflexivity|].
  split; [|exact H]. rewrite E. vm_compute. reflexivity.
Defined.
