(* ===== verification/Storage.v ===== *)
(** * Storage ([crates/client/src/storage/mod.rs],
      [crates/client/src/storage/mock.rs])

    The storage trait, as the type classes [Storage] and [StorageLaws] against
    which the cutover coordinator, the migration manager and the file managers
    are modelled, and [MockStorage], the in-memory store.  [LocalFsStorage]
    delegates epoch states and keys to a [MockStorage], so this is also what a
    running client keeps its epochs in.  A method that reads the clock takes it
    as an argument. *)

From Stdlib Require Import Strings.Byte.
From stdpp Require Import base tactics numbers sets list gmap strings pretty option sorting.
From S2P Require Import Prelude Crypto EpochState FilePath.
Open Scope hc_scope.

(** ** Data *)

Inductive StorageError :=
| StIo (msg : string)
| StSerialization (msg : string)
| StEncryption (msg : string)
| StKeyNotFound (msg : string)
| StCorruption (msg : string)
| StTransaction (msg : string)
| StStorageFull
| StAccessDenied (msg : string)
| StVersionMismatch (msg : string)
| StBackup (msg : string)
| StNotFound (msg : string)
| StDeserializationError (msg : string)
| StInvalidData (msg : string)
| StSerializationError (msg : string)
| StFileIndexUnavailable (msg : string).

Definition StorageError_display (e : StorageError) : string :=
  match e with
  | StIo msg => "Storage I/O error: " +:+ msg
  | StSerialization msg => "Serialization error: " +:+ msg
  | StEncryption msg => "Encryption error: " +:+ msg
  | StKeyNotFound msg => "Key not found: " +:+ msg
  | StCorruption msg => "Data corruption detected: " +:+ msg
  | StTransaction msg => "Transaction error: " +:+ msg
  | StStorageFull => "Storage full or quota exceeded"
  | StAccessDenied msg => "Access denied: " +:+ msg
  | StVersionMismatch msg => "Version incompatibility: " +:+ msg
  | StBackup msg => "Backup/restore error: " +:+ msg
  | StNotFound msg => "Item not found: " +:+ msg
  | StDeserializationError msg => "Deserialization error: " +:+ msg
  | StInvalidData msg => "Invalid data: " +:+ msg
  | StSerializationError msg => "Serialization error: " +:+ msg
  | StFileIndexUnavailable msg => "File index unavailable: " +:+ msg
  end.

Record CapabilityData := mkCapabilityData {
  cd_read : bool;
  cd_write : bool;
  cd_invite : bool;
  cd_rekey : bool;
  cd_remove : bool;
}.

Record MemberData := mkMemberData {
  md_member_id : array 32;
  md_public_key : array 32;
  md_capabilities : CapabilityData;
  md_joined_at : Z;
}.

Record EpochStateData := mkEpochStateData {
  ed_epoch_id : N;
  ed_encrypted_key : bytes;
  ed_key_source : EpochKeySource;
  ed_members : list MemberData;
  ed_created_at : Z;
  ed_is_active : bool;
  ed_file_count : N;
  ed_version : N;
}.

Record AccessControlData := mkAccessControlData {
  ac_readers : list (array 32);
  ac_writers : list (array 32);
  ac_is_public : bool;
}.

Record FileMetadataData := mkFileMetadataData {
  fd_file_path : string;
  fd_file_id : option string;
  fd_group_id : option Uuid;
  fd_epoch_id : N;
  fd_header_version : option N;
  fd_wrapped_file_key : option bytes;
  fd_key_wrap_nonce : option bytes;
  fd_key_wrap_aad_hash : option bytes;
  fd_content_nonce : option bytes;
  fd_content_chunk_size : option N;
  fd_algorithm : string;
  fd_file_size : N;
  fd_modified_at : Z;
  fd_integrity_hash : array 32;
  fd_permissions : AccessControlData;
  fd_version : N;
  fd_chunks : bytes;
  fd_encrypted_size : N;
  fd_encrypted_at : Z;
}.

Record CoverageLogData := mkCoverageLogData {
  cl_root_hash : array 32;
  cl_tree_nodes : bytes;
  cl_file_epochs : gmap string N;
  cl_sequence : N;
  cl_updated_at : Z;
  cl_version : N;
}.

Inductive CoverageDeltaAction := DeltaUpsert | DeltaRemove.

Record CoverageLogDeltaData := mkCoverageLogDeltaData {
  dl_sequence : N;
  dl_file_id : string;
  dl_epoch_id : N;
  dl_from_epoch : option N;
  dl_updated_at : Z;
  dl_rewrap_timestamp : option Z;
  dl_action : CoverageDeltaAction;
}.

Inductive FileCoverageState := FcTracked | FcOrphaned | FcTombstoned | FcUnmanaged.
Inductive FileOrphanKind := OkWrongEpoch | OkMissingFile | OkMissingMetadata | OkOutcast.

Record FileIndexEntry := mkFileIndexEntry {
  ix_file_uuid : Uuid;
  ix_file_id : option string;
  ix_root_id : Uuid;
  ix_relative_path : string;
  ix_size : N;
  ix_last_epoch : N;
  ix_checksum_hint : option string;
  ix_last_seen : Z;
  ix_state : FileCoverageState;
  ix_orphan_kind : option FileOrphanKind;
}.

(** [file::FileMetadata]. *)
Record FileMetadata := mkFileMetadata {
  tf_path : string;
  tf_size : N;
  tf_epoch_id : N;
  tf_last_access : Z;
  tf_last_modified : Z;
  tf_access_count : N;
  tf_pending_rewrap : bool;
  tf_checksum : bytes;
}.

(** [messages::welcome::EpochSecrets]. *)
Record EpochSecrets := mkEpochSecrets {
  es_epoch_key : bytes;
  es_signing_key : bytes;
  es_previous_keys : gmap N bytes;
}.

(** [epoch::welcome::WelcomeError], [WelcomeResult] and [WelcomeRecord]. *)
Inductive WelcomeError :=
| WInvalidMessage (msg : string)
| WStorage (msg : string)
| WDecryptionFailed (msg : string)
| WSignatureVerificationFailed (msg : string)
| WKeyMismatch (msg : string)
| WMessageTooOld (msg : string)
| WEpochExpired (msg : string)
| WWrongRecipient (msg : string)
| WMaxRetriesExceeded (msg : string)
| WCrypto (msg : string).

Record WelcomeResult := mkWelcomeResult {
  processed_epochs : list N;
  pending_epochs : list N;
  welcome_errors : list WelcomeError;
  member_activated : bool;
}.

Record WelcomeRecord := mkWelcomeRecord {
  wr_epoch_id : N;
  wr_recipient_device_id : string;
  wr_processed_at : Z;
  wr_signature : bytes;
  wr_result : WelcomeResult;
}.

(** ** The trait

    What the components of this library call of it.  A load can read the clock
    (the [updated_at] of what it returns); one reading stands for the readings
    of one call. *)
Class Storage (S : Type) := {
  load_epoch_state : N → Z → S → res StorageError EpochState;
  load_epoch_state_data : N → S → res StorageError (option EpochStateData);
  store_epoch_state : EpochState → S → res StorageError unit * S;
  list_active_epochs : Z → S → res StorageError (list EpochState);
  get_current_epoch_id : S → res StorageError N;
  store_epoch_keys : N → EpochSecrets → S → res StorageError unit * S;
  store_welcome_record : WelcomeRecord → S → res StorageError unit * S;
  load_welcome_record : N → string → S → res StorageError WelcomeRecord;
  store_file_metadata : string → FileMetadataData → S → res StorageError unit * S;
  load_file_metadata : string → S → res StorageError (option FileMetadataData);
  get_file : string → S → res StorageError (option bytes);
}.

(** What its clients rely on: a stored epoch is found again with its key, stores do
    not touch other epochs, and file metadata is found under its path. *)
Class StorageLaws (S : Type) `{Storage S} : Prop := {
  load_store_same e now s s' :
    store_epoch_state e s = (Ok tt, s') →
    ∃ e', load_epoch_state (epoch_id e) now s' = Ok e'
      ∧ epoch_id e' = epoch_id e ∧ encryption_key e' = encryption_key e
      ∧ key_source e' = key_source e;
  load_store_other e now s r s' id :
    store_epoch_state e s = (r, s') → id ≠ epoch_id e →
    load_epoch_state id now s' = load_epoch_state id now s;
  data_store_same e s s' :
    store_epoch_state e s = (Ok tt, s') →
    ∃ d, load_epoch_state_data (epoch_id e) s' = Ok (Some d)
      ∧ ed_encrypted_key d = arr (encryption_key e) ∧ ed_key_source d = key_source e;
  load_store_keys id id' secrets now s r s' :
    store_epoch_keys id secrets s = (r, s') →
    load_epoch_state id' now s' = load_epoch_state id' now s;
  metadata_store_load path m s s' :
    store_file_metadata path m s = (Ok tt, s') → load_file_metadata path s' = Ok (Some m);
  metadata_store_epoch path m s r s' id :
    store_file_metadata path m s = (r, s') → load_epoch_state_data id s' = load_epoch_state_data id s;
  metadata_store_file path path' m s r s' :
    store_file_metadata path m s = (r, s') → get_file path' s' = get_file path' s;
}.

(** ** The in-memory store

    [serde_json] is a parameter: it turns the records kept as configuration
    text into text and back. *)
Class StorageJson := {
  welcome_record_to_json : WelcomeRecord → res string string;
  welcome_record_from_json : string → res string WelcomeRecord;
  epoch_secrets_to_json : EpochSecrets → res string string;
  delta_to_json : CoverageLogDeltaData → res string bytes;
}.

Record MockStorage := mkMockStorage {
  identity_keys : gmap string bytes;
  epoch_states : gmap N EpochStateData;
  file_metadata : gmap string FileMetadataData;
  file_index : gmap Uuid FileIndexEntry;
  coverage_log : gmap Uuid CoverageLogData;
  coverage_deltas : gmap Uuid (list CoverageLogDeltaData);
  config : gmap string string;
  transaction_count : N;
  file_content : gmap string bytes;
  typed_file_metadata : gmap string FileMetadata;
}.

Definition MockStorage_new : MockStorage := mkMockStorage ∅ ∅ ∅ ∅ ∅ ∅ ∅ 0 ∅ ∅.
Definition mock_clear (s : MockStorage) : MockStorage := MockStorage_new.

Section Setters.
Implicit Types s : MockStorage.
Definition with_identity_keys m s := mkMockStorage m (epoch_states s) (file_metadata s) (file_index s) (coverage_log s) (coverage_deltas s) (config s) (transaction_count s) (file_content s) (typed_file_metadata s).
Definition with_epoch_states m s := mkMockStorage (identity_keys s) m (file_metadata s) (file_index s) (coverage_log s) (coverage_deltas s) (config s) (transaction_count s) (file_content s) (typed_file_metadata s).
Definition with_file_metadata m s := mkMockStorage (identity_keys s) (epoch_states s) m (file_index s) (coverage_log s) (coverage_deltas s) (config s) (transaction_count s) (file_content s) (typed_file_metadata s).
Definition with_file_index m s := mkMockStorage (identity_keys s) (epoch_states s) (file_metadata s) m (coverage_log s) (coverage_deltas s) (config s) (transaction_count s) (file_content s) (typed_file_metadata s).
Definition with_coverage_log m s := mkMockStorage (identity_keys s) (epoch_states s) (file_metadata s) (file_index s) m (coverage_deltas s) (config s) (transaction_count s) (file_content s) (typed_file_metadata s).
Definition with_coverage_deltas m s := mkMockStorage (identity_keys s) (epoch_states s) (file_metadata s) (file_index s) (coverage_log s) m (config s) (transaction_count s) (file_content s) (typed_file_metadata s).
Definition with_config m s := mkMockStorage (identity_keys s) (epoch_states s) (file_metadata s) (file_index s) (coverage_log s) (coverage_deltas s) m (transaction_count s) (file_content s) (typed_file_metadata s).
Definition with_transaction_count n s := mkMockStorage (identity_keys s) (epoch_states s) (file_metadata s) (file_index s) (coverage_log s) (coverage_deltas s) (config s) n (file_content s) (typed_file_metadata s).
Definition with_file_content m s := mkMockStorage (identity_keys s) (epoch_states s) (file_metadata s) (file_index s) (coverage_log s) (coverage_deltas s) (config s) (transaction_count s) m (typed_file_metadata s).
Definition with_typed_file_metadata m s := mkMockStorage (identity_keys s) (epoch_states s) (file_metadata s) (file_index s) (coverage_log s) (coverage_deltas s) (config s) (transaction_count s) (file_content s) m.
End Setters.

Section Mock.
Context {ho : HashOrder} {json : StorageJson}.
Implicit Types s : MockStorage.

Definition normalize_file_index_path (path : string) : string :=
  default path (strip_encrypted_suffix path).

Definition data_size s : nat :=
  size (identity_keys s) + size (epoch_states s) + size (file_metadata s) + size (file_content s)
  + size (typed_file_metadata s).

(** Writes of one map, in [Ok]. *)
Definition mock_store_identity_key (device_id : string) (key : bytes) s : MockStorage :=
  with_identity_keys (<[device_id := key]> (identity_keys s)) s.
Definition mock_load_identity_key (device_id : string) s : option bytes :=
  identity_keys s !! device_id.

Definition mock_store_epoch_state_data (id : N) (d : EpochStateData) s : MockStorage :=
  with_epoch_states (<[id := d]> (epoch_states s)) s.
Definition mock_load_epoch_state_data (id : N) s : res StorageError (option EpochStateData) :=
  Ok (epoch_states s !! id).

Definition mock_list_epochs s : list N := merge_sort N.le (hash_order (epoch_states s)).*1.
Definition mock_get_current_epoch_id s : res StorageError N :=
  match (hash_order (epoch_states s)).*1 with
  | [] => Err (StNotFound "No epochs found")
  | k :: ks => Ok (foldr N.max k ks)
  end.

Definition mock_store_file_metadata (path : string) (m : FileMetadataData) s
    : res StorageError unit * MockStorage :=
  (Ok tt, with_file_metadata (<[path := m]> (file_metadata s)) s).
Definition mock_load_file_metadata (path : string) s : res StorageError (option FileMetadataData) :=
  Ok (file_metadata s !! path).
Definition mock_store_file_metadata_batch (batch : gmap string FileMetadataData) s : MockStorage :=
  with_file_metadata
    (foldl (λ m kv, <[kv.1 := kv.2]> m) (file_metadata s) (hash_order batch)) s.

Definition mock_list_files (pre : option string) s : list string :=
  let keys := (hash_order (file_metadata s)).*1 in
  merge_sort String.le
    match pre with
    | Some p => filter (λ path, String.prefix p path = true) keys
    | None => keys
    end.

Definition mock_store_file_index_entry (e : FileIndexEntry) s : MockStorage :=
  with_file_index (<[ix_file_uuid e := e]> (file_index s)) s.
Definition mock_store_file_index_entries (es : list FileIndexEntry) s : MockStorage :=
  with_file_index (foldl (λ m e, <[ix_file_uuid e := e]> m) (file_index s) es) s.
Definition mock_replace_file_index_entries_for_root (root : Uuid) (es : list FileIndexEntry) s
    : MockStorage :=
  with_file_index
    (foldl (λ m e, <[ix_file_uuid e := e]> m)
       (filter (λ kv, ix_root_id kv.2 ≠ root) (file_index s)) es) s.
Definition mock_load_file_index_entry (id : Uuid) s : option FileIndexEntry := file_index s !! id.
Definition mock_load_file_index_entry_by_root_path (root : Uuid) (path : string) s
    : option FileIndexEntry :=
  let target := normalize_file_index_path path in
  snd <$> list_find (λ e, ix_root_id e = root
                          ∧ normalize_file_index_path (ix_relative_path e) = target)
            (hash_order (file_index s)).*2.
Definition mock_list_file_index_entries_by_root (root : Uuid) s : list FileIndexEntry :=
  filter (λ e, ix_root_id e = root) (hash_order (file_index s)).*2.
Definition mock_remove_file_index_entry (id : Uuid) s : MockStorage :=
  with_file_index (delete id (file_index s)) s.

Definition mock_store_coverage_log (group : Uuid) (l : CoverageLogData) s : MockStorage :=
  with_coverage_log (<[group := l]> (coverage_log s)) s.
Definition mock_load_coverage_log (group : Uuid) (now : Z) s : CoverageLogData :=
  default (mkCoverageLogData (zeros 32) [] ∅ 0 now 1) (coverage_log s !! group).
Definition mock_append_coverage_log_delta (group : Uuid) (d : CoverageLogDeltaData) s
    : MockStorage :=
  with_coverage_deltas
    (<[group := default [] (coverage_deltas s !! group) ++ [d]]> (coverage_deltas s)) s.
Definition mock_load_coverage_log_deltas (group : Uuid) (since : N) s
    : list CoverageLogDeltaData :=
  filter (λ d, since < dl_sequence d)%N (default [] (coverage_deltas s !! group)).
Definition mock_compact_coverage_log_deltas (group : Uuid) (up_to : N) s : MockStorage :=
  match coverage_deltas s !! group with
  | Some ds =>
      with_coverage_deltas
        (<[group := filter (λ d, up_to < dl_sequence d)%N ds]> (coverage_deltas s)) s
  | None => s
  end.

Fixpoint journal_size (ds : list CoverageLogDeltaData) (size : N) : res StorageError N :=
  match ds with
  | [] => Ok size
  | d :: ds =>
      let? line := map_err (λ e, StSerialization ("failed to serialize coverage log delta: " +:+ e))
                     (delta_to_json d) in
      journal_size ds (u64_saturating_add (u64_saturating_add size (N.of_nat (length line))) 1)
  end.
Definition mock_coverage_log_journal_size (group : Uuid) s : res StorageError N :=
  match coverage_deltas s !! group with
  | None => Ok 0%N
  | Some ds => journal_size ds 0
  end.

Definition mock_store_file (path : string) (content : bytes) s : MockStorage :=
  with_file_content (<[path := content]> (file_content s)) s.
Definition mock_get_file (path : string) s : res StorageError (option bytes) :=
  Ok (file_content s !! path).
Definition mock_get_file_metadata (path : string) s : option FileMetadata :=
  typed_file_metadata s !! path.
Definition mock_delete_file (path : string) s : MockStorage :=
  with_file_metadata (delete path (file_metadata s))
    (with_typed_file_metadata (delete path (typed_file_metadata s))
       (with_file_content (delete path (file_content s)) s)).

Definition mock_store_config (key value : string) s : MockStorage :=
  with_config (<[key := value]> (config s)) s.
Definition mock_create_protected_config_if_absent (key value : string) s : bool * MockStorage :=
  match config s !! key with
  | Some _ => (false, s)
  | None => (true, mock_store_config key value s)
  end.
Definition mock_load_config (key : string) s : option string := config s !! key.
Definition mock_delete_config (key : string) s : MockStorage := with_config (delete key (config s)) s.

(** *** Epochs *)

Definition array_or_zero (b : bytes) : array 32 := default (zeros 32) (array_of 32 b).

Definition to_member_data (kv : bytes * Member) : MemberData :=
  let caps := capabilities kv.2 in
  mkMemberData (array_or_zero kv.1) (array_or_zero (public_key kv.2))
    (mkCapabilityData (cap_read caps) (cap_write caps) (cap_invite caps) (cap_rekey caps)
       (cap_remove caps))
    (joined_at kv.2).

Definition to_epoch_data (e : EpochState) : EpochStateData :=
  mkEpochStateData (epoch_id e) (arr (encryption_key e)) (key_source e)
    (to_member_data <$> hash_order (members e)) (created_at e)
    (match status e with Active _ => true | _ => false end) (file_count e) 1.

Definition mock_store_epoch_state (e : EpochState) s : res StorageError unit * MockStorage :=
  (Ok tt, with_epoch_states (<[epoch_id e := to_epoch_data e]> (epoch_states s)) s).

Definition from_member_data (now : Z) (d : MemberData) : Member :=
  let caps := md_capabilities d in
  mkMember (arr (md_member_id d)) (arr (md_public_key d)) MemberActive
    (mkMemberCapabilities (cd_read caps) (cd_write caps) (cd_invite caps) (cd_rekey caps)
       (cd_remove caps) false)
    (md_joined_at d) now.

Definition load_members (now : Z) (ds : list MemberData) : gmap bytes Member :=
  foldl (λ m d, <[arr (md_member_id d) := from_member_data now d]> m) ∅ ds.

Definition loaded_status (id : N) (d : EpochStateData) : EpochStatus :=
  if ed_is_active d then Active (ed_created_at d)
  else Deprecated (ed_created_at d) (u64_wrap (id + 1)).

Definition mock_load_epoch_state (id : N) (now : Z) s : res StorageError EpochState :=
  match epoch_states s !! id with
  | None => Err (StNotFound ("Epoch " +:+ pretty id +:+ " not found"))
  | Some d =>
      match array_of 32 (ed_encrypted_key d) with
      | None => Err (StInvalidData "Invalid encryption key length")
      | Some key =>
          Ok (mkEpochState (ed_epoch_id d) key (ed_key_source d) (load_members now (ed_members d))
                (loaded_status id d) (ed_created_at d) now (ed_file_count d) EpochMetadata_default)
      end
  end.

Definition epoch_id_le (a b : EpochState) : Prop := (epoch_id a ≤ epoch_id b)%N.
#[export] Instance epoch_id_le_dec : RelDecision epoch_id_le.
Proof. intros a b. unfold epoch_id_le. apply _. Defined.

Definition active_epochs (now : Z) s : list EpochState :=
  omap (λ kv, if ed_is_active kv.2
              then match mock_load_epoch_state kv.1 now s with Ok e => Some e | _ => None end
              else None)
    (hash_order (epoch_states s)).
Definition mock_list_active_epochs (now : Z) s : res StorageError (list EpochState) :=
  Ok (merge_sort epoch_id_le (active_epochs now s)).

(** *** Welcome records and epoch keys, kept with the configuration *)

Definition welcome_key (id : N) (device : string) : string :=
  "welcome_" +:+ pretty id +:+ "_" +:+ device.
Definition epoch_keys_key (id : N) : string := "epoch_keys_" +:+ pretty id.

Definition mock_store_welcome_record (r : WelcomeRecord) s : res StorageError unit * MockStorage :=
  match map_err (λ e, StSerializationError ("Failed to serialize Welcome record: " +:+ e))
          (welcome_record_to_json r) with
  | Ok value =>
      (Ok tt, mock_store_config (welcome_key (wr_epoch_id r) (wr_recipient_device_id r)) value s)
  | Err e => (Err e, s)
  | Panic => (Panic, s)
  | Diverge => (Diverge, s)
  end.

Definition mock_load_welcome_record (id : N) (device : string) s
    : res StorageError WelcomeRecord :=
  match config s !! welcome_key id device with
  | None => Err (StNotFound ("Welcome record not found for epoch " +:+ pretty id
                             +:+ " device " +:+ device))
  | Some value =>
      map_err (λ e, StDeserializationError ("Failed to deserialize Welcome record: " +:+ e))
        (welcome_record_from_json value)
  end.

Definition mock_store_epoch_keys (id : N) (secrets : EpochSecrets) s
    : res StorageError unit * MockStorage :=
  match map_err (λ e, StSerializationError ("Failed to serialize epoch secrets: " +:+ e))
          (epoch_secrets_to_json secrets) with
  | Ok value => (Ok tt, mock_store_config (epoch_keys_key id) value s)
  | Err e => (Err e, s)
  | Panic => (Panic, s)
  | Diverge => (Diverge, s)
  end.

(** *** Transactions: every operation is applied at once, a rollback undoes nothing *)

Inductive tx_op :=
| TxStoreEpochState (id : N) (d : EpochStateData)
| TxStoreFileMetadata (path : string) (m : FileMetadataData)
| TxStoreCoverageLog (group : Uuid) (l : CoverageLogData)
| TxAppendCoverageLogDelta (group : Uuid) (d : CoverageLogDeltaData)
| TxStoreFile (path : string) (content : bytes)
| TxStoreFileMetadataTyped (path : string) (m : FileMetadata)
| TxCommit
| TxRollback.

Definition mock_begin_transaction s : MockStorage :=
  with_transaction_count (u64_wrap (transaction_count s + 1)) s.

Definition apply_tx (o : tx_op) s : MockStorage :=
  match o with
  | TxStoreEpochState id d => mock_store_epoch_state_data id d s
  | TxStoreFileMetadata path m => with_file_metadata (<[path := m]> (file_metadata s)) s
  | TxStoreCoverageLog group l => mock_store_coverage_log group l s
  | TxAppendCoverageLogDelta group d => mock_append_coverage_log_delta group d s
  | TxStoreFile path content => mock_store_file path content s
  | TxStoreFileMetadataTyped path m =>
      with_typed_file_metadata (<[path := m]> (typed_file_metadata s)) s
  | TxCommit | TxRollback => s
  end.

#[export] Instance mock_storage : Storage MockStorage := {|
  load_epoch_state := mock_load_epoch_state;
  load_epoch_state_data := mock_load_epoch_state_data;
  store_epoch_state := mock_store_epoch_state;
  list_active_epochs := mock_list_active_epochs;
  get_current_epoch_id := mock_get_current_epoch_id;
  store_epoch_keys := mock_store_epoch_keys;
  store_welcome_record := mock_store_welcome_record;
  load_welcome_record := mock_load_welcome_record;
  store_file_metadata := mock_store_file_metadata;
  load_file_metadata := mock_load_file_metadata;
  get_file := mock_get_file;
|}.
End Mock.

(** ** Lemmas *)

Lemma load_members_dom (P : bytes → Prop) (now : Z) (ds : list MemberData) (X : gset bytes) :
  (∀ d, d ∈ ds → P (arr (md_member_id d))) → (∀ k, P k → k ∈ X) →
  dom (load_members now ds) ⊆ X.
Proof.
  intros Hd HX. unfold load_members.
  assert (dom (∅ : gmap bytes Member) ⊆ X) as Hacc by (rewrite dom_empty; set_solver).
  revert Hd Hacc. generalize (∅ : gmap bytes Member). induction ds as [|d ds IH]; intros m Hd Hm; [done|].
  cbn [foldl]. apply IH.
  - intros d' Hd'. apply Hd. by right.
  - rewrite dom_insert. pose proof (HX _ (Hd d (list_elem_of_here _ _))). set_solver.
Qed.

Section MockLemmas.
Context {ho : HashOrder} {hol : HashOrderLaws} {json : StorageJson}.
Implicit Types s : MockStorage.

Lemma mock_load_after_store e now s :
  mock_load_epoch_state (epoch_id e) now (mock_store_epoch_state e s).2 =
  Ok (mkEpochState (epoch_id e) (encryption_key e) (key_source e)
        (load_members now (to_member_data <$> hash_order (members e)))
        (loaded_status (epoch_id e) (to_epoch_data e)) (created_at e) now (file_count e)
        EpochMetadata_default).
Proof.
  unfold mock_load_epoch_state, mock_store_epoch_state. simpl.
  rewrite lookup_insert_eq. simpl. by rewrite array_of_arr.
Qed.

Lemma mock_load_epoch_ext id now s s' :
  epoch_states s' !! id = epoch_states s !! id →
  mock_load_epoch_state id now s' = mock_load_epoch_state id now s.
Proof. unfold mock_load_epoch_state. by intros ->. Qed.

Lemma mock_store_epoch_keys_epochs id secrets s r s' :
  mock_store_epoch_keys id secrets s = (r, s') → epoch_states s' = epoch_states s.
Proof.
  unfold mock_store_epoch_keys. destruct (map_err _ _); intros [= <- <-]; done.
Qed.

(** [MockStorage] keeps the promises of the trait. *)
#[export] Instance mock_storage_laws : StorageLaws MockStorage.
Proof.
  split.
  - intros e now s s' [= <-]. eexists. split; [apply mock_load_after_store|done].
  - intros e now s r s' id [= <- <-] Hid. apply mock_load_epoch_ext. simpl.
    by rewrite lookup_insert_ne.
  - intros e s s' [= <-]. exists (to_epoch_data e). split; [|done].
    unfold load_epoch_state_data. simpl. unfold mock_load_epoch_state_data. simpl.
    by rewrite lookup_insert_eq.
  - intros id id' secrets now s r s' E. apply mock_load_epoch_ext.
    by rewrite (mock_store_epoch_keys_epochs _ _ _ _ _ E).
  - intros path m s s' [= <-]. simpl. unfold mock_load_file_metadata. simpl.
    by rewrite lookup_insert_eq.
  - by intros path m s r s' id [= <- <-].
  - by intros path path' m s r s' [= <- <-].
Qed.

(** Inserting a list of pairs with distinct keys. *)
Lemma foldl_insert_lookup `{Countable K} {A B} (f : A → K) (g : A → B) (l : list A)
    (m : gmap K B) (k : K) :
  NoDup (f <$> l) →
  foldl (λ m a, <[f a := g a]> m) m l !! k =
    match list_find (λ a, f a = k) l with Some (_, a) => Some (g a) | None => m !! k end.
Proof.
  revert m. induction l as [|a l IH]; intros m Hnd; [done|].
  cbn [fmap list_fmap] in Hnd. apply NoDup_cons in Hnd as [Ha Hnd].
  cbn [foldl]. rewrite IH by done. cbn [list_find]. case_decide as Hk.
  - subst k. assert (list_find (λ x, f x = f a) l = None) as ->.
    { apply list_find_None, list.Forall_forall. intros x Hx E. apply Ha.
      rewrite <-E. by apply list_elem_of_fmap_2. }
    by rewrite lookup_insert_eq.
  - destruct (list_find _ l) as [[i x]|]; simpl; [done|]. by rewrite lookup_insert_ne.
Qed.

(** What a member becomes when its epoch is stored and loaded. *)
Definition reload_member (id : bytes) (now : Z) (m : Member) : Member :=
  let caps := capabilities m in
  mkMember id (arr (array_or_zero (public_key m))) MemberActive
    (mkMemberCapabilities (cap_read caps) (cap_write caps) (cap_invite caps) (cap_rekey caps)
       (cap_remove caps) false)
    (joined_at m) now.

Lemma array_or_zero_32 b : length b = 32 → arr (array_or_zero b) = b.
Proof.
  intros Hb. unfold array_or_zero, array_of. case_decide; [done|]. contradiction.
Qed.

Lemma array_or_zero_other b : length b ≠ 32 → array_or_zero b = zeros 32.
Proof. intros Hb. unfold array_or_zero, array_of. by case_decide. Qed.

Lemma load_members_lookup (now : Z) (ms : gmap bytes Member) (id : bytes) :
  (∀ k m, ms !! k = Some m → length k = 32) →
  load_members now (to_member_data <$> hash_order ms) !! id = reload_member id now <$> ms !! id.
Proof.
  intros Hlen.
  assert (∀ kv, kv ∈ hash_order ms → arr (md_member_id (to_member_data kv)) = kv.1) as Hid.
  { intros [k m] Hkv. simpl. apply array_or_zero_32.
    apply (Hlen k m). by apply elem_of_hash_order. }
  unfold load_members. rewrite foldl_insert_lookup.
  2: { rewrite <-list_fmap_compose.
       rewrite (list_fmap_ext _ fst) by (intros i kv Hi; apply Hid; by eapply list_elem_of_lookup_2).
       rewrite hash_order_perm. apply NoDup_fst_map_to_list. }
  destruct (list_find _ _) as [[i d]|] eqn:Hf.
  - apply list_find_Some in Hf as (Hi & Hd & _).
    rewrite list_lookup_fmap in Hi. apply fmap_Some in Hi as ([k m] & Hkv & ->).
    apply list_elem_of_lookup_2 in Hkv. pose proof (Hid _ Hkv) as E. rewrite Hd in E. simpl in E.
    subst k. apply elem_of_hash_order in Hkv. rewrite Hkv. simpl. f_equal.
    unfold from_member_data, reload_member. simpl in *. by rewrite Hd.
  - destruct (ms !! id) as [m|] eqn:Hm; [|done]. exfalso.
    apply list_find_None in Hf. rewrite list.Forall_forall in Hf.
    apply elem_of_hash_order in Hm. apply (Hf (to_member_data (id, m))).
    + by apply list_elem_of_fmap_2.
    + by apply (Hid (id, m)).
Qed.
End MockLemmas.

(** ** Epochs come back changed *)

Section EpochReload.
Context {ho : HashOrder} {hol : HashOrderLaws} {json : StorageJson}.
Implicit Types s : MockStorage.

(** Storing an epoch and loading it again keeps the epoch's identity, key, key source,
    creation time and file count, and its members by id when the ids have 32 bytes;
    every member comes back active and without the admin capability, whatever its
    status was, and an epoch that was not [Active] comes back deprecated in favour
    of its successor number. *)
Theorem epoch_store_load (e : EpochState) (now : Z) (s : MockStorage) (id : bytes) :
  (∀ k m, members e !! k = Some m → length k = 32) →
  ∃ e', mock_load_epoch_state (epoch_id e) now (mock_store_epoch_state e s).2 = Ok e'
    ∧ epoch_id e' = epoch_id e ∧ encryption_key e' = encryption_key e
    ∧ key_source e' = key_source e ∧ created_at e' = created_at e ∧ file_count e' = file_count e
    ∧ members e' !! id = reload_member id now <$> members e !! id
    ∧ status e' = (if is_active e then Active (created_at e)
                   else Deprecated (created_at e) (u64_wrap (epoch_id e + 1))).
Proof.
  intros Hlen. eexists. split; [apply mock_load_after_store|]. simpl.
  split_and!; try done. by apply load_members_lookup.
Qed.

(** A member whose id is not exactly 32 bytes long is stored under the all-zero id:
    an epoch whose members are all named that way is loaded with no other member than
    that one, so it has at most one member. *)
Theorem reload_collapses_short_ids (e : EpochState) (now : Z) (s : MockStorage) (e' : EpochState) :
  (∀ k m, members e !! k = Some m → length k ≠ 32) →
  mock_load_epoch_state (epoch_id e) now (mock_store_epoch_state e s).2 = Ok e' →
  dom (members e') ⊆ {[ arr (zeros 32) ]}.
Proof.
  intros Hlen. rewrite mock_load_after_store. intros [= <-]. simpl.
  apply (load_members_dom (λ k, k = arr (zeros 32))); [|intros k ->; set_solver].
  intros d (kv & -> & Hkv)%list_elem_of_fmap. simpl. destruct kv as [k m].
  rewrite array_or_zero_other; [done|]. apply (Hlen k m). by apply elem_of_hash_order.
Qed.
End EpochReload.

(** ** Keys in the store

    The key that a load of an epoch returns does not depend on the clock. *)
Section Keys.
Context {ho : HashOrder} {json : StorageJson}.
Implicit Types s : MockStorage.

Definition stored_key (id : N) s : option (array 32) :=
  d ← epoch_states s !! id; array_of 32 (ed_encrypted_key d).

(** Every epoch is stored under its own number; epochs enter through
    [store_epoch_state], which keeps this. *)
Definition epochs_keyed s : Prop := ∀ id d, epoch_states s !! id = Some d → ed_epoch_id d = id.

Lemma epochs_keyed_new : epochs_keyed MockStorage_new.
Proof. intros id d. simpl. by rewrite lookup_empty. Qed.

Lemma epochs_keyed_store e s : epochs_keyed s → epochs_keyed (mock_store_epoch_state e s).2.
Proof. intros Hk id d. simpl. intros [[<- <-]|[_ Hd]]%lookup_insert_Some; [done|by apply Hk]. Qed.

Lemma mock_load_id id now s e :
  epochs_keyed s → mock_load_epoch_state id now s = Ok e → epoch_id e = id.
Proof.
  unfold mock_load_epoch_state. intros Hk. destruct (epoch_states s !! id) as [d|] eqn:Hd; [|done].
  destruct (array_of 32 _); [|done]. intros [= <-]. simpl. by apply Hk.
Qed.

Lemma mock_load_stored_key id now s e :
  mock_load_epoch_state id now s = Ok e → stored_key id s = Some (encryption_key e).
Proof.
  unfold mock_load_epoch_state, stored_key. destruct (epoch_states s !! id) as [d|]; [|done]. simpl.
  destruct (array_of 32 _); [|done]. by intros [= <-].
Qed.

Lemma mock_load_outcome id now s :
  match mock_load_epoch_state id now s with
  | Ok e => stored_key id s = Some (encryption_key e)
  | Err _ => stored_key id s = None
  | _ => False
  end.
Proof.
  unfold mock_load_epoch_state, stored_key. destruct (epoch_states s !! id) as [d|]; [|done]. simpl.
  by destruct (array_of 32 _).
Qed.

Lemma stored_key_load id now s k :
  stored_key id s = Some k → ∃ e, mock_load_epoch_state id now s = Ok e ∧ encryption_key e = k.
Proof.
  pose proof (mock_load_outcome id now s) as H. intros Hk. rewrite Hk in H.
  destruct (mock_load_epoch_state id now s); naive_solver.
Qed.

Lemma stored_key_store id e s :
  stored_key id (mock_store_epoch_state e s).2 =
    if decide (id = epoch_id e) then Some (encryption_key e) else stored_key id s.
Proof.
  unfold stored_key. simpl. case_decide as Hid.
  - subst. rewrite lookup_insert_eq. simpl. by rewrite array_of_arr.
  - by rewrite lookup_insert_ne by congruence.
Qed.

(** Storing an epoch that was loaded, with other contents but its own number and
    key, changes no key. *)
Lemma stored_key_restore id id' now e e' s :
  epochs_keyed s → mock_load_epoch_state id' now s = Ok e →
  epoch_id e' = epoch_id e → encryption_key e' = encryption_key e →
  stored_key id (mock_store_epoch_state e' s).2 = stored_key id s.
Proof.
  intros Hk Hl Hid Hkey. rewrite stored_key_store, Hid, Hkey, (mock_load_id _ _ _ _ Hk Hl).
  case_decide as E; [|done]. subst. by rewrite (mock_load_stored_key _ _ _ _ Hl).
Qed.

(** The store is in order and has the given keys. *)
Definition holds_keys (known : gmap N (array 32)) s : Prop :=
  epochs_keyed s ∧ ∀ id k, known !! id = Some k → stored_key id s = Some k.

Lemma holds_keys_one id k s : holds_keys {[id := k]} s ↔ epochs_keyed s ∧ stored_key id s = Some k.
Proof.
  unfold holds_keys. split; intros [Hk Hs]; (split; [done|]).
  - apply Hs, lookup_singleton_eq.
  - by intros id' k' [<- <-]%lookup_singleton_Some.
Qed.
Lemma holds_keys_none s : holds_keys ∅ s ↔ epochs_keyed s.
Proof. unfold holds_keys. split; [by intros []|]. by split. Qed.

Lemma holds_keys_restore known id now e e' s :
  holds_keys known s → mock_load_epoch_state id now s = Ok e →
  epoch_id e' = epoch_id e → encryption_key e' = encryption_key e →
  holds_keys known (mock_store_epoch_state e' s).2.
Proof.
  intros [Hk Hs] Hl Hid Hkey. split; [by apply epochs_keyed_store|]. intros i k Hi.
  rewrite (stored_key_restore i id now e e' s) by done. by apply Hs.
Qed.

Lemma holds_keys_new known e s :
  holds_keys known s → known !! epoch_id e = None → holds_keys known (mock_store_epoch_state e s).2.
Proof.
  intros [Hk Hs] Hn. split; [by apply epochs_keyed_store|]. intros i k Hi.
  rewrite stored_key_store, decide_False by congruence. by apply Hs.
Qed.

Lemma holds_keys_fresh known e s :
  holds_keys known s → stored_key (epoch_id e) s = None → holds_keys known (mock_store_epoch_state e s).2.
Proof.
  intros Hh Hn. apply holds_keys_new; [done|]. destruct (known !! epoch_id e) as [k|] eqn:Hi; [|done].
  destruct Hh as [_ Hs]. by rewrite (Hs _ _ Hi) in Hn.
Qed.

(** A loaded epoch has only members with ids of 32 bytes. *)
Lemma mock_loaded_ids id now s e k m :
  mock_load_epoch_state id now s = Ok e → members e !! k = Some m → length k = 32.
Proof.
  unfold mock_load_epoch_state. destruct (epoch_states s !! id) as [d|]; [|done].
  destruct (array_of 32 _); [|done]. intros [= <-]. simpl.
  assert (dom (load_members now (ed_members d)) ⊆
    list_to_set ((λ x, arr (md_member_id x)) <$> ed_members d)) as Hdom.
  { apply (load_members_dom (λ k, k ∈ (λ x, arr (md_member_id x)) <$> ed_members d)).
    - intros x Hx. by apply (list_elem_of_fmap_2 (λ x, arr (md_member_id x))).
    - intros x. by rewrite elem_of_list_to_set. }
  intros Hm. apply elem_of_dom_2, Hdom, elem_of_list_to_set, list_elem_of_fmap in Hm as (x & -> & _).
  apply arr_length.
Qed.
End Keys.

(** ** The coverage journal and the file index *)

Section Indexes.
Context {ho : HashOrder} {hol : HashOrderLaws} {json : StorageJson}.
Implicit Types s : MockStorage.

Lemma filter_idem_weaker {A} (P Q : A → Prop) `{∀ x, Decision (P x)} `{∀ x, Decision (Q x)}
    (l : list A) :
  (∀ x, Q x → P x) → filter Q (filter P l) = filter Q l.
Proof.
  intros HQP. induction l as [|x l IH]; [done|]. rewrite (filter_cons P), (filter_cons Q).
  destruct (decide (P x)) as [HP|HP], (decide (Q x)) as [HQ|HQ]; rewrite ?(filter_cons Q).
  - rewrite decide_True by done. by rewrite IH.
  - rewrite decide_False by done. done.
  - by apply HQP in HQ.
  - done.
Qed.

(** The coverage journal: a delta that is appended is read, after the earlier ones, by
    everyone who asks from before its sequence number, and by nobody else; and
    compaction up to a point is not seen by readers who ask from there or later, nor
    by other groups. *)
Theorem coverage_journal (g g' : Uuid) (d : CoverageLogDeltaData) (since up_to : N)
    (s : MockStorage) :
  mock_load_coverage_log_deltas g' since (mock_append_coverage_log_delta g d s) =
    mock_load_coverage_log_deltas g' since s
    ++ (if decide (g' = g ∧ since < dl_sequence d)%N then [d] else [])
  ∧ ((up_to ≤ since)%N ∨ g' ≠ g →
     mock_load_coverage_log_deltas g' since (mock_compact_coverage_log_deltas g up_to s) =
       mock_load_coverage_log_deltas g' since s).
Proof.
  unfold mock_load_coverage_log_deltas, mock_append_coverage_log_delta,
    mock_compact_coverage_log_deltas. split.
  - simpl. destruct (decide (g' = g)) as [->|Hg].
    + rewrite lookup_insert_eq. simpl. rewrite list.filter_app. f_equal.
      rewrite filter_cons, filter_nil. repeat case_decide; naive_solver.
    + rewrite lookup_insert_ne by congruence. rewrite decide_False by naive_solver.
      by rewrite app_nil_r.
  - intros Hs. destruct (coverage_deltas s !! g) as [ds|] eqn:Hds; [|done]. simpl.
    destruct (decide (g' = g)) as [->|Hg].
    + destruct Hs as [Hs|]; [|done]. rewrite lookup_insert_eq, Hds. simpl.
      apply filter_idem_weaker. intros x. lia.
    + by rewrite lookup_insert_ne by congruence.
Qed.

Lemma mock_max_key (k : N) ks :
  foldr N.max k ks ∈ k :: ks ∧ ∀ x, x ∈ k :: ks → (x ≤ foldr N.max k ks)%N.
Proof.
  induction ks as [|y ks [IHin IH]]; simpl.
  - split; [by left|]. intros x ->%list_elem_of_singleton. done.
  - split.
    + destruct (N.max_spec y (foldr N.max k ks)) as [[_ ->]|[_ ->]]; set_solver.
    + intros x Hx. rewrite !elem_of_cons in Hx.
      destruct Hx as [->|[->|Hx]].
      * specialize (IH k (list_elem_of_here _ _)). lia.
      * lia.
      * specialize (IH x (list_elem_of_further _ _ _ Hx)). lia.
Qed.

Lemma elem_of_hash_keys `{Countable K} {A} (m : gmap K A) k :
  k ∈ (hash_order m).*1 ↔ is_Some (m !! k).
Proof.
  rewrite hash_order_perm, list_elem_of_fmap. split.
  - intros ([k' a] & -> & Hin%elem_of_map_to_list). by exists a.
  - intros [a Ha]. exists (k, a). by rewrite elem_of_map_to_list.
Qed.

Lemma current_epoch_spec s :
  (∀ k, mock_get_current_epoch_id s = Ok k ↔
     is_Some (epoch_states s !! k) ∧ ∀ k', is_Some (epoch_states s !! k') → (k' ≤ k)%N)
  ∧ (mock_get_current_epoch_id s = Err (StNotFound "No epochs found") ↔ epoch_states s = ∅).
Proof.
  unfold mock_get_current_epoch_id.
  assert (∀ k, is_Some (epoch_states s !! k) ↔ k ∈ (hash_order (epoch_states s)).*1) as Hin.
  { intros k. by rewrite elem_of_hash_keys. }
  destruct ((hash_order (epoch_states s)).*1) as [|k0 ks].
  - split.
    + intros k. rewrite Hin. split; [done|]. intros [Hk _]. by apply elem_of_nil in Hk.
    + split; [|done]. intros _. apply map_empty. intros k.
      apply eq_None_not_Some. rewrite Hin. apply not_elem_of_nil.
  - destruct (mock_max_key k0 ks) as [Hmax Hle]. split.
    + intros k. split.
      * intros [= <-]. split; [by apply Hin|]. intros k' Hk'. by apply Hle, Hin.
      * intros [Hk Hall]. f_equal. apply N.le_antisymm; [by apply Hall, Hin|]. by apply Hle, Hin.
    + split; [done|]. intros He.
      assert (is_Some (epoch_states s !! k0)) as [d Hd] by (apply Hin; by left).
      by rewrite He in Hd.
Qed.

Lemma current_epoch_largest s k :
  mock_get_current_epoch_id s = Ok k →
  is_Some (epoch_states s !! k) ∧ ∀ k', is_Some (epoch_states s !! k') → (k' ≤ k)%N.
Proof. apply current_epoch_spec. Qed.

(** The current epoch is the largest stored number, whether that epoch is active or
    not, and there is none only when nothing is stored. *)
Theorem current_epoch_is_largest (s : MockStorage) :
  (∀ k, mock_get_current_epoch_id s = Ok k ↔
     is_Some (epoch_states s !! k) ∧ ∀ k', is_Some (epoch_states s !! k') → (k' ≤ k)%N)
  ∧ (mock_get_current_epoch_id s = Err (StNotFound "No epochs found") ↔ epoch_states s = ∅).
Proof. apply current_epoch_spec. Qed.

Lemma NoDup_fmap_inj {A B} (f : A → B) (l : list A) x y :
  NoDup (f <$> l) → x ∈ l → y ∈ l → f x = f y → x = y.
Proof.
  intros Hnd [i Hi]%list_elem_of_lookup_1 [j Hj]%list_elem_of_lookup_1 E.
  assert (i = j) as ->; [|congruence].
  apply (NoDup_lookup _ _ _ (f x) Hnd); rewrite list_lookup_fmap; [by rewrite Hi|].
  rewrite Hj. simpl. by rewrite E.
Qed.

(** Replacing the index of a root: afterwards the entries listed for it are exactly
    the given ones, and every entry of another root stays, unless one of the new
    entries has its uuid. *)
Theorem replace_root_exact (root : Uuid) (es : list FileIndexEntry) (s : MockStorage) :
  NoDup (ix_file_uuid <$> es) →
  Forall (λ e, ix_root_id e = root) es →
  let s' := mock_replace_file_index_entries_for_root root es s in
  (∀ e, e ∈ mock_list_file_index_entries_by_root root s' ↔ e ∈ es)
  ∧ (∀ id e, file_index s !! id = Some e → ix_root_id e ≠ root → id ∉ ix_file_uuid <$> es →
       mock_load_file_index_entry id s' = Some e).
Proof.
  intros Hnd Hroot s'.
  assert (∀ id, file_index s' !! id =
    match list_find (λ e, ix_file_uuid e = id) es with
    | Some (_, e) => Some e
    | None => filter (λ kv, ix_root_id kv.2 ≠ root) (file_index s) !! id
    end) as Hl.
  { intros id. unfold s', mock_replace_file_index_entries_for_root. simpl.
    by rewrite (foldl_insert_lookup ix_file_uuid (λ e, e)). }
  split.
  - intros e. unfold mock_list_file_index_entries_by_root.
    rewrite list_elem_of_filter, list_elem_of_fmap. split.
    + intros [Hr ([id e'] & -> & Hin)]. apply elem_of_hash_order in Hin. simpl in *.
      rewrite Hl in Hin. destruct (list_find _ es) as [[i x]|] eqn:Hf.
      * simplify_eq. apply list_find_Some in Hf as (Hi & _ & _). by eapply list_elem_of_lookup_2.
      * apply map_lookup_filter_Some in Hin as [_ Hne]. by contradict Hne.
    + intros He. rewrite list.Forall_forall in Hroot. split; [by apply Hroot|].
      exists (ix_file_uuid e, e). split; [done|]. apply elem_of_hash_order. rewrite Hl.
      destruct (list_find _ es) as [[i x]|] eqn:Hf.
      * apply list_find_Some in Hf as (Hi & Hx & _). f_equal.
        apply list_elem_of_lookup_2 in Hi. by apply (NoDup_fmap_inj ix_file_uuid es).
      * apply list_find_None in Hf. rewrite list.Forall_forall in Hf. by destruct (Hf e He).
  - intros id e Hid Hne Hnin. unfold mock_load_file_index_entry. rewrite Hl.
    destruct (list_find _ es) as [[i x]|] eqn:Hf.
    + apply list_find_Some in Hf as (Hi & Hx & _). contradict Hnin. rewrite <-Hx.
      apply list_elem_of_fmap_2. by eapply list_elem_of_lookup_2.
    + by apply map_lookup_filter_Some.
Qed.

(** The configuration keys under which welcome records and epoch keys are kept. *)
Lemma welcome_key_inj (a b : N) (x y : string) :
  welcome_key a x = welcome_key b y → a = b ∧ x = y.
Proof.
  unfold welcome_key. intros E. apply String.app_inj in E.
  apply (string_cons_app_inj is_digit) in E as [Hab ->]; [|done|apply pretty_N_digits..].
  split; [|done]. by apply (inj pretty).
Qed.

Lemma welcome_key_not_epoch_keys (a b : N) (x : string) : welcome_key a x ≠ epoch_keys_key b.
Proof. done. Qed.

(** A welcome record is found again under its epoch and device, and storing it or an
    epoch's keys does not touch the record of any other epoch or device. *)
Theorem welcome_record_isolated (r : WelcomeRecord) (s s' : MockStorage) (id : N) (device : string) :
  mock_store_welcome_record r s = (Ok tt, s') →
  (∀ v, welcome_record_to_json r = Ok v → welcome_record_from_json v = Ok r) →
  mock_load_welcome_record (wr_epoch_id r) (wr_recipient_device_id r) s' = Ok r
  ∧ ((id, device) ≠ (wr_epoch_id r, wr_recipient_device_id r) →
     mock_load_welcome_record id device s' = mock_load_welcome_record id device s)
  ∧ ∀ k secrets, mock_load_welcome_record id device (mock_store_epoch_keys k secrets s).2 =
       mock_load_welcome_record id device s.
Proof.
  unfold mock_store_welcome_record, mock_load_welcome_record. intros E Hj.
  destruct (welcome_record_to_json r) as [v| | |] eqn:Hv; simplify_eq/=.
  split_and!.
  - rewrite lookup_insert_eq. by rewrite (Hj v eq_refl).
  - intros Hne. rewrite lookup_insert_ne; [done|].
    intros [<- <-]%welcome_key_inj. done.
  - intros k secrets. unfold mock_store_epoch_keys.
    destruct (epoch_secrets_to_json secrets); simpl; try done.
    rewrite lookup_insert_ne; [done|]. apply not_eq_sym, welcome_key_not_epoch_keys.
Qed.
End Indexes.

(** ** Concrete instances *)

Definition sample_record : WelcomeRecord :=
  mkWelcomeRecord 3 "phone" 100 [x01; x02] (mkWelcomeResult [3%N] [] [] true).

(** A [serde_json] that knows one record. *)
Definition toy_storage_json : StorageJson := {|
  welcome_record_to_json := λ _, Ok "record";
  welcome_record_from_json := λ _, Ok sample_record;
  epoch_secrets_to_json := λ _, Ok "secrets";
  delta_to_json := λ _, Ok [x7b; x7d];
|}.

Definition member_32 : bytes := arr epoch_key.
Definition removed_admin : Member :=
  mkMember member_32 member_32 (Removed 40 "left")
    (mkMemberCapabilities true true true true true true) 10 40.
Definition epoch_of_members (ms : gmap bytes Member) : EpochState :=
  mkEpochState 1 epoch_key KeyWelcome ms (Migrating 2 50) 10 50 7 EpochMetadata_default.
Definition epoch_removed : EpochState := epoch_of_members {[ member_32 := removed_admin ]}.
Definition epoch_short : EpochState :=
  epoch_of_members (<[ [x61] := alice ]> {[ [x62] := alice ]}).

Lemma epoch_store_load_witness :
  ∃ e' m', @mock_load_epoch_state 1 60 (@mock_store_epoch_state toy_hash_order epoch_removed
                                      MockStorage_new).2 = Ok e'
    ∧ members e' !! member_32 = Some m' ∧ member_status m' = MemberActive
    ∧ cap_admin (capabilities m') = false ∧ status e' = Deprecated 10 2.
Proof.
  destruct (@epoch_store_load toy_hash_order toy_hash_order_laws epoch_removed 60 MockStorage_new
              member_32) as (e' & Hl & _ & _ & _ & _ & _ & Hm & Hs).
  - simpl. intros k m [<- _]%lookup_singleton_Some. vm_compute. reflexivity.
  - exists e', (reload_member member_32 60 removed_admin). split_and!; [exact Hl| |done|done|exact Hs].
    rewrite Hm. unfold epoch_removed. simpl. by rewrite lookup_singleton_eq.
Defined.

Lemma reload_collapses_short_ids_witness :
  ∃ e', @mock_load_epoch_state 1 60 (@mock_store_epoch_state toy_hash_order epoch_short
                                   MockStorage_new).2 = Ok e'
    ∧ size (members epoch_short) = 2 ∧ dom (members e') ⊆ {[ arr (zeros 32) ]}.
Proof.
  eexists. split; [vm_compute; reflexivity|]. split; [vm_compute; reflexivity|].
  apply (@reload_collapses_short_ids toy_hash_order toy_hash_order_laws epoch_short 60 MockStorage_new).
  - simpl. intros k m [[<- _]|[_ [<- _]%lookup_singleton_Some]]%lookup_insert_Some; done.
  - vm_compute. reflexivity.
Defined.

Definition entry (u r : Uuid) (p : string) : FileIndexEntry :=
  mkFileIndexEntry u None r p 10 1 None 5 FcTracked None.
Definition uuid_of (n : N) : Uuid := dexist (le_bytes 16 n) (le_bytes_length 16 n).

Definition index_before : MockStorage :=
  mock_store_file_index_entry (entry (uuid_of 1) (uuid_of 9) "a")
    (mock_store_file_index_entry (entry (uuid_of 2) (uuid_of 8) "b") MockStorage_new).
Definition new_entries : list FileIndexEntry := [entry (uuid_of 3) (uuid_of 8) "c"].

Lemma replace_root_exact_witness :
  entry (uuid_of 3) (uuid_of 8) "c" ∈
    @mock_list_file_index_entries_by_root toy_hash_order (uuid_of 8)
      (mock_replace_file_index_entries_for_root (uuid_of 8) new_entries index_before)
  ∧ mock_load_file_index_entry (uuid_of 1)
      (mock_replace_file_index_entries_for_root (uuid_of 8) new_entries index_before)
      = Some (entry (uuid_of 1) (uuid_of 9) "a").
Proof.
  destruct (@replace_root_exact toy_hash_order toy_hash_order_laws (uuid_of 8) new_entries
              index_before) as [Hl Ho].
  - apply NoDup_singleton.
  - by repeat constructor.
  - split; [apply Hl; by left|]. apply Ho; [vm_compute; reflexivity| |].
    + intros E. apply (f_equal arr) in E. vm_compute in E. discriminate.
    + intros [E|E]%elem_of_cons; [|by apply elem_of_nil in E].
      apply (f_equal arr) in E. vm_compute in E. discriminate.
Defined.

Lemma welcome_record_isolated_witness :
  @mock_load_welcome_record toy_storage_json 3 "phone"
    (@mock_store_welcome_record toy_storage_json sample_record MockStorage_new).2 = Ok sample_record.
Proof.
  apply (@welcome_record_isolated toy_storage_json sample_record MockStorage_new
           (@mock_store_welcome_record toy_storage_json sample_record MockStorage_new).2 4 "laptop");
    [reflexivity|]. by intros v.
Defined.

Lemma coverage_journal_witness :
  let d n := mkCoverageLogDeltaData n "f" 2 None 10 None DeltaUpsert in
  let s := mock_append_coverage_log_delta (uuid_of 1) (d 1%N) MockStorage_new in
  mock_load_coverage_log_deltas (uuid_of 1) 1
    (mock_compact_coverage_log_deltas (uuid_of 1) 1
       (mock_append_coverage_log_delta (uuid_of 1) (d 2%N) s)) = [d 2%N].
Proof.
  intros d s.
  destruct (coverage_journal (uuid_of 1) (uuid_of 1) (d 2%N) 1 1
              (mock_append_coverage_log_delta (uuid_of 1) (d 2%N) s)) as [_ ->]; [|by left].
  reflexivity.
Defined.
