(* ===== verification/FileCache.v ===== *)
(** * File key, epoch key and metadata caches ([crates/client/src/file/cache.rs])

    [LruCache] with its access counter and expiry, and the three caches of
    [CacheManager].  The abstract cache is a list of entries, most recently used
    first; the hash-map implementation, whose eviction looks for the smallest
    access number in hash order, refines it.  Instants are nanoseconds; every
    reading of the clock is an argument. *)

From Stdlib Require Import Strings.Byte Sorting.Sorted.
From stdpp Require Import base tactics numbers sets list gmap strings option sorting.
From S2P Require Import Prelude Crypto.
Open Scope hc_scope.

Record CacheConfig := mkCacheConfig {
  max_entries : nat;
  ttl_seconds : N;
  enabled : bool;
}.

Definition CacheConfig_default : CacheConfig := mkCacheConfig 1000 3600 true.

(** [put] has no failing path, so the error type has no values here. *)
Inductive CacheError :=
| EntryNotFound (key : string)
| EntryExpired (key : string)
| CacheFull
| InvalidEntry (msg : string).

Definition CacheError_display (e : CacheError) : string :=
  match e with
  | EntryNotFound key => "Cache entry not found: " +:+ key
  | EntryExpired key => "Cache entry expired: " +:+ key
  | CacheFull => "Cache is full"
  | InvalidEntry msg => "Invalid cache entry: " +:+ msg
  end.

Record CacheEntry (T : Type) := mkCacheEntry {
  ce_value : T;
  ce_created_at : Z;
  last_accessed : N;
}.
Arguments mkCacheEntry {T}.
Arguments ce_value {T}.
Arguments ce_created_at {T}.
Arguments last_accessed {T}.

(** A creation time in the future makes [elapsed] fail, and then the entry counts as
    expired. *)
Definition expired_at (ttl : N) (created now : Z) : bool :=
  if decide (now < created)%Z then true
  else bool_decide (Z.of_N ttl * 1000000000 < now - created)%Z.

Definition is_expired {T} (ttl : N) (now : Z) (e : CacheEntry T) : bool :=
  expired_at ttl (ce_created_at e) now.

Definition access {T} (tick : N) (e : CacheEntry T) : CacheEntry T :=
  mkCacheEntry (ce_value e) (ce_created_at e) tick.

Record LruCache (K V : Type) `{Countable K} := mkLruCache {
  lru_entries : gmap K (CacheEntry V);
  lru_config : CacheConfig;
  access_ticks : N;
}.
Arguments mkLruCache {K V _ _}.
Arguments lru_entries {K V _ _}.
Arguments lru_config {K V _ _}.
Arguments access_ticks {K V _ _}.

(** [Iterator::min_by_key]: the first of the smallest elements. *)
Fixpoint min_by_key {A} (f : A → N) (l : list A) : option A :=
  match l with
  | [] => None
  | x :: l =>
      match min_by_key f l with
      | Some y => if (f y <? f x)%N then Some y else Some x
      | None => Some x
      end
  end.

Section Lru.
Context {ho : HashOrder} {K V : Type} `{Countable K}.
Implicit Types c : LruCache K V.

Definition LruCache_new (cfg : CacheConfig) : LruCache K V := mkLruCache ∅ cfg 0.

Definition next_tick c : N * LruCache K V :=
  let t := u64_wrap (access_ticks c + 1) in
  (t, mkLruCache (lru_entries c) (lru_config c) t).

Definition with_entries (m : gmap K (CacheEntry V)) c : LruCache K V :=
  mkLruCache m (lru_config c) (access_ticks c).

Definition lru_get (key : K) (now : Z) c : option V * LruCache K V :=
  if negb (enabled (lru_config c)) then (None, c)
  else
    let ttl := ttl_seconds (lru_config c) in
    let '(tick, c) := next_tick c in
    match lru_entries c !! key with
    | Some entry =>
        if is_expired ttl now entry then (None, with_entries (delete key (lru_entries c)) c)
        else (Some (ce_value entry), with_entries (<[key := access tick entry]> (lru_entries c)) c)
    | None => (None, c)
    end.

Definition evict_expired (now : Z) c : LruCache K V :=
  with_entries
    (filter (λ kv, is_expired (ttl_seconds (lru_config c)) now kv.2 = false) (lru_entries c)) c.

Definition evict_lru c : LruCache K V :=
  match min_by_key (λ kv, last_accessed kv.2) (hash_order (lru_entries c)) with
  | Some (oldest_key, _) => with_entries (delete oldest_key (lru_entries c)) c
  | None => c
  end.

Definition lru_put (key : K) (value : V) (now : Z) c : res CacheError unit * LruCache K V :=
  if negb (enabled (lru_config c)) then (Ok tt, c)
  else
    let c := evict_expired now c in
    let c := if (max_entries (lru_config c) <=? size (lru_entries c))
                && negb (is_some (lru_entries c !! key))
             then evict_lru c else c in
    let '(tick, c) := next_tick c in
    (Ok tt, with_entries (<[key := mkCacheEntry value now tick]> (lru_entries c)) c).

Definition lru_clear c : LruCache K V := with_entries ∅ c.
Definition lru_size c : nat := size (lru_entries c).

(** ** The operations as a sequence *)

Inductive lru_op :=
| LruGet (key : K) (now : Z)
| LruPut (key : K) (value : V) (now : Z)
| LruClear.

Definition apply_lru (o : lru_op) c : option V * LruCache K V :=
  match o with
  | LruGet key now => lru_get key now c
  | LruPut key value now => (None, (lru_put key value now c).2)
  | LruClear => (None, lru_clear c)
  end.

Fixpoint run_lru (os : list lru_op) c : list (option V) * LruCache K V :=
  match os with
  | [] => ([], c)
  | o :: os =>
      let '(r, c) := apply_lru o c in
      let '(rs, c) := run_lru os c in (r :: rs, c)
  end.

(** ** The abstract cache: key, value and creation time, most recently used first *)

Definition acache : Type := list (K * (V * Z)).

Definition a_remove (key : K) (l : acache) : acache := filter (λ kv, kv.1 ≠ key) l.
Definition a_live (cfg : CacheConfig) (now : Z) (l : acache) : acache :=
  filter (λ kv, expired_at (ttl_seconds cfg) kv.2.2 now = false) l.
Definition a_find (key : K) (l : acache) : option (V * Z) :=
  snd ∘ snd <$> list_find (λ kv, kv.1 = key) l.

Definition a_get (cfg : CacheConfig) (key : K) (now : Z) (l : acache) : option V * acache :=
  if negb (enabled cfg) then (None, l)
  else match a_find key l with
       | Some (v, created) =>
           if expired_at (ttl_seconds cfg) created now then (None, a_remove key l)
           else (Some v, (key, (v, created)) :: a_remove key l)
       | None => (None, l)
       end.

(** Make room by dropping the least recently used entry, the last one. *)
Definition a_put (cfg : CacheConfig) (key : K) (v : V) (now : Z) (l : acache) : acache :=
  if negb (enabled cfg) then l
  else
    let l := a_live cfg now l in
    let l := if (max_entries cfg <=? length l) && negb (is_some (a_find key l))
             then take (length l - 1) l else l in
    (key, (v, now)) :: a_remove key l.

Definition apply_a (cfg : CacheConfig) (o : lru_op) (l : acache) : option V * acache :=
  match o with
  | LruGet key now => a_get cfg key now l
  | LruPut key v now => (None, a_put cfg key v now l)
  | LruClear => (None, [])
  end.

Fixpoint run_a (cfg : CacheConfig) (os : list lru_op) (l : acache) : list (option V) * acache :=
  match os with
  | [] => ([], l)
  | o :: os =>
      let '(r, l) := apply_a cfg o l in
      let '(rs, l) := run_a cfg os l in (r :: rs, l)
  end.
End Lru.
Arguments lru_op : clear implicits.
Arguments acache : clear implicits.

(** ** The cache manager *)

Record CacheManager := mkCacheManager {
  file_key_cache : LruCache string bytes;
  epoch_key_cache : LruCache N bytes;
  metadata_cache : LruCache string bytes;
  cache_config : CacheConfig;
}.

Record CacheStats := mkCacheStats {
  file_key_cache_size : nat;
  epoch_key_cache_size : nat;
  metadata_cache_size : nat;
  stat_max_entries : nat;
  stat_ttl_seconds : N;
  stat_enabled : bool;
}.

Section Manager.
Context {ho : HashOrder}.
Implicit Types m : CacheManager.

Definition CacheManager_with_config (cfg : CacheConfig) : CacheManager :=
  mkCacheManager (LruCache_new cfg) (LruCache_new cfg) (LruCache_new cfg) cfg.
Definition CacheManager_new : CacheManager := CacheManager_with_config CacheConfig_default.

Definition set_file_keys x m := mkCacheManager x (epoch_key_cache m) (metadata_cache m) (cache_config m).
Definition set_epoch_keys x m := mkCacheManager (file_key_cache m) x (metadata_cache m) (cache_config m).
Definition set_metadata x m := mkCacheManager (file_key_cache m) (epoch_key_cache m) x (cache_config m).

Definition cache_file_key (path : string) (key : Key) (now : Z) m
    : res CacheError unit * CacheManager :=
  let '(r, c) := lru_put path (arr (key_bytes key)) now (file_key_cache m) in (r, set_file_keys c m).

(** [AeadKey::from_bytes(..).ok()]. *)
Definition key_of (b : bytes) : option Key :=
  match Key_from_bytes b with Ok k => Some k | _ => None end.

Definition get_file_key (path : string) (now : Z) m : option Key * CacheManager :=
  let '(r, c) := lru_get path now (file_key_cache m) in (mbind key_of r, set_file_keys c m).

Definition cache_epoch_key (id : N) (key : Key) (now : Z) m : res CacheError unit * CacheManager :=
  let '(r, c) := lru_put id (arr (key_bytes key)) now (epoch_key_cache m) in (r, set_epoch_keys c m).

Definition get_epoch_key (id : N) (now : Z) m : option Key * CacheManager :=
  let '(r, c) := lru_get id now (epoch_key_cache m) in (mbind key_of r, set_epoch_keys c m).

Definition cache_metadata (path : string) (data : bytes) (now : Z) m
    : res CacheError unit * CacheManager :=
  let '(r, c) := lru_put path data now (metadata_cache m) in (r, set_metadata c m).

Definition get_metadata (path : string) (now : Z) m : option bytes * CacheManager :=
  let '(r, c) := lru_get path now (metadata_cache m) in (r, set_metadata c m).

Definition clear_all m : CacheManager :=
  mkCacheManager (lru_clear (file_key_cache m)) (lru_clear (epoch_key_cache m))
    (lru_clear (metadata_cache m)) (cache_config m).

Definition get_stats m : CacheStats :=
  mkCacheStats (lru_size (file_key_cache m)) (lru_size (epoch_key_cache m))
    (lru_size (metadata_cache m)) (max_entries (cache_config m)) (ttl_seconds (cache_config m))
    (enabled (cache_config m)).

Definition was_cache_hit (path : string) m : bool := false.
Definition cache_update_access_stats (path : string) (hit : bool) m : CacheManager := m.
Definition get_file_metadata_bytes := get_metadata.
Definition store_file_metadata_bytes := cache_metadata.
Definition store_epoch_key := cache_epoch_key.
End Manager.

(** ** Lemmas *)

Lemma min_by_key_spec {A} (f : A → N) (l : list A) :
  match min_by_key f l with
  | Some x => x ∈ l ∧ ∀ y, y ∈ l → (f x ≤ f y)%N
  | None => l = []
  end.
Proof.
  induction l as [|x l IH]; simpl; [done|]. destruct (min_by_key f l) as [y|].
  - destruct IH as [Hin Hle]. destruct (N.ltb_spec (f y) (f x)); split; try set_solver.
    + intros z [->|Hz]%elem_of_cons; [lia|]. by apply Hle.
    + intros z [->|Hz]%elem_of_cons; [lia|]. specialize (Hle z Hz). lia.
  - subst l. split; [set_solver|]. intros z ->%list_elem_of_singleton. lia.
Qed.

Lemma filter_fmap_comm {A B} (f : A → B) (P : B → Prop) `{∀ x, Decision (P x)} (l : list A) :
  filter P (f <$> l) = f <$> filter (λ x, P (f x)) l.
Proof.
  induction l as [|x l IH]; [done|]. cbn [fmap list_fmap]. rewrite !filter_cons.
  destruct (decide (P (f x))); cbn [fmap list_fmap]; by rewrite <-IH.
Qed.

Lemma StronglySorted_filter {A} (R : relation A) (P : A → Prop) `{∀ x, Decision (P x)} (l : list A) :
  StronglySorted R l → StronglySorted R (filter P l).
Proof.
  induction 1 as [|x l Hs IH Hx]; [constructor|]. rewrite filter_cons. case_decide; [|done].
  constructor; [done|]. apply list.Forall_forall. intros y [_ Hy]%list_elem_of_filter.
  rewrite list.Forall_forall in Hx. by apply Hx.
Qed.

Lemma NoDup_fst_filter {A B} (P : A * B → Prop) `{∀ x, Decision (P x)} (l : list (A * B)) :
  NoDup l.*1 → NoDup (filter P l).*1.
Proof.
  induction l as [|x l IH]; intros Hnd; [done|]. cbn [fmap list_fmap] in Hnd.
  apply NoDup_cons in Hnd as [Hx Hnd]. rewrite filter_cons. case_decide; [|by apply IH].
  cbn [fmap list_fmap]. apply NoDup_cons. split; [|by apply IH].
  intros (y & Hxy & [_ Hy]%list_elem_of_filter)%list_elem_of_fmap. apply Hx. rewrite Hxy.
  by apply list_elem_of_fmap_2.
Qed.

Section Refinement.
Context {ho : HashOrder} {hol : HashOrderLaws} {K V : Type} `{Countable K}.
Implicit Types (c : LruCache K V) (es : list (K * CacheEntry V)).

Lemma ltm_filter (P : K * CacheEntry V → Prop) `{∀ x, Decision (P x)} es :
  NoDup es.*1 →
  filter P (list_to_map es : gmap K (CacheEntry V)) = list_to_map (filter P es).
Proof.
  intros Hnd. apply map_eq. intros k. apply option_eq. intros e.
  rewrite map_lookup_filter_Some, <-!elem_of_list_to_map, list_elem_of_filter
    by eauto using NoDup_fst_filter. naive_solver.
Qed.

Lemma ltm_delete k es :
  NoDup es.*1 →
  delete k (list_to_map es : gmap K (CacheEntry V)) = list_to_map (filter (λ kv, kv.1 ≠ k) es).
Proof.
  intros Hnd. apply map_eq. intros k'. apply option_eq. intros e.
  rewrite lookup_delete_Some, <-!elem_of_list_to_map, list_elem_of_filter
    by eauto using NoDup_fst_filter. naive_solver.
Qed.

Definition forget (kv : K * CacheEntry V) : K * (V * Z) :=
  (kv.1, (ce_value kv.2, ce_created_at kv.2)).
Definition newer (a b : K * CacheEntry V) : Prop := (last_accessed b.2 < last_accessed a.2)%N.

(** The hash map holds the entries [es], sorted by their access numbers, which the
    counter bounds. *)
Record sorted_as es c : Prop := {
  sa_entries : lru_entries c = list_to_map es;
  sa_nodup : NoDup es.*1;
  sa_sorted : StronglySorted newer es;
  sa_bound : ∀ kv, kv ∈ es → (last_accessed kv.2 ≤ access_ticks c)%N;
}.

Definition lru_rel (l : acache K V) c : Prop := ∃ es, sorted_as es c ∧ l = forget <$> es.

Lemma sorted_as_filter (P : K * CacheEntry V → Prop) `{∀ x, Decision (P x)} es c m :
  sorted_as es c → m = list_to_map (filter P es) → sorted_as (filter P es) (with_entries m c).
Proof.
  intros [He Hnd Hs Hb] ->. split; simpl; [done|by apply NoDup_fst_filter
    |by apply StronglySorted_filter|]. intros kv [_ Hkv]%list_elem_of_filter. by apply Hb.
Qed.

Lemma sorted_as_next es c :
  (access_ticks c + 1 < U64)%N → sorted_as es c → sorted_as es (next_tick c).2.
Proof.
  intros Hu [He Hnd Hs Hb]. unfold next_tick. split; simpl; try done.
  intros kv Hkv. unfold u64_wrap. rewrite N.mod_small by done. specialize (Hb kv Hkv). lia.
Qed.

(** Inserting with a fresh access number puts the entry in front. *)
Lemma sorted_as_insert es c k v t :
  (access_ticks c + 1 < U64)%N → sorted_as es c →
  let '(tick, c') := next_tick c in
  sorted_as ((k, mkCacheEntry v t tick) :: filter (λ kv, kv.1 ≠ k) es)
    (with_entries (<[k := mkCacheEntry v t tick]> (lru_entries c')) c').
Proof.
  intros Hu [He Hnd Hs Hb]. unfold next_tick. unfold u64_wrap. rewrite N.mod_small by done.
  split; simpl.
  - rewrite He, <-ltm_delete by done. by rewrite insert_delete_eq.
  - apply NoDup_cons. split; [|by apply NoDup_fst_filter].
    intros ([k' e] & Hk & [Hne _]%list_elem_of_filter)%list_elem_of_fmap. naive_solver.
  - constructor; [by apply StronglySorted_filter|]. apply list.Forall_forall.
    intros kv [_ Hkv]%list_elem_of_filter. specialize (Hb kv Hkv). unfold newer. simpl. lia.
  - intros kv [->|[_ Hkv]%list_elem_of_filter]%elem_of_cons; simpl; [lia|].
    specialize (Hb kv Hkv). lia.
Qed.

Lemma a_find_lookup es k :
  a_find k (forget <$> es) =
  (λ e, (ce_value e, ce_created_at e)) <$> (list_to_map es : gmap K (CacheEntry V)) !! k.
Proof.
  unfold a_find. rewrite list_find_fmap.
  induction es as [|[k' e] es IH]; [done|]. cbn [list_find list_to_map foldr].
  case_decide as Hk; simpl in Hk.
  - subst. unfold list_to_map. simpl. by rewrite lookup_insert_eq.
  - unfold list_to_map in *. cbn [foldr fst snd]. rewrite lookup_insert_ne by done. rewrite <-IH.
    by destruct (list_find _ es) as [[]|].
Qed.

(** Eviction drops the last entry. *)
Lemma sorted_as_evict es c : sorted_as es c → sorted_as (take (length es - 1) es) (evict_lru c).
Proof.
  intros [He Hnd Hs Hb]. unfold evict_lru. rewrite He.
  assert (hash_order (list_to_map es : gmap K (CacheEntry V)) ≡ₚ es) as Hp.
  { rewrite hash_order_perm. by apply map_to_list_to_map. }
  pose proof (min_by_key_spec (λ kv : K * CacheEntry V, last_accessed kv.2)
                (hash_order (list_to_map es : gmap K (CacheEntry V)))) as Hmin.
  destruct es as [|x es _] using rev_ind.
  { destruct (min_by_key _ _) as [[k e]|]; [|by split].
    destruct Hmin as [Hin _]. rewrite Hp in Hin. by apply elem_of_nil in Hin. }
  rewrite length_app, Nat.add_sub, take_app_length.
  apply StronglySorted_app in Hs as (Hlast & Hs & _).
  rewrite fmap_app in Hnd. apply NoDup_app in Hnd as (Hnd & Hnx & Hndx).
  destruct (min_by_key _ _) as [[k e]|].
  2: { rewrite Hmin in Hp. apply Permutation_nil in Hp. by destruct es. }
  destruct Hmin as [Hin Hle].
  assert ((k, e) = x) as <-.
  { rewrite Hp in Hin. apply elem_of_app in Hin as [Hin|Hin]; [|by apply list_elem_of_singleton in Hin].
    assert (x ∈ hash_order (list_to_map (es ++ [x]) : gmap K (CacheEntry V))) as Hx
      by (rewrite Hp; set_solver).
    specialize (Hle x Hx). specialize (Hlast (k, e) x Hin ltac:(set_solver)).
    unfold newer in Hlast. lia. }
  split; simpl; [|done|done|].
  - rewrite list_to_map_snoc; [apply delete_insert_id|].
    + apply not_elem_of_list_to_map_1. intros Hk. apply (Hnx k Hk). set_solver.
    + intros Hk. apply (Hnx k Hk). set_solver.
  - intros kv Hkv. apply Hb. set_solver.
Qed.

Lemma forget_filter (P : K * (V * Z) → Prop) `{∀ x, Decision (P x)} es :
  forget <$> filter (λ kv, P (forget kv)) es = filter P (forget <$> es).
Proof. by rewrite filter_fmap_comm. Qed.

Lemma sim_get k now l c :
  (access_ticks c + 1 < U64)%N → lru_rel l c →
  fst (lru_get k now c) = fst (a_get (lru_config c) k now l)
  ∧ lru_rel (snd (a_get (lru_config c) k now l)) (snd (lru_get k now c)).
Proof.
  intros Hu (es & Hes & ->). unfold lru_get, a_get.
  destruct (negb (enabled (lru_config c))); [split; [done|]; by exists es|].
  rewrite a_find_lookup, <-(sa_entries _ _ Hes).
  pose proof (sorted_as_next es c Hu Hes) as Hnext.
  pose proof (λ v t, sorted_as_insert es c k v t Hu Hes) as Hins.
  destruct (next_tick c) as [tick c'] eqn:Ht.
  assert (lru_entries c' = lru_entries c) as Hec by (injection Ht as <- <-; done).
  simpl in Hnext. rewrite Hec. destruct (lru_entries c !! k) as [e|]; simpl.
  2: { split; [done|]. by exists es. }
  unfold is_expired. destruct (expired_at _ _ now); simpl; (split; [done|]).
  - exists (filter (λ kv, kv.1 ≠ k) es). split.
    + apply (sorted_as_filter _ es c'); [done|]. rewrite (sa_entries _ _ Hes).
      apply ltm_delete, Hes.
    + unfold a_remove. by rewrite <-forget_filter.
  - eexists. rewrite <-Hec. split; [apply (Hins (ce_value e) (ce_created_at e))|].
    simpl. f_equal. unfold a_remove. by rewrite <-forget_filter.
Qed.

Lemma sim_put k v now l c :
  (access_ticks c + 1 < U64)%N → lru_rel l c →
  lru_rel (a_put (lru_config c) k v now l) (snd (lru_put k v now c)).
Proof.
  intros Hu (es & Hes & ->). unfold lru_put, a_put.
  destruct (negb (enabled (lru_config c))); [by exists es|].
  set (es1 := filter (λ kv : K * CacheEntry V,
    is_expired (ttl_seconds (lru_config c)) now kv.2 = false) es).
  assert (sorted_as es1 (evict_expired now c)) as H1.
  { apply (sorted_as_filter _ es c); [done|]. rewrite (sa_entries _ _ Hes). apply ltm_filter, Hes. }
  assert (a_live (lru_config c) now (forget <$> es) = forget <$> es1) as ->.
  { unfold a_live. by rewrite <-forget_filter. }
  assert (access_ticks (evict_expired now c) = access_ticks c
          ∧ lru_config (evict_expired now c) = lru_config c) as [Hc1 ->] by done.
  revert H1 Hc1. generalize (evict_expired now c). clearbody es1. intros c1 H1 Hc1.
  rewrite (sa_entries _ _ H1) at 1.
  rewrite a_find_lookup, length_fmap.
  assert (size (list_to_map es1 : gmap K (CacheEntry V)) = length es1) as ->.
  { rewrite <-length_map_to_list. by rewrite map_to_list_to_map by apply H1. }
  rewrite <-(sa_entries _ _ H1).
  assert (is_some ((λ e : CacheEntry V, (ce_value e, ce_created_at e)) <$> lru_entries c1 !! k)
          = is_some (lru_entries c1 !! k)) as -> by (by destruct (lru_entries c1 !! k)).
  set (b := (_ <=? _) && _).
  set (es2 := if b then take (length es1 - 1) es1 else es1).
  assert (sorted_as es2 (if b then evict_lru c1 else c1)) as H2.
  { unfold es2. destruct b; [|done]. by apply sorted_as_evict. }
  assert ((if b then take (length es1 - 1) (forget <$> es1) else forget <$> es1) = forget <$> es2)
    as -> by (unfold es2; destruct b; by rewrite ?fmap_take).
  assert (access_ticks (if b then evict_lru c1 else c1) = access_ticks c) as Hc2.
  { destruct b; [|done]. unfold evict_lru. destruct (min_by_key _ _) as [[]|]; done. }
  revert H2 Hc2. generalize (if b then evict_lru c1 else c1). clearbody es2. intros c2 H2 Hc2.
  pose proof (sorted_as_insert es2 c2 k v now) as Hins. rewrite Hc2 in Hins.
  specialize (Hins Hu H2). destruct (next_tick c2) as [tick c3]. simpl in *.
  eexists. split; [exact Hins|]. simpl. f_equal. unfold a_remove. by rewrite <-forget_filter.
Qed.
End Refinement.

(** ** Theorems *)

Section CacheTheorems.
Context {ho : HashOrder} {hol : HashOrderLaws} {K V : Type} `{Countable K}.
Implicit Types (c : LruCache K V).

Lemma evict_lru_frame c :
  lru_config (evict_lru c) = lru_config c ∧ access_ticks (evict_lru c) = access_ticks c.
Proof. unfold evict_lru. by destruct (min_by_key _ _) as [[]|]. Qed.

Lemma apply_lru_frame (o : lru_op K V) c :
  lru_config (apply_lru o c).2 = lru_config c
  ∧ (access_ticks (apply_lru o c).2 ≤ access_ticks c + 1)%N.
Proof.
  assert (∀ n, (u64_wrap n ≤ n)%N) as Hw by (intros n; apply N.Div0.mod_le).
  destruct o as [k now|k v now|]; simpl.
  - unfold lru_get. destruct (negb _); simpl; [split; [done|lia]|].
    destruct (lru_entries c !! k) as [e|]; simpl; [destruct (is_expired _ _ _); simpl|]; done.
  - unfold lru_put. destruct (negb _); simpl; [split; [done|lia]|].
    destruct (_ && _); simpl; [|by split].
    destruct (evict_lru_frame (evict_expired now c)) as [Hc Ht]. rewrite Hc, Ht. by split.
  - split; [done|lia].
Qed.

Lemma sim_step (o : lru_op K V) (l : acache K V) c :
  (access_ticks c + 1 < U64)%N → lru_rel l c →
  fst (apply_lru o c) = fst (apply_a (lru_config c) o l)
  ∧ lru_rel (snd (apply_a (lru_config c) o l)) (snd (apply_lru o c)).
Proof.
  intros Hu Hr. destruct o as [k now|k v now|]; simpl.
  - by apply sim_get.
  - split; [done|]. by apply sim_put.
  - split; [done|]. exists []. split; [|done].
    split; simpl; [done|constructor|constructor|]. intros kv Hkv. by apply elem_of_nil in Hkv.
Qed.

Lemma sim_run (os : list (lru_op K V)) (l : acache K V) c :
  (access_ticks c + N.of_nat (length os) < U64)%N → lru_rel l c →
  fst (run_lru os c) = fst (run_a (lru_config c) os l)
  ∧ lru_rel (snd (run_a (lru_config c) os l)) (snd (run_lru os c)).
Proof.
  revert l c. induction os as [|o os IH]; intros l c Hu Hr; [done|].
  cbn [length] in Hu. cbn [run_lru run_a].
  destruct (sim_step o l c) as [Ho Hl]; [lia|done|].
  destruct (apply_lru_frame o c) as [Hc Ht].
  destruct (apply_lru o c) as [r c1], (apply_a (lru_config c) o l) as [r' l1]. simpl in *.
  destruct (IH l1 c1) as [Hrs Hl2]; [lia|done|]. rewrite Hc in Hrs, Hl2.
  destruct (run_lru os c1), (run_a (lru_config c) os l1). simpl in *. by rewrite Ho, Hrs.
Qed.

(** C36: The cache refines the abstract recency list: along any sequence of fewer than 2^64
    gets, puts and clears, whatever the order in which the hash map is iterated, every
    get returns what the list does, where a get moves its entry to the front, a put drops
    the expired entries and, when the cache is full, the last one. *)
Theorem lru_refines_recency_list (cfg : CacheConfig) (os : list (lru_op K V)) :
  (N.of_nat (length os) < U64)%N →
  fst (run_lru os (LruCache_new cfg)) = fst (run_a cfg os []).
Proof.
  intros Hu. apply (sim_run os [] (LruCache_new cfg)); [done|].
  exists []. split; [|done]. split; simpl; [done|constructor|constructor|].
  intros kv Hkv. by apply elem_of_nil in Hkv.
Qed.

Definition within (c : LruCache K V) : Prop := lru_size c ≤ max_entries (lru_config c) `max` 1.

Lemma size_filter_le {A} (P : K * A → Prop) `{∀ x, Decision (P x)} (m : gmap K A) :
  size (filter P m) ≤ size m.
Proof. apply map_subseteq_size. apply map_filter_subseteq. Qed.

Lemma evict_lru_size c : size (lru_entries (evict_lru c)) = size (lru_entries c) - 1.
Proof.
  unfold evict_lru. pose proof (min_by_key_spec (λ kv : K * CacheEntry V, last_accessed kv.2)
    (hash_order (lru_entries c))) as Hmin.
  destruct (min_by_key _ _) as [[k e]|]; simpl.
  - destruct Hmin as [Hin _]. apply elem_of_hash_order in Hin.
    rewrite map_size_delete_Some by eauto. lia.
  - pose proof (hash_order_perm _ _ _ _ (lru_entries c)) as Hp. rewrite Hmin in Hp.
    apply Permutation_nil in Hp. rewrite <-length_map_to_list, Hp. done.
Qed.

Lemma put_within k v now c : within c → within (lru_put k v now c).2.
Proof.
  unfold within, lru_size, lru_put, next_tick. intros Hc. destruct (negb _); [done|].
  unfold with_entries. cbn [snd lru_entries lru_config].
  assert (size (lru_entries (evict_expired now c)) ≤ size (lru_entries c)) as Hle
    by apply size_filter_le.
  assert (lru_config (evict_expired now c) = lru_config c) as Hcfg by done.
  revert Hle Hcfg. generalize (evict_expired now c). intros c1 Hle Hcfg. rewrite Hcfg in *.
  destruct (Nat.leb_spec (max_entries (lru_config c)) (size (lru_entries c1))) as [Hful|Hful];
    simpl; [destruct (lru_entries c1 !! k) as [e|] eqn:Hk; simpl|].
  - rewrite map_size_insert_Some by eauto. rewrite Hcfg. lia.
  - destruct (evict_lru_frame c1) as [-> _]. rewrite Hcfg, map_size_insert, evict_lru_size.
    assert (1 ≤ size (lru_entries c1) ∨ size (lru_entries c1) = 0) as [?|?] by lia;
      destruct (lru_entries (evict_lru c1) !! k); simpl; lia.
  - rewrite Hcfg, map_size_insert. destruct (lru_entries c1 !! k); simpl; lia.
Qed.

Lemma apply_within (o : lru_op K V) c : within c → within (apply_lru o c).2.
Proof.
  destruct o as [k now|k v now|]; simpl; [|apply put_within|].
  - unfold within, lru_size, lru_get. intros Hc. destruct (negb _); [done|]. simpl.
    destruct (lru_entries c !! k) as [e|] eqn:Hk; simpl; [|done].
    destruct (is_expired _ _ _); simpl.
    + rewrite map_size_delete. destruct (lru_entries c !! k); simpl; lia.
    + by rewrite map_size_insert_Some by eauto.
  - unfold within, lru_size. simpl. rewrite map_size_empty. lia.
Qed.

(** The number of entries never exceeds the configured maximum, along any sequence of
    operations; a maximum of zero behaves as one. *)
Theorem cache_never_overflows (cfg : CacheConfig) (os : list (lru_op K V)) :
  lru_size (run_lru os (LruCache_new cfg)).2 ≤ max_entries cfg `max` 1.
Proof.
  assert (∀ os c, lru_config c = cfg → within c → within (run_lru os c).2
    ∧ lru_config (run_lru os c).2 = cfg) as Hrun.
  { clear os. intros os. induction os as [|o os IH]; intros c Hc Hw; [done|]. simpl.
    pose proof (apply_within o c Hw) as Hw1. destruct (apply_lru_frame o c) as [Hc1 _].
    destruct (apply_lru o c) as [r c1]. simpl in *.
    destruct (IH c1) as [Hw2 Hc2]; [congruence|done|]. by destruct (run_lru os c1). }
  destruct (Hrun os (LruCache_new cfg)) as [Hw Hc]; [done| |].
  - unfold within, lru_size. simpl. rewrite map_size_empty. lia.
  - unfold within in Hw. by rewrite Hc in Hw.
Qed.

(** A get returns a value only when an entry for that key is there whose age is not
    negative and at most the time to live, and it never changes what is stored under
    other keys. *)
Theorem get_is_fresh (k : K) (now : Z) (v : V) c c' :
  lru_get k now c = (Some v, c') →
  (∃ e, lru_entries c !! k = Some e ∧ ce_value e = v
     ∧ (0 ≤ now - ce_created_at e ≤ Z.of_N (ttl_seconds (lru_config c)) * 1000000000)%Z)
  ∧ ∀ k', k' ≠ k → lru_entries c' !! k' = lru_entries c !! k'.
Proof.
  unfold lru_get. destruct (negb _); [done|]. simpl.
  destruct (lru_entries c !! k) as [e|] eqn:Hk; [|done].
  destruct (is_expired _ now e) eqn:He; [done|]. intros [= <- <-]. split.
  - exists e. split; [done|]. split; [done|]. unfold is_expired, expired_at in He.
    case_decide; [done|]. apply bool_decide_eq_false in He. lia.
  - intros k' Hk'. simpl. by rewrite lookup_insert_ne.
Qed.
End CacheTheorems.

Section ManagerTheorems.
Context {ho : HashOrder}.

Lemma key_of_bytes (k : Key) : key_of (arr (key_bytes k)) = Some k.
Proof. unfold key_of, Key_from_bytes. rewrite array_of_arr. by destruct k. Qed.

(** What is cached under an epoch is never another key than the last one. *)
Lemma epoch_key_or_none id key t now m m' :
  epoch_key_cache m' = epoch_key_cache (cache_epoch_key id key t m).2 →
  (get_epoch_key id now m').1 = Some key ∨ (get_epoch_key id now m').1 = None.
Proof.
  unfold cache_epoch_key, get_epoch_key, lru_put, lru_get.
  destruct (enabled (lru_config (epoch_key_cache m))) eqn:Hen; simpl; intros ->; [|rewrite Hen; by right].
  set (c := if _ && _ then _ else _).
  assert (lru_config c = lru_config (epoch_key_cache m)) as Hc.
  { unfold c. destruct (_ && _); [|done]. unfold evict_lru. by destruct (min_by_key _ _) as [[]|]. }
  clearbody c. simpl. rewrite Hc, Hen. simpl. rewrite lookup_insert_eq.
  destruct (is_expired _ _ _); [by right|]. simpl. left. by rewrite key_of_bytes.
Qed.

(** A cached epoch key is returned until its time to live is over, and after
    [clear_all] no key is. *)
Theorem epoch_key_cached (id : N) (key : Key) (t now : Z) (m m' : CacheManager) :
  enabled (lru_config (epoch_key_cache m)) = true →
  (0 ≤ now - t ≤ Z.of_N (ttl_seconds (lru_config (epoch_key_cache m))) * 1000000000)%Z →
  cache_epoch_key id key t m = (Ok tt, m') →
  fst (get_epoch_key id now m') = Some key ∧ fst (get_epoch_key id now (clear_all m')) = None.
Proof.
  unfold cache_epoch_key, get_epoch_key, lru_put, lru_get. intros Hen Ht. rewrite Hen. simpl.
  intros [= <-].
  set (c := if _ && _ then _ else _).
  assert (lru_config c = lru_config (epoch_key_cache m)) as Hc.
  { unfold c. destruct (_ && _); [|done]. unfold evict_lru. by destruct (min_by_key _ _) as [[]|]. }
  clearbody c. simpl. rewrite Hc, Hen. simpl. rewrite lookup_insert_eq.
  unfold is_expired, expired_at. simpl. rewrite decide_False by lia.
  rewrite bool_decide_eq_false_2 by lia. simpl. by rewrite key_of_bytes.
Qed.
End ManagerTheorems.

(** ** Concrete instances *)

#[local] Existing Instances toy_hash_order toy_hash_order_laws.

Definition small_cache : CacheConfig := mkCacheConfig 2 3600 true.
Definition lru_trace : list (lru_op string N) :=
  [LruPut "key1" 1%N 0; LruPut "key2" 2%N 1; LruGet "key1" 2; LruPut "key3" 3%N 3;
   LruGet "key1" 4; LruGet "key2" 5; LruGet "key3" 6].

Lemma lru_refines_recency_list_witness :
  fst (run_lru lru_trace (LruCache_new small_cache)) =
  [None; None; Some 1%N; None; Some 1%N; None; Some 3%N].
Proof.
  rewrite (lru_refines_recency_list small_cache lru_trace); [reflexivity|]. vm_compute. reflexivity.
Defined.

Lemma get_is_fresh_witness :
  ∃ e, lru_entries (run_lru [LruPut "key1" 1%N 0] (LruCache_new small_cache)).2 !! "key1" = Some e
     ∧ ce_value e = 1%N.
Proof.
  destruct (get_is_fresh "key1" 2 1%N
    (run_lru [LruPut "key1" 1%N 0] (LruCache_new small_cache)).2
    (lru_get "key1" 2 (run_lru [LruPut "key1" 1%N 0] (LruCache_new small_cache)).2).2)
    as [(e & He & Hv & _) _]; [vm_compute; reflexivity|]. by exists e.
Defined.

Lemma epoch_key_cached_witness :
  fst (get_epoch_key 4 10 (cache_epoch_key 4 (mkKey (zeros 32)) 3 CacheManager_new).2)
    = Some (mkKey (zeros 32)).
Proof.
  apply (epoch_key_cached 4 (mkKey (zeros 32)) 3 10 CacheManager_new
           (cache_epoch_key 4 (mkKey (zeros 32)) 3 CacheManager_new).2);
    [reflexivity|vm_compute; split; discriminate|reflexivity].
Defined.

Lemma cache_never_overflows_witness :
  lru_size (run_lru lru_trace (LruCache_new small_cache)).2 ≤ 2.
Proof. apply (cache_never_overflows small_cache lru_trace). Defined.
