(* ===== verification/HybridKem.v ===== *)
(** * The hybrid key encapsulation ([crates/crypto/src/hybridkem.rs],
      [crates/crypto/src/x25519.rs], [crates/crypto/src/mlkem_adapter.rs])

    X25519 and ML-KEM-768 joined by HKDF-SHA256 with a domain string per use.
    [x25519_dalek] and aws-lc's ML-KEM are type classes with their laws;
    randomness is an argument. *)

From Stdlib Require Import Strings.Byte.
From stdpp Require Import base tactics numbers list gmap strings option.
From S2P Require Import Prelude Crypto.
Open Scope hc_scope.

Definition X25519_PUBLIC_KEY_LEN : nat := 32.
Definition X25519_PRIVATE_KEY_LEN : nat := 32.
Definition MLKEM_PUBLIC_KEY_LEN : nat := 1184.
Definition MLKEM_SECRET_KEY_LEN : nat := 2400.
Definition MLKEM_CIPHERTEXT_LEN : nat := 1088.
Definition HYBRID_PUBLIC_KEY_LEN : nat := 32 + MLKEM_PUBLIC_KEY_LEN.
Definition HYBRID_SECRET_KEY_LEN : nat := 32 + MLKEM_SECRET_KEY_LEN.
Definition HYBRID_CIPHERTEXT_LEN : nat := 32 + MLKEM_CIPHERTEXT_LEN.
Definition SHARED_SECRET_LEN : nat := 32.

(** ** The libraries *)

(** [x25519_dalek]: the public key of a scalar, the raw exchange, and whether its
    result depends on both sides. *)
Class X25519 := {
  dalek_x25519_public : array 32 → array 32;
  dalek_x25519 : array 32 → array 32 → array 32;
  dalek_contributory : array 32 → bool;
}.
Class X25519Laws `{X25519} : Prop :=
  dalek_x25519_comm : ∀ a b,
    dalek_x25519 a (dalek_x25519_public b) = dalek_x25519 b (dalek_x25519_public a).

(** aws-lc's ML-KEM-768, which draws its own randomness: [coins]. *)
Class MlKem := {
  mlkem_keygen : bytes → res CryptoError (array MLKEM_SECRET_KEY_LEN * array MLKEM_PUBLIC_KEY_LEN);
  mlkem_encaps : bytes → array MLKEM_PUBLIC_KEY_LEN → res CryptoError (array MLKEM_CIPHERTEXT_LEN * array 32);
  mlkem_decaps : array MLKEM_SECRET_KEY_LEN → array MLKEM_CIPHERTEXT_LEN → res CryptoError (array 32);
}.
Class MlKemLaws `{MlKem} : Prop :=
  mlkem_correct : ∀ coins coins' sk pk ct ss,
    mlkem_keygen coins = Ok (sk, pk) → mlkem_encaps coins' pk = Ok (ct, ss) →
    mlkem_decaps sk ct = Ok ss.

(** ** Keys and ciphertexts *)

Record X25519PublicKey := mkX25519PublicKey { xpk_inner : array 32 }.
Record X25519PrivateKey := mkX25519PrivateKey { xsk_inner : array 32 }.
Record X25519SharedSecret := mkX25519SharedSecret { xss_bytes : array 32 }.
Record X25519KeyPair := mkX25519KeyPair {
  xkp_public : X25519PublicKey;
  xkp_private : X25519PrivateKey;
}.
Record MlKemPublicKey := mkMlKemPublicKey { mpk_bytes : array MLKEM_PUBLIC_KEY_LEN }.
Record MlKemSecretKey := mkMlKemSecretKey { msk_bytes : array MLKEM_SECRET_KEY_LEN }.
Record MlKemCiphertext := mkMlKemCiphertext { mct_bytes : array MLKEM_CIPHERTEXT_LEN }.
Record MlKemSharedSecret := mkMlKemSharedSecret { mss_bytes : array 32 }.

Record HybridPublicKey := mkHybridPublicKey {
  hpk_x25519 : X25519PublicKey;
  hpk_mlkem : MlKemPublicKey;
}.
Record HybridSecretKey := mkHybridSecretKey {
  hsk_x25519 : X25519PrivateKey;
  hsk_mlkem : MlKemSecretKey;
}.
Record HybridCiphertext := mkHybridCiphertext {
  hct_x25519 : X25519PublicKey;
  hct_mlkem : MlKemCiphertext;
}.
Record SharedSecret := mkSharedSecret { ss_bytes : array 32 }.
Record HybridKeyPair := mkHybridKeyPair {
  hkp_public : HybridPublicKey;
  hkp_secret : HybridSecretKey;
}.

Inductive KemContext := KemWelcome | KemGroupUpdate | KemRecoveryWriterHandoff.

Definition domain_string (c : KemContext) : bytes :=
  match c with
  | KemWelcome => bytes_of "hybridkem-welcome"
  | KemGroupUpdate => bytes_of "hybridkem-groupupdate"
  | KemRecoveryWriterHandoff => bytes_of "hybridkem-recovery-writer-handoff-v1"
  end.

(** ** Bytes *)

(** The length check of every [from_bytes] here. *)
Definition fixed_bytes (err : string → CryptoError) (n : nat) (b : bytes)
  : res CryptoError (array n) :=
  match array_of n b with
  | Some a => Ok a
  | None => Err (err (bad_length n (length b)))
  end.

Definition X25519PublicKey_from_bytes (b : bytes) : res CryptoError X25519PublicKey :=
  let? a := fixed_bytes InvalidKey X25519_PUBLIC_KEY_LEN b in Ok (mkX25519PublicKey a).
Definition X25519PrivateKey_from_bytes (b : bytes) : res CryptoError X25519PrivateKey :=
  let? a := fixed_bytes InvalidKey X25519_PRIVATE_KEY_LEN b in Ok (mkX25519PrivateKey a).
Definition MlKemPublicKey_from_bytes (b : bytes) : res CryptoError MlKemPublicKey :=
  let? a := fixed_bytes InvalidKey MLKEM_PUBLIC_KEY_LEN b in Ok (mkMlKemPublicKey a).
Definition MlKemSecretKey_from_bytes (b : bytes) : res CryptoError MlKemSecretKey :=
  let? a := fixed_bytes InvalidKey MLKEM_SECRET_KEY_LEN b in Ok (mkMlKemSecretKey a).
Definition MlKemCiphertext_from_bytes (b : bytes) : res CryptoError MlKemCiphertext :=
  let? a := fixed_bytes InvalidCiphertext MLKEM_CIPHERTEXT_LEN b in Ok (mkMlKemCiphertext a).

Definition HybridPublicKey_from_bytes (b : bytes) : res CryptoError HybridPublicKey :=
  if decide (length b ≠ HYBRID_PUBLIC_KEY_LEN)
  then Err (InvalidKey (bad_length HYBRID_PUBLIC_KEY_LEN (length b)))
  else
    let? x := X25519PublicKey_from_bytes (take 32 b) in
    let? m := MlKemPublicKey_from_bytes (drop 32 b) in
    Ok (mkHybridPublicKey x m).
Definition HybridPublicKey_to_bytes (k : HybridPublicKey) : bytes :=
  arr (xpk_inner (hpk_x25519 k)) ++ arr (mpk_bytes (hpk_mlkem k)).

Definition HybridSecretKey_from_bytes (b : bytes) : res CryptoError HybridSecretKey :=
  if decide (length b ≠ HYBRID_SECRET_KEY_LEN)
  then Err (InvalidKey (bad_length HYBRID_SECRET_KEY_LEN (length b)))
  else
    let? x := X25519PrivateKey_from_bytes (take 32 b) in
    let? m := MlKemSecretKey_from_bytes (drop 32 b) in
    Ok (mkHybridSecretKey x m).
Definition HybridSecretKey_to_bytes (k : HybridSecretKey) : bytes :=
  arr (xsk_inner (hsk_x25519 k)) ++ arr (msk_bytes (hsk_mlkem k)).

Definition HybridCiphertext_from_bytes (b : bytes) : res CryptoError HybridCiphertext :=
  if decide (length b ≠ HYBRID_CIPHERTEXT_LEN)
  then Err (InvalidCiphertext (bad_length HYBRID_CIPHERTEXT_LEN (length b)))
  else
    let? x := X25519PublicKey_from_bytes (take 32 b) in
    let? m := MlKemCiphertext_from_bytes (drop 32 b) in
    Ok (mkHybridCiphertext x m).
Definition HybridCiphertext_to_bytes (c : HybridCiphertext) : bytes :=
  arr (xpk_inner (hct_x25519 c)) ++ arr (mct_bytes (hct_mlkem c)).

(** ** Encapsulation *)

Section Kem.
Context {xc : X25519} {mk : MlKem} {hk : Hkdf}.

Definition X25519PrivateKey_public_key (k : X25519PrivateKey) : X25519PublicKey :=
  mkX25519PublicKey (dalek_x25519_public (xsk_inner k)).

Definition non_contributory_error : CryptoError :=
  InvalidKey "X25519 public key is a low-order point (all-zero shared secret)".

Definition diffie_hellman (k : X25519PrivateKey) (p : X25519PublicKey)
  : res CryptoError X25519SharedSecret :=
  let shared := dalek_x25519 (xsk_inner k) (xpk_inner p) in
  if negb (dalek_contributory shared) then Err non_contributory_error
  else Ok (mkX25519SharedSecret shared).

Definition X25519KeyPair_generate (scalar : array 32) : X25519KeyPair :=
  let private := mkX25519PrivateKey scalar in
  mkX25519KeyPair (X25519PrivateKey_public_key private) private.

Definition X25519KeyPair_from_private_bytes (b : bytes) : res CryptoError X25519KeyPair :=
  let? private := X25519PrivateKey_from_bytes b in
  Ok (mkX25519KeyPair (X25519PrivateKey_public_key private) private).

Definition ephemeral_diffie_hellman (scalar : array 32) (p : X25519PublicKey)
  : res CryptoError (X25519PublicKey * X25519SharedSecret) :=
  let shared := dalek_x25519 scalar (xpk_inner p) in
  if negb (dalek_contributory shared) then Err non_contributory_error
  else Ok (mkX25519PublicKey (dalek_x25519_public scalar), mkX25519SharedSecret shared).

Definition HybridKeyPair_generate (scalar : array 32) (coins : bytes) : res CryptoError HybridKeyPair :=
  let x := X25519KeyPair_generate scalar in
  let? (sk, pk) := mlkem_keygen coins in
  Ok (mkHybridKeyPair (mkHybridPublicKey (xkp_public x) (mkMlKemPublicKey pk))
        (mkHybridSecretKey (xkp_private x) (mkMlKemSecretKey sk))).

(** The output array has 32 bytes, so [expand] is asked for 32. *)
Definition derive_shared_secret (x : X25519SharedSecret) (m : MlKemSharedSecret) (c : KemContext)
  : res CryptoError SharedSecret :=
  let ikm := arr (xss_bytes x) ++ arr (mss_bytes m) in
  let? output := map_err (λ _, KeyDerivationFailure "HKDF expansion failed")
                   (hkdf_okm (hkdf_prk None ikm) (domain_string c) SHARED_SECRET_LEN) in
  let? a := unwrap (array_of 32 output) in Ok (mkSharedSecret a).

Definition encap (scalar : array 32) (coins : bytes) (pk : HybridPublicKey) (c : KemContext)
  : res CryptoError (HybridCiphertext * SharedSecret) :=
  let eph := X25519KeyPair_generate scalar in
  let? x := diffie_hellman (xkp_private eph) (hpk_x25519 pk) in
  let? (ct, ss) := mlkem_encaps coins (mpk_bytes (hpk_mlkem pk)) in
  let? combined := derive_shared_secret x (mkMlKemSharedSecret ss) c in
  Ok (mkHybridCiphertext (xkp_public eph) (mkMlKemCiphertext ct), combined).

Definition decap (sk : HybridSecretKey) (ct : HybridCiphertext) (c : KemContext)
  : res CryptoError SharedSecret :=
  let? x := diffie_hellman (hsk_x25519 sk) (hct_x25519 ct) in
  let? ss := mlkem_decaps (msk_bytes (hsk_mlkem sk)) (mct_bytes (hct_mlkem ct)) in
  derive_shared_secret x (mkMlKemSharedSecret ss) c.

(** ** Theorems *)

#[local] Opaque MLKEM_SECRET_KEY_LEN MLKEM_PUBLIC_KEY_LEN MLKEM_CIPHERTEXT_LEN.

Lemma encap_decap `{!X25519Laws} `{!MlKemLaws} (scalar eph : array 32)
    (coins coins' : bytes) (kp : HybridKeyPair) (c : KemContext) (ct : HybridCiphertext)
    (ss : SharedSecret) :
  HybridKeyPair_generate scalar coins = Ok kp →
  encap eph coins' (hkp_public kp) c = Ok (ct, ss) →
  decap (hkp_secret kp) ct c = Ok ss.
Proof.
  unfold HybridKeyPair_generate, encap, decap. intros Hg He.
  destruct (mlkem_keygen coins) as [[sk pk]| | |] eqn:Hk; simplify_eq/=.
  unfold diffie_hellman in *. simpl in *.
  destruct (dalek_contributory _) eqn:Hc; simplify_eq/=.
  destruct (mlkem_encaps coins' pk) as [[mct mss]| | |] eqn:Hm; simplify_eq/=.
  destruct (derive_shared_secret _ _ c) as [d| | |] eqn:Hd; simplify_eq/=.
  rewrite dalek_x25519_comm, Hc. simpl. by rewrite (mlkem_correct _ _ _ _ _ _ Hk Hm).
Qed.

(** Encapsulation round trip: whatever is encapsulated to the public half of a
    generated key pair, the secret half decapsulates to the same shared secret. *)
Theorem hybridkem_roundtrip `{!X25519Laws} `{!MlKemLaws} (scalar eph : array 32)
    (coins coins' : bytes) (kp : HybridKeyPair) (c : KemContext) (ct : HybridCiphertext)
    (ss : SharedSecret) :
  HybridKeyPair_generate scalar coins = Ok kp →
  encap eph coins' (hkp_public kp) c = Ok (ct, ss) →
  decap (hkp_secret kp) ct c = Ok ss.
Proof. apply encap_decap. Qed.
End Kem.

Lemma fixed_bytes_Ok err n b a : fixed_bytes err n b = Ok a ↔ arr a = b.
Proof.
  rewrite <-array_of_Some. unfold fixed_bytes. destruct (array_of n b); naive_solver.
Qed.

(** Two fixed parts are exactly the halves of what they print to. *)
Lemma two_parts {n1 n2} (a1 : array n1) (a2 : array n2) (b : bytes) :
  arr a1 ++ arr a2 = b ↔ length b = n1 + n2 ∧ arr a1 = take n1 b ∧ arr a2 = drop n1 b.
Proof.
  split.
  - intros <-. rewrite length_app, !arr_length.
    by rewrite take_app_length', drop_app_length' by (by rewrite arr_length).
  - intros (_ & -> & ->). apply take_drop.
Qed.

Lemma res_bind_Ok_ret {E A B} (f : A → B) (m : res E A) b :
  res_bind m (λ a, Ok (f a)) = Ok b ↔ ∃ a, m = Ok a ∧ b = f a.
Proof. destruct m; simpl; naive_solver. Qed.

(** The byte forms are exact: a public key, a secret key and a ciphertext are parsed
    from the bytes they print to, and from no others. *)
Theorem hybrid_bytes_exact (b : bytes) :
  (∀ k, HybridPublicKey_from_bytes b = Ok k ↔ HybridPublicKey_to_bytes k = b)
  ∧ (∀ k, HybridSecretKey_from_bytes b = Ok k ↔ HybridSecretKey_to_bytes k = b)
  ∧ (∀ c, HybridCiphertext_from_bytes b = Ok c ↔ HybridCiphertext_to_bytes c = b).
Proof.
  split_and!; intros [[x] [m]].
  - unfold HybridPublicKey_from_bytes, HybridPublicKey_to_bytes, X25519PublicKey_from_bytes,
      MlKemPublicKey_from_bytes. simpl. rewrite two_parts.
    destruct (decide _) as [Hl|Hl]; [naive_solver|]. apply dec_stable in Hl.
    setoid_rewrite res_bind_Ok. setoid_rewrite res_bind_Ok_ret.
    setoid_rewrite res_bind_Ok_ret. setoid_rewrite fixed_bytes_Ok. naive_solver.
  - unfold HybridSecretKey_from_bytes, HybridSecretKey_to_bytes, X25519PrivateKey_from_bytes,
      MlKemSecretKey_from_bytes. simpl. rewrite two_parts.
    destruct (decide _) as [Hl|Hl]; [naive_solver|]. apply dec_stable in Hl.
    setoid_rewrite res_bind_Ok. setoid_rewrite res_bind_Ok_ret.
    setoid_rewrite res_bind_Ok_ret. setoid_rewrite fixed_bytes_Ok. naive_solver.
  - unfold HybridCiphertext_from_bytes, HybridCiphertext_to_bytes, X25519PublicKey_from_bytes,
      MlKemCiphertext_from_bytes. simpl. rewrite two_parts.
    destruct (decide _) as [Hl|Hl]; [naive_solver|]. apply dec_stable in Hl.
    setoid_rewrite res_bind_Ok. setoid_rewrite res_bind_Ok_ret.
    setoid_rewrite res_bind_Ok_ret. setoid_rewrite fixed_bytes_Ok. naive_solver.
Qed.

#[local] Transparent MLKEM_SECRET_KEY_LEN MLKEM_PUBLIC_KEY_LEN MLKEM_CIPHERTEXT_LEN.

(** ** A concrete instance of the libraries

    Numbers of 256 bits: the exchange is addition, which commutes. *)

Definition num_array (k : nat) (n : N) : array k := dexist (le_bytes k n) (le_bytes_length k n).
Definition small (b : bytes) : N := le_num b mod 256 ^ 32.

Definition toy_x25519 : X25519 := {|
  dalek_x25519_public := λ a, a;
  dalek_x25519 := λ a b, num_array 32 (le_num (arr a) + le_num (arr b));
  dalek_contributory := λ s, negb (bool_decide (s = zeros 32));
|}.
Lemma toy_x25519_laws : @X25519Laws toy_x25519.
Proof. intros a b. simpl. by rewrite N.add_comm. Qed.

Definition toy_mlkem : MlKem := {|
  mlkem_keygen := λ coins, Ok (num_array MLKEM_SECRET_KEY_LEN (small coins), num_array MLKEM_PUBLIC_KEY_LEN (small coins));
  mlkem_encaps := λ coins pk,
    Ok (num_array MLKEM_CIPHERTEXT_LEN (small coins), num_array 32 (small coins + le_num (arr pk)));
  mlkem_decaps := λ sk ct, Ok (num_array 32 (le_num (arr ct) + le_num (arr sk)));
|}.

Lemma le_num_num_array k b : 32 ≤ k → le_num (arr (num_array k (small b))) = small b.
Proof.
  intros Hk. apply le_num_bytes. unfold small.
  apply N.lt_le_trans with (256 ^ 32)%N; [by apply N.mod_lt|].
  apply N.pow_le_mono_r; lia.
Qed.

Lemma toy_mlkem_laws : @MlKemLaws toy_mlkem.
Proof.
  intros coins coins' sk pk ct ss E1 E2.
  apply Ok_inj, pair_eq in E1 as [<- <-]. apply Ok_inj, pair_eq in E2 as [<- <-].
  change (Ok (num_array 32 (le_num (arr (num_array MLKEM_CIPHERTEXT_LEN (small coins')))
      + le_num (arr (num_array MLKEM_SECRET_KEY_LEN (small coins)))))
    = @Ok CryptoError _ (num_array 32 (small coins' + le_num (arr (num_array MLKEM_PUBLIC_KEY_LEN (small coins)))))).
  rewrite !le_num_num_array by (vm_compute; lia). done.
Qed.

#[local] Existing Instances toy_x25519 toy_x25519_laws toy_mlkem toy_mlkem_laws toy_hkdf.

Definition toy_pair (n : N) : HybridKeyPair :=
  match HybridKeyPair_generate (num_array 32 n) (le_bytes 4 n) with
  | Ok kp => kp
  | _ => mkHybridKeyPair (mkHybridPublicKey (mkX25519PublicKey (zeros 32)) (mkMlKemPublicKey (zeros MLKEM_PUBLIC_KEY_LEN)))
           (mkHybridSecretKey (mkX25519PrivateKey (zeros 32)) (mkMlKemSecretKey (zeros MLKEM_SECRET_KEY_LEN)))
  end.

Definition toy_encap (n : N) (c : KemContext) : res CryptoError (HybridCiphertext * SharedSecret) :=
  encap (num_array 32 5) (le_bytes 4 6) (hkp_public (toy_pair n)) c.

Lemma hybridkem_roundtrip_witness :
  match toy_encap 3 KemWelcome with
  | Ok (ct, ss) => decap (hkp_secret (toy_pair 3)) ct KemWelcome = Ok ss
  | _ => False
  end.
Proof.
  destruct (toy_encap 3 KemWelcome) as [[ct ss]| | |] eqn:He.
  - apply (hybridkem_roundtrip (num_array 32 3) (num_array 32 5) (le_bytes 4 3) (le_bytes 4 6)
             (toy_pair 3) KemWelcome ct ss); [reflexivity|exact He].
  - vm_compute in He. discriminate He.
  - vm_compute in He. discriminate He.
  - vm_compute in He. discriminate He.
Defined.
