(* ===== verification/Welcome.v ===== *)
(** * Welcome messages ([crates/messages/src/welcome.rs],
      [crates/client/src/epoch/welcome.rs])

    The message that gives a new member its epoch secrets, and the processor that
    validates it, opens the secrets, checks the signature and records the epochs.
    Storage is the interface of [Storage.v]; several theorems compose the processor
    with the in-memory store.  The state of a handler is the processor with its
    storage; one clock reading stands for the readings of one call.  [serde_cbor],
    [serde_json] and [chrono]'s range check are parameters. *)

From Stdlib Require Import Strings.Byte.
From stdpp Require Import base tactics numbers sets list gmap strings pretty option sorting.
From S2P Require Import Prelude StateError Crypto HybridKem EpochState CutoverMessages FilePath.
From S2P Require Import Storage.
Open Scope hc_scope.
Open Scope hc_st_scope.

(** ** The message *)

Record EpochInfo := mkEpochInfo {
  ei_epoch_id : bytes;
  ei_group_id : string;
  ei_sequence : N;
  ei_created_at : N;
  ei_expires_at : option N;
}.

Record GroupMember := mkGroupMember {
  gm_user_id : string;
  gm_device_id : string;
  gm_identity_public : bytes;
  gm_joined_at : N;
  gm_is_admin : bool;
}.

Record WelcomeMessage := mkWelcomeMessage {
  wm_recipient_device_id : string;
  wm_recipient_user_id : string;
  wm_encrypted_payload : bytes;
  wm_epoch_info : EpochInfo;
  wm_group_members : list GroupMember;
  wm_admin_signature : bytes;
}.

(** The serialisers of these messages. *)
Class WelcomeCodec := {
  secrets_to_cbor : EpochSecrets → res string bytes;
  secrets_from_cbor : bytes → res string EpochSecrets;
  welcome_to_json : WelcomeMessage → res string bytes;
}.
Class WelcomeCodecLaws `{WelcomeCodec} : Prop :=
  secrets_cbor_roundtrip : ∀ s b, secrets_to_cbor s = Ok b → secrets_from_cbor b = Ok s.

(** [DateTime::from_timestamp(secs, 0)]: [None] outside the years that [chrono]
    represents. *)
Class Chrono := from_timestamp : Z → option Z.

(** [n as i64]. *)
Definition as_i64 (n : N) : Z :=
  let m := (n mod U64)%N in
  if (m <? 2 ^ 63)%N then Z.of_N m else (Z.of_N m - 2 ^ 64)%Z.

Definition is_empty_string (s : string) : bool := bool_decide (s = "").

Definition EpochInfo_validate (e : EpochInfo) : res MessageError unit :=
  if bool_decide (ei_epoch_id e = []) then Err (MsgInvalidFormat "epoch_id cannot be empty")
  else if is_empty_string (ei_group_id e) then Err (MsgInvalidFormat "group_id cannot be empty")
  else match ei_expires_at e with
       | Some expires =>
           if (expires <=? ei_created_at e)%N
           then Err (MsgInvalidFormat "expires_at must be after created_at") else Ok tt
       | None => Ok tt
       end.

Definition EpochInfo_new (epoch_id : bytes) (group_id : string) (sequence created_at : N)
    (expires_at : option N) : res MessageError EpochInfo :=
  let info := mkEpochInfo epoch_id group_id sequence created_at expires_at in
  let? _ := EpochInfo_validate info in Ok info.

Definition EpochInfo_is_expired (current_time : N) (e : EpochInfo) : bool :=
  match ei_expires_at e with Some expires => (expires <? current_time)%N | None => false end.

Definition GroupMember_validate (m : GroupMember) : res MessageError unit :=
  if is_empty_string (gm_user_id m) then Err (MsgInvalidFormat "user_id cannot be empty")
  else if is_empty_string (gm_device_id m) then Err (MsgInvalidFormat "device_id cannot be empty")
  else if decide (length (gm_identity_public m) ≠ 32)
  then Err (MsgInvalidFormat "identity_public must be 32 bytes") else Ok tt.

Definition GroupMember_new (user_id device_id : string) (identity_public : bytes) (joined_at : N)
    (is_admin : bool) : res MessageError GroupMember :=
  let m := mkGroupMember user_id device_id identity_public joined_at is_admin in
  let? _ := GroupMember_validate m in Ok m.

Fixpoint validate_group_members (l : list GroupMember) : res MessageError unit :=
  match l with
  | [] => Ok tt
  | m :: l => let? _ := GroupMember_validate m in validate_group_members l
  end.

Definition Welcome_validate (w : WelcomeMessage) : res MessageError unit :=
  if is_empty_string (wm_recipient_device_id w)
  then Err (MsgInvalidFormat "recipient_device_id cannot be empty")
  else if is_empty_string (wm_recipient_user_id w)
  then Err (MsgInvalidFormat "recipient_user_id cannot be empty")
  else if bool_decide (wm_encrypted_payload w = [])
  then Err (MsgInvalidFormat "encrypted_payload cannot be empty")
  else if decide (length (wm_admin_signature w) ≠ 64)
  then Err (MsgInvalidFormat "admin_signature must be 64 bytes")
  else
    let? _ := EpochInfo_validate (wm_epoch_info w) in
    validate_group_members (wm_group_members w).

Definition Welcome_new (device user : string) (payload : bytes) (info : EpochInfo)
    (members : list GroupMember) (signature : bytes) : res MessageError WelcomeMessage :=
  let w := mkWelcomeMessage device user payload info members signature in
  let? _ := Welcome_validate w in Ok w.

Section Secrets.
Context {ho : HashOrder} {codec : WelcomeCodec}.

Fixpoint validate_previous_keys (l : list (N * bytes)) : res MessageError unit :=
  match l with
  | [] => Ok tt
  | (seq, key) :: l =>
      if decide (length key ≠ 32)
      then Err (MsgInvalidFormat ("previous_key for epoch " +:+ pretty seq +:+ " must be 32 bytes"))
      else validate_previous_keys l
  end.

Definition EpochSecrets_validate (s : EpochSecrets) : res MessageError unit :=
  if decide (length (es_epoch_key s) ≠ 32) then Err (MsgInvalidFormat "epoch_key must be 32 bytes")
  else if decide (length (es_signing_key s) ≠ 32)
  then Err (MsgInvalidFormat "signing_key must be 32 bytes")
  else validate_previous_keys (hash_order (es_previous_keys s)).

Definition EpochSecrets_new (epoch_key signing_key : bytes) (previous : gmap N bytes)
  : res MessageError EpochSecrets :=
  let s := mkEpochSecrets epoch_key signing_key previous in
  let? _ := EpochSecrets_validate s in Ok s.

Definition EpochSecrets_to_bytes (s : EpochSecrets) : res MessageError bytes :=
  map_err (λ e, MsgSerializationError ("Failed to serialize secrets: " +:+ e)) (secrets_to_cbor s).

Definition EpochSecrets_from_bytes (b : bytes) : res MessageError EpochSecrets :=
  let? s := map_err (λ e, MsgSerializationError ("Failed to deserialize secrets: " +:+ e))
              (secrets_from_cbor b) in
  let? _ := EpochSecrets_validate s in Ok s.

Context {xc : X25519} {mk : MlKem} {hk : Hkdf} {aead : Aead}.

(** [Hkdf::new(None, ikm)] and [expand] into 32 bytes. *)
Definition welcome_key_bytes (ss : SharedSecret) : res string bytes :=
  hkdf_okm (hkdf_prk None (arr (ss_bytes ss))) (bytes_of "welcome aead") 32.

(** The randomness: the ephemeral scalar, ML-KEM's coins and the nonce. *)
Definition encrypt_secrets (scalar : array 32) (coins : bytes) (nonce : array 12)
    (secrets : EpochSecrets) (recipient_invitation_key : bytes) : res MessageError bytes :=
  let? public_key := map_err (λ e, MsgInvalidFormat ("Invalid invitation key: " +:+ CryptoError_display e))
                       (HybridPublicKey_from_bytes recipient_invitation_key) in
  let? (kem_ciphertext, shared_secret) :=
    map_err (λ e, MsgCryptoError ("HybridKEM failure: " +:+ CryptoError_display e))
      (encap scalar coins public_key KemWelcome) in
  let? key := map_err (λ _, MsgCryptoError "HKDF expand failed") (welcome_key_bytes shared_secret) in
  let? aead_key := map_err (λ e, MsgCryptoError ("AEAD key error: " +:+ CryptoError_display e))
                     (Key_from_bytes key) in
  let? plaintext := EpochSecrets_to_bytes secrets in
  let? ciphertext := map_err (λ e, MsgCryptoError ("AEAD encryption failed: " +:+ CryptoError_display e))
                       (seal aead_key (mkNonce nonce) Welcome [] plaintext) in
  Ok (HybridCiphertext_to_bytes kem_ciphertext ++ arr nonce ++ ciphertext).

Definition decrypt_secrets (secret_key_bytes : bytes) (w : WelcomeMessage)
  : res MessageError EpochSecrets :=
  let payload := wm_encrypted_payload w in
  if decide (length payload < HYBRID_CIPHERTEXT_LEN + AEAD_NONCE_LEN)
  then Err (MsgInvalidFormat "encrypted_payload too short")
  else
    let kem_bytes := take HYBRID_CIPHERTEXT_LEN payload in
    let rest := drop HYBRID_CIPHERTEXT_LEN payload in
    let nonce_bytes := take AEAD_NONCE_LEN rest in
    let ciphertext := drop AEAD_NONCE_LEN rest in
    let? kem_ciphertext :=
      map_err (λ e, MsgCryptoError ("Invalid HybridKEM ciphertext: " +:+ CryptoError_display e))
        (HybridCiphertext_from_bytes kem_bytes) in
    let? nonce := map_err (λ e, MsgCryptoError ("Invalid nonce: " +:+ CryptoError_display e))
                    (Nonce_from_bytes nonce_bytes) in
    let? secret_key := map_err (λ e, MsgCryptoError ("Invalid invitation key: " +:+ CryptoError_display e))
                         (HybridSecretKey_from_bytes secret_key_bytes) in
    let? shared_secret :=
      map_err (λ e, MsgCryptoError ("HybridKEM decryption failed: " +:+ CryptoError_display e))
        (decap secret_key kem_ciphertext KemWelcome) in
    let? key := map_err (λ _, MsgCryptoError "HKDF expand failed") (welcome_key_bytes shared_secret) in
    let? aead_key := map_err (λ e, MsgCryptoError ("AEAD key error: " +:+ CryptoError_display e))
                       (Key_from_bytes key) in
    let? plaintext := map_err (λ e, MsgCryptoError ("AEAD decryption failed: " +:+ CryptoError_display e))
                        (open aead_key nonce Welcome [] ciphertext) in
    EpochSecrets_from_bytes plaintext.
End Secrets.

(** ** The processor *)

Record PendingKeyState := mkPendingKeyState {
  pk_secrets : EpochSecrets;
  pk_received_at : Z;
  pk_awaiting_cutover : bool;
  pk_welcome_signature : bytes;
}.

Record WelcomeProcessor := mkWelcomeProcessor {
  wp_device_identity : Ed25519KeyPair;
  wp_device_id : string;
  wp_pending_keys : gmap N PendingKeyState;
}.

Record WelcomeConfig := mkWelcomeConfig {
  wc_max_message_age : N;
  wc_allow_partial_welcome : bool;
  wc_max_retry_attempts : N;
  wc_validation_timeout_ms : N;
}.
Definition WelcomeConfig_default : WelcomeConfig := mkWelcomeConfig 3600 true 3 5000.

Definition WelcomeProcessor_new (identity : Ed25519KeyPair) (device_id : string) : WelcomeProcessor :=
  mkWelcomeProcessor identity device_id ∅.

Definition set_pending (m : gmap N PendingKeyState) (p : WelcomeProcessor) : WelcomeProcessor :=
  mkWelcomeProcessor (wp_device_identity p) (wp_device_id p) m.

Definition HOUR : Z := 3600000000000.

(** [SystemTime::now().duration_since(UNIX_EPOCH)], in seconds. *)
Definition unix_seconds (now : Z) : res string N :=
  if decide (now < 0)%Z then Err "second time provided was later than self"
  else Ok (Z.to_N (now / 1000000000)).

Section Processor.
Context {ho : HashOrder} {codec : WelcomeCodec} {chrono : Chrono}.
Context {xc : X25519} {mk : MlKem} {hk : Hkdf} {aead : Aead} {ed : Ed25519}.
Context {S : Type} {store : Storage S}.

Abbreviation W := (ST (WelcomeProcessor * S) WelcomeError).

(** A call of the storage. *)
Definition on_storage {A} (err : StorageError → WelcomeError) (f : S → res StorageError A * S) : W A :=
  λ ps, let '(r, s) := f ps.2 in (map_err err r, (ps.1, s)).
Definition load {A} (f : S → res StorageError A) : W (StorageError + A) :=
  st_try (λ ps, (f ps.2, ps)).
Definition wstorage (prefix : string) (e : StorageError) : WelcomeError :=
  WStorage (prefix +:+ StorageError_display e).

Definition validate_welcome_message (w : WelcomeMessage) (cfg : WelcomeConfig) (now : Z) : W unit :=
  do* st_lift (map_err (λ e, WInvalidMessage ("Structure validation failed: " +:+ MessageError_display e))
                (Welcome_validate w));
  let* current_time := st_lift (map_err (λ e, WInvalidMessage ("Time error: " +:+ e))
                                  (unix_seconds now)) in
  let message_age := (current_time - ei_created_at (wm_epoch_info w))%N in
  if (wc_max_message_age cfg <? message_age)%N then
    st_fail (WMessageTooOld ("Message age " +:+ pretty message_age +:+ " exceeds maximum "
                             +:+ pretty (wc_max_message_age cfg)))
  else if EpochInfo_is_expired current_time (wm_epoch_info w) then
    st_fail (WEpochExpired ("Epoch " +:+ pretty (ei_sequence (wm_epoch_info w)) +:+ " has expired"))
  else
    let* ps := st_get in
    if negb (bool_decide (wm_recipient_device_id w = wp_device_id ps.1))
    then st_fail (WWrongRecipient "Welcome not intended for this device")
    else st_ret tt.

Definition open_welcome (sk : HybridSecretKey) (w : WelcomeMessage) : res WelcomeError EpochSecrets :=
  let payload := wm_encrypted_payload w in
  if decide (length payload < HYBRID_CIPHERTEXT_LEN + AEAD_NONCE_LEN)
  then Err (WDecryptionFailed "Encrypted payload too short")
  else
    let kem_bytes := take HYBRID_CIPHERTEXT_LEN payload in
    let rest := drop HYBRID_CIPHERTEXT_LEN payload in
    let nonce_bytes := take AEAD_NONCE_LEN rest in
    let ciphertext := drop AEAD_NONCE_LEN rest in
    let? kem_ciphertext :=
      map_err (λ e, WDecryptionFailed ("Invalid ciphertext format: " +:+ CryptoError_display e))
        (HybridCiphertext_from_bytes kem_bytes) in
    let? nonce := map_err (λ e, WDecryptionFailed ("Invalid nonce: " +:+ CryptoError_display e))
                    (Nonce_from_bytes nonce_bytes) in
    let? shared_secret :=
      map_err (λ e, WDecryptionFailed ("HybridKEM decryption failed: " +:+ CryptoError_display e))
        (decap sk kem_ciphertext KemWelcome) in
    let? key := map_err (λ _, WDecryptionFailed "HKDF expand failed") (welcome_key_bytes shared_secret) in
    let? aead_key := map_err (λ e, WDecryptionFailed ("AEAD key error: " +:+ CryptoError_display e))
                       (Key_from_bytes key) in
    let? plaintext := map_err (λ e, WDecryptionFailed ("AEAD decryption failed: " +:+ CryptoError_display e))
                        (open aead_key nonce Welcome [] ciphertext) in
    let? secrets := map_err (λ e, WInvalidMessage ("Failed to deserialize secrets: " +:+ MessageError_display e))
                      (EpochSecrets_from_bytes plaintext) in
    let? _ := map_err (λ e, WInvalidMessage ("Secrets validation failed: " +:+ MessageError_display e))
                (EpochSecrets_validate secrets) in
    Ok secrets.

Definition decrypt_welcome_secrets (sk : HybridSecretKey) (w : WelcomeMessage) : W EpochSecrets :=
  st_lift (open_welcome sk w).

Definition unsigned (w : WelcomeMessage) : WelcomeMessage :=
  mkWelcomeMessage (wm_recipient_device_id w) (wm_recipient_user_id w) (wm_encrypted_payload w)
    (wm_epoch_info w) (wm_group_members w) [].

(** The administrator's key comes from the member list of the message. *)
Definition check_welcome_signature (w : WelcomeMessage) : res WelcomeError unit :=
  let? message := map_err (λ e, WInvalidMessage ("Failed to serialize for verification: " +:+ e))
                    (welcome_to_json (unsigned w)) in
  let? admin := ok_or (snd <$> list_find (λ m, gm_is_admin m = true) (wm_group_members w))
                  (WInvalidMessage "No admin found in group members") in
  let? key := map_err (λ e, WInvalidMessage ("Invalid admin public key: " +:+ CryptoError_display e))
                (VerifyingKey_from_bytes (gm_identity_public admin)) in
  let? signature := map_err (λ e, WInvalidMessage ("Invalid admin signature format: " +:+ CryptoError_display e))
                      (Signature_from_bytes (wm_admin_signature w)) in
  map_err (λ e, WSignatureVerificationFailed ("Admin signature verification failed: "
                                              +:+ CryptoError_display e))
    (verify key message signature).

Definition verify_welcome_signature (w : WelcomeMessage) : W unit :=
  st_lift (check_welcome_signature w).

Definition timestamp_or (now : Z) (secs : N) : Z := default now (from_timestamp (as_i64 secs)).

Definition create_member_from_welcome (p : WelcomeProcessor) (w : WelcomeMessage) (now : Z) : Member :=
  mkMember (bytes_of (wm_recipient_device_id w)) (public_key_bytes (wp_device_identity p))
    MemberActive MemberCapabilities_default now now.

Definition roster_of (p : WelcomeProcessor) (w : WelcomeMessage) (now : Z) : gmap bytes Member :=
  <[bytes_of (wm_recipient_device_id w) := create_member_from_welcome p w now]>
    (foldl (λ ms m,
        <[bytes_of (gm_device_id m) :=
            mkMember (bytes_of (gm_device_id m)) (gm_identity_public m) MemberActive
              MemberCapabilities_default (timestamp_or now (gm_joined_at m)) now]> ms)
       ∅ (wm_group_members w)).

Definition create_epoch_from_welcome (p : WelcomeProcessor) (w : WelcomeMessage)
    (secrets : EpochSecrets) (now : Z) : res WelcomeError EpochState :=
  let? key := ok_or (array_of 32 (es_epoch_key secrets)) (WInvalidMessage "Invalid epoch key length") in
  Ok (mkEpochState (ei_sequence (wm_epoch_info w)) key KeyWelcome (roster_of p w now) (Active now)
        (timestamp_or now (ei_created_at (wm_epoch_info w))) now 0 EpochMetadata_default).

Definition with_members (ms : gmap bytes Member) (now : Z) (e : EpochState) : EpochState :=
  mkEpochState (epoch_id e) (encryption_key e) (key_source e) ms (status e) (created_at e) now
    (file_count e) (metadata e).

Definition activate_member_in_epoch (id : N) (w : WelcomeMessage) (now : Z) : W bool :=
  let* epoch := on_storage (wstorage ("Failed to load epoch " +:+ pretty id +:+ ": "))
                  (λ s, (load_epoch_state id now s, s)) in
  let* ps := st_get in
  let member := create_member_from_welcome ps.1 w now in
  let epoch := with_members (<[bytes_of (wm_recipient_device_id w) := member]> (members epoch)) now epoch in
  do* on_storage (wstorage "Failed to update epoch state: ") (store_epoch_state epoch);
  st_ret true.

Definition process_current_epoch (w : WelcomeMessage) (secrets : EpochSecrets) (now : Z) : W bool :=
  let id := ei_sequence (wm_epoch_info w) in
  let* existing := load (load_epoch_state id now) in
  match existing with
  | inr epoch =>
      if negb (bool_decide (arr (encryption_key epoch) = es_epoch_key secrets)) then
        st_fail (WKeyMismatch ("Epoch " +:+ pretty id +:+ " key mismatch with existing state"))
      else activate_member_in_epoch id w now
  | inl _ =>
      let* ps := st_get in
      let* epoch := st_lift (create_epoch_from_welcome ps.1 w secrets now) in
      do* on_storage (wstorage "Failed to store epoch state: ") (store_epoch_state epoch);
      st_ret true
  end.

(** The state kept for an epoch that is over. *)
Definition minimal_epoch (seq : N) (key : array 32) (now : Z) : EpochState :=
  mkEpochState seq key KeyWelcome ∅ (Deprecated (now - HOUR) (u64_wrap (seq + 1))) (now - HOUR) now 0
    EpochMetadata_default.

Definition process_previous_epoch (seq : N) (key : bytes) (now : Z) : W unit :=
  let* existing := load (load_epoch_state seq now) in
  match existing with
  | inr epoch =>
      if negb (bool_decide (arr (encryption_key epoch) = key)) then
        st_fail (WKeyMismatch ("Previous epoch " +:+ pretty seq +:+ " key mismatch"))
      else st_ret tt
  | inl _ =>
      let* k := st_lift (ok_or (array_of 32 key) (WInvalidMessage "Invalid key length")) in
      on_storage (wstorage "Failed to store previous epoch: ")
        (store_epoch_state (minimal_epoch seq k now))
  end.

Definition is_migrating_status (st : EpochStatus) : bool :=
  match st with Migrating _ _ => true | _ => false end.

Definition identify_pending_epochs (w : WelcomeMessage) (now : Z) : W (list N) :=
  let* epochs := load (list_active_epochs now) in
  match epochs with
  | inr l =>
      st_ret (omap (λ e, if is_migrating_status (status e)
                            && (u64_wrap (epoch_id e + 1) =? ei_sequence (wm_epoch_info w))%N
                         then Some (u64_wrap (epoch_id e + 1)) else None) l)
  | inl _ => st_ret []
  end.

Definition add_processed (id : N) (r : WelcomeResult) : WelcomeResult :=
  mkWelcomeResult (processed_epochs r ++ [id]) (pending_epochs r) (welcome_errors r) (member_activated r).
Definition add_error (e : WelcomeError) (r : WelcomeResult) : WelcomeResult :=
  mkWelcomeResult (processed_epochs r) (pending_epochs r) (welcome_errors r ++ [e]) (member_activated r).
Definition add_pending (id : N) (r : WelcomeResult) : WelcomeResult :=
  mkWelcomeResult (processed_epochs r) (pending_epochs r ++ [id]) (welcome_errors r) (member_activated r).
Definition set_activated (b : bool) (r : WelcomeResult) : WelcomeResult :=
  mkWelcomeResult (processed_epochs r) (pending_epochs r) (welcome_errors r) b.

(** An error is recorded when partial processing is allowed, and returned otherwise. *)
Definition tolerate (cfg : WelcomeConfig) (e : WelcomeError) (r : WelcomeResult) : W WelcomeResult :=
  if wc_allow_partial_welcome cfg then st_ret (add_error e r) else st_fail e.

Fixpoint process_previous (cfg : WelcomeConfig) (now : Z) (l : list (N * bytes)) (r : WelcomeResult)
  : W WelcomeResult :=
  match l with
  | [] => st_ret r
  | (seq, key) :: l =>
      let* x := st_try (process_previous_epoch seq key now) in
      let* r := match x with
                | inr _ => st_ret (add_processed seq r)
                | inl e => tolerate cfg e r
                end in
      process_previous cfg now l r
  end.

Fixpoint record_pending (w : WelcomeMessage) (secrets : EpochSecrets) (now : Z) (l : list N)
    (r : WelcomeResult) : W WelcomeResult :=
  match l with
  | [] => st_ret r
  | id :: l =>
      do* st_put (λ ps, (set_pending (<[id := mkPendingKeyState secrets now true
                                               (wm_admin_signature w)]> (wp_pending_keys ps.1)) ps.1,
                         ps.2));
      record_pending w secrets now l (add_pending id r)
  end.

Definition process_epoch_keys (w : WelcomeMessage) (secrets : EpochSecrets) (cfg : WelcomeConfig)
    (now : Z) : W WelcomeResult :=
  let r := mkWelcomeResult [] [] [] false in
  let* x := st_try (process_current_epoch w secrets now) in
  let* r := match x with
            | inr activated =>
                st_ret (set_activated activated (add_processed (ei_sequence (wm_epoch_info w)) r))
            | inl e => tolerate cfg e r
            end in
  let* r := process_previous cfg now (hash_order (es_previous_keys secrets)) r in
  let* pending := identify_pending_epochs w now in
  record_pending w secrets now pending r.

Definition set_member_active (now : Z) (m : Member) : Member :=
  mkMember (member_id m) (public_key m) MemberActive (capabilities m) (joined_at m) now.

(** The epoch's own [updated_at] is left as it is. *)
Definition replace_members (ms : gmap bytes Member) (e : EpochState) : EpochState :=
  mkEpochState (epoch_id e) (encryption_key e) (key_source e) ms (status e) (created_at e)
    (updated_at e) (file_count e) (metadata e).

Definition activate_in (w : WelcomeMessage) (now : Z) (id : N) : W unit :=
  let* x := load (load_epoch_state id now) in
  match x with
  | inl _ => st_ret tt
  | inr e =>
      match members e !! bytes_of (wm_recipient_device_id w) with
      | None => st_ret tt
      | Some m =>
          on_storage (wstorage "Failed to update member status: ")
            (store_epoch_state (replace_members
               (<[bytes_of (wm_recipient_device_id w) := set_member_active now m]> (members e)) e))
      end
  end.

Definition update_member_status (w : WelcomeMessage) (r : WelcomeResult) (now : Z) : W unit :=
  st_for (processed_epochs r) (activate_in w now).

Definition persist_welcome_state (w : WelcomeMessage) (r : WelcomeResult) (now : Z) : W unit :=
  on_storage (wstorage "Failed to store Welcome record: ")
    (store_welcome_record (mkWelcomeRecord (ei_sequence (wm_epoch_info w)) (wm_recipient_device_id w)
       now (wm_admin_signature w) r)).

Definition process_welcome (sk : HybridSecretKey) (cfg : WelcomeConfig) (now : Z)
    (w : WelcomeMessage) : W WelcomeResult :=
  do* validate_welcome_message w cfg now;
  let* secrets := decrypt_welcome_secrets sk w in
  do* verify_welcome_signature w;
  let* result := process_epoch_keys w secrets cfg now in
  do* update_member_status w result now;
  do* persist_welcome_state w result now;
  st_ret result.

Definition activate_pending_keys (id : N) : W unit :=
  let* ps := st_get in
  match wp_pending_keys ps.1 !! id with
  | Some pending =>
      do* st_put (λ ps, (set_pending (delete id (wp_pending_keys ps.1)) ps.1, ps.2));
      on_storage (wstorage "Failed to activate pending keys: ")
        (store_epoch_keys id (pk_secrets pending))
  | None => st_ret tt
  end.

(** The wait before a retry; the state does not depend on it. *)
Definition welcome_retry_delay_ms (attempt : N) : N :=
  1000 * N.min (u64_wrap (N.shiftl 1 (attempt mod 64))) 30.

Definition retry_welcome (sk : HybridSecretKey) (cfg : WelcomeConfig) (attempt : N) (now : Z)
    (w : WelcomeMessage) : W WelcomeResult :=
  if (wc_max_retry_attempts cfg <=? attempt)%N
  then st_fail (WMaxRetriesExceeded ("Failed after " +:+ pretty (wc_max_retry_attempts cfg) +:+ " attempts"))
  else process_welcome sk cfg now w.

Definition get_pending_epochs (p : WelcomeProcessor) : gmap N PendingKeyState := wp_pending_keys p.

Definition is_welcome_replayed (w : WelcomeMessage) : W bool :=
  let* x := load (load_welcome_record (ei_sequence (wm_epoch_info w)) (wm_recipient_device_id w)) in
  st_ret (match x with inr _ => true | inl _ => false end).
End Processor.

(** ** Opening the secrets *)

#[local] Opaque HYBRID_CIPHERTEXT_LEN HYBRID_PUBLIC_KEY_LEN HYBRID_SECRET_KEY_LEN.

Section Opening.
Context {ho : HashOrder} {codec : WelcomeCodec} {clw : WelcomeCodecLaws}.
Context {xc : X25519} {xl : X25519Laws} {mk : MlKem} {ml : MlKemLaws} {hk : Hkdf}
  {aead : Aead} {al : AeadLaws}.

Lemma HybridCiphertext_to_bytes_length c :
  length (HybridCiphertext_to_bytes c) = HYBRID_CIPHERTEXT_LEN.
Proof. unfold HybridCiphertext_to_bytes. by rewrite length_app, !arr_length. Qed.

Lemma sealed_opens (scalar eph : array 32) (coins coins' : bytes) (nonce : array 12)
    (kp : HybridKeyPair) (secrets : EpochSecrets) (payload : bytes) (w : WelcomeMessage) :
  HybridKeyPair_generate scalar coins = Ok kp →
  EpochSecrets_validate secrets = Ok tt →
  encrypt_secrets eph coins' nonce secrets (HybridPublicKey_to_bytes (hkp_public kp)) = Ok payload →
  wm_encrypted_payload w = payload →
  open_welcome (hkp_secret kp) w = Ok secrets
  ∧ decrypt_secrets (HybridSecretKey_to_bytes (hkp_secret kp)) w = Ok secrets.
Proof.
  intros Hkp Hval Henc Hw. unfold encrypt_secrets in Henc.
  destruct (hybrid_bytes_exact (HybridPublicKey_to_bytes (hkp_public kp))) as (Hpk & _ & _).
  rewrite (proj2 (Hpk (hkp_public kp)) eq_refl) in Henc. cbn [map_err res_bind] in Henc.
  apply res_bind_Ok in Henc as ([ct ss] & Hencap & Henc). apply map_err_Ok in Hencap.
  apply res_bind_Ok in Henc as (kb & Hkb & Henc). apply map_err_Ok in Hkb.
  apply res_bind_Ok in Henc as (key & Hkey & Henc). apply map_err_Ok in Hkey.
  apply res_bind_Ok in Henc as (plain & Hplain & Henc). apply map_err_Ok in Hplain.
  apply res_bind_Ok in Henc as (sealed & Hseal & Henc). apply map_err_Ok in Hseal.
  apply Ok_inj in Henc. rewrite <-Henc in Hw. clear Henc Hpk payload.
  pose proof (encap_decap _ _ _ _ _ _ _ _ Hkp Hencap) as Hdecap.
  apply seal_open in Hseal. apply secrets_cbor_roundtrip in Hplain.
  destruct (hybrid_bytes_exact (HybridCiphertext_to_bytes ct)) as (_ & _ & Hct).
  pose proof (proj2 (Hct ct) eq_refl) as Hct'. clear Hct.
  destruct (hybrid_bytes_exact (HybridSecretKey_to_bytes (hkp_secret kp))) as (_ & Hsk & _).
  pose proof (proj2 (Hsk (hkp_secret kp)) eq_refl) as Hsk'. clear Hsk.
  pose proof (HybridCiphertext_to_bytes_length ct) as Hlen.
  assert (take HYBRID_CIPHERTEXT_LEN (wm_encrypted_payload w) = HybridCiphertext_to_bytes ct
    ∧ drop HYBRID_CIPHERTEXT_LEN (wm_encrypted_payload w) = arr nonce ++ sealed
    ∧ ¬ length (wm_encrypted_payload w) < HYBRID_CIPHERTEXT_LEN + AEAD_NONCE_LEN) as (Ht & Hd & Hl).
  { rewrite Hw. rewrite take_app_length', drop_app_length' by done. split_and!; [done..|].
    rewrite !length_app, Hlen, arr_length. unfold AEAD_NONCE_LEN. lia. }
  assert (take AEAD_NONCE_LEN (arr nonce ++ sealed) = arr nonce
    ∧ drop AEAD_NONCE_LEN (arr nonce ++ sealed) = sealed) as [Htn Hdn].
  { by rewrite take_app_length', drop_app_length' by (by rewrite arr_length). }
  assert (Nonce_from_bytes (arr nonce) = Ok (mkNonce nonce)) as Hn.
  { unfold Nonce_from_bytes, AEAD_NONCE_LEN. by rewrite array_of_arr. }
  assert (EpochSecrets_from_bytes plain = Ok secrets) as Hfrom.
  { unfold EpochSecrets_from_bytes. rewrite Hplain. cbn [map_err res_bind]. by rewrite Hval. }
  unfold open_welcome, decrypt_secrets. rewrite !decide_False by done. rewrite Ht, Hd, Htn, Hdn, Hct'.
  cbn [map_err res_bind]. rewrite Hn, Hsk'. cbn [map_err res_bind]. rewrite Hdecap.
  cbn [map_err res_bind]. rewrite Hkb. cbn [map_err res_bind]. rewrite Hkey. cbn [map_err res_bind].
  rewrite Hseal. cbn [map_err res_bind]. rewrite Hfrom. cbn [map_err res_bind]. by rewrite Hval.
Qed.

(** Welcome secrets round trip: secrets sealed to the public half of a generated
    invitation key are what the processor, and the message's own method, open with the
    secret half. *)
Theorem welcome_secrets_roundtrip (scalar eph : array 32) (coins coins' : bytes) (nonce : array 12)
    (kp : HybridKeyPair) (secrets : EpochSecrets) (payload : bytes) (w : WelcomeMessage) :
  HybridKeyPair_generate scalar coins = Ok kp →
  EpochSecrets_validate secrets = Ok tt →
  encrypt_secrets eph coins' nonce secrets (HybridPublicKey_to_bytes (hkp_public kp)) = Ok payload →
  wm_encrypted_payload w = payload →
  open_welcome (hkp_secret kp) w = Ok secrets
  ∧ decrypt_secrets (HybridSecretKey_to_bytes (hkp_secret kp)) w = Ok secrets.
Proof. apply sealed_opens. Qed.
End Opening.

(** ** The signature is the message's own *)

Section SelfSigned.
Context {codec : WelcomeCodec} {ed : Ed25519} {el : Ed25519Laws}.

(** A welcome is checked against the key of the first member that it itself calls an
    administrator: whoever holds any signing key can list it as an administrator,
    sign the message with it, and have the signature accepted. *)
Theorem welcome_signature_self_certified (key : SigningKey) (w : WelcomeMessage) (i : nat)
    (admin : GroupMember) (message : bytes) (signature : Signature) :
  list_find (λ m, gm_is_admin m = true) (wm_group_members w) = Some (i, admin) →
  gm_identity_public admin = arr (VerifyingKey_to_bytes (SigningKey_verifying_key key)) →
  welcome_to_json (unsigned w) = Ok message →
  SigningKey_sign key message = Ok signature →
  wm_admin_signature w = arr (Signature_to_bytes signature) →
  check_welcome_signature w = Ok tt.
Proof.
  intros Hf Hk Hj Hs Hw. unfold check_welcome_signature.
  rewrite Hj. cbn [map_err res_bind]. rewrite Hf.
  cbn [map_err res_bind ok_or fmap option_fmap option_map snd]. rewrite Hk, Hw.
  rewrite VerifyingKey_from_to_bytes by apply dalek_public_valid. cbn [map_err res_bind].
  rewrite (Signature_from_to_bytes _ _ _ Hs). cbn [map_err res_bind]. unfold verify.
  by rewrite (sign_verify _ _ _ Hs).
Qed.
End SelfSigned.

(** ** The processor on the in-memory store *)

Section OnMock.
Context {ho : HashOrder} {hol : HashOrderLaws} {json : StorageJson} {codec : WelcomeCodec}
  {chrono : Chrono}.
Context {xc : X25519} {mk : MlKem} {hk : Hkdf} {aead : Aead} {ed : Ed25519}.
Implicit Types (s : MockStorage) (ps : WelcomeProcessor * MockStorage).

Abbreviation WM := (ST (WelcomeProcessor * MockStorage) WelcomeError).

(** *** Keys that are already there stay *)

Definition holds (known : gmap N (array 32)) ps : Prop := holds_keys known ps.2.

(** What the handlers do on each outcome of the lookup. *)
Lemma process_current_eval w secrets now p s :
  process_current_epoch w secrets now (p, s) =
    match mock_load_epoch_state (ei_sequence (wm_epoch_info w)) now s with
    | Ok e =>
        if negb (bool_decide (arr (encryption_key e) = es_epoch_key secrets)) then
          (Err (WKeyMismatch ("Epoch " +:+ pretty (ei_sequence (wm_epoch_info w))
                              +:+ " key mismatch with existing state")), (p, s))
        else (Ok true, (p, (mock_store_epoch_state
               (with_members (<[bytes_of (wm_recipient_device_id w) :=
                  create_member_from_welcome p w now]> (members e)) now e) s).2))
    | Err _ =>
        match create_epoch_from_welcome p w secrets now with
        | Ok e => (Ok true, (p, (mock_store_epoch_state e s).2))
        | Err e => (Err e, (p, s))
        | Panic => (Panic, (p, s))
        | Diverge => (Diverge, (p, s))
        end
    | Panic => (Panic, (p, s))
    | Diverge => (Diverge, (p, s))
    end.
Proof.
  unfold process_current_epoch, st_bind, load, st_try. simpl.
  destruct (mock_load_epoch_state _ now s) as [e|e| |] eqn:Hl; try done.
  destruct (negb _); [done|]. unfold activate_member_in_epoch, st_bind, on_storage at 1. simpl.
  by rewrite Hl.
Qed.

Lemma process_previous_eval seq key now p s :
  process_previous_epoch seq key now (p, s) =
    match mock_load_epoch_state seq now s with
    | Ok e =>
        if negb (bool_decide (arr (encryption_key e) = key)) then
          (Err (WKeyMismatch ("Previous epoch " +:+ pretty seq +:+ " key mismatch")), (p, s))
        else (Ok tt, (p, s))
    | Err _ =>
        match array_of 32 key with
        | Some k => (Ok tt, (p, (mock_store_epoch_state (minimal_epoch seq k now) s).2))
        | None => (Err (WInvalidMessage "Invalid key length"), (p, s))
        end
    | Panic => (Panic, (p, s))
    | Diverge => (Diverge, (p, s))
    end.
Proof.
  unfold process_previous_epoch, st_bind, load, st_try. simpl.
  destruct (mock_load_epoch_state seq now s) as [e|e| |]; try done.
  - by destruct (negb _).
  - by destruct (array_of 32 key).
Qed.

Lemma activate_in_eval w now id p s :
  activate_in w now id (p, s) =
    match mock_load_epoch_state id now s with
    | Ok e =>
        match members e !! bytes_of (wm_recipient_device_id w) with
        | Some m => (Ok tt, (p, (mock_store_epoch_state (replace_members
            (<[bytes_of (wm_recipient_device_id w) := set_member_active now m]> (members e)) e) s).2))
        | None => (Ok tt, (p, s))
        end
    | Err _ => (Ok tt, (p, s))
    | Panic => (Panic, (p, s))
    | Diverge => (Diverge, (p, s))
    end.
Proof.
  unfold activate_in, st_bind, load, st_try. simpl.
  destruct (mock_load_epoch_state id now s) as [e|e| |]; try done.
  by destruct (members e !! _).
Qed.

Lemma keeps_current known w secrets now : keeps (holds known) (process_current_epoch w secrets now : WM _).
Proof.
  intros [p s] Hh. rewrite process_current_eval.
  pose proof (mock_load_outcome (ei_sequence (wm_epoch_info w)) now s) as Hout.
  destruct (mock_load_epoch_state _ now s) as [e|e| |] eqn:Hl; try done.
  - destruct (negb _); [done|]. by apply (holds_keys_restore known _ now e _ s Hh Hl).
  - unfold create_epoch_from_welcome. destruct (array_of 32 _) as [key|]; [|done].
    by apply (holds_keys_fresh known _ s Hh).
Qed.

Lemma keeps_previous_epoch known seq key now :
  keeps (holds known) (process_previous_epoch seq key now : WM _).
Proof.
  intros [p s] Hh. rewrite process_previous_eval.
  pose proof (mock_load_outcome seq now s) as Hout.
  destruct (mock_load_epoch_state seq now s) as [e|e| |] eqn:Hl; try done.
  - by destruct (negb _).
  - destruct (array_of 32 key) as [key'|]; [|done].
    by apply (holds_keys_fresh known (minimal_epoch seq key' now) s Hh).
Qed.

Lemma keeps_tolerate (P : WelcomeProcessor * MockStorage → Prop) cfg e r :
  keeps P (tolerate cfg e r : WM _).
Proof. unfold tolerate. keep_st. Qed.

Lemma keeps_previous known cfg now l r : keeps (holds known) (process_previous cfg now l r : WM _).
Proof.
  revert r. induction l as [|[seq key] l IH]; intros r; [apply keeps_ret|]. cbn [process_previous].
  apply keeps_bind; [apply keeps_try, keeps_previous_epoch|]. intros x.
  apply keeps_bind; [|intros r'; apply IH]. destruct x; [apply keeps_tolerate|apply keeps_ret].
Qed.

Lemma keeps_pending known w secrets now l r :
  keeps (holds known) (record_pending w secrets now l r : WM _).
Proof.
  revert r. induction l as [|i l IH]; intros r; [apply keeps_ret|]. cbn [record_pending].
  apply keeps_bind; [by apply keeps_put|]. intros _. apply IH.
Qed.

Lemma keeps_activate known w now i : keeps (holds known) (activate_in w now i : WM _).
Proof.
  intros [p s] Hh. rewrite activate_in_eval.
  destruct (mock_load_epoch_state i now s) as [e|e| |] eqn:Hl; try done.
  destruct (members e !! _) as [m|]; [|done]. by apply (holds_keys_restore known i now e _ s Hh Hl).
Qed.

Lemma keeps_identify (P : WelcomeProcessor * MockStorage → Prop) w now :
  keeps P (identify_pending_epochs w now : WM _).
Proof. unfold identify_pending_epochs, load. keep_st. by intros ps. Qed.

Lemma keeps_persist known w r now : keeps (holds known) (persist_welcome_state w r now : WM _).
Proof.
  intros [p s] [Hk Hs]. unfold persist_welcome_state, on_storage. simpl.
  unfold mock_store_welcome_record. by destruct (map_err _ _).
Qed.

Lemma keeps_epoch_keys known w secrets cfg now :
  keeps (holds known) (process_epoch_keys w secrets cfg now : WM _).
Proof.
  unfold process_epoch_keys. apply keeps_bind; [apply keeps_try, keeps_current|]. intros x.
  apply keeps_bind; [destruct x; [apply keeps_tolerate|apply keeps_ret]|]. intros r.
  apply keeps_bind; [apply keeps_previous|]. intros r'.
  apply keeps_bind; [apply keeps_identify|]. intros l. apply keeps_pending.
Qed.

Lemma keeps_validate (P : WelcomeProcessor * MockStorage → Prop) w cfg now :
  keeps P (validate_welcome_message w cfg now : WM _).
Proof. unfold validate_welcome_message. keep_st. Qed.

Lemma keeps_process known sk cfg now w : keeps (holds known) (process_welcome sk cfg now w : WM _).
Proof.
  unfold process_welcome, decrypt_welcome_secrets, verify_welcome_signature, update_member_status.
  apply keeps_bind; [apply keeps_validate|]. intros _.
  apply keeps_bind; [apply keeps_lift|]. intros secrets. apply keeps_bind; [apply keeps_lift|]. intros _.
  apply keeps_bind; [apply keeps_epoch_keys|]. intros r.
  apply keeps_bind; [apply keeps_for; intros; apply keeps_activate|]. intros _.
  apply keeps_bind; [apply keeps_persist|]. intros _. apply keeps_ret.
Qed.

(** Processing a welcome, whether it succeeds or fails, never changes the key of an
    epoch that the store already has. *)
Theorem welcome_never_rekeys (sk : HybridSecretKey) (cfg : WelcomeConfig) (now : Z)
    (w : WelcomeMessage) (p p' : WelcomeProcessor) (s s' : MockStorage)
    (r : res WelcomeError WelcomeResult) (id : N) (k : array 32) :
  epochs_keyed s → stored_key id s = Some k →
  process_welcome sk cfg now w (p, s) = (r, (p', s')) →
  epochs_keyed s' ∧ stored_key id s' = Some k.
Proof.
  intros Hk Hs E.
  pose proof (keeps_process {[id := k]} sk cfg now w (p, s) (proj2 (holds_keys_one id k s) (conj Hk Hs))) as H.
  rewrite E in H. by apply holds_keys_one.
Qed.

(** *** What a welcome is accepted for *)

Lemma current_returns w secrets now : returns (process_current_epoch w secrets now : WM _).
Proof.
  intros [p s]. rewrite process_current_eval.
  pose proof (mock_load_outcome (ei_sequence (wm_epoch_info w)) now s) as Hout.
  destruct (mock_load_epoch_state _ now s) as [e|e| |]; [by destruct (negb _)| |done..].
  unfold create_epoch_from_welcome. by destruct (array_of 32 _).
Qed.

Lemma previous_returns seq key now : returns (process_previous_epoch seq key now : WM _).
Proof.
  intros [p s]. rewrite process_previous_eval. pose proof (mock_load_outcome seq now s) as Hout.
  destruct (mock_load_epoch_state seq now s) as [e|e| |]; [by destruct (negb _)| |done..].
  by destruct (array_of 32 key).
Qed.

Lemma activate_succeeds w now id : succeeds (activate_in w now id : WM _).
Proof.
  intros [p s]. rewrite activate_in_eval. pose proof (mock_load_outcome id now s) as Hout.
  destruct (mock_load_epoch_state id now s) as [e|e| |]; [|eauto|done..].
  destruct (members e !! _); eauto.
Qed.

Lemma tolerate_succeeds cfg e r :
  wc_allow_partial_welcome cfg = true → succeeds (tolerate cfg e r : WM _).
Proof. intros Hp. unfold tolerate. rewrite Hp. apply succeeds_ret. Qed.

Lemma previous_succeeds cfg now l r :
  wc_allow_partial_welcome cfg = true → succeeds (process_previous cfg now l r : WM _).
Proof.
  intros Hp. revert r. induction l as [|[seq key] l IH]; intros r; [apply succeeds_ret|].
  cbn [process_previous]. apply succeeds_bind; [apply succeeds_try, previous_returns|]. intros x.
  apply succeeds_bind; [|intros r'; apply IH].
  destruct x; [by apply tolerate_succeeds|apply succeeds_ret].
Qed.

Lemma pending_succeeds w secrets now l r : succeeds (record_pending w secrets now l r : WM _).
Proof.
  revert r. induction l as [|id l IH]; intros r; [apply succeeds_ret|]. cbn [record_pending].
  apply succeeds_bind; [apply succeeds_put|]. intros _. apply IH.
Qed.

Lemma identify_succeeds w now : succeeds (identify_pending_epochs w now : WM _).
Proof. intros [p s]. eauto. Qed.

Lemma epoch_keys_succeed cfg w secrets now :
  wc_allow_partial_welcome cfg = true → succeeds (process_epoch_keys w secrets cfg now : WM _).
Proof.
  intros Hp. unfold process_epoch_keys.
  apply succeeds_bind; [apply succeeds_try, current_returns|]. intros x.
  apply succeeds_bind; [destruct x; [by apply tolerate_succeeds|apply succeeds_ret]|]. intros r.
  apply succeeds_bind; [by apply previous_succeeds|]. intros r'.
  apply succeeds_bind; [apply identify_succeeds|]. intros l. apply pending_succeeds.
Qed.

Lemma validate_state w cfg now ps :
  (validate_welcome_message w cfg now ps).2 = ps.
Proof.
  unfold validate_welcome_message, st_bind, st_lift, st_get.
  destruct (map_err _ (Welcome_validate w)); try done.
  destruct (map_err _ (unix_seconds now)); try done.
  repeat (match goal with |- context [if ?b then _ else _] => destruct b end; try done).
Qed.

(** With the default tolerance a welcome is accepted exactly when it is well formed,
    fresh and for this device, its secrets open, and its signature checks: nothing
    that the store remembers is asked, so a message that was accepted once is accepted
    again for as long as it is fresh, although a record for replay protection is kept. *)
Theorem welcome_accepted_iff (sk : HybridSecretKey) (cfg : WelcomeConfig) (now : Z)
    (w : WelcomeMessage) (p : WelcomeProcessor) (s : MockStorage) :
  wc_allow_partial_welcome cfg = true →
  (∀ r, ∃ v, welcome_record_to_json r = Ok v) →
  (∃ r ps, process_welcome sk cfg now w (p, s) = (Ok r, ps)) ↔
  fst (validate_welcome_message w cfg now (p, s)) = Ok tt
  ∧ (∃ secrets, open_welcome sk w = Ok secrets) ∧ check_welcome_signature w = Ok tt.
Proof.
  intros Hp Hjson. unfold process_welcome, decrypt_welcome_secrets, verify_welcome_signature. split.
  - intros (r & ps & E). st_inv. pose proof (validate_state w cfg now (p, s)) as Hv.
    rewrite Hst in Hv. simpl in Hv. subst s0.
    rewrite Hst. repeat match goal with x : unit |- _ => destruct x end. eauto.
  - intros (Hv & (secrets & Hs) & Hc).
    assert (validate_welcome_message w cfg now (p, s) = (Ok tt, (p, s))) as Hv'.
    { rewrite <-(validate_state w cfg now (p, s)) at 2. rewrite <-Hv. by destruct (validate_welcome_message _ _ _ _). }
    assert (∀ r, succeeds (persist_welcome_state w r now : WM _)) as Hper.
    { intros r [p1 s1]. unfold persist_welcome_state, on_storage. simpl.
      unfold mock_store_welcome_record.
      match goal with |- context [welcome_record_to_json ?x] => destruct (Hjson x) as [v ->] end.
      simpl. eauto. }
    unfold st_bind at 1. rewrite Hv'. unfold st_bind at 1, st_lift at 1. rewrite Hs.
    unfold st_bind at 1, st_lift at 1. rewrite Hc.
    assert (succeeds (st_bind (process_epoch_keys w secrets cfg now) (λ result,
      st_bind (update_member_status w result now) (λ _ : unit,
        st_bind (persist_welcome_state w result now) (λ _ : unit, st_ret result))) : WM _)) as H.
    { apply succeeds_bind; [by apply epoch_keys_succeed|]. intros r.
      apply succeeds_bind; [apply succeeds_for; intros; apply activate_succeeds|]. intros _.
      apply succeeds_bind; [apply Hper|]. intros _. apply succeeds_ret. }
    apply H.
Qed.

(** *** No epoch is ever pending *)

Lemma active_epochs_active now s e : e ∈ active_epochs now s → is_migrating_status (status e) = false.
Proof.
  unfold active_epochs. rewrite list_elem_of_omap. intros ([id d] & Hin & E).
  apply elem_of_hash_order in Hin. simpl in E. destruct (ed_is_active d) eqn:Ha; [|done].
  unfold mock_load_epoch_state in E. rewrite Hin in E. destruct (array_of 32 _); [|done].
  simplify_eq. simpl. unfold loaded_status. by rewrite Ha.
Qed.

Lemma omap_nil {A B} (f : A → option B) (l : list A) : (∀ x, x ∈ l → f x = None) → omap f l = [].
Proof.
  induction l as [|x l IH]; intros Hf; [done|]. cbn [omap list_omap].
  rewrite (Hf x) by set_solver. apply IH. set_solver.
Qed.

Lemma identify_eval w now p s : identify_pending_epochs w now (p, s) = (Ok [], (p, s)).
Proof.
  unfold identify_pending_epochs, st_bind, load, st_try, st_ret. simpl. f_equal. f_equal.
  apply omap_nil. intros e He. rewrite merge_sort_Permutation in He.
  by rewrite (active_epochs_active now s e He).
Qed.

(** What the loops over the keys leave alone. *)
Definition same_frame (r r' : WelcomeResult) ps ps' : Prop :=
  pending_epochs r' = pending_epochs r ∧ member_activated r' = member_activated r ∧ ps'.1 = ps.1.

Lemma tolerate_frame cfg e r ps r' ps' :
  tolerate cfg e r ps = (Ok r', ps') → same_frame r r' ps ps'.
Proof. unfold tolerate. destruct (wc_allow_partial_welcome cfg); intros [= <- <-]; done. Qed.

Lemma previous_frame cfg now l r ps r' ps' :
  process_previous cfg now l r ps = (Ok r', ps') → same_frame r r' ps ps'.
Proof.
  revert r ps. induction l as [|[seq key] l IH]; intros r ps E; cbn [process_previous] in E; st_inv;
    [done|].
  apply IH in E. assert (s.1 = ps.1) as Hs.
  { destruct ps as [p sp]. rewrite process_previous_eval in Hst.
    destruct (mock_load_epoch_state seq now sp) as [e|e| |]; [destruct (negb _)|destruct (array_of 32 key)|..];
      destruct a; simplify_eq; done. }
  destruct a as [e|x].
  - apply tolerate_frame in Hst0. unfold same_frame in *. naive_solver congruence.
  - st_inv. unfold same_frame in *. simpl in *. naive_solver congruence.
Qed.

Lemma current_frame w secrets now ps ps' x :
  st_try (process_current_epoch w secrets now) ps = (@Ok WelcomeError _ x, ps') → ps'.1 = ps.1.
Proof.
  destruct ps as [p s]. rewrite st_try_Ok, process_current_eval.
  destruct (mock_load_epoch_state _ now s) as [e|e| |];
    [destruct (negb _)|destruct (create_epoch_from_welcome _ _ _ _)|..]; destruct x; intros; by simplify_eq.
Qed.

(** The outcome of the key processing. *)
Lemma epoch_keys_outcome w secrets cfg now p s r ps' :
  process_epoch_keys w secrets cfg now (p, s) = (Ok r, ps') →
  pending_epochs r = [] ∧ ps'.1 = p
  ∧ (member_activated r = true →
     ∃ k, arr k = es_epoch_key secrets ∧ (epochs_keyed s → holds {[ei_sequence (wm_epoch_info w) := k]} ps')).
Proof.
  unfold process_epoch_keys. intros E. apply st_bind_Ok in E as (x & [p1 s1] & Hc & E).
  pose proof (current_frame _ _ _ _ _ _ Hc) as Hp1. simpl in Hp1. subst p1.
  apply st_bind_Ok in E as (r1 & [p2 s2] & H1 & E). apply st_bind_Ok in E as (r2 & [p3 s3] & H2 & E).
  pose proof (previous_frame _ _ _ _ _ _ _ H2) as (Hf1 & Hf2 & Hf3). simpl in Hf3.
  rewrite identify_eval in E || (unfold st_bind at 1 in E; rewrite identify_eval in E).
  cbn [record_pending] in E. unfold st_ret in E. injection E as <- <-.
  apply st_try_Ok in Hc. destruct x as [e|b].
  - apply tolerate_frame in H1 as (Hg1 & Hg2 & Hg3). simpl in *.
    split; [congruence|]. split; [congruence|]. intros Ha. congruence.
  - unfold st_ret in H1. injection H1 as <- <- <-. simpl in *. split; [done|]. split; [done|]. intros _.
    assert (∃ k, arr k = es_epoch_key secrets ∧ (epochs_keyed s →
      holds {[ei_sequence (wm_epoch_info w) := k]} (p, s1))) as (k & Hk & Hh).
    { rewrite process_current_eval in Hc.
      pose proof (mock_load_outcome (ei_sequence (wm_epoch_info w)) now s) as Hout.
      destruct (mock_load_epoch_state _ now s) as [e|e| |] eqn:Hl; try done.
      - destruct (bool_decide _) eqn:Hb; cbn [negb] in Hc; [|done].
        apply bool_decide_eq_true in Hb. apply pair_eq in Hc as [_ Hc]; apply pair_eq in Hc as [_ <-].
        exists (encryption_key e). split; [done|].
        intros Hkd. apply (holds_keys_restore _ (ei_sequence (wm_epoch_info w)) now e _ s); [|done..].
        by apply holds_keys_one.
      - unfold create_epoch_from_welcome in Hc.
        destruct (array_of 32 (es_epoch_key secrets)) as [k|] eqn:Hk; cbn [ok_or res_bind] in Hc; [|done].
        apply array_of_Some in Hk. apply pair_eq in Hc as [_ Hc]; apply pair_eq in Hc as [_ <-].
        exists k. split; [done|]. intros Hkd.
        unfold holds. cbn [snd]. apply holds_keys_one. split; [by apply epochs_keyed_store|].
        rewrite stored_key_store. simpl.
        by rewrite decide_True. }
    exists k. split; [done|]. intros Hkd. specialize (Hh Hkd).
    match type of H2 with process_previous _ _ ?l ?r0 _ = _ =>
      pose proof (keeps_previous _ cfg now l r0 _ Hh) as Hfin end.
    by rewrite H2 in Hfin.
Qed.

Lemma process_split sk cfg now w p s r ps' :
  process_welcome sk cfg now w (p, s) = (Ok r, ps') →
  ∃ secrets ps1, open_welcome sk w = Ok secrets
    ∧ process_epoch_keys w secrets cfg now (p, s) = (Ok r, ps1)
    ∧ (∀ P : WelcomeProcessor * MockStorage → Prop, (∀ id, keeps P (activate_in w now id : WM _)) →
         keeps P (persist_welcome_state w r now : WM _) → P ps1 → P ps').
Proof.
  unfold process_welcome, decrypt_welcome_secrets, verify_welcome_signature. intros E.
  apply st_bind_Ok in E as (? & ps0 & Hv & E).
  pose proof (validate_state w cfg now (p, s)) as Hps. rewrite Hv in Hps. simpl in Hps. subst ps0.
  apply st_bind_Ok in E as (secrets & ps0 & Ho & E). apply st_lift_Ok in Ho as [Ho ->].
  apply st_bind_Ok in E as (? & ps0 & Hc & E). apply st_lift_Ok in Hc as [Hc ->].
  apply st_bind_Ok in E as (r1 & ps1 & Hk & E). apply st_bind_Ok in E as (? & ps2 & Hu & E).
  apply st_bind_Ok in E as (? & ps3 & Hp & E). unfold st_ret in E. injection E as <- <-.
  exists secrets, ps1. split; [done|]. split; [done|]. intros P Ha Hpe H1.
  pose proof (keeps_for P (processed_epochs r1) (activate_in w now) (λ id _, Ha id) ps1 H1) as H2.
  unfold update_member_status in Hu. rewrite Hu in H2. specialize (Hpe ps2 H2). by rewrite Hp in Hpe.
Qed.

Lemma activate_processor p0 w now id : keeps (λ ps, ps.1 = p0) (activate_in w now id : WM _).
Proof.
  intros [p s] Hp. rewrite activate_in_eval. destruct (mock_load_epoch_state id now s); try done.
  by destruct (members _ !! _).
Qed.

Lemma persist_processor p0 w r now : keeps (λ ps, ps.1 = p0) (persist_welcome_state w r now : WM _).
Proof.
  intros [p s] Hp. unfold persist_welcome_state, on_storage. by destruct (store_welcome_record _ _).
Qed.

(** Keys never wait for a cutover: the epochs that the store lists as active are never
    in migration, so a welcome leaves nothing pending. *)
Theorem welcome_nothing_pending (sk : HybridSecretKey) (cfg : WelcomeConfig) (now : Z)
    (w : WelcomeMessage) (p p' : WelcomeProcessor) (s s' : MockStorage) (r : WelcomeResult) :
  process_welcome sk cfg now w (p, s) = (Ok r, (p', s')) →
  pending_epochs r = [] ∧ wp_pending_keys p' = wp_pending_keys p.
Proof.
  intros E. destruct (process_split _ _ _ _ _ _ _ _ E) as (secrets & ps1 & _ & Hk & Hp).
  apply epoch_keys_outcome in Hk as (Hpend & Hp1 & _). split; [done|]. f_equal.
  apply (Hp (λ ps, ps.1 = p)); [intros; apply activate_processor|apply persist_processor|done].
Qed.

Lemma process_installs_key (sk : HybridSecretKey) (cfg : WelcomeConfig) (now : Z)
    (w : WelcomeMessage) (p p' : WelcomeProcessor) (s s' : MockStorage) (r : WelcomeResult) :
  epochs_keyed s → process_welcome sk cfg now w (p, s) = (Ok r, (p', s')) →
  member_activated r = true →
  ∃ secrets k, open_welcome sk w = Ok secrets ∧ arr k = es_epoch_key secrets
    ∧ stored_key (ei_sequence (wm_epoch_info w)) s' = Some k.
Proof.
  intros Hkd E Ha. destruct (process_split _ _ _ _ _ _ _ _ E) as (secrets & ps1 & Ho & Hk & Hp).
  apply epoch_keys_outcome in Hk as (_ & _ & Hact). destruct (Hact Ha) as (k & Hkey & Hh).
  exists secrets, k. split; [done|]. split; [done|].
  refine (proj2 (proj1 (holds_keys_one _ k s') _)).
  change (holds {[ei_sequence (wm_epoch_info w) := k]} (p', s')).
  apply (Hp (holds {[ei_sequence (wm_epoch_info w) := k]}));
    [intros; apply keeps_activate|apply keeps_persist|by apply Hh].
Qed.

(** A welcome that activates the member leaves the store with the key that was sealed
    in it, for the epoch that it names. *)
Theorem welcome_installs_key (sk : HybridSecretKey) (cfg : WelcomeConfig) (now : Z)
    (w : WelcomeMessage) (p p' : WelcomeProcessor) (s s' : MockStorage) (r : WelcomeResult) :
  epochs_keyed s → process_welcome sk cfg now w (p, s) = (Ok r, (p', s')) →
  member_activated r = true →
  ∃ secrets k, open_welcome sk w = Ok secrets ∧ arr k = es_epoch_key secrets
    ∧ stored_key (ei_sequence (wm_epoch_info w)) s' = Some k.
Proof. apply process_installs_key. Qed.
End OnMock.

(** ** Concrete instances *)

#[local] Transparent HYBRID_CIPHERTEXT_LEN HYBRID_PUBLIC_KEY_LEN HYBRID_SECRET_KEY_LEN.

#[export] Instance EpochSecrets_eq_dec : EqDecision EpochSecrets.
Proof. solve_decision. Defined.

Definition sample_secrets : EpochSecrets :=
  mkEpochSecrets (le_bytes 32 9) (le_bytes 32 8) {[1%N := le_bytes 32 7]}.

(** Serialisers that know one value of the secrets. *)
Definition toy_welcome_codec : WelcomeCodec := {|
  secrets_to_cbor := λ s, if decide (s = sample_secrets) then Ok [x2a] else Err "unknown";
  secrets_from_cbor := λ b, if decide (b = [x2a]) then Ok sample_secrets else Err "unknown";
  welcome_to_json := λ w, Ok (bytes_of (wm_recipient_device_id w) ++ ei_epoch_id (wm_epoch_info w));
|}.
Lemma toy_welcome_codec_laws : @WelcomeCodecLaws toy_welcome_codec.
Proof. intros s b. simpl. case_decide; intros E; simplify_eq. done. Qed.
Definition toy_chrono : Chrono := λ secs, Some (secs * 1000000000)%Z.

#[local] Existing Instances toy_hash_order toy_hash_order_laws toy_storage_json toy_welcome_codec
  toy_welcome_codec_laws toy_chrono toy_x25519 toy_x25519_laws toy_mlkem toy_mlkem_laws toy_hkdf
  toy_aead toy_aead_laws toy_ed25519 toy_ed25519_laws.

Definition inviter_key : SigningKey := mkSigningKey (num_array 32 7).
Definition invitation : HybridKeyPair := toy_pair 3.
Definition sealed_secrets : bytes :=
  match encrypt_secrets (num_array 32 5) (le_bytes 4 6) (zeros 12) sample_secrets
          (HybridPublicKey_to_bytes (hkp_public invitation)) with
  | Ok b => b
  | _ => []
  end.
Definition inviter : GroupMember :=
  mkGroupMember "mallory" "laptop" (arr (VerifyingKey_to_bytes (SigningKey_verifying_key inviter_key)))
    100 true.
Definition welcome_with (signature : bytes) : WelcomeMessage :=
  mkWelcomeMessage "phone" "alice" sealed_secrets (mkEpochInfo [x01] "group" 4 1000 None) [inviter]
    signature.
Definition inviter_signature : Signature :=
  match SigningKey_sign inviter_key (bytes_of "phone" ++ [x01]) with
  | Ok s => s
  | _ => mkSignature (zeros 64) (zeros 64)
  end.
Definition sample_welcome : WelcomeMessage := welcome_with (arr (Signature_to_bytes inviter_signature)).
Definition phone : WelcomeProcessor :=
  WelcomeProcessor_new (mkEd25519KeyPair (mkSigningKey (num_array 32 2))
    (SigningKey_verifying_key (mkSigningKey (num_array 32 2)))) "phone".
Definition at_1060 : Z := 1060000000000.
(** A store that knows epoch 1, with another key than the one in the welcome. *)
Definition store_1 : MockStorage := (mock_store_epoch_state epoch_removed MockStorage_new).2.
Definition welcome_run :=
  process_welcome (hkp_secret invitation) WelcomeConfig_default at_1060 sample_welcome (phone, store_1).

Lemma welcome_secrets_roundtrip_witness :
  open_welcome (hkp_secret invitation) sample_welcome = Ok sample_secrets.
Proof.
  apply (welcome_secrets_roundtrip (num_array 32 3) (num_array 32 5) (le_bytes 4 3) (le_bytes 4 6)
           (zeros 12) invitation sample_secrets sealed_secrets sample_welcome);
    [reflexivity|vm_compute; reflexivity|vm_compute; reflexivity|reflexivity].
Defined.

Lemma welcome_signature_self_certified_witness : check_welcome_signature sample_welcome = Ok tt.
Proof.
  apply (welcome_signature_self_certified inviter_key sample_welcome 0 inviter
           (bytes_of "phone" ++ [x01]) inviter_signature); reflexivity.
Defined.

Lemma welcome_never_rekeys_witness : stored_key 1 welcome_run.2.2 = Some epoch_key.
Proof.
  apply (welcome_never_rekeys (hkp_secret invitation) WelcomeConfig_default at_1060 sample_welcome
           phone welcome_run.2.1 store_1 welcome_run.2.2 welcome_run.1 1 epoch_key).
  - apply epochs_keyed_store, epochs_keyed_new.
  - unfold store_1. by rewrite stored_key_store.
  - unfold welcome_run. by destruct (process_welcome _ _ _ _ _) as [r [p s]].
Defined.

Lemma welcome_accepted_iff_witness :
  ∃ r ps, process_welcome (hkp_secret invitation) WelcomeConfig_default at_1060 sample_welcome
            (welcome_run.2.1, welcome_run.2.2) = (Ok r, ps).
Proof.
  apply (welcome_accepted_iff (hkp_secret invitation) WelcomeConfig_default at_1060 sample_welcome
           welcome_run.2.1 welcome_run.2.2).
  - reflexivity.
  - intros r. by eexists.
  - split; [vm_compute; reflexivity|]. split; [|vm_compute; reflexivity].
    exists sample_secrets. vm_compute. reflexivity.
Defined.

Lemma welcome_nothing_pending_witness :
  ∃ r p s, process_welcome (hkp_secret invitation) WelcomeConfig_default at_1060 sample_welcome
             (phone, store_1) = (Ok r, (p, s)) ∧ pending_epochs r = [].
Proof.
  assert (∃ r p s, process_welcome (hkp_secret invitation) WelcomeConfig_default at_1060
    sample_welcome (phone, store_1) = (Ok r, (p, s))) as (r & p & s & E)
    by (do 3 eexists; vm_compute; reflexivity).
  exists r, p, s. split; [exact E|].
  exact (proj1 (welcome_nothing_pending (hkp_secret invitation) WelcomeConfig_default at_1060
           sample_welcome phone p store_1 s r E)).
Defined.

Lemma welcome_installs_key_witness :
  ∃ r p s k, process_welcome (hkp_secret invitation) WelcomeConfig_default at_1060 sample_welcome
               (phone, store_1) = (Ok r, (p, s))
    ∧ arr k = es_epoch_key sample_secrets ∧ stored_key 4 s = Some k.
Proof.
  assert (∃ es p s, process_welcome (hkp_secret invitation) WelcomeConfig_default at_1060
    sample_welcome (phone, store_1) = (Ok (mkWelcomeResult [4%N] [] es true), (p, s)))
    as (es & p & s & E) by (do 3 eexists; vm_compute; reflexivity).
  assert (open_welcome (hkp_secret invitation) sample_welcome = Ok sample_secrets) as Ho'
    by (vm_compute; reflexivity).
  destruct (welcome_installs_key (hkp_secret invitation) WelcomeConfig_default at_1060
              sample_welcome phone p store_1 s _ (epochs_keyed_store _ _ epochs_keyed_new) E eq_refl)
    as (secrets & k & Ho & Hk & Hs).
  eexists _, p, s, k. split; [exact E|]. split; [|exact Hs]. rewrite Hk. rewrite Ho' in Ho. by apply Ok_inj in Ho as <-.
Defined.
