(* ===== verification/GroupUpdate.v ===== *)
(** * Group updates ([crates/messages/src/group_update.rs],
      [crates/client/src/epoch/update.rs])

    The message that changes a group's roster and epoch, its validation, and the
    processor that applies it: founding a group, starting a migration, adding and
    removing members.  The state of a handler is the processor with its storage; one
    clock reading stands for the readings of one call.  The serialisers are
    parameters; a [HashMap] that is serialised goes out in its iteration order. *)

From Stdlib Require Import Strings.Byte.
From stdpp Require Import base tactics numbers sets list gmap strings pretty option sorting.
From S2P Require Import Prelude StateError Crypto HybridKem EpochState CutoverMessages FilePath.
From S2P Require Import Storage Welcome.
Open Scope hc_scope.
Open Scope hc_st_scope.

(** ** The message *)

Record GroupConfig := mkGroupConfig {
  gc_max_members : N;
  gc_epoch_lifetime : N;
  gc_require_unanimous_removal : bool;
  gc_extensions : gmap string bytes;
}.

Record RosterCapabilities := mkRosterCapabilities {
  can_add_members : bool;
  can_remove_members : bool;
  can_initiate_epoch_transitions : bool;
  is_admin : bool;
}.

Record RosterMember := mkRosterMember {
  rm_user_id : string;
  rm_device_id : string;
  rm_identity_public : bytes;
  rm_invitation_public : bytes;
  rm_capabilities : RosterCapabilities;
  rm_joined_at : N;
}.

Inductive UpdateAction :=
| ActInitialize (founding_members : list RosterMember) (group_config : GroupConfig)
| ActStartMigration (target_epoch : N) (reason : string)
| ActAddMember (member : RosterMember) (welcome_message : bytes)
| ActRemoveMember (user_id device_id reason : string).

Record GroupUpdateMessage := mkGroupUpdateMessage {
  gu_from_epoch_id : bytes;
  gu_to_epoch_id : bytes;
  gu_from : N;
  gu_to : N;
  gu_action : UpdateAction;
  gu_updated_roster : list RosterMember;
  gu_state_hash : bytes;
  gu_admin_signature : bytes;
  gu_per_member_secrets : gmap string bytes;
  gu_timestamp : N;
}.

(** What is signed; the secrets in the order in which they are serialised. *)
Record SignableGroupUpdate := mkSignableGroupUpdate {
  su_from_epoch_id : bytes;
  su_to_epoch_id : bytes;
  su_from : N;
  su_to : N;
  su_action : UpdateAction;
  su_updated_roster : list RosterMember;
  su_state_hash : bytes;
  su_per_member_secrets : list (string * bytes);
  su_timestamp : N;
}.

Class UpdateCodec := {
  signable_update_to_cbor : SignableGroupUpdate → res string bytes;
  roster_to_cbor : list RosterMember → res string bytes;
  action_to_json : UpdateAction → res string bytes;
}.
(** [{:?}] of a [CryptoError]. *)
Class CryptoDebug := crypto_debug : CryptoError → string.

Definition GroupConfig_new : GroupConfig := mkGroupConfig 100 86400 false ∅.
Definition GroupConfig_validate (c : GroupConfig) : res MessageError unit :=
  if (gc_max_members c =? 0)%N then Err (MsgInvalidFormat "max_members must be > 0")
  else if (10000 <? gc_max_members c)%N then Err (MsgInvalidFormat "max_members must be <= 10000")
  else if (gc_epoch_lifetime c =? 0)%N then Err (MsgInvalidFormat "epoch_lifetime must be > 0")
  else Ok tt.

Definition RosterCapabilities_default : RosterCapabilities := mkRosterCapabilities false false false false.
Definition RosterCapabilities_admin : RosterCapabilities := mkRosterCapabilities true true true true.

Definition RosterMember_validate (m : RosterMember) : res MessageError unit :=
  if is_empty_string (rm_user_id m) then Err (MsgInvalidFormat "user_id cannot be empty")
  else if is_empty_string (rm_device_id m) then Err (MsgInvalidFormat "device_id cannot be empty")
  else if decide (length (rm_identity_public m) ≠ 32)
  then Err (MsgInvalidFormat "identity_public must be 32 bytes")
  else if decide (length (rm_invitation_public m) ≠ 32)
  then Err (MsgInvalidFormat "invitation_public must be 32 bytes")
  else Ok tt.

Definition RosterMember_new (user_id device_id : string) (identity invitation : bytes)
    (caps : RosterCapabilities) (joined_at : N) : res MessageError RosterMember :=
  let m := mkRosterMember user_id device_id identity invitation caps joined_at in
  let? _ := RosterMember_validate m in Ok m.

Definition roster_id (user_id device_id : string) : string := user_id +:+ ":" +:+ device_id.
Definition RosterMember_member_id (m : RosterMember) : string := roster_id (rm_user_id m) (rm_device_id m).

Fixpoint validate_roster (l : list RosterMember) : res MessageError unit :=
  match l with
  | [] => Ok tt
  | m :: l => let? _ := RosterMember_validate m in validate_roster l
  end.

Definition in_roster (id : string) (l : list RosterMember) : bool :=
  existsb (λ m, bool_decide (RosterMember_member_id m = id)) l.

Definition validate_action (u : GroupUpdateMessage) : res MessageError unit :=
  match gu_action u with
  | ActInitialize founding cfg =>
      let? _ := GroupConfig_validate cfg in
      if bool_decide (founding = []) then
        Err (MsgInvalidFormat "Initialize action requires founding_members")
      else if negb (length founding =? length (gu_updated_roster u))
      then Err (MsgInvalidFormat "Founding members count must match updated roster")
      else Ok tt
  | ActStartMigration target _ =>
      if negb (target =? gu_to u)%N
      then Err (MsgInvalidFormat "Migration target_epoch must match to_epoch") else Ok tt
  | ActAddMember m _ =>
      let? _ := RosterMember_validate m in
      if negb (in_roster (RosterMember_member_id m) (gu_updated_roster u))
      then Err (MsgInvalidFormat "Added member must be in updated roster") else Ok tt
  | ActRemoveMember user device _ =>
      if in_roster (roster_id user device) (gu_updated_roster u)
      then Err (MsgInvalidFormat "Removed member must not be in updated roster") else Ok tt
  end.

Definition GroupUpdate_validate (u : GroupUpdateMessage) : res MessageError unit :=
  if (gu_to u <=? gu_from u)%N then
    Err (MsgInvalidFormat "Target epoch must be greater than source epoch")
  else if decide (length (gu_admin_signature u) ≠ 64)
  then Err (MsgInvalidFormat "admin_signature must be 64 bytes")
  else if decide (length (gu_state_hash u) ≠ 32)
  then Err (MsgInvalidFormat "state_hash must be 32 bytes")
  else if bool_decide (gu_updated_roster u = [])
  then Err (MsgInvalidFormat "updated_roster cannot be empty")
  else
    let? _ := validate_roster (gu_updated_roster u) in
    validate_action u.

Definition GroupUpdate_new (from_id to_id : bytes) (from to : N) (action : UpdateAction)
    (roster : list RosterMember) (state_hash signature : bytes) (secrets : gmap string bytes)
    (timestamp : N) : res MessageError GroupUpdateMessage :=
  let u := mkGroupUpdateMessage from_id to_id from to action roster state_hash signature secrets
             timestamp in
  let? _ := GroupUpdate_validate u in Ok u.

Section Message.
Context {ho : HashOrder} {codec : UpdateCodec} {dbg : CryptoDebug} {ed : Ed25519} {sha : Sha256}.

Definition canonical_message (u : GroupUpdateMessage) : res MessageError bytes :=
  map_err (λ e, MsgSerializationError ("CBOR encoding failed: " +:+ e))
    (signable_update_to_cbor
       (mkSignableGroupUpdate (gu_from_epoch_id u) (gu_to_epoch_id u) (gu_from u) (gu_to u)
          (gu_action u) (gu_updated_roster u) (gu_state_hash u)
          (hash_order (gu_per_member_secrets u)) (gu_timestamp u))).

Definition verify_admin_signature (u : GroupUpdateMessage) (admin_public_key : bytes)
  : res MessageError unit :=
  let? key := map_err (λ e, MsgSignatureError ("Invalid admin key: " +:+ crypto_debug e))
                (VerifyingKey_from_bytes admin_public_key) in
  let? signature := map_err (λ e, MsgSignatureError ("Invalid signature: " +:+ crypto_debug e))
                      (Signature_from_bytes (gu_admin_signature u)) in
  let? message := canonical_message u in
  map_err (λ e, MsgSignatureError ("Signature verification failed: " +:+ crypto_debug e))
    (VerifyingKey_verify key message signature).

Definition member_id_le (a b : RosterMember) : Prop :=
  String.le (RosterMember_member_id a) (RosterMember_member_id b).
#[export] Instance member_id_le_dec : RelDecision member_id_le.
Proof. intros a b. unfold member_id_le. apply _. Defined.

(** [sort_by] is stable, as [merge_sort] is. *)
Definition calculate_state_hash (roster : list RosterMember) : res MessageError bytes :=
  let? b := map_err (λ e, MsgSerializationError ("Failed to serialize roster: " +:+ e))
              (roster_to_cbor (merge_sort member_id_le roster)) in
  Ok (arr (sha256 (bytes_of "hybridcipher-state-v1:" ++ b))).
End Message.

(** ** The processor *)

Inductive GroupUpdateError :=
| GInvalidUpdate (msg : string)
| GStorage (msg : string)
| GNetwork (msg : string)
| GDecryptionFailed (msg : string)
| GSignatureVerificationFailed (msg : string)
| GEpochMismatch (msg : string)
| GMessageTooOld (msg : string)
| GReplayAttack (msg : string)
| GMaxRetriesExceeded (msg : string)
| GCrypto (msg : string).

Record GroupUpdateConfig := mkGroupUpdateConfig {
  guc_max_message_age : N;
  guc_max_retry_attempts : N;
  guc_retry_delay_ms : N;
  guc_strict_validation : bool;
}.
Definition GroupUpdateConfig_default : GroupUpdateConfig := mkGroupUpdateConfig 300 3 1000 true.

(** The percentage is an [f32] that only takes the value 10. *)
Record UpdateMigrationStatus := mkUpdateMigrationStatus {
  ums_phase : string;
  ums_target_epoch : N;
  ums_progress : N;
  ums_estimated_completion : option Z;
}.

Record GroupUpdateResult := mkGroupUpdateResult {
  gr_processed_epochs : list N;
  gr_updated_members : list string;
  gr_migration_status : option UpdateMigrationStatus;
  gr_warnings : list string;
  gr_requires_action : bool;
}.

Record GroupUpdateRecord := mkGroupUpdateRecord {
  grr_update_hash : string;
  grr_processed_at : Z;
  grr_from_epoch : N;
  grr_to_epoch : N;
  grr_action_type : string;
}.

Record GroupUpdateProcessor := mkGroupUpdateProcessor {
  gp_device_identity : Ed25519KeyPair;
  gp_processed_updates : gmap string GroupUpdateRecord;
}.

Definition GroupUpdateProcessor_new (identity : Ed25519KeyPair) : GroupUpdateProcessor :=
  mkGroupUpdateProcessor identity ∅.

Definition action_type (a : UpdateAction) : string :=
  match a with
  | ActInitialize _ _ => "Initialize"
  | ActStartMigration _ _ => "StartMigration"
  | ActAddMember _ _ => "AddMember"
  | ActRemoveMember _ _ _ => "RemoveMember"
  end.

Section Processor.
Context {ho : HashOrder} {codec : UpdateCodec} {dbg : CryptoDebug} {chrono : Chrono}.
Context {xc : X25519} {mk : MlKem} {hk : Hkdf} {ed : Ed25519} {sha : Sha256} {hex : Hex}.
Context {S : Type} {store : Storage S}.

Abbreviation G := (ST (GroupUpdateProcessor * S) GroupUpdateError).

Definition gu_store (msg : string) (e : EpochState) : G unit :=
  λ ps, let '(r, s) := store_epoch_state e ps.2 in
        (map_err (λ e, GStorage (msg +:+ StorageError_display e)) r, (ps.1, s)).
Definition gu_load (msg : string) (id : N) (now : Z) : G EpochState :=
  λ ps, (map_err (λ e, GStorage (msg +:+ StorageError_display e)) (load_epoch_state id now ps.2), ps).

(** [find_map] over a list. *)
Fixpoint find_map {A B} (f : A → option B) (l : list A) : option B :=
  match l with
  | [] => None
  | a :: l => match f a with Some b => Some b | None => find_map f l end
  end.

Definition find_local_member_id (p : GroupUpdateProcessor) (roster : list RosterMember) : option string :=
  find_map (λ m, if decide (rm_identity_public m = public_key_bytes (gp_device_identity p))
                 then Some (RosterMember_member_id m) else None) roster.

Definition find_local_member_id_in_epoch (p : GroupUpdateProcessor) (e : EpochState) : option string :=
  find_map (λ m, if decide (public_key m = public_key_bytes (gp_device_identity p))
                 then from_utf8 (member_id m) else None) (hash_order (members e)).*2.

Definition update_hash_msg (u : GroupUpdateMessage) : bytes :=
  gu_from_epoch_id u ++ gu_to_epoch_id u ++ le_bytes 8 (gu_from u) ++ le_bytes 8 (gu_to u)
  ++ le_bytes 8 (gu_timestamp u) ++ gu_state_hash u
  ++ match action_to_json (gu_action u) with Ok b => b | _ => [] end.
Definition calculate_update_hash (u : GroupUpdateMessage) : string :=
  hex_encode (arr (sha256 (update_hash_msg u))).

Definition validate_group_update (u : GroupUpdateMessage) (cfg : GroupUpdateConfig) (now : Z) : G unit :=
  do* st_lift (map_err (λ e, GInvalidUpdate ("Structure validation failed: " +:+ MessageError_display e))
                (GroupUpdate_validate u));
  let* current_time := st_lift (map_err (λ e, GInvalidUpdate ("Time error: " +:+ e)) (unix_seconds now)) in
  let message_age := (current_time - gu_timestamp u)%N in
  if (guc_max_message_age cfg <? message_age)%N then
    st_fail (GMessageTooOld ("Message age " +:+ pretty message_age +:+ " seconds exceeds maximum "
                             +:+ pretty (guc_max_message_age cfg)))
  else if (gu_to u <=? gu_from u)%N then
    st_fail (GInvalidUpdate "Target epoch must be greater than source epoch")
  else if bool_decide (gu_updated_roster u = []) then
    st_fail (GInvalidUpdate "Updated roster cannot be empty")
  else
    let* ps := st_get in
    let* current := st_lift (map_err (λ e, GStorage ("Failed to get current epoch: "
                                                     +:+ StorageError_display e))
                               (get_current_epoch_id ps.2)) in
    if negb (gu_from u =? current)%N then
      st_fail (GEpochMismatch ("Update from epoch " +:+ pretty (gu_from u)
                               +:+ " but current epoch is " +:+ pretty current))
    else st_ret tt.

Definition is_replay_attack (u : GroupUpdateMessage) : G bool :=
  let* ps := st_get in
  st_ret (is_some (gp_processed_updates ps.1 !! calculate_update_hash u)).

(** The administrator's key comes from the roster in the message. *)
Definition check_update_signature (u : GroupUpdateMessage) : res GroupUpdateError unit :=
  let? admin := ok_or (snd <$> list_find (λ m, is_admin (rm_capabilities m) = true) (gu_updated_roster u))
                  (GInvalidUpdate "No admin found in roster") in
  map_err (λ e, GSignatureVerificationFailed ("Admin signature verification failed: "
                                              +:+ MessageError_display e))
    (verify_admin_signature u (rm_identity_public admin)).
Definition verify_update_signature (u : GroupUpdateMessage) : G unit :=
  st_lift (check_update_signature u).

(** The member record that the three constructors of epochs share. *)
Definition member_of_roster (now : Z) (m : RosterMember) : Member :=
  let caps := rm_capabilities m in
  mkMember (bytes_of (RosterMember_member_id m)) (rm_identity_public m) MemberActive
    (mkMemberCapabilities true true (can_add_members caps) (can_initiate_epoch_transitions caps)
       (can_remove_members caps) (is_admin caps))
    (timestamp_or now (rm_joined_at m)) now.
Definition members_of_roster (now : Z) (l : list RosterMember) : gmap bytes Member :=
  foldl (λ ms m, <[bytes_of (RosterMember_member_id m) := member_of_roster now m]> ms) ∅ l.

Definition epoch_of_update (u : GroupUpdateMessage) (key : bytes) (roster : list RosterMember)
    (st : EpochStatus) (now : Z) : res GroupUpdateError EpochState :=
  let? k := ok_or (array_of 32 key) (GInvalidUpdate "Invalid epoch key length") in
  Ok (mkEpochState (gu_to u) k KeyGroupUpdate (members_of_roster now roster) st
        (timestamp_or now (gu_timestamp u)) now 0 EpochMetadata_default).

Definition create_epoch_from_initialize (u : GroupUpdateMessage) (founding : list RosterMember)
    (key : bytes) (now : Z) : res GroupUpdateError EpochState :=
  epoch_of_update u key founding (Active now) now.
Definition create_epoch_from_migration (u : GroupUpdateMessage) (key : bytes) (now : Z)
  : res GroupUpdateError EpochState :=
  epoch_of_update u key (gu_updated_roster u) (PendingCutover (gu_to u) now) now.
Definition create_epoch_from_roster_update (u : GroupUpdateMessage) (key : bytes) (now : Z)
  : res GroupUpdateError EpochState :=
  epoch_of_update u key (gu_updated_roster u) (Active now) now.

(** A member's entry is a KEM ciphertext, and the shared secret is the epoch key. *)
Definition open_member_secret (sk : HybridSecretKey) (encrypted : bytes)
  : res GroupUpdateError SharedSecret :=
  let? ct := map_err (λ e, GDecryptionFailed ("Invalid ciphertext: " +:+ CryptoError_display e))
               (HybridCiphertext_from_bytes encrypted) in
  map_err (λ e, GDecryptionFailed ("Decryption failed: " +:+ CryptoError_display e))
    (decap sk ct KemGroupUpdate).

Definition process_initialize_action (u : GroupUpdateMessage) (founding : list RosterMember)
    (sk : HybridSecretKey) (now : Z) : G GroupUpdateResult :=
  let* ps := st_get in
  let* id := st_lift (ok_or (find_local_member_id ps.1 (gu_updated_roster u))
                        (GInvalidUpdate "Local device not present in updated roster")) in
  let* encrypted := st_lift (ok_or (gu_per_member_secrets u !! id)
                               (GInvalidUpdate "No secrets for our device")) in
  let* secret := st_lift (open_member_secret sk encrypted) in
  let* e := st_lift (create_epoch_from_initialize u founding (arr (ss_bytes secret)) now) in
  do* gu_store "Failed to store epoch: " e;
  st_ret (mkGroupUpdateResult [gu_to u] (RosterMember_member_id <$> founding) None [] false).

Definition set_status (st : EpochStatus) (e : EpochState) : EpochState :=
  mkEpochState (epoch_id e) (encryption_key e) (key_source e) (members e) st (created_at e)
    (updated_at e) (file_count e) (metadata e).

Definition process_start_migration_action (u : GroupUpdateMessage) (target : N) (reason : string)
    (sk : HybridSecretKey) (now : Z) : G GroupUpdateResult :=
  let* current := gu_load "Failed to load current epoch: " (gu_from u) now in
  let* ps := st_get in
  let* local := st_lift (ok_or (find_local_member_id_in_epoch ps.1 current)
                           (GInvalidUpdate "Local device not present in current epoch state")) in
  do* gu_store "Failed to update epoch status: " (set_status (Migrating target now) current);
  let id := default local (find_local_member_id ps.1 (gu_updated_roster u)) in
  do* match gu_per_member_secrets u !! id with
      | Some encrypted =>
          let* secret := st_lift (open_member_secret sk encrypted) in
          let* e := st_lift (create_epoch_from_migration u (arr (ss_bytes secret)) now) in
          gu_store "Failed to store target epoch: " e
      | None => st_ret tt
      end;
  st_ret (mkGroupUpdateResult [gu_from u; target] (RosterMember_member_id <$> gu_updated_roster u)
            (Some (mkUpdateMigrationStatus "migration_started" target 10 (Some (now + HOUR)%Z)))
            ["Migration started: " +:+ reason] true).

(** The epochs that an addition or a removal reports. *)
Definition update_epochs (u : GroupUpdateMessage) : list N :=
  if negb (gu_to u =? gu_from u)%N then [gu_from u; gu_to u] else [gu_from u].

Definition process_add_member_action (u : GroupUpdateMessage) (m : RosterMember)
    (sk : HybridSecretKey) (now : Z) : G GroupUpdateResult :=
  let* current := gu_load "Failed to load current epoch: " (gu_from u) now in
  do* gu_store "Failed to update epoch with new member: "
        (with_members (<[bytes_of (RosterMember_member_id m) := member_of_roster now m]>
                         (members current)) now current);
  let* ps := st_get in
  do* (if negb (gu_to u =? gu_from u)%N then
         match find_local_member_id ps.1 (gu_updated_roster u) with
         | Some id =>
             match gu_per_member_secrets u !! id with
             | Some encrypted =>
                 let* secret := st_lift (open_member_secret sk encrypted) in
                 let* e := st_lift (create_epoch_from_roster_update u (arr (ss_bytes secret)) now) in
                 gu_store "Failed to store new epoch: " e
             | None => st_ret tt
             end
         | None => st_ret tt
         end
       else st_ret tt);
  st_ret (mkGroupUpdateResult (update_epochs u) [RosterMember_member_id m] None [] false).

Definition process_remove_member_action (u : GroupUpdateMessage) (user device reason : string)
    (now : Z) : G GroupUpdateResult :=
  let* current := gu_load "Failed to load current epoch: " (gu_from u) now in
  let* ps := st_get in
  let* local := st_lift (ok_or (find_local_member_id_in_epoch ps.1 current)
                           (GInvalidUpdate "Local device not present in current epoch state")) in
  let id := roster_id user device in
  if negb (is_some (members current !! bytes_of id)) then
    st_fail (GInvalidUpdate ("Member " +:+ id +:+ " not found in current roster"))
  else
    do* gu_store "Failed to update epoch after member removal: "
          (with_members (delete (bytes_of id) (members current)) now current);
    if negb (gu_to u =? gu_from u)%N && bool_decide (local = id) then
      st_ret (mkGroupUpdateResult [gu_from u] [id] None ["We were removed from group: " +:+ reason] true)
    else
      do* (if negb (gu_to u =? gu_from u)%N then
             match gu_per_member_secrets u !! local with
             | Some _ =>
                 let* e := st_lift (create_epoch_from_roster_update u (arr (zeros 32)) now) in
                 gu_store "Failed to store new epoch: " e
             | None => st_ret tt
             end
           else st_ret tt);
      st_ret (mkGroupUpdateResult (update_epochs u) [id] None ["Member removed: " +:+ reason] false).

Definition store_update_record (u : GroupUpdateMessage) (now : Z) : G unit :=
  let h := calculate_update_hash u in
  st_put (λ ps, (mkGroupUpdateProcessor (gp_device_identity ps.1)
    (<[h := mkGroupUpdateRecord h now (gu_from u) (gu_to u) (action_type (gu_action u))]>
       (gp_processed_updates ps.1)), ps.2)).

Definition touch (now : Z) (e : EpochState) : EpochState := with_members (members e) now e.

Definition update_epoch_state (u : GroupUpdateMessage) (now : Z) : G unit :=
  let* x := st_try (gu_load "" (gu_from u) now) in
  match x with
  | inr e => gu_store "Failed to update current epoch state: " (touch now e)
  | inl _ => st_ret tt
  end.

Definition process_action (u : GroupUpdateMessage) (sk : HybridSecretKey) (now : Z) : G GroupUpdateResult :=
  match gu_action u with
  | ActInitialize founding _ => process_initialize_action u founding sk now
  | ActStartMigration target reason => process_start_migration_action u target reason sk now
  | ActAddMember m _ => process_add_member_action u m sk now
  | ActRemoveMember user device reason => process_remove_member_action u user device reason now
  end.

(** The network status is only logged. *)
Definition process_group_update (sk : HybridSecretKey) (cfg : GroupUpdateConfig) (now : Z)
    (u : GroupUpdateMessage) : G GroupUpdateResult :=
  do* validate_group_update u cfg now;
  let* replay := is_replay_attack u in
  if replay then st_fail (GReplayAttack ("Update already processed: " +:+ calculate_update_hash u))
  else
    do* verify_update_signature u;
    let* result := process_action u sk now in
    do* store_update_record u now;
    do* update_epoch_state u now;
    st_ret result.

(** The wait before a retry, as a release build computes it; the state does not depend
    on it. *)
Definition update_retry_delay_ms (cfg : GroupUpdateConfig) (attempt : N) : N :=
  u64_wrap (guc_retry_delay_ms cfg * u64_wrap (2 ^ attempt)).

Definition retry_group_update (sk : HybridSecretKey) (cfg : GroupUpdateConfig) (attempt : N) (now : Z)
    (u : GroupUpdateMessage) : G GroupUpdateResult :=
  if (guc_max_retry_attempts cfg <=? attempt)%N
  then st_fail (GMaxRetriesExceeded ("Failed after " +:+ pretty (guc_max_retry_attempts cfg) +:+ " attempts"))
  else process_group_update sk cfg now u.
End Processor.

(** ** The signature is the message's own *)

Section SelfSigned.
Context {ho : HashOrder} {codec : UpdateCodec} {dbg : CryptoDebug} {ed : Ed25519} {el : Ed25519Laws}.

(** A group update is checked against the key of the first administrator in the roster
    that it brings along: whoever holds any signing key can list it as an
    administrator's, sign the update with it, and have the signature accepted, whatever
    the roster of the current epoch says. *)
Theorem update_signature_self_certified (key : SigningKey) (u : GroupUpdateMessage) (i : nat)
    (admin : RosterMember) (message : bytes) (signature : Signature) :
  list_find (λ m, is_admin (rm_capabilities m) = true) (gu_updated_roster u) = Some (i, admin) →
  rm_identity_public admin = arr (VerifyingKey_to_bytes (SigningKey_verifying_key key)) →
  canonical_message u = Ok message →
  SigningKey_sign key message = Ok signature →
  gu_admin_signature u = arr (Signature_to_bytes signature) →
  check_update_signature u = Ok tt.
Proof.
  intros Hf Hk Hm Hs Hu. unfold check_update_signature, verify_admin_signature. rewrite Hf.
  cbn [ok_or res_bind fmap option_fmap option_map snd]. rewrite Hk, Hu, Hm.
  rewrite VerifyingKey_from_to_bytes by apply dalek_public_valid. cbn [map_err res_bind].
  rewrite (Signature_from_to_bytes _ _ _ Hs). cbn [map_err res_bind].
  by rewrite (sign_verify _ _ _ Hs).
Qed.
End SelfSigned.

(** ** The processor on the in-memory store *)

Section OnMock.
Context {ho : HashOrder} {hol : HashOrderLaws} {json : StorageJson} {codec : UpdateCodec}
  {dbg : CryptoDebug} {chrono : Chrono}.
Context {xc : X25519} {mk : MlKem} {hk : Hkdf} {ed : Ed25519} {sha : Sha256} {hex : Hex}.
Implicit Types (s : MockStorage) (p : GroupUpdateProcessor) (ps : GroupUpdateProcessor * MockStorage).

Abbreviation GM := (ST (GroupUpdateProcessor * MockStorage) GroupUpdateError).

Lemma gu_store_eval msg e p s :
  gu_store msg e (p, s) = (Ok tt, (p, (mock_store_epoch_state e s).2)).
Proof. done. Qed.

Lemma gu_load_eval msg id now p s :
  gu_load msg id now (p, s) =
    (map_err (λ e, GStorage (msg +:+ StorageError_display e)) (mock_load_epoch_state id now s), (p, s)).
Proof. done. Qed.

(** A handler that loads an epoch first. *)
Lemma keeps_load_bind {A} (P : GroupUpdateProcessor * MockStorage → Prop) msg id now
    (k : EpochState → GM A) :
  (∀ e p s, mock_load_epoch_state id now s = Ok e → P (p, s) → P (k e (p, s)).2) →
  keeps P (st_bind (gu_load msg id now) k).
Proof.
  intros Hk [p s] HP. unfold st_bind. rewrite gu_load_eval.
  destruct (mock_load_epoch_state id now s) as [e|e| |] eqn:Hl; simpl; auto.
Qed.

(** *** The checks return *)

Lemma validate_member_settles m : settles (RosterMember_validate m).
Proof. unfold RosterMember_validate. by repeat case_match. Qed.

Lemma validate_roster_settles l : settles (validate_roster l).
Proof.
  induction l as [|m l IH]; [done|]. apply settles_bind; [apply validate_member_settles|by intros _].
Qed.

Lemma validate_action_settles u : settles (validate_action u).
Proof.
  unfold validate_action. destruct (gu_action u).
  - apply settles_bind; [unfold GroupConfig_validate; by repeat case_match|]. intros _. by repeat case_match.
  - by case_match.
  - apply settles_bind; [apply validate_member_settles|]. intros _. by case_match.
  - by case_match.
Qed.

Lemma validate_settles u : settles (GroupUpdate_validate u).
Proof.
  unfold GroupUpdate_validate. repeat (case_match; [done|]).
  apply settles_bind; [apply validate_roster_settles|]. intros _. apply validate_action_settles.
Qed.

Lemma unix_settles now : settles (unix_seconds now).
Proof. unfold unix_seconds. by case_decide. Qed.
Lemma current_settles s : settles (mock_get_current_epoch_id s).
Proof. unfold mock_get_current_epoch_id. by destruct (_.*1). Qed.

Lemma validate_returns u cfg now : returns (validate_group_update u cfg now : GM _).
Proof.
  unfold validate_group_update.
  apply returns_bind; [apply returns_lift, settles_map_err, validate_settles|]. intros _.
  apply returns_bind; [apply returns_lift, settles_map_err, unix_settles|]. intros t.
  repeat (case_match; [apply returns_fail|]). apply returns_bind; [apply returns_get|]. intros x.
  apply returns_bind; [apply returns_lift, settles_map_err, current_settles|]. intros c.
  case_match; [apply returns_fail|apply returns_ret].
Qed.

(** *** What an action may do to the store

    It rewrites epochs that it has just loaded, without changing their number or their
    key, and it stores epochs with the number that the update names; the key of such an
    epoch is what this device decapsulates from its own entry, or all zeros after a
    removal. *)

Definition removes (u : GroupUpdateMessage) : bool :=
  match gu_action u with ActRemoveMember _ _ _ => true | _ => false end.
Definition update_key (u : GroupUpdateMessage) (sk : HybridSecretKey) (key : bytes) : Prop :=
  if removes u then key = arr (zeros 32)
  else ∃ id encrypted secret, gu_per_member_secrets u !! id = Some encrypted
         ∧ open_member_secret sk encrypted = Ok secret ∧ key = arr (ss_bytes secret).

Lemma keeps_update_validation (P : GroupUpdateProcessor * MockStorage → Prop) u cfg now :
  keeps P (validate_group_update u cfg now : GM _).
Proof. unfold validate_group_update. keep_st. Qed.

(** An update that passes the validation starts from the largest stored epoch. *)
Lemma validate_facts u cfg now p s ps' :
  validate_group_update u cfg now (p, s) = (Ok tt, ps') →
  ps' = (p, s) ∧ GroupUpdate_validate u = Ok tt ∧ (gu_from u < gu_to u)%N
  ∧ mock_get_current_epoch_id s = Ok (gu_from u).
Proof.
  intros E. pose proof (keeps_update_validation (λ x, x = (p, s)) u cfg now (p, s) eq_refl) as Hs.
  rewrite E in Hs. simpl in Hs. subst ps'. unfold validate_group_update in E.
  apply st_bind_Ok in E as ([] & s1 & Hv & E). apply st_lift_Ok in Hv as [Hv ->].
  apply map_err_Ok in Hv. apply st_bind_Ok in E as (secs & s1 & Hn & E). apply st_lift_Ok in Hn as [_ ->].
  destruct (_ <? _)%N; [done|].
  destruct (gu_to u <=? gu_from u)%N eqn:Hlt; [done|]. destruct (bool_decide _); [done|].
  rewrite st_bind_get in E. apply st_bind_Ok in E as (c & s1 & Hc & E). apply st_lift_Ok in Hc as [Hc ->].
  apply map_err_Ok in Hc. destruct (gu_from u =? c)%N eqn:Heq; cbn [negb] in E; [|done].
  apply N.eqb_eq in Heq. apply N.leb_gt in Hlt. subst c. done.
Qed.

Section Action.
Variable P : GroupUpdateProcessor * MockStorage → Prop.
Variable u : GroupUpdateMessage.
Variable sk : HybridSecretKey.
Hypothesis P_restore : ∀ p s id now e e', P (p, s) → mock_load_epoch_state id now s = Ok e →
  epoch_id e' = epoch_id e → encryption_key e' = encryption_key e →
  P (p, (mock_store_epoch_state e' s).2).
Hypothesis P_new : ∀ p s key roster st now e, P (p, s) → update_key u sk key →
  epoch_of_update u key roster st now = Ok e → P (p, (mock_store_epoch_state e s).2).

Lemma keeps_store_new msg key roster st now e :
  update_key u sk key → epoch_of_update u key roster st now = Ok e → keeps P (gu_store msg e : GM _).
Proof using P_new.
  intros Hu He [p s] HP. rewrite gu_store_eval. by apply (P_new p s key roster st now).
Qed.

Lemma update_key_opened id encrypted secret :
  removes u = false → gu_per_member_secrets u !! id = Some encrypted →
  open_member_secret sk encrypted = Ok secret → update_key u sk (arr (ss_bytes secret)).
Proof using. unfold update_key. intros ->. eauto 10. Qed.

Ltac new_epoch := eapply keeps_store_new; [by eapply update_key_opened|eassumption].

Lemma keeps_initialize founding now :
  removes u = false → keeps P (process_initialize_action u founding sk now : GM _).
Proof using P_new.
  intros Hr. unfold process_initialize_action. keep_st.
  match goal with H : ok_or (_ !! _) _ = Ok _ |- _ => apply ok_or_Ok in H end. new_epoch.
Qed.

Lemma keeps_start_migration target reason now :
  removes u = false → keeps P (process_start_migration_action u target reason sk now : GM _).
Proof using P_restore P_new.
  intros Hr. unfold process_start_migration_action. apply keeps_load_bind. intros e p s Hl HP.
  rewrite st_bind_get. rewrite st_bind_lift. destruct (ok_or _ _); try done.
  apply keeps_bind_at.
  - rewrite gu_store_eval. by apply (P_restore p s (gu_from u) now e).
  - intros _. keep_st. new_epoch.
Qed.

Lemma keeps_add_member m now :
  removes u = false → keeps P (process_add_member_action u m sk now : GM _).
Proof using P_restore P_new.
  intros Hr. unfold process_add_member_action. apply keeps_load_bind. intros e p s Hl HP.
  apply keeps_bind_at.
  - rewrite gu_store_eval. by apply (P_restore p s (gu_from u) now e).
  - intros _. keep_st. new_epoch.
Qed.

Lemma keeps_remove_member user device reason now :
  removes u = true → keeps P (process_remove_member_action u user device reason now : GM _).
Proof using P_restore P_new.
  intros Hr. unfold process_remove_member_action. apply keeps_load_bind. intros e p s Hl HP.
  rewrite st_bind_get. rewrite st_bind_lift. destruct (ok_or _ _); try done.
  destruct (negb (is_some _)); [done|]. apply keeps_bind_at.
  - rewrite gu_store_eval. by apply (P_restore p s (gu_from u) now e).
  - intros _. keep_st. eapply keeps_store_new; [|eassumption]. unfold update_key. by rewrite Hr.
Qed.

Lemma keeps_action now : keeps P (process_action u sk now : GM _).
Proof using P_restore P_new.
  unfold process_action. destruct (gu_action u) eqn:Ha;
    [apply keeps_initialize|apply keeps_start_migration|apply keeps_add_member|apply keeps_remove_member];
    unfold removes; by rewrite Ha.
Qed.

Lemma keeps_update_epoch_state now : keeps P (update_epoch_state u now : GM _).
Proof using P_restore.
  unfold update_epoch_state. intros [p s] HP. unfold st_bind, st_try. rewrite gu_load_eval.
  destruct (mock_load_epoch_state _ now s) as [e|e| |] eqn:Hl; cbn [map_err]; try done.
  rewrite gu_store_eval. by apply (P_restore p s (gu_from u) now e).
Qed.

(** Everything after the validation. *)
Hypothesis P_record : ∀ p p' s, P (p, s) → P (p', s).

Lemma keeps_update cfg now : keeps P (process_group_update sk cfg now u : GM _).
Proof using P_restore P_new P_record.
  unfold process_group_update, is_replay_attack, verify_update_signature, store_update_record.
  apply keeps_bind; [apply keeps_update_validation|]. intros _. keep_st.
  - apply keeps_action.
  - apply keeps_put. intros [p s]. apply P_record.
  - apply keeps_update_epoch_state.
Qed.
End Action.

(** *** Keys *)

Lemma epoch_of_update_Ok u key roster st now e :
  epoch_of_update u key roster st now = Ok e →
  epoch_id e = gu_to u ∧ arr (encryption_key e) = key ∧ status e = st
  ∧ key_source e = KeyGroupUpdate.
Proof.
  unfold epoch_of_update. destruct (array_of 32 key) as [k|] eqn:Hk; [|done].
  intros E%Ok_inj. subst e. by apply array_of_Some in Hk.
Qed.

(** Nothing is stored above the epoch that a validated update starts from. *)
Lemma current_bound s c id : mock_get_current_epoch_id s = Ok c → is_Some (epoch_states s !! id) → (id ≤ c)%N.
Proof using hol. intros Hc. apply current_epoch_largest in Hc as [_ Hall]. apply Hall. Qed.

Lemma stored_key_is_stored id s k : stored_key id s = Some k → is_Some (epoch_states s !! id).
Proof. unfold stored_key. destruct (epoch_states s !! id); [by eexists|done]. Qed.

(** A sequence of updates, whatever their outcome. *)
Definition update_call : Type := HybridSecretKey * GroupUpdateConfig * Z * GroupUpdateMessage.
Definition run_update (ps : GroupUpdateProcessor * MockStorage) (c : update_call) :=
  let '(sk, cfg, now, u) := c in (process_group_update sk cfg now u ps).2.
Definition run_updates (cs : list update_call) ps := foldl run_update ps cs.

Lemma update_keeps_keys known sk cfg now u :
  keeps (λ ps, holds_keys known ps.2) (process_group_update sk cfg now u : GM _).
Proof using hol.
  intros [p s] Hh. destruct (validate_group_update u cfg now (p, s)) as [v ps'] eqn:Hv.
  pose proof (keeps_update_validation (λ x, x = (p, s)) u cfg now (p, s) eq_refl) as Hs. rewrite Hv in Hs.
  simpl in Hs. subst ps'. destruct v as [[]|e| |].
  2-4: unfold process_group_update, st_bind at 1; by rewrite Hv.
  pose proof (validate_facts _ _ _ _ _ _ Hv) as (_ & _ & Hlt & Hc).
  assert (known !! gu_to u = None) as Hne.
  { destruct (known !! gu_to u) as [k|] eqn:Hk; [|done]. apply (proj2 Hh) in Hk.
    pose proof (current_bound s (gu_from u) (gu_to u) Hc (stored_key_is_stored _ _ _ Hk)). lia. }
  apply (keeps_update (λ ps, holds_keys known ps.2)); [..|done].
  - intros p1 s1 id' now' e e'. apply holds_keys_restore.
  - intros p1 s1 key roster st now' e Hh1 _ He. apply epoch_of_update_Ok in He as (Hid & _).
    apply holds_keys_new; [done|]. by rewrite Hid.
  - intros p1 p2 s1. done.
Qed.

(** Group updates never change the key of an epoch that the store has: after any
    sequence of updates, accepted or not, every epoch still has the key that it had. *)
Theorem updates_never_rekey (cs : list update_call) (p : GroupUpdateProcessor) (s : MockStorage)
    (id : N) (k : array 32) :
  epochs_keyed s → stored_key id s = Some k → stored_key id (run_updates cs (p, s)).2 = Some k.
Proof using hol.
  intros Hk Hs. assert (holds_keys {[id := k]} (p, s).2) as H by by apply holds_keys_one.
  revert H. generalize (p, s). clear Hk Hs. unfold run_updates.
  induction cs as [|[[[sk cfg] now] u] cs IH]; intros ps H; [by apply holds_keys_one in H as [_ H]|].
  cbn [foldl]. apply IH. by apply update_keeps_keys.
Qed.

(** A successful run, in its steps. *)
Lemma process_update_split sk cfg now u p s r p' s' :
  process_group_update sk cfg now u (p, s) = (Ok r, (p', s')) →
  validate_group_update u cfg now (p, s) = (Ok tt, (p, s))
  ∧ gp_processed_updates p !! calculate_update_hash u = None
  ∧ check_update_signature u = Ok tt
  ∧ ∃ p1 s1, process_action u sk now (p, s) = (Ok r, (p1, s1))
      ∧ update_epoch_state u now (store_update_record u now (p1, s1)).2 = (Ok tt, (p', s')).
Proof.
  unfold process_group_update. intros E. apply st_bind_Ok in E as ([] & ps & Hv & E).
  pose proof (validate_facts _ _ _ _ _ _ Hv) as (-> & _). split; [done|].
  unfold is_replay_attack in E. apply st_bind_Ok in E as (b & ps & Hb & E).
  rewrite st_bind_get in Hb. unfold st_ret in Hb. apply pair_eq in Hb as [Hb <-]. apply Ok_inj in Hb.
  destruct b; [done|]. cbn [fst] in Hb. split; [by destruct (gp_processed_updates p !! _)|].
  apply st_bind_Ok in E as ([] & ps & Hs & E). apply st_lift_Ok in Hs as [Hs ->]. split; [done|].
  apply st_bind_Ok in E as (r1 & [p1 s1] & Ha & E). apply st_bind_Ok in E as ([] & ps2 & Hr & E).
  apply st_bind_Ok in E as ([] & [p3 s3] & Hu & E). unfold st_ret in E. apply pair_eq in E as [Er Ep].
  apply Ok_inj in Er. apply pair_eq in Ep as [-> ->]. subst r1. exists p1, s1. split; [done|].
  by rewrite Hr.
Qed.

(** A group update installs a key that this device alone computes: when it succeeds, the
    key of the new epoch is the secret that the device decapsulates from its own entry
    of the message, and after the removal of a member it is thirty-two zero bytes. *)
Theorem update_installs_key (sk : HybridSecretKey) (cfg : GroupUpdateConfig) (now : Z)
    (u : GroupUpdateMessage) (p p' : GroupUpdateProcessor) (s s' : MockStorage)
    (r : GroupUpdateResult) (k : array 32) :
  epochs_keyed s → process_group_update sk cfg now u (p, s) = (Ok r, (p', s')) →
  stored_key (gu_to u) s' = Some k → update_key u sk (arr k).
Proof using hol.
  intros Hk E Hs. pose proof (process_update_split _ _ _ _ _ _ _ _ _ E) as (Hv & _).
  pose proof (validate_facts _ _ _ _ _ _ Hv) as (_ & _ & Hlt & Hc).
  pose (P ps := epochs_keyed ps.2 ∧ ∀ k, stored_key (gu_to u) ps.2 = Some k → update_key u sk (arr k)).
  assert (P (process_group_update sk cfg now u (p, s)).2) as [_ HP]; [|by rewrite E in HP; apply HP].
  apply keeps_update.
  - intros p1 s1 id now' e e' [Hk1 H1] Hl Hid Hkey. cbn [snd] in *.
    split; cbn [snd]; [by apply epochs_keyed_store|]. intros k1.
    rewrite (stored_key_restore (gu_to u) id now' e e' s1) by done. apply H1.
  - intros p1 s1 key roster st now' e [Hk1 H1] Hu He. apply epoch_of_update_Ok in He as (Hid & Hkey & _).
    cbn [snd] in *. split; cbn [snd]; [by apply epochs_keyed_store|]. intros k1.
    rewrite stored_key_store, Hid, decide_True by done. intros [= <-]. by rewrite Hkey.
  - done.
  - split; [done|]. intros k1 Hk1%stored_key_is_stored. cbn [snd] in Hk1.
    pose proof (current_bound s _ _ Hc Hk1). lia.
Qed.

(** *** Replay *)

Definition processed (h : string) ps : Prop := is_Some (gp_processed_updates ps.1 !! h).

Lemma keeps_processed h sk cfg now u : keeps (processed h) (process_group_update sk cfg now u : GM _).
Proof.
  unfold process_group_update, is_replay_attack, verify_update_signature, store_update_record.
  apply keeps_bind; [apply keeps_update_validation|]. intros _. keep_st.
  - apply keeps_action; done.
  - apply keeps_put. intros [p s] Hp. unfold processed in *. simpl in *.
    destruct (decide (calculate_update_hash u = h)) as [<-|]; [by rewrite lookup_insert_eq|].
    by rewrite lookup_insert_ne.
  - apply keeps_update_epoch_state; done.
Qed.

Lemma replay_fails sk cfg now u ps :
  processed (calculate_update_hash u) ps →
  ∃ e, process_group_update sk cfg now u ps = (Err e, ps).
Proof.
  intros [rec Hrec].
  pose proof (keeps_update_validation (λ x, x = ps) u cfg now ps eq_refl) as Hs.
  pose proof (validate_returns u cfg now ps) as Hret. unfold process_group_update, st_bind at 1.
  destruct (validate_group_update u cfg now ps) as [[[]|e| |] ps'] eqn:Hv; simpl in Hs, Hret; subst ps';
    [|by eexists|done..].
  eexists. unfold is_replay_attack, st_bind, st_get, st_ret. rewrite Hrec. reflexivity.
Qed.

(** A group update that was applied is never applied again by the same processor: after
    any further updates it is refused, and nothing changes. *)
Theorem update_applied_once (sk sk' : HybridSecretKey) (cfg cfg' : GroupUpdateConfig) (now now' : Z)
    (u : GroupUpdateMessage) (p p' : GroupUpdateProcessor) (s s' : MockStorage)
    (r : GroupUpdateResult) (cs : list update_call) :
  process_group_update sk cfg now u (p, s) = (Ok r, (p', s')) →
  ∃ e, process_group_update sk' cfg' now' u (run_updates cs (p', s')) =
         (Err e, run_updates cs (p', s')).
Proof.
  intros E. apply replay_fails.
  assert (processed (calculate_update_hash u) (p', s')) as H.
  { destruct (process_update_split _ _ _ _ _ _ _ _ _ E) as (_ & _ & _ & p1 & s1 & _ & Hu).
    assert (processed (calculate_update_hash u) (store_update_record u now (p1, s1)).2) as H1.
    { unfold processed. simpl. by rewrite lookup_insert_eq. }
    pose proof (keeps_update_epoch_state (processed (calculate_update_hash u)) u ltac:(done) now _ H1) as H2.
    by rewrite Hu in H2. }
  revert H. generalize (p', s'). clear E. unfold run_updates.
  induction cs as [|[[[sk1 cfg1] now1] u1] cs IH]; intros ps H; [done|].
  cbn [foldl]. apply IH. by apply keeps_processed.
Qed.

(** *** What cannot succeed *)

Lemma removal_action_fails u user device reason now p s :
  length (bytes_of (roster_id user device)) ≠ 32 →
  ∃ x, process_remove_member_action u user device reason now (p, s) = (x, (p, s)) ∧ ∀ r, x ≠ Ok r.
Proof.
  intros Hlen. unfold process_remove_member_action, st_bind at 1. rewrite gu_load_eval.
  destruct (mock_load_epoch_state _ now s) as [e|e| |] eqn:Hl; cbn [map_err]; try by eexists.
  rewrite st_bind_get, st_bind_lift. destruct (ok_or _ _); try by eexists. cbv zeta.
  destruct (members e !! bytes_of (roster_id user device)) as [m|] eqn:Hm; [|by eexists].
  by apply (mock_loaded_ids _ _ _ _ _ _ Hl) in Hm.
Qed.

(** Nobody is removed from a group: members are reloaded under ids of thirty-two bytes,
    and the removal looks for [user:device], so a removal fails and changes nothing
    whenever that name has another length. *)
Theorem removal_never_succeeds (sk : HybridSecretKey) (cfg : GroupUpdateConfig) (now : Z)
    (u : GroupUpdateMessage) (user device reason : string) (p : GroupUpdateProcessor)
    (s : MockStorage) :
  gu_action u = ActRemoveMember user device reason →
  length (bytes_of (roster_id user device)) ≠ 32 →
  (process_group_update sk cfg now u (p, s)).2 = (p, s)
  ∧ ∀ r, (process_group_update sk cfg now u (p, s)).1 ≠ Ok r.
Proof.
  intros Ha Hlen.
  cut (∃ x, process_group_update sk cfg now u (p, s) = (x, (p, s)) ∧ ∀ r, x ≠ Ok r);
    [by intros (x & -> & Hx)|].
  destruct (removal_action_fails u user device reason now p s Hlen) as (x & Hact & Hx).
  pose proof (keeps_update_validation (λ x, x = (p, s)) u cfg now (p, s) eq_refl) as Hs.
  unfold process_group_update, st_bind at 1.
  destruct (validate_group_update u cfg now (p, s)) as [[[]|e| |] ps'] eqn:Hv; simpl in Hs; subst ps';
    try by eexists.
  unfold is_replay_attack, st_bind at 1. rewrite st_bind_get. unfold st_ret.
  destruct (is_some _); [by eexists|].
  unfold verify_update_signature. rewrite st_bind_lift.
  destruct (check_update_signature u) as [[]|e| |]; try by eexists.
  unfold st_bind at 1, process_action. rewrite Ha, Hact. destruct x; try by eexists. by destruct (Hx a).
Qed.

(** No group is founded through an update: on a store without epochs every update is
    refused and changes nothing, the one that initialises a group included. *)
Theorem no_update_on_empty_store (sk : HybridSecretKey) (cfg : GroupUpdateConfig) (now : Z)
    (u : GroupUpdateMessage) (p : GroupUpdateProcessor) (s : MockStorage) :
  epoch_states s = ∅ → ∃ e, process_group_update sk cfg now u (p, s) = (Err e, (p, s)).
Proof using hol.
  intros Hs. pose proof (keeps_update_validation (λ x, x = (p, s)) u cfg now (p, s) eq_refl) as Hst.
  pose proof (validate_returns u cfg now (p, s)) as Hret. unfold process_group_update, st_bind at 1.
  destruct (validate_group_update u cfg now (p, s)) as [[[]|e| |] ps'] eqn:Hv; simpl in Hst, Hret;
    subst ps'; [|by eexists|done..].
  apply validate_facts in Hv as (_ & _ & _ & Hc). apply current_epoch_spec in Hs. by rewrite Hs in Hc.
Qed.

(** *** A migration leaves no active epoch *)

Definition stored_active (id : N) s : bool :=
  match epoch_states s !! id with Some d => ed_is_active d | None => false end.

Definition active_status (st : EpochStatus) : bool := match st with Active _ => true | _ => false end.

Lemma stored_active_store id e s :
  stored_active id (mock_store_epoch_state e s).2 =
    if decide (id = epoch_id e) then active_status (status e) else stored_active id s.
Proof.
  unfold stored_active. simpl. case_decide as Hid.
  - subst. by rewrite lookup_insert_eq.
  - by rewrite lookup_insert_ne by congruence.
Qed.

Lemma mock_load_active id now s e :
  mock_load_epoch_state id now s = Ok e → active_status (status e) = stored_active id s.
Proof.
  unfold mock_load_epoch_state, stored_active. destruct (epoch_states s !! id) as [d|]; [|done].
  destruct (array_of 32 _); [|done]. intros E%Ok_inj. subst e. simpl. unfold loaded_status.
  by destruct (ed_is_active d).
Qed.

(** Both epochs of a migration are inactive. *)
Definition both_inactive u ps : Prop :=
  epochs_keyed ps.2 ∧ stored_active (gu_from u) ps.2 = false ∧ stored_active (gu_to u) ps.2 = false.

Lemma both_inactive_store u p s e :
  both_inactive u (p, s) → active_status (status e) = false →
  both_inactive u (p, (mock_store_epoch_state e s).2).
Proof.
  intros (Hk & H1 & H2) He. cbn [snd] in *. split; cbn [snd]; [by apply epochs_keyed_store|].
  rewrite !stored_active_store. by repeat case_decide.
Qed.

Lemma start_migration_inactive u target reason sk now p s r ps' :
  epochs_keyed s → (gu_from u < gu_to u)%N → mock_get_current_epoch_id s = Ok (gu_from u) →
  process_start_migration_action u target reason sk now (p, s) = (Ok r, ps') → both_inactive u ps'.
Proof using hol.
  intros Hk Hlt Hc E. unfold process_start_migration_action in E.
  apply st_bind_Ok in E as (cur & ps & Hl & E). rewrite gu_load_eval in Hl.
  apply pair_eq in Hl as [Hl <-]. apply map_err_Ok in Hl.
  rewrite st_bind_get in E. apply st_bind_Ok in E as (local & ps & Hloc & E).
  apply st_lift_Ok in Hloc as [_ ->]. apply st_bind_Ok in E as ([] & ps & Hst & E).
  rewrite gu_store_eval in Hst. apply pair_eq in Hst as [_ <-].
  assert (both_inactive u (p, (mock_store_epoch_state (set_status (Migrating target now) cur) s).2)) as H0.
  { split; cbn [snd]; [by apply epochs_keyed_store|]. rewrite !stored_active_store. cbn [epoch_id set_status].
    rewrite (mock_load_id _ _ _ _ Hk Hl), decide_True by done. split; [done|].
    rewrite decide_False by lia. unfold stored_active.
    destruct (epoch_states s !! gu_to u) as [d|] eqn:Hd; [|done].
    pose proof (current_bound s _ (gu_to u) Hc (mk_is_Some _ _ Hd)). lia. }
  apply st_bind_Ok in E as ([] & ps & Hst & E). unfold st_ret in E.
  apply pair_eq in E as [_ <-]. destruct (gu_per_member_secrets u !! _) as [enc|].
  - apply st_bind_Ok in Hst as (secret & ps1 & Ho & Hst). apply st_lift_Ok in Ho as [_ ->].
    apply st_bind_Ok in Hst as (new & ps1 & Ho & Hst). apply st_lift_Ok in Ho as [Ho ->].
    rewrite gu_store_eval in Hst. apply pair_eq in Hst as [_ <-].
    apply epoch_of_update_Ok in Ho as (_ & _ & Hn & _). apply both_inactive_store; [done|by rewrite Hn].
  - unfold st_ret in Hst. apply pair_eq in Hst as [_ Hst]. by rewrite <-Hst.
Qed.

(** Starting a migration leaves the device without an active epoch: afterwards neither the
    epoch that it comes from nor the one that it goes to is among the active epochs of
    the store. *)
Theorem migration_leaves_no_active_epoch (sk : HybridSecretKey) (cfg : GroupUpdateConfig) (now now' : Z)
    (u : GroupUpdateMessage) (target : N) (reason : string) (p p' : GroupUpdateProcessor)
    (s s' : MockStorage) (r : GroupUpdateResult) :
  epochs_keyed s → gu_action u = ActStartMigration target reason →
  process_group_update sk cfg now u (p, s) = (Ok r, (p', s')) →
  ∀ e, e ∈ active_epochs now' s' → epoch_id e ≠ gu_from u ∧ epoch_id e ≠ gu_to u.
Proof using hol.
  intros Hk Ha E e He. pose proof (process_update_split _ _ _ _ _ _ _ _ _ E) as (Hv & _ & _ & p1 & s1 & Hact & Hu).
  pose proof (validate_facts _ _ _ _ _ _ Hv) as (_ & _ & Hlt & Hc).
  unfold process_action in Hact. rewrite Ha in Hact.
  pose proof (start_migration_inactive _ _ _ _ _ _ _ _ _ Hk Hlt Hc Hact) as H1.
  assert (both_inactive u (p', s')) as (Hk' & Hf & Ht).
  { unfold update_epoch_state, st_bind, st_try in Hu. unfold store_update_record, st_put in Hu.
    cbn [snd fst] in Hu. rewrite gu_load_eval in Hu.
    destruct (mock_load_epoch_state (gu_from u) now s1) as [c|c| |] eqn:Hl; cbn [map_err] in Hu; try done.
    - rewrite gu_store_eval in Hu. apply pair_eq in Hu as [_ Hu]. rewrite <-Hu.
      apply both_inactive_store; [done|]. cbn [touch with_members status].
      rewrite (mock_load_active _ _ _ _ Hl). apply H1.
    - unfold st_ret in Hu. apply pair_eq in Hu as [_ Hu]. by rewrite <-Hu. }
  assert (stored_active (epoch_id e) s' = true) as Hact'; [|by split; intros Hid; rewrite Hid in Hact'; cbn [snd] in *; congruence].
  unfold active_epochs in He. apply list_elem_of_omap in He as ([id d] & Hin & He).
  apply elem_of_hash_order in Hin. cbn [fst snd] in He. destruct (ed_is_active d) eqn:Hd; [|done].
  destruct (mock_load_epoch_state id now' s') as [e'|e'| |] eqn:Hl; simplify_eq.
  rewrite (mock_load_id _ _ _ _ Hk' Hl). unfold stored_active. by rewrite Hin.
Qed.
End OnMock.

(** ** Concrete instances *)

Definition toy_update_codec : UpdateCodec := {|
  signable_update_to_cbor := λ m, Ok (su_state_hash m);
  roster_to_cbor := λ l, Ok (flat_map rm_identity_public l);
  action_to_json := λ a, Ok (bytes_of (action_type a));
|}.
Definition toy_crypto_debug : CryptoDebug := λ _, "".

#[local] Existing Instances toy_hash_order toy_hash_order_laws toy_storage_json toy_update_codec
  toy_crypto_debug toy_chrono toy_x25519 toy_mlkem toy_hkdf toy_ed25519 toy_ed25519_laws toy_sha256
  toy_hex.

Definition tablet_key : SigningKey := mkSigningKey (num_array 32 11).
Definition tablet : Ed25519KeyPair := mkEd25519KeyPair tablet_key (SigningKey_verifying_key tablet_key).
Definition tablet_processor : GroupUpdateProcessor := GroupUpdateProcessor_new tablet.

(** The device calls itself an administrator; its member id has 32 bytes. *)
Definition tablet_member : RosterMember :=
  mkRosterMember "carol@example.org" "tablet-0000001" (public_key_bytes tablet) (le_bytes 32 1)
    RosterCapabilities_admin 1000.
Definition tablet_secret : bytes :=
  match toy_encap 3 KemGroupUpdate with Ok (ct, _) => HybridCiphertext_to_bytes ct | _ => [] end.
Definition tablet_signature : Signature :=
  match SigningKey_sign tablet_key (le_bytes 32 77) with Ok s => s | _ => mkSignature (zeros 64) (zeros 64) end.
Definition update_with (a : UpdateAction) : GroupUpdateMessage :=
  mkGroupUpdateMessage [x01] [x02] 1 2 a [tablet_member] (le_bytes 32 77)
    (arr (Signature_to_bytes tablet_signature))
    {[RosterMember_member_id tablet_member := tablet_secret]} 1050.
Definition add_update : GroupUpdateMessage := update_with (ActAddMember tablet_member []).
Definition migrate_update : GroupUpdateMessage := update_with (ActStartMigration 2 "rotation").
Definition remove_update : GroupUpdateMessage := update_with (ActRemoveMember "alice" "phone" "left").
Definition found_update : GroupUpdateMessage := update_with (ActInitialize [tablet_member] GroupConfig_new).

(** A store whose epoch 1 has this device. *)
Definition tablet_epoch : EpochState :=
  mkEpochState 1 epoch_key KeyWelcome
    (members_of_roster 10 [tablet_member]) (Active 10) 10 10 0 EpochMetadata_default.
Definition tablet_store : MockStorage := (mock_store_epoch_state tablet_epoch MockStorage_new).2.
Lemma tablet_store_keyed : epochs_keyed tablet_store.
Proof. apply epochs_keyed_store, epochs_keyed_new. Qed.
Definition update_run (u : GroupUpdateMessage) :=
  process_group_update (hkp_secret (toy_pair 3)) GroupUpdateConfig_default at_1060 u
    (tablet_processor, tablet_store).

Lemma update_signature_self_certified_witness : check_update_signature add_update = Ok tt.
Proof.
  apply (update_signature_self_certified tablet_key add_update 0 tablet_member (le_bytes 32 77)
           tablet_signature); reflexivity.
Defined.

Lemma updates_never_rekey_witness :
  stored_key 1 (run_updates [(hkp_secret (toy_pair 3), GroupUpdateConfig_default, at_1060, add_update);
                             (hkp_secret (toy_pair 3), GroupUpdateConfig_default, at_1060, migrate_update)]
                  (tablet_processor, tablet_store)).2 = Some epoch_key.
Proof.
  apply (updates_never_rekey [(hkp_secret (toy_pair 3), GroupUpdateConfig_default, at_1060, add_update);
    (hkp_secret (toy_pair 3), GroupUpdateConfig_default, at_1060, migrate_update)]
    tablet_processor tablet_store 1 epoch_key).
  - apply tablet_store_keyed.
  - unfold tablet_store. by rewrite stored_key_store.
Defined.

Lemma update_installs_key_witness :
  ∃ r p s k, update_run add_update = (Ok r, (p, s)) ∧ stored_key 2 s = Some k
    ∧ update_key add_update (hkp_secret (toy_pair 3)) (arr k).
Proof.
  assert (∃ r p s, update_run add_update = (Ok r, (p, s)) ∧ is_some (stored_key 2 s) = true)
    as (r & p & s & E & Hk) by (do 3 eexists; split; vm_compute; reflexivity).
  destruct (stored_key 2 s) as [k|] eqn:Hs; [|discriminate Hk]. exists r, p, s, k.
  split; [exact E|]. split; [done|].
  exact (update_installs_key (hkp_secret (toy_pair 3)) GroupUpdateConfig_default at_1060 add_update
           tablet_processor p tablet_store s r k tablet_store_keyed E Hs).
Defined.

Lemma update_applied_once_witness :
  ∃ r p s e, update_run add_update = (Ok r, (p, s))
    ∧ process_group_update (hkp_secret (toy_pair 3)) GroupUpdateConfig_default at_1060 add_update (p, s)
        = (Err e, (p, s)).
Proof.
  assert (∃ r p s, update_run add_update = (Ok r, (p, s))) as (r & p & s & E)
    by (do 3 eexists; vm_compute; reflexivity).
  destruct (update_applied_once (hkp_secret (toy_pair 3)) (hkp_secret (toy_pair 3))
    GroupUpdateConfig_default GroupUpdateConfig_default at_1060 at_1060 add_update tablet_processor p
    tablet_store s r [] E) as [e He].
  exists r, p, s, e. by split.
Defined.

Lemma removal_never_succeeds_witness : (update_run remove_update).2 = (tablet_processor, tablet_store).
Proof.
  apply (removal_never_succeeds (hkp_secret (toy_pair 3)) GroupUpdateConfig_default at_1060
           remove_update "alice" "phone" "left" tablet_processor tablet_store); [reflexivity|].
  vm_compute. discriminate.
Defined.

Lemma no_update_on_empty_store_witness :
  ∃ e, process_group_update (hkp_secret (toy_pair 3)) GroupUpdateConfig_default at_1060 found_update
         (tablet_processor, MockStorage_new) = (Err e, (tablet_processor, MockStorage_new)).
Proof.
  by apply (no_update_on_empty_store (hkp_secret (toy_pair 3)) GroupUpdateConfig_default at_1060
           found_update tablet_processor MockStorage_new).
Defined.

Lemma migration_leaves_no_active_epoch_witness :
  ∃ r p s, update_run migrate_update = (Ok r, (p, s))
    ∧ is_some (stored_key 2 s) = true
    ∧ ∀ e, e ∈ active_epochs at_1060 s → epoch_id e ≠ 1%N ∧ epoch_id e ≠ 2%N.
Proof.
  assert (∃ r p s, update_run migrate_update = (Ok r, (p, s)) ∧ is_some (stored_key 2 s) = true)
    as (r & p & s & E & Hk) by (do 3 eexists; split; vm_compute; reflexivity).
  exists r, p, s. split; [exact E|]. split; [exact Hk|].
  exact (migration_leaves_no_active_epoch (hkp_secret (toy_pair 3)) GroupUpdateConfig_default at_1060
           at_1060 migrate_update 2 "rotation" tablet_processor p tablet_store s r tablet_store_keyed
           eq_refl E).
Defined.
