(* ===== verification/Cutover.v ===== *)
(** * The cutover coordinator
      ([crates/client/src/epoch/cutover/coordinator.rs])

    The state of one [CutoverCoordinator] and its handlers, in a state and
    error monad: an early return keeps the state written so far.  Each handler
    runs as one step; [monitor_consensus], which polls every 100 ms while votes
    come in, is split into the part before the loop and one poll.  Storage and
    network are the traits of the client crate, as type classes; the coverage
    manager is the one of Coverage.v.  The [f64] of [required_commits] is
    computed with its rounding.  A handler takes one reading of the clock. *)

From Stdlib Require Import Strings.Byte QArith.
From stdpp Require Import base tactics numbers sets list gmap strings pretty option.
From S2P Require Import Prelude Crypto Transparency Merkle Coverage EpochState FilePath Storage.
From S2P Require Import CutoverMessages.
Close Scope Q_scope.
Open Scope hc_scope.

(** ** Positive [f64] values *)

Record f64 := mkF64 { f64_mant : N; f64_exp : Z }.

(** Round a mantissa to 53 bits, to nearest, ties to even. *)
Definition round53 (m : N) (e : Z) : f64 :=
  let k := (N.size m - 53)%N in
  if (k =? 0)%N then mkF64 m e
  else
    let q := N.shiftr m k in
    let r := (m - N.shiftl q k)%N in
    let half := N.shiftl 1 (k - 1) in
    let up := (half <? r)%N || ((half =? r)%N && N.odd q) in
    mkF64 (if up then q + 1 else q)%N (e + Z.of_N k).

Definition f64_of_N (n : N) : f64 := round53 n 0.
Definition f64_mul (a b : f64) : f64 :=
  round53 (f64_mant a * f64_mant b) (f64_exp a + f64_exp b).

(** [x.ceil() as usize]. *)
Definition f64_ceil (a : f64) : N :=
  if (0 <=? f64_exp a)%Z then (f64_mant a * 2 ^ Z.to_N (f64_exp a))%N
  else
    let d := (2 ^ Z.to_N (- f64_exp a))%N in
    ((f64_mant a + d - 1) / d)%N.

(** The literal [0.67]. *)
Definition f64_0_67 : f64 := mkF64 6034823500676465 (-53).

(** ** Data *)

Inductive CutoverError :=
| NotReady (msg : string)
| CoverageFailure (msg : string)
| CutConsensusFailed (msg : string)
| CutTimeout (msg : string)
| RollbackFailed (msg : string)
| SafetyCheckFailed (msg : string)
| CutNetwork (msg : string)
| CutStorage (msg : string)
| SignatureFailure
| CutCryptoError (e : CryptoError)
| CutInvalidState (msg : string)
| InvalidPhase
| NoCutoverInProgress
| MissingTargetEpoch
| SecureDeletionFailed (msg : string)
| CutStorageError (msg : string).

Definition CutoverError_display (e : CutoverError) : string :=
  match e with
  | NotReady msg => "Migration not ready for cutover: " +:+ msg
  | CoverageFailure msg => "Coverage verification failed: " +:+ msg
  | CutConsensusFailed msg => "Consensus failed: " +:+ msg
  | CutTimeout msg => "Timeout during cutover: " +:+ msg
  | RollbackFailed msg => "Rollback failed: " +:+ msg
  | SafetyCheckFailed msg => "Safety check failed: " +:+ msg
  | CutNetwork msg => "Network error: " +:+ msg
  | CutStorage msg => "Storage error: " +:+ msg
  | SignatureFailure => "Signature verification failed"
  | CutCryptoError e => "Cryptographic error: " +:+ CryptoError_display e
  | CutInvalidState msg => "Invalid cutover state: " +:+ msg
  | InvalidPhase => "Invalid cutover phase"
  | NoCutoverInProgress => "No cutover in progress for this epoch"
  | MissingTargetEpoch => "Missing target epoch for cutover"
  | SecureDeletionFailed msg => "Secure deletion failed: " +:+ msg
  | CutStorageError msg => "Storage error: " +:+ msg
  end.

Inductive CutoverStatus :=
| StPreparing | StInConsensus | StCommitted | StAborted | StRollingBack | StRolledBack.

Inductive CutoverState :=
| CutIdle | CutValidation | CutAwaitingConsensus | CutTransitioning | CutCompleted
| CutRollingBack | CutRolledBack.

#[export] Instance CutoverState_eq_dec : EqDecision CutoverState.
Proof. solve_decision. Defined.

Record ConsensusTracker := mkConsensusTracker {
  commit_count : nat;
  required_count : nat;
  participants : gset bytes;
}.

Record CutoverOperation := mkCutoverOperation {
  op_target_epoch : option EpochState;
  op_previous_epoch : option EpochState;
  op_status : CutoverStatus;
  op_started_at : Z;
  op_completed_at : option Z;
  op_consensus : option ConsensusTracker;
}.

Record CutoverConfig := mkCutoverConfig {
  min_coverage_threshold : Q;
  consensus_timeout : Z;
  min_consensus_nodes : nat;
  consensus_ratio : f64;
  auto_rollback : bool;
  max_rollback_attempts : nat;
}.

Definition CutoverConfig_default : CutoverConfig :=
  mkCutoverConfig 1%Q 30000000000 1 f64_0_67 true 3.

Record SignableCutoverMessage := mkSignableCutoverMessage {
  sg_phase : CutoverPhase;
  sg_from_epoch_id : bytes;
  sg_to_epoch_id : bytes;
  sg_coverage_root : bytes;
  sg_sender_key : bytes;
  sg_timestamp : Z;
  sg_vote : option CutoverVote;
}.

(** The part of [network/mod.rs] that the coordinator builds. *)
Inductive MessageType :=
| TyJoinCard | TyWelcome | TyGroupUpdate | TyFileMetadata | TyCoverageUpdate | TyCutover
| TyTransparencyRequest | TyHeartbeat | TyAcknowledgment.
Inductive MessagePriority := PrioLow | PrioNormal | PrioHigh | PrioCritical.
Inductive PeerStatus :=
| PeerConnected | PeerConnecting | PeerDisconnected | PeerFailed | PeerUnreachable.
Record PeerInfo := mkPeerInfo {
  peer_public_key : array 32;
  peer_address : string;
  peer_status : PeerStatus;
  peer_connected_at : Z;
  peer_last_activity : Z;
  peer_latency_ms : N;
  peer_protocol_version : string;
}.

Record SignableNetworkMessage := mkSignableNetworkMessage {
  sn_message_type : MessageType;
  sn_encrypted_payload : bytes;
  sn_sender_public_key : array 32;
  sn_timestamp : Z;
  sn_sequence_number : N;
  sn_priority : MessagePriority;
}.

Record NetworkMessage := mkNetworkMessage {
  nm_body : SignableNetworkMessage;
  nm_signature : array 64;
}.

(** [serde_json::to_vec] on the three structures; the error is its text. *)
Class CutoverJson := {
  json_signable_cutover : SignableCutoverMessage → res string bytes;
  json_signable_network : SignableNetworkMessage → res string bytes;
  json_cutover_message : CutoverMessage → res string bytes;
}.

(** The network trait: what the coordinator calls of it, on a state of its own. *)
Class Network (W : Type) := {
  list_peers : W → res string (list PeerInfo);
  send_message : array 32 → NetworkMessage → W → res string unit * W;
}.

(** [{:.1}] on a percentage, in one error message. *)
Class PercentFmt := percent_fmt : Q → string.


#[export] Instance VerifyingKey_countable : Countable VerifyingKey.
Proof. refine (inj_countable' vk_inner mkVerifyingKey _). by intros []. Defined.

Record Coordinator (S W : Type) := mkCoordinator {
  co_storage : S;
  co_network : W;
  co_coverage : CoverageManager;
  co_identity : Ed25519KeyPair;
  co_state : CutoverState;
  co_consensus : option ConsensusTracker;
  co_config : CutoverConfig;
  co_peers : gset VerifyingKey;
  co_sequence : N;
  co_rollbacks : nat;
  co_active : gmap string CutoverOperation;
  co_epoch : EpochState;
  (* the lock of [active_cutovers] is held by a task that waits for itself *)
  co_ops_held : bool;
}.
Arguments mkCoordinator {S W}.
Arguments co_storage {S W}.
Arguments co_network {S W}.
Arguments co_coverage {S W}.
Arguments co_identity {S W}.
Arguments co_state {S W}.
Arguments co_consensus {S W}.
Arguments co_config {S W}.
Arguments co_peers {S W}.
Arguments co_sequence {S W}.
Arguments co_rollbacks {S W}.
Arguments co_active {S W}.
Arguments co_epoch {S W}.
Arguments co_ops_held {S W}.

(** ** Byte and text helpers *)

Definition encode_epoch_id (epoch_id : N) : bytes := le_bytes 8 epoch_id ++ replicate 24 x00.

Definition parse_epoch_id (b : bytes) : res CutoverError N :=
  if (length b =? 8) then Ok (le_num b)
  else if (32 <=? length b) then Ok (le_num (take 8 b))
  else Err (CutInvalidState ("Invalid epoch identifier length: " +:+ pretty (N.of_nat (length b)))).

(** [str::parse::<u64>]: an optional plus sign and decimal digits. *)
Definition digit_value (a : Ascii.ascii) : option N :=
  if is_digit a then Some (Ascii.N_of_ascii a - 48)%N else None.
Fixpoint parse_digits (s : string) (acc : N) : option N :=
  match s with
  | EmptyString => Some acc
  | String a s =>
      match digit_value a with
      | Some d => let v := (acc * 10 + d)%N in
                  if (v <? U64)%N then parse_digits s v else None
      | None => None
      end
  end.
Definition parse_u64 (s : string) : option N :=
  match s with
  | EmptyString => None
  | String a s' =>
      if decide (a = Ascii.ascii_of_N 43) then
        match s' with EmptyString => None | _ => parse_digits s' 0 end
      else parse_digits s 0
  end.

(** ** The monad of the handlers *)

Section Handlers.
Context {sha : Sha256} {ed : Ed25519} {ejson : EntryJson} {hex : Hex} {opdbg : OperationDebug}.
Context {cjson : CutoverJson} {pfmt : PercentFmt} {iter : HashOrder}.
Context {S W : Type} {store : Storage S} {net : Network W}.

Abbreviation Coord := (Coordinator S W).

Definition M (A : Type) : Type := Coord → res CutoverError A * Coord.
Definition mret {A} (a : A) : M A := λ c, (Ok a, c).
Definition mfail {A} (e : CutoverError) : M A := λ c, (Err e, c).
Definition mbind {A B} (m : M A) (k : A → M B) : M B :=
  λ c, match m c with
       | (Ok a, c) => k a c
       | (Err e, c) => (Err e, c)
       | (Panic, c) => (Panic, c)
       | (Diverge, c) => (Diverge, c)
       end.
Definition mlift {A} (r : res CutoverError A) : M A := λ c, (r, c).
Definition mget : M Coord := λ c, (Ok c, c).
Definition mput (f : Coord → Coord) : M unit := λ c, (Ok tt, f c).
(** [let _ = ...] and [if let Err(e) = ... { warn!(..) }]. *)
Definition mignore {A} (m : M A) : M unit :=
  λ c, match m c with
       | (Panic, c) => (Panic, c)
       | (Diverge, c) => (Diverge, c)
       | (_, c) => (Ok tt, c)
       end.
(** [unwrap_or_default()]. *)
Definition munwrap_or {A} (d : A) (m : M A) : M A :=
  λ c, match m c with
       | (Err _, c) => (Ok d, c)
       | rc => rc
       end.
Local Notation "'let!' x := m 'in' k" := (mbind m (λ x, k))
  (at level 200, x pattern, m at level 100, k at level 200).
Local Notation "'do!' m ; k" := (mbind m (λ _ : unit, k))
  (at level 200, m at level 100, k at level 200).

Definition set_storage (s : S) (c : Coord) : Coord :=
  mkCoordinator s (co_network c) (co_coverage c) (co_identity c) (co_state c) (co_consensus c)
    (co_config c) (co_peers c) (co_sequence c) (co_rollbacks c) (co_active c) (co_epoch c) (co_ops_held c).
Definition set_network (w : W) (c : Coord) : Coord :=
  mkCoordinator (co_storage c) w (co_coverage c) (co_identity c) (co_state c) (co_consensus c)
    (co_config c) (co_peers c) (co_sequence c) (co_rollbacks c) (co_active c) (co_epoch c) (co_ops_held c).
Definition set_coverage (m : CoverageManager) (c : Coord) : Coord :=
  mkCoordinator (co_storage c) (co_network c) m (co_identity c) (co_state c) (co_consensus c)
    (co_config c) (co_peers c) (co_sequence c) (co_rollbacks c) (co_active c) (co_epoch c) (co_ops_held c).
Definition set_state (st : CutoverState) (c : Coord) : Coord :=
  mkCoordinator (co_storage c) (co_network c) (co_coverage c) (co_identity c) st (co_consensus c)
    (co_config c) (co_peers c) (co_sequence c) (co_rollbacks c) (co_active c) (co_epoch c) (co_ops_held c).
Definition set_consensus (t : option ConsensusTracker) (c : Coord) : Coord :=
  mkCoordinator (co_storage c) (co_network c) (co_coverage c) (co_identity c) (co_state c) t
    (co_config c) (co_peers c) (co_sequence c) (co_rollbacks c) (co_active c) (co_epoch c) (co_ops_held c).
Definition set_peers (ps : gset VerifyingKey) (c : Coord) : Coord :=
  mkCoordinator (co_storage c) (co_network c) (co_coverage c) (co_identity c) (co_state c)
    (co_consensus c) (co_config c) ps (co_sequence c) (co_rollbacks c) (co_active c) (co_epoch c) (co_ops_held c).
Definition set_sequence (n : N) (c : Coord) : Coord :=
  mkCoordinator (co_storage c) (co_network c) (co_coverage c) (co_identity c) (co_state c)
    (co_consensus c) (co_config c) (co_peers c) n (co_rollbacks c) (co_active c) (co_epoch c) (co_ops_held c).
Definition set_rollbacks (n : nat) (c : Coord) : Coord :=
  mkCoordinator (co_storage c) (co_network c) (co_coverage c) (co_identity c) (co_state c)
    (co_consensus c) (co_config c) (co_peers c) (co_sequence c) n (co_active c) (co_epoch c) (co_ops_held c).
Definition set_active (ops : gmap string CutoverOperation) (c : Coord) : Coord :=
  mkCoordinator (co_storage c) (co_network c) (co_coverage c) (co_identity c) (co_state c)
    (co_consensus c) (co_config c) (co_peers c) (co_sequence c) (co_rollbacks c) ops (co_epoch c)
    (co_ops_held c).
Definition set_epoch (e : EpochState) (c : Coord) : Coord :=
  mkCoordinator (co_storage c) (co_network c) (co_coverage c) (co_identity c) (co_state c)
    (co_consensus c) (co_config c) (co_peers c) (co_sequence c) (co_rollbacks c) (co_active c) e
    (co_ops_held c).
Definition set_held (b : bool) (c : Coord) : Coord :=
  mkCoordinator (co_storage c) (co_network c) (co_coverage c) (co_identity c) (co_state c)
    (co_consensus c) (co_config c) (co_peers c) (co_sequence c) (co_rollbacks c) (co_active c)
    (co_epoch c) b.

Definition Coordinator_new (s : S) (w : W) (cov : CoverageManager) (id : Ed25519KeyPair)
    (cfg : CutoverConfig) (initial_epoch : EpochState) : Coord :=
  mkCoordinator s w cov id CutIdle None cfg ∅ 0 0 ∅ initial_epoch false.

(** [self.active_cutovers.lock().await]: the mutex is not reentrant, a task that
    waits for a lock that is never released does not return.  Handlers do not
    interleave, so that a handler that got the lock once gets it again after
    having released it: only its first acquisition is checked. *)
Definition lock_active : M unit :=
  λ c, if co_ops_held c then (Diverge, c) else (Ok tt, c).
(** The rest of a function whose guard lives until it returns. *)
Definition holding_active {A} (m : M A) : M A :=
  λ c, match m (set_held true c) with
       | (Diverge, c) => (Diverge, c)
       | (r, c) => (r, set_held false c)
       end.

(** ** Signing and verifying *)

Definition signable_of (m : CutoverMessage) : SignableCutoverMessage :=
  mkSignableCutoverMessage (phase m) (from_epoch_id m) (to_epoch_id m) (coverage_root m)
    (sender_key m) (msg_timestamp m) (vote m).

Definition cutover_signable_bytes (m : CutoverMessage) : res CutoverError bytes :=
  map_err CutInvalidState (json_signable_cutover (signable_of m)).

Definition network_signable_bytes (m : SignableNetworkMessage) : res CutoverError bytes :=
  map_err CutInvalidState (json_signable_network m).

(** [Ed25519KeyPair::sign] panics when signing fails. *)
Definition KeyPair_sign (k : Ed25519KeyPair) (message : bytes) : res CutoverError (array 64) :=
  match SigningKey_sign (kp_signing_key k) message with
  | Ok s => Ok (Signature_to_bytes s)
  | _ => Panic
  end.

Definition sign_cutover_message (m : CutoverMessage) : M CutoverMessage :=
  let! b := mlift (cutover_signable_bytes m) in
  let! c := mget in
  let! sig := mlift (KeyPair_sign (co_identity c) b) in
  mret (set_msg_signature (arr sig) m).

Definition sign_network_message (m : SignableNetworkMessage) : M NetworkMessage :=
  let! b := mlift (network_signable_bytes m) in
  let! c := mget in
  let! sig := mlift (KeyPair_sign (co_identity c) b) in
  mret (mkNetworkMessage m sig).

Definition coverage_root_bytes (log : CoverageLog) : bytes :=
  let coverage_root_hex := match CoverageLog_get_merkle_root log with Ok s => s | _ => "" end in
  if (String.length coverage_root_hex =? 64)
  then default [] (hex_decode coverage_root_hex)
  else bytes_of coverage_root_hex.

Definition current_coverage_root : M bytes :=
  let! c := mget in
  let! log := mlift (map_err (λ e, CutInvalidState ("Coverage log error: "
                       +:+ CoverageManagerError_display e)) (get_coverage_log (co_coverage c))) in
  mret (coverage_root_bytes log).

Definition verify_cutover_signature (m : CutoverMessage) (sender : VerifyingKey)
  : res CutoverError unit :=
  let? signature := map_err (λ _, SignatureFailure) (Signature_from_bytes (msg_signature m)) in
  let? embedded_key := map_err (λ _, SignatureFailure) (VerifyingKey_from_bytes (sender_key m)) in
  if decide (embedded_key ≠ sender) then Err SignatureFailure
  else
    let? signable_bytes := cutover_signable_bytes m in
    let? _ := map_err (λ _, SignatureFailure) (VerifyingKey_verify sender signable_bytes signature) in
    Ok tt.

(** ** Quorum and context *)

Definition storage_err (e : StorageError) : CutoverError := CutStorage (StorageError_display e).

Definition required_commits (cfg : CutoverConfig) (peer_count : nat) : nat :=
  N.to_nat (f64_ceil (f64_mul (f64_of_N (N.of_nat peer_count)) (consensus_ratio cfg)))
    `max` min_consensus_nodes cfg `max` 1.

Definition ensure_cutover_context (target_epoch_id : N) (now : Z) : M unit :=
  let key := pretty target_epoch_id in
  do! lock_active;
  let! c := mget in
  do! (if decide (is_Some (co_active c !! key)) then mret tt
       else
         let! target_epoch := mlift (map_err storage_err
                                (load_epoch_state target_epoch_id now (co_storage c))) in
         mput (set_active (<[key := mkCutoverOperation (Some target_epoch) (Some (co_epoch c))
                                      StInConsensus now None None]> (co_active c))));
  let required := required_commits (co_config c) (size (co_peers c)) in
  let tracker :=
    match co_consensus c with
    | None => mkConsensusTracker 0 required ∅
    | Some t => mkConsensusTracker (commit_count t) (required_count t `max` required)
                  (participants t)
    end in
  do! mput (set_consensus (Some tracker));
  let! c := mget in
  match co_active c !! key with
  | Some op =>
      mput (set_active (<[key := mkCutoverOperation (op_target_epoch op) (op_previous_epoch op)
                                   (op_status op) (op_started_at op) (op_completed_at op)
                                   (Some tracker)]> (co_active c)))
  | None => mret tt
  end.

(** ** Validation before a cutover *)

Definition validate_epoch_consistency (current target : EpochState) : res CutoverError unit :=
  if (epoch_id target <=? epoch_id current)%N then
    Err (SafetyCheckFailed "Target epoch must have higher ID than current")
  else if decide (encryption_key current = encryption_key target) then
    Err (SafetyCheckFailed "Epochs must have different encryption keys")
  else Ok tt.

Definition is_connected (p : PeerInfo) : bool :=
  match peer_status p with PeerConnected => true | _ => false end.

Definition validate_network_connectivity : M unit :=
  let! c := mget in
  if (size (co_peers c) <? min_consensus_nodes (co_config c)) then
    mfail (SafetyCheckFailed ("Insufficient peers for consensus: "
      +:+ pretty (N.of_nat (size (co_peers c))) +:+ " < "
      +:+ pretty (N.of_nat (min_consensus_nodes (co_config c)))))
  else
    let! peer_infos := mlift (map_err CutNetwork (list_peers (co_network c))) in
    let connected := list_to_set (peer_public_key <$> filter (λ p, is_connected p = true) peer_infos)
                     : gset (array 32) in
    let missing := filter (λ k, VerifyingKey_to_bytes k ∉ connected) (elements (co_peers c)) in
    if decide (missing ≠ []) then
      mfail (CutNetwork ("Missing connectivity to " +:+ pretty (N.of_nat (length missing))
               +:+ " consensus peers"))
    else mret tt.

(** [coverage_manager.verify_integrity()]. *)
Definition coverage_verify_integrity (err : CoverageManagerError → CutoverError) : M unit :=
  λ c, let '(r, m) := verify_integrity (co_coverage c) in (map_err err r, set_coverage m c).

Definition validate_storage_integrity (current target : EpochState) : M unit :=
  let! c := mget in
  let! cur := mlift (map_err storage_err (load_epoch_state_data (epoch_id current) (co_storage c))) in
  if negb (is_some cur) then
    mfail (CutStorage ("Current epoch " +:+ pretty (epoch_id current) +:+ " not found in storage"))
  else
    let! tgt := mlift (map_err storage_err (load_epoch_state_data (epoch_id target) (co_storage c))) in
    if negb (is_some tgt) then
      mfail (CutStorage ("Target epoch " +:+ pretty (epoch_id target) +:+ " not staged in storage"))
    else coverage_verify_integrity (λ e, CoverageFailure (CoverageManagerError_display e)).

Definition validate_cutover_readiness (current target : EpochState) : M unit :=
  let! c := mget in
  let! coverage_percentage := mlift (map_err (λ e, CoverageFailure (CoverageManagerError_display e))
      (get_migration_progress (epoch_id current) (epoch_id target) (co_coverage c))) in
  if negb (Qle_bool (min_coverage_threshold (co_config c)) coverage_percentage) then
    mfail (NotReady ("Coverage " +:+ percent_fmt coverage_percentage +:+ "% below threshold "
             +:+ percent_fmt (min_coverage_threshold (co_config c)) +:+ "%"))
  else
    let! _ := mlift (map_err (λ e, CoverageFailure (CoverageManagerError_display e))
                (get_coverage_status (co_coverage c))) in
    do! mlift (validate_epoch_consistency current target);
    do! validate_network_connectivity;
    validate_storage_integrity current target.

(** ** Sending *)

(** The loop over the peers of [broadcast_cutover_message]. *)
Fixpoint send_all (peers : list VerifyingKey) (m : NetworkMessage) : M unit :=
  match peers with
  | [] => mret tt
  | k :: peers =>
      do! (λ c, let '(r, w) := send_message (VerifyingKey_to_bytes k) m (co_network c) in
                (map_err CutNetwork r, set_network w c));
      send_all peers m
  end.

Definition broadcast_cutover_message (m : CutoverMessage) (now : Z) : M unit :=
  let! m := (if (length (msg_signature m) =? 64) then mret m else sign_cutover_message m) in
  let! serialized := mlift (map_err CutNetwork (json_cutover_message m)) in
  let! c := mget in
  let sequence := u64_wrap (co_sequence c + 1) in
  do! mput (set_sequence sequence);
  let! network_message := sign_network_message
      (mkSignableNetworkMessage TyCutover serialized
         (VerifyingKey_to_bytes (kp_verifying_key (co_identity c))) now sequence PrioHigh) in
  send_all (elements (co_peers c)) network_message.

Definition invalid_state (e : MessageError) : CutoverError := CutInvalidState (MessageError_display e).

Definition create_cutover_proposal (current target : EpochState) (now : Z) : M CutoverMessage :=
  let! root := current_coverage_root in
  let! c := mget in
  let! m := mlift (map_err invalid_state
      (CutoverMessage_new Proposal (encode_epoch_id (epoch_id current))
         (encode_epoch_id (epoch_id target)) root (kp_verifying_key (co_identity c)) now)) in
  let m := match latest_transparency_metadata false (co_coverage c) with
           | Some md => set_msg_transparency (Some (tm_sequence_number md)) (Some (tm_log_size md))
                          (Some (tm_leaf_index md)) (Some (tm_entry_timestamp md)) m
           | None => m
           end in
  sign_cutover_message m.

(** [start_consensus] up to the monitoring loop. *)
Definition start_consensus (current target : EpochState) (now : Z) : M unit :=
  let! c := mget in
  let tracker := mkConsensusTracker 0 (required_commits (co_config c) (size (co_peers c))) ∅ in
  do! mput (set_consensus (Some tracker));
  do! lock_active;
  do! mput (λ c, set_active (<[pretty (epoch_id target) :=
         mkCutoverOperation (Some target) (Some current) StInConsensus now None (Some tracker)]>
         (co_active c)) c);
  let! proposal := create_cutover_proposal current target now in
  broadcast_cutover_message proposal now.

(** [initiate_cutover] up to the monitoring loop. *)
Definition initiate_cutover (current target : EpochState) (now : Z) : M unit :=
  let! c := mget in
  if decide (co_state c ≠ CutIdle) then mfail (CutInvalidState "Cutover already in progress")
  else
    do! mput (set_state CutValidation);
    do! validate_cutover_readiness current target;
    do! mput (set_state CutAwaitingConsensus);
    start_consensus current target now.

(** ** Committing *)

(** The key array is copied and the copy is wiped: nothing in the state
    changes. *)
Definition secure_delete_old_epoch_keys (old : EpochState) : M unit := mret tt.

Definition set_op (key : string) (op : CutoverOperation) (c : Coord) : Coord :=
  set_active (<[key := op]> (co_active c)) c.

Definition finalize_cutover_commit (key : string) (op : CutoverOperation) (now : Z) : M unit :=
  let! c := mget in
  let old_epoch := co_epoch c in
  match op_target_epoch op with
  | None => mfail MissingTargetEpoch
  | Some new_epoch =>
      do! mput (set_epoch new_epoch);
      do! (λ c, match store_epoch_state new_epoch (co_storage c) with
                | (Ok _, s) => (Ok tt, set_storage s c)
                | (Err e, s) => (Err (CutStorageError (StorageError_display e)), set_epoch old_epoch (set_storage s c))
                | (Panic, s) => (Panic, set_storage s c)
                | (Diverge, s) => (Diverge, set_storage s c)
                end);
      do! mignore (secure_delete_old_epoch_keys old_epoch);
      do! mput (set_op key (mkCutoverOperation (op_target_epoch op) (op_previous_epoch op)
                              StCommitted (op_started_at op) (Some now) (op_consensus op)));
      coverage_verify_integrity (λ e, CoverageFailure
        ("Coverage integrity check failed after cutover: " +:+ CoverageManagerError_display e))
  end.

Definition execute_atomic_cutover (now : Z) : M unit :=
  do! mput (set_state CutTransitioning);
  do! lock_active;
  let! c := mget in
  let! kop := mlift (ok_or (head (hash_order (co_active c)))
                (CutInvalidState "No active cutover operation found")) in
  let '(key, op) := kop in
  let! target := mlift (ok_or (op_target_epoch op) MissingTargetEpoch) in
  let! root := current_coverage_root in
  let! m := mlift (map_err invalid_state
      (CutoverMessage_new Commit (encode_epoch_id (epoch_id (co_epoch c)))
         (encode_epoch_id (epoch_id target)) root (kp_verifying_key (co_identity c)) now)) in
  let! m := sign_cutover_message m in
  do! broadcast_cutover_message m now;
  do! mput (λ c, match co_consensus c with
                 | Some t => set_consensus (Some (mkConsensusTracker (required_count t)
                               (required_count t) (participants t))) c
                 | None => c
                 end);
  let! c := mget in
  do! (match co_active c !! key with
       | Some op => finalize_cutover_commit key op now
       | None => mret tt
       end);
  do! mput (λ c, set_active (delete key (co_active c)) c);
  do! mput (set_consensus None);
  mput (set_state CutCompleted).

(** One iteration of the loop of [monitor_consensus]: [Some] when it returns. *)
Definition monitor_poll (now : Z) : M (option unit) :=
  let! c := mget in
  match co_consensus c with
  | None => mfail (CutInvalidState "No consensus tracker")
  | Some t =>
      if (required_count t <=? commit_count t)
      then do! execute_atomic_cutover now; mret (Some tt)
      else mret None
  end.

(** ** Receiving *)

Definition verify_sender_authorization (sender : VerifyingKey) : M unit :=
  let! c := mget in
  if decide (sender = kp_verifying_key (co_identity c)) then mret tt
  else if decide (sender ∉ co_peers c) then mfail SignatureFailure
  else
    let! peer_infos := mlift (map_err CutNetwork (list_peers (co_network c))) in
    if existsb (λ p, bool_decide (peer_public_key p = VerifyingKey_to_bytes sender)
                     && is_connected p) peer_infos
    then mret tt
    else mfail (CutNetwork "Authorized sender is not currently connected").

Definition set_op_status (st : CutoverStatus) (done_at : option Z) (op : CutoverOperation)
  : CutoverOperation :=
  mkCutoverOperation (op_target_epoch op) (op_previous_epoch op) st (op_started_at op) done_at
    (op_consensus op).

Definition handle_cutover_prepare (m : CutoverMessage) (sender : VerifyingKey) (now : Z) : M unit :=
  let! c := mget in
  if decide (sender ∉ co_peers c) then mfail SignatureFailure
  else
    do! mlift (verify_cutover_signature m sender);
    let! target_epoch_id := mlift (parse_epoch_id (to_epoch_id m)) in
    do! ensure_cutover_context target_epoch_id now;
    mput (λ c, set_active (alter (λ op, set_op_status StPreparing (op_completed_at op) op)
                             (pretty target_epoch_id) (co_active c)) c).

Definition evaluate_cutover_proposal (m : CutoverMessage) : M CutoverVote :=
  let! our_merkle_root := current_coverage_root in
  if decide (our_merkle_root ≠ coverage_root m) then mret Reject else mret Approve.

Definition cast_cutover_vote (v : CutoverVote) (proposal : CutoverMessage) (now : Z) : M unit :=
  let! c := mget in
  let! m := mlift (map_err invalid_state
      (CutoverMessage_new_vote (from_epoch_id proposal) (to_epoch_id proposal)
         (coverage_root proposal) (kp_verifying_key (co_identity c)) v now)) in
  let! m := sign_cutover_message m in
  broadcast_cutover_message m now.

Definition handle_cutover_proposal (m : CutoverMessage) (sender : VerifyingKey) (now : Z) : M unit :=
  let! c := mget in
  if decide (sender ∉ co_peers c) then mfail SignatureFailure
  else
    do! mlift (verify_cutover_signature m sender);
    let! target_epoch_id := mlift (parse_epoch_id (to_epoch_id m)) in
    do! ensure_cutover_context target_epoch_id now;
    let! v := evaluate_cutover_proposal m in
    cast_cutover_vote v m now.

(** [participants.insert(key)] and the count of the approvals. *)
Definition record_participant (key : bytes) (counts : bool) (t : ConsensusTracker)
  : ConsensusTracker :=
  if decide (key ∈ participants t) then t
  else mkConsensusTracker (if counts then Datatypes.S (commit_count t) else commit_count t)
         (required_count t) ({[key]} ∪ participants t).

Definition handle_cutover_vote (m : CutoverMessage) (sender : VerifyingKey) : M unit :=
  do! mlift (verify_cutover_signature m sender);
  let! c := mget in
  match co_consensus c with
  | None => mret tt
  | Some t =>
      let! v := mlift (ok_or (vote m) (CutInvalidState "Missing vote field")) in
      mput (set_consensus (Some (record_participant (arr (VerifyingKey_to_bytes sender))
                                   (bool_decide (v = Approve)) t)))
  end.

Definition handle_cutover_commit (m : CutoverMessage) (sender : VerifyingKey) (now : Z) : M unit :=
  let! target_epoch_id := mlift (parse_epoch_id (to_epoch_id m)) in
  if decide (phase m ≠ Commit) then mfail InvalidPhase
  else
    do! verify_sender_authorization sender;
    do! mlift (verify_cutover_signature m sender);
    do! ensure_cutover_context target_epoch_id now;
    let! expected_root := current_coverage_root in
    if decide (expected_root ≠ coverage_root m) then
      mfail (CoverageFailure "Commit message coverage root mismatch")
    else
      let key := pretty target_epoch_id in
      let! c := mget in
      let! op := mlift (ok_or (co_active c !! key) NoCutoverInProgress) in
      match op_consensus op with
      | None => mret tt
      | Some t =>
          let t := record_participant (arr (VerifyingKey_to_bytes sender)) true t in
          let op := mkCutoverOperation (op_target_epoch op) (op_previous_epoch op) (op_status op)
                      (op_started_at op) (op_completed_at op) (Some t) in
          do! mput (set_op key op);
          if (required_count t <=? commit_count t)
          then
            do! finalize_cutover_commit key op now;
            mput (λ c, set_active (delete key (co_active c)) c)
          else mret tt
      end.

(** The cleanup of one drained operation in [initiate_rollback]. *)
Definition rollback_one (root : bytes) (now : Z) (kop : string * CutoverOperation) : M unit :=
  let '(key, op) := kop in
  let target_epoch_id := default 0%N (parse_u64 key) in
  do! (match op_previous_epoch op with
       | Some previous =>
           do! mput (set_epoch previous);
           mignore (λ c, let '(r, s) := store_epoch_state previous (co_storage c) in
                         (map_err storage_err r, set_storage s c))
       | None => mret tt
       end);
  do! (match op_target_epoch op with
       | Some target => mignore (secure_delete_old_epoch_keys target)
       | None => mret tt
       end);
  let! c := mget in
  let! m := mlift (map_err invalid_state
      (CutoverMessage_new Abort
         (encode_epoch_id (from_option epoch_id target_epoch_id (op_previous_epoch op)))
         (encode_epoch_id target_epoch_id) root (kp_verifying_key (co_identity c)) now)) in
  let! m := sign_cutover_message m in
  mignore (broadcast_cutover_message m now).

Fixpoint rollback_all (root : bytes) (now : Z) (ops : list (string * CutoverOperation)) : M unit :=
  match ops with
  | [] => mret tt
  | op :: ops => do! rollback_one root now op; rollback_all root now ops
  end.

Definition initiate_rollback (now : Z) : M unit :=
  do! mput (λ c, set_rollbacks (Datatypes.S (co_rollbacks c)) c);
  let! c := mget in
  if (max_rollback_attempts (co_config c) <? co_rollbacks c) then
    mfail (RollbackFailed "Maximum rollback attempts exceeded")
  else
    do! mput (set_state CutRollingBack);
    let! root := munwrap_or [] current_coverage_root in
    do! lock_active;
    let! c := mget in
    do! mput (set_active ∅);
    do! rollback_all root now (hash_order (co_active c));
    do! mput (set_consensus None);
    do! mput (set_rollbacks 0);
    mput (set_state CutRolledBack).

(** The guard on the operations is still alive when [initiate_rollback] locks them
    again. *)
Definition handle_cutover_abort (m : CutoverMessage) (sender : VerifyingKey) (now : Z) : M unit :=
  let key := from_utf8_lossy (to_epoch_id m) in
  if decide (phase m ≠ Abort) then mfail InvalidPhase
  else
    do! verify_sender_authorization sender;
    do! lock_active;
    do! mput (λ c, set_active (alter (set_op_status StAborted (Some now)) key (co_active c)) c);
    holding_active (initiate_rollback now).

Definition process_cutover_message (m : CutoverMessage) (sender : VerifyingKey) (now : Z) : M unit :=
  match phase m with
  | Prepare => handle_cutover_prepare m sender now
  | Proposal => handle_cutover_proposal m sender now
  | Vote => handle_cutover_vote m sender
  | Commit => handle_cutover_commit m sender now
  | Abort => handle_cutover_abort m sender now
  end.

Definition get_state (c : Coord) : CutoverState := co_state c.
Definition add_peer (k : VerifyingKey) (c : Coord) : Coord := set_peers ({[k]} ∪ co_peers c) c.
Definition remove_peer (k : VerifyingKey) (c : Coord) : Coord := set_peers (co_peers c ∖ {[k]}) c.
End Handlers.

(** ** Reasoning about handlers *)
Section Preservation.
Context {S W : Type}.

Definition preserves (P : Coordinator S W → Prop) {A} (m : M A) : Prop :=
  ∀ c, P c → P (snd (m c)).

Variable P : Coordinator S W → Prop.

Lemma preserves_ret {A} (a : A) : preserves P (mret a).
Proof. by intros c. Qed.
Lemma preserves_fail {A} e : preserves P (mfail (A := A) e).
Proof. by intros c. Qed.
Lemma preserves_lift {A} (r : res CutoverError A) : preserves P (mlift r).
Proof. by intros c. Qed.
Lemma preserves_get : preserves P mget.
Proof. by intros c. Qed.
Lemma preserves_put f : (∀ c, P c → P (f c)) → preserves P (mput f).
Proof. intros H c. apply H. Qed.
Lemma preserves_bind {A B} (m : M A) (k : A → M B) :
  preserves P m → (∀ a, preserves P (k a)) → preserves P (mbind m k).
Proof.
  intros Hm Hk c Hc. specialize (Hm c Hc). unfold mbind.
  destruct (m c) as [[a|e| |] c']; simpl in *; [by apply Hk|done..].
Qed.
Lemma preserves_lock : preserves P lock_active.
Proof. intros c Hc. unfold lock_active. by destruct (co_ops_held c). Qed.
Lemma preserves_ignore {A} (m : M A) : preserves P m → preserves P (mignore m).
Proof. intros Hm c Hc. specialize (Hm c Hc). unfold mignore. by destruct (m c) as [[] ?]. Qed.
Lemma preserves_unwrap_or {A} (d : A) (m : M A) : preserves P m → preserves P (munwrap_or d m).
Proof. intros Hm c Hc. specialize (Hm c Hc). unfold munwrap_or. by destruct (m c) as [[] ?]. Qed.
Lemma preserves_if {A} (b : bool) (m1 m2 : M A) :
  preserves P m1 → preserves P m2 → preserves P (if b then m1 else m2).
Proof. by destruct b. Qed.
Lemma preserves_decide {A Q} `{Decision Q} (m1 m2 : M A) :
  preserves P m1 → preserves P m2 → preserves P (if decide Q then m1 else m2).
Proof. by case_decide. Qed.
(** A property of the parts that sending, signing and coverage checks leave
    alone. *)
Class Framed : Prop := {
  framed_network : ∀ w c, P c → P (set_network w c);
  framed_sequence : ∀ n c, P c → P (set_sequence n c);
  framed_coverage : ∀ m c, P c → P (set_coverage m c);
}.
End Preservation.

Ltac keep_state :=
  repeat match goal with
  | |- ∀ _, _ => intros
  | |- preserves _ (mbind _ _) => apply preserves_bind
  | |- preserves _ (mret _) => apply preserves_ret
  | |- preserves _ (mfail _) => apply preserves_fail
  | |- preserves _ (mlift _) => apply preserves_lift
  | |- preserves _ mget => apply preserves_get
  | |- preserves _ lock_active => apply preserves_lock
  | |- preserves _ (mignore _) => apply preserves_ignore
  | |- preserves _ (munwrap_or _ _) => apply preserves_unwrap_or
  | |- preserves _ (mput _) =>
      apply preserves_put; intros ? ?; cbv beta; repeat case_match;
      (done || assumption || (apply framed_sequence; assumption))
  | |- preserves _ (if decide _ then _ else _) => apply preserves_decide
  | |- preserves _ (if _ then _ else _) => apply preserves_if
  end.

Section Framing.
Context {sha : Sha256} {ed : Ed25519} {ejson : EntryJson} {hex : Hex} {opdbg : OperationDebug}.
Context {cjson : CutoverJson} {pfmt : PercentFmt}.
Context {S W : Type} {store : Storage S} {net : Network W}.
Context (P : Coordinator S W → Prop) {framed : Framed P}.

Lemma preserves_verify f : preserves P (coverage_verify_integrity f).
Proof.
  intros c Hc. unfold coverage_verify_integrity. destruct (verify_integrity _).
  by apply framed_coverage.
Qed.

Lemma preserves_sign m : preserves P (sign_cutover_message m).
Proof. unfold sign_cutover_message. keep_state. Qed.

Lemma preserves_send peers m : preserves P (send_all peers m).
Proof.
  induction peers as [|k peers IH]; [apply preserves_ret|]. cbn [send_all].
  apply preserves_bind; [|intros _; exact IH].
  intros c Hc. destruct (send_message _ _ _). by apply framed_network.
Qed.

Lemma preserves_broadcast m now : preserves P (broadcast_cutover_message m now).
Proof.
  unfold broadcast_cutover_message, sign_network_message. keep_state;
    auto using preserves_sign, preserves_send.
Qed.

Lemma preserves_root : preserves P current_coverage_root.
Proof. unfold current_coverage_root. keep_state. Qed.

Lemma preserves_validate cur tgt : preserves P (validate_cutover_readiness cur tgt).
Proof.
  unfold validate_cutover_readiness, validate_network_connectivity, validate_storage_integrity.
  keep_state; apply preserves_verify.
Qed.

Lemma preserves_authorization sender : preserves P (verify_sender_authorization sender).
Proof. unfold verify_sender_authorization. keep_state. Qed.
End Framing.

Create HintDb cutover.
#[local] Hint Resolve preserves_verify preserves_sign preserves_send preserves_broadcast
  preserves_root preserves_validate preserves_authorization : cutover.

Section CutoverTheorems.
Context {sha : Sha256} {ed : Ed25519} {ejson : EntryJson} {hex : Hex} {opdbg : OperationDebug}.
Context {cjson : CutoverJson} {pfmt : PercentFmt} {iter : HashOrder}.
Context {S W : Type} {store : Storage S} {net : Network W}.

(** *** The coordinator never becomes idle again *)

Definition not_idle (c : Coordinator S W) : Prop := co_state c ≠ CutIdle.

#[local] Instance not_idle_framed : Framed not_idle.
Proof. by split. Qed.

Lemma not_idle_ensure t now : preserves not_idle (ensure_cutover_context t now).
Proof. unfold ensure_cutover_context. keep_state. case_match; keep_state. Qed.

Lemma not_idle_start cur tgt now : preserves not_idle (start_consensus cur tgt now).
Proof.
  unfold start_consensus, create_cutover_proposal. keep_state; auto with cutover typeclass_instances.
Qed.

Lemma not_idle_finalize key op now : preserves not_idle (finalize_cutover_commit key op now).
Proof.
  unfold finalize_cutover_commit, secure_delete_old_epoch_keys. keep_state.
  case_match; keep_state; [|apply preserves_verify, _].
  intros c Hc. by destruct (store_epoch_state _ _) as [[] ?].
Qed.

Lemma not_idle_execute now : preserves not_idle (execute_atomic_cutover now).
Proof.
  unfold execute_atomic_cutover. keep_state.
  match goal with kop : string * CutoverOperation |- _ => destruct kop as [key op] end.
  keep_state; auto with cutover typeclass_instances.
  case_match; [apply not_idle_finalize|keep_state].
Qed.

Lemma not_idle_rollback_all r now l : preserves not_idle (rollback_all r now l).
Proof.
  induction l as [|[k op] l IH]; [apply preserves_ret|]. cbn [rollback_all].
  apply preserves_bind; [|intros _; apply IH]. unfold rollback_one, secure_delete_old_epoch_keys.
  keep_state; auto with cutover typeclass_instances.
  - case_match; keep_state. intros c Hc. by destruct (store_epoch_state _ _).
  - case_match; keep_state.
Qed.

Lemma not_idle_rollback now : preserves not_idle (initiate_rollback now).
Proof.
  unfold initiate_rollback. keep_state; auto using not_idle_rollback_all with cutover typeclass_instances.
Qed.

Lemma not_idle_holding {A} (m : M A) : preserves not_idle m → preserves not_idle (holding_active m).
Proof.
  intros Hm c Hc. specialize (Hm (set_held true c) Hc). unfold holding_active.
  by destruct (m _) as [[] ?].
Qed.

Lemma not_idle_process m sender now : preserves not_idle (process_cutover_message m sender now).
Proof.
  unfold process_cutover_message. destruct (phase m).
  - unfold handle_cutover_prepare. keep_state; auto using not_idle_ensure.
  - unfold handle_cutover_proposal, evaluate_cutover_proposal, cast_cutover_vote.
    keep_state; auto using not_idle_ensure with cutover typeclass_instances.
  - unfold handle_cutover_vote. keep_state. case_match; keep_state.
  - unfold handle_cutover_commit. keep_state;
      auto using not_idle_ensure with cutover typeclass_instances.
    case_match; keep_state; auto using not_idle_finalize.
  - unfold handle_cutover_abort. keep_state;
      auto using not_idle_holding, not_idle_rollback with cutover typeclass_instances.
Qed.

(** What can happen to a coordinator, in the order in which the events get their
    locks.  [start_consensus] holds a read guard on the peers while it
    monitors, so that in the program [EvAddPeer] and [EvRemovePeer] wait for
    the end of the monitoring: the event sequences here include those. *)
Inductive cut_event :=
| EvInitiate (current target : EpochState)
| EvPoll
| EvMessage (m : CutoverMessage) (sender : VerifyingKey)
| EvAddPeer (k : VerifyingKey)
| EvRemovePeer (k : VerifyingKey).

Definition handle_event (ev : cut_event * Z) (c : Coordinator S W) : Coordinator S W :=
  match ev with
  | (EvInitiate current target, now) => snd (initiate_cutover current target now c)
  | (EvPoll, now) => snd (monitor_poll now c)
  | (EvMessage m sender, now) => snd (process_cutover_message m sender now c)
  | (EvAddPeer k, _) => add_peer k c
  | (EvRemovePeer k, _) => remove_peer k c
  end.

Definition run_events (evs : list (cut_event * Z)) (c : Coordinator S W) : Coordinator S W :=
  foldl (λ c ev, handle_event ev c) c evs.

Lemma initiate_not_idle cur tgt now c : not_idle (snd (initiate_cutover cur tgt now c)).
Proof.
  unfold initiate_cutover, mbind at 1, mget. destruct (decide (co_state c ≠ CutIdle)); [done|].
  unfold mbind at 1, mput at 1. revert c n. intros c _.
  assert (preserves not_idle (mbind (validate_cutover_readiness cur tgt) (λ _ : unit,
    mbind (mput (set_state CutAwaitingConsensus)) (λ _ : unit, start_consensus cur tgt now))))
    as Hp by (keep_state; auto using not_idle_start with cutover typeclass_instances).
  by apply Hp.
Qed.

Lemma not_idle_poll now : preserves not_idle (monitor_poll now).
Proof. unfold monitor_poll. keep_state. case_match; keep_state. apply not_idle_execute. Qed.

Lemma run_events_not_idle evs c : not_idle c → not_idle (run_events evs c).
Proof.
  revert c. induction evs as [|[ev now] evs IH]; intros c Hc; [done|]. apply IH.
  destruct ev as [cur tgt| |m sender|k|k]; cbn [handle_event].
  - apply initiate_not_idle.
  - by apply not_idle_poll.
  - by apply not_idle_process.
  - done.
  - done.
Qed.

(** A coordinator runs one cutover in its life: after one call of
    [initiate_cutover], whether it succeeded or failed its validation, and
    after any messages, polls and peer changes, every further call is refused
    with "Cutover already in progress". *)
Theorem cutover_only_once (c : Coordinator S W) (cur tgt cur' tgt' : EpochState) (now now' : Z)
    (evs : list (cut_event * Z)) :
  let c1 := run_events evs (snd (initiate_cutover cur tgt now c)) in
  initiate_cutover cur' tgt' now' c1 = (Err (CutInvalidState "Cutover already in progress"), c1).
Proof.
  intros c1. assert (not_idle c1) as Hc1 by (apply run_events_not_idle, initiate_not_idle).
  unfold initiate_cutover, mbind at 1, mget. by rewrite decide_True.
Qed.

(** *** Quorum size *)

Lemma round53_bounds m e :
  ∃ k, f64_exp (round53 m e) = (e + Z.of_N k)%Z
    ∧ (2 ^ 53 * (f64_mant (round53 m e) * 2 ^ k) ≤ (2 ^ 53 + 1) * m)%N
    ∧ ((2 ^ 53 - 1) * m ≤ 2 ^ 53 * (f64_mant (round53 m e) * 2 ^ k))%N.
Proof.
  unfold round53. set (k := (N.size m - 53)%N). destruct (N.eqb_spec k 0) as [Hk|Hk].
  { exists 0%N. cbn [f64_exp f64_mant]. rewrite N.pow_0_r. split; [lia|]. split; lia. }
  exists k. cbn [f64_exp f64_mant]. split; [done|].
  rewrite N.shiftr_div_pow2, !N.shiftl_mul_pow2, N.mul_1_l.
  assert (m ≠ 0)%N as Hm0 by (intros ->; done).
  assert (N.size m = k + 53)%N as Hsize by (unfold k in *; lia).
  assert (2 ^ 52 * 2 ^ k ≤ m)%N as Hlow.
  { rewrite N.size_log2 in Hsize by done. rewrite <-N.pow_add_r.
    replace (52 + k)%N with (N.log2 m) by lia. by apply N.log2_spec; lia. }
  assert (2 ^ k = 2 * 2 ^ (k - 1))%N as Hhalf.
  { rewrite <-N.pow_succ_r'. f_equal. lia. }
  pose proof (N.div_mod m (2 ^ k)) as Hdm. pose proof (N.mod_lt m (2 ^ k)) as Hlt.
  pose proof (N.pow_nonzero 2 k). pose proof (N.pow_nonzero 2 (k - 1)).
  specialize (Hdm ltac:(lia)). specialize (Hlt ltac:(lia)).
  set (q := (m / 2 ^ k)%N) in *. set (r := (m mod 2 ^ k)%N) in *.
  assert (m - q * 2 ^ k = r)%N as -> by lia.
  set (p := (2 ^ k)%N) in *. set (h := (2 ^ (k - 1))%N) in *.
  change (2 ^ 52)%N with 4503599627370496%N in Hlow. change (2 ^ 53)%N with 9007199254740992%N.
  destruct (N.ltb_spec h r); [|destruct (N.eqb_spec h r); [destruct (N.odd q)|]]; cbn [orb andb];
    split; nia.
Qed.

(** Quorum: under the default configuration, for up to 2^53 peers the number of
    approvals required is at least two thirds of the peers, at least one, and
    not more than the peers there are (when there is one). *)
Theorem default_quorum_two_thirds (n : nat) :
  (N.of_nat n < 2 ^ 53)%N →
  2 * n ≤ 3 * required_commits CutoverConfig_default n
  ∧ 1 ≤ required_commits CutoverConfig_default n
  ∧ (1 ≤ n → required_commits CutoverConfig_default n ≤ n).
Proof.
  intros Hn. unfold required_commits. cbn [CutoverConfig_default consensus_ratio min_consensus_nodes].
  set (x := f64_ceil _). assert (2 * N.of_nat n ≤ 3 * x ∧ x ≤ N.of_nat n)%N as [Hlo Hhi]; [|lia].
  assert (f64_of_N (N.of_nat n) = mkF64 (N.of_nat n) 0) as E.
  { unfold f64_of_N, round53.
    assert (N.size (N.of_nat n) ≤ 53)%N as Hs.
    { destruct (decide (N.of_nat n = 0)%N) as [E|Hne]; [rewrite E; simpl; lia|].
      rewrite N.size_log2 by done. apply N.le_succ_l. apply N.log2_lt_pow2; lia. }
    by rewrite (proj2 (N.sub_0_le _ _) Hs). }
  unfold x. rewrite E. unfold f64_mul, f64_0_67. cbn [f64_mant f64_exp].
  destruct (round53_bounds (N.of_nat n * 6034823500676465) (0 + -53)) as (k & Hk & H1 & H2).
  set (f := round53 _ _) in *. unfold f64_ceil. rewrite Hk.
  change (2 ^ 53)%N with 9007199254740992%N in *.
  destruct (Z.leb_spec 0 (0 + -53 + Z.of_N k)) as [Hpos|Hneg].
  - assert (2 ^ k = 9007199254740992 * 2 ^ Z.to_N (0 + -53 + Z.of_N k))%N as Ep.
    { change 9007199254740992%N with (2 ^ 53)%N. rewrite <-N.pow_add_r. f_equal. lia. }
    rewrite Ep in H1, H2. set (v := (2 ^ Z.to_N _)%N) in *. set (g := f64_mant f) in *.
    clearbody v g. nia.
  - set (d := (2 ^ Z.to_N (- (0 + -53 + Z.of_N k)))%N).
    assert (2 ^ k * d = 9007199254740992)%N as Ed.
    { unfold d. change 9007199254740992%N with (2 ^ 53)%N. rewrite <-N.pow_add_r. f_equal. lia. }
    assert (d ≠ 0)%N as Hd by (intros E0; rewrite E0 in Ed; lia).
    set (g := f64_mant f) in *.
    pose proof (N.div_mod (g + d - 1) d Hd) as Hdm. pose proof (N.mod_lt (g + d - 1) d Hd) as Hml.
    set (y := ((g + d - 1) / d)%N) in *. set (z := ((g + d - 1) mod d)%N) in *.
    set (v := (2 ^ k)%N) in *. clearbody y z g v d.
    assert (g ≤ d * y)%N as Hge by lia.
    assert (d * y < g + d)%N as Hle by lia.
    split.
    + assert (g * v ≤ 9007199254740992 * y)%N by nia. lia.
    + assert (9007199254740992 * y < g * v + 9007199254740992)%N by nia. lia.
Qed.

(** *** Commits *)

Lemma mbind_Ok {A B} (m : M A) (k : A → M B) (c c' : Coordinator S W) b :
  mbind m k c = (Ok b, c') ↔ ∃ a c1, m c = (Ok a, c1) ∧ k a c1 = (Ok b, c').
Proof.
  unfold mbind. destruct (m c) as [[a|e| |] c1]; split; try (intros; destruct_and?; naive_solver).
Qed.

Lemma authorization_same sender (c : Coordinator S W) :
  verify_sender_authorization sender c = (fst (verify_sender_authorization sender c), c).
Proof.
  unfold verify_sender_authorization, mbind, mget, mlift, mret, mfail.
  repeat case_decide; try done. destruct (map_err _ _); try done. by case_match.
Qed.

Lemma current_root_spec (c : Coordinator S W) :
  current_coverage_root c = (Ok (coverage_root_bytes (cm_log (co_coverage c))), c).
Proof. done. Qed.

(** After [ensure_cutover_context] the operation's tracker is a copy of the global
    one, whose count it leaves alone. *)
Lemma ensure_context_spec t now (c : Coordinator S W) r c' :
  ensure_cutover_context t now c = (r, c') →
  co_epoch c' = co_epoch c ∧ co_coverage c' = co_coverage c
  ∧ (r ≠ Ok tt → c' = c)
  ∧ (r = Ok tt → ∃ op g, co_active c' !! pretty t = Some op ∧ op_consensus op = Some g
       ∧ co_consensus c' = Some g
       ∧ commit_count g = from_option commit_count 0 (co_consensus c)
       ∧ participants g = from_option participants ∅ (co_consensus c)
       ∧ from_option required_count 0 (co_consensus c) ≤ required_count g).
Proof.
  unfold ensure_cutover_context, mbind, mget, mput, mret, mlift, lock_active. intros H.
  destruct (co_ops_held c); [injection H as <- <-; done|].
  destruct (decide (is_Some (co_active c !! pretty t))) as [[op Hop]|Hno].
  - cbn [set_consensus co_active] in H. rewrite Hop in H. injection H as <- <-.
    cbn [set_active set_consensus co_epoch co_coverage co_active co_consensus].
    split_and!; [done|done|done|]. intros _. rewrite lookup_insert_eq.
    eexists _, _. split_and!; try done; destruct (co_consensus c); simpl; done || lia.
  - destruct (load_epoch_state t now (co_storage c)) as [e|e| |];
      cbn [map_err] in H; try (injection H as <- <-; done).
    cbn [set_active set_consensus co_active] in H. rewrite lookup_insert_eq in H.
    injection H as <- <-.
    cbn [set_active set_consensus co_epoch co_coverage co_active co_consensus].
    split_and!; [done|done|done|]. intros _. rewrite lookup_insert_eq.
    eexists _, _. split_and!; try done; destruct (co_consensus c); simpl; done || lia.
Qed.

Lemma record_participant_bound key b t :
  commit_count (record_participant key b t) ≤ Datatypes.S (commit_count t)
  ∧ required_count (record_participant key b t) = required_count t.
Proof. unfold record_participant. repeat case_match; simpl; lia. Qed.

(** Fewer votes than required, by at least two. *)
Definition short_of_quorum (n : nat) (e : EpochState) (c : Coordinator S W) : Prop :=
  co_epoch c = e ∧ ∃ g, co_consensus c = Some g ∧ commit_count g = n
    ∧ Datatypes.S n < required_count g.

Lemma commit_short_of_quorum n e m sender now (c : Coordinator S W) :
  short_of_quorum n e c → short_of_quorum n e (snd (handle_cutover_commit m sender now c)).
Proof.
  intros Hc. unfold handle_cutover_commit, mbind at 1, mlift at 1.
  destruct (parse_epoch_id (to_epoch_id m)) as [t| | |]; try done.
  case_decide; [done|]. unfold mbind at 1. rewrite authorization_same.
  destruct (fst (verify_sender_authorization sender c)); try done.
  unfold mbind at 1, mlift at 1. destruct (verify_cutover_signature m sender); try done.
  unfold mbind at 1. destruct (ensure_cutover_context t now c) as [r c1] eqn:He.
  apply ensure_context_spec in He as (Hep & _ & Hne & Hok).
  destruct r as [[]|err| |]; try (by rewrite Hne by done).
  destruct (Hok eq_refl) as (op & g' & Hop & Hog & Hcons & Hcnt & _ & Hreq).
  destruct Hc as (<- & g & Hg & <- & Hlt). rewrite Hg in Hcnt, Hreq. simpl in Hcnt, Hreq.
  assert (short_of_quorum (commit_count g) (co_epoch c) c1) as Hc1.
  { split; [done|]. exists g'. split_and!; [done|done|lia]. }
  unfold mbind at 1. rewrite current_root_spec. case_decide; [done|].
  unfold mbind at 1, mget, mbind at 1, mlift at 1. rewrite Hop. cbn [ok_or]. rewrite Hog.
  pose proof (record_participant_bound (arr (VerifyingKey_to_bytes sender)) true g') as [Hb Hr].
  unfold mbind at 1, mput at 1. rewrite Hr.
  destruct (Nat.leb_spec (required_count g') (commit_count (record_participant
    (arr (VerifyingKey_to_bytes sender)) true g'))); [lia|].
  destruct Hc1 as (? & g1 & ? & ? & ?). split; [done|]. exists g1. done.
Qed.

(** Commit messages do not accumulate: while the recorded votes are two or more
    short of the quorum, no number of commit messages, from any number of
    distinct authorised peers, ever switches the epoch, because each commit
    starts again from a copy of the vote tracker. *)
Theorem commits_do_not_accumulate (c : Coordinator S W) (g : ConsensusTracker)
    (commits : list (CutoverMessage * VerifyingKey * Z)) :
  co_consensus c = Some g → Datatypes.S (commit_count g) < required_count g →
  co_epoch (foldl (λ c '(m, sender, now), snd (handle_cutover_commit m sender now c)) c commits)
    = co_epoch c.
Proof.
  intros Hg Hlt.
  assert (short_of_quorum (commit_count g) (co_epoch c) c) as Hc by (split; eauto).
  revert Hc. generalize (co_epoch c) as e. generalize (commit_count g) as n. clear Hg Hlt g.
  revert c. induction commits as [|[[m sender] now] commits IH]; intros c n e Hc; [by destruct Hc|].
  cbn [foldl]. apply (IH _ n). by apply commit_short_of_quorum.
Qed.

(** C8: A commit message only takes effect when it is authentic: if handling it
    changes the epoch or succeeds, its phase is Commit, its sender is this
    device or a known peer, its signature verifies under the sender's key and
    its coverage root is the local one. *)
Theorem commit_authentic (m : CutoverMessage) (sender : VerifyingKey) (now : Z)
    (c c' : Coordinator S W) (r : res CutoverError unit) :
  handle_cutover_commit m sender now c = (r, c') → r = Ok tt ∨ co_epoch c' ≠ co_epoch c →
  phase m = Commit ∧ (sender = kp_verifying_key (co_identity c) ∨ sender ∈ co_peers c)
  ∧ verify_cutover_signature m sender = Ok tt
  ∧ coverage_root m = coverage_root_bytes (cm_log (co_coverage c)).
Proof.
  intros H Hr. unfold handle_cutover_commit, mbind at 1, mlift at 1 in H.
  destruct (parse_epoch_id (to_epoch_id m)) as [t| | |]; try (injection H as <- <-; naive_solver).
  case_decide as Hph; [injection H as <- <-; naive_solver|].
  unfold mbind at 1 in H. rewrite authorization_same in H.
  destruct (fst (verify_sender_authorization sender c)) as [[]| | |] eqn:Ha;
    try (injection H as <- <-; naive_solver).
  unfold mbind at 1, mlift at 1 in H.
  destruct (verify_cutover_signature m sender) as [[]| | |] eqn:Hs;
    try (injection H as <- <-; naive_solver).
  unfold mbind at 1 in H. destruct (ensure_cutover_context t now c) as [r1 c1] eqn:He.
  apply ensure_context_spec in He as (Hep & Hcov & Hne & _).
  destruct r1 as [[]|err| |];
    try (rewrite Hne in H by done; injection H as <- <-; naive_solver).
  unfold mbind at 1 in H. rewrite current_root_spec in H. case_decide as Hroot.
  { injection H as <- <-. destruct Hr as [Hr|Hr]; [done|]. by rewrite Hep in Hr. }
  split_and!; [done| |done|rewrite <-Hcov; done].
  clear -Ha. unfold verify_sender_authorization, mbind, mget, mret, mfail in Ha.
  case_decide; [by left|]. case_decide as Hp; [done|]. by right.
Qed.

(** *** Votes *)

(** One vote per key: once a sender's vote has been counted, further votes of
    that sender, approvals or rejections, change nothing. *)
Theorem vote_counted_once (m m' : CutoverMessage) (sender : VerifyingKey) (c c1 : Coordinator S W) :
  handle_cutover_vote m sender c = (Ok tt, c1) → is_Some (co_consensus c) →
  snd (handle_cutover_vote m' sender c1) = c1.
Proof.
  intros H [t Ht]. unfold handle_cutover_vote, mbind, mlift, mget, mret, mput in *.
  destruct (verify_cutover_signature m sender) as [[]| | |]; try done. rewrite Ht in H.
  destruct (vote m) as [v|]; cbn [ok_or] in H; [|done]. injection H as <-.
  destruct (verify_cutover_signature m' sender) as [[]| | |]; try done.
  cbn [set_consensus co_consensus]. destruct (vote m') as [v'|]; cbn [ok_or]; [|done].
  cbn [snd]. set (key := arr (VerifyingKey_to_bytes sender)).
  assert (key ∈ participants (record_participant key (bool_decide (v = Approve)) t)) as Hin.
  { unfold record_participant. case_decide; [done|]. simpl. set_solver. }
  unfold record_participant at 1. rewrite decide_True by done. by destruct c.
Qed.

(** Votes are not restricted to the peers: an approval signed by any key, known
    or not, raises the count towards the quorum. *)
Theorem vote_from_stranger_counts (m : CutoverMessage) (sender : VerifyingKey)
    (c : Coordinator S W) (t : ConsensusTracker) :
  sender ∉ co_peers c → verify_cutover_signature m sender = Ok tt → vote m = Some Approve →
  co_consensus c = Some t → arr (VerifyingKey_to_bytes sender) ∉ participants t →
  ∃ c', handle_cutover_vote m sender c = (Ok tt, c')
    ∧ from_option commit_count 0 (co_consensus c') = Datatypes.S (commit_count t).
Proof.
  intros _ Hs Hv Ht Hn. unfold handle_cutover_vote, mbind, mlift, mget, mput.
  rewrite Hs, Ht, Hv. cbn [ok_or]. eexists. split; [done|]. cbn [set_consensus co_consensus].
  unfold record_participant. by rewrite decide_False.
Qed.

(** *** Epoch identifiers *)

Lemma take_cont_high n range b x :
  (128 ≤ range.1)%N → x ∈ take_cont n range b → (128 ≤ Byte.to_N x)%N.
Proof.
  revert n range. induction b as [|y b IH]; intros [|n] [lo hi] Hr Hx; simpl in *;
    try (by apply elem_of_nil in Hx).
  unfold in_range in Hx. destruct (N.leb_spec lo (Byte.to_N y)); simpl in Hx;
    [|by apply elem_of_nil in Hx].
  destruct (Byte.to_N y <=? hi)%N; simpl in Hx; [|by apply elem_of_nil in Hx].
  apply elem_of_cons in Hx as [->|Hx]; [lia|]. by apply IH in Hx.
Qed.

Lemma take_cont_prefix n range b : ∃ rest, b = take_cont n range b ++ rest.
Proof.
  revert n range. induction b as [|y b IH]; intros [|n] range; simpl; eauto.
  destruct (in_range _ _ y); [|by exists (y :: b)].
  destruct (IH n (128, 191)%N) as [rest Hr]. exists rest. simpl. by f_equal.
Qed.

(** A zero byte survives the lossy decoding. *)
Lemma lossy_keeps_zero fuel b : length b ≤ fuel → x00 ∈ b → x00 ∈ utf8_lossy_bytes fuel b.
Proof.
  revert b. induction fuel as [|fuel IH]; intros [|x b] Hl Hx; simpl in Hl;
    try lia; try (by apply elem_of_nil in Hx).
  cbn [utf8_lossy_bytes]. destruct (in_range 0 127 x) eqn:E7.
  { apply elem_of_cons in Hx as [<-|Hx]; [left|right; apply IH; [lia|done]]. }
  apply elem_of_cons in Hx as [<-|Hx]; [done|].
  destruct (utf8_lead x) as [[n [lo hi]]|] eqn:El.
  2:{ apply elem_of_app. right. apply IH; [lia|done]. }
  apply elem_of_app. right. destruct (take_cont_prefix n (lo, hi) b) as [rest Hb].
  assert (drop (length (take_cont n (lo, hi) b)) b = rest) as -> by (rewrite Hb at 2; apply drop_app_length).
  apply IH; [apply (f_equal length) in Hb; rewrite length_app in Hb; lia|].
  rewrite Hb in Hx. apply elem_of_app in Hx as [Hx|Hx]; [|done]. exfalso.
  apply take_cont_high in Hx; [simpl in Hx; lia|]. simpl.
  unfold utf8_lead in El. repeat (case_match; [injection El as <- <- <-; lia|]). done.
Qed.

Lemma pretty_no_zero (n : N) : x00 ∉ bytes_of (pretty n).
Proof.
  pose proof (pretty_N_digits n) as Hd. revert Hd. generalize (pretty n) as s. intros s.
  induction s as [|a s IH]; intros Hd Hin; [by apply elem_of_nil in Hin|].
  simpl in Hd. apply andb_true_iff in Hd as [Ha Hs].
  change (bytes_of (String a s)) with (Ascii.byte_of_ascii a :: bytes_of s) in Hin.
  apply elem_of_cons in Hin as [E|Hin]; [|by apply IH].
  assert (a = Ascii.ascii_of_byte x00) as ->
    by (rewrite E; symmetry; apply Ascii.ascii_of_byte_of_ascii). done.
Qed.

(** An abort never finds its operation: the operations are stored under the
    decimal epoch number, while the abort handler looks up the identifier bytes
    of the message read as text; for the identifiers that the coordinators
    send, no decimal key is equal to that text, so the operation is not marked
    aborted. *)
Theorem abort_key_never_matches (e n : N) :
  from_utf8_lossy (encode_epoch_id e) ≠ pretty n.
Proof.
  intros E. apply (f_equal bytes_of) in E. apply (pretty_no_zero n). rewrite <-E.
  unfold from_utf8_lossy, bytes_of. rewrite String.list_byte_of_string_of_list_byte.
  apply lossy_keeps_zero; [done|]. unfold encode_epoch_id. apply elem_of_app. right. left.
Qed.

(** *** A coordinator that waits for itself *)

(** The operations are locked for good: nothing that needs them goes on. *)
Definition wedged (e : EpochState) (d : gset string) (c : Coordinator S W) : Prop :=
  co_ops_held c = true ∧ co_epoch c = e ∧ dom (co_active c) = d.

#[local] Instance wedged_framed e d : Framed (wedged e d).
Proof. by split. Qed.

Lemma preserves_stuck P {A B} (m : M A) (k : A → M B) :
  (∀ c : Coordinator S W, P c → m c = (Diverge, c)) → preserves P (mbind m k).
Proof. intros Hm c Hc. unfold mbind. by rewrite Hm. Qed.

Lemma lock_stuck e d c : wedged e d c → lock_active c = (Diverge, c).
Proof. intros (Hh & _ & _). unfold lock_active. by rewrite Hh. Qed.

Lemma ensure_stuck e d t now c : wedged e d c → ensure_cutover_context t now c = (Diverge, c).
Proof.
  intros Hc. unfold ensure_cutover_context, mbind at 1. by rewrite (lock_stuck e d c Hc).
Qed.

Ltac stuck :=
  repeat first
    [ apply preserves_stuck; intros ? ?; solve [eauto using lock_stuck, ensure_stuck]
    | lazymatch goal with
      | |- preserves _ (mbind lock_active _) => fail
      | |- preserves _ (mbind _ _) => apply preserves_bind; [|intros ?]
      | |- preserves _ (if decide _ then _ else _) => apply preserves_decide
      | |- preserves _ (if _ then _ else _) => apply preserves_if
      | |- preserves _ (match _ with _ => _ end) => case_match
      end
    | progress keep_state
    | solve [eauto with cutover typeclass_instances] ].

Lemma wedged_initiate e d cur tgt now : preserves (wedged e d) (initiate_cutover cur tgt now).
Proof. unfold initiate_cutover, start_consensus. stuck. Qed.

Lemma wedged_poll e d now : preserves (wedged e d) (monitor_poll now).
Proof. unfold monitor_poll, execute_atomic_cutover. stuck. Qed.

Lemma wedged_process e d m sender now :
  preserves (wedged e d) (process_cutover_message m sender now).
Proof.
  unfold process_cutover_message, handle_cutover_prepare, handle_cutover_proposal,
    handle_cutover_vote, handle_cutover_commit, handle_cutover_abort.
  destruct (phase m); stuck.
Qed.

Lemma wedged_run e d evs c : wedged e d c → wedged e d (run_events evs c).
Proof.
  revert c. induction evs as [|[ev now] evs IH]; intros c Hc; [done|]. apply IH.
  destruct ev; cbn [handle_event]; [by apply wedged_initiate|by apply wedged_poll
    |by apply wedged_process|done|done].
Qed.


(** Epoch identifiers survive the wire: parsing an encoded [u64] returns it. *)
Theorem epoch_id_roundtrip (e : N) :
  (e < U64)%N → parse_epoch_id (encode_epoch_id e) = Ok e.
Proof.
  intros He. unfold parse_epoch_id, encode_epoch_id. rewrite length_app, le_bytes_length.
  cbn [length replicate Nat.add Nat.eqb Nat.leb].
  rewrite take_app_length' by (by rewrite le_bytes_length).
  rewrite le_num_bytes; [done|]. by rewrite <-U64_pow.
Qed.

(** *** Committing and rolling back *)

(** A finished commit has switched the local epoch to the target and stored it;
    the key of the old epoch, which "secure deletion" is meant to remove, is
    still what storage returns for it. *)
Theorem commit_switches_and_keeps_old_key {slaws : StorageLaws S} (key : string)
    (op : CutoverOperation) (now later : Z) (c c' : Coordinator S W) (target : EpochState) :
  op_target_epoch op = Some target → epoch_id (co_epoch c) ≠ epoch_id target →
  finalize_cutover_commit key op now c = (Ok tt, c') →
  co_epoch c' = target
  ∧ (∃ e, load_epoch_state (epoch_id target) later (co_storage c') = Ok e
       ∧ epoch_id e = epoch_id target ∧ encryption_key e = encryption_key target)
  ∧ load_epoch_state (epoch_id (co_epoch c)) later (co_storage c')
      = load_epoch_state (epoch_id (co_epoch c)) later (co_storage c).
Proof.
  intros Ht Hne H. unfold finalize_cutover_commit, mbind at 1, mget in H. rewrite Ht in H.
  unfold mbind at 1, mput at 1 in H. unfold mbind at 1 in H.
  cbn [set_epoch co_storage] in H.
  destruct (store_epoch_state target (co_storage c)) as [[[]|err| |] s'] eqn:Hst; try done.
  unfold mbind, mignore, secure_delete_old_epoch_keys, mret, mput in H.
  unfold coverage_verify_integrity in H. destruct (verify_integrity _) as [r cm].
  injection H as Hr <-. cbn. split_and!; [done| |by eapply load_store_other].
  destruct (load_store_same target later _ _ Hst) as (e & ? & ? & ? & _). by exists e.
Qed.

(** A commit is not rolled back when the coverage check after it fails: the
    caller gets the error, but the epoch has been switched and stored. *)
Theorem commit_error_after_switch (key : string) (op : CutoverOperation) (now : Z)
    (c : Coordinator S W) (target : EpochState) (s' : S) (err : CoverageManagerError) :
  op_target_epoch op = Some target → store_epoch_state target (co_storage c) = (Ok tt, s') →
  fst (verify_integrity (co_coverage c)) = Err err →
  ∃ c', finalize_cutover_commit key op now c =
          (Err (CoverageFailure ("Coverage integrity check failed after cutover: "
                  +:+ CoverageManagerError_display err)), c')
    ∧ co_epoch c' = target ∧ co_storage c' = s'.
Proof.
  intros Ht Hst Hv. unfold finalize_cutover_commit, mbind at 1, mget. rewrite Ht.
  unfold mbind at 1, mput at 1. unfold mbind at 1. cbn [set_epoch co_storage]. rewrite Hst.
  unfold mbind, mignore, secure_delete_old_epoch_keys, mret, mput, coverage_verify_integrity.
  cbn [set_op set_active set_storage set_epoch co_coverage].
  destruct (verify_integrity (co_coverage c)) as [r cm]. cbn [fst] in Hv. subst r.
  eexists. split; [done|]. done.
Qed.

Lemma rollback_one_restores root now k op p (c c' : Coordinator S W) :
  op_previous_epoch op = Some p → rollback_one root now (k, op) c = (Ok tt, c') → co_epoch c' = p.
Proof.
  intros Hp H. unfold rollback_one in H. rewrite Hp in H.
  apply mbind_Ok in H as ([] & c1 & H1 & H).
  apply mbind_Ok in H1 as ([] & c0 & [= <-] & H1).
  assert (co_epoch c1 = p) as E.
  { unfold mignore in H1. destruct (store_epoch_state _ _) as [[] s0]; cbn [map_err] in H1;
      by simplify_eq. }
  clear H1. revert E. generalize dependent c1. intros c1 H E.
  apply mbind_Ok in H as ([] & c2 & H2 & H).
  assert (c2 = c1) as -> by (destruct (op_target_epoch op); by injection H2).
  apply mbind_Ok in H as (cc & c3 & [= <- <-] & H).
  apply mbind_Ok in H as (msg & c4 & H3 & H). unfold mlift in H3.
  assert (c4 = c1) as -> by congruence. clear H3.
  apply mbind_Ok in H as (msg' & c5 & H4 & H).
  assert (c5 = c1) as ->.
  { unfold sign_cutover_message in H4. apply mbind_Ok in H4 as (? & ? & [= _ <-] & H4).
    apply mbind_Ok in H4 as (? & ? & [= _ <-] & H4).
    apply mbind_Ok in H4 as (? & ? & [= _ <-] & H4). by injection H4. }
  assert (Framed (λ c : Coordinator S W, co_epoch c = p)) as Hf by done.
  pose proof (preserves_ignore _ _ (preserves_broadcast _ msg' now) c1 E) as Hb.
  by rewrite H in Hb.
Qed.

(** Rollback: when it succeeds, no operation is active, the consensus and the
    attempt counter are reset, the state is RolledBack, and if one cutover was
    under way the epoch is again the one recorded when it started. *)
Theorem rollback_restores {hlaws : HashOrderLaws} (now : Z) (c c' : Coordinator S W) :
  initiate_rollback now c = (Ok tt, c') →
  co_state c' = CutRolledBack ∧ co_consensus c' = None ∧ co_rollbacks c' = 0
  ∧ (∀ key op p, co_active c = {[key := op]} → op_previous_epoch op = Some p → co_epoch c' = p).
Proof.
  intros H. unfold initiate_rollback in H.
  apply mbind_Ok in H as ([] & c1 & [= <-] & H).
  apply mbind_Ok in H as (cc & c2 & [= <- <-] & H). case_match; [done|].
  apply mbind_Ok in H as ([] & c3 & [= <-] & H).
  apply mbind_Ok in H as (root & c4 & [= <- <-] & H).
  apply mbind_Ok in H as ([] & c5 & Hl & H). unfold lock_active in Hl.
  cbn [set_state set_rollbacks co_ops_held] in Hl.
  destruct (co_ops_held c); [done|]. injection Hl as <-.
  apply mbind_Ok in H as (cc & c5 & [= <- <-] & H).
  apply mbind_Ok in H as ([] & c6 & [= <-] & H).
  apply mbind_Ok in H as ([] & c7 & Hall & H).
  apply mbind_Ok in H as ([] & c8 & [= <-] & H).
  apply mbind_Ok in H as ([] & c9 & [= <-] & H). injection H as <-.
  split_and!; [done..|]. intros key op p Hact Hp.
  cbn [set_state set_rollbacks set_consensus co_epoch].
  cbn [set_state set_rollbacks co_active] in Hall. rewrite Hact in Hall.
  rewrite hash_order_singleton in Hall. cbn [rollback_all] in Hall.
  apply mbind_Ok in Hall as ([] & c10 & Hone & [= <-]). by eapply rollback_one_restores.
Qed.

(** What a coordinator signs, its peers accept: a message that carries the
    device's own key verifies under that key after signing. *)
Theorem signed_message_verifies `{!Ed25519Laws} (m m' : CutoverMessage) (c c' : Coordinator S W) :
  kp_verifying_key (co_identity c) = SigningKey_verifying_key (kp_signing_key (co_identity c)) →
  sender_key m = arr (VerifyingKey_to_bytes (kp_verifying_key (co_identity c))) →
  sign_cutover_message m c = (Ok m', c') →
  verify_cutover_signature m' (kp_verifying_key (co_identity c)) = Ok tt.
Proof.
  intros Hkp Hkey Hs. unfold sign_cutover_message in Hs.
  apply mbind_Ok in Hs as (b & ? & [= Hb <-] & Hs).
  apply mbind_Ok in Hs as (cc & ? & [= <- <-] & Hs).
  apply mbind_Ok in Hs as (sig & ? & [= Hsig <-] & [= <- _]).
  unfold KeyPair_sign in Hsig.
  destruct (SigningKey_sign (kp_signing_key (co_identity c)) b) as [sg| | |] eqn:Hsg; try done.
  injection Hsig as <-. unfold verify_cutover_signature.
  cbn [set_msg_signature msg_signature sender_key].
  rewrite (Signature_from_to_bytes _ _ _ Hsg). cbn [map_err res_bind]. rewrite Hkey.
  rewrite VerifyingKey_from_to_bytes by (rewrite Hkp; apply dalek_public_valid).
  cbn [map_err res_bind]. rewrite decide_False by auto.
  unfold cutover_signable_bytes in *. change (signable_of (set_msg_signature _ m)) with (signable_of m).
  rewrite Hb. cbn [res_bind]. rewrite Hkp.
  by rewrite (sign_verify _ _ _ Hsg).
Qed.
End CutoverTheorems.

(** ** Evaluation on a concrete coordinator *)

Definition vote_tag (v : option CutoverVote) : option N :=
  (λ v, match v with Approve => 1%N | Reject => 0%N end) <$> v.
Definition phase_tag (p : CutoverPhase) : N :=
  match p with Prepare => 0 | Proposal => 1 | Vote => 2 | Commit => 3 | Abort => 4 end.
Definition toy_cutover_json : CutoverJson := {|
  json_signable_cutover := λ m, Ok (ser (phase_tag (sg_phase m), sg_from_epoch_id m,
    sg_to_epoch_id m, sg_coverage_root m, sg_sender_key m, Z.to_N (sg_timestamp m),
    vote_tag (sg_vote m)));
  json_signable_network := λ m, Ok (ser (sn_encrypted_payload m, sn_sender_public_key m,
    Z.to_N (sn_timestamp m), sn_sequence_number m));
  json_cutover_message := λ m, Ok (ser (phase_tag (phase m), from_epoch_id m, to_epoch_id m,
    coverage_root m, sender_key m, Z.to_N (msg_timestamp m), vote_tag (vote m), msg_signature m));
|}.

(** The in-memory store, and a network that records what is sent. *)
Definition toy_network : Network (list PeerInfo * list (array 32 * NetworkMessage)) := {|
  list_peers := λ w, Ok w.1;
  send_message := λ k m w, (Ok tt, (w.1, w.2 ++ [(k, m)]));
|}.
Definition toy_percent : PercentFmt := λ _, "?".

#[local] Existing Instances toy_sha256 toy_ed25519 toy_ed25519_laws toy_entry_json toy_hex
  toy_operation_debug toy_cutover_json toy_storage_json toy_network toy_hash_order
  toy_hash_order_laws toy_percent.

Definition dev_key (n : N) : SigningKey := mkSigningKey (dexist (le_bytes 32 n) (le_bytes_length 32 n)).
Definition dev_pair (n : N) : Ed25519KeyPair :=
  mkEd25519KeyPair (dev_key n) (SigningKey_verifying_key (dev_key n)).
Definition dev_vk (n : N) : VerifyingKey := SigningKey_verifying_key (dev_key n).

Definition old_epoch : EpochState := epoch_c.
Definition new_epoch : EpochState :=
  EpochState_new 2 (dexist (le_bytes 32 6) (le_bytes_length 32 6)) 12.
Definition cut_store : MockStorage :=
  (mock_store_epoch_state new_epoch (mock_store_epoch_state old_epoch MockStorage_new).2).2.
Definition cut_coverage : CoverageManager := snd (log_file_epoch "a" 2 0 cov_manager).
Definition cut_net : list PeerInfo * list (array 32 * NetworkMessage) :=
  ([mkPeerInfo (VerifyingKey_to_bytes (dev_vk 8)) "10.0.0.8" PeerConnected 0 0 5 "1"], []).
Definition cut_fresh : Coordinator MockStorage (list PeerInfo * list (array 32 * NetworkMessage)) :=
  add_peer (dev_vk 8)
    (Coordinator_new cut_store cut_net cut_coverage (dev_pair 7) CutoverConfig_default old_epoch).

(** A cutover from epoch 1 to epoch 2 with one peer: proposed, approved by the
    peer, polled, completed. *)
Definition cut_started := snd (initiate_cutover old_epoch new_epoch 100 cut_fresh).
Definition peer_vote (v : CutoverVote) (n : N) : CutoverMessage :=
  match CutoverMessage_new_vote (encode_epoch_id 1) (encode_epoch_id 2)
          (coverage_root_bytes (cm_log cut_coverage)) (dev_vk n) v 101 with
  | Ok m =>
      match sign_cutover_message m (Coordinator_new cut_store cut_net cut_coverage (dev_pair n)
              CutoverConfig_default old_epoch) with
      | (Ok m, _) => m
      | _ => m
      end
  | _ => mkCutoverMessage Vote [] [] [] [] 0 None [] None None None None
  end.
Definition cut_voted := snd (handle_cutover_vote (peer_vote Approve 8) (dev_vk 8) cut_started).

Example cutover_happy_path :
  fst (initiate_cutover old_epoch new_epoch 100 cut_fresh) = Ok tt
  ∧ fst (monitor_poll 101 cut_started) = Ok None
  ∧ fst (handle_cutover_vote (peer_vote Approve 8) (dev_vk 8) cut_started) = Ok tt
  ∧ fst (monitor_poll 102 cut_voted) = Ok (Some tt)
  ∧ co_state (snd (monitor_poll 102 cut_voted)) = CutCompleted
  ∧ epoch_id (co_epoch (snd (monitor_poll 102 cut_voted))) = 2%N.
Proof. vm_compute. done. Qed.

Lemma default_quorum_two_thirds_witness :
  2 * 10 ≤ 3 * required_commits CutoverConfig_default 10
  ∧ 1 ≤ required_commits CutoverConfig_default 10
  ∧ (1 ≤ 10 → required_commits CutoverConfig_default 10 ≤ 10).
Proof. apply (default_quorum_two_thirds 10). vm_compute. reflexivity. Defined.

Definition peer_commit (n : N) : CutoverMessage :=
  match CutoverMessage_new Commit (encode_epoch_id 1) (encode_epoch_id 2)
          (coverage_root_bytes (cm_log cut_coverage)) (dev_vk n) 103 with
  | Ok m =>
      match sign_cutover_message m (Coordinator_new cut_store cut_net cut_coverage (dev_pair n)
              CutoverConfig_default old_epoch) with
      | (Ok m, _) => m
      | _ => m
      end
  | _ => peer_vote Approve n
  end.

Definition cut_need_two := set_consensus (Some (mkConsensusTracker 0 2 ∅)) cut_started.
Lemma commits_do_not_accumulate_witness :
  co_epoch (foldl (λ c '(m, sender, now), snd (handle_cutover_commit m sender now c)) cut_need_two
              [(peer_commit 8, dev_vk 8, 103%Z); (peer_commit 7, dev_vk 7, 104%Z)])
    = co_epoch cut_need_two.
Proof.
  apply (commits_do_not_accumulate cut_need_two (mkConsensusTracker 0 2 ∅)
           [(peer_commit 8, dev_vk 8, 103%Z); (peer_commit 7, dev_vk 7, 104%Z)]).
  - reflexivity.
  - simpl. lia.
Defined.

Definition cut_committed := snd (handle_cutover_commit (peer_commit 8) (dev_vk 8) 103 cut_fresh).
Lemma commit_authentic_witness :
  phase (peer_commit 8) = Commit
  ∧ (dev_vk 8 = kp_verifying_key (co_identity cut_fresh) ∨ dev_vk 8 ∈ co_peers cut_fresh)
  ∧ verify_cutover_signature (peer_commit 8) (dev_vk 8) = Ok tt
  ∧ coverage_root (peer_commit 8) = coverage_root_bytes (cm_log (co_coverage cut_fresh)).
Proof.
  apply (commit_authentic (peer_commit 8) (dev_vk 8) 103 cut_fresh cut_committed (Ok tt)).
  - unfold cut_committed. eval_fst.
  - left. reflexivity.
Defined.

Lemma vote_counted_once_witness :
  snd (handle_cutover_vote (peer_vote Reject 8) (dev_vk 8) cut_voted) = cut_voted.
Proof.
  apply (vote_counted_once (peer_vote Approve 8) (peer_vote Reject 8) (dev_vk 8)
           cut_started cut_voted).
  - unfold cut_voted. eval_fst.
  - apply (bool_decide_unpack _). vm_compute. exact I.
Defined.

Definition cut_tracker : ConsensusTracker := mkConsensusTracker 0 1 ∅.
Lemma vote_from_stranger_counts_witness :
  ∃ c', handle_cutover_vote (peer_vote Approve 9) (dev_vk 9) cut_started = (Ok tt, c')
    ∧ from_option commit_count 0 (co_consensus c') = Datatypes.S (commit_count cut_tracker).
Proof.
  apply (vote_from_stranger_counts (peer_vote Approve 9) (dev_vk 9) cut_started cut_tracker).
  - apply (bool_decide_unpack _). vm_compute. exact I.
  - vm_compute. reflexivity.
  - vm_compute. reflexivity.
  - vm_compute. reflexivity.
  - apply (bool_decide_unpack _). vm_compute. exact I.
Defined.

Lemma epoch_id_roundtrip_witness : parse_epoch_id (encode_epoch_id 258) = Ok 258%N.
Proof. apply (epoch_id_roundtrip 258). vm_compute. reflexivity. Defined.

Definition cut_op : CutoverOperation :=
  mkCutoverOperation (Some new_epoch) (Some old_epoch) StInConsensus 100 None (Some cut_tracker).
Definition cut_final := snd (finalize_cutover_commit "2" cut_op 103 cut_started).
Lemma commit_switches_and_keeps_old_key_witness :
  co_epoch cut_final = new_epoch
  ∧ (∃ e, load_epoch_state (epoch_id new_epoch) 200 (co_storage cut_final) = Ok e
       ∧ epoch_id e = epoch_id new_epoch ∧ encryption_key e = encryption_key new_epoch)
  ∧ load_epoch_state (epoch_id (co_epoch cut_started)) 200 (co_storage cut_final)
      = load_epoch_state (epoch_id (co_epoch cut_started)) 200 (co_storage cut_started).
Proof.
  apply (commit_switches_and_keeps_old_key (slaws := mock_storage_laws) "2" cut_op 103 200
           cut_started cut_final new_epoch).
  - reflexivity.
  - vm_compute. discriminate.
  - unfold cut_final. eval_fst.
Defined.

Definition cut_uncovered := set_coverage cov_manager cut_started.
Lemma commit_error_after_switch_witness :
  ∃ c', finalize_cutover_commit "2" cut_op 103 cut_uncovered =
          (Err (CoverageFailure ("Coverage integrity check failed after cutover: "
             +:+ CoverageManagerError_display (Generic "coverage log is empty; nothing to verify"))), c')
    ∧ co_epoch c' = new_epoch ∧ co_storage c' = (mock_store_epoch_state new_epoch cut_store).2.
Proof.
  apply (commit_error_after_switch "2" cut_op 103 cut_uncovered new_epoch
           (mock_store_epoch_state new_epoch cut_store).2 (Generic "coverage log is empty; nothing to verify")).
  - reflexivity.
  - vm_compute. reflexivity.
  - vm_compute. reflexivity.
Defined.

Definition cut_rolled := snd (initiate_rollback 104 cut_started).
Lemma rollback_restores_witness :
  co_state cut_rolled = CutRolledBack ∧ co_consensus cut_rolled = None ∧ co_rollbacks cut_rolled = 0
  ∧ (∀ key op p, co_active cut_started = {[key := op]} → op_previous_epoch op = Some p →
       co_epoch cut_rolled = p).
Proof.
  apply (rollback_restores (hlaws := toy_hash_order_laws) 104 cut_started cut_rolled).
  unfold cut_rolled. eval_fst.
Defined.

Definition own_message : CutoverMessage :=
  match CutoverMessage_new Abort (encode_epoch_id 1) (encode_epoch_id 2) [] (dev_vk 7) 105 with
  | Ok m => m
  | _ => peer_vote Reject 7
  end.
Definition own_signed : CutoverMessage :=
  match sign_cutover_message own_message cut_fresh with
  | (Ok m, _) => m
  | _ => own_message
  end.
Lemma signed_message_verifies_witness :
  verify_cutover_signature own_signed (kp_verifying_key (co_identity cut_fresh)) = Ok tt.
Proof.
  apply (signed_message_verifies own_message own_signed cut_fresh
           (snd (sign_cutover_message own_message cut_fresh))).
  - reflexivity.
  - vm_compute. reflexivity.
  - eval_fst.
Defined.

Definition peer_abort : CutoverMessage :=
  mkCutoverMessage Abort (encode_epoch_id 1) (encode_epoch_id 2) [] [] 104 None [] None None None None.
