(* ===== verification/Migration.v ===== *)
(** * Migration manager ([crates/client/src/epoch/migration.rs])

    Drives an epoch change through its phases and hands the cutover to the coordinator.
    The manager shares its store, network and identity with its coordinator; the state
    below has them once, in the coordinator.  The coordinator's monitoring loop runs
    inside [initiate_cutover], which keeps the write lock of the migration state until
    it returns: [mm_waiting] says that it is held, and [mm_poll] is one round of the
    loop.  The network status is a parameter; an error rate is only logged. *)

From Stdlib Require Import Strings.Byte QArith.
From stdpp Require Import base tactics numbers sets list gmap strings pretty option.
From S2P Require Import Prelude StateError Crypto Merkle Transparency Coverage EpochState.
From S2P Require Import CutoverMessages Storage Cutover.
Close Scope Q_scope.
Open Scope hc_scope.
Open Scope hc_st_scope.

Inductive MigrationError :=
| MigrationInProgress
| MigInvalidState
| MigStorage (msg : string)
| MigNetwork (msg : string)
| MigTimeout
| MigValidationFailed (msg : string).

Inductive MigrationPhase := Prepare | Rewrap | Sync | Cutover.
Inductive MigrationStatus := MigIdle | MigActive (phase : MigrationPhase).

Record MigrationConfig := mkMigrationConfig {
  mc_max_duration : Z;
  mc_batch_size : N;
  mc_progress_interval : Z;
  mc_auto_rollback : bool;
}.
Definition MigrationConfig_default : MigrationConfig :=
  mkMigrationConfig (24 * 3600000000000) 100 (5 * 60000000000) true.

Record MigrationMetrics := mkMigrationMetrics {
  migration_start_time : option Z;
  total_migration_time : Z;
  files_rewrapped : N;
  total_files : N;
  phase_transitions : N;
  completed_migrations : N;
  failed_migrations : N;
}.
Definition MigrationMetrics_default : MigrationMetrics := mkMigrationMetrics None 0 0 0 0 0 0.

Record MigrationProgress := mkMigrationProgress {
  pr_phase : MigrationPhase;
  pr_files_rewrapped : N;
  pr_total_files : N;
  pr_completion_percentage : N;
  pr_start_time : option Z;
}.

Record MigrationManager (S W : Type) := mkMigrationManager {
  mm_current : option EpochState;
  mm_next : option EpochState;
  mm_state : MigrationStatus;
  mm_config : MigrationConfig;
  mm_metrics : MigrationMetrics;
  mm_coordinator : Coordinator S W;
  mm_waiting : bool;
}.
Arguments mkMigrationManager {S W}.
Arguments mm_current {S W}.
Arguments mm_next {S W}.
Arguments mm_state {S W}.
Arguments mm_config {S W}.
Arguments mm_metrics {S W}.
Arguments mm_coordinator {S W}.
Arguments mm_waiting {S W}.

(** [get_network_status]: whether it is connected, or [None] for an error. *)
Class NetworkStatus (W : Type) := network_connected : W → option bool.

(** ** Division of [f64] values *)

(** The quotient with at least 64 significant bits and a sticky bit, rounded. *)
Definition f64_div (a b : f64) : f64 :=
  let k := (64 + N.size (f64_mant b))%N in
  let n := N.shiftl (f64_mant a) k in
  let q := (n / f64_mant b)%N in
  let sticky := if (n mod f64_mant b =? 0)%N then 0%N else 1%N in
  round53 (2 * q + sticky) (f64_exp a - f64_exp b - Z.of_N k - 1).

(** [x as u8]: truncated, and 255 above. *)
Definition f64_as_u8 (a : f64) : N :=
  N.min 255 (if (0 <=? f64_exp a)%Z then f64_mant a * 2 ^ Z.to_N (f64_exp a)
             else f64_mant a / 2 ^ Z.to_N (- f64_exp a)).

Definition completion_percentage (m : MigrationMetrics) : N :=
  if (0 <? total_files m)%N
  then f64_as_u8 (f64_mul (f64_div (f64_of_N (files_rewrapped m)) (f64_of_N (total_files m))) (f64_of_N 100))
  else 0.

Lemma completion_zero m : files_rewrapped m = 0%N → completion_percentage m = 0%N.
Proof.
  intros Hm. unfold completion_percentage. rewrite Hm. destruct (0 <? total_files m)%N; [|done].
  generalize (f64_of_N (total_files m)). intros b.
  assert (f64_mant (f64_div (f64_of_N 0) b) = 0%N) as Hz.
  { unfold f64_div. change (f64_mant (f64_of_N 0)) with 0%N. by rewrite !N.shiftl_0_l, N.Div0.div_0_l, N.Div0.mod_0_l. }
  unfold f64_mul. rewrite Hz. simpl. unfold f64_as_u8. simpl f64_mant.
  destruct (0 <=? _)%Z; [done|]. by rewrite N.Div0.div_0_l.
Qed.

(** [{:?}] of a [CutoverState]. *)
Definition CutoverState_debug (st : CutoverState) : string :=
  match st with
  | CutIdle => "Idle"
  | CutValidation => "Validation"
  | CutAwaitingConsensus => "AwaitingConsensus"
  | CutTransitioning => "Transitioning"
  | CutCompleted => "Completed"
  | CutRollingBack => "RollingBack"
  | CutRolledBack => "RolledBack"
  end.

(** ** The operations *)

Section Manager.
Context {sha : Sha256} {ed : Ed25519} {ejson : EntryJson} {hex : Hex} {opdbg : OperationDebug}.
Context {cjson : CutoverJson} {pfmt : PercentFmt} {iter : HashOrder} {sdbg : StatusDebug}.
Context {S W : Type} {store : Storage S} {net : Network W} {nst : NetworkStatus W}.

Abbreviation Mig := (MigrationManager S W).
Abbreviation MM := (ST Mig MigrationError).

Definition set_mig_state (st : MigrationStatus) (m : Mig) : Mig :=
  mkMigrationManager (mm_current m) (mm_next m) st (mm_config m) (mm_metrics m) (mm_coordinator m) (mm_waiting m).
Definition set_mig_epochs (cur next : option EpochState) (m : Mig) : Mig :=
  mkMigrationManager cur next (mm_state m) (mm_config m) (mm_metrics m) (mm_coordinator m) (mm_waiting m).
Definition set_mig_metrics (x : MigrationMetrics) (m : Mig) : Mig :=
  mkMigrationManager (mm_current m) (mm_next m) (mm_state m) (mm_config m) x (mm_coordinator m) (mm_waiting m).
Definition set_mig_coordinator (c : Coordinator S W) (m : Mig) : Mig :=
  mkMigrationManager (mm_current m) (mm_next m) (mm_state m) (mm_config m) (mm_metrics m) c (mm_waiting m).
Definition set_mig_waiting (b : bool) (m : Mig) : Mig :=
  mkMigrationManager (mm_current m) (mm_next m) (mm_state m) (mm_config m) (mm_metrics m) (mm_coordinator m) b.

Definition MigrationManager_new (s : S) (w : W) (cov : CoverageManager) (id : Ed25519KeyPair) (now : Z) : Mig :=
  mkMigrationManager None None MigIdle MigrationConfig_default MigrationMetrics_default
    (Coordinator_new s w cov id CutoverConfig_default (EpochState_new 0 (zeros 32) now)) false.

(** [self.migration_state.write().await]. *)
Definition lock_migration_state : MM unit :=
  λ m, if mm_waiting m then (Diverge, m) else (Ok tt, m).

(** A call of the coordinator. *)
Definition on_coordinator {A} (f : M A) : MM A :=
  st_map_err (λ e, MigValidationFailed (CutoverError_display e))
    (st_zoom mm_coordinator set_mig_coordinator f).

Definition start_migration (target : EpochState) (now : Z) : MM unit :=
  let* m := st_get in
  match network_connected (co_network (mm_coordinator m)) with
  | Some false => st_fail (MigNetwork "Network connectivity required to start migration")
  | _ =>
      do* lock_migration_state;
      match mm_state m with
      | MigIdle =>
          do* st_put (λ m, set_mig_epochs (mm_current m) (Some target) m);
          do* st_put (set_mig_state (MigActive Prepare));
          st_put (λ m, let x := mm_metrics m in
            set_mig_metrics (mkMigrationMetrics (Some now) (total_migration_time x) (files_rewrapped x)
              (mc_batch_size (mm_config m)) (phase_transitions x + 1) (completed_migrations x)
              (failed_migrations x)) m)
      | _ => st_fail MigrationInProgress
      end
  end.

(** [None]: the coordinator waits for consensus, and the call has not returned. *)
Definition mm_initiate_cutover (now : Z) : MM (option unit) :=
  do* lock_migration_state;
  let* m := st_get in
  match mm_state m with
  | MigActive Sync =>
      let* current := st_lift (ok_or (mm_current m) MigInvalidState) in
      let* target := st_lift (ok_or (mm_next m) MigInvalidState) in
      do* st_put (set_mig_state (MigActive Cutover));
      do* on_coordinator (initiate_cutover current target now);
      do* st_put (set_mig_waiting true);
      st_ret None
  | _ => st_fail MigInvalidState
  end.

(** One round of the loop that [initiate_cutover] waits in; when it ends the lock is
    released. *)
Definition mm_poll (now : Z) : MM (option unit) :=
  let* m := st_get in
  if mm_waiting m then
    let* x := st_try (on_coordinator (monitor_poll now)) in
    match x with
    | inr None => st_ret None
    | inr (Some _) => do* st_put (set_mig_waiting false); st_ret (Some tt)
    | inl e => do* st_put (set_mig_waiting false); st_fail e
    end
  else st_ret None.

(** *** Finishing *)

Definition force_deprecated (successor : N) (now : Z) (e : EpochState) : EpochState :=
  update_status (Deprecated now successor) now e.

Definition deprecate_old (successor : option N) (now : Z) (e : EpochState) : EpochState :=
  match status e with
  | Deprecated _ _ => e
  | _ =>
      match successor with
      | Some id => match deprecate id now now e with Ok e' => e' | _ => force_deprecated id now e end
      | None => force_deprecated (u64_saturating_add (epoch_id e) 1) now e
      end
  end.

Definition wipe_epoch (now : Z) (e : EpochState) : EpochState :=
  mkEpochState (epoch_id e) (zeros 32) (key_source e) (members e) (status e) (created_at e) now
    (file_count e) (metadata e).

Definition zeroed_secrets : EpochSecrets := mkEpochSecrets (arr (zeros 32)) (arr (zeros 32)) ∅.

(** A call of the store. *)
Definition on_mig_storage {A} (err : StorageError → MigrationError) (f : S → res StorageError A * S) : MM A :=
  λ m, let c := mm_coordinator m in
       let '(r, s) := f (co_storage c) in (map_err err r, set_mig_coordinator (set_storage s c) m).

(** The deletion, once the old epoch has been wiped in memory; a failure to overwrite
    the separately stored secrets is only logged. *)
Definition persist_wiped (id : N) (old : EpochState) (now : Z) : MM unit :=
  let* _ := st_try (on_mig_storage (λ e, MigStorage (StorageError_display e))
                      (store_epoch_keys id zeroed_secrets)) in
  do* on_mig_storage (λ e, MigStorage (StorageError_display e)) (store_epoch_state old);
  let* loaded := on_mig_storage
       (λ e, MigStorage ("Failed to reload epoch " +:+ pretty id +:+ " after secure deletion: "
                         +:+ StorageError_display e))
       (λ s, (load_epoch_state id now s, s)) in
  if existsb (λ b, negb (bool_decide (b = x00))) (arr (encryption_key loaded)) then
    st_fail (MigValidationFailed ("Epoch " +:+ pretty id
                                  +:+ " encryption key still present after secure deletion"))
  else st_ret tt.

Definition secure_delete_old_epoch (now : Z) : MM unit :=
  let* m := st_get in
  match mm_current m with
  | None => st_ret tt
  | Some e =>
      let old := wipe_epoch now (deprecate_old (epoch_id <$> mm_next m) now e) in
      do* st_put (λ m, set_mig_epochs (Some old) (mm_next m) m);
      persist_wiped (epoch_id e) old now
  end.

Definition finalize_migration (now : Z) : MM unit :=
  do* lock_migration_state;
  let* m := st_get in
  match mm_state m with
  | MigActive Cutover =>
      let st := get_state (mm_coordinator m) in
      if negb (bool_decide (st = CutCompleted)) then
        st_fail (MigValidationFailed ("Cutover not completed: " +:+ CutoverState_debug st))
      else
        do* secure_delete_old_epoch now;
        let* m := st_get in
        match mm_next m with
        | Some next =>
            do* st_put (set_mig_epochs (Some next) None);
            do* st_put (set_mig_state MigIdle);
            st_put (λ m, let x := mm_metrics m in
              set_mig_metrics (mkMigrationMetrics (migration_start_time x)
                (match migration_start_time x with Some t => now - t | None => total_migration_time x end)%Z
                (files_rewrapped x) (total_files x) (phase_transitions x) (completed_migrations x + 1)
                (failed_migrations x)) m)
        | None => st_fail MigInvalidState
        end
  | _ => st_fail MigInvalidState
  end.

Definition mm_process_cutover_message (msg : CutoverMessage) (sender : VerifyingKey) (now : Z) : MM unit :=
  on_coordinator (process_cutover_message msg sender now).

Definition rollback_migration : MM unit :=
  let* m := st_get in
  if negb (mc_auto_rollback (mm_config m)) then st_ret tt
  else
    do* lock_migration_state;
    match mm_state m with
    | MigActive _ =>
        do* st_put (λ m, set_mig_epochs (mm_current m) None m);
        do* st_put (set_mig_state MigIdle);
        st_put (λ m, let x := mm_metrics m in
          set_mig_metrics (mkMigrationMetrics (migration_start_time x) (total_migration_time x)
            (files_rewrapped x) (total_files x) (phase_transitions x) (completed_migrations x)
            (failed_migrations x + 1)) m)
    | MigIdle => st_fail MigInvalidState
    end.

Definition get_progress (m : Mig) : MigrationProgress :=
  let x := mm_metrics m in
  mkMigrationProgress (match mm_state m with MigIdle => Prepare | MigActive p => p end)
    (files_rewrapped x) (total_files x) (completion_percentage x) (migration_start_time x).

Definition move_to (p : MigrationPhase) : MM unit :=
  do* st_put (set_mig_state (MigActive p));
  st_put (λ m, let x := mm_metrics m in
    set_mig_metrics (mkMigrationMetrics (migration_start_time x) (total_migration_time x)
      (files_rewrapped x) (total_files x) (phase_transitions x + 1) (completed_migrations x)
      (failed_migrations x)) m).

Definition advance_phase (now : Z) : MM (option unit) :=
  do* lock_migration_state;
  let* m := st_get in
  match mm_state m with
  | MigActive Prepare => do* move_to Rewrap; st_ret (Some tt)
  | MigActive Rewrap => do* move_to Sync; st_ret (Some tt)
  | MigActive Sync => mm_initiate_cutover now
  | MigActive Cutover => do* finalize_migration now; st_ret (Some tt)
  | MigIdle => st_fail MigInvalidState
  end.

Definition is_migration_active (m : Mig) : bool :=
  match mm_state m with MigActive _ => true | MigIdle => false end.
Definition get_target_epoch_id (m : Mig) : option N := epoch_id <$> mm_next m.
End Manager.

(** ** Runs of a manager *)

Inductive mig_op :=
| OpStart (target : EpochState)
| OpAdvance
| OpInitiate
| OpFinalize
| OpRollback
| OpPoll
| OpMessage (msg : CutoverMessage) (sender : VerifyingKey)
| OpPeer (add : bool) (k : VerifyingKey).

Section Runs.
Context {sha : Sha256} {ed : Ed25519} {ejson : EntryJson} {hex : Hex} {opdbg : OperationDebug}.
Context {cjson : CutoverJson} {pfmt : PercentFmt} {iter : HashOrder} {sdbg : StatusDebug}.
Context {S W : Type} {store : Storage S} {net : Network W} {nst : NetworkStatus W}.
Implicit Types m : MigrationManager S W.

Abbreviation MM := (ST (MigrationManager S W) MigrationError).

Definition finish {A} (x : MM A) : MM (option unit) := let* _ := x in st_ret (Some tt).
Definition apply_mig (op : mig_op) (now : Z) : MM (option unit) :=
  match op with
  | OpStart e => finish (start_migration e now)
  | OpAdvance => advance_phase now
  | OpInitiate => mm_initiate_cutover now
  | OpFinalize => finish (finalize_migration now)
  | OpRollback => finish rollback_migration
  | OpPoll => mm_poll now
  | OpMessage msg sender => finish (mm_process_cutover_message msg sender now)
  | OpPeer add k => finish (st_put (λ m, set_mig_coordinator
      ((if add then add_peer k else remove_peer k) (mm_coordinator m)) m))
  end.
Definition run_mig (ops : list (mig_op * Z)) m : MigrationManager S W :=
  foldl (λ m o, (apply_mig o.1 o.2 m).2) m ops.

(** The abstract machine: what the users of a manager see, the phase and the number of
    the target epoch.  [None] as a result: the operation is refused. *)
Definition mig_view : Type := option (MigrationPhase * N).
Definition view m : mig_view :=
  match mm_state m with MigIdle => None | MigActive p => (λ id, (p, id)) <$> get_target_epoch_id m end.
Definition phase_step (v : mig_view) (op : mig_op) : option mig_view :=
  match op, v with
  | OpStart e, None => Some (Some (Prepare, epoch_id e))
  | OpAdvance, Some (Prepare, t) => Some (Some (Rewrap, t))
  | OpAdvance, Some (Rewrap, t) => Some (Some (Sync, t))
  | OpRollback, Some _ => Some None
  | OpPoll, _ | OpMessage _ _, _ | OpPeer _ _, _ => Some v
  | _, _ => None
  end.

(** What holds of every manager that [new] made. *)
Record mig_inv m : Prop := {
  inv_current : mm_current m = None;
  inv_waiting : mm_waiting m = false;
  inv_phase : mm_state m ≠ MigActive Cutover;
  inv_next : mm_next m = None ↔ mm_state m = MigIdle;
  inv_files : files_rewrapped (mm_metrics m) = 0%N;
  inv_rollback : mc_auto_rollback (mm_config m) = true;
}.

Lemma mig_inv_new s w cov id now : mig_inv (MigrationManager_new s w cov id now).
Proof. by split. Qed.

Lemma mig_inv_coordinator c m : mig_inv m → mig_inv (set_mig_coordinator c m).
Proof. by intros []. Qed.

Lemma on_coordinator_frame {A} (f : M A) m : ∃ r c, on_coordinator f m = (r, set_mig_coordinator c m).
Proof.
  unfold on_coordinator, st_map_err, st_zoom. destruct (f (mm_coordinator m)) as [r c].
  by eexists _, c.
Qed.

Lemma initiate_refused now m : mig_inv m → mm_initiate_cutover now m = (Err MigInvalidState, m).
Proof.
  intros [Hc Hw Hp _ _ _]. unfold mm_initiate_cutover, lock_migration_state, st_bind at 1. rewrite Hw.
  rewrite st_bind_get. destruct (mm_state m) as [|[]]; try done. rewrite st_bind_lift. by rewrite Hc.
Qed.

Lemma finalize_refused now m : mig_inv m → finalize_migration now m = (Err MigInvalidState, m).
Proof.
  intros [Hc Hw Hp _ _ _]. unfold finalize_migration, lock_migration_state, st_bind at 1. rewrite Hw.
  rewrite st_bind_get. by destruct (mm_state m) as [|[]].
Qed.

Definition started (e : EpochState) (now : Z) m : MigrationManager S W :=
  let x := mm_metrics m in
  mkMigrationManager (mm_current m) (Some e) (MigActive Prepare) (mm_config m)
    (mkMigrationMetrics (Some now) (total_migration_time x) (files_rewrapped x)
       (mc_batch_size (mm_config m)) (phase_transitions x + 1) (completed_migrations x)
       (failed_migrations x)) (mm_coordinator m) (mm_waiting m).

Lemma start_eval e now m :
  mm_waiting m = false →
  start_migration e now m =
    if decide (network_connected (co_network (mm_coordinator m)) = Some false)
    then (Err (MigNetwork "Network connectivity required to start migration"), m)
    else match mm_state m with
         | MigIdle => (Ok tt, started e now m)
         | MigActive _ => (Err MigrationInProgress, m)
         end.
Proof.
  intros Hw. unfold start_migration. rewrite st_bind_get.
  destruct (network_connected _) as [[]|]; [|done|]; rewrite decide_False by done;
    unfold st_bind at 1, lock_migration_state; rewrite Hw; by destruct (mm_state m).
Qed.

Definition moved (p : MigrationPhase) m : MigrationManager S W := (move_to p m).2.

Lemma advance_eval now m :
  mig_inv m →
  advance_phase now m =
    match mm_state m with
    | MigActive Prepare => (Ok (Some tt), moved Rewrap m)
    | MigActive Rewrap => (Ok (Some tt), moved Sync m)
    | _ => (Err MigInvalidState, m)
    end.
Proof.
  intros Hi. unfold advance_phase, lock_migration_state, st_bind at 1. rewrite (inv_waiting m Hi).
  rewrite st_bind_get. destruct (mm_state m) as [|[]] eqn:Hs; try reflexivity.
  - by apply initiate_refused.
  - by destruct (inv_phase m Hi).
Qed.

Definition rolled_back m : MigrationManager S W :=
  let x := mm_metrics m in
  mkMigrationManager (mm_current m) None MigIdle (mm_config m)
    (mkMigrationMetrics (migration_start_time x) (total_migration_time x) (files_rewrapped x)
       (total_files x) (phase_transitions x) (completed_migrations x) (failed_migrations x + 1))
    (mm_coordinator m) (mm_waiting m).

Lemma rollback_eval m :
  mig_inv m →
  rollback_migration m =
    match mm_state m with MigIdle => (Err MigInvalidState, m) | _ => (Ok tt, rolled_back m) end.
Proof.
  intros Hi. unfold rollback_migration. rewrite st_bind_get. rewrite (inv_rollback m Hi). simpl.
  unfold st_bind at 1, lock_migration_state. rewrite (inv_waiting m Hi). by destruct (mm_state m).
Qed.

Lemma finish_Ok {A} (x : MM A) m : finish x m = (match (x m).1 with
  | Ok _ => Ok (Some tt) | Err e => Err e | Panic => Panic | Diverge => Diverge end, (x m).2).
Proof. unfold finish, st_bind. by destruct (x m) as [[] ?]. Qed.

(** One operation on such a manager: it stays such a manager, and the view moves as in
    the abstract machine, or the operation is refused and the view stays. *)
Definition follows (op : mig_op) m (r : res MigrationError (option unit)) m' : Prop :=
  mig_inv m' ∧ match r with Ok _ => phase_step (view m) op = Some (view m') | _ => view m' = view m end.

Lemma follows_refused op m e : mig_inv m → follows op m (Err e) m.
Proof. by split. Qed.

Lemma follows_coordinator op m r c :
  mig_inv m → phase_step (view m) op = Some (view m) → follows op m r (set_mig_coordinator c m).
Proof. intros Hi Hv. split; [by apply mig_inv_coordinator|]. by destruct r. Qed.

Lemma apply_mig_spec op now m :
  mig_inv m → follows op m (apply_mig op now m).1 (apply_mig op now m).2.
Proof.
  intros Hi. pose proof Hi as [Hc Hw Hp Hn Hf Hr].
  destruct op as [e| | | | | |msg sender|add k]; cbn [apply_mig].
  - rewrite finish_Ok, start_eval by done. case_decide; [by apply follows_refused|].
    destruct (mm_state m) eqn:Hs; [|by apply follows_refused]. split; [|by unfold view; rewrite Hs].
    by split.
  - rewrite advance_eval by done. destruct (mm_state m) as [|[]] eqn:Hs; try by apply follows_refused.
    + split; [by split; simpl; naive_solver|]. unfold view, get_target_epoch_id. rewrite Hs. simpl.
      destruct (mm_next m); [done|naive_solver].
    + split; [by split; simpl; naive_solver|]. unfold view, get_target_epoch_id. rewrite Hs. simpl.
      destruct (mm_next m); [done|naive_solver].
  - rewrite initiate_refused by done. by apply follows_refused.
  - rewrite finish_Ok, finalize_refused by done. by apply follows_refused.
  - rewrite finish_Ok, rollback_eval by done. destruct (mm_state m) eqn:Hs; [by apply follows_refused|].
    split; [by split|]. unfold view, get_target_epoch_id. rewrite Hs. simpl. destruct (mm_next m); [done|naive_solver].
  - unfold mm_poll. rewrite st_bind_get, Hw. by split.
  - rewrite finish_Ok. unfold mm_process_cutover_message.
    match goal with |- context [on_coordinator ?f m] => destruct (on_coordinator_frame f m) as (r & c & ->) end.
    by apply follows_coordinator.
  - rewrite finish_Ok. by apply follows_coordinator.
Qed.

Lemma run_mig_inv ops m : mig_inv m → mig_inv (run_mig ops m).
Proof.
  revert m. induction ops as [|[op now] ops IH]; intros m Hi; [done|]. cbn [run_mig foldl].
  apply IH. by apply apply_mig_spec.
Qed.

(** C39: The manager refines a machine of three phases: after any run of a new manager, each
    operation moves the phase and the target as the machine does, or is refused and
    leaves both as they are. *)
Theorem migration_refines_phases (s : S) (w : W) (cov : CoverageManager) (id : Ed25519KeyPair)
    (t now : Z) (ops : list (mig_op * Z)) (op : mig_op) :
  let m := run_mig ops (MigrationManager_new s w cov id t) in
  let m' := (apply_mig op now m).2 in
  match (apply_mig op now m).1 with
  | Ok _ => phase_step (view m) op = Some (view m')
  | Err _ => view m' = view m
  | _ => view m' = view m
  end.
Proof.
  intros m m'. destruct (apply_mig_spec op now m) as [_ H];
    [apply run_mig_inv, mig_inv_new|]. fold m' in H. by destruct (apply_mig op now m).1.
Qed.

(** A migration never ends: whatever is done with a new manager, it has no current
    epoch, so that the cutover is refused without effect and so is the end of the
    migration, the cutover phase is never reached, and the progress stays at zero. *)
Theorem migration_never_cuts_over (s : S) (w : W) (cov : CoverageManager) (id : Ed25519KeyPair)
    (t now : Z) (ops : list (mig_op * Z)) :
  let m := run_mig ops (MigrationManager_new s w cov id t) in
  mm_current m = None ∧ mm_state m ≠ MigActive Cutover
  ∧ mm_initiate_cutover now m = (Err MigInvalidState, m)
  ∧ finalize_migration now m = (Err MigInvalidState, m)
  ∧ pr_completion_percentage (get_progress m) = 0%N.
Proof.
  intros m. assert (mig_inv m) as Hi by apply run_mig_inv, mig_inv_new.
  split; [apply Hi|]. split; [apply Hi|]. split; [by apply initiate_refused|].
  split; [by apply finalize_refused|]. apply completion_zero, Hi.
Qed.

(** *** The end of a migration *)

Lemma on_mig_storage_eval {A} err (f : S → res StorageError A * S) m :
  on_mig_storage err f m =
    (map_err err (f (co_storage (mm_coordinator m))).1,
     set_mig_coordinator (set_storage (f (co_storage (mm_coordinator m))).2 (mm_coordinator m)) m).
Proof. unfold on_mig_storage. by destruct (f _). Qed.

Lemma deprecate_old_id o now e : epoch_id (deprecate_old o now e) = epoch_id e.
Proof.
  unfold deprecate_old, deprecate. destruct (status e) as [| | |target t| |], o as [id|]; try done.
  by destruct (negb (id =? target)%N).
Qed.

(** What the deletion leaves alone. *)
Definition same_migration m m' : Prop :=
  mm_next m' = mm_next m ∧ mm_state m' = mm_state m ∧ mm_waiting m' = mm_waiting m.

Lemma secure_delete_eval now m e :
  mm_current m = Some e →
  let old := wipe_epoch now (deprecate_old (epoch_id <$> mm_next m) now e) in
  secure_delete_old_epoch now m = persist_wiped (epoch_id e) old now (set_mig_epochs (Some old) (mm_next m) m).
Proof. intros Hc. unfold secure_delete_old_epoch. by rewrite st_bind_get, Hc. Qed.

Lemma persist_frame (Q : MigrationManager S W → Prop) id old now :
  (∀ c m, Q m → Q (set_mig_coordinator c m)) → keeps Q (persist_wiped id old now).
Proof.
  intros HQ. assert (∀ A err (f : S → res StorageError A * S), keeps Q (on_mig_storage err f)) as Hs.
  { intros A err f m HP. rewrite on_mig_storage_eval. by apply HQ. }
  unfold persist_wiped. keep_st; apply Hs.
Qed.

Lemma persist_stores `{!StorageLaws S} old now m m' :
  encryption_key old = zeros 32 → persist_wiped (epoch_id old) old now m = (Ok tt, m') →
  (∀ t, ∃ e', load_epoch_state (epoch_id old) t (co_storage (mm_coordinator m')) = Ok e'
     ∧ encryption_key e' = zeros 32)
  ∧ ∀ id t, id ≠ epoch_id old →
      load_epoch_state id t (co_storage (mm_coordinator m')) =
      load_epoch_state id t (co_storage (mm_coordinator m)).
Proof.
  intros Hz E. unfold persist_wiped in E.
  apply st_bind_Ok in E as (x & m1 & H1 & E). apply st_try_Ok in H1. rewrite on_mig_storage_eval in H1.
  destruct (store_epoch_keys (epoch_id old) zeroed_secrets (co_storage (mm_coordinator m))) as [r1 s1] eqn:Hk.
  apply pair_eq in H1 as [_ <-]. apply st_bind_Ok in E as ([] & m2 & H2 & E).
  rewrite on_mig_storage_eval in H2. simpl in H2.
  destruct (store_epoch_state old s1) as [r2 s2] eqn:Hs. apply pair_eq in H2 as [H2 <-].
  apply map_err_Ok in H2. simpl in H2. subst r2.
  apply st_bind_Ok in E as (loaded & m3 & H3 & E). rewrite on_mig_storage_eval in H3.
  apply pair_eq in H3 as [_ <-]. destruct (existsb _ _); [done|].
  unfold st_ret in E. apply pair_eq in E as [_ <-]. simpl. split.
  - intros t. destruct (load_store_same old t s1 s2 Hs) as (e' & Hl & _ & Hkey & _).
    exists e'. split; [done|]. by rewrite Hkey.
  - intros id t Hid. rewrite (load_store_other old t s1 _ s2 id Hs Hid).
    by apply (load_store_keys (epoch_id old) id zeroed_secrets t _ r1).
Qed.

(** The end of a migration whose cutover has completed: when it succeeds, the next
    epoch is the current one and the manager is idle, the old epoch is in the store with
    a key of zeros and no other epoch was touched; when it fails, the old key is gone
    from memory all the same and the migration stays in its last phase. *)
Theorem finalize_wipes_old_key `{!StorageLaws S} (now : Z) (m m' : MigrationManager S W)
    (e : EpochState) (r : res MigrationError unit) :
  mm_waiting m = false → mm_state m = MigActive Cutover →
  get_state (mm_coordinator m) = CutCompleted → mm_current m = Some e →
  finalize_migration now m = (r, m') →
  match r with
  | Ok _ =>
      mm_state m' = MigIdle ∧ mm_current m' = mm_next m ∧ is_Some (mm_next m) ∧ mm_next m' = None
      ∧ (∀ t, ∃ e', load_epoch_state (epoch_id e) t (co_storage (mm_coordinator m')) = Ok e'
           ∧ encryption_key e' = zeros 32)
      ∧ (∀ id t, id ≠ epoch_id e →
           load_epoch_state id t (co_storage (mm_coordinator m')) =
           load_epoch_state id t (co_storage (mm_coordinator m)))
  | _ =>
      mm_state m' = MigActive Cutover
      ∧ ∃ old, mm_current m' = Some old ∧ epoch_id old = epoch_id e ∧ encryption_key old = zeros 32
  end.
Proof.
  intros Hw Hs Hst Hc E. unfold finalize_migration, lock_migration_state, st_bind at 1 in E.
  rewrite Hw, st_bind_get, Hs, Hst in E. cbv zeta in E. rewrite bool_decide_true in E by done.
  cbn [negb] in E. unfold st_bind at 1 in E. rewrite (secure_delete_eval now m e Hc) in E.
  set (old := wipe_epoch now (deprecate_old (epoch_id <$> mm_next m) now e)) in *.
  assert (epoch_id old = epoch_id e) as Hid by apply deprecate_old_id.
  pose (Q (x : MigrationManager S W) := mm_state x = MigActive Cutover ∧ mm_current x = Some old ∧ mm_next x = mm_next m).
  assert (Q (persist_wiped (epoch_id e) old now (set_mig_epochs (Some old) (mm_next m) m)).2) as HQ.
  { apply persist_frame; [by intros|]. by split. }
  destruct (persist_wiped _ old now _) as [r1 m1] eqn:Hp. destruct HQ as (Q1 & Q2 & Q3); simpl in Q1, Q2, Q3.
  rewrite <-Hid in Hp. destruct r1 as [[]|e1| |].
  - destruct (persist_stores old now _ _ eq_refl Hp) as [Hz Ho]. rewrite Hid in Hz, Ho.
    rewrite st_bind_get, Q3 in E. destruct (mm_next m) as [next|].
    + apply pair_eq in E as [<- <-]. simpl. split_and!; done.
    + apply pair_eq in E as [<- <-]. eauto.
  - apply pair_eq in E as [<- <-]. eauto.
  - apply pair_eq in E as [<- <-]. eauto.
  - apply pair_eq in E as [<- <-]. eauto.
Qed.
End Runs.

(** ** A concrete manager *)

Definition toy_network_status : NetworkStatus (list PeerInfo * list (array 32 * NetworkMessage)) :=
  λ _, Some true.

#[local] Existing Instances toy_sha256 toy_ed25519 toy_ed25519_laws toy_entry_json toy_hex
  toy_operation_debug toy_cutover_json toy_storage_json toy_network toy_hash_order
  toy_hash_order_laws toy_percent toy_status_debug toy_network_status.

(** A manager at the end of its cutover, as no run of a new one reaches it. *)
Definition mig_at_end : MigrationManager MockStorage (list PeerInfo * list (array 32 * NetworkMessage)) :=
  mkMigrationManager (Some old_epoch) (Some new_epoch) (MigActive Cutover) MigrationConfig_default
    MigrationMetrics_default (set_state CutCompleted cut_started) false.

Lemma finalize_wipes_old_key_witness :
  ∃ m', finalize_migration 200 mig_at_end = (Ok tt, m')
    ∧ mm_current m' = Some new_epoch
    ∧ ∃ e', mock_load_epoch_state (epoch_id old_epoch) 300 (co_storage (mm_coordinator m')) = Ok e'
        ∧ encryption_key e' = zeros 32.
Proof.
  assert (∃ m', finalize_migration 200 mig_at_end = (Ok tt, m')) as [m' E]
    by (eexists; vm_compute; reflexivity).
  destruct (finalize_wipes_old_key 200 mig_at_end m' old_epoch (Ok tt) eq_refl eq_refl eq_refl eq_refl E)
    as (_ & Hc & _ & _ & Hz & _).
  exists m'. split; [exact E|]. split; [exact Hc|]. apply Hz.
Defined.

(** The phases of a migration, with the refusals at both ends. *)
Definition mig_fresh : MigrationManager MockStorage (list PeerInfo * list (array 32 * NetworkMessage)) :=
  MigrationManager_new MockStorage_new cut_net cov_manager (dev_pair 7) 0.
Example migration_phases :
  (view <$> [run_mig [(OpStart new_epoch, 1%Z)] mig_fresh;
             run_mig [(OpStart new_epoch, 1%Z); (OpAdvance, 2%Z); (OpAdvance, 3%Z); (OpAdvance, 4%Z)] mig_fresh;
             run_mig [(OpStart new_epoch, 1%Z); (OpRollback, 2%Z)] mig_fresh])
  = [Some (Prepare, epoch_id new_epoch); Some (Sync, epoch_id new_epoch); None].
Proof. reflexivity. Qed.
