(* ===== verification/EpochManager.v ===== *)
(** * Epoch manager ([crates/client/src/epoch/mod.rs])

    The facade of the epoch code: the migration manager, the welcome processor and the
    group update processor over one store, and the queries for epoch keys that file
    encryption uses.  The store and the network are the ones of the coordinator inside
    the migration manager.  The two parsers are parameters. *)

From Stdlib Require Import Strings.Byte.
From stdpp Require Import base tactics numbers sets list gmap strings pretty option sorting.
From S2P Require Import Prelude StateError Crypto Merkle Transparency Coverage HybridKem EpochState.
From S2P Require Import CutoverMessages FilePath Storage FileCache Welcome GroupUpdate Cutover Migration.
Open Scope hc_scope.
Open Scope hc_st_scope.

Record EpochManager (S W : Type) := mkEpochManager {
  em_migration : MigrationManager S W;
  em_welcome : WelcomeProcessor;
  em_update : GroupUpdateProcessor;
  em_current : option EpochState;
}.
Arguments mkEpochManager {S W}.
Arguments em_migration {S W}.
Arguments em_welcome {S W}.
Arguments em_update {S W}.
Arguments em_current {S W}.

(** [serde_json::from_slice] on the two messages. *)
Class EpochJson := {
  welcome_from_json : bytes → res string WelcomeMessage;
  update_from_json : bytes → res string GroupUpdateMessage;
}.

Section Manager.
Context {sha : Sha256} {ed : Ed25519} {ejson : EntryJson} {hex : Hex} {opdbg : OperationDebug}.
Context {cjson : CutoverJson} {pfmt : PercentFmt} {ho : HashOrder} {sdbg : StatusDebug}.
Context {wcodec : WelcomeCodec} {ucodec : UpdateCodec} {cdbg : CryptoDebug} {chrono : Chrono}.
Context {xc : X25519} {mk : MlKem} {hk : Hkdf} {aead : Aead} {emjson : EpochJson}.
Context {S W : Type} {store : Storage S} {net : Network W} {nst : NetworkStatus W}.

Abbreviation EM := (EpochManager S W).

Definition em_storage (em : EM) : S := co_storage (mm_coordinator (em_migration em)).
Definition set_em_storage (s : S) (em : EM) : EM :=
  let m := em_migration em in
  mkEpochManager (set_mig_coordinator (set_storage s (mm_coordinator m)) m) (em_welcome em)
    (em_update em) (em_current em).
Definition set_em_migration (m : MigrationManager S W) (em : EM) : EM :=
  mkEpochManager m (em_welcome em) (em_update em) (em_current em).
Definition set_em_current (e : option EpochState) (em : EM) : EM :=
  mkEpochManager (em_migration em) (em_welcome em) (em_update em) e.
Definition set_em_welcome (ps : WelcomeProcessor * S) (em : EM) : EM :=
  set_em_storage ps.2 (mkEpochManager (em_migration em) ps.1 (em_update em) (em_current em)).
Definition set_em_update (ps : GroupUpdateProcessor * S) (em : EM) : EM :=
  set_em_storage ps.2 (mkEpochManager (em_migration em) (em_welcome em) ps.1 (em_current em)).

(** [handles]: what [try_build_transparency_handles] found in the configuration. *)
Definition EpochManager_new (s : S) (w : W) (id : Ed25519KeyPair) (device_id : string)
    (handles : option (CoveragePublisher * CoverageTransparencyVerifier)) (now : Z)
  : res MigrationError EM :=
  let? signing_key := map_err (λ e, MigStorage ("Failed to create signing key: " +:+ CryptoError_display e))
                        (SigningKey_from_bytes (arr (sk_inner (kp_signing_key id)))) in
  let cov := new_with_signing_key signing_key in
  let cov := match handles with
             | Some (p, v) => with_transparency_verifier v (with_publisher p cov)
             | None => cov
             end in
  Ok (mkEpochManager (MigrationManager_new s w cov id now) (WelcomeProcessor_new id device_id)
        (GroupUpdateProcessor_new id) None).

(** A call of the migration manager. *)
Definition on_migration {A} (f : ST (MigrationManager S W) MigrationError A) : ST EM MigrationError A :=
  st_zoom em_migration set_em_migration f.

Definition em_start_migration (target : EpochState) (now : Z) : ST EM MigrationError unit :=
  let* em := st_get in
  match network_connected (co_network (mm_coordinator (em_migration em))) with
  | Some false => st_fail (MigNetwork "Network unavailable for migration start")
  | _ => on_migration (start_migration target now)
  end.

Definition migration_progress (em : EM) : MigrationProgress := get_progress (em_migration em).

Definition complete_migration (now : Z) : ST EM MigrationError unit :=
  do* on_migration (finalize_migration now);
  st_put (λ em, set_em_current (mm_current (em_migration em)) em).

Definition em_initiate_cutover (now : Z) : ST EM MigrationError (option unit) :=
  on_migration (mm_initiate_cutover now).
Definition em_process_cutover_message (msg : CutoverMessage) (sender : VerifyingKey) (now : Z)
  : ST EM MigrationError unit :=
  on_migration (mm_process_cutover_message msg sender now).

Definition em_get_epoch_key (id : N) (em : EM) : option Key :=
  let stored := match load_epoch_state_data id (em_storage em) with
                | Ok (Some d) => key_of (ed_encrypted_key d)
                | _ => None
                end in
  match em_current em with
  | Some e => if (epoch_id e =? id)%N then key_of (arr (encryption_key e)) else stored
  | None => stored
  end.

Definition is_epoch_key_verified (id : N) (em : EM) : bool :=
  let stored := match load_epoch_state_data id (em_storage em) with
                | Ok (Some d) => is_verified (ed_key_source d)
                | _ => false
                end in
  match em_current em with
  | Some e => if (epoch_id e =? id)%N then is_verified (key_source e) else stored
  | None => stored
  end.

Definition em_is_migration_active (em : EM) : bool := is_migration_active (em_migration em).
Definition get_migration_target_epoch (em : EM) : option N := get_target_epoch_id (em_migration em).

Definition em_process_welcome (data : bytes) (sk : HybridSecretKey) (now : Z)
  : ST EM WelcomeError WelcomeResult :=
  let* w := st_lift (map_err (λ e, WInvalidMessage ("Failed to parse Welcome message: " +:+ e))
                       (welcome_from_json data)) in
  st_zoom (λ em, (em_welcome em, em_storage em)) set_em_welcome
    (process_welcome sk WelcomeConfig_default now w).

Definition em_process_group_update (data : bytes) (sk : HybridSecretKey) (now : Z)
  : ST EM GroupUpdateError unit :=
  let* u := st_lift (map_err (λ e, GInvalidUpdate ("Failed to parse GroupUpdate: " +:+ e))
                       (update_from_json data)) in
  let* _ := st_zoom (λ em, (em_update em, em_storage em)) set_em_update
              (process_group_update sk GroupUpdateConfig_default now u) in
  st_ret tt.
End Manager.

(** ** Runs of a manager over the in-memory store *)

Inductive em_op :=
| EmMigration (op : mig_op)
| EmComplete
| EmWelcome (data : bytes) (sk : HybridSecretKey)
| EmUpdate (data : bytes) (sk : HybridSecretKey).

(** Everything but the messages of the cutover protocol, whose coordinator stores epochs
    on its own. *)
Definition quiet (o : em_op * Z) : Prop :=
  match o.1 with EmMigration (OpMessage _ _) => False | _ => True end.

Section Runs.
Context {sha : Sha256} {ed : Ed25519} {ejson : EntryJson} {hex : Hex} {opdbg : OperationDebug}.
Context {cjson : CutoverJson} {pfmt : PercentFmt} {ho : HashOrder} {hol : HashOrderLaws} {sdbg : StatusDebug}.
Context {wcodec : WelcomeCodec} {ucodec : UpdateCodec} {cdbg : CryptoDebug} {chrono : Chrono}.
Context {xc : X25519} {mk : MlKem} {hk : Hkdf} {aead : Aead} {emjson : EpochJson} {json : StorageJson}.
Context {W : Type} {net : Network W} {nst : NetworkStatus W}.
Implicit Types em : EpochManager MockStorage W.

Definition apply_em (o : em_op * Z) em : EpochManager MockStorage W :=
  let '(op, now) := o in
  match op with
  | EmMigration (OpStart e) => (em_start_migration e now em).2
  | EmMigration op => (on_migration (apply_mig op now) em).2
  | EmComplete => (complete_migration now em).2
  | EmWelcome data sk => (em_process_welcome data sk now em).2
  | EmUpdate data sk => (em_process_group_update data sk now em).2
  end.
Definition run_em (ops : list (em_op * Z)) em : EpochManager MockStorage W :=
  foldl (λ em o, apply_em o em) em ops.

(** A manager that [new] made never has a current epoch. *)
Definition em_bare em : Prop := em_current em = None ∧ mig_inv (em_migration em).

Lemma em_bare_new s w id dev handles t em : EpochManager_new s w id dev handles t = Ok em → em_bare em.
Proof.
  unfold EpochManager_new. destruct (SigningKey_from_bytes _); intros E; [|done..].
  apply Ok_inj in E. subst em. split; [done|]. apply mig_inv_new.
Qed.

Lemma em_bare_apply o em : em_bare em → em_bare (apply_em o em).
Proof.
  destruct o as [op now]. intros [Hc Hi]. destruct op as [op| |data sk|data sk]; cbn [apply_em].
  - assert (em_bare (on_migration (apply_mig op now) em).2) as Hon.
    { unfold on_migration, st_zoom. pose proof (apply_mig_spec op now _ Hi) as [H _].
      destruct (apply_mig op now (em_migration em)). by split. }
    destruct op as [e| | | | | | |]; try done. unfold em_start_migration. rewrite st_bind_get.
    destruct (network_connected _) as [[]|]; [|done|];
      unfold on_migration, st_zoom in *; cbn [apply_mig] in Hon; rewrite finish_Ok in Hon;
      by destruct (start_migration e now (em_migration em)).
  - unfold complete_migration, st_bind, on_migration, st_zoom. rewrite finalize_refused by done. by destruct em.
  - unfold em_process_welcome. rewrite st_bind_lift. destruct (map_err _ _); [|done..]. unfold st_zoom.
    destruct (process_welcome _ _ _ _ _) as [r [p s]]. split; [done|]. by apply mig_inv_coordinator.
  - unfold em_process_group_update. rewrite st_bind_lift. destruct (map_err _ _); [|done..].
    unfold st_zoom, st_bind at 1. destruct (process_group_update _ _ _ _ _) as [r [p s]].
    assert (em_bare (set_em_update (p, s) em)) by (split; [done|]; by apply mig_inv_coordinator).
    by destruct r.
Qed.

Lemma em_bare_run ops em : em_bare em → em_bare (run_em ops em).
Proof.
  revert em. induction ops as [|o ops IH]; intros em Hb; [done|]. cbn [run_em foldl].
  apply IH. by apply em_bare_apply.
Qed.

(** A manager without a current epoch over a store that has the given keys. *)
Definition em_ok (known : gmap N (array 32)) em : Prop :=
  em_current em = None ∧ mig_inv (em_migration em) ∧ holds_keys known (em_storage em).

Lemma em_ok_new s w id dev handles t em :
  epochs_keyed s → EpochManager_new s w id dev handles t = Ok em → em_ok ∅ em.
Proof.
  intros Hs. unfold EpochManager_new. destruct (SigningKey_from_bytes _); intros E; [|done..].
  apply Ok_inj in E. subst em. split; [done|]. split; [apply mig_inv_new|]. by apply holds_keys_none.
Qed.

Lemma em_ok_welcome known data sk now em :
  em_ok known em → em_ok known (em_process_welcome data sk now em).2.
Proof.
  intros (Hc & Hi & Hk). unfold em_process_welcome. rewrite st_bind_lift.
  destruct (map_err _ _) as [w|e| |]; [|done..]. unfold st_zoom.
  pose proof (keeps_process known sk WelcomeConfig_default now w (em_welcome em, em_storage em) Hk) as H.
  destruct (process_welcome _ _ _ _ _) as [r [p s]]. split; [done|].
  split; [by apply mig_inv_coordinator|]. exact H.
Qed.

Lemma em_ok_update known data sk now em :
  em_ok known em → em_ok known (em_process_group_update data sk now em).2.
Proof using hol.
  intros (Hc & Hi & Hk). unfold em_process_group_update. rewrite st_bind_lift.
  destruct (map_err _ _) as [u|e| |]; [|done..]. unfold st_zoom, st_bind at 1.
  pose proof (update_keeps_keys known sk GroupUpdateConfig_default now u (em_update em, em_storage em) Hk) as H.
  destruct (process_group_update _ _ _ _ _) as [r [p s]].
  assert (em_ok known (set_em_update (p, s) em)).
  { split; [done|]. split; [by apply mig_inv_coordinator|]. exact H. }
  by destruct r.
Qed.

(** Operations of the migration manager leave the store alone, messages apart. *)
Lemma quiet_storage op now (m : MigrationManager MockStorage W) :
  quiet (EmMigration op, now) → mig_inv m →
  co_storage (mm_coordinator (apply_mig op now m).2) = co_storage (mm_coordinator m).
Proof.
  intros Hq Hi. destruct op as [e| | | | | |msg sender|add k]; cbn [apply_mig]; [..|done|].
  - rewrite finish_Ok, start_eval by apply Hi. case_decide; [done|]. by destruct (mm_state m).
  - rewrite advance_eval by done. by destruct (mm_state m) as [|[]].
  - by rewrite initiate_refused.
  - by rewrite finish_Ok, finalize_refused.
  - rewrite finish_Ok, rollback_eval by done. by destruct (mm_state m).
  - unfold mm_poll. by rewrite st_bind_get, (inv_waiting m Hi).
  - rewrite finish_Ok. simpl. by destruct add.
Qed.

Lemma em_ok_migration known op now em :
  quiet (EmMigration op, now) → em_ok known em →
  em_ok known (set_em_migration (apply_mig op now (em_migration em)).2 em).
Proof.
  intros Hq (Hc & Hi & Hk). split; [done|]. split; [by apply apply_mig_spec|].
  unfold em_storage. simpl. by rewrite quiet_storage.
Qed.

Lemma em_ok_apply known o em : quiet o → em_ok known em → em_ok known (apply_em o em).
Proof using hol.
  destruct o as [op now]. intros Hq Hok. destruct op as [op| |data sk|data sk]; cbn [apply_em].
  - pose proof (em_ok_migration known op now em Hq Hok) as H.
    assert ((on_migration (apply_mig op now) em).2 = set_em_migration (apply_mig op now (em_migration em)).2 em) as Hon.
    { unfold on_migration, st_zoom. by destruct (apply_mig op now (em_migration em)). }
    destruct op as [e| | | | | | |]; rewrite ?Hon; try done.
    unfold em_start_migration. rewrite st_bind_get.
    destruct (network_connected _) as [[]|]; [|done|];
      unfold on_migration, st_zoom; cbn [apply_mig] in H; rewrite finish_Ok in H; cbn [snd] in H;
      by destruct (start_migration e now (em_migration em)).
  - destruct Hok as (Hc & Hi & Hk). unfold complete_migration, st_bind, on_migration, st_zoom.
    rewrite finalize_refused by done. by destruct em.
  - by apply em_ok_welcome.
  - by apply em_ok_update.
Qed.

Lemma em_ok_run known ops em : Forall quiet ops → em_ok known em → em_ok known (run_em ops em).
Proof using hol.
  intros Hq. revert em. induction Hq as [|o ops Ho Hq IH]; intros em Hok; [done|]. cbn [run_em foldl].
  apply IH. by apply em_ok_apply.
Qed.

Lemma em_ok_key known em id k : em_ok known em → known !! id = Some k → em_get_epoch_key id em = Some (mkKey k).
Proof.
  intros (Hc & _ & _ & Hk) Hid. apply Hk in Hid. unfold em_get_epoch_key. rewrite Hc. simpl.
  unfold stored_key in Hid. unfold mock_load_epoch_state_data. destruct (epoch_states _ !! id) as [d|]; [|done].
  simpl in Hid. unfold key_of, Key_from_bytes, AEAD_KEY_LEN. by rewrite Hid.
Qed.

End Runs.

(** ** A concrete manager *)

Definition toy_epoch_json : EpochJson := {|
  welcome_from_json := λ _, Ok sample_welcome;
  update_from_json := λ _, Ok migrate_update;
|}.

#[local] Existing Instances toy_sha256 toy_ed25519 toy_ed25519_laws toy_entry_json toy_hex
  toy_operation_debug toy_cutover_json toy_storage_json toy_network toy_hash_order
  toy_hash_order_laws toy_percent toy_status_debug toy_network_status toy_welcome_codec
  toy_update_codec toy_crypto_debug toy_chrono toy_x25519 toy_mlkem toy_hkdf toy_aead toy_epoch_json.

Definition phone_pair : Ed25519KeyPair :=
  mkEd25519KeyPair (mkSigningKey (num_array 32 2)) (SigningKey_verifying_key (mkSigningKey (num_array 32 2))).
Definition phone_ops : list (em_op * Z) :=
  [(EmMigration (OpStart new_epoch), 1%Z); (EmMigration OpAdvance, 2%Z)].
Definition later_ops : list (em_op * Z) :=
  [(EmUpdate [] (hkp_secret invitation), at_1060); (EmComplete, at_1060);
   (EmWelcome [] (hkp_secret invitation), at_1060)].

Definition phone_manager := EpochManager_new store_1 cut_net phone_pair "phone" None 0.
Definition phone_welcomed : option (res WelcomeError WelcomeResult * EpochManager MockStorage _) :=
  match phone_manager with
  | Ok em => Some (em_process_welcome [] (hkp_secret invitation) at_1060 (run_em phone_ops em))
  | _ => None
  end.
Definition activated (x : option (res WelcomeError WelcomeResult * EpochManager MockStorage
    (list PeerInfo * list (array 32 * NetworkMessage)))) : bool :=
  match x with Some (Ok r, _) => member_activated r | _ => false end.

