(* ===== verification/FileContent.v ===== *)
(** * File content ([crates/client/src/file/encrypt.rs],
      [crates/client/src/file/decrypt.rs])

    Wrapping of file keys, encryption of a file in one record or in fixed-size
    chunks, and the decryption of both.  Random nonces are arguments.  A reader
    is the list of what its successive calls of [read] return, a writer a
    function; on 64-bit targets [usize] and [u64] convert without loss. *)

From Stdlib Require Import Strings.Byte.
From stdpp Require Import base tactics numbers sets list strings pretty option.
From S2P Require Import Prelude StateError Crypto FilePath.
Open Scope hc_scope.

Definition MAX_CONTENT_CHUNK_SIZE : N := 64 * 1024 * 1024.
Definition MAX_IN_MEMORY_PLAINTEXT_BYTES : N := 256 * 1024 * 1024.
Definition CHUNKED_HEADER_VERSION : N := 2.
Definition AEAD_TAG_SIZE : N := 16.

(** Storage errors are carried by their text. *)
Inductive EncryptionError :=
| NoEpochAvailable
| EpochKeyUnavailable (msg : string)
| KeyGenerationFailure (msg : string)
| EncEncryptionFailure (msg : string)
| CoverageUpdateFailure (msg : string)
| EncStorage (msg : string)
| EncCrypto (msg : string).

Definition EncryptionError_display (e : EncryptionError) : string :=
  match e with
  | NoEpochAvailable => "No suitable epoch available for encryption"
  | EpochKeyUnavailable msg => "Epoch key unavailable: " +:+ msg
  | KeyGenerationFailure msg => "File key generation failed: " +:+ msg
  | EncEncryptionFailure msg => "Encryption operation failed: " +:+ msg
  | CoverageUpdateFailure msg => "Coverage update failed: " +:+ msg
  | EncStorage msg => "Storage operation failed: " +:+ msg
  | EncCrypto msg => "Crypto operation failed: " +:+ msg
  end.

Inductive DecryptionError :=
| FileNotFound (msg : string)
| InvalidMetadata (msg : string)
| KeyUnwrappingFailure (msg : string)
| DecDecryptionFailure (msg : string)
| IntegrityCheckFailure (msg : string)
| NoValidEpochKey (msg : string)
| DecStorage (msg : string)
| DecCrypto (msg : string).

Record FileEncryptionMetadata := mkFileEncryptionMetadata {
  fm_file_id : string;
  fm_file_path : string;
  fm_group_id : option Uuid;
  fm_epoch_id : N;
  fm_header_version : N;
  fm_wrapped_file_key : bytes;
  fm_key_wrap_nonce : bytes;
  fm_key_wrap_aad_hash : bytes;
  fm_content_nonce : bytes;
  fm_content_chunk_size : option N;
  fm_aad : bytes;
  fm_encrypted_at : Z;
  fm_original_size : N;
  fm_content_hash : bytes;
  fm_algorithm : string;
  fm_file_size : N;
  fm_integrity_hash : array 32;
}.

(** ** Chunks *)

Definition xor_byte (a b : byte) : byte := byte_of_N (N.lxor (Byte.to_N a) (Byte.to_N b)).

Definition chunk_nonce_bytes (base_nonce : array 12) (chunk_index : N) : bytes :=
  take 4 (arr base_nonce) ++ zip_with xor_byte (drop 4 (arr base_nonce)) (le_bytes 8 chunk_index).

Lemma chunk_nonce_length base i : length (chunk_nonce_bytes base i) = 12.
Proof.
  unfold chunk_nonce_bytes. rewrite length_app, length_zip_with, length_take, length_drop.
  rewrite le_bytes_length, arr_length. done.
Qed.

Definition derive_chunk_nonce (base_nonce : array 12) (chunk_index : N) : array 12 :=
  dexist (chunk_nonce_bytes base_nonce chunk_index) (chunk_nonce_length base_nonce chunk_index).

Definition build_chunk_aad (file_id : string) (chunk_index : N) : bytes :=
  bytes_of file_id ++ le_bytes 8 chunk_index.

Definition bad_chunk_size (chunk_size : N) : bool :=
  (chunk_size =? 0)%N || (MAX_CONTENT_CHUNK_SIZE <? chunk_size)%N.
Definition chunk_size_error : string := "chunk_size must be between 1 and 64 MiB".

Definition chunked_encrypted_size (content_size chunk_size : N) : res EncryptionError N :=
  let overflow := EncEncryptionFailure "chunked size overflow" in
  if bad_chunk_size chunk_size then Err (EncEncryptionFailure chunk_size_error)
  else
    let? padded := ok_or (u64_checked_add content_size (chunk_size - 1)) overflow in
    let chunks := (padded / chunk_size)%N in
    let? overhead := ok_or (u64_checked_mul chunks AEAD_TAG_SIZE) overflow in
    ok_or (u64_checked_add content_size overhead) overflow.

(** ** Wrapping of file keys *)

Section Wrap.
Context {sha : Sha256} {aead : Aead} {hkdf : Hkdf}.

(** The bytes hashed by [build_wrap_aad]. *)
Definition wrap_aad_msg (file_id label : string) (group_id : option Uuid) (epoch_id header_version : N)
  : bytes :=
  bytes_of "dek-wrap:v1:" ++ bytes_of file_id ++ bytes_of label
    ++ from_option arr [] group_id ++ le_bytes 8 epoch_id ++ le_bytes 4 header_version.

Definition build_wrap_aad (file_id normalized_file_path : string) (group_id : option Uuid)
    (epoch_id header_version : N) : bytes :=
  arr (sha256 (wrap_aad_msg file_id (aad_label_from_path normalized_file_path) group_id
                 epoch_id header_version)).

Definition hash_wrap_aad (wrap_aad : bytes) : bytes := arr (sha256 wrap_aad).

Definition create_header_aad (file_id : string) (epoch_id header_version : N) : bytes :=
  arr (sha256 (bytes_of "dek-wrap:v1:" ++ bytes_of file_id ++ le_bytes 8 epoch_id
                 ++ le_bytes 4 header_version)).

Definition wrap_file_key (nonce_bytes : array 12) (file_key kek : Key) (wrap_aad : bytes)
  : res EncryptionError (bytes * bytes) :=
  let? nonce := map_err (λ e, EncEncryptionFailure ("Failed to create nonce: "
                  +:+ CryptoError_display e)) (Nonce_from_bytes (arr nonce_bytes)) in
  let? wrapped := map_err (λ e, EncEncryptionFailure ("Key wrapping failed: "
                    +:+ CryptoError_display e))
                    (seal kek nonce FileData wrap_aad (arr (key_bytes file_key))) in
  Ok (wrapped, arr nonce_bytes).

Definition unwrap_file_key (m : FileEncryptionMetadata) (epoch_key : Key)
  : res DecryptionError Key :=
  let fail what (e : CryptoError) := KeyUnwrappingFailure (what +:+ CryptoError_display e) in
  let wrap_aad := build_wrap_aad (fm_file_id m) (fm_file_path m) (fm_group_id m) (fm_epoch_id m)
                    (fm_header_version m) in
  if decide (hash_wrap_aad wrap_aad ≠ fm_key_wrap_aad_hash m) then
    Err (KeyUnwrappingFailure "Key wrap AAD hash mismatch")
  else
    let? nonce := map_err (fail "Invalid nonce: ") (Nonce_from_bytes (fm_key_wrap_nonce m)) in
    let? kek_bytes := map_err (fail "HKDF failed: ")
                        (hkdf_expand (arr (key_bytes epoch_key)) KeyWrapping 32) in
    let? kek := map_err (fail "Invalid KEK: ") (Key_from_bytes kek_bytes) in
    let? file_key_bytes := map_err (fail "Key unwrapping failed: ")
                             (open kek nonce FileData wrap_aad (fm_wrapped_file_key m)) in
    map_err (fail "Invalid unwrapped key: ") (Key_from_bytes file_key_bytes).
End Wrap.

(** ** Content *)

Section Content.
Context {sha : Sha256} {aead : Aead}.

Definition encrypt_content (nonce_bytes : array 12) (content : bytes) (file_key : Key)
    (file_id : string) : res EncryptionError (bytes * bytes) :=
  if (MAX_IN_MEMORY_PLAINTEXT_BYTES <? N.of_nat (length content))%N then
    Err (EncEncryptionFailure
           "Plaintext exceeds the 256 MiB in-memory limit; use chunked encryption")
  else
    let? nonce := map_err (λ e, EncEncryptionFailure ("Failed to create content nonce: "
                    +:+ CryptoError_display e)) (Nonce_from_bytes (arr nonce_bytes)) in
    let? encrypted := map_err (λ e, EncEncryptionFailure ("Content encryption failed: "
                        +:+ CryptoError_display e))
                        (seal file_key nonce FileData (bytes_of file_id) content) in
    Ok (encrypted, arr nonce_bytes).

(** One chunk: its nonce, its AAD and its ciphertext. *)
Definition seal_chunk (file_key : Key) (file_id : string) (base_nonce : array 12)
    (chunk_index : N) (chunk : bytes) : res EncryptionError bytes :=
  let? nonce := map_err (λ e, EncEncryptionFailure ("Invalid chunk nonce: "
                  +:+ CryptoError_display e))
                  (Nonce_from_bytes (arr (derive_chunk_nonce base_nonce chunk_index))) in
  map_err (λ e, EncEncryptionFailure ("Chunk encryption failed: " +:+ CryptoError_display e))
    (seal file_key nonce FileData (build_chunk_aad file_id chunk_index) chunk).

Section Stream.
Context {W : Type} (write_all : bytes → W → res string unit * W).

(** The loop: [hashed] is what the hasher has been fed.  The writer is returned on
    every path. *)
Fixpoint encrypt_loop (input : list (res string bytes)) (output : W) (file_key : Key)
    (file_id : string) (base_nonce : array 12) (total_read chunk_index : N) (hashed : bytes)
  : res EncryptionError (N * array 32) * W :=
  match input with
  | [] | Ok [] :: _ => (Ok (total_read, sha256 hashed), output)
  | Err e :: _ => (Err (EncEncryptionFailure ("Failed to read plaintext: " +:+ e)), output)
  | Panic :: _ => (Panic, output)
  | Diverge :: _ => (Diverge, output)
  | Ok chunk :: input =>
      match seal_chunk file_key file_id base_nonce chunk_index chunk with
      | Ok encrypted =>
          match write_all encrypted output with
          | (Ok _, output) =>
              encrypt_loop input output file_key file_id base_nonce
                (u64_wrap (total_read + N.of_nat (length chunk))) (u64_wrap (chunk_index + 1))
                (hashed ++ chunk)
          | (Err e, output) =>
              (Err (EncEncryptionFailure ("Failed to write ciphertext: " +:+ e)), output)
          | (Panic, output) => (Panic, output)
          | (Diverge, output) => (Diverge, output)
          end
      | Err e => (Err e, output)
      | Panic => (Panic, output)
      | Diverge => (Diverge, output)
      end
  end.

Definition encrypt_content_chunked (input : list (res string bytes)) (output : W) (file_key : Key)
    (file_id : string) (base_nonce : array 12) (chunk_size : N)
  : res EncryptionError (N * array 32) * W :=
  if bad_chunk_size chunk_size then (Err (EncEncryptionFailure chunk_size_error), output)
  else encrypt_loop input output file_key file_id base_nonce 0 0 [].
End Stream.

(** [Vec<u8>] as a writer. *)
Definition write_vec (b out : bytes) : res string unit * bytes := (Ok tt, out ++ b).

(** Whether [try_reserve_exact] finds the memory. *)
Context (can_reserve : N → bool).

(** The loop of [decrypt_content_chunked] on the plaintext bytes that remain. *)
Fixpoint decrypt_loop (fuel : nat) (encrypted : bytes) (file_key : Key) (file_id : string)
    (base_nonce : array 12) (chunk_size offset remaining chunk_index : N) (output : bytes)
  : res DecryptionError (N * bytes) :=
  if (remaining =? 0)%N then Ok (offset, output)
  else
    match fuel with
    | O => Diverge
    | S fuel =>
        let plain_len := N.min chunk_size remaining in
        let? cipher_len := ok_or (u64_checked_add plain_len AEAD_TAG_SIZE)
                             (DecDecryptionFailure "Chunk length overflows") in
        let? next := ok_or (u64_checked_add offset cipher_len)
                       (DecDecryptionFailure "Ciphertext offset overflows") in
        if (N.of_nat (length encrypted) <? next)%N then
          Err (DecDecryptionFailure "Chunked ciphertext truncated")
        else
          let chunk_cipher := take (N.to_nat (next - offset)) (drop (N.to_nat offset) encrypted) in
          let? nonce := map_err (λ e, DecDecryptionFailure ("Invalid chunk nonce: "
                          +:+ CryptoError_display e))
                          (Nonce_from_bytes (arr (derive_chunk_nonce base_nonce chunk_index))) in
          let? plaintext := map_err (λ e, DecDecryptionFailure ("Chunk decrypt failed: "
                              +:+ CryptoError_display e))
                              (open file_key nonce FileData (build_chunk_aad file_id chunk_index)
                                 chunk_cipher) in
          decrypt_loop fuel encrypted file_key file_id base_nonce chunk_size next
            (remaining - plain_len) (u64_wrap (chunk_index + 1)) (output ++ plaintext)
    end.

Definition decrypt_content_chunked (encrypted : bytes) (file_key : Key)
    (m : FileEncryptionMetadata) (chunk_size : N) : res DecryptionError bytes :=
  if bad_chunk_size chunk_size then Err (DecDecryptionFailure chunk_size_error)
  else
    let? expected := map_err (λ e, DecDecryptionFailure (EncryptionError_display e))
                       (chunked_encrypted_size (fm_file_size m) chunk_size) in
    if decide (N.of_nat (length encrypted) ≠ expected) then
      Err (DecDecryptionFailure "Chunked ciphertext size mismatch")
    else
      match array_of 12 (fm_content_nonce m) with
      | None => Err (DecDecryptionFailure "Invalid content nonce length")
      | Some base_nonce =>
          let total_size := fm_file_size m in
          if negb (can_reserve total_size) then
            Err (DecDecryptionFailure "Unable to reserve plaintext")
          else
            let? oo := decrypt_loop (N.to_nat total_size) encrypted file_key (fm_file_id m)
                         base_nonce chunk_size 0 total_size 0 [] in
            if decide (oo.1 ≠ N.of_nat (length encrypted)) then
              Err (DecDecryptionFailure "Chunked ciphertext size mismatch")
            else Ok oo.2
      end.

Definition decrypt_content (encrypted : bytes) (file_key : Key) (m : FileEncryptionMetadata)
  : res DecryptionError bytes :=
  if (MAX_IN_MEMORY_PLAINTEXT_BYTES <? fm_file_size m)%N then
    Err (DecDecryptionFailure "Plaintext exceeds the 256 MiB in-memory limit")
  else
    match fm_content_chunk_size m with
    | Some chunk_size => decrypt_content_chunked encrypted file_key m chunk_size
    | None =>
        if (MAX_IN_MEMORY_PLAINTEXT_BYTES + AEAD_TAG_SIZE <? N.of_nat (length encrypted))%N then
          Err (DecDecryptionFailure "Single-record ciphertext exceeds the 256 MiB in-memory limit")
        else
          let? _ :=
            (if (3 <=? fm_header_version m)%N then
               let? expected := ok_or (u64_checked_add (fm_original_size m) AEAD_TAG_SIZE)
                                  (DecDecryptionFailure "Ciphertext size overflow") in
               if decide (N.of_nat (length encrypted) ≠ expected)
               then Err (DecDecryptionFailure "Ciphertext size mismatch")
               else Ok tt
             else Ok tt) in
          let? nonce := map_err (λ e, DecDecryptionFailure ("Invalid content nonce: "
                          +:+ CryptoError_display e)) (Nonce_from_bytes (fm_content_nonce m)) in
          map_err (λ e, DecDecryptionFailure ("Content decryption failed: "
                     +:+ CryptoError_display e))
            (open file_key nonce FileData (bytes_of (fm_file_id m)) encrypted)
    end.

Definition verify_file_integrity (content : bytes) (m : FileEncryptionMetadata) : bool :=
  bool_decide (sha256 content = fm_integrity_hash m).
End Content.

(** ** Nonces *)

Lemma lxor_byte_lt a b : (N.lxor (Byte.to_N a) (Byte.to_N b) < 256)%N.
Proof.
  pose proof (byte_to_N_lt a). pose proof (byte_to_N_lt b).
  destruct (N.eq_0_gt_0_cases (N.lxor (Byte.to_N a) (Byte.to_N b))) as [->|Hpos]; [lia|].
  apply (N.log2_lt_pow2 _ 8 Hpos). eapply N.le_lt_trans; [apply N.log2_lxor|].
  assert (∀ x, (x < 256)%N → (N.log2 x < 8)%N) as Hlog.
  { intros x Hx. destruct (N.eq_0_gt_0_cases x) as [->|Hx0]; [done|].
    by apply N.log2_lt_pow2. }
  apply N.max_lub_lt; auto.
Qed.

Lemma xor_byte_cancel a b : xor_byte a (xor_byte a b) = b.
Proof.
  unfold xor_byte at 1. unfold xor_byte. rewrite to_N_byte_of_N, N.mod_small by apply lxor_byte_lt.
  rewrite <-N.lxor_assoc, N.lxor_nilpotent, N.lxor_0_l. apply byte_of_to_N.
Qed.
Lemma xor_byte_comm a b : xor_byte a b = xor_byte b a.
Proof. unfold xor_byte. by rewrite N.lxor_comm. Qed.

Lemma zip_xor_inj (base l1 l2 : bytes) :
  length l1 = length base → length l2 = length base →
  zip_with xor_byte base l1 = zip_with xor_byte base l2 → l1 = l2.
Proof.
  revert l1 l2. induction base as [|b base IH]; intros [|x l1] [|y l2] H1 H2; try done.
  cbn. intros E. injection E as E1 E2. f_equal; [|apply IH; auto].
  by rewrite <-(xor_byte_cancel b x), E1, xor_byte_cancel.
Qed.

Lemma derive_chunk_nonce_inj base i j :
  (i < U64)%N → (j < U64)%N → derive_chunk_nonce base i = derive_chunk_nonce base j → i = j.
Proof.
  intros Hi Hj E. apply (f_equal arr) in E. cbn in E. unfold chunk_nonce_bytes in E.
  apply app_split_eq in E as [_ E]; [|done].
  apply zip_xor_inj in E; [|by rewrite le_bytes_length, length_drop, arr_length..].
  rewrite U64_pow in *. by apply le_bytes_inj in E.
Qed.

Lemma derive_chunk_nonce_base base base' i :
  derive_chunk_nonce base i = derive_chunk_nonce base' i → base = base'.
Proof.
  intros E. apply (f_equal arr) in E. cbn in E. unfold chunk_nonce_bytes in E.
  apply app_split_eq in E as [E1 E2]; [|by rewrite !length_take, !arr_length].
  rewrite <-!(zip_with_flip xor_byte) in E2.
  assert (drop 4 (arr base) = drop 4 (arr base')) as E3.
  { apply (zip_xor_inj (le_bytes 8 i)); [by rewrite le_bytes_length, length_drop, arr_length..|].
    etrans; [|etrans; [apply E2|]]; apply zip_with_ext; auto using xor_byte_comm. }
  apply arr_inj. rewrite <-(take_drop 4 (arr base)), <-(take_drop 4 (arr base')). by f_equal.
Qed.

Lemma build_chunk_aad_inj f1 f2 i j :
  (i < U64)%N → (j < U64)%N → build_chunk_aad f1 i = build_chunk_aad f2 j → f1 = f2 ∧ i = j.
Proof.
  unfold build_chunk_aad. intros Hi Hj E. apply app_split_eq_r in E as [E1 E2];
    [|by rewrite !le_bytes_length].
  rewrite U64_pow in *. split; [by apply bytes_of_inj|by apply le_bytes_inj in E2].
Qed.

(** No nonce is used twice in a file: the nonces of two chunks with different
    indices differ, and so does what the tag authenticates with them. *)
Theorem chunk_nonces_distinct (base : array 12) (file_id : string) (i j : N) :
  (i < U64)%N → (j < U64)%N → i ≠ j →
  derive_chunk_nonce base i ≠ derive_chunk_nonce base j
  ∧ build_chunk_aad file_id i ≠ build_chunk_aad file_id j.
Proof.
  intros Hi Hj Hne. split; intros E; apply Hne.
  - by apply derive_chunk_nonce_inj in E.
  - by apply build_chunk_aad_inj in E as [_ E].
Qed.

(** ** Sizes *)

(** The size of a chunked ciphertext is the content plus one 16-byte tag per
    chunk, the last of which may be partial, or an error; it never wraps. *)
Lemma chunked_size_exact (n k s : N) :
  chunked_encrypted_size n k = Ok s ↔
  (0 < k ≤ MAX_CONTENT_CHUNK_SIZE ∧ n + (k - 1) < U64
   ∧ s = n + 16 * ((n + k - 1) / k) ∧ s < U64)%N.
Proof.
  unfold chunked_encrypted_size, bad_chunk_size.
  destruct (N.eqb_spec k 0) as [->|Hk]; [cbn; split; [done|lia]|].
  destruct (N.ltb_spec MAX_CONTENT_CHUNK_SIZE k) as [Hm|Hm]; [cbn; split; [done|lia]|].
  cbn [orb]. replace (n + (k - 1))%N with (n + k - 1)%N by lia.
  set (c := ((n + k - 1) / k)%N). split.
  - intros H. inv_res. apply u64_checked_add_Some in H0 as [-> H0].
    apply u64_checked_mul_Some in H1 as [-> H1]. apply u64_checked_add_Some in H as [-> H].
    unfold AEAD_TAG_SIZE in *. replace (n + (k - 1))%N with (n + k - 1)%N in * by lia.
    fold c. fold c in H. lia.
  - intros (_ & Hn & -> & Hs).
    assert (u64_checked_add n (k - 1) = Some (n + k - 1)%N) as ->.
    { apply u64_checked_add_Some. lia. }
    cbn [ok_or res_bind]. fold c.
    assert (u64_checked_mul c AEAD_TAG_SIZE = Some (c * 16)%N) as ->.
    { apply u64_checked_mul_Some. unfold AEAD_TAG_SIZE. lia. }
    cbn [ok_or res_bind].
    assert (u64_checked_add n (c * 16) = Some (n + 16 * c)%N) as ->; [|done].
    apply u64_checked_add_Some. lia.
Qed.

(** ** Chunks of a content *)

(** [slice::chunks(k)]: what a reader that fills its buffer returns. *)
Fixpoint chunks_fuel (fuel k : nat) (l : bytes) : list bytes :=
  match fuel, l with
  | S fuel, _ :: _ => take k l :: chunks_fuel fuel k (drop k l)
  | _, _ => []
  end.
Definition chunks (k : nat) (l : bytes) : list bytes := chunks_fuel (length l) k l.

Lemma chunks_fuel_irrel fuel1 fuel2 k l :
  0 < k → length l ≤ fuel1 → length l ≤ fuel2 → chunks_fuel fuel1 k l = chunks_fuel fuel2 k l.
Proof.
  intros Hk. revert fuel2 l. induction fuel1 as [|f1 IH]; intros [|f2] [|x l]; cbn; try lia; try done.
  intros H1 H2. f_equal. apply IH; rewrite length_drop; cbn; lia.
Qed.

Lemma chunks_cons k l :
  0 < k → l ≠ [] → chunks k l = take k l :: chunks k (drop k l).
Proof.
  intros Hk Hl. destruct l as [|x l]; [done|]. unfold chunks at 1. cbn [length chunks_fuel].
  f_equal. apply chunks_fuel_irrel; [done|rewrite length_drop; cbn; lia|done].
Qed.
Lemma chunks_nil k : chunks k [] = [].
Proof. done. Qed.

(** Induction along the chunks of a content. *)
Lemma chunks_ind (k : nat) (Hk : 0 < k) (P : bytes → Prop) :
  P [] → (∀ l, l ≠ [] → P (drop k l) → P l) → ∀ l, P l.
Proof.
  intros H0 HS l. remember (length l) as n eqn:En. revert l En.
  induction (Nat.lt_wf_0 n) as [n _ IH]. intros [|x l] ->; [done|].
  apply HS; [done|]. eapply IH; [|done]. rewrite length_drop. cbn. lia.
Qed.

Lemma concat_chunks k l : 0 < k → concat (chunks k l) = l.
Proof.
  intros Hk. induction l as [|l Hl IH] using (chunks_ind k Hk); [done|].
  rewrite chunks_cons by done. cbn. by rewrite IH, take_drop.
Qed.

Lemma chunks_nonempty k l : 0 < k → Forall (λ c, c ≠ [] ∧ length c ≤ k) (chunks k l).
Proof.
  intros Hk. induction l as [|l Hl IH] using (chunks_ind k Hk); [constructor|].
  rewrite chunks_cons by done. constructor; [|done]. rewrite length_take. split; [|lia].
  destruct l, k; try done; lia.
Qed.

(** The number of chunks, as the code computes it. *)
Lemma chunks_length k l :
  0 < k → N.of_nat (length (chunks k l))
    = ((N.of_nat (length l) + N.of_nat k - 1) / N.of_nat k)%N.
Proof.
  intros Hk. induction l as [|l Hl IH] using (chunks_ind k Hk).
  { rewrite chunks_nil. cbn [length]. symmetry. apply N.div_small. lia. }
  rewrite chunks_cons by done. cbn [length]. rewrite Nat2N.inj_succ, IH, length_drop.
  assert (0 < length l) by (destruct l; [done|cbn; lia]).
  destruct (decide (length l ≤ k)) as [Hle|Hgt].
  - rewrite (N.div_small (_ + _ - _)) by lia.
    apply (N.div_unique _ _ _ (N.of_nat (length l) - 1)); lia.
  - replace (N.of_nat (length l) + N.of_nat k - 1)%N
      with ((N.of_nat (length l - k) + N.of_nat k - 1) + 1 * N.of_nat k)%N by lia.
    rewrite N.div_add by lia. lia.
Qed.

Lemma chunks_take k j l : 0 < k → chunks k (take (j * k) l) = take j (chunks k l).
Proof.
  intros Hk. revert j. induction l as [|l Hl IH] using (chunks_ind k Hk); intros j.
  { by rewrite take_nil, chunks_nil, take_nil. }
  destruct j as [|j]; [done|].
  assert (take (S j * k) l ≠ []) as Hne.
  { destruct l; [done|]. cbn. destruct (k + j * k) eqn:E; [lia|done]. }
  rewrite (chunks_cons k l), (chunks_cons k (take _ _)) by done. cbn [take].
  rewrite take_take, Nat.min_l by (cbn; lia). f_equal.
  by rewrite <-IH, take_drop_commute.
Qed.

(** ** Sealing a list of chunks *)

Section Roundtrip.
Context {sha : Sha256} {aead : Aead} {alaws : AeadLaws}.
Context (file_key : Key) (file_id : string) (base_nonce : array 12).

Fixpoint seal_all (i : N) (cs : list bytes) : res EncryptionError (list bytes) :=
  match cs with
  | [] => Ok []
  | c :: cs =>
      let? ct := seal_chunk file_key file_id base_nonce i c in
      let? cts := seal_all (u64_wrap (i + 1)) cs in
      Ok (ct :: cts)
  end.

Lemma chunk_nonce_ok i :
  Nonce_from_bytes (arr (derive_chunk_nonce base_nonce i))
    = Ok (mkNonce (derive_chunk_nonce base_nonce i)).
Proof. unfold Nonce_from_bytes, AEAD_NONCE_LEN. by rewrite array_of_arr. Qed.

Lemma seal_chunk_open i c ct :
  seal_chunk file_key file_id base_nonce i c = Ok ct →
  open file_key (mkNonce (derive_chunk_nonce base_nonce i)) FileData (build_chunk_aad file_id i) ct
    = Ok c ∧ length ct = length c + 16.
Proof.
  unfold seal_chunk. rewrite chunk_nonce_ok. cbn [map_err res_bind]. intros H. inv_res.
  split; [by apply seal_open|by apply seal_length in H].
Qed.

Lemma seal_all_total `{!AeadTotal} i cs :
  Forall (λ c, (N.of_nat (length c) ≤ MAX_CONTENT_CHUNK_SIZE)%N) cs →
  ∃ cts, seal_all i cs = Ok cts.
Proof.
  intros Hcs. revert i. induction Hcs as [|c cs Hc _ IH]; intros i; [by exists []|].
  cbn [seal_all]. unfold seal_chunk. rewrite chunk_nonce_ok. cbn [map_err res_bind].
  destruct (seal_total file_key (mkNonce (derive_chunk_nonce base_nonce i)) FileData
              (build_chunk_aad file_id i) c) as [ct ->].
  { unfold MAX_CONTENT_CHUNK_SIZE in Hc. lia. }
  destruct (IH (u64_wrap (i + 1))) as [cts ->]. by exists (ct :: cts).
Qed.

Lemma seal_all_length i cs cts :
  seal_all i cs = Ok cts →
  length cts = length cs ∧ length (concat cts) = length (concat cs) + 16 * length cs.
Proof.
  revert i cts. induction cs as [|c cs IH]; intros i cts H; cbn [seal_all] in H; inv_res; [done|].
  apply seal_chunk_open in H0 as [_ Hl]. apply IH in H1 as [H1 H2]. cbn. rewrite !length_app. lia.
Qed.

Lemma seal_all_prefix i cs cts j :
  seal_all i cs = Ok cts → seal_all i (take j cs) = Ok (take j cts).
Proof.
  revert i cts j. induction cs as [|c cs IH]; intros i cts j H; cbn [seal_all] in H; inv_res.
  { by rewrite !take_nil. }
  destruct j as [|j]; [done|]. cbn [take seal_all]. rewrite H0. cbn [res_bind].
  by rewrite (IH _ _ j H1).
Qed.

Lemma u64_wrap_add_wrap a b : u64_wrap (u64_wrap a + b) = u64_wrap (a + b).
Proof. unfold u64_wrap. apply N.Div0.add_mod_idemp_l. Qed.

Lemma encrypt_loop_spec i cs cts out total hashed :
  Forall (λ c, c ≠ []) cs → seal_all i cs = Ok cts →
  encrypt_loop write_vec (Ok <$> cs) out file_key file_id base_nonce (u64_wrap total) i hashed
    = (Ok (u64_wrap (total + N.of_nat (length (concat cs))), sha256 (hashed ++ concat cs)),
       out ++ concat cts).
Proof.
  intros Hcs. revert i cts out total hashed. induction Hcs as [|c cs Hc _ IH];
    intros i cts out total hashed H; cbn [seal_all] in H; inv_res.
  { cbn. by rewrite N.add_0_r, !app_nil_r. }
  cbn [fmap list_fmap encrypt_loop]. destruct c as [|x c]; [done|]. rewrite H0.
  cbn [write_vec]. rewrite u64_wrap_add_wrap, (IH _ _ _ _ _ H1).
  cbn [concat]. rewrite length_app, Nat2N.inj_add, N.add_assoc, !app_assoc. done.
Qed.

Lemma decrypt_loop_chunks (k : nat) fuel content pre i out cts :
  0 < k → seal_all i (chunks k content) = Ok cts → length content ≤ fuel →
  (N.of_nat (length (pre ++ concat cts)) < U64)%N →
  decrypt_loop fuel (pre ++ concat cts) file_key file_id base_nonce (N.of_nat k)
    (N.of_nat (length pre)) (N.of_nat (length content)) i out
  = Ok (N.of_nat (length (pre ++ concat cts)), out ++ content).
Proof.
  intros Hk. revert fuel content pre i out cts.
  induction fuel as [|fuel IH]; intros content pre i out cts Hs Hf Hlt.
  { destruct content as [|]; cbn in Hf; [|lia]. cbn in Hs. inv_res. cbn.
    by rewrite !app_nil_r. }
  destruct (decide (content = [])) as [->|Hne].
  { cbn in Hs. inv_res. cbn. by rewrite !app_nil_r. }
  rewrite chunks_cons in Hs by done. cbn [seal_all] in Hs. inv_res.
  destruct (seal_chunk_open _ _ _ H) as [Ho Hl]. rewrite length_take in Hl.
  cbn [decrypt_loop]. assert (0 < length content) by (destruct content; [done|cbn; lia]).
  destruct (N.eqb_spec (N.of_nat (length content)) 0); [lia|].
  cbn [concat] in *. rewrite !length_app in Hlt.
  set (plain := N.min (N.of_nat k) (N.of_nat (length content))).
  assert (u64_checked_add plain AEAD_TAG_SIZE = Some (N.of_nat (length a))) as ->.
  { apply u64_checked_add_Some. unfold plain, AEAD_TAG_SIZE. lia. }
  cbn [ok_or res_bind].
  assert (u64_checked_add (N.of_nat (length pre)) (N.of_nat (length a))
          = Some (N.of_nat (length (pre ++ a)))) as ->.
  { apply u64_checked_add_Some. rewrite length_app. lia. }
  cbn [ok_or res_bind].
  destruct (N.ltb_spec (N.of_nat (length (pre ++ a ++ concat a0))) (N.of_nat (length (pre ++ a)))).
  { rewrite !length_app in *. lia. }
  rewrite Nat2N.id. replace (N.to_nat _) with (length a) by (rewrite length_app; lia).
  rewrite drop_app_length, take_app_length. rewrite chunk_nonce_ok. cbn [map_err res_bind].
  rewrite Ho. cbn [map_err res_bind].
  replace (N.of_nat (length content) - plain)%N with (N.of_nat (length (drop k content)))
    by (rewrite length_drop; unfold plain; lia).
  rewrite app_assoc. rewrite (IH _ (pre ++ a) _ _ _ H0).
  - by rewrite <-!app_assoc, take_drop.
  - rewrite length_drop. lia.
  - rewrite !length_app. lia.
Qed.
End Roundtrip.

Section ContentTheorems.
Context {sha : Sha256} {aead : Aead} {alaws : AeadLaws}.
Context (can_reserve : N → bool).

(** A reader that fills the buffer as long as there is content. *)
Definition full_reader (k : nat) (content : bytes) : list (res string bytes) :=
  Ok <$> chunks k content.

Lemma bad_chunk_size_false k :
  (0 < k ≤ MAX_CONTENT_CHUNK_SIZE)%N → bad_chunk_size k = false.
Proof.
  intros [H1 H2]. unfold bad_chunk_size. destruct (N.eqb_spec k 0), (N.ltb_spec MAX_CONTENT_CHUNK_SIZE k);
    try done; lia.
Qed.

Lemma encrypt_chunks key fid base k cs cts :
  (0 < N.of_nat k ≤ MAX_CONTENT_CHUNK_SIZE)%N → Forall (λ c, c ≠ []) cs →
  seal_all key fid base 0 cs = Ok cts → (N.of_nat (length (concat cs)) < U64)%N →
  encrypt_content_chunked write_vec (Ok <$> cs) [] key fid base (N.of_nat k)
    = (Ok (N.of_nat (length (concat cs)), sha256 (concat cs)), concat cts).
Proof.
  intros Hk Hcs Hs Hlt. unfold encrypt_content_chunked. rewrite bad_chunk_size_false by done.
  change 0%N with (u64_wrap 0) at 1. rewrite (encrypt_loop_spec _ _ _ _ _ _ _ _ _ Hcs Hs).
  rewrite N.add_0_l. unfold u64_wrap. by rewrite N.mod_small.
Qed.

Lemma seal_chunks_total `{!AeadTotal} key fid base k content :
  (0 < N.of_nat k ≤ MAX_CONTENT_CHUNK_SIZE)%N →
  ∃ cts, seal_all key fid base 0 (chunks k content) = Ok cts.
Proof.
  intros Hk. refine (seal_all_total key fid base 0 _ _). eapply list.Forall_impl; [apply chunks_nonempty; lia|].
  intros c [_ Hc]. lia.
Qed.

(** The size on disk is the one the code predicts. *)
Lemma sealed_size key fid base k content cts :
  (0 < N.of_nat k ≤ MAX_CONTENT_CHUNK_SIZE)%N →
  (N.of_nat (length content) ≤ MAX_IN_MEMORY_PLAINTEXT_BYTES)%N →
  seal_all key fid base 0 (chunks k content) = Ok cts →
  chunked_encrypted_size (N.of_nat (length content)) (N.of_nat k)
    = Ok (N.of_nat (length (concat cts))) ∧ (N.of_nat (length (concat cts)) < U64)%N.
Proof.
  intros Hk Hc Hs. apply seal_all_length in Hs as [_ Hl]. rewrite concat_chunks in Hl by lia.
  assert (length (chunks k content) ≤ length content) as Hle.
  { pose proof (chunks_nonempty k content ltac:(lia)) as Hf.
    rewrite <-(concat_chunks k content) at 2 by lia. clear -Hf.
    induction Hf as [|c cs [Hc _] _ IH]; [done|]. cbn. rewrite length_app.
    destruct c; [done|]. cbn. lia. }
  pose proof (chunks_length k content ltac:(lia)) as Hn.
  assert (N.of_nat (length (concat cts)) < U64)%N as Hlt.
  { unfold MAX_IN_MEMORY_PLAINTEXT_BYTES, U64 in *. lia. }
  split; [|done]. apply chunked_size_exact. rewrite <-Hn, Hl.
  unfold MAX_IN_MEMORY_PLAINTEXT_BYTES, MAX_CONTENT_CHUNK_SIZE, U64 in *. lia.
Qed.

Lemma decrypt_chunks key fid base k content cts m :
  (0 < N.of_nat k ≤ MAX_CONTENT_CHUNK_SIZE)%N →
  (N.of_nat (length content) ≤ MAX_IN_MEMORY_PLAINTEXT_BYTES)%N →
  can_reserve (N.of_nat (length content)) = true →
  seal_all key fid base 0 (chunks k content) = Ok cts →
  fm_file_id m = fid → fm_content_nonce m = arr base →
  fm_file_size m = N.of_nat (length content) → fm_content_chunk_size m = Some (N.of_nat k) →
  decrypt_content can_reserve (concat cts) key m = Ok content.
Proof.
  intros Hk Hc Hr Hs Hf Hn Hsz Hcs. destruct (sealed_size _ _ _ _ _ _ Hk Hc Hs) as [He Hlt].
  unfold decrypt_content. rewrite Hsz.
  destruct (N.ltb_spec MAX_IN_MEMORY_PLAINTEXT_BYTES (N.of_nat (length content))); [lia|].
  rewrite Hcs. unfold decrypt_content_chunked. rewrite bad_chunk_size_false by done.
  rewrite Hsz, He. cbn [map_err res_bind]. rewrite decide_False by auto.
  rewrite Hn, array_of_arr, Hr, Hf. cbn [negb].
  rewrite (decrypt_loop_chunks key fid base k _ content [] 0 [] cts) by (auto; lia).
  cbn [res_bind fst snd app]. by rewrite decide_False by auto.
Qed.

(** Chunked encryption round trip: a content of at most 256 MiB, read in full
    buffers and encrypted in chunks of a permitted size, gives a ciphertext of
    the predicted size from which decryption with the same key, identifier and
    nonce returns the content; the reported length and hash are those of the
    content. *)
Theorem chunked_roundtrip `{!AeadTotal} (key : Key) (fid : string) (base : array 12) (k : nat)
    (content : bytes) (m : FileEncryptionMetadata) :
  (0 < N.of_nat k ≤ MAX_CONTENT_CHUNK_SIZE)%N →
  (N.of_nat (length content) ≤ MAX_IN_MEMORY_PLAINTEXT_BYTES)%N →
  can_reserve (N.of_nat (length content)) = true →
  fm_file_id m = fid → fm_content_nonce m = arr base →
  fm_file_size m = N.of_nat (length content) → fm_content_chunk_size m = Some (N.of_nat k) →
  ∃ ct, encrypt_content_chunked write_vec (full_reader k content) [] key fid base (N.of_nat k)
          = (Ok (N.of_nat (length content), sha256 content), ct)
    ∧ chunked_encrypted_size (N.of_nat (length content)) (N.of_nat k) = Ok (N.of_nat (length ct))
    ∧ decrypt_content can_reserve ct key m = Ok content.
Proof.
  intros Hk Hc Hr Hf Hn Hsz Hcs. destruct (seal_chunks_total key fid base k content Hk) as [cts Hs].
  destruct (sealed_size _ _ _ _ _ _ Hk Hc Hs) as [He Hlt].
  exists (concat cts). split_and!; [|done|by eapply decrypt_chunks].
  unfold full_reader. rewrite (encrypt_chunks _ _ _ _ _ cts); [by rewrite concat_chunks by lia|done| |done|].
  - eapply list.Forall_impl; [apply chunks_nonempty; lia|]. by intros c [].
  - rewrite concat_chunks by lia. unfold MAX_IN_MEMORY_PLAINTEXT_BYTES, U64 in *. lia.
Qed.

(** Truncation at a chunk boundary is not detected without the manifest: when
    the file size of the header is reduced to a whole number of chunks and the
    ciphertext is cut there, decryption succeeds and returns the shortened
    content. *)
Theorem legacy_truncation_accepted `{!AeadTotal} (key : Key) (fid : string) (base : array 12)
    (k j : nat) (content : bytes) (m : FileEncryptionMetadata) :
  (0 < N.of_nat k ≤ MAX_CONTENT_CHUNK_SIZE)%N →
  (N.of_nat (length content) ≤ MAX_IN_MEMORY_PLAINTEXT_BYTES)%N → j * k < length content →
  can_reserve (N.of_nat (j * k)) = true → fm_file_id m = fid → fm_content_nonce m = arr base →
  fm_file_size m = N.of_nat (j * k) → fm_content_chunk_size m = Some (N.of_nat k) →
  ∃ h ct, encrypt_content_chunked write_vec (full_reader k content) [] key fid base (N.of_nat k)
            = (Ok (N.of_nat (length content), h), ct)
    ∧ decrypt_content can_reserve (take (j * (k + 16)) ct) key m = Ok (take (j * k) content).
Proof.
  intros Hk Hc Hj Hr Hf Hn Hsz Hcs.
  destruct (seal_chunks_total key fid base k content Hk) as [cts Hs].
  exists (sha256 content), (concat cts). split.
  { unfold full_reader. rewrite (encrypt_chunks _ _ _ _ _ cts);
      [by rewrite concat_chunks by lia|done| |done|].
    - eapply list.Forall_impl; [apply chunks_nonempty; lia|]. by intros c [].
    - rewrite concat_chunks by lia. unfold MAX_IN_MEMORY_PLAINTEXT_BYTES, U64 in *. lia. }
  pose proof (seal_all_prefix _ _ _ _ _ _ j Hs) as Hp. rewrite <-chunks_take in Hp by lia.
  assert (length (take (j * k) content) = j * k) as Hlen by (rewrite length_take; lia).
  assert (take (j * (k + 16)) (concat cts) = concat (take j cts)) as ->.
  { pose proof (seal_all_length _ _ _ _ _ _ Hp) as [Hl1 Hl2].
    rewrite concat_chunks in Hl2 by lia. rewrite Hlen in Hl2.
    pose proof (chunks_length k (take (j * k) content) ltac:(lia)) as Hn'. rewrite Hlen in Hn'.
    replace (N.of_nat (j * k) + N.of_nat k - 1)%N
      with (N.of_nat k - 1 + N.of_nat j * N.of_nat k)%N in Hn' by lia.
    rewrite N.div_add, N.div_small in Hn' by lia.
    rewrite <-(take_drop j cts) at 1. rewrite concat_app, take_app_le by lia.
    apply take_ge. lia. }
  eapply decrypt_chunks; [done| | |done|done|done| |done]; rewrite Hlen; [lia|done|done].
Qed.

(** Short reads produce files that cannot be decrypted: when the reader returns
    the content in more pieces than full buffers would, encryption succeeds,
    and decryption refuses the result for its size. *)
Theorem short_reads_undecryptable `{!AeadTotal} (key : Key) (fid : string) (base : array 12)
    (k : nat) (reads : list bytes) (m : FileEncryptionMetadata) :
  (0 < N.of_nat k ≤ MAX_CONTENT_CHUNK_SIZE)%N →
  Forall (λ c, c ≠ [] ∧ length c ≤ k) reads →
  (N.of_nat (length (concat reads)) ≤ MAX_IN_MEMORY_PLAINTEXT_BYTES)%N →
  length reads ≠ length (chunks k (concat reads)) →
  fm_file_size m = N.of_nat (length (concat reads)) → fm_content_chunk_size m = Some (N.of_nat k) →
  ∃ h ct, encrypt_content_chunked write_vec (Ok <$> reads) [] key fid base (N.of_nat k)
            = (Ok (N.of_nat (length (concat reads)), h), ct)
    ∧ decrypt_content can_reserve ct key m
        = Err (DecDecryptionFailure "Chunked ciphertext size mismatch").
Proof.
  intros Hk Hreads Hc Hne Hsz Hcs.
  destruct (seal_all_total key fid base 0 reads) as [cts Hs].
  { eapply list.Forall_impl; [exact Hreads|]. intros c [_ Hle]. lia. }
  exists (sha256 (concat reads)), (concat cts). split.
  { apply encrypt_chunks; [done| |done|unfold MAX_IN_MEMORY_PLAINTEXT_BYTES, U64 in *; lia].
    eapply list.Forall_impl; [exact Hreads|]. by intros c []. }
  destruct (seal_chunks_total key fid base k (concat reads) Hk) as [cts' Hs'].
  destruct (sealed_size _ _ _ _ _ _ Hk Hc Hs') as [He _].
  apply seal_all_length in Hs as [_ Hl], Hs' as [_ Hl']. rewrite concat_chunks in Hl' by lia.
  unfold decrypt_content. rewrite Hsz.
  destruct (N.ltb_spec MAX_IN_MEMORY_PLAINTEXT_BYTES (N.of_nat (length (concat reads)))); [lia|].
  rewrite Hcs. unfold decrypt_content_chunked. rewrite bad_chunk_size_false by done.
  rewrite Hsz, He. cbn [map_err res_bind]. by rewrite decide_True by lia.
Qed.

(** *** Authenticity *)

(** Everything that opens under the key is one of these chunks, sealed in its place:
    what unforgeability gives for a key that encrypted one file. *)
Definition only_these_chunks (key : Key) (fid : string) (base : array 12) (ps : list bytes) : Prop :=
  ∀ n aad c p, open key n FileData aad c = Ok p →
    ∃ i, ps !! i = Some p ∧ n = mkNonce (derive_chunk_nonce base (N.of_nat i))
      ∧ aad = build_chunk_aad fid (N.of_nat i)
      ∧ seal_chunk key fid base (N.of_nat i) p = Ok c.

Lemma decrypt_loop_authentic key fid base ps fid' base' cs fuel ct offset remaining i out off' out' :
  only_these_chunks key fid base ps → (N.of_nat (length ps) < U64)%N → (i ≤ length ps)%nat →
  (0 < cs)%N →
  decrypt_loop fuel ct key fid' base' cs offset remaining (N.of_nat i) out = Ok (off', out') →
  ∃ j, out' = out ++ concat (take j (drop i ps))
    ∧ N.of_nat (length out') = (N.of_nat (length out) + remaining)%N
    ∧ (remaining ≠ 0%N → fid' = fid ∧ base' = base).
Proof.
  intros Honly Hps Hi Hcs. revert offset remaining i out Hi.
  induction fuel as [|fuel IH]; intros offset remaining i out Hi H; cbn [decrypt_loop] in H;
    destruct (N.eqb_spec remaining 0) as [->|Hrem]; try discriminate H.
  1,2: injection H as <- <-; exists 0; cbn; rewrite app_nil_r; split_and!; [done|lia|done].
  inv_res. apply u64_checked_add_Some in H0 as [-> _]. apply u64_checked_add_Some in H1 as [-> _].
  destruct (N.ltb_spec (N.of_nat (length ct)) (offset + (N.min cs remaining + AEAD_TAG_SIZE))%N);
    [done|].
  rewrite chunk_nonce_ok in H. cbn [map_err res_bind] in H. inv_res.
  destruct (Honly _ _ _ _ H1) as (q & Hq & Hn & Ha & Hsl).
  pose proof (lookup_lt_Some _ _ _ Hq).
  apply build_chunk_aad_inj in Ha as [-> Eiq]; [|lia..]. assert (i = q) as -> by lia.
  apply (f_equal nonce_bytes) in Hn. cbn [nonce_bytes] in Hn. apply derive_chunk_nonce_base in Hn as ->.
  apply seal_chunk_open in Hsl as [_ Hlen].
  rewrite length_take, length_drop in Hlen. unfold AEAD_TAG_SIZE in *.
  assert (u64_wrap (N.of_nat q + 1) = N.of_nat (S q)) as Ew.
  { unfold u64_wrap. rewrite N.mod_small by lia. lia. }
  rewrite Ew in H. apply IH in H as (j & -> & Hl & _); [|lia].
  exists (S j). rewrite (drop_S ps a q) by done. cbn [take concat].
  split_and!; [by rewrite <-app_assoc| |done].
  rewrite Hl, length_app. lia.
Qed.

End ContentTheorems.

(** ** Key wrapping *)

Section WrapTheorems.
Context {sha : Sha256} {aead : Aead} {hkdf : Hkdf}.
Context {alaws : AeadLaws} {atotal : AeadTotal} {hlaws : HkdfLaws}.

Lemma Key_from_bytes_ok b : length b = 32 → ∃ k, Key_from_bytes b = Ok k ∧ arr (key_bytes k) = b.
Proof.
  intros Hb. unfold Key_from_bytes, AEAD_KEY_LEN, array_of.
  destruct (decide (length b = 32)) as [Hd|]; [|done]. by eexists.
Qed.

Lemma Key_from_to_bytes k : Key_from_bytes (arr (key_bytes k)) = Ok k.
Proof. unfold Key_from_bytes, AEAD_KEY_LEN. rewrite array_of_arr. by destruct k. Qed.

Lemma Nonce_from_array (n : array 12) : Nonce_from_bytes (arr n) = Ok (mkNonce n).
Proof. unfold Nonce_from_bytes, AEAD_NONCE_LEN. by rewrite array_of_arr. Qed.

(** The wrapping key derived from an epoch key always exists. *)
Lemma kek_exists (epoch_key : Key) :
  ∃ b kek, hkdf_expand (arr (key_bytes epoch_key)) KeyWrapping 32 = Ok b ∧ Key_from_bytes b = Ok kek.
Proof.
  destruct (hkdf_expand_32 (arr (key_bytes epoch_key)) KeyWrapping) as (b & Hb & Hl).
  { by rewrite arr_length. }
  destruct (Key_from_bytes_ok b Hl) as (kek & Hk & _). eauto.
Qed.

Lemma wrap_unwrap (file_key epoch_key kek : Key) kek_bytes (nonce : array 12)
    (m : FileEncryptionMetadata) wrapped n :
  hkdf_expand (arr (key_bytes epoch_key)) KeyWrapping 32 = Ok kek_bytes →
  Key_from_bytes kek_bytes = Ok kek →
  wrap_file_key nonce file_key kek (build_wrap_aad (fm_file_id m) (fm_file_path m) (fm_group_id m)
    (fm_epoch_id m) (fm_header_version m)) = Ok (wrapped, n) →
  fm_wrapped_file_key m = wrapped → fm_key_wrap_nonce m = n →
  fm_key_wrap_aad_hash m = hash_wrap_aad (build_wrap_aad (fm_file_id m) (fm_file_path m)
    (fm_group_id m) (fm_epoch_id m) (fm_header_version m)) →
  unwrap_file_key m epoch_key = Ok file_key.
Proof.
  intros He Hk Hw Hwk Hn Hh. unfold wrap_file_key in Hw. rewrite Nonce_from_array in Hw.
  cbn [map_err res_bind] in Hw. inv_res. unfold unwrap_file_key.
  rewrite decide_False by auto. rewrite Hn, Nonce_from_array. cbn [map_err res_bind].
  rewrite He. cbn [map_err res_bind]. rewrite Hk. cbn [map_err res_bind].
  apply seal_open in H. rewrite H. cbn [map_err res_bind]. by rewrite Key_from_to_bytes.
Qed.

(** Key wrapping round trip: for every epoch key the wrapping key is derived and
    wraps any file key, and a header that records the wrapped key, its nonce
    and the hash of the AAD unwraps to the same file key. *)
Theorem key_wrap_roundtrip (file_key epoch_key : Key) (nonce : array 12) (fid path : string)
    (group : option Uuid) (epoch version : N) :
  ∃ kek_bytes kek wrapped,
    hkdf_expand (arr (key_bytes epoch_key)) KeyWrapping 32 = Ok kek_bytes
    ∧ Key_from_bytes kek_bytes = Ok kek
    ∧ wrap_file_key nonce file_key kek (build_wrap_aad fid path group epoch version)
        = Ok (wrapped, arr nonce)
    ∧ ∀ m, fm_file_id m = fid → fm_file_path m = path → fm_group_id m = group →
        fm_epoch_id m = epoch → fm_header_version m = version →
        fm_wrapped_file_key m = wrapped → fm_key_wrap_nonce m = arr nonce →
        fm_key_wrap_aad_hash m = hash_wrap_aad (build_wrap_aad fid path group epoch version) →
        unwrap_file_key m epoch_key = Ok file_key.
Proof.
  destruct (kek_exists epoch_key) as (b & kek & Hb & Hk).
  set (aad := build_wrap_aad fid path group epoch version).
  destruct (seal_total kek (mkNonce nonce) FileData aad (arr (key_bytes file_key)))
    as [wrapped Hs]; [by rewrite arr_length|].
  assert (wrap_file_key nonce file_key kek aad = Ok (wrapped, arr nonce)) as Hw.
  { unfold wrap_file_key. rewrite Nonce_from_array. cbn [map_err res_bind]. by rewrite Hs. }
  exists b, kek, wrapped. split_and!; [done..|].
  intros m <- <- <- <- <- Hwk Hn Hh. by eapply wrap_unwrap.
Qed.

(** The wrap AAD binds its inputs: for file identifiers of equal length, with a
    group in both cases or in neither, equal AADs have the same identifier,
    file name, group, epoch and version (SHA-256 not colliding on the two
    messages). *)
Theorem wrap_aad_binds (f1 f2 p1 p2 : string) (g1 g2 : option Uuid) (e1 e2 v1 v2 : N) :
  collision_free [wrap_aad_msg f1 (aad_label_from_path p1) g1 e1 v1;
                  wrap_aad_msg f2 (aad_label_from_path p2) g2 e2 v2] →
  String.length f1 = String.length f2 → (is_Some g1 ↔ is_Some g2) →
  (e1 < U64)%N → (e2 < U64)%N → (v1 < U32)%N → (v2 < U32)%N →
  build_wrap_aad f1 p1 g1 e1 v1 = build_wrap_aad f2 p2 g2 e2 v2 →
  f1 = f2 ∧ aad_label_from_path p1 = aad_label_from_path p2 ∧ g1 = g2 ∧ e1 = e2 ∧ v1 = v2.
Proof.
  intros Hcf Hlen Hg He1 He2 Hv1 Hv2 E. unfold build_wrap_aad in E. apply arr_inj in E.
  apply (collision_free_eq _ _ _ Hcf) in E; [|by left|by right; left].
  unfold wrap_aad_msg in E. apply app_inv_head in E. rewrite !app_assoc in E.
  apply app_split_eq_r in E as [E Ev]; [|by rewrite !le_bytes_length].
  apply app_split_eq_r in E as [E Ee]; [|by rewrite !le_bytes_length].
  apply le_bytes_inj in Ev as ->; [|done..]. rewrite U64_pow in *. apply le_bytes_inj in Ee as ->; [|done..].
  assert (length (from_option arr [] g1) = length (from_option arr [] g2)) as Hgl.
  { destruct g1 as [g1|], g2 as [g2|]; cbn; rewrite ?arr_length; try done.
    - destruct Hg as [Hg _]. by destruct Hg.
    - destruct Hg as [_ Hg]. by destruct Hg. }
  apply app_split_eq_r in E as [E Eg]; [|done].
  assert (∀ s, length (bytes_of s) = String.length s) as Hbl.
  { intros s. unfold bytes_of. induction s as [|a s IH]; [done|]. cbn. by rewrite <-IH. }
  apply app_split_eq in E as [Ef El]; [|by rewrite !Hbl].
  apply bytes_of_inj in Ef as ->. apply bytes_of_inj in El as ->.
  split_and!; try done. destruct g1 as [g1|], g2 as [g2|]; cbn in Eg; try done.
  - by apply arr_inj in Eg as ->.
  - apply (f_equal length) in Eg. by rewrite arr_length in Eg.
  - apply (f_equal length) in Eg. by rewrite arr_length in Eg.
Qed.

(** Without that, two different headers share an AAD: nothing separates the
    identifier from the name, nor the name from the group. *)
Lemma wrap_aad_ambiguous (g : Uuid) :
  arr g = bytes_of "0123456789abcdef" →
  build_wrap_aad "ab" "c" None 1 1 = build_wrap_aad "a" "bc" None 1 1
  ∧ build_wrap_aad "a" "b0123456789abcdef" None 1 1 = build_wrap_aad "a" "b" (Some g) 1 1.
Proof.
  intros Hg. unfold build_wrap_aad.
  assert (∀ a b, a = b → arr (sha256 a) = arr (sha256 b)) as Hsha by (by intros ? ? ->).
  split; apply Hsha; [vm_compute; reflexivity|].
  unfold wrap_aad_msg. cbn [from_option]. rewrite Hg. vm_compute. reflexivity.
Qed.

(** The AAD is bound to the file name and not to the directory: moving a file
    between directories leaves its wrapped key valid. *)
Theorem wrap_aad_survives_move (fid name : string) (a1 a2 : bool) (d1 d2 : list string)
    (g : option Uuid) (e v : N) :
  Forall clean_segment (d1 ++ [name]) → Forall clean_segment (d2 ++ [name]) →
  trim (normal_path a1 (d1 ++ [name])) = normal_path a1 (d1 ++ [name]) →
  trim (normal_path a2 (d2 ++ [name])) = normal_path a2 (d2 ++ [name]) →
  build_wrap_aad fid (normal_path a1 (d1 ++ [name])) g e v
    = build_wrap_aad fid (normal_path a2 (d2 ++ [name])) g e v.
Proof.
  intros H1 H2 T1 T2. unfold build_wrap_aad. by rewrite !aad_label_normal.
Qed.
End WrapTheorems.

(** ** Termination *)

Section Termination.
Context {sha : Sha256} {aead : Aead} (can_reserve : N → bool).

(** One round of the loop per chunk: the bytes that remain are enough fuel. *)
Lemma decrypt_loop_settles fuel enc key fid base k offset remaining i out :
  (0 < k)%N → (remaining ≤ N.of_nat fuel)%N →
  settles (decrypt_loop fuel enc key fid base k offset remaining i out).
Proof.
  intros Hk. revert offset remaining i out.
  induction fuel as [|fuel IH]; intros offset remaining i out Hf; cbn [decrypt_loop];
    destruct (remaining =? 0)%N eqn:Hr; try done; apply N.eqb_neq in Hr; [lia|].
  destruct (u64_checked_add _ AEAD_TAG_SIZE) as [cl|]; [|done]. cbn [ok_or res_bind].
  destruct (u64_checked_add offset cl) as [next|]; [|done]. cbn [ok_or res_bind].
  destruct (_ <? next)%N; [done|].
  rewrite Nonce_from_array. cbn [map_err res_bind]. unfold open.
  destruct (chacha_decrypt _ _ _ _) as [p|]; [|done]. cbn [ok_or map_err res_bind]. apply IH. lia.
Qed.

Lemma decrypt_chunked_settles enc key m k : settles (decrypt_content_chunked can_reserve enc key m k).
Proof.
  unfold decrypt_content_chunked, bad_chunk_size. destruct (k =? 0)%N eqn:Hk; [done|].
  destruct (_ || _); [done|]. apply N.eqb_neq in Hk.
  apply settles_bind.
  { apply settles_map_err. unfold chunked_encrypted_size. cbv zeta. destruct (bad_chunk_size k); [done|].
    destruct (u64_checked_add _ (k - 1)) as [p|]; [|done]. cbn [ok_or res_bind].
    destruct (u64_checked_mul _ _) as [o|]; [|done]. cbn [ok_or res_bind]. by destruct (u64_checked_add _ o). }
  intros expected. case_decide; [done|]. destruct (array_of 12 _) as [base|]; [|done]. cbv zeta.
  destruct (negb _); [done|]. apply settles_bind; [apply decrypt_loop_settles; lia|].
  intros oo. by case_decide.
Qed.

(** Decryption of content always returns: for every ciphertext, key and header, whatever
    sizes the header claims, the loop over the chunks ends within as many rounds as the
    plaintext has bytes, and the result is a plaintext or an error, never a panic. *)
Theorem decrypt_content_returns (enc : bytes) (key : Key) (m : FileEncryptionMetadata) :
  settles (decrypt_content can_reserve enc key m).
Proof.
  unfold decrypt_content. destruct (_ <? _)%N; [done|].
  destruct (fm_content_chunk_size m) as [k|]; [apply decrypt_chunked_settles|].
  destruct (_ <? _)%N; [done|]. apply settles_bind.
  { destruct (_ <=? _)%N; [|done]. destruct (u64_checked_add _ _); [|done]. cbn [ok_or res_bind].
    by case_decide. }
  intros _. apply settles_bind; [apply settles_map_err; unfold Nonce_from_bytes; by case_match|].
  intros nonce. unfold open. by destruct (chacha_decrypt _ _ _ _).
Qed.
End Termination.

(** ** Evaluation on concrete files *)

#[local] Existing Instances toy_sha256 toy_aead toy_aead_laws toy_aead_total toy_hkdf toy_hkdf_laws.

(** Evaluates an equation, a comparison or a range. *)
Ltac compute_hyp :=
  vm_compute; solve [reflexivity | discriminate | split; [reflexivity|discriminate] | lia].

Definition doc_key : Key := mkKey (dexist (le_bytes 32 77) (le_bytes_length 32 77)).
Definition doc_epoch_key : Key := mkKey (dexist (le_bytes 32 5) (le_bytes_length 32 5)).
Definition doc_nonce : array 12 := dexist (le_bytes 12 900) (le_bytes_length 12 900).
Definition doc_content : bytes := bytes_of "hello chunks".
Definition doc_meta (size : N) (chunk_size : option N) : FileEncryptionMetadata :=
  mkFileEncryptionMetadata "f1" "a.txt" None 1 2 [] [] [] (arr doc_nonce) chunk_size [] 0 size []
    "ChaCha20-Poly1305" size (sha256 doc_content).
Definition always : N → bool := λ _, true.

Lemma chunk_nonces_distinct_witness :
  derive_chunk_nonce doc_nonce 3 ≠ derive_chunk_nonce doc_nonce 259
  ∧ build_chunk_aad "f1" 3 ≠ build_chunk_aad "f1" 259.
Proof. apply (chunk_nonces_distinct doc_nonce "f1" 3 259); [reflexivity|reflexivity|done]. Defined.

Lemma chunked_roundtrip_witness :
  ∃ ct, encrypt_content_chunked write_vec (full_reader 5 doc_content) [] doc_key "f1" doc_nonce 5
          = (Ok (12%N, sha256 doc_content), ct)
    ∧ length ct = 60
    ∧ decrypt_content always ct doc_key (doc_meta 12 (Some 5%N)) = Ok doc_content.
Proof.
  destruct (chunked_roundtrip always doc_key "f1" doc_nonce 5 doc_content (doc_meta 12 (Some 5%N)))
    as (ct & H1 & H2 & H3); [compute_hyp..|].
  exists ct. split; [exact H1|]. split; [|exact H3].
  assert (chunked_encrypted_size (N.of_nat (length doc_content)) (N.of_nat 5) = Ok 60%N) as E
    by (vm_compute; reflexivity).
  rewrite E in H2. injection H2 as H2. lia.
Defined.

Lemma legacy_truncation_accepted_witness :
  ∃ h ct, encrypt_content_chunked write_vec (full_reader 5 doc_content) [] doc_key "f1" doc_nonce 5
            = (Ok (12%N, h), ct)
    ∧ decrypt_content always (take 42 ct) doc_key (doc_meta 10 (Some 5%N)) = Ok (bytes_of "hello chun").
Proof.
  apply (legacy_truncation_accepted always doc_key "f1" doc_nonce 5 2 doc_content
           (doc_meta 10 (Some 5%N))); compute_hyp.
Defined.

Definition doc_reads : list bytes := [bytes_of "hel"; bytes_of "lo ch"; bytes_of "un"; bytes_of "ks"].
Lemma short_reads_undecryptable_witness :
  ∃ h ct, encrypt_content_chunked write_vec (Ok <$> doc_reads) [] doc_key "f1" doc_nonce 5
            = (Ok (12%N, h), ct)
    ∧ decrypt_content always ct doc_key (doc_meta 12 (Some 5%N))
        = Err (DecDecryptionFailure "Chunked ciphertext size mismatch").
Proof.
  apply (short_reads_undecryptable always doc_key "f1" doc_nonce 5 doc_reads
           (doc_meta 12 (Some 5%N))); [compute_hyp| |compute_hyp| |compute_hyp..].
  - repeat constructor; done || (vm_compute; lia).
  - vm_compute. discriminate.
Defined.

(** An AEAD that seals only the messages of a table: the situation of a key that has
    encrypted one file. *)
Definition gated_aead (tbl : list (array 12 * bytes * bytes)) : Aead := {|
  chacha_encrypt := λ k n aad m,
    if decide ((n, aad, m) ∈ tbl) then @chacha_encrypt toy_aead k n aad m else None;
  chacha_decrypt := λ k n aad c,
    match @chacha_decrypt toy_aead k n aad c with
    | Some m => if decide ((n, aad, m) ∈ tbl) then Some m else None
    | None => None
    end;
|}.
Lemma gated_aead_laws tbl : @AeadLaws (gated_aead tbl).
Proof.
  split; intros k n aad m c; cbn [chacha_encrypt chacha_decrypt gated_aead]; case_decide; intros Hc; try done.
  - by eapply (@chacha_length toy_aead toy_aead_laws).
  - rewrite (@chacha_correct toy_aead toy_aead_laws _ _ _ _ _ Hc). by rewrite decide_True.
Qed.

Definition doc_chunks : list bytes := chunks 5 doc_content.
Definition doc_table : list (array 12 * bytes * bytes) :=
  imap (λ i p, (derive_chunk_nonce doc_nonce (N.of_nat i),
                domain_aad FileData (build_chunk_aad "f1" (N.of_nat i)), p)) doc_chunks.

Lemma gated_only_these : @only_these_chunks (gated_aead doc_table) doc_key "f1" doc_nonce doc_chunks.
Proof.
  intros n aad c p H. unfold open in H. apply ok_or_Ok in H.
  cbn [gated_aead chacha_decrypt] in H.
  destruct (@chacha_decrypt toy_aead _ _ _ c) as [q|] eqn:Hd; [|done].
  case_decide as Hin; [|done]. injection H as ->.
  apply elem_of_lookup_imap in Hin as (i & p' & E & Hi).
  apply (f_equal (λ x, (x.1.1, x.1.2, x.2))) in E. cbn [fst snd] in E.
  assert (nonce_bytes n = derive_chunk_nonce doc_nonce (N.of_nat i)) as En by congruence.
  assert (domain_aad FileData aad = domain_aad FileData (build_chunk_aad "f1" (N.of_nat i))) as Ea
    by congruence.
  assert (p = p') as Ep by congruence. clear E. subst p'.
  apply domain_aad_inj in Ea as [_ ->]. exists i. split_and!; [done| |done|].
  { destruct n as [nb]. cbn in En. by rewrite En. }
  unfold seal_chunk. rewrite chunk_nonce_ok. cbn [map_err res_bind]. unfold seal. rewrite <-En.
  cbn [gated_aead chacha_encrypt nonce_bytes]. rewrite decide_True.
  2:{ apply elem_of_lookup_imap. exists i, p. by rewrite En. }
  cbn [toy_aead chacha_encrypt chacha_decrypt ok_or map_err] in *. f_equal.
  case_decide as Ht; [|done]. injection Hd as <-. rewrite <-Ht at 1. apply take_drop.
Qed.


Lemma wrap_aad_binds_witness :
  ("f1" : string) = "f1" ∧ aad_label_from_path "x/a.txt" = aad_label_from_path "y/a.txt"
  ∧ @None Uuid = None ∧ 1%N = 1%N ∧ 2%N = 2%N.
Proof.
  apply (wrap_aad_binds "f1" "f1" "x/a.txt" "y/a.txt" None None 1 1 2 2);
    [decide_collision_free|reflexivity|reflexivity|reflexivity..|vm_compute; reflexivity].
Defined.

Lemma wrap_aad_survives_move_witness :
  build_wrap_aad "f1" "/in/a.txt" None 1 1 = build_wrap_aad "f1" "archive/2024/a.txt" None 1 1.
Proof.
  apply (wrap_aad_survives_move "f1" "a.txt" true false ["in"] ["archive"; "2024"] None 1 1);
    try (vm_compute; reflexivity); repeat constructor; done.
Defined.

Lemma key_wrap_roundtrip_witness :
  let k n := mkKey (dexist (le_bytes 32 n) (le_bytes_length 32 n)) in
  ∃ kek_bytes kek wrapped,
    hkdf_expand (arr (key_bytes (k 2%N))) KeyWrapping 32 = Ok kek_bytes
    ∧ Key_from_bytes kek_bytes = Ok kek
    ∧ wrap_file_key (zeros 12) (k 1%N) kek (build_wrap_aad "f1" "a.txt" None 1 2)
        = Ok (wrapped, arr (zeros 12)).
Proof.
  intros k.
  destruct (key_wrap_roundtrip (k 1%N) (k 2%N) (zeros 12) "f1" "a.txt" None 1 2)
    as (b & kek & w & Hb & Hk & Hw & _).
  by exists b, kek, w.
Defined.
