(* ===== verification/Json.v ===== *)
(** * JSON values and the text encodings of file headers

    [serde_json::Value], whose objects are [BTreeMap]s (sorted by key), with the
    accessors the file code uses.  The parser and the printer of [serde_json], base64,
    the text of a [Uuid] and RFC 3339 times come from other crates: classes with
    their round trips as laws.  The file ends with a concrete instance of each. *)

From Stdlib Require Import Strings.Byte.
From stdpp Require Import base tactics numbers sets list strings pretty option countable.
From S2P Require Import Prelude Crypto.
Open Scope hc_scope.

(** The text of a [Float] is kept as it is. *)
Inductive Number :=
| PosInt (n : N)
| NegInt (z : Z)
| Float (text : string).

Inductive Value :=
| VNull
| VBool (b : bool)
| VNumber (n : Number)
| VString (s : string)
| VArray (l : list Value)
| VObject (m : list (string * Value)).

Definition as_str (v : Value) : option string :=
  match v with VString s => Some s | _ => None end.
Definition as_u64 (v : Value) : option N :=
  match v with VNumber (PosInt n) => Some n | _ => None end.
Definition is_object (v : Value) : bool :=
  match v with VObject _ => true | _ => false end.

(** ** Objects *)

Fixpoint obj_get (k : string) (m : list (string * Value)) : option Value :=
  match m with
  | [] => None
  | (k', v) :: m => if decide (k = k') then Some v else obj_get k m
  end.

Fixpoint obj_insert (k : string) (v : Value) (m : list (string * Value)) : list (string * Value) :=
  match m with
  | [] => [(k, v)]
  | (k', v') :: m' =>
      match String.compare k k' with
      | Eq => (k, v) :: m'
      | Lt => (k, v) :: m
      | Gt => (k', v') :: obj_insert k v m'
      end
  end.

(** The macro [json!] on an object. *)
Definition json_object (fields : list (string * Value)) : Value :=
  VObject (foldl (λ m kv, obj_insert kv.1 kv.2 m) [] fields).

(** [value.get(key)]. *)
Definition value_get (k : string) (v : Value) : option Value :=
  match v with VObject m => obj_get k m | _ => None end.

(** [value[key] = x]: [null] becomes an object, other values panic. *)
Definition value_set {E} (k : string) (x v : Value) : res E Value :=
  match v with
  | VObject m => Ok (VObject (obj_insert k x m))
  | VNull => Ok (VObject [(k, x)])
  | _ => Panic
  end.

Lemma compare_flip a b : String.compare a b = Gt → String.compare b a = Lt.
Proof. intros C. rewrite String.compare_antisym, C. done. Qed.

Lemma compare_refl k : String.compare k k = Eq.
Proof.
  pose proof (String.compare_antisym k k) as E. destruct (String.compare k k); done.
Qed.

Lemma obj_get_insert k v m : obj_get k (obj_insert k v m) = Some v.
Proof.
  induction m as [|[k' v'] m IH]; simpl; [by rewrite decide_True|].
  destruct (String.compare k k') eqn:C; simpl; [by rewrite decide_True..|].
  destruct (decide (k = k')) as [<-|]; [|done].
  by rewrite compare_refl in C.
Qed.

Lemma obj_get_insert_ne k k' v m : k ≠ k' → obj_get k (obj_insert k' v m) = obj_get k m.
Proof.
  intros N. induction m as [|[k2 v2] m IH]; simpl; [by rewrite decide_False|].
  destruct (String.compare k' k2) eqn:C; simpl.
  - apply String.compare_eq_iff in C as <-. by rewrite !decide_False.
  - by rewrite decide_False.
  - by rewrite IH.
Qed.

(** ** What the parser reads back

    A value of at most [d] nested levels, without floats, with integers of 64 bits
    and sorted keys.  [serde_json] refuses more than 127 levels. *)
Fixpoint sorted_keys (m : list (string * Value)) : bool :=
  match m with
  | [] => true
  | (k, _) :: m' =>
      match m' with
      | [] => true
      | (k', _) :: _ => bool_decide (String.compare k k' = Lt) && sorted_keys m'
      end
  end.

Fixpoint json_safe (d : nat) (v : Value) : bool :=
  match v with
  | VNull | VBool _ | VString _ => true
  | VNumber (PosInt n) => (n <? U64)%N
  | VNumber (NegInt z) => (- 2 ^ 63 <=? z)%Z && (z <? 0)%Z
  | VNumber (Float _) => false
  | VArray l => match d with O => false | S d => forallb (json_safe d) l end
  | VObject m =>
      match d with
      | O => false
      | S d => sorted_keys m && forallb (λ kv, json_safe d kv.2) m
      end
  end.
Definition JSON_DEPTH : nat := 127.

Lemma sorted_keys_insert k v m : sorted_keys m = true → sorted_keys (obj_insert k v m) = true.
Proof.
  induction m as [|[k1 v1] m IH]; [done|]. intros S. simpl.
  destruct (String.compare k k1) eqn:C.
  - apply String.compare_eq_iff in C as ->. destruct m as [|[k2 v2] m]; done.
  - cbn [sorted_keys]. rewrite bool_decide_eq_true_2 by done. done.
  - assert (Ht : sorted_keys m = true).
    { destruct m as [|[k2 v2] m]; [done|]. by apply andb_prop in S as [_ ?]. }
    specialize (IH Ht). destruct m as [|[k2 v2] m].
    + simpl. by rewrite bool_decide_eq_true_2 by by apply compare_flip.
    + apply andb_prop in S as [S1 _]. simpl in IH |- *.
      destruct (String.compare k k2) eqn:C2; cbn in IH |- *.
      * apply String.compare_eq_iff in C2 as ->. by rewrite S1.
      * rewrite (bool_decide_eq_true_2 (String.compare k1 k = Lt)) by by apply compare_flip.
        exact IH.
      * by rewrite S1.
Qed.

Lemma json_safe_insert d k v m :
  json_safe (S d) (VObject m) = true → json_safe d v = true →
  json_safe (S d) (VObject (obj_insert k v m)) = true.
Proof.
  simpl. intros [S F]%andb_prop V. rewrite sorted_keys_insert by done. simpl.
  clear S. induction m as [|[k1 v1] m IH]; simpl; [by rewrite V|].
  simpl in F. apply andb_prop in F as [F1 F2].
  destruct (String.compare k k1); simpl; rewrite ?V, ?F1, ?F2; [done..|]. by apply IH.
Qed.

Lemma json_safe_object d fields :
  forallb (λ kv, json_safe d kv.2) fields = true → json_safe (S d) (json_object fields) = true.
Proof.
  unfold json_object. cut (∀ m, json_safe (S d) (VObject m) = true →
    forallb (λ kv, json_safe d kv.2) fields = true →
    json_safe (S d) (VObject (foldl (λ m kv, obj_insert kv.1 kv.2 m) m fields)) = true).
  { intros H. by apply H. }
  induction fields as [|[k v] fields IH]; intros m M F; [done|].
  simpl in F. apply andb_prop in F as [F1 F2]. apply IH; [|done]. by apply json_safe_insert.
Qed.

Lemma json_safe_mono d d' v : d ≤ d' → json_safe d v = true → json_safe d' v = true.
Proof.
  revert d' v. induction d as [|d IH]; intros d' v L; destruct d' as [|d']; try lia;
    destruct v as [| |[]| |l|m]; try done; cbn [json_safe].
  - intros F. apply forallb_forall. intros v I. rewrite forallb_forall in F.
    apply IH; [lia|]. by apply F.
  - intros [S F]%andb_prop. rewrite S. apply forallb_forall. intros kv I.
    rewrite forallb_forall in F. apply IH; [lia|]. by apply F.
Qed.

(** ** The other crates *)

Class SerdeJson := {
  json_from_slice : bytes → res string Value;
  json_to_vec : Value → res string bytes;
  (** [serde_json::from_value::<Vec<u8>>]. *)
  vec_u8_from_value : Value → option bytes;
}.
Class SerdeJsonLaws `{SerdeJson} : Prop := {
  json_to_vec_total v : ∃ b, json_to_vec v = Ok b;
  json_from_to_vec v b :
    json_safe JSON_DEPTH v = true → json_to_vec v = Ok b → json_from_slice b = Ok v;
  (** The compact form is on one line, and an object starts with its brace. *)
  json_to_vec_one_line v b : json_to_vec v = Ok b → x0a ∉ b;
  json_to_vec_brace m b : json_to_vec (VObject m) = Ok b → head b = Some x7b;
  json_trailing_newline b v : json_from_slice b = Ok v → json_from_slice (b ++ [x0a]) = Ok v;
}.

Class Base64 := {
  base64_encode : bytes → string;
  base64_decode : string → option bytes;
}.
Class Base64Laws `{Base64} : Prop :=
  base64_decode_encode : ∀ b, base64_decode (base64_encode b) = Some b.

Class UuidText := {
  uuid_to_string : Uuid → string;
  uuid_parse_str : string → option Uuid;
}.
Class UuidTextLaws `{UuidText} : Prop :=
  uuid_parse_to_string : ∀ u, uuid_parse_str (uuid_to_string u) = Some u.

Class Rfc3339 := {
  to_rfc3339 : Z → string;
  parse_from_rfc3339 : string → option Z;
}.
(** The years 1970 to 9999. *)
Definition rfc3339_years (t : Z) : bool := (0 <=? t)%Z && (t <? 253402300800 * 10 ^ 9)%Z.
Class Rfc3339Laws `{Rfc3339} : Prop :=
  parse_to_rfc3339 : ∀ t, rfc3339_years t = true → parse_from_rfc3339 (to_rfc3339 t) = Some t.

(** ** Concrete instances *)

Fixpoint de_pos (b : bytes) : option (positive * bytes) :=
  match b with
  | x00 :: r => Some (xH, r)
  | x01 :: b => '(p, r) ← de_pos b; Some (xO p, r)
  | x02 :: b => '(p, r) ← de_pos b; Some (xI p, r)
  | _ => None
  end.

Lemma de_ser_pos p r : de_pos (ser_pos p ++ r) = Some (p, r).
Proof. induction p as [p IH|p IH|]; simpl; rewrite ?IH; done. Qed.

Lemma de_pos_app b p r s : de_pos b = Some (p, r) → de_pos (b ++ s) = Some (p, r ++ s).
Proof.
  revert p r. induction b as [|c b IH]; intros p r; [done|].
  destruct c; simpl; intros D; try discriminate D;
    [by injection D as <- <-|..]; apply bind_Some in D as [[q t] [D1 D2]];
    injection D2 as <- <-; by rewrite (IH _ _ D1).
Qed.

Lemma ser_pos_no_newline p : x0a ∉ ser_pos p.
Proof. induction p; simpl; set_solver. Qed.

#[export] Instance Number_eq_dec : EqDecision Number.
Proof. solve_decision. Defined.
#[export] Instance Number_countable : Countable Number.
Proof.
  refine (inj_countable'
    (λ n, match n with PosInt n => inl (inl n) | NegInt z => inl (inr z) | Float t => inr t end)
    (λ s, match s with inl (inl n) => PosInt n | inl (inr z) => NegInt z | inr t => Float t end) _).
  by intros [].
Defined.

(** Values as trees, to count them. *)
Fixpoint value_tree (v : Value) : gen_tree (Number + string) :=
  match v with
  | VNull => GenNode 0 []
  | VBool b => GenNode (if b then 2 else 1) []
  | VNumber n => GenLeaf (inl n)
  | VString s => GenLeaf (inr s)
  | VArray l => GenNode 3 (map value_tree l)
  | VObject m => GenNode 4 (map (λ kv, GenNode 5 [GenLeaf (inr kv.1); value_tree kv.2]) m)
  end.
Fixpoint tree_value (t : gen_tree (Number + string)) : Value :=
  match t with
  | GenLeaf (inl n) => VNumber n
  | GenLeaf (inr s) => VString s
  | GenNode 1 _ => VBool false
  | GenNode 2 _ => VBool true
  | GenNode 3 l => VArray (map tree_value l)
  | GenNode 4 l =>
      VObject (map (λ t, match t with
                         | GenNode _ [GenLeaf (inr k); t] => (k, tree_value t)
                         | _ => (EmptyString, VNull)
                         end) l)
  | _ => VNull
  end.

Fixpoint tree_value_tree (v : Value) : tree_value (value_tree v) = v.
Proof.
  destruct v as [|[]| | |l|m]; simpl; try reflexivity; f_equal.
  - rewrite map_map. induction l as [|v l IH]; simpl; [done|]. by rewrite tree_value_tree, IH.
  - rewrite map_map. induction m as [|[k v] m IH]; simpl; [done|]. by rewrite tree_value_tree, IH.
Qed.

Definition toy_serde_json : SerdeJson := {|
  json_from_slice b :=
    match b with
    | [] => Err "empty"
    | _ :: b =>
        match de_pos b with
        | Some (p, r) =>
            if forallb (λ c, bool_decide (c = x0a)) r then
              match decode (A := gen_tree (Number + string)) p with
              | Some t => Ok (tree_value t)
              | None => Err "not a value"
              end
            else Err "trailing characters"
        | None => Err "not a number"
        end
    end;
  json_to_vec v :=
    Ok ((if is_object v then x7b else x20) :: ser_pos (encode (value_tree v)));
  vec_u8_from_value v := None;
|}.

Lemma toy_serde_json_laws : @SerdeJsonLaws toy_serde_json.
Proof.
  constructor.
  - intros v. by eexists.
  - intros v b _ [= <-]. simpl. rewrite <-(app_nil_r (ser_pos _)), de_ser_pos. simpl.
    by rewrite decode_encode, tree_value_tree.
  - intros v b [= <-]. pose proof (ser_pos_no_newline (encode (value_tree v))).
    destruct (is_object v); set_solver.
  - by intros m b [= <-].
  - intros [|c b] v; simpl; [done|].
    destruct (de_pos b) as [[p r]|] eqn:D; [|done]. rewrite (de_pos_app _ _ _ [x0a] D).
    rewrite forallb_app. destruct (forallb _ r); done.
Qed.

Lemma hex_dec_enc b : hex_dec (hex_enc b) = Some b.
Proof.
  induction b as [|x b IH]; [done|]. cbn [hex_enc hex_dec]. rewrite IH. cbn. do 2 f_equal. by destruct x.
Qed.
#[export] Instance hex_enc_inj : Inj (=) (=) hex_enc.
Proof. intros a b E. apply (inj Some). by rewrite <-(hex_dec_enc a), <-(hex_dec_enc b), E. Qed.

Definition toy_base64 : Base64 := {|
  base64_encode := String.string_of_list_byte;
  base64_decode s := Some (bytes_of s);
|}.
Lemma toy_base64_laws : @Base64Laws toy_base64.
Proof. intros b. simpl. unfold bytes_of. by rewrite String.list_byte_of_string_of_list_byte. Qed.

Definition toy_uuid_text : UuidText := {|
  uuid_to_string u := String.string_of_list_byte (arr u);
  uuid_parse_str s := array_of 16 (bytes_of s);
|}.
Lemma toy_uuid_text_laws : @UuidTextLaws toy_uuid_text.
Proof.
  intros u. simpl. unfold bytes_of. rewrite String.list_byte_of_string_of_list_byte.
  apply array_of_arr.
Qed.

Definition toy_rfc3339 : Rfc3339 := {|
  to_rfc3339 t := String.string_of_list_byte (ser_pos (encode t));
  parse_from_rfc3339 s := '(p, _) ← de_pos (bytes_of s); decode p;
|}.
Lemma toy_rfc3339_laws : @Rfc3339Laws toy_rfc3339.
Proof.
  intros t _. simpl. unfold bytes_of. rewrite String.list_byte_of_string_of_list_byte.
  rewrite <-(app_nil_r (ser_pos _)), de_ser_pos. simpl. apply decode_encode.
Qed.
