(* ===== verification/FileHeader.v ===== *)
(** * Headers of encrypted files ([crates/client/src/file/encrypt.rs],
      [crates/client/src/file/ciphertext.rs],
      [crates/client/src/file/content_manifest.rs])

    An encrypted file is a JSON header on one line, a separator line and the
    ciphertext.  This file has the header's serialisation, the bounded reader, the
    inspection that decides whether bytes are ciphertext, the layout of sparse files,
    and the manifest that binds the layout to the wrapped key.  A reader is what its
    reads return, followed by the end of the file or by an error; the conversions
    that [serde] derives for the metadata types are a class. *)

From Stdlib Require Import Strings.Byte.
From stdpp Require Import base tactics numbers sets list strings pretty option.
From S2P Require Import Prelude StateError Crypto Json FilePath Storage FileContent.
Open Scope hc_scope.

Definition MAX_ENCRYPTED_HEADER_BYTES : N := 16 * 1024 * 1024.
Definition newline : byte := x0a.
Definition SEPARATOR_LINE : bytes := bytes_of "---ENCRYPTED_DATA---" ++ [newline].
Definition ENCRYPTED_FILE_SEPARATOR : bytes := newline :: SEPARATOR_LINE.

(** ** Metadata of files *)

Record PlatformXattr := mkPlatformXattr {
  px_name : string;
  px_value_base64 : string;
}.
Record MacOsFileMetadata := mkMacOsFileMetadata {
  mo_xattrs : list PlatformXattr;
  mo_acl_text : option string;
}.
Record PlatformFileMetadata := mkPlatformFileMetadata {
  pm_unix_mode : option N;
  pm_macos : option MacOsFileMetadata;
}.
Record SparseExtent := mkSparseExtent {
  se_offset : N;
  se_length : N;
}.
Record SparseFileMetadata := mkSparseFileMetadata {
  sp_logical_size : N;
  sp_extents : list SparseExtent;
}.

Definition MacOsFileMetadata_is_empty (m : MacOsFileMetadata) : bool :=
  bool_decide (length (mo_xattrs m) = 0)
  && match mo_acl_text m with
     | Some value => bool_decide (trim value = EmptyString)
     | None => true
     end.
Definition PlatformFileMetadata_is_empty (m : PlatformFileMetadata) : bool :=
  negb (is_some (pm_unix_mode m))
  && match pm_macos m with Some mac => MacOsFileMetadata_is_empty mac | None => true end.

Definition PlatformXattr_from_bytes `{Base64} (name : string) (value : bytes) : PlatformXattr :=
  mkPlatformXattr name (base64_encode value).
Definition PlatformXattr_decode_value `{Base64} (x : PlatformXattr) : option bytes :=
  base64_decode (px_value_base64 x).

(** The loop of [validated_packed_size]. *)
Fixpoint validate_extents (logical_size end_ packed : N) (extents : list SparseExtent) : option N :=
  match extents with
  | [] => Some packed
  | extent :: extents =>
      if (se_length extent =? 0)%N || (se_offset extent <? end_)%N then None
      else
        end_ ← u64_checked_add (se_offset extent) (se_length extent);
        if (logical_size <? end_)%N then None
        else
          packed ← u64_checked_add packed (se_length extent);
          validate_extents logical_size end_ packed extents
  end.
Definition validated_packed_size (m : SparseFileMetadata) (expected_logical_size : N) : option N :=
  if decide (sp_logical_size m ≠ expected_logical_size) then None
  else validate_extents (sp_logical_size m) 0 0 (sp_extents m).

Definition packed_size (m : SparseFileMetadata) : N :=
  foldl (λ total extent, u64_saturating_add total (se_length extent)) 0%N (sp_extents m).

Definition is_effectively_sparse (m : SparseFileMetadata) : bool :=
  bool_decide (length (sp_extents m) = 0)
  || bool_decide (1 < length (sp_extents m))
  || match head (sp_extents m) with
     | Some extent => negb (se_offset extent =? 0)%N || negb (se_length extent =? sp_logical_size m)%N
     | None => false
     end.

(** ** Reading a header *)

Inductive ErrorKind :=
| InvalidData
| OutOfMemory
| NotFound
| OtherKind (code : N).
Record IoError := mkIoError { io_kind : ErrorKind; io_text : string }.

(** What successive reads return: these bytes, then the error or the end. *)
Record Reader := mkReader { rd_bytes : bytes; rd_error : option IoError }.

(** The bytes up to a newline or the limit, what follows, and whether one of the two
    was reached. *)
Fixpoint take_line (limit : N) (b : bytes) : bytes * bytes * bool :=
  if (limit =? 0)%N then ([], b, true)
  else
    match b with
    | [] => ([], [], false)
    | c :: b =>
        if decide (c = newline) then ([c], b, true)
        else let '(line, rest, done) := take_line (N.pred limit) b in (c :: line, rest, done)
    end.

(** [reader.take(limit).read_until('\n', &mut line)]. *)
Definition read_until (limit : N) (r : Reader) : res IoError bytes * Reader :=
  let '(line, rest, done) := take_line limit (rd_bytes r) in
  let r := mkReader rest (rd_error r) in
  match rd_error r with
  | Some e => if done then (Ok line, r) else (Err e, r)
  | None => (Ok line, r)
  end.

(** ** The fields of a header *)

Record SerializedEncryptedHeader := mkSerializedEncryptedHeader {
  sh_file_id : string;
  sh_file_path : string;
  sh_group_id : option Uuid;
  sh_epoch_id : N;
  sh_header_version : N;
  sh_wrapped_file_key : bytes;
  sh_key_wrap_nonce : bytes;
  sh_key_wrap_aad_hash : bytes;
  sh_content_nonce : bytes;
  sh_content_chunk_size : option N;
  sh_original_size : N;
  sh_encrypted_size : N;
  sh_encrypted_at : Z;
  sh_original_name : option string;
  sh_platform_metadata : option PlatformFileMetadata;
  sh_sparse_metadata : option SparseFileMetadata;
}.

(** What is known of an encrypted file ([crates/client/src/state/client.rs]). *)
Record EncryptedFileMetadata := mkEncryptedFileMetadata {
  ef_file_id : string;
  ef_file_path : string;
  ef_header_version : option N;
  ef_group_id : option Uuid;
  ef_epoch_id : N;
  ef_wrapped_file_key : option bytes;
  ef_key_wrap_nonce : option bytes;
  ef_key_wrap_aad_hash : option bytes;
  ef_content_nonce : option bytes;
  ef_content_chunk_size : option N;
  ef_content_size : N;
  ef_encrypted_size : N;
  ef_created_at : Z;
  ef_platform_metadata : option PlatformFileMetadata;
  ef_sparse_metadata : option SparseFileMetadata;
  ef_encrypted_content : bytes;
}.

Record HeaderIdentity := mkHeaderIdentity {
  hi_file_id : string;
  hi_epoch_id : N;
  hi_group_id : option Uuid;
}.
Inductive ContentKind :=
| NotCiphertext
| Damaged (identity : HeaderIdentity)
| Ciphertext (metadata : EncryptedFileMetadata).

Definition ContentKind_identity (k : ContentKind) : option HeaderIdentity :=
  match k with
  | NotCiphertext => None
  | Damaged identity => Some identity
  | Ciphertext m => Some (mkHeaderIdentity (ef_file_id m) (ef_epoch_id m) (ef_group_id m))
  end.

(** The conversions derived by [serde]: read back, as objects of at most four levels. *)
Class HeaderSerde := {
  platform_to_value : PlatformFileMetadata → Value;
  platform_from_value : Value → option PlatformFileMetadata;
  sparse_to_value : SparseFileMetadata → Value;
  sparse_from_value : Value → option SparseFileMetadata;
}.
Definition platform_in_range (m : PlatformFileMetadata) : bool :=
  match pm_unix_mode m with Some mode => (mode <? U32)%N | None => true end.
Definition sparse_in_range (m : SparseFileMetadata) : bool :=
  (sp_logical_size m <? U64)%N
  && forallb (λ e, (se_offset e <? U64)%N && (se_length e <? U64)%N) (sp_extents m).
Class HeaderSerdeLaws `{HeaderSerde} : Prop := {
  platform_from_to m :
    platform_in_range m = true → platform_from_value (platform_to_value m) = Some m;
  platform_from_null : platform_from_value VNull = None;
  platform_to_safe m : platform_in_range m = true → json_safe 4 (platform_to_value m) = true;
  sparse_from_to m : sparse_in_range m = true → sparse_from_value (sparse_to_value m) = Some m;
  sparse_to_safe m : sparse_in_range m = true → json_safe 4 (sparse_to_value m) = true;
  sparse_to_object m : is_object (sparse_to_value m) = true;
}.

Section Headers.
Context {json : SerdeJson} {b64 : Base64} {uuid : UuidText} {rfc : Rfc3339} {hs : HeaderSerde}.
(** Whether [try_reserve] finds the memory. *)
Context (can_reserve : N → bool).

Fixpoint read_header_loop (fuel : nat) (header : bytes) (r : Reader) : res IoError bytes * Reader :=
  match fuel with
  | O => (Diverge, r)
  | S fuel =>
      let too_long := mkIoError InvalidData "Encrypted header exceeds 16 MiB" in
      if (MAX_ENCRYPTED_HEADER_BYTES <? N.of_nat (length header))%N then (Err too_long, r)
      else
        let remaining := (MAX_ENCRYPTED_HEADER_BYTES - N.of_nat (length header))%N in
        let limit := u64_saturating_add remaining (N.of_nat (length SEPARATOR_LINE)) in
        match read_until limit r with
        | (Ok line, r) =>
            let n := N.of_nat (length line) in
            if (n =? 0)%N then
              (Err (mkIoError InvalidData "Encrypted header separator not found"), r)
            else if decide (line = SEPARATOR_LINE ∨ line = bytes_of "---ENCRYPTED_DATA---") then
              (Ok header, r)
            else if (remaining <? n)%N then (Err too_long, r)
            else if negb (can_reserve n) then
              (Err (mkIoError OutOfMemory "Unable to reserve encrypted header"), r)
            else read_header_loop fuel (header ++ line) r
        | (Err e, r) => (Err e, r)
        | (Panic, r) => (Panic, r)
        | (Diverge, r) => (Diverge, r)
        end
  end.
Definition read_encrypted_header (r : Reader) : res IoError bytes * Reader :=
  read_header_loop (S (length (rd_bytes r))) [] r.

(** ** Writing a header *)

Definition opt_value {A} (f : A → Value) (o : option A) : Value := from_option f VNull o.
Definition VN (n : N) : Value := VNumber (PosInt n).
Definition VB (b : bytes) : Value := VString (base64_encode b).

Definition header_json (h : SerializedEncryptedHeader) : Value := json_object [
  ("file_id", VString (sh_file_id h));
  ("original_name", opt_value VString (sh_original_name h));
  ("original_size", VN (sh_original_size h));
  ("file_size", VN (sh_original_size h));
  ("encrypted_size", VN (sh_encrypted_size h));
  ("epoch_id", VN (sh_epoch_id h));
  ("group_id", opt_value (λ id, VString (uuid_to_string id)) (sh_group_id h));
  ("encrypted_at", VString (to_rfc3339 (sh_encrypted_at h)));
  ("file_path", VString (sh_file_path h));
  ("header_version", VN (sh_header_version h));
  ("wrapped_file_key", VB (sh_wrapped_file_key h));
  ("key_wrap_nonce", VB (sh_key_wrap_nonce h));
  ("key_wrap_aad_hash", VB (sh_key_wrap_aad_hash h));
  ("content_nonce", VB (sh_content_nonce h));
  ("chunk_size", opt_value VN (sh_content_chunk_size h));
  ("platform_metadata", opt_value platform_to_value (sh_platform_metadata h));
  ("sparse_metadata", opt_value sparse_to_value (sh_sparse_metadata h))]%string.

Definition serialize_encrypted_header (h : SerializedEncryptedHeader) : res EncryptionError bytes :=
  let? serialized :=
    map_err (λ e, EncStorage (StorageError_display
                    (StSerialization ("Failed to serialize encrypted metadata: " +:+ e))))
      (json_to_vec (header_json h)) in
  Ok (serialized ++ ENCRYPTED_FILE_SEPARATOR).

(** [fs] writes the whole file; its error is shown with the path. *)
Definition write_encrypted_file (fs_write : bytes → res IoError unit) (path : string)
    (h : SerializedEncryptedHeader) (encrypted_content : bytes) : res EncryptionError unit :=
  let? serialized := serialize_encrypted_header h in
  map_err (λ e, EncStorage (StorageError_display
                  (StIo ("Failed to write encrypted file " +:+ path +:+ ": " +:+ io_text e))))
    (fs_write (serialized ++ encrypted_content)).

(** ** Recognising ciphertext *)

Definition decode_header_bytes (val : option Value) : option bytes :=
  match val with
  | Some v =>
      match as_str v ≫= base64_decode with
      | Some b => Some b
      | None => vec_u8_from_value v
      end
  | None => None
  end.

Definition get_str (k : string) (v : Value) : option string := value_get k v ≫= as_str.
Definition get_u64 (k : string) (v : Value) : option N := value_get k v ≫= as_u64.
Definition u32_try_from (n : N) : option N := if (n <? U32)%N then Some n else None.
Definition filter_opt {A} (p : A → bool) (o : option A) : option A :=
  match o with Some a => if p a then Some a else None | None => None end.
(** A field that may be missing or [null], and must be good otherwise. *)
Definition optional_field {A} (f : Value → option A) (field : option Value) : option (option A) :=
  match field with
  | None | Some VNull => Some None
  | Some value => a ← f value; Some (Some a)
  end.

(** The sizes the header states agree with the ciphertext: the tail of the checks of
    [parse_header_metadata]. *)
Definition sizes_agree (content_size_known : bool) (content_chunk_size : option N)
    (packed_size encrypted_size : N) : bool :=
  match content_chunk_size with
  | Some chunk_size =>
      negb (bad_chunk_size chunk_size)
      && match chunked_encrypted_size packed_size chunk_size with
         | Ok n => (n =? encrypted_size)%N
         | _ => false
         end
  | None =>
      negb content_size_known
      || match u64_checked_add packed_size (12 + AEAD_TAG_SIZE) with
         | Some n => (encrypted_size =? n)%N
         | None => false
         end
  end.

Definition parse_header_metadata (now : Z) (h : Value) (encrypted_size : N)
  : option EncryptedFileMetadata :=
  file_id ← get_str "file_id" h;
  epoch_id ← get_u64 "epoch_id" h;
  header_version ← match value_get "header_version" h with
                   | None => Some 1%N
                   | Some value => as_u64 value ≫= u32_try_from
                   end;
  let group_id := get_str "group_id" h ≫= uuid_parse_str in
  wrapped_file_key ← decode_header_bytes (value_get "wrapped_file_key" h);
  key_wrap_nonce ← decode_header_bytes (value_get "key_wrap_nonce" h);
  key_wrap_aad_hash ← decode_header_bytes (value_get "key_wrap_aad_hash" h);
  content_nonce ← decode_header_bytes (value_get "content_nonce" h);
  let created_at := default now (get_str "encrypted_at" h ≫= parse_from_rfc3339) in
  let content_size_field :=
    match get_u64 "file_size" h with
    | Some n => Some n
    | None => get_u64 "original_size" h
    end in
  if (3 <=? header_version)%N && negb (is_some content_size_field) then None
  else
    let content_size := default 0%N content_size_field in
    content_chunk_size ← optional_field as_u64 (value_get "chunk_size" h);
    let platform_metadata :=
      filter_opt (λ m, negb (PlatformFileMetadata_is_empty m))
        (value_get "platform_metadata" h ≫= platform_from_value) in
    parsed_sparse_metadata ← optional_field sparse_from_value (value_get "sparse_metadata" h);
    _ ← match parsed_sparse_metadata with
        | Some layout => validated_packed_size layout content_size
        | None => Some 0%N
        end;
    let sparse_metadata := filter_opt is_effectively_sparse parsed_sparse_metadata in
    packed_size ← match sparse_metadata with
                  | Some layout => validated_packed_size layout content_size
                  | None => Some content_size
                  end;
    if negb (sizes_agree (is_some content_size_field) content_chunk_size packed_size encrypted_size)
    then None
    else
      stored_file_path ← filter_opt (λ value, bool_decide (trim value ≠ EmptyString))
                           (get_str "file_path" h);
      Some (mkEncryptedFileMetadata file_id (normalize_file_identifier stored_file_path)
              (Some header_version) group_id epoch_id (Some wrapped_file_key)
              (Some key_wrap_nonce) (Some key_wrap_aad_hash) (Some content_nonce)
              content_chunk_size content_size encrypted_size created_at platform_metadata
              sparse_metadata []).

Definition classify_header (now : Z) (header : Value) (encrypted_size : N) : ContentKind :=
  match parse_header_metadata now header encrypted_size with
  | Some metadata => Ciphertext metadata
  | None =>
      match get_str "file_id" header, get_u64 "epoch_id" header with
      | Some file_id, Some epoch_id =>
          Damaged (mkHeaderIdentity file_id epoch_id (get_str "group_id" header ≫= uuid_parse_str))
      | _, _ => NotCiphertext
      end
  end.

Definition read_header (r : Reader) : option Value * Reader :=
  match read_encrypted_header r with
  | (Ok b, r) =>
      (match json_from_slice b with
       | Ok v => if is_object v then Some v else None
       | _ => None
       end, r)
  | (_, r) => (None, r)
  end.

Definition inspect_bytes (now : Z) (contents : bytes) : ContentKind :=
  if decide (head contents ≠ Some x7b) then NotCiphertext
  else
    match read_header (mkReader contents None) with
    | (Some header, r) => classify_header now header (N.of_nat (length (rd_bytes r)))
    | (None, _) => NotCiphertext
    end.

(** An opened file: its length, its contents, and the result of asking for the
    position. *)
Record OpenFile := mkOpenFile {
  of_len : res IoError N;
  of_reader : Reader;
  of_seek : res IoError unit;
}.
Definition inspect_path (now : Z) (file : res IoError OpenFile) : res IoError ContentKind :=
  let? file := file in
  let? file_len := of_len file in
  match rd_bytes (of_reader file), rd_error (of_reader file) with
  | [], Some e => Err e
  | b, _ =>
      if decide (head b ≠ Some x7b) then Ok NotCiphertext
      else
        match read_header (of_reader file) with
        | (Some header, r) =>
            let? _ := of_seek file in
            let position := N.of_nat (length b - length (rd_bytes r)) in
            Ok (classify_header now header (file_len - position))
        | (None, _) => Ok NotCiphertext
        end
  end.
End Headers.

(** ** The content manifest ([content_manifest.rs]) *)

Definition VERSION : N := 3.

(** The errors of [crates/client/src/errors.rs] that the file code raises. *)
Inductive ClientError :=
| CeInvalidState (msg : string)
| CeStorage (e : StorageError)
| CeEncryptionError (msg : string)
| CeDecryptionError (msg : string)
| CeLegacyCompatibilityRequired
| CeFileIntegrity (msg : string)
| CeInvalidInput (msg : string)
| CeSerializationError (msg : string).

Inductive LegacyReadPolicy := Strict | AllowLegacyUnverified.

Definition old_layout (m : EncryptedFileMetadata) : bool :=
  bool_decide (ef_header_version m = Some 2%N) || is_some (ef_content_chunk_size m)
  || is_some (ef_sparse_metadata m).
Definition requires_legacy_compatibility (m : EncryptedFileMetadata) : bool :=
  let v := default 1%N (ef_header_version m) in
  ((v =? 1)%N || (v =? 2)%N) && old_layout m.
Definition LegacyReadPolicy_check (p : LegacyReadPolicy) (m : EncryptedFileMetadata)
  : res ClientError unit :=
  match p with
  | Strict => if requires_legacy_compatibility m then Err CeLegacyCompatibilityRequired else Ok tt
  | AllowLegacyUnverified => Ok tt
  end.

(** The bytes hashed by [digest]. *)
Definition extent_msg (e : SparseExtent) : bytes :=
  le_bytes 8 (se_offset e) ++ le_bytes 8 (se_length e).
Definition sparse_msg (m : SparseFileMetadata) : bytes :=
  le_bytes 8 (sp_logical_size m) ++ le_bytes 8 (N.of_nat (length (sp_extents m)))
    ++ flat_map extent_msg (sp_extents m).
Definition flag (b : bool) : byte := if b then x01 else x00.
Definition manifest_msg (size encrypted_size : N) (chunk : option N) (nonce : bytes)
    (sparse : option SparseFileMetadata) : bytes :=
  bytes_of "hybridcipher/content-manifest/v3" ++ [x00]
    ++ le_bytes 8 size ++ le_bytes 8 encrypted_size
    ++ [flag (is_some chunk)] ++ le_bytes 8 (default 0%N chunk)
    ++ le_bytes 8 (N.of_nat (length nonce)) ++ nonce
    ++ [flag (is_some sparse)] ++ from_option sparse_msg [] sparse.

Section Manifest.
Context {sha : Sha256} {aead : Aead}.

Definition digest (size encrypted_size : N) (chunk : option N) (nonce : bytes)
    (sparse : option SparseFileMetadata) : bytes :=
  arr (sha256 (manifest_msg size encrypted_size chunk nonce sparse)).

Definition rewrap (nonce : array 12) (envelope : bytes) (kek : Key) (aad : bytes)
  : res EncryptionError (bytes * bytes) :=
  if negb (bool_decide (length envelope = 32 ∨ length envelope = 64)) then
    Err (EncEncryptionFailure "Invalid key envelope")
  else
    let fail e := EncEncryptionFailure (CryptoError_display e) in
    let? nonce_key := map_err fail (Nonce_from_bytes (arr nonce)) in
    let? wrapped := map_err fail (seal kek nonce_key FileData aad envelope) in
    Ok (wrapped, arr nonce).

Definition wrap (nonce : array 12) (key kek : Key) (aad manifest : bytes)
  : res EncryptionError (bytes * bytes) :=
  rewrap nonce (arr (key_bytes key) ++ manifest) kek aad.

Definition metadata_digest (m : EncryptedFileMetadata) : bytes :=
  digest (ef_content_size m) (ef_encrypted_size m) (ef_content_chunk_size m)
    (default [] (ef_content_nonce m)) (ef_sparse_metadata m).

Definition verify (m : EncryptedFileMetadata) (envelope : bytes) (allow_legacy : bool)
  : res ClientError Key :=
  let as_key b := map_err (λ e, CeFileIntegrity (CryptoError_display e)) (Key_from_bytes b) in
  let v := default 1%N (ef_header_version m) in
  if (v =? VERSION)%N then
    if decide (length envelope ≠ 64 ∨ drop 32 envelope ≠ metadata_digest m) then
      Err (CeFileIntegrity
             "Authenticated content manifest mismatch; file may be incomplete or modified")
    else as_key (take 32 envelope)
  else if (v =? 1)%N || (v =? 2)%N then
    if negb allow_legacy && old_layout m then Err CeLegacyCompatibilityRequired
    else as_key envelope
  else Err (CeFileIntegrity "Unsupported encrypted-file version").
End Manifest.

(** ** Sparse layouts

    A layout is sound when its extents are non-empty, in order, disjoint and within the
    logical size. *)
Fixpoint sound_extents (size from : N) (extents : list SparseExtent) : Prop :=
  match extents with
  | [] => True
  | e :: extents =>
      (0 < se_length e ∧ from ≤ se_offset e ∧ se_offset e + se_length e ≤ size)%N
      ∧ sound_extents size (se_offset e + se_length e) extents
  end.
Definition extents_total (extents : list SparseExtent) : N :=
  foldr (λ e n, se_length e + n)%N 0%N extents.

Lemma sound_extents_total size from extents :
  (from ≤ size)%N → sound_extents size from extents → (extents_total extents ≤ size - from)%N.
Proof.
  revert from. induction extents as [|e extents IH]; intros from L S; simpl; [lia|].
  destruct S as [[S1 [S2 S3]] S4]. specialize (IH _ S3 S4). lia.
Qed.

Lemma validate_extents_Some size from packed extents n :
  (size < U64)%N → (from ≤ size)%N → (packed ≤ from)%N →
  validate_extents size from packed extents = Some n ↔
  sound_extents size from extents ∧ n = (packed + extents_total extents)%N.
Proof.
  intros HS. revert from packed. induction extents as [|e extents IH]; intros from packed L P; simpl.
  { rewrite N.add_0_r. split; [intros [= ->]|intros [_ ->]]; done. }
  destruct (N.eqb_spec (se_length e) 0) as [Z|Z]; simpl; [split; [done|]; intros [[[? _] _] _]; lia|].
  destruct (N.ltb_spec (se_offset e) from) as [O|O]; [split; [done|]; intros [[[_ [? _]] _] _]; lia|].
  rewrite bind_Some. setoid_rewrite u64_checked_add_Some. split.
  - intros [x [[-> B] H]]. destruct (N.ltb_spec size (se_offset e + se_length e)); [done|].
    apply bind_Some in H as [q [[-> Q]%u64_checked_add_Some H]].
    apply IH in H as [H ->]; [|lia..]. split; [split; [lia|done]|lia].
  - intros [[[S1 [S2 S3]] S4] ->]. exists (se_offset e + se_length e)%N. split; [lia|].
    destruct (N.ltb_spec size (se_offset e + se_length e)); [lia|].
    apply bind_Some. exists (packed + se_length e)%N. split; [apply u64_checked_add_Some; lia|].
    apply IH; [lia..|]. split; [done|lia].
Qed.

Lemma foldl_saturating (l : list SparseExtent) (t : N) :
  (t + extents_total l < U64)%N →
  foldl (λ total e, u64_saturating_add total (se_length e)) t l = (t + extents_total l)%N.
Proof.
  revert t. induction l as [|e l IH]; intros t B; simpl in *; [lia|].
  unfold u64_saturating_add at 2. rewrite N.min_l by (unfold U64 in *; lia). rewrite IH; lia.
Qed.

Lemma validated_packed_size_Some m size n :
  (sp_logical_size m < U64)%N →
  validated_packed_size m size = Some n ↔
  sp_logical_size m = size ∧ sound_extents size 0 (sp_extents m) ∧ n = extents_total (sp_extents m).
Proof.
  intros B. unfold validated_packed_size. case_decide as D.
  - split; [done|]. by intros [? _].
  - assert (sp_logical_size m = size) as <- by (destruct (decide (sp_logical_size m = size)); tauto).
    rewrite validate_extents_Some by lia. rewrite N.add_0_l. naive_solver.
Qed.

Lemma validated_iff_packed m size n :
  (sp_logical_size m < U64)%N →
  validated_packed_size m size = Some n ↔
  sp_logical_size m = size ∧ sound_extents size 0 (sp_extents m) ∧ n = packed_size m.
Proof.
  intros B. rewrite validated_packed_size_Some by done. unfold packed_size.
  split; intros [<- [S ->]]; split_and!; try done;
    pose proof (sound_extents_total _ 0 _ (N.le_0_l _) S); rewrite foldl_saturating; lia.
Qed.

(** A sparse layout is accepted for a file of a given size exactly when it states that
    size and its extents are non-empty, ordered, disjoint and inside the file; the
    packed size is then the sum of the extents, which [packed_size] computes without
    saturating, and at most the size of the file. *)
Theorem sparse_layout_accepted_iff (m : SparseFileMetadata) (size : N) :
  (sp_logical_size m < U64)%N →
  (∀ n, validated_packed_size m size = Some n ↔
     sp_logical_size m = size ∧ sound_extents size 0 (sp_extents m) ∧ n = packed_size m)
  ∧ (∀ n, validated_packed_size m size = Some n → (n ≤ size)%N).
Proof.
  intros B. split; [intros n; by apply validated_iff_packed|].
  intros n [<- [S ->]]%validated_packed_size_Some; [|done].
  pose proof (sound_extents_total _ 0 _ (N.le_0_l _) S). lia.
Qed.

(** ** The reader *)

Lemma take_line_app limit b : (take_line limit b).1.1 ++ (take_line limit b).1.2 = b.
Proof.
  revert limit. induction b as [|c b IH]; intros limit; simpl; destruct (limit =? 0)%N; try done.
  case_decide; [done|]. specialize (IH (N.pred limit)).
  destruct (take_line _ b) as [[l r] d]. simpl in *. by rewrite IH.
Qed.

Lemma take_line_newline limit l rest :
  newline ∉ l → (N.of_nat (length l) < limit)%N →
  take_line limit (l ++ newline :: rest) = (l ++ [newline], rest, true).
Proof.
  revert limit. induction l as [|c l IH]; intros limit N L; simpl in *.
  - destruct (N.eqb_spec limit 0); [lia|]. done.
  - destruct (N.eqb_spec limit 0); [lia|]. rewrite decide_False by set_solver.
    rewrite IH; [done|set_solver|lia].
Qed.

Section Reading.
Context (can_reserve : N → bool).

Lemma read_until_settles limit r :
  settles (read_until limit r).1
  ∧ ∀ l, (read_until limit r).1 = Ok l →
      length l + length (rd_bytes (read_until limit r).2) = length (rd_bytes r).
Proof.
  unfold read_until. pose proof (take_line_app limit (rd_bytes r)) as A.
  destruct (take_line limit (rd_bytes r)) as [[l b] d]. simpl in A.
  assert (L : length l + length b = length (rd_bytes r)) by (by rewrite <-A, length_app).
  cbn [rd_error rd_bytes]. destruct (rd_error r) as [e|]; [destruct d|]; simpl; split;
    try done; by intros ? [= <-].
Qed.

Lemma read_until_rest limit r :
  length (rd_bytes (read_until limit r).2) ≤ length (rd_bytes r).
Proof.
  unfold read_until. pose proof (take_line_app limit (rd_bytes r)) as A.
  destruct (take_line limit (rd_bytes r)) as [[l b] d]. simpl in A. rewrite <-A, length_app.
  cbn [rd_error]. destruct (rd_error r); [destruct d|]; simpl; lia.
Qed.

Lemma read_header_loop_settles fuel header r :
  length (rd_bytes r) < fuel → settles (read_header_loop can_reserve fuel header r).1.
Proof.
  revert header r. induction fuel as [|fuel IH]; intros header r L; [lia|]. cbn [read_header_loop].
  destruct (_ <? _)%N; [done|].
  destruct (read_until_settles (u64_saturating_add (MAX_ENCRYPTED_HEADER_BYTES
    - N.of_nat (length header)) (N.of_nat (length SEPARATOR_LINE))) r) as [S K].
  destruct (read_until _ r) as [[line| | |] r'] eqn:E; cbn [fst snd] in S, K; try done.
  specialize (K _ eq_refl). destruct (N.eqb_spec (N.of_nat (length line)) 0); [done|].
  case_decide; [done|]. destruct (_ <? _)%N; [done|]. destruct (negb _); [done|].
  apply IH. lia.
Qed.

Lemma read_header_loop_bound fuel header r h r' :
  read_header_loop can_reserve fuel header r = (Ok h, r') →
  (N.of_nat (length h) ≤ MAX_ENCRYPTED_HEADER_BYTES)%N.
Proof.
  revert header r. induction fuel as [|fuel IH]; intros header r; [done|]. cbn [read_header_loop].
  destruct (N.ltb_spec MAX_ENCRYPTED_HEADER_BYTES (N.of_nat (length header))) as [|L]; [done|].
  destruct (read_until _ r) as [[line| | |] r2]; try done.
  destruct (_ =? _)%N; [done|]. case_decide; [by intros [= <- _]|].
  destruct (_ <? _)%N; [done|]. destruct (negb _); [done|]. apply IH.
Qed.

(** Reading a header returns on every input, whatever it holds and wherever its reads
    fail, and a header it returns is at most 16 MiB long. *)
Theorem header_read_bounded (r : Reader) :
  (∃ e r', read_encrypted_header can_reserve r = (Err e, r'))
  ∨ (∃ h r', read_encrypted_header can_reserve r = (Ok h, r')
       ∧ (N.of_nat (length h) ≤ MAX_ENCRYPTED_HEADER_BYTES)%N).
Proof.
  unfold read_encrypted_header.
  pose proof (read_header_loop_settles (S (length (rd_bytes r))) [] r (Nat.lt_succ_diag_r _)) as S.
  destruct (read_header_loop _ _ _ r) as [[h|e| |] r'] eqn:E; try done; [right|left; eauto].
  apply read_header_loop_bound in E. eauto.
Qed.

Definition reserves_header : Prop :=
  ∀ n, (n ≤ MAX_ENCRYPTED_HEADER_BYTES)%N → can_reserve n = true.

Lemma read_until_line limit l rest e :
  newline ∉ l → (N.of_nat (length l) < limit)%N →
  read_until limit (mkReader (l ++ newline :: rest) e) = (Ok (l ++ [newline]), mkReader rest e).
Proof. intros N L. unfold read_until. simpl. rewrite take_line_newline by done. by destruct e. Qed.

Lemma saturating_ge a b : (a < U64 - 1)%N → (0 < b)%N → (a < u64_saturating_add a b)%N.
Proof. unfold u64_saturating_add. lia. Qed.

(** A line that is not the separator is appended. *)
Lemma read_header_line fuel header l rest e :
  reserves_header → newline ∉ l → l ≠ bytes_of "---ENCRYPTED_DATA---" →
  (N.of_nat (length header) + N.of_nat (length l) + 1 ≤ MAX_ENCRYPTED_HEADER_BYTES)%N →
  read_header_loop can_reserve (S fuel) header (mkReader (l ++ newline :: rest) e)
    = read_header_loop can_reserve fuel (header ++ l ++ [newline]) (mkReader rest e).
Proof.
  intros R N S L. cbn [read_header_loop].
  destruct (N.ltb_spec MAX_ENCRYPTED_HEADER_BYTES (N.of_nat (length header))); [lia|].
  rewrite read_until_line; [|done|].
  2:{ apply N.lt_trans with (MAX_ENCRYPTED_HEADER_BYTES - N.of_nat (length header))%N; [lia|].
      apply saturating_ge; [|done]. unfold MAX_ENCRYPTED_HEADER_BYTES, U64. lia. }
  rewrite length_app. simpl length. destruct (N.eqb_spec (N.of_nat (length l + 1)) 0); [lia|].
  rewrite decide_False.
  - destruct (N.ltb_spec (MAX_ENCRYPTED_HEADER_BYTES - N.of_nat (length header))
      (N.of_nat (length l + 1))); [lia|]. rewrite R by lia. done.
  - intros [D|D]; [by apply app_inv_tail in D|].
    assert (I : newline ∈ l ++ [newline]) by set_solver. rewrite D in I.
    revert I. apply (bool_decide_unpack (newline ∉ bytes_of "---ENCRYPTED_DATA---")). done.
Qed.

Lemma read_header_separator fuel header rest e :
  (N.of_nat (length header) ≤ MAX_ENCRYPTED_HEADER_BYTES)%N →
  read_header_loop can_reserve (S fuel) header (mkReader (SEPARATOR_LINE ++ rest) e)
    = (Ok header, mkReader rest e).
Proof.
  intros L. cbn [read_header_loop].
  destruct (N.ltb_spec MAX_ENCRYPTED_HEADER_BYTES (N.of_nat (length header))); [lia|].
  change (SEPARATOR_LINE ++ rest) with (bytes_of "---ENCRYPTED_DATA---" ++ newline :: rest).
  rewrite read_until_line.
  - by rewrite decide_True by by left.
  - apply (bool_decide_unpack (newline ∉ bytes_of "---ENCRYPTED_DATA---")). done.
  - unfold u64_saturating_add, MAX_ENCRYPTED_HEADER_BYTES, U64 in *.
    change (length (bytes_of "---ENCRYPTED_DATA---")) with 20.
    change (length SEPARATOR_LINE) with 21. lia.
Qed.

Lemma read_serialized b ct e :
  reserves_header → newline ∉ b → head b = Some x7b →
  (N.of_nat (length b) < MAX_ENCRYPTED_HEADER_BYTES)%N →
  read_encrypted_header can_reserve (mkReader (b ++ ENCRYPTED_FILE_SEPARATOR ++ ct) e)
    = (Ok (b ++ [newline]), mkReader ct e).
Proof.
  intros R N H L. unfold read_encrypted_header, ENCRYPTED_FILE_SEPARATOR.
  cbn [rd_bytes]. rewrite !length_app, <-app_comm_cons.
  rewrite read_header_line; [|done..| |simpl; lia].
  - change (length (newline :: SEPARATOR_LINE)) with 22.
    replace (length b + (22 + length ct)) with (S (length b + (21 + length ct))) by lia.
    rewrite read_header_separator; [done|]. rewrite length_app. simpl. rewrite length_app. simpl. lia.
  - by intros ->.
Qed.
End Reading.

(** ** Headers that are written are read back *)

Section RoundTrip.
Context {json : SerdeJson} {b64 : Base64} {uuid : UuidText} {rfc : Rfc3339} {hs : HeaderSerde}.
Context {jsonl : SerdeJsonLaws} {b64l : Base64Laws} {uuidl : UuidTextLaws} {rfcl : Rfc3339Laws}.
Context {hsl : HeaderSerdeLaws}.

(** The layout that is in force, and the size of what is encrypted. *)
Definition header_layout (h : SerializedEncryptedHeader) : option SparseFileMetadata :=
  filter_opt is_effectively_sparse (sh_sparse_metadata h).
Definition header_packed (h : SerializedEncryptedHeader) : N :=
  from_option packed_size (sh_original_size h) (header_layout h).

(** The fields have their types, the path is not blank, the layout is valid and the sizes
    agree with a ciphertext of [n] bytes. *)
Definition header_fits (h : SerializedEncryptedHeader) (n : N) : bool :=
  (sh_epoch_id h <? U64)%N && (sh_header_version h <? U32)%N
  && (sh_original_size h <? U64)%N && (sh_encrypted_size h <? U64)%N
  && match sh_content_chunk_size h with Some k => (k <? U64)%N | None => true end
  && rfc3339_years (sh_encrypted_at h)
  && bool_decide (trim (sh_file_path h) ≠ EmptyString)
  && match sh_platform_metadata h with Some m => platform_in_range m | None => true end
  && match sh_sparse_metadata h with
     | Some m => sparse_in_range m && is_some (validated_packed_size m (sh_original_size h))
     | None => true
     end
  && sizes_agree true (sh_content_chunk_size h) (header_packed h) n.

(** What a reader makes of the header before a ciphertext of [n] bytes. *)
Definition header_metadata (h : SerializedEncryptedHeader) (n : N) : EncryptedFileMetadata :=
  mkEncryptedFileMetadata (sh_file_id h) (normalize_file_identifier (sh_file_path h))
    (Some (sh_header_version h)) (sh_group_id h) (sh_epoch_id h) (Some (sh_wrapped_file_key h))
    (Some (sh_key_wrap_nonce h)) (Some (sh_key_wrap_aad_hash h)) (Some (sh_content_nonce h))
    (sh_content_chunk_size h) (sh_original_size h) n (sh_encrypted_at h)
    (filter_opt (λ m, negb (PlatformFileMetadata_is_empty m)) (sh_platform_metadata h))
    (header_layout h) [].

Lemma header_fields h :
  let get k := value_get k (header_json h) in
  get "file_id" = Some (VString (sh_file_id h))
  ∧ get "file_size" = Some (VN (sh_original_size h))
  ∧ get "epoch_id" = Some (VN (sh_epoch_id h))
  ∧ get "group_id" = Some (opt_value (λ id, VString (uuid_to_string id)) (sh_group_id h))
  ∧ get "encrypted_at" = Some (VString (to_rfc3339 (sh_encrypted_at h)))
  ∧ get "file_path" = Some (VString (sh_file_path h))
  ∧ get "header_version" = Some (VN (sh_header_version h))
  ∧ get "wrapped_file_key" = Some (VB (sh_wrapped_file_key h))
  ∧ get "key_wrap_nonce" = Some (VB (sh_key_wrap_nonce h))
  ∧ get "key_wrap_aad_hash" = Some (VB (sh_key_wrap_aad_hash h))
  ∧ get "content_nonce" = Some (VB (sh_content_nonce h))
  ∧ get "chunk_size" = Some (opt_value VN (sh_content_chunk_size h))
  ∧ get "platform_metadata" = Some (opt_value platform_to_value (sh_platform_metadata h))
  ∧ get "sparse_metadata" = Some (opt_value sparse_to_value (sh_sparse_metadata h)).
Proof. split_and!; reflexivity. Qed.

Lemma json_safe_N d n : json_safe d (VN n) = (n <? U64)%N.
Proof. by destruct d. Qed.
Lemma json_safe_str d s : json_safe d (VString s) = true.
Proof. by destruct d. Qed.
Lemma json_safe_opt {A} d (f : A → Value) o :
  (∀ a, o = Some a → json_safe d (f a) = true) → json_safe d (opt_value f o) = true.
Proof. destruct o, d; naive_solver. Qed.

Lemma header_json_safe h n : header_fits h n = true → json_safe JSON_DEPTH (header_json h) = true.
Proof.
  unfold header_fits. rewrite !andb_true_iff. intros [[[[[[[[[E V] O] C] K] T] P] M] S] _].
  assert (V' : (sh_header_version h <? U64)%N = true).
  { apply N.ltb_lt in V. apply N.ltb_lt. unfold U32, U64 in *. lia. }
  apply (json_safe_mono 5); [unfold JSON_DEPTH; lia|]. apply json_safe_object.
  cbn [forallb snd]. unfold VB. rewrite !json_safe_N, !json_safe_str, E, V', O, C. cbn [andb].
  rewrite !json_safe_opt; [done|..]; intros a Ha; try apply json_safe_str.
  - rewrite Ha in S. apply sparse_to_safe. by apply andb_prop in S as [? _].
  - rewrite Ha in M. by apply platform_to_safe.
  - rewrite Ha in K. by rewrite json_safe_N.
Qed.

Lemma decode_VB b : decode_header_bytes (Some (VB b)) = Some b.
Proof. unfold decode_header_bytes, VB. simpl. by rewrite base64_decode_encode. Qed.

(** The optional fields: [null] stands for none. *)
Lemma chunk_field o : optional_field as_u64 (Some (opt_value VN o)) = Some o.
Proof. by destruct o. Qed.
Lemma group_field o :
  as_str (opt_value (λ id, VString (uuid_to_string id)) o) ≫= uuid_parse_str = o.
Proof. destruct o as [u|]; [|done]. simpl. apply uuid_parse_to_string. Qed.

Lemma sparse_field o :
  match o with Some m => sparse_in_range m = true | None => True end →
  optional_field sparse_from_value (Some (opt_value sparse_to_value o)) = Some o.
Proof.
  destruct o as [m|]; [|done]. intros R. simpl. pose proof (sparse_to_object m) as O.
  pose proof (sparse_from_to m R) as E. destruct (sparse_to_value m); try discriminate O.
  by rewrite E.
Qed.
Lemma platform_field o :
  match o with Some m => platform_in_range m = true | None => True end →
  filter_opt (λ m, negb (PlatformFileMetadata_is_empty m))
    (platform_from_value (opt_value platform_to_value o))
  = filter_opt (λ m, negb (PlatformFileMetadata_is_empty m)) o.
Proof.
  destruct o as [m|]; intros R; simpl; [by rewrite platform_from_to|by rewrite platform_from_null].
Qed.

Lemma header_sparse_ok h n :
  header_fits h n = true →
  is_Some (match sh_sparse_metadata h with
           | Some m => validated_packed_size m (sh_original_size h)
           | None => Some 0%N
           end)
  ∧ match header_layout h with
    | Some layout => validated_packed_size layout (sh_original_size h)
    | None => Some (sh_original_size h)
    end = Some (header_packed h).
Proof.
  unfold header_fits. rewrite !andb_true_iff. intros [[_ S] _]. unfold header_packed, header_layout.
  destruct (sh_sparse_metadata h) as [m|]; [|by split; [eexists|]]. apply andb_prop in S as [R V].
  destruct (validated_packed_size m (sh_original_size h)) as [k|] eqn:E; [|done]. split; [done|].
  cbn [filter_opt]. destruct (is_effectively_sparse m); [|done]. cbn [from_option]. rewrite E.
  apply andb_prop in R as [R _]. apply N.ltb_lt in R.
  by apply (validated_iff_packed m _ k R) in E as [_ [_ ->]].
Qed.

Lemma parse_written now h n :
  header_fits h n = true → parse_header_metadata now (header_json h) n = Some (header_metadata h n).
Proof.
  intros F. pose proof (header_sparse_ok h n F) as [[k S1] S2]. unfold header_fits in F.
  rewrite !andb_true_iff in F. destruct F as [[[[[[[[[_ V] _] _] _] T] P] M] S] A].
  unfold parse_header_metadata, get_str, get_u64.
  destruct (header_fields h) as (-> & -> & -> & -> & -> & -> & -> & -> & -> & -> & -> & -> & -> & ->).
  cbn [mbind option_bind as_str as_u64 VN]. unfold u32_try_from. rewrite V.
  cbn [mbind option_bind]. rewrite !decode_VB. cbn [mbind option_bind is_some negb].
  rewrite andb_false_r. cbn [default from_option].
  rewrite parse_to_rfc3339 by done. rewrite chunk_field, sparse_field.
  2:{ destruct (sh_sparse_metadata h); [by apply andb_prop in S as [? _]|done]. }
  cbn [mbind option_bind default from_option]. unfold id. rewrite S1. cbn [mbind option_bind].
  fold (header_layout h). rewrite S2. cbn [mbind option_bind].
  rewrite A. cbn [negb filter_opt]. rewrite P. cbn [mbind option_bind].
  rewrite platform_field by (by destruct (sh_platform_metadata h)).
  fold (header_layout h). by rewrite group_field.
Qed.

Lemma serialize_ok h :
  ∃ b, json_to_vec (header_json h) = Ok b
    ∧ serialize_encrypted_header h = Ok (b ++ ENCRYPTED_FILE_SEPARATOR).
Proof.
  destruct (json_to_vec_total (header_json h)) as [b E]. exists b. split; [done|].
  unfold serialize_encrypted_header. by rewrite E.
Qed.

(** The header of a file is read up to its first byte of ciphertext. *)
Lemma read_header_written can_reserve h b ct e n :
  reserves_header can_reserve → header_fits h n = true →
  json_to_vec (header_json h) = Ok b → (N.of_nat (length b) < MAX_ENCRYPTED_HEADER_BYTES)%N →
  read_header can_reserve (mkReader ((b ++ ENCRYPTED_FILE_SEPARATOR) ++ ct) e)
    = (Some (header_json h), mkReader ct e).
Proof.
  intros R F E L. unfold read_header. rewrite <-app_assoc.
  rewrite read_serialized; [|done|by eapply json_to_vec_one_line|by eapply json_to_vec_brace|done].
  rewrite (json_trailing_newline b (header_json h)); [done|].
  apply json_from_to_vec; [|done]. by eapply header_json_safe.
Qed.

Lemma inspect_written can_reserve now h b ct :
  reserves_header can_reserve → header_fits h (N.of_nat (length ct)) = true →
  json_to_vec (header_json h) = Ok b → (N.of_nat (length b) < MAX_ENCRYPTED_HEADER_BYTES)%N →
  inspect_bytes can_reserve now ((b ++ ENCRYPTED_FILE_SEPARATOR) ++ ct)
    = Ciphertext (header_metadata h (N.of_nat (length ct))).
Proof.
  intros R F E L. pose proof (json_to_vec_brace _ _ E) as B. unfold inspect_bytes.
  rewrite decide_False.
  - erewrite read_header_written by done. unfold classify_header. cbn [rd_bytes].
    by rewrite parse_written.
  - intros C. apply C. by destruct b.
Qed.

(** C11: A file written with a header is recognised and its header is read back: the bytes
    of the serialised header followed by a ciphertext are inspected as ciphertext, with
    the header's fields, a normalised path, no empty platform metadata and no layout
    that is not sparse, provided that the header is at most 16 MiB long, its path is not
    blank and its sizes agree with the ciphertext. *)
Theorem header_roundtrip (can_reserve : N → bool) (now : Z) (h : SerializedEncryptedHeader)
    (ct : bytes) :
  reserves_header can_reserve → header_fits h (N.of_nat (length ct)) = true →
  ∃ b, serialize_encrypted_header h = Ok b
    ∧ ((N.of_nat (length b) < MAX_ENCRYPTED_HEADER_BYTES + 22)%N →
       inspect_bytes can_reserve now (b ++ ct)
         = Ciphertext (header_metadata h (N.of_nat (length ct)))).
Proof.
  intros R F. destruct (serialize_ok h) as [b [E ->]]. exists (b ++ ENCRYPTED_FILE_SEPARATOR).
  split; [done|]. rewrite length_app. change (length ENCRYPTED_FILE_SEPARATOR) with 22. intros L.
  apply inspect_written; [done..|lia].
Qed.
End RoundTrip.

(** ** The manifest binds the layout *)

Definition layout_in_range (size encrypted_size : N) (chunk : option N) (nonce : bytes)
    (sparse : option SparseFileMetadata) : bool :=
  (size <? U64)%N && (encrypted_size <? U64)%N && (default 0 chunk <? U64)%N
  && (N.of_nat (length nonce) <? U64)%N
  && match sparse with
     | Some m => sparse_in_range m && (N.of_nat (length (sp_extents m)) <? U64)%N
     | None => true
     end.

Lemma le8_app_inj m n r s :
  (m < U64)%N → (n < U64)%N → le_bytes 8 m ++ r = le_bytes 8 n ++ s → m = n ∧ r = s.
Proof.
  intros Hm Hn E. apply app_split_eq in E as [E ->]; [|by rewrite !le_bytes_length].
  split; [|done]. rewrite U64_pow in *. by apply le_bytes_inj in E.
Qed.

Lemma extents_msg_inj (l1 l2 : list SparseExtent) :
  forallb (λ e, (se_offset e <? U64)%N && (se_length e <? U64)%N) l1 = true →
  forallb (λ e, (se_offset e <? U64)%N && (se_length e <? U64)%N) l2 = true →
  length l1 = length l2 → flat_map extent_msg l1 = flat_map extent_msg l2 → l1 = l2.
Proof.
  revert l2. induction l1 as [|[o1 n1] l1 IH]; intros [|[o2 n2] l2] R1 R2 L E; try done.
  cbn [forallb se_offset se_length] in R1, R2. rewrite !andb_true_iff, !N.ltb_lt in R1, R2.
  destruct R1 as [[? ?] R1], R2 as [[? ?] R2]. cbn [flat_map] in E. unfold extent_msg at 1 3 in E.
  rewrite <-!app_assoc in E. cbn [se_offset se_length] in E.
  apply le8_app_inj in E as [-> E]; [|done..]. apply le8_app_inj in E as [-> E]; [|done..].
  f_equal. apply IH; [done..|by injection L|done].
Qed.

Lemma sparse_msg_inj m1 m2 :
  sparse_in_range m1 && (N.of_nat (length (sp_extents m1)) <? U64)%N = true →
  sparse_in_range m2 && (N.of_nat (length (sp_extents m2)) <? U64)%N = true →
  sparse_msg m1 = sparse_msg m2 → m1 = m2.
Proof.
  destruct m1 as [s1 l1], m2 as [s2 l2]. unfold sparse_in_range, sparse_msg. cbn.
  rewrite !andb_true_iff, !N.ltb_lt. intros [[? F1] ?] [[? F2] ?] E.
  apply le8_app_inj in E as [-> E]; [|done..]. apply le8_app_inj in E as [L E]; [|done..].
  f_equal. apply extents_msg_inj; [done..|lia|done].
Qed.

Lemma manifest_msg_inj s1 s2 e1 e2 c1 c2 n1 n2 p1 p2 :
  layout_in_range s1 e1 c1 n1 p1 = true → layout_in_range s2 e2 c2 n2 p2 = true →
  manifest_msg s1 e1 c1 n1 p1 = manifest_msg s2 e2 c2 n2 p2 →
  s1 = s2 ∧ e1 = e2 ∧ c1 = c2 ∧ n1 = n2 ∧ p1 = p2.
Proof.
  unfold layout_in_range, manifest_msg. rewrite !andb_true_iff, !N.ltb_lt.
  intros [[[[? ?] ?] ?] P1] [[[[? ?] ?] ?] P2] E.
  apply app_inv_head in E. apply app_inv_head in E.
  apply le8_app_inj in E as [-> E]; [|done..]. apply le8_app_inj in E as [-> E]; [|done..].
  apply app_split_eq in E as [C E]; [|done]. apply le8_app_inj in E as [D E]; [|done..].
  apply le8_app_inj in E as [L E]; [|done..].
  apply app_split_eq in E as [-> E]; [|lia]. apply app_split_eq in E as [F E]; [|done].
  split_and!; try done.
  - destruct c1, c2; try discriminate C; [by f_equal|done].
  - destruct p1 as [p1|], p2 as [p2|]; try discriminate F; [|done].
    f_equal. by apply sparse_msg_inj.
Qed.

Section ManifestLaws.
Context {sha : Sha256}.

Lemma digest_length s e c n p : length (digest s e c n p) = 32.
Proof. apply arr_length. Qed.

Lemma verify_v3 (m : EncryptedFileMetadata) key d allow k :
  ef_header_version m = Some VERSION → length d = 32 →
  verify m (arr (key_bytes key) ++ d) allow = Ok k ↔ k = key ∧ d = metadata_digest m.
Proof.
  intros V L. unfold verify. rewrite V. cbn [default from_option id].
  rewrite N.eqb_refl, drop_app_length', take_app_length' by by rewrite arr_length.
  case_decide as D.
  - split; [done|]. intros [_ ->]. destruct D as [D|D]; [|done].
    rewrite length_app, arr_length in D. lia.
  - rewrite map_err_Ok, Key_from_to_bytes. split.
    + intros E%Ok_inj. split; [done|]. destruct (decide (d = metadata_digest m)); tauto.
    + by intros [-> _].
Qed.

(** C12: The manifest that is wrapped with a file's key pins how its contents are to be
    read: the check accepts a header exactly when its size, encrypted size, chunk size,
    nonce and sparse layout are all those the key was wrapped with, whatever the caller
    allows for older versions, and then gives that key. *)
Theorem manifest_binds_layout (m : EncryptedFileMetadata) (key k : Key) (size encrypted_size : N)
    (chunk : option N) (nonce : bytes) (sparse : option SparseFileMetadata) (allow_legacy : bool) :
  ef_header_version m = Some VERSION →
  layout_in_range size encrypted_size chunk nonce sparse = true →
  layout_in_range (ef_content_size m) (ef_encrypted_size m) (ef_content_chunk_size m)
    (default [] (ef_content_nonce m)) (ef_sparse_metadata m) = true →
  collision_free [manifest_msg size encrypted_size chunk nonce sparse;
    manifest_msg (ef_content_size m) (ef_encrypted_size m) (ef_content_chunk_size m)
      (default [] (ef_content_nonce m)) (ef_sparse_metadata m)] →
  verify m (arr (key_bytes key) ++ digest size encrypted_size chunk nonce sparse) allow_legacy = Ok k ↔
  k = key ∧ size = ef_content_size m ∧ encrypted_size = ef_encrypted_size m
    ∧ chunk = ef_content_chunk_size m ∧ nonce = default [] (ef_content_nonce m)
    ∧ sparse = ef_sparse_metadata m.
Proof.
  intros V R1 R2 C. rewrite verify_v3 by (done || apply digest_length). split.
  - intros [-> E%arr_inj]. split; [done|].
    apply (collision_free_eq _ _ _ C) in E; [|set_solver..]. by apply manifest_msg_inj in E.
  - intros (-> & -> & -> & -> & -> & ->). done.
Qed.

Context {aead : Aead} {aeadl : AeadLaws}.

Lemma rewrap_open nonce envelope kek aad wrapped nonce' :
  rewrap nonce envelope kek aad = Ok (wrapped, nonce') →
  nonce' = arr nonce ∧ open kek (mkNonce nonce) FileData aad wrapped = Ok envelope.
Proof.
  unfold rewrap. destruct (negb _); [done|]. rewrite Nonce_from_array. simpl.
  intros (w & H & [= <- <-])%res_bind_Ok. rewrite map_err_Ok in H. split; [done|].
  by apply seal_open in H.
Qed.

Lemma rewrap_total `{!AeadTotal} nonce envelope kek aad :
  length envelope = 32 ∨ length envelope = 64 →
  ∃ wrapped, rewrap nonce envelope kek aad = Ok (wrapped, arr nonce).
Proof.
  intros L. unfold rewrap. rewrite bool_decide_eq_true_2 by done. rewrite Nonce_from_array. simpl.
  destruct (seal_total kek (mkNonce nonce) FileData aad envelope) as [c ->]; [lia|]. by eexists.
Qed.
End ManifestLaws.

(** ** Concrete headers *)

Definition xattr_to_value (x : PlatformXattr) : Value :=
  json_object [("name", VString (px_name x)); ("value_base64", VString (px_value_base64 x))]%string.
Definition xattr_from_value (v : Value) : option PlatformXattr :=
  n ← get_str "name" v; b ← get_str "value_base64" v; Some (mkPlatformXattr n b).
Definition macos_to_value (m : MacOsFileMetadata) : Value :=
  json_object [("xattrs", VArray (map xattr_to_value (mo_xattrs m)));
               ("acl_text", opt_value VString (mo_acl_text m))]%string.
Definition as_array (v : Value) : option (list Value) :=
  match v with VArray l => Some l | _ => None end.
Definition macos_from_value (v : Value) : option MacOsFileMetadata :=
  l ← value_get "xattrs" v ≫= as_array;
  xs ← mapM xattr_from_value l;
  acl ← optional_field as_str (value_get "acl_text" v);
  Some (mkMacOsFileMetadata xs acl).
Definition extent_to_value (e : SparseExtent) : Value :=
  json_object [("offset", VN (se_offset e)); ("length", VN (se_length e))]%string.
Definition extent_from_value (v : Value) : option SparseExtent :=
  o ← get_u64 "offset" v; n ← get_u64 "length" v; Some (mkSparseExtent o n).

Definition toy_header_serde : HeaderSerde := {|
  platform_to_value m :=
    json_object [("unix_mode", opt_value VN (pm_unix_mode m));
                 ("macos", opt_value macos_to_value (pm_macos m))]%string;
  platform_from_value v :=
    mode ← value_get "unix_mode" v ≫= λ w, optional_field as_u64 (Some w);
    mac ← optional_field macos_from_value (value_get "macos" v);
    Some (mkPlatformFileMetadata mode mac);
  sparse_to_value m :=
    json_object [("logical_size", VN (sp_logical_size m));
                 ("extents", VArray (map extent_to_value (sp_extents m)))]%string;
  sparse_from_value v :=
    size ← get_u64 "logical_size" v;
    l ← value_get "extents" v ≫= as_array;
    extents ← mapM extent_from_value l;
    Some (mkSparseFileMetadata size extents);
|}.

Lemma mapM_to_from {A} (f : Value → option A) (g : A → Value) (l : list A) :
  (∀ a, f (g a) = Some a) → mapM f (map g l) = Some l.
Proof. intros H. induction l as [|a l IH]; [done|]. simpl. by rewrite H, IH. Qed.

Lemma json_safe_array d l : json_safe (S d) (VArray l) = forallb (json_safe d) l.
Proof. done. Qed.

Lemma macos_from_to m : macos_from_value (macos_to_value m) = Some m.
Proof.
  destruct m as [xs acl]. unfold macos_from_value.
  change (value_get "xattrs" (macos_to_value (mkMacOsFileMetadata xs acl)))
    with (Some (VArray (map xattr_to_value xs))).
  change (value_get "acl_text" (macos_to_value (mkMacOsFileMetadata xs acl)))
    with (Some (opt_value VString acl)).
  cbn [mbind option_bind as_array]. rewrite mapM_to_from by (by intros []).
  by destruct acl.
Qed.
Lemma sparse_toy_from_to m :
  @sparse_from_value toy_header_serde (@sparse_to_value toy_header_serde m) = Some m.
Proof.
  destruct m as [size l]. unfold sparse_from_value, sparse_to_value, toy_header_serde, get_u64.
  cbn [sp_logical_size sp_extents].
  set (v := json_object _). change (value_get "logical_size" v) with (Some (VN size)).
  change (value_get "extents" v) with (Some (VArray (map extent_to_value l))).
  cbn [mbind option_bind as_array as_u64 VN]. by rewrite mapM_to_from by (by intros []).
Qed.

Lemma platform_toy_from_to m :
  @platform_from_value toy_header_serde (@platform_to_value toy_header_serde m) = Some m.
Proof.
  destruct m as [mode mac]. unfold platform_from_value, platform_to_value, toy_header_serde.
  cbn [pm_unix_mode pm_macos].
  set (v := json_object _). change (value_get "unix_mode" v) with (Some (opt_value VN mode)).
  change (value_get "macos" v) with (Some (opt_value macos_to_value mac)).
  cbn [mbind option_bind]. rewrite (chunk_field mode). cbn [mbind option_bind].
  destruct mac as [m|]; [|done].
  change (optional_field macos_from_value (Some (opt_value macos_to_value (Some m))))
    with (a ← macos_from_value (macos_to_value m); Some (Some a)).
  by rewrite macos_from_to.
Qed.

Lemma toy_header_serde_laws : @HeaderSerdeLaws toy_header_serde.
Proof.
  constructor.
  - intros m _. apply platform_toy_from_to.
  - reflexivity.
  - intros [mode mac] R. apply json_safe_object. cbn [forallb snd].
    rewrite !json_safe_opt; [done|..].
    + cbn [pm_macos]. intros [xs acl] _. apply json_safe_object. cbn [forallb snd mo_xattrs mo_acl_text].
      rewrite json_safe_opt by (intros; apply json_safe_str). rewrite andb_true_r.
      cbn [json_safe]. by induction xs.
    + cbn [pm_unix_mode]. intros n ->. cbn in R. rewrite json_safe_N. apply N.ltb_lt in R.
      apply N.ltb_lt. unfold U32, U64 in *. lia.
  - intros m _. apply sparse_toy_from_to.
  - intros [size l] R. apply andb_prop in R as [R1 R2]. apply json_safe_object.
    cbn [forallb snd]. rewrite json_safe_N, R1, json_safe_array, andb_true_r.
    cbn [andb sp_extents] in R2 |- *. clear R1. induction l as [|e l IH]; [done|].
    cbn [map forallb] in R2 |- *. apply andb_prop in R2 as [R2 R3].
    rewrite IH, andb_true_r by done. apply json_safe_object. cbn [forallb snd].
    rewrite !json_safe_N, andb_true_r. exact R2.
  - reflexivity.
Qed.

#[local] Existing Instances toy_sha256 toy_serde_json toy_serde_json_laws toy_base64 toy_base64_laws
  toy_uuid_text toy_uuid_text_laws toy_rfc3339 toy_rfc3339_laws toy_header_serde
  toy_header_serde_laws.

(** A file of 100 bytes with two extents of data, encrypted in chunks of 20 bytes. *)
Definition photo_layout : SparseFileMetadata :=
  mkSparseFileMetadata 100 [mkSparseExtent 10 25; mkSparseExtent 60 15].
Definition photo_header : SerializedEncryptedHeader :=
  mkSerializedEncryptedHeader "f1" "pics//photo.png" (Some (zeros 16)) 7 3 [x01] [x02] [x03] [x04]
    (Some 20%N) 100 72 5 (Some "photo.png"%string) (Some (mkPlatformFileMetadata (Some 420%N) None))
    (Some photo_layout).
Definition photo_body : bytes := replicate 72 x0a.

Lemma sparse_layout_accepted_iff_witness :
  (sp_logical_size photo_layout < U64)%N ∧ validated_packed_size photo_layout 100 = Some 40%N
  ∧ sound_extents 100 0 (sp_extents photo_layout).
Proof.
  split; [done|]. split; [done|].
  apply (proj1 (sparse_layout_accepted_iff photo_layout 100 eq_refl) 40%N). reflexivity.
Defined.

Lemma header_roundtrip_witness :
  ∃ b, serialize_encrypted_header photo_header = Ok b
    ∧ inspect_bytes always 0 (b ++ photo_body) = Ciphertext (header_metadata photo_header 72).
Proof.
  assert (F : header_fits photo_header (N.of_nat (length photo_body)) = true) by (vm_compute; reflexivity).
  destruct (header_roundtrip always 0 photo_header photo_body (λ _ _, eq_refl) F) as [b [E H]].
  exists b. split; [exact E|]. apply H.
  assert (L : match serialize_encrypted_header photo_header with
              | Ok b => (N.of_nat (length b) <? MAX_ENCRYPTED_HEADER_BYTES + 22)%N
              | _ => false
              end = true) by (vm_compute; reflexivity).
  rewrite E in L. apply N.ltb_lt. exact L.
Defined.

Lemma manifest_binds_layout_witness :
  verify (header_metadata photo_header 72)
    (arr (key_bytes doc_key) ++ digest 100 72 (Some 20%N) [x04] (Some photo_layout)) true = Ok doc_key.
Proof.
  refine (proj2 (manifest_binds_layout (header_metadata photo_header 72) doc_key doc_key 100 72
    (Some 20%N) [x04] (Some photo_layout) true eq_refl eq_refl eq_refl _) _);
    [decide_collision_free|split_and!; reflexivity].
Defined.
