(* ===== verification/GroupTransfer.v ===== *)
(** * Moving a file to another group ([crates/client/src/file/group_transfer.rs])

    A file changes group by rewrapping its key: the header is replaced and the
    ciphertext is copied, to a temporary file that then takes the place of the
    original.  The disk is the folder that holds the file; every call of the file
    system may fail, and the folder after each call is recorded, so that an
    interruption between any two calls is one of the recorded states.  Access times
    and the syncing of directories are left out; the calls of the buffered writer
    write at once. *)

From Stdlib Require Import Strings.Byte.
From stdpp Require Import base tactics numbers sets list gmap strings pretty option.
From S2P Require Import Prelude StateError Crypto Json FilePath Storage FileContent FileHeader.
Open Scope hc_scope.
Open Scope hc_st_scope.

Definition TRANSFER_TEMP_SUFFIX : string := ".hc-move.tmp".
Definition OWNER_SCAN_BYTES : nat := N.to_nat 8192.

Record GroupEpochKey := mkGroupEpochKey {
  gk_group_id : Uuid;
  gk_epoch_id : N;
  gk_key : array 32;
}.
Inductive GroupTransferOutcome := Moved | AlreadyInTarget.
Inductive EncryptedFileOwner := OwNotEncrypted | OwGroup (g : Uuid) | OwUnknown.

(** ** The folder *)

Record Entry := mkEntry { en_bytes : bytes; en_mtime : Z; en_mode : N }.
Record Folder := mkFolder { fo_files : gmap string Entry; fo_mtime : Z }.

(** The faults of the calls to come, and the folders seen so far, latest first. *)
Record Io := mkIo {
  io_folder : Folder;
  io_faults : list (option IoError);
  io_trace : list Folder;
}.

Definition io_call {A} (f : Folder → res IoError A * Folder) : ST Io IoError A := λ s,
  match io_faults s with
  | Some e :: faults => (Err e, mkIo (io_folder s) faults (io_trace s))
  | faults =>
      let '(r, fo) := f (io_folder s) in (r, mkIo fo (tail faults) (fo :: io_trace s))
  end.

Section Files.
Variable now : Z.

Definition no_such_file : IoError := mkIoError NotFound "No such file or directory".
Definition file_exists : IoError := mkIoError (OtherKind 17) "File exists".

(** Changes the entry of a file, if there is one. *)
Definition fo_alter (name : string) (f : Entry → Entry) (fo : Folder) : Folder :=
  match fo_files fo !! name with
  | Some e => mkFolder (<[name := f e]> (fo_files fo)) (fo_mtime fo)
  | None => fo
  end.

Definition fs_metadata (name : string) : ST Io IoError Entry :=
  io_call (λ fo, (ok_or (fo_files fo !! name) no_such_file, fo)).
(** Opens the file for reading. *)
Definition fs_open (name : string) : ST Io IoError bytes :=
  io_call (λ fo, (let? e := ok_or (fo_files fo !! name) no_such_file in Ok (en_bytes e), fo)).
Definition fs_remove (name : string) : ST Io IoError unit :=
  io_call (λ fo, match fo_files fo !! name with
                 | Some _ => (Ok tt, mkFolder (delete name (fo_files fo)) now)
                 | None => (Err no_such_file, fo)
                 end).
Definition fs_create_new (name : string) : ST Io IoError unit :=
  io_call (λ fo, match fo_files fo !! name with
                 | Some _ => (Err file_exists, fo)
                 | None => (Ok tt, mkFolder (<[name := mkEntry [] now 420]> (fo_files fo)) now)
                 end).
Definition fs_write (name : string) (b : bytes) : ST Io IoError unit :=
  io_call (λ fo, (Ok tt, fo_alter name (λ e, mkEntry (en_bytes e ++ b) now (en_mode e)) fo)).
Definition fs_set_mode (name : string) (mode : N) : ST Io IoError unit :=
  io_call (λ fo, (Ok tt, fo_alter name (λ e, mkEntry (en_bytes e) (en_mtime e) mode) fo)).
Definition fs_set_mtime (name : string) (t : Z) : ST Io IoError unit :=
  io_call (λ fo, (Ok tt, fo_alter name (λ e, mkEntry (en_bytes e) t (en_mode e)) fo)).
(** A call that changes nothing that is modelled: a sync, a position, a flush. *)
Definition fs_noop : ST Io IoError unit := io_call (λ fo, (Ok tt, fo)).
Definition fs_rename (a b : string) : ST Io IoError unit :=
  io_call (λ fo, match fo_files fo !! a with
                 | Some e => (Ok tt, mkFolder (<[b := e]> (delete a (fo_files fo))) now)
                 | None => (Err no_such_file, fo)
                 end).
Definition fs_dir_mtime : ST Io IoError Z := io_call (λ fo, (Ok (fo_mtime fo), fo)).
Definition fs_set_dir_mtime (t : Z) : ST Io IoError unit :=
  io_call (λ fo, (Ok tt, mkFolder (fo_files fo) t)).

(** ** Key fields *)

Section Transfer.
Context {sha : Sha256} {aead : Aead} {hkdf : Hkdf}.
Context {json : SerdeJson} {b64 : Base64} {uuid : UuidText}.
Variable can_reserve : N → bool.

Record KeyFields := mkKeyFields {
  kf_file_id : string;
  kf_file_path : string;
  kf_group_id : option Uuid;
  kf_epoch_id : N;
  kf_header_version : N;
  kf_wrapped_file_key : bytes;
  kf_key_wrap_nonce : bytes;
  kf_key_wrap_aad_hash : bytes;
}.

Definition decode_bytes (value : Value) : option bytes :=
  match value with
  | VString encoded => base64_decode encoded
  | other => vec_u8_from_value other
  end.

Definition KeyFields_parse (h : Value) : option KeyFields :=
  header_version ← match value_get "header_version" h with
                   | None | Some VNull => Some 1%N
                   | Some value => as_u64 value ≫= u32_try_from
                   end;
  file_id ← get_str "file_id" h;
  file_path ← filter_opt (λ value, bool_decide (trim value ≠ EmptyString)) (get_str "file_path" h);
  let group_id := get_str "group_id" h ≫= uuid_parse_str in
  epoch_id ← get_u64 "epoch_id" h;
  wrapped_file_key ← value_get "wrapped_file_key" h ≫= decode_bytes;
  key_wrap_nonce ← value_get "key_wrap_nonce" h ≫= decode_bytes;
  key_wrap_aad_hash ← value_get "key_wrap_aad_hash" h ≫= decode_bytes;
  Some (mkKeyFields file_id file_path group_id epoch_id header_version wrapped_file_key
          key_wrap_nonce key_wrap_aad_hash).

Definition KeyFields_wrap_aad (f : KeyFields) (group_id : Uuid) (epoch_id : N) : bytes :=
  build_wrap_aad (kf_file_id f) (normalize_file_identifier (kf_file_path f)) (Some group_id)
    epoch_id (kf_header_version f).

Definition integrity (path reason : string) : ClientError :=
  CeFileIntegrity ("'" +:+ path +:+ "' can't be moved: " +:+ reason).
Definition io_error (e : IoError) : ClientError := CeStorage (StIo (io_text e)).

Definition key_wrapping_key (epoch_key : array 32) : res ClientError Key :=
  let? b := map_err (λ e, CeEncryptionError ("HKDF(KeyWrapping) failed: " +:+ CryptoError_display e))
              (hkdf_expand (arr epoch_key) KeyWrapping 32) in
  map_err (λ e, CeEncryptionError (CryptoError_display e)) (Key_from_bytes b).

Definition gt_unwrap_file_key (path : string) (f : KeyFields) (from : GroupEpochKey)
  : res ClientError bytes :=
  let aad := KeyFields_wrap_aad f (gk_group_id from) (gk_epoch_id from) in
  if decide (hash_wrap_aad aad ≠ kf_key_wrap_aad_hash f) then
    Err (integrity path "its key binding doesn't match its header")
  else
    let? nonce := map_err (λ _, integrity path "its key nonce is invalid")
                    (Nonce_from_bytes (kf_key_wrap_nonce f)) in
    let? kek := key_wrapping_key (gk_key from) in
    map_err (λ _, CeDecryptionError ("The key of '" +:+ path
               +:+ "' doesn't open with this vault's key"))
      (open kek nonce FileData aad (kf_wrapped_file_key f)).

Record Rewrapped := mkRewrapped { rw_wrapped : bytes; rw_nonce : bytes; rw_aad_hash : bytes }.

Definition gt_wrap_file_key (random : array 12) (f : KeyFields) (envelope : bytes) (to : GroupEpochKey)
  : res ClientError Rewrapped :=
  let aad := KeyFields_wrap_aad f (gk_group_id to) (gk_epoch_id to) in
  let unverified := CeEncryptionError "The new file key wrap didn't verify" in
  let? kek := key_wrapping_key (gk_key to) in
  let? wn := map_err (λ e, CeEncryptionError (EncryptionError_display e))
               (rewrap random envelope kek aad) in
  let? check_nonce := map_err (λ e, CeEncryptionError (CryptoError_display e))
                        (Nonce_from_bytes wn.2) in
  let? reopened := map_err (λ _, unverified) (open kek check_nonce FileData aad wn.1) in
  if decide (reopened ≠ envelope) then Err unverified
  else Ok (mkRewrapped wn.1 wn.2 (hash_wrap_aad aad)).

Definition set_key_fields (to : GroupEpochKey) (r : Rewrapped) (h : Value) : res ClientError Value :=
  let? h := value_set "group_id" (VString (uuid_to_string (gk_group_id to))) h in
  let? h := value_set "epoch_id" (VN (gk_epoch_id to)) h in
  let? h := value_set "wrapped_file_key" (VB (rw_wrapped r)) h in
  let? h := value_set "key_wrap_nonce" (VB (rw_nonce r)) h in
  value_set "key_wrap_aad_hash" (VB (rw_aad_hash r)) h.

(** The part of [transfer_file_to_group] between reading the header and writing: the new
    header, or none when the file is in the target group already. *)
Definition new_header (random : array 12) (path : string) (from to : GroupEpochKey)
    (header_bytes : bytes) : res ClientError (option bytes) :=
  let? header := map_err (λ e, integrity path ("its header isn't valid (" +:+ e +:+ ")"))
                   (json_from_slice header_bytes) in
  let? fields := ok_or (KeyFields_parse header) (integrity path "its header is incomplete") in
  if decide (kf_group_id fields = Some (gk_group_id to)) then Ok None
  else if decide (kf_group_id fields ≠ Some (gk_group_id from)) then
    Err (CeInvalidInput ("'" +:+ path +:+ "' was encrypted by another workspace, so it can't be "
           +:+ "moved. Move it out of this folder and try again."))
  else if decide (kf_epoch_id fields ≠ gk_epoch_id from) then
    Err (CeInvalidState ("'" +:+ path +:+ "' uses a key this vault doesn't have (epoch "
           +:+ pretty (kf_epoch_id fields) +:+ ")."))
  else
    let? file_key := gt_unwrap_file_key path fields from in
    let? rewrapped := gt_wrap_file_key random fields file_key to in
    let? header := set_key_fields to rewrapped header in
    let? b := map_err CeSerializationError (json_to_vec header) in
    Ok (Some (b ++ ENCRYPTED_FILE_SEPARATOR)).

Definition temp_path (path name : string) : res ClientError string :=
  match from_utf8 (bytes_of name) with
  | Some name => Ok ("." +:+ name +:+ TRANSFER_TEMP_SUFFIX)
  | None => Err (CeInvalidInput ("'" +:+ path +:+ "' has no usable name"))
  end.

Definition write_copy (temp : string) (header ciphertext : bytes) (ciphertext_len : nat)
    (original : Entry) : ST Io ClientError unit :=
  let* removed := st_try (fs_remove temp) in
  do* match removed with
      | inr _ => st_ret tt
      | inl e =>
          match io_kind e with NotFound => st_ret tt | _ => st_fail (io_error e) end
      end;
  do* st_map_err io_error (fs_create_new temp);
  do* st_map_err io_error (fs_write temp header);
  let copied := take ciphertext_len ciphertext in
  do* st_map_err io_error (fs_write temp copied);
  if decide (length copied ≠ ciphertext_len) then
    st_fail (CeInvalidState "The file ended early while it was being moved")
  else
    do* st_map_err io_error fs_noop;
    do* st_map_err io_error (fs_set_mode temp (en_mode original));
    st_map_err io_error fs_noop.

(** A call whose error is dropped. *)
Definition ignore {A} (m : ST Io IoError A) : ST Io ClientError unit :=
  let* _ := st_try m in st_ret tt.

(** The end of [transfer_file_to_group]: the copy takes the place of the original. *)
Definition replace_file (path name temp : string) (new_header ciphertext : bytes)
    (ciphertext_len : nat) (before : Entry) (parent_mtime : IoError + Z)
  : ST Io ClientError GroupTransferOutcome :=
  let* copied := st_try (write_copy temp new_header ciphertext ciphertext_len before) in
  match copied with
  | inl e => do* ignore (fs_remove temp); st_fail e
  | inr _ =>
      let* after := st_try (fs_metadata name) in
      let unchanged :=
        match after with
        | inr after =>
            bool_decide (length (en_bytes after) = length (en_bytes before)
                         ∧ en_mtime after = en_mtime before)
        | inl _ => false
        end in
      if negb unchanged then
        do* ignore (fs_remove temp);
        st_fail (CeInvalidState ("'" +:+ path
                   +:+ "' changed while it was being moved. Try again."))
      else
        let* moved := st_try (fs_rename temp name) in
        match moved with
        | inl e => do* ignore (fs_remove temp); st_fail (io_error e)
        | inr _ =>
            do* ignore (fs_set_mtime name (en_mtime before));
            do* match parent_mtime with
                | inr t => ignore (fs_set_dir_mtime t)
                | inl _ => st_ret tt
                end;
            st_ret Moved
        end
  end.

Definition transfer_file_to_group (random : array 12) (path name : string) (from to : GroupEpochKey)
  : ST Io ClientError GroupTransferOutcome :=
  let* before := st_map_err io_error (fs_metadata name) in
  let* contents := st_map_err io_error (fs_open name) in
  let read := read_encrypted_header can_reserve (mkReader contents None) in
  let* header_bytes :=
    st_map_err (λ e, integrity path ("its header can't be read (" +:+ io_text e +:+ ")"))
      (io_call (λ fo, (read.1, fo))) in
  let* plan := st_lift (new_header random path from to header_bytes) in
  match plan with
  | None => st_ret AlreadyInTarget
  | Some new_header =>
      do* st_map_err io_error fs_noop;
      let ciphertext := rd_bytes read.2 in
      let ciphertext_offset := length contents - length ciphertext in
      let* ciphertext_len :=
        st_lift (if length (en_bytes before) <? ciphertext_offset
                 then Err (integrity path "it is shorter than its header")
                 else Ok (length (en_bytes before) - ciphertext_offset)) in
      let* temp := st_lift (temp_path path name) in
      let* parent_mtime := st_try fs_dir_mtime in
      replace_file path name temp new_header ciphertext ciphertext_len before parent_mtime
  end.

(** ** Who a file belongs to *)

Definition is_ascii_whitespace (b : byte) : bool :=
  match b with x20 | x09 | x0a | x0c | x0d => true | _ => false end.

(** [prefix.windows(needle.len()).any(|part| part == needle)]. *)
Fixpoint contains (needle l : bytes) : bool :=
  bool_decide (take (length needle) l = needle)
  || match l with [] => false | _ :: l => contains needle l end.

Definition quoted (s : string) : bytes := x22 :: bytes_of s ++ [x22].

Definition encrypted_file_owner (name : option string) (file : res IoError OpenFile)
  : res IoError EncryptedFileOwner :=
  let? file := file in
  let r := of_reader file in
  let prefix := take OWNER_SCAN_BYTES (rd_bytes r) in
  let? _ := match rd_error r with
            | Some e => if length (rd_bytes r) <? OWNER_SCAN_BYTES then Err e else Ok tt
            | None => Ok tt
            end in
  let encrypted_extension := negb (bool_decide (classify name = CkNotEncrypted)) in
  let json_prefix :=
    bool_decide (head (filter (λ b, is_ascii_whitespace b = false) prefix) = Some x7b) in
  if negb encrypted_extension && negb json_prefix then Ok OwNotEncrypted
  else
    let? _ := of_seek file in
    match (read_encrypted_header can_reserve r).1 with
    | Ok header =>
        let owner := match json_from_slice header with
                     | Ok json => get_str "group_id" json ≫= uuid_parse_str
                     | _ => None
                     end in
        Ok (from_option OwGroup OwUnknown owner)
    | Err e =>
        match io_kind e with
        | InvalidData =>
            let looks_encrypted :=
              encrypted_extension
              || (contains (quoted "file_id") prefix && contains (quoted "epoch_id") prefix) in
            Ok (if looks_encrypted then OwUnknown else OwNotEncrypted)
        | _ => Err e
        end
    | Panic => Panic
    | Diverge => Diverge
    end.
End Transfer.
End Files.

(** ** Every interruption leaves a whole file *)

(** [Q] holds of the folder now, and [W] held after every earlier call. *)
Definition io_inv (Q W : Folder → Prop) (s : Io) : Prop := Q (io_folder s) ∧ Forall W (io_trace s).

Lemma keeps_io_call {A} (Q W : Folder → Prop) (f : Folder → res IoError A * Folder) :
  (∀ fo, Q fo → W fo) → (∀ fo, Q fo → Q (f fo).2) → keeps (io_inv Q W) (io_call f).
Proof.
  intros QW H s [Q1 Q2]. unfold io_call. destruct (io_faults s) as [|[e|] faults]; [|done|];
    specialize (H _ Q1); destruct (f (io_folder s)) as [r fo]; simpl in *;
    (split; [done|constructor; auto]).
Qed.

Lemma io_call_Ok {A} (f : Folder → res IoError A * Folder) s a s' :
  io_call f s = (Ok a, s') → f (io_folder s) = (Ok a, io_folder s').
Proof.
  unfold io_call. destruct (io_faults s) as [|[e|] faults]; [|done|];
    destruct (f (io_folder s)) as [r fo]; by intros [= -> <-].
Qed.

(** What the calls on one file do to another. *)
Definition at_name (name : string) (o : option Entry) (fo : Folder) : Prop := fo_files fo !! name = o.

Lemma alter_other name temp f fo : temp ≠ name → fo_files (fo_alter temp f fo) !! name = fo_files fo !! name.
Proof.
  intros N. unfold fo_alter. destruct (fo_files fo !! temp); [|done]. cbn [fo_files].
  by rewrite lookup_insert_ne.
Qed.

Lemma keeps_read {A} (Q W : Folder → Prop) (g : Folder → res IoError A) :
  (∀ fo, Q fo → W fo) → keeps (io_inv Q W) (io_call (λ fo, (g fo, fo))).
Proof. intros. by apply keeps_io_call. Qed.

Section OtherFile.
Context (name temp : string) (o : option Entry) (W : Folder → Prop).
Hypothesis other : temp ≠ name.
Hypothesis at_W : ∀ fo, at_name name o fo → W fo.
Abbreviation stays := (keeps (io_inv (at_name name o) W)).

Lemma keeps_alter f : stays (io_call (λ fo, (Ok tt, fo_alter temp f fo))).
Proof using at_W other.
  apply keeps_io_call; [done|]. intros fo H. unfold at_name in *. cbn [snd]. by rewrite alter_other.
Qed.
Lemma keeps_remove now : stays (fs_remove now temp).
Proof using at_W other.
  apply keeps_io_call; [done|]. intros fo H. unfold at_name in *.
  destruct (fo_files fo !! temp); [|done]. cbn [snd fo_files]. by rewrite lookup_delete_ne.
Qed.
Lemma keeps_create now : stays (fs_create_new now temp).
Proof using at_W other.
  apply keeps_io_call; [done|]. intros fo H. unfold at_name in *.
  destruct (fo_files fo !! temp); [done|]. cbn [snd fo_files]. by rewrite lookup_insert_ne.
Qed.

#[local] Hint Resolve keeps_read keeps_alter keeps_remove keeps_create : keeps.

Lemma write_copy_keeps now header ct n original : stays (write_copy now temp header ct n original).
Proof using at_W other.
  unfold write_copy, fs_write, fs_set_mode, fs_noop. keep_st; eauto with keeps.
Qed.
End OtherFile.

Lemma keeps_ignore {A} P (m : ST Io IoError A) : keeps P m → keeps P (ignore m).
Proof. intros H. apply keeps_bind; [by apply keeps_try|]. intros. apply keeps_ret. Qed.

(** The bytes a file holds. *)
Definition holds (name : string) (b : bytes) (fo : Folder) : Prop :=
  ∃ e, fo_files fo !! name = Some e ∧ en_bytes e = b.

Lemma holds_alter name b f b' s a s' :
  holds name b (io_folder s) → (∀ e, en_bytes e = b → en_bytes (f e) = b') →
  io_call (λ fo, (Ok tt, fo_alter name f fo)) s = (Ok a, s') → holds name b' (io_folder s').
Proof.
  intros [e [L B]] F H%io_call_Ok. injection H as _ H. rewrite <-H. unfold fo_alter. rewrite L.
  exists (f e). cbn [fo_files]. rewrite lookup_insert_eq. auto.
Qed.

Lemma fs_noop_Ok s a s' : fs_noop s = (Ok a, s') → io_folder s' = io_folder s.
Proof. intros H%io_call_Ok. by injection H as _ ->. Qed.

Lemma create_holds now name s a s' : fs_create_new now name s = (Ok a, s') → holds name [] (io_folder s').
Proof.
  intros H%io_call_Ok. destruct (fo_files (io_folder s) !! name); [done|].
  injection H as _ <-. eexists. cbn [fo_files]. by rewrite lookup_insert_eq.
Qed.

Lemma write_copy_Ok now temp header ct n original s s' :
  write_copy now temp header ct n original s = (Ok tt, s') →
  length (take n ct) = n ∧ holds temp (header ++ take n ct) (io_folder s').
Proof.
  unfold write_copy. intros H. st_inv. case_decide as D; [by st_inv|]. st_inv.
  split; [destruct (decide (length (take n ct) = n)); tauto|].
  apply fs_noop_Ok in H, Hst4. apply create_holds in Hst1.
  apply (holds_alter _ [] _ header) in Hst2; [|done|by intros e E; cbn; rewrite E].
  apply (holds_alter _ header _ (header ++ take n ct)) in Hst3; [|done|by intros e E; cbn; rewrite E].
  rewrite H. rewrite <-Hst4 in Hst3. by eapply holds_alter in Hst5.
Qed.

Lemma holds_after now name b W f :
  (∀ fo, holds name b fo → W fo) → (∀ e, en_bytes (f e) = en_bytes e) →
  keeps (io_inv (holds name b) W) (io_call (λ fo, (Ok tt, fo_alter name f fo)))
  ∧ keeps (io_inv (holds name b) W) (fs_set_dir_mtime now).
Proof.
  intros HW F. split; apply keeps_io_call; try done.
  intros fo [e [L B]]. cbn [snd]. unfold fo_alter. rewrite L. exists (f e). cbn [fo_files].
  rewrite lookup_insert_eq, F. done.
Qed.

Lemma rename_cases now temp name b (Q W : Folder → Prop) s :
  io_inv Q W s → holds temp b (io_folder s) → (∀ fo, holds name b fo → W fo) →
  match fs_rename now temp name s with
  | (Ok _, s') => io_inv (holds name b) W s'
  | (Err _, s') => io_inv Q W s'
  | _ => False
  end.
Proof.
  intros [Q1 Q2] [e [L B]] HW. unfold fs_rename, io_call. rewrite L.
  assert (H : holds name b (mkFolder (<[name:=e]> (delete temp (fo_files (io_folder s)))) now)).
  { exists e. cbn [fo_files]. by rewrite lookup_insert_eq. }
  destruct (io_faults s) as [|[?|] faults]; split; try done; constructor; auto.
Qed.

Lemma ignore_run {A} P (m : ST Io IoError A) s :
  keeps P m → returns m → P s → ∃ s', ignore m s = (Ok tt, s') ∧ P s'.
Proof.
  intros K R I. specialize (K s I). specialize (R s). unfold ignore, st_bind, st_try, st_ret.
  destruct (m s) as [[] s']; simpl in *; try done; by eexists.
Qed.

Lemma io_call_returns {A} (f : Folder → res IoError A * Folder) :
  (∀ fo, settles (f fo).1) → returns (io_call f).
Proof.
  intros H s. unfold io_call. specialize (H (io_folder s)).
  destruct (f (io_folder s)); destruct (io_faults s) as [|[] ?]; done.
Qed.

(** What a run has done: it moved the file, or the file is as it was. *)
Definition moved_or_kept (name : string) (old : Entry) (new : option bytes) (W : Folder → Prop)
    (x : res ClientError GroupTransferOutcome * Io) : Prop :=
  match x with
  | (Ok Moved, s) => ∃ b, new = Some b ∧ io_inv (holds name b) W s
  | (_, s) => io_inv (at_name name (Some old)) W s
  end.

Lemma moved_or_kept_fail name old new W (m : ST Io ClientError unit) e s :
  keeps (io_inv (at_name name (Some old)) W) m → io_inv (at_name name (Some old)) W s →
  moved_or_kept name old new W ((do* m; st_fail e) s).
Proof.
  intros K I. specialize (K s I). unfold st_bind. destruct (m s) as [[] s']; done.
Qed.

(** After the rename only times are set. *)
Lemma restore_times name old new W t (pm : IoError + Z) s :
  (∀ fo, holds name new fo → W fo) → io_inv (holds name new) W s →
  moved_or_kept name old (Some new) W
    ((do* ignore (fs_set_mtime name t);
      do* match pm with inr t => ignore (fs_set_dir_mtime t) | inl _ => st_ret tt end;
      st_ret Moved) s).
Proof.
  intros HW I.
  destruct (ignore_run (io_inv (holds name new) W) (fs_set_mtime name t) s)
    as [s1 [E1 K1]]; [|by apply io_call_returns|done|].
  { by apply (holds_after 0 name new W (λ e, mkEntry (en_bytes e) t (en_mode e))). }
  unfold st_bind at 1. rewrite E1. destruct pm as [e|t2]; [by eexists|].
  destruct (ignore_run (io_inv (holds name new) W) (fs_set_dir_mtime t2) s1)
    as [s2 [E2 K2]]; [|by apply io_call_returns|done|].
  { by apply (holds_after t2 name new W (λ e, e)). }
  unfold st_bind. rewrite E2. by eexists.
Qed.

Lemma replace_file_spec now path name temp nh ct n before pm W s :
  temp ≠ name → n = length ct →
  (∀ fo, at_name name (Some before) fo → W fo) → (∀ fo, holds name (nh ++ ct) fo → W fo) →
  io_inv (at_name name (Some before)) W s →
  moved_or_kept name before (Some (nh ++ ct)) W (replace_file now path name temp nh ct n before pm s).
Proof.
  intros N -> W1 W2 I. unfold replace_file, st_bind at 1, st_try at 1.
  pose proof (write_copy_keeps name temp (Some before) W N W1 now nh ct (length ct) before s I) as K.
  destruct (write_copy now temp nh ct (length ct) before s) as [[[]|e| |] s1] eqn:E;
    cbn [snd] in K; try done.
  2:{ apply moved_or_kept_fail; [|done]. apply keeps_ignore. by apply keeps_remove. }
  apply write_copy_Ok in E as [_ H]. rewrite firstn_all in H.
  set (Q := λ fo, at_name name (Some before) fo ∧ holds temp (nh ++ ct) fo).
  assert (KQ : io_inv Q W s1) by (split; [split|]; [apply K|done|apply K]).
  assert (QW : ∀ fo, Q fo → W fo) by (intros fo [? _]; auto).
  assert (Qat : ∀ x, io_inv Q W x → io_inv (at_name name (Some before)) W x)
    by (intros x [[? _] ?]; done).
  unfold st_bind at 1, st_try at 1.
  assert (K2 : io_inv Q W (fs_metadata name s1).2) by by apply keeps_read. destruct (fs_metadata name s1) as [after s2].
  assert (give : ∀ x e, io_inv Q W x →
    moved_or_kept name before (Some (nh ++ ct)) W ((do* ignore (fs_remove now temp); st_fail e) x)).
  { intros x e Ix. apply moved_or_kept_fail; [|auto]. apply keeps_ignore. by apply keeps_remove. }
  destruct after as [after|e| |]; cbn [snd] in K2; try (by apply Qat in K2); [|by apply (give s2)].
  destruct (bool_decide _); [|by apply give]. cbn [negb].
  unfold st_bind at 1, st_try at 1.
  pose proof (rename_cases now temp name (nh ++ ct) Q W s2 K2 (proj2 (proj1 K2)) W2) as K3.
  destruct (fs_rename now temp name s2) as [[a|e| |] s3]; try done; [|by apply give].
  by apply restore_times.
Qed.

Lemma read_header_rest can_reserve r :
  length (rd_bytes (read_encrypted_header can_reserve r).2) ≤ length (rd_bytes r).
Proof.
  unfold read_encrypted_header. generalize (S (length (rd_bytes r))) as fuel, ([] : bytes) as header.
  intros fuel. revert r. induction fuel as [|fuel IH]; intros r header; [done|]. cbn [read_header_loop].
  destruct (_ <? _)%N; [done|]. set (limit := u64_saturating_add _ _).
  pose proof (read_until_rest limit r) as L.
  destruct (read_until limit r) as [[line| | |] r'] eqn:E; cbn [snd] in L |- *; try done.
  destruct (_ =? _)%N; [done|]. case_decide; [done|]. destruct (_ <? _)%N; [done|].
  destruct (negb _); [done|]. specialize (IH r' (header ++ line)). lia.
Qed.

Lemma moved_or_kept_bind {A} name old new W (m : ST Io ClientError A)
    (k : A → ST Io ClientError GroupTransferOutcome) s :
  keeps (io_inv (at_name name (Some old)) W) m → io_inv (at_name name (Some old)) W s →
  (∀ a s', m s = (Ok a, s') → io_inv (at_name name (Some old)) W s' →
     moved_or_kept name old new W (k a s')) →
  moved_or_kept name old new W (st_bind m k s).
Proof.
  intros K I H. specialize (K s I). unfold st_bind. destruct (m s) as [[a| | |] s'] eqn:E; try done.
  by apply H.
Qed.

Lemma temp_path_other path name temp : temp_path path name = Ok temp → temp ≠ name.
Proof.
  unfold temp_path, from_utf8. case_decide; [|done]. intros [= <-] E.
  unfold bytes_of in E. rewrite String.string_of_list_byte_of_string in E.
  apply (f_equal String.length) in E.
  assert (L : ∀ a b, String.length (a +:+ b) = String.length a + String.length b).
  { clear. intros a b. induction a as [|c a IH]; [done|]. cbn [String.length].
    change (String c a +:+ b) with (String c (a +:+ b)). simpl. by rewrite IH. }
  rewrite !L in E. simpl in E. lia.
Qed.

Section Atomic.
Context {sha : Sha256} {aead : Aead} {hkdf : Hkdf}.
Context {json : SerdeJson} {b64 : Base64} {uuid : UuidText}.
Variables (now : Z) (can_reserve : N → bool) (random : array 12) (path : string).
Variables (from to : GroupEpochKey).

(** What the file is to become: the new header before the ciphertext it has. *)
Definition moved_file (old : bytes) : option bytes :=
  match read_encrypted_header can_reserve (mkReader old None) with
  | (Ok header_bytes, r) =>
      match new_header random path from to header_bytes with
      | Ok (Some nh) => Some (nh ++ rd_bytes r)
      | _ => None
      end
  | _ => None
  end.

(** The file is what it was, or what it is to become. *)
Definition whole (name : string) (old : Entry) (fo : Folder) : Prop :=
  at_name name (Some old) fo ∨ ∃ new, moved_file (en_bytes old) = Some new ∧ holds name new fo.

Lemma transfer_spec name io old :
  io_inv (at_name name (Some old)) (whole name old) io →
  moved_or_kept name old (moved_file (en_bytes old)) (whole name old)
    (transfer_file_to_group now can_reserve random path name from to io).
Proof.
  intros I.
  assert (W1 : ∀ fo, at_name name (Some old) fo → whole name old fo) by by left.
  unfold transfer_file_to_group.
  apply moved_or_kept_bind; [apply keeps_map_err; by apply keeps_read|done|].
  intros before s1 H1 I1. apply st_map_err_Ok, io_call_Ok in H1. injection H1 as H1 H1'.
  assert (before = old) as ->.
  { destruct I as [I _]. unfold at_name in I. rewrite I in H1. by apply Ok_inj in H1. }
  apply moved_or_kept_bind; [apply keeps_map_err; by apply keeps_read|done|].
  intros contents s2 H2 I2. apply st_map_err_Ok, io_call_Ok in H2. injection H2 as H2 H2'.
  assert (contents = en_bytes old) as ->.
  { destruct I1 as [I1 _]. unfold at_name in I1. rewrite I1 in H2. by apply Ok_inj in H2. }
  apply moved_or_kept_bind; [apply keeps_map_err; by apply keeps_read|done|].
  intros hb s3 H3 I3. apply st_map_err_Ok, io_call_Ok in H3. injection H3 as H3 _.
  apply moved_or_kept_bind; [apply keeps_lift|done|].
  intros [nh|] s4 H4 I4; [|done]. apply st_lift_Ok in H4 as [H4 ->].
  assert (M : moved_file (en_bytes old)
    = Some (nh ++ rd_bytes (read_encrypted_header can_reserve (mkReader (en_bytes old) None)).2)).
  { unfold moved_file. destruct (read_encrypted_header _ _) as [x r]. cbn [fst snd] in *.
    subst x. by rewrite H4. }
  rewrite M. apply moved_or_kept_bind; [apply keeps_map_err; by apply keeps_read|done|].
  intros _ s5 _ I5. apply moved_or_kept_bind; [apply keeps_lift|done|].
  intros n s6 H6 I6. apply st_lift_Ok in H6 as [H6 ->].
  apply moved_or_kept_bind; [apply keeps_lift|done|].
  intros temp s7 H7 I7. apply st_lift_Ok in H7 as [H7 ->]. apply temp_path_other in H7.
  apply moved_or_kept_bind; [apply keeps_try; by apply keeps_read|done|].
  intros pm s8 _ I8. apply replace_file_spec; [done| |done| |done].
  - pose proof (read_header_rest can_reserve (mkReader (en_bytes old) None)) as L. cbn [rd_bytes] in L.
    destruct (length (en_bytes old) <? _) eqn:B; [done|]. apply Ok_inj in H6. lia.
  - intros fo H. right. by eexists.
Qed.

(** C13: Moving a file to another group is all or nothing: whichever calls of the file
    system fail, and wherever the run is interrupted, the folder holds the file either
    as it was or with the complete new header and the complete ciphertext; the new file
    is there when the run reports that it moved, and the old one, untouched, when it
    reports anything else. *)
Theorem transfer_all_or_nothing (name : string) (io : Io) (old : Entry) :
  fo_files (io_folder io) !! name = Some old → io_trace io = [] →
  match transfer_file_to_group now can_reserve random path name from to io with
  | (Ok Moved, io') => ∃ new, moved_file (en_bytes old) = Some new ∧ holds name new (io_folder io')
  | (_, io') => fo_files (io_folder io') !! name = Some old
  end
  ∧ Forall (whole name old)
      (io_trace (transfer_file_to_group now can_reserve random path name from to io).2).
Proof.
  intros L T. pose proof (transfer_spec name io old) as S. unfold moved_or_kept in S.
  specialize (S (conj L (eq_rect_r (Forall (whole name old)) (Forall_nil_2 _) T))).
  destruct (transfer_file_to_group _ _ _ _ _ _ _ io) as [[[]| | |] io']; cbn [snd];
    [destruct S as [b [E [H F]]]; split; [by exists b|done]|by destruct S..].
Qed.
End Atomic.

(** ** A run in which no call fails *)

Lemma io_call_quiet {A} (f : Folder → res IoError A * Folder) s :
  io_faults s = [] →
  io_call f s = ((f (io_folder s)).1, mkIo (f (io_folder s)).2 [] ((f (io_folder s)).2 :: io_trace s)).
Proof. intros Q. unfold io_call. rewrite Q. by destruct (f (io_folder s)). Qed.

Lemma st_bind_run {St E A B} (m : ST St E A) (k : A → ST St E B) s a s' x :
  m s = (Ok a, s') → k a s' = x → st_bind m k s = x.
Proof. unfold st_bind. by intros -> ->. Qed.

Lemma remove_quiet now temp s :
  io_faults s = [] →
  ∃ x s', st_try (E := ClientError) (fs_remove now temp) s = (Ok x, s') ∧ io_faults s' = []
    ∧ fo_files (io_folder s') = delete temp (fo_files (io_folder s))
    ∧ match x with inl e => io_kind e = NotFound | inr _ => True end.
Proof.
  intros Q. unfold st_try, fs_remove. rewrite io_call_quiet by done.
  destruct (fo_files (io_folder s) !! temp) eqn:L; eexists _, _; split_and!; try done.
  simpl. by rewrite delete_id.
Qed.

Lemma write_copy_quiet now temp header ct original s :
  io_faults s = [] →
  ∃ s', write_copy now temp header ct (length ct) original s = (Ok tt, s') ∧ io_faults s' = [].
Proof.
  intros Q. unfold write_copy. destruct (remove_quiet now temp s Q) as (x & s1 & E1 & Q1 & F1 & K1).
  eexists. split.
  - eapply st_bind_run; [exact E1|]. eapply st_bind_run.
    { destruct x as [e|]; [rewrite K1|]; reflexivity. }
    eapply st_bind_run.
    { unfold st_map_err, fs_create_new. rewrite io_call_quiet by done. rewrite F1, lookup_delete_eq.
      reflexivity. }
    eapply st_bind_run; [reflexivity|]. eapply st_bind_run; [reflexivity|].
    rewrite firstn_all, decide_False by tauto.
    eapply st_bind_run; [reflexivity|]. eapply st_bind_run; [reflexivity|]. reflexivity.
  - reflexivity.
Qed.

Lemma replace_file_quiet now path name temp nh ct before pm s :
  temp ≠ name → io_faults s = [] → at_name name (Some before) (io_folder s) →
  (replace_file now path name temp nh ct (length ct) before pm s).1 = Ok Moved.
Proof.
  intros N Q I. unfold replace_file.
  destruct (write_copy_quiet now temp nh ct before s Q) as [s1 [E1 Q1]].
  destruct (write_copy_Ok _ _ _ _ _ _ _ _ E1) as [_ [e [H _]]].
  assert (I1 : at_name name (Some before) (io_folder s1)).
  { pose proof (write_copy_keeps name temp (Some before) (λ _, True) N (λ _ _, Logic.I) now nh ct
      (length ct) before s (conj I (proj2 (list.Forall_forall _ _) (λ _ _, Logic.I)))) as K.
    rewrite E1 in K. apply K. }
  erewrite st_bind_run; [|unfold st_try; rewrite E1; reflexivity|reflexivity]. cbv beta iota.
  erewrite st_bind_run; [|unfold st_try, fs_metadata; rewrite io_call_quiet, I1 by done; reflexivity
    |reflexivity].
  rewrite bool_decide_eq_true_2 by done. cbn [negb].
  erewrite st_bind_run; [|unfold st_try, fs_rename; rewrite io_call_quiet by done; cbn [io_folder fst snd];
    rewrite H; reflexivity|reflexivity].
  by destruct pm.
Qed.

Section Quiet.
Context {sha : Sha256} {aead : Aead} {hkdf : Hkdf}.
Context {json : SerdeJson} {b64 : Base64} {uuid : UuidText}.

Lemma transfer_quiet now can_reserve random path name from to io old new :
  io_faults io = [] → fo_files (io_folder io) !! name = Some old →
  from_utf8 (bytes_of name) = Some name →
  moved_file can_reserve random path from to (en_bytes old) = Some new →
  (transfer_file_to_group now can_reserve random path name from to io).1 = Ok Moved.
Proof.
  intros Q L U M. unfold moved_file in M. unfold transfer_file_to_group.
  pose proof (read_header_rest can_reserve (mkReader (en_bytes old) None)) as R.
  destruct (read_encrypted_header can_reserve (mkReader (en_bytes old) None)) as [[hb| | |] r] eqn:E;
    try done.
  destruct (new_header random path from to hb) as [[nh|]| | |] eqn:P; try done.
  erewrite st_bind_run; [|unfold st_map_err, fs_metadata; rewrite io_call_quiet, L by done; reflexivity
    |reflexivity].
  erewrite st_bind_run; [|unfold st_map_err, fs_open; rewrite io_call_quiet by done; cbn [io_folder fst snd];
    rewrite L; reflexivity|reflexivity].
  cbn [res_bind]. rewrite E.
  erewrite st_bind_run; [|reflexivity|reflexivity]. cbn [fst snd].
  erewrite st_bind_run; [|unfold st_lift; rewrite P; reflexivity|reflexivity]. cbv beta iota.
  erewrite st_bind_run; [|reflexivity|reflexivity].
  cbn [snd rd_bytes] in R |- *.
  erewrite st_bind_run; [|unfold st_lift; rewrite (proj2 (Nat.ltb_ge _ _)) by lia; reflexivity
    |reflexivity].
  assert (T : temp_path path name = Ok ("." +:+ name +:+ TRANSFER_TEMP_SUFFIX)).
  { unfold temp_path. by rewrite U. }
  erewrite st_bind_run; [|unfold st_lift; rewrite T; reflexivity|reflexivity].
  erewrite st_bind_run; [|reflexivity|reflexivity].
  replace (length (en_bytes old) - (length (en_bytes old) - length (rd_bytes r)))
    with (length (rd_bytes r)) by lia.
  apply replace_file_quiet; [by eapply temp_path_other|done|exact L].
Qed.
End Quiet.

(** ** The moved file is the same file *)

Section Moved.
Context {sha : Sha256} {aead : Aead} {hkdf : Hkdf}.
Context {json : SerdeJson} {b64 : Base64} {uuid : UuidText} {rfc : Rfc3339} {hs : HeaderSerde}.
Context {aeadl : AeadLaws} {aeadt : AeadTotal} {hkdfl : HkdfLaws}.
Context {jsonl : SerdeJsonLaws} {b64l : Base64Laws} {uuidl : UuidTextLaws} {rfcl : Rfc3339Laws}.
Context {hsl : HeaderSerdeLaws}.

Definition header_key_fields (h : SerializedEncryptedHeader) : KeyFields :=
  mkKeyFields (sh_file_id h) (sh_file_path h) (sh_group_id h) (sh_epoch_id h)
    (sh_header_version h) (sh_wrapped_file_key h) (sh_key_wrap_nonce h) (sh_key_wrap_aad_hash h).

(** The header with another wrap of the key; everything about the contents stays. *)
Definition moved_header (h : SerializedEncryptedHeader) (to : GroupEpochKey) (r : Rewrapped)
  : SerializedEncryptedHeader :=
  mkSerializedEncryptedHeader (sh_file_id h) (sh_file_path h) (Some (gk_group_id to))
    (gk_epoch_id to) (sh_header_version h) (rw_wrapped r) (rw_nonce r) (rw_aad_hash r)
    (sh_content_nonce h) (sh_content_chunk_size h) (sh_original_size h) (sh_encrypted_size h)
    (sh_encrypted_at h) (sh_original_name h) (sh_platform_metadata h) (sh_sparse_metadata h).

Lemma key_fields_written h n :
  header_fits h n = true → KeyFields_parse (header_json h) = Some (header_key_fields h).
Proof.
  intros F. unfold header_fits in F. rewrite !andb_true_iff in F.
  destruct F as [[[[[[[[[_ V] _] _] _] _] P] _] _] _]. unfold KeyFields_parse, get_str, get_u64.
  destruct (header_fields h) as (-> & _ & -> & -> & _ & -> & -> & -> & -> & -> & _ & _ & _ & _).
  cbn [mbind option_bind as_str as_u64 VN VB decode_bytes]. unfold u32_try_from. rewrite V.
  cbn [mbind option_bind filter_opt]. rewrite P. cbn [mbind option_bind].
  by rewrite !base64_decode_encode, group_field.
Qed.

Lemma set_key_fields_written h to r :
  set_key_fields to r (header_json h) = Ok (header_json (moved_header h to r)).
Proof. reflexivity. Qed.

Lemma moved_header_fits h to r n :
  header_fits h n = true → (gk_epoch_id to < U64)%N → header_fits (moved_header h to r) n = true.
Proof.
  unfold header_fits. rewrite !andb_true_iff. intros F E. apply N.ltb_lt in E. tauto.
Qed.

Lemma key_wrapping_key_total k : ∃ kek, key_wrapping_key k = Ok kek.
Proof.
  unfold key_wrapping_key. destruct (kek_exists (mkKey k)) as (b & kek & H & E).
  cbn [key_bytes] in H. exists kek. rewrite H. simpl. by rewrite E.
Qed.

Lemma gt_wrap_opens random path f envelope to :
  length envelope = 32 ∨ length envelope = 64 →
  ∃ r, gt_wrap_file_key random f envelope to = Ok r
    ∧ gt_unwrap_file_key path
        (mkKeyFields (kf_file_id f) (kf_file_path f) (Some (gk_group_id to)) (gk_epoch_id to)
           (kf_header_version f) (rw_wrapped r) (rw_nonce r) (rw_aad_hash r)) to = Ok envelope.
Proof.
  intros L. destruct (key_wrapping_key_total (gk_key to)) as [kek K].
  set (aad := KeyFields_wrap_aad f (gk_group_id to) (gk_epoch_id to)).
  destruct (rewrap_total random envelope kek aad L) as [w R].
  pose proof (rewrap_open _ _ _ _ _ _ R) as [_ O].
  exists (mkRewrapped w (arr random) (hash_wrap_aad aad)). split.
  - unfold gt_wrap_file_key. rewrite K. cbn [res_bind]. fold aad. rewrite R. cbn [map_err res_bind fst snd].
    rewrite Nonce_from_array. cbn [map_err res_bind]. rewrite O. cbn [map_err res_bind].
    by rewrite decide_False by tauto.
  - unfold gt_unwrap_file_key. unfold KeyFields_wrap_aad.
    cbn [kf_file_id kf_file_path kf_header_version kf_key_wrap_aad_hash kf_key_wrap_nonce
      kf_wrapped_file_key rw_wrapped rw_nonce rw_aad_hash].
    fold (KeyFields_wrap_aad f (gk_group_id to) (gk_epoch_id to)). fold aad.
    rewrite decide_False by tauto. rewrite Nonce_from_array, K. cbn [map_err res_bind]. by rewrite O.
Qed.

Lemma new_header_written random path from to h b n envelope :
  json_to_vec (header_json h) = Ok b → header_fits h n = true →
  sh_group_id h = Some (gk_group_id from) → gk_group_id from ≠ gk_group_id to →
  sh_epoch_id h = gk_epoch_id from →
  gt_unwrap_file_key path (header_key_fields h) from = Ok envelope →
  length envelope = 32 ∨ length envelope = 64 →
  ∃ r b', gt_unwrap_file_key path (header_key_fields (moved_header h to r)) to = Ok envelope
    ∧ json_to_vec (header_json (moved_header h to r)) = Ok b'
    ∧ new_header random path from to (b ++ [newline]) = Ok (Some (b' ++ ENCRYPTED_FILE_SEPARATOR)).
Proof.
  intros E F G N Ep U L.
  destruct (gt_wrap_opens random path (header_key_fields h) envelope to L) as (r & W & O).
  destruct (json_to_vec_total (header_json (moved_header h to r))) as [b' E'].
  exists r, b'. split; [exact O|]. split; [done|]. unfold new_header.
  rewrite (json_trailing_newline b (header_json h))
    by (apply json_from_to_vec; [by eapply header_json_safe|done]).
  cbn [map_err res_bind]. rewrite (key_fields_written h n) by done. cbn [ok_or res_bind].
  rewrite decide_False by (cbn [header_key_fields kf_group_id]; rewrite G; congruence).
  rewrite decide_False by (cbn [header_key_fields kf_group_id]; rewrite G; tauto).
  rewrite decide_False by (cbn [header_key_fields kf_epoch_id]; rewrite Ep; tauto).
  rewrite U. cbn [res_bind]. rewrite W. cbn [res_bind]. rewrite set_key_fields_written.
  cbn [res_bind]. by rewrite E'.
Qed.

Lemma moved_file_written can_reserve random path from to h b ct envelope :
  reserves_header can_reserve →
  json_to_vec (header_json h) = Ok b → (N.of_nat (length b) < MAX_ENCRYPTED_HEADER_BYTES)%N →
  header_fits h (N.of_nat (length ct)) = true →
  sh_group_id h = Some (gk_group_id from) → gk_group_id from ≠ gk_group_id to →
  sh_epoch_id h = gk_epoch_id from →
  gt_unwrap_file_key path (header_key_fields h) from = Ok envelope →
  length envelope = 32 ∨ length envelope = 64 →
  ∃ r b', gt_unwrap_file_key path (header_key_fields (moved_header h to r)) to = Ok envelope
    ∧ json_to_vec (header_json (moved_header h to r)) = Ok b'
    ∧ moved_file can_reserve random path from to ((b ++ ENCRYPTED_FILE_SEPARATOR) ++ ct)
      = Some ((b' ++ ENCRYPTED_FILE_SEPARATOR) ++ ct).
Proof.
  intros R E B F G N Ep U L.
  destruct (new_header_written random path from to h b _ envelope E F G N Ep U L)
    as (r & b' & O & E' & H).
  exists r, b'. split; [done|]. split; [done|]. unfold moved_file. rewrite <-app_assoc.
  rewrite read_serialized;
    [|done|by eapply json_to_vec_one_line|by eapply json_to_vec_brace|done].
  by rewrite H.
Qed.

(** Moving a file to another group keeps what it is: when no call fails, a well-formed
    file of the source group that opens with its key is moved, its ciphertext is what it
    was, its key envelope opens with the target's key to what it was, its contents are
    checked against the same manifest, and it is recognised as a file of the target
    group with every other field of its header. *)
Theorem transfer_keeps_content (can_reserve : N → bool) (now : Z) (random : array 12)
    (path name : string) (from to : GroupEpochKey) (h : SerializedEncryptedHeader) (b ct : bytes)
    (envelope : bytes) (files : gmap string Entry) (dir_mtime mtime : Z) (mode : N) :
  reserves_header can_reserve →
  serialize_encrypted_header h = Ok b → (N.of_nat (length b) < MAX_ENCRYPTED_HEADER_BYTES + 22)%N →
  header_fits h (N.of_nat (length ct)) = true →
  sh_group_id h = Some (gk_group_id from) → gk_group_id from ≠ gk_group_id to →
  sh_epoch_id h = gk_epoch_id from → (gk_epoch_id to < U64)%N →
  gt_unwrap_file_key path (header_key_fields h) from = Ok envelope →
  length envelope = 32 ∨ length envelope = 64 →
  from_utf8 (bytes_of name) = Some name → files !! name = Some (mkEntry (b ++ ct) mtime mode) →
  let run := transfer_file_to_group now can_reserve random path name from to
               (mkIo (mkFolder files dir_mtime) [] []) in
  let n := N.of_nat (length ct) in
  ∃ r b', run.1 = Ok Moved
    ∧ serialize_encrypted_header (moved_header h to r) = Ok b'
    ∧ holds name (b' ++ ct) (io_folder run.2)
    ∧ gt_unwrap_file_key path (header_key_fields (moved_header h to r)) to = Ok envelope
    ∧ (∀ allow, verify (header_metadata (moved_header h to r) n) envelope allow
                = verify (header_metadata h n) envelope allow)
    ∧ ((N.of_nat (length b') < MAX_ENCRYPTED_HEADER_BYTES + 22)%N →
       inspect_bytes can_reserve now (b' ++ ct) = Ciphertext (header_metadata (moved_header h to r) n)).
Proof.
  intros R S B F G N Ep Eto U L Hu Hf run n.
  destruct (serialize_ok h) as [j [Ej Sj]]. rewrite Sj in S. apply Ok_inj in S as <-.
  rewrite length_app in B. change (length ENCRYPTED_FILE_SEPARATOR) with 22 in B.
  destruct (moved_file_written can_reserve random path from to h j ct envelope)
    as (r & b' & O & E' & M); [done|done|lia|done..|].
  exists r, (b' ++ ENCRYPTED_FILE_SEPARATOR).
  assert (Q : run.1 = Ok Moved) by by eapply transfer_quiet.
  pose proof (transfer_spec now can_reserve random path from to name
    (mkIo (mkFolder files dir_mtime) [] []) _ (conj Hf (Forall_nil_2 _))) as T.
  fold run in T. destruct run as [x s]. cbn [fst snd] in Q |- *. subst x.
  destruct T as [new [T1 [T2 _]]]. cbn [en_bytes] in T1. rewrite M in T1. injection T1 as <-.
  split_and!; try done.
  - unfold serialize_encrypted_header. by rewrite E'.
  - rewrite length_app. change (length ENCRYPTED_FILE_SEPARATOR) with 22. intros B'.
    apply inspect_written; [done|by apply moved_header_fits|done|lia].
Qed.
End Moved.

(** ** A concrete move *)

#[local] Existing Instances toy_sha256 toy_aead toy_aead_laws toy_aead_total toy_hkdf toy_hkdf_laws
  toy_serde_json toy_serde_json_laws toy_base64 toy_base64_laws toy_uuid_text toy_uuid_text_laws
  toy_rfc3339 toy_rfc3339_laws toy_header_serde toy_header_serde_laws.

Definition num_bytes (n : nat) (k : N) : array n := dexist (le_bytes n k) (le_bytes_length n k).
Definition home : GroupEpochKey := mkGroupEpochKey (num_bytes 16 1) 7 (num_bytes 32 5).
Definition office : GroupEpochKey := mkGroupEpochKey (num_bytes 16 2) 3 (num_bytes 32 6).

(** The key and the manifest of the file, wrapped for the group [home]. *)
Definition note_envelope : bytes := arr (key_bytes doc_key) ++ digest 5 33 None [x04] None.
Definition note_plain : SerializedEncryptedHeader :=
  mkSerializedEncryptedHeader "f2" "note.txt" (Some (gk_group_id home)) 7 3 [] [] [] [x04] None 5 33 5
    None None None.
Definition note_header : SerializedEncryptedHeader :=
  match gt_wrap_file_key (num_bytes 12 8) (header_key_fields note_plain) note_envelope home with
  | Ok r => moved_header note_plain home r
  | _ => note_plain
  end.
Definition note_body : bytes := replicate 33 x0a.
Definition note_file : bytes :=
  match serialize_encrypted_header note_header with Ok b => b ++ note_body | _ => [] end.
Definition desk_folder : Folder :=
  mkFolder {["note.txt.encrypted"%string := mkEntry note_file 40 384]} 41.

Definition move_run (faults : list (option IoError)) :=
  transfer_file_to_group 50 always (num_bytes 12 9) "/v/note.txt.encrypted" "note.txt.encrypted"
    home office (mkIo desk_folder faults []).

Lemma note_wrapped :
  gt_unwrap_file_key "/v/note.txt.encrypted" (header_key_fields note_header) home = Ok note_envelope.
Proof. vm_compute. reflexivity. Qed.

Lemma transfer_keeps_content_witness :
  ∃ b, (move_run []).1 = Ok Moved ∧ holds "note.txt.encrypted" (b ++ note_body) (io_folder (move_run []).2).
Proof.
  assert (S : ∃ b, serialize_encrypted_header note_header = Ok b
    ∧ (N.of_nat (length b) < MAX_ENCRYPTED_HEADER_BYTES + 22)%N ∧ note_file = b ++ note_body).
  { assert (L : match serialize_encrypted_header note_header with
                | Ok b => (N.of_nat (length b) <? MAX_ENCRYPTED_HEADER_BYTES + 22)%N
                | _ => false
                end = true) by (vm_compute; reflexivity).
    unfold note_file. destruct (serialize_encrypted_header note_header) as [b| | |]; [|discriminate L..].
    exists b. split; [reflexivity|]. split; [by apply N.ltb_lt|reflexivity]. }
  destruct S as (b & S & L & F).
  destruct (transfer_keeps_content always 50 (num_bytes 12 9) "/v/note.txt.encrypted"
    "note.txt.encrypted" home office note_header b note_body note_envelope
    {["note.txt.encrypted"%string := mkEntry note_file 40 384]} 41 40 384)
    as (r & b' & H1 & _ & H2 & _).
  - intros n _. reflexivity.
  - exact S.
  - exact L.
  - vm_compute. reflexivity.
  - vm_compute. reflexivity.
  - discriminate.
  - vm_compute. reflexivity.
  - reflexivity.
  - exact note_wrapped.
  - right. vm_compute. reflexivity.
  - vm_compute. reflexivity.
  - rewrite F. reflexivity.
  - exists b'. split; [exact H1|exact H2].
Defined.

(** The rename fails: the file is untouched. *)
Definition move_faults : list (option IoError) :=
  replicate 13 None ++ [Some (mkIoError (OtherKind 13) "Permission denied")].

Lemma transfer_all_or_nothing_witness :
  (match (move_run move_faults).1 with Err _ => true | _ => false end) = true
  ∧ Forall (whole always (num_bytes 12 9) "/v/note.txt.encrypted" home office "note.txt.encrypted"
              (mkEntry note_file 40 384)) (io_trace (move_run move_faults).2).
Proof.
  split; [vm_compute; reflexivity|].
  unfold move_run. apply transfer_all_or_nothing; [|reflexivity].
  unfold desk_folder. cbn [io_folder fo_files]. apply lookup_singleton_eq.
Defined.
