(* ===== verification/Pinning.v ===== *)
(** * Pinned device keys ([crates/client/src/pinning/mod.rs])

    The store of device identity keys that were checked out of band, the fingerprints
    and safety numbers people compare, and the links that carry a key.  Pins are JSON
    texts in the configuration part of the storage trait, which is the class
    [ConfigStore]; [serde_json] and [urlencoding] are classes with their laws.  A
    reading of the clock is an argument, in nanoseconds.  The drawing of QR codes is
    left out. *)

From Stdlib Require Import Strings.Byte Strings.Ascii.
From stdpp Require Import base tactics numbers sets list gmap strings pretty option.
From S2P Require Import Prelude StateError Crypto EpochState FilePath Storage Json.
Open Scope hc_scope.
Open Scope hc_st_scope.

Inductive PinningMethod :=
| QrCode
| SafetyNumber
| Manual
| Unverified
| OwnDevice.

Definition PinningMethod_display (p : PinningMethod) : string :=
  match p with
  | QrCode => "QR Code"
  | SafetyNumber => "Safety Number"
  | Manual => "Manual Verification"
  | Unverified => "Unverified (auto)"
  | OwnDevice => "Verified on your other device"
  end.

Record PinningConfig := mkPinningConfig {
  max_pin_age_days : option N;
  enable_qr_codes : bool;
  require_second_party_verification : bool;
  signed_url_max_age_days : option N;
  signed_url_max_future_secs : N;
}.
Definition PinningConfig_default : PinningConfig := mkPinningConfig (Some 365%N) true true (Some 7%N) 600.

Record PinnedKey := mkPinnedKey {
  pk_user_id : string;
  pk_device_id : string;
  pk_identity_public_key : array 32;
  pk_fingerprint : string;
  pk_pinned_at : Z;
  pk_verified : bool;
  pk_verified_at : option Z;
  pk_verification_method : PinningMethod;
  pk_notes : option string;
}.

Inductive PinningError :=
| PeStorage (e : StorageError)
| PeKeyMismatch (expected actual : string)
| PeNoPinnedKey (user_id device_id : string)
| PeInvalidFingerprint (msg : string)
| PeExpiredPin (pinned_at : Z)
| PeInvalidPublicKey (msg : string).

Record SignedPinningPayload := mkSignedPinningPayload {
  sp_url : string;
  sp_issued_at : Z;
  sp_signer : string;
  sp_signature : string;
  sp_signer_public_key : array 32;
}.
Record SignedPinMetadata := mkSignedPinMetadata { sm_signer : string; sm_issued_at : Z }.
Record ParsedPinningUrl := mkParsedPinningUrl {
  pu_user_id : string;
  pu_device_id : string;
  pu_public_key : array 32;
  pu_fingerprint : string;
  pu_signature : option SignedPinMetadata;
}.
Record SignedUrlPolicy := mkSignedUrlPolicy { up_max_age_days : option N; up_max_future_secs : N }.
Definition SignedUrlPolicy_from (cfg : PinningConfig) : SignedUrlPolicy :=
  mkSignedUrlPolicy (signed_url_max_age_days cfg) (signed_url_max_future_secs cfg).
Definition SignedUrlPolicy_default : SignedUrlPolicy := mkSignedUrlPolicy (Some 7%N) 600.

(** [chrono::Duration]s, in nanoseconds. *)
Definition seconds (n : N) : Z := (Z.of_N n * 10 ^ 9)%Z.
Definition days (n : N) : Z := seconds (n * 86400).

(** ** What the store relies on

    The configuration of the storage trait.  A deleted key is gone or is left blank (the
    trait's default writes an empty text). *)
Class ConfigStore (S : Type) := {
  store_config : string → string → S → res StorageError unit * S;
  load_config : string → S → res StorageError (option string);
  delete_config : string → S → res StorageError unit * S;
}.
Definition blank (o : option string) : Prop :=
  match o with Some t => trim t = EmptyString | None => True end.
(** A call that fails leaves the configuration as it was. *)
Class ConfigStoreLaws (S : Type) `{ConfigStore S} : Prop := {
  load_config_settles k s : (∃ o, load_config k s = Ok o) ∨ (∃ e, load_config k s = Err e);
  store_config_settles k v s :
    (∃ s', store_config k v s = (Ok tt, s'))
    ∨ (∃ e s', store_config k v s = (Err e, s') ∧ ∀ k', load_config k' s' = load_config k' s);
  delete_config_settles k s :
    (∃ s', delete_config k s = (Ok tt, s'))
    ∨ (∃ e s', delete_config k s = (Err e, s') ∧ ∀ k', load_config k' s' = load_config k' s);
  load_store_config k v s s' : store_config k v s = (Ok tt, s') → load_config k s' = Ok (Some v);
  load_store_config_ne k k' v s s' :
    k ≠ k' → store_config k v s = (Ok tt, s') → load_config k' s' = load_config k' s;
  load_delete_config k s s' :
    delete_config k s = (Ok tt, s') → ∃ o, load_config k s' = Ok o ∧ blank o;
  load_delete_config_ne k k' s s' :
    k ≠ k' → delete_config k s = (Ok tt, s') → load_config k' s' = load_config k' s;
}.

(** [serde_json] on a pin: an object, so never a blank text. *)
Class PinJson := {
  pin_to_string : PinnedKey → res string string;
  pin_from_str : string → res string PinnedKey;
}.
Class PinJsonLaws `{PinJson} : Prop := {
  pin_to_string_total p : ∃ t, pin_to_string p = Ok t;
  pin_from_to p t : pin_to_string p = Ok t → pin_from_str t = Ok p ∧ trim t ≠ EmptyString;
}.

(** The [urlencoding] crate: everything but letters, digits and [-_.~] is escaped. *)
Class UrlEncoding := {
  url_encode : string → string;
  url_decode : string → option string;
}.
Definition url_char (c : ascii) : bool :=
  let n := code c in
  ((48 <=? n) && (n <=? 57) || (65 <=? n) && (n <=? 90) || (97 <=? n) && (n <=? 122)
   || (n =? 45) || (n =? 95) || (n =? 46) || (n =? 126) || (n =? 37))%N.
Class UrlEncodingLaws `{UrlEncoding} : Prop := {
  url_decode_encode s : url_decode (url_encode s) = Some s;
  url_encode_chars s : string_all url_char (url_encode s) = true;
}.

(** ** Fingerprints and safety numbers *)

Section Pins.
Context {sha : Sha256} {hex : Hex} {pj : PinJson} {b64 : Base64} {ue : UrlEncoding} {rfc : Rfc3339}.
Context {ed : Ed25519}.

(** The groups of [chunks(4)], separated by a space. *)
Fixpoint grouped (k room : nat) (s : string) : string :=
  match s with
  | EmptyString => EmptyString
  | String c s =>
      match room with
      | O => String " " (String c (grouped k k s))
      | S room => String c (grouped k room s)
      end
  end.
Definition ascii_upper (a : ascii) : ascii :=
  if ((97 <=? code a) && (code a <=? 122))%N then ascii_of_N (code a - 32) else a.
Fixpoint to_upper (s : string) : string :=
  match s with EmptyString => EmptyString | String a s => String (ascii_upper a) (to_upper s) end.

Definition generate_fingerprint (public_key : array 32) : string :=
  let hexed := hex_encode (take 8 (arr (sha256 (arr public_key)))) in
  to_upper (grouped 3 4 hexed).

(** [local_key < remote_key]: the lexicographic order of bytes. *)
Fixpoint bytes_ltb (a b : bytes) : bool :=
  match a, b with
  | [], _ :: _ => true
  | x :: a, y :: b =>
      (Byte.to_N x <? Byte.to_N y)%N || ((Byte.to_N x =? Byte.to_N y)%N && bytes_ltb a b)
  | _, [] => false
  end.

Definition generate_safety_number (local_key remote_key : array 32) : string :=
  let hashed := if bytes_ltb (arr local_key) (arr remote_key)
                then arr local_key ++ arr remote_key else arr remote_key ++ arr local_key in
  let digits := String.concat "" (map (λ b, pretty (Byte.to_N b mod 10)%N)
                                    (take 12 (arr (sha256 hashed)))) in
  String.substring 0 4 digits +:+ " " +:+ String.substring 4 4 digits +:+ " "
    +:+ String.substring 8 4 digits.

Fixpoint without_char (c : ascii) (s : string) : string :=
  match s with
  | EmptyString => EmptyString
  | String a s => if decide (a = c) then without_char c s else String a (without_char c s)
  end.
Definition is_hex_digit (c : ascii) : bool :=
  let n := code c in
  ((48 <=? n) && (n <=? 57) || (65 <=? n) && (n <=? 70) || (97 <=? n) && (n <=? 102))%N.
Definition verify_fingerprint_format (fingerprint : string) : res PinningError unit :=
  let clean := without_char " " fingerprint in
  if decide (String.length clean ≠ 16) then
    Err (PeInvalidFingerprint ("Expected 16 hex characters, got "
           +:+ pretty (N.of_nat (String.length clean))))
  else if negb (string_all is_hex_digit clean) then
    Err (PeInvalidFingerprint "Fingerprint must contain only hex characters")
  else Ok tt.

(** ** The store *)

Section Store.
Context {St : Type} {cs : ConfigStore St}.
Variable cfg : PinningConfig.

Definition canonical_storage_key (user_id device_id : string) : string :=
  "pinned_key-" +:+ hex_encode (take 16 (arr (sha256 (bytes_of user_id ++ bytes_of ":"
                                                        ++ bytes_of device_id)))).

Definition lift_config {A} (f : St → res StorageError A * St) : ST St PinningError A :=
  st_map_err PeStorage f.

(** The end of every operation that writes a pin. *)
Definition write_pin (user_id device_id : string) (p : PinnedKey) : ST St PinningError unit :=
  let* data := st_lift (map_err PeInvalidPublicKey (pin_to_string p)) in
  lift_config (store_config (canonical_storage_key user_id device_id) data).

Definition pin_key (now : Z) (user_id device_id : string) (public_key : VerifyingKey)
    (verification_method : PinningMethod) (notes : option string) : ST St PinningError PinnedKey :=
  let key_bytes := VerifyingKey_to_bytes public_key in
  let p := mkPinnedKey user_id device_id key_bytes (generate_fingerprint key_bytes) now true
             (Some now) verification_method notes in
  do* write_pin user_id device_id p; st_ret p.

Definition pin_key_unverified (now : Z) (user_id device_id : string) (public_key : VerifyingKey)
    (notes : option string) : ST St PinningError PinnedKey :=
  let key_bytes := VerifyingKey_to_bytes public_key in
  let p := mkPinnedKey user_id device_id key_bytes (generate_fingerprint key_bytes) now false None
             Unverified notes in
  do* write_pin user_id device_id p; st_ret p.

(** The age check of [get_pinned_key]. *)
Definition expired (now : Z) (p : PinnedKey) : option Z :=
  match max_pin_age_days cfg with
  | Some n =>
      if pk_verified p then
        let anchor := default (pk_pinned_at p) (pk_verified_at p) in
        if (days n <? now - anchor)%Z then Some anchor else None
      else None
  | None => None
  end.

Definition get_pinned_key (now : Z) (user_id device_id : string)
  : ST St PinningError (option PinnedKey) :=
  let* s := st_get in
  let* data := st_lift (map_err PeStorage
                 (load_config (canonical_storage_key user_id device_id) s)) in
  match data with
  | Some data =>
      if decide (trim data = EmptyString) then st_ret None
      else
        let* p := st_lift (map_err PeInvalidPublicKey (pin_from_str data)) in
        match expired now p with
        | Some anchor => st_fail (PeExpiredPin anchor)
        | None => st_ret (Some p)
        end
  | None => st_ret None
  end.

Definition verify_pinned_key (now : Z) (user_id device_id : string) (public_key : VerifyingKey)
  : ST St PinningError bool :=
  let* pinned := get_pinned_key now user_id device_id in
  match pinned with
  | Some p => st_ret (bool_decide (pk_identity_public_key p = VerifyingKey_to_bytes public_key))
  | None => st_ret false
  end.

Definition unpin_key (user_id device_id : string) : ST St PinningError unit :=
  lift_config (delete_config (canonical_storage_key user_id device_id)).

Definition get_or_missing (now : Z) (user_id device_id : string) : ST St PinningError PinnedKey :=
  let* pinned := get_pinned_key now user_id device_id in
  st_lift (ok_or pinned (PeNoPinnedKey user_id device_id)).

Definition update_pin_notes (now : Z) (user_id device_id : string) (notes : option string)
  : ST St PinningError unit :=
  let* p := get_or_missing now user_id device_id in
  write_pin user_id device_id
    (mkPinnedKey (pk_user_id p) (pk_device_id p) (pk_identity_public_key p) (pk_fingerprint p)
       (pk_pinned_at p) (pk_verified p) (pk_verified_at p) (pk_verification_method p) notes).

Definition mark_pin_verified (now : Z) (user_id device_id : string)
    (verification_method : PinningMethod) : ST St PinningError PinnedKey :=
  let* p := get_or_missing now user_id device_id in
  let p := mkPinnedKey (pk_user_id p) (pk_device_id p) (pk_identity_public_key p)
             (pk_fingerprint p) (pk_pinned_at p) true (Some now) verification_method (pk_notes p) in
  do* write_pin user_id device_id p; st_ret p.
End Store.

(** ** Links *)

Definition PIN_URL_PREFIX : string := "hybridcipher://pin?".
(** [name=value&...] with the values escaped. *)
Definition query (params : list (string * string)) : string :=
  String.concat "&" (map (λ kv, kv.1 +:+ "=" +:+ url_encode kv.2) params).

Definition pin_params (user_id device_id : string) (public_key : array 32) (fingerprint : string)
  : list (string * string) :=
  [("user", user_id); ("device", device_id); ("key", base64_encode (arr public_key));
   ("fp", fingerprint)]%string.
Definition generate_pinning_url (user_id device_id : string) (public_key : array 32)
    (fingerprint : string) : string :=
  PIN_URL_PREFIX +:+ query (pin_params user_id device_id public_key fingerprint).

Definition pin_url_message (base ts signer : string) : bytes :=
  bytes_of (base +:+ "|" +:+ ts +:+ "|" +:+ signer).

Definition generate_signed_pinning_url (now : Z) (user_id device_id : string)
    (public_key : array 32) (fingerprint signer_device : string) (signer_key : Ed25519KeyPair)
  : res PinningError SignedPinningPayload :=
  let base := generate_pinning_url user_id device_id public_key fingerprint in
  let ts := to_rfc3339 now in
  let? signature := map_err (λ e, PeInvalidPublicKey ("Failed to sign pinning URL: "
                      +:+ CryptoError_display e))
                      (sign (kp_signing_key signer_key) (pin_url_message base ts signer_device)) in
  let signature_b64 := base64_encode (arr (Signature_to_bytes signature)) in
  let signer_pk := VerifyingKey_to_bytes (kp_verifying_key signer_key) in
  let url := base +:+ "&" +:+ query [("ts", ts); ("sig", signature_b64); ("signer", signer_device);
                                     ("signer_pk", base64_encode (arr signer_pk))]%string in
  Ok (mkSignedPinningPayload url now signer_device signature_b64 signer_pk).

(** [param.splitn(2, '=')] with two parts, and [url.split_once('?')]. *)
Fixpoint split_once (c : ascii) (s : string) : option (string * string) :=
  match s with
  | EmptyString => None
  | String a s =>
      if decide (a = c) then Some (EmptyString, s)
      else match split_once c s with Some (l, r) => Some (String a l, r) | None => None end
  end.

Record PinFields := mkPinFields {
  pf_user : option string;
  pf_device : option string;
  pf_key : option string;
  pf_fp : option string;
}.
(** The loop of [parse_pinning_url]. *)
Fixpoint parse_pin_params (params : list string) (f : PinFields) : res PinningError PinFields :=
  match params with
  | [] => Ok f
  | param :: params =>
      match split_once "=" param with
      | Some (name, value) =>
          let decoded what := ok_or (url_decode value)
                                (PeInvalidFingerprint ("Invalid " +:+ what +:+ " encoding")) in
          let? f :=
            (if decide (name = "user"%string) then
               let? v := decoded "user ID"%string in
               Ok (mkPinFields (Some v) (pf_device f) (pf_key f) (pf_fp f))
             else if decide (name = "device"%string) then
               let? v := decoded "device ID"%string in
               Ok (mkPinFields (pf_user f) (Some v) (pf_key f) (pf_fp f))
             else if decide (name = "key"%string) then
               let? v := decoded "key"%string in
               Ok (mkPinFields (pf_user f) (pf_device f) (Some v) (pf_fp f))
             else if decide (name = "fp"%string) then
               let? v := decoded "fingerprint"%string in
               Ok (mkPinFields (pf_user f) (pf_device f) (pf_key f) (Some v))
             else Ok f) in
          parse_pin_params params f
      | None => parse_pin_params params f
      end
  end.

Definition parse_pinning_url (url : string) : res PinningError (string * string * array 32 * string) :=
  match strip_prefix PIN_URL_PREFIX url with
  | None => Err (PeInvalidFingerprint "Invalid HybridCipher pinning URL format")
  | Some query_part =>
      let missing what := PeInvalidFingerprint ("Missing " +:+ what +:+ " parameter") in
      let? f := parse_pin_params (split_on (is_char "&") query_part)
                  (mkPinFields None None None None) in
      let? user_id := ok_or (pf_user f) (missing "user"%string) in
      let? device_id := ok_or (pf_device f) (missing "device"%string) in
      let? key_b64 := ok_or (pf_key f) (missing "key"%string) in
      let? fingerprint := ok_or (pf_fp f) (missing "fingerprint"%string) in
      let? key_bytes := ok_or (base64_decode key_b64)
                          (PeInvalidPublicKey "Invalid base64 key encoding") in
      let? public_key := ok_or (array_of 32 key_bytes)
                           (PeInvalidPublicKey ("Invalid key length: expected 32 bytes, got "
                              +:+ pretty (N.of_nat (length key_bytes)))) in
      Ok (user_id, device_id, public_key, fingerprint)
  end.

Record SigFields := mkSigFields {
  sf_ts : option string;
  sf_sig : option string;
  sf_signer : option string;
  sf_signer_pk : option string;
}.
(** The loop of [parse_and_verify_signed_pinning_url_with_policy]. *)
Fixpoint parse_sig_params (params : list string) (f : SigFields) : SigFields :=
  match params with
  | [] => f
  | param :: params =>
      parse_sig_params params
        (match split_once "=" param with
         | Some (name, value) =>
             let v := Some (default EmptyString (url_decode value)) in
             if decide (name = "ts"%string) then mkSigFields v (sf_sig f) (sf_signer f) (sf_signer_pk f)
             else if decide (name = "sig"%string) then
               mkSigFields (sf_ts f) v (sf_signer f) (sf_signer_pk f)
             else if decide (name = "signer"%string) then
               mkSigFields (sf_ts f) (sf_sig f) v (sf_signer_pk f)
             else if decide (name = "signer_pk"%string) then
               mkSigFields (sf_ts f) (sf_sig f) (sf_signer f) v
             else f
         | None => f
         end)
  end.

Definition parse_and_verify_signed_pinning_url_with_policy (now : Z) (url : string)
    (policy : SignedUrlPolicy) : res PinningError ParsedPinningUrl :=
  let? qp := ok_or (split_once "?" url)
               (PeInvalidFingerprint "Invalid HybridCipher pinning URL format") in
  let f := parse_sig_params (split_on (is_char "&") qp.2) (mkSigFields None None None None) in
  let? parsed := parse_pinning_url url in
  let '(user_id, device_id, public_key, fingerprint) := parsed in
  match sf_ts f, sf_sig f, sf_signer f, sf_signer_pk f with
  | Some ts, Some sig, Some signer, Some signer_pk_b64 =>
      let? issued_at := ok_or (parse_from_rfc3339 ts)
                          (PeInvalidFingerprint "Invalid timestamp in signed pin URL") in
      let base := generate_pinning_url user_id device_id public_key fingerprint in
      let message := pin_url_message base ts signer in
      if match up_max_age_days policy with
         | Some n => (days n <? now - issued_at)%Z
         | None => false
         end
      then Err (PeInvalidFingerprint "Signed pinning URL is stale")
      else if (seconds (up_max_future_secs policy) <? issued_at - now)%Z then
        Err (PeInvalidFingerprint "Signed pinning URL timestamp is in the future")
      else
        let? sig_bytes := ok_or (base64_decode sig) (PeInvalidFingerprint "Invalid signature encoding") in
        let? sig_array := ok_or (array_of 64 sig_bytes)
                            (PeInvalidFingerprint "Invalid signature length for signed payload") in
        let? signature := map_err (λ e, PeInvalidFingerprint ("Invalid signature bytes: "
                            +:+ CryptoError_display e)) (Signature_from_bytes (arr sig_array)) in
        let? signer_pk_bytes := ok_or (base64_decode signer_pk_b64)
                                  (PeInvalidPublicKey "Invalid signer public key encoding") in
        let? signer_vk := map_err (λ e, PeInvalidPublicKey ("Invalid signer public key: "
                            +:+ CryptoError_display e)) (VerifyingKey_from_bytes signer_pk_bytes) in
        let? _ := map_err (λ e, PeInvalidFingerprint ("Signature verification failed: "
                     +:+ CryptoError_display e)) (VerifyingKey_verify signer_vk message signature) in
        Ok (mkParsedPinningUrl user_id device_id public_key fingerprint
              (Some (mkSignedPinMetadata signer issued_at)))
  | _, _, _, _ => Ok (mkParsedPinningUrl user_id device_id public_key fingerprint None)
  end.

Definition parse_and_verify_signed_pinning_url (now : Z) (url : string)
  : res PinningError ParsedPinningUrl :=
  parse_and_verify_signed_pinning_url_with_policy now url SignedUrlPolicy_default.
End Pins.

(** ** Comparing keys by eye *)

(** The [hex] crate writes two lower-case digits for each byte. *)
Class HexTextLaws `{Hex} : Prop := {
  hex_encode_length b : String.length (hex_encode b) = 2 * length b;
  hex_encode_digits b : string_all is_hex_digit (hex_encode b) = true;
}.

Lemma bytes_ltb_total (a b : bytes) :
  length a = length b →
  (bytes_ltb a b = true ∧ bytes_ltb b a = false) ∨ (bytes_ltb a b = false ∧ bytes_ltb b a = true)
  ∨ (a = b ∧ bytes_ltb a b = false).
Proof.
  revert b. induction a as [|x a IH]; intros [|y b] L; try done; [by right; right|].
  injection L as L. simpl. specialize (IH b L).
  destruct (N.ltb_spec (Byte.to_N x) (Byte.to_N y)), (N.ltb_spec (Byte.to_N y) (Byte.to_N x)); try lia; simpl.
  - left. split; [done|]. by rewrite (proj2 (N.eqb_neq _ _)) by lia.
  - right; left. split; [|done]. by rewrite (proj2 (N.eqb_neq _ _)) by lia.
  - assert (E : Byte.to_N x = Byte.to_N y) by lia. rewrite E, N.eqb_refl. simpl.
    apply byte_to_N_inj in E as ->. destruct IH as [|[|[-> ?]]]; auto.
Qed.

(** Two devices that compare safety numbers see the same one, whichever of them is the
    local one. *)
Theorem safety_number_symmetric {sha : Sha256} (a b : array 32) :
  generate_safety_number a b = generate_safety_number b a.
Proof.
  unfold generate_safety_number.
  assert (L : length (arr a) = length (arr b)) by by rewrite !arr_length.
  destruct (bytes_ltb_total _ _ L) as [[-> ->]|[[-> ->]|[E _]]]; [done..|].
  by apply arr_inj in E as ->.
Qed.

Lemma without_upper s :
  string_all is_hex_digit s = true →
  string_all is_hex_digit (to_upper s) = true ∧ String.length (to_upper s) = String.length s.
Proof.
  induction s as [|c s IH]; [done|]. cbn [string_all to_upper String.length]. intros [H S]%andb_prop.
  specialize (IH S) as [-> ->]. split; [|done]. rewrite andb_true_r. revert H. clear.
  destruct c as [[] [] [] [] [] [] [] []]; vm_compute; done.
Qed.

Lemma grouped_clean k room s :
  string_all is_hex_digit s = true →
  without_char " " (to_upper (grouped k room s)) = to_upper s.
Proof.
  revert room. induction s as [|c s IH]; intros room; [done|].
  cbn [string_all]. intros [H S]%andb_prop.
  assert (C : ascii_upper c ≠ " "%char).
  { revert H. clear. destruct c as [[] [] [] [] [] [] [] []]; vm_compute; done. }
  destruct room as [|room]; cbn [grouped to_upper without_char].
  - rewrite decide_True by done. rewrite decide_False by done. by rewrite IH.
  - rewrite decide_False by done. by rewrite IH.
Qed.

(** Every fingerprint the client shows has the format it accepts. *)
Theorem fingerprint_well_formed {sha : Sha256} {hex : Hex} {hexl : HexTextLaws} (k : array 32) :
  verify_fingerprint_format (generate_fingerprint k) = Ok tt.
Proof.
  unfold verify_fingerprint_format, generate_fingerprint.
  set (h := hex_encode _). pose proof (hex_encode_digits (take 8 (arr (sha256 (arr k))))) as D. fold h in D.
  rewrite grouped_clean by done. destruct (without_upper h D) as [-> L]. rewrite decide_False; [done|].
  intros C. apply C. rewrite L. unfold h. rewrite hex_encode_length, length_take, arr_length. done.
Qed.

(** ** Links are read back *)

Lemma concat_app sep l1 l2 :
  l1 ≠ [] → l2 ≠ [] →
  String.concat sep (l1 ++ l2) = String.concat sep l1 +:+ sep +:+ String.concat sep l2.
Proof.
  intros N1 N2. induction l1 as [|x l1 IH]; [done|]. destruct l1 as [|y l1].
  - destruct l2; done.
  - cbn [app] in IH |- *. change (String.concat sep (x :: y :: l1 ++ l2))
      with (x +:+ sep +:+ String.concat sep (y :: l1 ++ l2)).
    rewrite IH by done. change (String.concat sep (x :: y :: l1))
      with (x +:+ sep +:+ String.concat sep (y :: l1)). by rewrite !string_app_assoc.
Qed.

Lemma split_once_app c l r : avoids c l = true → split_once c (l +:+ String c r) = Some (l, r).
Proof.
  induction l as [|a l IH]; intros A.
  - change (split_once c (String c r) = Some (EmptyString, r)). simpl. by rewrite decide_True.
  - rewrite string_app_cons. cbn in A. apply andb_prop in A as [A1 A2]. simpl.
    rewrite IH by done. rewrite decide_False; [done|]. intros ->.
    unfold is_char in A1. by rewrite bool_decide_eq_true_2 in A1.
Qed.

Lemma string_all_impl (P Q : ascii → bool) s :
  (∀ a, P a = true → Q a = true) → string_all P s = true → string_all Q s = true.
Proof. intros H. induction s as [|a s IH]; [done|]. simpl. intros [A B]%andb_prop. rewrite H; auto. Qed.

Section Links.
Context {sha : Sha256} {hex : Hex} {b64 : Base64} {ue : UrlEncoding} {rfc : Rfc3339} {ed : Ed25519}.
Context {uel : UrlEncodingLaws} {b64l : Base64Laws} {rfcl : Rfc3339Laws} {edl : Ed25519Laws}.

Definition param (kv : string * string) : string := kv.1 +:+ "=" +:+ url_encode kv.2.
(** A name that cannot be taken for a value or a separator. *)
Definition plain_name (k : string) : bool := avoids "=" k && avoids "&" k.

Lemma encode_avoids c s : url_char c = false → avoids c (url_encode s) = true.
Proof using uel.
  intros C. eapply string_all_impl; [|apply url_encode_chars]. intros a A. simpl.
  unfold is_char. rewrite bool_decide_eq_false_2; [done|]. intros ->. congruence.
Qed.

Lemma split_param k v : plain_name k = true → split_once "=" (param (k, v)) = Some (k, url_encode v).
Proof. intros [P _]%andb_prop. unfold param. by apply split_once_app. Qed.

Lemma split_query params :
  params ≠ [] → Forall (λ kv, plain_name kv.1 = true) params →
  split_on (is_char "&") (query params) = map param params.
Proof using uel.
  intros N F. unfold query. apply (split_on_concat _ "&"%char); [done|by destruct params|].
  induction F as [|[k v] params P F IH]; [constructor|]. constructor; [|destruct params; [constructor|by apply IH]].
  apply andb_prop in P as [_ P]. cbn [fst] in P. unfold param.
  change (avoids "&" (k +:+ "=" +:+ url_encode v) = true).
  rewrite !avoids_app, P. simpl. by apply encode_avoids.
Qed.

(** What a well-formed parameter does to the fields. *)
Definition set_pin (k v : string) (f : PinFields) : PinFields :=
  if decide (k = "user"%string) then mkPinFields (Some v) (pf_device f) (pf_key f) (pf_fp f)
  else if decide (k = "device"%string) then mkPinFields (pf_user f) (Some v) (pf_key f) (pf_fp f)
  else if decide (k = "key"%string) then mkPinFields (pf_user f) (pf_device f) (Some v) (pf_fp f)
  else if decide (k = "fp"%string) then mkPinFields (pf_user f) (pf_device f) (pf_key f) (Some v)
  else f.
Definition set_sig (k v : string) (f : SigFields) : SigFields :=
  if decide (k = "ts"%string) then mkSigFields (Some v) (sf_sig f) (sf_signer f) (sf_signer_pk f)
  else if decide (k = "sig"%string) then mkSigFields (sf_ts f) (Some v) (sf_signer f) (sf_signer_pk f)
  else if decide (k = "signer"%string) then mkSigFields (sf_ts f) (sf_sig f) (Some v) (sf_signer_pk f)
  else if decide (k = "signer_pk"%string) then mkSigFields (sf_ts f) (sf_sig f) (sf_signer f) (Some v)
  else f.

Lemma parse_pin_param k v ps f :
  plain_name k = true →
  parse_pin_params (param (k, v) :: ps) f = parse_pin_params ps (set_pin k v f).
Proof using uel.
  intros P. cbn [parse_pin_params]. rewrite split_param by done. cbv zeta. rewrite url_decode_encode.
  unfold set_pin. repeat case_decide; done.
Qed.

Lemma parse_sig_param k v ps f :
  plain_name k = true →
  parse_sig_params (param (k, v) :: ps) f = parse_sig_params ps (set_sig k v f).
Proof using uel.
  intros P. cbn [parse_sig_params]. rewrite split_param by done. by rewrite url_decode_encode.
Qed.

(** Parameters that [parse_pinning_url] skips. *)
Definition other_param (kv : string * string) : Prop :=
  plain_name kv.1 = true ∧ kv.1 ≠ "user"%string ∧ kv.1 ≠ "device"%string ∧ kv.1 ≠ "key"%string
  ∧ kv.1 ≠ "fp"%string.

Lemma parse_other_params extra f :
  Forall other_param extra → parse_pin_params (map param extra) f = Ok f.
Proof using uel.
  induction 1 as [|[k v] extra (P & N1 & N2 & N3 & N4) F IH]; [done|]. cbn [map]. rewrite parse_pin_param by done.
  unfold set_pin. by rewrite !decide_False by done.
Qed.

Lemma pin_params_plain u d k fp extra :
  Forall other_param extra → Forall (λ kv, plain_name kv.1 = true) (pin_params u d k fp ++ extra).
Proof.
  intros F. apply Forall_app. split; [by repeat constructor|].
  eapply list.Forall_impl; [exact F|]. by intros kv [? _].
Qed.

Lemma parse_written_url u d k fp extra :
  Forall other_param extra →
  parse_pinning_url (PIN_URL_PREFIX +:+ query (pin_params u d k fp ++ extra)) = Ok (u, d, k, fp).
Proof using uel b64l.
  intros F. unfold parse_pinning_url. rewrite strip_prefix_app.
  rewrite split_query by (done || by apply pin_params_plain). rewrite map_app.
  cbn [pin_params map app]. rewrite !parse_pin_param by done.
  rewrite parse_other_params by done. cbn [res_bind].
  change (set_pin _ _ _) with (mkPinFields (Some u) (Some d) (Some (base64_encode (arr k))) (Some fp)).
  cbn [pf_user pf_device pf_key pf_fp ok_or res_bind].
  rewrite base64_decode_encode. cbn [ok_or res_bind]. by rewrite array_of_arr.
Qed.

Definition sig_params (ts sig signer signer_pk : string) : list (string * string) :=
  [("ts", ts); ("sig", sig); ("signer", signer); ("signer_pk", signer_pk)]%string.
Lemma sig_params_other ts sig signer pk : Forall other_param (sig_params ts sig signer pk).
Proof. by repeat constructor. Qed.

Lemma signed_url_query u d k fp extra :
  extra ≠ [] →
  generate_pinning_url u d k fp +:+ "&" +:+ query extra
    = PIN_URL_PREFIX +:+ query (pin_params u d k fp ++ extra).
Proof.
  intros N. unfold generate_pinning_url, query. rewrite string_app_assoc, map_app, concat_app; [done|done|].
  by destruct extra.
Qed.

Lemma split_pin_url q : split_once "?" (PIN_URL_PREFIX +:+ q) = Some ("hybridcipher://pin"%string, q).
Proof.
  change (PIN_URL_PREFIX +:+ q) with ("hybridcipher://pin" +:+ String "?" q). by apply split_once_app.
Qed.

Lemma parse_sig_written u d k fp ts sig signer pk :
  parse_sig_params (map param (pin_params u d k fp ++ sig_params ts sig signer pk))
    (mkSigFields None None None None) = mkSigFields (Some ts) (Some sig) (Some signer) (Some pk).
Proof using uel. unfold pin_params, sig_params. cbn [map app]. by rewrite !parse_sig_param by done. Qed.

Lemma parse_sig_unsigned u d k fp :
  parse_sig_params (map param (pin_params u d k fp)) (mkSigFields None None None None)
    = mkSigFields None None None None.
Proof using uel. unfold pin_params. cbn [map]. by rewrite !parse_sig_param by done. Qed.

(** The age of a link that a policy accepts. *)
Definition link_fresh (now issued_at : Z) (policy : SignedUrlPolicy) : Prop :=
  (match up_max_age_days policy with Some n => (now - issued_at ≤ days n)%Z | None => True end)
  ∧ (issued_at - now ≤ seconds (up_max_future_secs policy))%Z.

Lemma link_fresh_checks {E A} now issued_at policy (stale future : res E A) k :
  link_fresh now issued_at policy →
  (if match up_max_age_days policy with Some n => (days n <? now - issued_at)%Z | None => false end
   then stale
   else if (seconds (up_max_future_secs policy) <? issued_at - now)%Z then future else k) = k.
Proof.
  intros [F1 F2]. assert (A1 : match up_max_age_days policy with
    Some n => (days n <? now - issued_at)%Z | None => false end = false).
  { destruct (up_max_age_days policy); [by apply Z.ltb_ge|done]. }
  rewrite A1. by rewrite (proj2 (Z.ltb_ge _ _)).
Qed.

(** A signed link is read back: whatever user, device, key and fingerprint it carries and
    whoever signed it, verification of the link at a time its policy allows returns
    exactly what was signed, with the signer and the time of issue. *)
Theorem signed_link_roundtrip (issued now : Z) (u d : string) (k : array 32) (fp signer : string)
    (pair : Ed25519KeyPair) (policy : SignedUrlPolicy) (p : SignedPinningPayload) :
  kp_verifying_key pair = SigningKey_verifying_key (kp_signing_key pair) →
  rfc3339_years issued = true → link_fresh now issued policy →
  generate_signed_pinning_url issued u d k fp signer pair = Ok p →
  parse_and_verify_signed_pinning_url_with_policy now (sp_url p) policy
    = Ok (mkParsedPinningUrl u d k fp (Some (mkSignedPinMetadata signer issued))).
Proof using uel b64l rfcl edl.
  intros K Y F G. unfold generate_signed_pinning_url in G.
  apply res_bind_Ok in G as (s & S & G). rewrite map_err_Ok in S. apply Ok_inj in G as <-.
  cbn [sp_url]. fold (sig_params (to_rfc3339 issued) (base64_encode (arr (Signature_to_bytes s))) signer
    (base64_encode (arr (VerifyingKey_to_bytes (kp_verifying_key pair))))).
  rewrite signed_url_query by done. unfold parse_and_verify_signed_pinning_url_with_policy.
  rewrite split_pin_url. cbn [ok_or res_bind snd].
  rewrite split_query by (done || apply pin_params_plain, sig_params_other).
  rewrite parse_sig_written, parse_written_url by apply sig_params_other.
  cbn [res_bind sf_ts sf_sig sf_signer sf_signer_pk].
  rewrite parse_to_rfc3339 by done. cbn [ok_or res_bind]. rewrite link_fresh_checks by done.
  rewrite !base64_decode_encode. cbn [ok_or res_bind]. rewrite array_of_arr. cbn [ok_or res_bind].
  rewrite (Signature_from_to_bytes _ _ _ S). cbn [map_err res_bind ok_or].
  rewrite VerifyingKey_from_to_bytes by (rewrite K; apply dalek_public_valid). cbn [map_err res_bind].
  rewrite K. by rewrite (sign_verify _ _ _ S).
Qed.
End Links.

(** ** The store is a map *)

(** The pins as what they are: a key for each user and device. *)
Abbreviation PinMap := (gmap (string * string) PinnedKey).

(** The calls of [PinningStore], and what they return. *)
Inductive PinOp :=
| OpPin (now : Z) (user device : string) (key : VerifyingKey) (method : PinningMethod) (notes : option string)
| OpPinUnverified (now : Z) (user device : string) (key : VerifyingKey) (notes : option string)
| OpGet (now : Z) (user device : string)
| OpVerify (now : Z) (user device : string) (key : VerifyingKey)
| OpUnpin (user device : string)
| OpNotes (now : Z) (user device : string) (notes : option string)
| OpMark (now : Z) (user device : string) (method : PinningMethod).
Inductive PinOut :=
| OutPin (p : PinnedKey)
| OutFound (o : option PinnedKey)
| OutMatch (b : bool)
| OutDone.

Definition op_pair (op : PinOp) : string * string :=
  match op with
  | OpPin _ u d _ _ _ | OpPinUnverified _ u d _ _ | OpGet _ u d | OpVerify _ u d _
  | OpUnpin u d | OpNotes _ u d _ | OpMark _ u d _ => (u, d)
  end.

Section PinRefinement.
Context {sha : Sha256} {hex : Hex} {pj : PinJson} {ed : Ed25519}.
Context {St : Type} {cs : ConfigStore St}.
Variable cfg : PinningConfig.

Definition run_op (op : PinOp) : ST St PinningError PinOut :=
  match op with
  | OpPin now u d k m n => let* p := pin_key now u d k m n in st_ret (OutPin p)
  | OpPinUnverified now u d k n => let* p := pin_key_unverified now u d k n in st_ret (OutPin p)
  | OpGet now u d => let* o := get_pinned_key cfg now u d in st_ret (OutFound o)
  | OpVerify now u d k => let* b := verify_pinned_key cfg now u d k in st_ret (OutMatch b)
  | OpUnpin u d => do* unpin_key u d; st_ret OutDone
  | OpNotes now u d n => do* update_pin_notes cfg now u d n; st_ret OutDone
  | OpMark now u d m => let* p := mark_pin_verified cfg now u d m in st_ret (OutPin p)
  end.

(** What the calls mean on the map. *)
Definition spec_get (now : Z) (u d : string) (m : PinMap) : res PinningError (option PinnedKey) :=
  match m !! (u, d) with
  | Some p => match expired cfg now p with Some t => Err (PeExpiredPin t) | None => Ok (Some p) end
  | None => Ok None
  end.
Definition spec_modify (now : Z) (u d : string) (f : PinnedKey → PinnedKey) (out : PinnedKey → PinOut)
    (m : PinMap) : res PinningError PinOut * PinMap :=
  match spec_get now u d m with
  | Ok (Some p) => (Ok (out (f p)), <[(u, d) := f p]> m)
  | Ok None => (Err (PeNoPinnedKey u d), m)
  | Err e => (Err e, m)
  | Panic => (Panic, m)
  | Diverge => (Diverge, m)
  end.
Definition spec_op (op : PinOp) (m : PinMap) : res PinningError PinOut * PinMap :=
  match op with
  | OpPin now u d k meth n =>
      let kb := VerifyingKey_to_bytes k in
      let p := mkPinnedKey u d kb (generate_fingerprint kb) now true (Some now) meth n in
      (Ok (OutPin p), <[(u, d) := p]> m)
  | OpPinUnverified now u d k n =>
      let kb := VerifyingKey_to_bytes k in
      let p := mkPinnedKey u d kb (generate_fingerprint kb) now false None Unverified n in
      (Ok (OutPin p), <[(u, d) := p]> m)
  | OpGet now u d => (let? o := spec_get now u d m in Ok (OutFound o), m)
  | OpVerify now u d k =>
      (let? o := spec_get now u d m in
       Ok (OutMatch (match o with
                     | Some p => bool_decide (pk_identity_public_key p = VerifyingKey_to_bytes k)
                     | None => false
                     end)), m)
  | OpUnpin u d => (Ok OutDone, delete (u, d) m)
  | OpNotes now u d n =>
      spec_modify now u d
        (λ p, mkPinnedKey (pk_user_id p) (pk_device_id p) (pk_identity_public_key p)
                (pk_fingerprint p) (pk_pinned_at p) (pk_verified p) (pk_verified_at p)
                (pk_verification_method p) n) (λ _, OutDone) m
  | OpMark now u d meth =>
      spec_modify now u d
        (λ p, mkPinnedKey (pk_user_id p) (pk_device_id p) (pk_identity_public_key p)
                (pk_fingerprint p) (pk_pinned_at p) true (Some now) meth (pk_notes p)) OutPin m
  end.

(** The pairs in use have storage keys of their own. *)
Definition pair_key (p : string * string) : string := canonical_storage_key p.1 p.2.
Definition distinct_keys (U : list (string * string)) : Prop := NoDup (pair_key <$> U).

(** A storage that holds the pins of a map. *)
Definition stores (U : list (string * string)) (s : St) (m : PinMap) : Prop :=
  ∀ p, p ∈ U → match m !! p with
               | Some k => ∃ t, load_config (pair_key p) s = Ok (Some t) ∧ pin_to_string k = Ok t
               | None => ∃ o, load_config (pair_key p) s = Ok o ∧ blank o
               end.

(** Some call of the storage fails with this error here. *)
Definition storage_fails (s : St) (e : StorageError) : Prop :=
  (∃ k v, (store_config k v s).1 = Err e) ∨ (∃ k, (delete_config k s).1 = Err e).

(** Step by step the calls answer as the map does, or report a failure of the storage
    and change nothing. *)
Fixpoint refines (ops : list PinOp) (s : St) (m : PinMap) : Prop :=
  match ops with
  | [] => True
  | op :: ops =>
      let '(r, s') := run_op op s in
      (r = (spec_op op m).1 ∧ refines ops s' (spec_op op m).2)
      ∨ (∃ e, r = Err (PeStorage e) ∧ storage_fails s e ∧ refines ops s' m)
  end.

Context {pjl : PinJsonLaws} {csl : ConfigStoreLaws St}.

Lemma pair_key_inj U p q :
  distinct_keys U → p ∈ U → q ∈ U → pair_key p = pair_key q → p = q.
Proof.
  intros D [i P]%list_elem_of_lookup [j Q]%list_elem_of_lookup E.
  assert (i = j) as <-; [|congruence].
  eapply NoDup_lookup; [exact D|rewrite list_lookup_fmap, P; done|].
  rewrite list_lookup_fmap, Q. by rewrite E.
Qed.

Lemma get_spec U s m now u d :
  stores U s m → (u, d) ∈ U → get_pinned_key cfg now u d s = (spec_get now u d m, s).
Proof using pjl.
  intros H I. specialize (H _ I). unfold get_pinned_key, spec_get, st_bind, st_get, st_lift.
  change (canonical_storage_key u d) with (pair_key (u, d)).
  destruct (m !! (u, d)) as [p|].
  - destruct H as (t & -> & T). apply pin_from_to in T as [F N]. cbn [map_err].
    rewrite decide_False by done. rewrite F. cbn [map_err]. by destruct (expired cfg now p).
  - destruct H as (o & -> & B). cbn [map_err]. destruct o as [t|]; [|done].
    by rewrite decide_True by exact B.
Qed.

Lemma stores_same U s s' m :
  stores U s m → (∀ k, load_config k s' = load_config k s) → stores U s' m.
Proof. intros H E p P. specialize (H p P). by rewrite !E. Qed.

Lemma write_spec U s m u d p :
  distinct_keys U → stores U s m → (u, d) ∈ U →
  (∃ s', write_pin u d p s = (Ok tt, s') ∧ stores U s' (<[(u, d) := p]> m))
  ∨ (∃ e s', write_pin u d p s = (Err (PeStorage e), s') ∧ storage_fails s e ∧ stores U s' m).
Proof using pjl csl.
  intros D H I. unfold write_pin, lift_config, st_bind, st_lift, st_map_err.
  change (canonical_storage_key u d) with (pair_key (u, d)).
  destruct (pin_to_string_total p) as [t T]. rewrite T. cbn [map_err].
  destruct (store_config_settles (pair_key (u, d)) t s) as [[s' E]|(e & s' & E & K)]; rewrite E; cbn [map_err].
  - left. exists s'. split; [done|]. intros q Q. destruct (decide (q = (u, d))) as [->|N].
    + rewrite lookup_insert_eq. exists t. split; [|done]. by eapply load_store_config.
    + rewrite lookup_insert_ne by done. specialize (H q Q).
      rewrite (load_store_config_ne (pair_key (u, d)) (pair_key q) t s s'); [done| |done].
      intros EQ. apply N. symmetry. by eapply pair_key_inj.
  - right. exists e, s'. split; [done|]. split; [left; exists (pair_key (u, d)), t; by rewrite E|].
    by eapply stores_same.
Qed.

Lemma unpin_spec U s m u d :
  distinct_keys U → stores U s m → (u, d) ∈ U →
  (∃ s', unpin_key u d s = (Ok tt, s') ∧ stores U s' (delete (u, d) m))
  ∨ (∃ e s', unpin_key u d s = (Err (PeStorage e), s') ∧ storage_fails s e ∧ stores U s' m).
Proof using csl.
  intros D H I. unfold unpin_key, lift_config, st_map_err.
  change (canonical_storage_key u d) with (pair_key (u, d)).
  destruct (delete_config_settles (pair_key (u, d)) s) as [[s' E]|(e & s' & E & K)]; rewrite E; cbn [map_err].
  - left. exists s'. split; [done|]. intros q Q. destruct (decide (q = (u, d))) as [->|N].
    + rewrite lookup_delete_eq. by eapply load_delete_config.
    + rewrite lookup_delete_ne by done. specialize (H q Q).
      rewrite (load_delete_config_ne (pair_key (u, d)) (pair_key q) s s'); [done| |done].
      intros EQ. apply N. symmetry. by eapply pair_key_inj.
  - right. exists e, s'. split; [done|]. split; [right; exists (pair_key (u, d)); by rewrite E|].
    by eapply stores_same.
Qed.

(** One call: it answers as the map, or the storage failed. *)
Definition op_refines (U : list (string * string)) (op : PinOp) (s : St) (m : PinMap) : Prop :=
  ∃ r s', run_op op s = (r, s')
    ∧ ((r = (spec_op op m).1 ∧ stores U s' (spec_op op m).2)
       ∨ (∃ e, r = Err (PeStorage e) ∧ storage_fails s e ∧ stores U s' m)).

Lemma modify_spec U s m now u d (f : PinnedKey → PinnedKey) (out : PinnedKey → PinOut) :
  distinct_keys U → stores U s m → (u, d) ∈ U →
  ∃ r s', (let* p := get_or_missing cfg now u d in do* write_pin u d (f p); st_ret (out (f p))) s = (r, s')
    ∧ ((r = (spec_modify now u d f out m).1 ∧ stores U s' (spec_modify now u d f out m).2)
       ∨ (∃ e, r = Err (PeStorage e) ∧ storage_fails s e ∧ stores U s' m)).
Proof using pjl csl.
  intros D H I. unfold get_or_missing, spec_modify. unfold st_bind at 1 2 3.
  rewrite (get_spec U s m) by done. destruct (spec_get now u d m) as [[p|]|e| |]; cbn [st_lift ok_or].
  2,3,4,5: (eexists _, _; split; [reflexivity|by left]).
  destruct (write_spec U s m u d (f p) D H I) as [(s' & -> & S)|(e & s' & -> & F & S)].
  - eexists _, _. split; [reflexivity|by left].
  - eexists _, _. split; [reflexivity|right; by exists e].
Qed.

Lemma op_refines_all U op s m :
  distinct_keys U → stores U s m → op_pair op ∈ U → op_refines U op s m.
Proof using pjl csl.
  intros D H I. unfold op_refines.
  destruct op as [now u d k meth n|now u d k n|now u d|now u d k|u d|now u d n|now u d meth];
    cbn [op_pair] in I; cbn [run_op spec_op].
  - unfold pin_key. unfold st_bind. cbv zeta.
    edestruct (write_spec U s m u d) as [(s' & -> & S)|(e & s' & -> & F & S)]; [done..| |];
      eexists _, _; (split; [reflexivity|]); [by left|right; by exists e].
  - unfold pin_key_unverified. unfold st_bind. cbv zeta.
    edestruct (write_spec U s m u d) as [(s' & -> & S)|(e & s' & -> & F & S)]; [done..| |];
      eexists _, _; (split; [reflexivity|]); [by left|right; by exists e].
  - unfold st_bind. rewrite (get_spec U s m) by done.
    destruct (spec_get now u d m); eexists _, _; (split; [reflexivity|by left]).
  - unfold verify_pinned_key, st_bind. rewrite (get_spec U s m) by done.
    destruct (spec_get now u d m) as [[p|]|e| |]; eexists _, _; (split; [reflexivity|by left]).
  - unfold st_bind. destruct (unpin_spec U s m u d D H I) as [(s' & -> & S)|(e & s' & -> & F & S)];
      eexists _, _; (split; [reflexivity|]); [by left|right; by exists e].
  - edestruct (modify_spec U s m now u d) as (r & s' & E & R); [done..|]. exists r, s'.
    split; [|exact R]. rewrite <-E. unfold update_pin_notes, st_bind.
    by destruct (get_or_missing cfg now u d s) as [[] ?].
  - edestruct (modify_spec U s m now u d) as (r & s' & E & R); [done..|]. exists r, s'.
    split; [|exact R]. rewrite <-E. unfold mark_pin_verified, st_bind. cbv zeta.
    destruct (get_or_missing cfg now u d s) as [[p|e| |] s1]; try done.
    by destruct (write_pin _ _ _ s1) as [[] ?].
Qed.

End PinRefinement.

(** The storage keys of two pairs agree when an identifier holds a colon. *)
Lemma canonical_storage_key_colon {sha : Sha256} {hex : Hex} (a b c : string) :
  canonical_storage_key (a +:+ ":" +:+ b) c = canonical_storage_key a (b +:+ ":" +:+ c).
Proof.
  unfold canonical_storage_key. do 4 f_equal. rewrite !bytes_of_app. by rewrite <-!app_assoc.
Qed.

(** ** Which links are believed *)

Section LinkTrust.
Context {sha : Sha256} {hex : Hex} {b64 : Base64} {ue : UrlEncoding} {rfc : Rfc3339} {ed : Ed25519}.
Context {uel : UrlEncodingLaws} {b64l : Base64Laws}.

(** The signature parameters of a link. *)
Definition link_fields (url : string) : SigFields :=
  match split_once "?" url with
  | Some (_, q) => parse_sig_params (split_on (is_char "&") q) (mkSigFields None None None None)
  | None => mkSigFields None None None None
  end.

(** A link is reported as signed only when the key it carries as the signer's signed its
    user, device, key and fingerprint together with its time and its signer, and its time is
    one the policy allows. *)
Theorem signed_link_sound (now : Z) (url : string) (policy : SignedUrlPolicy) (p : ParsedPinningUrl)
    (sm : SignedPinMetadata) :
  parse_and_verify_signed_pinning_url_with_policy now url policy = Ok p →
  pu_signature p = Some sm →
  ∃ ts pk key vk sig,
    sf_ts (link_fields url) = Some ts ∧ sf_signer (link_fields url) = Some (sm_signer sm)
    ∧ sf_signer_pk (link_fields url) = Some pk
    ∧ base64_decode pk = Some key ∧ VerifyingKey_from_bytes key = Ok vk
    ∧ parse_from_rfc3339 ts = Some (sm_issued_at sm)
    ∧ link_fresh now (sm_issued_at sm) policy
    ∧ VerifyingKey_verify vk
        (pin_url_message (generate_pinning_url (pu_user_id p) (pu_device_id p) (pu_public_key p)
                            (pu_fingerprint p)) ts (sm_signer sm)) sig = Ok tt.
Proof.
  intros H S. unfold parse_and_verify_signed_pinning_url_with_policy in H.
  apply res_bind_Ok in H as ([l q] & L & H). cbv zeta in H.
  apply res_bind_Ok in H as ([[[u d] k] fp] & _ & H).
  assert (F : link_fields url = parse_sig_params (split_on (is_char "&") q) (mkSigFields None None None None)).
  { unfold link_fields. by destruct (split_once "?" url); [injection L as ->|]. }
  cbn [snd] in H. rewrite F. set (f := parse_sig_params _ _) in H |- *.
  destruct (sf_ts f) as [ts|], (sf_sig f) as [sig|], (sf_signer f) as [signer|],
    (sf_signer_pk f) as [pk|]; try (apply Ok_inj in H as <-; discriminate S).
  apply res_bind_Ok in H as (t & T%ok_or_Ok & H).
  destruct (match up_max_age_days policy with Some n => _ | None => _ end) eqn:A; [done|].
  destruct (seconds _ <? _)%Z eqn:B; [done|].
  do 3 (apply res_bind_Ok in H as (? & _ & H)).
  apply res_bind_Ok in H as (key & K%ok_or_Ok & H). apply res_bind_Ok in H as (vk & VK & H).
  apply res_bind_Ok in H as ([] & V & H). rewrite map_err_Ok in V. rewrite map_err_Ok in VK. apply Ok_inj in H as <-.
  injection S as <-. exists ts, pk, key, vk. eexists. repeat (split; [done|]). split; [|exact V].
  split; [|by apply Z.ltb_ge in B]. destruct (up_max_age_days policy); [by apply Z.ltb_ge in A|done].
Qed.

(** A signed link with its signature removed is an unsigned link of the same key, and is
    accepted as one at any time. *)
Lemma stripped_link_accepted (now : Z) (u d : string) (k : array 32) (fp : string) (policy : SignedUrlPolicy) :
  parse_and_verify_signed_pinning_url_with_policy now (generate_pinning_url u d k fp) policy
    = Ok (mkParsedPinningUrl u d k fp None).
Proof using uel b64l.
  unfold parse_and_verify_signed_pinning_url_with_policy, generate_pinning_url.
  rewrite split_pin_url. cbn [ok_or res_bind snd].
  rewrite <-(app_nil_r (pin_params u d k fp)).
  rewrite split_query by (done || by apply pin_params_plain).
  rewrite parse_written_url by constructor. rewrite app_nil_r, parse_sig_unsigned. done.
Qed.
End LinkTrust.

(** ** Concrete stores and links *)

Definition mock_config_store : ConfigStore MockStorage := {|
  store_config k v s := (Ok tt, mock_store_config k v s);
  load_config k s := Ok (mock_load_config k s);
  delete_config k s := (Ok tt, mock_delete_config k s);
|}.
Lemma mock_config_store_laws : @ConfigStoreLaws _ mock_config_store.
Proof.
  constructor; cbn.
  - intros k s. left. by eexists.
  - intros k v s. left. by eexists.
  - intros k s. left. by eexists.
  - intros k v s s' [= <-]. unfold mock_load_config. cbn. by rewrite lookup_insert_eq.
  - intros k k' v s s' N [= <-]. unfold mock_load_config. cbn. by rewrite lookup_insert_ne.
  - intros k s s' [= <-]. eexists. split; [done|]. unfold mock_load_config. cbn. by rewrite lookup_delete_eq.
  - intros k k' s s' N [= <-]. unfold mock_load_config. cbn. by rewrite lookup_delete_ne.
Qed.

Definition pin_code (p : PinnedKey) : string * string * array 32 * string * Z * bool * option Z * nat * option string :=
  (pk_user_id p, pk_device_id p, pk_identity_public_key p, pk_fingerprint p, pk_pinned_at p,
   pk_verified p, pk_verified_at p,
   match pk_verification_method p with
   | QrCode => 0 | SafetyNumber => 1 | Manual => 2 | Unverified => 3 | OwnDevice => 4
   end, pk_notes p).
Definition pin_decode (c : string * string * array 32 * string * Z * bool * option Z * nat * option string)
  : PinnedKey :=
  let '(u, d, k, fp, t, v, vt, m, n) := c in
  mkPinnedKey u d k fp t v vt
    (match m with 0 => QrCode | 1 => SafetyNumber | 2 => Manual | 3 => Unverified | _ => OwnDevice end) n.
Lemma pin_decode_code p : pin_decode (pin_code p) = p.
Proof. by destruct p as [??????? [] ?]. Qed.

Definition toy_pin_json : PinJson := {|
  pin_to_string p := Ok (String "{" (String.string_of_list_byte (ser_pos (encode (pin_code p)))) +:+ "}");
  pin_from_str s :=
    match s with
    | String _ s =>
        match '(p, _) ← de_pos (bytes_of s); decode p with
        | Some c => Ok (pin_decode c)
        | None => Err "expected value"%string
        end
    | EmptyString => Err "expected value"%string
    end;
|}.

Lemma rev_app_brace acc s : String.rev_app (s +:+ "}") acc = String "}" (String.rev_app s acc).
Proof.
  revert acc. induction s as [|a s IH]; intros acc; [done|]. rewrite string_app_cons. apply IH.
Qed.
Lemma trim_braces s : trim (String "{" s +:+ "}") ≠ EmptyString.
Proof.
  rewrite string_app_cons. unfold trim.
  assert (trim_start (String "{" (s +:+ "}")) = String "{" (s +:+ "}")) as ->.
  { by destruct (s +:+ "}") as [|b [|c r]]. }
  rewrite <-string_app_cons. unfold String.rev. rewrite rev_app_brace.
  assert (W2 : ∀ b, ws2 b "}" = false) by (intros b; unfold ws2; apply andb_false_r).
  assert (W3 : ∀ b c, ws3 c b "}" = false).
  { intros b c. unfold ws3. change (code "}") with 125%N. cbn -[code N.eqb]. by rewrite !andb_false_r. }
  assert (E : ∀ r, trim_start_rev (String "}" r) = String "}" r).
  { intros [|b [|c r]]; cbn [trim_start_rev]; rewrite ?W2, ?W3; done. }
  rewrite E.
  assert (G : ∀ r acc, acc ≠ EmptyString → String.rev_app r acc ≠ EmptyString).
  { induction r as [|a r IH]; intros acc; [done|]. intros _. by apply IH. }
  by apply (G _ "}"%string).
Qed.

Lemma toy_pin_json_laws : @PinJsonLaws toy_pin_json.
Proof.
  constructor.
  - intros p. by eexists.
  - intros p t T. apply Ok_inj in T as <-. split; [|apply trim_braces].
    rewrite string_app_cons. cbn [pin_from_str toy_pin_json]. rewrite bytes_of_app.
    unfold bytes_of at 1. rewrite String.list_byte_of_string_of_list_byte.
    rewrite de_ser_pos. cbn [mbind option_bind]. by rewrite decode_encode, pin_decode_code.
Qed.

Definition toy_url_encoding : UrlEncoding := {|
  url_encode s := hex_enc (bytes_of s);
  url_decode s := String.string_of_list_byte <$> hex_dec s;
|}.
Lemma hex_enc_all (P : ascii → bool) b :
  (∀ x, P (hex_digit (Byte.to_N x / 16)) && P (hex_digit (Byte.to_N x mod 16)) = true) →
  string_all P (hex_enc b) = true.
Proof.
  intros H. induction b as [|x b IH]; [done|]. cbn [hex_enc string_all]. rewrite IH.
  by rewrite andb_true_r.
Qed.
Lemma toy_url_encoding_laws : @UrlEncodingLaws toy_url_encoding.
Proof.
  constructor.
  - intros s. cbn. rewrite hex_dec_enc. cbn. f_equal. apply bytes_of_inj.
    unfold bytes_of. by rewrite String.list_byte_of_string_of_list_byte.
  - intros s. apply hex_enc_all. by intros [].
Qed.
Lemma toy_hex_text_laws : @HexTextLaws toy_hex.
Proof.
  constructor.
  - intros b. cbn. induction b as [|x b IH]; [done|]. cbn. rewrite IH. lia.
  - intros b. apply hex_enc_all. by intros [].
Qed.

Lemma fingerprint_well_formed_witness :
  @verify_fingerprint_format
    (@generate_fingerprint toy_sha256 toy_hex (zeros 32)) = Ok tt.
Proof. apply (@fingerprint_well_formed toy_sha256 toy_hex toy_hex_text_laws). Defined.

Section Examples.
#[local] Existing Instances toy_sha256 toy_hex toy_pin_json toy_base64 toy_url_encoding toy_rfc3339
  toy_ed25519 mock_config_store.

Definition alice_key : SigningKey := mkSigningKey (zeros 32).
Definition alice_pair : Ed25519KeyPair := mkEd25519KeyPair alice_key (SigningKey_verifying_key alice_key).
Definition bob_key : array 32 := default (zeros 32) (array_of 32 (replicate 32 x01)).
Definition link_day : Z := (20000 * 86400 * 10 ^ 9)%Z.
Definition alice_link : res PinningError SignedPinningPayload :=
  generate_signed_pinning_url link_day "bob" "bob-phone" bob_key "0000 0000 0000 0000"
    "alice-laptop" alice_pair.
Definition alice_url : string := match alice_link with Ok p => sp_url p | _ => EmptyString end.
Definition bob_parsed : ParsedPinningUrl :=
  mkParsedPinningUrl "bob" "bob-phone" bob_key "0000 0000 0000 0000"
    (Some (mkSignedPinMetadata "alice-laptop" link_day)).
Definition next_day : Z := (link_day + days 1)%Z.

Lemma signed_link_roundtrip_witness :
  ∃ p, alice_link = Ok p
    ∧ parse_and_verify_signed_pinning_url_with_policy next_day (sp_url p) SignedUrlPolicy_default
        = Ok bob_parsed.
Proof.
  eexists. split; [reflexivity|].
  apply (signed_link_roundtrip (uel := toy_url_encoding_laws) (b64l := toy_base64_laws)
    (rfcl := toy_rfc3339_laws) (edl := toy_ed25519_laws) link_day next_day "bob" "bob-phone" bob_key
    "0000 0000 0000 0000" "alice-laptop" alice_pair);
    [reflexivity|reflexivity|split; vm_compute; discriminate|reflexivity].
Defined.

Lemma alice_url_parses :
  parse_and_verify_signed_pinning_url_with_policy next_day alice_url SignedUrlPolicy_default
    = Ok bob_parsed.
Proof. vm_compute. reflexivity. Qed.

Lemma signed_link_sound_witness :
  ∃ ts pk key vk sig,
    sf_ts (link_fields alice_url) = Some ts ∧ sf_signer (link_fields alice_url) = Some "alice-laptop"%string
    ∧ sf_signer_pk (link_fields alice_url) = Some pk
    ∧ base64_decode pk = Some key ∧ VerifyingKey_from_bytes key = Ok vk
    ∧ parse_from_rfc3339 ts = Some link_day
    ∧ link_fresh next_day link_day SignedUrlPolicy_default
    ∧ VerifyingKey_verify vk
        (pin_url_message (generate_pinning_url "bob" "bob-phone" bob_key "0000 0000 0000 0000")
           ts "alice-laptop") sig = Ok tt.
Proof.
  apply (signed_link_sound next_day alice_url SignedUrlPolicy_default bob_parsed
    (mkSignedPinMetadata "alice-laptop" link_day)); [apply alice_url_parses|reflexivity].
Defined.

(** Two devices of one user and one of another, with a pin that is marked, annotated, read
    after a year and removed. *)
Definition pin_pairs : list (string * string) := [("bob", "phone"); ("bob", "laptop"); ("carol", "phone")]%string.
Definition pin_ops : list PinOp :=
  let k := SigningKey_verifying_key alice_key in
  [OpGet link_day "bob" "phone"; OpPinUnverified link_day "bob" "phone" k None;
   OpMark next_day "bob" "phone" SafetyNumber; OpPin link_day "carol" "phone" k QrCode None;
   OpNotes next_day "carol" "phone" (Some "met at work"%string); OpVerify next_day "bob" "phone" k;
   OpVerify next_day "bob" "laptop" k; OpGet (link_day + days 366)%Z "carol" "phone";
   OpUnpin "bob" "phone"; OpMark next_day "bob" "phone" Manual].

End Examples.
