(* ===== verification/CloudState.v ===== *)
(** * The durable state of a Cloud Files root
    ([crates/windows-cloud-provider/src/state.rs], with the data it takes from
    [crates/provider-core/src/lib.rs])

    What the provider knows of a synchronised folder is one value, kept in a file with a
    checksum and a generation, and the generation before it in a second file.  A
    transaction reads the value, changes it, writes it to a temporary file, copies the
    current file to the backup and renames the temporary file over the current one.

    The disk is the directory that holds these files.  Every call that changes it may
    fail, and a write or a copy may fail with part of its bytes done; the directory after
    every call, complete or not, is recorded, so that an interruption at any point is one
    of the recorded directories.  Calls that only read have faults of their own.  The
    syncing of files is a call that may fail and changes nothing; the replacement is the
    one of the systems other than Windows, a rename. *)

From Stdlib Require Import Strings.Byte Strings.Ascii.
From stdpp Require Import base tactics numbers sets list gmap strings pretty option.
From S2P Require Import Prelude StateError Crypto Json FilePath FileHeader.
Open Scope hc_scope.
Open Scope hc_st_scope.

(** ** Entries of the encrypted folder ([provider-core]) *)

Inductive ProviderEntryKind := PkDirectory | PkFile.
#[export] Instance ProviderEntryKind_eq_dec : EqDecision ProviderEntryKind.
Proof. solve_decision. Defined.

Record ProviderContentVersion := mkProviderContentVersion { pv_text : string }.
#[export] Instance ProviderContentVersion_eq_dec : EqDecision ProviderContentVersion.
Proof. solve_decision. Defined.

Record FileIdentityV1 := mkFileIdentityV1 {
  fi_version : N;
  fi_root_id : Uuid;
  fi_kind : ProviderEntryKind;
  fi_relative_path : string;
  fi_path_hash_hex : string;
  fi_file_id : option string;
  fi_epoch_id : option N;
}.
#[export] Instance FileIdentityV1_eq_dec : EqDecision FileIdentityV1.
Proof. solve_decision. Defined.

Record ProviderEntry := mkProviderEntry {
  pe_root_id : Uuid;
  pe_kind : ProviderEntryKind;
  pe_relative_path : string;
  pe_encrypted_path : string;
  pe_identity : FileIdentityV1;
  pe_metadata : option EncryptedFileMetadata;
  pe_logical_size : N;
  pe_encrypted_size : N;
  pe_modified_at : Z;
}.

(** [format!("{byte:02x}")] of every byte. *)
Definition lower_hex (b : bytes) : string := hex_enc b.

Section Versions.
Context {sha : Sha256}.

(** [update_bytes]: the length in eight bytes, and the bytes. *)
Definition sized (b : bytes) : bytes := le_bytes 8 (N.of_nat (length b)) ++ b.

Definition version_msg (file_id : string) (group_id : option Uuid) (epoch_id : N)
    (header_version : option N) (content_size encrypted_size : N)
    (content_nonce key_wrap_aad_hash : option bytes) : bytes :=
  sized (bytes_of file_id) ++ le_bytes 8 epoch_id ++ le_bytes 4 (default 0%N header_version)
    ++ le_bytes 8 content_size ++ le_bytes 8 encrypted_size ++ sized (default [] content_nonce)
    ++ sized (default [] key_wrap_aad_hash)
    ++ match group_id with Some g => sized (arr g) | None => sized [] end.
Definition ProviderContentVersion_from_components file_id group_id epoch_id header_version
    content_size encrypted_size content_nonce key_wrap_aad_hash : ProviderContentVersion :=
  mkProviderContentVersion (lower_hex (arr (sha256 (version_msg file_id group_id epoch_id
    header_version content_size encrypted_size content_nonce key_wrap_aad_hash)))).
Definition ProviderContentVersion_from_metadata (m : EncryptedFileMetadata) : ProviderContentVersion :=
  ProviderContentVersion_from_components (ef_file_id m) (ef_group_id m) (ef_epoch_id m)
    (ef_header_version m) (ef_content_size m) (ef_encrypted_size m) (ef_content_nonce m)
    (ef_key_wrap_aad_hash m).
Definition content_version (e : ProviderEntry) : option ProviderContentVersion :=
  ProviderContentVersion_from_metadata <$> pe_metadata e.

Fixpoint trim_start_matches (c : ascii) (s : string) : string :=
  match s with
  | String a s1 => if decide (a = c) then trim_start_matches c s1 else s
  | EmptyString => EmptyString
  end.
Definition normalize_relative_path (path : string) : string :=
  trim_start_matches slash (replace_char backslash slash path).
Definition hash_relative_path (path : string) : string := lower_hex (arr (sha256 (bytes_of path))).
Definition IDENTITY_VERSION : N := 1.
Definition FileIdentityV1_new (root_id : Uuid) (kind : ProviderEntryKind) (relative_path : string)
    (file_id : option string) (epoch_id : option N) : FileIdentityV1 :=
  let relative_path := normalize_relative_path relative_path in
  mkFileIdentityV1 IDENTITY_VERSION root_id kind relative_path (hash_relative_path relative_path)
    file_id epoch_id.
End Versions.

(** ** The state of a root *)

Definition CLOUD_OBJECT_IDENTITY_VERSION : N := 2.
Definition CLOUD_ROOT_STATE_VERSION : N := 1.

Record CloudObjectIdentityV2 := mkCloudObjectIdentityV2 {
  co_version : N;
  co_root_id : Uuid;
  co_kind : ProviderEntryKind;
  co_object_id : string;
}.
#[export] Instance CloudObjectIdentityV2_eq_dec : EqDecision CloudObjectIdentityV2.
Proof. solve_decision. Defined.
Definition CloudObjectIdentityV2_new (root_id : Uuid) (kind : ProviderEntryKind) (object_id : string)
  : CloudObjectIdentityV2 :=
  mkCloudObjectIdentityV2 CLOUD_OBJECT_IDENTITY_VERSION root_id kind object_id.

Record CloudItemState := mkCloudItemState {
  ci_identity : CloudObjectIdentityV2;
  ci_relative_path : string;
  ci_content_version : option ProviderContentVersion;
  ci_dirty : bool;
}.
#[export] Instance CloudItemState_eq_dec : EqDecision CloudItemState.
Proof. solve_decision. Defined.
Definition CloudItemState_new (identity : CloudObjectIdentityV2) (relative_path : string)
    (content_version : option ProviderContentVersion) : CloudItemState :=
  mkCloudItemState identity (replace_char backslash slash relative_path) content_version false.

Record CloudConflictRecord := mkCloudConflictRecord {
  cc_id : Uuid;
  cc_object_id : string;
  cc_relative_path : string;
  cc_expected_version : option ProviderContentVersion;
  cc_actual_version : option ProviderContentVersion;
  cc_local_plaintext_path : option string;
  cc_created_at : Z;
}.
#[export] Instance CloudConflictRecord_eq_dec : EqDecision CloudConflictRecord.
Proof. solve_decision. Defined.

Record CloudRootPersistentState := mkCloudRootPersistentState {
  cr_version : N;
  cr_root_id : Uuid;
  cr_generation : N;
  cr_items : gmap string CloudItemState;
  cr_directory_ids : gmap string Uuid;
  cr_conflicts : list CloudConflictRecord;
  cr_ingestion_in_progress : N;
  cr_reconciliation_in_progress : bool;
}.
Definition CloudRootPersistentState_empty (root_id : Uuid) : CloudRootPersistentState :=
  mkCloudRootPersistentState CLOUD_ROOT_STATE_VERSION root_id 0 ∅ ∅ [] 0 false.

Inductive MountSyncError :=
| MsIo (e : IoError)
| MsFormat (msg : string)
| MsCrypto (msg : string)
| MsUnstableFile (msg : string)
| MsPathExcluded (msg : string)
| MsInvalidPath (path : string)
| MsRangeUnsupported (msg : string)
| MsLegacyCompatibilityRequired
| MsFileIntegrity (msg : string)
| MsKeyUnavailable (epoch_id : N).
Inductive ProviderCoreError :=
| PcIo (e : IoError)
| PcIdentitySerialization (msg : string)
| PcInvalidIdentity (msg : string)
| PcMetadataParse (path : string) (source : MountSyncError)
| PcPathOutsideRoot (path root : string)
| PcCrypto (e : MountSyncError)
| PcMutationUnsupported (msg : string)
| PcContentConflict (path : string) (expected actual : option ProviderContentVersion).
Inductive CloudProviderError :=
| CpUnsupportedPlatform
| CpNativeCallbacksNotImplemented
| CpInvalidCommand (msg : string)
| CpInvalidPath (msg : string)
| CpIdentityTooLarge (path : string) (len max : N)
| CpIo (e : IoError)
| CpProviderCore (e : ProviderCoreError)
| CpCallback (msg : string)
| CpStartupRecoveryUnavailable
| CpHydrationCancelled
| CpHydrationTimedOut
| CpSerialization (msg : string)
| CpUuid (msg : string).

Section State.
Context {sha : Sha256} {uuid : UuidText}.
Implicit Types st : CloudRootPersistentState.

Definition safe_to_unmount st (pending_mutations : N) : bool :=
  (pending_mutations =? 0)%N && bool_decide (cr_conflicts st = [])
  && (cr_ingestion_in_progress st =? 0)%N && negb (cr_reconciliation_in_progress st).
Definition has_operation_in_progress st : bool :=
  (0 <? cr_ingestion_in_progress st)%N || cr_reconciliation_in_progress st.

Definition with_generation (g : N) st : CloudRootPersistentState :=
  mkCloudRootPersistentState (cr_version st) (cr_root_id st) g (cr_items st) (cr_directory_ids st)
    (cr_conflicts st) (cr_ingestion_in_progress st) (cr_reconciliation_in_progress st).
Definition with_items (items : gmap string CloudItemState) (dirs : gmap string Uuid) st
  : CloudRootPersistentState :=
  mkCloudRootPersistentState (cr_version st) (cr_root_id st) (cr_generation st) items dirs
    (cr_conflicts st) (cr_ingestion_in_progress st) (cr_reconciliation_in_progress st).
Definition with_progress (ingestion : N) (reconciliation : bool) st : CloudRootPersistentState :=
  mkCloudRootPersistentState (cr_version st) (cr_root_id st) (cr_generation st) (cr_items st)
    (cr_directory_ids st) (cr_conflicts st) ingestion reconciliation.

Definition kind_debug (k : ProviderEntryKind) : string :=
  match k with PkDirectory => "Directory" | PkFile => "File" end.

(** The object that an entry is, and the directory ids with the one it got. *)
Definition entry_object_id (fresh : Uuid) (entry : ProviderEntry) (dirs : gmap string Uuid)
  : res CloudProviderError (string * gmap string Uuid) :=
  match pe_kind entry with
  | PkFile =>
      let? id := ok_or (fi_file_id (pe_identity entry))
                   (CpCallback ("encrypted file " +:+ pe_relative_path entry
                      +:+ " has no stable file id")) in
      Ok (id, dirs)
  | PkDirectory =>
      match fi_file_id (pe_identity entry) with
      | Some file_id => Ok (file_id, dirs)
      | None =>
          let id := default fresh (dirs !! pe_relative_path entry) in
          Ok (uuid_to_string id, <[pe_relative_path entry := id]> dirs)
      end
  end.

(** The new state, also when the call fails: the id of a directory may have been
    recorded by then. *)
Definition upsert_inventory_entry_with_policy (fresh : Uuid) (entry : ProviderEntry)
    (preserve_dirty_local_state : bool)
  : ST CloudRootPersistentState CloudProviderError CloudObjectIdentityV2 := λ st,
  if decide (pe_root_id entry ≠ cr_root_id st) then
    (Err (CpCallback ("inventory entry " +:+ pe_relative_path entry
            +:+ " belongs to the wrong root")), st)
  else
    let stable_directory_identity :=
      bool_decide (pe_kind entry = PkDirectory) && bool_decide (is_Some (fi_file_id (pe_identity entry))) in
    match entry_object_id fresh entry (cr_directory_ids st) with
    | Ok (object_id, dirs) =>
        let clash := match cr_items st !! object_id with
                     | Some existing =>
                         if decide (co_kind (ci_identity existing) ≠ pe_kind entry)
                         then Some existing else None
                     | None => None
                     end in
        match clash with
        | Some existing =>
            (Err (CpCallback ("stable identity " +:+ object_id +:+ " is already used by a "
                    +:+ kind_debug (co_kind (ci_identity existing)) +:+ ", not a "
                    +:+ kind_debug (pe_kind entry))), with_items (cr_items st) dirs st)
        | None =>
            let dirs := if stable_directory_identity then delete (pe_relative_path entry) dirs else dirs in
            let identity := CloudObjectIdentityV2_new (cr_root_id st) (pe_kind entry) object_id in
            let previous := cr_items st !! object_id in
            let dirty := preserve_dirty_local_state && from_option ci_dirty false previous in
            let version := if dirty then previous ≫= ci_content_version else content_version entry in
            let relative_path :=
              if dirty then from_option ci_relative_path (pe_relative_path entry) previous
              else pe_relative_path entry in
            let item := CloudItemState_new identity relative_path version in
            let item := mkCloudItemState (ci_identity item) (ci_relative_path item)
                          (ci_content_version item) dirty in
            (Ok identity, with_items (<[object_id := item]> (cr_items st)) dirs st)
        end
    | Err e => (Err e, st)
    | Panic => (Panic, st)
    | Diverge => (Diverge, st)
    end.
Definition upsert_inventory_entry (fresh : Uuid) (entry : ProviderEntry) :=
  upsert_inventory_entry_with_policy fresh entry true.
Definition upsert_committed_inventory_entry (fresh : Uuid) (entry : ProviderEntry) :=
  upsert_inventory_entry_with_policy fresh entry false.

(** [trim_matches('/')]. *)
Definition trim_matches (c : ascii) (s : string) : string :=
  String.rev (trim_start_matches c (String.rev (trim_start_matches c s))).
Definition clean_path (path : string) : string :=
  trim_matches slash (replace_char backslash slash path).

(** The path with the old directory replaced by the new one, when it is in it. *)
Definition relocate (old_path new_path path : string) : option string :=
  if decide (path = old_path ∨ is_Some (strip_prefix (old_path +:+ "/") path))
  then Some (new_path +:+ default EmptyString (strip_prefix old_path path)) else None.

Definition directory_at (path : string) (item : CloudItemState) : bool :=
  bool_decide (co_kind (ci_identity item) = PkDirectory) && bool_decide (ci_relative_path item = path).
Definition any_item (f : CloudItemState → bool) (items : gmap string CloudItemState) : bool :=
  existsb (λ kv, f kv.2) (map_to_list items).
Definition move_item (old_path new_path : string) (item : CloudItemState) : CloudItemState :=
  mkCloudItemState (ci_identity item)
    (default (ci_relative_path item) (relocate old_path new_path (ci_relative_path item)))
    (ci_content_version item) (ci_dirty item).

Definition migrate_directory_path (old_path new_path : string) st
  : res CloudProviderError CloudRootPersistentState :=
  let old_path := clean_path old_path in
  let new_path := clean_path new_path in
  if bool_decide (old_path = EmptyString) || bool_decide (new_path = EmptyString) then
    Err (CpInvalidPath "directory migration paths must not be empty")
  else if bool_decide (is_Some (cr_directory_ids st !! new_path))
          || any_item (directory_at new_path) (cr_items st) then
    Err (CpInvalidPath ("directory migration target already exists: " +:+ new_path))
  else
    let moves := omap (λ kv, (λ new, (kv.1, new, kv.2)) <$> relocate old_path new_path kv.1)
                   (map_to_list (cr_directory_ids st)) in
    if bool_decide (moves = []) && negb (any_item (directory_at old_path) (cr_items st)) then
      Err (CpInvalidPath ("directory migration source is unknown: " +:+ old_path))
    else
      let dirs := foldl (λ m mv, delete mv.1.1 m) (cr_directory_ids st) moves in
      let dirs := foldl (λ m mv, <[mv.1.2 := mv.2]> m) dirs moves in
      Ok (with_items (move_item old_path new_path <$> cr_items st) dirs st).
End State.

(** ** The disk *)

Inductive Fault :=
| Works
| Fails (e : IoError)
| Stops (n : nat) (e : IoError).

(** The files of the directory, the faults of the calls to come (those that change the
    directory, those that read it), the identifiers that [Uuid::new_v4] will return, and
    the directories seen so far, latest first. *)
Record Disk := mkDisk {
  dk_files : gmap string bytes;
  dk_faults : list Fault;
  dk_reads : list (option IoError);
  dk_uuids : list Uuid;
  dk_trace : list (gmap string bytes);
}.

Section Calls.
Context {E : Type}.

Definition carry_out (f : gmap string bytes → res IoError (gmap string bytes)) (faults : list Fault)
  : ST Disk IoError unit := λ d,
  match f (dk_files d) with
  | Ok files => (Ok tt, mkDisk files faults (dk_reads d) (dk_uuids d) (files :: dk_trace d))
  | Err e => (Err e, mkDisk (dk_files d) faults (dk_reads d) (dk_uuids d) (dk_trace d))
  | Panic => (Panic, d)
  | Diverge => (Diverge, d)
  end.
(** A call that changes the directory; [torn n] is what it leaves when it fails after [n]
    bytes. *)
Definition change (f : gmap string bytes → res IoError (gmap string bytes))
    (torn : nat → gmap string bytes → gmap string bytes) : ST Disk IoError unit := λ d,
  match dk_faults d with
  | Fails e :: faults => (Err e, mkDisk (dk_files d) faults (dk_reads d) (dk_uuids d) (dk_trace d))
  | Stops n e :: faults =>
      let files := torn n (dk_files d) in
      (Err e, mkDisk files faults (dk_reads d) (dk_uuids d) (files :: dk_trace d))
  | faults => carry_out f (tail faults) d
  end.
Definition whole (n : nat) (files : gmap string bytes) : gmap string bytes := files.

Definition missing_file : IoError := mkIoError NotFound "No such file or directory".

Definition dk_create (name : string) := change (λ m, Ok (<[name := []]> m)) whole.
Definition dk_write (name : string) (b : bytes) :=
  change (λ m, Ok (<[name := default [] (m !! name) ++ b]> m))
    (λ n m, <[name := default [] (m !! name) ++ take n b]> m).
(** [flush], [sync_all], [create_dir_all] and opening a directory. *)
Definition dk_sync := change Ok whole.
Definition dk_copy (a b : string) :=
  change (λ m, let? c := ok_or (m !! a) missing_file in Ok (<[b := c]> m))
    (λ n m, match m !! a with Some c => <[b := take n c]> m | None => m end).
(** Opens a file for writing, to sync it. *)
Definition dk_open_rw (name : string) :=
  change (λ m, let? _ := ok_or (m !! name) missing_file in Ok m) whole.
Definition dk_rename (a b : string) :=
  change (λ m, let? c := ok_or (m !! a) missing_file in Ok (<[b := c]> (delete a m))) whole.
Definition dk_remove (name : string) :=
  change (λ m, let? _ := ok_or (m !! name) missing_file in Ok (delete name m)) whole.

Definition reading {A} (f : option IoError → gmap string bytes → A) : ST Disk E A := λ d,
  (Ok (f (mjoin (head (dk_reads d))) (dk_files d)),
   mkDisk (dk_files d) (dk_faults d) (tail (dk_reads d)) (dk_uuids d) (dk_trace d)).
(** [Path::exists]: false also when the question cannot be answered. *)
Definition dk_exists (name : string) : ST Disk E bool :=
  reading (λ fault m, match fault with Some _ => false | None => bool_decide (is_Some (m !! name)) end).
Definition dk_read (name : string) : ST Disk E (IoError + bytes) :=
  reading (λ fault m, match fault, m !! name with
                      | Some e, _ => inl e
                      | None, Some b => inr b
                      | None, None => inl missing_file
                      end).
Definition dk_new_v4 : ST Disk E Uuid := λ d,
  (Ok (default (zeros 16) (head (dk_uuids d))),
   mkDisk (dk_files d) (dk_faults d) (dk_reads d) (tail (dk_uuids d)) (dk_trace d)).

(** [let _ = ..] and [if let Ok(..)]. *)
Definition attempt (m : ST Disk IoError unit) : ST Disk E unit := let* _ := st_try m in st_ret tt.
End Calls.

(** ** The store *)

Record StateEnvelope := mkStateEnvelope {
  se_schema_version : N;
  se_generation : N;
  se_checksum_hex : string;
  se_state : CloudRootPersistentState;
}.
Inductive DurableInspectionSource := Primary | Backup.
Record DurableInspection (A : Type) := mkDurableInspection {
  di_value : A;
  di_source : DurableInspectionSource;
  di_generation : N;
}.
Arguments mkDurableInspection {A}.
Arguments di_value {A}.
Arguments di_source {A}.
Arguments di_generation {A}.

(** [serde_json] on the state and its envelope. *)
Class StateJson := {
  state_to_vec : CloudRootPersistentState → res string bytes;
  envelope_to_vec_pretty : StateEnvelope → res string bytes;
  envelope_from_slice : bytes → res string StateEnvelope;
}.

Record CloudStateStore := mkCloudStateStore {
  cs_path : string;
  cs_backup_path : string;
  cs_root_id : Uuid;
}.

(** [Path::with_extension] on a file name: what follows its last dot is replaced. *)
Fixpoint file_stem (s : string) : option string :=
  match s with
  | EmptyString => None
  | String a s =>
      match file_stem s with
      | Some stem => Some (String a stem)
      | None => if decide (a = "."%char) then Some EmptyString else None
      end
  end.
Definition with_extension (name ext : string) : string :=
  match file_stem name with
  | Some (String a stem) => String a stem +:+ "." +:+ ext
  | _ => name +:+ "." +:+ ext
  end.
Definition CloudStateStore_new (path : string) (root_id : Uuid) : CloudStateStore :=
  mkCloudStateStore path (with_extension path "json.bak") root_id.

Section Store.
Context {sha : Sha256} {uuid : UuidText} {sj : StateJson}.
Variable store : CloudStateStore.
Notation IO := (ST Disk CloudProviderError).

Definition checksum_hex (b : bytes) : string := lower_hex (arr (sha256 b)).

Definition parse_envelope (data : bytes) (expected_root_id : Uuid)
  : res CloudProviderError CloudRootPersistentState :=
  let? envelope := map_err CpSerialization (envelope_from_slice data) in
  let state := se_state envelope in
  if negb (se_schema_version envelope =? CLOUD_ROOT_STATE_VERSION)%N
     || negb (cr_version state =? CLOUD_ROOT_STATE_VERSION)%N
     || bool_decide (cr_root_id state ≠ expected_root_id)
     || negb (se_generation envelope =? cr_generation state)%N
  then Err (CpCallback "Cloud Files state envelope metadata mismatch")
  else
    let? state_bytes := map_err CpSerialization (state_to_vec state) in
    if decide (checksum_hex state_bytes ≠ se_checksum_hex envelope)
    then Err (CpCallback "Cloud Files state checksum mismatch")
    else Ok state.

Definition read_envelope (path : string) : IO CloudRootPersistentState :=
  let* r := dk_read path in
  match r with
  | inl e => st_fail (CpIo e)
  | inr data => st_lift (parse_envelope data (cs_root_id store))
  end.

Definition quarantine_corrupt_file (path : string) : IO unit :=
  let* exists_ := dk_exists path in
  if negb exists_ then st_ret tt
  else
    let* id := dk_new_v4 in
    let quarantine := path +:+ ".corrupt-" +:+ uuid_to_string id in
    do* st_map_err CpIo (dk_rename path quarantine);
    attempt (dk_remove quarantine).

Definition no_generation_remains : CloudProviderError :=
  CpCallback ("no valid Cloud Files state generation remains for " +:+ uuid_to_string (cs_root_id store)).

(** A read whose failure is only logged. *)
Definition try_envelope (path : string) : IO (option CloudRootPersistentState) :=
  let* present := dk_exists path in
  if negb present then st_ret None
  else
    let* r := st_try (read_envelope path) in
    st_ret (match r with inr state => Some state | inl _ => None end).

Definition load_unlocked : IO CloudRootPersistentState :=
  let* primary_exists := dk_exists (cs_path store) in
  let* backup_exists := (if primary_exists then st_ret true else dk_exists (cs_backup_path store)) in
  if negb primary_exists && negb backup_exists then
    st_ret (CloudRootPersistentState_empty (cs_root_id store))
  else
    let* primary := try_envelope (cs_path store) in
    match primary with
    | Some state => st_ret state
    | None =>
        let* backup := try_envelope (cs_backup_path store) in
        match backup with
        | Some state => do* quarantine_corrupt_file (cs_path store); st_ret state
        | None => st_fail no_generation_remains
        end
    end.

Definition temp_name (id : Uuid) : string := "." +:+ cs_path store +:+ ".tmp-" +:+ uuid_to_string id.

(** The closure of [durable_replace]. *)
Definition replace_steps (temp : string) (b : bytes) : IO unit :=
  do* st_map_err CpIo (dk_create temp);
  do* st_map_err CpIo (dk_write temp b);
  do* st_map_err CpIo dk_sync;
  do* st_map_err CpIo dk_sync;
  let* present := dk_exists (cs_path store) in
  do* (if present : bool then
         do* st_map_err CpIo (dk_copy (cs_path store) (cs_backup_path store));
         do* st_map_err CpIo (dk_open_rw (cs_backup_path store));
         st_map_err CpIo dk_sync
       else st_ret tt);
  do* st_map_err CpIo (dk_rename temp (cs_path store));
  let* directory := st_try dk_sync in
  match directory with inr _ => attempt dk_sync | inl _ => st_ret tt end.
Definition durable_replace (b : bytes) : IO unit :=
  do* st_map_err CpIo dk_sync;
  let* id := dk_new_v4 in
  let temp := temp_name id in
  let* result := st_try (replace_steps temp b) in
  match result with
  | inr _ => st_ret tt
  | inl e => do* attempt (dk_remove temp); st_fail e
  end.

Definition state_envelope (state : CloudRootPersistentState) (state_bytes : bytes) : StateEnvelope :=
  mkStateEnvelope CLOUD_ROOT_STATE_VERSION (cr_generation state) (checksum_hex state_bytes) state.
Definition write_unlocked (state : CloudRootPersistentState) : IO unit :=
  do* st_map_err CpIo dk_sync;
  let* state_bytes := st_lift (map_err CpSerialization (state_to_vec state)) in
  let* b := st_lift (map_err CpSerialization
              (envelope_to_vec_pretty (state_envelope state state_bytes))) in
  durable_replace b.

Definition next_generation (state : CloudRootPersistentState) : CloudRootPersistentState :=
  with_generation (u64_saturating_add (cr_generation state) 1) state.

Definition transaction {A} (update : ST CloudRootPersistentState CloudProviderError A) : IO A :=
  let* state := load_unlocked in
  let '(r, state) := update state in
  let* result := st_lift r in
  do* write_unlocked (next_generation state);
  st_ret result.

Definition replace_if_generation (expected_generation : N) (replacement : CloudRootPersistentState)
  : IO unit :=
  let* current := load_unlocked in
  if negb (cr_generation current =? expected_generation)%N then
    st_fail (CpCallback ("Cloud Files state generation changed while reconciliation was applying: expected "
      +:+ pretty expected_generation +:+ ", found " +:+ pretty (cr_generation current)))
  else if bool_decide (cr_root_id replacement ≠ cs_root_id store)
          || negb (cr_version replacement =? CLOUD_ROOT_STATE_VERSION)%N then
    st_fail (CpCallback "Cloud Files replacement state metadata mismatch")
  else
    write_unlocked (with_generation (u64_saturating_add (cr_generation current) 1) replacement).

Definition complete_startup_recovery : IO bool :=
  let* state := load_unlocked in
  if negb (has_operation_in_progress state) then st_ret false
  else
    do* write_unlocked (next_generation (with_progress 0 false state));
    st_ret true.

Definition require_startup_recovery : IO bool :=
  let* state := load_unlocked in
  if cr_reconciliation_in_progress state then st_ret false
  else
    do* write_unlocked (next_generation (with_progress (cr_ingestion_in_progress state) true state));
    st_ret true.

(** [inspect_state_sources]: both files are read and nothing is changed. *)
Definition inspect_one (path : string) (source : DurableInspectionSource)
  : IO (option (DurableInspection CloudRootPersistentState)) :=
  let* r := dk_read path in
  st_ret (match r with
          | inr data =>
              match parse_envelope data (cs_root_id store) with
              | Ok value => Some (mkDurableInspection value source (cr_generation value))
              | _ => None
              end
          | inl _ => None
          end).
Definition inspect : IO (option (DurableInspection CloudRootPersistentState)) :=
  let* primary_exists := dk_exists (cs_path store) in
  let* backup_exists := dk_exists (cs_backup_path store) in
  if negb primary_exists && negb backup_exists then st_ret None
  else
    let* primary := inspect_one (cs_path store) Primary in
    let* backup := inspect_one (cs_backup_path store) Backup in
    match primary, backup with
    | Some primary, Some backup =>
        st_ret (Some (if (di_generation primary <? di_generation backup)%N then backup else primary))
    | Some primary, None => st_ret (Some primary)
    | None, Some backup => st_ret (Some backup)
    | None, None => st_fail no_generation_remains
    end.
End Store.

(** [versioned_cache_path]: the name of a decrypted copy. *)
Definition safe_object_char (c : ascii) : ascii :=
  let n := code c in
  if ((48 <=? n) && (n <=? 57) || (65 <=? n) && (n <=? 90) || (97 <=? n) && (n <=? 122)
      || (n =? 45) || (n =? 95))%N then c else "_"%char.
(** One character of the text is one of the name: the bytes that continue a character
    are dropped with it. *)
Fixpoint safe_object_id (s : string) : string :=
  match s with
  | EmptyString => EmptyString
  | String c s =>
      if ((128 <=? code c) && (code c <=? 191))%N then safe_object_id s
      else String (safe_object_char c) (safe_object_id s)
  end.
Definition versioned_cache_path (cache_root : string) (identity : CloudObjectIdentityV2)
    (version : ProviderContentVersion) : string :=
  cache_root +:+ "/" +:+ safe_object_id (co_object_id identity) +:+ "-" +:+ pv_text version +:+ ".plain".

(** ** Reasoning about interrupted runs *)

(** From directories of [P], with all recorded ones [Good], the call records only [Good]
    ones and ends as [Q] says.  Reads do not fail. *)
Definition safe {E A} (Good : gmap string bytes → Prop) (P : gmap string bytes → Prop)
    (m : ST Disk E A) (Q : res E A → gmap string bytes → Prop) : Prop :=
  ∀ d, Forall Good (dk_trace d) → dk_reads d = [] → P (dk_files d) →
    Forall Good (dk_trace (m d).2) ∧ dk_reads (m d).2 = [] ∧ Q (m d).1 (dk_files (m d).2).

Section SafeRules.
Context {E : Type} (Good : gmap string bytes → Prop).
Implicit Types P : gmap string bytes → Prop.

Lemma safe_ret {A} P (a : A) (Q : res E A → gmap string bytes → Prop) :
  (∀ m, P m → Q (Ok a) m) → safe Good P (st_ret a) Q.
Proof. intros H d T R p. split; [done|]. split; [done|]. by apply H. Qed.
Lemma safe_lift {A} P (r : res E A) (Q : res E A → gmap string bytes → Prop) :
  (∀ m, P m → Q r m) → safe Good P (st_lift r) Q.
Proof. intros H d T R p. split; [done|]. split; [done|]. by apply H. Qed.
Lemma safe_fail {A} P (e : E) (Q : res E A → gmap string bytes → Prop) :
  (∀ m, P m → Q (Err e) m) → safe Good P (st_fail e) Q.
Proof. apply safe_lift. Qed.

Lemma safe_bind {A B} P (P' : A → gmap string bytes → Prop) (m : ST Disk E A) (k : A → ST Disk E B) Q :
  safe Good P m (λ r fs, match r with
                         | Ok a => P' a fs
                         | Err e => Q (Err e) fs
                         | Panic => Q Panic fs
                         | Diverge => Q Diverge fs
                         end) →
  (∀ a, safe Good (P' a) (k a) Q) → safe Good P (st_bind m k) Q.
Proof.
  intros Hm Hk d T R p. destruct (Hm d T R p) as (T' & R' & q). unfold st_bind.
  destruct (m d) as [[a|e| |] d']; simpl in *; [by apply Hk|done..].
Qed.

Lemma safe_weaken {A} P P2 (m : ST Disk E A) (Q Q2 : res E A → gmap string bytes → Prop) :
  safe Good P2 m Q2 → (∀ fs, P fs → P2 fs) → (∀ r fs, Q2 r fs → Q r fs) → safe Good P m Q.
Proof. intros H HP HQ d T R p. destruct (H d T R (HP _ p)) as (? & ? & ?). auto. Qed.

Lemma safe_map_err {F A} P (f : F → E) (m : ST Disk F A) (Q : res E A → gmap string bytes → Prop) :
  safe Good P m (λ r fs, Q (map_err f r) fs) → safe Good P (st_map_err f m) Q.
Proof.
  intros H d T R p. destruct (H d T R p) as (? & ? & ?). unfold st_map_err.
  by destruct (m d) as [[] ?].
Qed.
Lemma safe_try {F A} P (m : ST Disk F A) (Q : res E (F + A) → gmap string bytes → Prop) :
  safe Good P m (λ r fs, match r with
                         | Ok a => Q (Ok (inr a)) fs
                         | Err e => Q (Ok (inl e)) fs
                         | Panic => Q Panic fs
                         | Diverge => Q Diverge fs
                         end) → safe Good P (st_try m) Q.
Proof.
  intros H d T R p. destruct (H d T R p) as (? & ? & ?). unfold st_try.
  by destruct (m d) as [[] ?].
Qed.

(** A read sees the directory as it is. *)
Lemma safe_reading {A} P (f : option IoError → gmap string bytes → A) (Q : res E A → gmap string bytes → Prop) :
  (∀ m, P m → Q (Ok (f None m)) m) → safe Good P (reading f) Q.
Proof.
  intros H d T R p. unfold reading. simpl. rewrite R. simpl. split; [done|]. split; [done|].
  by apply H.
Qed.
Lemma safe_new_v4 P (Q : res E Uuid → gmap string bytes → Prop) :
  (∀ id m, P m → Q (Ok id) m) → safe Good P dk_new_v4 Q.
Proof. intros H d T R p. split; [done|]. split; [done|]. by apply H. Qed.
End SafeRules.

(** A call that changes the directory does all of it, nothing, or a part. *)
Lemma safe_change (Good P : gmap string bytes → Prop) f torn (Q : res IoError unit → gmap string bytes → Prop) :
  (∀ m, P m → match f m with
              | Ok m' => Good m' ∧ Q (Ok tt) m'
              | Err e => Q (Err e) m
              | _ => False
              end) →
  (∀ m e, P m → Q (Err e) m) →
  (∀ m n e, P m → Good (torn n m) ∧ Q (Err e) (torn n m)) →
  safe Good P (change f torn) Q.
Proof.
  intros Hok Hf Ht d T R p. unfold change.
  assert (W : ∀ faults, Forall Good (dk_trace (carry_out f faults d).2)
    ∧ dk_reads (carry_out f faults d).2 = []
    ∧ Q (carry_out f faults d).1 (dk_files (carry_out f faults d).2)).
  { intros faults. specialize (Hok _ p). unfold carry_out.
    destruct (f (dk_files d)) as [m'|e| |]; simpl; try done. destruct Hok. split; [by constructor|done]. }
  destruct (dk_faults d) as [|[|e|n e] faults]; [apply (W [])|apply (W faults)|..]; simpl.
  - split; [done|]. split; [done|]. by apply Hf.
  - destruct (Ht _ n e p). split; [by constructor|done].
Qed.

(** A call whose result is dropped, and that keeps a property. *)
Lemma safe_attempt {E} (Good P : gmap string bytes → Prop) (m : ST Disk IoError unit) :
  safe Good P m (λ r fs, match r with Ok _ | Err _ => P fs | _ => False end) →
  safe Good P (attempt (E := E) m) (λ r fs, r = Ok tt ∧ P fs).
Proof.
  intros H. unfold attempt.
  eapply (safe_bind _ _ (λ _, P)); [apply safe_try|intros a; apply safe_ret; by intros].
  eapply safe_weaken; [exact H|done|]. by intros [a|e| |] fs.
Qed.

(** ** Crash safety *)

Class StateJsonLaws `{StateJson} : Prop := {
  state_to_vec_total st : ∃ b, state_to_vec st = Ok b;
  envelope_to_vec_total e : ∃ b, envelope_to_vec_pretty e = Ok b;
  envelope_from_to e b : envelope_to_vec_pretty e = Ok b → envelope_from_slice b = Ok e;
  envelope_from_slice_settles b : settles (envelope_from_slice b);
  (** An object ends with its brace: no proper part of its text is one. *)
  envelope_from_part e b n :
    envelope_to_vec_pretty e = Ok b → n < length b → ∀ e', envelope_from_slice (take n b) ≠ Ok e';
}.

(** The names that [runtime_paths] gives to the files. *)
Definition store_names (s : CloudStateStore) : Prop :=
  ∃ a base, a ≠ "."%char ∧ cs_path s = String a base +:+ ".json"
    ∧ cs_backup_path s = String a base +:+ ".json.bak".

Lemma file_stem_app base ext : avoids "." ext = true → file_stem (base +:+ "." +:+ ext) = Some base.
Proof.
  intros A. induction base as [|a base IH].
  - change (file_stem (String "." ext) = Some EmptyString). cbn [file_stem].
    assert (file_stem ext = None) as ->; [|by rewrite decide_True].
    induction ext as [|b ext IH]; [done|]. cbn in A. apply andb_prop in A as [A1 A2]. cbn [file_stem].
    rewrite IH by done. rewrite decide_False; [done|]. intros ->. by vm_compute in A1.
  - rewrite string_app_cons. cbn [file_stem]. by rewrite IH.
Qed.

(** The names of a new store. *)
Lemma CloudStateStore_new_names a base root_id :
  a ≠ "."%char → store_names (CloudStateStore_new (String a base +:+ ".json") root_id).
Proof.
  intros N. exists a, base. split; [done|]. split; [done|]. unfold CloudStateStore_new, with_extension.
  cbn [cs_backup_path]. change ".json"%string with ("." +:+ "json")%string.
  by rewrite file_stem_app by done.
Qed.

Section Crash.
Context {sha : Sha256} {uuid : UuidText} {sj : StateJson} {sjl : StateJsonLaws}.
Variable store : CloudStateStore.
Hypothesis names : store_names store.
Notation path := (cs_path store).
Notation backup := (cs_backup_path store).
Notation root := (cs_root_id store).
Notation parse b := (parse_envelope b root).

Definition proper_state (st : CloudRootPersistentState) : Prop :=
  cr_version st = CLOUD_ROOT_STATE_VERSION ∧ cr_root_id st = root ∧ (cr_generation st < U64)%N.
Definition written (st : CloudRootPersistentState) (b : bytes) : Prop :=
  ∃ sb, state_to_vec st = Ok sb ∧ envelope_to_vec_pretty (state_envelope st sb) = Ok b.

Lemma written_parses st b : proper_state st → written st b → parse b = Ok st.
Proof using sjl.
  intros (V & R & _) (sb & S & W). unfold parse_envelope. rewrite (envelope_from_to _ _ W).
  cbn [map_err res_bind state_envelope se_state se_schema_version se_generation se_checksum_hex].
  rewrite V, R, !N.eqb_refl, bool_decide_eq_false_2 by naive_solver. cbn [negb orb].
  rewrite S. cbn [map_err res_bind]. by rewrite decide_False by naive_solver.
Qed.
Lemma written_part st st' b n :
  proper_state st → written st b → parse (take n b) = Ok st' → st' = st.
Proof using sjl.
  intros V W P. destruct (decide (n < length b)) as [L|L].
  - destruct W as (sb & S & W). unfold parse_envelope in P. apply res_bind_Ok in P as (e & E & _).
    rewrite map_err_Ok in E. by apply (envelope_from_part _ _ n W L) in E.
  - rewrite take_ge in P by lia. rewrite (written_parses st b V W) in P. by apply Ok_inj in P.
Qed.
Lemma written_total st : ∃ b, written st b.
Proof using sjl.
  destruct (state_to_vec_total st) as [sb S]. destruct (envelope_to_vec_total (state_envelope st sb)) as [b B].
  by exists b, sb.
Qed.

(** What a directory holds that is ready for a write: the state is in the first file, the
    second no later one; or the first is gone and the second has it; or nothing was
    written yet. *)
Definition older (m : gmap string bytes) (st : CloudRootPersistentState) : Prop :=
  ∀ b st', m !! backup = Some b → parse b = Ok st' → (cr_generation st' ≤ cr_generation st)%N.
Definition ready (m : gmap string bytes) (st : CloudRootPersistentState) : Prop :=
  proper_state st
  ∧ ((∃ b, m !! path = Some b ∧ written st b ∧ older m st)
     ∨ (m !! path = None ∧ ∃ b, m !! backup = Some b ∧ written st b)
     ∨ (m !! path = None ∧ m !! backup = None ∧ st = CloudRootPersistentState_empty root)).
(** The same, but the first file may be unreadable. *)
Definition holds (m : gmap string bytes) (st : CloudRootPersistentState) : Prop :=
  ready m st
  ∨ (proper_state st ∧ (∀ b st', m !! path = Some b → parse b ≠ Ok st')
     ∧ ∃ b, m !! backup = Some b ∧ written st b).

(** Both depend on the two files only. *)
Lemma ready_same m m' st : m' !! path = m !! path → m' !! backup = m !! backup → ready m st → ready m' st.
Proof. intros P B. unfold ready, older. by rewrite P, B. Qed.
Lemma holds_same m m' st : m' !! path = m !! path → m' !! backup = m !! backup → holds m st → holds m' st.
Proof. intros P B. unfold holds, ready, older. by rewrite P, B. Qed.

Lemma name_facts :
  path ≠ backup ∧ (∀ id, temp_name store id ≠ path ∧ temp_name store id ≠ backup)
  ∧ (∀ id, path +:+ ".corrupt-" +:+ uuid_to_string id ≠ path
           ∧ path +:+ ".corrupt-" +:+ uuid_to_string id ≠ backup).
Proof using names.
  destruct names as (a & base & N & -> & ->).
  assert (L : ∀ s t, t ≠ EmptyString → s +:+ t ≠ s).
  { intros s t H E. apply H. rewrite <-(string_app_nil_r s) in E at 2.
    by apply (inj (String.append s)) in E. }
  split; [|split].
  - change ".json.bak"%string with (".json" +:+ ".bak"). rewrite <-string_app_assoc. by apply not_eq_sym, L.
  - intros id. unfold temp_name. rewrite !string_app_cons. split; intros E; injection E as E _; done.
  - intros id. split; [apply L; by destruct (uuid_to_string id)|].
    change ".json.bak"%string with (".json" +:+ ".bak"). rewrite <-(string_app_assoc _ ".json" ".bak").
    intros E. by apply (inj (String.append _)) in E.
Qed.

Lemma path_backup : path ≠ backup.
Proof using names.
  destruct names as (a & base & _ & -> & ->). rewrite <-(string_app_nil_r ".json") at 1.
  intros E. by apply (inj (String.append _)) in E.
Qed.
Lemma temp_path_ne id : temp_name store id ≠ path.
Proof using names. apply name_facts. Qed.
Lemma temp_backup_ne id : temp_name store id ≠ backup.
Proof using names. apply name_facts. Qed.

(** A change of another file. *)
Lemma ready_other m st name c :
  name ≠ path → name ≠ backup → ready m st → ready (<[name := c]> m) st.
Proof. intros P B. apply ready_same; by rewrite lookup_insert_ne. Qed.
Lemma ready_delete m st name : name ≠ path → name ≠ backup → ready m st → ready (delete name m) st.
Proof. intros P B. apply ready_same; by rewrite lookup_delete_ne. Qed.
Lemma holds_delete m st name : name ≠ path → name ≠ backup → holds m st → holds (delete name m) st.
Proof. intros P B. apply holds_same; by rewrite lookup_delete_ne. Qed.
Lemma ready_holds m st : ready m st → holds m st.
Proof. by left. Qed.

Lemma ready_proper m st : ready m st → proper_state st.
Proof. by intros [? _]. Qed.

(** A copy of the first file over the second, whole or not. *)
Lemma ready_copy m st b n :
  m !! path = Some b → ready m st → ready (<[backup := take n b]> m) st.
Proof using sjl names.
  intros P [V [(b' & P' & W & O)|[[P' _]|[P' _]]]]; [|congruence..].
  assert (b' = b) as -> by congruence. split; [done|]. left. exists b.
  rewrite lookup_insert_ne by apply not_eq_sym, path_backup. split; [done|]. split; [done|].
  intros c st' C S. rewrite lookup_insert_eq in C. injection C as <-.
  by rewrite (written_part st st' b n V W S).
Qed.

(** The new state is in place. *)
Lemma ready_rename m st st' b temp :
  temp ≠ path → temp ≠ backup →
  ready m st → proper_state st' → (cr_generation st ≤ cr_generation st')%N → written st' b →
  ready (<[path := b]> (delete temp m)) st'.
Proof using sjl names.
  intros TP TB R V' G W. split; [done|]. left. exists b. rewrite lookup_insert_eq. split; [done|].
  split; [done|]. intros c s C S. rewrite lookup_insert_ne in C by apply path_backup.
  rewrite lookup_delete_ne in C by done. destruct R as [V [(b' & _ & _ & O)|[[_ (b' & B & W')]|(_ & B & _)]]].
  - specialize (O c s C S). lia.
  - assert (c = b') as -> by congruence. rewrite (written_parses st b' V W') in S. by apply Ok_inj in S as <-.
  - congruence.
Qed.

(** A call that does its work or none of it. *)
Lemma safe_whole {A} (Good P P' : gmap string bytes → Prop) f (Q : res CloudProviderError A → gmap string bytes → Prop) :
  (∀ m, P m → Good m) → (∀ m e, P m → Q (Err (CpIo e)) m) →
  (∀ m, P m → match f m with Ok m' => Good m' ∧ P' m' | Err _ => True | _ => False end) →
  safe Good P (st_map_err CpIo (change f whole))
    (λ r m, match r with
            | Ok _ => P' m
            | Err e => Q (Err e) m
            | Panic => Q Panic m
            | Diverge => Q Diverge m
            end).
Proof.
  intros HG HQ Hf. apply safe_map_err, safe_change; cbn; [|by auto|unfold whole; by auto].
  intros m p. specialize (Hf m p). destruct (f m); cbn; [done|by apply HQ|done|done].
Qed.

Section Replace.
Variables (st st' : CloudRootPersistentState) (b : bytes) (id : Uuid).
Hypotheses (V' : proper_state st') (G : (cr_generation st ≤ cr_generation st')%N) (W : written st' b).
Notation temp := (temp_name store id).

Definition either (m : gmap string bytes) : Prop := holds m st ∨ holds m st'.
Definition staged (m : gmap string bytes) : Prop := ready m st ∧ m !! temp = Some b.
Definition replaced (r : res CloudProviderError unit) (m : gmap string bytes) : Prop :=
  (r = Ok tt ∧ ready m st') ∨ (∃ e, r = Err (CpIo e) ∧ ready m st).

Lemma ready_either m : ready m st → either m.
Proof. left. by apply ready_holds. Qed.
Lemma staged_either m : staged m → either m.
Proof. intros [R _]. by apply ready_either. Qed.
Lemma replaced_Err m e : ready m st → replaced (Err (CpIo e)) m.
Proof. right. eauto. Qed.
Lemma replaced_staged m e : staged m → replaced (Err (CpIo e)) m.
Proof. intros [R _]. by apply replaced_Err. Qed.
#[local] Hint Resolve ready_either staged_either replaced_Err replaced_staged ready_holds : core.

Lemma create_safe : safe either (λ m, ready m st) (st_map_err CpIo (dk_create temp))
  (λ r m, match r with Ok _ => ready m st ∧ m !! temp = Some [] | Err e => replaced (Err e) m
          | Panic => replaced Panic m | Diverge => replaced Diverge m end).
Proof using names.
  apply safe_whole; [auto..|]. intros m R. rewrite lookup_insert_eq.
  assert (ready (<[temp := []]> m) st) by (apply ready_other; auto using temp_path_ne, temp_backup_ne).
  auto.
Qed.
Lemma write_safe : safe either (λ m, ready m st ∧ m !! temp = Some []) (st_map_err CpIo (dk_write temp b))
  (λ r m, match r with Ok _ => staged m | Err e => replaced (Err e) m
          | Panic => replaced Panic m | Diverge => replaced Diverge m end).
Proof using names.
  assert (F : ∀ m c, ready m st → ready (<[temp := c]> m) st).
  { intros m c. apply ready_other; auto using temp_path_ne, temp_backup_ne. }
  apply safe_map_err, safe_change; cbn.
  - intros m [R T]. rewrite T. cbn. unfold staged. rewrite lookup_insert_eq. auto.
  - intros m e [R T]. auto.
  - intros m n e [R T]. auto.
Qed.
Lemma sync_safe : safe either staged (st_map_err CpIo dk_sync)
  (λ r m, match r with Ok _ => staged m | Err e => replaced (Err e) m
          | Panic => replaced Panic m | Diverge => replaced Diverge m end).
Proof. apply safe_whole; auto. Qed.

Lemma backup_safe : safe either (λ m, staged m ∧ is_Some (m !! path))
  (do* st_map_err CpIo (dk_copy path backup); do* st_map_err CpIo (dk_open_rw backup);
   st_map_err CpIo dk_sync)
  (λ r m, match r with Ok _ => staged m | Err e => replaced (Err e) m
          | Panic => replaced Panic m | Diverge => replaced Diverge m end).
Proof using sjl names.
  assert (F : ∀ m c n, m !! path = Some c → staged m → staged (<[backup := take n c]> m)).
  { intros m c n C [R T]. split; [by apply ready_copy|].
    rewrite lookup_insert_ne; [done|apply not_eq_sym, temp_backup_ne]. }
  apply (safe_bind _ _ (λ _, staged)).
  { apply safe_map_err, safe_change; cbn.
    - intros m [S [c C]]. rewrite C. cbn. pose proof (F m c (length c) C S) as S'.
      rewrite take_ge in S' by done. auto.
    - intros m e [S _]. auto.
    - intros m n e [S [c C]]. rewrite C. auto. }
  intros _. apply (safe_bind _ _ (λ _, staged)); [|intros _; exact sync_safe].
  apply safe_whole; [auto..|]. intros m S. destruct (m !! backup); cbn; auto.
Qed.

Lemma rename_safe : safe either staged (st_map_err CpIo (dk_rename temp path))
  (λ r m, match r with Ok _ => ready m st' | Err e => replaced (Err e) m
          | Panic => replaced Panic m | Diverge => replaced Diverge m end).
Proof using sjl names V' G W.
  apply safe_whole; [auto..|]. intros m [R T]. rewrite T. cbn.
  assert (R' : ready (<[path := b]> (delete temp m)) st').
  { eapply ready_rename; eauto using temp_path_ne, temp_backup_ne. }
  split; [right; by apply ready_holds|done].
Qed.

Lemma replace_steps_safe : safe either (λ m, ready m st) (replace_steps store temp b) replaced.
Proof using sjl names V' G W.
  unfold replace_steps. eapply safe_bind; [apply create_safe|]. intros [].
  eapply safe_bind; [apply write_safe|]. intros []. eapply safe_bind; [exact sync_safe|]. intros [].
  eapply safe_bind; [exact sync_safe|]. intros [].
  apply (safe_bind _ _ (λ present m, staged m ∧ (present = true → is_Some (m !! path)))).
  { apply safe_reading. intros m S. split; [done|]. apply bool_decide_eq_true_1. }
  intros present. apply (safe_bind _ _ (λ _, staged)).
  { destruct present; [|apply safe_ret; by intros m []].
    eapply safe_weaken; [exact backup_safe|naive_solver|done]. }
  intros _. eapply safe_bind; [exact rename_safe|]. intros [].
  assert (SN : safe either (λ m, ready m st') dk_sync
    (λ r m, match r with Ok _ | Err _ => ready m st' | _ => False end)).
  { apply safe_change; cbn; unfold whole, either; auto. }
  apply (safe_bind _ _ (λ _ m, ready m st')).
  { apply safe_try. eapply safe_weaken; [exact SN|done|]. by intros [] fs. }
  intros [e|[]]; [apply safe_ret; by left|].
  eapply safe_weaken; [apply safe_attempt, SN|done|]. intros r fs [-> R]. by left.
Qed.
End Replace.

Lemma durable_replace_safe st st' b :
  proper_state st' → (cr_generation st ≤ cr_generation st')%N → written st' b →
  safe (either st st') (λ m, ready m st) (durable_replace store b) (replaced st st').
Proof using sjl names.
  intros V' G W. unfold durable_replace.
  apply (safe_bind _ _ (λ _ m, ready m st)).
  { apply safe_whole; intros; auto using ready_either, replaced_Err. }
  intros _. apply (safe_bind _ _ (λ _ m, ready m st)); [by apply safe_new_v4|].
  intros id. apply (safe_bind _ _ (λ r m, match r with inr _ => ready m st' | inl e => ready m st ∧ ∃ i, e = CpIo i end)).
  { apply safe_try. eapply safe_weaken; [by apply replace_steps_safe|done|].
    intros r m [[-> R]|(e & -> & R)]; eauto. }
  intros [e|[]]; [|apply safe_ret; by left].
  apply (safe_bind _ _ (λ _ m, ready m st ∧ ∃ i, e = CpIo i)).
  - eapply safe_weaken; [apply (safe_attempt _ (λ m, ready m st ∧ ∃ i, e = CpIo i))|done|].
    + apply safe_change; cbn; unfold whole.
      * intros m [R I]. destruct (m !! _); cbn; [|done].
        assert (ready (delete (temp_name store id) m) st)
          by (apply ready_delete; auto using temp_path_ne, temp_backup_ne).
        auto using ready_either.
      * auto.
      * intros m n e' [R I]. auto using ready_either.
    + intros r m [-> R]. exact R.
  - intros _. apply safe_fail. intros m [R [i ->]]. by apply replaced_Err.
Qed.

Lemma write_unlocked_safe st st' :
  proper_state st' → (cr_generation st ≤ cr_generation st')%N →
  safe (either st st') (λ m, ready m st) (write_unlocked store st') (replaced st st').
Proof using sjl names.
  intros V' G. unfold write_unlocked. apply (safe_bind _ _ (λ _ m, ready m st)).
  { apply safe_whole; intros; auto using ready_either, replaced_Err. }
  intros _. destruct (state_to_vec_total st') as [sb S]. rewrite S. cbn [map_err].
  destruct (envelope_to_vec_total (state_envelope st' sb)) as [b B].
  apply (safe_bind _ _ (λ a m, a = sb ∧ ready m st)); [by apply safe_lift|].
  intros a. apply (safe_bind _ _ (λ c m, c = b ∧ ready m st)).
  { intros d T R [-> p]. rewrite B. cbn. auto. }
  intros c d T R [-> p]. apply durable_replace_safe; try done. by exists sb.
Qed.

(** ** Loading *)

Lemma parse_settles b : settles (parse b).
Proof using sjl.
  unfold parse_envelope. pose proof (envelope_from_slice_settles b) as F.
  destruct (envelope_from_slice b) as [e|e| |]; [|done..]. cbn [map_err res_bind].
  destruct (_ || _); [done|]. destruct (state_to_vec_total (se_state e)) as [sb ->]. cbn [map_err res_bind].
  by case_decide.
Qed.

(** What reading a file says, when the reads work. *)
Definition seen (m : gmap string bytes) (name : string) : option CloudRootPersistentState :=
  match m !! name with
  | Some b => match parse b with Ok st => Some st | _ => None end
  | None => None
  end.

Lemma try_envelope_safe (Good : gmap string bytes → Prop) P name :
  safe Good P (try_envelope store name) (λ r m, r = Ok (seen m name) ∧ P m).
Proof using sjl.
  unfold try_envelope. apply (safe_bind _ _ (λ present m, present = bool_decide (is_Some (m !! name)) ∧ P m)).
  { by apply safe_reading. }
  intros [].
  - apply (safe_bind _ _ (λ r m, match r with inr st => Some st | inl _ => None end = seen m name ∧ P m)).
    { apply safe_try. unfold read_envelope.
      apply (safe_bind _ _ (λ r m, match r with inr b => m !! name = Some b | inl _ => m !! name = None end ∧ P m)).
      { apply safe_reading. intros m [_ p]. by destruct (m !! name). }
      intros [e|b].
      - apply safe_fail. intros m [N p]. unfold seen. by rewrite N.
      - apply safe_lift. intros m [N p]. unfold seen. rewrite N. pose proof (parse_settles b) as F.
        by destruct (parse b). }
    intros r. apply safe_ret. intros m [-> p]. done.
  - apply safe_ret. intros m [N p]. unfold seen. symmetry in N. apply bool_decide_eq_false in N.
    by destruct (m !! name); [destruct N|].
Qed.

(** A state that is held is loaded, and then the directory is ready for a write: an
    unreadable first file was put away. *)
Definition loaded (st : CloudRootPersistentState) (r : res CloudProviderError CloudRootPersistentState)
    (m : gmap string bytes) : Prop :=
  (r = Ok st ∧ ready m st) ∨ (∃ e, r = Err (CpIo e) ∧ holds m st).

Lemma seen_path m st : ready m st → is_Some (m !! path) → seen m path = Some st.
Proof using sjl.
  intros [V [(b & P & W & _)|[[P _]|[P _]]]] [c C]; [|congruence..].
  unfold seen. rewrite P. by rewrite (written_parses st b V W).
Qed.
Lemma seen_backup m st :
  proper_state st → (∃ b, m !! backup = Some b ∧ written st b) → seen m backup = Some st.
Proof using sjl. intros V (b & B & W). unfold seen. rewrite B. by rewrite (written_parses st b V W). Qed.

(** The first file is unreadable or gone. *)
Definition in_backup (st : CloudRootPersistentState) (m : gmap string bytes) : Prop :=
  proper_state st ∧ seen m path = None ∧ ∃ b, m !! backup = Some b ∧ written st b.
Lemma in_backup_holds st m : in_backup st m → holds m st.
Proof.
  intros (V & S & B). right. split; [done|]. split; [|done]. intros b st' P E. unfold seen in S.
  rewrite P, E in S. done.
Qed.
Lemma holds_cases m st :
  holds m st → ready m st ∧ seen m path = Some st ∨ in_backup st m
  ∨ (m !! path = None ∧ m !! backup = None ∧ st = CloudRootPersistentState_empty root ∧ ready m st).
Proof using sjl.
  intros [R|(V & N & B)].
  - pose proof R as [V [(b & P & W & O)|[[P B]|(P & B & ->)]]].
    + left. split; [done|]. apply seen_path; [done|]. by exists b.
    + right; left. split; [done|]. split; [|done]. unfold seen. by rewrite P.
    + by right; right.
  - right; left. split; [done|]. split; [|done]. unfold seen. destruct (m !! path) as [b|] eqn:P; [|done].
    pose proof (N b) as N'. destruct (parse b) as [s| | |] eqn:E; [|done..]. by destruct (N' s).
Qed.

Definition quarantined st (r : res CloudProviderError unit) (m : gmap string bytes) : Prop :=
  (r = Ok tt ∧ ready m st) ∨ (∃ e, r = Err (CpIo e) ∧ holds m st).
Lemma quarantine_safe st st' :
  safe (either st st') (in_backup st) (quarantine_corrupt_file path) (quarantined st).
Proof using names.
  unfold quarantine_corrupt_file.
  assert (F : ∀ m, in_backup st m → either st st' m) by (left; by apply in_backup_holds).
  assert (R : ∀ m, in_backup st m → m !! path = None → ready m st).
  { intros m (V & _ & B) N. split; [done|]. right; left. done. }
  apply (safe_bind _ _ (λ present m, in_backup st m ∧ (present = false → m !! path = None))).
  { apply safe_reading. intros m I. split; [done|]. intros N%bool_decide_eq_false.
    destruct (m !! path); [by destruct N|done]. }
  intros []; cbn [negb]; [|apply safe_ret; unfold quarantined; naive_solver].
  apply (safe_bind _ _ (λ _, in_backup st)); [apply safe_new_v4; by intros id m []|]. intros id.
  set (q := path +:+ ".corrupt-" +:+ uuid_to_string id).
  destruct (proj2 (proj2 name_facts) id) as [QP QB]. fold q in QP, QB.
  apply (safe_bind _ _ (λ _ m, in_backup st m ∧ m !! path = None)).
  { apply (safe_whole _ _ _ _ (quarantined st)); [done|right; eauto using in_backup_holds|]. intros m (V & S & b & B & W).
    destruct (m !! path) as [c|]; cbn; [|done].
    assert (in_backup st (<[q := c]> (delete path m)) ∧ <[q := c]> (delete path m) !! path = None) as [I N].
    { unfold in_backup, seen. rewrite !lookup_insert_ne by done. rewrite lookup_delete_eq.
      rewrite lookup_delete_ne by apply path_backup. naive_solver. }
    auto. }
  intros _. eapply safe_weaken; [apply (safe_attempt _ (λ m, in_backup st m ∧ m !! path = None))|done|].
  - apply safe_change; cbn; unfold whole; [|done|naive_solver]. intros m [I N].
    destruct (m !! q); cbn; [|done].
    assert (in_backup st (delete q m) ∧ delete q m !! path = None) as [I' N']; [|auto].
    unfold in_backup, seen. by rewrite !lookup_delete_ne by done.
  - intros r m [-> [I N]]. left. auto.
Qed.

(** Something was written. *)
Definition begun (m : gmap string bytes) : Prop := is_Some (m !! path) ∨ is_Some (m !! backup).

Lemma holds_fresh m st : holds m st → ¬ begun m → st = CloudRootPersistentState_empty root ∧ ready m st.
Proof using sjl.
  intros H N. destruct (holds_cases m st H) as [[R S]|[(_ & _ & b & B & _)|(_ & _ & E & R)]]; [..|done].
  - destruct N. left. unfold seen in S. by destruct (m !! path).
  - destruct N. right. by exists b.
Qed.

Lemma load_files_safe st st' :
  safe (either st st') (λ m, holds m st ∧ begun m)
    (let* primary := try_envelope store path in
     match primary with
     | Some state => st_ret state
     | None =>
         let* b := try_envelope store backup in
         match b with
         | Some state => do* quarantine_corrupt_file path; st_ret state
         | None => st_fail (no_generation_remains store)
         end
     end) (loaded st).
Proof using sjl names.
  apply (safe_bind _ _ (λ r m, r = seen m path ∧ holds m st ∧ begun m)).
  { eapply safe_weaken; [apply (try_envelope_safe _ (λ m, holds m st ∧ begun m))|done|].
    intros r m [-> H]. done. }
  intros [s|].
  { apply safe_ret. intros m (S & H & _). left.
    destruct (holds_cases m st H) as [[R S']|[(_ & S' & _)|(P & _)]]; [|congruence|].
    - split; [congruence|done].
    - unfold seen in S. by rewrite P in S. }
  apply (safe_bind _ _ (λ r m, r = Some st ∧ in_backup st m)).
  { eapply safe_weaken; [apply (try_envelope_safe _ (in_backup st))| |].
    - intros m (S & H & B). destruct (holds_cases m st H) as [[_ S']|[I|(P & Q & _)]]; [congruence|done|].
      destruct B as [[? B]|[? B]]; congruence.
    - intros r m [-> (V & S & B)]. by rewrite (seen_backup m st V B). }
  intros [s|]; [|apply safe_fail; by intros m []].
  apply (safe_bind _ _ (λ _ m, s = st ∧ ready m st)); [|intros _; apply safe_ret; intros m [-> R]; by left].
  intros d T R [[= ->] I]. destruct (quarantine_safe st st' d T R I) as (T' & R' & X).
  split; [done|]. split; [done|]. destruct X as [[-> X]|(e & -> & X)]; [done|]. right. eauto.
Qed.

Lemma load_unlocked_safe st st' :
  safe (either st st') (λ m, holds m st) (load_unlocked store) (loaded st).
Proof using sjl names.
  unfold load_unlocked.
  apply (safe_bind _ _ (λ p m, holds m st ∧ p = bool_decide (is_Some (m !! path)))); [by apply safe_reading|].
  intros p. apply (safe_bind _ _ (λ q m, holds m st ∧ (negb p && negb q = false ↔ begun m))).
  { destruct p; [apply safe_ret|apply safe_reading]; intros m [H P]; (split; [done|]);
      symmetry in P; unfold begun; cbn.
    - apply bool_decide_eq_true in P. naive_solver.
    - apply bool_decide_eq_false in P. rewrite negb_false_iff, bool_decide_eq_true. naive_solver. }
  intros q. destruct (negb p && negb q).
  - apply safe_ret. intros m [H B]. left. destruct (holds_fresh m st H) as [-> R]; [|done].
    intros X. by apply B in X.
  - eapply safe_weaken; [apply load_files_safe| |done]. naive_solver.
Qed.

(** ** The store is one cell *)

Inductive store_op :=
| SoLoad
| SoTransaction (update : ST CloudRootPersistentState CloudProviderError unit)
| SoReplace (expected_generation : N) (replacement : CloudRootPersistentState)
| SoComplete
| SoRequire.
Inductive store_out := SoState (st : CloudRootPersistentState) | SoDone | SoFlag (b : bool).

Definition run_store (op : store_op) : ST Disk CloudProviderError store_out :=
  match op with
  | SoLoad => let* st := load_unlocked store in st_ret (SoState st)
  | SoTransaction update => do* transaction store update; st_ret SoDone
  | SoReplace g replacement => do* replace_if_generation store g replacement; st_ret SoDone
  | SoComplete => let* b := complete_startup_recovery store in st_ret (SoFlag b)
  | SoRequire => let* b := require_startup_recovery store in st_ret (SoFlag b)
  end.

(** The same on a value in memory. *)
Definition spec_store (op : store_op) (st : CloudRootPersistentState)
  : res CloudProviderError store_out * CloudRootPersistentState :=
  match op with
  | SoLoad => (Ok (SoState st), st)
  | SoTransaction update =>
      match update st with
      | (Ok _, st') => (Ok SoDone, next_generation st')
      | (Err e, _) => (Err e, st)
      | (Panic, _) => (Panic, st)
      | (Diverge, _) => (Diverge, st)
      end
  | SoReplace g replacement =>
      if negb (cr_generation st =? g)%N then
        (Err (CpCallback ("Cloud Files state generation changed while reconciliation was applying: expected "
            +:+ pretty g +:+ ", found " +:+ pretty (cr_generation st))), st)
      else if bool_decide (cr_root_id replacement ≠ root)
              || negb (cr_version replacement =? CLOUD_ROOT_STATE_VERSION)%N
      then (Err (CpCallback "Cloud Files replacement state metadata mismatch"), st)
      else (Ok SoDone, with_generation (u64_saturating_add (cr_generation st) 1) replacement)
  | SoComplete =>
      if negb (has_operation_in_progress st) then (Ok (SoFlag false), st)
      else (Ok (SoFlag true), next_generation (with_progress 0 false st))
  | SoRequire =>
      if cr_reconciliation_in_progress st then (Ok (SoFlag false), st)
      else (Ok (SoFlag true), next_generation (with_progress (cr_ingestion_in_progress st) true st))
  end.

(** An update of a transaction leaves root, format and generation alone. *)
Definition same_frame (st' st : CloudRootPersistentState) : Prop :=
  cr_version st' = cr_version st ∧ cr_root_id st' = cr_root_id st ∧ cr_generation st' = cr_generation st.
Definition op_allowed (op : store_op) : Prop :=
  match op with SoTransaction update => ∀ st, same_frame (update st).2 st | _ => True end.

Definition cell (op : store_op) (st : CloudRootPersistentState)
    (r : res CloudProviderError store_out) (m : gmap string bytes) : Prop :=
  (r = (spec_store op st).1 ∧ holds m (spec_store op st).2) ∨ (∃ e, r = Err (CpIo e) ∧ holds m st).

(** Writing a new state after loading one, with the answer [out]. *)
Lemma write_cell {A} st st' (a : A) (k : A → store_out) op :
  proper_state st' → (cr_generation st ≤ cr_generation st')%N → spec_store op st = (Ok (k a), st') →
  safe (either st st') (λ m, ready m st)
    (let* x := (do* write_unlocked store st'; st_ret a) in st_ret (k x)) (cell op st).
Proof using sjl names.
  intros V G S d T R p. destruct (write_unlocked_safe st st' V G d T R p) as (T' & R' & X).
  unfold st_bind. destruct (write_unlocked store st' d) as [r d']. cbn [fst snd] in *.
  unfold cell. rewrite S.
  destruct X as [[-> X]|(e & -> & X)]; cbn; (split; [done|]); (split; [done|]).
  - left. split; [done|]. by apply ready_holds.
  - right. exists e. split; [done|]. by apply ready_holds.
Qed.

Lemma bump_generation g : (g < U64)%N → (g ≤ u64_saturating_add g 1 < U64)%N.
Proof. unfold u64_saturating_add, U64. lia. Qed.
Lemma next_frame st st' :
  proper_state st → same_frame st' st →
  proper_state (next_generation st') ∧ (cr_generation st ≤ cr_generation (next_generation st'))%N.
Proof.
  intros (V & R & L) (FV & FR & FG). pose proof (bump_generation _ L) as [B1 B2].
  unfold proper_state. cbn. rewrite FG, FV, FR. done.
Qed.
Lemma same_frame_progress i b st : same_frame (with_progress i b st) st.
Proof. done. Qed.

(** The calls that do not write. *)
Lemma read_cell {A} st st' op (a : A) (k : A → store_out) :
  spec_store op st = (Ok (k a), st) → safe (either st st') (λ m, ready m st)
    (let* x := st_ret a in st_ret (k x)) (cell op st).
Proof.
  intros S. intros d T R p. cbn. split; [done|]. split; [done|]. unfold cell. rewrite S. left.
  split; [done|]. by apply ready_holds.
Qed.
Lemma fail_cell {A} st st' op (e : CloudProviderError) (k : A → store_out) :
  spec_store op st = (Err e, st) → safe (either st st') (λ m, ready m st)
    (let* x := st_fail e in st_ret (k x)) (cell op st).
Proof.
  intros S. intros d T R p. cbn. split; [done|]. split; [done|]. unfold cell. rewrite S. left.
  split; [done|]. by apply ready_holds.
Qed.

(** After a load that works, the rest of a call runs on the state that was loaded. *)
Lemma after_load {A} st st' op (k : CloudRootPersistentState → ST Disk CloudProviderError A)
    (out : A → store_out) :
  (∀ m, holds m st → proper_state st) →
  (proper_state st → safe (either st st') (λ m, ready m st) (let* x := k st in st_ret (out x)) (cell op st)) →
  safe (either st st') (λ m, holds m st)
    (let* x := (let* s := load_unlocked store in k s) in st_ret (out x)) (cell op st).
Proof using sjl names.
  intros HV Hk d T R p. destruct (load_unlocked_safe st st' d T R p) as (T' & R' & X).
  specialize (Hk (HV _ p)). unfold st_bind at 2. destruct (load_unlocked store d) as [r d'] eqn:E. cbn [fst snd] in *.
  destruct X as [[-> X]|(e & -> & X)].
  - specialize (Hk d' T' R' X). unfold st_bind in *. rewrite E. done.
  - unfold st_bind. rewrite E. cbn. split; [done|]. split; [done|]. right. eauto.
Qed.

Lemma holds_proper m st : holds m st → proper_state st.
Proof. by intros [[V _]|[V _]]. Qed.

Lemma transaction_safe update st :
  op_allowed (SoTransaction update) →
  safe (either st (spec_store (SoTransaction update) st).2) (λ m, holds m st)
    (run_store (SoTransaction update)) (cell (SoTransaction update) st).
Proof using sjl names.
  intros A. cbn [run_store]. unfold transaction.
  apply (after_load _ _ _ (λ s, let '(r, s') := update s in
    let* result := st_lift r in do* write_unlocked store (next_generation s'); st_ret result) (λ _, SoDone)).
  { by apply (λ m, holds_proper m st). }
  intros V. specialize (A st). cbn [spec_store].
  destruct (update st) as [[[]|e| |] st'] eqn:U; cbn [snd] in A |- *.
  - destruct (next_frame st st' V A) as [V' G].
    apply (write_cell st (next_generation st') tt (λ _, SoDone)); [done|done|]. cbn. by rewrite U.
  - apply (fail_cell st st (SoTransaction update) e (λ _ : unit, SoDone)). cbn. by rewrite U.
  - intros d T R p. cbn. split; [done|]. split; [done|]. unfold cell. cbn. rewrite U. left. split; [done|]. by apply ready_holds.
  - intros d T R p. cbn. split; [done|]. split; [done|]. unfold cell. cbn. rewrite U. left. split; [done|]. by apply ready_holds.
Qed.

Lemma replace_safe g replacement st :
  safe (either st (spec_store (SoReplace g replacement) st).2) (λ m, holds m st)
    (run_store (SoReplace g replacement)) (cell (SoReplace g replacement) st).
Proof using sjl names.
  cbn [run_store]. unfold replace_if_generation.
  eapply (after_load _ _ _ _ (λ _, SoDone)); [by apply (λ m, holds_proper m st)|].
  intros (V & R & L). unfold spec_store at 1. destruct (negb (cr_generation st =? g)%N) eqn:E1.
  { apply (fail_cell st st _ _ (λ _ : unit, SoDone)). cbn. by rewrite E1. }
  destruct (bool_decide _ || _) eqn:E2.
  { apply (fail_cell st st _ _ (λ _ : unit, SoDone)). cbn. by rewrite E1, E2. }
  apply orb_false_iff in E2 as [F1%bool_decide_eq_false F2%negb_false_iff%N.eqb_eq].
  pose proof (bump_generation _ L) as [B1 B2].
  intros d T RR p. pose proof (write_cell st
    (with_generation (u64_saturating_add (cr_generation st) 1) replacement) tt (λ _, SoDone)
    (SoReplace g replacement)) as W.
  assert (proper_state (with_generation (u64_saturating_add (cr_generation st) 1) replacement)) as V'.
  { split; [done|]. split; [|done]. cbn. by destruct (decide (cr_root_id replacement = root)). }
  specialize (W V' B1). cbn in W. rewrite E1 in W.
  rewrite bool_decide_eq_false_2 in W by done. rewrite F2, N.eqb_refl in W.
  specialize (W eq_refl d T RR p). unfold st_bind in *.
  destruct (write_unlocked store _ d) as [[[]|e| |] d']; exact W.
Qed.

Lemma flag_safe op st (stays : bool) (st' : CloudRootPersistentState)
    (k : CloudRootPersistentState → ST Disk CloudProviderError bool) :
  run_store op = (let* b := (let* s := load_unlocked store in k s) in st_ret (SoFlag b)) →
  k st = (if stays then st_ret false else do* write_unlocked store st'; st_ret true) →
  spec_store op st = (if stays then (Ok (SoFlag false), st) else (Ok (SoFlag true), st')) →
  (proper_state st → proper_state st' ∧ (cr_generation st ≤ cr_generation st')%N) →
  safe (either st (spec_store op st).2) (λ m, holds m st) (run_store op) (cell op st).
Proof using sjl names.
  intros -> K S F. apply after_load; [by apply (λ m, holds_proper m st)|]. intros V. rewrite K.
  destruct (F V) as [V' G]. destruct stays; rewrite S; cbn [snd].
  - by apply (read_cell st st op false).
  - by apply (write_cell st st' true).
Qed.

Lemma run_store_safe op st :
  op_allowed op →
  safe (either st (spec_store op st).2) (λ m, holds m st) (run_store op) (cell op st).
Proof using sjl names.
  intros A. destruct op as [|update|g replacement| |].
  - intros d T R p. destruct (load_unlocked_safe st st d T R p) as (T' & R' & X). cbn [run_store spec_store snd].
    unfold st_bind. destruct (load_unlocked store d) as [r d']. cbn [fst snd] in *.
    destruct X as [[-> X]|(e & -> & X)]; (split; [done|]); (split; [done|]).
    + left. split; [done|]. by apply ready_holds.
    + right. eauto.
  - by apply transaction_safe.
  - apply replace_safe.
  - eapply (flag_safe _ _ (negb (has_operation_in_progress st))); [reflexivity|reflexivity|reflexivity|].
    intros V. by apply next_frame.
  - eapply (flag_safe _ _ (cr_reconciliation_in_progress st)); [reflexivity|reflexivity|reflexivity|].
    intros V. by apply next_frame.
Qed.

(** What the next start finds in a directory: [load] and the read-only [inspect] agree. *)
Definition start (m : gmap string bytes) (ids : list Uuid) : Disk := mkDisk m [] [] ids [].
Definition recovers (m : gmap string bytes) (st : CloudRootPersistentState) : Prop :=
  ∀ ids, (load_unlocked store (start m ids)).1 = Ok st
    ∧ match (inspect store (start m ids)).1 with
      | Ok (Some i) => di_value i = st
      | Ok None => st = CloudRootPersistentState_empty root
      | _ => False
      end.

Lemma exists_at {E} name m ids :
  dk_exists (E := E) name (start m ids) = (Ok (bool_decide (is_Some (m !! name))), start m ids).
Proof. done. Qed.
Lemma read_at {E} name m ids :
  dk_read (E := E) name (start m ids)
    = (Ok (match m !! name with Some b => inr b | None => inl missing_file end), start m ids).
Proof. unfold dk_read, reading. cbn. by destruct (m !! name). Qed.
Lemma try_envelope_at name m ids :
  try_envelope store name (start m ids) = (Ok (seen m name), start m ids).
Proof using sjl.
  unfold try_envelope, read_envelope, st_bind, st_try. rewrite exists_at. unfold seen.
  destruct (m !! name) as [b|] eqn:B.
  - rewrite bool_decide_eq_true_2 by eauto. cbn [negb]. rewrite read_at, B. cbn [st_lift].
    pose proof (parse_settles b) as F. unfold st_lift. by destruct (parse b).
  - rewrite bool_decide_eq_false_2; [done|]. by intros [].
Qed.
Lemma inspect_one_at name source m ids :
  inspect_one store name source (start m ids)
    = (Ok ((λ st, mkDurableInspection st source (cr_generation st)) <$> seen m name), start m ids).
Proof.
  unfold inspect_one, st_bind. rewrite read_at. unfold seen, st_ret.
  destruct (m !! name) as [b|]; [|done]. by destruct (parse b).
Qed.
Lemma quarantine_at m ids : (quarantine_corrupt_file path (start m ids)).1 = Ok tt.
Proof.
  unfold quarantine_corrupt_file, st_bind. rewrite exists_at.
  destruct (m !! path) as [b|] eqn:B.
  - rewrite bool_decide_eq_true_2 by eauto. cbn. unfold st_map_err, dk_rename, change, start, carry_out. cbn.
    rewrite B. cbn. unfold attempt, st_bind, st_try, dk_remove, change, carry_out. cbn.
    rewrite lookup_insert_eq. done.
  - rewrite bool_decide_eq_false_2; [done|]. by intros [].
Qed.

Lemma load_at m ids st : holds m st → (load_unlocked store (start m ids)).1 = Ok st.
Proof using sjl.
  intros H. unfold load_unlocked, st_bind. rewrite exists_at.
  destruct (holds_cases m st H) as [[R S]|[(V & S & B)|(P & B & -> & R)]].
  - rewrite bool_decide_eq_true_2 by (unfold seen in S; by destruct (m !! path)).
    cbn [negb andb]. unfold st_ret at 1. by rewrite try_envelope_at, S.
  - pose proof (seen_backup m st V B) as SB. destruct B as (b & B & W).
    assert (X : ∀ p : bool, (if p then st_ret true else dk_exists backup) (start m ids)
      = (Ok (E := CloudProviderError) true, start m ids)).
    { intros []; [done|]. rewrite exists_at. by rewrite bool_decide_eq_true_2 by eauto. }
    rewrite X, andb_false_r, try_envelope_at, S, try_envelope_at, SB.
    pose proof (quarantine_at m ids) as Q. by destruct (quarantine_corrupt_file path (start m ids)) as [[[]| | |] ?].
  - rewrite P, bool_decide_eq_false_2 by (by intros []). rewrite exists_at.
    by rewrite B, bool_decide_eq_false_2 by (by intros []).
Qed.
Lemma inspect_at m ids :
  (inspect store (start m ids)).1 =
    (if negb (bool_decide (is_Some (m !! path))) && negb (bool_decide (is_Some (m !! backup))) then Ok None
     else match seen m path, seen m backup with
          | Some p, Some q =>
              Ok (Some (if (cr_generation p <? cr_generation q)%N
                        then mkDurableInspection q Backup (cr_generation q)
                        else mkDurableInspection p Primary (cr_generation p)))
          | Some p, None => Ok (Some (mkDurableInspection p Primary (cr_generation p)))
          | None, Some q => Ok (Some (mkDurableInspection q Backup (cr_generation q)))
          | None, None => Err (no_generation_remains store)
          end).
Proof.
  unfold inspect, st_bind. rewrite exists_at, exists_at. destruct (negb _ && _); [done|].
  rewrite inspect_one_at, inspect_one_at. by destruct (seen m path), (seen m backup).
Qed.

Lemma holds_recovers m st : holds m st → recovers m st.
Proof using sjl.
  intros H ids. split; [by apply load_at|]. rewrite inspect_at.
  destruct (holds_cases m st H) as [[R S]|[(V & S & B)|(P & B & -> & R)]].
  - assert (is_Some (m !! path)) as X by (unfold seen in S; by destruct (m !! path)).
    rewrite bool_decide_eq_true_2 by done. cbn [negb andb]. rewrite S.
    destruct R as [V [(b & P & W & O)|[[P _]|[P _]]]]; [|rewrite P in X; by destruct X..].
    unfold seen. destruct (m !! backup) as [c|] eqn:C; [|done]. destruct (parse c) as [s| | |] eqn:F; try done.
    pose proof (O c s C F). by rewrite (proj2 (N.ltb_ge _ _)).
  - rewrite S, (seen_backup m st V B). destruct B as (b & B & W).
    rewrite (bool_decide_eq_true_2 (is_Some (m !! backup))) by eauto. by rewrite andb_false_r.
  - rewrite P, B. by rewrite !bool_decide_eq_false_2 by (by intros []).
Qed.

(** Calls one after the other, each with the faults that remain: every directory that an
    interruption can leave is the state before the call or the one after it, and the call
    did its work on the cell, or reports an error of the disk and did nothing. *)
Fixpoint durable (ops : list store_op) (d : Disk) (st : CloudRootPersistentState) : Prop :=
  match ops with
  | [] => True
  | op :: ops =>
      let '(r, d') := run_store op (mkDisk (dk_files d) (dk_faults d) (dk_reads d) (dk_uuids d) []) in
      Forall (λ m, recovers m st ∨ recovers m (spec_store op st).2) (dk_trace d')
      ∧ ((r = (spec_store op st).1 ∧ recovers (dk_files d') (spec_store op st).2
          ∧ durable ops d' (spec_store op st).2)
         ∨ (∃ e, r = Err (CpIo e) ∧ recovers (dk_files d') st ∧ durable ops d' st))
  end.
End Crash.

(** C23: The state of a root survives failures and interruptions: whatever calls are made,
    whichever of their writes, copies, renames and removals fail, wholly or in part, and
    wherever the run stops, the next start loads the state before the call that was under
    way or the state after it, never a mixture and never an older one; a call that returns
    an error of the disk changed nothing, any other did what it does to a value in memory;
    and reading without repair shows the same state as loading. *)
Theorem cloud_state_crash_safe {sha : Sha256} {uuid : UuidText} {sj : StateJson} {sjl : StateJsonLaws}
    (store : CloudStateStore) (ops : list store_op) (d : Disk) (st : CloudRootPersistentState) :
  store_names store → Forall op_allowed ops → dk_reads d = [] → holds store (dk_files d) st →
  durable store ops d st.
Proof.
  intros N F. revert d st. induction F as [|op ops A F IH]; intros d st R H; [done|]. cbn [durable].
  set (d0 := mkDisk _ _ _ _ _).
  destruct (run_store_safe store N op st A d0 ltac:(constructor) R H) as (T & R' & X).
  destruct (run_store store op d0) as [r d']. cbn [fst snd] in *. split.
  { eapply list.Forall_impl; [exact T|]. intros m [|]; [left|right]; by apply holds_recovers. }
  destruct X as [[-> X]|(e & -> & X)]; [left|right; exists e]; eauto 6 using holds_recovers.
Qed.

(** ** What the transactions do *)

Section Items.
Context {sha : Sha256} {uuid : UuidText}.
Implicit Types st : CloudRootPersistentState.

Lemma upsert_frame fresh entry keep st :
  same_frame (upsert_inventory_entry_with_policy fresh entry keep st).2 st.
Proof.
  unfold upsert_inventory_entry_with_policy. case_decide; [done|].
  destruct (entry_object_id _ _ _) as [[id dirs]| | |]; try done.
  destruct (cr_items st !! id) as [it|]; [|done]. by case_decide.
Qed.

(** Every item is filed under its object, belongs to the root, and has a path with
    slashes. *)
Definition items_filed st : Prop :=
  ∀ k it, cr_items st !! k = Some it →
    co_object_id (ci_identity it) = k ∧ co_root_id (ci_identity it) = cr_root_id st
    ∧ avoids backslash (ci_relative_path it) = true.

(** An inventory of the encrypted folder never overwrites what was changed locally: an
    entry is filed under its object and kind, and of an item with local changes the path,
    the version it was read at and the mark of being changed stay as they are; of any other
    item they are those of the entry; no other item changes. *)
Theorem upsert_keeps_local_edits fresh entry st st' id :
  items_filed st →
  upsert_inventory_entry fresh entry st = (Ok id, st') →
  items_filed st' ∧ co_kind id = pe_kind entry
  ∧ (∃ it, cr_items st' !! co_object_id id = Some it ∧ ci_identity it = id
     ∧ match cr_items st !! co_object_id id with
       | Some old =>
           co_kind (ci_identity old) = pe_kind entry
           ∧ if ci_dirty old then ci_relative_path it = ci_relative_path old
                ∧ ci_content_version it = ci_content_version old ∧ ci_dirty it = true
              else ci_relative_path it = replace_char backslash slash (pe_relative_path entry)
                ∧ ci_content_version it = content_version entry ∧ ci_dirty it = false
       | None => ci_relative_path it = replace_char backslash slash (pe_relative_path entry)
           ∧ ci_content_version it = content_version entry ∧ ci_dirty it = false
       end)
  ∧ (∀ k, k ≠ co_object_id id → cr_items st' !! k = cr_items st !! k).
Proof.
  intros F H. unfold upsert_inventory_entry, upsert_inventory_entry_with_policy in H. case_decide; [done|].
  destruct (entry_object_id _ _ _) as [[oid dirs]| | |]; try done.
  assert (C : match cr_items st !! oid with Some old => co_kind (ci_identity old) = pe_kind entry | None => True end).
  { destruct (cr_items st !! oid) as [it|]; [|done]. by case_decide. }
  assert (E : match match cr_items st !! oid with
     | Some existing => if decide (co_kind (ci_identity existing) ≠ pe_kind entry) then Some existing else None
     | None => None end with Some _ => False | None => True end).
  { destruct (cr_items st !! oid); [|done]. by case_decide. }
  destruct (match cr_items st !! oid with Some _ => _ | None => _ end) as [ex|]; [done|]. cbn [andb] in H.
  injection H as <- <-. cbn [CloudObjectIdentityV2_new co_object_id co_kind cr_items with_items].
  split; [|split; [done|split]].
  - intros k it L. cbn in L. destruct (decide (k = oid)) as [->|N].
    + rewrite lookup_insert_eq in L. injection L as <-. cbn. split; [done|]. split; [done|].
      by apply replace_char_avoids.
    + rewrite lookup_insert_ne in L by done. by apply F.
  - eexists. rewrite lookup_insert_eq. split; [done|]. split; [done|]. cbn.
    destruct (cr_items st !! oid) as [old|] eqn:O; cbn; [|done]. split; [done|].
    destruct (ci_dirty old); cbn; [|done]. split; [|done]. apply replace_char_id.
    by destruct (F oid old O) as (_ & _ & ?).
  - intros k N. by rewrite lookup_insert_ne.
Qed.

(** ** Moving a directory *)

Lemma relocate_Some old new p q :
  relocate old new p = Some q ↔ ∃ suf, p = old +:+ suf ∧ q = new +:+ suf
    ∧ (suf = EmptyString ∨ starts_with_char slash suf = true).
Proof.
  unfold relocate. split.
  - case_decide as D; [|done]. intros [= <-]. destruct D as [->|[r R]].
    + exists EmptyString. assert (strip_prefix old old = Some EmptyString) as ->.
      { apply strip_prefix_Some. by rewrite string_app_nil_r. }
      cbn. rewrite !string_app_nil_r. auto.
    + apply strip_prefix_Some in R. rewrite string_app_assoc in R. subst p. rewrite strip_prefix_app.
      exists ("/" +:+ r). split; [done|]. split; [done|]. by right.
  - intros (suf & -> & -> & S). rewrite decide_True; [by rewrite strip_prefix_app|].
    destruct S as [->|S]; [left; apply string_app_nil_r|right].
    destruct suf as [|a suf]; [done|]. cbn in S. unfold is_char in S. apply bool_decide_eq_true in S as ->.
    exists suf. apply strip_prefix_Some. by rewrite string_app_assoc.
Qed.
Lemma relocate_sym old new p q : relocate old new p = Some q → relocate new old q = Some p.
Proof. rewrite !relocate_Some. intros (s & -> & -> & S). eauto. Qed.
Lemma relocate_inj old new p p' q :
  relocate old new p = Some q → relocate old new p' = Some q → p = p'.
Proof. intros H%relocate_sym H'%relocate_sym. congruence. Qed.

Lemma foldl_delete {A B C} `{Countable A} (f : C → A) (l : list C) (m : gmap A B) k :
  foldl (λ m c, delete (f c) m) m l !! k = if decide (k ∈ f <$> l) then None else m !! k.
Proof.
  revert m. induction l as [|c l IH]; intros m; cbn [foldl fmap list_fmap].
  { rewrite decide_False; [done|]. apply not_elem_of_nil. }
  rewrite IH. destruct (decide (k ∈ f <$> l)) as [I|I].
  - rewrite decide_True; [done|]. by right.
  - destruct (decide (k = f c)) as [->|N].
    + rewrite lookup_delete_eq. rewrite decide_True; [done|]. by left.
    + rewrite lookup_delete_ne by done. rewrite decide_False; [done|].
      by intros [->|?]%elem_of_cons.
Qed.
Lemma foldl_insert {A B C} `{Countable A} (f : C → A) (g : C → B) (l : list C) (m : gmap A B) k :
  foldl (λ m c, <[f c := g c]> m) m l !! k
    = match find (λ c, bool_decide (f c = k)) (reverse l) with Some c => Some (g c) | None => m !! k end.
Proof.
  revert m. induction l as [|c l IH] using rev_ind; intros m; [done|].
  rewrite foldl_app, reverse_app. cbn. destruct (decide (f c = k)) as [->|N].
  - rewrite bool_decide_eq_true_2 by done. by rewrite lookup_insert_eq.
  - rewrite bool_decide_eq_false_2 by done. rewrite lookup_insert_ne by done. apply IH.
Qed.

(** Nothing is at this path or below it. *)
Definition nothing_under (p : string) st : Prop :=
  (∀ q id, cr_directory_ids st !! q = Some id → relocate p p q = None)
  ∧ (∀ k it, cr_items st !! k = Some it → relocate p p (ci_relative_path it) = None).

Lemma relocate_None old new new' p : relocate old new p = None → relocate old new' p = None.
Proof. unfold relocate. by case_decide. Qed.

(** The moves of [migrate_directory_path], and the ids after them. *)
Definition dir_moves (o n : string) (dirs : gmap string Uuid) : list (string * string * Uuid) :=
  omap (λ kv, (λ new, (kv.1, new, kv.2)) <$> relocate o n kv.1) (map_to_list dirs).
Definition moved_dirs (o n : string) (dirs : gmap string Uuid) : gmap string Uuid :=
  foldl (λ m mv, <[mv.1.2 := mv.2]> m) (foldl (λ m mv, delete mv.1.1 m) dirs (dir_moves o n dirs))
    (dir_moves o n dirs).

Lemma elem_of_moves o n dirs p q id :
  (p, q, id) ∈ dir_moves o n dirs ↔ dirs !! p = Some id ∧ relocate o n p = Some q.
Proof.
  unfold dir_moves. rewrite list_elem_of_omap. split.
  - intros ([p' id'] & I & E). apply elem_of_map_to_list in I. cbn in E.
    destruct (relocate o n p') eqn:R; cbn in E; [|done]. by injection E as -> -> ->.
  - intros [D R]. exists (p, id). split; [by apply elem_of_map_to_list|]. cbn. by rewrite R.
Qed.

Lemma moved_dirs_lookup o n dirs q :
  (∀ p id, dirs !! p = Some id → relocate n o p = None) →
  moved_dirs o n dirs !! q =
    match relocate n o q with
    | Some p => dirs !! p
    | None => match relocate o n q with Some _ => None | None => dirs !! q end
    end.
Proof.
  intros C. unfold moved_dirs. rewrite foldl_insert.
  destruct (find _ _) as [[[p q'] id]|] eqn:F.
  - apply find_some in F as [I E%bool_decide_eq_true]. cbn in E. subst q'.
    apply list_elem_of_In, elem_of_reverse, elem_of_moves in I as [D R]. cbn.
    by rewrite (relocate_sym _ _ _ _ R), D.
  - assert (N : ∀ p, relocate o n p = Some q → dirs !! p = None).
    { intros p R. destruct (dirs !! p) as [id|] eqn:D; [|done].
      assert (I : In (p, q, id) (reverse (dir_moves o n dirs))).
      { apply list_elem_of_In, elem_of_reverse, elem_of_moves. done. }
      pose proof (find_none _ _ F _ I) as X. cbn in X. by rewrite bool_decide_eq_true_2 in X. }
    rewrite foldl_delete. case_decide as I.
    + apply list_elem_of_fmap in I as ([[p r] id] & -> & I%elem_of_moves). destruct I as [D R]. cbn.
      destruct (relocate n o p) eqn:R'; [by rewrite (C p id D) in R'|]. by rewrite R.
    + destruct (relocate n o q) as [p|] eqn:R.
      * rewrite (N p (relocate_sym _ _ _ _ R)). destruct (dirs !! q) eqn:D; [|done].
        by rewrite (C _ _ D) in R.
      * destruct (relocate o n q) as [r|] eqn:R'; [|done]. destruct (dirs !! q) as [id|] eqn:D; [|done].
        destruct I. apply list_elem_of_fmap. exists (q, r, id). split; [done|]. by apply elem_of_moves.
Qed.

(** Neither path is the other one or below it. *)
Definition apart (o n : string) : Prop := relocate o o n = None ∧ relocate n n o = None.

Lemma string_levi (o n s t : string) :
  o +:+ s = n +:+ t → (∃ u, n = o +:+ u ∧ s = u +:+ t) ∨ (∃ u, o = n +:+ u ∧ t = u +:+ s).
Proof.
  revert n. induction o as [|a o IH]; intros n E; [left; by exists n|].
  destruct n as [|b n]; [right; by exists (String a o)|].
  rewrite !string_app_cons in E. injection E as -> E.
  destruct (IH n E) as [(u & -> & ->)|(u & -> & ->)]; [left|right]; exists u; by rewrite string_app_cons.
Qed.
(** A part of what follows a directory that is one, too. *)
Definition tail_of (s : string) : Prop := s = EmptyString ∨ starts_with_char slash s = true.
Lemma tail_of_app u t : tail_of (u +:+ t) → tail_of u.
Proof.
  destruct u as [|a u]; [by left|]. rewrite string_app_cons. intros [|H]; [done|]. by right.
Qed.
Lemma relocate_self o u : tail_of u → relocate o o (o +:+ u) = Some (o +:+ u).
Proof. intros T. apply relocate_Some. eauto. Qed.

Lemma apart_under o n p : apart o n → is_Some (relocate o o p) → relocate n n p = None.
Proof.
  intros [A1 A2] [q Q]. destruct (relocate n n p) as [r|] eqn:R; [|done]. exfalso.
  apply relocate_Some in Q as (s & -> & _ & S). apply relocate_Some in R as (t & E & _ & T).
  destruct (string_levi _ _ _ _ E) as [(u & -> & ->)|(u & -> & ->)].
  - by rewrite (relocate_self o u (tail_of_app u t S)) in A1.
  - by rewrite (relocate_self n u (tail_of_app u s T)) in A2.
Qed.
Lemma apart_sym o n : apart o n → apart n o.
Proof. by intros []. Qed.
Lemma relocate_under o n p q : relocate o n p = Some q → is_Some (relocate o o p) ∧ is_Some (relocate n n q).
Proof. rewrite relocate_Some. intros (s & -> & -> & S). by rewrite !relocate_self by done. Qed.

Lemma moved_dirs_back o n dirs :
  apart o n → (∀ p id, dirs !! p = Some id → relocate n n p = None) →
  (∀ p id, moved_dirs o n dirs !! p = Some id → relocate o o p = None)
  ∧ moved_dirs n o (moved_dirs o n dirs) = dirs.
Proof.
  intros A C.
  assert (C' : ∀ p id, dirs !! p = Some id → relocate n o p = None).
  { intros p id D. eapply relocate_None, C, D. }
  assert (B : ∀ p id, moved_dirs o n dirs !! p = Some id → relocate o o p = None).
  { intros p id. rewrite moved_dirs_lookup by done. destruct (relocate n o p) as [q|] eqn:R.
    - intros _. apply relocate_under in R as [U _]. apply (apart_under n o); [by apply apart_sym|done].
    - destruct (relocate o n p) eqn:R'; [done|]. intros _. eapply relocate_None, R'. }
  split; [done|]. apply map_eq. intros p.
  rewrite moved_dirs_lookup by (intros q id D; eapply relocate_None, B, D).
  destruct (relocate o n p) as [q|] eqn:R.
  - rewrite (moved_dirs_lookup o n) by done. by rewrite (relocate_sym _ _ _ _ R).
  - destruct (relocate n o p) as [q|] eqn:R'; [|rewrite (moved_dirs_lookup o n) by done; by rewrite R', R].
    destruct (dirs !! p) eqn:D; [|done]. by rewrite (C' _ _ D) in R'.
Qed.

Lemma move_item_back o n it :
  relocate n n (ci_relative_path it) = None → move_item n o (move_item o n it) = it.
Proof.
  intros C. destruct it as [id p v d]. unfold move_item. cbn in *.
  destruct (relocate o n p) as [q|] eqn:R; cbn.
  - by rewrite (relocate_sym _ _ _ _ R).
  - by rewrite (relocate_None _ _ o _ C).
Qed.

Lemma any_item_true f items : any_item f items = true ↔ ∃ k it, items !! k = Some it ∧ f it = true.
Proof.
  unfold any_item. rewrite existsb_exists. split.
  - intros ([k it] & I & F). apply list_elem_of_In, elem_of_map_to_list in I. eauto.
  - intros (k & it & I & F). exists (k, it). split; [|done]. by apply list_elem_of_In, elem_of_map_to_list.
Qed.

(** What was found to move is found again at the new place. *)
Lemma source_stays o n st :
  (∀ p id, cr_directory_ids st !! p = Some id → relocate n n p = None) →
  bool_decide (dir_moves o n (cr_directory_ids st) = []) && negb (any_item (directory_at o) (cr_items st)) = false →
  bool_decide (dir_moves n o (moved_dirs o n (cr_directory_ids st)) = [])
    && negb (any_item (directory_at n) (move_item o n <$> cr_items st)) = false.
Proof.
  intros ND. rewrite !andb_false_iff, !negb_false_iff, !bool_decide_eq_false, !any_item_true.
  intros [M|(k & it & I & D)].
  - left. destruct (dir_moves o n (cr_directory_ids st)) as [|[[p q] id] l] eqn:E; [done|].
    assert (In_ : (p, q, id) ∈ dir_moves o n (cr_directory_ids st)) by (rewrite E; by left).
    apply elem_of_moves in In_ as [P R]. intros N.
    assert (X : (q, p, id) ∈ dir_moves n o (moved_dirs o n (cr_directory_ids st))).
    { apply elem_of_moves. split; [|by apply relocate_sym].
      rewrite moved_dirs_lookup by (intros; eapply relocate_None, ND; done).
      by rewrite (relocate_sym _ _ _ _ R). }
    rewrite N in X. by apply not_elem_of_nil in X.
  - right. exists k, (move_item o n it). rewrite lookup_fmap, I. split; [done|].
    apply andb_prop in D as [D1 D2%bool_decide_eq_true]. unfold directory_at, move_item. cbn.
    rewrite D1, D2. cbn. rewrite bool_decide_eq_true_2; [done|].
    assert (relocate o n o = Some n) as ->; [|done].
    apply relocate_Some. exists EmptyString. rewrite !string_app_nil_r. auto.
Qed.

(** Moving a directory is undone by moving it back: when the two paths are apart and
    nothing is at the new one or below it, the second move succeeds and restores every item
    and every directory identifier. *)
Theorem migrate_directory_roundtrip old new st st' :
  clean_path old = old → clean_path new = new → apart old new → nothing_under new st →
  migrate_directory_path old new st = Ok st' → migrate_directory_path new old st' = Ok st.
Proof.
  intros CO CN A [ND NI] H. unfold migrate_directory_path in *. rewrite CO, CN in *.
  destruct (bool_decide (old = EmptyString)) eqn:E1; [done|]. destruct (bool_decide (new = EmptyString)) eqn:E2; [done|].
  cbn [orb] in *. destruct (bool_decide (is_Some (cr_directory_ids st !! new)) || _); [done|].
  fold (dir_moves old new (cr_directory_ids st)) in H. destruct (_ && _) eqn:S; [done|].
  fold (moved_dirs old new (cr_directory_ids st)) in H. apply Ok_inj in H as <-. cbn.
  destruct (moved_dirs_back old new _ A ND) as [B1 B2].
  assert (O : relocate old old old = Some old).
  { rewrite <-(string_app_nil_r old) at 3 4. apply relocate_self. by left. }
  assert (T1 : bool_decide (is_Some (moved_dirs old new (cr_directory_ids st) !! old)) = false).
  { apply bool_decide_eq_false. intros [id I]. by rewrite (B1 _ _ I) in O. }
  assert (T2 : any_item (directory_at old) (move_item old new <$> cr_items st) = false).
  { apply not_true_iff_false. rewrite any_item_true. intros (k & it & I & D).
    rewrite lookup_fmap in I. apply fmap_Some in I as (it0 & I & ->).
    apply andb_prop in D as [_ D%bool_decide_eq_true]. cbn in D.
    destruct (relocate old new (ci_relative_path it0)) as [q|] eqn:R; cbn in D.
    - subst q. apply relocate_under in R as [_ U]. destruct A as [_ A]. rewrite A in U. by destruct U.
    - rewrite D in R. by rewrite (relocate_None _ _ old _ R) in O. }
  rewrite T1, T2. cbn [orb]. fold (dir_moves new old (moved_dirs old new (cr_directory_ids st))).
  rewrite (source_stays old new st ND S).
  fold (moved_dirs new old (moved_dirs old new (cr_directory_ids st))). rewrite B2.
  assert (I : move_item new old <$> (move_item old new <$> cr_items st) = cr_items st).
  { apply map_eq. intros k. rewrite !lookup_fmap. destruct (cr_items st !! k) as [it|] eqn:K; [|done].
    cbn. f_equal. apply move_item_back. by eapply NI. }
  rewrite I. by destruct st.
Qed.
End Items.

(** ** Versions *)

Lemma le4_app_inj m n (r s : bytes) :
  (m < 2 ^ 32)%N → (n < 2 ^ 32)%N → le_bytes 4 m ++ r = le_bytes 4 n ++ s → m = n ∧ r = s.
Proof.
  intros Hm Hn E. apply app_split_eq in E as [E ->]; [|by rewrite !le_bytes_length].
  split; [|done]. assert (P : (2 ^ 32 = 256 ^ N.of_nat 4)%N) by reflexivity. rewrite P in *.
  by apply le_bytes_inj in E.
Qed.
Definition sizeable (b : bytes) : bool := (N.of_nat (length b) <? U64)%N.
Lemma sized_app_inj (a b r s : bytes) :
  sizeable a = true → sizeable b = true → sized a ++ r = sized b ++ s → a = b ∧ r = s.
Proof.
  intros A%N.ltb_lt B%N.ltb_lt E. unfold sized in E. rewrite <-!app_assoc in E.
  apply le8_app_inj in E as [L E]; [|done..]. apply app_split_eq in E; [done|lia].
Qed.

(** The fields fit their widths. *)
Definition version_fields_in_range (m : EncryptedFileMetadata) : bool :=
  sizeable (bytes_of (ef_file_id m)) && (ef_epoch_id m <? U64)%N
  && (default 0%N (ef_header_version m) <? 2 ^ 32)%N && (ef_content_size m <? U64)%N
  && (ef_encrypted_size m <? U64)%N && sizeable (default [] (ef_content_nonce m))
  && sizeable (default [] (ef_key_wrap_aad_hash m)).
Definition metadata_msg (m : EncryptedFileMetadata) : bytes :=
  version_msg (ef_file_id m) (ef_group_id m) (ef_epoch_id m) (ef_header_version m) (ef_content_size m)
    (ef_encrypted_size m) (ef_content_nonce m) (ef_key_wrap_aad_hash m).

Lemma metadata_msg_inj m n :
  version_fields_in_range m = true → version_fields_in_range n = true → metadata_msg m = metadata_msg n →
  ef_file_id m = ef_file_id n ∧ ef_group_id m = ef_group_id n ∧ ef_epoch_id m = ef_epoch_id n
  ∧ default 0%N (ef_header_version m) = default 0%N (ef_header_version n)
  ∧ ef_content_size m = ef_content_size n ∧ ef_encrypted_size m = ef_encrypted_size n
  ∧ default [] (ef_content_nonce m) = default [] (ef_content_nonce n)
  ∧ default [] (ef_key_wrap_aad_hash m) = default [] (ef_key_wrap_aad_hash n).
Proof.
  unfold version_fields_in_range. rewrite !andb_true_iff, !N.ltb_lt.
  intros ((((((A1 & A2) & A3) & A4) & A5) & A6) & A7) ((((((B1 & B2) & B3) & B4) & B5) & B6) & B7) E.
  unfold metadata_msg, version_msg in E.
  apply sized_app_inj in E as [I E]; [|done..]. apply bytes_of_inj in I.
  apply le8_app_inj in E as [I2 E]; [|done..]. apply le4_app_inj in E as [I3 E]; [|done..].
  apply le8_app_inj in E as [I4 E]; [|done..]. apply le8_app_inj in E as [I5 E]; [|done..].
  apply sized_app_inj in E as [I6 E]; [|done..]. apply sized_app_inj in E as [I7 E]; [|done..].
  repeat (split; [done|]).
  assert (G : ef_group_id m = ef_group_id n); [|by rewrite G].
  assert (Z : ∀ g : Uuid, sized (arr g) ≠ sized []).
  { intros g X. apply (f_equal length) in X. unfold sized in X.
    rewrite !length_app, !le_bytes_length, arr_length in X. done. }
  destruct (ef_group_id m) as [g|], (ef_group_id n) as [h|]; [|by apply Z in E|by symmetry in E; apply Z in E|done].
  f_equal. apply arr_inj. rewrite <-(app_nil_r (sized (arr g))), <-(app_nil_r (sized (arr h))) in E.
  apply sized_app_inj in E as [E _]; [done|..]; unfold sizeable; rewrite arr_length; reflexivity.
Qed.

(** Two files with the same content version are the same object with the same key epoch,
    group, format, sizes, nonce and key binding. *)
Theorem content_version_binds {sha : Sha256} (m n : EncryptedFileMetadata) :
  version_fields_in_range m = true → version_fields_in_range n = true →
  collision_free [metadata_msg m; metadata_msg n] →
  ProviderContentVersion_from_metadata m = ProviderContentVersion_from_metadata n →
  ef_file_id m = ef_file_id n ∧ ef_group_id m = ef_group_id n ∧ ef_epoch_id m = ef_epoch_id n
  ∧ default 0%N (ef_header_version m) = default 0%N (ef_header_version n)
  ∧ ef_content_size m = ef_content_size n ∧ ef_encrypted_size m = ef_encrypted_size n
  ∧ default [] (ef_content_nonce m) = default [] (ef_content_nonce n)
  ∧ default [] (ef_key_wrap_aad_hash m) = default [] (ef_key_wrap_aad_hash n).
Proof.
  intros R S C E. apply metadata_msg_inj; [done|done|]. injection E as E. apply (inj hex_enc), arr_inj in E.
  apply (collision_free_eq _ _ _ C); [by left|by right; left|done].
Qed.

(** ** What a failing read does *)

Section ReadFaults.
Context {sha : Sha256} {uuid : UuidText} {sj : StateJson} {sjl : StateJsonLaws}.
Variable store : CloudStateStore.
Hypothesis names : store_names store.

(** The first file holds the last state and cannot be read this once: the load returns the
    state of the second file, and removes the first. *)
Lemma failed_read_rolls_back (m : gmap string bytes) (st prev : CloudRootPersistentState) (b c : bytes)
    (e : IoError) (ids : list Uuid) :
  m !! cs_path store = Some b → parse_envelope b (cs_root_id store) = Ok st →
  m !! cs_backup_path store = Some c → parse_envelope c (cs_root_id store) = Ok prev →
  let '(r, d) := load_unlocked store (mkDisk m [] [None; None; Some e] ids []) in
  r = Ok prev ∧ dk_files d !! cs_path store = None.
Proof using names.
  intros B _ C P. unfold load_unlocked, try_envelope, read_envelope, quarantine_corrupt_file, st_bind, st_try,
    dk_exists, dk_read, reading. cbn. rewrite B. cbn. rewrite B. cbn. rewrite C. cbn. rewrite C. cbn.
    rewrite P. cbn. rewrite B. cbn.
  unfold st_map_err, dk_rename, change, carry_out. cbn. rewrite B. cbn.
  unfold attempt, st_bind, st_try, dk_remove, change, carry_out. cbn. rewrite lookup_insert_eq. cbn.
  split; [done|].
  destruct (proj2 (proj2 (name_facts store names)) (default (zeros 16) (head ids))) as [N _].
  rewrite lookup_delete_ne by done. rewrite lookup_insert_ne by done. apply lookup_delete_eq.
Qed.

(** Neither file can be asked for: the load returns an empty state, which the next
    transaction writes over the state. *)
Lemma blind_load_is_empty (m : gmap string bytes) (e1 e2 : IoError) (ids : list Uuid) :
  (load_unlocked store (mkDisk m [] [Some e1; Some e2] ids [])).1
    = Ok (CloudRootPersistentState_empty (cs_root_id store)).
Proof. done. Qed.
End ReadFaults.

(** ** Concrete stores *)

Definition state_code (st : CloudRootPersistentState) :=
  (cr_version st, cr_root_id st, cr_generation st, cr_items st, cr_directory_ids st, cr_conflicts st,
   cr_ingestion_in_progress st, cr_reconciliation_in_progress st).

#[export] Instance ProviderEntryKind_countable : Countable ProviderEntryKind.
Proof.
  refine (inj_countable' (λ k, match k with PkDirectory => false | PkFile => true end)
    (λ b : bool, if b then PkFile else PkDirectory) _). by intros [].
Defined.
#[export] Instance ProviderContentVersion_countable : Countable ProviderContentVersion.
Proof. refine (inj_countable' pv_text mkProviderContentVersion _). by intros []. Defined.
#[export] Instance CloudObjectIdentityV2_countable : Countable CloudObjectIdentityV2.
Proof.
  refine (inj_countable' (λ i, (co_version i, co_root_id i, co_kind i, co_object_id i))
    (λ '(a, b, c, d), mkCloudObjectIdentityV2 a b c d) _). by intros [].
Defined.
#[export] Instance CloudItemState_countable : Countable CloudItemState.
Proof.
  refine (inj_countable' (λ i, (ci_identity i, ci_relative_path i, ci_content_version i, ci_dirty i))
    (λ '(a, b, c, d), mkCloudItemState a b c d) _). by intros [].
Defined.
#[export] Instance CloudConflictRecord_countable : Countable CloudConflictRecord.
Proof.
  refine (inj_countable' (λ i, (cc_id i, cc_object_id i, cc_relative_path i, cc_expected_version i,
      cc_actual_version i, cc_local_plaintext_path i, cc_created_at i))
    (λ '(a, b, c, d, e, f, g), mkCloudConflictRecord a b c d e f g) _). by intros [].
Defined.
#[export] Instance CloudRootPersistentState_eq_dec : EqDecision CloudRootPersistentState.
Proof. solve_decision. Defined.
#[export] Instance CloudRootPersistentState_countable : Countable CloudRootPersistentState.
Proof.
  refine (inj_countable' state_code
    (λ '(a, b, c, d, e, f, g, h), mkCloudRootPersistentState a b c d e f g h) _). by intros [].
Defined.
#[export] Instance StateEnvelope_eq_dec : EqDecision StateEnvelope.
Proof. solve_decision. Defined.
#[export] Instance StateEnvelope_countable : Countable StateEnvelope.
Proof.
  refine (inj_countable' (λ e, (se_schema_version e, se_generation e, se_checksum_hex e, se_state e))
    (λ '(a, b, c, d), mkStateEnvelope a b c d) _). by intros [].
Defined.

Definition toy_state_json : StateJson := {|
  state_to_vec st := Ok (ser_pos (encode st));
  envelope_to_vec_pretty e := Ok (ser_pos (encode e));
  envelope_from_slice b :=
    match de_pos b with
    | Some (p, []) => match decode p with Some e => Ok e | None => Err "expected value"%string end
    | _ => Err "expected value"%string
    end;
|}.
Lemma de_pos_part p n : n < length (ser_pos p) → de_pos (take n (ser_pos p)) = None.
Proof.
  revert n. induction p as [p IH|p IH|]; intros [|n] L; cbn in *; try done; try lia;
    by rewrite IH by lia.
Qed.
Lemma toy_state_json_laws : @StateJsonLaws toy_state_json.
Proof.
  constructor.
  - intros st. by eexists.
  - intros e. by eexists.
  - intros e b E. apply Ok_inj in E as <-. cbn. rewrite <-(app_nil_r (ser_pos _)), de_ser_pos.
    by rewrite decode_encode.
  - intros b. cbn. destruct (de_pos b) as [[p [|]]|]; [|done..]. by destruct (decode p).
  - intros e b n E L e'. apply Ok_inj in E as <-. cbn [envelope_from_slice toy_state_json].
    by rewrite de_pos_part.
Qed.

Section Examples.
#[local] Existing Instances toy_sha256 toy_uuid_text toy_state_json.

Definition photos_root : Uuid := zeros 16.
Definition photos_store : CloudStateStore := CloudStateStore_new "cloud_provider_state.json" photos_root.
Definition beach_entry : ProviderEntry :=
  mkProviderEntry photos_root PkFile "trip/beach.jpg" "trip/beach.jpg.encrypted"
    (FileIdentityV1_new photos_root PkFile "trip/beach.jpg" (Some "f1"%string) (Some 1%N)) None 100 128 0.
Definition add_beach : ST CloudRootPersistentState CloudProviderError unit :=
  let* _ := upsert_inventory_entry (zeros 16) beach_entry in st_ret tt.

(** A first run whose copy to the backup stops after three bytes, and a second one that
    cannot rename. *)
Definition photo_faults : list Fault :=
  replicate 20 Works ++ [Stops 3 missing_file] ++ replicate 12 Works ++ [Fails missing_file].
Definition photo_ops : list store_op :=
  [SoRequire; SoTransaction add_beach; SoTransaction add_beach; SoComplete; SoComplete; SoLoad].

Lemma cloud_state_crash_safe_witness :
  durable photos_store photo_ops (mkDisk ∅ photo_faults [] [] [])
    (CloudRootPersistentState_empty photos_root).
Proof.
  apply (cloud_state_crash_safe (sjl := toy_state_json_laws)).
  - apply (CloudStateStore_new_names "c" "loud_provider_state"). discriminate.
  - assert (A : op_allowed (SoTransaction add_beach)).
    { intros st. unfold add_beach, st_bind. pose proof (upsert_frame (zeros 16) beach_entry true st) as F.
      unfold upsert_inventory_entry. by destruct (upsert_inventory_entry_with_policy _ _ _ st) as [[] ?]. }
    repeat (apply list.Forall_cons; split; [first [exact A|exact I]|]). constructor.
  - reflexivity.
  - left. split; [by repeat split|]. right; right. by repeat split.
Defined.

Definition old_beach : CloudItemState :=
  mkCloudItemState (CloudObjectIdentityV2_new photos_root PkFile "f1") "beach.jpg" None true.
Definition edited_state : CloudRootPersistentState :=
  with_items {["f1"%string := old_beach]} {["trip"%string := zeros 16]} (CloudRootPersistentState_empty photos_root).

Lemma upsert_keeps_local_edits_witness :
  ∃ it, cr_items (upsert_inventory_entry (zeros 16) beach_entry edited_state).2 !! "f1"%string = Some it
    ∧ ci_relative_path it = "beach.jpg"%string ∧ ci_dirty it = true.
Proof.
  destruct (upsert_keeps_local_edits (zeros 16) beach_entry edited_state
    (upsert_inventory_entry (zeros 16) beach_entry edited_state).2
    (CloudObjectIdentityV2_new photos_root PkFile "f1")) as (_ & _ & (it & L & _ & H) & _).
  - intros k it L. cbn in L. apply lookup_singleton_Some in L as [<- <-]. by repeat split.
  - reflexivity.
  - exists it. split; [exact L|]. destruct H as (_ & P & _ & D). done.
Defined.

Definition trip_state : CloudRootPersistentState :=
  with_items {["f1"%string := mkCloudItemState (CloudObjectIdentityV2_new photos_root PkFile "f1")
                                "trip/beach.jpg" None false]}
    {["trip"%string := zeros 16]} (CloudRootPersistentState_empty photos_root).
Definition trip_moved : CloudRootPersistentState :=
  match migrate_directory_path "trip" "2024/trip" trip_state with Ok st => st | _ => trip_state end.

Lemma migrate_directory_roundtrip_witness :
  migrate_directory_path "2024/trip" "trip" trip_moved = Ok trip_state.
Proof.
  apply (migrate_directory_roundtrip "trip" "2024/trip" trip_state trip_moved).
  - reflexivity.
  - reflexivity.
  - split; reflexivity.
  - split; intros k v L; cbn in L; apply lookup_singleton_Some in L as [<- <-]; reflexivity.
  - vm_compute. reflexivity.
Defined.

Definition beach_metadata : EncryptedFileMetadata :=
  mkEncryptedFileMetadata "f1" "trip/beach.jpg" (Some 3%N) (Some (zeros 16)) 1 None None (Some [x01])
    (Some [x02]) None 100 128 0 None None [].
Definition renamed_metadata : EncryptedFileMetadata :=
  mkEncryptedFileMetadata "f1" "beach.jpg" (Some 3%N) (Some (zeros 16)) 1 None None (Some [x01])
    (Some [x02]) None 100 128 0 None None [].
Lemma content_version_binds_witness : ef_file_id beach_metadata = ef_file_id renamed_metadata.
Proof.
  apply (content_version_binds beach_metadata renamed_metadata); [reflexivity|reflexivity| |reflexivity].
  apply (bool_decide_unpack _). vm_compute. reflexivity.
Defined.
End Examples.
