(* ===== verification/JoinCards.v ===== *)
(** * Join cards, and the devices that vouch for them
    ([crates/messages/src/join_card.rs], [pin_attestation.rs],
    [crates/client/src/invitation.rs], and the checks of a card in
    [crates/client/src/state/client/security.rs], [welcome.rs],
    [crates/cli/src/session/mod.rs] and [commands/pin.rs])

    A device publishes a signed card with its keys.  Another device trusts the card's key
    when it is pinned (Pinning.v), or when a device of the same account that was checked
    here in person signed a statement about exactly that key.  The CBOR encoder of the
    signed structures is a class with its laws; what the server relays, the files that
    are read and the readings of the clock are arguments. *)

From Stdlib Require Import Strings.Byte Strings.Ascii.
From stdpp Require Import base tactics numbers sets list gmap strings pretty option.
From S2P Require Import Prelude StateError Crypto EpochState CutoverMessages FilePath Storage HybridKem.
From S2P Require Import Welcome GroupUpdate Json Pinning.
Open Scope hc_scope.
Open Scope hc_st_scope.

(** ** Signed structures *)

(** [serde_cbor::to_vec] on a structure: a map with the names of the fields. *)
Class CborSer (A : Type) := cbor_to_vec : A → res string bytes.
Class CborSerLaws (A : Type) `{CborSer A} : Prop := {
  cbor_to_vec_total (a : A) : ∃ b, cbor_to_vec a = Ok b;
  cbor_to_vec_inj (a a' : A) b : cbor_to_vec a = Ok b → cbor_to_vec a' = Ok b → a = a';
}.
(** Structures with different fields never have the same encoding. *)
Class CborDistinct (A B : Type) `{CborSer A, CborSer B} : Prop :=
  cbor_distinct (a : A) (b : B) x y : cbor_to_vec a = Ok x → cbor_to_vec b = Ok y → x ≠ y.

(** [SignableJoinCard] of the messages and [JoinCardSignable] of the client have the same
    fields in the same order. *)
Record SignableJoinCard := mkSignableJoinCard {
  sj_user_id : string;
  sj_device_id : string;
  sj_identity_public : bytes;
  sj_invitation_public : bytes;
  sj_expires : N;
}.
Record PinAttestationSignable := mkPinAttestationSignable {
  ps_purpose : string;
  ps_version : N;
  ps_verifier_user_id : string;
  ps_verifier_device_id : string;
  ps_subject_user_id : string;
  ps_subject_device_id : string;
  ps_subject_identity_public_key : bytes;
  ps_verified_at : Z;
}.

(** [DateTime::timestamp]: whole seconds, rounded down. *)
Definition timestamp (t : Z) : Z := (t / 10 ^ 9)%Z.

(** ** The card as it is published ([messages/src/join_card.rs]) *)

Record JoinCard := mkJoinCard {
  jc_user_id : string;
  jc_device_id : string;
  jc_identity_public : bytes;
  jc_invitation_public : bytes;
  jc_expires : N;
  jc_signature : bytes;
}.
#[export] Instance JoinCard_eq_dec : EqDecision JoinCard.
Proof. solve_decision. Defined.

Definition CLOCK_SKEW_TOLERANCE_SECS : N := 300.

Section Cards.
Context {ed : Ed25519} {cdbg : CryptoDebug} {cc : CborSer SignableJoinCard}.

Definition JoinCard_validate_expiration (now : Z) (c : JoinCard) : res MessageError unit :=
  if (now <? 0)%Z then Err (MsgTimestampError "System clock before Unix epoch")
  else
    let secs := Z.to_N (timestamp now) in
    if (jc_expires c <? secs - CLOCK_SKEW_TOLERANCE_SECS)%N then
      Err (MsgExpiredCard ("JoinCard expired at " +:+ pretty (jc_expires c) +:+ " (current time: "
                             +:+ pretty secs +:+ ")"))
    else Ok tt.

Definition JoinCard_validate (now : Z) (c : JoinCard) : res MessageError unit :=
  if is_empty_string (jc_user_id c) then Err (MsgInvalidFormat "user_id cannot be empty")
  else if is_empty_string (jc_device_id c) then Err (MsgInvalidFormat "device_id cannot be empty")
  else if bool_decide (length (jc_identity_public c) ≠ 32) then
    Err (MsgInvalidFormat "identity_public must be 32 bytes (Ed25519)")
  else if bool_decide (length (jc_invitation_public c) ≠ 32)
          && bool_decide (length (jc_invitation_public c) ≠ HYBRID_PUBLIC_KEY_LEN) then
    Err (MsgInvalidFormat ("invitation_public must be either 32 bytes (X25519) or "
           +:+ pretty (N.of_nat HYBRID_PUBLIC_KEY_LEN) +:+ " bytes (HybridKEM), got "
           +:+ pretty (N.of_nat (length (jc_invitation_public c))) +:+ " bytes"))
  else if bool_decide (length (jc_signature c) ≠ 64) then
    Err (MsgInvalidFormat "signature must be 64 bytes (Ed25519)")
  else JoinCard_validate_expiration now c.

Definition JoinCard_new (now : Z) (user_id device_id : string) (identity_public invitation_public : bytes)
    (expires : N) (signature : bytes) : res MessageError JoinCard :=
  let card := mkJoinCard user_id device_id identity_public invitation_public expires signature in
  let? _ := JoinCard_validate now card in
  Ok card.

Definition canonical_message (c : JoinCard) : res MessageError bytes :=
  map_err (λ e, MsgSerializationError ("CBOR encoding failed: " +:+ e))
    (cbor_to_vec (mkSignableJoinCard (jc_user_id c) (jc_device_id c) (jc_identity_public c)
                    (jc_invitation_public c) (jc_expires c))).

Definition JoinCard_verify_signature (c : JoinCard) : res MessageError unit :=
  let? verifying_key := map_err (λ e, MsgSignatureError ("Invalid identity key: " +:+ crypto_debug e))
                          (VerifyingKey_from_bytes (jc_identity_public c)) in
  let? signature := map_err (λ e, MsgSignatureError ("Invalid signature: " +:+ crypto_debug e))
                      (Signature_from_bytes (jc_signature c)) in
  let? message := canonical_message c in
  map_err (λ e, MsgSignatureError ("Signature verification failed: " +:+ crypto_debug e))
    (VerifyingKey_verify verifying_key message signature).

Definition JoinCard_validate_complete (now : Z) (c : JoinCard) : res MessageError unit :=
  let? _ := JoinCard_validate now c in
  JoinCard_verify_signature c.
End Cards.

(** ** The device's keys and the card it signs ([client/src/invitation.rs]) *)

(** The [ClientError]s of the functions below.  [crypto_error] carries a code, a message and
    the operation. *)
Inductive InviteError :=
| IvAuth (msg : string)
| IvInvalidInput (msg : string)
| IvSerializationError (msg : string)
| IvCryptoInvalidKey (msg operation : string)
| IvCryptoSignature (msg operation : string)
| IvCrypto (e : CryptoError)
| IvInvalidState (msg : string)
| IvSecurityViolation (msg : string)
| IvPinningRequired (msg : string)
| IvStorage (e : StorageError).
Definition InviteError_display (e : InviteError) : string :=
  match e with
  | IvAuth msg => "Authentication error: " +:+ msg
  | IvInvalidInput msg => "Invalid input: " +:+ msg
  | IvSerializationError msg => "Serialization error: " +:+ msg
  | IvCryptoInvalidKey _ _ | IvCryptoSignature _ _ => "Cryptographic operation failed"
  | IvCrypto e => "Cryptography error: " +:+ CryptoError_display e
  | IvInvalidState msg => "Invalid client state: " +:+ msg
  | IvSecurityViolation msg => "Security violation: " +:+ msg
  | IvPinningRequired msg => "Key pinning verification required: " +:+ msg
  | IvStorage e => "Storage error: " +:+ StorageError_display e
  end.

Definition JOIN_CARD_VALIDITY_DAYS : N := 30.
Definition JOIN_CARD_REFRESH_BEFORE_DAYS : N := 7.

Record InvitationKeyPair := mkInvitationKeyPair {
  ik_device_id : string;
  ik_hybrid_public_key : bytes;
  ik_hybrid_secret_key : bytes;
  ik_identity_public_key : bytes;
  ik_identity_secret_key : bytes;
  ik_created_at : Z;
  ik_expires_at : Z;
}.

(** [client::invitation::JoinCard]. *)
Record ClientJoinCard := mkClientJoinCard {
  cj_user_id : Uuid;
  cj_device_id : string;
  cj_identity_public : bytes;
  cj_invitation_public : bytes;
  cj_expires_at : Z;
  cj_signature : bytes;
}.

Section Invitation.
Context {ed : Ed25519} {x25519 : X25519} {mlkem : MlKem} {uuid : UuidText} {chrono : Chrono}.
Context {cc : CborSer SignableJoinCard}.

(** [scalar], [coins] and [seed] are the randomness of the two key pairs. *)
Definition InvitationKeyPair_generate (scalar : array 32) (coins : bytes) (seed : array 32) (now : Z)
    (device_id : string) : res InviteError InvitationKeyPair :=
  let? hybrid := map_err IvCrypto (HybridKeyPair_generate scalar coins) in
  let identity := mkSigningKey seed in
  Ok (mkInvitationKeyPair device_id (HybridPublicKey_to_bytes (hkp_public hybrid))
        (HybridSecretKey_to_bytes (hkp_secret hybrid))
        (arr (VerifyingKey_to_bytes (SigningKey_verifying_key identity))) (arr seed)
        now (now + days 30)%Z).

Definition create_join_card_expiring (k : InvitationKeyPair) (user_id : Uuid) (expires_at : Z)
  : res InviteError ClientJoinCard :=
  let expires_unix := timestamp expires_at in
  if (expires_unix <? 0)%Z then Err (IvInvalidInput "Join card expiration precedes Unix epoch")
  else
    let? message := map_err (λ e, IvSerializationError ("Failed to serialize join card for signing: " +:+ e))
                      (cbor_to_vec (mkSignableJoinCard (uuid_to_string user_id) (ik_device_id k)
                         (ik_identity_public_key k) (ik_hybrid_public_key k) (Z.to_N expires_unix))) in
    let? signing_key := map_err (λ e, IvCryptoInvalidKey ("Invalid identity signing key: "
                                        +:+ CryptoError_display e) "create_join_card")
                          (SigningKey_from_bytes (ik_identity_secret_key k)) in
    let? signature := map_err (λ e, IvCryptoSignature ("Failed to sign join card: "
                                      +:+ CryptoError_display e) "create_join_card")
                        (sign signing_key message) in
    Ok (mkClientJoinCard user_id (ik_device_id k) (ik_identity_public_key k) (ik_hybrid_public_key k)
          (default expires_at (from_timestamp expires_unix)) (arr (Signature_to_bytes signature))).
Definition create_join_card (now : Z) (k : InvitationKeyPair) (user_id : Uuid)
  : res InviteError ClientJoinCard :=
  create_join_card_expiring k user_id (now + days JOIN_CARD_VALIDITY_DAYS)%Z.

Definition identity_public_key_bytes (k : InvitationKeyPair) : res InviteError (array 32) :=
  ok_or (array_of 32 (ik_identity_public_key k))
    (IvInvalidInput "Invitation identity public key must be 32 bytes").
Definition sign_identity_message (k : InvitationKeyPair) (message : bytes) : res InviteError Signature :=
  let? signing_key := map_err (λ e, IvCryptoInvalidKey ("Invalid identity signing key: "
                                      +:+ CryptoError_display e) "sign_identity_message")
                        (SigningKey_from_bytes (ik_identity_secret_key k)) in
  map_err (λ e, IvCryptoSignature ("Failed to sign identity message: " +:+ CryptoError_display e)
                  "sign_identity_message") (sign signing_key message).
Definition invitation_secret_key (k : InvitationKeyPair) : res InviteError HybridSecretKey :=
  map_err IvCrypto (HybridSecretKey_from_bytes (ik_hybrid_secret_key k)).
Definition invitation_public_key (k : InvitationKeyPair) : res InviteError HybridPublicKey :=
  map_err IvCrypto (HybridPublicKey_from_bytes (ik_hybrid_public_key k)).
Definition InvitationKeyPair_is_valid (now : Z) (k : InvitationKeyPair) : bool :=
  (now <? ik_expires_at k)%Z.

Definition ClientJoinCard_verify_signature (c : ClientJoinCard) : res InviteError unit :=
  let operation := "verify_join_card_signature"%string in
  if bool_decide (cj_signature c = []) then Err (IvAuth "Join card signature missing")
  else
    let? verifying_key := map_err (λ e, IvCryptoInvalidKey ("Invalid join card identity key: "
                                          +:+ CryptoError_display e) operation)
                            (VerifyingKey_from_bytes (cj_identity_public c)) in
    if (timestamp (cj_expires_at c) <? 0)%Z then Err (IvInvalidInput "Join card expiration is invalid")
    else
      let? message := map_err (λ e, IvSerializationError
                                ("Failed to serialize join card for verification: " +:+ e))
                        (cbor_to_vec (mkSignableJoinCard (uuid_to_string (cj_user_id c)) (cj_device_id c)
                           (cj_identity_public c) (cj_invitation_public c)
                           (Z.to_N (timestamp (cj_expires_at c))))) in
      let? signature := map_err (λ e, IvCryptoSignature ("Invalid join card signature bytes: "
                                        +:+ CryptoError_display e) operation)
                          (Signature_from_bytes (cj_signature c)) in
      map_err (λ e, IvCryptoSignature ("Join card signature verification failed: "
                      +:+ CryptoError_display e) operation)
        (verify verifying_key message signature).
Definition card_invitation_public_key (c : ClientJoinCard) : res InviteError HybridPublicKey :=
  map_err IvCrypto (HybridPublicKey_from_bytes (cj_invitation_public c)).
Definition ClientJoinCard_is_valid (now : Z) (c : ClientJoinCard) : bool := (now <? cj_expires_at c)%Z.
Definition needs_refresh (now : Z) (c : ClientJoinCard) : bool :=
  (cj_expires_at c - now <? days JOIN_CARD_REFRESH_BEFORE_DAYS)%Z.

(** ** Between the two forms ([session/mod.rs]) *)

Inductive CliError :=
| CliPinningFailed (msg : string)
| CliInvalidInput (msg : string)
| CliFormat (msg : string)
| CliConfiguration (msg : string)
| CliNetwork (msg : string)
| CliInternal (msg : string)
| CliClient (e : InviteError)
(** An error of a part that is not modelled here. *)
| CliOther (msg : string).

Definition client_join_card_to_messages (c : ClientJoinCard) : res CliError JoinCard :=
  if (timestamp (cj_expires_at c) <? 0)%Z
  then Err (CliFormat "Join card expiration timestamp is out of range")
  else Ok (mkJoinCard (uuid_to_string (cj_user_id c)) (cj_device_id c) (cj_identity_public c)
             (cj_invitation_public c) (Z.to_N (timestamp (cj_expires_at c))) (cj_signature c)).

(** [parse_error] is the text of [Uuid::parse_str]'s error. *)
Definition messages_join_card_to_client (parse_error : string) (c : JoinCard) : res CliError ClientJoinCard :=
  let? user_id := ok_or (uuid_parse_str (jc_user_id c))
                    (CliInvalidInput ("Join card user identifier is invalid: " +:+ parse_error)) in
  let? expires_at := ok_or (from_timestamp (as_i64 (jc_expires c)))
                       (CliInvalidInput "Join card expires_at is invalid") in
  Ok (mkClientJoinCard user_id (jc_device_id c) (jc_identity_public c) (jc_invitation_public c)
        expires_at (jc_signature c)).
End Invitation.

(** ** Statements about another device's key ([messages/src/pin_attestation.rs]) *)

Definition PIN_ATTESTATION_VERSION : N := 1.
Definition PIN_ATTESTATION_PURPOSE : string := "hybridcipher/pin-attestation/v1".
Definition IDENTITY_KEY_LEN : nat := 32.

Record PinAttestation := mkPinAttestation {
  pa_version : N;
  pa_verifier_user_id : string;
  pa_verifier_device_id : string;
  pa_subject_user_id : string;
  pa_subject_device_id : string;
  pa_subject_identity_public_key : bytes;
  pa_verified_at : Z;
  pa_signature : bytes;
}.

Section Attestations.
Context {ed : Ed25519} {ca : CborSer PinAttestationSignable}.

(** [Ed25519KeyPair::sign], which panics when signing fails. *)
Definition KeyPair_sign_bytes {E} (k : Ed25519KeyPair) (message : bytes) : res E bytes :=
  match SigningKey_sign (kp_signing_key k) message with
  | Ok s => Ok (arr (Signature_to_bytes s))
  | Diverge => Diverge
  | _ => Panic
  end.

Definition validate_fields (a : PinAttestation) : res MessageError unit :=
  if negb (pa_version a =? PIN_ATTESTATION_VERSION)%N then
    Err (MsgInvalidFormat ("Unsupported pin attestation version " +:+ pretty (pa_version a)))
  else if existsb (λ id, is_empty_string (trim id))
            [pa_verifier_user_id a; pa_verifier_device_id a; pa_subject_user_id a;
             pa_subject_device_id a] then
    Err (MsgInvalidFormat "Pin attestation is missing a user or device")
  else if bool_decide (pa_verifier_device_id a = pa_subject_device_id a) then
    Err (MsgInvalidFormat "A device cannot attest to its own key")
  else if bool_decide (length (pa_subject_identity_public_key a) ≠ IDENTITY_KEY_LEN) then
    Err (MsgInvalidFormat "Pin attestation identity key must be 32 bytes")
  else Ok tt.

(** The statement, as it is signed. *)
Definition statement (a : PinAttestation) : PinAttestationSignable :=
  mkPinAttestationSignable PIN_ATTESTATION_PURPOSE (pa_version a) (pa_verifier_user_id a)
    (pa_verifier_device_id a) (pa_subject_user_id a) (pa_subject_device_id a)
    (pa_subject_identity_public_key a) (pa_verified_at a).
Definition signable_bytes (a : PinAttestation) : res MessageError bytes :=
  map_err (λ e, MsgSerialization ("Failed to serialize pin attestation: " +:+ e))
    (cbor_to_vec (statement a)).

Definition PinAttestation_sign (verifier_identity : Ed25519KeyPair)
    (verifier_user_id verifier_device_id subject_user_id subject_device_id : string)
    (subject_identity_public_key : bytes) (verified_at : Z) : res MessageError PinAttestation :=
  let with_signature := mkPinAttestation PIN_ATTESTATION_VERSION verifier_user_id verifier_device_id
                          subject_user_id subject_device_id subject_identity_public_key verified_at in
  let attestation := with_signature [] in
  let? _ := validate_fields attestation in
  let? message := signable_bytes attestation in
  let? signature := KeyPair_sign_bytes verifier_identity message in
  Ok (with_signature signature).

Definition PinAttestation_verify (a : PinAttestation) (verifier_identity_public_key : bytes)
  : res MessageError unit :=
  let? _ := validate_fields a in
  let? verifying_key := map_err MsgCrypto (VerifyingKey_from_bytes verifier_identity_public_key) in
  let? signature := map_err MsgCrypto (Signature_from_bytes (pa_signature a)) in
  let? message := signable_bytes a in
  map_err MsgCrypto (VerifyingKey_verify verifying_key message signature).
End Attestations.

(** ** Whose word counts ([session/mod.rs]) *)

(** Checked in person on this device. *)
Definition direct (p : PinnedKey) : bool :=
  pk_verified p && match pk_verification_method p with
                   | Manual | SafetyNumber | QrCode => true
                   | Unverified | OwnDevice => false
                   end.

Record Session := mkSession { se_user_id : string; se_device_id : string }.

Inductive JoinCardPinState :=
| AlreadyPinned
| RestoredFromCache
| StUnverified (auto_pinned : bool)
| RestoredFromOwnDevice (verifier_device_id : string)
| Missing
| Expired (pinned_at : Z).

(** What a check reads: the session, the files of the account, the server's answer. *)
Record CheckEnv := mkCheckEnv {
  ce_auth : res CliError Session;
  ce_unlock : res CliError unit;
  ce_config : res CliError PinningConfig;
  ce_cached_cards : res CliError (list ClientJoinCard);
  ce_attestations : list PinAttestation;
  ce_now : Z;
}.

(** The texts of times, of errors and of [parse_str]'s error. *)
Class CliText := {
  datetime_display : Z → string;
  pinning_debug : PinningError → string;
  uuid_parse_error : string → string;
}.
Definition PinningError_display `{CliText} (e : PinningError) : string :=
  match e with
  | PeStorage e => "Storage error: " +:+ StorageError_display e
  | PeKeyMismatch expected actual => "Key mismatch: expected " +:+ expected +:+ ", got " +:+ actual
  | PeNoPinnedKey u d => "No pinned key found for user " +:+ u +:+ ", device " +:+ d
  | PeInvalidFingerprint msg => "Invalid fingerprint format: " +:+ msg
  | PeExpiredPin t => "Pinned key has expired (pinned at " +:+ datetime_display t +:+ ")"
  | PeInvalidPublicKey msg => "Invalid public key: " +:+ msg
  end.

Section Checks.
Context {sha : Sha256} {hex : Hex} {pj : PinJson} {rfc : Rfc3339} {ed : Ed25519} {uuid : UuidText}.
Context {chrono : Chrono} {txt : CliText}.
Context {cc : CborSer SignableJoinCard} {ca : CborSer PinAttestationSignable}.
Context {St : Type} {cs : ConfigStore St}.

Definition attestation_vouches_for (a : PinAttestation) (session_user_id session_device_id : string)
    (card : ClientJoinCard) (verifier_pin : option PinnedKey) : bool :=
  if bool_decide (pa_verifier_user_id a ≠ session_user_id)
     || bool_decide (pa_verifier_device_id a = session_device_id)
     || bool_decide (pa_subject_user_id a ≠ uuid_to_string (cj_user_id card))
     || bool_decide (pa_subject_device_id a ≠ cj_device_id card)
     || bool_decide (pa_subject_identity_public_key a ≠ cj_identity_public card)
  then false
  else match verifier_pin with
       | None => false
       | Some p =>
           direct p && bool_decide (pk_device_id p = pa_verifier_device_id a)
           && is_ok (PinAttestation_verify a (arr (pk_identity_public_key p)))
       end.

Definition own_device_note (now : Z) (verifier_device_id : string) : string :=
  "Verified on your device " +:+ verifier_device_id +:+ " (" +:+ to_rfc3339 now +:+ ")".

(** The loop over the attestations.  [.ok().flatten()]: a pin that cannot be read or that
    has expired does not count. *)
Fixpoint first_vouching (cfg : PinningConfig) (now : Z) (se : Session) (card : ClientJoinCard)
    (l : list PinAttestation) : ST St CliError (option string) :=
  match l with
  | [] => st_ret None
  | a :: l =>
      let* found := st_try (get_pinned_key cfg now (se_user_id se) (pa_verifier_device_id a)) in
      let verifier_pin := match found with inr o => o | inl _ => None end in
      if attestation_vouches_for a (se_user_id se) (se_device_id se) card verifier_pin
      then st_ret (Some (pa_verifier_device_id a))
      else first_vouching cfg now se card l
  end.
Definition own_device_attestation_for (env : CheckEnv) (cfg : PinningConfig) (card : ClientJoinCard)
  : ST St CliError (option string) :=
  match ce_auth env with
  | Ok se => first_vouching cfg (ce_now env) se card (ce_attestations env)
  | _ => st_ret None
  end.

Definition find_cached_join_card_for_device (env : CheckEnv) (user_id device_id : string)
  : res CliError (option ClientJoinCard) :=
  let? cached := ce_cached_cards env in
  Ok (list_find (λ card, uuid_to_string (cj_user_id card) = user_id ∧ cj_device_id card = device_id) cached
        ≫= λ found, Some found.2).

Definition identity_key_array (card : ClientJoinCard) : res CliError (array 32) :=
  ok_or (array_of 32 (cj_identity_public card))
    (CliInvalidInput "Join card identity key must be exactly 32 bytes (Ed25519)").
Definition identity_verifying_key (b : bytes) : res CliError VerifyingKey :=
  map_err (λ e, CliInvalidInput ("Join card identity key is invalid: " +:+ CryptoError_display e))
    (VerifyingKey_from_bytes b).
Definition pin_failed {A} (what : string) (m : ST St PinningError A) : ST St CliError A :=
  st_map_err (λ e, CliPinningFailed (what +:+ PinningError_display e)) m.

Definition check_join_card_pin (env : CheckEnv) (restore_from_cache : bool) (card : ClientJoinCard)
  : ST St CliError JoinCardPinState :=
  let now := ce_now env in
  do* st_lift (map_err (λ e, CliPinningFailed ("Join card signature verification failed: "
                               +:+ InviteError_display e)) (ClientJoinCard_verify_signature card));
  if negb (ClientJoinCard_is_valid now card) then
    st_fail (CliPinningFailed "Join card has expired; request a fresh join card before proceeding.")
  else
  do* st_lift (ce_unlock env);
  let* cfg := st_lift (ce_config env) in
  let user_id := uuid_to_string (cj_user_id card) in
  let device_id := cj_device_id card in
  let* identity_key_bytes := st_lift (identity_key_array card) in
  let* existing := st_try (get_pinned_key cfg now user_id device_id) in
  match existing with
  | inl (PeExpiredPin pinned_at) => st_ret (Expired pinned_at)
  | inl e => st_fail (CliPinningFailed ("Failed to load pinned key: " +:+ PinningError_display e))
  | inr (Some existing_pin) =>
      if bool_decide (pk_identity_public_key existing_pin ≠ identity_key_bytes) then
        st_fail (CliPinningFailed ("Pinned fingerprint " +:+ pk_fingerprint existing_pin
          +:+ " does not match join card fingerprint " +:+ generate_fingerprint identity_key_bytes
          +:+ " for " +:+ user_id +:+ ":" +:+ device_id))
      else if pk_verified existing_pin then st_ret AlreadyPinned
      else
        let* vouching := own_device_attestation_for env cfg card in
        match vouching with
        | Some verifier_device_id =>
            let* _ := pin_failed "Failed to verify pin: "
                        (mark_pin_verified cfg now user_id device_id OwnDevice) in
            let* _ := st_try (update_pin_notes cfg now user_id device_id
                                (Some (own_device_note now verifier_device_id))) in
            st_ret (RestoredFromOwnDevice verifier_device_id)
        | None => st_ret (StUnverified false)
        end
  | inr None =>
      let* cached_card := st_lift (if restore_from_cache
                                   then find_cached_join_card_for_device env user_id device_id
                                   else Ok None) in
      if (match cached_card with
          | Some cached => bool_decide (cj_identity_public cached = cj_identity_public card)
          | None => false
          end)
      then
        let* verifying_key := st_lift (identity_verifying_key (arr identity_key_bytes)) in
        let note := Some ("Restored automatically from cached verification on " +:+ to_rfc3339 now) in
        let* _ := pin_failed ("Failed to restore pin from cache for " +:+ user_id +:+ ":" +:+ device_id
                                +:+ ": ")
                    (pin_key now user_id device_id verifying_key Manual note) in
        st_ret RestoredFromCache
      else
        let* vouching := own_device_attestation_for env cfg card in
        match vouching with
        | Some verifier_device_id =>
            let* verifying_key := st_lift (identity_verifying_key (arr identity_key_bytes)) in
            let* _ := pin_failed ("Failed to pin " +:+ user_id +:+ ":" +:+ device_id
                                    +:+ " from your other device: ")
                        (pin_key now user_id device_id verifying_key OwnDevice
                           (Some (own_device_note now verifier_device_id))) in
            st_ret (RestoredFromOwnDevice verifier_device_id)
        | None => st_ret Missing
        end
  end.

Definition check_or_restore_join_card_pin (env : CheckEnv) : ClientJoinCard → ST St CliError JoinCardPinState :=
  check_join_card_pin env true.
Definition check_join_card_pin_without_cache (env : CheckEnv)
  : ClientJoinCard → ST St CliError JoinCardPinState := check_join_card_pin env false.

Definition auto_pin_join_card_unverified (env : CheckEnv) (card : ClientJoinCard) : ST St CliError unit :=
  let* cfg := st_lift (ce_config env) in
  let* identity_key_bytes := st_lift (identity_key_array card) in
  let* verifying_key := st_lift (identity_verifying_key (arr identity_key_bytes)) in
  let note := Some ("Auto-pinned from join card (unverified) on " +:+ to_rfc3339 (ce_now env)) in
  let* _ := pin_failed ("Failed to auto-pin join card for " +:+ uuid_to_string (cj_user_id card) +:+ ":"
                          +:+ cj_device_id card +:+ ": ")
              (pin_key_unverified (ce_now env) (uuid_to_string (cj_user_id card)) (cj_device_id card)
                 verifying_key note) in
  st_ret tt.
Definition check_or_restore_join_card_pin_with_auto_pin (env : CheckEnv) (card : ClientJoinCard)
    (auto_pin : bool) : ST St CliError JoinCardPinState :=
  let* state := check_or_restore_join_card_pin env card in
  if negb auto_pin then st_ret state
  else match state with
       | Missing => do* auto_pin_join_card_unverified env card; st_ret (StUnverified true)
       | other => st_ret other
       end.

(** ** This device itself *)

Inductive CurrentDevicePinState := AlreadyVerified | PromotedUnverified | PinnedVerified.
Inductive JoinCardPublishState := AlreadyPresent | Published.

Definition expired_invitation_keypair_blocks_auto_verify (keypair_valid : bool)
    (existing_pin : option PinnedKey) (identity_key : array 32) : bool :=
  let already_verified := match existing_pin with
                          | Some p => pk_verified p && bool_decide (pk_identity_public_key p = identity_key)
                          | None => false
                          end in
  negb keypair_valid && negb already_verified.

(** [str::contains]. *)
Fixpoint contains (sub s : string) : bool :=
  String.prefix sub s || match s with EmptyString => false | String _ s => contains sub s end.
Definition merge_notes (existing : option string) (extra : string) : option string :=
  let combined := default ""%string existing in
  let combined := if is_empty_string (trim combined) then extra
                  else if negb (contains extra combined) then combined +:+ " | " +:+ extra
                  else combined in
  if is_empty_string (trim combined) then None else Some combined.

Definition session_uuid (se : Session) : res CliError Uuid :=
  ok_or (uuid_parse_str (se_user_id se))
    (CliConfiguration ("Active session contains invalid user identifier '" +:+ se_user_id se
                         +:+ "': " +:+ uuid_parse_error (se_user_id se))).

(** [keypair] is what [get_or_create_invitation_keypair] gives. *)
Definition ensure_current_device_pin_verified (env : CheckEnv) (keypair : res CliError InvitationKeyPair)
    (trigger : string) : ST St CliError CurrentDevicePinState :=
  let now := ce_now env in
  let* se := st_lift (ce_auth env) in
  let user_id := se_user_id se in
  let device_id := se_device_id se in
  let* user_uuid := st_lift (session_uuid se) in
  let* k := st_lift keypair in
  if bool_decide (ik_device_id k ≠ device_id) then
    st_fail (CliPinningFailed ("Local invitation keypair device ID '" +:+ ik_device_id k
      +:+ "' does not match session device ID '" +:+ device_id +:+ "'"))
  else
  let* card := st_lift (map_err (λ e, CliPinningFailed ("Failed to create local join card: "
                                        +:+ InviteError_display e)) (create_join_card now k user_uuid)) in
  do* st_lift (map_err (λ e, CliPinningFailed ("Local join card signature verification failed: "
                               +:+ InviteError_display e)) (ClientJoinCard_verify_signature card));
  if negb (ClientJoinCard_is_valid now card) then
    st_fail (CliPinningFailed "Local join card has expired; refresh the join card before continuing.")
  else
  let* identity_key_bytes := st_lift (identity_key_array card) in
  let* verifying_key := st_lift (identity_verifying_key (arr identity_key_bytes)) in
  let* cfg := st_lift (ce_config env) in
  let* found := st_try (get_pinned_key cfg now user_id device_id) in
  let* (existing_pin, expired_pin) :=
    match found with
    | inr o => st_ret (o, None)
    | inl (PeExpiredPin pinned_at) => st_ret (None, Some pinned_at)
    | inl e => st_fail (CliPinningFailed ("Failed to load pinned key: " +:+ PinningError_display e))
    end in
  if expired_invitation_keypair_blocks_auto_verify (InvitationKeyPair_is_valid now k) existing_pin
       identity_key_bytes then
    st_fail (CliPinningFailed ("Local invitation keypair has expired and this device's key is not verified "
      +:+ "yet, so it cannot be verified automatically."))
  else
  let note := ("Auto-verified local device during " +:+ trigger +:+ " on " +:+ to_rfc3339 now)%string in
  let note := match expired_pin with
              | Some _ => ("Re-pinned local device after expiry. " +:+ note)%string
              | None => note
              end in
  match existing_pin with
  | Some p =>
      if bool_decide (pk_identity_public_key p ≠ identity_key_bytes) then
        st_fail (CliPinningFailed ("Pinned fingerprint " +:+ pk_fingerprint p
          +:+ " does not match local join card fingerprint " +:+ generate_fingerprint identity_key_bytes
          +:+ " for " +:+ user_id +:+ ":" +:+ device_id))
      else if pk_verified p then st_ret AlreadyVerified
      else
        let* updated := pin_failed ("Failed to verify local pin for " +:+ user_id +:+ ":" +:+ device_id +:+ ": ")
                          (mark_pin_verified cfg now user_id device_id Manual) in
        let merged_notes := merge_notes (pk_notes updated) note in
        do* (if bool_decide (merged_notes ≠ pk_notes updated)
             then pin_failed ("Failed to update local pin notes for " +:+ user_id +:+ ":" +:+ device_id +:+ ": ")
                    (update_pin_notes cfg now user_id device_id merged_notes)
             else st_ret tt);
        st_ret PromotedUnverified
  | None =>
      let* _ := pin_failed ("Failed to pin local device for " +:+ user_id +:+ ":" +:+ device_id +:+ ": ")
                  (pin_key now user_id device_id verifying_key Manual (Some note)) in
      st_ret PinnedVerified
  end.

(** ** Publishing *)

(** The statement that [publish_pin_attestation] sends, if it sends one.  [keypair] is what
    [get_or_create_device_keypair] gives. *)
Definition attestation_to_publish (auth : res CliError Session) (keypair : res CliError Ed25519KeyPair)
    (pin : PinnedKey) : res CliError (option PinAttestation) :=
  let? se := auth in
  if negb (direct pin) || bool_decide (pk_device_id pin = se_device_id se) then Ok None
  else
    let? identity := keypair in
    let? attestation :=
      map_err (λ e, CliInternal ("Could not sign the verification: " +:+ MessageError_display e))
        (PinAttestation_sign identity (se_user_id se) (se_device_id se) (pk_user_id pin) (pk_device_id pin)
           (arr (pk_identity_public_key pin)) (default (pk_pinned_at pin) (pk_verified_at pin))) in
    Ok (Some attestation).

(** [server_cards] is the answer of the directory.  The result has the card that was made,
    which the caller caches, and the payload that is sent. *)
Definition ensure_join_card_published (env : CheckEnv) (server_cards : res CliError (list ClientJoinCard))
    (keypair : res CliError InvitationKeyPair) (publish : JoinCard → res CliError unit)
  : res CliError (JoinCardPublishState * option ClientJoinCard * option JoinCard) :=
  let now := ce_now env in
  let? se := ce_auth env in
  let? user_id := session_uuid se in
  let device_id := se_device_id se in
  if (match server_cards with
      | Ok cards => existsb (λ c, bool_decide (cj_device_id c = device_id) && negb (needs_refresh now c)) cards
      | _ => false
      end)
  then Ok (AlreadyPresent, None, None)
  else
    let? cached := find_cached_join_card_for_device env (se_user_id se) device_id in
    let reusable := match cached with
                    | Some c => if is_ok (ClientJoinCard_verify_signature c) && negb (needs_refresh now c)
                                then Some c else None
                    | None => None
                    end in
    let? (card, created) :=
      match reusable with
      | Some c => Ok (c, None)
      | None =>
          let? k := keypair in
          let? c := map_err CliClient (create_join_card now k user_id) in
          Ok (c, Some c)
      end in
    let? payload := client_join_card_to_messages card in
    let? _ := publish payload in
    Ok (Published, created, Some payload).

(** ** The gate of a welcome ([security.rs], [welcome.rs]) *)

Inductive PinningPrompt :=
| FirstContact (user_id device_id fingerprint : string) (identity_key : bytes)
| PromptUnverified (user_id device_id fingerprint : string) (identity_key : bytes)
| KeyChanged (user_id device_id old_fingerprint new_fingerprint : string) (identity_key : bytes).
Inductive PinningVerificationResult :=
| PvVerified
| PvKeyMismatch (pinned_fingerprint join_card_fingerprint : string)
| PvRequiresVerification (prompt : PinningPrompt).
Inductive PinningPolicy := RequireVerified | AllowUnverified.
Definition PinningPolicy_default : PinningPolicy := AllowUnverified.

Definition verify_join_card_with_pinning (cfg : PinningConfig) (now : Z) (card : ClientJoinCard)
  : ST St InviteError PinningVerificationResult :=
  let user_id := uuid_to_string (cj_user_id card) in
  let device_id := cj_device_id card in
  let identity_key := cj_identity_public card in
  let* identity_key_array :=
    st_lift (ok_or (array_of 32 identity_key)
      (IvInvalidInput ("Identity key must be 32 bytes, got " +:+ pretty (N.of_nat (length identity_key))))) in
  let* found := st_try (get_pinned_key cfg now user_id device_id) in
  match found with
  | inr (Some pinned_data) =>
      if bool_decide (pk_identity_public_key pinned_data = identity_key_array) then
        if pk_verified pinned_data then st_ret PvVerified
        else st_ret (PvRequiresVerification
               (PromptUnverified user_id device_id (generate_fingerprint identity_key_array) identity_key))
      else st_ret (PvKeyMismatch (pk_fingerprint pinned_data) (generate_fingerprint identity_key_array))
  | inr None =>
      st_ret (PvRequiresVerification
        (FirstContact user_id device_id (generate_fingerprint identity_key_array) identity_key))
  | inl e => st_fail (IvStorage (StCorruption ("Pinning verification failed: " +:+ pinning_debug e)))
  end.

Definition prompt_message (p : PinningPrompt) : string :=
  match p with
  | FirstContact u d fp _ =>
      "Join card for " +:+ u +:+ ":" +:+ d +:+ " has not been verified. Confirm fingerprint " +:+ fp
      +:+ " via `hybridcipher pin add --user " +:+ u +:+ " --device " +:+ d
      +:+ "` (or equivalent) before generating a Welcome."
  | PromptUnverified u d fp _ =>
      "Join card for " +:+ u +:+ ":" +:+ d +:+ " is pinned but unverified. Confirm fingerprint " +:+ fp
      +:+ " via `hybridcipher pin verify " +:+ u +:+ " " +:+ d +:+ " --fingerprint " +:+ fp
      +:+ "` (or equivalent) before generating a Welcome."
  | KeyChanged u d old new _ =>
      "Join card key for " +:+ u +:+ ":" +:+ d +:+ " changed (pinned " +:+ old +:+ ", provided " +:+ new
      +:+ "). Verify out-of-band and update the pin before generating a Welcome."
  end.

(** [generate_welcome_for_join_card_with_policy] up to the key that the welcome is sealed to. *)
Definition welcome_key_for_join_card (cfg : PinningConfig) (now : Z) (card : ClientJoinCard)
    (policy : PinningPolicy) : ST St InviteError HybridPublicKey :=
  do* st_lift (ClientJoinCard_verify_signature card);
  if negb (ClientJoinCard_is_valid now card) then
    st_fail (IvInvalidState "Join card has expired and cannot be used to generate a Welcome message")
  else
  let* checked := verify_join_card_with_pinning cfg now card in
  do* match checked with
      | PvVerified => st_ret tt
      | PvKeyMismatch pinned provided =>
          st_fail (IvSecurityViolation ("Join card identity key mismatch for "
            +:+ uuid_to_string (cj_user_id card) +:+ ":" +:+ cj_device_id card +:+ " (pinned " +:+ pinned
            +:+ ", provided " +:+ provided +:+ "). Rejecting Welcome generation."))
      | PvRequiresVerification prompt =>
          match policy with
          | RequireVerified => st_fail (IvPinningRequired (prompt_message prompt))
          | AllowUnverified => st_ret tt
          end
      end;
  st_lift (card_invitation_public_key card).
End Checks.

(** ** A created card is accepted *)

(** [from_timestamp] is exact where it is defined. *)
Class ChronoLaws `{Chrono} : Prop :=
  from_timestamp_exact s t : from_timestamp s = Some t → t = (s * 10 ^ 9)%Z.

Section CardTheory.
Context {ed : Ed25519} {edl : Ed25519Laws} {x25519 : X25519} {mlkem : MlKem} {cdbg : CryptoDebug}.
Context {uuid : UuidText} {chrono : Chrono} {chronol : ChronoLaws}.
Context {cc : CborSer SignableJoinCard}.

Lemma timestamp_whole s : timestamp (s * 10 ^ 9) = s.
Proof. unfold timestamp. by rewrite Z.div_mul. Qed.
Lemma timestamp_restored t : timestamp (default t (from_timestamp (timestamp t))) = timestamp t.
Proof using chronol.
  destruct (from_timestamp (timestamp t)) as [t'|] eqn:E; [|done].
  apply from_timestamp_exact in E as ->. apply timestamp_whole.
Qed.

(** What a card's signature covers. *)
Definition card_message (c : ClientJoinCard) : SignableJoinCard :=
  mkSignableJoinCard (uuid_to_string (cj_user_id c)) (cj_device_id c) (cj_identity_public c)
    (cj_invitation_public c) (Z.to_N (timestamp (cj_expires_at c))).

(** The conditions under which [verify_signature] accepts a card. *)
Definition card_signed (c : ClientJoinCard) : Prop :=
  ∃ vk sig m, VerifyingKey_from_bytes (cj_identity_public c) = Ok vk
    ∧ Signature_from_bytes (cj_signature c) = Ok sig ∧ (0 ≤ timestamp (cj_expires_at c))%Z
    ∧ cbor_to_vec (card_message c) = Ok m ∧ VerifyingKey_verify vk m sig = Ok tt.

Lemma verify_signature_iff c : ClientJoinCard_verify_signature c = Ok tt ↔ card_signed c.
Proof.
  unfold ClientJoinCard_verify_signature, card_signed, verify. cbv zeta. split.
  - intros E. case_bool_decide; [done|].
    destruct (VerifyingKey_from_bytes (cj_identity_public c)) as [vk| | |]; try done.
    cbn [map_err res_bind] in E. destruct (Z.ltb_spec (timestamp (cj_expires_at c)) 0); [done|].
    unfold card_message. destruct (cbor_to_vec _) as [m| | |]; try done. cbn [map_err res_bind] in E.
    destruct (Signature_from_bytes (cj_signature c)) as [sig| | |]; try done. cbn [map_err res_bind] in E.
    destruct (VerifyingKey_verify vk m sig) as [[]| | |] eqn:V; try done.
    exists vk, sig, m. done.
  - intros (vk & sig & m & V & S & T & C & OK). rewrite bool_decide_false.
    2: { intros N. rewrite N in S. discriminate S. }
    rewrite V. cbn [map_err res_bind]. destruct (Z.ltb_spec (timestamp (cj_expires_at c)) 0); [lia|].
    unfold card_message in C. rewrite C. cbn [map_err res_bind]. rewrite S. cbn [map_err res_bind].
    by rewrite OK.
Qed.

Lemma from_bytes_length b vk : VerifyingKey_from_bytes b = Ok vk → length b = 32.
Proof.
  unfold VerifyingKey_from_bytes, VERIFYING_KEY_LEN, array_of. by destruct (decide (length b = 32)).
Qed.
Lemma signature_length b s : Signature_from_bytes b = Ok s → length b = 64.
Proof. unfold Signature_from_bytes, SIGNATURE_LEN, array_of. by destruct (decide (length b = 64)). Qed.

(** A signed card with a key of the right size is accepted until five minutes after it
    expires, whatever else happens. *)
Lemma published_accepted c mc :
  card_signed c → cj_device_id c ≠ ""%string → uuid_to_string (cj_user_id c) ≠ ""%string →
  length (cj_invitation_public c) = HYBRID_PUBLIC_KEY_LEN →
  client_join_card_to_messages c = Ok mc →
  ∀ later, (0 ≤ later)%Z →
    JoinCard_validate_complete later mc = Ok tt ↔ (timestamp later ≤ timestamp (cj_expires_at c) + 300)%Z.
Proof.
  intros (vk & sig & m & V & S & T & C & OK) D U L M later P.
  unfold client_join_card_to_messages in M.
  destruct (Z.ltb_spec (timestamp (cj_expires_at c)) 0); [lia|]. injection M as <-.
  assert (0 ≤ timestamp later)%Z by (unfold timestamp; apply Z.div_pos; lia).
  unfold JoinCard_validate_complete, JoinCard_validate, JoinCard_validate_expiration, is_empty_string,
    CLOCK_SKEW_TOLERANCE_SECS. cbn [jc_user_id jc_device_id jc_identity_public jc_invitation_public jc_signature
      jc_expires].
  rewrite !bool_decide_false by done.
  rewrite (bool_decide_false (length (cj_identity_public c) ≠ 32)) by (rewrite (from_bytes_length _ _ V); auto).
  rewrite (bool_decide_false (length (cj_invitation_public c) ≠ HYBRID_PUBLIC_KEY_LEN)) by (rewrite L; auto).
  rewrite andb_false_r.
  rewrite (bool_decide_false (length (cj_signature c) ≠ 64)) by (rewrite (signature_length _ _ S); auto).
  destruct (Z.ltb_spec later 0); [lia|]. cbv zeta.
  destruct (N.ltb_spec (Z.to_N (timestamp (cj_expires_at c))) (Z.to_N (timestamp later) - 300)).
  - split; [done|lia].
  - split; [lia|]. intros _. cbn [res_bind]. unfold JoinCard_verify_signature, canonical_message.
    cbn [jc_user_id jc_device_id jc_identity_public jc_invitation_public jc_signature jc_expires].
    rewrite V. cbn [map_err res_bind]. rewrite S. cbn [map_err res_bind].
    unfold card_message in C. rewrite C. cbn [map_err res_bind]. by rewrite OK.
Qed.

Lemma created_signed scalar coins seed t0 dev k now u card :
  InvitationKeyPair_generate scalar coins seed t0 dev = Ok k → create_join_card now k u = Ok card →
  card_signed card ∧ cj_user_id card = u ∧ cj_device_id card = dev
  ∧ length (cj_invitation_public card) = HYBRID_PUBLIC_KEY_LEN
  ∧ timestamp (cj_expires_at card) = timestamp (now + days 30)%Z.
Proof using edl chronol.
  unfold InvitationKeyPair_generate. destruct (HybridKeyPair_generate scalar coins) as [h| | |]; try done.
  cbn [map_err res_bind]. intros [= <-]. unfold create_join_card, create_join_card_expiring.
  unfold JOIN_CARD_VALIDITY_DAYS.
  cbn [ik_device_id ik_identity_public_key ik_hybrid_public_key ik_identity_secret_key].
  set (e := (now + days 30)%Z). destruct (Z.ltb_spec (timestamp e) 0) as [|T]; [done|].
  destruct (cbor_to_vec _) as [m| | |] eqn:C; try done. cbn [map_err res_bind].
  unfold SigningKey_from_bytes, SIGNING_KEY_LEN. rewrite array_of_arr. cbn [map_err res_bind]. unfold sign.
  destruct (SigningKey_sign (mkSigningKey seed) m) as [sig| | |] eqn:S; try done. cbn [map_err res_bind].
  intros [= <-]. cbn [cj_user_id cj_device_id cj_invitation_public cj_expires_at].
  split_and!; [|done|done| |apply timestamp_restored].
  - exists (SigningKey_verifying_key (mkSigningKey seed)), sig, m.
    unfold card_message.
    cbn [cj_identity_public cj_signature cj_expires_at cj_user_id cj_device_id cj_invitation_public].
    rewrite timestamp_restored. split_and!; [| |lia|done|by apply sign_verify].
    + apply (VerifyingKey_from_to_bytes (SigningKey_verifying_key (mkSigningKey seed))).
      apply dalek_public_valid.
    + by eapply Signature_from_to_bytes.
  - unfold HybridPublicKey_to_bytes. rewrite length_app, !arr_length. done.
Qed.

(** A device with keys that it generated signs a card at any time: its own client accepts
    the signature, the published form of the card is accepted by every checker from then
    until exactly five minutes after the thirty days it is valid for (in whole seconds),
    and it reads back as the same device and keys. *)
Theorem join_card_roundtrip scalar coins seed t0 dev k now u card :
  InvitationKeyPair_generate scalar coins seed t0 dev = Ok k → create_join_card now k u = Ok card →
  dev ≠ ""%string → uuid_to_string u ≠ ""%string →
  ClientJoinCard_verify_signature card = Ok tt
  ∧ ∃ mc, client_join_card_to_messages card = Ok mc
      ∧ ∀ later, (0 ≤ later)%Z →
          JoinCard_validate_complete later mc = Ok tt ↔ (timestamp later ≤ timestamp (now + days 30) + 300)%Z.
Proof using edl chronol.
  intros G C D U. destruct (created_signed _ _ _ _ _ _ _ _ _ G C) as (S & <- & <- & L & T).
  split; [by apply verify_signature_iff|].
  pose proof S as (vk & sig & m & _ & _ & P & _).
  eexists. split.
  - unfold client_join_card_to_messages. destruct (Z.ltb_spec (timestamp (cj_expires_at card)) 0); [lia|done].
  - intros later Q. rewrite <-T. eapply published_accepted; try done.
    unfold client_join_card_to_messages. by destruct (Z.ltb_spec (timestamp (cj_expires_at card)) 0); [lia|].
Qed.

(** Reading a published card back gives the card. *)
Lemma messages_roundtrip {uuidl : UuidTextLaws} err c mc :
  client_join_card_to_messages c = Ok mc → from_timestamp (timestamp (cj_expires_at c)) = Some (cj_expires_at c) →
  (timestamp (cj_expires_at c) < 2 ^ 63)%Z →
  messages_join_card_to_client err mc = Ok c.
Proof.
  unfold client_join_card_to_messages. intros M F B.
  destruct (Z.ltb_spec (timestamp (cj_expires_at c)) 0); [done|]. injection M as <-.
  unfold messages_join_card_to_client. cbn [jc_user_id jc_device_id jc_identity_public jc_invitation_public
    jc_signature jc_expires]. rewrite uuid_parse_to_string. cbn [ok_or res_bind].
  assert (as_i64 (Z.to_N (timestamp (cj_expires_at c))) = timestamp (cj_expires_at c)) as ->.
  { unfold as_i64, U64. change (2 ^ 63)%N with 9223372036854775808%N.
    change (2 ^ 64)%N with 18446744073709551616%N.
    rewrite N.mod_small by lia. destruct (N.ltb_spec (Z.to_N (timestamp (cj_expires_at c))) 9223372036854775808);
      lia. }
  rewrite F. cbn [ok_or res_bind]. by destruct c.
Qed.

Lemma refresh_lasts now c later :
  needs_refresh now c = false → (later ≤ now + days 7)%Z → (timestamp later ≤ timestamp (cj_expires_at c))%Z.
Proof.
  unfold needs_refresh, JOIN_CARD_REFRESH_BEFORE_DAYS. intros N L.
  apply Z.ltb_ge in N. unfold timestamp. apply Z.div_le_mono; [done|]. clear edl chronol. lia.
Qed.
End CardTheory.

Section Publishing.
Context {ed : Ed25519} {edl : Ed25519Laws} {x25519 : X25519} {mlkem : MlKem} {cdbg : CryptoDebug}.
Context {uuid : UuidText} {chrono : Chrono} {chronol : ChronoLaws} {txt : CliText}.
Context {cc : CborSer SignableJoinCard}.

(** The card that is sent is signed, is this device's, and has a week left. *)
Lemma sent_card_lasts env (cached : option ClientJoinCard) (keypair : res CliError InvitationKeyPair) se user_id
    (card : ClientJoinCard) (created : option ClientJoinCard) :
  let now := ce_now env in
  find_cached_join_card_for_device env (se_user_id se) (se_device_id se) = Ok cached →
  (∀ k, keypair = Ok k → ∃ scalar coins seed t0,
     InvitationKeyPair_generate scalar coins seed t0 (se_device_id se) = Ok k) →
  (∀ l c, ce_cached_cards env = Ok l → c ∈ l → length (cj_invitation_public c) = HYBRID_PUBLIC_KEY_LEN) →
  (match match cached with
         | Some c => if is_ok (ClientJoinCard_verify_signature c) && negb (needs_refresh now c) then Some c else None
         | None => None
         end with
   | Some c => Ok (c, None)
   | None => let? k := keypair in let? c := map_err CliClient (create_join_card now k user_id) in Ok (c, Some c)
   end) = Ok (card, created) →
  card_signed card ∧ cj_device_id card = se_device_id se
  ∧ length (cj_invitation_public card) = HYBRID_PUBLIC_KEY_LEN
  ∧ ∀ later, (later ≤ now + days 7)%Z → (timestamp later ≤ timestamp (cj_expires_at card))%Z.
Proof using edl chronol.
  intros now F G H E.
  destruct (match cached with Some _ => _ | None => _ end) as [c|] eqn:R.
  - injection E as -> <-. destruct cached as [c'|]; [|done].
    destruct (ClientJoinCard_verify_signature c') as [[]| | |] eqn:V; try done. cbn [is_ok andb] in R.
    destruct (needs_refresh now c') eqn:N; [done|]. injection R as ->.
    unfold find_cached_join_card_for_device in F. destruct (ce_cached_cards env) as [l| | |]; try done.
    cbn [res_bind] in F. destruct (list_find _ l) as [[i c']|] eqn:L; [|done]. cbn in F. injection F as ->.
    apply list_find_Some in L as (I & [_ D] & _). apply list_elem_of_lookup_2 in I.
    split_and!; [by apply verify_signature_iff|done|by eapply H|]. intros later. by apply refresh_lasts.
  - destruct keypair as [k| | |]; try done. cbn [res_bind] in E.
    destruct (create_join_card now k user_id) as [c| | |] eqn:C; try done. cbn [map_err res_bind] in E.
    injection E as -> <-. destruct (G k eq_refl) as (? & ? & ? & ? & K).
    destruct (created_signed _ _ _ _ _ _ _ _ _ K C) as (S & _ & D & L & T).
    split_and!; [done|done|done|]. intros later B. rewrite T. unfold timestamp. apply Z.div_le_mono; [done|].
    unfold days, seconds in *. clear edl chronol. lia.
Qed.

(** Whenever [ensure_join_card_published] succeeds, the directory has a card of this device
    that others accept for at least another week: one that was there already, or the one
    that was just sent. *)
Theorem published_card_lasts env server_cards keypair publish se state created payload :
  ensure_join_card_published env server_cards keypair publish = Ok (state, created, payload) →
  ce_auth env = Ok se → se_device_id se ≠ ""%string → (∀ u, uuid_to_string u ≠ ""%string) →
  (∀ k, keypair = Ok k → ∃ scalar coins seed t0,
     InvitationKeyPair_generate scalar coins seed t0 (se_device_id se) = Ok k) →
  (∀ l c, ce_cached_cards env = Ok l → c ∈ l → length (cj_invitation_public c) = HYBRID_PUBLIC_KEY_LEN) →
  match state with
  | AlreadyPresent => ∃ cards c, server_cards = Ok cards ∧ c ∈ cards ∧ cj_device_id c = se_device_id se
      ∧ ∀ later, (later < ce_now env + days 7)%Z → ClientJoinCard_is_valid later c = true
  | Published => ∃ mc, payload = Some mc ∧ publish mc = Ok tt ∧ jc_device_id mc = se_device_id se
      ∧ ∀ later, (0 ≤ later ≤ ce_now env + days 7)%Z → JoinCard_validate_complete later mc = Ok tt
  end.
Proof using edl chronol.
  intros E A D U G H. unfold ensure_join_card_published in E. rewrite A in E. cbn [res_bind] in E.
  destruct (session_uuid se) as [user_id| | |]; try done. cbn [res_bind] in E.
  destruct (match server_cards with Ok _ => _ | _ => _ end) eqn:P.
  - injection E as <- <- <-. destruct server_cards as [cards| | |]; try done.
    apply existsb_exists in P as (c & I & B). apply andb_prop in B as [B N].
    apply bool_decide_eq_true in B. apply negb_true_iff in N.
    exists cards, c. split_and!; [done|by apply list_elem_of_In|done|]. intros later L.
    unfold needs_refresh, JOIN_CARD_REFRESH_BEFORE_DAYS in N. apply Z.ltb_ge in N.
    unfold ClientJoinCard_is_valid. apply Z.ltb_lt. clear edl chronol. lia.
  - destruct (find_cached_join_card_for_device env (se_user_id se) (se_device_id se)) as [cached| | |] eqn:F;
      try done. cbn [res_bind] in E.
    match type of E with context [res_bind ?x _] => destruct x as [[card cr]| | |] eqn:S end; try done.
    destruct (sent_card_lasts env cached keypair se user_id card cr F G H S) as (C & DV & L & T).
    cbn [res_bind] in E. destruct (client_join_card_to_messages card) as [mc| | |] eqn:M; try done.
    cbn [res_bind] in E. destruct (publish mc) as [[]| | |] eqn:PB; try done. injection E as <- <- <-.
    exists mc. split_and!; [done|done| |].
    + unfold client_join_card_to_messages in M. destruct (_ <? _)%Z; [done|]. by injection M as <-.
    + intros later [L0 L1]. eapply published_accepted; try done; [by rewrite DV|].
      specialize (T later L1). clear -T. lia.
Qed.
End Publishing.

(** ** Attestations *)

Section AttestationTheory.
Context {ed : Ed25519} {edl : Ed25519Laws} {ca : CborSer PinAttestationSignable}.

(** The statement holds under a key: the fields are sound and the key signed them. *)
Definition attested_by (key : array 32) (a : PinAttestation) : Prop :=
  validate_fields a = Ok tt
  ∧ ∃ m sig, cbor_to_vec (statement a) = Ok m ∧ array_of 64 (pa_signature a) = Some sig
      ∧ dalek_verify key m sig = None.

Lemma attestation_verify_sound a key :
  PinAttestation_verify a (arr key) = Ok tt → attested_by key a.
Proof.
  unfold PinAttestation_verify, signable_bytes. intros E.
  destruct (validate_fields a) as [[]| | |] eqn:V; try done. cbn [res_bind] in E.
  unfold VerifyingKey_from_bytes, VERIFYING_KEY_LEN in E. rewrite array_of_arr in E.
  destruct (dalek_point_error key); [done|]. cbn [map_err res_bind] in E.
  unfold Signature_from_bytes, SIGNATURE_LEN in E.
  destruct (array_of 64 (pa_signature a)) as [sig|] eqn:S; [|done]. cbn [map_err res_bind] in E.
  destruct (cbor_to_vec (statement a)) as [m| | |] eqn:C; try done. cbn [map_err res_bind] in E.
  unfold VerifyingKey_verify in E. cbn [vk_inner sig_inner] in E.
  destruct (dalek_verify key m sig) eqn:D; [done|]. split; [done|]. by exists m, sig.
Qed.

(** A signed statement verifies under the public key of its signer. *)
Theorem attestation_roundtrip (k : SigningKey) vu vd su sd key t a :
  PinAttestation_sign (mkEd25519KeyPair k (SigningKey_verifying_key k)) vu vd su sd key t = Ok a →
  PinAttestation_verify a (arr (VerifyingKey_to_bytes (SigningKey_verifying_key k))) = Ok tt
  ∧ statement a = mkPinAttestationSignable PIN_ATTESTATION_PURPOSE PIN_ATTESTATION_VERSION vu vd su sd key t.
Proof using edl.
  unfold PinAttestation_sign. cbv zeta. intros E.
  destruct (validate_fields _) as [[]| | |] eqn:V; try done. cbn [res_bind] in E.
  unfold signable_bytes in E.
  destruct (cbor_to_vec _) as [m| | |] eqn:C; try done. cbn [map_err res_bind] in E.
  unfold KeyPair_sign_bytes in E. cbn [kp_signing_key] in E.
  destruct (SigningKey_sign k m) as [sig| | |] eqn:S; try done. cbn [res_bind] in E. injection E as <-.
  split; [|done]. unfold PinAttestation_verify, signable_bytes.
  lazymatch type of V with ?lhs = _ => lazymatch goal with
    |- context [validate_fields ?b] => change (validate_fields b) with lhs end end.
  rewrite V. cbn [res_bind]. rewrite VerifyingKey_from_to_bytes by apply dalek_public_valid.
  cbn [map_err res_bind pa_signature]. erewrite Signature_from_to_bytes by done. cbn [map_err res_bind].
  lazymatch type of C with ?lhs = _ => lazymatch goal with
    |- context [cbor_to_vec (statement ?b)] => change (cbor_to_vec (statement b)) with lhs end end.
  rewrite C. cbn [map_err res_bind]. by rewrite (sign_verify _ _ _ S).
Qed.
End AttestationTheory.

(** ** What a check may change

    On the map of pins. *)

Section Vouching.
Context {sha : Sha256} {hex : Hex} {pj : PinJson} {rfc : Rfc3339} {ed : Ed25519} {uuid : UuidText}.
Context {chrono : Chrono} {txt : CliText}.
Context {cc : CborSer SignableJoinCard} {ca : CborSer PinAttestationSignable}.
Context {St : Type} {cs : ConfigStore St} {pjl : PinJsonLaws} {csl : ConfigStoreLaws St}.

Definition card_pair (card : ClientJoinCard) : string * string :=
  (uuid_to_string (cj_user_id card), cj_device_id card).

(** Another device of the account, checked here in person, signed this key of this device. *)
Definition vouched (cfg : PinningConfig) (now : Z) (me my_device : string) (m : PinMap) (user device : string)
    (key : bytes) (v : string) : Prop :=
  ∃ a p, m !! (me, v) = Some p ∧ direct p = true ∧ expired cfg now p = None
    ∧ attested_by (pk_identity_public_key p) a ∧ pa_verifier_user_id a = me ∧ pa_verifier_device_id a = v
    ∧ v ≠ my_device ∧ v ≠ device
    ∧ pa_subject_user_id a = user ∧ pa_subject_device_id a = device ∧ pa_subject_identity_public_key a = key.

Lemma vouches_for_sound a user device card p :
  attestation_vouches_for a user device card p = true →
  pa_verifier_user_id a = user ∧ pa_verifier_device_id a ≠ device
  ∧ pa_subject_user_id a = uuid_to_string (cj_user_id card) ∧ pa_subject_device_id a = cj_device_id card
  ∧ pa_subject_identity_public_key a = cj_identity_public card
  ∧ ∃ pin, p = Some pin ∧ direct pin = true ∧ attested_by (pk_identity_public_key pin) a.
Proof.
  unfold attestation_vouches_for. repeat case_bool_decide; cbn [orb]; try done.
  destruct p as [pin|]; [|done]. intros E. apply andb_prop in E as [E V]. apply andb_prop in E as [D _].
  destruct (PinAttestation_verify a _) as [[]| | |] eqn:P; try done.
  apply attestation_verify_sound in P. split_and!; try tauto. by exists pin.
Qed.

Lemma attested_not_self key a : attested_by key a → pa_verifier_device_id a ≠ pa_subject_device_id a.
Proof.
  intros [V _]. unfold validate_fields in V. destruct (negb _); [done|].
  destruct (existsb _ _); [done|]. by case_bool_decide.
Qed.

(** The loop reads and returns; what it finds is vouched for. *)
Lemma first_vouching_spec U cfg now se card l s m :
  stores U s m → Forall (λ a, (se_user_id se, pa_verifier_device_id a) ∈ U) l →
  ∃ o, first_vouching cfg now se card l s = (Ok o, s)
    ∧ ∀ v, o = Some v → vouched cfg now (se_user_id se) (se_device_id se) m (uuid_to_string (cj_user_id card))
                          (cj_device_id card) (cj_identity_public card) v.
Proof using pjl.
  intros H F. induction F as [|a l I F IH]; [by exists None|]. cbn [first_vouching].
  unfold st_bind at 1, st_try. rewrite (get_spec cfg U s m) by done.
  set (p := match spec_get cfg now (se_user_id se) (pa_verifier_device_id a) m with Ok o => o | _ => None end).
  assert (∃ x, (match (spec_get cfg now (se_user_id se) (pa_verifier_device_id a) m, s) with
      | (Ok a, s) => (Ok (inr a), s) | (Err e, s) => (Ok (inl e), s)
      | (Panic, s) => (Panic, s) | (Diverge, s) => (Diverge, s) end) = (Ok x, s)
      ∧ match x with inr o => o | inl _ => None end = p) as (x & -> & ->).
  { subst p. unfold spec_get. destruct (m !! _) as [q|]; [destruct (expired cfg now q)|]; eexists; done. }
  destruct (attestation_vouches_for a (se_user_id se) (se_device_id se) card p) eqn:V; [|exact IH].
  eexists. split; [done|]. intros v [= <-].
  apply vouches_for_sound in V as (A1 & A2 & A3 & A4 & A5 & pin & P & D & A).
  subst p. unfold spec_get in P. destruct (m !! _) as [q|] eqn:L; [|done].
  destruct (expired cfg now q) eqn:X; [done|]. injection P as ->.
  exists a, pin. pose proof (attested_not_self _ _ A). split_and!; try done. by rewrite <-A4.
Qed.

Lemma own_device_attestation_spec U env cfg card s m me :
  stores U s m → (∀ se, ce_auth env = Ok se → se_user_id se = me) →
  Forall (λ a, (me, pa_verifier_device_id a) ∈ U) (ce_attestations env) →
  ∃ o, own_device_attestation_for env cfg card s = (Ok o, s)
    ∧ ∀ v, o = Some v → ∃ my_device, vouched cfg (ce_now env) me my_device m (uuid_to_string (cj_user_id card))
                          (cj_device_id card) (cj_identity_public card) v.
Proof using pjl.
  intros H A F. unfold own_device_attestation_for. destruct (ce_auth env) as [se| | |]; try (by exists None).
  pose proof (A se eq_refl) as <-.
  destruct (first_vouching_spec U cfg (ce_now env) se card (ce_attestations env) s m H F) as (o & -> & V).
  exists o. split; [done|]. intros v E. exists (se_device_id se). by apply V.
Qed.

(** The result of writing a pin: stored, or a failure that changed nothing. *)
Definition written {A : Type} (U : list (string * string)) (s : St) (m : PinMap) (pair : string * string) (p : PinnedKey)
    (a : A) (run : res PinningError A * St) : Prop :=
  (∃ s', run = (Ok a, s') ∧ stores U s' (<[pair := p]> m))
  ∨ (∃ e s', run = (Err (PeStorage e), s') ∧ storage_fails s e ∧ stores U s' m).

Lemma pin_key_spec U now u d k meth n s m :
  distinct_keys U → stores U s m → (u, d) ∈ U →
  let p := mkPinnedKey u d (VerifyingKey_to_bytes k) (generate_fingerprint (VerifyingKey_to_bytes k)) now true
             (Some now) meth n in
  written U s m (u, d) p p (pin_key now u d k meth n s).
Proof using pjl csl.
  intros D H I p. unfold pin_key, st_bind. cbv zeta. fold p.
  destruct (write_spec U s m u d p D H I) as [(s' & -> & S)|(e & s' & -> & B & S)].
  - left. by exists s'.
  - right. by exists e, s'.
Qed.

Lemma mark_spec U cfg now u d meth s m q :
  distinct_keys U → stores U s m → (u, d) ∈ U → spec_get cfg now u d m = Ok (Some q) →
  let p := mkPinnedKey (pk_user_id q) (pk_device_id q) (pk_identity_public_key q) (pk_fingerprint q)
             (pk_pinned_at q) true (Some now) meth (pk_notes q) in
  written U s m (u, d) p p (mark_pin_verified cfg now u d meth s).
Proof using pjl csl.
  intros D H I G p. unfold mark_pin_verified, get_or_missing, st_bind, st_lift. cbv zeta.
  rewrite (get_spec cfg U s m) by done. rewrite G. cbn [ok_or]. fold p.
  destruct (write_spec U s m u d p D H I) as [(s' & -> & S)|(e & s' & -> & B & S)].
  - left. by exists s'.
  - right. by exists e, s'.
Qed.

(** Changing notes: settled, and the pin is otherwise as it was. *)
Definition with_notes (n : option string) (p : PinnedKey) : PinnedKey :=
  mkPinnedKey (pk_user_id p) (pk_device_id p) (pk_identity_public_key p) (pk_fingerprint p)
    (pk_pinned_at p) (pk_verified p) (pk_verified_at p) (pk_verification_method p) n.
Lemma notes_spec U cfg now u d n s m :
  distinct_keys U → stores U s m → (u, d) ∈ U →
  ∃ r s' m', update_pin_notes cfg now u d n s = (r, s') ∧ (r = Ok tt ∨ ∃ e, r = Err e) ∧ stores U s' m'
    ∧ (m' = m ∨ ∃ q, m !! (u, d) = Some q ∧ m' = <[(u, d) := with_notes n q]> m).
Proof using pjl csl.
  intros D H I. unfold update_pin_notes, get_or_missing, st_bind, st_lift.
  rewrite (get_spec cfg U s m) by done. unfold spec_get.
  destruct (m !! (u, d)) as [q|] eqn:L; [|eexists _, _, m; naive_solver].
  destruct (expired cfg now q); [eexists _, _, m; naive_solver|]. cbn [ok_or].
  destruct (write_spec U s m u d (with_notes n q) D H I) as [(s' & E & S)|(e & s' & E & _ & S)];
    unfold with_notes in E; rewrite E.
  - eexists _, _, _. naive_solver.
  - eexists _, _, m. naive_solver.
Qed.

(** The pins after a check. *)
Inductive check_effect (env : CheckEnv) (cached : bool) (me : string) (card : ClientJoinCard) (m : PinMap)
  : res CliError JoinCardPinState → PinMap → Prop :=
| check_same r :
    (∀ v, r ≠ Ok (RestoredFromOwnDevice v)) → r ≠ Ok RestoredFromCache →
    (r = Ok AlreadyPinned → ∃ p, m !! card_pair card = Some p ∧ pk_verified p = true
       ∧ arr (pk_identity_public_key p) = cj_identity_public card) →
    check_effect env cached me card m r m
| check_vouched cfg my_device v p :
    vouched cfg (ce_now env) me my_device m (uuid_to_string (cj_user_id card)) (cj_device_id card)
      (cj_identity_public card) v →
    pk_verified p = true → pk_verification_method p = OwnDevice →
    arr (pk_identity_public_key p) = cj_identity_public card →
    check_effect env cached me card m (Ok (RestoredFromOwnDevice v)) (<[card_pair card := p]> m)
| check_cached p :
    cached = true → m !! card_pair card = None → direct p = true →
    arr (pk_identity_public_key p) = cj_identity_public card →
    check_effect env cached me card m (Ok RestoredFromCache) (<[card_pair card := p]> m).

Definition checked U env cached me card m (run : res CliError JoinCardPinState * St) : Prop :=
  ∃ r s' m', run = (r, s') ∧ stores U s' m' ∧ check_effect env cached me card m r m'.

(** A check that leaves the pins alone. *)
Lemma checked_same U env cached me card m s r :
  stores U s m → (∀ v, r ≠ Ok (RestoredFromOwnDevice v)) → r ≠ Ok RestoredFromCache → r ≠ Ok AlreadyPinned →
  checked U env cached me card m (r, s).
Proof. intros H A B C. exists r, s, m. split; [done|]. split; [done|]. by constructor. Qed.

Lemma identity_key_of card key :
  array_of 32 (cj_identity_public card) = Some key → arr key = cj_identity_public card.
Proof. apply array_of_Some. Qed.
Lemma verifying_key_of (key : array 32) vk :
  identity_verifying_key (arr key) = Ok vk → VerifyingKey_to_bytes vk = key.
Proof.
  unfold identity_verifying_key, VerifyingKey_from_bytes, VERIFYING_KEY_LEN. rewrite array_of_arr.
  destruct (dalek_point_error key); [done|]. cbn [map_err]. by intros [= <-].
Qed.

(** A pin that another device vouched for was there unverified: it is verified now. *)
Lemma checked_mark U env cached me card m s cfg q v my_device (what : string) :
  distinct_keys U → stores U s m → card_pair card ∈ U →
  spec_get cfg (ce_now env) (uuid_to_string (cj_user_id card)) (cj_device_id card) m = Ok (Some q) →
  arr (pk_identity_public_key q) = cj_identity_public card →
  vouched cfg (ce_now env) me my_device m (uuid_to_string (cj_user_id card)) (cj_device_id card)
    (cj_identity_public card) v →
  checked U env cached me card m
    ((let* _ := pin_failed what (mark_pin_verified cfg (ce_now env) (uuid_to_string (cj_user_id card))
                                   (cj_device_id card) OwnDevice) in
      let* _ := st_try (update_pin_notes cfg (ce_now env) (uuid_to_string (cj_user_id card)) (cj_device_id card)
                          (Some (own_device_note (ce_now env) v))) in
      st_ret (RestoredFromOwnDevice v)) s).
Proof using pjl csl.
  intros D H I G K V. unfold st_bind at 1, pin_failed, st_map_err.
  destruct (mark_spec U cfg (ce_now env) _ _ OwnDevice s m q D H I G) as [(s1 & -> & S)|(e & s1 & -> & _ & S)];
    cbn [map_err]; [|by apply checked_same].
  unfold st_bind, st_try.
  match type of S with stores _ _ (<[_ := ?p]> m) => set (p1 := p) in * end.
  destruct (notes_spec U cfg (ce_now env) _ _ (Some (own_device_note (ce_now env) v)) s1 _ D S I)
    as (r & s2 & m2 & -> & R & S2 & E).
  assert (∃ p, m2 = <[card_pair card := p]> m ∧ pk_verified p = true ∧ pk_verification_method p = OwnDevice
            ∧ pk_identity_public_key p = pk_identity_public_key q) as (p & -> & P1 & P2 & P3).
  { destruct E as [->|(q' & L & ->)]; [by exists p1|]. rewrite lookup_insert_eq in L. injection L as <-.
    rewrite insert_insert_eq. by eexists. }
  destruct R as [->|[e ->]]; eexists _, _, _;
    (split; [reflexivity|]); (split; [exact S2|]); eapply check_vouched; try done; by rewrite P3.
Qed.

(** A pin that is written for a card that had none. *)
Lemma checked_pin U env cached me card m s meth n what (key : array 32) (state : JoinCardPinState) :
  distinct_keys U → stores U s m → card_pair card ∈ U → arr key = cj_identity_public card →
  (∀ p, pk_verified p = true → pk_verification_method p = meth →
     arr (pk_identity_public_key p) = cj_identity_public card →
     check_effect env cached me card m (Ok state) (<[card_pair card := p]> m)) →
  checked U env cached me card m
    ((let* vk := st_lift (identity_verifying_key (arr key)) in
      let* _ := pin_failed what (pin_key (ce_now env) (uuid_to_string (cj_user_id card)) (cj_device_id card)
                                   vk meth n) in
      st_ret state) s).
Proof using pjl csl.
  intros D H I K E. unfold st_bind at 1, st_lift.
  destruct (identity_verifying_key (arr key)) as [vk| | |] eqn:V; try (by apply checked_same).
  apply verifying_key_of in V. unfold st_bind, pin_failed, st_map_err.
  destruct (pin_key_spec U (ce_now env) _ _ vk meth n s m D H I) as [(s1 & -> & S)|(e & s1 & -> & _ & S)];
    cbn [map_err]; [|by apply checked_same].
  eexists _, _, _. split; [reflexivity|]. split; [exact S|]. apply E; try done. cbn. by rewrite V.
Qed.

Lemma check_spec U env cached me card s m :
  distinct_keys U → stores U s m → card_pair card ∈ U →
  (∀ se, ce_auth env = Ok se → se_user_id se = me) →
  Forall (λ a, (me, pa_verifier_device_id a) ∈ U) (ce_attestations env) →
  checked U env cached me card m (check_join_card_pin env cached card s).
Proof using pjl csl.
  intros D H I A F. unfold check_join_card_pin. cbv zeta. unfold st_bind at 1, st_lift at 1.
  destruct (ClientJoinCard_verify_signature card) as [[]| | |]; cbn [map_err]; try (by apply checked_same).
  destruct (negb _); [by apply checked_same|].
  unfold st_bind at 1, st_lift at 1. destruct (ce_unlock env) as [[]| | |]; try (by apply checked_same).
  unfold st_bind at 1, st_lift at 1. destruct (ce_config env) as [cfg| | |]; try (by apply checked_same).
  unfold st_bind at 1, st_lift at 1, identity_key_array.
  destruct (array_of 32 (cj_identity_public card)) as [key|] eqn:K; cbn [ok_or]; [|by apply checked_same].
  apply identity_key_of in K. unfold st_bind at 1, st_try at 1.
  rewrite (get_spec cfg U s m) by done.
  destruct (own_device_attestation_spec U env cfg card s m me H A F) as (o & O & V).
  destruct (spec_get cfg (ce_now env) _ _ m) as [[q|]|e| |] eqn:G.
  - destruct (decide (pk_identity_public_key q = key)) as [<-|N].
    2: { rewrite bool_decide_true by done. by apply checked_same. }
    rewrite bool_decide_false by auto. destruct (pk_verified q) eqn:Q.
    + exists (Ok AlreadyPinned), s, m. split; [done|]. split; [done|]. apply check_same; try done. intros _.
      exists q. unfold spec_get in G. destruct (m !! _) as [q'|] eqn:L; [|done].
      destruct (expired cfg (ce_now env) q'); [done|]. by injection G as ->.
    + unfold st_bind at 1. rewrite O. destruct o as [v|]; [|by apply checked_same].
      destruct (V v eq_refl) as [my W]. by eapply checked_mark.
  - unfold st_bind at 1, st_lift at 1.
    set (c := if cached then _ else _). assert (∀ x, c = Ok (Some x) → cached = true) as C.
    { subst c. by destruct cached. }
    assert (m !! card_pair card = None) as L.
    { unfold spec_get in G. unfold card_pair. destruct (m !! _) as [q'|]; [|done]. by destruct (expired _ _ _). }
    destruct c as [o'| | |]; try (by apply checked_same).
    destruct o' as [x|]; [destruct (bool_decide _)|].
    + eapply checked_pin; try done. intros p P M E. apply check_cached; try done; [by eapply C|].
      unfold direct. by rewrite P, M.
    + unfold st_bind at 1. rewrite O. destruct o as [v|]; [|by apply checked_same].
      destruct (V v eq_refl) as [my W]. eapply checked_pin; try done. intros p P M E. by eapply check_vouched.
    + unfold st_bind at 1. rewrite O. destruct o as [v|]; [|by apply checked_same].
      destruct (V v eq_refl) as [my W]. eapply checked_pin; try done. intros p P M E. by eapply check_vouched.
  - destruct e; by apply checked_same.
  - unfold spec_get in G. destruct (m !! _) as [q'|]; [|done]. by destruct (expired _ _ _).
  - unfold spec_get in G. destruct (m !! _) as [q'|]; [|done]. by destruct (expired _ _ _).
Qed.

(** ** Trust travels one hop

    The device over time: a person checks keys (and [seen] remembers which), cards are
    checked against whatever the server relays, and pins are noted, dropped or taken over
    unverified. *)
Abbreviation Seen := (gset (string * string * array 32)).
Definition in_person (meth : PinningMethod) : bool :=
  match meth with Manual | SafetyNumber | QrCode => true | Unverified | OwnDevice => false end.

Section OneHop.
Variable me : string.
Variable U : list (string * string).

Inductive device_step : St * Seen → St * Seen → Prop :=
| step_person cfg now u d k meth n s seen r s' :
    in_person meth = true → (u, d) ∈ U →
    run_op cfg (OpPin now u d k meth n) s = (r, s') →
    device_step (s, seen) (s', {[(u, d, VerifyingKey_to_bytes k)]} ∪ seen)
| step_confirm cfg now u d meth p s seen r s' :
    in_person meth = true → (u, d) ∈ U → get_pinned_key cfg now u d s = (Ok (Some p), s) →
    run_op cfg (OpMark now u d meth) s = (r, s') →
    device_step (s, seen) (s', {[(u, d, pk_identity_public_key p)]} ∪ seen)
| step_other cfg op s seen r s' :
    match op with OpPin _ _ _ _ _ _ | OpMark _ _ _ _ => False | _ => True end → op_pair op ∈ U →
    run_op cfg op s = (r, s') →
    device_step (s, seen) (s', seen)
| step_check env card s seen r s' :
    card_pair card ∈ U → (∀ se, ce_auth env = Ok se → se_user_id se = me) →
    Forall (λ a, (me, pa_verifier_device_id a) ∈ U) (ce_attestations env) →
    check_join_card_pin_without_cache env card s = (r, s') →
    device_step (s, seen) (s', seen).

(** Why a pin is trusted. *)
Definition grounded (seen : Seen) (u d : string) (p : PinnedKey) : Prop :=
  if direct p then (u, d, pk_identity_public_key p) ∈ seen
  else ∃ v key a, (me, v, key) ∈ seen ∧ v ≠ d ∧ attested_by key a
         ∧ pa_verifier_user_id a = me ∧ pa_verifier_device_id a = v
         ∧ pa_subject_user_id a = u ∧ pa_subject_device_id a = d
         ∧ pa_subject_identity_public_key a = arr (pk_identity_public_key p).
Definition all_grounded (seen : Seen) (m : PinMap) : Prop :=
  ∀ u d p, m !! (u, d) = Some p → pk_verified p = true → grounded seen u d p.

Lemma grounded_mono seen seen' u d p : seen ⊆ seen' → grounded seen u d p → grounded seen' u d p.
Proof.
  intros S. unfold grounded. destruct (direct p); [set_solver|].
  intros (v & key & a & I & R). exists v, key, a. split; [set_solver|done].
Qed.
Lemma all_grounded_mono seen seen' m : seen ⊆ seen' → all_grounded seen m → all_grounded seen' m.
Proof. intros S G u d p L V. eapply grounded_mono; [exact S|]. by apply G. Qed.
Lemma all_grounded_insert seen m u d p :
  all_grounded seen m → (pk_verified p = true → grounded seen u d p) → all_grounded seen (<[(u, d) := p]> m).
Proof.
  intros G P u' d' p' L. destruct (decide ((u, d) = (u', d'))) as [[= <- <-]|N].
  - rewrite lookup_insert_eq in L. injection L as <-. exact P.
  - rewrite lookup_insert_ne in L by done. by apply G.
Qed.

Lemma op_all_grounded cfg op seen m :
  match op with OpPin _ _ _ _ _ _ | OpMark _ _ _ _ => False | _ => True end →
  all_grounded seen m → all_grounded seen (spec_op cfg op m).2.
Proof.
  intros O G. destruct op as [| | | |u d|now u d n|]; try done; cbn [spec_op snd].
  - by apply all_grounded_insert.
  - intros u' d' p L. apply lookup_delete_Some in L as [_ L]. by apply G.
  - unfold spec_modify, spec_get. destruct (m !! (u, d)) as [p|] eqn:L; [|done].
    destruct (expired cfg now p); [done|]. apply all_grounded_insert; [done|]. intros V.
    exact (G u d p L V).
Qed.

Lemma check_all_grounded env card seen m r m' :
  check_effect env false me card m r m' → all_grounded seen m → all_grounded seen m'.
Proof.
  intros [| cfg my v p V P1 P2 K|p C]; [done| |done]. intros G.
  apply all_grounded_insert; [done|]. intros _.
  destruct V as (a & q & L & D & X & A & E1 & E2 & E3 & E4 & E5 & E6 & E7).
  unfold grounded. unfold direct. rewrite P1, P2. cbn [andb].
  exists v, (pk_identity_public_key q), a.
  assert (pk_verified q = true) as Q by (unfold direct in D; by destruct (pk_verified q)).
  pose proof (G _ _ _ L Q) as R. unfold grounded in R. rewrite D in R.
  split_and!; try done. by rewrite K.
Qed.

Lemma op_stores cfg op s m r s' :
  distinct_keys U → stores U s m → op_pair op ∈ U → run_op cfg op s = (r, s') →
  stores U s' (spec_op cfg op m).2 ∨ stores U s' m.
Proof using pjl csl.
  intros D H I E. destruct (op_refines_all cfg U op s m D H I) as (r' & s'' & E' & R).
  rewrite E in E'. injection E' as <- <-. destruct R as [[_ S]|(? & _ & _ & S)]; auto.
Qed.

Lemma device_step_grounded s seen s' seen' m :
  distinct_keys U → device_step (s, seen) (s', seen') → stores U s m → all_grounded seen m →
  ∃ m', stores U s' m' ∧ all_grounded seen' m'.
Proof using pjl csl.
  intros D T H G. inversion T as [cfg now u d k meth n ? ? r ? P I E|cfg now u d meth p ? ? r ? P I GP E
    |cfg op ? ? r ? O I E|env card ? ? r ? I A F E]; subst.
  - pose proof (all_grounded_mono seen ({[(u, d, VerifyingKey_to_bytes k)]} ∪ seen) m ltac:(set_solver) G) as G'.
    destruct (op_stores cfg (OpPin now u d k meth n) s m r s' D H I E) as [S|S]; [|by exists m].
    eexists. split; [exact S|]. cbn [spec_op snd]. apply all_grounded_insert; [exact G'|].
    intros _. unfold grounded, direct. cbn [pk_verified pk_verification_method pk_identity_public_key andb].
    destruct meth; try done; set_solver.
  - pose proof (all_grounded_mono seen ({[(u, d, pk_identity_public_key p)]} ∪ seen) m ltac:(set_solver) G) as G'.
    destruct (op_stores cfg (OpMark now u d meth) s m r s' D H I E) as [S|S]; [|by exists m].
    eexists. split; [exact S|]. cbn [spec_op snd]. unfold spec_modify.
    rewrite (get_spec cfg U s m) in GP by done. injection GP as ->.
    apply all_grounded_insert; [exact G'|].
    intros _. unfold grounded, direct. cbn [pk_verified pk_verification_method pk_identity_public_key andb].
    destruct meth; try done; set_solver.
  - destruct (op_stores cfg op s m r s' D H I E) as [S|S]; [|by exists m].
    eexists. split; [exact S|]. by apply op_all_grounded.
  - destruct (check_spec U env false me card s m D H I A F) as (r' & s'' & m' & E' & S & C).
    unfold check_join_card_pin_without_cache in E. rewrite E in E'. injection E' as <- <-.
    exists m'. split; [done|]. by eapply check_all_grounded.
Qed.

End OneHop.

(** ** The gate of a welcome *)

(** The pin agrees with the card, as far as the policy asks. *)
Definition pin_permits (cfg : PinningConfig) (now : Z) (policy : PinningPolicy) (card : ClientJoinCard)
    (m : PinMap) : Prop :=
  match m !! card_pair card with
  | Some p => expired cfg now p = None ∧ arr (pk_identity_public_key p) = cj_identity_public card
              ∧ (policy = RequireVerified → pk_verified p = true)
  | None => policy = AllowUnverified
  end.


(** A pin that is too old is reported as corrupted storage, under both policies: also
    [AllowUnverified] refuses the card. *)
Theorem expired_pin_reported_corrupt U cfg now card policy s m p t :
  stores U s m → card_pair card ∈ U → card_signed card → (now < cj_expires_at card)%Z →
  m !! card_pair card = Some p → expired cfg now p = Some t →
  welcome_key_for_join_card cfg now card policy s
    = (Err (IvStorage (StCorruption ("Pinning verification failed: " +:+ pinning_debug (PeExpiredPin t)))), s).
Proof using pjl.
  intros H I C T L X. unfold welcome_key_for_join_card, st_bind at 1, st_lift at 1.
  rewrite (proj2 (verify_signature_iff card) C). unfold ClientJoinCard_is_valid.
  rewrite (proj2 (Z.ltb_lt _ _) T). cbn [negb].
  destruct C as (vk & _ & _ & K & _). apply from_bytes_length in K.
  unfold verify_join_card_with_pinning. cbv zeta.
  destruct (array_of 32 (cj_identity_public card)) as [key|] eqn:A.
  2: { unfold array_of in A. by destruct (decide (length (cj_identity_public card) = 32)). }
  cbn [ok_or]. unfold st_bind, st_try, st_lift. rewrite (get_spec cfg U s m) by done. unfold spec_get.
  change (uuid_to_string (cj_user_id card), cj_device_id card) with (card_pair card). by rewrite L, X.
Qed.

(** ** A verification reaches the account's other devices *)

Lemma vouches_for_complete a user device card p :
  pa_verifier_user_id a = user → pa_verifier_device_id a ≠ device →
  pa_subject_user_id a = uuid_to_string (cj_user_id card) → pa_subject_device_id a = cj_device_id card →
  pa_subject_identity_public_key a = cj_identity_public card →
  direct p = true → pk_device_id p = pa_verifier_device_id a →
  PinAttestation_verify a (arr (pk_identity_public_key p)) = Ok tt →
  attestation_vouches_for a user device card (Some p) = true.
Proof.
  intros A B C D E P Q V. unfold attestation_vouches_for. repeat (rewrite bool_decide_false; [|by auto]).
  cbn [orb]. rewrite P, V. by rewrite bool_decide_true.
Qed.

Lemma first_vouching_complete U cfg now se card l s m a p :
  stores U s m → Forall (λ a, (se_user_id se, pa_verifier_device_id a) ∈ U) l → a ∈ l →
  m !! (se_user_id se, pa_verifier_device_id a) = Some p → expired cfg now p = None →
  attestation_vouches_for a (se_user_id se) (se_device_id se) card (Some p) = true →
  ∃ v, first_vouching cfg now se card l s = (Ok (Some v), s).
Proof using pjl.
  intros H F A L X V. induction F as [|b l I F IH]; [by apply not_elem_of_nil in A|].
  cbn [first_vouching]. unfold st_bind at 1, st_try. rewrite (get_spec cfg U s m) by done.
  apply list.elem_of_cons in A as [<-|A].
  - unfold spec_get. rewrite L, X. rewrite V. by eexists.
  - unfold spec_get. destruct (m !! (se_user_id se, pa_verifier_device_id b)) as [q|];
      [destruct (expired cfg now q)|]; cbv beta iota zeta;
      (destruct (attestation_vouches_for b _ _ _ _); [by eexists|by apply IH]).
Qed.

(** What [publish_pin_attestation] sends for a pin. *)
Lemma published_attestation me v k pin a :
  attestation_to_publish (Ok (mkSession me v)) (Ok k) pin = Ok (Some a) →
  direct pin = true ∧ pk_device_id pin ≠ v
  ∧ PinAttestation_sign k me v (pk_user_id pin) (pk_device_id pin) (arr (pk_identity_public_key pin))
      (default (pk_pinned_at pin) (pk_verified_at pin)) = Ok a.
Proof.
  unfold attestation_to_publish. cbn [res_bind se_user_id se_device_id]. destruct (direct pin); [|done].
  case_bool_decide; [done|]. cbn [negb orb].
  destruct (PinAttestation_sign k me v _ _ _ _) as [b| | |]; try done. cbn [map_err res_bind]. by intros [= ->].
Qed.

(** The bytes that a device has signed: its cards and what it published of its pins. *)
Definition signed_by_device (me v : string) (k : Ed25519KeyPair) (cards : list SignableJoinCard)
    (pins : list PinnedKey) (m : bytes) : Prop :=
  (∃ c, c ∈ cards ∧ cbor_to_vec c = Ok m)
  ∨ (∃ pin a, pin ∈ pins ∧ attestation_to_publish (Ok (mkSession me v)) (Ok k) pin = Ok (Some a)
       ∧ cbor_to_vec (statement a) = Ok m).

(** A statement whose bytes the verifying device did sign is about a key that was checked in
    person there: cards and statements are never taken for each other, and the bytes tell
    which user, device and key they are about. *)
Theorem statement_was_checked {cal : CborSerLaws PinAttestationSignable}
    {ccd : CborDistinct SignableJoinCard PinAttestationSignable} me v k cards pins key a :
  attested_by key a →
  (∀ m, cbor_to_vec (statement a) = Ok m → signed_by_device me v k cards pins m) →
  ∃ pin, pin ∈ pins ∧ direct pin = true ∧ pk_device_id pin ≠ v
    ∧ pa_verifier_user_id a = me ∧ pa_verifier_device_id a = v
    ∧ pa_subject_user_id a = pk_user_id pin ∧ pa_subject_device_id a = pk_device_id pin
    ∧ pa_subject_identity_public_key a = arr (pk_identity_public_key pin).
Proof.
  intros (_ & m & _ & C & _) S. destruct (S m C) as [(c & _ & E)|(pin & b & I & P & E)].
  - destruct (cbor_distinct c (statement a) m m E C). done.
  - assert (statement b = statement a) as Q by by eapply cbor_to_vec_inj.
    apply published_attestation in P as (D & N & G). exists pin.
    unfold PinAttestation_sign in G. cbv zeta in G. destruct (validate_fields _) as [[]| | |]; try done.
    cbn [res_bind] in G. destruct (signable_bytes _) as [x| | |]; try done. cbn [res_bind] in G.
    destruct (KeyPair_sign_bytes k x) as [y| | |]; try done. injection G as <-.
    unfold statement in Q. cbn in Q. split_and!; congruence.
Qed.

(** What one device of the account verified and published, the others accept: when the
    publishing device signs with the key that is pinned here for it, a check of the card
    pins the card's key on the word of a device of the account, or the storage fails. *)
Theorem published_verification_accepted {edl : Ed25519Laws} U env cfg se me v k pin a q card s m :
  attestation_to_publish (Ok (mkSession me v)) (Ok (mkEd25519KeyPair k (SigningKey_verifying_key k))) pin
    = Ok (Some a) →
  a ∈ ce_attestations env →
  m !! (me, v) = Some q → direct q = true → expired cfg (ce_now env) q = None → pk_device_id q = v →
  pk_identity_public_key q = VerifyingKey_to_bytes (SigningKey_verifying_key k) →
  ce_auth env = Ok se → se_user_id se = me → se_device_id se ≠ v →
  ce_unlock env = Ok tt → ce_config env = Ok cfg →
  card_signed card → (ce_now env < cj_expires_at card)%Z → card_pair card = (pk_user_id pin, pk_device_id pin) →
  cj_identity_public card = arr (pk_identity_public_key pin) → m !! card_pair card = None →
  distinct_keys U → stores U s m → card_pair card ∈ U →
  Forall (λ a, (me, pa_verifier_device_id a) ∈ U) (ce_attestations env) →
  ∃ r s', check_join_card_pin_without_cache env card s = (r, s')
    ∧ ((∃ v', r = Ok (RestoredFromOwnDevice v')) ∨ ∃ msg, r = Err (CliPinningFailed msg)).
Proof using pjl csl.
  intros P A Q DQ XQ VQ KQ AU ME DV UL CF CS TM CP CK NO D H I F. subst me.
  apply published_attestation in P as (DP & NP & SG).
  apply attestation_roundtrip in SG as [VF ST]. injection ST as S1 S2 S3 S4 S5 S6 S7.
  injection CP as CP1 CP2.
  assert (attestation_vouches_for a (se_user_id se) (se_device_id se) card (Some q) = true) as VO.
  { apply vouches_for_complete; congruence. }
  destruct (first_vouching_complete U cfg (ce_now env) se card (ce_attestations env) s m a q) as [v' FV];
    try done; [congruence|].
  unfold check_join_card_pin_without_cache, check_join_card_pin. cbv zeta. unfold st_bind at 1, st_lift at 1.
  rewrite (proj2 (verify_signature_iff card) CS). cbn [map_err].
  unfold ClientJoinCard_is_valid. rewrite (proj2 (Z.ltb_lt _ _) TM). cbn [negb].
  unfold st_bind at 1, st_lift at 1. rewrite UL. unfold st_bind at 1, st_lift at 1. rewrite CF.
  unfold st_bind at 1, st_lift at 1, identity_key_array. rewrite CK, array_of_arr. cbn [ok_or].
  unfold st_bind at 1, st_try at 1. rewrite (get_spec cfg U s m) by done. unfold spec_get.
  change (uuid_to_string (cj_user_id card), cj_device_id card) with (card_pair card). rewrite NO.
  unfold st_bind at 1, st_lift at 1. unfold st_bind at 1, own_device_attestation_for. rewrite AU, FV.
  unfold st_bind at 1, st_lift at 1. destruct CS as (vk & _ & _ & KB & _). rewrite CK in KB.
  unfold identity_verifying_key. rewrite KB. cbn [map_err]. unfold st_bind, pin_failed, st_map_err.
  edestruct (pin_key_spec U (ce_now env) (uuid_to_string (cj_user_id card)) (cj_device_id card) vk OwnDevice)
    as [(s1 & -> & _)|(e & s1 & -> & _)]; try done; eexists _, _; (split; [reflexivity|]); [left|right];
    by eexists.
Qed.
End Vouching.

(** ** Concrete devices *)

Definition toy_cbor_card : CborSer SignableJoinCard := λ c,
  Ok (x00 :: ser (sj_user_id c, sj_device_id c, sj_identity_public c, sj_invitation_public c, sj_expires c)).
Definition toy_cbor_attestation : CborSer PinAttestationSignable := λ a,
  Ok (x01 :: ser (ps_purpose a, ps_version a, ps_verifier_user_id a, ps_verifier_device_id a,
                  ps_subject_user_id a, ps_subject_device_id a, ps_subject_identity_public_key a,
                  (Z.to_N (ps_verified_at a), Z.to_N (- ps_verified_at a)))).
Lemma toy_cbor_card_laws : @CborSerLaws _ toy_cbor_card.
Proof.
  split; [by eexists|]. intros [] [] b [= <-] [= E]. apply ser_inj in E. cbn in E. by simplify_eq.
Qed.
Lemma toy_cbor_attestation_laws : @CborSerLaws _ toy_cbor_attestation.
Proof.
  split; [by eexists|]. intros [????????] [????????] b [= <-] [= E]. apply ser_inj in E. cbn in E.
  simplify_eq. f_equal. lia.
Qed.
Lemma toy_cbor_distinct : @CborDistinct _ _ toy_cbor_card toy_cbor_attestation.
Proof. intros a b x y [= <-] [= <-]. done. Qed.
Lemma toy_chrono_laws : @ChronoLaws toy_chrono.
Proof. by intros s t [= <-]. Qed.
Definition toy_cli_text : CliText := {|
  datetime_display _ := "then"%string;
  pinning_debug _ := "error"%string;
  uuid_parse_error _ := "invalid"%string;
|}.

Section Examples.
#[local] Existing Instances toy_sha256 toy_hex toy_pin_json toy_rfc3339 toy_ed25519 mock_config_store
  toy_uuid_text toy_chrono toy_cbor_card toy_cbor_attestation toy_cli_text toy_x25519 toy_mlkem
  toy_crypto_debug toy_pin_json_laws mock_config_store_laws toy_ed25519_laws toy_chrono_laws.

Definition no_keys : InvitationKeyPair := mkInvitationKeyPair "" [] [] [] [] 0 0.
Definition toy_keys (seed : N) (dev : string) : InvitationKeyPair :=
  match InvitationKeyPair_generate (num_array 32 3) (le_bytes 4 3) (num_array 32 seed) link_day dev with
  | Ok k => k
  | _ => no_keys
  end.
Definition no_card : ClientJoinCard := mkClientJoinCard (zeros 16) "" [] [] 0 [].
Definition toy_card (seed : N) (dev : string) (user : Uuid) : ClientJoinCard :=
  match create_join_card link_day (toy_keys seed dev) user with Ok c => c | _ => no_card end.

(** An account with a laptop and a phone, and another user's tablet. *)
Definition me_uuid : Uuid := num_array 16 1.
Definition me : string := uuid_to_string me_uuid.
Definition bob_uuid : Uuid := num_array 16 2.
Definition bob_card : ClientJoinCard := toy_card 5 "tablet" bob_uuid.
Definition phone_card : ClientJoinCard := toy_card 6 "phone" me_uuid.
Definition toy_pairs : list (string * string) := [(me, "phone"); (uuid_to_string bob_uuid, "tablet")]%string.
Definition toy_vk (seed : N) : VerifyingKey := SigningKey_verifying_key (mkSigningKey (num_array 32 seed)).
Definition toy_kp (seed : N) : Ed25519KeyPair :=
  mkEd25519KeyPair (mkSigningKey (num_array 32 seed)) (toy_vk seed).

(** On the phone: Bob's tablet was checked in person, and the statement is signed with the
    key pair of that seed. *)
Definition phone_pin_of_bob : PinnedKey :=
  mkPinnedKey (uuid_to_string bob_uuid) "tablet" (vk_inner (toy_vk 5)) "fp" link_day true (Some link_day) QrCode None.
Definition toy_statement (seed : N) : list PinAttestation :=
  match attestation_to_publish (Ok (mkSession me "phone")) (Ok (toy_kp seed)) phone_pin_of_bob with
  | Ok (Some a) => [a]
  | _ => []
  end.
(** On the laptop: the phone's card was checked in person. *)
Definition laptop_pin_of_phone : PinnedKey :=
  mkPinnedKey me "phone" (vk_inner (toy_vk 6)) (generate_fingerprint (vk_inner (toy_vk 6))) link_day true
    (Some link_day) Manual None.
Definition laptop_store : MockStorage :=
  (pin_key link_day me "phone" (toy_vk 6) Manual None MockStorage_new).2.
Definition laptop_env (cached : list ClientJoinCard) (l : list PinAttestation) : CheckEnv :=
  mkCheckEnv (Ok (mkSession me "laptop")) (Ok tt) (Ok PinningConfig_default) (Ok cached) l next_day.

Lemma toy_distinct : distinct_keys toy_pairs.
Proof. apply (bool_decide_unpack _). vm_compute. reflexivity. Qed.
Lemma new_stores U : stores U MockStorage_new ∅.
Proof. intros p _. rewrite lookup_empty. by exists None. Qed.
Lemma laptop_stores : stores toy_pairs laptop_store {[(me, "phone"%string) := laptop_pin_of_phone]}.
Proof.
  destruct (pin_key_spec toy_pairs link_day me "phone" (toy_vk 6) Manual None MockStorage_new ∅ toy_distinct
    (new_stores _) ltac:(by left)) as [(s' & E & S)|(e & s' & _ & [(k & v & B)|(k & B)] & _)]; [|discriminate B..].
  unfold laptop_store. rewrite E. exact S.
Qed.
Lemma bob_signed : card_signed bob_card.
Proof. apply verify_signature_iff. vm_compute. reflexivity. Qed.

Lemma join_card_roundtrip_witness :
  ClientJoinCard_verify_signature bob_card = Ok tt
  ∧ ∃ mc, client_join_card_to_messages bob_card = Ok mc
      ∧ ∀ later, (0 ≤ later)%Z →
          JoinCard_validate_complete later mc = Ok tt ↔ (timestamp later ≤ timestamp (link_day + days 30) + 300)%Z.
Proof.
  apply (join_card_roundtrip (num_array 32 3) (le_bytes 4 3) (num_array 32 5) link_day "tablet"
    (toy_keys 5 "tablet") link_day bob_uuid bob_card); [vm_compute; reflexivity|vm_compute; reflexivity| |];
    vm_compute; discriminate.
Defined.

Lemma attestation_roundtrip_witness :
  match toy_statement 6 with
  | [a] => PinAttestation_verify a (arr (VerifyingKey_to_bytes (toy_vk 6))) = Ok tt
  | _ => False
  end.
Proof.
  assert (length (toy_statement 6) = 1) as L by (vm_compute; reflexivity).
  destruct (toy_statement 6) as [|a [|]] eqn:E; [discriminate L| |discriminate L].
  apply (attestation_roundtrip (mkSigningKey (num_array 32 6)) me "phone" (uuid_to_string bob_uuid) "tablet"
    (arr (vk_inner (toy_vk 5))) link_day a).
  apply (published_attestation me "phone" (toy_kp 6) phone_pin_of_bob a).
  unfold toy_statement in E. destruct (attestation_to_publish _ _ _) as [[b|]| | |]; congruence.
Defined.

Lemma published_card_lasts_witness :
  match ensure_join_card_published (laptop_env [] []) (Ok []) (Ok (toy_keys 9 "laptop")) (λ _, Ok tt) with
  | Ok (Published, _, payload) =>
      ∃ mc, payload = Some mc ∧ jc_device_id mc = "laptop"%string
        ∧ ∀ later, (0 ≤ later ≤ next_day + days 7)%Z → JoinCard_validate_complete later mc = Ok tt
  | _ => False
  end.
Proof.
  assert (match ensure_join_card_published (laptop_env [] []) (Ok []) (Ok (toy_keys 9 "laptop")) (λ _, Ok tt) with
          | Ok (Published, _, _) => true | _ => false end = true) as P by (vm_compute; reflexivity).
  destruct (ensure_join_card_published _ _ _ _) as [[[[] created] payload]| | |] eqn:E; try discriminate P.
  assert (∃ mc, payload = Some mc ∧ Ok tt = Ok (E := CliError) tt ∧ jc_device_id mc = "laptop"%string
    ∧ ∀ later, (0 ≤ later ≤ next_day + days 7)%Z → JoinCard_validate_complete later mc = Ok tt) as (mc & A & _ & B).
  { apply (published_card_lasts (laptop_env [] []) (Ok []) (Ok (toy_keys 9 "laptop")) (λ _, Ok tt)
      (mkSession me "laptop") Published created payload E eq_refl).
    - done.
    - intros u. change (String.string_of_list_byte (arr u) ≠ ""%string).
      pose proof (arr_length u). by destruct (arr u).
    - intros k K. rewrite <-(Ok_inj _ _ K). exists (num_array 32 3), (le_bytes 4 3), (num_array 32 9), link_day. vm_compute. reflexivity.
    - intros l c L I. rewrite <-(Ok_inj _ _ L) in I. destruct (not_elem_of_nil c I). }
  exists mc. split; [exact A|exact B].
Defined.

(** The person at the laptop checks the phone; later a statement of the phone vouches for
    Bob's tablet. *)
Definition seen_phone : gset (string * string * array 32) := {[(me, "phone"%string, vk_inner (toy_vk 6))]} ∪ ∅.
Definition laptop_after : MockStorage :=
  (check_join_card_pin_without_cache (laptop_env [] (toy_statement 6)) bob_card laptop_store).2.

Lemma statement_pairs : Forall (λ a, (me, pa_verifier_device_id a) ∈ toy_pairs) (toy_statement 6).
Proof.
  assert (forallb (λ a, bool_decide (pa_verifier_device_id a = "phone"%string)) (toy_statement 6) = true) as H
    by (vm_compute; reflexivity).
  apply list.Forall_forall. intros a A. rewrite forallb_forall in H.
  pose proof (H a (proj1 (list_elem_of_In _ _) A)) as E. apply bool_decide_eq_true in E. rewrite E. left.
Qed.


Lemma statement_was_checked_witness :
  match toy_statement 6 with
  | [a] => ∃ pin, pin ∈ [phone_pin_of_bob] ∧ direct pin = true ∧ pk_device_id pin ≠ "phone"%string
      ∧ pa_verifier_user_id a = me ∧ pa_verifier_device_id a = "phone"%string
      ∧ pa_subject_user_id a = pk_user_id pin ∧ pa_subject_device_id a = pk_device_id pin
      ∧ pa_subject_identity_public_key a = arr (pk_identity_public_key pin)
  | _ => False
  end.
Proof.
  assert (match toy_statement 6 with
          | [a] => is_ok (PinAttestation_verify a (arr (vk_inner (toy_vk 6)))) | _ => false end = true) as L
    by (vm_compute; reflexivity).
  destruct (toy_statement 6) as [|a [|]] eqn:E; [discriminate L| |discriminate L].
  apply (statement_was_checked (cal := toy_cbor_attestation_laws) (ccd := toy_cbor_distinct) me "phone" (toy_kp 6)
    [] [phone_pin_of_bob] (vk_inner (toy_vk 6)) a).
  - apply attestation_verify_sound. destruct (PinAttestation_verify a _) as [[]| | |]; [reflexivity|discriminate L..].
  - intros m M. right. exists phone_pin_of_bob, a. split; [left|]. split; [|exact M].
    unfold toy_statement in E. destruct (attestation_to_publish _ _ _) as [[b|]| | |]; congruence.
Defined.

Lemma published_verification_accepted_witness :
  ∃ r s', check_join_card_pin_without_cache (laptop_env [] (toy_statement 6)) bob_card laptop_store = (r, s')
    ∧ ((∃ v', r = Ok (RestoredFromOwnDevice v')) ∨ ∃ msg, r = Err (CliPinningFailed msg)).
Proof.
  assert (length (toy_statement 6) = 1) as L by (vm_compute; reflexivity).
  destruct (toy_statement 6) as [|a [|]] eqn:E; [discriminate L| |discriminate L]. rewrite <-E.
  pose proof (published_verification_accepted toy_pairs (laptop_env [] (toy_statement 6)) PinningConfig_default
    (mkSession me "laptop") me "phone" (mkSigningKey (num_array 32 6)) phone_pin_of_bob a laptop_pin_of_phone
    bob_card laptop_store {[(me, "phone"%string) := laptop_pin_of_phone]}) as T.
  apply T; clear T.
  - unfold toy_statement in E. unfold toy_kp in E.
    destruct (attestation_to_publish _ _ _) as [[b|]| | |]; congruence.
  - cbn [laptop_env ce_attestations]. rewrite E. by left.
  - apply lookup_insert_eq.
  - reflexivity.
  - vm_compute. reflexivity.
  - reflexivity.
  - reflexivity.
  - reflexivity.
  - reflexivity.
  - done.
  - reflexivity.
  - reflexivity.
  - apply bob_signed.
  - vm_compute. reflexivity.
  - vm_compute. reflexivity.
  - vm_compute. reflexivity.
  - vm_compute. reflexivity.
  - apply toy_distinct.
  - apply laptop_stores.
  - right. left.
  - apply statement_pairs.
Defined.


Definition late : Z := (link_day + days 366)%Z.
Definition late_card : ClientJoinCard :=
  match create_join_card late (toy_keys 6 "phone") me_uuid with Ok c => c | _ => no_card end.
Lemma expired_pin_reported_corrupt_witness :
  welcome_key_for_join_card PinningConfig_default late late_card AllowUnverified laptop_store
    = (Err (IvStorage (StCorruption ("Pinning verification failed: " +:+ pinning_debug (PeExpiredPin link_day)))),
       laptop_store).
Proof.
  apply (expired_pin_reported_corrupt toy_pairs PinningConfig_default late late_card AllowUnverified laptop_store
    {[(me, "phone"%string) := laptop_pin_of_phone]} laptop_pin_of_phone link_day).
  - apply laptop_stores.
  - left.
  - apply verify_signature_iff. vm_compute. reflexivity.
  - vm_compute. reflexivity.
  - apply lookup_insert_eq.
  - vm_compute. reflexivity.
Defined.

(** Only a verification that was made in person is published.  But a pin that the laptop took
    over from the phone, and that its person then removed, comes back from the card cache as
    one made in person, and is published as such. *)
Definition laptop_removed : MockStorage := (unpin_key (uuid_to_string bob_uuid) "tablet" laptop_after).2.
Definition laptop_restored : MockStorage :=
  (check_or_restore_join_card_pin (laptop_env [bob_card] []) bob_card laptop_removed).2.
Definition pin_of_bob (s : MockStorage) : option PinnedKey :=
  match (get_pinned_key PinningConfig_default next_day (uuid_to_string bob_uuid) "tablet" s).1 with
  | Ok o => o
  | _ => None
  end.
Definition publishes (o : option PinnedKey) : bool :=
  match o with
  | Some p => match attestation_to_publish (Ok (mkSession me "laptop")) (Ok (toy_kp 9)) p with
              | Ok (Some _) => true | _ => false end
  | None => false
  end.
Theorem removed_pin_comes_back_direct :
  (direct <$> pin_of_bob laptop_after, publishes (pin_of_bob laptop_after)) = (Some false, false)
  ∧ pin_of_bob laptop_removed = None
  ∧ (direct <$> pin_of_bob laptop_restored, publishes (pin_of_bob laptop_restored)) = (Some true, true).
Proof. split_and!; vm_compute; reflexivity. Qed.

(** The command line makes two key pairs, one for the device and one in its join card.  It
    signs statements with the first, while other devices have pinned the second, so that
    its statements do not count. *)
Theorem two_keys_break_attestations :
  (check_join_card_pin_without_cache (laptop_env [] (toy_statement 7)) bob_card laptop_store).1 = Ok Missing
  ∧ (check_join_card_pin_without_cache (laptop_env [] (toy_statement 6)) bob_card laptop_store).1
      = Ok (RestoredFromOwnDevice "phone").
Proof. split; vm_compute; reflexivity. Qed.
End Examples.
