(* ===== verification/WelcomeTrust.v ===== *)
(** * Who may sign a welcome ([crates/client/src/welcome_signers.rs],
      [crates/client/src/state/client/welcome_trust.rs])

    For each group a device keeps the identity keys it trusts to sign welcomes.  The set
    starts with the devices the server reports and grows by introductions: signed
    statements of a trusted key about another one, which travel with the welcomes.  What
    the server answers and the clock are arguments; the JSON of the stored set is a class. *)

From Stdlib Require Import Strings.Byte.
From stdpp Require Import base tactics numbers sets list gmap strings pretty option sorting.
From S2P Require Import Prelude StateError Crypto EpochState CutoverMessages FilePath Storage HybridKem Json Pinning JoinCards.
Open Scope hc_scope.
Open Scope hc_st_scope.

Record SignerIntroduction := mkSignerIntroduction {
  in_group_id : Uuid;
  in_identity_key : string;
  in_introduced_by : string;
  in_created_at : Z;
  in_signature : string;
}.
#[export] Instance SignerIntroduction_eq_dec : EqDecision SignerIntroduction.
Proof. solve_decision. Defined.

Record GroupSignerTrust := mkGroupSignerTrust {
  gt_group_id : Uuid;
  gt_trusted : gset string;
  gt_introductions : list SignerIntroduction;
}.

Inductive TrustError :=
| TeSerializationError (msg : string)
| TeStorage (e : StorageError)
(** [setup_error(ErrorCode::SecurityTampering, ..)]. *)
| TeTampering (msg : string).

(** [timestamp_micros], and [i64::to_be_bytes]. *)
Definition timestamp_micros (t : Z) : Z := (t / 1000)%Z.
Definition i64_be_bytes (z : Z) : bytes := be_bytes 8 (Z.to_N (z mod 2 ^ 64)).

(** [(part.len() as u64).to_be_bytes()] before the part. *)
Definition length_prefixed (s : string) : bytes :=
  be_bytes 8 (N.of_nat (String.length s)) ++ bytes_of s.

Section Signers.
Context {ed : Ed25519} {hex : Hex}.

Definition introduction_payload (i : SignerIntroduction) : bytes :=
  bytes_of "hybridcipher/welcome-signer-introduction/v1" ++ [x0a] ++ arr (in_group_id i)
  ++ length_prefixed (in_identity_key i) ++ length_prefixed (in_introduced_by i)
  ++ i64_be_bytes (timestamp_micros (in_created_at i)).

Definition SignerIntroduction_new (now : Z) (introducer : Ed25519KeyPair) (group_id : Uuid)
    (identity_key : bytes) : res TrustError SignerIntroduction :=
  let with_signature := mkSignerIntroduction group_id (hex_encode identity_key)
                          (hex_encode (public_key_bytes introducer)) now in
  let? signature := KeyPair_sign_bytes introducer (introduction_payload (with_signature ""%string)) in
  Ok (with_signature (hex_encode signature)).

Definition is_authentic (i : SignerIntroduction) : bool :=
  match hex_decode (in_introduced_by i), hex_decode (in_signature i) with
  | Some key, Some signature =>
      match VerifyingKey_from_bytes key, Signature_from_bytes signature with
      | Ok key, Ok signature => is_ok (VerifyingKey_verify key (introduction_payload i) signature)
      | _, _ => false
      end
  | _, _ => false
  end.

Definition seeded (group_id : Uuid) (keys : list bytes) : GroupSignerTrust :=
  mkGroupSignerTrust group_id (list_to_set (hex_encode <$> keys)) [].
Definition trusts (t : GroupSignerTrust) (key : bytes) : bool :=
  bool_decide (hex_encode key ∈ gt_trusted t).

(** The body of the [for] loop of [absorb]: whether the introduction is accepted. *)
Definition acceptable (t : GroupSignerTrust) (i : SignerIntroduction) : bool :=
  negb (bool_decide (in_group_id i ≠ gt_group_id t)
        || negb (bool_decide (in_introduced_by i ∈ gt_trusted t))
        || bool_decide (i ∈ gt_introductions t)
        || negb (is_authentic i)).
Definition accept (i : SignerIntroduction) (t : GroupSignerTrust) : GroupSignerTrust :=
  mkGroupSignerTrust (gt_group_id t) ({[in_identity_key i]} ∪ gt_trusted t) (gt_introductions t ++ [i]).
Fixpoint absorb_pass (introductions : list SignerIntroduction) (t : GroupSignerTrust) (progressed : bool)
  : GroupSignerTrust * bool :=
  match introductions with
  | [] => (t, progressed)
  | i :: introductions =>
      if acceptable t i then absorb_pass introductions (accept i t) true
      else absorb_pass introductions t progressed
  end.
Fixpoint absorb_loop (fuel : nat) (introductions : list SignerIntroduction) (t : GroupSignerTrust)
    (changed : bool) : res TrustError (GroupSignerTrust * bool) :=
  match fuel with
  | O => Diverge
  | S fuel =>
      let '(t, progressed) := absorb_pass introductions t false in
      if negb progressed then Ok (t, changed) else absorb_loop fuel introductions t true
  end.
(** A pass that makes progress accepts an introduction that it does not accept again. *)
Definition absorb (introductions : list SignerIntroduction) (t : GroupSignerTrust)
  : res TrustError (GroupSignerTrust * bool) :=
  absorb_loop (S (length introductions)) introductions t false.

Definition introduce (now : Z) (introducer : Ed25519KeyPair) (key : bytes) (t : GroupSignerTrust)
  : res TrustError (GroupSignerTrust * bool) :=
  if trusts t key || negb (trusts t (public_key_bytes introducer)) then Ok (t, false)
  else
    let? i := SignerIntroduction_new now introducer (gt_group_id t) key in
    Ok (accept i t, true).
End Signers.

(** ** The client ([welcome_trust.rs]) *)

Class TrustJson := {
  trust_to_string : GroupSignerTrust → res string string;
  trust_from_str : string → res string GroupSignerTrust;
}.
Class TrustJsonLaws `{TrustJson} : Prop := {
  trust_to_string_total t : ∃ s, trust_to_string t = Ok s;
  trust_from_to t s : trust_to_string t = Ok s → trust_from_str s = Ok t ∧ s ≠ ""%string;
}.

Section WelcomeTrust.
Context {ed : Ed25519} {hex : Hex} {uuid : UuidText} {tj : TrustJson}.
Context {St : Type} {cs : ConfigStore St}.
(** [device_identity]. *)
Variable me : Ed25519KeyPair.

Definition signer_trust_key (group_id : Uuid) : string :=
  "welcome_signer_trust_" +:+ uuid_to_string group_id.

(** [roster] is the answer of [fetch_welcome_signer_roster]: the keys of the group's devices,
    already reduced to those of 32 bytes, or an error. *)
Definition load_or_seed_signer_trust (roster : res string (list bytes)) (group_id : Uuid)
    (first_signer : option bytes) : ST St TrustError (GroupSignerTrust * bool) :=
  let* s := st_get in
  let* stored := st_lift (map_err TeStorage (load_config (signer_trust_key group_id) s)) in
  match stored ≫= (λ stored, if decide (stored = ""%string) then None else Some stored) with
  | Some stored =>
      let* trust := st_lift (map_err (λ e, TeSerializationError
                      ("Stored Welcome signer trust for group " +:+ uuid_to_string group_id
                         +:+ " is unreadable: " +:+ e)) (trust_from_str stored)) in
      st_ret (trust, false)
  | None =>
      let keys := public_key_bytes me
                    :: match roster with
                       | Ok roster => roster
                       | _ => match first_signer with Some k => [k] | None => [] end
                       end in
      st_ret (seeded group_id keys, true)
  end.

(** The answer of the server, as the roster has it. *)
Definition roster_keys (signers : list string) : list bytes :=
  filter (λ key, length key = 32) (omap hex_decode signers).

Definition store_signer_trust (trust : GroupSignerTrust) : ST St TrustError unit :=
  let* serialized := st_lift (map_err (λ e, TeSerializationError
                       ("Failed to store Welcome signer trust: " +:+ e)) (trust_to_string trust)) in
  st_map_err TeStorage (store_config (signer_trust_key (gt_group_id trust)) serialized).

Definition authorize_welcome_signer (roster : res string (list bytes)) (group_id : Uuid) (signer_key : bytes)
    (introductions : list SignerIntroduction) : ST St TrustError unit :=
  let* (trust, seeded) := load_or_seed_signer_trust roster group_id (Some signer_key) in
  let* (trust, learned) := st_lift (absorb introductions trust) in
  do* (if seeded || learned then store_signer_trust trust else st_ret tt);
  if bool_decide (signer_key = public_key_bytes me) || trusts trust signer_key then st_ret tt
  else st_fail (TeTampering ("This group key was signed by a device this device does not trust. "
                               +:+ "Ask a group admin to approve this device again.")).

Definition welcome_signer_introductions (now : Z) (roster : res string (list bytes)) (group_id : Uuid)
    (recipient_key : bytes) : ST St TrustError (list SignerIntroduction) :=
  let* (trust, seeded) := load_or_seed_signer_trust roster group_id None in
  let* (trust, introduced) := st_lift (introduce now me recipient_key trust) in
  do* (if seeded || introduced then store_signer_trust trust else st_ret tt);
  st_ret (gt_introductions trust).
End WelcomeTrust.

(** ** Absorbing introductions *)

Section Absorb.
Context {ed : Ed25519} {hex : Hex}.

(** The keys that trusted ones lead to: the least set that contains the roots and is closed
    under authentic introductions for the group. *)
Inductive reachable (group_id : Uuid) (introductions : list SignerIntroduction) (roots : gset string)
  : string → Prop :=
| reach_root k : k ∈ roots → reachable group_id introductions roots k
| reach_step i :
    i ∈ introductions → in_group_id i = group_id → is_authentic i = true →
    reachable group_id introductions roots (in_introduced_by i) →
    reachable group_id introductions roots (in_identity_key i).

Lemma reachable_mono g l l' R R' k :
  (∀ i, i ∈ l → i ∈ l') → R ⊆ R' → reachable g l R k → reachable g l' R' k.
Proof.
  intros L RR H. induction H as [k K|i I G A _ IH]; [apply reach_root; set_solver|].
  by apply reach_step; [apply L| | |].
Qed.
(** Reaching is closed: what is reached from reached keys is reached. *)
Lemma reachable_trans g l R R' k :
  (∀ r, r ∈ R' → reachable g l R r) → reachable g l R' k → reachable g l R k.
Proof. intros B H. induction H as [k K|i I G A _ IH]; [by apply B|by apply reach_step]. Qed.

(** Every introduction that is kept was acceptable, and its key is trusted. *)
Definition well_formed (t : GroupSignerTrust) : Prop :=
  Forall (λ i, in_group_id i = gt_group_id t ∧ is_authentic i = true ∧ in_introduced_by i ∈ gt_trusted t
               ∧ in_identity_key i ∈ gt_trusted t) (gt_introductions t).

Lemma acceptable_iff t i :
  acceptable t i = true ↔ in_group_id i = gt_group_id t ∧ in_introduced_by i ∈ gt_trusted t
                          ∧ i ∉ gt_introductions t ∧ is_authentic i = true.
Proof.
  unfold acceptable. destruct (is_authentic i); repeat case_bool_decide; cbn; naive_solver.
Qed.

Lemma accept_well_formed t i : well_formed t → acceptable t i = true → well_formed (accept i t).
Proof.
  intros W (G & T & _ & A)%acceptable_iff. unfold well_formed, accept. cbn [gt_group_id gt_trusted gt_introductions].
  apply Forall_app. split.
  - eapply list.Forall_impl; [exact W|]. cbn. set_solver.
  - constructor; [|constructor]. split_and!; set_solver.
Qed.
Lemma seeded_well_formed g keys : well_formed (seeded g keys).
Proof. constructor. Qed.

(** What one pass does: it only adds what the introductions lead to, and when it adds
    nothing there is nothing to add. *)
Record pass_spec (l : list SignerIntroduction) (t t' : GroupSignerTrust) : Prop := {
  pass_group : gt_group_id t' = gt_group_id t;
  pass_trusted : gt_trusted t ⊆ gt_trusted t';
  pass_reach k : k ∈ gt_trusted t' → reachable (gt_group_id t) l (gt_trusted t) k;
  pass_kept : ∃ new, gt_introductions t' = gt_introductions t ++ new ∧ ∀ i, i ∈ new → i ∈ l;
  pass_wf : well_formed t → well_formed t';
}.

Lemma pass_spec_refl l t : pass_spec l t t.
Proof.
  split; [done|done|by intros k K; apply reach_root| |done]. exists []. by rewrite app_nil_r; set_solver.
Qed.
Lemma pass_spec_trans l t1 t2 t3 : pass_spec l t1 t2 → pass_spec l t2 t3 → pass_spec l t1 t3.
Proof.
  intros [G1 T1 R1 (n1 & N1 & I1) W1] [G2 T2 R2 (n2 & N2 & I2) W2]. split.
  - by rewrite G2.
  - set_solver.
  - intros k K. apply R2 in K. rewrite G1 in K. by eapply reachable_trans.
  - exists (n1 ++ n2). split; [by rewrite N2, N1, app_assoc|]. set_solver.
  - auto.
Qed.
Lemma accept_spec l t i : i ∈ l → acceptable t i = true → pass_spec l t (accept i t).
Proof.
  intros I C. pose proof C as (G & T & _ & A)%acceptable_iff. split.
  - done.
  - cbn. set_solver.
  - intros k K. cbn in K. apply elem_of_union in K as [K%elem_of_singleton|K]; [|by apply reach_root].
    subst k. by apply reach_step; [| | |apply reach_root].
  - exists [i]. split; [done|]. set_solver.
  - intros W. by apply accept_well_formed.
Qed.

Lemma absorb_pass_spec l0 l t p t' p' :
  (∀ i, i ∈ l → i ∈ l0) → absorb_pass l t p = (t', p') → pass_spec l0 t t'.
Proof.
  revert t p. induction l as [|i l IH]; intros t p L E; cbn [absorb_pass] in E.
  - injection E as <- <-. apply pass_spec_refl.
  - destruct (acceptable t i) eqn:A.
    + eapply pass_spec_trans; [apply accept_spec; [apply L; by left|done]|].
      apply (IH _ true); [|done]. intros j J. apply L. by right.
    + apply (IH t p); [|done]. intros j J. apply L. by right.
Qed.

(** Introductions that are not kept yet: the loop's measure. *)
Definition outstanding (l : list SignerIntroduction) (t : GroupSignerTrust) : nat :=
  length (filter (λ i, i ∉ gt_introductions t) l).

Lemma outstanding_mono l t t' :
  (∀ i, i ∈ gt_introductions t → i ∈ gt_introductions t') → outstanding l t' ≤ outstanding l t.
Proof.
  intros H. unfold outstanding. induction l as [|i l IH]; [done|]. rewrite !filter_cons.
  repeat case_decide; cbn; try lia. naive_solver.
Qed.
Lemma outstanding_accept l t i :
  i ∈ l → i ∉ gt_introductions t → outstanding l (accept i t) < outstanding l t.
Proof.
  intros I N. induction l as [|j l IH]; [by apply not_elem_of_nil in I|].
  unfold outstanding. rewrite !filter_cons.
  assert (outstanding l (accept i t) ≤ outstanding l t) as M.
  { apply outstanding_mono. cbn. set_solver. }
  unfold outstanding in M, IH. cbn [accept gt_introductions] in M, IH |- *.
  destruct (decide (j = i)) as [->|NE].
  - rewrite decide_False by set_solver. rewrite decide_True by done. cbn. lia.
  - apply list.elem_of_cons in I as [->|I]; [done|]. specialize (IH I).
    repeat case_decide; cbn; try lia; set_solver.
Qed.

(** A pass that reports progress lowers the measure; one that does not changes nothing and
    has nothing left to accept. *)
Lemma absorb_pass_progress l0 l t p t' p' :
  (∀ i, i ∈ l → i ∈ l0) → absorb_pass l t p = (t', p') →
  outstanding l0 t' ≤ outstanding l0 t
  ∧ (p = false → p' = true → outstanding l0 t' < outstanding l0 t)
  ∧ (p' = false → p = false ∧ t' = t ∧ ∀ i, i ∈ l → acceptable t i = false).
Proof.
  revert t p. induction l as [|i l IH]; intros t p L E; cbn [absorb_pass] in E.
  - injection E as <- <-. split_and!; [lia|by intros -> ?|]. set_solver.
  - destruct (acceptable t i) eqn:A.
    + destruct (IH _ _ ltac:(intros j J; apply L; by right) E) as (M & _ & F).
      pose proof A as (_ & _ & N & _)%acceptable_iff.
      pose proof (outstanding_accept l0 t i ltac:(apply L; by left) N).
      split_and!; [lia|lia|]. intros P. by destruct (F P).
    + destruct (IH _ _ ltac:(intros j J; apply L; by right) E) as (M & D & F).
      split_and!; [done|done|]. intros P. destruct (F P) as (? & ? & Q). split_and!; [done|done|].
      intros j J. apply list.elem_of_cons in J as [->|J]; auto.
Qed.

(** Nothing left to accept: the trusted keys are closed. *)
Lemma closed_reachable l t k :
  well_formed t → (∀ i, i ∈ l → acceptable t i = false) →
  reachable (gt_group_id t) l (gt_trusted t) k → k ∈ gt_trusted t.
Proof.
  intros W C H. induction H as [k K|i I G A _ IH]; [done|].
  destruct (decide (i ∈ gt_introductions t)) as [J|J].
  - unfold well_formed in W. rewrite list.Forall_forall in W. by apply W in J as (_ & _ & _ & ?).
  - specialize (C i I). assert (acceptable t i = true) by by apply acceptable_iff. congruence.
Qed.

Lemma absorb_loop_spec fuel l t changed :
  outstanding l t < fuel → well_formed t →
  ∃ t' c, absorb_loop fuel l t changed = Ok (t', c) ∧ pass_spec l t t'
    ∧ (∀ k, reachable (gt_group_id t) l (gt_trusted t) k → k ∈ gt_trusted t')
    ∧ (c = false → changed = false ∧ t' = t).
Proof.
  revert t changed. induction fuel as [|fuel IH]; intros t changed L W; [lia|]. cbn [absorb_loop].
  destruct (absorb_pass l t false) as [t1 p] eqn:E.
  pose proof (absorb_pass_spec l l t false t1 p ltac:(done) E) as S1.
  destruct (absorb_pass_progress l l t false t1 p ltac:(done) E) as (_ & D & F).
  destruct p; cbn [negb].
  - destruct (IH t1 true) as (t' & c & -> & S2 & R & C).
    + specialize (D eq_refl eq_refl). lia.
    + by apply (pass_wf _ _ _ S1).
    + exists t', c. split_and!; [done|by eapply pass_spec_trans| |].
      * intros k K. apply R. rewrite (pass_group _ _ _ S1).
        eapply reachable_mono; [done|apply (pass_trusted _ _ _ S1)|done].
      * intros ->. by destruct (C eq_refl).
  - destruct (F eq_refl) as (_ & -> & Q). exists t, changed. split_and!; [done|apply pass_spec_refl| |done].
    intros k. by apply closed_reachable.
Qed.

Lemma outstanding_length l t : outstanding l t ≤ length l.
Proof. unfold outstanding. apply length_filter. Qed.

(** C17: Absorbing introductions always ends.  Afterwards the trusted keys are exactly those that
    the keys trusted before lead to through authentic introductions for this group, however
    the introductions are ordered or repeated; nothing is reported as learned unless
    something was. *)
Theorem absorb_is_closure l t :
  well_formed t →
  ∃ t' learned, absorb l t = Ok (t', learned) ∧ well_formed t' ∧ gt_group_id t' = gt_group_id t
    ∧ (∀ k, k ∈ gt_trusted t' ↔ reachable (gt_group_id t) l (gt_trusted t) k)
    ∧ (learned = false → t' = t).
Proof.
  intros W. unfold absorb. pose proof (outstanding_length l t).
  destruct (absorb_loop_spec (S (length l)) l t false) as (t' & c & E & S & R & C); [lia|done|].
  exists t', c. split_and!; [done|by apply (pass_wf _ _ _ S)|by apply (pass_group _ _ _ S)| |by intros D; destruct (C D)].
  intros k. split; [apply (pass_reach _ _ _ S)|apply R].
Qed.

(** The order in which introductions arrive does not matter. *)
Theorem absorb_order_irrelevant l1 l2 t t1 t2 b1 b2 :
  well_formed t → (∀ i, i ∈ l1 ↔ i ∈ l2) → absorb l1 t = Ok (t1, b1) → absorb l2 t = Ok (t2, b2) →
  gt_trusted t1 = gt_trusted t2.
Proof.
  intros W L E1 E2. unfold absorb in *.
  pose proof (outstanding_length l1 t). pose proof (outstanding_length l2 t).
  destruct (absorb_loop_spec (S (length l1)) l1 t false) as (? & ? & F1 & S1 & R1 & _); [lia|done|].
  destruct (absorb_loop_spec (S (length l2)) l2 t false) as (? & ? & F2 & S2 & R2 & _); [lia|done|].
  rewrite E1 in F1. rewrite E2 in F2. injection F1 as <- <-. injection F2 as <- <-.
  apply set_eq. intros k. split; intros K.
  - apply R2. eapply reachable_mono; [|reflexivity|by apply (pass_reach _ _ _ S1)]. naive_solver.
  - apply R1. eapply reachable_mono; [|reflexivity|by apply (pass_reach _ _ _ S2)]. naive_solver.
Qed.

(** ** Introductions *)

Lemma be_bytes_inj k a b :
  (a < 256 ^ N.of_nat k)%N → (b < 256 ^ N.of_nat k)%N → be_bytes k a = be_bytes k b → a = b.
Proof.
  intros A B E. unfold be_bytes in E. apply (inj reverse) in E.
  by rewrite <-(le_num_bytes k a), <-(le_num_bytes k b), E.
Qed.

(** A text with its length in front can be read back. *)
Lemma length_prefixed_inj s s' r r' :
  (N.of_nat (String.length s) < U64)%N → (N.of_nat (String.length s') < U64)%N →
  length_prefixed s ++ r = length_prefixed s' ++ r' → s = s' ∧ r = r'.
Proof.
  intros A B E. unfold length_prefixed in E. rewrite <-!app_assoc in E.
  apply app_split_eq in E as [E1 E2]; [|by rewrite !be_bytes_length].
  apply be_bytes_inj in E1; [|by rewrite <-U64_pow..].
  apply app_split_eq in E2 as [E2 ->]; [|rewrite !bytes_of_length; lia].
  split; [by apply bytes_of_inj|done].
Qed.

(** A signature is for one introduction, up to the microsecond at which it was made: what is
    signed tells the group, the key and who introduces it. *)
Theorem introduction_payload_binds i j :
  (N.of_nat (String.length (in_identity_key i)) < U64)%N → (N.of_nat (String.length (in_identity_key j)) < U64)%N →
  (N.of_nat (String.length (in_introduced_by i)) < U64)%N → (N.of_nat (String.length (in_introduced_by j)) < U64)%N →
  introduction_payload i = introduction_payload j →
  in_group_id i = in_group_id j ∧ in_identity_key i = in_identity_key j
  ∧ in_introduced_by i = in_introduced_by j
  ∧ i64_be_bytes (timestamp_micros (in_created_at i)) = i64_be_bytes (timestamp_micros (in_created_at j)).
Proof.
  intros A B C D E. unfold introduction_payload in E. apply (inj (app _)) in E. apply (inj (app _)) in E.
  apply app_split_eq in E as [E1 E]; [|by rewrite !arr_length].
  apply length_prefixed_inj in E as [E2 E]; [|done..]. apply length_prefixed_inj in E as [E3 E]; [|done..].
  split_and!; [by apply arr_inj|done..].
Qed.

(** An introduction made by a device is authentic. *)
Lemma new_authentic {edl : Ed25519Laws} {hexl : HexLaws} now (k : SigningKey) g key i :
  SignerIntroduction_new now (mkEd25519KeyPair k (SigningKey_verifying_key k)) g key = Ok i →
  is_authentic i = true ∧ in_group_id i = g ∧ in_identity_key i = hex_encode key
  ∧ in_introduced_by i = hex_encode (public_key_bytes (mkEd25519KeyPair k (SigningKey_verifying_key k))).
Proof.
  unfold SignerIntroduction_new. cbv zeta. intros E. unfold KeyPair_sign_bytes in E. cbn [kp_signing_key] in E.
  destruct (SigningKey_sign k _) as [sig| | |] eqn:S; try done. cbn [res_bind] in E. injection E as <-.
  split; [|done]. unfold is_authentic. cbn [in_introduced_by in_signature].
  rewrite !hex_decode_encode. unfold public_key_bytes. cbn [kp_verifying_key].
  change (arr (vk_inner (SigningKey_verifying_key k))) with (arr (VerifyingKey_to_bytes (SigningKey_verifying_key k))).
  rewrite VerifyingKey_from_to_bytes by apply dalek_public_valid.
  erewrite Signature_from_to_bytes by done.
  lazymatch type of S with SigningKey_sign k ?m = _ =>
    lazymatch goal with |- context [VerifyingKey_verify _ ?m' _] => change m' with m end end.
  by rewrite (sign_verify _ _ _ S).
Qed.
End Absorb.

(** ** Trust over time *)

Section Rooted.
Context {ed : Ed25519} {edl : Ed25519Laws} {hex : Hex} {hexl : HexLaws} {uuid : UuidText}.
Variable my_key : SigningKey.
Variable g : Uuid.

Definition my_pair : Ed25519KeyPair := mkEd25519KeyPair my_key (SigningKey_verifying_key my_key).

(** Every trusted key is a root, or is reached from the roots by introductions that are kept. *)
Definition rooted (R : gset string) (t : GroupSignerTrust) : Prop :=
  gt_group_id t = g ∧ well_formed t ∧ R ⊆ gt_trusted t
  ∧ ∀ k, k ∈ gt_trusted t → reachable g (gt_introductions t) R k.

Lemma rooted_accept R t i :
  rooted R t → in_group_id i = g → is_authentic i = true → in_introduced_by i ∈ gt_trusted t →
  rooted R (accept i t).
Proof.
  intros (G & W & S & H) I A T. split_and!.
  - done.
  - unfold well_formed, accept. cbn [gt_group_id gt_trusted gt_introductions]. apply Forall_app. split.
    + eapply list.Forall_impl; [exact W|]. cbn. set_solver.
    + constructor; [|constructor]. rewrite G. split_and!; set_solver.
  - cbn. set_solver.
  - intros k K. cbn [accept gt_trusted gt_introductions] in *.
    assert (∀ k, k ∈ gt_trusted t → reachable g (gt_introductions t ++ [i]) R k) as H'.
    { intros k' K'. eapply reachable_mono; [|done|by apply H]. set_solver. }
    apply elem_of_union in K as [K%elem_of_singleton|K]; [|by apply H']. subst k.
    apply reach_step; [set_solver|done|done|by apply H'].
Qed.

(** A property that acceptable introductions keep is kept by [absorb]. *)
Lemma absorb_loop_keeps (P : GroupSignerTrust → Prop) fuel l t t' c b :
  (∀ t i, P t → acceptable t i = true → P (accept i t)) → P t → absorb_loop fuel l t c = Ok (t', b) → P t'.
Proof.
  intros A. assert (∀ l t p, P t → P (absorb_pass l t p).1) as PA.
  { clear -A. induction l as [|i l IH]; intros t p H; [done|]. cbn [absorb_pass].
    destruct (acceptable t i) eqn:C; auto. }
  revert t c. induction fuel as [|fuel IH]; intros t c H E; [done|]. cbn [absorb_loop] in E.
  pose proof (PA l t false H) as H1. destruct (absorb_pass l t false) as [t1 [|]]; cbn [negb fst] in *.
  - exact (IH t1 true H1 E).
  - by injection E as <- <-.
Qed.
Lemma absorb_rooted R l t t' b :
  rooted R t → absorb l t = Ok (t', b) → rooted R t' ∧ (b = false → t' = t).
Proof.
  intros H E. split.
  - eapply absorb_loop_keeps; [|exact H|exact E]. clear t H E. intros t i H (G & T & _ & A)%acceptable_iff.
    apply rooted_accept; try done. by destruct H as (<- & _).
  - unfold absorb in E. pose proof (outstanding_length l t).
    destruct (absorb_loop_spec (S (length l)) l t false) as (? & ? & F & _ & _ & C); [lia|by destruct H as (_ & ? & _)|].
    rewrite E in F. injection F as <- <-. intros D. by destruct (C D).
Qed.
Lemma introduce_rooted R now key t t' b :
  rooted R t → introduce now my_pair key t = Ok (t', b) → rooted R t' ∧ (b = false → t' = t).
Proof using edl hexl.
  intros H. unfold introduce. destruct (trusts t key); cbn [orb]; [by intros [= <- <-]|].
  destruct (trusts t (public_key_bytes my_pair)) eqn:T; cbn [negb]; [|by intros [= <- <-]].
  destruct (SignerIntroduction_new now my_pair (gt_group_id t) key) as [i| | |] eqn:N; try done.
  cbn [res_bind]. intros [= <- <-]. split; [|done].
  apply new_authentic in N as (A & G & _ & B). apply rooted_accept; try done.
  - rewrite G. by destruct H as (? & _).
  - rewrite B. unfold trusts in T. by apply bool_decide_eq_true in T.
Qed.
Lemma seeded_rooted keys : rooted (list_to_set (hex_encode <$> keys)) (seeded g keys).
Proof. split_and!; [done|constructor|done|]. intros k K. by apply reach_root. Qed.

Context {tj : TrustJson} {tjl : TrustJsonLaws}.
Context {St : Type} {cs : ConfigStore St} {csl : ConfigStoreLaws St}.

(** What the storage holds for the group. *)
Definition holds_trust (s : St) (o : option GroupSignerTrust) : Prop :=
  match o with
  | Some t => ∃ text, load_config (signer_trust_key g) s = Ok (Some text) ∧ trust_to_string t = Ok text
  | None => load_config (signer_trust_key g) s = Ok None ∨ load_config (signer_trust_key g) s = Ok (Some ""%string)
  end.

(** The keys that a first use trusts. *)
Definition first_keys (roster : res string (list bytes)) (first_signer : option bytes) : gset string :=
  list_to_set (hex_encode <$> (public_key_bytes my_pair
    :: match roster with
       | Ok roster => roster
       | _ => match first_signer with Some k => [k] | None => [] end
       end)).

Lemma load_spec roster first s o :
  holds_trust s o →
  load_or_seed_signer_trust my_pair roster g first s
    = (Ok (match o with
           | Some t => (t, false)
           | None => (seeded g (public_key_bytes my_pair
                        :: match roster with
                           | Ok roster => roster
                           | _ => match first with Some k => [k] | None => [] end
                           end), true)
           end), s).
Proof using tjl.
  intros H. unfold load_or_seed_signer_trust, st_bind, st_get, st_lift. destruct o as [t|].
  - destruct H as (text & -> & T). apply trust_from_to in T as [F N]. cbn [map_err mbind option_bind].
    rewrite decide_False by done. by rewrite F.
  - destruct H as [-> | ->]; done.
Qed.

Lemma store_spec R t s :
  rooted R t →
  (∃ s', store_signer_trust t s = (Ok tt, s') ∧ holds_trust s' (Some t))
  ∨ (∃ e s', store_signer_trust t s = (Err e, s') ∧ ∀ o, holds_trust s o → holds_trust s' o).
Proof using tjl csl.
  intros (G & _). unfold store_signer_trust, st_bind, st_lift, st_map_err.
  destruct (trust_to_string_total t) as [text T]. rewrite T, G. cbn [map_err].
  destruct (store_config_settles (signer_trust_key g) text s) as [[s' E]|(e & s' & E & K)]; rewrite E.
  - left. exists s'. split; [done|]. exists text. split; [by eapply load_store_config|done].
  - right. exists (TeStorage e), s'. split; [done|]. intros [t0|]; cbn; by rewrite K.
Qed.

(** The roots are chosen once: when the set is first stored. *)
Definition roots_after (R : option (gset string)) (keys : gset string) (stored : bool) : option (gset string) :=
  match R with Some R => Some R | None => if stored then Some keys else None end.
Definition state_ok (s : St) (R : option (gset string)) : Prop :=
  match R with
  | Some R => ∃ t, holds_trust s (Some t) ∧ rooted R t
  | None => holds_trust s None
  end.

(** The common shape of the two operations: load or seed, change, store if needed. *)
Definition updated (change : GroupSignerTrust → res TrustError (GroupSignerTrust * bool))
    (roster : res string (list bytes)) (first : option bytes) : ST St TrustError GroupSignerTrust :=
  let* (trust, seeded) := load_or_seed_signer_trust my_pair roster g first in
  let* (trust, changed) := st_lift (change trust) in
  do* (if seeded || changed then store_signer_trust trust else st_ret tt);
  st_ret trust.

(** What a first or later use starts from. *)
Lemma loaded_spec roster first s R :
  state_ok s R →
  ∃ R0 t sd, load_or_seed_signer_trust my_pair roster g first s = (Ok (t, sd), s) ∧ rooted R0 t
    ∧ roots_after R (first_keys roster first) true = Some R0
    ∧ (sd = false → R = Some R0 ∧ holds_trust s (Some t)).
Proof using tjl.
  destruct R as [R0|]; cbn [state_ok].
  - intros (t & H & RT). exists R0, t, false. by rewrite (load_spec roster first s _ H).
  - intros H. eexists _, _, true. rewrite (load_spec roster first s _ H).
    split_and!; [done|apply seeded_rooted|done|done].
Qed.

Lemma updated_spec change roster first s R r s' :
  (∀ R t t' b, rooted R t → change t = Ok (t', b) → rooted R t' ∧ (b = false → t' = t)) →
  state_ok s R → updated change roster first s = (r, s') →
  ∃ R', (R' = roots_after R (first_keys roster first) true ∨ R' = R) ∧ state_ok s' R'
    ∧ ∀ t, r = Ok t → ∃ R0, R' = Some R0 ∧ holds_trust s' (Some t) ∧ rooted R0 t.
Proof using tjl csl.
  intros C HS E. destruct (loaded_spec roster first s R HS) as (R0 & t & sd & L & RT & RA & ST).
  unfold updated, st_bind, st_lift, st_ret in E. rewrite L in E. clear L.
  destruct (change t) as [[t1 ch]|e| |] eqn:CH;
    try (injection E as <- <-; exists R; split_and!; [by right|done|done]).
  destruct (C R0 t t1 ch RT CH) as [RT1 SAME].
  destruct (sd || ch) eqn:B.
  - destruct (store_spec R0 t1 s RT1) as [(s1 & W & HT)|(e & s1 & W & K)]; rewrite W in E; injection E as <- <-.
    + exists (Some R0). split_and!; [by left|by exists t1|]. intros t2 [= <-]. by exists R0.
    + exists R. split_and!; [by right| |done].
      destruct R as [R1|]; [destruct HS as (t2 & ? & ?); exists t2; auto|by apply K].
  - injection E as <- <-. apply orb_false_iff in B as [-> ->]. destruct (ST eq_refl) as [-> HT].
    rewrite (SAME eq_refl). exists (Some R0). split_and!; [by right|by exists t|].
    intros t2 [= <-]. by exists R0.
Qed.

(** ** The two operations *)

Lemma authorize_updated roster signer l s :
  authorize_welcome_signer my_pair roster g signer l s
  = (let* trust := updated (absorb l) roster (Some signer) in
     if bool_decide (signer = public_key_bytes my_pair) || trusts trust signer then st_ret tt
     else st_fail (TeTampering ("This group key was signed by a device this device does not trust. "
                                  +:+ "Ask a group admin to approve this device again."))) s.
Proof.
  unfold authorize_welcome_signer, updated, st_bind.
  destruct (load_or_seed_signer_trust _ _ _ _ s) as [[[t sd]| | |] s1]; try done.
  destruct (st_lift (absorb l t) s1) as [[[t1 ch]| | |] s2]; try done.
  by destruct ((if sd || ch then store_signer_trust t1 else st_ret tt) s2) as [[| | |] s3].
Qed.
Lemma introductions_updated now roster key s :
  welcome_signer_introductions my_pair now roster g key s
  = (let* trust := updated (introduce now my_pair key) roster None in st_ret (gt_introductions trust)) s.
Proof.
  unfold welcome_signer_introductions, updated, st_bind.
  destruct (load_or_seed_signer_trust _ _ _ _ s) as [[[t sd]| | |] s1]; try done.
  destruct (st_lift (introduce now my_pair key t) s1) as [[[t1 ch]| | |] s2]; try done.
  by destruct ((if sd || ch then store_signer_trust t1 else st_ret tt) s2) as [[| | |] s3].
Qed.

(** One use of the group's trust, whatever comes of it: a welcome is checked, or one is made.
    What the server answers, the signer and the introductions are anything. *)
Inductive trust_step (s : St) : gset string → St → Prop :=
| step_authorize roster signer l r s' :
    authorize_welcome_signer my_pair roster g signer l s = (r, s') →
    trust_step s (first_keys roster (Some signer)) s'
| step_introduce now roster key r s' :
    welcome_signer_introductions my_pair now roster g key s = (r, s') →
    trust_step s (first_keys roster None) s'.

(** Any number of uses, with the keys that each would have started from. *)
Inductive trust_steps : St → list (gset string) → St → Prop :=
| steps_nil s : trust_steps s [] s
| steps_cons s F s1 Fs s2 : trust_step s F s1 → trust_steps s1 Fs s2 → trust_steps s (F :: Fs) s2.

Lemma authorize_spec roster signer l s R r s' :
  state_ok s R → authorize_welcome_signer my_pair roster g signer l s = (r, s') →
  ∃ R', (R' = roots_after R (first_keys roster (Some signer)) true ∨ R' = R) ∧ state_ok s' R'
    ∧ (r = Ok tt → ∃ R0 t, R' = Some R0 ∧ holds_trust s' (Some t) ∧ rooted R0 t
         ∧ (signer = public_key_bytes my_pair ∨ hex_encode signer ∈ gt_trusted t)).
Proof using tjl csl edl hexl.
  intros H E. rewrite authorize_updated in E. unfold st_bind in E.
  destruct (updated (absorb l) roster (Some signer) s) as [r1 s1] eqn:U.
  destruct (updated_spec (absorb l) roster (Some signer) s R r1 s1) as (R' & D & K & T);
    [intros; by eapply absorb_rooted|done|done|]. exists R'.
  destruct r1 as [t|e| |]; try (injection E as <- <-; by split_and!).
  destruct (T t eq_refl) as (R0 & -> & HT & RT).
  destruct (bool_decide (signer = public_key_bytes my_pair) || trusts t signer) eqn:B;
    unfold st_ret, st_fail in E; injection E as <- <-; split_and!; try done.
  intros _. exists R0, t. split_and!; try done. unfold trusts in B.
  apply orb_true_iff in B as [B|B]; apply bool_decide_eq_true in B; auto.
Qed.

Lemma trust_step_ok s R F s' :
  state_ok s R → trust_step s F s' → ∃ R', (R' = roots_after R F true ∨ R' = R) ∧ state_ok s' R'.
Proof using tjl csl edl hexl.
  intros H [roster signer l r s1 E|now roster key r s1 E].
  - destruct (authorize_spec roster signer l s R r s1 H E) as (R' & ? & ? & _). eauto.
  - rewrite introductions_updated in E. unfold st_bind in E.
    destruct (updated (introduce now my_pair key) roster None s) as [r1 s2] eqn:U.
    destruct (updated_spec (introduce now my_pair key) roster None s R r1 s2) as (R' & D & K & T);
      [intros; by eapply introduce_rooted|done|done|]. exists R'. split; [done|].
    by destruct r1; injection E as <- <-.
Qed.
Lemma trust_steps_ok s R Fs s' :
  state_ok s R → trust_steps s Fs s' →
  ∃ R', state_ok s' R' ∧ match R with Some _ => R' = R | None => ∀ R0, R' = Some R0 → R0 ∈ Fs end.
Proof using tjl csl edl hexl.
  intros H T. revert R H. induction T as [s|s F s1 Fs s2 S _ IH]; intros R H.
  - exists R. split; [done|]. by destruct R.
  - destruct (trust_step_ok s R F s1 H S) as (R1 & D & H1). destruct (IH R1 H1) as (R2 & H2 & K).
    exists R2. split; [done|]. destruct R as [R0|].
    + assert (R1 = Some R0) as -> by (destruct D as [-> | ->]; done). done.
    + destruct R1 as [R1|].
      * subst R2. destruct D as [[= ->]|]; [|done]. intros ? [= <-]. by left.
      * intros R0 ->. right. by apply K.
Qed.


(** Once the set is stored the server has no say: the roots stay what they are. *)
Theorem stored_roots_stay s R Fs s1 :
  state_ok s (Some R) → trust_steps s Fs s1 → state_ok s1 (Some R).
Proof using tjl csl edl hexl.
  intros H T. destruct (trust_steps_ok s (Some R) Fs s1 H T) as (R' & H' & ->). done.
Qed.

(** With a stored set, a welcome is accepted exactly when the device signed it or when the
    introductions it carries lead to the signer; the only other outcome is that the storage
    fails. *)
Theorem authorize_exact roster signer l s t r s' :
  holds_trust s (Some t) → well_formed t → gt_group_id t = g →
  authorize_welcome_signer my_pair roster g signer l s = (r, s') →
  (∃ e, r = Err (TeStorage e))
  ∨ (r = Ok tt ↔ signer = public_key_bytes my_pair
                 ∨ reachable g l (gt_trusted t) (hex_encode signer)).
Proof using tjl csl edl hexl.
  intros H W G E. unfold authorize_welcome_signer, st_bind, st_lift in E. rewrite (load_spec roster _ s _ H) in E.
  unfold absorb in E. pose proof (outstanding_length l t).
  destruct (absorb_loop_spec (S (length l)) l t false) as (t1 & c & A & PS & RE & C); [lia|done|].
  rewrite A in E. cbn [orb] in E.
  assert ((∃ e, r = Err (TeStorage e)) ∨ r = (if bool_decide (signer = public_key_bytes my_pair) || trusts t1 signer
      then Ok tt else Err (TeTampering ("This group key was signed by a device this device does not trust. "
                                  +:+ "Ask a group admin to approve this device again.")))) as [D|D]; [|by left|right].
  { destruct c.
    - unfold store_signer_trust, st_bind, st_lift, st_map_err in E.
      destruct (trust_to_string_total t1) as [text TT]. rewrite TT in E. cbn [map_err] in E.
      destruct (store_config_settles (signer_trust_key (gt_group_id t1)) text s) as [[s3 F]|(e & s3 & F & _)];
        rewrite F in E.
      + right. destruct (_ || _); unfold st_ret, st_fail in E; by injection E as <- <-.
      + left. exists e. by injection E as <- <-.
    - right. unfold st_ret at 1 in E. destruct (_ || _); unfold st_ret, st_fail in E; by injection E as <- <-. }
  subst r. clear E. unfold trusts. pose proof (pass_reach _ _ _ PS) as PR. rewrite G in RE, PR.
  repeat case_bool_decide; cbn; naive_solver.
Qed.
End Rooted.

(** ** A toy format, and an example *)

#[export] Instance SignerIntroduction_countable : Countable SignerIntroduction.
Proof.
  refine (inj_countable' (λ i, (in_group_id i, in_identity_key i, in_introduced_by i, in_created_at i, in_signature i))
    (λ '(a, b, c, d, e), mkSignerIntroduction a b c d e) _). by intros [].
Defined.
Definition trust_code (t : GroupSignerTrust) : Uuid * gset string * list SignerIntroduction :=
  (gt_group_id t, gt_trusted t, gt_introductions t).
Definition toy_trust_json : TrustJson := {|
  trust_to_string t := Ok ("{" +:+ (String.string_of_list_byte (ser_pos (encode (trust_code t)))));
  trust_from_str s :=
    match s with
    | String _ s =>
        match '(p, _) ← de_pos (bytes_of s); decode p with
        | Some (g, k, l) => Ok (mkGroupSignerTrust g k l)
        | None => Err "expected value"%string
        end
    | EmptyString => Err "expected value"%string
    end;
|}.
Lemma toy_trust_json_laws : @TrustJsonLaws toy_trust_json.
Proof.
  constructor.
  - intros t. by eexists.
  - intros [g k l] s T. apply Ok_inj in T as <-. split; [|done]. cbn [trust_from_str toy_trust_json].
    cbv [String.append]. unfold bytes_of. rewrite String.list_byte_of_string_of_list_byte, <-(app_nil_r (ser_pos _)), de_ser_pos.
    cbn [mbind option_bind]. by rewrite decode_encode.
Qed.
Lemma toy_hex_laws : @HexLaws toy_hex.
Proof. intros b. cbn. apply hex_dec_enc. Qed.

Section Examples.
#[local] Existing Instances toy_sha256 toy_hex toy_ed25519 mock_config_store toy_uuid_text toy_trust_json
  toy_trust_json_laws mock_config_store_laws toy_ed25519_laws toy_hex_laws.

(** Three devices of a group: [anna] is in the server's roster, introduces [ben], who
    introduces [cleo]. *)
Definition the_group : Uuid := num_array 16 7.
Definition key_of (seed : N) : SigningKey := mkSigningKey (num_array 32 seed).
Definition device (seed : N) : Ed25519KeyPair := my_pair (key_of seed).
Definition introduction (by_ whom : N) : SignerIntroduction :=
  match SignerIntroduction_new 0 (device by_) the_group (public_key_bytes (device whom)) with
  | Ok i => i
  | _ => mkSignerIntroduction (zeros 16) "" "" 0 ""
  end.
Definition anna : N := 1.
Definition ben : N := 2.
Definition cleo : N := 3.
Definition mallory : N := 4.
Definition anna_trusted : GroupSignerTrust := seeded the_group [public_key_bytes (device anna)].

(** The introductions arrive in the wrong order, with one of a stranger. *)
Definition arrived : list SignerIntroduction :=
  [introduction ben cleo; introduction mallory mallory; introduction anna ben].
Lemma absorb_is_closure_witness :
  ∃ t' learned, absorb arrived anna_trusted = Ok (t', learned) ∧ well_formed t' ∧ gt_group_id t' = the_group
    ∧ (∀ k, k ∈ gt_trusted t' ↔ reachable the_group arrived (gt_trusted anna_trusted) k)
    ∧ (learned = false → t' = anna_trusted).
Proof. apply (absorb_is_closure arrived anna_trusted). apply seeded_well_formed. Defined.
Example arrived_trusted :
  match absorb arrived anna_trusted with
  | Ok (t, learned) => (trusts t (public_key_bytes (device cleo)), trusts t (public_key_bytes (device mallory)), learned)
  | _ => (false, true, false)
  end = (true, false, true).
Proof. vm_compute. reflexivity. Qed.

Lemma introduction_payload_binds_witness :
  in_group_id (introduction anna ben) = in_group_id (introduction anna ben).
Proof.
  assert (introduction_payload (introduction anna ben)
          = introduction_payload (mkSignerIntroduction the_group (in_identity_key (introduction anna ben))
              (in_introduced_by (introduction anna ben)) 0 "00")) as E by (vm_compute; reflexivity).
  destruct (introduction_payload_binds (introduction anna ben) (mkSignerIntroduction the_group
    (in_identity_key (introduction anna ben)) (in_introduced_by (introduction anna ben)) 0 "00")) as (G & _);
    [vm_compute; reflexivity..|exact E|]. done.
Defined.

(** Ben's tablet: it first welcomes cleo, with anna in the roster; afterwards the server
    also reports mallory, and a welcome of anna arrives. *)
Definition tablet_step :=
  welcome_signer_introductions (device ben) 0 (Ok [public_key_bytes (device anna)]) the_group
    (public_key_bytes (device cleo)) MockStorage_new.
Definition later :=
  authorize_welcome_signer (device ben) (Ok [public_key_bytes (device mallory)]) the_group
    (public_key_bytes (device anna)) [] tablet_step.2.
Lemma later_ok : later = (Ok tt, later.2).
Proof.
  assert (is_ok later.1 = true) as H by (vm_compute; reflexivity).
  by destruct later as [[[]| | |] s].
Qed.


(** A set that holds anna, and a welcome of cleo with the introductions that lead to her. *)
Definition tablet_store : MockStorage := (store_signer_trust anna_trusted MockStorage_new).2.
Definition from_cleo :=
  authorize_welcome_signer (device ben) (Ok []) the_group (public_key_bytes (device cleo)) arrived tablet_store.
Lemma authorize_exact_witness :
  (∃ e, from_cleo.1 = Err (TeStorage e))
  ∨ (from_cleo.1 = Ok tt ↔ public_key_bytes (device cleo) = public_key_bytes (device ben)
      ∨ reachable the_group arrived (gt_trusted anna_trusted) (hex_encode (public_key_bytes (device cleo)))).
Proof.
  apply (authorize_exact (key_of ben) the_group (Ok []) (public_key_bytes (device cleo)) arrived tablet_store
    anna_trusted from_cleo.1 from_cleo.2).
  - eexists. split; [|reflexivity]. vm_compute. reflexivity.
  - apply seeded_well_formed.
  - reflexivity.
  - apply surjective_pairing.
Defined.

(** Without a roster the first signer is trusted, whoever it is. *)
Example first_signer_without_roster :
  (authorize_welcome_signer (device ben) (Err "offline"%string) the_group (public_key_bytes (device mallory)) []
     MockStorage_new).1 = Ok tt.
Proof. vm_compute. reflexivity. Qed.
End Examples.
