(* ===== verification/ErrorRecovery.v ===== *)
(** * Errors, retries and circuit breakers ([crates/client/src/errors.rs],
      [crates/client/src/recovery.rs])

    Errors carry a code; the code says how severe the error is, whether it may be retried
    and what is recommended.  The recovery manager runs an operation again by policy, and
    is meant to stop calling a service that keeps failing.

    Times are nanoseconds; [f64] is the binary64 of the standard library's [SpecFloat].  The
    clock, the randomness and the operation that is retried act on a world of their own. *)

From Stdlib Require Import SpecFloat.
From stdpp Require Import base tactics numbers list gmap strings option.
From S2P Require Import Prelude StateError.
Open Scope hc_scope.

Inductive ErrorCode :=
| CryptoKeyGeneration | CryptoEncryption | CryptoDecryption | CryptoSignature | CryptoVerification
| CryptoRandomness | CryptoHkdf | CryptoInvalidKey | CryptoInvalidNonce | CryptoTimingAttack
| NetworkConnection | NetworkTimeout | NetworkProtocol | NetworkAuthentication | NetworkRateLimit
| NetworkBandwidth | NetworkPartition | NetworkCertificate | NetworkDns | NetworkFirewall | StorageRead
| StorageWrite | StorageDelete | StorageCorruption | StorageSpace | StoragePermission
| StorageTransaction | StorageBackup | StorageMigration | StorageLock | GroupStateInconsistent
| GroupStateOutdated | GroupStateMissing | GroupStateConflict | GroupMemberNotFound | GroupInvalidEpoch
| GroupRekeyFailed | GroupMigrationFailed | GroupPermissionDenied | GroupSizeLimitExceeded
| GroupNotInitialized | GroupDeviceApprovalRequired | GroupGenesisConflict | FileNotFound | FileCorrupted
| FileTooBig | FileAccessDenied | FileAlreadyExists | FileInvalidFormat | FileMetadataMissing
| FileVersionConflict | FileQuotaExceeded | FilePathInvalid | ResourceMemory | ResourceCpu | ResourceDisk
| ResourceNetwork | ResourceThreadPool | ResourceFileDescriptors | ResourceLockContention
| ResourceTimeout | ResourceQuotaExceeded | ResourceUnavailable | ResourceManagementFailed
| CompressionFailed | ConfigurationInvalid | SecurityUnauthorized | SecurityTampering | SecurityReplay
| SecuritySidechannel | SecurityTiming | SecurityBruteforce | SecurityPrivilegeEscalation
| SecurityDataLeak | SecurityAuditFailure | SecurityCompliance | SecurityValidationFailed.
Definition ErrorCode_number (c : ErrorCode) : N :=
  match c with
  | CryptoKeyGeneration => 1001 | CryptoEncryption => 1002 | CryptoDecryption => 1003
  | CryptoSignature => 1004 | CryptoVerification => 1005 | CryptoRandomness => 1006 | CryptoHkdf => 1007
  | CryptoInvalidKey => 1008 | CryptoInvalidNonce => 1009 | CryptoTimingAttack => 1010
  | NetworkConnection => 2001 | NetworkTimeout => 2002 | NetworkProtocol => 2003
  | NetworkAuthentication => 2004 | NetworkRateLimit => 2005 | NetworkBandwidth => 2006
  | NetworkPartition => 2007 | NetworkCertificate => 2008 | NetworkDns => 2009 | NetworkFirewall => 2010
  | StorageRead => 3001 | StorageWrite => 3002 | StorageDelete => 3003 | StorageCorruption => 3004
  | StorageSpace => 3005 | StoragePermission => 3006 | StorageTransaction => 3007 | StorageBackup => 3008
  | StorageMigration => 3009 | StorageLock => 3010 | GroupStateInconsistent => 4001
  | GroupStateOutdated => 4002 | GroupStateMissing => 4003 | GroupStateConflict => 4004
  | GroupMemberNotFound => 4005 | GroupInvalidEpoch => 4006 | GroupRekeyFailed => 4007
  | GroupMigrationFailed => 4008 | GroupPermissionDenied => 4009 | GroupSizeLimitExceeded => 4010
  | GroupNotInitialized => 4011 | GroupDeviceApprovalRequired => 4012 | GroupGenesisConflict => 4013
  | FileNotFound => 5001 | FileCorrupted => 5002 | FileTooBig => 5003 | FileAccessDenied => 5004
  | FileAlreadyExists => 5005 | FileInvalidFormat => 5006 | FileMetadataMissing => 5007
  | FileVersionConflict => 5008 | FileQuotaExceeded => 5009 | FilePathInvalid => 5010
  | ResourceMemory => 6001 | ResourceCpu => 6002 | ResourceDisk => 6003 | ResourceNetwork => 6004
  | ResourceThreadPool => 6005 | ResourceFileDescriptors => 6006 | ResourceLockContention => 6007
  | ResourceTimeout => 6008 | ResourceQuotaExceeded => 6009 | ResourceUnavailable => 6010
  | ResourceManagementFailed => 6011 | CompressionFailed => 6012 | ConfigurationInvalid => 6013
  | SecurityUnauthorized => 7001 | SecurityTampering => 7002 | SecurityReplay => 7003
  | SecuritySidechannel => 7004 | SecurityTiming => 7005 | SecurityBruteforce => 7006
  | SecurityPrivilegeEscalation => 7007 | SecurityDataLeak => 7008 | SecurityAuditFailure => 7009
  | SecurityCompliance => 7010 | SecurityValidationFailed => 7011
  end.
#[export] Instance ErrorCode_eq_dec : EqDecision ErrorCode.
Proof. solve_decision. Defined.

(** [Duration]s in nanoseconds. *)
Definition from_millis (n : Z) : Z := (n * 1000000)%Z.
Definition from_secs (n : Z) : Z := (n * 1000000000)%Z.
Definition as_millis (d : Z) : Z := (d / 1000000)%Z.

Inductive ErrorSeverity := Critical | High | Medium | Low.
#[export] Instance ErrorSeverity_eq_dec : EqDecision ErrorSeverity.
Proof. solve_decision. Defined.

Definition ErrorCode_severity (c : ErrorCode) : ErrorSeverity :=
  match c with
  | CryptoRandomness | SecurityTampering | SecurityDataLeak | StorageCorruption | GroupStateInconsistent => Critical
  | CryptoDecryption | CryptoEncryption | NetworkAuthentication | StorageWrite | SecurityUnauthorized
  | SecurityValidationFailed | FileCorrupted => High
  | NetworkTimeout | StorageRead | GroupMemberNotFound | FileNotFound | ResourceMemory => Medium
  | _ => Low
  end.
Definition ErrorCode_is_retryable (c : ErrorCode) : bool :=
  match c with
  | NetworkTimeout | NetworkConnection | StorageRead | StorageWrite | ResourceTimeout | ResourceLockContention
  | NetworkRateLimit => true
  | _ => false
  end.
Definition ErrorCode_retry_delay (c : ErrorCode) : Z :=
  match c with
  | NetworkRateLimit => from_secs 60
  | NetworkTimeout | NetworkConnection => from_secs 5
  | StorageRead | StorageWrite => from_millis 100
  | ResourceTimeout | ResourceLockContention => from_millis 50
  | _ => from_secs 1
  end.

Inductive RecoveryAction :=
| Retry (max_attempts : N) (base_delay max_delay : Z)
| Fallback (strategy expected_degradation : string)
| Escalate (urgency : ErrorSeverity) (notification_targets : list string)
| Degrade (disabled_features : list string) (user_message : string)
| Abort_ (safe_cleanup : bool) (user_notification : string).

Record ErrorContext := mkErrorContext {
  ec_error_id : string;
  ec_code : ErrorCode;
  ec_message : string;
  ec_severity : ErrorSeverity;
  ec_timestamp : Z;
  ec_operation : string;
  ec_details : gmap string string;
  ec_recovery_attempted : bool;
  ec_recovery_action : RecoveryAction;
  ec_error_chain : list string;
  ec_performance_impact : option Z;
}.

Definition default_recovery_action (code : ErrorCode) : RecoveryAction :=
  if ErrorCode_is_retryable code then Retry 3 (ErrorCode_retry_delay code) (from_secs 30)
  else
    match ErrorCode_severity code with
    | Critical => Escalate Critical ["ops-team"; "security-team"]%string
    | High => Fallback "Use cached data or offline mode" "Limited functionality"
    | Medium => Degrade ["non-essential features"]%string "Some features temporarily unavailable"
    | Low => Abort_ true "Operation could not be completed"
    end.

(** The identifier and the time of an error are drawn when it is made. *)
Definition ErrorContext_new (error_id : string) (now : Z) (code : ErrorCode) (message operation : string)
  : ErrorContext :=
  mkErrorContext error_id code message (ErrorCode_severity code) now operation ∅ false
    (default_recovery_action code) [] None.

Definition with_detail (key value : string) (c : ErrorContext) : ErrorContext :=
  mkErrorContext (ec_error_id c) (ec_code c) (ec_message c) (ec_severity c) (ec_timestamp c) (ec_operation c)
    (<[key := value]> (ec_details c)) (ec_recovery_attempted c) (ec_recovery_action c) (ec_error_chain c)
    (ec_performance_impact c).
Definition with_details (details : gmap string string) (c : ErrorContext) : ErrorContext :=
  mkErrorContext (ec_error_id c) (ec_code c) (ec_message c) (ec_severity c) (ec_timestamp c) (ec_operation c)
    (details ∪ ec_details c) (ec_recovery_attempted c) (ec_recovery_action c) (ec_error_chain c)
    (ec_performance_impact c).
Definition with_performance_impact (duration : Z) (c : ErrorContext) : ErrorContext :=
  mkErrorContext (ec_error_id c) (ec_code c) (ec_message c) (ec_severity c) (ec_timestamp c) (ec_operation c)
    (ec_details c) (ec_recovery_attempted c) (ec_recovery_action c) (ec_error_chain c) (Some duration).
Definition with_error_chain (error : string) (c : ErrorContext) : ErrorContext :=
  mkErrorContext (ec_error_id c) (ec_code c) (ec_message c) (ec_severity c) (ec_timestamp c) (ec_operation c)
    (ec_details c) (ec_recovery_attempted c) (ec_recovery_action c) (ec_error_chain c ++ [error])
    (ec_performance_impact c).
Definition with_recovery_attempted (c : ErrorContext) : ErrorContext :=
  mkErrorContext (ec_error_id c) (ec_code c) (ec_message c) (ec_severity c) (ec_timestamp c) (ec_operation c)
    (ec_details c) true (ec_recovery_action c) (ec_error_chain c) (ec_performance_impact c).

Inductive ClientError :=
| CryptographicError (context : ErrorContext) (recoverable : bool) (retry_after : option Z)
| NetworkError_ (context : ErrorContext) (retry_count : N) (last_attempt : Z) (connection_state : string)
| StorageError_ (context : ErrorContext) (transaction_id : option string) (data_integrity : bool)
| ConsistencyError (context : ErrorContext) (recovery_action : RecoveryAction) (affected_operations : list string)
| MemberError (context : ErrorContext) (member_id operation : string)
| FileError (context : ErrorContext) (file_path : string) (file_size : option N)
| ResourceError (context : ErrorContext) (resource_type : string) (current_usage limit : spec_float)
| SecurityError (context : ErrorContext) (violation_type : string) (threat_level : ErrorSeverity)
| ConfigurationError (context : ErrorContext) (configuration_key expected_format : string)
| TimeoutError (context : ErrorContext) (operation_duration timeout_limit : Z)
(** The variants without a context, which behave alike here. *)
| Legacy (message : string).

Definition ClientError_context (e : ClientError) : option ErrorContext :=
  match e with
  | CryptographicError c _ _ | NetworkError_ c _ _ _ | StorageError_ c _ _ | ConsistencyError c _ _
  | MemberError c _ _ | FileError c _ _ | ResourceError c _ _ _ | SecurityError c _ _
  | ConfigurationError c _ _ | TimeoutError c _ _ => Some c
  | Legacy _ => None
  end.
Definition ClientError_error_code (e : ClientError) : option ErrorCode := ec_code <$> ClientError_context e.
Definition ClientError_severity (e : ClientError) : ErrorSeverity :=
  default Medium (ec_severity <$> ClientError_context e).
Definition ClientError_is_retryable (e : ClientError) : bool :=
  match e with
  | NetworkError_ _ _ _ _ | StorageError_ _ _ _ | TimeoutError _ _ _ => true
  | CryptographicError _ recoverable _ => recoverable
  | _ => false
  end.
Definition ClientError_retry_delay (e : ClientError) : option Z :=
  match e with
  | CryptographicError _ _ retry_after => retry_after
  | NetworkError_ c _ _ _ => Some (ErrorCode_retry_delay (ec_code c))
  | _ => if ClientError_is_retryable e then Some (from_millis 100) else None
  end.
Definition crypto_error (id : string) (now : Z) (code : ErrorCode) (message operation : string) (recoverable : bool)
  : ClientError :=
  CryptographicError (ErrorContext_new id now code message operation) recoverable
    (if recoverable then Some (ErrorCode_retry_delay code) else None).
(** The clock is read for the context, and again for [last_attempt]. *)
Definition network_error (id : string) (now now' : Z) (code : ErrorCode) (message operation : string)
    (retry_count : N) (connection_state : string) : ClientError :=
  NetworkError_ (ErrorContext_new id now code message operation) retry_count now' connection_state.

(** ** Retry policies *)

(** The binary64 number [m * 2^e], rounded to nearest. *)
Definition f64 (m e : Z) : spec_float := binary_normalize 53 1024 m e false.
Definition f64_mul : spec_float → spec_float → spec_float := SFmul 53 1024.
(** [as u64]: towards zero, and at the ends of the range beyond it. *)
Definition f64_to_u64 (x : spec_float) : Z :=
  match x with
  | S754_finite false m e => Z.min (Z.shiftl (Zpos m) e) (Z.of_N U64 - 1)
  | S754_infinity false => Z.of_N U64 - 1
  | _ => 0
  end.
(** [f64::powi], as the compiler's run-time library has it: squaring, with one division at
    the end for a negative exponent. *)
Fixpoint powi_pos (a r : spec_float) (p : positive) : spec_float :=
  match p with
  | xH => f64_mul r a
  | xO p => powi_pos (f64_mul a a) r p
  | xI p => powi_pos (f64_mul a a) (f64_mul r a) p
  end.
Definition powi (a : spec_float) (n : Z) : spec_float :=
  match n with
  | Z0 => f64 1 0
  | Zpos p => powi_pos a (f64 1 0) p
  | Zneg p => SFdiv 53 1024 (f64 1 0) (powi_pos a (f64 1 0) p)
  end.
(** [u32 as i32]. *)
Definition u32_as_i32 (n : N) : Z := if (n <? 2 ^ 31)%N then Z.of_N n else (Z.of_N n - 2 ^ 32)%Z.

Record RetryPolicy := mkRetryPolicy {
  rp_max_attempts : N;
  rp_base_delay : Z;
  rp_max_delay : Z;
  rp_backoff_multiplier : spec_float;
  rp_jitter_factor : spec_float;
  rp_exponential_backoff : bool;
}.
Definition RetryPolicy_default : RetryPolicy :=
  mkRetryPolicy 3 (from_millis 100) (from_secs 30) (f64 2 0) (f64 7205759403792794 (-56)) true.
Definition for_network : RetryPolicy :=
  mkRetryPolicy 5 (from_millis 500) (from_secs 60) (f64 2 0) (f64 7205759403792794 (-55)) true.
Definition for_storage : RetryPolicy :=
  mkRetryPolicy 3 (from_millis 100) (from_secs 10) (f64 3 (-1)) (f64 7205759403792794 (-56)) true.
Definition for_crypto : RetryPolicy :=
  mkRetryPolicy 2 (from_millis 50) (from_secs 5) (f64 2 0) (f64 0 0) false.

(** [random] is the number in [0, 1) that is drawn when there is jitter.  The sum of the
    milliseconds is one of [u64]. *)
Definition calculate_delay (p : RetryPolicy) (attempt : N) (random : spec_float) : Z :=
  let delay := if rp_exponential_backoff p
               then from_millis (f64_to_u64 (f64_mul (f64 (as_millis (rp_base_delay p)) 0)
                                               (powi (rp_backoff_multiplier p) (u32_as_i32 attempt))))
               else rp_base_delay p in
  let delay := if (rp_max_delay p <? delay)%Z then rp_max_delay p else delay in
  if SFltb (f64 0 0) (rp_jitter_factor p)
  then let jitter := f64_to_u64 (f64_mul (f64_mul (f64 (as_millis delay) 0) (rp_jitter_factor p)) random) in
       from_millis ((as_millis delay mod Z.of_N U64 + jitter) mod Z.of_N U64)
  else delay.

(** ** The circuit breaker *)

Inductive CircuitBreakerState := Closed | Open_ | HalfOpen.
#[export] Instance CircuitBreakerState_eq_dec : EqDecision CircuitBreakerState.
Proof. solve_decision. Defined.

Record CircuitBreakerConfig := mkCircuitBreakerConfig {
  bc_failure_threshold : N;
  bc_success_threshold : N;
  bc_timeout : Z;
  bc_rolling_window : Z;
  bc_half_open_max_calls : N;
}.
Definition CircuitBreakerConfig_default : CircuitBreakerConfig :=
  mkCircuitBreakerConfig 5 3 (from_secs 60) (from_secs 120) 3.

Record CircuitBreaker := mkCircuitBreaker {
  cb_config : CircuitBreakerConfig;
  cb_state : CircuitBreakerState;
  cb_failure_count : N;
  cb_success_count : N;
  cb_last_failure_time : option Z;
  cb_half_open_calls : N;
  cb_failure_times : list Z;
}.
Definition CircuitBreaker_new (config : CircuitBreakerConfig) : CircuitBreaker :=
  mkCircuitBreaker config Closed 0 0 None 0 [].

(** [duration_since] and [elapsed], which are zero when the clock seems to run backwards. *)
Definition duration_since (now earlier : Z) : Z := Z.max 0 (now - earlier).
Definition u32_wrap (n : N) : N := (n mod U32)%N.

Definition clean_old_failures (now : Z) (b : CircuitBreaker) : CircuitBreaker :=
  mkCircuitBreaker (cb_config b) (cb_state b) (cb_failure_count b) (cb_success_count b) (cb_last_failure_time b)
    (cb_half_open_calls b)
    (filter (λ t, (duration_since now t <= bc_rolling_window (cb_config b))%Z) (cb_failure_times b)).
Definition reset_counts (b : CircuitBreaker) : CircuitBreaker :=
  mkCircuitBreaker (cb_config b) (cb_state b) 0 0 (cb_last_failure_time b) 0 [].
Definition count_failures (b : CircuitBreaker) : CircuitBreaker :=
  mkCircuitBreaker (cb_config b) (cb_state b) (u32_wrap (N.of_nat (length (cb_failure_times b)))) (cb_success_count b)
    (cb_last_failure_time b) (cb_half_open_calls b) (cb_failure_times b).
Definition with_state (st : CircuitBreakerState) (successes calls : N) (b : CircuitBreaker) : CircuitBreaker :=
  mkCircuitBreaker (cb_config b) st (cb_failure_count b) successes (cb_last_failure_time b) calls (cb_failure_times b).

(** The clock is read twice: for [elapsed] and for the rolling window. *)
Definition update_state (now now' : Z) (b : CircuitBreaker) : CircuitBreaker :=
  let b :=
    if decide (cb_state b = Open_) then
      match cb_last_failure_time b with
      | Some last_failure =>
          if (bc_timeout (cb_config b) <=? duration_since now last_failure)%Z then with_state HalfOpen 0 0 b else b
      | None => b
      end
    else b in
  count_failures (clean_old_failures now' b).

Definition allow_request (now now' : Z) (b : CircuitBreaker) : bool * CircuitBreaker :=
  let b := update_state now now' b in
  match cb_state b with
  | Closed => (true, b)
  | Open_ => (false, b)
  | HalfOpen =>
      if (cb_half_open_calls b <? bc_half_open_max_calls (cb_config b))%N
      then (true, with_state HalfOpen (cb_success_count b) (u32_wrap (cb_half_open_calls b + 1)) b)
      else (false, b)
  end.

Definition record_success (b : CircuitBreaker) : CircuitBreaker :=
  match cb_state b with
  | HalfOpen =>
      let b := with_state HalfOpen (u32_wrap (cb_success_count b + 1)) (cb_half_open_calls b) b in
      if (bc_success_threshold (cb_config b) <=? cb_success_count b)%N
      then reset_counts (with_state Closed (cb_success_count b) (cb_half_open_calls b) b)
      else b
  | Closed =>
      if (0 <? cb_failure_count b)%N
      then mkCircuitBreaker (cb_config b) Closed 0 (cb_success_count b) (cb_last_failure_time b) (cb_half_open_calls b) []
      else b
  | Open_ => b
  end.

Definition record_failure (now : Z) (b : CircuitBreaker) : CircuitBreaker :=
  let b := mkCircuitBreaker (cb_config b) (cb_state b) (cb_failure_count b) (cb_success_count b) (Some now)
             (cb_half_open_calls b) (cb_failure_times b ++ [now]) in
  let b := count_failures (clean_old_failures now b) in
  match cb_state b with
  | Closed =>
      if (bc_failure_threshold (cb_config b) <=? cb_failure_count b)%N
      then with_state Open_ (cb_success_count b) 0 b
      else b
  | HalfOpen => with_state Open_ 0 0 b
  | Open_ => b
  end.

Record CircuitBreakerMetrics := mkCircuitBreakerMetrics {
  bm_state : CircuitBreakerState;
  bm_failure_count : N;
  bm_success_count : N;
  bm_half_open_calls : N;
}.
Definition CircuitBreaker_metrics (b : CircuitBreaker) : CircuitBreakerMetrics :=
  mkCircuitBreakerMetrics (cb_state b) (cb_failure_count b) (cb_success_count b) (cb_half_open_calls b).

(** ** The recovery manager *)

Record RecoveryMetrics := mkRecoveryMetrics {
  rm_total_retries : N;
  rm_successful_retries : N;
  rm_failed_retries : N;
  rm_circuit_breaker_trips : N;
  rm_recovery_time_ms : list N;
}.
Definition RecoveryMetrics_default : RecoveryMetrics := mkRecoveryMetrics 0 0 0 0 [].

Record ErrorRecoveryManager := mkErrorRecoveryManager {
  em_retry_policies : ErrorCode → option RetryPolicy;
  em_circuit_breakers : gmap string CircuitBreaker;
  em_recovery_metrics : RecoveryMetrics;
}.

(** The map of [new]. *)
Definition retry_policies (c : ErrorCode) : option RetryPolicy :=
  match c with
  | NetworkConnection | NetworkTimeout => Some for_network
  | StorageRead | StorageWrite => Some for_storage
  | CryptoEncryption | CryptoDecryption => Some for_crypto
  | _ => None
  end.
Definition ErrorRecoveryManager_new : ErrorRecoveryManager :=
  mkErrorRecoveryManager retry_policies ∅ RecoveryMetrics_default.

Definition set_breakers (m : gmap string CircuitBreaker) (em : ErrorRecoveryManager) : ErrorRecoveryManager :=
  mkErrorRecoveryManager (em_retry_policies em) m (em_recovery_metrics em).
Definition set_metrics (f : RecoveryMetrics → RecoveryMetrics) (em : ErrorRecoveryManager) : ErrorRecoveryManager :=
  mkErrorRecoveryManager (em_retry_policies em) (em_circuit_breakers em) (f (em_recovery_metrics em)).

Definition service_config (service_name : string) : CircuitBreakerConfig :=
  if decide (service_name = "network"%string)
  then mkCircuitBreakerConfig 10 3 (from_secs 30) (from_secs 120) 3
  else if decide (service_name = "storage"%string)
  then mkCircuitBreakerConfig 5 3 (from_secs 10) (from_secs 120) 3
  else CircuitBreakerConfig_default.

(** What is handed out is a copy of the breaker: the caller's own. *)
Definition get_circuit_breaker (service_name : string) (em : ErrorRecoveryManager)
  : CircuitBreaker * ErrorRecoveryManager :=
  match em_circuit_breakers em !! service_name with
  | Some b => (b, em)
  | None =>
      let b := CircuitBreaker_new (service_config service_name) in
      (b, set_breakers (<[service_name := b]> (em_circuit_breakers em)) em)
  end.

Fixpoint str_contains (s needle : string) : bool :=
  String.prefix needle s || match s with String _ s => str_contains s needle | EmptyString => false end.
Definition extract_service_name (operation : string) : string :=
  if str_contains operation "network" || str_contains operation "connect" then "network"
  else if str_contains operation "storage" || str_contains operation "store" || str_contains operation "read"
  then "storage"
  else if str_contains operation "crypto" || str_contains operation "encrypt" || str_contains operation "decrypt"
  then "crypto"
  else "default".

Definition trip (m : RecoveryMetrics) : RecoveryMetrics :=
  mkRecoveryMetrics (rm_total_retries m) (rm_successful_retries m) (rm_failed_retries m)
    (u64_wrap (rm_circuit_breaker_trips m + 1)) (rm_recovery_time_ms m).
Definition handle_error (now : Z) (error : ClientError) (em : ErrorRecoveryManager)
  : res ClientError RecoveryAction * ErrorRecoveryManager :=
  match ClientError_context error with
  | Some context =>
      let service_name := extract_service_name (ec_operation context) in
      let '(breaker, em) := get_circuit_breaker service_name em in
      let breaker := record_failure now breaker in
      if decide (cb_state breaker = Open_)
      then (Ok (Abort_ true ("Service " +:+ service_name
                               +:+ " is temporarily unavailable. Please try again later.")), set_metrics trip em)
      else (Ok (ec_recovery_action context), em)
  | None => (Ok (Abort_ true "Operation failed. Please try again."), em)
  end.

Definition should_retry (error : ClientError) (em : ErrorRecoveryManager) : bool :=
  match ClientError_context error with
  | Some context => is_some (em_retry_policies em (ec_code context)) && ErrorCode_is_retryable (ec_code context)
  | None => ClientError_is_retryable error
  end.
Definition policy_for (error : ClientError) (em : ErrorRecoveryManager) : RetryPolicy :=
  match ClientError_context error with
  | Some context => default RetryPolicy_default (em_retry_policies em (ec_code context))
  | None => RetryPolicy_default
  end.

Section Execute.
(** The world outside: what the clock reads, the random numbers, sleeping, fresh identifiers,
    and the operation itself. *)
Context {W T : Type}.
Variable clock : W → Z * W.
Variable draw : W → spec_float * W.
Variable fresh_id : W → string * W.
Variable sleep : Z → W → W.
Variable operation : W → res ClientError T * W.

(** One [Ok] answer of the operation. *)
Definition retried_ok (attempt : N) (elapsed : N) (m : RecoveryMetrics) : RecoveryMetrics :=
  if (0 <? attempt)%N
  then mkRecoveryMetrics (rm_total_retries m) (u64_wrap (rm_successful_retries m + 1)) (rm_failed_retries m)
         (rm_circuit_breaker_trips m) (rm_recovery_time_ms m ++ [elapsed])
  else m.
Definition retried_failed (m : RecoveryMetrics) : RecoveryMetrics :=
  mkRecoveryMetrics (rm_total_retries m) (rm_successful_retries m) (u64_wrap (rm_failed_retries m + 1))
    (rm_circuit_breaker_trips m) (rm_recovery_time_ms m).
Definition retried_again (m : RecoveryMetrics) : RecoveryMetrics :=
  mkRecoveryMetrics (u64_wrap (rm_total_retries m + 1)) (rm_successful_retries m) (rm_failed_retries m)
    (rm_circuit_breaker_trips m) (rm_recovery_time_ms m).

(** The [loop]; the breaker is the caller's copy. *)
Fixpoint retry_loop (fuel : nat) (start_time : Z) (attempt : N) (breaker : CircuitBreaker)
    (em : ErrorRecoveryManager) (w : W) : res ClientError T * ErrorRecoveryManager * W :=
  match fuel with
  | O => (Diverge, em, w)
  | S fuel =>
      let '(result, w) := operation w in
      match result with
      | Ok value =>
          let breaker := record_success breaker in
          let '(now, w) := if (0 <? attempt)%N then clock w else (0%Z, w) in
          let elapsed := (Z.to_N (as_millis (duration_since now start_time)) mod U64)%N in
          (Ok value, set_metrics (retried_ok attempt elapsed) em, w)
      | Err error =>
          let attempt := u32_wrap (attempt + 1) in
          if negb (should_retry error em) then
            let '(now, w) := clock w in
            let breaker := record_failure now breaker in
            (Err error, em, w)
          else
            let policy := policy_for error em in
            if (rp_max_attempts policy <=? attempt)%N then
              let '(now, w) := clock w in
              let breaker := record_failure now breaker in
              (Err error, set_metrics retried_failed em, w)
            else
              let '(random, w) := if SFltb (f64 0 0) (rp_jitter_factor policy) then draw w else (f64 0 0, w) in
              let w := sleep (calculate_delay policy (attempt - 1) random) w in
              retry_loop fuel start_time attempt breaker (set_metrics retried_again em) w
      | Panic => (Panic, em, w)
      | Diverge => (Diverge, em, w)
      end
  end.

(** At most five attempts are made by any policy of the manager. *)
Definition execute_fuel : nat := 5.
Definition execute_with_retry (operation_name : string) (em : ErrorRecoveryManager) (w : W)
  : res ClientError T * ErrorRecoveryManager * W :=
  let service_name := extract_service_name operation_name in
  let '(breaker, em) := get_circuit_breaker service_name em in
  let '(now, w) := clock w in
  let '(now', w) := clock w in
  let '(allowed, breaker) := allow_request now now' breaker in
  if negb allowed then
    let '(id, w) := fresh_id w in
    let '(now, w) := clock w in
    let '(now', w) := clock w in
    (Err (network_error id now now' NetworkConnection "Service temporarily unavailable (circuit breaker open)"
            operation_name 0 "circuit_breaker_open"), em, w)
  else
    let '(start_time, w) := clock w in
    retry_loop execute_fuel start_time 0 breaker em w.
End Execute.

Definition get_circuit_breaker_metrics (em : ErrorRecoveryManager) : gmap string CircuitBreakerMetrics :=
  CircuitBreaker_metrics <$> em_circuit_breakers em.
Definition manager_reset (em : ErrorRecoveryManager) : ErrorRecoveryManager :=
  set_breakers ∅ (set_metrics (λ _, RecoveryMetrics_default) em).

(** ** The breaker on its own *)

(** What is called on a breaker. *)
Inductive breaker_call := CallAllow (now now' : Z) | CallSuccess | CallFailure (now : Z).
(** Whether a request was admitted, and the breaker afterwards. *)
Definition breaker_do (c : breaker_call) (b : CircuitBreaker) : bool * CircuitBreaker :=
  match c with
  | CallAllow now now' => allow_request now now' b
  | CallSuccess => (false, record_success b)
  | CallFailure now => (false, record_failure now b)
  end.
(** Admitted requests and recorded successes along a run, with the breaker at its end. *)
Fixpoint breaker_run (l : list breaker_call) (b : CircuitBreaker) : nat * nat * CircuitBreaker :=
  match l with
  | [] => (0, 0, b)
  | c :: l =>
      let '(admitted, b) := breaker_do c b in
      let '(n, k, b) := breaker_run l b in
      ((if admitted then S n else n), (match c with CallSuccess => S k | _ => k end), b)
  end.

Definition config_ok (c : CircuitBreakerConfig) : Prop :=
  (bc_half_open_max_calls c < U32)%N ∧ (bc_success_threshold c < U32)%N.
Record breaker_ok (b : CircuitBreaker) : Prop := {
  bo_config : config_ok (cb_config b);
  bo_failures : cb_failure_count b = u32_wrap (N.of_nat (length (cb_failure_times b)));
  bo_calls : match cb_state b with
             | HalfOpen => (cb_half_open_calls b ≤ bc_half_open_max_calls (cb_config b))%N
             | _ => cb_half_open_calls b = 0%N
             end;
  bo_successes : match cb_state b with
                 | HalfOpen => (cb_success_count b < N.max 1 (bc_success_threshold (cb_config b)))%N
                 | _ => True
                 end;
  bo_open : cb_state b = Open_ → is_Some (cb_last_failure_time b);
}.

Lemma u32_wrap_small n : (n < U32)%N → u32_wrap n = n.
Proof. apply N.mod_small. Qed.
Lemma new_breaker_ok c : config_ok c → breaker_ok (CircuitBreaker_new c).
Proof. by split. Qed.
Lemma breaker_do_config c b : cb_config (breaker_do c b).2 = cb_config b.
Proof.
  destruct c as [now now'| |now]; cbn.
  - unfold allow_request, update_state. destruct (decide (cb_state b = Open_));
      [destruct (cb_last_failure_time b); [destruct (_ <=? _)%Z|]|]; cbn; by repeat case_match.
  - unfold record_success. repeat case_match; done.
  - unfold record_failure. cbn. by repeat case_match.
Qed.

(** Every call keeps the breaker in order; in particular no counter overflows. *)
Theorem breaker_do_ok c b : breaker_ok b → breaker_ok (breaker_do c b).2.
Proof.
  intros [[C1 C2] F A S O]. assert (1 < U32)%N by done. destruct c as [now now'| |now]; cbn [breaker_do snd].
  - unfold allow_request, update_state.
    destruct b as [cfg [] fc sc lf hc ft]; cbn in *; try (rewrite decide_False by done; cbn); try (rewrite decide_True by done).
    + by split.
    + destruct lf as [t|]; [|by split]. destruct (_ <=? _)%Z; cbn; [|by split].
      destruct (N.ltb_spec 0 (bc_half_open_max_calls cfg)); cbn; split; cbn; try done; try lia.
      rewrite u32_wrap_small; lia.
    + destruct (N.ltb_spec hc (bc_half_open_max_calls cfg)); cbn; split; cbn; try done.
      rewrite u32_wrap_small; lia.
  - unfold record_success. destruct b as [cfg [] fc sc lf hc ft]; cbn in *; [|by split|].
    + destruct (0 <? fc)%N; by split.
    + rewrite u32_wrap_small by lia. destruct (N.leb_spec (bc_success_threshold cfg) (sc + 1)); cbn; split; cbn; try done.
      lia.
  - unfold record_failure. destruct b as [cfg [] fc sc lf hc ft]; cbn in *; [|by split..].
    destruct (_ <=? _)%N; by split.
Qed.

(** While the breaker is half-open it counts what it lets through and what succeeds: it never
    admits more than the configured number, and it closes before the successes reach their
    threshold. *)
Definition stays_half_open (l : list breaker_call) (b : CircuitBreaker) : Prop :=
  ∀ k, k ≤ length l → cb_state (breaker_run (take k l) b).2 = HalfOpen.

Lemma trial_run l b n k b' :
  breaker_ok b → stays_half_open l b → breaker_run l b = (n, k, b') →
  breaker_ok b' ∧ cb_config b' = cb_config b ∧ cb_state b' = HalfOpen
  ∧ cb_half_open_calls b' = (cb_half_open_calls b + N.of_nat n)%N
  ∧ cb_success_count b' = (cb_success_count b + N.of_nat k)%N.
Proof.
  revert b n k. induction l as [|c l IH]; intros b n k B S E.
  - injection E as <- <- <-. specialize (S 0 ltac:(lia)). cbn in S. split_and!; [done..|lia|lia].
  - cbn [breaker_run] in E. destruct (breaker_do c b) as [r b1] eqn:D.
    destruct (breaker_run l b1) as [[n1 k1] b2] eqn:R. injection E as <- <- <-.
    pose proof (breaker_do_ok c b B) as B1. pose proof (breaker_do_config c b) as C1. rewrite D in B1, C1. cbn in B1, C1.
    assert (stays_half_open l b1) as S1.
    { intros j J. specialize (S (Datatypes.S j) ltac:(cbn; lia)). cbn [take breaker_run] in S. rewrite D in S.
      by destruct (breaker_run (take j l) b1) as [[] ?]. }
    assert (cb_state b = HalfOpen) as H0 by (apply (S 0); lia).
    assert (cb_state b1 = HalfOpen) as H1 by (apply (S1 0); lia).
    destruct (IH b1 n1 k1 B1 S1 R) as (B2 & C2 & H2 & N2 & K2).
    assert (cb_half_open_calls b1 = cb_half_open_calls b + (if r then 1 else 0)
            ∧ cb_success_count b1 = cb_success_count b + match c with CallSuccess => 1 | _ => 0 end)%N as [N1 K1].
    { clear -D H0 H1 B. destruct B as [[C1 C2] _ A SU _]. assert (1 < U32)%N by done. rewrite H0 in A, SU. destruct c as [now now'| |now]; cbn in D.
      - unfold allow_request, update_state in D. rewrite decide_False in D by congruence. cbn in D. rewrite H0 in D.
        destruct (N.ltb_spec (cb_half_open_calls b) (bc_half_open_max_calls (cb_config b)));
          injection D as <- <-; cbn; [rewrite u32_wrap_small by lia|]; lia.
      - unfold record_success in D. rewrite H0 in D. cbn in D. rewrite u32_wrap_small in D by lia.
        destruct (N.leb_spec (bc_success_threshold (cb_config b)) (cb_success_count b + 1));
          injection D as <- <-; cbn in *; [done|lia].
      - unfold record_failure in D. cbn in D. rewrite H0 in D. injection D as <- <-. done. }
    split_and!; [done|by rewrite C2|done| |].
    + rewrite N2, N1. destruct r; lia.
    + rewrite K2, K1. destruct c; lia.
Qed.
Theorem trial_budget l b n k b' :
  breaker_ok b → cb_half_open_calls b = 0%N → cb_success_count b = 0%N →
  stays_half_open l b → breaker_run l b = (n, k, b') →
  (N.of_nat n ≤ bc_half_open_max_calls (cb_config b))%N
  ∧ (N.of_nat k < N.max 1 (bc_success_threshold (cb_config b)))%N.
Proof.
  intros B Z0 Z1 S E. destruct (trial_run l b n k b' B S E) as ([_ _ A SU _] & C & H & N1 & K1).
  rewrite H, C, ?N1, ?K1, ?Z0, ?Z1 in A, SU. lia.
Qed.

(** An open breaker refuses until the timeout has passed since the last failure; then it
    starts its trial. *)
Theorem open_until_timeout now now' b t :
  breaker_ok b → cb_state b = Open_ → cb_last_failure_time b = Some t →
  (duration_since now t < bc_timeout (cb_config b))%Z ∧ (allow_request now now' b).1 = false
    ∧ cb_state (allow_request now now' b).2 = Open_
  ∨ (bc_timeout (cb_config b) <= duration_since now t)%Z ∧ cb_state (allow_request now now' b).2 = HalfOpen
    ∧ (allow_request now now' b).1 = (0 <? bc_half_open_max_calls (cb_config b))%N.
Proof.
  intros B H L. unfold allow_request, update_state. rewrite decide_True by done. rewrite L.
  destruct (Z.leb_spec (bc_timeout (cb_config b)) (duration_since now t)); cbn.
  - right. split; [done|]. by destruct (0 <? _)%N.
  - left. rewrite H. by split_and!.
Qed.

(** A trial whose admitted calls have not all reported refuses for ever: no time brings a
    half-open breaker back. *)
Theorem exhausted_trial_refuses l b :
  cb_state b = HalfOpen → (bc_half_open_max_calls (cb_config b) ≤ cb_half_open_calls b)%N →
  Forall (λ c, match c with CallAllow _ _ => True | _ => False end) l →
  (breaker_run l b).1.1 = 0 ∧ cb_state (breaker_run l b).2 = HalfOpen.
Proof.
  intros H M F. revert b H M. induction F as [|c l C F IH]; intros b H M; [done|].
  destruct c as [now now'| |]; try done. cbn [breaker_run breaker_do].
  unfold allow_request, update_state. rewrite decide_False by congruence. cbn. rewrite H.
  destruct (N.ltb_spec (cb_half_open_calls b) (bc_half_open_max_calls (cb_config b))); [lia|].
  lazymatch goal with |- context [breaker_run l ?b1] => specialize (IH b1) end. cbn in IH.
  destruct (breaker_run l _) as [[] ?]. cbn in *. by apply IH.
Qed.

(** ** The manager *)

(** The breakers that are kept are as they were made. *)
Record manager_ok (em : ErrorRecoveryManager) : Prop := {
  mo_policies : em_retry_policies em = retry_policies;
  mo_breakers : ∀ name b, em_circuit_breakers em !! name = Some b → b = CircuitBreaker_new (service_config name);
}.
Lemma new_manager_ok : manager_ok ErrorRecoveryManager_new.
Proof. by split. Qed.
Lemma set_metrics_ok f em : manager_ok em → manager_ok (set_metrics f em).
Proof. by intros [P B]. Qed.

Lemma get_circuit_breaker_new name em b em' :
  manager_ok em → get_circuit_breaker name em = (b, em') →
  b = CircuitBreaker_new (service_config name) ∧ manager_ok em'
  ∧ em_recovery_metrics em' = em_recovery_metrics em.
Proof.
  intros [P B] E. unfold get_circuit_breaker in E. destruct (em_circuit_breakers em !! name) as [b0|] eqn:L.
  - injection E as <- <-. split_and!; [by apply B|by split|done].
  - injection E as <- <-. split_and!; [done| |done]. split; [done|]. cbn. intros n b. rewrite lookup_insert_Some.
    intros [[<- <-]|[_ M]]; [done|by apply B].
Qed.

(** One failure does not open a new breaker of any service. *)
Lemma new_breaker_tolerates name now :
  cb_state (record_failure now (CircuitBreaker_new (service_config name))) = Closed.
Proof.
  unfold service_config. repeat case_decide; unfold record_failure, clean_old_failures, CircuitBreaker_new;
    cbn [cb_failure_times cb_config cb_state app]; rewrite filter_cons; case_decide; reflexivity.
Qed.
Lemma new_breaker_allows name now now' :
  allow_request now now' (CircuitBreaker_new (service_config name)) = (true, CircuitBreaker_new (service_config name)).
Proof. unfold allow_request, update_state. by rewrite decide_False by done. Qed.

Section Runs.
Context {W T : Type}.
Variable clock : W → Z * W.
Variable draw : W → spec_float * W.
Variable fresh_id : W → string * W.
Variable sleep : Z → W → W.
Variable operation : W → res ClientError T * W.

Lemma retry_loop_keeps fuel start attempt breaker em w r em' w' :
  manager_ok em → retry_loop clock draw sleep operation fuel start attempt breaker em w = (r, em', w') →
  manager_ok em' ∧ rm_circuit_breaker_trips (em_recovery_metrics em') = rm_circuit_breaker_trips (em_recovery_metrics em).
Proof.
  revert attempt breaker em w. induction fuel as [|fuel IH]; intros attempt breaker em w M E; cbn [retry_loop] in E.
  - by injection E as <- <- <-.
  - destruct (operation w) as [[v|e| |] w1]; try by injection E as <- <- <-.
    + destruct (if (0 <? attempt)%N then clock w1 else (0%Z, w1)) as [now w2]. injection E as <- <- <-.
      split; [by apply set_metrics_ok|]. cbn. unfold retried_ok. by destruct (0 <? attempt)%N.
    + destruct (negb (should_retry e em)).
      { destruct (clock w1). by injection E as <- <- <-. }
      destruct (_ <=? _)%N.
      { destruct (clock w1). injection E as <- <- <-. by split; [apply set_metrics_ok|]. }
      destruct (if SFltb _ _ then draw w1 else _) as [rand w2].
      apply IH in E as [? ->]; [done|by apply set_metrics_ok].
Qed.

(** What is called on the manager, and what it answers. *)
Inductive manager_step (em : ErrorRecoveryManager) : ErrorRecoveryManager → Prop :=
| step_execute name w r em' w' :
    execute_with_retry clock draw fresh_id sleep operation name em w = (r, em', w') → manager_step em em'
| step_handle now error r em' : handle_error now error em = (r, em') → manager_step em em'
| step_reset : manager_step em (manager_reset em).

Lemma handle_error_ok now error em :
  manager_ok em →
  ∃ em', handle_error now error em
         = (Ok (match ClientError_context error with
                | Some context => ec_recovery_action context
                | None => Abort_ true "Operation failed. Please try again."
                end), em')
    ∧ manager_ok em' ∧ em_recovery_metrics em' = em_recovery_metrics em.
Proof.
  intros M. unfold handle_error. destruct (ClientError_context error) as [c|]; [|by exists em].
  destruct (get_circuit_breaker _ em) as [b em1] eqn:G.
  destruct (get_circuit_breaker_new _ _ _ _ M G) as (-> & M1 & E1).
  rewrite new_breaker_tolerates. rewrite decide_False by done. by exists em1.
Qed.
Lemma execute_ok name em w :
  manager_ok em →
  ∃ em0 w0 start, manager_ok em0 ∧ em_recovery_metrics em0 = em_recovery_metrics em
    ∧ execute_with_retry clock draw fresh_id sleep operation name em w
      = retry_loop clock draw sleep operation execute_fuel start 0
          (CircuitBreaker_new (service_config (extract_service_name name))) em0 w0.
Proof.
  intros M. unfold execute_with_retry.
  destruct (get_circuit_breaker _ em) as [b em1] eqn:G.
  destruct (get_circuit_breaker_new _ _ _ _ M G) as (-> & M1 & E1).
  destruct (clock w) as [n1 w1]. destruct (clock w1) as [n2 w2]. rewrite new_breaker_allows. cbn [negb].
  destruct (clock w2) as [start w3]. by exists em1, w3, start.
Qed.

Lemma manager_steps_ok em em' :
  rtc manager_step em em' → manager_ok em → rm_circuit_breaker_trips (em_recovery_metrics em) = 0%N →
  manager_ok em' ∧ rm_circuit_breaker_trips (em_recovery_metrics em') = 0%N.
Proof.
  induction 1 as [em|em em1 em2 S _ IH]; intros M Z0; [done|].
  assert (manager_ok em1 ∧ rm_circuit_breaker_trips (em_recovery_metrics em1) = 0%N) as [? ?]; [|by apply IH].
  destruct S as [name w r em1 w' E|now error r em1 E|].
  - destruct (execute_ok name em w M) as (em0 & w0 & start & M0 & E0 & X). rewrite X in E.
    apply retry_loop_keeps in E as [? ->]; [|done]. by rewrite E0.
  - destruct (handle_error_ok now error em M) as (em3 & X & M3 & E3). rewrite X in E. injection E as _ <-.
    by rewrite E3.
  - split; [|done]. split; [by apply M|]. cbn. by intros ? ?.
Qed.

(** C35: The manager hands out copies of its breakers, so that nothing is ever recorded in them:
    whatever was executed, whatever failed and however often, the breakers are as new, no
    trip is counted, every operation is tried, and an error is answered with its own
    recommendation. *)
Theorem breakers_never_open em :
  rtc manager_step ErrorRecoveryManager_new em →
  (∀ name m, get_circuit_breaker_metrics em !! name = Some m → m = mkCircuitBreakerMetrics Closed 0 0 0)
  ∧ rm_circuit_breaker_trips (em_recovery_metrics em) = 0%N
  ∧ (∀ name w, ∃ em0 w0 start, execute_with_retry clock draw fresh_id sleep operation name em w
        = retry_loop clock draw sleep operation execute_fuel start 0
            (CircuitBreaker_new (service_config (extract_service_name name))) em0 w0)
  ∧ (∀ now error c, ClientError_context error = Some c →
       (handle_error now error em).1 = Ok (ec_recovery_action c)).
Proof.
  intros R. destruct (manager_steps_ok _ _ R new_manager_ok eq_refl) as [M TR]. split_and!.
  - intros name m. unfold get_circuit_breaker_metrics. rewrite lookup_fmap. intros H.
    destruct (em_circuit_breakers em !! name) as [b|] eqn:L; [|done]. injection H as <-.
    by rewrite (mo_breakers _ M _ _ L).
  - done.
  - intros name w. destruct (execute_ok name em w M) as (em0 & w0 & start & _ & _ & X). eauto.
  - intros now error c C. destruct (handle_error_ok now error em M) as (em' & -> & _). by rewrite C.
Qed.

Lemma policy_bound e em : manager_ok em → (rp_max_attempts (policy_for e em) ≤ 5)%N.
Proof.
  intros [P _]. unfold policy_for. rewrite P. destruct (ClientError_context e) as [c|]; [|done].
  by destruct (ec_code c).
Qed.
Lemma retry_loop_returns fuel start attempt breaker em w :
  manager_ok em → (5 ≤ attempt + N.of_nat fuel)%N → (attempt < 5)%N →
  (∀ w, (∃ v, (operation w).1 = Ok v) ∨ ∃ e, (operation w).1 = Err e) →
  ∃ w1, (retry_loop clock draw sleep operation fuel start attempt breaker em w).1.1 = (operation w1).1.
Proof.
  intros M L A S. revert attempt breaker em w M L A. induction fuel as [|fuel IH]; intros attempt breaker em w M L A; [lia|].
  cbn [retry_loop]. pose proof (S w) as Sw. destruct (operation w) as [r w1] eqn:O. cbn in Sw.
  assert (u32_wrap (attempt + 1) = attempt + 1)%N as UW by (apply u32_wrap_small; assert (5 < U32)%N by done; lia).
  destruct Sw as [[v ->]|[e ->]].
  - destruct (if (0 <? attempt)%N then clock w1 else (0%Z, w1)) as [now w2]. exists w. by rewrite O.
  - rewrite UW. destruct (negb (should_retry e em)).
    { destruct (clock w1). exists w. by rewrite O. }
    destruct (N.leb_spec (rp_max_attempts (policy_for e em)) (attempt + 1)).
    { destruct (clock w1). exists w. by rewrite O. }
    pose proof (policy_bound e em M).
    destruct (if SFltb _ _ then draw w1 else _) as [rand w2]. apply IH; [by apply set_metrics_ok|lia|lia].
Qed.
(** Executing an operation that answers ends within five calls of it, one for each unit of
    fuel that the loop is given, and the result is what one of these calls answered. *)
Theorem execute_returns name em w :
  rtc manager_step ErrorRecoveryManager_new em →
  (∀ w, (∃ v, (operation w).1 = Ok v) ∨ ∃ e, (operation w).1 = Err e) →
  ∃ w1, (execute_with_retry clock draw fresh_id sleep operation name em w).1.1 = (operation w1).1.
Proof.
  intros R S. destruct (manager_steps_ok _ _ R new_manager_ok eq_refl) as [M _].
  destruct (execute_ok name em w M) as (em0 & w0 & start & M0 & _ & ->).
  by apply retry_loop_returns.
Qed.

(** Which errors are tried again: four codes, and none without a context.  The policies for
    encryption are never used, and three codes that are marked as retryable, and for which
    [Retry] is recommended, are not retried. *)
Theorem retried_codes em error :
  rtc manager_step ErrorRecoveryManager_new em →
  should_retry error em = true ↔
  ∃ c, ClientError_error_code error = Some c
    ∧ c ∈ [NetworkConnection; NetworkTimeout; StorageRead; StorageWrite].
Proof.
  intros R. destruct (manager_steps_ok _ _ R new_manager_ok eq_refl) as [[P _] _].
  unfold should_retry, ClientError_error_code. rewrite P. destruct (ClientError_context error) as [c|] eqn:C; cbn.
  - split.
    + intros H. exists (ec_code c). split; [done|]. destruct (ec_code c); try discriminate H; set_solver.
    + intros (c0 & [= <-] & H). repeat (apply list.elem_of_cons in H as [-> |H]; [done|]). by apply not_elem_of_nil in H.
  - split; [|by intros (? & ? & _)]. destruct error; done.
Qed.
End Runs.

(** The recommendation and the decision differ for these codes. *)
Theorem recommended_retry_not_done em (c : ErrorCode) :
  c ∈ [ResourceTimeout; ResourceLockContention; NetworkRateLimit] → em_retry_policies em = retry_policies →
  ∀ id now now' m op n cs, (∃ k d d', default_recovery_action c = Retry k d d')
    ∧ should_retry (network_error id now now' c m op n cs) em = false.
Proof.
  intros H P id now now' m op n cs. unfold should_retry. cbn. rewrite P.
  repeat (apply list.elem_of_cons in H as [-> |H]; [split; [by eexists _, _, _|done]|]). by apply not_elem_of_nil in H.
Qed.

(** ** Examples *)

(** The limit on the delay is applied before the jitter, which can exceed it. *)
Theorem delay_can_exceed_maximum :
  (rp_max_delay RetryPolicy_default < calculate_delay RetryPolicy_default 9 (f64 1 (-1)))%Z.
Proof. vm_compute. reflexivity. Qed.
Example first_delays :
  (λ n, as_millis (calculate_delay RetryPolicy_default n (f64 0 0))) <$> [0; 1; 2; 9]%N = [100; 200; 400; 30000]%Z.
Proof. vm_compute. reflexivity. Qed.
Example storage_delays :
  (λ n, as_millis (calculate_delay for_storage n (f64 0 0))) <$> [0; 1; 2; 3]%N = [100; 150; 225; 337]%Z.
Proof. vm_compute. reflexivity. Qed.

Section Examples.
(** A world that counts the calls: the operation fails with a timeout twice, then answers. *)
Definition tick (w : nat) : Z * nat := (Z.of_nat w, w).
Definition half (w : nat) : spec_float * nat := (f64 1 (-1), w).
Definition an_id (w : nat) : string * nat := ("id"%string, w).
Definition doze (_ : Z) (w : nat) : nat := w.
Definition flaky (w : nat) : res ClientError nat * nat :=
  ((if w <? 2 then Err (network_error "e" 0 0 NetworkTimeout "Timeout" "test" 0 "testing") else Ok w), S w).
Definition broken (w : nat) : res ClientError nat * nat :=
  (Err (network_error "e" 0 0 NetworkTimeout "Timeout" "test" 0 "testing"), S w).

Lemma flaky_settles w : (∃ v, (flaky w).1 = Ok v) ∨ ∃ e, (flaky w).1 = Err e.
Proof. unfold flaky. destruct (w <? 2); cbn; eauto. Qed.

Lemma execute_returns_witness :
  ∃ w1, (execute_with_retry tick half an_id doze flaky "test_operation" ErrorRecoveryManager_new 0).1.1 = (flaky w1).1.
Proof.
  apply (execute_returns tick half an_id doze flaky "test_operation" ErrorRecoveryManager_new 0);
    [apply rtc_refl|apply flaky_settles].
Defined.
Example flaky_succeeds :
  let '(r, _, w) := execute_with_retry tick half an_id doze flaky "test_operation" ErrorRecoveryManager_new 0 in
  (r, w) = (Ok 2, 3).
Proof. vm_compute. reflexivity. Qed.

(** Five calls each time, and no breaker opens. *)
Definition failed_once : ErrorRecoveryManager :=
  (execute_with_retry tick half an_id doze broken "connect" ErrorRecoveryManager_new 0).1.2.
Lemma breakers_never_open_witness :
  (∀ name m, get_circuit_breaker_metrics failed_once !! name = Some m → m = mkCircuitBreakerMetrics Closed 0 0 0)
  ∧ rm_circuit_breaker_trips (em_recovery_metrics failed_once) = 0%N
  ∧ (∀ name w, ∃ em0 w0 start, execute_with_retry tick half an_id doze broken name failed_once w
        = retry_loop tick half doze broken execute_fuel start 0
            (CircuitBreaker_new (service_config (extract_service_name name))) em0 w0)
  ∧ (∀ now error c, ClientError_context error = Some c →
       (handle_error now error failed_once).1 = Ok (ec_recovery_action c)).
Proof.
  apply (breakers_never_open tick half an_id doze broken failed_once). eapply rtc_l; [|apply rtc_refl].
  apply (step_execute tick half an_id doze broken ErrorRecoveryManager_new "connect" 0
    (execute_with_retry tick half an_id doze broken "connect" ErrorRecoveryManager_new 0).1.1 failed_once
    (execute_with_retry tick half an_id doze broken "connect" ErrorRecoveryManager_new 0).2).
  unfold failed_once. by destruct (execute_with_retry _ _ _ _ _ _ _ _) as [[] ?].
Defined.

(** A breaker that opened after five failures, and its trial. *)
Definition failing : CircuitBreaker :=
  (breaker_run (CallFailure <$> [1; 2; 3; 4; 5]%Z) (CircuitBreaker_new CircuitBreakerConfig_default)).2.
Definition on_trial : CircuitBreaker := with_state HalfOpen 0 0 failing.
Definition trial : list breaker_call := [CallAllow 0 0; CallAllow 0 0; CallSuccess; CallAllow 0 0; CallAllow 0 0].
Example failing_open : cb_state failing = Open_ ∧ cb_state (CircuitBreaker_new CircuitBreakerConfig_default) = Closed.
Proof. by split. Qed.
Lemma on_trial_ok : breaker_ok on_trial.
Proof. by split. Qed.
Lemma trial_budget_witness : (N.of_nat 3 ≤ 3)%N ∧ (N.of_nat 1 < N.max 1 3)%N.
Proof.
  apply (trial_budget trial on_trial 3 1 (breaker_run trial on_trial).2 on_trial_ok eq_refl eq_refl).
  - intros k K. do 6 (destruct k as [|k]; [reflexivity|]). cbn in K. lia.
  - vm_compute. reflexivity.
Defined.
Lemma exhausted_trial_refuses_witness :
  (breaker_run [CallAllow (from_secs 3600) (from_secs 3600)] (breaker_run trial on_trial).2).1.1 = 0
  ∧ cb_state (breaker_run [CallAllow (from_secs 3600) (from_secs 3600)] (breaker_run trial on_trial).2).2 = HalfOpen.
Proof.
  apply (exhausted_trial_refuses [CallAllow (from_secs 3600) (from_secs 3600)] (breaker_run trial on_trial).2).
  - reflexivity.
  - vm_compute. discriminate.
  - by repeat constructor.
Defined.
End Examples.
