(* ===== verification/Backup.v ===== *)
(** * Backups of keys ([crates/crypto/src/account_protection.rs],
      [crates/client/src/saved_code_recovery.rs], [crates/client/src/local_recovery_kit.rs])

    The keys of the epochs are kept in a backup.  An account's backup is sealed by a random
    file key, of which the saved code opens one share and the password the other; the kit of
    a local vault is sealed by the code alone.

    Argon2, base64 and the JSON of the stored values are classes; random bytes and what files
    hold are arguments. *)

From Stdlib Require Import Strings.Byte Strings.Ascii ZifyBool ZifyN.
From stdpp Require Import base tactics numbers sets list gmap strings pretty option sorting.
From S2P Require Import Prelude StateError Crypto EpochState CutoverMessages FilePath Storage HybridKem Json Pinning.
From S2P Require Import JoinCards.
Open Scope hc_scope.
Open Scope hc_st_scope.

(** ** Protected data ([account_protection.rs]) *)

Record ProtectedData := mkProtectedData {
  pd_magic : string;
  pd_version : N;
  pd_nonce : string;
  pd_ciphertext : string;
}.
#[export] Instance ProtectedData_eq_dec : EqDecision ProtectedData.
Proof. solve_decision. Defined.

Definition PROTECTED_DATA_MAGIC : string := "hybridcipher-protected".
Definition PROTECTED_DATA_VERSION : N := 1.
Definition is_supported (p : ProtectedData) : bool :=
  bool_decide (pd_magic p = PROTECTED_DATA_MAGIC) && bool_decide (pd_version p = PROTECTED_DATA_VERSION).

(** How the errors of the crates print. *)
Class RecoveryText := {
  base64_error : string → string;
  hex_error : string → string;
  aead_error : string;
}.
(** Argon2id with the parameters of [derive_root_key], and its limit on the secret. *)
Class Argon2 := argon2id : bytes → bytes → res string (array 32).
Class Argon2Laws `{Argon2} : Prop :=
  argon2id_total secret salt :
    (N.of_nat (length secret) < U32)%N → length salt = 16 → ∃ k, argon2id secret salt = Ok k.

Section Protection.
Context {ae : Aead} {b64 : Base64} {rt : RecoveryText}.

(** [nonce] is drawn from the operating system. *)
Definition encrypt_with_ad (nonce : array 12) (plaintext : bytes) (key : array 32) (aad : bytes)
  : res CryptoError ProtectedData :=
  let? ciphertext := ok_or (chacha_encrypt key nonce aad plaintext)
                       (EncryptionFailure ("failed to encrypt data: " +:+ aead_error)) in
  Ok (mkProtectedData PROTECTED_DATA_MAGIC PROTECTED_DATA_VERSION (base64_encode (arr nonce))
        (base64_encode ciphertext)).

Definition decrypt_with_ad (protected : ProtectedData) (key : array 32) (aad : bytes) : res CryptoError bytes :=
  if negb (is_supported protected)
  then Err (InvalidCiphertext ("unsupported protected blob format: magic='" +:+ pd_magic protected
                                 +:+ "', version=" +:+ pretty (pd_version protected)))
  else
    let? nonce_bytes := ok_or (base64_decode (pd_nonce protected))
                          (InvalidNonce ("failed to decode nonce (base64): " +:+ base64_error (pd_nonce protected))) in
    match array_of 12 nonce_bytes with
    | None => Err (InvalidNonce ("expected 12 bytes, got " +:+ pretty (N.of_nat (length nonce_bytes))))
    | Some nonce =>
        let? ciphertext := ok_or (base64_decode (pd_ciphertext protected))
                             (InvalidCiphertext ("failed to decode ciphertext (base64): "
                                                   +:+ base64_error (pd_ciphertext protected))) in
        ok_or (chacha_decrypt key nonce aad ciphertext)
          (DecryptionFailure ("failed to decrypt data: " +:+ aead_error))
    end.

Lemma protected_roundtrip {al : AeadLaws} {bl : Base64Laws} nonce m key aad p :
  encrypt_with_ad nonce m key aad = Ok p → decrypt_with_ad p key aad = Ok m.
Proof.
  unfold encrypt_with_ad. intros E. destruct (chacha_encrypt key nonce aad m) as [c|] eqn:C; [|done].
  injection E as <-. unfold decrypt_with_ad. cbn. rewrite !base64_decode_encode. cbn [ok_or res_bind].
  rewrite array_of_arr. cbn [ok_or res_bind]. by rewrite (chacha_correct _ _ _ _ _ C).
Qed.
Lemma encrypt_total {atl : AeadTotal} nonce m key aad :
  (N.of_nat (length m) < 64 * 4294967295)%N → ∃ p, encrypt_with_ad nonce m key aad = Ok p.
Proof.
  intros L. unfold encrypt_with_ad. destruct (chacha_total key nonce aad m L) as [c ->]. by eexists.
Qed.
End Protection.

(** ** The backup of an account ([saved_code_recovery.rs]) *)

Record BackupEntryPlain := mkBackupEntryPlain {
  be_group_id : Uuid;
  be_epoch_number : N;
  be_epoch_uuid : Uuid;
  be_created_at : Z;
  be_is_active : bool;
  be_encryption_key_b64 : string;
}.
Record EncryptedEntry := mkEncryptedEntry { ee_protected : ProtectedData }.
Record BackupArtifact := mkBackupArtifact {
  ba_version : N;
  ba_k1_salt_b64 : string;
  ba_k2_salt_b64 : string;
  ba_hkdf_salt_b64 : string;
  ba_k1_wrapped : ProtectedData;
  ba_k2_wrapped : ProtectedData;
  ba_entries : list EncryptedEntry;
}.
(** Authenticated material. *)
Record UnlockedRecovery := mkUnlockedRecovery {
  ur_file_key : array 32;
  ur_entry_key : array 32;
  ur_recovery_secret : bytes;
  ur_entries : list BackupEntryPlain;
}.

Definition BACKUP_VERSION : N := 1.
Definition RECOVERY_CODE_BYTES : nat := 32.
Definition MAX_ARTIFACT_BYTES : N := 16 * 1024 * 1024.
Definition MAX_ENTRIES : N := 100000.
Definition SALT_LEN : nat := 16.
Definition ENTRY_AAD : bytes := bytes_of "hybridcipher/backup/entry".
Definition K1_AAD : bytes := bytes_of "hybridcipher/backup/k1".
Definition K2_AAD : bytes := bytes_of "hybridcipher/backup/k2".
Definition EPOCH_KEY_LABEL : bytes := bytes_of "hybridcipher-backup".

Class BackupJson := {
  entry_to_vec : BackupEntryPlain → res string bytes;
  entry_from_slice : bytes → res string BackupEntryPlain;
  sealed_to_vec : EncryptedEntry → res string bytes;
  artifact_to_vec : BackupArtifact → res string bytes;
  artifact_from_slice : bytes → res string BackupArtifact;
}.
Class BackupJsonLaws `{BackupJson} : Prop := {
  entry_to_vec_total e : ∃ b, entry_to_vec e = Ok b;
  entry_from_to e b : rfc3339_years (be_created_at e) = true → entry_to_vec e = Ok b → entry_from_slice b = Ok e;
  sealed_to_vec_inj e e' b : sealed_to_vec e = Ok b → sealed_to_vec e' = Ok b → e = e';
  artifact_to_vec_total a : ∃ b, artifact_to_vec a = Ok b;
  artifact_from_to a b : artifact_to_vec a = Ok b → artifact_from_slice b = Ok a;
}.

(** [xor_into]: two keys bytewise, a missing byte counting as zero. *)
Definition byte_xor (a b : byte) : byte := byte_of_N (N.lxor (Byte.to_N a) (Byte.to_N b)).
Fixpoint xor_bytes (n : nat) (lhs rhs : bytes) : bytes :=
  match n with
  | O => []
  | S n => byte_xor (hd x00 lhs) (hd x00 rhs) :: xor_bytes n (tl lhs) (tl rhs)
  end.
Lemma xor_bytes_length n l r : length (xor_bytes n l r) = n.
Proof. revert l r. induction n as [|n IH]; intros l r; cbn; [done|by rewrite IH]. Qed.
Definition xor_into (lhs rhs : bytes) : array 32 := dexist (xor_bytes 32 lhs rhs) (xor_bytes_length 32 lhs rhs).

Section Backup.
Context {ae : Aead} {b64 : Base64} {rt : RecoveryText} {ar : Argon2} {hk : Hkdf} {bj : BackupJson}.

(** [Params::new] accepts its constants. *)
Definition derive_root_key (secret salt : bytes) : res string (array 32) :=
  if decide (length salt ≠ SALT_LEN) then Err "Invalid salt length for root key derivation"%string
  else map_err (λ e, "Failed to derive root key: " +:+ e) (argon2id secret salt).

Definition derive_epoch_key_from_file_key (k_file hkdf_salt : bytes) : res string (array 32) :=
  if decide (length hkdf_salt ≠ SALT_LEN) then Err "Invalid HKDF salt length for recovery backup"%string
  else
    let? okm := map_err (λ _, "Failed to derive entry key"%string)
                  (hkdf_okm (hkdf_prk (Some hkdf_salt) k_file) EPOCH_KEY_LABEL 32) in
    unwrap (array_of 32 okm).
Definition derive_epoch_key (a : BackupArtifact) (file_key : bytes) : res string (array 32) :=
  let? salt := ok_or (base64_decode (ba_hkdf_salt_b64 a)) "Recovery backup has invalid entry-key salt"%string in
  derive_epoch_key_from_file_key file_key salt.

Definition has_same_envelope (a b : BackupArtifact) : bool :=
  bool_decide (ba_k1_salt_b64 a = ba_k1_salt_b64 b) && bool_decide (ba_k2_salt_b64 a = ba_k2_salt_b64 b)
  && bool_decide (ba_hkdf_salt_b64 a = ba_hkdf_salt_b64 b) && bool_decide (ba_k1_wrapped a = ba_k1_wrapped b)
  && bool_decide (ba_k2_wrapped a = ba_k2_wrapped b).

(** What [BackupArtifact::new] draws. *)
Record ArtifactCoins := mkArtifactCoins {
  ac_k_file : array 32;
  ac_k1 : array 32;
  ac_k1_salt : array 16;
  ac_k2_salt : array 16;
  ac_hkdf_salt : array 16;
  ac_nonce1 : array 12;
  ac_nonce2 : array 12;
}.
Definition BackupArtifact_new (c : ArtifactCoins) (password : string) (recovery_code : bytes)
  : res string BackupArtifact :=
  if bool_decide (trim password = ""%string) || bool_decide (length recovery_code ≠ RECOVERY_CODE_BYTES)
  then Err "An account password and 32-byte recovery code are required"%string
  else
    let k2 := xor_into (arr (ac_k_file c)) (arr (ac_k1 c)) in
    let? k1_root := derive_root_key recovery_code (arr (ac_k1_salt c)) in
    let? k2_root := derive_root_key (bytes_of password) (arr (ac_k2_salt c)) in
    let? k1_wrapped := map_err (λ e, "Failed to wrap K1: " +:+ CryptoError_display e)
                         (encrypt_with_ad (ac_nonce1 c) (arr (ac_k1 c)) k1_root K1_AAD) in
    let? k2_wrapped := map_err (λ e, "Failed to wrap K2: " +:+ CryptoError_display e)
                         (encrypt_with_ad (ac_nonce2 c) (arr k2) k2_root K2_AAD) in
    Ok (mkBackupArtifact BACKUP_VERSION (base64_encode (arr (ac_k1_salt c))) (base64_encode (arr (ac_k2_salt c)))
          (base64_encode (arr (ac_hkdf_salt c))) k1_wrapped k2_wrapped []).

Definition unwrap_file_key (a : BackupArtifact) (password : string) (recovery_code : bytes)
  : res string (array 32) :=
  let? k1_salt := ok_or (base64_decode (ba_k1_salt_b64 a))
                    ("Invalid K1 salt encoding: " +:+ base64_error (ba_k1_salt_b64 a)) in
  let? k2_salt := ok_or (base64_decode (ba_k2_salt_b64 a))
                    ("Invalid K2 salt encoding: " +:+ base64_error (ba_k2_salt_b64 a)) in
  let? k1_root := derive_root_key recovery_code k1_salt in
  let? k2_root := derive_root_key (bytes_of password) k2_salt in
  let? k1_bytes := map_err (λ _, "Recovery code does not match this backup"%string)
                     (decrypt_with_ad (ba_k1_wrapped a) k1_root K1_AAD) in
  let? k2_bytes := map_err (λ _, "Password does not match this backup"%string)
                     (decrypt_with_ad (ba_k2_wrapped a) k2_root K2_AAD) in
  if decide (length k1_bytes ≠ 32 ∨ length k2_bytes ≠ 32) then Err "Wrapped shares have unexpected length"%string
  else Ok (xor_into k1_bytes k2_bytes).

(** The loop of [append_entries_with_epoch_key]; the nonce of the entry at a position is drawn
    when it is reached.  A failure keeps what was pushed before it. *)
Fixpoint append_entries_with_epoch_key (nonces : nat → array 12) (entries : list BackupEntryPlain)
    (epoch_key : array 32) : ST BackupArtifact string unit :=
  match entries with
  | [] => st_ret tt
  | entry :: entries =>
      let* plaintext := st_lift (map_err (λ e, "Failed to encode entry: " +:+ e) (entry_to_vec entry)) in
      let* protected := st_lift (map_err (λ e, "Failed to encrypt entry: " +:+ CryptoError_display e)
                                   (encrypt_with_ad (nonces 0) plaintext epoch_key ENTRY_AAD)) in
      do* st_put (λ a, mkBackupArtifact (ba_version a) (ba_k1_salt_b64 a) (ba_k2_salt_b64 a) (ba_hkdf_salt_b64 a)
                         (ba_k1_wrapped a) (ba_k2_wrapped a) (ba_entries a ++ [mkEncryptedEntry protected]));
      append_entries_with_epoch_key (λ n, nonces (S n)) entries epoch_key
  end.
Definition append_entries (nonces : nat → array 12) (entries : list BackupEntryPlain) (password : string)
    (recovery_code : bytes) : ST BackupArtifact string unit :=
  match entries with
  | [] => st_ret tt
  | _ =>
      let* a := st_get in
      let* k_file := st_lift (unwrap_file_key a password recovery_code) in
      let* hkdf_salt := st_lift (ok_or (base64_decode (ba_hkdf_salt_b64 a))
                          ("Invalid HKDF salt encoding: " +:+ base64_error (ba_hkdf_salt_b64 a))) in
      let* hkdf_key := st_lift (derive_epoch_key_from_file_key (arr k_file) hkdf_salt) in
      append_entries_with_epoch_key nonces entries hkdf_key
  end.

(** The loop of [unlock]. *)
Fixpoint decrypt_all (entries : list EncryptedEntry) (entry_key : array 32) : res string (list BackupEntryPlain) :=
  match entries with
  | [] => Ok []
  | entry :: entries =>
      let? plaintext := map_err (λ _, "Recovery backup contains a corrupted entry"%string)
                          (decrypt_with_ad (ee_protected entry) entry_key ENTRY_AAD) in
      let? parsed := map_err (λ _, "Recovery backup contains a malformed epoch entry"%string)
                       (entry_from_slice plaintext) in
      let? rest := decrypt_all entries entry_key in
      Ok (parsed :: rest)
  end.
Definition unlock (a : BackupArtifact) (password : string) (recovery_code : bytes) : res string UnlockedRecovery :=
  if bool_decide (length recovery_code ≠ RECOVERY_CODE_BYTES) || bool_decide (password = ""%string)
  then Err "An account password and 32-byte recovery code are required"%string
  else
    let? file_key := unwrap_file_key a password recovery_code in
    let? entry_key := derive_epoch_key a (arr file_key) in
    if (MAX_ENTRIES <? N.of_nat (length (ba_entries a)))%N
    then Err "Recovery artifact contains too many entries"%string
    else
      let? entries := decrypt_all (ba_entries a) entry_key in
      Ok (mkUnlockedRecovery file_key entry_key recovery_code entries).
Definition decrypt_entries (a : BackupArtifact) (password : string) (recovery_code : bytes)
  : res string (list BackupEntryPlain) :=
  let? u := unlock a password recovery_code in Ok (ur_entries u).

Definition to_base64 (a : BackupArtifact) : res string string :=
  let? serialized := map_err (λ e, "Failed to serialize backup: " +:+ e) (artifact_to_vec a) in
  Ok (base64_encode serialized).
Definition from_base64 (encoded : string) : res string BackupArtifact :=
  if (MAX_ARTIFACT_BYTES * 4 / 3 + 4 <? N.of_nat (String.length encoded))%N
  then Err "Recovery artifact exceeds the size limit"%string
  else
    let? decoded := ok_or (base64_decode (trim encoded))
                      ("Artifact is not valid base64: " +:+ base64_error (trim encoded)) in
    let? artifact := map_err (λ e, "Artifact JSON is invalid: " +:+ e) (artifact_from_slice decoded) in
    let? artifact :=
      if decide (ba_version artifact = BACKUP_VERSION) then Ok artifact
      else if decide (ba_version artifact = BACKUP_VERSION + 1)%N
      then Ok (mkBackupArtifact BACKUP_VERSION (ba_k1_salt_b64 artifact) (ba_k2_salt_b64 artifact)
                 (ba_hkdf_salt_b64 artifact) (ba_k1_wrapped artifact) (ba_k2_wrapped artifact) (ba_entries artifact))
      else Err ("Unsupported backup version " +:+ pretty (ba_version artifact) +:+ " (expected "
                  +:+ pretty BACKUP_VERSION +:+ ")") in
    if (MAX_ENTRIES <? N.of_nat (length (ba_entries artifact)))%N
    then Err "Recovery artifact contains too many entries"%string
    else Ok artifact.
(** [contents] is what reading the file gives. *)
Definition load_from_path (contents : res string string) : res string BackupArtifact :=
  let? contents := map_err (λ e, "Failed to read backup artifact: " +:+ e) contents in from_base64 contents.
(** [dir] and [write] are how making the directory and writing the file end; the result is
    what the file then holds. *)
Definition save_to_path (dir write : res string unit) (a : BackupArtifact) : res string string :=
  let? _ := map_err (λ e, "Failed to create backup directory: " +:+ e) dir in
  let? encoded := to_base64 a in
  let? _ := map_err (λ e, "Failed to write backup artifact: " +:+ e) write in
  Ok encoded.
End Backup.

(** ** Ordered maps *)

(** [BTreeMap]: the entries in the order of their keys. *)
Section BTree.
Context {K V : Type} `{EqDecision K} (ltb : K → K → bool).

Fixpoint bt_get (k : K) (m : list (K * V)) : option V :=
  match m with
  | [] => None
  | (k', v) :: m => if decide (k = k') then Some v else bt_get k m
  end.
Fixpoint bt_insert (k : K) (v : V) (m : list (K * V)) : list (K * V) :=
  match m with
  | [] => [(k, v)]
  | (k', v') :: m =>
      if decide (k = k') then (k, v) :: m
      else if ltb k k' then (k, v) :: (k', v') :: m
      else (k', v') :: bt_insert k v m
  end.

Lemma bt_get_elem k v m : bt_get k m = Some v → (k, v) ∈ m.
Proof.
  induction m as [|[k' v'] m IH]; [done|]. cbn. destruct (decide (k = k')) as [->|N].
  - intros [= ->]. left.
  - intros H. right. by apply IH.
Qed.
Lemma bt_insert_elem k v m p : bt_get k m = None → p ∈ bt_insert k v m ↔ p = (k, v) ∨ p ∈ m.
Proof.
  induction m as [|[k' v'] m IH]; cbn; [set_solver|]. destruct (decide (k = k')) as [->|N]; [done|].
  intros H. destruct (ltb k k'); set_solver.
Qed.
Lemma bt_get_insert k v k0 m : bt_get k0 (bt_insert k v m) = if decide (k0 = k) then Some v else bt_get k0 m.
Proof.
  induction m as [|[k' v'] m IH]; cbn; [done|]. destruct (decide (k = k')) as [->|N]; cbn.
  - by repeat case_decide.
  - destruct (ltb k k'); cbn; [by repeat case_decide|]. rewrite IH. repeat case_decide; congruence.
Qed.
Lemma bt_insert_nodup k v m : bt_get k m = None → NoDup m.*1 → NoDup (bt_insert k v m).*1.
Proof.
  assert (∀ k m, bt_get k m = None → k ∉ m.*1) as F.
  { clear. intros k m. induction m as [|[k' v'] m IH]; cbn; [set_solver|]. case_decide; set_solver. }
  induction m as [|[k' v'] m IH]; cbn; [by intros _ _; apply NoDup_singleton|].
  destruct (decide (k = k')) as [->|N]; [done|]. intros G ND. apply list.NoDup_cons in ND as [N1 N2].
  destruct (ltb k k'); cbn.
  - apply list.NoDup_cons. split; [apply F in G; set_solver|by apply list.NoDup_cons].
  - apply list.NoDup_cons. split; [|by apply IH]. intros I. apply list_elem_of_fmap in I as ([k1 v1] & E & I). cbn in E.
    subst k1. apply bt_insert_elem in I as [[= ->]|I]; [done| |done]. apply N1. apply list_elem_of_fmap. by exists (k', v1).
Qed.
Lemma bt_get_nodup k v m : NoDup m.*1 → (k, v) ∈ m → bt_get k m = Some v.
Proof.
  induction m as [|[k' v'] m IH]; cbn; [by intros _ H%not_elem_of_nil|]. intros ND I.
  apply list.NoDup_cons in ND as [N1 N2]. apply list.elem_of_cons in I as [[= -> ->]|I]; [by rewrite decide_True|].
  rewrite decide_False; [by apply IH|]. intros ->. apply N1. apply list_elem_of_fmap. by exists (k', v).
Qed.
End BTree.

(** The order of a [Uuid] is that of its bytes. *)
Definition uuid_ltb (a b : Uuid) : bool := (be_num (arr a) <? be_num (arr b))%N.
Definition identity_ltb (a b : Uuid * N) : bool :=
  if decide (a.1 = b.1) then (a.2 <? b.2)%N else uuid_ltb a.1 b.1.

(** ** The restore plan *)

Inductive GroupRole := RoleAdmin | RoleMember.
Record RecoveryGroupScope := mkRecoveryGroupScope {
  rs_group_id : Uuid;
  rs_group_name : string;
  rs_user_role : GroupRole;
  rs_current_epoch_uuid : option Uuid;
}.
Record ValidatedEpoch := mkValidatedEpoch {
  ve_number : N;
  ve_uuid : Uuid;
  ve_created_at : Z;
  ve_key : array 32;
}.
Record ValidatedGroup := mkValidatedGroup { vg_scope : RecoveryGroupScope; vg_epochs : list ValidatedEpoch }.
Record ValidatedRecovery := mkValidatedRecovery {
  vr_groups : list ValidatedGroup;
  vr_all_epochs : list (Uuid * ValidatedEpoch);
}.

Section Validate.
Context {sha : Sha256} {b64 : Base64}.

Definition epoch_id_matches (e : BackupEntryPlain) (group_id : Uuid) : bool :=
  negb (be_epoch_number e =? 0)%N && bool_decide (be_epoch_uuid e = u64_to_uuid (be_epoch_number e) (arr group_id)).
(** A key of 32 bytes that are not all zero. *)
Definition usable_key (decoded : bytes) : option (array 32) :=
  if forallb (λ b, Byte.eqb b x00) decoded then None else array_of 32 decoded.

(** One turn of the loop of [validate_for_groups]. *)
Definition validate_one (allowed : list Uuid) (entry : BackupEntryPlain)
    (validated : list ((Uuid * N) * ValidatedEpoch)) : res string (list ((Uuid * N) * ValidatedEpoch)) :=
  if negb (epoch_id_matches entry (be_group_id entry))
  then Err "Recovery epoch identifier does not match its group and number"%string
  else
    let? decoded := ok_or (base64_decode (be_encryption_key_b64 entry)) "Recovery epoch key has invalid encoding"%string in
    let? key := ok_or (usable_key decoded) "Recovery epoch key is invalid"%string in
    if negb (bool_decide (be_group_id entry ∈ allowed))
    then Err "Recovery backup contains a group outside current account memberships"%string
    else
      let identity := (be_group_id entry, be_epoch_number entry) in
      match bt_get identity validated with
      | Some existing =>
          if decide (ve_key existing ≠ key) then Err "Recovery backup contains conflicting keys for one epoch"%string
          else Ok validated
      | None =>
          Ok (bt_insert identity_ltb identity
                (mkValidatedEpoch (be_epoch_number entry) (be_epoch_uuid entry) (be_created_at entry) key) validated)
      end.
Fixpoint validate_loop (allowed : list Uuid) (entries : list BackupEntryPlain)
    (validated : list ((Uuid * N) * ValidatedEpoch)) : res string (list ((Uuid * N) * ValidatedEpoch)) :=
  match entries with
  | [] => Ok validated
  | entry :: entries => let? validated := validate_one allowed entry validated in validate_loop allowed entries validated
  end.

(** The groups: what is taken for a scope is removed from the map. *)
Fixpoint take_groups (scopes : list RecoveryGroupScope) (validated : list ((Uuid * N) * ValidatedEpoch))
  : list ValidatedGroup :=
  match scopes with
  | [] => []
  | scope :: scopes =>
      let epochs := snd <$> filter (λ p, p.1.1 = rs_group_id scope) validated in
      let rest := filter (λ p, p.1.1 ≠ rs_group_id scope) validated in
      match epochs with
      | [] => take_groups scopes rest
      | _ => mkValidatedGroup scope epochs :: take_groups scopes rest
      end
  end.
Definition selects (only : option Uuid) (s : RecoveryGroupScope) : bool :=
  match only with Some id => bool_decide (id = rs_group_id s) | None => true end.
Definition validate_for_groups (u : UnlockedRecovery) (scopes : list RecoveryGroupScope) (only : option Uuid)
  : res string ValidatedRecovery :=
  let allowed := rs_group_id <$> scopes in
  if negb (bool_decide (NoDup allowed)) then Err "Recovery group metadata contains duplicates"%string
  else if negb (match only with Some id => bool_decide (id ∈ allowed) | None => true end)
  then Err "The recovery group is not an authorized account group"%string
  else
    let? validated := validate_loop allowed (ur_entries u) [] in
    let all_epochs := (λ p, (p.1.1, p.2)) <$> validated in
    let selected := filter (λ s, selects only s = true) scopes in
    match take_groups selected validated with
    | [] => Err "The backup contains no recoverable epochs for the selected account groups"%string
    | groups => Ok (mkValidatedRecovery groups all_epochs)
    end.

Definition retain_groups (selected : list Uuid) (v : ValidatedRecovery) : res string unit * ValidatedRecovery :=
  let groups := filter (λ g, rs_group_id (vg_scope g) ∈ selected) (vr_groups v) in
  (match groups with [] => Err "No authorized recovery groups were selected"%string | _ => Ok tt end,
   mkValidatedRecovery groups (vr_all_epochs v)).
Definition group_ids (v : ValidatedRecovery) : list Uuid := (λ g, rs_group_id (vg_scope g)) <$> vr_groups v.
Definition contains_current (v : ValidatedRecovery) (id : Uuid) : bool :=
  match list_find (λ g, rs_group_id (vg_scope g) = id) (vr_groups v) with
  | Some (_, g) => existsb (λ e, bool_decide (Some (ve_uuid e) = rs_current_epoch_uuid (vg_scope g))) (vg_epochs g)
  | None => false
  end.
Definition group_readiness (v : ValidatedRecovery) : list (Uuid * nat * bool) :=
  (λ g, (rs_group_id (vg_scope g), length (vg_epochs g), contains_current v (rs_group_id (vg_scope g)))) <$> vr_groups v.
End Validate.

(** ** Recovery codes *)

(** [format_recovery_code]: upper-case digits in groups of eight. *)
Fixpoint group_digits (idx : nat) (hex : string) : string :=
  match hex with
  | EmptyString => ""
  | String ch hex =>
      (if (0 <? idx) && (idx mod 8 =? 0) then "-" else "") +:+ String ch "" +:+ group_digits (S idx) hex
  end.
(** [chars().filter(..)]: without white space and dashes. *)
Fixpoint strip_code (s : string) : string :=
  match s with
  | String a ((String b ((String c s3) as s2)) as s1) =>
      if ws1 a || bool_decide (a = "-"%char) then strip_code s1
      else if ws2 a b then strip_code s2
      else if ws3 a b c then strip_code s3
      else String a (strip_code s1)
  | String a ((String b s2) as s1) =>
      if ws1 a || bool_decide (a = "-"%char) then strip_code s1
      else if ws2 a b then strip_code s2
      else String a (strip_code s1)
  | String a s1 => if ws1 a || bool_decide (a = "-"%char) then strip_code s1 else String a (strip_code s1)
  | EmptyString => ""
  end.

Class HexUpper `{Hex} := hex_encode_upper : bytes → string.
Definition upper_digit (c : ascii) : bool :=
  is_digit c || ((65 <=? code c) && (code c <=? 70))%N.
Class HexUpperLaws `{HexUpper} : Prop := {
  hex_upper_length b : String.length (hex_encode_upper b) = 2 * length b;
  hex_upper_digits b : string_all upper_digit (hex_encode_upper b) = true;
  hex_decode_upper b : hex_decode (hex_encode_upper b) = Some b;
}.

Section Code.
Context {hex : Hex} {hu : HexUpper} {rt : RecoveryText}.
Definition format_recovery_code (code : bytes) : string := group_digits 0 (hex_encode_upper code).
Definition parse_recovery_code (input : string) : res string bytes :=
  let normalized := strip_code input in
  if decide (String.length normalized ≠ RECOVERY_CODE_BYTES * 2)
  then Err ("Recovery code must contain exactly " +:+ pretty (N.of_nat (RECOVERY_CODE_BYTES * 2))
              +:+ " hexadecimal characters, ignoring dashes.")
  else
    let? bytes := ok_or (hex_decode normalized) ("Recovery code is not valid hexadecimal: " +:+ hex_error normalized) in
    if decide (length bytes ≠ RECOVERY_CODE_BYTES) then Err "Recovery code has an unexpected length."%string
    else Ok bytes.
End Code.

(** ** The kit of a local vault ([local_recovery_kit.rs]) *)

Record LocalRecoveryKit := mkLocalRecoveryKit {
  lk_kind : string;
  lk_version : N;
  lk_salt_b64 : string;
  lk_entries : list EncryptedEntry;
}.
Record LocalKitEpoch := mkLocalKitEpoch {
  le_number : N;
  le_created_at : Z;
  le_is_active : bool;
  le_key : array 32;
}.
Record LocalKitContents := mkLocalKitContents { lc_group_id : Uuid; lc_epochs : list LocalKitEpoch }.

Definition LOCAL_KIT_VERSION : N := 1.
Definition LOCAL_KIT_KIND : string := "hybridcipher-local-recovery-kit".
Definition MAX_KIT_BYTES : N := 1024 * 1024.
Definition MAX_KIT_ENTRIES : N := 10000.
Definition KIT_ENTRY_KEY_LABEL : bytes := bytes_of "hybridcipher/local-kit/v1/entry-key".
Definition KIT_ENTRY_AAD : bytes := bytes_of "hybridcipher/local-kit/v1/entry".

Class KitJson := {
  kit_to_vec : LocalRecoveryKit → res string bytes;
  kit_from_slice : bytes → res string LocalRecoveryKit;
}.
Class KitJsonLaws `{KitJson} : Prop := {
  kit_to_vec_total k : ∃ b, kit_to_vec k = Ok b;
  kit_from_to k b : kit_to_vec k = Ok b → kit_from_slice b = Ok k;
}.

Section Kit.
Context {sha : Sha256} {ae : Aead} {b64 : Base64} {rt : RecoveryText} {ar : Argon2} {hk : Hkdf}
  {bj : BackupJson} {kj : KitJson}.

Definition to_backup_entries (c : LocalKitContents) : list BackupEntryPlain :=
  (λ e, mkBackupEntryPlain (lc_group_id c) (le_number e) (u64_to_uuid (le_number e) (arr (lc_group_id c)))
          (le_created_at e) (le_is_active e) (base64_encode (arr (le_key e)))) <$> lc_epochs c.

(** One turn of the loop of [validate_entries]. *)
Definition validate_kit_one (group_id : Uuid) (entry : BackupEntryPlain) (epochs : list (N * LocalKitEpoch))
  : res string (list (N * LocalKitEpoch)) :=
  if decide (be_group_id entry ≠ group_id) then Err "Recovery kit mixes keys from different vaults"%string
  else if negb (epoch_id_matches entry group_id)
  then Err "Recovery kit epoch identifier does not match its vault"%string
  else
    let? decoded := ok_or (base64_decode (be_encryption_key_b64 entry)) "Recovery kit key has invalid encoding"%string in
    let? key := ok_or (usable_key decoded) "Recovery kit key is invalid"%string in
    match bt_get (be_epoch_number entry) epochs with
    | Some existing =>
        if decide (le_key existing ≠ key) then Err "Recovery kit contains conflicting keys for one epoch"%string
        else Ok epochs
    | None => Ok (bt_insert N.ltb (be_epoch_number entry)
                    (mkLocalKitEpoch (be_epoch_number entry) (be_created_at entry) (be_is_active entry) key) epochs)
    end.
Fixpoint validate_kit_loop (group_id : Uuid) (entries : list BackupEntryPlain) (epochs : list (N * LocalKitEpoch))
  : res string (list (N * LocalKitEpoch)) :=
  match entries with
  | [] => Ok epochs
  | entry :: entries => let? epochs := validate_kit_one group_id entry epochs in validate_kit_loop group_id entries epochs
  end.
Definition validate_entries (entries : list BackupEntryPlain) : res string LocalKitContents :=
  let? group_id := ok_or (be_group_id <$> head entries) "Recovery kit contains no keys"%string in
  if (MAX_KIT_ENTRIES <? N.of_nat (length entries))%N then Err "Recovery kit contains too many entries"%string
  else
    let? epochs := validate_kit_loop group_id entries [] in
    Ok (mkLocalKitContents group_id (epochs.*2)).

Definition derive_entry_key (recovery_code salt : bytes) : res string (array 32) :=
  if decide (length salt ≠ SALT_LEN) then Err "Recovery kit has an invalid salt"%string
  else
    let? root := derive_root_key recovery_code salt in
    let? okm := map_err (λ _, "Failed to derive recovery kit key"%string)
                  (hkdf_okm (hkdf_prk (Some salt) (arr root)) KIT_ENTRY_KEY_LABEL 32) in
    unwrap (array_of 32 okm).

(** The loop of [create]. *)
Fixpoint seal_all (nonces : nat → array 12) (entries : list BackupEntryPlain) (entry_key : array 32)
  : res string (list EncryptedEntry) :=
  match entries with
  | [] => Ok []
  | entry :: entries =>
      let? plaintext := map_err (λ e, "Failed to encode entry: " +:+ e) (entry_to_vec entry) in
      let? protected := map_err (λ e, "Failed to seal recovery kit entry: " +:+ CryptoError_display e)
                          (encrypt_with_ad (nonces 0) plaintext entry_key KIT_ENTRY_AAD) in
      let? rest := seal_all (λ n, nonces (S n)) entries entry_key in
      Ok (mkEncryptedEntry protected :: rest)
  end.
Definition LocalRecoveryKit_create (salt : array 16) (nonces : nat → array 12) (recovery_code : bytes)
    (entries : list BackupEntryPlain) : res string LocalRecoveryKit :=
  if decide (length recovery_code ≠ RECOVERY_CODE_BYTES) then Err "A 32-byte recovery code is required"%string
  else
    let? _ := validate_entries entries in
    let? entry_key := derive_entry_key recovery_code (arr salt) in
    let? sealed := seal_all nonces entries entry_key in
    Ok (mkLocalRecoveryKit LOCAL_KIT_KIND LOCAL_KIT_VERSION (base64_encode (arr salt)) sealed).

Definition check_header (k : LocalRecoveryKit) : res string unit :=
  if decide (lk_kind k ≠ LOCAL_KIT_KIND) then Err "This file is not a HybridCipher recovery kit"%string
  else if decide (lk_version k ≠ LOCAL_KIT_VERSION)
  then Err ("Unsupported recovery kit version " +:+ pretty (lk_version k) +:+ " (expected "
              +:+ pretty LOCAL_KIT_VERSION +:+ ")")
  else if decide (lk_entries k = []) then Err "Recovery kit contains no keys"%string
  else if (MAX_KIT_ENTRIES <? N.of_nat (length (lk_entries k)))%N
  then Err "Recovery kit contains too many entries"%string
  else Ok tt.

(** The loop of [open]. *)
Fixpoint open_all (index : nat) (entries : list EncryptedEntry) (entry_key : array 32)
  : res string (list BackupEntryPlain) :=
  match entries with
  | [] => Ok []
  | entry :: entries =>
      let? plaintext := map_err (λ _, if index =? 0 then "Recovery code does not match this recovery kit"%string
                                      else "Recovery kit contains a corrupted entry"%string)
                          (decrypt_with_ad (ee_protected entry) entry_key KIT_ENTRY_AAD) in
      let? parsed := map_err (λ _, "Recovery kit contains a malformed entry"%string) (entry_from_slice plaintext) in
      let? rest := open_all (S index) entries entry_key in
      Ok (parsed :: rest)
  end.
Definition LocalRecoveryKit_open (k : LocalRecoveryKit) (recovery_code : bytes) : res string LocalKitContents :=
  if decide (length recovery_code ≠ RECOVERY_CODE_BYTES) then Err "A 32-byte recovery code is required"%string
  else
    let? _ := check_header k in
    let? salt := ok_or (base64_decode (lk_salt_b64 k)) "Recovery kit has an invalid salt"%string in
    let? entry_key := derive_entry_key recovery_code salt in
    let? entries := open_all 0 (lk_entries k) entry_key in
    validate_entries entries.

Definition kit_to_base64 (k : LocalRecoveryKit) : res string string :=
  let? serialized := map_err (λ e, "Failed to encode recovery kit: " +:+ e) (kit_to_vec k) in
  Ok (base64_encode serialized).
Definition kit_from_base64 (encoded : string) : res string LocalRecoveryKit :=
  if (MAX_KIT_BYTES * 4 / 3 + 4 <? N.of_nat (String.length encoded))%N
  then Err "Recovery kit exceeds the size limit"%string
  else
    let? decoded := ok_or (base64_decode (trim encoded)) "This file is not a HybridCipher recovery kit"%string in
    let? kit := map_err (λ _, "This file is not a HybridCipher recovery kit"%string) (kit_from_slice decoded) in
    let? _ := check_header kit in
    Ok kit.
(** [size] is what the metadata of the file say, [contents] what reading it gives. *)
Definition kit_load_from_path (size : res string N) (contents : res string string) : res string LocalRecoveryKit :=
  let? size := map_err (λ e, "Failed to read recovery kit: " +:+ e) size in
  if (MAX_KIT_BYTES * 4 / 3 + 4 <? size)%N then Err "Recovery kit exceeds the size limit"%string
  else
    let? contents := map_err (λ e, "Failed to read recovery kit: " +:+ e) contents in
    kit_from_base64 contents.
End Kit.

(** ** The shares of the file key *)

Lemma lxor_byte a b : (a < 256)%N → (b < 256)%N → (N.lxor a b < 256)%N.
Proof.
  intros A B. destruct (N.eq_dec (N.lxor a b) 0%N) as [->|N0]; [done|].
  change 256%N with (2 ^ 8)%N in *. apply N.log2_lt_pow2; [lia|].
  pose proof (N.log2_lxor a b).
  assert (∀ x, x < 2 ^ 8 → N.log2 x < 8)%N as L.
  { intros x X. destruct (N.eq_dec x 0%N) as [->|]; [done|]. apply N.log2_lt_pow2; [lia|done]. }
  pose proof (L a A). pose proof (L b B). lia.
Qed.
Lemma to_N_byte_xor a b : Byte.to_N (byte_xor a b) = N.lxor (Byte.to_N a) (Byte.to_N b).
Proof.
  unfold byte_xor. rewrite to_N_byte_of_N. apply N.mod_small, lxor_byte; apply byte_to_N_lt.
Qed.
Lemma byte_xor_cancel a b : byte_xor a (byte_xor b a) = b.
Proof.
  apply byte_to_N_inj. rewrite !to_N_byte_xor, N.lxor_comm, N.lxor_assoc, N.lxor_nilpotent. apply N.lxor_0_r.
Qed.
Lemma byte_xor_solve a b : byte_xor a (byte_xor a b) = b.
Proof. apply byte_to_N_inj. by rewrite !to_N_byte_xor, <-N.lxor_assoc, N.lxor_nilpotent, N.lxor_0_l. Qed.

Lemma xor_bytes_cancel n a b : length a = n → length b = n → xor_bytes n a (xor_bytes n b a) = b.
Proof.
  revert a b. induction n as [|n IH]; intros [|x a] [|y b] A B; try done. cbn in *.
  by rewrite byte_xor_cancel, IH by lia.
Qed.
Lemma xor_bytes_solve n a b : length a = n → length b = n → xor_bytes n a (xor_bytes n a b) = b.
Proof.
  revert a b. induction n as [|n IH]; intros [|x a] [|y b] A B; try done. cbn in *.
  by rewrite byte_xor_solve, IH by lia.
Qed.
Lemma shares_combine (k_file k1 : array 32) :
  xor_into (arr k1) (arr (xor_into (arr k_file) (arr k1))) = k_file.
Proof. apply arr_inj. cbn -[xor_bytes]. apply xor_bytes_cancel; apply arr_length. Qed.

(** Neither share says anything of the file key: each is what it is for every file key, with
    one choice of the random share. *)
Theorem share_fits_every_key (k_file k2 : array 32) : exists! k1 : array 32, xor_into (arr k_file) (arr k1) = k2.
Proof.
  exists (xor_into (arr k_file) (arr k2)). split.
  - apply arr_inj. cbn -[xor_bytes]. apply xor_bytes_solve; apply arr_length.
  - intros k1 <-. apply arr_inj. cbn -[xor_bytes]. apply xor_bytes_solve; apply arr_length.
Qed.

(** ** A backup opens *)

Section BackupTheorems.
Context {ae : Aead} {al : AeadLaws} {b64 : Base64} {bl : Base64Laws} {rt : RecoveryText} {ar : Argon2}
  {hk : Hkdf} {bj : BackupJson} {bjl : BackupJsonLaws}.

(** What stays of an artifact: all but its entries. *)
Definition same_envelope (a b : BackupArtifact) : Prop :=
  ba_version a = ba_version b ∧ ba_k1_salt_b64 a = ba_k1_salt_b64 b ∧ ba_k2_salt_b64 a = ba_k2_salt_b64 b
  ∧ ba_hkdf_salt_b64 a = ba_hkdf_salt_b64 b ∧ ba_k1_wrapped a = ba_k1_wrapped b ∧ ba_k2_wrapped a = ba_k2_wrapped b.
Lemma same_envelope_unwrap a b pw code :
  same_envelope a b → unwrap_file_key a pw code = unwrap_file_key b pw code.
Proof. intros (_ & E1 & E2 & _ & E3 & E4). unfold unwrap_file_key. by rewrite E1, E2, E3, E4. Qed.
Lemma same_envelope_epoch_key a b k : same_envelope a b → derive_epoch_key a k = derive_epoch_key b k.
Proof. intros (_ & _ & _ & E & _). unfold derive_epoch_key. by rewrite E. Qed.

Lemma new_unwraps c pw code a :
  BackupArtifact_new c pw code = Ok a →
  unwrap_file_key a pw code = Ok (ac_k_file c) ∧ pw ≠ ""%string ∧ length code = RECOVERY_CODE_BYTES ∧ ba_entries a = [].
Proof.
  unfold BackupArtifact_new. destruct (bool_decide _ || bool_decide _) eqn:B; [done|].
  apply orb_false_iff in B as [B1 B2]. apply bool_decide_eq_false in B1, B2. apply dec_stable in B2.
  cbv zeta. intros E. apply res_bind_Ok in E as (k1_root & R1 & E). apply res_bind_Ok in E as (k2_root & R2 & E).
  apply res_bind_Ok in E as (w1 & W1 & E). apply res_bind_Ok in E as (w2 & W2 & E). apply Ok_inj in E as <-.
  apply map_err_Ok in W1, W2. split_and!; [|by intros ->|done|done].
  unfold unwrap_file_key. cbn [ba_k1_salt_b64 ba_k2_salt_b64 ba_k1_wrapped ba_k2_wrapped].
  rewrite !base64_decode_encode. cbn [ok_or res_bind]. rewrite R1, R2. cbn [res_bind].
  rewrite (protected_roundtrip _ _ _ _ _ W1), (protected_roundtrip _ _ _ _ _ W2). cbn [map_err res_bind].
  rewrite decide_False by (rewrite !arr_length; lia). by rewrite shares_combine.
Qed.

(** Appending seals each entry so that it can be read with the same key. *)
Definition readable (key : array 32) (sealed : list EncryptedEntry) (entries : list BackupEntryPlain) : Prop :=
  decrypt_all sealed key = Ok entries.
Lemma decrypt_all_app key l1 l2 e1 e2 :
  readable key l1 e1 → readable key l2 e2 → readable key (l1 ++ l2) (e1 ++ e2).
Proof.
  unfold readable. revert e1. induction l1 as [|x l1 IH]; intros e1 H1 H2; cbn [decrypt_all app] in *.
  - by apply Ok_inj in H1 as <-.
  - apply res_bind_Ok in H1 as (p & P & H1). apply res_bind_Ok in H1 as (q & Q & H1).
    apply res_bind_Ok in H1 as (r & R & H1). apply Ok_inj in H1 as <-. rewrite P. cbn [res_bind]. rewrite Q.
    cbn [res_bind]. by rewrite (IH r R H2).
Qed.
Definition dated (e : BackupEntryPlain) : Prop := rfc3339_years (be_created_at e) = true.

Lemma append_with_key_spec nonces entries key a a' :
  Forall dated entries → append_entries_with_epoch_key nonces entries key a = (Ok tt, a') →
  same_envelope a' a ∧ ∃ new, ba_entries a' = ba_entries a ++ new ∧ length new = length entries
    ∧ readable key new entries.
Proof.
  intros D. revert nonces a. induction D as [|e entries De D IH]; intros nonces a E; cbn [append_entries_with_epoch_key] in E.
  - injection E as <-. split; [done|]. exists []. by rewrite app_nil_r.
  - unfold st_bind, st_lift, st_put in E.
    destruct (entry_to_vec e) as [b| | |] eqn:B; try done. cbn [map_err] in E.
    destruct (encrypt_with_ad (nonces 0) b key ENTRY_AAD) as [p| | |] eqn:P; try done. cbn [map_err] in E.
    apply IH in E as (S & new & N & L & R). cbn in N. split; [exact S|].
    exists (mkEncryptedEntry p :: new). split_and!; [by rewrite N, <-app_assoc|cbn; lia|].
    unfold readable in *. cbn [decrypt_all ee_protected]. rewrite (protected_roundtrip _ _ _ _ _ P). cbn [map_err res_bind].
    rewrite (entry_from_to _ _ De B). cbn [map_err res_bind]. by rewrite R.
Qed.

(** How a backup grows: entries are appended by someone with the password and the code, or
    silently with the writer key. *)
Inductive grown (pw : string) (code : bytes) (entry_key : array 32) (a0 : BackupArtifact)
  : list BackupEntryPlain → BackupArtifact → Prop :=
| grown_new : grown pw code entry_key a0 [] a0
| grown_secrets nonces new es a a' :
    grown pw code entry_key a0 es a → append_entries nonces new pw code a = (Ok tt, a') →
    grown pw code entry_key a0 (es ++ new) a'
| grown_writer nonces new es a a' :
    grown pw code entry_key a0 es a → append_entries_with_epoch_key nonces new entry_key a = (Ok tt, a') →
    grown pw code entry_key a0 (es ++ new) a'.

Lemma grown_spec pw code c entry_key a0 es a :
  BackupArtifact_new c pw code = Ok a0 → derive_epoch_key a0 (arr (ac_k_file c)) = Ok entry_key →
  grown pw code entry_key a0 es a → Forall dated es →
  same_envelope a a0 ∧ length (ba_entries a) = length es ∧ readable entry_key (ba_entries a) es.
Proof.
  intros N K G. destruct (new_unwraps _ _ _ _ N) as (U & _ & _ & EN).
  induction G as [|nonces new es a a' G IH A|nonces new es a a' G IH A]; intros D.
  - split_and!; [done|by rewrite EN|by rewrite EN].
  - apply Forall_app in D as [D1 D2]. destruct (IH D1) as (S & L & R).
    assert (append_entries_with_epoch_key nonces new entry_key a = (Ok tt, a')) as A'.
    { destruct new as [|e new]; [exact A|]. unfold append_entries, st_bind, st_get, st_lift in A.
      rewrite (same_envelope_unwrap _ _ _ _ S), U in A.
      rewrite <-(same_envelope_epoch_key _ _ _ S) in K. unfold derive_epoch_key in K.
      destruct (base64_decode (ba_hkdf_salt_b64 a)) as [salt|]; [|done]. cbn [ok_or res_bind] in K, A.
      rewrite K in A. exact A. }
    destruct (append_with_key_spec _ _ _ _ _ D2 A') as (S' & n & E & L' & R').
    split_and!; [unfold same_envelope in *; naive_solver congruence|rewrite E, !length_app; lia|].
    rewrite E. by apply decrypt_all_app.
  - apply Forall_app in D as [D1 D2]. destruct (IH D1) as (S & L & R).
    destruct (append_with_key_spec _ _ _ _ _ D2 A) as (S' & n & E & L' & R').
    split_and!; [unfold same_envelope in *; naive_solver congruence|rewrite E, !length_app; lia|].
    rewrite E. by apply decrypt_all_app.
Qed.

Lemma unlock_spec a pw code k_file entry_key es :
  length code = RECOVERY_CODE_BYTES → pw ≠ ""%string → unwrap_file_key a pw code = Ok k_file →
  derive_epoch_key a (arr k_file) = Ok entry_key → (N.of_nat (length (ba_entries a)) ≤ MAX_ENTRIES)%N →
  readable entry_key (ba_entries a) es →
  unlock a pw code = Ok (mkUnlockedRecovery k_file entry_key code es).
Proof.
  intros L P U K M R. unfold unlock. rewrite !bool_decide_eq_false_2 by naive_solver. cbn [orb]. rewrite U. cbn [res_bind].
  rewrite K. cbn [res_bind]. destruct (N.ltb_spec MAX_ENTRIES (N.of_nat (length (ba_entries a)))); [lia|].
  by rewrite R.
Qed.


(** Nothing keeps a backup from growing beyond what it can be opened with: then neither the
    password and the code nor loading the file give anything. *)
Theorem overfull_backup_is_lost c pw code entry_key a0 es a encoded :
  BackupArtifact_new c pw code = Ok a0 → derive_epoch_key a0 (arr (ac_k_file c)) = Ok entry_key →
  grown pw code entry_key a0 es a → Forall dated es → (MAX_ENTRIES < N.of_nat (length es))%N →
  to_base64 a = Ok encoded → trim encoded = encoded →
  unlock a pw code = Err "Recovery artifact contains too many entries"%string
  ∧ ∃ e, from_base64 encoded = Err e.
Proof.
  intros N K G D M E T. destruct (grown_spec _ _ _ _ _ _ _ N K G D) as (S & L & R).
  destruct (new_unwraps _ _ _ _ N) as (U & P & C & _). split.
  - unfold unlock. rewrite !bool_decide_eq_false_2 by naive_solver. cbn [orb].
    rewrite (same_envelope_unwrap _ _ _ _ S), U. cbn [res_bind]. rewrite (same_envelope_epoch_key _ _ _ S), K.
    cbn [res_bind]. destruct (N.ltb_spec MAX_ENTRIES (N.of_nat (length (ba_entries a)))); [done|lia].
  - unfold from_base64. destruct (_ <? _)%N; [by eexists|]. unfold to_base64 in E.
    destruct (artifact_to_vec a) as [b| | |] eqn:B; try done. apply Ok_inj in E as <-. rewrite T, base64_decode_encode.
    cbn [ok_or res_bind]. rewrite (artifact_from_to _ _ B). cbn [map_err res_bind].
    assert (ba_version a = BACKUP_VERSION) as V.
    { destruct S as (-> & _). unfold BackupArtifact_new in N. destruct (_ || _); [done|]. cbv zeta in N.
      repeat (apply res_bind_Ok in N as (? & _ & N)). by apply Ok_inj in N as <-. }
    rewrite decide_True by done. cbn [res_bind].
    destruct (N.ltb_spec MAX_ENTRIES (N.of_nat (length (ba_entries a)))); [by eexists|lia].
Qed.
End BackupTheorems.

(** ** The restore plan *)

Section ValidateTheorems.
Context {sha : Sha256} {b64 : Base64}.

(** What an entry says, when it says it properly. *)
Definition entry_says (e : BackupEntryPlain) (id : Uuid * N) (key : array 32) : Prop :=
  id = (be_group_id e, be_epoch_number e) ∧ be_epoch_number e ≠ 0%N
  ∧ be_epoch_uuid e = u64_to_uuid (be_epoch_number e) (arr (be_group_id e))
  ∧ base64_decode (be_encryption_key_b64 e) = Some (arr key) ∧ Exists (λ b, b ≠ x00) (arr key).

Lemma usable_key_Some d key : usable_key d = Some key ↔ arr key = d ∧ Exists (λ b, b ≠ x00) d.
Proof.
  unfold usable_key. destruct (forallb _ d) eqn:F.
  - split; [done|]. intros [_ (b & B & N)%Exists_exists]. rewrite forallb_forall in F.
    specialize (F b (proj1 (list_elem_of_In _ _) B)). apply Byte.byte_dec_bl in F. done.
  - rewrite array_of_Some. split; [|naive_solver]. intros A. split; [done|]. apply dec_stable. intros X.
    assert (forallb (λ b, Byte.eqb b x00) d = true); [|congruence]. apply forallb_forall. intros b B.
    apply Byte.byte_dec_lb. apply dec_stable. intros Y. apply X. apply Exists_exists. exists b.
    split; [by apply list_elem_of_In|done].
Qed.
Lemma epoch_id_matches_iff e g :
  epoch_id_matches e g = true ↔ be_epoch_number e ≠ 0%N ∧ be_epoch_uuid e = u64_to_uuid (be_epoch_number e) (arr g).
Proof.
  unfold epoch_id_matches. rewrite andb_true_iff, negb_true_iff, N.eqb_neq, bool_decide_eq_true. done.
Qed.

(** The loop's invariant: the map is what the entries so far say, with one key for each epoch. *)
Record plan_ok (allowed : list Uuid) (es : list BackupEntryPlain) (m : list ((Uuid * N) * ValidatedEpoch)) : Prop := {
  po_nodup : NoDup m.*1;
  po_sound id ve : (id, ve) ∈ m →
    ∃ e, e ∈ es ∧ entry_says e id (ve_key ve) ∧ ve_number ve = be_epoch_number e ∧ ve_uuid ve = be_epoch_uuid e
         ∧ ve_created_at ve = be_created_at e;
  po_complete e : e ∈ es → be_group_id e ∈ allowed
    ∧ ∃ ve, bt_get (be_group_id e, be_epoch_number e) m = Some ve
      ∧ entry_says e (be_group_id e, be_epoch_number e) (ve_key ve);
}.

Lemma validate_one_ok allowed es e m m' :
  plan_ok allowed es m → validate_one allowed e m = Ok m' → plan_ok allowed (es ++ [e]) m'.
Proof.
  intros [ND S C] E. unfold validate_one in E. destruct (epoch_id_matches e (be_group_id e)) eqn:M; [|done].
  apply epoch_id_matches_iff in M as [M1 M2]. cbn [negb] in E.
  destruct (base64_decode (be_encryption_key_b64 e)) as [d|] eqn:D; [|done]. cbn [ok_or res_bind] in E.
  destruct (usable_key d) as [key|] eqn:U; [|done]. cbn [ok_or res_bind] in E. apply usable_key_Some in U as [<- X].
  case_bool_decide as A; [|done]. cbn [negb] in E.
  assert (entry_says e (be_group_id e, be_epoch_number e) key) as ES by done.
  destruct (bt_get (be_group_id e, be_epoch_number e) m) as [ex|] eqn:G.
  - case_decide as K; [done|]. subst key. apply Ok_inj in E as <-. split; [done| |].
    + intros id ve I. destruct (S id ve I) as (e0 & ? & ?). exists e0. set_solver.
    + intros e0 I. apply elem_of_app in I as [I|I]; [by apply C|]. apply list_elem_of_singleton in I as ->. eauto.
  - apply Ok_inj in E as <-. split.
    + by apply bt_insert_nodup.
    + intros id ve I. apply bt_insert_elem in I as [[= -> ->]|I]; [| |done].
      * exists e. split_and!; try done. set_solver.
      * destruct (S id ve I) as (e0 & ? & ?). exists e0. set_solver.
    + intros e0 I. apply elem_of_app in I as [I|I].
      * destruct (C e0 I) as (A0 & ve & G0 & ES0). split; [done|]. exists ve. split; [|done].
        rewrite bt_get_insert. case_decide as Q; [rewrite Q in G0; congruence|done].
      * apply list_elem_of_singleton in I as ->. split; [done|]. eexists. rewrite bt_get_insert, decide_True by done.
        done.
Qed.
Lemma validate_loop_ok allowed es0 es m m' :
  plan_ok allowed es0 m → validate_loop allowed es m = Ok m' → plan_ok allowed (es0 ++ es) m'.
Proof.
  revert es0 m. induction es as [|e es IH]; intros es0 m P E; cbn [validate_loop] in E.
  - apply Ok_inj in E as <-. by rewrite app_nil_r.
  - apply res_bind_Ok in E as (m1 & E1 & E). rewrite cons_middle, app_assoc.
    eapply IH; [|exact E]. by eapply validate_one_ok.
Qed.

Lemma take_groups_spec scopes m g :
  NoDup (rs_group_id <$> scopes) → g ∈ take_groups scopes m ↔
  vg_scope g ∈ scopes ∧ vg_epochs g ≠ []
  ∧ vg_epochs g = snd <$> filter (λ p, p.1.1 = rs_group_id (vg_scope g)) m.
Proof.
  revert m. induction scopes as [|s scopes IH]; intros m ND; cbn [take_groups]; [set_solver|].
  cbn [fmap list_fmap] in ND. apply list.NoDup_cons in ND as [N1 N2].
  assert (∀ g, vg_scope g ∈ scopes →
    filter (λ p : Uuid * N * ValidatedEpoch, p.1.1 = rs_group_id (vg_scope g))
      (filter (λ p, p.1.1 ≠ rs_group_id s) m) = filter (λ p, p.1.1 = rs_group_id (vg_scope g)) m) as F.
  { intros g0 I. rewrite list_filter_filter. apply list_filter_iff. intros p. split; [naive_solver|].
    intros Q. split; [done|]. rewrite Q. intros R. apply N1. rewrite <-R. by apply list_elem_of_fmap_2. }
  destruct (snd <$> filter (λ p, p.1.1 = rs_group_id s) m) as [|x l] eqn:X.
  - rewrite IH by done. split.
    + intros (I & N & E). rewrite F in E by done. set_solver.
    + intros (I & N & E). apply list.elem_of_cons in I as [I|I]; [rewrite I in E; congruence|]. by rewrite F.
  - rewrite list.elem_of_cons, IH by done. split.
    + intros [->|(I & N & E)]; [cbn; by split_and!; [left| |]|]. rewrite F in E by done. set_solver.
    + intros (I & N & E). apply list.elem_of_cons in I as [I|I].
      * left. destruct g as [gs ge]. cbn in *. subst gs. by rewrite E, X.
      * right. by rewrite F.
Qed.

(** C20: What a restore plan is.  It is made from nothing but the entries of the unlocked backup; it
    is refused as a whole when any entry has a wrong epoch identifier, an unusable key, a
    foreign group, or another key for the same epoch; and it has, for every selected group, all
    of its epochs, each once. *)
Theorem plan_is_exact u scopes only v :
  validate_for_groups u scopes only = Ok v →
  (∀ e, e ∈ ur_entries u → be_group_id e ∈ rs_group_id <$> scopes
     ∧ ∃ ve, (be_group_id e, ve) ∈ vr_all_epochs v ∧ ve_number ve = be_epoch_number e
       ∧ entry_says e (be_group_id e, be_epoch_number e) (ve_key ve))
  ∧ (∀ g ve, (g, ve) ∈ vr_all_epochs v → ∃ e, e ∈ ur_entries u ∧ entry_says e (g, ve_number ve) (ve_key ve))
  ∧ (∀ g ve ve', (g, ve) ∈ vr_all_epochs v → (g, ve') ∈ vr_all_epochs v → ve_number ve = ve_number ve' → ve = ve')
  ∧ vr_groups v ≠ []
  ∧ (∀ g, g ∈ vr_groups v ↔ vg_scope g ∈ scopes ∧ selects only (vg_scope g) = true ∧ vg_epochs g ≠ []
       ∧ vg_epochs g = snd <$> filter (λ p, p.1 = rs_group_id (vg_scope g)) (vr_all_epochs v)).
Proof.
  unfold validate_for_groups. cbv zeta. case_bool_decide as ND; [|done]. cbn [negb].
  destruct (negb _); [done|]. intros E. apply res_bind_Ok in E as (m & L & E).
  assert (plan_ok (rs_group_id <$> scopes) ([] ++ ur_entries u) m) as [NDm S C].
  { eapply validate_loop_ok; [|exact L]. split; [constructor|set_solver|set_solver]. }
  cbn [app] in S, C.
  assert (∃ gs, take_groups (filter (λ s, selects only s = true) scopes) m = gs ∧ gs ≠ []
    ∧ v = mkValidatedRecovery gs ((λ p, (p.1.1, p.2)) <$> m)) as (gs & T & NE & ->).
  { destruct (take_groups _ m) as [|g gs]; [done|]. apply Ok_inj in E as <-. by exists (g :: gs). }
  clear E L. cbn [vr_groups vr_all_epochs].
  assert (∀ g ve, (g, ve) ∈ ((λ p : Uuid * N * ValidatedEpoch, (p.1.1, p.2)) <$> m) ↔ ((g, ve_number ve), ve) ∈ m) as IN.
  { intros g ve. rewrite list_elem_of_fmap. split.
    - intros ([[g0 n] ve0] & [= -> ->] & I). destruct (S _ _ I) as (e & _ & (Q & _) & -> & _). congruence.
    - intros I. by exists ((g, ve_number ve), ve). }
  split_and!; [| | |done|].
  - intros e I. destruct (C e I) as (A & ve & G & ES). split; [done|]. exists ve.
    apply bt_get_elem in G. destruct (S _ _ G) as (e0 & _ & (Q & _) & N & _).
    injection Q as Q1 Q2. assert (ve_number ve = be_epoch_number e) as N' by congruence.
    split_and!; [|done|done]. apply IN. by rewrite N'.
  - intros g ve I. apply IN in I. destruct (S _ _ I) as (e & ? & ? & _). eauto.
  - intros g ve ve' I I' N. apply IN in I, I'. rewrite <-N in I'.
    apply (bt_get_nodup _ _ _ NDm) in I, I'. congruence.
  - intros g. rewrite <-T, take_groups_spec.
    + rewrite list_elem_of_filter.
      assert (snd <$> filter (λ p : Uuid * N * ValidatedEpoch, p.1.1 = rs_group_id (vg_scope g)) m
        = snd <$> filter (λ p, p.1 = rs_group_id (vg_scope g)) ((λ p, (p.1.1, p.2)) <$> m)) as ->; [|naive_solver].
      clear. induction m as [|p m IH]; [done|]. rewrite fmap_cons, !filter_cons. cbn [fst snd].
      case_decide; rewrite ?fmap_cons; cbn [snd]; congruence.
    + eapply sublist_NoDup; [exact ND|]. apply fmap_sublist, sublist_filter.
Qed.
End ValidateTheorems.

(** ** Recovery codes *)

Section CodeTheorems.
Context {hex : Hex} {hu : HexUpper} {hul : HexUpperLaws} {rt : RecoveryText}.

Lemma digit_codes a : upper_digit a = true → (48 ≤ code a ≤ 57)%N ∨ (65 ≤ code a ≤ 70)%N.
Proof.
  unfold upper_digit, is_digit, code. rewrite orb_true_iff, !andb_true_iff, ?N.leb_le, ?Nat.leb_le. lia.
Qed.
Lemma strip_digit a s : upper_digit a = true → strip_code (String a s) = String a (strip_code s).
Proof.
  intros D. apply digit_codes in D.
  assert (ws1 a = false) as W1 by (unfold ws1; destruct D; lia).
  assert (∀ b, ws2 a b = false) as W2 by (intros b; unfold ws2; destruct D; lia).
  assert (∀ b c, ws3 a b c = false) as W3 by (intros b c; unfold ws3; destruct D; lia).
  assert (a ≠ "-"%char) as ND by (intros ->; vm_compute in D; naive_solver).
  destruct s as [|b [|c s]]; cbn [strip_code]; by rewrite W1, ?W2, ?W3, bool_decide_eq_false_2.
Qed.
Lemma strip_dash s : strip_code (String "-"%char s) = strip_code s.
Proof. destruct s as [|b [|c s]]; reflexivity. Qed.

Lemma strip_grouped idx s : string_all upper_digit s = true → strip_code (group_digits idx s) = s.
Proof.
  revert idx. induction s as [|a s IH]; intros idx D; [done|]. cbn [string_all] in D. apply andb_true_iff in D as [D1 D2].
  cbn [group_digits]. destruct ((0 <? idx) && (idx mod 8 =? 0)).
  - change ("-" +:+ String a "" +:+ group_digits (S idx) s) with (String "-" (String a (group_digits (S idx) s))).
    by rewrite strip_dash, strip_digit, IH.
  - change ("" +:+ String a "" +:+ group_digits (S idx) s) with (String a (group_digits (S idx) s)).
    by rewrite strip_digit, IH.
Qed.

(** A code is read back from the form in which it is shown, and from any other form that
    differs in nothing but dashes and white space. *)
Theorem recovery_code_roundtrip (c : bytes) (typed : string) :
  length c = RECOVERY_CODE_BYTES → strip_code typed = strip_code (format_recovery_code c) →
  parse_recovery_code typed = Ok c.
Proof.
  intros L T. unfold parse_recovery_code. cbv zeta. rewrite T. unfold format_recovery_code.
  rewrite strip_grouped by apply hex_upper_digits. rewrite hex_upper_length, L.
  rewrite decide_False by (intros X; apply X; reflexivity). rewrite hex_decode_upper. cbn [ok_or res_bind].
  by rewrite decide_False by naive_solver.
Qed.
End CodeTheorems.

(** ** The kit of a local vault *)

Section KitTheorems.
Context {sha : Sha256} {ae : Aead} {al : AeadLaws} {b64 : Base64} {bl : Base64Laws} {rt : RecoveryText}
  {ar : Argon2} {hk : Hkdf} {bj : BackupJson} {bjl : BackupJsonLaws} {kj : KitJson} {kjl : KitJsonLaws}.

Lemma seal_open_all nonces entries key sealed index :
  Forall dated entries → seal_all nonces entries key = Ok sealed →
  open_all index sealed key = Ok entries ∧ length sealed = length entries.
Proof.
  intros D. revert nonces sealed index. induction D as [|e entries De D IH]; intros nonces sealed index E;
    cbn [seal_all] in E.
  - by apply Ok_inj in E as <-.
  - apply res_bind_Ok in E as (b & B & E). apply map_err_Ok in B. apply res_bind_Ok in E as (p & P & E).
    apply map_err_Ok in P. apply res_bind_Ok in E as (rest & R & E). apply Ok_inj in E as <-.
    destruct (IH _ _ (S index) R) as [O L]. split; [|cbn; lia]. cbn [open_all ee_protected].
    rewrite (protected_roundtrip _ _ _ _ _ P). cbn [map_err res_bind]. rewrite (entry_from_to _ _ De B).
    cbn [map_err res_bind]. by rewrite O.
Qed.

(** A kit opens with the code it was made with, and gives the keys that were put in. *)
Theorem kit_opens salt nonces recovery_code entries kit :
  Forall dated entries → LocalRecoveryKit_create salt nonces recovery_code entries = Ok kit →
  ∃ contents, validate_entries entries = Ok contents ∧ LocalRecoveryKit_open kit recovery_code = Ok contents.
Proof.
  intros D E. unfold LocalRecoveryKit_create in E. case_decide as C; [done|]. apply res_bind_Ok in E as (contents & V & E).
  apply res_bind_Ok in E as (key & K & E). apply res_bind_Ok in E as (sealed & S & E). apply Ok_inj in E as <-.
  exists contents. split; [done|]. destruct (seal_open_all _ _ _ _ 0 D S) as [O L].
  unfold LocalRecoveryKit_open. rewrite decide_False by (intros X; by apply X). unfold check_header.
  cbn [lk_kind lk_version lk_entries lk_salt_b64]. rewrite !decide_False by naive_solver.
  unfold validate_entries in V. apply res_bind_Ok in V as (g & G & V').
  destruct (N.ltb_spec MAX_KIT_ENTRIES (N.of_nat (length entries))) as [?|M]; [done|].
  destruct (N.ltb_spec MAX_KIT_ENTRIES (N.of_nat (length sealed))) as [?|_]; [lia|]. cbn [res_bind].
  rewrite base64_decode_encode. cbn [ok_or res_bind]. rewrite K. cbn [res_bind]. rewrite O. cbn [res_bind].
  unfold validate_entries. rewrite G. cbn [res_bind].
  destruct (N.ltb_spec MAX_KIT_ENTRIES (N.of_nat (length entries))) as [?|_]; [lia|]. done.
Qed.

(** The epochs of a validated kit come in the order of their numbers. *)
Definition ordered (m : list (N * LocalKitEpoch)) : Prop := StronglySorted N.lt m.*1.
Definition epoch_ok (g : Uuid) (p : N * LocalKitEpoch) : Prop :=
  p.1 = le_number p.2 ∧ le_number p.2 ≠ 0%N ∧ Exists (λ b, b ≠ x00) (arr (le_key p.2)).

Lemma bt_insert_ordered k v m : bt_get k m = None → ordered m → ordered (bt_insert N.ltb k v m).
Proof.
  unfold ordered. induction m as [|[k' v'] m IH]; intros G S; cbn in *; [by repeat constructor|].
  case_decide as N; [done|]. inversion S as [|? ? S1 S2]; subst. destruct (N.ltb_spec k k') as [L|L]; cbn.
  - constructor; [done|]. constructor; [done|]. eapply list.Forall_impl; [exact S2|]. intros x X. cbn in X. lia.
  - constructor; [by apply IH|]. apply list.Forall_forall. intros x X.
    apply list_elem_of_fmap in X as ([k1 v1] & -> & X). apply bt_insert_elem in X as [[= -> ->]|X]; [cbn; lia| |done].
    rewrite list.Forall_forall in S2. apply S2. apply list_elem_of_fmap. by exists (k1, v1).
Qed.
Lemma bt_insert_last k (v : LocalKitEpoch) m : Forall (λ k', k' < k)%N m.*1 → bt_get k m = None ∧ bt_insert N.ltb k v m = m ++ [(k, v)].
Proof.
  induction m as [|[k' v'] m IH]; intros F; [done|]. cbn in F. apply list.Forall_cons in F as [F1 F2]. cbn.
  rewrite !decide_False by lia. destruct (N.ltb_spec k k'); [lia|]. destruct (IH F2) as [-> ->]. done.
Qed.

Lemma validate_kit_one_ok g e m m' :
  ordered m → Forall (epoch_ok g) m → validate_kit_one g e m = Ok m' →
  ordered m' ∧ Forall (epoch_ok g) m' ∧ (length m' ≤ S (length m))%nat ∧ (m' = [] → False).
Proof.
  intros O F E. unfold validate_kit_one in E. case_decide as G; [done|].
  destruct (epoch_id_matches e g) eqn:M; [|done]. cbn [negb] in E. apply epoch_id_matches_iff in M as [M1 _].
  destruct (base64_decode _) as [d|]; [|done]. cbn [ok_or res_bind] in E.
  destruct (usable_key d) as [key|] eqn:U; [|done]. cbn [ok_or res_bind] in E. apply usable_key_Some in U as [<- X].
  destruct (bt_get (be_epoch_number e) m) as [ex|] eqn:B.
  - case_decide; [done|]. apply Ok_inj in E as <-. split_and!; [done|done|lia|]. intros ->. done.
  - apply Ok_inj in E as <-. split_and!.
    + by apply bt_insert_ordered.
    + apply list.Forall_forall. intros p P. apply bt_insert_elem in P as [->|P]; [by split_and!| |done].
      rewrite list.Forall_forall in F. by apply F.
    + clear. induction m as [|[k v] m IH]; cbn; [lia|]. case_decide; cbn; [lia|]. destruct (_ <? _)%N; cbn; lia.
    + intros Z. assert ((be_epoch_number e, mkLocalKitEpoch (be_epoch_number e) (be_created_at e) (be_is_active e) key) ∈ []) as Q.
      { rewrite <-Z. apply bt_insert_elem; [done|by left]. } by apply not_elem_of_nil in Q.
Qed.
Lemma validate_kit_loop_ok g es m m' :
  ordered m → Forall (epoch_ok g) m → validate_kit_loop g es m = Ok m' →
  ordered m' ∧ Forall (epoch_ok g) m' ∧ (length m' ≤ length m + length es)%nat ∧ (es ≠ [] → m' ≠ []).
Proof.
  revert m. induction es as [|e es IH]; intros m O F E; cbn [validate_kit_loop] in E.
  - apply Ok_inj in E as <-. split_and!; [done|done|cbn; lia|done].
  - apply res_bind_Ok in E as (m1 & E1 & E). destruct (validate_kit_one_ok _ _ _ _ O F E1) as (O1 & F1 & L1 & N1).
    destruct (IH m1 O1 F1 E) as (O2 & F2 & L2 & N2). split_and!; [done|done|cbn; lia|]. intros _ ->.
    destruct es as [|e' es]; [cbn in E; apply Ok_inj in E as ->; by apply N1|by apply N2].
Qed.

Lemma replay_kit g m1 m2 :
  ordered (m1 ++ m2) → Forall (epoch_ok g) m2 →
  validate_kit_loop g (to_backup_entries (mkLocalKitContents g m2.*2)) m1 = Ok (m1 ++ m2).
Proof.
  revert m1. induction m2 as [|[k e] m2 IH]; intros m1 O F; [by rewrite app_nil_r|].
  apply list.Forall_cons in F as [(K & N & X) F]. cbn [fst snd] in K, N, X. subst k.
  cbn [fmap list_fmap snd to_backup_entries lc_epochs lc_group_id validate_kit_loop].
  unfold validate_kit_one. cbn [be_group_id be_epoch_number be_epoch_uuid be_encryption_key_b64 be_created_at be_is_active].
  rewrite decide_False by naive_solver.
  assert (∀ u, epoch_id_matches (mkBackupEntryPlain g (le_number e) (u64_to_uuid (le_number e) (arr g))
    (le_created_at e) (le_is_active e) u) g = true) as -> by (intros u; by apply epoch_id_matches_iff).
  cbn [negb]. rewrite base64_decode_encode. cbn [ok_or res_bind].
  assert (usable_key (arr (le_key e)) = Some (le_key e)) as -> by by apply usable_key_Some. cbn [ok_or res_bind].
  assert (Forall (λ k', k' < le_number e)%N m1.*1) as L.
  { unfold ordered in O. rewrite fmap_app in O. apply StronglySorted_app in O as (A & _ & _).
    apply list.Forall_forall. intros k I. apply (A k (le_number e) I). cbn. left. }
  destruct (bt_insert_last (le_number e) (mkLocalKitEpoch (le_number e) (le_created_at e) (le_is_active e) (le_key e)) m1 L)
    as [-> ->].
  cbn [res_bind]. destruct e as [n c a k]. cbn [le_number le_created_at le_is_active le_key] in *.
  rewrite (cons_middle _ m1 m2), app_assoc. refine (IH _ _ F). by rewrite <-app_assoc.
Qed.

(** The entries that a kit's contents are turned into for an account's backup say the same
    again: nothing is lost or changed when a vault is upgraded. *)
Theorem kit_upgrade_keeps entries contents :
  validate_entries entries = Ok contents → validate_entries (to_backup_entries contents) = Ok contents.
Proof.
  intros E. unfold validate_entries in E. apply res_bind_Ok in E as (g & G & E).
  destruct (N.ltb_spec MAX_KIT_ENTRIES (N.of_nat (length entries))) as [?|M]; [done|].
  apply res_bind_Ok in E as (m & L & E). apply Ok_inj in E as <-.
  destruct (validate_kit_loop_ok g entries [] m) as (O & F & LE & NE); [constructor|constructor|done|].
  assert (m ≠ []) as NM by (apply NE; intros ->; done). cbn in LE.
  unfold validate_entries. destruct m as [|[k e] m]; [done|].
  cbn [fmap list_fmap to_backup_entries lc_epochs head]. cbn [ok_or fmap option_fmap option_map be_group_id lc_group_id res_bind].
  pose proof (replay_kit g [] ((k, e) :: m) O F) as R. cbn [app] in R.
  change (mkBackupEntryPlain _ _ _ _ _ _ :: _) with (to_backup_entries (mkLocalKitContents g ((k, e) :: m).*2)).
  destruct (N.ltb_spec MAX_KIT_ENTRIES (N.of_nat (length (to_backup_entries (mkLocalKitContents g ((k, e) :: m).*2)))))
    as [B|_].
  { unfold to_backup_entries in B. rewrite !length_fmap in B. cbn [lc_epochs] in B. rewrite length_fmap in B. lia. }
  rewrite R. done.
Qed.
End KitTheorems.

(** ** Concrete formats *)

(** What [ser] wrote can be read off the front. *)
Class De (A : Type) := de : bytes → option (A * bytes).
Class DeLaws (A : Type) `{Ser A, De A} : Prop := de_ser : ∀ (a : A) r, de (ser a ++ r) = Some (a, r).

#[export] Instance de_array n : De (array n) := λ b, (λ a, (a, drop n b)) <$> array_of n (take n b).
#[export] Instance de_array_laws n : DeLaws (array n).
Proof.
  intros a r. unfold de, de_array, ser, ser_array.
  rewrite take_app_length', drop_app_length' by (by rewrite arr_length). by rewrite array_of_arr.
Qed.
#[export] Instance de_byte : De byte := λ b, match b with x :: b => Some (x, b) | [] => None end.
#[export] Instance de_byte_laws : DeLaws byte.
Proof. done. Qed.
#[export] Instance de_N : De N := λ b,
  match b with
  | x00 :: b => Some (0%N, b)
  | x01 :: b => '(p, b) ← de_pos b; Some (Npos p, b)
  | _ => None
  end.
#[export] Instance de_N_laws : DeLaws N.
Proof. intros [|p] r; [done|]. unfold de, de_N, ser, ser_N. cbn [app]. by rewrite de_ser_pos. Qed.
#[export] Instance de_prod {A B} `{De A, De B} : De (A * B) := λ b,
  '(x, b) ← de b; '(y, b) ← de b; Some ((x, y), b).
#[export] Instance de_prod_laws {A B} `{DeLaws A, DeLaws B} : DeLaws (A * B).
Proof.
  intros [x y] r. unfold de, de_prod, ser, ser_prod. cbn [fst snd]. rewrite <-app_assoc, de_ser. cbn [mbind option_bind].
  by rewrite de_ser.
Qed.
Fixpoint de_list_go {A} `{De A} (fuel : nat) (b : bytes) : option (list A * bytes) :=
  match fuel, b with
  | S fuel, x00 :: b => Some ([], b)
  | S fuel, x01 :: b => '(x, b) ← de b; '(l, b) ← de_list_go fuel b; Some (x :: l, b)
  | _, _ => None
  end.
#[export] Instance de_list {A} `{De A} : De (list A) := λ b, de_list_go (length b) b.
#[export] Instance de_list_laws {A} `{DeLaws A} : DeLaws (list A).
Proof.
  assert (∀ fuel (l : list A) r, length l < fuel → de_list_go fuel (ser l ++ r) = Some (l, r)) as G.
  { induction fuel as [|fuel IH]; intros l r L; [lia|]. destruct l as [|x l]; [done|].
    change (ser (x :: l)) with (x01 :: ser x ++ ser l). cbn [app de_list_go]. rewrite <-app_assoc, de_ser.
    cbn [mbind option_bind]. rewrite IH by (cbn in L; lia). done. }
  assert (∀ l : list A, length l < length (ser l)) as LE.
  { induction l as [|x l IH]; [cbn; lia|]. change (ser (x :: l)) with (x01 :: ser x ++ ser l). cbn. rewrite length_app. lia. }
  intros l r. apply G. rewrite length_app. pose proof (LE l). lia.
Qed.
#[export] Instance de_string : De string := λ b, '(x, b) ← de (A := bytes) b; Some (String.string_of_list_byte x, b).
#[export] Instance de_string_laws : DeLaws string.
Proof.
  intros s r. unfold de, de_string, ser, ser_string. rewrite de_ser. cbn [mbind option_bind].
  unfold bytes_of. by rewrite String.string_of_list_byte_of_string.
Qed.

(** The whole input must be read. *)
Definition de_all {A} `{De A} (b : bytes) : res string A :=
  match de b with Some (a, []) => Ok a | _ => Err "expected value"%string end.
Lemma de_all_ser {A} `{DeLaws A} (a : A) : de_all (ser a) = Ok a.
Proof. unfold de_all. by rewrite <-(app_nil_r (ser a)), de_ser. Qed.

Definition z_pair (z : Z) : N * N := (Z.to_N z, Z.to_N (- z)).
Definition pair_z (p : N * N) : Z := (Z.of_N p.1 - Z.of_N p.2)%Z.
Lemma pair_z_pair z : pair_z (z_pair z) = z.
Proof. unfold pair_z, z_pair. cbn. lia. Qed.
Definition b_num (b : bool) : N := if b then 1%N else 0%N.

Definition protected_code (p : ProtectedData) := (pd_magic p, pd_version p, pd_nonce p, pd_ciphertext p).
Definition protected_of (c : string * N * string * string) : ProtectedData :=
  let '(a, b, c, d) := c in mkProtectedData a b c d.
Definition entry_code (e : BackupEntryPlain) :=
  (be_group_id e, be_epoch_number e, be_epoch_uuid e, z_pair (be_created_at e), b_num (be_is_active e),
   be_encryption_key_b64 e).
Definition entry_of (c : Uuid * N * Uuid * (N * N) * N * string) : BackupEntryPlain :=
  let '(g, n, u, t, a, k) := c in mkBackupEntryPlain g n u (pair_z t) (bool_decide (a = 1%N)) k.
Definition artifact_code (a : BackupArtifact) :=
  (ba_version a, ba_k1_salt_b64 a, ba_k2_salt_b64 a, ba_hkdf_salt_b64 a, protected_code (ba_k1_wrapped a),
   protected_code (ba_k2_wrapped a), (protected_code ∘ ee_protected) <$> ba_entries a).
Definition artifact_of (c : N * string * string * string * (string * N * string * string)
    * (string * N * string * string) * list (string * N * string * string)) : BackupArtifact :=
  let '(v, s1, s2, s3, w1, w2, l) := c in
  mkBackupArtifact v s1 s2 s3 (protected_of w1) (protected_of w2) ((mkEncryptedEntry ∘ protected_of) <$> l).
Lemma artifact_of_code a : artifact_of (artifact_code a) = a.
Proof.
  destruct a as [v s1 s2 s3 [] [] l]. unfold artifact_of, artifact_code. cbn. f_equal.
  induction l as [|[[]] l IH]; [done|]. cbn. by f_equal.
Qed.

Definition map_ok {A B} (f : A → B) (r : res string A) : res string B := let? a := r in Ok (f a).
Definition toy_backup_json : BackupJson := {|
  entry_to_vec e := Ok (ser (entry_code e));
  entry_from_slice b := map_ok entry_of (de_all b);
  sealed_to_vec e := Ok (ser (protected_code (ee_protected e)));
  artifact_to_vec a := Ok (ser (artifact_code a));
  artifact_from_slice b := map_ok artifact_of (de_all b);
|}.
Lemma toy_backup_json_laws : @BackupJsonLaws toy_backup_json.
Proof.
  split.
  - intros e. by eexists.
  - intros e b _ E. apply Ok_inj in E as <-. cbn [entry_from_slice toy_backup_json]. rewrite de_all_ser.
    cbn [map_ok res_bind]. destruct e as [g n u t a k]. unfold entry_of, entry_code. cbn -[pair_z z_pair].
    rewrite pair_z_pair. by destruct a.
  - intros [[]] [[]] b E1 E2. apply Ok_inj in E1 as <-. apply Ok_inj, ser_inj in E2. unfold protected_code in E2. cbn in E2.
    by simplify_eq.
  - intros a. by eexists.
  - intros a b E. apply Ok_inj in E as <-. cbn [artifact_from_slice toy_backup_json]. rewrite de_all_ser.
    cbn [map_ok res_bind]. by rewrite artifact_of_code.
Qed.
Definition toy_argon2 : Argon2 := λ secret salt, Ok (@sha256 toy_sha256 (secret ++ salt)).
Definition toy_recovery_text : RecoveryText := {|
  base64_error _ := "Invalid byte"%string; hex_error _ := "Invalid character"%string; aead_error := "aead::Error"%string |}.

Definition kit_code (k : LocalRecoveryKit) :=
  (lk_kind k, lk_version k, lk_salt_b64 k, (protected_code ∘ ee_protected) <$> lk_entries k).
Definition kit_of (c : string * N * string * list (string * N * string * string)) : LocalRecoveryKit :=
  let '(k, v, s, l) := c in mkLocalRecoveryKit k v s ((mkEncryptedEntry ∘ protected_of) <$> l).
Definition toy_kit_json : KitJson := {|
  kit_to_vec k := Ok (ser (kit_code k));
  kit_from_slice b := map_ok kit_of (de_all b);
|}.

(** Hexadecimal digits of both cases. *)
Definition toy_hex_both : Hex := {| hex_encode := hex_enc; hex_decode s := hex_dec (to_lower s) |}.
Definition toy_hex_upper : @HexUpper toy_hex_both := λ b, to_upper (hex_enc b).
Lemma hex_upper_byte x :
  let a := hex_digit (Byte.to_N x / 16) in let b := hex_digit (Byte.to_N x mod 16) in
  (upper_digit (ascii_upper a) && upper_digit (ascii_upper b) = true)
  ∧ ascii_lower (ascii_upper a) = a ∧ ascii_lower (ascii_upper b) = b.
Proof. by destruct x. Qed.
Lemma hex_upper_lower b : to_lower (to_upper (hex_enc b)) = hex_enc b ∧ string_all upper_digit (to_upper (hex_enc b)) = true
  ∧ String.length (to_upper (hex_enc b)) = 2 * length b.
Proof.
  induction b as [|x b (I1 & I2 & I3)]; [done|]. destruct (hex_upper_byte x) as (U & L1 & L2). cbn zeta in U, L1, L2.
  apply andb_true_iff in U as [U1 U2]. cbn [hex_enc to_upper to_lower string_all String.length length].
  rewrite L1, L2, I1, I2, I3, U1, U2. split_and!; [done|done|lia].
Qed.
Lemma toy_hex_upper_laws : @HexUpperLaws toy_hex_both toy_hex_upper.
Proof.
  split; intros b; destruct (hex_upper_lower b) as (L & D & N); [exact N|exact D|].
  unfold hex_decode, hex_encode_upper, toy_hex_upper. cbn [toy_hex_both]. rewrite L. apply hex_dec_enc.
Qed.

(** ** An account *)

Lemma got_Ok {E A} (r : res E A) (d : A) : is_ok r = true → r = Ok (match r with Ok a => a | _ => d end).
Proof. by destruct r. Qed.

Section RecoveryExamples.
#[local] Existing Instances toy_sha256 toy_hex toy_aead toy_aead_laws toy_base64 toy_base64_laws toy_recovery_text
  toy_argon2 toy_hkdf toy_backup_json toy_backup_json_laws toy_kit_json.

Definition vault : Uuid := num_array 16 9.
Definition epoch_entry (n k : N) : BackupEntryPlain :=
  mkBackupEntryPlain vault n (u64_to_uuid n (arr vault)) 0 true (base64_encode (arr (num_array 32 k))).
Definition pass : string := "correct horse".
Definition saved_code : bytes := arr (num_array 32 77).
Definition coins : ArtifactCoins :=
  mkArtifactCoins (num_array 32 1000) (num_array 32 2000) (num_array 16 3) (num_array 16 4) (num_array 16 5)
    (num_array 12 6) (num_array 12 7).
Definition some_nonces (n : nat) : array 12 := num_array 12 (N.of_nat n + 10).
Definition no_protected : ProtectedData := mkProtectedData "" 0 "" "".
Definition no_artifact : BackupArtifact := mkBackupArtifact 0 "" "" "" no_protected no_protected [].
Definition new_backup : BackupArtifact :=
  match BackupArtifact_new coins pass saved_code with Ok a => a | _ => no_artifact end.
Lemma new_backup_ok : BackupArtifact_new coins pass saved_code = Ok new_backup.
Proof. apply got_Ok. vm_compute. reflexivity. Qed.
Definition backup_key : array 32 :=
  match derive_epoch_key new_backup (arr (ac_k_file coins)) with Ok k => k | _ => zeros 32 end.
Lemma backup_key_ok : derive_epoch_key new_backup (arr (ac_k_file coins)) = Ok backup_key.
Proof. apply got_Ok. vm_compute. reflexivity. Qed.
Definition two_epochs : BackupArtifact :=
  (append_entries some_nonces [epoch_entry 1 11; epoch_entry 2 12] pass saved_code new_backup).2.
Definition full_backup : BackupArtifact :=
  (append_entries_with_epoch_key some_nonces [epoch_entry 3 13] backup_key two_epochs).2.
Lemma run_ok {S E} (r : res E unit * S) : is_ok r.1 = true → r = (Ok tt, r.2).
Proof. by destruct r as [[[]| | |] s]. Qed.
Lemma full_grown :
  grown pass saved_code backup_key new_backup (([] ++ [epoch_entry 1 11; epoch_entry 2 12]) ++ [epoch_entry 3 13]) full_backup.
Proof.
  apply (grown_writer _ _ _ _ some_nonces [epoch_entry 3 13] _ two_epochs full_backup);
    [apply (grown_secrets _ _ _ _ some_nonces [epoch_entry 1 11; epoch_entry 2 12] _ new_backup two_epochs);
       [apply grown_new|]|].
  - refine (run_ok (append_entries some_nonces [epoch_entry 1 11; epoch_entry 2 12] pass saved_code new_backup) _).
    vm_compute. reflexivity.
  - refine (run_ok (append_entries_with_epoch_key some_nonces [epoch_entry 3 13] backup_key two_epochs) _).
    vm_compute. reflexivity.
Qed.


Definition no_recovery : UnlockedRecovery := mkUnlockedRecovery (zeros 32) (zeros 32) [] [].
Definition opened (a : BackupArtifact) : UnlockedRecovery :=
  match unlock a pass saved_code with Ok u => u | _ => no_recovery end.
Definition vault_scope : RecoveryGroupScope := mkRecoveryGroupScope vault "Vault" RoleAdmin None.
Definition plan : ValidatedRecovery :=
  match validate_for_groups (opened full_backup) [vault_scope] None with
  | Ok v => v
  | _ => mkValidatedRecovery [] []
  end.
Lemma plan_is_exact_witness : vr_groups plan ≠ [].
Proof.
  destruct (plan_is_exact (opened full_backup) [vault_scope] None plan) as (_ & _ & _ & NE & _).
  - apply got_Ok. vm_compute. reflexivity.
  - exact NE.
Defined.
Example plan_numbers : ve_number ∘ snd <$> vr_all_epochs plan = [1; 2; 3]%N.
Proof. vm_compute. reflexivity. Qed.

(** ** A local vault *)

Definition vault_entries : list BackupEntryPlain := [epoch_entry 2 12; epoch_entry 1 11].
Definition no_kit : LocalRecoveryKit := mkLocalRecoveryKit "" 0 "" [].
Definition vault_kit : LocalRecoveryKit :=
  match LocalRecoveryKit_create (num_array 16 3) some_nonces saved_code vault_entries with Ok k => k | _ => no_kit end.
Lemma kit_opens_witness :
  ∃ contents, validate_entries vault_entries = Ok contents ∧ LocalRecoveryKit_open vault_kit saved_code = Ok contents.
Proof.
  apply (kit_opens (num_array 16 3) some_nonces saved_code vault_entries vault_kit).
  - by repeat constructor.
  - apply got_Ok. vm_compute. reflexivity.
Defined.
Definition vault_contents : LocalKitContents :=
  match validate_entries vault_entries with Ok c => c | _ => mkLocalKitContents vault [] end.
Lemma kit_upgrade_keeps_witness : validate_entries (to_backup_entries vault_contents) = Ok vault_contents.
Proof. apply (kit_upgrade_keeps vault_entries). apply got_Ok. vm_compute. reflexivity. Defined.
Example vault_in_order : le_number <$> lc_epochs vault_contents = [1; 2]%N.
Proof. vm_compute. reflexivity. Qed.

End RecoveryExamples.

Section CodeExample.
#[local] Existing Instances toy_hex_both toy_hex_upper toy_hex_upper_laws toy_recovery_text.
Lemma recovery_code_roundtrip_witness :
  parse_recovery_code
    " 4D00000000000000 0000000000000000 - 0000000000000000000000 0000000000 " = Ok (arr (num_array 32 77)).
Proof. apply (recovery_code_roundtrip (arr (num_array 32 77))); vm_compute; reflexivity. Defined.
Example code_form : format_recovery_code (arr (num_array 32 77))
  = "4D000000-00000000-00000000-00000000-00000000-00000000-00000000-00000000".
Proof. vm_compute. reflexivity. Qed.
End CodeExample.
