(* ===== verification/Handoff.v ===== *)
(** * Writers of a backup ([crates/messages/src/recovery_handoff.rs] and the recovery commands of
      [apps/desktop/src-tauri/src/commands.rs])

    A device that has opened the backup keeps the key that seals its entries.  With it the device
    appends the keys of new epochs, merges its state of the backup with the server's, and hands
    the key to another device of the account.

    How the calls of the system end, random bytes, the clock and what the server answers are
    arguments. *)

From Stdlib Require Import Strings.Byte Strings.Ascii.
From stdpp Require Import base tactics numbers sets list gmap strings pretty option.
From S2P Require Import Prelude StateError Crypto EpochState CutoverMessages FilePath Storage HybridKem Json Pinning.
From S2P Require Import JoinCards Backup.
Open Scope hc_scope.
Open Scope hc_st_scope.

(** ** Handing the writer key to another device ([recovery_handoff.rs]) *)

Record RecoveryWriterHandoffPlain := mkHandoffPlain {
  hp_version : N;
  hp_user_id : string;
  hp_source_device_id : string;
  hp_target_device_id : string;
  hp_issued_at : Z;
  hp_expires_at : Z;
  hp_purpose : string;
  hp_recovery_artifact_version : N;
  hp_recovery_artifact_sha256 : string;
  hp_epoch_key_b64 : string;
}.
Record RecoveryWriterHandoffEnvelope := mkHandoffEnvelope {
  he_version : N;
  he_user_id : string;
  he_source_device_id : string;
  he_target_device_id : string;
  he_issued_at : Z;
  he_expires_at : Z;
  he_purpose : string;
  he_recovery_artifact_version : N;
  he_recovery_artifact_sha256 : string;
  he_kem_ciphertext : bytes;
  he_nonce : bytes;
  he_ciphertext : bytes;
  he_signing_public_key : bytes;
  he_signature : bytes;
}.
(** [RecoveryWriterHandoffSignable]: all fields but the signature. *)
Record HandoffSignable := mkHandoffSignable {
  hs_version : N;
  hs_user_id : string;
  hs_source_device_id : string;
  hs_target_device_id : string;
  hs_issued_at : Z;
  hs_expires_at : Z;
  hs_purpose : string;
  hs_recovery_artifact_version : N;
  hs_recovery_artifact_sha256 : string;
  hs_kem_ciphertext : bytes;
  hs_nonce : bytes;
  hs_ciphertext : bytes;
  hs_signing_public_key : bytes;
}.

Definition RECOVERY_WRITER_HANDOFF_VERSION : N := 1.
Definition RECOVERY_WRITER_HANDOFF_PURPOSE : string := "recovery_auto_backup_writer".
Definition HANDOFF_AAD : bytes := bytes_of "hybridcipher/recovery-writer-handoff/v1".
Definition HANDOFF_AEAD_LABEL : bytes := bytes_of "recovery writer handoff aead".

(** The payload in CBOR, which can be read back. *)
Class CborDe (A : Type) := cbor_from_slice : bytes → res string A.
Class HandoffCborLaws `{CborSer RecoveryWriterHandoffPlain, CborDe RecoveryWriterHandoffPlain} : Prop :=
  handoff_from_to p b : rfc3339_years (hp_issued_at p) = true → rfc3339_years (hp_expires_at p) = true →
    cbor_to_vec p = Ok b → cbor_from_slice b = Ok p ∧ b ≠ [].

Definition validate_common_fields (version : N) (user_id source_device_id target_device_id : string)
    (issued_at expires_at : Z) (purpose : string) (recovery_artifact_version : N) (recovery_artifact_sha256 : string)
  : res MessageError unit :=
  if decide (version ≠ RECOVERY_WRITER_HANDOFF_VERSION)
  then Err (MsgInvalidFormat ("Unsupported recovery handoff version " +:+ pretty version))
  else if decide (trim user_id = ""%string) then Err (MsgInvalidFormat "Recovery handoff user ID is required")
  else if decide (trim source_device_id = ""%string)
  then Err (MsgInvalidFormat "Recovery handoff source device ID is required")
  else if decide (trim target_device_id = ""%string)
  then Err (MsgInvalidFormat "Recovery handoff target device ID is required")
  else if (expires_at <=? issued_at)%Z then Err (MsgTimestampError "Recovery handoff expiry must be after issue time")
  else if decide (purpose ≠ RECOVERY_WRITER_HANDOFF_PURPOSE)
  then Err (MsgInvalidFormat "Recovery handoff purpose is invalid")
  else if decide (recovery_artifact_version = 0%N) then Err (MsgInvalidFormat "Recovery artifact version is required")
  else if bool_decide (String.length recovery_artifact_sha256 ≠ 64)
          || negb (string_all is_hex_digit recovery_artifact_sha256)
  then Err (MsgInvalidFormat "Recovery artifact SHA-256 digest is invalid")
  else Ok tt.

Section Handoff.
Context {ed : Ed25519} {ae : Aead} {b64 : Base64} {rt : RecoveryText} {hk : Hkdf} {xc : X25519} {mk : MlKem}.
Context {cp : CborSer RecoveryWriterHandoffPlain} {dp : CborDe RecoveryWriterHandoffPlain} {cs : CborSer HandoffSignable}.

Definition validate_epoch_key (epoch_key_b64 : string) : res MessageError unit :=
  let? decoded := ok_or (base64_decode (trim epoch_key_b64))
                    (MsgInvalidFormat ("Recovery handoff epoch key is invalid: " +:+ base64_error (trim epoch_key_b64))) in
  if decide (length decoded ≠ 32) then Err (MsgInvalidFormat "Recovery handoff epoch key has invalid length")
  else Ok tt.
Definition validate_plain (p : RecoveryWriterHandoffPlain) : res MessageError unit :=
  let? _ := validate_common_fields (hp_version p) (hp_user_id p) (hp_source_device_id p) (hp_target_device_id p)
              (hp_issued_at p) (hp_expires_at p) (hp_purpose p) (hp_recovery_artifact_version p)
              (hp_recovery_artifact_sha256 p) in
  validate_epoch_key (hp_epoch_key_b64 p).

Definition validate_unsigned (e : RecoveryWriterHandoffEnvelope) : res MessageError unit :=
  let? _ := validate_common_fields (he_version e) (he_user_id e) (he_source_device_id e) (he_target_device_id e)
              (he_issued_at e) (he_expires_at e) (he_purpose e) (he_recovery_artifact_version e)
              (he_recovery_artifact_sha256 e) in
  if decide (he_kem_ciphertext e = []) then Err (MsgInvalidFormat "Recovery handoff KEM ciphertext is missing")
  else if decide (he_nonce e = []) then Err (MsgInvalidFormat "Recovery handoff nonce is missing")
  else if decide (he_ciphertext e = []) then Err (MsgInvalidFormat "Recovery handoff ciphertext is missing")
  else if decide (he_signing_public_key e = [])
  then Err (MsgInvalidFormat "Recovery handoff signing public key is missing")
  else Ok tt.
Definition validate_signed (e : RecoveryWriterHandoffEnvelope) : res MessageError unit :=
  let? _ := validate_unsigned e in
  if decide (he_signature e = []) then Err (MsgInvalidFormat "Recovery handoff signature is missing") else Ok tt.
Definition validate_plain_binding (e : RecoveryWriterHandoffEnvelope) (p : RecoveryWriterHandoffPlain)
  : res MessageError unit :=
  if bool_decide (hp_version p ≠ he_version e) || bool_decide (hp_user_id p ≠ he_user_id e)
     || bool_decide (hp_source_device_id p ≠ he_source_device_id e)
     || bool_decide (hp_target_device_id p ≠ he_target_device_id e)
     || bool_decide (hp_issued_at p ≠ he_issued_at e) || bool_decide (hp_expires_at p ≠ he_expires_at e)
     || bool_decide (hp_purpose p ≠ he_purpose e)
     || bool_decide (hp_recovery_artifact_version p ≠ he_recovery_artifact_version e)
     || bool_decide (hp_recovery_artifact_sha256 p ≠ he_recovery_artifact_sha256 e)
  then Err (MsgInvalidFormat "Recovery handoff plaintext does not match envelope metadata")
  else Ok tt.

Definition handoff_signable (e : RecoveryWriterHandoffEnvelope) : HandoffSignable :=
  mkHandoffSignable (he_version e) (he_user_id e) (he_source_device_id e) (he_target_device_id e) (he_issued_at e)
    (he_expires_at e) (he_purpose e) (he_recovery_artifact_version e) (he_recovery_artifact_sha256 e)
    (he_kem_ciphertext e) (he_nonce e) (he_ciphertext e) (he_signing_public_key e).
Definition handoff_signable_bytes (e : RecoveryWriterHandoffEnvelope) : res MessageError bytes :=
  map_err (λ x, MsgSerializationError ("Failed to serialize handoff signature: " +:+ x)) (cbor_to_vec (handoff_signable e)).

Definition derive_handoff_aead_key (shared_secret : bytes) : res MessageError Key :=
  let? key_bytes := map_err (λ _, MsgCryptoError "Recovery handoff HKDF expand failed")
                      (hkdf_okm (hkdf_prk None shared_secret) HANDOFF_AEAD_LABEL 32) in
  map_err MsgCrypto (Key_from_bytes key_bytes).

Definition handoff_seal (scalar : array 32) (coins : bytes) (nonce : array 12) (plain : RecoveryWriterHandoffPlain)
    (recipient_invitation_public_key : bytes) (source_signing_key : SigningKey)
  : res MessageError RecoveryWriterHandoffEnvelope :=
  let? _ := validate_plain plain in
  let? public_key := map_err MsgCrypto (HybridPublicKey_from_bytes recipient_invitation_public_key) in
  let? (kem_ciphertext, shared_secret) := map_err MsgCrypto (encap scalar coins public_key KemRecoveryWriterHandoff) in
  let? aead_key := derive_handoff_aead_key (arr (ss_bytes shared_secret)) in
  let? plaintext := map_err (λ e, MsgSerializationError ("Failed to serialize handoff: " +:+ e)) (cbor_to_vec plain) in
  let? ciphertext := map_err MsgCrypto (seal aead_key (mkNonce nonce) RecoveryWriterHandoff HANDOFF_AAD plaintext) in
  let signing_public_key := arr (VerifyingKey_to_bytes (SigningKey_verifying_key source_signing_key)) in
  let envelope := mkHandoffEnvelope RECOVERY_WRITER_HANDOFF_VERSION (hp_user_id plain) (hp_source_device_id plain)
                    (hp_target_device_id plain) (hp_issued_at plain) (hp_expires_at plain) (hp_purpose plain)
                    (hp_recovery_artifact_version plain) (hp_recovery_artifact_sha256 plain)
                    (HybridCiphertext_to_bytes kem_ciphertext) (arr nonce) ciphertext signing_public_key in
  let? _ := validate_unsigned (envelope []) in
  let? signable := handoff_signable_bytes (envelope []) in
  let? signature := map_err MsgCrypto (SigningKey_sign source_signing_key signable) in
  Ok (envelope (arr (Signature_to_bytes signature))).

Definition open_and_verify_for (e : RecoveryWriterHandoffEnvelope) (recipient_invitation_private_key : bytes)
    (expected_user_id expected_target_device_id : string) (now : Z) : res MessageError RecoveryWriterHandoffPlain :=
  let? _ := validate_signed e in
  if decide (he_user_id e ≠ expected_user_id) then Err (MsgInvalidFormat "Recovery handoff is for a different user")
  else if decide (he_target_device_id e ≠ expected_target_device_id)
  then Err (MsgInvalidFormat "Recovery handoff is for a different device")
  else if (he_expires_at e <? now)%Z then Err (MsgExpiredCard "Recovery writer handoff has expired")
  else
    let? verifying_key := map_err MsgCrypto (VerifyingKey_from_bytes (he_signing_public_key e)) in
    let? signature := map_err MsgCrypto (Signature_from_bytes (he_signature e)) in
    let? signable := handoff_signable_bytes e in
    let? _ := map_err MsgCrypto (VerifyingKey_verify verifying_key signable signature) in
    let? secret_key := map_err MsgCrypto (HybridSecretKey_from_bytes recipient_invitation_private_key) in
    let? kem_ciphertext := map_err MsgCrypto (HybridCiphertext_from_bytes (he_kem_ciphertext e)) in
    let? shared_secret := map_err MsgCrypto (decap secret_key kem_ciphertext KemRecoveryWriterHandoff) in
    let? aead_key := derive_handoff_aead_key (arr (ss_bytes shared_secret)) in
    let? nonce := map_err MsgCrypto (Nonce_from_bytes (he_nonce e)) in
    let? plaintext := map_err MsgCrypto (open aead_key nonce RecoveryWriterHandoff HANDOFF_AAD (he_ciphertext e)) in
    let? plain := map_err (λ x, MsgSerializationError ("Failed to parse handoff: " +:+ x)) (cbor_from_slice plaintext) in
    let? _ := validate_plain plain in
    let? _ := validate_plain_binding e plain in
    Ok plain.
End Handoff.

(** ** The writer on a device ([commands.rs]) *)

Definition WRITER_AAD : bytes := bytes_of "hybridcipher/recovery/writer".
Class ProtectedJson := {
  protected_to_vec : ProtectedData → res string bytes;
  protected_from_slice : bytes → res string ProtectedData;
}.
Class ProtectedJsonLaws `{ProtectedJson} : Prop := {
  protected_to_vec_total p : ∃ b, protected_to_vec p = Ok b;
  protected_from_to p b : protected_to_vec p = Ok b → protected_from_slice b = Ok p;
}.

(** What the device keeps for the account: the file of the backup, the writer key in the secure
    store and the file of the writer blob. *)
Record WriterStore := mkWriterStore {
  wr_artifact : option string;
  wr_key : option (array 32);
  wr_blob : option bytes;
}.
Record UserSession := mkUserSession { us_user_id : string; us_device_id : string; us_persistent : bool }.
(** How the calls of the system end. *)
Record WriterIo := mkWriterIo {
  io_store_key : res string unit;
  io_create_dir : res string unit;
  io_write : res string unit;
}.
Record Downloaded := mkDownloaded { dl_artifact_blob : string; dl_server_version : N }.

Section Writer.
Context {ed : Ed25519} {ae : Aead} {b64 : Base64} {rt : RecoveryText} {hk : Hkdf} {xc : X25519} {mk : MlKem}.
Context {cp : CborSer RecoveryWriterHandoffPlain} {dp : CborDe RecoveryWriterHandoffPlain} {cs : CborSer HandoffSignable}.
Context {sha : Sha256} {hex : Hex} {bj : BackupJson} {pj : ProtectedJson}.

Definition derive_writer_key (k_file : array 32) (device_id : string) : res string (array 32) :=
  let? okm := map_err (λ _, "Failed to derive writer key"%string)
                (hkdf_okm (hkdf_prk None (arr k_file)) (bytes_of ("writer:" +:+ device_id)) 32) in
  unwrap (array_of 32 okm).

Definition persist_recovery_writer_blob_with_key (io : WriterIo) (nonce : array 12) (session : UserSession)
    (writer_key epoch_key : array 32) : ST WriterStore string unit :=
  if negb (us_persistent session)
  then st_fail "Automatic backup credentials require a persistent sign-in session."%string
  else
    let* blob := st_lift (map_err (λ e, "Failed to seal writer blob: " +:+ CryptoError_display e)
                   (encrypt_with_ad nonce (arr epoch_key) writer_key WRITER_AAD)) in
    let* _ := st_lift (map_err (λ _, "Automatic backup credentials could not be saved in secure storage"%string)
                (io_store_key io)) in
    do* st_put (λ s, mkWriterStore (wr_artifact s) (Some writer_key) (wr_blob s));
    let* _ := st_lift (map_err (λ e, "Failed to create writer blob dir: " +:+ e) (io_create_dir io)) in
    let* serialized := st_lift (map_err (λ e, "Failed to serialize writer blob: " +:+ e) (protected_to_vec blob)) in
    let* _ := st_lift (map_err (λ e, "Failed to persist writer blob: " +:+ e) (io_write io)) in
    st_put (λ s, mkWriterStore (wr_artifact s) (wr_key s) (Some serialized)).
Definition persist_recovery_writer_material (io : WriterIo) (nonce : array 12) (session : UserSession)
    (k_file epoch_key : array 32) : ST WriterStore string unit :=
  let* writer_key := st_lift (derive_writer_key k_file (us_device_id session)) in
  persist_recovery_writer_blob_with_key io nonce session writer_key epoch_key.
(** Here the writer key is drawn. *)
Definition persist_recovery_writer_epoch_key (io : WriterIo) (nonce : array 12) (writer_key : array 32)
    (session : UserSession) (epoch_key : array 32) : ST WriterStore string unit :=
  persist_recovery_writer_blob_with_key io nonce session writer_key epoch_key.

(** [read] is what reading the blob and [loaded] what asking the secure store end with. *)
Definition load_recovery_writer_material (read : res string unit) (loaded : res string unit) (session : UserSession)
    (s : WriterStore) : res string (option (array 32)) :=
  if negb (us_persistent session) then Ok None
  else
    match wr_blob s with
    | None => Ok None
    | Some blob_bytes =>
        let? _ := map_err (λ e, "Failed to read writer blob: " +:+ e) read in
        let? blob := map_err (λ e, "Writer blob is malformed: " +:+ e) (protected_from_slice blob_bytes) in
        let? _ := map_err (λ e, "Failed to read writer key from secure storage: " +:+ e) loaded in
        match wr_key s with
        | None => Ok None
        | Some key =>
            let? epoch_key_bytes :=
              map_err (λ e, "Failed to decrypt writer blob; recovery prompts will be required: "
                              +:+ CryptoError_display e) (decrypt_with_ad blob key WRITER_AAD) in
            Ok (array_of 32 epoch_key_bytes)
        end
    end.

Definition recovery_artifact_blob_sha256_hex (encoded_artifact : string) : res string string :=
  let? decoded := ok_or (base64_decode (trim encoded_artifact))
                    ("Recovery artifact is not valid base64: " +:+ base64_error (trim encoded_artifact)) in
  Ok (hex_encode (arr (sha256 decoded))).

(** The server's answer to the download: its blob must parse. *)
Definition downloaded_artifact (answer : res string (option Downloaded))
  : res string (option (BackupArtifact * Downloaded)) :=
  let? answer := answer in
  match answer with
  | None => Ok None
  | Some d => let? artifact := from_base64 (dl_artifact_blob d) in Ok (Some (artifact, d))
  end.

(** What one turn of the loop of [accept_recovery_writer_handoffs] draws and is answered. *)
Record AcceptTurn := mkAcceptTurn {
  at_download : res string (option Downloaded);
  at_writer_key : array 32;
  at_nonce : array 12;
  at_dir : res string unit;
  at_save : res string unit;
  at_io : WriterIo;
  at_consume : res string unit;
}.
Fixpoint accept_loop (turns : list (RecoveryWriterHandoffEnvelope * AcceptTurn)) (invitation_secret : bytes)
    (session : UserSession) (now : Z) : ST WriterStore string unit :=
  match turns with
  | [] => st_ret tt
  | (envelope, t) :: turns =>
      match open_and_verify_for envelope invitation_secret (us_user_id session) (us_device_id session) now with
      | Ok plain =>
          let* downloaded := st_lift (downloaded_artifact (at_download t)) in
          match downloaded with
          | None => accept_loop turns invitation_secret session now
          | Some (artifact, d) =>
              let* hash := st_lift (recovery_artifact_blob_sha256_hex (dl_artifact_blob d)) in
              if bool_decide (dl_server_version d ≠ hp_recovery_artifact_version plain)
                 || negb (eq_ignore_ascii_case hash (hp_recovery_artifact_sha256 plain))
              then accept_loop turns invitation_secret session now
              else
                match base64_decode (hp_epoch_key_b64 plain) ≫= array_of 32 with
                | None => accept_loop turns invitation_secret session now
                | Some epoch_key =>
                    let* encoded := st_lift (save_to_path (at_dir t) (at_save t) artifact) in
                    do* st_put (λ s, mkWriterStore (Some encoded) (wr_key s) (wr_blob s));
                    do* persist_recovery_writer_epoch_key (at_io t) (at_nonce t) (at_writer_key t) session epoch_key;
                    let* _ := st_lift (map_err (λ e, "Failed to consume recovery handoff: " +:+ e) (at_consume t)) in
                    st_ret tt
                end
          end
      | Err _ => accept_loop turns invitation_secret session now
      | Panic => st_lift Panic
      | Diverge => st_lift Diverge
      end
  end.
Definition accept_recovery_writer_handoffs (turns : list (RecoveryWriterHandoffEnvelope * AcceptTurn))
    (material : res string bytes) (session : UserSession) (now : Z) : ST WriterStore string unit :=
  if negb (us_persistent session) || bool_decide (trim (us_device_id session) = ""%string) then st_ret tt
  else
    match turns with
    | [] => st_ret tt
    | _ =>
        let* invitation_secret := st_lift material in
        accept_loop turns invitation_secret session now
    end.

(** The silent update of the backup: the entries are appended with the kept key to the kept
    artifact, saved, and handed to the upload. *)
Definition backup_with_writer (nonces : nat → array 12) (entries : list BackupEntryPlain)
    (read loaded dir save : res string unit) (session : UserSession) : ST WriterStore string (option BackupArtifact) :=
  let* s := st_get in
  match load_from_path (ok_or (wr_artifact s) "No such file or directory"%string),
        load_recovery_writer_material read loaded session s with
  | Ok existing, Ok (Some epoch_key) =>
      let (appended, existing) := append_entries_with_epoch_key nonces entries epoch_key existing in
      let* _ := st_lift (map_err (λ e, "Failed to append recovery entries: " +:+ e) appended) in
      let* encoded := st_lift (save_to_path dir save existing) in
      do* st_put (λ s, mkWriterStore (Some encoded) (wr_key s) (wr_blob s));
      st_ret (Some existing)
  | _, _ => st_ret None
  end.

(** [merge_recovery_artifacts]: the entries of both, those that encode alike once. *)
Fixpoint merge_entries (seen : list bytes) (merged more : list EncryptedEntry) : list EncryptedEntry :=
  match more with
  | [] => merged
  | entry :: more =>
      match sealed_to_vec entry with
      | Ok serialized =>
          if decide (serialized ∈ seen) then merge_entries seen merged more
          else merge_entries (serialized :: seen) (merged ++ [entry]) more
      | _ => merge_entries seen (merged ++ [entry]) more
      end
  end.
Definition encodings (entries : list EncryptedEntry) : list bytes :=
  omap (λ e, match sealed_to_vec e with Ok b => Some b | _ => None end) entries.
Definition merge_recovery_artifacts (server local_ : BackupArtifact) : BackupArtifact :=
  let merged := if (ba_version local_ <=? ba_version server)%N then server else local_ in
  mkBackupArtifact BACKUP_VERSION (ba_k1_salt_b64 merged) (ba_k2_salt_b64 merged) (ba_hkdf_salt_b64 merged)
    (ba_k1_wrapped merged) (ba_k2_wrapped merged)
    (merge_entries (encodings (ba_entries merged)) (ba_entries merged) (ba_entries local_ ++ ba_entries server)).

(** The part of [offer_recovery_writer_handoff] that makes the envelope: the key that it is
    sealed to is the one the server reports for the target. *)
Definition HOURS_24 : Z := 24 * 3600 * 1000000000.
Definition offer_envelope (scalar : array 32) (coins : bytes) (nonce : array 12) (session : UserSession)
    (target_device_id target_invitation_public_key_hex : string) (d : Downloaded) (now : Z)
    (writer_epoch_key : array 32) (identity_secret : SigningKey) : res string RecoveryWriterHandoffEnvelope :=
  let? artifact_hash := recovery_artifact_blob_sha256_hex (dl_artifact_blob d) in
  let? target_invitation_public :=
    ok_or (hex_decode target_invitation_public_key_hex)
      ("Server returned invalid invitation key for recovery handoff target: "
         +:+ hex_error target_invitation_public_key_hex) in
  let plain := mkHandoffPlain RECOVERY_WRITER_HANDOFF_VERSION (us_user_id session) (us_device_id session)
                 target_device_id now (now + HOURS_24) RECOVERY_WRITER_HANDOFF_PURPOSE (dl_server_version d)
                 artifact_hash (base64_encode (arr writer_epoch_key)) in
  map_err (λ e, "Failed to create recovery handoff: " +:+ MessageError_display e)
    (handoff_seal scalar coins nonce plain target_invitation_public identity_secret).
End Writer.

(** ** Merging two states of a backup *)

Section MergeTheorems.
Context {ae : Aead} {b64 : Base64} {rt : RecoveryText} {ar : Argon2} {hk : Hkdf} {bj : BackupJson}
  {bjl : BackupJsonLaws}.

(** One sealed entry that reads as [e]. *)
Definition reads (key : array 32) (sealed : EncryptedEntry) (e : BackupEntryPlain) : Prop :=
  ∃ plaintext, decrypt_with_ad (ee_protected sealed) key ENTRY_AAD = Ok plaintext ∧ entry_from_slice plaintext = Ok e.
Lemma readable_Forall2 key l es : readable key l es ↔ Forall2 (reads key) l es.
Proof.
  unfold readable. revert es. induction l as [|x l IH]; intros es; cbn [decrypt_all].
  - split; [by intros [= <-]|]. by intros ->%Forall2_nil_inv_l.
  - split.
    + intros H. apply res_bind_Ok in H as (p & P & H). apply res_bind_Ok in H as (q & Q & H).
      apply res_bind_Ok in H as (r & R & H). apply Ok_inj in H as <-. apply map_err_Ok in P, Q.
      constructor; [by exists p|by apply IH].
    + intros H. apply Forall2_cons_inv_l in H as (e & es' & (p & P & Q) & H & ->). rewrite P. cbn [map_err res_bind].
      rewrite Q. cbn [map_err res_bind]. apply IH in H. by rewrite H.
Qed.

Lemma merge_entries_spec seen merged more :
  (∀ b, b ∈ seen → ∃ e, e ∈ merged ∧ sealed_to_vec e = Ok b) →
  (∀ e, e ∈ merge_entries seen merged more ↔ e ∈ merged ∨ e ∈ more)
  ∧ length (merge_entries seen merged more) ≤ length merged + length more.
Proof using bjl.
  revert seen merged. induction more as [|x more IH]; intros seen merged S; cbn [merge_entries].
  - split; [set_solver|cbn; lia].
  - destruct (sealed_to_vec x) as [b|err| |] eqn:B.
    2-4: (destruct (IH seen (merged ++ [x])) as [IN L];
            [intros b I; destruct (S b I) as (e0 & ? & ?); exists e0; set_solver|];
          split; [intros e; rewrite IN; set_solver|]; rewrite length_app in L; cbn in *; lia).
    + case_decide as I.
      * destruct (IH seen merged S) as [IN L]. split; [|cbn; lia]. intros e. rewrite IN.
        destruct (S b I) as (e0 & I0 & B0). assert (e0 = x) as -> by (by eapply sealed_to_vec_inj). set_solver.
      * destruct (IH (b :: seen) (merged ++ [x])) as [IN L].
        { intros b' I'. apply list.elem_of_cons in I' as [->|I']; [exists x; set_solver|].
          destruct (S b' I') as (e0 & ? & ?). exists e0. set_solver. }
        split; [intros e; rewrite IN; set_solver|]. rewrite length_app in L. cbn in *. lia.
Qed.
Lemma encodings_spec l b : b ∈ encodings l → ∃ e, e ∈ l ∧ sealed_to_vec e = Ok b.
Proof.
  unfold encodings. intros (e & E & H)%list_elem_of_omap. exists e. split; [done|].
  destruct (sealed_to_vec e); by simplify_eq.
Qed.
Lemma merge_spec server local_ :
  (∀ e, e ∈ ba_entries (merge_recovery_artifacts server local_) ↔ e ∈ ba_entries server ∨ e ∈ ba_entries local_)
  ∧ length (ba_entries (merge_recovery_artifacts server local_))
    ≤ 2 * (length (ba_entries server) + length (ba_entries local_)).
Proof using bjl.
  unfold merge_recovery_artifacts. cbv zeta. cbn [ba_entries]. set (m := if (_ <=? _)%N then server else local_).
  destruct (merge_entries_spec (encodings (ba_entries m)) (ba_entries m) (ba_entries local_ ++ ba_entries server))
    as [IN L]; [intros b; apply encodings_spec|].
  rewrite length_app in L. split.
  - intros e. rewrite IN, elem_of_app. subst m. destruct (_ <=? _)%N; set_solver.
  - subst m. destruct (_ <=? _)%N; lia.
Qed.

Lemma has_same_envelope_spec a b pw code k :
  has_same_envelope a b = true →
  unwrap_file_key a pw code = unwrap_file_key b pw code ∧ derive_epoch_key a k = derive_epoch_key b k.
Proof.
  unfold has_same_envelope. rewrite !andb_true_iff, !bool_decide_eq_true. intros ((((E1 & E2) & E3) & E4) & E5).
  unfold unwrap_file_key, derive_epoch_key. by rewrite E1, E2, E3, E4, E5.
Qed.

Lemma unlock_inv a pw code u :
  unlock a pw code = Ok u →
  length code = RECOVERY_CODE_BYTES ∧ pw ≠ ""%string ∧ unwrap_file_key a pw code = Ok (ur_file_key u)
  ∧ derive_epoch_key a (arr (ur_file_key u)) = Ok (ur_entry_key u) ∧ readable (ur_entry_key u) (ba_entries a) (ur_entries u).
Proof.
  unfold unlock. destruct (bool_decide _ || bool_decide _) eqn:B; [done|]. intros E.
  apply orb_false_iff in B as [B1 B2]. apply bool_decide_eq_false in B1, B2. apply dec_stable in B1.
  apply res_bind_Ok in E as (f & F & E). apply res_bind_Ok in E as (k & K & E). destruct (_ <? _)%N; [done|].
  apply res_bind_Ok in E as (es & R & E). by apply Ok_inj in E as <-.
Qed.

(** The merge of two states of the same backup that both open, opens: it has exactly the
    entries of the two, if they are not too many. *)
Theorem merged_backup_opens server local_ pw code u1 u2 :
  has_same_envelope local_ server = true → unlock server pw code = Ok u1 → unlock local_ pw code = Ok u2 →
  (2 * N.of_nat (length (ba_entries server) + length (ba_entries local_)) ≤ MAX_ENTRIES)%N →
  ∃ es, unlock (merge_recovery_artifacts server local_) pw code
        = Ok (mkUnlockedRecovery (ur_file_key u1) (ur_entry_key u1) code es)
    ∧ ∀ e, e ∈ es ↔ e ∈ ur_entries u1 ∨ e ∈ ur_entries u2.
Proof using bjl.
  intros S U1 U2 M. destruct (unlock_inv _ _ _ _ U1) as (L & P & F1 & K1 & R1).
  destruct (unlock_inv _ _ _ _ U2) as (_ & _ & F2 & K2 & R2). destruct (merge_spec server local_) as [IN LE].
  destruct (has_same_envelope_spec local_ server pw code (arr (ur_file_key u2)) S) as [SU SK].
  rewrite SU, F1 in F2. apply Ok_inj in F2. rewrite SK, <-F2, K1 in K2. apply Ok_inj in K2.
  rewrite readable_Forall2 in R1, R2. rewrite <-K2 in R2.
  assert (∀ l, (∀ x, x ∈ l → x ∈ ba_entries server ∨ x ∈ ba_entries local_) →
    ∃ es, Forall2 (reads (ur_entry_key u1)) l es ∧ ∀ e, e ∈ es → e ∈ ur_entries u1 ∨ e ∈ ur_entries u2) as A.
  { induction l as [|x l IH]; intros H; [exists []; split; [constructor|set_solver]|].
    destruct IH as (es & F & E); [set_solver|]. destruct (H x ltac:(left)) as [X|X].
    - apply list_elem_of_lookup in X as [i X]. destruct (Forall2_lookup_l _ _ _ _ _ R1 X) as (e & I & RD).
      exists (e :: es). split; [by constructor|]. apply list_elem_of_lookup_2 in I. set_solver.
    - apply list_elem_of_lookup in X as [i X]. destruct (Forall2_lookup_l _ _ _ _ _ R2 X) as (e & I & RD).
      exists (e :: es). split; [by constructor|]. apply list_elem_of_lookup_2 in I. set_solver. }
  destruct (A (ba_entries (merge_recovery_artifacts server local_))) as (es & F & E); [intros x; apply IN|].
  exists es. split.
  - assert (∃ b, (b = server ∨ b = local_) ∧ same_envelope (merge_recovery_artifacts server local_)
      (mkBackupArtifact BACKUP_VERSION (ba_k1_salt_b64 b) (ba_k2_salt_b64 b) (ba_hkdf_salt_b64 b) (ba_k1_wrapped b)
         (ba_k2_wrapped b) [])) as (b & B & SE).
    { exists (if (ba_version local_ <=? ba_version server)%N then server else local_).
      split; [destruct (_ <=? _)%N; auto|]. by split_and!. }
    assert (unwrap_file_key b pw code = Ok (ur_file_key u1) ∧ derive_epoch_key b (arr (ur_file_key u1)) = Ok (ur_entry_key u1))
      as [BU BK].
    { destruct B as [-> | ->]; [done|]. rewrite SU. split; [done|].
      destruct (has_same_envelope_spec local_ server pw code (arr (ur_file_key u1)) S) as [_ ->]. done. }
    apply unlock_spec; try done; [by rewrite (same_envelope_unwrap _ _ _ _ SE)|by rewrite (same_envelope_epoch_key _ _ _ SE)|lia|].
    by apply readable_Forall2.
  - intros e. split; [apply E|].
    assert (∀ u l, Forall2 (reads (ur_entry_key u1)) l (ur_entries u) →
      (∀ x, x ∈ l → x ∈ ba_entries (merge_recovery_artifacts server local_)) → e ∈ ur_entries u → e ∈ es) as B.
    { intros u l FL SUB I. apply list_elem_of_lookup in I as [i I].
      destruct (Forall2_lookup_r _ _ _ _ _ FL I) as (x & X & (p & P1 & P2)).
      apply list_elem_of_lookup_2, SUB, list_elem_of_lookup in X as [j X].
      destruct (Forall2_lookup_l _ _ _ _ _ F X) as (e' & I' & (p' & P1' & P2')).
      assert (e' = e) as -> by congruence. by apply list_elem_of_lookup_2 in I'. }
    intros [I|I]; [apply (B u1 _ R1)|apply (B u2 _ R2)]; try done; intros x X; apply IN; auto.
Qed.

(** One entry that was sealed with another key locks the whole backup. *)
Theorem foreign_entry_locks a pw code k_file entry_key x u :
  unwrap_file_key a pw code = Ok k_file → derive_epoch_key a (arr k_file) = Ok entry_key →
  x ∈ ba_entries a → ¬ (∃ e, reads entry_key x e) → unlock a pw code ≠ Ok u.
Proof.
  intros F K I N U. destruct (unlock_inv _ _ _ _ U) as (_ & _ & F' & K' & R).
  rewrite F in F'. apply Ok_inj in F'. rewrite <-F', K in K'. apply Ok_inj in K'. rewrite <-K' in R.
  apply readable_Forall2 in R. apply list_elem_of_lookup in I as [i I].
  destruct (Forall2_lookup_l _ _ _ _ _ R I) as (e & _ & RD). apply N. by exists e.
Qed.
End MergeTheorems.

(** ** Handing over the writer key *)

Section HandoffTheorems.
Context {ed : Ed25519} {edl : Ed25519Laws} {ae : Aead} {al : AeadLaws} {b64 : Base64} {bl : Base64Laws}
  {rt : RecoveryText} {hk : Hkdf} {xc : X25519} {xcl : X25519Laws} {mk : MlKem} {mkl : MlKemLaws}.
Context {cp : CborSer RecoveryWriterHandoffPlain} {dp : CborDe RecoveryWriterHandoffPlain} {hcl : HandoffCborLaws}
  {cs : CborSer HandoffSignable}.

Lemma validate_common_version v u sd td i x p n h :
  validate_common_fields v u sd td i x p n h = Ok tt → v = RECOVERY_WRITER_HANDOFF_VERSION.
Proof. unfold validate_common_fields. by case_decide. Qed.
Lemma nonempty_array {n} (a : array (S n)) : arr a ≠ [].
Proof. intros E. pose proof (arr_length a) as L. by rewrite E in L. Qed.

Definition handoff_years (p : RecoveryWriterHandoffPlain) : Prop :=
  rfc3339_years (hp_issued_at p) = true ∧ rfc3339_years (hp_expires_at p) = true.

Lemma handoff_opens scalar coins eph coins' nonce plain kp sk e now :
  HybridKeyPair_generate scalar coins = Ok kp → handoff_years plain →
  handoff_seal eph coins' nonce plain (HybridPublicKey_to_bytes (hkp_public kp)) sk = Ok e → (now <= hp_expires_at plain)%Z →
  open_and_verify_for e (HybridSecretKey_to_bytes (hkp_secret kp)) (hp_user_id plain) (hp_target_device_id plain) now
  = Ok plain.
Proof.
  intros KG [Y1 Y2] E NW. unfold handoff_seal in E. apply res_bind_Ok in E as ([] & V & E).
  destruct (hybrid_bytes_exact (HybridPublicKey_to_bytes (hkp_public kp))) as (PB & _ & _).
  rewrite (proj2 (PB (hkp_public kp)) eq_refl) in E. clear PB. cbn [map_err res_bind] in E.
  destruct (encap eph coins' (hkp_public kp) KemRecoveryWriterHandoff) as [[ct ss]| | |] eqn:EN; try done.
  cbn [map_err res_bind] in E. apply res_bind_Ok in E as (key & K & E). apply res_bind_Ok in E as (b & B & E).
  apply map_err_Ok in B. apply res_bind_Ok in E as (c & C & E). apply map_err_Ok in C. cbv zeta in E.
  apply res_bind_Ok in E as ([] & VU & E). apply res_bind_Ok in E as (m & M & E).
  apply res_bind_Ok in E as (sig & S & E). apply map_err_Ok in S. apply Ok_inj in E as <-.
  destruct (handoff_from_to plain b Y1 Y2 B) as [DE _].
  unfold open_and_verify_for, validate_signed.
  assert (∀ s, validate_unsigned (mkHandoffEnvelope RECOVERY_WRITER_HANDOFF_VERSION (hp_user_id plain)
    (hp_source_device_id plain) (hp_target_device_id plain) (hp_issued_at plain) (hp_expires_at plain) (hp_purpose plain)
    (hp_recovery_artifact_version plain) (hp_recovery_artifact_sha256 plain) (HybridCiphertext_to_bytes ct) (arr nonce) c
    (arr (VerifyingKey_to_bytes (SigningKey_verifying_key sk))) s) = Ok tt) as VU' by (intros s; exact VU).
  rewrite VU'. cbn [res_bind he_signature]. rewrite decide_False by apply nonempty_array. cbn [res_bind].
  cbn [he_user_id he_target_device_id he_expires_at he_signing_public_key he_kem_ciphertext he_nonce he_ciphertext].
  rewrite !decide_False by (intros X; by apply X). destruct (Z.ltb_spec (hp_expires_at plain) now); [lia|].
  rewrite VerifyingKey_from_to_bytes by apply dalek_public_valid. cbn [map_err res_bind].
  rewrite (Signature_from_to_bytes _ _ _ S). cbn [map_err res_bind].
  assert (∀ s, handoff_signable_bytes (mkHandoffEnvelope RECOVERY_WRITER_HANDOFF_VERSION (hp_user_id plain)
    (hp_source_device_id plain) (hp_target_device_id plain) (hp_issued_at plain) (hp_expires_at plain) (hp_purpose plain)
    (hp_recovery_artifact_version plain) (hp_recovery_artifact_sha256 plain) (HybridCiphertext_to_bytes ct) (arr nonce) c
    (arr (VerifyingKey_to_bytes (SigningKey_verifying_key sk))) s) = Ok m) as M' by (intros s; exact M).
  rewrite M'. cbn [res_bind]. rewrite (sign_verify _ _ _ S). cbn [map_err res_bind].
  destruct (hybrid_bytes_exact (HybridSecretKey_to_bytes (hkp_secret kp))) as (_ & SB & _).
  rewrite (proj2 (SB (hkp_secret kp)) eq_refl). cbn [map_err res_bind].
  destruct (hybrid_bytes_exact (HybridCiphertext_to_bytes ct)) as (_ & _ & CB).
  rewrite (proj2 (CB ct) eq_refl). cbn [map_err res_bind].
  rewrite (encap_decap _ _ _ _ _ _ _ _ KG EN). cbn [map_err res_bind]. rewrite K. cbn [res_bind].
  unfold Nonce_from_bytes. change AEAD_NONCE_LEN with 12. rewrite array_of_arr. cbn [map_err res_bind].
  rewrite (seal_open _ _ _ _ _ _ C). cbn [map_err res_bind]. rewrite DE. cbn [map_err res_bind]. rewrite V. cbn [res_bind].
  assert (hp_version plain = RECOVERY_WRITER_HANDOFF_VERSION) as HV.
  { unfold validate_plain in V. apply res_bind_Ok in V as ([] & V & _). by apply validate_common_version in V. }
  unfold validate_plain_binding. cbn [he_version he_user_id he_source_device_id he_target_device_id he_issued_at
    he_expires_at he_purpose he_recovery_artifact_version he_recovery_artifact_sha256].
  by rewrite !bool_decide_eq_false_2 by (intros X; by apply X).
Qed.
(** C21: A hand-over reaches its target: whoever seals it, the target opens it and has what was
    sealed, until it expires. *)
Theorem handoff_roundtrip scalar coins eph coins' nonce plain kp sk e now :
  HybridKeyPair_generate scalar coins = Ok kp → handoff_years plain →
  handoff_seal eph coins' nonce plain (HybridPublicKey_to_bytes (hkp_public kp)) sk = Ok e → (now <= hp_expires_at plain)%Z →
  open_and_verify_for e (HybridSecretKey_to_bytes (hkp_secret kp)) (hp_user_id plain) (hp_target_device_id plain) now
  = Ok plain.
Proof. apply handoff_opens. Qed.

Lemma if_decide_Ok `{Decision P} {E A} (e : E) (m : res E A) a :
  (if decide P then Err e else m) = Ok a → ¬ P ∧ m = Ok a.
Proof. by case_decide. Qed.

(** What an accepted hand-over is: for this user and device, not expired, in agreement with its
    envelope, and signed by the key that the envelope itself names. *)
Theorem handoff_accepted_is_bound e secret user device now p :
  open_and_verify_for e secret user device now = Ok p →
  hp_user_id p = user ∧ hp_target_device_id p = device ∧ (now <= hp_expires_at p)%Z ∧ (hp_issued_at p < hp_expires_at p)%Z
  ∧ hp_source_device_id p = he_source_device_id e ∧ hp_recovery_artifact_sha256 p = he_recovery_artifact_sha256 e
  ∧ (∃ k, base64_decode (trim (hp_epoch_key_b64 p)) = Some k ∧ length k = 32)
  ∧ ∃ vk s m, VerifyingKey_from_bytes (he_signing_public_key e) = Ok vk ∧ Signature_from_bytes (he_signature e) = Ok s
    ∧ handoff_signable_bytes e = Ok m ∧ VerifyingKey_verify vk m s = Ok tt.
Proof.
  intros E. unfold open_and_verify_for in E. apply res_bind_Ok in E as ([] & _ & E).
  apply if_decide_Ok in E as [U E]. apply if_decide_Ok in E as [T E]. apply dec_stable in U, T.
  destruct (Z.ltb_spec (he_expires_at e) now) as [?|NW]; [done|].
  apply res_bind_Ok in E as (vk & VK & E). apply map_err_Ok in VK. apply res_bind_Ok in E as (s & SG & E).
  apply map_err_Ok in SG. apply res_bind_Ok in E as (m & M & E). apply res_bind_Ok in E as ([] & VF & E).
  apply map_err_Ok in VF. do 6 (apply res_bind_Ok in E as (? & _ & E)). apply res_bind_Ok in E as (p' & _ & E).
  apply res_bind_Ok in E as ([] & V & E). apply res_bind_Ok in E as ([] & B & E). apply Ok_inj in E as ->.
  unfold validate_plain_binding in B. destruct (_ || _) eqn:D in B; [done|]. clear B.
  rewrite !orb_false_iff, !bool_decide_eq_false in D.
  destruct D as ((((((((_ & D2) & D3) & D4) & _) & D6) & _) & _) & D9). apply dec_stable in D2, D3, D4, D6, D9.
  unfold validate_plain in V. apply res_bind_Ok in V as ([] & V & VE).
  assert (hp_issued_at p < hp_expires_at p)%Z as LT.
  { unfold validate_common_fields in V. do 4 (apply if_decide_Ok in V as [_ V]).
    by destruct (Z.leb_spec (hp_expires_at p) (hp_issued_at p)). }
  unfold validate_epoch_key in VE. destruct (base64_decode _) as [k|] eqn:K; [|done]. cbn [ok_or res_bind] in VE.
  apply if_decide_Ok in VE as [L _]. apply dec_stable in L.
  split_and!; try congruence; [by exists k|by exists vk, s, m].
Qed.
End HandoffTheorems.

(** ** The writer on a device *)

Section WriterTheorems.
Context {ed : Ed25519} {edl : Ed25519Laws} {ae : Aead} {al : AeadLaws} {atl : AeadTotal} {b64 : Base64} {bl : Base64Laws}
  {rt : RecoveryText} {hk : Hkdf} {xc : X25519} {xcl : X25519Laws} {mk : MlKem} {mkl : MlKemLaws}.
Context {cp : CborSer RecoveryWriterHandoffPlain} {dp : CborDe RecoveryWriterHandoffPlain} {hcl : HandoffCborLaws}
  {cs : CborSer HandoffSignable}.
Context {sha : Sha256} {hex : Hex} {bj : BackupJson} {bjl : BackupJsonLaws} {pj : ProtectedJson} {pjl : ProtectedJsonLaws}.

Definition io_fine : WriterIo := mkWriterIo (Ok tt) (Ok tt) (Ok tt).

Lemma persist_loads nonce session writer_key epoch_key s :
  us_persistent session = true →
  ∃ s', persist_recovery_writer_blob_with_key io_fine nonce session writer_key epoch_key s = (Ok tt, s')
    ∧ wr_artifact s' = wr_artifact s
    ∧ load_recovery_writer_material (Ok tt) (Ok tt) session s' = Ok (Some epoch_key).
Proof using al atl bl pjl.
  intros P. unfold persist_recovery_writer_blob_with_key. rewrite P. cbn [negb].
  destruct (encrypt_total nonce (arr epoch_key) writer_key WRITER_AAD) as [p E]; [rewrite arr_length; done|].
  destruct (protected_to_vec_total p) as [b B].
  unfold st_bind, st_lift, st_put. rewrite E. cbn [map_err io_store_key io_create_dir io_write io_fine]. rewrite B.
  cbn [map_err]. eexists. split_and!; [done|done|]. unfold load_recovery_writer_material. rewrite P.
  cbn [negb wr_blob wr_key map_err res_bind]. rewrite (protected_from_to _ _ B). cbn [map_err res_bind].
  rewrite (protected_roundtrip _ _ _ _ _ E). cbn [map_err res_bind]. by rewrite array_of_arr.
Qed.

(** C22: Nothing ties an accepted hand-over to a device of the account.  Whoever can name a backup
    that the server delivers, and knows the public key in the target's join card, seals a
    hand-over with a signing key of its own: the target takes the key in it as its writer key,
    and from then on whatever it appends to the backup can be read with that key. *)
Theorem stranger_becomes_reader scalar coins eph coins' nonce kp stranger plain e key d artifact hash session now t s :
  HybridKeyPair_generate scalar coins = Ok kp → handoff_years plain →
  hp_user_id plain = us_user_id session → hp_target_device_id plain = us_device_id session →
  hp_epoch_key_b64 plain = base64_encode (arr key) →
  hp_recovery_artifact_version plain = dl_server_version d → hp_recovery_artifact_sha256 plain = hash →
  handoff_seal eph coins' nonce plain (HybridPublicKey_to_bytes (hkp_public kp)) stranger = Ok e →
  (now <= hp_expires_at plain)%Z →
  us_persistent session = true → trim (us_device_id session) ≠ ""%string →
  at_download t = Ok (Some d) → from_base64 (dl_artifact_blob d) = Ok artifact →
  recovery_artifact_blob_sha256_hex (dl_artifact_blob d) = Ok hash →
  at_dir t = Ok tt → at_save t = Ok tt → at_io t = io_fine → at_consume t = Ok tt →
  ∃ s', accept_recovery_writer_handoffs [(e, t)] (Ok (HybridSecretKey_to_bytes (hkp_secret kp))) session now s = (Ok tt, s')
    ∧ load_recovery_writer_material (Ok tt) (Ok tt) session s' = Ok (Some key)
    ∧ ∀ nonces entries a s2, Forall dated entries →
        backup_with_writer nonces entries (Ok tt) (Ok tt) (Ok tt) (Ok tt) session s' = (Ok (Some a), s2) →
        ∃ old new, ba_entries a = old ++ new ∧ readable key new entries.
Proof using al atl bl pjl bjl hcl edl xcl mkl.
  intros KG Y HU HT HK HV HH SE NW P ND DL FB SH DI SA IO CO.
  pose proof (handoff_opens _ _ _ _ _ _ _ _ _ _ KG Y SE NW) as OP. rewrite HU, HT in OP.
  destruct (artifact_to_vec_total artifact) as [ab AB].
  destruct (persist_loads (at_nonce t) session (at_writer_key t) key
    (mkWriterStore (Some (base64_encode ab)) (wr_key s) (wr_blob s)) P) as (s' & PE & WA & LD).
  assert (accept_recovery_writer_handoffs [(e, t)] (Ok (HybridSecretKey_to_bytes (hkp_secret kp))) session now s
    = (Ok tt, s')) as AC.
  { unfold accept_recovery_writer_handoffs. rewrite P, bool_decide_eq_false_2 by done. cbn [negb orb].
    unfold st_bind at 1, st_lift at 1. cbn [accept_loop]. rewrite OP. unfold st_bind, st_lift.
    rewrite DL. unfold downloaded_artifact. cbn [res_bind]. rewrite FB. cbn [res_bind]. rewrite SH.
    rewrite bool_decide_eq_false_2 by (intros X; apply X; by rewrite HV). cbn [orb].
    unfold eq_ignore_ascii_case. rewrite HH, bool_decide_eq_true_2 by done. cbn [negb].
    rewrite HK, base64_decode_encode. cbn [mbind option_bind]. rewrite array_of_arr.
    unfold save_to_path, to_base64. rewrite DI, SA. cbn [map_err res_bind]. rewrite AB. cbn [map_err res_bind].
    unfold st_put. rewrite IO. unfold persist_recovery_writer_epoch_key. rewrite PE, CO. done. }
  exists s'. split_and!; [exact AC|exact LD|]. clear AC OP SE.
  intros nonces entries a s2 DA BW. unfold backup_with_writer, st_bind at 1, st_get in BW. rewrite LD in BW.
  destruct (load_from_path _) as [ex| | |]; try done.
  destruct (append_entries_with_epoch_key nonces entries key ex) as [r ex'] eqn:AP.
  unfold st_bind, st_lift in BW. destruct r as [[]| | |]; try done. cbn [map_err] in BW.
  destruct (save_to_path (Ok tt) (Ok tt) ex') as [en| | |]; try done. unfold st_put, st_ret in BW.
  injection BW as <- <-. destruct (append_with_key_spec _ _ _ _ _ DA AP) as (_ & new & E & _ & R). eauto.
Qed.
End WriterTheorems.

(** ** Concrete formats *)

Definition toy_protected_json : ProtectedJson := {|
  protected_to_vec p := Ok (ser (protected_code p));
  protected_from_slice b := map_ok protected_of (de_all b);
|}.
Lemma toy_protected_json_laws : @ProtectedJsonLaws toy_protected_json.
Proof.
  split; [by eexists|]. intros [] b E. apply Ok_inj in E as <-. cbn [protected_from_slice toy_protected_json].
  by rewrite de_all_ser.
Qed.

Definition plain_code (p : RecoveryWriterHandoffPlain) :=
  (hp_version p, hp_user_id p, hp_source_device_id p, hp_target_device_id p, z_pair (hp_issued_at p),
   z_pair (hp_expires_at p), hp_purpose p, hp_recovery_artifact_version p, hp_recovery_artifact_sha256 p,
   hp_epoch_key_b64 p).
Definition plain_of (c : N * string * string * string * (N * N) * (N * N) * string * N * string * string)
  : RecoveryWriterHandoffPlain :=
  let '(v, u, s, t, i, x, p, n, h, k) := c in mkHandoffPlain v u s t (pair_z i) (pair_z x) p n h k.
Definition toy_cbor_plain : CborSer RecoveryWriterHandoffPlain := λ p, Ok (ser (plain_code p)).
Definition toy_cbor_plain_de : CborDe RecoveryWriterHandoffPlain := λ b, map_ok plain_of (de_all b).
Lemma toy_handoff_cbor_laws : @HandoffCborLaws toy_cbor_plain toy_cbor_plain_de.
Proof.
  intros p b _ _ E. apply Ok_inj in E as <-. unfold cbor_from_slice, toy_cbor_plain_de. rewrite de_all_ser. split.
  - destruct p. unfold plain_of, plain_code. cbn -[pair_z z_pair]. by rewrite !pair_z_pair.
  - destruct p as [[|n] ? ? ? ? ? ? ? ? ?]; done.
Qed.
Definition toy_cbor_signable : CborSer HandoffSignable := λ s,
  Ok (ser (hs_version s, hs_user_id s, hs_source_device_id s, hs_target_device_id s, z_pair (hs_issued_at s),
           z_pair (hs_expires_at s), hs_purpose s, hs_recovery_artifact_version s, hs_recovery_artifact_sha256 s,
           hs_kem_ciphertext s, (hs_nonce s, hs_ciphertext s, hs_signing_public_key s))).

(** ** A stranger's hand-over *)

Section HandoffExamples.
#[local] Existing Instances toy_sha256 toy_hex toy_ed25519 toy_ed25519_laws toy_aead toy_aead_laws toy_aead_total
  toy_base64 toy_base64_laws toy_recovery_text toy_argon2 toy_hkdf toy_x25519 toy_x25519_laws toy_mlkem toy_mlkem_laws
  toy_backup_json toy_backup_json_laws toy_protected_json toy_protected_json_laws toy_cbor_plain toy_cbor_plain_de
  toy_handoff_cbor_laws toy_cbor_signable toy_kit_json.


(** Two devices appended to the same backup. *)
Definition other_backup : BackupArtifact :=
  (append_entries_with_epoch_key (λ n, some_nonces (n + 50)) [epoch_entry 4 14] backup_key two_epochs).2.
Lemma merged_backup_opens_witness :
  ∃ es, unlock (merge_recovery_artifacts full_backup other_backup) pass saved_code
        = Ok (mkUnlockedRecovery (ur_file_key (opened full_backup)) (ur_entry_key (opened full_backup)) saved_code es)
    ∧ ∀ e, e ∈ es ↔ e ∈ ur_entries (opened full_backup) ∨ e ∈ ur_entries (opened other_backup).
Proof.
  apply (merged_backup_opens full_backup other_backup pass saved_code (opened full_backup) (opened other_backup)).
  - vm_compute. reflexivity.
  - apply got_Ok. vm_compute. reflexivity.
  - apply got_Ok. vm_compute. reflexivity.
  - vm_compute. discriminate.
Defined.
Example merged_has_four : length (ba_entries (merge_recovery_artifacts full_backup other_backup)) = 4.
Proof. vm_compute. reflexivity. Qed.

Definition blob : string := match to_base64 full_backup with Ok s => s | _ => "" end.
Definition the_download : Downloaded := mkDownloaded blob 7.
Definition blob_hash : string := match recovery_artifact_blob_sha256_hex blob with Ok h => h | _ => "" end.
Definition tablet : UserSession := mkUserSession "user-1" "tablet" true.
Definition stranger_key : array 32 := num_array 32 666.
Definition stranger_plain : RecoveryWriterHandoffPlain :=
  mkHandoffPlain 1 "user-1" "laptop" "tablet" 0 1000 RECOVERY_WRITER_HANDOFF_PURPOSE 7 blob_hash
    (base64_encode (arr stranger_key)).
Definition no_envelope : RecoveryWriterHandoffEnvelope := mkHandoffEnvelope 0 "" "" "" 0 0 "" 0 "" [] [] [] [] [].
Definition stranger_envelope : RecoveryWriterHandoffEnvelope :=
  match handoff_seal (num_array 32 5) (le_bytes 4 6) (num_array 12 8) stranger_plain
          (HybridPublicKey_to_bytes (hkp_public (toy_pair 3))) (mkSigningKey (num_array 32 99)) with
  | Ok e => e
  | _ => no_envelope
  end.
Lemma stranger_sealed :
  handoff_seal (num_array 32 5) (le_bytes 4 6) (num_array 12 8) stranger_plain
    (HybridPublicKey_to_bytes (hkp_public (toy_pair 3))) (mkSigningKey (num_array 32 99)) = Ok stranger_envelope.
Proof. apply got_Ok. vm_compute. reflexivity. Qed.

Lemma handoff_roundtrip_witness :
  open_and_verify_for stranger_envelope (HybridSecretKey_to_bytes (hkp_secret (toy_pair 3))) "user-1" "tablet" 10
  = Ok stranger_plain.
Proof.
  apply (handoff_roundtrip (num_array 32 3) (le_bytes 4 3) (num_array 32 5) (le_bytes 4 6) (num_array 12 8) stranger_plain
    (toy_pair 3) (mkSigningKey (num_array 32 99)) stranger_envelope 10).
  - reflexivity.
  - by split.
  - exact stranger_sealed.
  - vm_compute. discriminate.
Defined.

Definition turn : AcceptTurn :=
  mkAcceptTurn (Ok (Some the_download)) (num_array 32 55) (num_array 12 56) (Ok tt) (Ok tt) io_fine (Ok tt).
Definition empty_store : WriterStore := mkWriterStore None None None.
Definition fooled : WriterStore :=
  (accept_recovery_writer_handoffs [(stranger_envelope, turn)] (Ok (HybridSecretKey_to_bytes (hkp_secret (toy_pair 3))))
     tablet 10 empty_store).2.
Lemma stranger_becomes_reader_witness :
  ∃ s', accept_recovery_writer_handoffs [(stranger_envelope, turn)]
          (Ok (HybridSecretKey_to_bytes (hkp_secret (toy_pair 3)))) tablet 10 empty_store = (Ok tt, s')
    ∧ load_recovery_writer_material (Ok tt) (Ok tt) tablet s' = Ok (Some stranger_key)
    ∧ ∀ nonces entries a s2, Forall dated entries →
        backup_with_writer nonces entries (Ok tt) (Ok tt) (Ok tt) (Ok tt) tablet s' = (Ok (Some a), s2) →
        ∃ old new, ba_entries a = old ++ new ∧ readable stranger_key new entries.
Proof.
  apply (stranger_becomes_reader (num_array 32 3) (le_bytes 4 3) (num_array 32 5) (le_bytes 4 6) (num_array 12 8)
    (toy_pair 3) (mkSigningKey (num_array 32 99)) stranger_plain stranger_envelope stranger_key the_download
    (match from_base64 blob with Ok a => a | _ => no_artifact end) blob_hash tablet 10 turn empty_store).
  - reflexivity.
  - by split.
  - reflexivity.
  - reflexivity.
  - reflexivity.
  - reflexivity.
  - reflexivity.
  - exact stranger_sealed.
  - vm_compute. discriminate.
  - reflexivity.
  - vm_compute. discriminate.
  - reflexivity.
  - apply got_Ok. vm_compute. reflexivity.
  - apply got_Ok. vm_compute. reflexivity.
  - reflexivity.
  - reflexivity.
  - reflexivity.
  - reflexivity.
Defined.
(** The backup that is uploaded next: the stranger reads the new key, and the owner can no
    longer open the backup at all. *)
Definition uploaded : BackupArtifact :=
  match (backup_with_writer some_nonces [epoch_entry 4 14] (Ok tt) (Ok tt) (Ok tt) (Ok tt) tablet fooled).1 with
  | Ok (Some a) => a
  | _ => no_artifact
  end.
Definition keys_read (r : res string (list BackupEntryPlain)) : option (list string) :=
  match r with Ok l => Some (be_encryption_key_b64 <$> l) | _ => None end.
Theorem stranger_reads :
  keys_read (decrypt_all (drop 3 (ba_entries uploaded)) stranger_key) = Some [be_encryption_key_b64 (epoch_entry 4 14)]
  ∧ keys_read (decrypt_entries uploaded pass saved_code) = None.
Proof. split; vm_compute; reflexivity. Qed.
End HandoffExamples.
