(* ===== verification/Authority.v ===== *)
(** * Authority: licences, device actions and saved-code credentials
      ([crates/client/src/entitlement.rs], [crates/client/src/local_write_access.rs],
      [crates/messages/src/device_actions.rs], [crates/client/src/device_actions.rs],
      [crates/messages/src/recovery_credentials.rs], [crates/client/src/saved_code_transport.rs])

    A Team licence is a token that the server signs; whether a device may write to a group is
    decided from it.  A sensitive action of a device is authorised by signing a challenge of the
    server, which the client checks against what it means to do.  A saved code is turned into a
    signing key whose public half the account pins.

    What the server answers and the clock are arguments; base64 and the JSON of a token are
    classes. *)

From Stdlib Require Import Strings.Byte Strings.Ascii.
From stdpp Require Import base tactics numbers sets list gmap strings pretty option.
From S2P Require Import Prelude StateError Crypto EpochState CutoverMessages FilePath Storage HybridKem Json Pinning.
From S2P Require Import JoinCards WelcomeTrust Backup.
Open Scope hc_scope.

(** ** Text *)

Fixpoint strip_chars (c : ascii) (s : string) : string :=
  match s with
  | String a s' => if decide (a = c) then strip_chars c s' else s
  | EmptyString => ""
  end.
(** [trim_end_matches] of a character, and of a text that is not empty. *)
Definition trim_end_char (c : ascii) (s : string) : string := String.rev (strip_chars c (String.rev s)).
Fixpoint strip_all (fuel : nat) (p s : string) : string :=
  match fuel with
  | O => s
  | S fuel => match strip_prefix p s with Some s => strip_all fuel p s | None => s end
  end.
(** Every turn makes the text shorter. *)
Definition trim_end_str (p s : string) : string :=
  String.rev (strip_all (String.length s) (String.rev p) (String.rev s)).

(** ** Licences ([entitlement.rs]) *)

Record Claims := mkClaims {
  cl_iss : string;
  cl_aud : string;
  cl_sub : string;
  cl_organization_id : string;
  cl_plan : string;
  cl_team : bool;
  cl_max_members : N;
  cl_entitlement_version : Z;
  cl_iat : Z;
  cl_exp : Z;
}.
#[export] Instance Claims_eq_dec : EqDecision Claims.
Proof. solve_decision. Defined.
Record Header := mkHeader { hd_alg : string; hd_typ : string; hd_kid : string }.
Record TrustedKey := mkTrustedKey { tk_kid : string; tk_key : VerifyingKey }.

Definition AUDIENCE : string := "hybridcipher-desktop-cli".
Definition TOKEN_TYPE : string := "hc-entitlement+jwt".
Definition OFFLINE_VALIDITY_SECONDS : Z := 30 * 24 * 60 * 60.

(** [URL_SAFE_NO_PAD]. *)
Class Base64Url := {
  b64u_encode : bytes → string;
  b64u_decode : string → option bytes;
}.
Definition not_dot (a : ascii) : bool := negb (bool_decide (a = "."%char)).
Class Base64UrlLaws `{Base64Url} : Prop := {
  b64u_decode_encode b : b64u_decode (b64u_encode b) = Some b;
  b64u_no_dot b : string_all not_dot (b64u_encode b) = true;
}.
Class TokenJson := {
  header_to_vec : Header → res string bytes;
  header_from_slice : bytes → res string Header;
  claims_to_vec : Claims → res string bytes;
  claims_from_slice : bytes → res string Claims;
}.
Class TokenJsonLaws `{TokenJson} : Prop := {
  header_from_to h b : header_to_vec h = Ok b → header_from_slice b = Ok h;
  claims_from_to c b : claims_to_vec c = Ok b → claims_from_slice b = Ok c;
  header_to_vec_total h : ∃ b, header_to_vec h = Ok b;
  claims_to_vec_total c : ∃ b, claims_to_vec c = Ok b;
}.

Definition I64_MAX : Z := 2 ^ 63 - 1.
Definition I64_MIN : Z := - 2 ^ 63.
Definition i64_saturating_add (a b : Z) : Z := Z.max I64_MIN (Z.min I64_MAX (a + b)).
Definition i64_checked_sub (a b : Z) : option Z :=
  if decide (I64_MIN <= a - b <= I64_MAX)%Z then Some (a - b)%Z else None.

Section Entitlement.
Context {ed : Ed25519} {bu : Base64Url} {tj : TokenJson}.

Definition entitlement_sign (claims : Claims) (kid : string) (key : SigningKey) : res string string :=
  if bool_decide (kid = ""%string) || bool_decide (cl_aud claims ≠ AUDIENCE) || bool_decide (cl_plan claims ≠ "team"%string)
     || negb (cl_team claims)
  then Err "Invalid Team entitlement claims"%string
  else
    let? header := header_to_vec (mkHeader "EdDSA" TOKEN_TYPE kid) in
    let? payload := claims_to_vec claims in
    let signing_input := b64u_encode header +:+ "." +:+ b64u_encode payload in
    let? signature := map_err CryptoError_display (SigningKey_sign key (bytes_of signing_input)) in
    Ok (signing_input +:+ "." +:+ b64u_encode (arr (Signature_to_bytes signature))).

(** The conditions on the claims. *)
Definition claims_acceptable (c : Claims) (expected_issuer expected_user : string) (now : Z) (allow_expired : bool)
  : bool :=
  negb (bool_decide (trim_end_char "/" (cl_iss c) ≠ trim_end_char "/" expected_issuer)
        || bool_decide (cl_aud c ≠ AUDIENCE) || bool_decide (cl_sub c ≠ expected_user)
        || bool_decide (cl_plan c ≠ "team"%string) || negb (cl_team c) || bool_decide (cl_organization_id c = ""%string)
        || (cl_max_members c =? 0)%N || (cl_entitlement_version c <? 1)%Z
        || (i64_saturating_add now 300 <? cl_iat c)%Z || (negb allow_expired && (cl_exp c <=? now)%Z)
        || (cl_exp c <=? cl_iat c)%Z
        || match i64_checked_sub (cl_exp c) (cl_iat c) with
           | None => true
           | Some duration => (OFFLINE_VALIDITY_SECONDS <? duration)%Z
           end).

Definition verify_with_expiry (token : string) (keys : list TrustedKey) (expected_issuer expected_user : string)
    (now : Z) (allow_expired : bool) : res string Claims :=
  match split_on (is_char ".") token with
  | [header; payload; signature] =>
      let? decoded := ok_or (b64u_decode header) "Invalid entitlement header"%string in
      let? decoded_header := map_err (λ _, "Invalid entitlement header"%string) (header_from_slice decoded) in
      if bool_decide (hd_alg decoded_header ≠ "EdDSA"%string) || bool_decide (hd_typ decoded_header ≠ TOKEN_TYPE)
      then Err "Wrong entitlement signature type"%string
      else
        let? key := ok_or (snd <$> list_find (λ k, tk_kid k = hd_kid decoded_header) keys)
                      "Unknown entitlement signing key"%string in
        let? signature_bytes := ok_or (b64u_decode signature) "Invalid entitlement signature"%string in
        let? signature := map_err (λ _, "Invalid entitlement signature"%string) (Signature_from_bytes signature_bytes) in
        let? _ := map_err (λ _, "Invalid entitlement signature"%string)
                    (VerifyingKey_verify (tk_key key) (bytes_of (header +:+ "." +:+ payload)) signature) in
        let? decoded_payload := ok_or (b64u_decode payload) "Invalid entitlement payload"%string in
        let? claims := map_err (λ _, "Invalid entitlement payload"%string) (claims_from_slice decoded_payload) in
        if negb (claims_acceptable claims expected_issuer expected_user now allow_expired)
        then Err "Entitlement is expired or is for another account or server"%string
        else Ok claims
  | _ => Err "Malformed entitlement"%string
  end.
Definition entitlement_verify (token : string) (keys : list TrustedKey) (issuer user : string) (now : Z) :=
  verify_with_expiry token keys issuer user now false.
Definition verify_for_existing_data (token : string) (keys : list TrustedKey) (issuer user : string) (now : Z) :=
  verify_with_expiry token keys issuer user now true.

(** [value] is what the build was given. *)
Definition split_once (c : ascii) (s : string) : option (string * string) :=
  match split_on (is_char c) s with
  | part :: rest => match rest with [] => None | _ => Some (part, String.concat (String c "") rest) end
  | [] => None
  end.
Definition trusted_key (entry : string) : res string TrustedKey :=
  let? (kid, encoded) := ok_or (split_once ":" entry) "Malformed entitlement public key"%string in
  let? bytes := ok_or (b64u_decode encoded) "Malformed entitlement public key"%string in
  let? key := map_err (λ _, "Malformed entitlement public key"%string) (VerifyingKey_from_bytes bytes) in
  Ok (mkTrustedKey kid key).
Fixpoint collect_keys (entries : list string) : res string (list TrustedKey) :=
  match entries with
  | [] => Ok []
  | entry :: entries => let? key := trusted_key entry in let? keys := collect_keys entries in Ok (key :: keys)
  end.
Definition trusted_keys_from_build (value : option string) : res string (list TrustedKey) :=
  match value with
  | None => Ok []
  | Some value => collect_keys (filter (λ entry, entry ≠ ""%string) (split_on (is_char ",") value))
  end.
End Entitlement.

(** ** Writing to a group ([local_write_access.rs]) *)

Record LocalWriteAccess := mkLocalWriteAccess {
  wa_issuer : string;
  wa_user_id : string;
  wa_entitlement : option string;
  wa_revoked : bool;
}.
Record CachedGroup := mkCachedGroup {
  cg_organization_id : option string;
  cg_organization_known : bool;
  cg_role : option string;
}.

Section WriteAccess.
Context {ed : Ed25519} {bu : Base64Url} {tj : TokenJson} {uuid : UuidText}.

(** The error is the text of [InvalidState]. *)
Definition check_group (a : LocalWriteAccess) (organization_id role : option string) (keys : list TrustedKey) (now : Z)
  : res string unit :=
  if match role with
     | Some role => negb (bool_decide (role ∈ ["admin"; "owner"; "member"]%string))
     | None => false
     end
  then Err "This group is read-only for this account"%string
  else
    match organization_id with
    | None => Ok tt
    | Some organization_id =>
        if wa_revoked a then Err "Team license has been revoked; existing files remain readable"%string
        else
          let? token := ok_or (wa_entitlement a) "A valid Team entitlement is required to write to this group"%string in
          let? claims := map_err (λ e, "Team entitlement expired or invalid: " +:+ e)
                           (entitlement_verify token keys (wa_issuer a) (wa_user_id a) now) in
          if decide (cl_organization_id claims ≠ organization_id)
          then Err "Team entitlement belongs to another organization"%string
          else Ok tt
    end.
Definition check_cached_group (a : LocalWriteAccess) (cache : gmap string CachedGroup) (group_id : Uuid)
    (keys : list TrustedKey) (now : Z) : res string unit :=
  let otherwise := if bool_decide (wa_entitlement a = None) && negb (wa_revoked a) then Ok tt
                   else Err "Group workspace is unknown; sign in and refresh the group list before writing"%string in
  match cache !! uuid_to_string group_id with
  | Some group => if cg_organization_known group then check_group a (cg_organization_id group) (cg_role group) keys now
                  else otherwise
  | None => otherwise
  end.
End WriteAccess.

(** ** Device actions ([messages/src/device_actions.rs]) *)

Inductive DeviceAction :=
| Revoke | VerifyFingerprint | ApproveWelcome | RotateInvitation | ConfirmRecovery | ManageRecoveryCredential
| CompleteSavedCodeRecovery | UpdateRecoveryArtifact | RepairPersonalWorkspace | AdminRevoke.
#[export] Instance DeviceAction_eq_dec : EqDecision DeviceAction.
Proof. solve_decision. Defined.
(** [rename_all = "snake_case"]. *)
Definition action_name (a : DeviceAction) : string :=
  match a with
  | Revoke => "revoke"
  | VerifyFingerprint => "verify_fingerprint"
  | ApproveWelcome => "approve_welcome"
  | RotateInvitation => "rotate_invitation"
  | ConfirmRecovery => "confirm_recovery"
  | ManageRecoveryCredential => "manage_recovery_credential"
  | CompleteSavedCodeRecovery => "complete_saved_code_recovery"
  | UpdateRecoveryArtifact => "update_recovery_artifact"
  | RepairPersonalWorkspace => "repair_personal_workspace"
  | AdminRevoke => "admin_revoke"
  end.

Record DeviceActionChallenge := mkDeviceActionChallenge {
  dc_challenge_id : string;
  dc_actor_user_id : string;
  dc_actor_device_id : string;
  dc_actor_identity_key_sha256 : string;
  dc_server_url : string;
  dc_action : DeviceAction;
  dc_target_device_id : string;
  dc_target_identity_key_sha256 : string;
  dc_payload_sha256 : string;
  dc_expires_at : Z;
  dc_nonce : string;
}.

(** An [i64] in JSON. *)
Definition value_i64 (z : Z) : Value := VNumber (if (z <? 0)%Z then NegInt z else PosInt (Z.to_N z)).
(** [serde_json::to_value] of a challenge. *)
Definition challenge_value (c : DeviceActionChallenge) : Value :=
  json_object [("challenge_id", VString (dc_challenge_id c)); ("actor_user_id", VString (dc_actor_user_id c));
    ("actor_device_id", VString (dc_actor_device_id c));
    ("actor_identity_key_sha256", VString (dc_actor_identity_key_sha256 c)); ("server_url", VString (dc_server_url c));
    ("action", VString (action_name (dc_action c))); ("target_device_id", VString (dc_target_device_id c));
    ("target_identity_key_sha256", VString (dc_target_identity_key_sha256 c));
    ("payload_sha256", VString (dc_payload_sha256 c)); ("expires_at", value_i64 (dc_expires_at c));
    ("nonce", VString (dc_nonce c))]%string.

(** [canonical_json_bytes]: the keys of a map come sorted, and are inserted into a new map. *)
Fixpoint sorted (v : Value) : Value :=
  match v with
  | VObject m =>
      VObject ((fix go (m : list (string * Value)) (acc : list (string * Value)) :=
                  match m with [] => acc | (k, x) :: m => go m (obj_insert k (sorted x) acc) end) m [])
  | VArray l => VArray ((fix go (l : list Value) := match l with [] => [] | x :: l => sorted x :: go l end) l)
  | _ => v
  end.

Definition DOMAIN_ACTION : bytes := bytes_of "hybridcipher/device-action/v1" ++ [x0a].
Definition DOMAIN_LOGIN : bytes := bytes_of "hybridcipher/login-device-proof/v1" ++ [x0a].

(** [login_device_proof_payload]. *)
Definition login_device_proof_payload (login_id user_id device_id : string) : bytes :=
  DOMAIN_LOGIN ++ length_prefixed login_id ++ length_prefixed user_id ++ length_prefixed device_id.

Section Actions.
Context {ed : Ed25519} {sha : Sha256} {hex : Hex} {sj : SerdeJson} {uuid : UuidText} {b64 : Base64}.

Definition canonical_json_bytes (v : Value) : res string bytes := json_to_vec (sorted v).
Definition device_action_payload_sha256 (v : Value) : res string string :=
  let? bytes := canonical_json_bytes v in Ok (hex_encode (arr (sha256 bytes))).
Definition challenge_signing_payload (c : DeviceActionChallenge) : res string bytes :=
  let? bytes := canonical_json_bytes (challenge_value c) in Ok (DOMAIN_ACTION ++ bytes).

(** ** Checking and signing a challenge ([client/src/device_actions.rs]) *)

Record DeviceActionContext := mkDeviceActionContext {
  dx_server_url : string;
  dx_user_id : string;
  dx_device_id : string;
}.
Record DeviceActionProof := mkDeviceActionProof { dp_challenge_id : string; dp_signature : string }.

Definition LIFETIME_SECONDS : Z := 300.
Definition CLOCK_SKEW_SECONDS : Z := 30.

Definition api_base (server_url : string) : string :=
  trim_end_str "/api/v1" (trim_end_char "/" server_url) +:+ "/api/v1".

Definition device_invitation_rotation_payload (invitation_public identity_public : bytes) (self_welcome_messages : Value)
  : res string Value :=
  match self_welcome_messages with
  | VArray _ =>
      Ok (json_object [("invitation_public_key", VString (hex_encode invitation_public));
                       ("identity_public_key", VString (hex_encode identity_public));
                       ("self_welcome_messages", self_welcome_messages)]%string)
  | _ => Err "Self Welcome messages must be an array."%string
  end.

Definition validate_device_action_challenge (c : DeviceActionChallenge) (x : DeviceActionContext) (identity_public : bytes)
    (action : DeviceAction) (target_device_id : string) (target_identity_sha256 : option string) (payload : Value)
    (now : Z) : res string unit :=
  let? digest := device_action_payload_sha256 payload in
  if bool_decide (dc_actor_user_id c ≠ dx_user_id x) || bool_decide (dc_actor_device_id c ≠ dx_device_id x)
     || bool_decide (api_base (dc_server_url c) ≠ api_base (dx_server_url x))
     || bool_decide (dc_actor_identity_key_sha256 c ≠ hex_encode (arr (sha256 identity_public)))
     || bool_decide (dc_action c ≠ action) || bool_decide (dc_target_device_id c ≠ target_device_id)
     || bool_decide (dc_payload_sha256 c ≠ digest)
     || match target_identity_sha256 with
        | Some expected => bool_decide (dc_target_identity_key_sha256 c ≠ expected)
        | None => false
        end
     || negb (is_some (uuid_parse_str (dc_challenge_id c)))
     || match hex_decode (dc_nonce c) with Some nonce => negb (length nonce =? 32) | None => true end
     || match hex_decode (dc_target_identity_key_sha256 c) with
        | Some digest => negb (length digest =? 32)
        | None => true
        end
  then Err "Device authorization challenge does not match this account, device, or action."%string
  else if (dc_expires_at c <=? now)%Z
  then Err "Device authorization challenge has expired. Retry the operation."%string
  else if (i64_saturating_add now (LIFETIME_SECONDS + CLOCK_SKEW_SECONDS) <? dc_expires_at c)%Z
  then Err ("Device authorization challenge expiry is too far in the future. Check your device's date and time, "
              +:+ "then retry.")
  else Ok tt.

(** [answer] is what the server says to the request, read as a challenge. *)
Definition request_action_challenge (answer : res string DeviceActionChallenge) (identity : Ed25519KeyPair)
    (x : DeviceActionContext) (action : DeviceAction) (target_device_id : string)
    (target_identity_sha256 : option string) (payload : Value) (now : Z) : res string DeviceActionChallenge :=
  let? _ := device_action_payload_sha256 payload in
  let? challenge := answer in
  let? _ := validate_device_action_challenge challenge x (public_key_bytes identity) action target_device_id
              target_identity_sha256 payload now in
  Ok challenge.
Definition signed_device_action (answer : res string DeviceActionChallenge) (identity : Ed25519KeyPair)
    (x : DeviceActionContext) (action : DeviceAction) (target_device_id : string)
    (target_identity_sha256 : option string) (payload : Value) (now : Z) : res string DeviceActionProof :=
  let? challenge := request_action_challenge answer identity x action target_device_id target_identity_sha256 payload now in
  let? transcript := challenge_signing_payload challenge in
  let? signature := KeyPair_sign_bytes identity transcript in
  Ok (mkDeviceActionProof (dc_challenge_id challenge) (base64_encode signature)).
Definition signed_recovery_device_action (answer : res string DeviceActionChallenge)
    (identity recovery_identity : Ed25519KeyPair) (x : DeviceActionContext) (action : DeviceAction) (payload : Value)
    (now : Z) : res string (DeviceActionProof * string) :=
  let identity_hash := hex_encode (arr (sha256 (public_key_bytes identity))) in
  let? challenge := request_action_challenge answer identity x action (dx_device_id x) (Some identity_hash) payload now in
  let? transcript := challenge_signing_payload challenge in
  let? recovery_signature := KeyPair_sign_bytes recovery_identity transcript in
  let? signature := KeyPair_sign_bytes identity transcript in
  Ok (mkDeviceActionProof (dc_challenge_id challenge) (base64_encode signature), base64_encode recovery_signature).

(** ** Saved-code credentials ([recovery_credentials.rs], [saved_code_transport.rs]) *)

Record RecoveryCredential := mkRecoveryCredential {
  rc_credential_id : string;
  rc_generation : N;
  rc_salt_b64 : string;
  rc_public_key_b64 : string;
  rc_recovery_envelope_sha256 : string;
}.
Definition recovery_signing_context (user_id : string) (c : RecoveryCredential) : res string bytes :=
  canonical_json_bytes (json_object [("purpose", VString "hybridcipher/saved-code-signing/v1");
    ("user_id", VString user_id); ("credential_id", VString (rc_credential_id c));
    ("generation", VNumber (PosInt (rc_generation c)))]%string).

(** The loop over the five fields. *)
Fixpoint envelope_fields (fields : list string) (artifact : Value) (envelope : list (string * Value))
  : res string (list (string * Value)) :=
  match fields with
  | [] => Ok envelope
  | field :: fields =>
      let? value := ok_or (value_get field artifact) ("Backup envelope is missing " +:+ field) in
      envelope_fields fields artifact (obj_insert field value envelope)
  end.
Definition recovery_envelope_sha256 (artifact : Value) : res string string :=
  let? envelope := envelope_fields ["k1_salt_b64"; "k2_salt_b64"; "hkdf_salt_b64"; "k1_wrapped"; "k2_wrapped"]%string
                     artifact [] in
  let? bytes := canonical_json_bytes (VObject envelope) in
  Ok (hex_encode (arr (sha256 bytes))).

Section Credential.
Context {hk : Hkdf}.
(** [Ed25519KeyPair::from_bytes] of a seed. *)
Definition recovery_signing_identity (raw_code : bytes) (user_id : string) (c : RecoveryCredential)
  : res string Ed25519KeyPair :=
  if bool_decide (length raw_code ≠ 32) || (rc_generation c =? 0)%N || negb (is_some (uuid_parse_str (rc_credential_id c)))
  then Err "Recovery credential is invalid"%string
  else
    let? salt := ok_or (base64_decode (rc_salt_b64 c)) "Recovery salt is invalid"%string in
    if decide (length salt ≠ 32) then Err "Recovery salt is invalid"%string
    else
      let? info := recovery_signing_context user_id c in
      let? seed := map_err (λ _, "Recovery key derivation failed"%string) (hkdf_okm (hkdf_prk (Some salt) raw_code) info 32) in
      let? seed := unwrap (array_of 32 seed) in
      let key := mkSigningKey seed in
      Ok (mkEd25519KeyPair key (SigningKey_verifying_key key)).

(** The credential that [enroll_recovery_credential] installs. *)
Definition enrolled_credential (salt : array 32) (new_id : Uuid) (user_id : string) (raw_code : bytes) (artifact : Value)
    (previous : option RecoveryCredential) : res string RecoveryCredential :=
  let? generation := match previous with
                     | None => Ok 1%N
                     | Some value => ok_or (u64_checked_add (rc_generation value) 1)
                                       "Recovery credential generation exhausted"%string
                     end in
  let? digest := recovery_envelope_sha256 artifact in
  let credential pk := mkRecoveryCredential (uuid_to_string new_id) generation (base64_encode (arr salt)) pk digest in
  let? signing := recovery_signing_identity raw_code user_id (credential ""%string) in
  Ok (credential (base64_encode (public_key_bytes signing))).
(** The first check of [authorize_saved_code_recovery]. *)
Definition code_matches_credential (raw_code : bytes) (user_id : string) (c : RecoveryCredential)
  : res string Ed25519KeyPair :=
  let? recovery_identity := recovery_signing_identity raw_code user_id c in
  if decide (base64_encode (public_key_bytes recovery_identity) ≠ rc_public_key_b64 c)
  then Err "Recovery code does not match the account's recovery credential"%string
  else Ok recovery_identity.
End Credential.
End Actions.

(** ** Reversed text *)

Lemma rev_app_spec s t : String.rev_app s t = String.rev s +:+ t.
Proof.
  unfold String.rev. revert t. induction s as [|a s IH]; intros t; [done|]. cbn [String.rev_app].
  rewrite (IH (String a t)), (IH (String a "")), string_app_assoc. done.
Qed.
Lemma rev_cons a s : String.rev (String a s) = String.rev s +:+ String a "".
Proof. unfold String.rev at 1. cbn [String.rev_app]. apply rev_app_spec. Qed.
Lemma rev_append s t : String.rev (s +:+ t) = String.rev t +:+ String.rev s.
Proof.
  induction s as [|a s IH]; [change (String.rev t = String.rev t +:+ ""); by rewrite string_app_nil_r|].
  by rewrite string_app_cons, !rev_cons, IH, string_app_assoc.
Qed.
Lemma rev_involutive s : String.rev (String.rev s) = s.
Proof. induction s as [|a s IH]; [done|]. by rewrite rev_cons, rev_append, IH. Qed.

Lemma strip_prefix_length p s t : strip_prefix p s = Some t → String.length s = String.length p + String.length t.
Proof.
  revert s. induction p as [|a p IH]; intros s E; cbn in E; [by injection E as ->|].
  destruct s as [|b s]; [done|]. destruct (decide (a = b)); [|done]. cbn. by rewrite (IH s E).
Qed.
Lemma strip_all_done fuel p s :
  p ≠ ""%string → String.length s ≤ fuel → strip_prefix p (strip_all fuel p s) = None.
Proof.
  intros P. revert s. induction fuel as [|fuel IH]; intros s L; cbn [strip_all].
  - destruct s; [|cbn in L; lia]. by destruct p.
  - destruct (strip_prefix p s) as [t|] eqn:E; [|done]. apply IH. apply strip_prefix_length in E.
    destruct p; [done|]. cbn in E. lia.
Qed.

(** The address of the interface is the same however the server is written: with or without
    the path of the interface and slashes at the end; and taking it twice changes nothing. *)
Theorem api_base_idempotent url : api_base (api_base url) = api_base url.
Proof.
  unfold api_base. set (t := trim_end_str "/api/v1" (trim_end_char "/" url)).
  assert (strip_prefix (String.rev "/api/v1") (String.rev t) = None) as N.
  { subst t. unfold trim_end_str. rewrite rev_involutive. apply strip_all_done; [done|].
    assert (∀ s, String.length (String.rev s) = String.length s) as ->; [|done].
    induction s as [|a s IH]; [done|]. rewrite rev_cons.
    assert (∀ a b, String.length (a +:+ b) = String.length a + String.length b) as ->; [|cbn; lia].
    induction a0 as [|x a0 IH']; intros b; [done|]. rewrite string_app_cons. cbn. by rewrite IH'. }
  assert (trim_end_char "/" (t +:+ "/api/v1") = t +:+ "/api/v1") as ->.
  { unfold trim_end_char. rewrite rev_append. change (String.rev "/api/v1") with "1v/ipa/"%string.
    rewrite string_app_cons. cbn [strip_chars]. rewrite decide_False by done.
    rewrite <-string_app_cons. change "1v/ipa/"%string with (String.rev "/api/v1"). by rewrite <-rev_append, rev_involutive. }
  f_equal. unfold trim_end_str. rewrite rev_append.
  assert (∀ n, String.length (t +:+ "/api/v1") = n → ∃ k, n = S (S k)) as L.
  { intros n <-. destruct t as [|a [|b t]]; rewrite ?string_app_cons; cbn; eauto. }
  destruct (L _ eq_refl) as [k ->]. cbn [strip_all]. rewrite strip_prefix_app, N. apply rev_involutive.
Qed.

(** ** Licences *)

Section EntitlementTheorems.
Context {ed : Ed25519} {bu : Base64Url} {tj : TokenJson}.

Lemma is_dot s : string_all not_dot s = true → string_all (λ a, negb (is_char "." a)) s = true.
Proof. done. Qed.
Lemma split_three h p s :
  string_all not_dot h = true → string_all not_dot p = true → string_all not_dot s = true →
  split_on (is_char ".") ((h +:+ "." +:+ p) +:+ "." +:+ s) = [h; p; s].
Proof.
  intros H P S. rewrite string_app_assoc, (string_app_assoc "." p).
  change (split_on (is_char ".") (String.concat (String "." "") [h; p; s]) = [h; p; s]).
  apply split_on_concat; [done|done|]. by repeat constructor.
Qed.

(** What the server signs, a client that trusts its key accepts, exactly when the claims are
    acceptable: nothing else of the token is looked at. *)
Theorem entitlement_roundtrip {edl : Ed25519Laws} {bul : Base64UrlLaws} {tjl : TokenJsonLaws}
    claims kid key token keys i issuer user now allow_expired :
  entitlement_sign claims kid key = Ok token →
  list_find (λ k, tk_kid k = kid) keys = Some (i, mkTrustedKey kid (SigningKey_verifying_key key)) →
  verify_with_expiry token keys issuer user now allow_expired
  = if claims_acceptable claims issuer user now allow_expired then Ok claims
    else Err "Entitlement is expired or is for another account or server"%string.
Proof.
  intros E F. unfold entitlement_sign in E. destruct (_ || _) in E; [done|].
  apply res_bind_Ok in E as (hb & HB & E). apply res_bind_Ok in E as (pb & PB & E).
  apply res_bind_Ok in E as (sig & S & E). apply map_err_Ok in S. apply Ok_inj in E as <-.
  unfold verify_with_expiry. rewrite split_three by apply b64u_no_dot. rewrite !b64u_decode_encode. cbn [ok_or res_bind].
  rewrite (header_from_to _ _ HB). cbn [map_err res_bind hd_alg hd_typ hd_kid].
  rewrite !bool_decide_eq_false_2 by (intros X; by apply X). cbn [orb]. rewrite F. cbn [fmap option_fmap option_map snd ok_or res_bind tk_key].
  rewrite (Signature_from_to_bytes _ _ _ S). cbn [map_err res_bind]. rewrite (sign_verify _ _ _ S). cbn [map_err res_bind].
  rewrite (claims_from_to _ _ PB). cbn [map_err res_bind]. by destruct (claims_acceptable _ _ _ _ _).
Qed.

Lemma claims_acceptable_spec c issuer user now ae :
  claims_acceptable c issuer user now ae = true →
  cl_sub c = user ∧ cl_aud c = AUDIENCE ∧ cl_team c = true ∧ cl_organization_id c ≠ ""%string
  ∧ trim_end_char "/" (cl_iss c) = trim_end_char "/" issuer
  ∧ (ae = false → (now < cl_exp c)%Z) ∧ (cl_iat c < cl_exp c <= cl_iat c + OFFLINE_VALIDITY_SECONDS)%Z
  ∧ (cl_iat c <= i64_saturating_add now 300)%Z.
Proof.
  unfold claims_acceptable. rewrite negb_true_iff, !orb_false_iff, !bool_decide_eq_false.
  intros (((((((((((I & A) & S) & P) & T) & O) & M) & V) & IA) & EX) & LT) & D).
  apply dec_stable in I, A, S, P. apply negb_false_iff in T. unfold i64_checked_sub in D.
  case_decide as R; [|done]. apply Z.ltb_ge in IA, D. apply Z.leb_gt in LT.
  split_and!; try done; [|lia]. intros ->. cbn in EX. by apply Z.leb_gt in EX.
Qed.

(** C32: An accepted licence was signed by a trusted key, is for this user and server, has not
    expired, and ends at most thirty days and five minutes from now, whatever the server put
    into it. *)
Theorem entitlement_bounded token keys issuer user now c :
  (I64_MIN <= now <= I64_MAX - 300)%Z → entitlement_verify token keys issuer user now = Ok c →
  cl_sub c = user ∧ cl_organization_id c ≠ ""%string ∧ (now < cl_exp c)%Z
  ∧ (cl_exp c <= now + 300 + OFFLINE_VALIDITY_SECONDS)%Z
  ∧ ∃ header payload signature k sb s, split_on (is_char ".") token = [header; payload; signature]
    ∧ k ∈ keys ∧ b64u_decode signature = Some sb ∧ Signature_from_bytes sb = Ok s
    ∧ VerifyingKey_verify (tk_key k) (bytes_of (header +:+ "." +:+ payload)) s = Ok tt.
Proof.
  intros NW E. unfold entitlement_verify, verify_with_expiry in E.
  destruct (split_on _ token) as [|h [|p [|s [|]]]] eqn:SP; try done.
  apply res_bind_Ok in E as (d & _ & E). apply res_bind_Ok in E as (hd & _ & E). destruct (_ || _) in E; [done|].
  apply res_bind_Ok in E as (k & K & E). apply res_bind_Ok in E as (sb & SB & E). apply res_bind_Ok in E as (sg & SG & E).
  apply res_bind_Ok in E as ([] & V & E). apply res_bind_Ok in E as (dp & _ & E). apply res_bind_Ok in E as (c' & _ & E).
  apply ok_or_Ok in SB. apply map_err_Ok in SG, V.
  destruct (claims_acceptable c' issuer user now false) eqn:A; [|done]. cbn [negb] in E. apply Ok_inj in E as ->.
  apply claims_acceptable_spec in A as (S1 & _ & _ & O & _ & X & B & IA). specialize (X eq_refl).
  unfold i64_saturating_add, I64_MAX, I64_MIN in *. split_and!; [done|done|done|lia|].
  exists h, p, s, k, sb, sg. split_and!; try done.
  apply ok_or_Ok in K. destruct (list_find _ keys) as [[i k']|] eqn:F; [|done]. cbn in K. injection K as ->.
  apply list_find_Some in F as (F & _). by apply list_elem_of_lookup_2 in F.
Qed.
End EntitlementTheorems.

(** ** Writing to a group *)

Section WriteTheorems.
Context {ed : Ed25519} {bu : Base64Url} {tj : TokenJson} {uuid : UuidText}.

(** When a write is allowed.  In a group that is known to belong to a team: the role is not a
    reader's, the licence is not revoked, and there is one that verifies now and is for the
    same organisation.  In a known personal group: the role is not a reader's.  In an unknown
    group: the account has never had a licence. *)
Definition may_write (a : LocalWriteAccess) (cache : gmap string CachedGroup) (group_id : Uuid)
    (keys : list TrustedKey) (now : Z) : Prop :=
  match cache !! uuid_to_string group_id with
  | Some (mkCachedGroup org true role) =>
      (∀ r, role = Some r → r ∈ ["admin"; "owner"; "member"]%string)
      ∧ (∀ o, org = Some o → wa_revoked a = false ∧ ∃ token c, wa_entitlement a = Some token
           ∧ entitlement_verify token keys (wa_issuer a) (wa_user_id a) now = Ok c ∧ cl_organization_id c = o)
  | _ => wa_entitlement a = None ∧ wa_revoked a = false
  end.
End WriteTheorems.

(** ** Canonical JSON *)

Lemma ascii_compare_trans a b c : Ascii.compare a b = Lt → Ascii.compare b c = Lt → Ascii.compare a c = Lt.
Proof. unfold Ascii.compare. rewrite !N.compare_lt_iff. lia. Qed.
Lemma ascii_compare_eq a b : Ascii.compare a b = Eq → a = b.
Proof.
  unfold Ascii.compare. intros E%N.compare_eq_iff. by rewrite <-(Ascii.ascii_N_embedding a), <-(Ascii.ascii_N_embedding b), E.
Qed.
Lemma compare_trans s t u : String.compare s t = Lt → String.compare t u = Lt → String.compare s u = Lt.
Proof.
  revert t u. induction s as [|a s IH]; intros [|b t] [|c u] H1 H2; try done. cbn in *.
  destruct (Ascii.compare a b) eqn:AB; try done.
  - apply ascii_compare_eq in AB as ->. destruct (Ascii.compare b c) eqn:BC; try done. by eapply IH.
  - destruct (Ascii.compare b c) eqn:BC; try done.
    + apply ascii_compare_eq in BC as ->. by rewrite AB.
    + by rewrite (ascii_compare_trans _ _ _ AB BC).
Qed.

Lemma sorted_keys_last m k v : sorted_keys (m ++ [(k, v)]) = true → Forall (λ kv, String.compare kv.1 k = Lt) m.
Proof.
  induction m as [|[k1 v1] m IH]; intros S; [done|].
  assert (sorted_keys (m ++ [(k, v)]) = true ∧ ∀ k2 v2 r, m ++ [(k, v)] = (k2, v2) :: r → String.compare k1 k2 = Lt) as [S1 L].
  { cbn in S. destruct (m ++ [(k, v)]) as [|[k2 v2] r] eqn:E; [by destruct m|]. apply andb_prop in S as [S1 S2].
    apply bool_decide_eq_true in S1. split; [done|]. by intros ? ? ? [= <- <- <-]. }
  specialize (IH S1). constructor; [|done]. cbn. destruct m as [|[k2 v2] m]; [by eapply L|].
  apply list.Forall_cons in IH as [I _]. cbn in I. eapply compare_trans; [by eapply L|done].
Qed.
Lemma obj_insert_last m k v : sorted_keys (m ++ [(k, v)]) = true → obj_insert k v m = m ++ [(k, v)].
Proof.
  intros S%sorted_keys_last. induction S as [|[k1 v1] m L F IH]; [done|]. cbn in L |- *.
  assert (String.compare k k1 = Gt) as -> by (rewrite String.compare_antisym, L; done). by rewrite IH.
Qed.
Lemma sorted_keys_app m m' : sorted_keys (m ++ m') = true → sorted_keys m = true.
Proof.
  induction m as [|[k v] m IH]; [done|]. intros S. cbn in S |- *. destruct m as [|[k2 v2] m]; [done|].
  apply andb_prop in S as [S1 S2]. rewrite S1. by apply IH.
Qed.

(** Sorting changes nothing in a value whose maps are sorted, as those of the library are. *)
Lemma sorted_id d v : json_safe d v = true → sorted v = v.
Proof.
  revert v. induction d as [|d IH]; intros [| |[]| |l|m] S; try done; cbn in S.
  - cbn [sorted]. f_equal. induction l as [|x l IHl]; [done|]. cbn in S. apply andb_prop in S as [S1 S2].
    rewrite (IH x S1). f_equal. by apply IHl.
  - apply andb_prop in S as [SK F]. cbn [sorted]. f_equal.
    assert (∀ m acc, sorted_keys (acc ++ m) = true → forallb (λ kv, json_safe d kv.2) m = true →
      (fix go (m acc : list (string * Value)) : list (string * Value) :=
         match m with [] => acc | (k, x) :: m => go m (obj_insert k (sorted x) acc) end) m acc = acc ++ m) as G.
    { clear m SK F. induction m as [|[k x] m IHm]; intros acc SK F; [by rewrite app_nil_r|].
      cbn in F. apply andb_prop in F as [F1 F2]. rewrite (IH x F1), obj_insert_last.
      - rewrite IHm; [by rewrite <-app_assoc|by rewrite <-app_assoc|done].
      - apply (sorted_keys_app _ m). by rewrite <-app_assoc. }
    by apply (G m []).
Qed.

Section ActionTheorems.
Context {ed : Ed25519} {sha : Sha256} {hex : Hex} {sj : SerdeJson} {sjl : SerdeJsonLaws} {uuid : UuidText} {b64 : Base64}.

(** The canonical bytes determine the value. *)
Lemma canonical_json_inj v w b :
  json_safe JSON_DEPTH v = true → json_safe JSON_DEPTH w = true →
  canonical_json_bytes v = Ok b → canonical_json_bytes w = Ok b → v = w.
Proof using sjl.
  intros V W. unfold canonical_json_bytes. rewrite (sorted_id _ v V), (sorted_id _ w W). intros E1 E2.
  apply json_from_to_vec in E1; [|done]. apply json_from_to_vec in E2; [|done]. congruence.
Qed.

Definition i64 (z : Z) : Prop := (I64_MIN <= z <= I64_MAX)%Z.
Lemma value_i64_safe z : i64 z → json_safe 0 (value_i64 z) = true.
Proof.
  unfold i64, I64_MIN, I64_MAX, value_i64. intros B. destruct (Z.ltb_spec z 0); cbn [json_safe].
  - apply andb_true_iff. split; [apply Z.leb_le; lia|by apply Z.ltb_lt].
  - apply N.ltb_lt. unfold U64. lia.
Qed.
Lemma value_i64_inj z z' : value_i64 z = value_i64 z' → z = z'.
Proof. unfold value_i64. destruct (Z.ltb_spec z 0), (Z.ltb_spec z' 0); intros E; try discriminate E;
    injection E as E; [done|by apply Z2N.inj].
Qed.
Lemma challenge_safe c : i64 (dc_expires_at c) → json_safe JSON_DEPTH (challenge_value c) = true.
Proof.
  intros I. apply (json_safe_mono 1); [vm_compute; lia|]. unfold challenge_value. apply (json_safe_object 0).
  cbn [forallb snd json_safe]. rewrite !andb_true_r, !andb_true_l. by apply value_i64_safe.
Qed.
Lemma action_name_inj a b : action_name a = action_name b → a = b.
Proof. by destruct a, b. Qed.
Lemma challenge_value_inj c c' : challenge_value c = challenge_value c' → c = c'.
Proof.
  intros E. assert (∀ k, value_get k (challenge_value c) = value_get k (challenge_value c')) as G by (intros k; by rewrite E).
  clear E. pose proof (G "challenge_id"%string) as E1. pose proof (G "actor_user_id"%string) as E2.
  pose proof (G "actor_device_id"%string) as E3. pose proof (G "actor_identity_key_sha256"%string) as E4.
  pose proof (G "server_url"%string) as E5. pose proof (G "action"%string) as E6. pose proof (G "target_device_id"%string) as E7.
  pose proof (G "target_identity_key_sha256"%string) as E8. pose proof (G "payload_sha256"%string) as E9.
  pose proof (G "expires_at"%string) as E10. pose proof (G "nonce"%string) as E11. clear G.
  destruct c, c'. cbv -[action_name value_i64] in E1, E2, E3, E4, E5, E6, E7, E8, E9, E10, E11.
  injection E6 as E6. apply (inj Some) in E10. apply action_name_inj in E6. apply value_i64_inj in E10. by simplify_eq.
Qed.

(** A signature authorises one challenge: what is signed determines all of it. *)
Theorem challenge_payload_binds c c' m :
  i64 (dc_expires_at c) → i64 (dc_expires_at c') →
  challenge_signing_payload c = Ok m → challenge_signing_payload c' = Ok m → c = c'.
Proof using sjl.
  intros I I' E E'. unfold challenge_signing_payload in *. apply res_bind_Ok in E as (b & B & E).
  apply res_bind_Ok in E' as (b' & B' & E'). apply Ok_inj in E as <-. apply Ok_inj in E'. apply (inj (app _)) in E' as ->.
  apply challenge_value_inj. eapply canonical_json_inj; [by apply challenge_safe..|exact B|exact B'].
Qed.

(** The proof of a login determines the login, the user and the device. *)
Theorem login_proof_binds l u d l' u' d' :
  Forall (λ s, (N.of_nat (String.length s) < U64)%N) [l; u; d; l'; u'; d'] →
  login_device_proof_payload l u d = login_device_proof_payload l' u' d' → l = l' ∧ u = u' ∧ d = d'.
Proof.
  intros F E. rewrite !list.Forall_cons in F. destruct F as (F1 & F2 & F3 & F4 & F5 & F6 & _).
  unfold login_device_proof_payload in E. apply (inj (app _)) in E.
  apply length_prefixed_inj in E as [-> E]; [|done..]. apply length_prefixed_inj in E as [-> E]; [|done..].
  rewrite <-(app_nil_r (length_prefixed d)), <-(app_nil_r (length_prefixed d')) in E.
  by apply length_prefixed_inj in E as [-> _].
Qed.

(** A device signs challenges, logins and introductions with one key: no signature for one of
    them passes for another. *)
Theorem signing_domains_apart c m l u d i :
  challenge_signing_payload c = Ok m →
  m ≠ login_device_proof_payload l u d ∧ m ≠ introduction_payload i
  ∧ login_device_proof_payload l u d ≠ introduction_payload i.
Proof.
  intros E. unfold challenge_signing_payload in E. apply res_bind_Ok in E as (b & _ & E). apply Ok_inj in E as <-.
  unfold login_device_proof_payload, introduction_payload, DOMAIN_ACTION, DOMAIN_LOGIN.
  split_and!; intros X; discriminate X.
Qed.

(** ** Challenges *)

Record challenge_matches (c : DeviceActionChallenge) (x : DeviceActionContext) (identity_public : bytes)
    (action : DeviceAction) (target : string) (target_hash : option string) (payload : Value) (now : Z) : Prop := {
  cm_user : dc_actor_user_id c = dx_user_id x;
  cm_device : dc_actor_device_id c = dx_device_id x;
  cm_server : api_base (dc_server_url c) = api_base (dx_server_url x);
  cm_key : dc_actor_identity_key_sha256 c = hex_encode (arr (sha256 identity_public));
  cm_action : dc_action c = action;
  cm_target : dc_target_device_id c = target;
  cm_target_hash h : target_hash = Some h → dc_target_identity_key_sha256 c = h;
  cm_payload : device_action_payload_sha256 payload = Ok (dc_payload_sha256 c);
  cm_id : is_Some (uuid_parse_str (dc_challenge_id c));
  cm_nonce : ∃ n, hex_decode (dc_nonce c) = Some n ∧ length n = 32;
  cm_target_digest : ∃ n, hex_decode (dc_target_identity_key_sha256 c) = Some n ∧ length n = 32;
  cm_time : (now < dc_expires_at c <= i64_saturating_add now 330)%Z;
}.
Lemma digest_of_32 s :
  match hex_decode s with Some n => negb (length n =? 32) | None => true end = false
  ↔ ∃ n, hex_decode s = Some n ∧ length n = 32.
Proof.
  destruct (hex_decode s) as [n|]; [|naive_solver]. rewrite negb_false_iff, Nat.eqb_eq. naive_solver.
Qed.

(** A challenge is accepted exactly when it says what the client asked for, is fresh and is not
    far in the future. *)
Theorem challenge_accepted_iff c x pk action target th payload now :
  validate_device_action_challenge c x pk action target th payload now = Ok tt
  ↔ challenge_matches c x pk action target th payload now.
Proof.
  unfold validate_device_action_challenge. split.
  - intros E. apply res_bind_Ok in E as (digest & DG & E). destruct (_ || _) eqn:B in E; [done|].
    rewrite !orb_false_iff, !bool_decide_eq_false in B.
    destruct B as ((((((((((B1 & B2) & B3) & B4) & B5) & B6) & B7) & B8) & B9) & B10) & B11).
    apply dec_stable in B1, B2, B3, B4, B5, B6, B7. apply digest_of_32 in B10, B11.
    apply negb_false_iff in B9.
    destruct (Z.leb_spec (dc_expires_at c) now); [done|].
    destruct (Z.ltb_spec (i64_saturating_add now (LIFETIME_SECONDS + CLOCK_SKEW_SECONDS)) (dc_expires_at c)); [done|].
    split; try done; [|congruence|by destruct (uuid_parse_str _)].
    intros h ->. apply bool_decide_eq_false in B8. by apply dec_stable in B8.
  - intros [M1 M2 M3 M4 M5 M6 M7 M8 M9 M10 M11 M12]. rewrite M8. cbn [res_bind].
    rewrite (proj2 (digest_of_32 _) M10), (proj2 (digest_of_32 _) M11).
    rewrite !bool_decide_eq_false_2 by (intros X; by apply X). cbn [orb].
    destruct th as [h|]; [rewrite bool_decide_eq_false_2 by (intros X; apply X; by apply M7)|].
    all: destruct M9 as [u ->]; cbn [is_some negb orb].
    all: destruct (Z.leb_spec (dc_expires_at c) now); [lia|].
    all: destruct (Z.ltb_spec (i64_saturating_add now (LIFETIME_SECONDS + CLOCK_SKEW_SECONDS)) (dc_expires_at c)) as [L|L];
      [change (LIFETIME_SECONDS + CLOCK_SKEW_SECONDS)%Z with 330%Z in L; lia|done].
Qed.

(** C34: The device signs nothing but challenges that match what it means to do: the server cannot
    have it sign for another action, another target or another request. *)
Theorem signed_only_as_intended answer sk x action target th payload now proof :
  signed_device_action answer (mkEd25519KeyPair sk (SigningKey_verifying_key sk)) x action target th payload now = Ok proof →
  ∃ c m s, answer = Ok c ∧ challenge_signing_payload c = Ok m
    ∧ challenge_matches c x (public_key_bytes (mkEd25519KeyPair sk (SigningKey_verifying_key sk))) action target th payload now
    ∧ dp_challenge_id proof = dc_challenge_id c
    ∧ dp_signature proof = base64_encode (arr (Signature_to_bytes s)) ∧ SigningKey_sign sk m = Ok s.
Proof.
  intros E. unfold signed_device_action, request_action_challenge in E. apply res_bind_Ok in E as (c & C & E).
  apply res_bind_Ok in C as (dg & _ & C). apply res_bind_Ok in C as (c' & A & C). apply res_bind_Ok in C as ([] & V & C).
  apply Ok_inj in C as ->. apply res_bind_Ok in E as (m & M & E). apply res_bind_Ok in E as (sg & S & E).
  apply Ok_inj in E as <-. apply challenge_accepted_iff in V. unfold KeyPair_sign_bytes in S. cbn [kp_signing_key] in S.
  destruct (SigningKey_sign sk m) as [s| | |] eqn:SS; try done. apply Ok_inj in S as <-.
  exists c, m, s. by split_and!.
Qed.

(** ** Saved-code credentials *)

Section CredentialTheorems.
Context {hk : Hkdf} {bl : Base64Laws}.

(** The code with which a credential was enrolled matches it, whatever the generation. *)
Theorem enrolled_code_matches salt new_id user raw_code artifact previous c :
  enrolled_credential salt new_id user raw_code artifact previous = Ok c →
  ∃ kp, code_matches_credential raw_code user c = Ok kp ∧ rc_public_key_b64 c = base64_encode (public_key_bytes kp)
    ∧ (∀ p, previous = Some p → rc_generation c = (rc_generation p + 1)%N).
Proof.
  intros E. unfold enrolled_credential in E. apply res_bind_Ok in E as (g & G & E). apply res_bind_Ok in E as (dg & _ & E).
  cbv zeta in E. apply res_bind_Ok in E as (kp & K & E). apply Ok_inj in E as <-. exists kp. split_and!.
  - unfold code_matches_credential.
    assert (recovery_signing_identity raw_code user (mkRecoveryCredential (uuid_to_string new_id) g
      (base64_encode (arr salt)) (base64_encode (public_key_bytes kp)) dg) = Ok kp) as -> by exact K.
    cbn [res_bind rc_public_key_b64]. by rewrite decide_False by naive_solver.
  - done.
  - intros p ->. apply ok_or_Ok, u64_checked_add_Some in G as [-> _]. done.
Qed.

Lemma u64_safe n : (n < U64)%N → json_safe 0 (VNumber (PosInt n)) = true.
Proof. intros L. cbn. by apply N.ltb_lt. Qed.
(** The key that is derived from a code is bound to the account, the credential and its
    generation: the derivation is given different bytes for different ones. *)
Theorem signing_context_binds user c user' c' b :
  (rc_generation c < U64)%N → (rc_generation c' < U64)%N →
  recovery_signing_context user c = Ok b → recovery_signing_context user' c' = Ok b →
  user = user' ∧ rc_credential_id c = rc_credential_id c' ∧ rc_generation c = rc_generation c'.
Proof using sjl.
  intros L L' E E'. unfold recovery_signing_context in *.
  eapply canonical_json_inj in E; [|..|exact E'].
  - pose proof (f_equal (value_get "user_id"%string) E) as E1. pose proof (f_equal (value_get "credential_id"%string) E) as E2.
    pose proof (f_equal (value_get "generation"%string) E) as E3. clear E E'.
    cbv -[rc_credential_id rc_generation] in E1, E2, E3. by simplify_eq.
  - apply (json_safe_mono 1); [vm_compute; lia|]. apply (json_safe_object 0). cbn [forallb snd].
    by rewrite u64_safe.
  - apply (json_safe_mono 1); [vm_compute; lia|]. apply (json_safe_object 0). cbn [forallb snd].
    by rewrite u64_safe.
Qed.
End CredentialTheorems.
End ActionTheorems.

(** ** Concrete formats, and an example *)

Definition toy_base64_url : Base64Url := {| b64u_encode := hex_enc; b64u_decode := hex_dec |}.
Lemma toy_base64_url_laws : @Base64UrlLaws toy_base64_url.
Proof. split; [apply hex_dec_enc|]. intros b. apply hex_enc_all. by intros []. Qed.

Definition header_code (h : Header) := (hd_alg h, hd_typ h, hd_kid h).
Definition header_of (c : string * string * string) : Header := let '(a, t, k) := c in mkHeader a t k.
Definition claims_code (c : Claims) :=
  (cl_iss c, cl_aud c, cl_sub c, cl_organization_id c, cl_plan c, b_num (cl_team c), cl_max_members c,
   z_pair (cl_entitlement_version c), z_pair (cl_iat c), z_pair (cl_exp c)).
Definition claims_of (c : string * string * string * string * string * N * N * (N * N) * (N * N) * (N * N)) : Claims :=
  let '(i, a, s, o, p, t, m, v, ia, ex) := c in
  mkClaims i a s o p (bool_decide (t = 1%N)) m (pair_z v) (pair_z ia) (pair_z ex).
Definition toy_token_json : TokenJson := {|
  header_to_vec h := Ok (ser (header_code h));
  header_from_slice b := map_ok header_of (de_all b);
  claims_to_vec c := Ok (ser (claims_code c));
  claims_from_slice b := map_ok claims_of (de_all b);
|}.
Lemma toy_token_json_laws : @TokenJsonLaws toy_token_json.
Proof.
  split.
  - intros [] b E. apply Ok_inj in E as <-. cbn [header_from_slice toy_token_json]. by rewrite de_all_ser.
  - intros [] b E. apply Ok_inj in E as <-. cbn [claims_from_slice toy_token_json]. rewrite de_all_ser.
    cbn [map_ok res_bind]. unfold claims_of, claims_code. cbn -[pair_z z_pair]. rewrite !pair_z_pair. by destruct cl_team0.
  - intros h. by eexists.
  - intros c. by eexists.
Qed.

Section AuthorityExamples.
#[local] Existing Instances toy_sha256 toy_hex toy_ed25519 toy_ed25519_laws toy_base64_url toy_base64_url_laws
  toy_token_json toy_token_json_laws toy_uuid_text toy_serde_json toy_serde_json_laws toy_base64 toy_base64_laws toy_hkdf.

Definition licence : Claims :=
  mkClaims "https://h.example/" AUDIENCE "user-1" "org-1" "team" true 10 1 1000 (1000 + OFFLINE_VALIDITY_SECONDS).
Definition server_key : SigningKey := mkSigningKey (num_array 32 3).
Definition server_keys : list TrustedKey := [mkTrustedKey "k1" (SigningKey_verifying_key server_key)].
Definition token : string := match entitlement_sign licence "k1" server_key with Ok t => t | _ => "" end.
Lemma token_signed : entitlement_sign licence "k1" server_key = Ok token.
Proof. apply got_Ok. vm_compute. reflexivity. Qed.
Lemma entitlement_roundtrip_witness :
  verify_with_expiry token server_keys "https://h.example" "user-1" 2000 false = Ok licence.
Proof.
  rewrite (entitlement_roundtrip licence "k1" server_key token server_keys 0 "https://h.example" "user-1" 2000 false token_signed
    ltac:(vm_compute; reflexivity)).
  assert (claims_acceptable licence "https://h.example" "user-1" 2000 false = true) as -> by (vm_compute; reflexivity). done.
Defined.
Lemma entitlement_bounded_witness :
  cl_sub licence = "user-1"%string ∧ (cl_exp licence <= 2000 + 300 + OFFLINE_VALIDITY_SECONDS)%Z.
Proof.
  destruct (entitlement_bounded token server_keys "https://h.example" "user-1" 2000 licence) as (S & _ & _ & B & _).
  - split; vm_compute; discriminate.
  - assert (match entitlement_verify token server_keys "https://h.example" "user-1" 2000 with
            | Ok c => bool_decide (c = licence) | _ => false end = true) as H by (vm_compute; reflexivity).
    destruct (entitlement_verify _ _ _ _ _) as [c| | |]; try discriminate H. apply bool_decide_eq_true in H. by rewrite H.
  - split; [exact S|exact B].
Defined.
Example expired_not_for_writing :
  (is_ok (entitlement_verify token server_keys "https://h.example" "user-1" 3000000),
   is_ok (verify_for_existing_data token server_keys "https://h.example" "user-1" 3000000)) = (false, true).
Proof. vm_compute. reflexivity. Qed.

(** The laptop asks to revoke the phone. *)
Definition laptop_context : DeviceActionContext := mkDeviceActionContext "https://h.example" "user-1" "laptop".
Definition laptop_key : SigningKey := mkSigningKey (num_array 32 8).
Definition laptop_pair : Ed25519KeyPair := mkEd25519KeyPair laptop_key (SigningKey_verifying_key laptop_key).
Definition no_body : Value := VObject [].
Definition digest_text (r : res string string) : string := match r with Ok s => s | _ => "" end.
Definition challenge : DeviceActionChallenge :=
  mkDeviceActionChallenge (uuid_to_string (num_array 16 4)) "user-1" "laptop"
    (hex_encode (arr (sha256 (public_key_bytes laptop_pair)))) "https://h.example/api/v1/" Revoke "phone"
    (hex_encode (arr (num_array 32 9))) (digest_text (device_action_payload_sha256 no_body)) 1200
    (hex_encode (arr (num_array 32 10))).
Definition no_proof : DeviceActionProof := mkDeviceActionProof "" "".
Definition revoke_proof : DeviceActionProof :=
  match signed_device_action (Ok challenge) laptop_pair laptop_context Revoke "phone" None no_body 1000 with
  | Ok p => p | _ => no_proof end.
Lemma signed_only_as_intended_witness :
  ∃ c m s, Ok challenge = @Ok string _ c ∧ challenge_signing_payload c = Ok m
    ∧ challenge_matches c laptop_context (public_key_bytes laptop_pair) Revoke "phone" None no_body 1000
    ∧ dp_challenge_id revoke_proof = dc_challenge_id c
    ∧ dp_signature revoke_proof = base64_encode (arr (Signature_to_bytes s)) ∧ SigningKey_sign laptop_key m = Ok s.
Proof.
  apply (signed_only_as_intended (Ok challenge) laptop_key laptop_context Revoke "phone" None no_body 1000 revoke_proof).
  apply got_Ok. vm_compute. reflexivity.
Defined.
Example other_action_refused :
  is_ok (signed_device_action (Ok challenge) laptop_pair laptop_context ApproveWelcome "phone" None no_body 1000) = false.
Proof. vm_compute. reflexivity. Qed.
Lemma signing_domains_apart_witness :
  ∃ m, challenge_signing_payload challenge = Ok m ∧ m ≠ login_device_proof_payload "login" "user-1" "laptop".
Proof.
  destruct (challenge_signing_payload challenge) as [m| | |] eqn:E.
  2-4: (exfalso; assert (is_ok (challenge_signing_payload challenge) = true) as H by (vm_compute; reflexivity);
        rewrite E in H; discriminate H).
  exists m. split; [reflexivity|].
  exact (proj1 (signing_domains_apart challenge m "login" "user-1" "laptop" (introduction anna ben) E)).
Defined.

Definition artifact_json : Value :=
  json_object [("k1_salt_b64", VString "a"); ("k2_salt_b64", VString "b"); ("hkdf_salt_b64", VString "c");
               ("k1_wrapped", VNull); ("k2_wrapped", VNull); ("entries", VArray [])]%string.
Definition no_credential : RecoveryCredential := mkRecoveryCredential "" 0 "" "" "".
Definition first_credential : RecoveryCredential :=
  match enrolled_credential (num_array 32 5) (num_array 16 6) "user-1" (arr (num_array 32 77)) artifact_json None with
  | Ok c => c | _ => no_credential end.
Lemma enrolled_code_matches_witness :
  ∃ kp, code_matches_credential (arr (num_array 32 77)) "user-1" first_credential = Ok kp
    ∧ rc_public_key_b64 first_credential = base64_encode (public_key_bytes kp)
    ∧ (∀ p, None = Some p → rc_generation first_credential = (rc_generation p + 1)%N).
Proof.
  apply (enrolled_code_matches (num_array 32 5) (num_array 16 6) "user-1" (arr (num_array 32 77)) artifact_json None).
  apply got_Ok. vm_compute. reflexivity.
Defined.
Example other_code_refused :
  is_ok (code_matches_credential (arr (num_array 32 78)) "user-1" first_credential) = false.
Proof. vm_compute. reflexivity. Qed.
End AuthorityExamples.
