(* ===== verification/Pending.v ===== *)
(** * Pending operations of a Cloud Files root
    ([crates/windows-cloud-provider/src/pending.rs] and the records of [lib.rs])

    A change that a user makes in the synchronised folder is recorded before it is
    carried out, and the record is kept until it was.  This file has the records, which
    ones stand for the same rename and are merged, when a record is tried again, and
    which records may be replayed.  The clock and the attributes of local files are
    arguments; lower case beyond ASCII and the codes of the operating system are classes.
    The error variant that only Windows builds have is left out. *)

From Stdlib Require Import Strings.Byte Strings.Ascii.
From stdpp Require Import base tactics numbers sets list gmap strings pretty option sorting.
From S2P Require Import Prelude StateError Crypto Json FilePath FileHeader CloudState.
Open Scope hc_scope.
Open Scope hc_st_scope.

Definition MAX_WRITEBACK_ACCESS_DENIED_ATTEMPTS : N := 8.
Definition LEGACY_WRITEBACK_ACCESS_DENIED : string :=
  "provider-core error: I/O error: Access is denied. (os error 5)".
Definition U32_MAX : N := 2 ^ 32 - 1.
Definition u32_saturating_add (a b : N) : N := N.min (a + b) U32_MAX.

Inductive PendingOperationState := PsReady | PsRetryable | PsNeedsAttention.
#[export] Instance PendingOperationState_eq_dec : EqDecision PendingOperationState.
Proof. solve_decision. Defined.
Inductive CloudMutationKind := MkWriteback | MkDelete | MkRename.
#[export] Instance CloudMutationKind_eq_dec : EqDecision CloudMutationKind.
Proof. solve_decision. Defined.
Inductive ProviderFileErrorCode := LegacyConsentRequired | IntegrityFailure | KeyUnavailable.

Record CloudMutationRecord := mkCloudMutationRecord {
  mr_id : Uuid;
  mr_sequence : N;
  mr_kind : CloudMutationKind;
  mr_root_id : Uuid;
  mr_relative_path : string;
  mr_target_relative_path : option string;
  mr_plaintext_path : option string;
  mr_target_plaintext_path : option string;
  mr_identity : option FileIdentityV1;
  mr_expected_version : option ProviderContentVersion;
  mr_attempts : N;
  mr_last_error : option string;
  mr_created_at : Z;
  mr_updated_at : Z;
  mr_state : PendingOperationState;
  mr_merged_records : N;
  mr_retry_after : option Z;
  mr_committed_version : option ProviderContentVersion;
  mr_observed_local_state : option string;
  mr_error_code : option ProviderFileErrorCode;
}.
Implicit Types r : CloudMutationRecord.

Definition CloudMutationRecord_new (id : Uuid) (now : Z) (kind : CloudMutationKind) (root_id : Uuid)
    (relative_path : string) (identity : option FileIdentityV1) : CloudMutationRecord :=
  mkCloudMutationRecord id 0 kind root_id relative_path None None None identity None 0 None now now
    PsReady 0 None None None None.

(** [str::to_lowercase], with the characters beyond ASCII. *)
Class Lowercase := to_lowercase : string → string.

(** ** Which operations touch each other *)

Section Touch.
Context {lc : Lowercase}.

(** Either is the other one or in it. *)
Definition overlap (a b : string) : bool :=
  bool_decide (a = b) || bool_decide (is_Some (strip_prefix (b +:+ "/") a))
  || bool_decide (is_Some (strip_prefix (a +:+ "/") b)).
Definition paths_overlap (a b : string) : bool :=
  overlap (to_lowercase (normalize_relative_path a)) (to_lowercase (normalize_relative_path b)).

(** The paths of an operation: where it is and where it goes. *)
Definition record_paths r : list string :=
  [mr_relative_path r; default (mr_relative_path r) (mr_target_relative_path r)].

Definition reserves_path (records : list CloudMutationRecord) (path : string) : bool :=
  existsb (λ r, bool_decide (mr_kind r = MkRename)
                && existsb (λ reserved, paths_overlap reserved path) (record_paths r)) records.

Definition file_id_of r : option string := mr_identity r ≫= fi_file_id.
Definition touches (a b : CloudMutationRecord) : bool :=
  if decide (mr_root_id a ≠ mr_root_id b) then false
  else if match file_id_of a, file_id_of b with
          | Some x, Some y => bool_decide (x = y)
          | _, _ => false
          end then true
  else existsb (λ p, existsb (λ q, overlap (to_lowercase p) (to_lowercase q)) (record_paths b))
         (record_paths a).

Definition same_pending_rename (a b : CloudMutationRecord) : bool :=
  bool_decide (mr_kind a = MkRename) && bool_decide (mr_kind b = MkRename)
  && bool_decide (mr_root_id a = mr_root_id b)
  && bool_decide (mr_relative_path a = mr_relative_path b)
  && bool_decide (mr_target_relative_path a = mr_target_relative_path b)
  && bool_decide (mr_plaintext_path a = mr_plaintext_path b)
  && bool_decide (mr_target_plaintext_path a = mr_target_plaintext_path b)
  && bool_decide (mr_identity a = mr_identity b)
  && bool_decide (mr_expected_version a = mr_expected_version b)
  && match mr_committed_version a, mr_committed_version b with
     | Some x, Some y => bool_decide (x = y)
     | _, _ => true
     end
  && match mr_identity a with Some id => bool_decide (is_Some (fi_file_id id)) | None => false end.

(** ** Merging repeated renames *)

(** The loop of [matching_operation], from the latest record back; the result is a place
    in the list. *)
Fixpoint matching_rev (earlier : list CloudMutationRecord) (candidate : CloudMutationRecord) : option nat :=
  match earlier with
  | [] => None
  | previous :: earlier =>
      if touches previous candidate then
        if same_pending_rename previous candidate then Some (length earlier) else None
      else matching_rev earlier candidate
  end.
Definition matching_operation (records : list CloudMutationRecord) (candidate : CloudMutationRecord)
  : option nat := matching_rev (reverse records) candidate.

Definition merge (first record : CloudMutationRecord) : CloudMutationRecord :=
  let attempts := u32_saturating_add (mr_attempts first) (mr_attempts record) in
  let merged := u32_saturating_add
                  (u32_saturating_add (mr_merged_records first) (mr_merged_records record)) 1 in
  if (mr_updated_at first <=? mr_updated_at record)%Z then
    let '(last_error, error_code) :=
      match mr_last_error record with
      | Some e => (Some e, mr_error_code record)
      | None => (mr_last_error first, mr_error_code first)
      end in
    mkCloudMutationRecord (mr_id first) (mr_sequence first) (mr_kind first) (mr_root_id first)
      (mr_relative_path first) (mr_target_relative_path first) (mr_plaintext_path first)
      (mr_target_plaintext_path first) (mr_identity first) (mr_expected_version first)
      attempts last_error (mr_created_at first) (mr_updated_at record) (mr_state record) merged
      (mr_retry_after record)
      (match mr_committed_version record with Some v => Some v | None => mr_committed_version first end)
      (mr_observed_local_state record) error_code
  else
    mkCloudMutationRecord (mr_id first) (mr_sequence first) (mr_kind first) (mr_root_id first)
      (mr_relative_path first) (mr_target_relative_path first) (mr_plaintext_path first)
      (mr_target_plaintext_path first) (mr_identity first) (mr_expected_version first)
      attempts (mr_last_error first) (mr_created_at first) (mr_updated_at first) (mr_state first) merged
      (mr_retry_after first) (mr_committed_version first) (mr_observed_local_state first)
      (mr_error_code first).

(** [sort_by_key], which is stable. *)
Fixpoint insert_by_sequence r (l : list CloudMutationRecord) : list CloudMutationRecord :=
  match l with
  | [] => [r]
  | x :: l => if (mr_sequence r <=? mr_sequence x)%N then r :: x :: l else x :: insert_by_sequence r l
  end.
Definition sort_by_sequence (l : list CloudMutationRecord) : list CloudMutationRecord :=
  foldr insert_by_sequence [] l.

Definition compact_step (result : list CloudMutationRecord) (record : CloudMutationRecord)
  : list CloudMutationRecord :=
  match matching_operation result record with
  | Some index => alter (λ first, merge first record) index result
  | None => result ++ [record]
  end.
Definition compact (records : list CloudMutationRecord) : list CloudMutationRecord * bool :=
  let result := foldl compact_step [] (sort_by_sequence records) in
  (result, negb (length records =? length result)).

Definition coalesce_matching_pending_renames (records : list CloudMutationRecord)
    (candidate : CloudMutationRecord) : option Uuid * list CloudMutationRecord :=
  let records := (compact records).1 in
  (mr_id <$> (matching_operation records candidate ≫= λ i, records !! i), records).
End Touch.

(** ** What merging changes *)

Section Compaction.
Context {lc : Lowercase}.

(** What the operation is to do, which merging leaves alone. *)
Definition intent r :=
  (mr_id r, mr_sequence r, mr_kind r, mr_root_id r, mr_relative_path r, mr_target_relative_path r,
   mr_plaintext_path r, mr_target_plaintext_path r, mr_identity r, mr_expected_version r, mr_created_at r).
(** The same without the identity of the record. *)
Definition effect r :=
  (mr_kind r, mr_root_id r, mr_relative_path r, mr_target_relative_path r, mr_plaintext_path r,
   mr_target_plaintext_path r, mr_identity r, mr_expected_version r).

Lemma merge_intent a b : intent (merge a b) = intent a.
Proof. unfold merge. destruct (_ <=? _)%Z; [|done]. by destruct (mr_last_error b). Qed.
Lemma intent_effect a b : intent a = intent b → effect a = effect b ∧ mr_sequence a = mr_sequence b.
Proof. unfold intent, effect. intros E. injection E as E1 E2 E3 E4 E5 E6 E7 E8 E9 E10 E11. split; congruence. Qed.
Lemma touches_effect a a' b : effect a = effect a' → touches a b = touches a' b ∧ touches b a = touches b a'.
Proof.
  unfold effect, touches, file_id_of, record_paths. intros E. injection E as E1 E2 E3 E4 E5 E6 E7 E8.
  by rewrite E2, E3, E4, E7.
Qed.

(** Versions that may both be of the same rename. *)
Definition agree (v w : option ProviderContentVersion) : bool :=
  match v, w with Some x, Some y => bool_decide (x = y) | _, _ => true end.

Lemma same_pending_rename_iff a b :
  same_pending_rename a b = true ↔
  effect a = effect b ∧ mr_kind a = MkRename ∧ agree (mr_committed_version a) (mr_committed_version b) = true
  ∧ is_Some (file_id_of a).
Proof.
  unfold same_pending_rename, effect, file_id_of, agree.
  rewrite !andb_true_iff, !bool_decide_eq_true.
  split.
  - intros ((((((((((H1 & H2) & H3) & H4) & H5) & H6) & H7) & H8) & H9) & H10) & H11).
    split; [congruence|]. split; [done|]. split; [done|].
    destruct (mr_identity a); [|done]. cbn. by apply bool_decide_eq_true in H11.
  - intros (E & K & A & I). injection E as E1 E2 E3 E4 E5 E6 E7 E8.
    destruct (mr_identity a); [|by destruct I]. cbn in I. rewrite bool_decide_eq_true_2 by done.
    repeat split; congruence.
Qed.

Lemma merge_committed_version a b :
  mr_committed_version (merge a b) =
    if (mr_updated_at a <=? mr_updated_at b)%Z
    then match mr_committed_version b with Some v => Some v | None => mr_committed_version a end
    else mr_committed_version a.
Proof. unfold merge. destruct (_ <=? _)%Z; [|done]. by destruct (mr_last_error b). Qed.
Lemma merge_committed a b v :
  agree (mr_committed_version a) (mr_committed_version b) = true →
  agree (mr_committed_version (merge a b)) v = true → agree (mr_committed_version a) v = true.
Proof.
  rewrite merge_committed_version. destruct (_ <=? _)%Z; [|done]. unfold agree.
  destruct (mr_committed_version a) as [x|], (mr_committed_version b) as [y|], v as [z|]; try done.
  by intros ->%bool_decide_eq_true.
Qed.
Lemma agree_sym v w : agree v w = agree w v.
Proof. unfold agree. destruct v, w; try done. apply bool_decide_ext. naive_solver. Qed.

(** A merged record is the same operation as fewer others than the record was. *)
Lemma same_merge a b c :
  same_pending_rename a b = true →
  (same_pending_rename (merge a b) c = true → same_pending_rename a c = true)
  ∧ (same_pending_rename c (merge a b) = true → same_pending_rename c a = true).
Proof.
  rewrite !same_pending_rename_iff. intros (E & K & A & I).
  destruct (intent_effect _ _ (merge_intent a b)) as [M _].
  assert (KM : mr_kind (merge a b) = mr_kind a) by (unfold effect in M; by injection M).
  split.
  - intros (E' & K' & A' & I'). split; [congruence|]. split; [done|].
    split; [by apply (merge_committed a b)|done].
  - intros (E' & K' & A' & I'). split; [congruence|]. split; [done|].
    split; [|done]. rewrite agree_sym in A' |- *. by apply (merge_committed a b).
Qed.

(** ** Compacted lists *)

(** No record repeats an earlier one. *)
Definition settled (l : list CloudMutationRecord) : Prop :=
  ∀ i r, l !! i = Some r → matching_operation (take i l) r = None.

(** A record, or one with a repetition merged into it. *)
Definition grown (x' x : CloudMutationRecord) : Prop :=
  x' = x ∨ ∃ r, same_pending_rename x r = true ∧ x' = merge x r.

Lemma grown_intent x' x : grown x' x → intent x' = intent x.
Proof. intros [->|(r & _ & ->)]; [done|apply merge_intent]. Qed.
Lemma grown_touches x' x y' y : grown x' x → grown y' y → touches x' y' = touches x y.
Proof.
  intros X%grown_intent Y%grown_intent. apply intent_effect in X as [X _], Y as [Y _].
  rewrite (proj1 (touches_effect _ _ y' X)). apply (touches_effect _ _ x Y).
Qed.
Lemma grown_same x' x y' y :
  grown x' x → grown y' y → same_pending_rename x' y' = true → same_pending_rename x y = true.
Proof.
  intros [->|(r & R & ->)] [->|(s & S & ->)] H; try done.
  - by apply (same_merge y s x S).
  - by apply (same_merge x r y R).
  - apply (same_merge x r y R). by apply (same_merge y s _ S).
Qed.

Lemma matching_rev_grown l' l y' y :
  Forall2 grown l' l → grown y' y → matching_rev l y = None → matching_rev l' y' = None.
Proof.
  intros F Y. induction F as [|x' x l' l X F IH]; [done|]. cbn [matching_rev].
  rewrite (grown_touches _ _ _ _ X Y). destruct (touches x y); [|done].
  destruct (same_pending_rename x y) eqn:S; [done|]. intros _.
  destruct (same_pending_rename x' y') eqn:S'; [|done].
  by rewrite (grown_same _ _ _ _ X Y S') in S.
Qed.
Lemma settled_grown l' l : Forall2 grown l' l → settled l → settled l'.
Proof.
  intros F H i y' Y'. destruct (Forall2_lookup_l _ _ _ _ _ F Y') as (y & Y & G).
  apply (matching_rev_grown _ (reverse (take i l)) _ y); [|done|by apply H].
  by apply Forall2_reverse, Forall2_take.
Qed.

(** A match is a repetition of the record at that place. *)
Lemma matching_rev_Some l r i :
  matching_rev l r = Some i → ∃ f, reverse l !! i = Some f ∧ same_pending_rename f r = true.
Proof.
  induction l as [|x l IH]; [done|]. cbn [matching_rev]. rewrite reverse_cons.
  destruct (touches x r).
  - destruct (same_pending_rename x r) eqn:S; [|done]. intros [= <-]. exists x. split; [|done].
    rewrite <-length_reverse. by apply list_lookup_middle.
  - intros M. destruct (IH M) as (f & F & S). exists f. split; [|done]. by apply lookup_app_l_Some.
Qed.
Lemma matching_Some l r i :
  matching_operation l r = Some i → ∃ f, l !! i = Some f ∧ same_pending_rename f r = true.
Proof. intros M. destruct (matching_rev_Some _ _ _ M) as (f & F & S). rewrite reverse_involutive in F. eauto. Qed.

Lemma alter_grown l r i :
  matching_operation l r = Some i → Forall2 grown (alter (λ first, merge first r) i l) l.
Proof.
  intros M. destruct (matching_Some _ _ _ M) as (f & F & S). apply Forall2_same_length_lookup.
  rewrite length_alter. split; [done|]. intros j x' x X' X. destruct (decide (j = i)) as [->|N].
  - rewrite list_lookup_alter_eq, X in X'. injection X' as <-. right. exists r. split; [congruence|done].
  - rewrite list_lookup_alter_ne in X' by done. left. congruence.
Qed.

Lemma compact_step_settled l r : settled l → settled (compact_step l r).
Proof.
  intros H. unfold compact_step. destruct (matching_operation l r) as [i|] eqn:M.
  - by apply (settled_grown _ l); [apply alter_grown|].
  - intros j x X. destruct (decide (j = length l)) as [->|N].
    + rewrite list_lookup_middle in X by done. injection X as <-. by rewrite take_app_length.
    + assert (j < length l) by (apply lookup_lt_Some in X; rewrite length_app in X; cbn in X; lia).
      rewrite lookup_app_l in X by done. rewrite take_app_le by lia. by apply H.
Qed.

Definition in_sequence (l : list CloudMutationRecord) : Prop := StronglySorted N.le (mr_sequence <$> l).

Lemma grown_sequence l' l : Forall2 grown l' l → mr_sequence <$> l' = mr_sequence <$> l.
Proof.
  induction 1 as [|x' x l' l G F IH]; [done|]. cbn. rewrite IH.
  by destruct (intent_effect _ _ (grown_intent _ _ G)) as [_ ->].
Qed.
Lemma insert_sequence_elem r l n : n ∈ mr_sequence <$> insert_by_sequence r l ↔ n = mr_sequence r ∨ n ∈ mr_sequence <$> l.
Proof.
  induction l as [|x l IH]; cbn [insert_by_sequence fmap list_fmap]; [set_solver|].
  destruct (_ <=? _)%N; cbn [fmap list_fmap]; rewrite !elem_of_cons; [done|]. rewrite IH. naive_solver.
Qed.
Lemma insert_in_sequence r l : in_sequence l → in_sequence (insert_by_sequence r l).
Proof.
  unfold in_sequence. induction l as [|x l IH]; intros S; cbn [insert_by_sequence fmap list_fmap].
  { repeat constructor. }
  inversion S as [|? ? S' F]; subst. destruct (N.leb_spec (mr_sequence r) (mr_sequence x)) as [L|L]; cbn.
  - constructor; [done|]. constructor; [done|]. eapply list.Forall_impl; [exact F|]. cbn. lia.
  - constructor; [by apply IH|]. apply list.Forall_forall. intros n [->|N]%insert_sequence_elem; [lia|].
    by apply (proj1 (list.Forall_forall _ _) F).
Qed.
Lemma sort_in_sequence l : in_sequence (sort_by_sequence l).
Proof. induction l as [|x l IH]; [constructor|]. by apply insert_in_sequence. Qed.
Lemma sort_id l : in_sequence l → sort_by_sequence l = l.
Proof.
  induction l as [|x l IH]; intros S; [done|]. inversion S as [|? ? S' F]; subst.
  change (insert_by_sequence x (sort_by_sequence l) = x :: l). rewrite IH by done.
  destruct l as [|y l]; [done|]. inversion F; subst. cbn. by rewrite (proj2 (N.leb_le _ _)).
Qed.

Lemma StronglySorted_drop_middle (l1 : list N) x l2 :
  StronglySorted N.le (l1 ++ x :: l2) → StronglySorted N.le (l1 ++ l2).
Proof.
  induction l1 as [|y l1 IH]; cbn; intros S; inversion S as [|? ? S' F]; subst; [done|].
  constructor; [by apply IH|]. apply Forall_app in F as [F1 F2]. inversion F2; subst. by apply Forall_app.
Qed.
Lemma fold_in_sequence l acc : in_sequence (acc ++ l) → in_sequence (foldl compact_step acc l).
Proof.
  revert acc. induction l as [|r l IH]; intros acc S; cbn; [by rewrite app_nil_r in S|].
  apply IH. unfold compact_step. destruct (matching_operation acc r) as [i|] eqn:M.
  - unfold in_sequence in *. rewrite fmap_app in *. rewrite (grown_sequence _ acc) by by apply alter_grown.
    by apply StronglySorted_drop_middle in S.
  - by rewrite <-app_assoc.
Qed.
Lemma fold_settled l acc : settled acc → settled (foldl compact_step acc l).
Proof. revert acc. induction l as [|r l IH]; intros acc S; [done|]. apply IH. by apply compact_step_settled. Qed.
Lemma fold_id l acc : settled (acc ++ l) → foldl compact_step acc l = acc ++ l.
Proof.
  revert acc. induction l as [|r l IH]; intros acc S; cbn; [by rewrite app_nil_r|].
  pose proof (S (length acc) r (list_lookup_middle _ _ _ _ eq_refl)) as M. rewrite take_app_length in M.
  unfold compact_step at 2. rewrite M. rewrite IH by by rewrite <-app_assoc. by rewrite <-app_assoc.
Qed.

(** One pass merges all there is to merge: compacting the journal again changes
    nothing, so repeated recoveries do not count the same attempts twice. *)
Theorem compact_idempotent (records : list CloudMutationRecord) :
  compact (compact records).1 = ((compact records).1, false).
Proof.
  set (l := (compact records).1).
  assert (S : settled l) by (apply fold_settled; by intros i r).
  assert (Q : in_sequence l) by apply fold_in_sequence, sort_in_sequence.
  unfold compact. rewrite sort_id by done. rewrite fold_id by done. cbn. by rewrite Nat.eqb_refl.
Qed.

(** ** Nothing is lost *)

(** How many records one stands for. *)
Definition stands_for r : N := (mr_merged_records r + 1)%N.
Fixpoint total (f : CloudMutationRecord → N) (l : list CloudMutationRecord) : N :=
  match l with [] => 0%N | r :: l => (f r + total f l)%N end.

Lemma total_app f l1 l2 : total f (l1 ++ l2) = (total f l1 + total f l2)%N.
Proof. induction l1 as [|x l1 IH]; cbn; [done|]. rewrite IH. lia. Qed.
Lemma total_sort f l : total f (sort_by_sequence l) = total f l.
Proof.
  assert (I : ∀ r l, total f (insert_by_sequence r l) = (f r + total f l)%N).
  { intros r k. induction k as [|x k IH]; cbn; [done|]. destruct (_ <=? _)%N; cbn; [done|]. rewrite IH. lia. }
  induction l as [|x l IH]; [done|].
  change (total f (insert_by_sequence x (sort_by_sequence l)) = (f x + total f l)%N). by rewrite I, IH.
Qed.
Lemma total_alter f g i l x :
  l !! i = Some x → (total f (alter g i l) + f x = total f l + f (g x))%N.
Proof.
  revert i. induction l as [|y l IH]; intros [|i] X; try done.
  - injection X as ->. cbn. lia.
  - change (alter g (S i) (y :: l)) with (y :: alter g i l). cbn [total]. specialize (IH i X). lia.
Qed.

Lemma merge_counts a b :
  (stands_for a + stands_for b < 2 ^ 32)%N → (mr_attempts a + mr_attempts b < 2 ^ 32)%N →
  stands_for (merge a b) = (stands_for a + stands_for b)%N
  ∧ mr_attempts (merge a b) = (mr_attempts a + mr_attempts b)%N.
Proof.
  intros S A. assert (M : mr_merged_records (merge a b) = u32_saturating_add
    (u32_saturating_add (mr_merged_records a) (mr_merged_records b)) 1
    ∧ mr_attempts (merge a b) = u32_saturating_add (mr_attempts a) (mr_attempts b)).
  { unfold merge. destruct (_ <=? _)%Z; [|done]. by destruct (mr_last_error b). }
  destruct M as [M1 M2]. unfold stands_for in *. rewrite M1, M2.
  unfold u32_saturating_add, U32_MAX. lia.
Qed.

Lemma total_le f l i x : l !! i = Some x → (f x ≤ total f l)%N.
Proof.
  revert i. induction l as [|y l IH]; intros [|i] X; try done; cbn.
  - injection X as ->. lia.
  - specialize (IH i X). lia.
Qed.

Lemma fold_counts l acc :
  (total stands_for (acc ++ l) < 2 ^ 32)%N → (total mr_attempts (acc ++ l) < 2 ^ 32)%N →
  total stands_for (foldl compact_step acc l) = total stands_for (acc ++ l)
  ∧ total mr_attempts (foldl compact_step acc l) = total mr_attempts (acc ++ l).
Proof.
  revert acc. induction l as [|r l IH]; intros acc S A; cbn [foldl]; [by rewrite app_nil_r|].
  assert (E : total stands_for (compact_step acc r ++ l) = total stands_for (acc ++ r :: l)
    ∧ total mr_attempts (compact_step acc r ++ l) = total mr_attempts (acc ++ r :: l)).
  { unfold compact_step. destruct (matching_operation acc r) as [i|] eqn:M; [|by rewrite <-app_assoc].
    destruct (matching_Some _ _ _ M) as (f & F & _). rewrite !total_app in *. cbn [total] in *.
    pose proof (total_le stands_for _ _ _ F). pose proof (total_le mr_attempts _ _ _ F).
    pose proof (total_alter stands_for (λ first, merge first r) _ _ _ F) as T1.
    pose proof (total_alter mr_attempts (λ first, merge first r) _ _ _ F) as T2. cbn beta in T1, T2.
    destruct (merge_counts f r) as [C1 C2]; [lia..|]. rewrite C1 in T1. rewrite C2 in T2. lia. }
  destruct E as [E1 E2]. rewrite <-E1, <-E2. apply IH; lia.
Qed.

(** Every record is still there, or one that asks for the same is. *)
Lemma fold_effects l acc r :
  r ∈ acc ++ l → ∃ r', r' ∈ foldl compact_step acc l ∧ effect r' = effect r.
Proof.
  revert acc r. induction l as [|x l IH]; intros acc r I; cbn [foldl].
  { rewrite app_nil_r in I. eauto. }
  assert (G : ∃ r', r' ∈ compact_step acc x ++ l ∧ effect r' = effect r).
  { unfold compact_step. destruct (matching_operation acc x) as [i|] eqn:M; [|rewrite <-app_assoc; eauto].
    pose proof (alter_grown _ _ _ M) as F. apply elem_of_app in I as [I|[->|I]%elem_of_cons].
    - apply list_elem_of_lookup in I as [j J]. destruct (Forall2_lookup_r _ _ _ _ _ F J) as (y & Y & GY).
      exists y. split; [apply elem_of_app; left; by eapply list_elem_of_lookup_2|].
      by destruct (intent_effect _ _ (grown_intent _ _ GY)).
    - destruct (matching_Some _ _ _ M) as (f & Ff & S). destruct (Forall2_lookup_r _ _ _ _ _ F Ff) as (y & Y & GY).
      exists y. split; [apply elem_of_app; left; by eapply list_elem_of_lookup_2|].
      destruct (intent_effect _ _ (grown_intent _ _ GY)) as [-> _]. by apply same_pending_rename_iff in S as [-> _].
    - exists r. split; [apply elem_of_app; by right|done]. }
  destruct G as (r' & I' & E). destruct (IH _ _ I') as (s & Is & Es). exists s. split; [done|congruence].
Qed.
Lemma fold_intents l acc r' :
  r' ∈ foldl compact_step acc l → ∃ r, r ∈ acc ++ l ∧ intent r' = intent r.
Proof.
  revert acc. induction l as [|x l IH]; intros acc I; cbn [foldl] in I; [rewrite app_nil_r; eauto|].
  destruct (IH _ I) as (r & R & E). unfold compact_step in R.
  destruct (matching_operation acc x) as [i|] eqn:M.
  - apply elem_of_app in R as [R|R].
    + apply list_elem_of_lookup in R as [j J].
      destruct (Forall2_lookup_l _ _ _ _ _ (alter_grown _ _ _ M) J) as (y & Y & G).
      exists y. split; [apply elem_of_app; left; by eapply list_elem_of_lookup_2|].
      by rewrite E, (grown_intent _ _ G).
    + exists r. split; [|done]. apply elem_of_app. right. by right.
  - rewrite <-app_assoc in R. eauto.
Qed.
Lemma elem_of_sort r l : r ∈ sort_by_sequence l ↔ r ∈ l.
Proof.
  assert (I : ∀ x k, r ∈ insert_by_sequence x k ↔ r = x ∨ r ∈ k).
  { intros x k. induction k as [|y k IH]; cbn; [set_solver|].
    destruct (_ <=? _)%N; rewrite !elem_of_cons; [done|]. rewrite IH. naive_solver. }
  induction l as [|x l IH]; [done|]. change (sort_by_sequence (x :: l)) with (insert_by_sequence x (sort_by_sequence l)).
  by rewrite I, elem_of_cons, IH.
Qed.

End Compaction.

(** ** Trying again *)

Definition MountSyncError_display (e : MountSyncError) : string :=
  match e with
  | MsIo e => "I/O error: " +:+ io_text e
  | MsFormat m => "Format error: " +:+ m
  | MsCrypto m => "Crypto error: " +:+ m
  | MsUnstableFile m => "Unstable file during sync: " +:+ m
  | MsPathExcluded m => "Path excluded from encryption: " +:+ m
  | MsInvalidPath p => "Invalid path: " +:+ p
  | MsRangeUnsupported m => "authenticated range decryption is unsupported for this file: " +:+ m
  | MsLegacyCompatibilityRequired => "Older file format requires legacy compatibility for this vault"
  | MsFileIntegrity m => "Encrypted file integrity verification failed: " +:+ m
  | MsKeyUnavailable e => "This device does not have key version " +:+ pretty e +:+ " for this file"
  end.
Definition ProviderCoreError_display (e : ProviderCoreError) : string :=
  match e with
  | PcIo e => "I/O error: " +:+ io_text e
  | PcIdentitySerialization m => "provider identity serialization failed: " +:+ m
  | PcInvalidIdentity m => "invalid provider identity: " +:+ m
  | PcMetadataParse p e => "encrypted metadata parse failed for " +:+ p +:+ ": " +:+ MountSyncError_display e
  | PcPathOutsideRoot p r => "path " +:+ p +:+ " is outside root " +:+ r
  | PcCrypto e => "crypto operation failed: " +:+ MountSyncError_display e
  | PcMutationUnsupported m => "provider mutation is not supported: " +:+ m
  | PcContentConflict p _ _ => "provider content conflict at " +:+ p
  end.
Definition CloudProviderError_display (e : CloudProviderError) : string :=
  match e with
  | CpUnsupportedPlatform => "Windows Cloud Files API is only supported on Windows"
  | CpNativeCallbacksNotImplemented =>
      "Windows Cloud Files API host is scaffolded but native callbacks are not implemented yet"
  | CpInvalidCommand m => "invalid command line: " +:+ m
  | CpInvalidPath m => "invalid provider path: " +:+ m
  | CpIdentityTooLarge p n max => "placeholder identity for " +:+ p +:+ " is " +:+ pretty n
      +:+ " bytes; Windows limit is " +:+ pretty max +:+ " bytes"
  | CpIo e => "I/O error: " +:+ io_text e
  | CpProviderCore e => "provider-core error: " +:+ ProviderCoreError_display e
  | CpCallback m => "Cloud Files callback failed: " +:+ m
  | CpStartupRecoveryUnavailable =>
      "Cloud Files connection is not accepting provider work during startup or shutdown"
  | CpHydrationCancelled => "Cloud Files hydration request was cancelled"
  | CpHydrationTimedOut => "Cloud Files hydration request exceeded its callback deadline"
  | CpSerialization m => "serialization error: " +:+ m
  | CpUuid m => "UUID parse error: " +:+ m
  end.

(** What the standard library says of an error of the system: its code, and whether its
    kind is [WouldBlock], [TimedOut] or [Interrupted]. *)
Class IoErrorView := {
  raw_os_error : IoError → option N;
  waiting_kind : IoError → bool;
}.

(** The attributes of a local file: its length and the time of its last change. *)
Definition LocalFiles := string → option (N * N).

Definition local_revision (files : LocalFiles) r : string :=
  let revision path :=
    match path ≫= files with
    | Some (len, modified) => pretty len +:+ ":" +:+ pretty modified
    | None => "missing"%string
    end in
  revision (mr_plaintext_path r) +:+ "|" +:+ revision (mr_target_plaintext_path r).

Definition ready (files : LocalFiles) (now : Z) r : bool :=
  if match mr_observed_local_state r with
     | Some previous => bool_decide (previous ≠ local_revision files r)
     | None => false
     end then true
  else
    (bool_decide (mr_state r ≠ PsNeedsAttention)
     || bool_decide (mr_kind r = MkWriteback)
        && (mr_attempts r <? MAX_WRITEBACK_ACCESS_DENIED_ATTEMPTS)%N
        && bool_decide (mr_last_error r = Some LEGACY_WRITEBACK_ACCESS_DENIED))
    && match mr_retry_after r with Some time => (time <=? now)%Z | None => true end.

Section Retry.
Context {view : IoErrorView}.

Definition sharing_code (code : option N) : bool :=
  match code with Some n => (n =? 32)%N || (n =? 33)%N || (n =? 112)%N | None => false end.

(** The error may pass by itself; the number of attempts counts this one. *)
Definition transient (kind : CloudMutationKind) (attempts : N) (error : CloudProviderError) : bool :=
  match error with
  | CpIo e => waiting_kind e || sharing_code (raw_os_error e)
  | CpProviderCore (PcIo e) =>
      sharing_code (raw_os_error e)
      || bool_decide (kind = MkWriteback) && bool_decide (raw_os_error e = Some 5%N)
         && (attempts <? MAX_WRITEBACK_ACCESS_DENIED_ATTEMPTS)%N
  | _ => false
  end.

(** The wait before the next attempt, in nanoseconds. *)
Definition backoff (attempts : N) : Z := (Z.min (Z.shiftl 1 (Z.of_N (N.min attempts 8))) 300 * 10 ^ 9)%Z.

(** [now] and [later] are the two readings of the clock. *)
Definition failed (files : LocalFiles) (now later : Z) (error : CloudProviderError) r : CloudMutationRecord :=
  let attempts := u32_saturating_add (mr_attempts r) 1 in
  let error_code :=
    match error with
    | CpProviderCore (PcCrypto MsLegacyCompatibilityRequired) => Some LegacyConsentRequired
    | CpProviderCore (PcCrypto (MsFileIntegrity _)) => Some IntegrityFailure
    | CpProviderCore (PcCrypto (MsKeyUnavailable _)) => Some KeyUnavailable
    | _ => None
    end in
  let transient := transient (mr_kind r) attempts error in
  mkCloudMutationRecord (mr_id r) (mr_sequence r) (mr_kind r) (mr_root_id r) (mr_relative_path r)
    (mr_target_relative_path r) (mr_plaintext_path r) (mr_target_plaintext_path r) (mr_identity r)
    (mr_expected_version r) attempts (Some (CloudProviderError_display error)) (mr_created_at r) now
    (if transient then PsRetryable else PsNeedsAttention) (mr_merged_records r)
    (if transient then Some (later + backoff attempts)%Z else None)
    (mr_committed_version r) (Some (local_revision files r)) error_code.

(** Failures one after the other: the readings of the clock and the error of each. *)
Fixpoint fail_all (files : LocalFiles) (failures : list (Z * Z * CloudProviderError)) r : CloudMutationRecord :=
  match failures with
  | [] => r
  | (now, later, error) :: failures => fail_all files failures (failed files now later error r)
  end.

Lemma backoff_bounds n : (10 ^ 9 ≤ backoff n ≤ 300 * 10 ^ 9)%Z.
Proof.
  unfold backoff. assert (1 ≤ Z.shiftl 1 (Z.of_N (N.min n 8)))%Z.
  { rewrite Z.shiftl_mul_pow2 by lia. pose proof (Z.pow_pos_nonneg 2 (Z.of_N (N.min n 8))). lia. }
  lia.
Qed.

(** A record that failed is tried again by itself only after an error that may pass,
    not before one second and at the latest five minutes after the failure; after any
    other error it waits for the user, or for a change of the local file. *)
Theorem failed_retry_window (files : LocalFiles) (now later at_ : Z) (error : CloudProviderError) r :
  CloudProviderError_display error ≠ LEGACY_WRITEBACK_ACCESS_DENIED ∨ mr_kind r ≠ MkWriteback →
  let r' := failed files now later error r in
  if transient (mr_kind r) (mr_attempts r') error then
    (ready files at_ r' = true → (later + 10 ^ 9 ≤ at_)%Z)
    ∧ ((later + 300 * 10 ^ 9 ≤ at_)%Z → ready files at_ r' = true)
  else ready files at_ r' = false.
Proof.
  intros L r'. pose proof (backoff_bounds (mr_attempts r')) as B. unfold ready.
  assert (O : mr_observed_local_state r' = Some (local_revision files r')) by done. rewrite O.
  rewrite bool_decide_eq_false_2 by naive_solver.
  assert (W : bool_decide (mr_kind r' = MkWriteback)
    && (mr_attempts r' <? MAX_WRITEBACK_ACCESS_DENIED_ATTEMPTS)%N
    && bool_decide (mr_last_error r' = Some LEGACY_WRITEBACK_ACCESS_DENIED) = false).
  { destruct L as [L|L].
    - rewrite (bool_decide_eq_false_2 (mr_last_error r' = _)); [apply andb_false_r|]. cbn. naive_solver.
    - by rewrite (bool_decide_eq_false_2 (mr_kind r' = _)). }
  rewrite W, orb_false_r.
  assert (S : mr_state r' = if transient (mr_kind r) (mr_attempts r') error then PsRetryable else PsNeedsAttention) by done.
  assert (R : mr_retry_after r' = if transient (mr_kind r) (mr_attempts r') error
    then Some (later + backoff (mr_attempts r'))%Z else None) by done.
  rewrite S, R. destruct (transient _ _ _); cbn [bool_decide andb].
  - rewrite bool_decide_eq_true_2 by done. rewrite andb_true_l, Z.leb_le. lia.
  - by rewrite bool_decide_eq_false_2 by naive_solver.
Qed.

Definition access_denied (error : CloudProviderError) : Prop :=
  ∃ e, error = CpProviderCore (PcIo e) ∧ raw_os_error e = Some 5%N.

Lemma fail_all_attempts files failures r :
  (N.min (mr_attempts r + N.of_nat (length failures)) 8 ≤ mr_attempts (fail_all files failures r))%N.
Proof.
  revert r. induction failures as [|[[now later] error] failures IH]; intros r; cbn [fail_all length]; [lia|].
  specialize (IH (failed files now later error r)).
  change (mr_attempts (failed files now later error r)) with (u32_saturating_add (mr_attempts r) 1) in IH.
  assert (N.min (mr_attempts r + 1) 8 ≤ u32_saturating_add (mr_attempts r) 1)%N
    by (unfold u32_saturating_add, U32_MAX; lia). lia.
Qed.
Lemma fail_all_app files l1 l2 r : fail_all files (l1 ++ l2) r = fail_all files l2 (fail_all files l1 r).
Proof. revert r. induction l1 as [|[[now later] error] l1 IH]; intros r; [done|]. apply IH. Qed.
Lemma fail_all_kind files failures r : mr_kind (fail_all files failures r) = mr_kind r.
Proof. revert r. induction failures as [|[[now later] error] l IH]; intros r; [done|]. cbn. by rewrite IH. Qed.

(** A write-back that is denied access is not retried for ever: after eight denials it
    waits for the user, and no passing of time makes it ready again. *)
Theorem access_denied_bounded (files : LocalFiles) (failures : list (Z * Z * CloudProviderError)) r :
  mr_kind r = MkWriteback → Forall (λ f, access_denied f.2) failures → 8 ≤ length failures →
  let r' := fail_all files failures r in
  mr_state r' = PsNeedsAttention ∧ ∀ at_, ready files at_ r' = false.
Proof.
  intros K F L r'. destruct failures as [|f failures _] using rev_ind; [cbn in L; lia|].
  apply Forall_app in F as [_ F]. inversion F as [|? ? D _]; subst. clear F.
  destruct f as [[now later] error], D as (e & E & C). cbn in E. subst error.
  pose proof (fail_all_attempts files (failures ++ [(now, later, CpProviderCore (PcIo e))]) r) as A.
  fold r' in A. assert (A8 : (8 ≤ mr_attempts r')%N) by lia.
  assert (R : r' = failed files now later (CpProviderCore (PcIo e)) (fail_all files failures r)).
  { unfold r'. by rewrite fail_all_app. }
  assert (T : transient (mr_kind (fail_all files failures r)) (mr_attempts r') (CpProviderCore (PcIo e)) = false).
  { unfold transient. rewrite C. cbn [sharing_code N.eqb Pos.eqb orb].
    rewrite (proj2 (N.ltb_ge _ _)) by done. apply andb_false_r. }
  assert (S : mr_state r' = PsNeedsAttention).
  { rewrite R in T |- *. cbn [failed mr_state]. cbn [failed mr_attempts] in T. by rewrite T. }
  split; [done|]. intros at_. unfold ready.
  assert (O : mr_observed_local_state r' = Some (local_revision files r')) by by rewrite R. rewrite O.
  rewrite bool_decide_eq_false_2 by naive_solver. rewrite S, (bool_decide_eq_false_2 (PsNeedsAttention ≠ _)) by naive_solver.
  unfold MAX_WRITEBACK_ACCESS_DENIED_ATTEMPTS. rewrite (proj2 (N.ltb_ge _ _)) by done. by rewrite andb_false_r.
Qed.
End Retry.

(** ** Replaying *)

Inductive ExpectedProviderVersion := EvUnchecked | EvAbsent | EvExact (v : ProviderContentVersion).

Definition kind_text (k : CloudMutationKind) : string :=
  match k with MkWriteback => "Writeback" | MkDelete => "Delete" | MkRename => "Rename" end.
Definition unsafe_replay_error r (reason : string) : CloudProviderError :=
  CpCallback ("refusing unsafe replay of " +:+ kind_text (mr_kind r) +:+ " for " +:+ mr_relative_path r
    +:+ ": " +:+ reason).

(** A component that names a place below the folder it is in. *)
Definition unsafe_component (c : string) : bool :=
  bool_decide (c = EmptyString) || bool_decide (c = "."%string) || bool_decide (c = ".."%string)
  || negb (avoids ":" c).
Definition validate_replay_relative_path r (path : string) : res CloudProviderError string :=
  let normalized := replace_char backslash slash path in
  if bool_decide (normalized = EmptyString) || starts_with_char slash normalized
     || existsb unsafe_component (split_on (is_char slash) normalized)
  then Err (unsafe_replay_error r "mutation path is not a safe relative path")
  else Ok normalized.

(** [serde_json] on identities. *)
Class IdentityJson := {
  identity_to_vec : FileIdentityV1 → res string bytes;
  identity_from_slice : bytes → res string FileIdentityV1;
}.
Class IdentityJsonLaws `{IdentityJson} : Prop :=
  identity_from_to i b : identity_to_vec i = Ok b → identity_from_slice b = Ok i.

Section Replay.
Context {sha : Sha256} {ij : IdentityJson}.

Definition FileIdentityV1_to_bytes (i : FileIdentityV1) : res ProviderCoreError bytes :=
  map_err PcIdentitySerialization (identity_to_vec i).
Definition FileIdentityV1_from_bytes (b : bytes) : res ProviderCoreError FileIdentityV1 :=
  let? identity := map_err PcIdentitySerialization (identity_from_slice b) in
  if negb (fi_version identity =? IDENTITY_VERSION)%N then
    Err (PcInvalidIdentity ("unsupported identity version " +:+ pretty (fi_version identity)))
  else if decide (fi_path_hash_hex identity ≠ hash_relative_path (fi_relative_path identity)) then
    Err (PcInvalidIdentity "relative path hash mismatch")
  else Ok identity.

(** The check of the identity of a record. *)
Definition validate_identity r (expected_root_id : Uuid) (relative_path : string) (identity : FileIdentityV1)
  : res CloudProviderError unit :=
  let refuse e := unsafe_replay_error r (ProviderCoreError_display e) in
  let? encoded := map_err refuse (FileIdentityV1_to_bytes identity) in
  let? validated := map_err refuse (FileIdentityV1_from_bytes encoded) in
  if decide (fi_root_id validated ≠ expected_root_id) then
    Err (unsafe_replay_error r "mutation identity belongs to another root")
  else if decide (fi_relative_path validated ≠ relative_path) then
    Err (unsafe_replay_error r "mutation identity path does not match the journal path")
  else
    let replayable := match mr_kind r, fi_kind validated with
                      | MkRename, PkDirectory => true
                      | _, PkFile => bool_decide (is_Some (fi_file_id validated))
                      | _, _ => false
                      end in
    if negb replayable then
      Err (unsafe_replay_error r "existing-object replay requires a stable supported identity")
    else Ok tt.

Definition shape_is_valid r : bool :=
  match mr_kind r with
  | MkWriteback =>
      bool_decide (mr_target_relative_path r = None) && bool_decide (mr_target_plaintext_path r = None)
  | MkDelete =>
      bool_decide (is_Some (mr_identity r)) && bool_decide (mr_plaintext_path r = None)
      && bool_decide (mr_target_relative_path r = None) && bool_decide (mr_target_plaintext_path r = None)
  | MkRename =>
      bool_decide (is_Some (mr_identity r)) && bool_decide (is_Some (mr_target_relative_path r))
      && negb (bool_decide (is_Some (mr_plaintext_path r)) && bool_decide (is_Some (mr_target_plaintext_path r)))
  end.

Definition replay_expected_version r (expected_root_id : Uuid)
  : res CloudProviderError ExpectedProviderVersion :=
  if decide (mr_root_id r ≠ expected_root_id) then
    Err (unsafe_replay_error r "mutation record belongs to another root")
  else
    let? relative_path := validate_replay_relative_path r (mr_relative_path r) in
    let? _ := match mr_target_relative_path r with
              | Some target => let? _ := validate_replay_relative_path r target in Ok tt
              | None => Ok tt
              end in
    let? _ := match mr_identity r with
              | Some identity => validate_identity r expected_root_id relative_path identity
              | None => Ok tt
              end in
    if negb (shape_is_valid r) then
      Err (unsafe_replay_error r "mutation record fields do not match the operation kind")
    else
      match mr_identity r, mr_expected_version r, mr_kind r with
      | None, None, MkWriteback => Ok EvAbsent
      | Some _, Some version, _ => Ok (EvExact version)
      | Some identity, None, MkRename =>
          if decide (fi_kind identity = PkDirectory) then Ok EvUnchecked
          else Err (unsafe_replay_error r
                 "mutation record has no valid exact or expected-absent precondition")
      | _, _, _ => Err (unsafe_replay_error r
                     "mutation record has no valid exact or expected-absent precondition")
      end.

(** The check before the source of a rename is replaced. *)
Definition validate_source r (entry : ProviderEntry) : res CloudProviderError unit :=
  let identity_matches := match mr_identity r with
    | Some id => bool_decide (fi_root_id id = pe_root_id entry) && bool_decide (fi_kind id = pe_kind entry)
                 && bool_decide (is_Some (fi_file_id id))
                 && bool_decide (fi_file_id id = fi_file_id (pe_identity entry))
    | None => false
    end in
  if negb identity_matches
     || bool_decide (pe_kind entry = PkFile)
        && (bool_decide (mr_expected_version r = None)
            || bool_decide (mr_expected_version r ≠ content_version entry))
  then Err (unsafe_replay_error r ("Original identity or content version changed; preserve local changes "
              +:+ "and resolve the conflict"))
  else Ok tt.

Definition validate_expected_content_version (relative_path : string) (expected : ExpectedProviderVersion)
    (actual : option ProviderContentVersion) : res ProviderCoreError unit :=
  let matches_ := match expected with
                  | EvUnchecked => true
                  | EvAbsent => bool_decide (actual = None)
                  | EvExact v => bool_decide (actual = Some v)
                  end in
  if matches_ then Ok tt
  else Err (PcContentConflict (normalize_relative_path relative_path)
              (match expected with EvExact v => Some v | _ => None end) actual).

(** A path whose components all lead downwards. *)
Definition stays_inside (path : string) : Prop :=
  Forall (λ c, c ≠ EmptyString ∧ c ≠ "."%string ∧ c ≠ ".."%string ∧ avoids ":" c = true)
    (split_on (is_char slash) (replace_char backslash slash path)).

Lemma validate_replay_inside r path p :
  validate_replay_relative_path r path = Ok p → p = replace_char backslash slash path ∧ stays_inside path.
Proof.
  unfold validate_replay_relative_path. destruct (_ || _) eqn:E; [done|]. intros H%Ok_inj. split; [done|].
  apply orb_false_iff in E as [_ E]. apply list.Forall_forall. intros c C.
  assert (U : unsafe_component c = false).
  { destruct (unsafe_component c) eqn:U; [|done]. rewrite <-E. symmetry. apply existsb_exists.
    exists c. split; [by apply list_elem_of_In|done]. }
  unfold unsafe_component in U. rewrite !orb_false_iff, !bool_decide_eq_false, negb_false_iff in U. naive_solver.
Qed.

Context {ijl : IdentityJsonLaws}.

Lemma validate_identity_Ok r root p i :
  validate_identity r root p i = Ok tt →
  fi_root_id i = root ∧ fi_relative_path i = p ∧ fi_path_hash_hex i = hash_relative_path p
  ∧ (fi_kind i = PkFile → is_Some (fi_file_id i)) ∧ (fi_kind i = PkDirectory → mr_kind r = MkRename).
Proof using ijl.
  unfold validate_identity. intros (b & B & H)%res_bind_Ok. apply res_bind_Ok in H as (v & V & H).
  rewrite map_err_Ok in B. rewrite map_err_Ok in V. unfold FileIdentityV1_to_bytes in B. rewrite map_err_Ok in B.
  unfold FileIdentityV1_from_bytes in V. rewrite (identity_from_to i b B) in V. cbn [map_err res_bind] in V.
  destruct (negb _); [done|].
  destruct (decide (fi_path_hash_hex i ≠ hash_relative_path (fi_relative_path i))) as [|D1%dec_stable]; [done|].
  apply Ok_inj in V as <-.
  destruct (decide (fi_root_id i ≠ root)) as [|D2%dec_stable]; [done|].
  destruct (decide (fi_relative_path i ≠ p)) as [|D3%dec_stable]; [done|].
  destruct (negb _) eqn:R; [done|]. apply negb_false_iff in R.
  split; [done|]. split; [done|]. split; [congruence|].
  destruct (mr_kind r), (fi_kind i); cbn in R; try done; rewrite ?bool_decide_eq_true in R; done.
Qed.

End Replay.

(** ** Concrete records *)

Definition toy_lowercase : Lowercase := to_lower.
Definition toy_io_view : IoErrorView := {|
  raw_os_error e := match io_kind e with OtherKind n => Some n | _ => None end;
  waiting_kind e := false;
|}.
#[export] Instance FileIdentityV1_countable : Countable FileIdentityV1.
Proof.
  refine (inj_countable' (λ i, (fi_version i, fi_root_id i, fi_kind i, fi_relative_path i, fi_path_hash_hex i,
      fi_file_id i, fi_epoch_id i)) (λ '(a, b, c, d, e, f, g), mkFileIdentityV1 a b c d e f g) _). by intros [].
Defined.
Definition toy_identity_json : IdentityJson := {|
  identity_to_vec i := Ok (ser_pos (encode i));
  identity_from_slice b :=
    match de_pos b with
    | Some (p, []) => match decode p with Some i => Ok i | None => Err "expected value"%string end
    | _ => Err "expected value"%string
    end;
|}.
Lemma toy_identity_json_laws : @IdentityJsonLaws toy_identity_json.
Proof.
  intros i b E. apply Ok_inj in E as <-. cbn. rewrite <-(app_nil_r (ser_pos _)), de_ser_pos. by rewrite decode_encode.
Qed.

Section Examples.
#[local] Existing Instances toy_lowercase toy_io_view toy_sha256 toy_identity_json.

Definition notes_identity : FileIdentityV1 :=
  FileIdentityV1_new (zeros 16) PkFile "notes/a.md" (Some "f1"%string) (Some 1%N).
(** The rename of a file, asked for at some place in the sequence. *)
Definition notes_rename (sequence : N) : CloudMutationRecord :=
  mkCloudMutationRecord (zeros 16) sequence MkRename (zeros 16) "notes/a.md" (Some "notes/b.md"%string) None None
    (Some notes_identity) (Some (mkProviderContentVersion "v1")) 1 None 0 (Z.of_N sequence) PsReady 0 None
    None None None.
Definition notes_write : CloudMutationRecord :=
  CloudMutationRecord_new (zeros 16) 0 MkWriteback (zeros 16) "notes/b.md" None.

Definition notes_backlog : list CloudMutationRecord := [notes_rename 3; notes_rename 1; notes_rename 2].

Definition denied : CloudProviderError :=
  CpProviderCore (PcIo (mkIoError (OtherKind 5) "Access is denied. (os error 5)")).
Definition no_files : LocalFiles := λ _, None.
Lemma access_denied_bounded_witness :
  mr_state (fail_all no_files (replicate 8 (0%Z, 0%Z, denied)) notes_write) = PsNeedsAttention.
Proof.
  refine (proj1 (access_denied_bounded no_files (replicate 8 (0%Z, 0%Z, denied)) notes_write _ _ _)).
  - reflexivity.
  - repeat (apply list.Forall_cons; split; [by eexists|]). constructor.
  - reflexivity.
Defined.

Lemma failed_retry_window_witness :
  ready no_files (400 * 10 ^ 9) (failed no_files 0 0 (CpIo (mkIoError (OtherKind 32) "busy")) notes_write) = true.
Proof.
  refine (proj2 (failed_retry_window no_files 0 0 (400 * 10 ^ 9) (CpIo (mkIoError (OtherKind 32) "busy"))
    notes_write _) _); [left; discriminate|discriminate].
Defined.

End Examples.
