(* ===== verification/MountCache.v ===== *)
(** * Caches of the mounted file system ([crates/mount/src/cache])

    Decrypted pieces of files ([chunks.rs]) and file attributes ([metadata.rs]) are kept
    in two [LruCache]s of the [lru] crate, behind a manager that suspends them after an
    invalidation or a migration ([mod.rs]).  The crate is a class with its documented
    laws; [f64] and [f32] are the binary formats of the Standard Library's
    specification of floating point.  Locks are taken for one access at a time, so a
    method is a function of the state; readings of the clock are arguments. *)

From Stdlib Require Import Strings.Byte Floats.SpecFloat.
From stdpp Require Import base tactics numbers sets list gmap strings option.
From S2P Require Import Prelude StateError.
Open Scope hc_scope.
Open Scope hc_st_scope.

(** ** Floating point

    [f64] has 53 bits of mantissa and exponents up to 1024, [f32] 24 and 128.  A
    conversion to an integer drops the fraction and saturates; not-a-number gives zero. *)

Definition f64 : Type := spec_float.
Definition f32 : Type := spec_float.
Definition f64_round (m e : Z) (negative_zero : bool) : f64 := binary_normalize 53 1024 m e negative_zero.
Definition f32_round (m e : Z) (negative_zero : bool) : f32 := binary_normalize 24 128 m e negative_zero.
Definition f64_of_u64 (n : N) : f64 := f64_round (Z.of_N n) 0 false.
Definition f64_of_f32 (x : f32) : f64 :=
  match x with
  | S754_finite s m e => f64_round (cond_Zopp s (Zpos m)) e s
  | _ => x
  end.
Definition f64_mul : f64 → f64 → f64 := SFmul 53 1024.
Definition f64_div : f64 → f64 → f64 := SFdiv 53 1024.
Definition f64_gt (a b : f64) : bool := SFltb b a.
Definition f64_zero : f64 := S754_zero false.
Definition f64_one : f64 := f64_of_u64 1.
Definition f64_clamp (x lo hi : f64) : f64 :=
  if SFltb x lo then lo else if SFltb hi x then hi else x.
Definition trunc_to_u64 (x : spec_float) : N :=
  match x with
  | S754_zero _ | S754_nan | S754_infinity true | S754_finite true _ _ => 0
  | S754_infinity false => U64 - 1
  | S754_finite false m e => N.min (Z.to_N (Z.shiftl (Zpos m) e)) (U64 - 1)
  end.

(** The literals [0.8_f32] and [0.8_f64]. *)
Definition f32_0_8 : f32 := S754_finite false 13421773 (-24).
Definition f64_0_8 : f64 := S754_finite false 7205759403792794 (-53).

(** ** The [lru] crate

    The entries are what [iter] visits, the most recently used first.  [put] replaces the
    value of a key or, in a full cache, drops the least recently used entry. *)

Class LruMap (K V C : Type) := {
  lru_new : N → C;
  lru_iter : C → list (K * V);
  lru_cap : C → N;
  lru_put : K → V → C → C;
  lru_pop : K → C → option V * C;
  lru_pop_lru : C → option (K * V) * C;
  lru_get_mut : K → (V → V) → C → option V * C;
}.

Section Entries.
Context {K V : Type} `{EqDecision K}.
Definition without (k : K) (l : list (K * V)) : list (K * V) := filter (λ e, e.1 ≠ k) l.
Definition assoc (k : K) (l : list (K * V)) : option V := snd <$> find (λ e, bool_decide (e.1 = k)) l.
Definition put_front (cap : N) (k : K) (v : V) (l : list (K * V)) : list (K * V) :=
  (k, v) :: (if decide (k ∈ l.*1) then without k l
             else if (N.of_nat (length l) <? cap)%N then l else removelast l).
End Entries.

Class LruLaws (K V C : Type) `{EqDecision K, LruMap K V C} := {
  lru_new_spec n : lru_iter (lru_new n) = [] ∧ lru_cap (lru_new n) = n;
  lru_put_spec k v c : lru_iter (lru_put k v c) = put_front (lru_cap c) k v (lru_iter c)
                       ∧ lru_cap (lru_put k v c) = lru_cap c;
  lru_pop_spec k c : (lru_pop k c).1 = assoc k (lru_iter c)
                     ∧ lru_iter (lru_pop k c).2 = without k (lru_iter c)
                     ∧ lru_cap (lru_pop k c).2 = lru_cap c;
  lru_pop_lru_spec c : (lru_pop_lru c).1 = head (reverse (lru_iter c))
                       ∧ lru_iter (lru_pop_lru c).2 = removelast (lru_iter c)
                       ∧ lru_cap (lru_pop_lru c).2 = lru_cap c;
  lru_get_mut_spec k f c :
    (lru_get_mut k f c).1 = f <$> assoc k (lru_iter c)
    ∧ lru_iter (lru_get_mut k f c).2 =
        match assoc k (lru_iter c) with
        | Some v => (k, f v) :: without k (lru_iter c)
        | None => lru_iter c
        end
    ∧ lru_cap (lru_get_mut k f c).2 = lru_cap c;
}.

(** ** Pieces of decrypted files ([chunks.rs]) *)

Record CacheKey := mkCacheKey {
  key_file_id : string;
  key_offset : N;
  key_size : N;
}.
#[export] Instance CacheKey_eq_dec : EqDecision CacheKey.
Proof. solve_decision. Defined.

Record CachedChunk := mkCachedChunk {
  ch_data : bytes;
  ch_epoch_id : string;
  ch_cache_time : Z;
  ch_access_count : N;
}.

Record CacheStats := mkCacheStats {
  st_hits : N;
  st_misses : N;
  st_evictions : N;
  st_total_bytes_cached : N;
  st_average_chunk_size : f64;
}.
Definition CacheStats_default : CacheStats := mkCacheStats 0 0 0 0 f64_zero.

Record ChunkCache (C : Type) := mkChunkCache {
  cc_cache : C;
  max_size_bytes : N;
  current_size_bytes : N;
  cc_stats : CacheStats;
}.
Arguments mkChunkCache {C}.
Arguments cc_cache {C}.
Arguments max_size_bytes {C}.
Arguments current_size_bytes {C}.
Arguments cc_stats {C}.

Definition blen (b : bytes) : N := N.of_nat (length b).

(** [data[from..to]]; out of range it panics. *)
Definition slice (from to : N) (data : bytes) : option bytes :=
  if (from <=? to)%N && (to <=? blen data)%N
  then Some (take (N.to_nat (to - from)) (drop (N.to_nat from) data))
  else None.

Section Chunks.
Context {C : Type} `{LruMap CacheKey CachedChunk C}.
Implicit Types c : ChunkCache C.

Definition with_cache (f : C → C) c : ChunkCache C :=
  mkChunkCache (f (cc_cache c)) (max_size_bytes c) (current_size_bytes c) (cc_stats c).
Definition with_size (f : N → N) c : ChunkCache C :=
  mkChunkCache (cc_cache c) (max_size_bytes c) (f (current_size_bytes c)) (cc_stats c).
Definition with_stats (f : CacheStats → CacheStats) c : ChunkCache C :=
  mkChunkCache (cc_cache c) (max_size_bytes c) (current_size_bytes c) (f (cc_stats c)).

Definition hit (s : CacheStats) : CacheStats :=
  mkCacheStats (u64_wrap (st_hits s + 1)) (st_misses s) (st_evictions s) (st_total_bytes_cached s)
    (st_average_chunk_size s).
Definition miss (s : CacheStats) : CacheStats :=
  mkCacheStats (st_hits s) (u64_wrap (st_misses s + 1)) (st_evictions s) (st_total_bytes_cached s)
    (st_average_chunk_size s).
Definition evicted (n : N) (s : CacheStats) : CacheStats :=
  mkCacheStats (st_hits s) (st_misses s) (u64_wrap (st_evictions s + n)) (st_total_bytes_cached s)
    (st_average_chunk_size s).

(** [(max_size_bytes / (64 * 1024)).max(1000)]. *)
Definition chunk_capacity (max_size : N) : N := N.max (max_size / 65536) 1000.
Definition ChunkCache_new (max_size : N) : ChunkCache C :=
  mkChunkCache (lru_new (chunk_capacity max_size)) max_size 0 CacheStats_default.

Definition exact_match (key : CacheKey) (e : CacheKey * CachedChunk) : bool :=
  bool_decide (key_file_id e.1 = key_file_id key) && (key_offset e.1 =? key_offset key)%N
  && (key_size key <=? blen (ch_data e.2))%N.
Definition touch (ch : CachedChunk) : CachedChunk :=
  mkCachedChunk (ch_data ch) (ch_epoch_id ch) (ch_cache_time ch) (u64_wrap (ch_access_count ch + 1)).

Definition get_exact_chunk (key : CacheKey) : ST (ChunkCache C) string (option bytes) :=
  let* c := st_get in
  match find (exact_match key) (lru_iter (cc_cache c)) with
  | Some (cached_key, cached_chunk) =>
      let chunk := touch cached_chunk in
      do* st_put (with_cache (lru_put cached_key chunk));
      do* st_put (with_stats hit);
      let end_offset := N.min (key_size key) (blen (ch_data chunk)) in
      let* data := st_lift (unwrap (slice 0 end_offset (ch_data chunk))) in
      st_ret (Some data)
  | None =>
      do* st_put (with_stats miss);
      st_ret None
  end.

(** Where a cached piece and a request overlap, as places in the file. *)
Definition overlap_range (offset size : N) (e : CacheKey * CachedChunk) : option (N * N) :=
  let cached_start := key_offset e.1 in
  let cached_end := u64_wrap (cached_start + blen (ch_data e.2)) in
  let request_end := u64_wrap (offset + size) in
  if (offset <? cached_end)%N && (cached_start <? request_end)%N then
    let overlap_start := N.max offset cached_start in
    let overlap_end := N.min request_end cached_end in
    if (overlap_start <? overlap_end)%N then Some (overlap_start, overlap_end) else None
  else None.

Fixpoint find_overlap (file_id : string) (offset size : N) (l : list (CacheKey * CachedChunk))
  : res string (option bytes) :=
  match l with
  | [] => Ok None
  | e :: l =>
      if bool_decide (key_file_id e.1 = file_id) then
        match overlap_range offset size e with
        | Some (overlap_start, overlap_end) =>
            let data_start := (overlap_start - key_offset e.1)%N in
            let data_end := (data_start + (overlap_end - overlap_start))%N in
            let? data := unwrap (slice data_start data_end (ch_data e.2)) in
            Ok (Some data)
        | None => find_overlap file_id offset size l
        end
      else find_overlap file_id offset size l
  end.

Definition get_overlapping_chunk (file_id : string) (offset size : N)
  : ST (ChunkCache C) string (option bytes) :=
  let* c := st_get in
  st_lift (find_overlap file_id offset size (lru_iter (cc_cache c))).

Definition ChunkCache_get_chunk (file_id : string) (offset size : N)
  : ST (ChunkCache C) string (option bytes) :=
  let* exact := get_exact_chunk (mkCacheKey file_id offset size) in
  match exact with
  | Some cached => st_ret (Some cached)
  | None => get_overlapping_chunk file_id offset size
  end.

(** The loop of [evict_chunks]: every turn drops an entry, so the number of entries is
    fuel enough. *)
Fixpoint evict_loop (fuel : nat) (bytes_to_free : N) (cache : C) (freed count : N) : N * N * C :=
  match fuel with
  | O => (freed, count, cache)
  | S fuel =>
      if (freed <? bytes_to_free)%N && negb (bool_decide (lru_iter cache = [])) then
        match lru_pop_lru cache with
        | (Some (_, chunk), cache) =>
            evict_loop fuel bytes_to_free cache (u64_wrap (freed + blen (ch_data chunk))) (u64_wrap (count + 1))
        | (None, cache) => evict_loop fuel bytes_to_free cache freed count
        end
      else (freed, count, cache)
  end.
Definition evict_chunks (bytes_to_free : N) : ST (ChunkCache C) string N :=
  let* c := st_get in
  let '(freed, count, cache) :=
    evict_loop (length (lru_iter (cc_cache c))) bytes_to_free (cc_cache c) 0 0 in
  do* st_put (with_cache (λ _, cache));
  do* st_put (with_size (λ size, size - freed)%N);
  do* st_put (with_stats (evicted count));
  st_ret freed.

Definition evict_lru (bytes_to_free : N) : ST (ChunkCache C) string N :=
  if (bytes_to_free =? 0)%N then st_ret 0%N else evict_chunks bytes_to_free.

Definition ensure_cache_space (required_bytes : N) : ST (ChunkCache C) string unit :=
  let* c := st_get in
  let wanted := u64_wrap (current_size_bytes c + required_bytes) in
  if (wanted <=? max_size_bytes c)%N then st_ret tt
  else
    let target_size := (u64_wrap (max_size_bytes c * 3) / 4)%N in
    let* _ := evict_chunks (wanted - target_size) in
    st_ret tt.

Definition account (data_size : N) c : ChunkCache C :=
  let entry_count := N.of_nat (length (lru_iter (cc_cache c))) in
  with_stats (λ s, mkCacheStats (st_hits s) (st_misses s) (st_evictions s)
                     (u64_wrap (st_total_bytes_cached s + data_size))
                     (if (0 <? entry_count)%N
                      then f64_div (f64_of_u64 (current_size_bytes c)) (f64_of_u64 entry_count)
                      else st_average_chunk_size s)) c.

Definition insert_chunk (file_id : string) (offset : N) (data : bytes) (now : Z)
  : ST (ChunkCache C) string unit :=
  let data_size := blen data in
  let* c := st_get in
  if (max_size_bytes c / 4 <? data_size)%N then st_ret tt
  else
    do* ensure_cache_space data_size;
    let key := mkCacheKey file_id offset data_size in
    let cached_chunk := mkCachedChunk data "current" now 1 in
    do* st_put (with_cache (lru_put key cached_chunk));
    do* st_put (with_size (λ size, u64_wrap (size + data_size)));
    st_put (account data_size).

Fixpoint pop_keys (keys : list CacheKey) (cache : C) (freed count : N) : N * N * C :=
  match keys with
  | [] => (freed, count, cache)
  | key :: keys =>
      match lru_pop key cache with
      | (Some chunk, cache) =>
          pop_keys keys cache (u64_wrap (freed + blen (ch_data chunk))) (u64_wrap (count + 1))
      | (None, cache) => pop_keys keys cache freed count
      end
  end.
Definition keys_of (file_id : string) (l : list (CacheKey * CachedChunk)) : list CacheKey :=
  filter (λ k, key_file_id k = file_id) l.*1.
Definition ChunkCache_invalidate_file (file_id : string) : ST (ChunkCache C) string N :=
  let* c := st_get in
  let '(freed, count, cache) := pop_keys (keys_of file_id (lru_iter (cc_cache c))) (cc_cache c) 0 0 in
  do* st_put (with_cache (λ _, cache));
  do* st_put (with_size (λ size, size - freed)%N);
  st_ret count.

Definition get_hit_rate c : f64 :=
  let total := u64_wrap (st_hits (cc_stats c) + st_misses (cc_stats c)) in
  if (0 <? total)%N then f64_div (f64_of_u64 (st_hits (cc_stats c))) (f64_of_u64 total) else f64_zero.
Definition get_utilization c : f64 :=
  f64_div (f64_of_u64 (current_size_bytes c)) (f64_of_u64 (max_size_bytes c)).
End Chunks.

(** ** Attributes of files ([metadata.rs]) *)

Record CachedMetadata := mkCachedMetadata {
  md_file_id : string;
  md_size : N;
  md_is_directory : bool;
  md_modified_time : Z;
  md_access_time : Z;
  md_creation_time : Z;
  md_permissions : N;
  md_epoch_id : string;
  md_cache_time : Z;
  md_access_count : N;
}.

Record MetadataCacheStats := mkMetadataCacheStats {
  ms_hits : N;
  ms_misses : N;
  ms_entries : N;
  ms_evictions : N;
}.

Record MetadataCache (M : Type) := mkMetadataCache {
  mc_cache : M;
  mc_stats : MetadataCacheStats;
}.
Arguments mkMetadataCache {M}.
Arguments mc_cache {M}.
Arguments mc_stats {M}.

Section Metadata.
Context {M : Type} `{LruMap string CachedMetadata M}.
Implicit Types m : MetadataCache M.

(** A capacity of zero makes [NonZeroUsize::new(..).unwrap()] panic. *)
Definition MetadataCache_new (max_entries : N) : res string (MetadataCache M) :=
  if (max_entries =? 0)%N then Panic
  else Ok (mkMetadataCache (lru_new max_entries) (mkMetadataCacheStats 0 0 0 0)).

Definition count_lookup (found : bool) (s : MetadataCacheStats) : MetadataCacheStats :=
  if found then mkMetadataCacheStats (u64_wrap (ms_hits s + 1)) (ms_misses s) (ms_entries s) (ms_evictions s)
  else mkMetadataCacheStats (ms_hits s) (u64_wrap (ms_misses s + 1)) (ms_entries s) (ms_evictions s).
Definition count_entries (f : N → N) (s : MetadataCacheStats) : MetadataCacheStats :=
  mkMetadataCacheStats (ms_hits s) (ms_misses s) (f (ms_entries s)) (ms_evictions s).

Definition visit (now : Z) (md : CachedMetadata) : CachedMetadata :=
  mkCachedMetadata (md_file_id md) (md_size md) (md_is_directory md) (md_modified_time md) now
    (md_creation_time md) (md_permissions md) (md_epoch_id md) (md_cache_time md)
    (u64_wrap (md_access_count md + 1)).
Definition get_metadata (file_id : string) (now : Z) m : option CachedMetadata * MetadataCache M :=
  let '(found, cache) := lru_get_mut file_id (visit now) (mc_cache m) in
  (found, mkMetadataCache cache (count_lookup (is_some found) (mc_stats m))).

Definition insert_metadata (metadata : CachedMetadata) m : MetadataCache M :=
  mkMetadataCache (lru_put (md_file_id metadata) metadata (mc_cache m))
    (count_entries (λ n, u64_wrap (n + 1)) (mc_stats m)).

Definition invalidate_metadata (file_id : string) m : bool * MetadataCache M :=
  match lru_pop file_id (mc_cache m) with
  | (Some _, cache) => (true, mkMetadataCache cache (count_entries N.pred (mc_stats m)))
  | (None, cache) => (false, mkMetadataCache cache (mc_stats m))
  end.

Fixpoint shrink_loop (fuel : nat) (max_entries : N) (cache : M) (removed : N) : N * M :=
  match fuel with
  | O => (removed, cache)
  | S fuel =>
      if (max_entries <? N.of_nat (length (lru_iter cache)))%N then
        match lru_pop_lru cache with
        | (Some _, cache) => shrink_loop fuel max_entries cache (removed + 1)
        | (None, cache) => (removed, cache)
        end
      else (removed, cache)
  end.
Definition shrink_to (max_entries : N) m : N * MetadataCache M :=
  let '(removed, cache) := shrink_loop (length (lru_iter (mc_cache m))) max_entries (mc_cache m) 0 in
  (removed, mkMetadataCache cache
     (if (0 <? removed)%N then count_entries (λ n, n - removed)%N (mc_stats m) else mc_stats m)).

Definition metadata_hit_rate m : f64 :=
  let total := u64_wrap (ms_hits (mc_stats m) + ms_misses (mc_stats m)) in
  if (0 <? total)%N then f64_div (f64_of_u64 (ms_hits (mc_stats m))) (f64_of_u64 total) else f64_zero.
End Metadata.

(** [size_of::<CachedMetadata>()], which the compiler chooses. *)
Class MetadataSize := metadata_size : N.
Definition estimated_memory_usage `{MetadataSize} {M} (m : MetadataCache M) : N :=
  u64_wrap (ms_entries (mc_stats m) * metadata_size).

(** ** The manager ([mod.rs]) *)

(** The manager's own [CachedChunk], with what the cache of chunks does not record filled
    in. *)
Record ManagedChunk := mkManagedChunk {
  mg_data : bytes;
  mg_epoch_id : N;
  mg_timestamp : Z;
  mg_ttl : Z;
  mg_access_count : N;
}.
(** [decrypt.rs]. *)
Record DecryptedChunk := mkDecryptedChunk {
  dc_data : bytes;
  dc_epoch_id : N;
  dc_decrypted_at : Z;
  dc_size : N;
  dc_from_cache : bool;
}.

Record CacheConfig := mkCacheConfig {
  max_chunk_cache_size : N;
  max_metadata_entries : N;
  default_ttl : Z;
  migration_aware : bool;
  memory_pressure_threshold : f32;
}.
Definition SECOND : Z := 1000000000.
Definition CacheConfig_default : CacheConfig :=
  mkCacheConfig (256 * 1024 * 1024) 10000 (300 * SECOND) true f32_0_8.

Record InvalidationTracker := mkInvalidationTracker {
  pending_files : gmap string Z;
  last_migration_event : option Z;
  epoch_markers : gmap N Z;
}.
Definition InvalidationTracker_default : InvalidationTracker := mkInvalidationTracker ∅ None ∅.

Record CacheManager (C M : Type) := mkCacheManager {
  chunk_cache : ChunkCache C;
  metadata_cache : MetadataCache M;
  invalidation_tracker : InvalidationTracker;
  cm_config : CacheConfig;
}.
Arguments mkCacheManager {C M}.
Arguments chunk_cache {C M}.
Arguments metadata_cache {C M}.
Arguments invalidation_tracker {C M}.
Arguments cm_config {C M}.

(** [since.elapsed().unwrap_or(Duration::ZERO)]. *)
Definition elapsed (since now : Z) : Z := Z.max 0 (now - since).

Section Manager.
Context {C M : Type} `{LruMap CacheKey CachedChunk C} `{LruMap string CachedMetadata M} `{MetadataSize}.
Implicit Types m : CacheManager C M.

Definition CacheManager_new (config : CacheConfig) : res string (CacheManager C M) :=
  let? metadata := MetadataCache_new (max_metadata_entries config) in
  Ok (mkCacheManager (ChunkCache_new (max_chunk_cache_size config)) metadata InvalidationTracker_default
        config).

Definition set_chunks (c : ChunkCache C) m : CacheManager C M :=
  mkCacheManager c (metadata_cache m) (invalidation_tracker m) (cm_config m).
Definition set_metadata (d : MetadataCache M) m : CacheManager C M :=
  mkCacheManager (chunk_cache m) d (invalidation_tracker m) (cm_config m).
Definition set_tracker (t : InvalidationTracker) m : CacheManager C M :=
  mkCacheManager (chunk_cache m) (metadata_cache m) t (cm_config m).
Definition on_chunks {A} (f : ST (ChunkCache C) string A) : ST (CacheManager C M) string A :=
  st_zoom chunk_cache set_chunks f.

Definition is_cache_entry_valid (file_id : string) (now : Z) m : bool :=
  let tracker := invalidation_tracker m in
  if match pending_files tracker !! file_id with
     | Some t => bool_decide (elapsed t now < 1 * SECOND)%Z
     | None => false
     end then false
  else if match last_migration_event tracker with
          | Some t => bool_decide (elapsed t now < 30 * SECOND)%Z
          | None => false
          end then false
  else true.

(** The two readings of the clock are the one of the check and the one of the stamp. *)
Definition CacheManager_get_chunk (key : CacheKey) (now stamp : Z)
  : ST (CacheManager C M) string (option ManagedChunk) :=
  let* m := st_get in
  if is_cache_entry_valid (key_file_id key) now m then
    let* found := st_try (F := string)
      (on_chunks (ChunkCache_get_chunk (key_file_id key) (key_offset key) (key_size key))) in
    match found with
    | inr (Some data) => st_ret (Some (mkManagedChunk data 0 stamp (300 * SECOND) 1))
    | _ => st_ret None
    end
  else st_ret None.

Definition store_chunk (key : CacheKey) (chunk : DecryptedChunk) (ttl now : Z)
  : ST (CacheManager C M) string unit :=
  let* _ := st_try (F := string)
    (on_chunks (insert_chunk (key_file_id key) (key_offset key) (dc_data chunk) now)) in
  st_ret tt.

Definition mark_file (file_id : string) (now : Z) m : CacheManager C M :=
  let t := invalidation_tracker m in
  set_tracker (mkInvalidationTracker (<[file_id := now]> (pending_files t)) (last_migration_event t)
                 (epoch_markers t)) m.
Definition CacheManager_invalidate_file (file_id : string) (now : Z) : ST (CacheManager C M) string unit :=
  let* _ := st_try (F := string) (on_chunks (ChunkCache_invalidate_file file_id)) in
  st_put (mark_file file_id now).

Definition invalidate_epoch (epoch_id : N) (now : Z) m : CacheManager C M :=
  let t := invalidation_tracker m in
  set_tracker (mkInvalidationTracker (pending_files t) (last_migration_event t)
                 (<[epoch_id := now]> (epoch_markers t))) m.
Definition handle_migration_event (from_epoch to_epoch : N) (now1 now2 : Z) m : CacheManager C M :=
  let m := invalidate_epoch from_epoch now1 m in
  let t := invalidation_tracker m in
  set_tracker (mkInvalidationTracker (pending_files t) (Some now2) (epoch_markers t)) m.

Definition estimate_memory_usage m : N :=
  u64_wrap (current_size_bytes (chunk_cache m) + estimated_memory_usage (metadata_cache m)).

(** [(threshold as f64 * 0.8).clamp(0.0, 1.0)]. *)
Definition target_utilization (config : CacheConfig) : f64 :=
  f64_clamp (f64_mul (f64_of_f32 (memory_pressure_threshold config)) f64_0_8) f64_zero f64_one.
Definition over_threshold (config : CacheConfig) (used capacity : N) : bool :=
  f64_gt (f64_div (f64_of_u64 used) (f64_of_u64 capacity)) (f64_of_f32 (memory_pressure_threshold config)).

Definition relieve_chunks : ST (CacheManager C M) string unit :=
  let* m := st_get in
  let capacity := max_size_bytes (chunk_cache m) in
  let usage := current_size_bytes (chunk_cache m) in
  if (0 <? capacity)%N && over_threshold (cm_config m) usage capacity then
    let target_bytes := trunc_to_u64 (f64_mul (f64_of_u64 capacity) (target_utilization (cm_config m))) in
    let bytes_to_free := (usage - target_bytes)%N in
    if (0 <? bytes_to_free)%N then
      let* _ := on_chunks (evict_lru bytes_to_free) in st_ret tt
    else st_ret tt
  else st_ret tt.
Definition relieve_metadata m : CacheManager C M :=
  let usage := estimated_memory_usage (metadata_cache m) in
  let capacity := N.min (max_metadata_entries (cm_config m) * metadata_size) (U64 - 1) in
  if (0 <? capacity)%N && over_threshold (cm_config m) usage capacity then
    let target_entries :=
      trunc_to_u64 (f64_mul (f64_of_u64 (max_metadata_entries (cm_config m))) (target_utilization (cm_config m))) in
    set_metadata (shrink_to target_entries (metadata_cache m)).2 m
  else m.
Definition handle_memory_pressure : ST (CacheManager C M) string N :=
  let* m := st_get in
  let initial_usage := estimate_memory_usage m in
  do* relieve_chunks;
  do* st_put relieve_metadata;
  let* m := st_get in
  st_ret (initial_usage - estimate_memory_usage m)%N.
End Manager.

(** ** Which entry to drop first ([eviction.rs]) *)

Inductive EvictionPolicy := LRU | LFU | TimeToLive (ttl : Z) | SizePriority.

(** [Duration::as_secs_f64]: whole seconds, plus the rest divided by a thousand million. *)
Definition as_secs_f64 (d : Z) : f64 :=
  SFadd 53 1024 (f64_of_u64 (Z.to_N (d / SECOND)))
    (f64_div (f64_of_u64 (Z.to_N (d mod SECOND))) (f64_of_u64 (Z.to_N SECOND))).
Definition f64_MAX : f64 := S754_finite false 9007199254740991 971.

Definition calculate_priority (policy : EvictionPolicy) (access_count : N) (last_access now : Z) (size : N)
    (age : Z) : f64 :=
  match policy with
  | LRU => if (last_access <=? now)%Z then as_secs_f64 (now - last_access) else f64_zero
  | LFU => if (0 <? access_count)%N then f64_div f64_one (f64_of_u64 access_count) else f64_MAX
  | TimeToLive ttl =>
      if (ttl <? age)%Z then f64_MAX
      else f64_div (SFsub 53 1024 (as_secs_f64 ttl) (as_secs_f64 age)) (as_secs_f64 ttl)
  | SizePriority =>
      let frequency_factor := if (0 <? access_count)%N then f64_div f64_one (f64_of_u64 access_count)
                              else f64_one in
      let size_factor := f64_div (f64_of_u64 size) (f64_mul (f64_of_u64 1024) (f64_of_u64 1024)) in
      f64_mul frequency_factor size_factor
  end.
Definition should_evict (policy : EvictionPolicy) (age : Z) : bool :=
  match policy with TimeToLive ttl => (ttl <? age)%Z | _ => false end.

(** ** Entries of the crate: what the laws give *)

Section EntryLemmas.
Context {K V : Type} `{EqDecision K}.
Implicit Types (k : K) (v : V) (l : list (K * V)).

Lemma elem_of_without k e l : e ∈ without k l ↔ e.1 ≠ k ∧ e ∈ l.
Proof. unfold without. by rewrite list_elem_of_filter. Qed.
Lemma without_sublist k l : without k l `sublist_of` l.
Proof. apply sublist_filter. Qed.
Lemma without_fresh k l : k ∉ l.*1 → without k l = l.
Proof.
  induction l as [|e l IH]; [done|]. simpl. intros [Hk Hl]%not_elem_of_cons.
  unfold without in *. rewrite filter_cons_True by congruence. by rewrite IH.
Qed.
Lemma removelast_sublist l : removelast l `sublist_of` l.
Proof.
  induction l as [|e l IH]; [done|]. simpl. destruct l as [|e' l]; [by apply sublist_cons|].
  by constructor.
Qed.
Lemma assoc_Some k v l : assoc k l = Some v → (k, v) ∈ l.
Proof.
  unfold assoc. destruct (find _ l) as [[k' v']|] eqn:E; [|done]. intros [= <-].
  apply find_some in E as [Hin Hk]. simpl in Hk. apply bool_decide_eq_true in Hk. subst.
  by apply list_elem_of_In.
Qed.
Lemma assoc_None k l : assoc k l = None → k ∉ l.*1.
Proof.
  unfold assoc. destruct (find _ l) as [[k' v']|] eqn:E; [done|]. intros _ Hk.
  apply list_elem_of_fmap in Hk as ([k' v'] & -> & Hin).
  eapply find_none in E; [|by apply list_elem_of_In]. simpl in E. by rewrite bool_decide_eq_true_2 in E.
Qed.

Lemma put_front_keys cap k v l : NoDup l.*1 → NoDup (put_front cap k v l).*1.
Proof.
  intros Hl. unfold put_front. simpl. apply list.NoDup_cons. case_decide as Hk; [split|split].
  - intros Hin. apply list_elem_of_fmap in Hin as (e & -> & He). by apply elem_of_without in He as [? _].
  - eapply sublist_NoDup; [exact Hl|]. by apply fmap_sublist, without_sublist.
  - intros Hin. apply Hk. destruct (_ <? _)%N; [done|].
    apply list_elem_of_fmap in Hin as (e & -> & He). apply list_elem_of_fmap_2.
    by eapply elem_of_sublist, removelast_sublist.
  - destruct (_ <? _)%N; [done|]. eapply sublist_NoDup; [exact Hl|].
    by apply fmap_sublist, removelast_sublist.
Qed.
Lemma elem_of_put_front cap k v e l : e ∈ put_front cap k v l → e = (k, v) ∨ e ∈ l.
Proof.
  unfold put_front. intros He. apply elem_of_cons in He as [->|He]; [by left|right].
  case_decide; [by apply elem_of_without in He as [_ ?]|]. destruct (_ <? _)%N; [done|].
  by eapply elem_of_sublist, removelast_sublist.
Qed.
Lemma length_removelast l : length (removelast l) = pred (length l).
Proof. induction l as [|e [|e' l] IH]; [done|done|]. cbn [removelast length] in *. lia. Qed.
Lemma put_front_length cap k v l :
  (0 < cap)%N → (N.of_nat (length l) ≤ cap)%N → (N.of_nat (length (put_front cap k v l)) ≤ cap)%N.
Proof.
  intros Hc Hl. unfold put_front. cbn [length]. case_decide as Hk.
  - apply list_elem_of_fmap in Hk as ([k' v'] & -> & Hin). simpl.
    assert (length (without k' l) < length l); [|lia].
    apply length_filter_lt with (x := (k', v')); [done|]. simpl. naive_solver.
  - destruct (N.ltb_spec (N.of_nat (length l)) cap); [lia|]. rewrite length_removelast. lia.
Qed.
Lemma removelast_last l e : head (reverse l) = Some e → l = removelast l ++ [e].
Proof.
  destruct l as [|x l] using rev_ind; [done|]. rewrite reverse_snoc. intros [= ->].
  by rewrite List.removelast_last.
Qed.
Lemma head_reverse_None l : head (reverse l) = None → l = [].
Proof. destruct l as [|x l] using rev_ind; [done|]. by rewrite reverse_snoc. Qed.
End EntryLemmas.

(** ** A list as the crate's cache

    It satisfies the laws, so that every statement about the caches can be evaluated. *)

Record lru_list (K V : Type) := mkLruList {
  ll_cap : N;
  ll_entries : list (K * V);
}.
Arguments mkLruList {K V}.
Arguments ll_cap {K V}.
Arguments ll_entries {K V}.
#[export] Instance lru_list_map {K V} `{EqDecision K} : LruMap K V (lru_list K V) := {
  lru_new n := mkLruList n [];
  lru_iter := ll_entries;
  lru_cap := ll_cap;
  lru_put k v c := mkLruList (ll_cap c) (put_front (ll_cap c) k v (ll_entries c));
  lru_pop k c := (assoc k (ll_entries c), mkLruList (ll_cap c) (without k (ll_entries c)));
  lru_pop_lru c := (head (reverse (ll_entries c)), mkLruList (ll_cap c) (removelast (ll_entries c)));
  lru_get_mut k f c :=
    match assoc k (ll_entries c) with
    | Some v => (Some (f v), mkLruList (ll_cap c) ((k, f v) :: without k (ll_entries c)))
    | None => (None, c)
    end;
}.
#[export] Instance lru_list_laws {K V} `{EqDecision K} : LruLaws K V (lru_list K V).
Proof.
  split; try done. intros k f c. unfold lru_get_mut, lru_iter. simpl. by destruct (assoc k (ll_entries c)).
Qed.

(** ** Bytes that the cache of chunks holds *)

Definition resident (l : list (CacheKey * CachedChunk)) : N :=
  foldr (λ e n, blen (ch_data e.2) + n)%N 0%N l.

Lemma resident_app l1 l2 : resident (l1 ++ l2) = (resident l1 + resident l2)%N.
Proof. induction l1 as [|e l1 IH]; simpl; [done|]. rewrite IH. lia. Qed.
Lemma resident_sublist l1 l2 : l1 `sublist_of` l2 → (resident l1 ≤ resident l2)%N.
Proof. induction 1; simpl; lia. Qed.
Lemma resident_without_in k v l :
  NoDup l.*1 → (k, v) ∈ l → resident l = (blen (ch_data v) + resident (without k l))%N.
Proof.
  induction l as [|[k' v'] l IH]; [by intros _ []%not_elem_of_nil|]. simpl. intros [Hk Hl]%list.NoDup_cons Hin.
  unfold without. rewrite filter_cons. simpl. destruct (decide (k' ≠ k)) as [Hne|E%dec_stable]; [|subst k'].
  - apply elem_of_cons in Hin as [[=]|Hin]; [done|]. rewrite (IH Hl Hin). simpl. unfold without. lia.
  - apply elem_of_cons in Hin as [[= ->]|Hin].
    + by rewrite <-(without_fresh k l Hk) at 1.
    + destruct Hk. by apply (list_elem_of_fmap_2 fst _ (k, v)).
Qed.
Lemma resident_put cap k v l : (resident (put_front cap k v l) ≤ blen (ch_data v) + resident l)%N.
Proof.
  unfold put_front. simpl. case_decide.
  - pose proof (resident_sublist _ _ (without_sublist k l)). lia.
  - destruct (_ <? _)%N; [lia|]. pose proof (resident_sublist _ _ (removelast_sublist l)). lia.
Qed.
Lemma resident_put_ge cap k v l : (blen (ch_data v) ≤ resident (put_front cap k v l))%N.
Proof. unfold put_front. simpl. lia. Qed.
(** Putting a cached piece back makes room for itself. *)
Lemma resident_put_back cap k v w l :
  NoDup l.*1 → (k, v) ∈ l → ch_data w = ch_data v → resident (put_front cap k w l) = resident l.
Proof.
  intros Hl Hin Hd. unfold put_front. simpl. rewrite decide_True.
  - rewrite Hd. by rewrite (resident_without_in k v l).
  - by apply (list_elem_of_fmap_2 fst _ (k, v)).
Qed.
Lemma resident_pop_lru l e :
  head (reverse l) = Some e → resident l = (resident (removelast l) + blen (ch_data e.2))%N.
Proof. intros He. rewrite (removelast_last l e He) at 1. rewrite resident_app. simpl. lia. Qed.

(** ** What the operations on chunks keep *)

Section ChunkInvariant.
Context {C : Type} {LM : LruMap CacheKey CachedChunk C} {LL : LruLaws CacheKey CachedChunk C}.
Implicit Types c : ChunkCache C.

Definition entries c : list (CacheKey * CachedChunk) := lru_iter (cc_cache c).

(** The bytes held never exceed the limit and are counted.  The count may exceed them,
    because replacing an entry counts its bytes again, and an entry dropped by the crate
    is not discounted; it stays below one and a quarter times the limit.  [Q] is what is
    known of every piece, for instance that it is a piece of a file. *)
Record chunk_inv (max : N) (Q : CacheKey → bytes → Prop) c : Prop := {
  ci_max : max_size_bytes c = max;
  ci_keys : NoDup (entries c).*1;
  ci_resident : (resident (entries c) ≤ max)%N;
  ci_counted : (resident (entries c) ≤ current_size_bytes c)%N;
  ci_drift : (current_size_bytes c ≤ resident (entries c) + max)%N;
  ci_current : (current_size_bytes c ≤ max + max / 4)%N;
  ci_pieces : ∀ k ch, (k, ch) ∈ entries c → Q k (ch_data ch);
}.

Variables (max : N) (Q : CacheKey → bytes → Prop).
Hypothesis max_fits : (max * 3 < U64)%N.

Lemma new_inv : chunk_inv max Q (ChunkCache_new max).
Proof.
  clear max_fits. destruct (lru_new_spec (chunk_capacity max)) as [E _].
  assert (entries (ChunkCache_new max) = []) as Ee by exact E.
  split; rewrite ?Ee; simpl; try (done || lia || apply N.le_0_l); [apply NoDup_nil_2|]. by intros ? ? []%not_elem_of_nil.
Qed.

(** A smaller cache that is discounted by what it lost. *)
Lemma inv_shrink c cache size :
  chunk_inv max Q c → lru_iter cache `sublist_of` entries c →
  size = (current_size_bytes c - (resident (entries c) - resident (lru_iter cache)))%N →
  chunk_inv max Q (mkChunkCache cache (max_size_bytes c) size (cc_stats c)).
Proof.
  intros [H1 H2 H3 H4 H5 H6 H7] Hs ->. pose proof (resident_sublist _ _ Hs).
  split; unfold entries in *; simpl; try (done || lia).
  - eapply sublist_NoDup; [exact H2|]. by apply fmap_sublist.
  - intros k ch Hin. apply H7. by eapply elem_of_sublist.
Qed.
Lemma inv_stats f c : chunk_inv max Q c → chunk_inv max Q (with_stats f c).
Proof. intros []. by split. Qed.

Lemma inv_touch k ch c :
  chunk_inv max Q c → (k, ch) ∈ entries c →
  chunk_inv max Q (with_cache (lru_put k (touch ch)) c).
Proof.
  intros [H1 H2 H3 H4 H5 H6 H7] Hin.
  destruct (lru_put_spec k (touch ch) (cc_cache c)) as [E _].
  assert (resident (lru_iter (lru_put k (touch ch) (cc_cache c))) = resident (entries c)) as Er.
  { rewrite E. by eapply resident_put_back. }
  split; unfold entries, with_cache in *; simpl; rewrite ?Er; try (done || lia).
  - rewrite E. by apply put_front_keys.
  - intros k' ch' Hin'. rewrite E in Hin'. apply elem_of_put_front in Hin' as [[= -> ->]|Hin']; [|auto].
    exact (H7 k ch Hin).
Qed.

Lemma get_exact_keeps key : keeps (chunk_inv max Q) (get_exact_chunk key).
Proof.
  intros c Hc. unfold get_exact_chunk. rewrite st_bind_get.
  destruct (find _ _) as [[k ch]|] eqn:E; [|by apply inv_stats].
  apply find_some in E as [Hin _]. apply list_elem_of_In in Hin.
  apply keeps_bind_at; [by apply inv_touch|]. intros []. apply keeps_bind.
  - apply keeps_put. intros s. apply inv_stats.
  - intros []. keep_st.
Qed.
Lemma get_chunk_keeps file_id offset size :
  keeps (chunk_inv max Q) (ChunkCache_get_chunk file_id offset size).
Proof. apply keeps_bind; [apply get_exact_keeps|]. intros [cached|]; unfold get_overlapping_chunk; keep_st. Qed.

(** *** Making room *)

Lemma evict_loop_spec fuel bytes_to_free cache freed count :
  length (lru_iter cache) ≤ fuel → (freed + resident (lru_iter cache) < U64)%N →
  ∃ dropped freed' count' cache',
    evict_loop fuel bytes_to_free cache freed count = (freed', count', cache') ∧
    lru_iter cache = lru_iter cache' ++ dropped ∧
    freed' = (freed + resident dropped)%N ∧
    ((bytes_to_free ≤ freed')%N ∨ lru_iter cache' = []).
Proof.
  revert cache freed count. induction fuel as [|fuel IH]; intros cache freed count Hf Hr; simpl.
  { exists [], freed, count, cache. split_and!; simpl; try done; [by rewrite app_nil_r|lia|].
    right. destruct (lru_iter cache); [done|simpl in Hf; lia]. }
  destruct (N.ltb_spec freed bytes_to_free) as [Hlt|Hge]; simpl.
  2:{ exists [], freed, count, cache. split_and!; simpl; try done; [by rewrite app_nil_r|lia|by left]. }
  case_bool_decide as Hnil; simpl.
  { exists [], freed, count, cache. split_and!; simpl; try done; [by rewrite app_nil_r|lia|by right]. }
  destruct (lru_pop_lru_spec cache) as (E1 & E2 & _).
  destruct (lru_pop_lru cache) as [[[k ch]|] cache1]; simpl in *; symmetry in E1.
  2:{ by apply head_reverse_None in E1. }
  pose proof (removelast_last _ _ E1) as El. pose proof (resident_pop_lru _ _ E1) as Er. simpl in Er.
  assert (length (lru_iter cache) = S (length (lru_iter cache1))) as Elen.
  { rewrite El, length_app, E2. simpl. lia. }
  assert (u64_wrap (freed + blen (ch_data ch)) = freed + blen (ch_data ch))%N as Ew.
  { apply N.mod_small. rewrite <-E2 in Er. lia. }
  rewrite Ew. destruct (IH cache1 (freed + blen (ch_data ch))%N (u64_wrap (count + 1)))
    as (dropped & freed' & count' & cache' & -> & Ed & -> & Hend).
  { lia. } { rewrite E2. lia. }
  exists (dropped ++ [(k, ch)]), (freed + blen (ch_data ch) + resident dropped)%N, count', cache'.
  split_and!; [done| |rewrite resident_app; simpl; lia|done].
  rewrite app_assoc, <-Ed, E2. exact El.
Qed.

(** Dropping pieces until enough bytes are free or none is left. *)
Lemma evict_chunks_spec bytes_to_free c :
  chunk_inv max Q c →
  ∃ freed c', evict_chunks bytes_to_free c = (Ok freed, c') ∧ chunk_inv max Q c' ∧
    entries c' `sublist_of` entries c ∧
    freed = (resident (entries c) - resident (entries c'))%N ∧
    current_size_bytes c' = (current_size_bytes c - freed)%N ∧
    ((bytes_to_free ≤ freed)%N ∨ entries c' = []).
Proof.
  intros Hc. pose proof Hc as [H1 H2 H3 H4 H5 H6 H7]. unfold evict_chunks. rewrite st_bind_get.
  destruct (evict_loop_spec (length (lru_iter (cc_cache c))) bytes_to_free (cc_cache c) 0 0)
    as (dropped & freed & count & cache & -> & Ed & Ef & Hend); [done|unfold entries in *; lia|].
  assert (lru_iter cache `sublist_of` entries c) as Hs.
  { unfold entries. rewrite Ed. by apply sublist_inserts_r. }
  assert (freed = (resident (entries c) - resident (lru_iter cache))%N) as Ef'.
  { unfold entries. rewrite Ed, resident_app, Ef. lia. }
  eexists freed, _. split; [reflexivity|]. split_and!; try done.
  apply inv_stats. apply (inv_shrink c cache _ Hc Hs). unfold with_size, with_cache. simpl. by rewrite Ef'.
Qed.

Lemma ensure_cache_space_spec required c :
  chunk_inv max Q c → (required ≤ max / 4)%N →
  ∃ c', ensure_cache_space required c = (Ok tt, c') ∧ chunk_inv max Q c' ∧
    entries c' `sublist_of` entries c ∧
    ((current_size_bytes c' + required ≤ max)%N ∨ entries c' = []).
Proof.
  intros Hc Hr. pose proof Hc as [H1 H2 H3 H4 H5 H6 H7].
  pose proof (N.Div0.mul_div_le max 4) as Hd.
  unfold ensure_cache_space. rewrite st_bind_get. unfold u64_wrap.
  rewrite (N.mod_small (current_size_bytes c + required)) by lia.
  rewrite H1, (N.mod_small (max * 3)) by lia.
  destruct (N.leb_spec (current_size_bytes c + required) max) as [Hle|Hgt].
  { exists c. split_and!; try done. by left. }
  destruct (evict_chunks_spec (current_size_bytes c + required - max * 3 / 4) c Hc)
    as (freed & c' & E & Hc' & Hs & Ef & Ec & Hend).
  unfold st_bind. rewrite E. exists c'. split_and!; try done.
  destruct Hend as [Hend|Hend]; [left|by right].
  pose proof (N.Div0.mul_div_le (max * 3) 4). pose proof (ci_counted _ _ _ Hc').
  pose proof (resident_sublist _ _ Hs). lia.
Qed.

Lemma insert_chunk_spec file_id offset data now c :
  chunk_inv max Q c → Q (mkCacheKey file_id offset (blen data)) data →
  ∃ c', insert_chunk file_id offset data now c = (Ok tt, c') ∧ chunk_inv max Q c' ∧
    ((max / 4 < blen data)%N ∧ c' = c ∨
     (blen data ≤ max / 4)%N ∧
     head (entries c') = Some (mkCacheKey file_id offset (blen data), mkCachedChunk data "current" now 1)).
Proof.
  intros Hc HQ. unfold insert_chunk. rewrite st_bind_get, (ci_max _ _ _ Hc).
  destruct (N.ltb_spec (max / 4) (blen data)) as [Hbig|Hfit]; [exists c; naive_solver|].
  destruct (ensure_cache_space_spec (blen data) c Hc Hfit) as (c1 & E1 & Hc1 & Hs1 & Hroom).
  unfold st_bind. rewrite E1. unfold st_put.
  eexists _. split; [reflexivity|].
  pose proof Hc1 as [H1 H2 H3 H4 H5 H6 H7].
  pose proof (N.Div0.mul_div_le max 4) as Hd.
  destruct (lru_put_spec (mkCacheKey file_id offset (blen data)) (mkCachedChunk data "current" now 1)
              (cc_cache c1)) as [E _].
  pose proof (resident_put (lru_cap (cc_cache c1)) (mkCacheKey file_id offset (blen data))
                (mkCachedChunk data "current" now 1) (entries c1)) as Hp. cbn [ch_data] in Hp.
  pose proof (resident_put_ge (lru_cap (cc_cache c1)) (mkCacheKey file_id offset (blen data))
                (mkCachedChunk data "current" now 1) (entries c1)) as Hge. cbn [ch_data] in Hge.
  assert ((current_size_bytes c1 + blen data ≤ max)%N ∨ resident (entries c1) = 0%N) as Hroom'.
  { destruct Hroom as [?|Hnil]; [by left|right]. by rewrite Hnil. }
  split; [|right; split; [done|]; unfold entries, account, with_size, with_cache; simpl; by rewrite E].
  apply inv_stats. unfold with_size, with_cache. simpl. unfold u64_wrap.
  rewrite (N.mod_small (current_size_bytes c1 + blen data)) by lia.
  split; unfold entries in *; simpl; rewrite ?E; try (done || lia).
  - by apply put_front_keys.
  - intros k ch Hin. apply elem_of_put_front in Hin as [[= -> ->]|Hin]; [done|auto].
Qed.
End ChunkInvariant.

(** ** Invalidating a file *)

Section Invalidate.
Context {C : Type} {LM : LruMap CacheKey CachedChunk C} {LL : LruLaws CacheKey CachedChunk C}.
Implicit Types c : ChunkCache C.

Lemma pop_keys_spec keys cache freed count :
  NoDup (lru_iter cache).*1 → (freed + resident (lru_iter cache) < U64)%N →
  ∃ freed' count' cache',
    pop_keys keys cache freed count = (freed', count', cache') ∧
    lru_iter cache' = filter (λ e, e.1 ∉ keys) (lru_iter cache) ∧
    (freed' + resident (lru_iter cache') = freed + resident (lru_iter cache))%N.
Proof.
  revert cache freed count. induction keys as [|key keys IH]; intros cache freed count Hk Hr; simpl.
  { exists freed, count, cache. split_and!; [done| |done]. symmetry.
    clear. induction (lru_iter cache) as [|e l IH]; [done|].
    rewrite filter_cons_True by apply not_elem_of_nil. by f_equal. }
  destruct (lru_pop_spec key cache) as (E1 & E2 & _).
  assert (∀ l : list (CacheKey * CachedChunk),
            filter (λ e, e.1 ∉ keys) (without key l) = filter (λ e, e.1 ∉ key :: keys) l) as Ef.
  { intros l. unfold without. rewrite list_filter_filter. apply list_filter_iff. intros e. set_solver. }
  assert (NoDup (without key (lru_iter cache)).*1) as Hk'.
  { eapply sublist_NoDup; [exact Hk|]. by apply fmap_sublist, without_sublist. }
  destruct (lru_pop key cache) as [[ch|] cache1]; simpl in *; symmetry in E1.
  - apply assoc_Some in E1. pose proof (resident_without_in _ _ _ Hk E1) as Er.
    assert (u64_wrap (freed + blen (ch_data ch)) = freed + blen (ch_data ch))%N as Ew.
    { apply N.mod_small. lia. }
    rewrite Ew.
    destruct (IH cache1 (freed + blen (ch_data ch))%N (u64_wrap (count + 1))) as (f & n & c' & -> & Ei & Hs).
    { by rewrite E2. } { rewrite E2. lia. }
    exists f, n, c'. rewrite E2 in Hs. split_and!; [done|by rewrite Ei, E2|lia].
  - apply assoc_None, without_fresh in E1. rewrite E1 in E2, Hk'.
    destruct (IH cache1 freed count) as (f & n & c' & -> & Ei & Hs); [by rewrite E2..|].
    exists f, n, c'. split_and!; [done|by rewrite Ei, E2, <-Ef, E1|by rewrite Hs, E2].
Qed.

Lemma invalidate_file_spec max Q file_id c :
  (max * 3 < U64)%N → chunk_inv max Q c →
  ∃ n c', ChunkCache_invalidate_file file_id c = (Ok n, c') ∧ chunk_inv max Q c' ∧
    entries c' `sublist_of` entries c ∧
    (∀ e, e ∈ entries c' ↔ e ∈ entries c ∧ key_file_id e.1 ≠ file_id).
Proof.
  intros Hm Hc. pose proof Hc as [H1 H2 H3 H4 H5 H6 H7].
  unfold ChunkCache_invalidate_file. rewrite st_bind_get.
  destruct (pop_keys_spec (keys_of file_id (lru_iter (cc_cache c))) (cc_cache c) 0 0)
    as (freed & n & cache & -> & E & Hs); [done|unfold entries in *; lia|].
  assert (lru_iter cache `sublist_of` entries c) as Hsub by (rewrite E; apply sublist_filter).
  eexists n, _. split; [reflexivity|]. split_and!.
  - unfold with_size, with_cache. simpl. eapply inv_shrink; [done..|]. unfold entries in *. lia.
  - exact Hsub.
  - intros e. unfold entries. simpl. rewrite E, list_elem_of_filter. unfold keys_of.
    rewrite list_elem_of_filter. split.
    + intros [Hn Hin]. split; [done|]. intros Ee. apply Hn. split; [done|]. by apply list_elem_of_fmap_2.
    + intros [Hin Hne]. split; [|done]. naive_solver.
Qed.
End Invalidate.

(** ** What a lookup returns *)

Section Lookup.
Context {C : Type} {LM : LruMap CacheKey CachedChunk C} {LL : LruLaws CacheKey CachedChunk C}.
Implicit Types c : ChunkCache C.

(** [len] bytes of a file from [offset] on, fewer at its end. *)
Definition piece (offset len : N) (content : bytes) : bytes :=
  take (N.to_nat len) (drop (N.to_nat offset) content).

Lemma piece_blen offset len content : (blen (piece offset len content) = N.min len (blen content - offset))%N.
Proof. unfold blen, piece. rewrite length_take, length_drop. lia. Qed.
Lemma piece_piece o1 l1 o2 l2 content :
  (o2 + l2 ≤ l1)%N → piece o2 l2 (piece o1 l1 content) = piece (o1 + o2) l2 content.
Proof.
  intros Hl. unfold piece. rewrite skipn_firstn_comm, take_take, drop_drop.
  f_equal; [lia|]. f_equal. lia.
Qed.
Lemma slice_piece from to data :
  (from ≤ to)%N → (to ≤ blen data)%N → slice from to data = Some (piece from (to - from) data).
Proof.
  intros H1 H2. unfold slice. destruct (N.leb_spec from to); [|lia]. destruct (N.leb_spec to (blen data)); [|lia].
  done.
Qed.

(** A cached piece is what the file has there. *)
Definition from_file (content : string → bytes) (k : CacheKey) (data : bytes) : Prop :=
  data = piece (key_offset k) (blen data) (content (key_file_id k)).

Lemma from_file_sub content k data o n :
  from_file content k data → (o + n ≤ blen data)%N →
  piece o n data = piece (key_offset k + o) n (content (key_file_id k)).
Proof. intros Hf Hn. rewrite Hf at 1. by apply piece_piece. Qed.
Lemma from_file_end content k data :
  from_file content k data → (0 < blen data)%N →
  (key_offset k + blen data ≤ blen (content (key_file_id k)))%N.
Proof. intros Hf Hpos. pose proof (f_equal blen Hf) as E. rewrite piece_blen in E. lia. Qed.

(** The overlap lies in the request and in the piece, whatever wraps. *)
Lemma overlap_range_spec offset size e a b :
  (size < U64)%N → overlap_range offset size e = Some (a, b) →
  (offset ≤ a ∧ key_offset e.1 ≤ a ∧ a < b ∧ b ≤ offset + size ∧ b ≤ key_offset e.1 + blen (ch_data e.2))%N
  ∧ (a = offset ∨ a = key_offset e.1 ∧ offset < key_offset e.1 < offset + size)%N.
Proof.
  intros Hs. unfold overlap_range, u64_wrap.
  pose proof (N.Div0.mod_le (offset + size) U64). pose proof (N.Div0.mod_le (key_offset e.1 + blen (ch_data e.2)) U64).
  destruct (_ && _) eqn:E1; [|done]. apply andb_true_iff in E1 as [E1 E2].
  apply N.ltb_lt in E1, E2. destruct (N.ltb_spec (N.max offset (key_offset e.1))
    (N.min ((offset + size) mod U64) ((key_offset e.1 + blen (ch_data e.2)) mod U64))) as [Hlt|]; [|done].
  intros [= <- <-]. lia.
Qed.

Lemma find_overlap_spec file_id offset size l :
  (size < U64)%N →
  (find_overlap file_id offset size l = Ok None ∨
   ∃ e a b, e ∈ l ∧ key_file_id e.1 = file_id ∧ overlap_range offset size e = Some (a, b) ∧
     find_overlap file_id offset size l = Ok (Some (piece (a - key_offset e.1) (b - a) (ch_data e.2)))).
Proof.
  intros Hs. induction l as [|e l IH]; simpl; [by left|].
  assert ((find_overlap file_id offset size l = Ok None ∨
     ∃ e0 a b, e0 ∈ e :: l ∧ key_file_id e0.1 = file_id ∧ overlap_range offset size e0 = Some (a, b) ∧
     find_overlap file_id offset size l = Ok (Some (piece (a - key_offset e0.1) (b - a) (ch_data e0.2))))) as IH'.
  { destruct IH as [IH|(e' & a & b & ? & IH)]; [by left|right]. exists e', a, b. split; [by right|done]. }
  case_bool_decide as Hf; [|done]. destruct (overlap_range offset size e) as [[a b]|] eqn:Eo; [|done].
  right. exists e, a, b. destruct (overlap_range_spec _ _ _ _ _ Hs Eo) as [(? & ? & ? & ? & ?) _].
  rewrite slice_piece by lia. split_and!; [by left|done|done|]. simpl. by replace (a - key_offset e.1 + (b - a) - (a - key_offset e.1))%N with (b - a)%N by lia.
Qed.
End Lookup.

(** *** Hits and misses *)

Section Hits.
Context {C : Type} {LM : LruMap CacheKey CachedChunk C} {LL : LruLaws CacheKey CachedChunk C}.
Implicit Types c : ChunkCache C.

Lemma get_exact_spec key c :
  (∃ k ch c', (k, ch) ∈ entries c ∧ key_file_id k = key_file_id key ∧ key_offset k = key_offset key ∧
     (key_size key ≤ blen (ch_data ch))%N ∧
     get_exact_chunk key c = (Ok (Some (piece 0 (key_size key) (ch_data ch))), c')) ∨
  get_exact_chunk key c = (Ok None, with_stats miss c).
Proof.
  unfold get_exact_chunk. rewrite st_bind_get.
  destruct (find _ _) as [[k ch]|] eqn:E; [left|by right].
  apply find_some in E as [Hin%list_elem_of_In Hm].
  unfold exact_match in Hm. simpl in Hm.
  apply andb_true_iff in Hm as [[Hf%bool_decide_eq_true Ho%N.eqb_eq]%andb_true_iff Hs%N.leb_le].
  unfold st_bind at 1 2, st_put. cbn [touch ch_data].
  rewrite (N.min_l _ _ Hs), slice_piece by lia. rewrite N.sub_0_r.
  by eexists k, ch, _.
Qed.

(** Nothing of the file that is cached overlaps the request. *)
Definition no_overlap (file_id : string) (offset size : N) (l : list (CacheKey * CachedChunk)) : Prop :=
  ∀ k ch, (k, ch) ∈ l → key_file_id k = file_id → overlap_range offset size (k, ch) = None.
Lemma find_overlap_None file_id offset size l :
  find_overlap file_id offset size l = Ok None → no_overlap file_id offset size l.
Proof.
  intros E k ch Hin Hf. destruct (overlap_range offset size (k, ch)) as [[a b]|] eqn:Ho; [exfalso|done].
  revert E Hin. induction l as [|e l IH]; [by intros _ []%not_elem_of_nil|].
  cbn [find_overlap]. intros E [<-|Hin]%elem_of_cons.
  - cbn [fst] in E. rewrite bool_decide_eq_true_2, Ho in E by done. by destruct (slice _ _ _).
  - case_bool_decide; [|by auto]. destruct (overlap_range offset size e) as [[? ?]|]; [|by auto].
    by destruct (slice _ _ _).
Qed.

(** A lookup returns, and what it returns is cut out of one cached piece. *)
Lemma get_chunk_raw file_id offset size c :
  (size < U64)%N →
  ∃ r c', ChunkCache_get_chunk file_id offset size c = (Ok r, c') ∧
    (r = None → no_overlap file_id offset size (entries c)) ∧
    (∀ d, r = Some d → ∃ k ch a, (k, ch) ∈ entries c ∧ key_file_id k = file_id ∧
       d = piece (a - key_offset k) (blen d) (ch_data ch) ∧
       (key_offset k ≤ a ∧ a + blen d ≤ key_offset k + blen (ch_data ch))%N ∧
       (offset ≤ a ∧ a + blen d ≤ offset + size)%N ∧ (size = 0 ∨ 0 < blen d)%N ∧
       (a = offset ∨ (offset < a)%N ∧ key_offset k = a)).
Proof.
  intros Hs. unfold ChunkCache_get_chunk.
  destruct (get_exact_spec (mkCacheKey file_id offset size) c) as [(k & ch & c' & Hin & Hf & Ho & Hl & E)|E];
    unfold st_bind at 1; rewrite E; cbn [key_size key_offset key_file_id] in *.
  { eexists _, c'. split; [reflexivity|]. split; [done|]. intros ? [= <-]. exists k, ch, offset.
    rewrite piece_blen, N.sub_0_r, N.min_l, Ho, N.sub_diag by done.
    split_and!; try done; lia. }
  unfold get_overlapping_chunk, st_bind, st_get, st_lift.
  change (lru_iter (cc_cache (with_stats miss c))) with (entries c).
  destruct (find_overlap_spec file_id offset size (entries c) Hs) as [E'|([k ch] & a & b & Hin & Hf & Ho & E')];
    rewrite E'; cbn [fst snd] in *.
  { eexists _, _. split; [reflexivity|]. split; [|done]. intros _. by apply find_overlap_None. }
  eexists _, _. split; [reflexivity|]. split; [done|]. intros ? [= <-]. exists k, ch, a.
  destruct (overlap_range_spec _ _ _ _ _ Hs Ho) as [(? & ? & ? & ? & ?) Hstart]. cbn [fst snd] in *.
  assert (blen (piece (a - key_offset k) (b - a) (ch_data ch)) = b - a)%N as El by (rewrite piece_blen; lia).
  rewrite El. split_and!; try done; lia.
Qed.

(** What a hit is: bytes of the file, in the range that was asked for.  They start where
    the request starts, unless a cached piece starts inside it: then that piece may be
    returned, although it is not the beginning of what was asked for. *)
Record answers (content : string → bytes) (file_id : string) (offset size : N)
    (cached : list (CacheKey * CachedChunk)) (data : bytes) (at_offset : N) : Prop := {
  an_inside : (offset ≤ at_offset ∧ at_offset + blen data ≤ offset + size)%N;
  an_content : data = piece at_offset (blen data) (content file_id);
  an_some : (size = 0 ∨ 0 < blen data)%N;
  an_start : at_offset = offset ∨
    (offset < at_offset)%N ∧ ∃ k ch, (k, ch) ∈ cached ∧ key_file_id k = file_id ∧ key_offset k = at_offset;
}.

Lemma get_chunk_spec max content file_id offset size c :
  (size < U64)%N → chunk_inv max (from_file content) c →
  ∃ r c', ChunkCache_get_chunk file_id offset size c = (Ok r, c') ∧ chunk_inv max (from_file content) c' ∧
    (r = None → no_overlap file_id offset size (entries c)) ∧
    (∀ d, r = Some d → ∃ o, answers content file_id offset size (entries c) d o).
Proof.
  intros Hs Hc. pose proof (get_chunk_keeps max (from_file content) file_id offset size c Hc) as Hkeep.
  destruct (get_chunk_raw file_id offset size c Hs) as (r & c' & E & Hnone & Hsome). rewrite E in Hkeep.
  exists r, c'. split_and!; try done. intros d Hd.
  destruct (Hsome d Hd) as (k & ch & a & Hin & Hf & Ed & Hk & Hi & Hz & Hstart). exists a.
  pose proof (ci_pieces _ _ _ Hc _ _ Hin) as Hff. split; try done.
  - rewrite Ed at 1. rewrite (from_file_sub _ _ _ _ _ Hff) by lia. rewrite Hf. f_equal. lia.
  - destruct Hstart as [->|[? ?]]; [by left|right]. split; [done|]. by exists k, ch.
Qed.
End Hits.

(** ** Any use of the manager *)

Inductive cache_op :=
| OpGet (key : CacheKey) (now stamp : Z)
| OpStore (key : CacheKey) (chunk : DecryptedChunk) (ttl now : Z)
| OpInvalidateFile (file_id : string) (now : Z)
| OpInvalidateEpoch (epoch_id : N) (now : Z)
| OpMigration (from_epoch to_epoch : N) (now1 now2 : Z)
| OpPressure.

Section Run.
Context {C M : Type} {LM : LruMap CacheKey CachedChunk C} {MM : LruMap string CachedMetadata M} {ms : MetadataSize}.

Definition apply_op (o : cache_op) : ST (CacheManager C M) string unit :=
  match o with
  | OpGet key now stamp => let* _ := CacheManager_get_chunk key now stamp in st_ret tt
  | OpStore key chunk ttl now => store_chunk key chunk ttl now
  | OpInvalidateFile file_id now => CacheManager_invalidate_file file_id now
  | OpInvalidateEpoch epoch_id now => st_put (invalidate_epoch epoch_id now)
  | OpMigration from_epoch to_epoch now1 now2 => st_put (handle_migration_event from_epoch to_epoch now1 now2)
  | OpPressure => let* _ := handle_memory_pressure in st_ret tt
  end.
Definition run_ops (os : list cache_op) : ST (CacheManager C M) string unit := st_for os apply_op.

Context {LL : LruLaws CacheKey CachedChunk C} {ML : LruLaws string CachedMetadata M}.
Definition meta_inv (cap : N) (m : MetadataCache M) : Prop :=
  lru_cap (mc_cache m) = cap ∧ NoDup (lru_iter (mc_cache m)).*1
  ∧ (N.of_nat (length (lru_iter (mc_cache m))) ≤ cap)%N.
Lemma shrink_loop_spec fuel n cache removed :
  length (lru_iter cache) ≤ fuel →
  ∃ removed' cache', shrink_loop fuel n cache removed = (removed', cache') ∧
    lru_iter cache' `sublist_of` lru_iter cache ∧ lru_cap cache' = lru_cap cache ∧
    (N.of_nat (length (lru_iter cache')) ≤ n)%N ∧
    (removed' + N.of_nat (length (lru_iter cache')) = removed + N.of_nat (length (lru_iter cache)))%N.
Proof.
  revert cache removed. induction fuel as [|fuel IH]; intros cache removed Hf; simpl.
  { exists removed, cache. split_and!; try done. destruct (lru_iter cache); simpl in *; lia. }
  destruct (N.ltb_spec n (N.of_nat (length (lru_iter cache)))) as [Hlt|Hge]; [|by exists removed, cache].
  destruct (lru_pop_lru_spec cache) as (E1 & E2 & E3).
  destruct (lru_pop_lru cache) as [[e|] cache1]; simpl in *; symmetry in E1.
  - apply removelast_last in E1. pose proof (f_equal length E1) as El. rewrite length_app in El. simpl in El.
    destruct (IH cache1 (removed + 1)%N) as (r & c' & -> & Hs & Hc & Hn & Hr); [rewrite E2; lia|].
    exists r, c'. split_and!; try done; [|congruence|rewrite E2 in Hr; lia].
    etrans; [exact Hs|]. rewrite E2. apply removelast_sublist.
  - apply head_reverse_None in E1. rewrite E1 in Hlt. simpl in Hlt. lia.
Qed.

Lemma shrink_to_spec cap n m :
  meta_inv cap m →
  meta_inv cap (shrink_to n m).2 ∧ (N.of_nat (length (lru_iter (mc_cache (shrink_to n m).2))) ≤ n)%N ∧
  (shrink_to n m).1 = (N.of_nat (length (lru_iter (mc_cache m)))
                       - N.of_nat (length (lru_iter (mc_cache (shrink_to n m).2))))%N.
Proof.
  intros (H1 & H2 & H3). unfold shrink_to.
  destruct (shrink_loop_spec (length (lru_iter (mc_cache m))) n (mc_cache m) 0) as (r & c' & -> & Hs & Hc & Hn & Hr);
    [done|]. simpl. split_and!; [|done|lia]. split_and!; simpl; [congruence| |lia].
  eapply sublist_NoDup; [exact H2|]. by apply fmap_sublist.
Qed.

Variables (max cap : N) (Q : CacheKey → bytes → Prop).
Hypothesis max_fits : (max * 3 < U64)%N.

Definition manager_inv (m : CacheManager C M) : Prop :=
  chunk_inv max Q (chunk_cache m) ∧ meta_inv cap (metadata_cache m).

Lemma on_chunks_spec {A} (f : ST (ChunkCache C) string A) (m : CacheManager C M) a c' :
  f (chunk_cache m) = (Ok a, c') → on_chunks f m = (Ok a, set_chunks c' m).
Proof. intros E. unfold on_chunks, st_zoom. by rewrite E. Qed.

(** The bytes of chunks that are to be left. *)
Definition target_bytes (m : CacheManager C M) : N :=
  trunc_to_u64 (f64_mul (f64_of_u64 (max_size_bytes (chunk_cache m))) (target_utilization (cm_config m))).
Definition relieved (m : CacheManager C M) (c' : ChunkCache C) : Prop :=
  (0 < max_size_bytes (chunk_cache m))%N →
  over_threshold (cm_config m) (current_size_bytes (chunk_cache m)) (max_size_bytes (chunk_cache m)) = true →
  (current_size_bytes c' ≤ target_bytes m)%N ∨ entries c' = [].
Lemma relieve_chunks_spec (m : CacheManager C M) :
  manager_inv m → ∃ c', relieve_chunks m = (Ok tt, set_chunks c' m) ∧ manager_inv (set_chunks c' m) ∧
    entries c' `sublist_of` entries (chunk_cache m) ∧
    (current_size_bytes c' ≤ current_size_bytes (chunk_cache m))%N ∧ relieved m c'.
Proof.
  intros [Hc Hm]. unfold relieve_chunks. rewrite st_bind_get. fold (target_bytes m). unfold relieved.
  assert (set_chunks (chunk_cache m) m = m) as Es by by destruct m.
  destruct (N.ltb_spec 0 (max_size_bytes (chunk_cache m))) as [Hpos|]; simpl.
  2:{ exists (chunk_cache m). rewrite Es. split_and!; try done. lia. }
  destruct (over_threshold _ _ _); [|exists (chunk_cache m); rewrite Es; by split_and!].
  destruct (N.ltb_spec 0 (current_size_bytes (chunk_cache m) - target_bytes m)) as [Hfree|Hz].
  2:{ exists (chunk_cache m). rewrite Es. split_and!; try done. intros _ _. left. lia. }
  unfold evict_lru. rewrite (proj2 (N.eqb_neq _ 0)) by lia.
  destruct (evict_chunks_spec max Q max_fits (current_size_bytes (chunk_cache m) - target_bytes m) _ Hc)
    as (freed & c' & E & Hc' & Hs & _ & Ec & Hend).
  exists c'. unfold st_bind. rewrite (on_chunks_spec _ _ _ _ E). split_and!; try done; [lia|].
  intros _ _. destruct Hend; [left; lia|by right].
Qed.

Lemma relieve_metadata_inv (m : CacheManager C M) : manager_inv m → manager_inv (relieve_metadata m).
Proof.
  intros [Hc Hm]. unfold relieve_metadata. destruct (_ && _); [|done]. split; [done|]. by apply shrink_to_spec.
Qed.

Lemma handle_memory_pressure_spec (m : CacheManager C M) :
  manager_inv m → ∃ freed m', handle_memory_pressure m = (Ok freed, m') ∧ manager_inv m' ∧
    entries (chunk_cache m') `sublist_of` entries (chunk_cache m) ∧ relieved m (chunk_cache m') ∧
    freed = (estimate_memory_usage m - estimate_memory_usage m')%N.
Proof.
  intros Hm. destruct (relieve_chunks_spec m Hm) as (c' & E & Hm' & Hs & _ & Hr).
  unfold handle_memory_pressure. rewrite st_bind_get. unfold st_bind at 1. rewrite E.
  eexists _, _. split; [reflexivity|]. split; [by apply relieve_metadata_inv|].
  assert (chunk_cache (relieve_metadata (set_chunks c' m)) = c') as ->
    by (unfold relieve_metadata; by destruct (_ && _)).
  by split_and!.
Qed.

(** *** Every operation returns and keeps the invariant *)
Definition stored_ok (o : cache_op) : Prop :=
  match o with
  | OpStore key chunk _ _ =>
      Q (mkCacheKey (key_file_id key) (key_offset key) (blen (dc_data chunk))) (dc_data chunk)
  | _ => True
  end.
Definition size_ok (o : cache_op) : Prop :=
  match o with OpGet key _ _ => (key_size key < U64)%N | _ => True end.

Lemma manager_get_spec key now stamp (m : CacheManager C M) :
  manager_inv m → (key_size key < U64)%N →
  ∃ r m', CacheManager_get_chunk key now stamp m = (Ok r, m') ∧ manager_inv m' ∧
    (∀ ch, r = Some ch → ∃ c',
       ChunkCache_get_chunk (key_file_id key) (key_offset key) (key_size key) (chunk_cache m)
         = (Ok (Some (mg_data ch)), c') ∧
       ch = mkManagedChunk (mg_data ch) 0 stamp (300 * SECOND) 1) ∧
    (r = None → is_cache_entry_valid (key_file_id key) now m = true →
       no_overlap (key_file_id key) (key_offset key) (key_size key) (entries (chunk_cache m))).
Proof.
  intros [Hc Hm] Hs. unfold CacheManager_get_chunk. rewrite st_bind_get.
  destruct (is_cache_entry_valid _ _ _); [|by eexists None, m].
  destruct (get_chunk_raw (key_file_id key) (key_offset key) (key_size key) (chunk_cache m) Hs)
    as (r & c' & E & Hn & _).
  pose proof (get_chunk_keeps max Q (key_file_id key) (key_offset key) (key_size key) _ Hc) as Hk.
  rewrite E in Hk. unfold st_bind, st_try. rewrite (on_chunks_spec _ _ _ _ E).
  destruct r as [d|]; eexists _, _; (split; [reflexivity|]); (split; [done|]); (split; [|done || auto]).
  - intros ? [= <-]. by exists c'.
  - done.
Qed.

Lemma store_chunk_spec key chunk ttl now (m : CacheManager C M) :
  manager_inv m →
  Q (mkCacheKey (key_file_id key) (key_offset key) (blen (dc_data chunk))) (dc_data chunk) →
  ∃ m', store_chunk key chunk ttl now m = (Ok tt, m') ∧ manager_inv m'.
Proof.
  intros [Hc Hm] Hq.
  destruct (insert_chunk_spec max Q max_fits (key_file_id key) (key_offset key) (dc_data chunk) now _ Hc Hq)
    as (c' & E & Hc' & _).
  eexists. unfold store_chunk, st_bind, st_try. by rewrite (on_chunks_spec _ _ _ _ E).
Qed.
Lemma manager_invalidate_spec file_id now (m : CacheManager C M) :
  manager_inv m →
  ∃ m', CacheManager_invalidate_file file_id now m = (Ok tt, m') ∧ manager_inv m' ∧
    ∀ e, e ∈ entries (chunk_cache m') ↔ e ∈ entries (chunk_cache m) ∧ key_file_id e.1 ≠ file_id.
Proof.
  intros [Hc Hm]. destruct (invalidate_file_spec max Q file_id _ max_fits Hc) as (n & c' & E & Hc' & _ & He).
  eexists. unfold CacheManager_invalidate_file, st_bind, st_try. by rewrite (on_chunks_spec _ _ _ _ E).
Qed.

Lemma apply_op_spec o m :
  manager_inv m → stored_ok o → size_ok o → ∃ m', apply_op o m = (Ok tt, m') ∧ manager_inv m'.
Proof.
  intros Hm Hq Hs. destruct o as [key now stamp|key chunk ttl now|file_id now|epoch_id now|a b t1 t2|]; simpl in *.
  - destruct (manager_get_spec key now stamp m Hm Hs) as (r & m' & E & Hm' & _). exists m'.
    unfold st_bind. by rewrite E.
  - by apply store_chunk_spec.
  - destruct (manager_invalidate_spec file_id now m Hm) as (m' & E & Hm' & _). by exists m'.
  - by eexists.
  - by eexists.
  - destruct (handle_memory_pressure_spec m Hm) as (freed & m' & E & Hm' & _). exists m'.
    unfold st_bind. by rewrite E.
Qed.
Lemma run_ops_spec os m :
  manager_inv m → Forall stored_ok os → Forall size_ok os →
  ∃ m', run_ops os m = (Ok tt, m') ∧ manager_inv m'.
Proof.
  intros Hm Hq Hs. revert m Hm. unfold run_ops.
  induction os as [|o os IH]; intros m Hm; simpl; [by exists m|].
  apply list.Forall_cons in Hq as [Hq Hq'], Hs as [Hs Hs'].
  destruct (apply_op_spec o m Hm Hq Hs) as (m1 & E & Hm1). unfold st_bind. rewrite E. by apply IH.
Qed.
End Run.

(** ** Properties *)

Section Properties.
Context {C M : Type} {LM : LruMap CacheKey CachedChunk C} {MM : LruMap string CachedMetadata M} {ms : MetadataSize}.
Context {LL : LruLaws CacheKey CachedChunk C} {ML : LruLaws string CachedMetadata M}.

Lemma CacheManager_new_inv config (m : CacheManager C M) Q :
  CacheManager_new config = Ok m →
  cm_config m = config ∧ (0 < max_metadata_entries config)%N ∧
  manager_inv (max_chunk_cache_size config) (max_metadata_entries config) Q m.
Proof.
  unfold CacheManager_new, MetadataCache_new. destruct (N.eqb_spec (max_metadata_entries config) 0); [done|].
  simpl. intros [= <-]. split; [done|]. split; [lia|]. split; [apply new_inv|].
  destruct (lru_new_spec (C := M) (max_metadata_entries config)) as [E1 E2].
  unfold meta_inv. simpl. rewrite E1, E2. split_and!; [done|apply NoDup_nil_2|simpl; lia].
Qed.

(** C30: Whatever the file system does with its caches, they hold no more bytes of files than
    they were given and no more entries of attributes, although the count of bytes drifts:
    it is never less than what is held and exceeds the limit by at most a quarter.  No
    operation fails. *)
Theorem mount_cache_bounded config os (m : CacheManager C M) :
  CacheManager_new config = Ok m →
  (max_chunk_cache_size config * 3 < U64)%N →
  Forall size_ok os →
  ∃ m', run_ops os m = (Ok tt, m') ∧
    (resident (entries (chunk_cache m')) ≤ max_chunk_cache_size config)%N ∧
    (resident (entries (chunk_cache m')) ≤ current_size_bytes (chunk_cache m'))%N ∧
    (current_size_bytes (chunk_cache m') ≤ max_chunk_cache_size config + max_chunk_cache_size config / 4)%N ∧
    (N.of_nat (length (lru_iter (mc_cache (metadata_cache m')))) ≤ max_metadata_entries config)%N.
Proof.
  intros Hn Hfit Hs. destruct (CacheManager_new_inv config m (λ _ _, True) Hn) as (_ & _ & Hm).
  destruct (run_ops_spec _ _ _ Hfit os m Hm) as (m' & E & [] & (_ & _ & Hl)); [|done|].
  - apply list.Forall_forall. by intros [] _.
  - by exists m'.
Qed.

(** When the chunks take more than the configured share, pieces are dropped until at most
    the target is counted or nothing is left. *)
Theorem memory_pressure_relieved max cap Q (m : CacheManager C M) :
  (max * 3 < U64)%N → manager_inv max cap Q m →
  ∃ freed m', handle_memory_pressure m = (Ok freed, m') ∧ manager_inv max cap Q m' ∧
    entries (chunk_cache m') `sublist_of` entries (chunk_cache m) ∧
    ((0 < max)%N → over_threshold (cm_config m) (current_size_bytes (chunk_cache m)) max = true →
     (current_size_bytes (chunk_cache m') ≤ target_bytes m)%N ∨ entries (chunk_cache m') = []).
Proof.
  intros Hfit Hm. destruct (handle_memory_pressure_spec max cap Q Hfit m Hm) as (f & m' & E & ? & ? & Hr & _).
  exists f, m'. split_and!; try done. destruct Hm as [Hc _]. by rewrite <-(ci_max _ _ _ Hc).
Qed.

(** Invalidating a file forgets all of it and nothing else, at every later time. *)
Theorem invalidated_file_is_forgotten max cap Q file_id now (m : CacheManager C M) :
  (max * 3 < U64)%N → manager_inv max cap Q m →
  ∃ m', CacheManager_invalidate_file file_id now m = (Ok tt, m') ∧ manager_inv max cap Q m' ∧
    (∀ e, e ∈ entries (chunk_cache m') ↔ e ∈ entries (chunk_cache m) ∧ key_file_id e.1 ≠ file_id) ∧
    (∀ key later stamp, key_file_id key = file_id → (key_size key < U64)%N →
       (CacheManager_get_chunk key later stamp m').1 = Ok None).
Proof.
  intros Hfit Hm. destruct (manager_invalidate_spec max cap Q Hfit file_id now m Hm) as (m' & E & Hm' & He).
  exists m'. split_and!; try done. intros key later stamp Hk Hs.
  destruct (manager_get_spec max cap Q key later stamp m' Hm' Hs) as (r & m2 & -> & _ & Hsome & _).
  simpl. destruct r as [ch|]; [exfalso|done]. destruct (Hsome ch eq_refl) as (c2 & E2 & _).
  destruct (get_chunk_raw (key_file_id key) (key_offset key) (key_size key) (chunk_cache m') Hs)
    as (r & c3 & E3 & _ & Hr).
  rewrite E2 in E3. injection E3 as <- _.
  destruct (Hr _ eq_refl) as (k & ch' & a & Hin & Hf & _). apply He in Hin as [_ Hne]. simpl in Hne. congruence.
Qed.

(** A migration only suspends the cache: for thirty seconds nothing is returned, and after
    that everything that was cached before is returned again. *)
Theorem migration_only_suspends from_epoch to_epoch now1 now2 key later stamp (m : CacheManager C M) :
  pending_files (invalidation_tracker m) !! key_file_id key = None →
  let m' := handle_migration_event from_epoch to_epoch now1 now2 m in
  (later < now2 + 30 * SECOND)%Z ∧ CacheManager_get_chunk key later stamp m' = (Ok None, m') ∨
  (now2 + 30 * SECOND ≤ later)%Z ∧
    (CacheManager_get_chunk key later stamp m').1 =
    match (ChunkCache_get_chunk (key_file_id key) (key_offset key) (key_size key) (chunk_cache m)).1 with
    | Ok (Some data) => Ok (Some (mkManagedChunk data 0 stamp (300 * SECOND) 1))
    | Ok None => Ok None
    | Err _ => Ok None
    | Panic => Panic
    | Diverge => Diverge
    end.
Proof.
  intros Hp m'. unfold CacheManager_get_chunk. rewrite !st_bind_get.
  assert (is_cache_entry_valid (key_file_id key) later m' = negb (bool_decide (elapsed now2 later < 30 * SECOND)%Z)) as ->.
  { unfold is_cache_entry_valid. simpl. rewrite Hp. by case_bool_decide. }
  unfold elapsed. case_bool_decide as Ht; simpl.
  - left. split; [unfold SECOND in *; lia|done].
  - right. split; [unfold SECOND in *; lia|]. unfold st_bind, st_try, on_chunks, st_zoom. simpl.
    by destruct (ChunkCache_get_chunk _ _ _ _) as [[[d|]|e| |] c'].
Qed.
End Properties.

(** ** A cache of attributes is a map that may forget *)

Inductive meta_op :=
| MetaGet (file_id : string) (now : Z)
| MetaInsert (metadata : CachedMetadata)
| MetaInvalidate (file_id : string)
| MetaShrink (max_entries : N).

Section Meta.
Context {M : Type} {MM : LruMap string CachedMetadata M} {ML : LruLaws string CachedMetadata M}.

Definition apply_meta (o : meta_op) (m : MetadataCache M) : option CachedMetadata * MetadataCache M :=
  match o with
  | MetaGet file_id now => get_metadata file_id now m
  | MetaInsert metadata => (None, insert_metadata metadata m)
  | MetaInvalidate file_id => (None, (invalidate_metadata file_id m).2)
  | MetaShrink n => (None, (shrink_to n m).2)
  end.
Fixpoint run_meta (os : list meta_op) (m : MetadataCache M) : list (option CachedMetadata) * MetadataCache M :=
  match os with
  | [] => ([], m)
  | o :: os => let '(r, m) := apply_meta o m in let '(rs, m) := run_meta os m in (r :: rs, m)
  end.

(** The map: a lookup that does not find the key leaves it as it is, one that does
    counts a visit; only a lookup has an answer. *)
Inductive meta_spec : meta_op → gmap string CachedMetadata → option CachedMetadata →
                      gmap string CachedMetadata → Prop :=
| spec_hit file_id now σ md :
    σ !! file_id = Some md →
    meta_spec (MetaGet file_id now) σ (Some (visit now md)) (<[file_id := visit now md]> σ)
| spec_forgotten file_id now σ : meta_spec (MetaGet file_id now) σ None (delete file_id σ)
| spec_insert md σ : meta_spec (MetaInsert md) σ None (<[md_file_id md := md]> σ)
| spec_invalidate file_id σ : meta_spec (MetaInvalidate file_id) σ None (delete file_id σ)
| spec_shrink n σ : meta_spec (MetaShrink n) σ None σ.
Inductive meta_specs : list meta_op → gmap string CachedMetadata → list (option CachedMetadata) →
                       gmap string CachedMetadata → Prop :=
| specs_nil σ : meta_specs [] σ [] σ
| specs_cons o os σ r σ' rs σ'' :
    meta_spec o σ r σ' → meta_specs os σ' rs σ'' → meta_specs (o :: os) σ (r :: rs) σ''.

Definition holds_of (σ : gmap string CachedMetadata) (m : MetadataCache M) : Prop :=
  ∀ k md, (k, md) ∈ lru_iter (mc_cache m) → σ !! k = Some md.

Lemma apply_meta_refines cap o m σ :
  (0 < cap)%N → meta_inv cap m → holds_of σ m →
  ∃ σ', meta_spec o σ (apply_meta o m).1 σ' ∧ holds_of σ' (apply_meta o m).2 ∧ meta_inv cap (apply_meta o m).2.
Proof.
  intros Hcap (H1 & H2 & H3) Hh. destruct o as [k now|md|k|n]; simpl.
  - unfold get_metadata. destruct (lru_get_mut_spec k (visit now) (mc_cache m)) as (E1 & E2 & E3).
    destruct (lru_get_mut k (visit now) (mc_cache m)) as [r cache]. simpl in *. subst r.
    unfold holds_of, meta_inv. simpl. rewrite E2, E3.
    destruct (assoc k (lru_iter (mc_cache m))) as [md|] eqn:E; simpl.
    + apply assoc_Some in E. exists (<[k := visit now md]> σ). split_and!; try done.
      * apply spec_hit. by apply Hh.
      * intros k' md' [[= -> ->]|[Hne Hin]%elem_of_without]%elem_of_cons; [by rewrite lookup_insert_eq|].
        simpl in Hne. rewrite lookup_insert_ne by done. by apply Hh.
      * apply list.NoDup_cons. split; [|eapply sublist_NoDup; [exact H2|]; by apply fmap_sublist, without_sublist].
        intros Hin. apply list_elem_of_fmap in Hin as (e & -> & He). by apply elem_of_without in He as [? _].
      * assert (length (without k (lru_iter (mc_cache m))) < length (lru_iter (mc_cache m))); [|lia].
        apply length_filter_lt with (x := (k, md)); [done|]. simpl. naive_solver.
    + apply assoc_None in E. exists (delete k σ). split_and!; try done; [constructor|].
      intros k' md' Hin. rewrite lookup_delete_ne; [by apply Hh|]. intros <-. apply E.
      by apply (list_elem_of_fmap_2 fst _ (k, md')).
  - exists (<[md_file_id md := md]> σ). destruct (lru_put_spec (md_file_id md) md (mc_cache m)) as [E1 E2].
    split; [constructor|]. unfold holds_of, meta_inv, insert_metadata. simpl. rewrite E1, E2, H1. split_and!; try done.
    + unfold put_front. intros k' md' [[= -> ->]|Hin]%elem_of_cons; [by rewrite lookup_insert_eq|].
      case_decide as Hk; [|assert (k' ≠ md_file_id md)].
      * apply elem_of_without in Hin as [Hne Hin]. simpl in Hne. rewrite lookup_insert_ne by done. by apply Hh.
      * intros ->. apply Hk. apply (list_elem_of_fmap_2 fst _ (md_file_id md, md')).
        destruct (_ <? _)%N; [done|]. by eapply elem_of_sublist, removelast_sublist.
      * rewrite lookup_insert_ne by done. apply Hh. destruct (_ <? _)%N; [done|].
        by eapply elem_of_sublist, removelast_sublist.
    + by apply put_front_keys.
    + by apply put_front_length.
  - exists (delete k σ). split; [constructor|]. unfold invalidate_metadata.
    destruct (lru_pop_spec k (mc_cache m)) as (E1 & E2 & E3).
    destruct (lru_pop k (mc_cache m)) as [[md|] cache]; simpl in *; unfold holds_of, meta_inv; simpl;
      rewrite E2, E3; (split; [|split_and!; [done|by eapply sublist_NoDup, fmap_sublist, without_sublist|]]).
    all: try (pose proof (sublist_length _ _ (without_sublist k (lru_iter (mc_cache m)))); lia).
    all: intros k' md' [Hne Hin]%elem_of_without; simpl in Hne; rewrite lookup_delete_ne by done; by apply Hh.
  - exists σ. split; [constructor|]. split; [|by apply (shrink_to_spec cap n m)].
    unfold shrink_to. destruct (shrink_loop_spec (length (lru_iter (mc_cache m))) n (mc_cache m) 0)
      as (r & c' & -> & Hs & _); [done|]. intros k md Hin. apply Hh. by eapply elem_of_sublist.
Qed.

(** Whatever is done with the cache of attributes, every answer is what was inserted last
    under that name, with the visits counted, unless it was forgotten. *)
Theorem metadata_cache_refines_map cap os m :
  (0 < cap)%N → MetadataCache_new cap = Ok m →
  ∃ σ, meta_specs os ∅ (run_meta os m).1 σ ∧ holds_of σ (run_meta os m).2.
Proof.
  intros Hcap Hn.
  assert (meta_inv cap m ∧ holds_of ∅ m) as [Hm Hh].
  { unfold MetadataCache_new in Hn. destruct (N.eqb_spec cap 0); [done|]. injection Hn as <-.
    destruct (lru_new_spec (C := M) cap) as [E1 E2]. unfold meta_inv, holds_of. simpl. rewrite E1, E2.
    split_and!; try done; [apply NoDup_nil_2|simpl; lia|]. by intros ? ? []%not_elem_of_nil. }
  clear Hn. generalize (∅ : gmap string CachedMetadata), m, Hm, Hh.
  induction os as [|o os IH]; intros σ m1 Hm1 Hh1; simpl; [exists σ; by split; [constructor|]|].
  destruct (apply_meta_refines cap o m1 σ Hcap Hm1 Hh1) as (σ' & Hspec & Hh' & Hm').
  destruct (apply_meta o m1) as [r m2]. simpl in *. destruct (IH σ' m2 Hm' Hh') as (σ'' & Hs & Hf).
  destruct (run_meta os m2) as [rs m3]. simpl in *. exists σ''. split; [|done]. by econstructor.
Qed.
End Meta.

(** ** The theorems on concrete caches *)

Abbreviation toy_chunks := (lru_list CacheKey CachedChunk).
Abbreviation toy_metadata := (lru_list string CachedMetadata).
#[local] Instance toy_metadata_size : MetadataSize := 200%N.

Definition toy_config : CacheConfig := mkCacheConfig 64 2 (300 * SECOND) true f32_0_8.
Definition toy_data : bytes := bytes_of "abcdefgh".
Definition toy_chunk (data : bytes) : DecryptedChunk := mkDecryptedChunk data 1 0 (blen data) false.
Definition toy_store (offset : N) (data : bytes) (now : Z) : cache_op :=
  OpStore (mkCacheKey "f" offset 8) (toy_chunk data) 0 now.
Definition toy_manager : CacheManager toy_chunks toy_metadata :=
  mkCacheManager (ChunkCache_new 64) (mkMetadataCache (lru_new 2) (mkMetadataCacheStats 0 0 0 0))
    InvalidationTracker_default toy_config.
Definition toy_ops : list cache_op :=
  [toy_store 0 toy_data 1; toy_store 0 toy_data 2; OpGet (mkCacheKey "f" 2 4) 3 3;
   OpMigration 1 2 4 5; OpPressure; OpInvalidateFile "f" 6].

Lemma toy_manager_new : CacheManager_new toy_config = Ok toy_manager.
Proof. reflexivity. Qed.

Lemma mount_cache_bounded_witness :
  ∃ m', run_ops toy_ops toy_manager = (Ok tt, m') ∧ (resident (entries (chunk_cache m')) ≤ 64)%N ∧
        (current_size_bytes (chunk_cache m') ≤ 80)%N.
Proof.
  destruct (mount_cache_bounded toy_config toy_ops toy_manager) as (m' & E & H1 & _ & H2 & _).
  - exact toy_manager_new.
  - by vm_compute.
  - by repeat constructor.
  - by exists m'.
Defined.

(** The same piece inserted twice is counted twice, and the count stays when the piece is
    gone. *)
Theorem chunk_count_drifts :
  let m := (run_ops [toy_store 0 toy_data 1; toy_store 0 toy_data 2; OpInvalidateFile "f" 3] toy_manager).2 in
  entries (chunk_cache m) = [] ∧ current_size_bytes (chunk_cache m) = 8%N.
Proof. by vm_compute. Qed.

(** A request for the first eight bytes of a file is answered with bytes five to eight, when
    they are what is cached. *)
Theorem partial_hit_is_misplaced :
  let m := (run_ops [toy_store 4 (bytes_of "efgh") 1] toy_manager).2 in
  (CacheManager_get_chunk (mkCacheKey "f" 0 8) 2 2 m).1
  = Ok (Some (mkManagedChunk (bytes_of "efgh") 0 2 (300 * SECOND) 1)).
Proof. by vm_compute. Qed.

Lemma toy_inv os : Forall size_ok os → ∃ m, run_ops os toy_manager = (Ok tt, m) ∧ manager_inv 64 2 (λ _ _, True) m.
Proof.
  intros Hs. destruct (CacheManager_new_inv toy_config toy_manager (λ _ _, True) toy_manager_new) as (_ & _ & Hm).
  apply (run_ops_spec 64 2 (λ _ _, True)); [by vm_compute|exact Hm| |done].
  apply list.Forall_forall. by intros [] _.
Qed.

Lemma memory_pressure_relieved_witness :
  ∃ m freed m', manager_inv 64 2 (λ _ _, True) m ∧ current_size_bytes (chunk_cache m) = 56%N ∧
    handle_memory_pressure m = (Ok freed, m') ∧
    ((current_size_bytes (chunk_cache m') ≤ 40)%N ∨ entries (chunk_cache m') = []).
Proof.
  set (os := [toy_store 0 toy_data 1; toy_store 1 toy_data 1; toy_store 2 toy_data 1; toy_store 3 toy_data 1;
              toy_store 4 toy_data 1; toy_store 5 toy_data 1; toy_store 6 toy_data 1]).
  destruct (toy_inv os) as (m & E & Hm); [by repeat constructor|].
  destruct (memory_pressure_relieved 64 2 (λ _ _, True) m) as (freed & m' & Ef & Hm' & _ & Hr);
    [by vm_compute|done|].
  exists m, freed, m'. vm_compute in E. simplify_eq E. intros <-.
  split; [done|]. split; [reflexivity|]. split; [done|]. by apply Hr; vm_compute.
Defined.

Lemma invalidated_file_is_forgotten_witness :
  ∃ m', CacheManager_invalidate_file "f" 5 toy_manager = (Ok tt, m') ∧
    (CacheManager_get_chunk (mkCacheKey "f" 0 8) 100 100 m').1 = Ok None.
Proof.
  destruct (toy_inv []) as (m & E & Hm); [constructor|]. vm_compute in E. simplify_eq E. intros <-.
  destruct (invalidated_file_is_forgotten 64 2 (λ _ _, True) "f" 5 toy_manager) as (m' & E' & _ & _ & Hg);
    [by vm_compute|exact Hm|].
  exists m'. split; [done|]. apply Hg; by vm_compute.
Defined.

Lemma migration_only_suspends_witness :
  let m := handle_migration_event 1 2 0 0 toy_manager in
  CacheManager_get_chunk (mkCacheKey "f" 0 8) 5 5 m = (Ok None, m).
Proof.
  destruct (migration_only_suspends 1 2 0 0 (mkCacheKey "f" 0 8) 5 5 toy_manager) as [[_ H]|[H _]];
    [reflexivity|exact H|by vm_compute in H].
Defined.

Definition toy_attributes (now : Z) : CachedMetadata := mkCachedMetadata "f" 8 false 0 0 0 420 "1" now 0.
Lemma metadata_cache_refines_map_witness :
  ∃ σ, meta_specs [MetaInsert (toy_attributes 1); MetaGet "f" 2] ∅ [None; Some (visit 2 (toy_attributes 1))] σ.
Proof.
  destruct (metadata_cache_refines_map 2 [MetaInsert (toy_attributes 1); MetaGet "f" 2]
              (mkMetadataCache (lru_new 2 : toy_metadata) (mkMetadataCacheStats 0 0 0 0))) as (σ & H & _);
    [by vm_compute|reflexivity|].
  exists σ. exact H.
Defined.

(** The number that is computed grows with the wish to drop an entry, for every policy but
    one: with a time to live it falls as the entry ages and jumps to the top when the time
    is over. *)
Theorem eviction_priority_order :
  f64_gt (calculate_priority LRU 1 0 (100 * SECOND) 8 0) (calculate_priority LRU 1 (90 * SECOND) (100 * SECOND) 8 0)
    = true ∧
  f64_gt (calculate_priority LFU 1 0 0 8 0) (calculate_priority LFU 10 0 0 8 0) = true ∧
  f64_gt (calculate_priority SizePriority 1 0 0 9000 0) (calculate_priority SizePriority 1 0 0 8 0) = true ∧
  f64_gt (calculate_priority (TimeToLive (60 * SECOND)) 1 0 0 8 (1 * SECOND))
         (calculate_priority (TimeToLive (60 * SECOND)) 1 0 0 8 (59 * SECOND)) = true ∧
  f64_gt (calculate_priority (TimeToLive (60 * SECOND)) 1 0 0 8 (61 * SECOND))
         (calculate_priority (TimeToLive (60 * SECOND)) 1 0 0 8 (1 * SECOND)) = true.
Proof. by vm_compute. Qed.
