(* ===== verification/MountFs.v ===== *)
(** * Reading and writing mounted files ([crates/mount/src/filesystem/hybridcipher.rs])

    The handlers of the mounted file system that read a file, write to it or change its
    attributes.  They keep the attributes of every inode, read through the caches of
    MountCache.v and replace the encrypted file as a whole when its contents change.  An
    encrypted file is the identifier and the epoch of its header with its contents;
    opening, decrypting and saving it may fail, and every encryption draws a new random
    identifier: these, the clock and the text of a virtual file are arguments of a call.
    The file system's calls arrive one after the other.  The statistics of
    [performance.rs] are left out: no result depends on them. *)

From Stdlib Require Import Strings.Byte.
From stdpp Require Import base tactics numbers sets list gmap strings pretty option.
From S2P Require Import Prelude StateError MountCache.
Open Scope hc_scope.
Open Scope hc_st_scope.

Record FileInfo := mkFileInfo {
  in_file_id : string;
  in_epoch_id : string;
  in_size : N;
  in_is_directory : bool;
  in_modified_time : Z;
  in_access_time : Z;
  in_creation_time : Z;
  in_permissions : N;
  in_relative_path : string;
  in_encrypted_path : option string;
  in_is_virtual : bool;
}.

(** An encrypted file: its header and what it decrypts to. *)
Record StoredFile := mkStoredFile {
  sf_id : string;
  sf_epoch : N;
  sf_content : bytes;
}.

Inductive Errno := EROFS | EINVAL | ENOENT | EIO.

(** Of the state of the mount what these handlers use, and the encrypted files. *)
Record Mount (C M : Type) := mkMount {
  mt_inodes : gmap N FileInfo;
  mt_files : gmap string StoredFile;
  mt_cache : CacheManager C M;
}.
Arguments mkMount {C M}.
Arguments mt_inodes {C M}.
Arguments mt_files {C M}.
Arguments mt_cache {C M}.

(** What a call meets outside the model: whether writing is allowed, the faults of opening
    and of decrypting the encrypted file, the new encryption or why it could not be saved,
    the text of a virtual file, and the clock. *)
Record Env := mkEnv {
  ev_writable : bool;
  ev_open_fault : option string;
  ev_decrypt_fault : option string;
  ev_saved : res string (string * N);
  ev_overlay : res string bytes;
  ev_now : Z;
}.

(** [Vec::resize] with zeros. *)
Definition resize (n : N) (b : bytes) : bytes :=
  take (N.to_nat n) b ++ replicate (N.to_nat n - length b) x00.

(** The contents after a write: the gap between the end and the offset is zero. *)
Definition write_content (offset : N) (data content : bytes) : res string bytes :=
  match u64_checked_add offset (blen data) with
  | None => Err "Write exceeds maximum supported file size"
  | Some write_end =>
      let content := if (blen content <? write_end)%N then resize write_end content else content in
      Ok (take (N.to_nat offset) content ++ data ++ drop (N.to_nat write_end) content)
  end.

Section Handlers.
Context {C M : Type} `{LruMap CacheKey CachedChunk C} `{LruMap string CachedMetadata M}.
Implicit Types (s : Mount C M) (env : Env).

Definition set_inodes (f : gmap N FileInfo → gmap N FileInfo) s : Mount C M :=
  mkMount (f (mt_inodes s)) (mt_files s) (mt_cache s).
Definition set_files (f : gmap string StoredFile → gmap string StoredFile) s : Mount C M :=
  mkMount (mt_inodes s) (f (mt_files s)) (mt_cache s).
Definition set_cache (m : CacheManager C M) s : Mount C M := mkMount (mt_inodes s) (mt_files s) m.
Definition on_cache {A} (f : ST (CacheManager C M) string A) : ST (Mount C M) string A :=
  st_zoom mt_cache set_cache f.

(** [parse_encrypted_file], of which the callers use the epoch. *)
Definition open_file env (path : string) : ST (Mount C M) string StoredFile :=
  match ev_open_fault env with
  | Some e => st_fail e
  | None =>
      let* s := st_get in
      st_lift (ok_or (mt_files s !! path) ("Failed to read encrypted file payload from " +:+ path))
  end.
(** [Client::decrypt_file]. *)
Definition decrypt_file env (f : StoredFile) : ST (Mount C M) string bytes :=
  match ev_decrypt_fault env with
  | Some e => st_fail e
  | None => st_ret (sf_content f)
  end.
(** [Client::encrypt_file] and [persist_encrypted_file], which replaces the file in one
    step; the new header is returned. *)
Definition save_file env (path : string) (content : bytes) : ST (Mount C M) string StoredFile :=
  let* new := st_lift (ev_saved env) in
  let f := mkStoredFile new.1 new.2 content in
  do* st_put (set_files (<[path := f]>));
  st_ret f.

(** *** Reading *)

Definition with_size_now (size : N) (now : Z) (i : FileInfo) : FileInfo :=
  mkFileInfo (in_file_id i) (in_epoch_id i) size (in_is_directory i) now now (in_creation_time i)
    (in_permissions i) (in_relative_path i) (in_encrypted_path i) (in_is_virtual i).

Definition read_virtual_overlay env (ino : N) (info : FileInfo) (offset size : N)
  : ST (Mount C M) string bytes :=
  let* rendered := st_lift (ev_overlay env) in
  let total_len := blen rendered in
  do* st_put (set_inodes (<[ino := with_size_now total_len (ev_now env) info]>));
  if (total_len <=? offset)%N then st_ret []
  else st_lift (unwrap (slice offset (N.min (offset + size) total_len) rendered)).

(** What was not cached is decrypted and stored. *)
Definition read_encrypted env (info : FileInfo) (encrypted_path : string) (cache_key : CacheKey)
  : ST (Mount C M) string bytes :=
  let offset := key_offset cache_key in
  let size := key_size cache_key in
  let* f := open_file env encrypted_path in
  let* plaintext := st_map_err (λ e, "Failed to decrypt " +:+ in_file_id info +:+ ": " +:+ e)
                      (decrypt_file env f) in
  let file_len := blen plaintext in
  if (file_len <=? offset)%N then st_ret []
  else
    let available := (file_len - offset)%N in
    let take_len := N.min available size in
    let* data := st_lift (unwrap (slice offset (offset + take_len) plaintext)) in
    let chunk := mkDecryptedChunk data (sf_epoch f) (ev_now env) (blen data) false in
    do* on_cache (store_chunk cache_key chunk (60 * SECOND) (ev_now env));
    st_ret data.
Definition read_file_data env (ino : N) (offset : Z) (size : N) : ST (Mount C M) string bytes :=
  let* s := st_get in
  match mt_inodes s !! ino with
  | None => st_fail "File not found"
  | Some info =>
      if in_is_directory info then st_fail "Cannot read directory entries"
      else
        let offset := Z.to_N offset in
        if (size =? 0)%N then st_ret []
        else if in_is_virtual info then read_virtual_overlay env ino info offset size
        else
          let* encrypted_path := st_lift (ok_or (in_encrypted_path info)
            ("Missing encrypted path for " +:+ in_file_id info)) in
          let cache_key := mkCacheKey (in_file_id info) offset size in
          let* cached := on_cache (CacheManager_get_chunk cache_key (ev_now env) (ev_now env)) in
          match cached with
          | Some chunk => st_ret (mg_data chunk)
          | None => read_encrypted env info encrypted_path cache_key
          end
  end.

(** Every error is reported as [EIO]. *)
Definition fuse_read env (ino : N) (offset : Z) (size : N) : ST (Mount C M) Errno bytes :=
  st_map_err (λ _, EIO) (read_file_data env ino offset size).

(** *** Writing *)

(** The body that the two writers share: read, change, drop from the cache, save. *)
Definition rewrite_file env (path file_id : string) (change : bytes → res string bytes)
  : ST (Mount C M) string StoredFile :=
  let* f := open_file env path in
  let* content := decrypt_file env f in
  let* content := st_lift (change content) in
  do* on_cache (CacheManager_invalidate_file file_id (ev_now env));
  save_file env path content.

Definition after_save (f : StoredFile) (now : Z) (i : FileInfo) : FileInfo :=
  mkFileInfo (sf_id f) (pretty (sf_epoch f)) (blen (sf_content f)) (in_is_directory i) now now
    (in_creation_time i) (in_permissions i) (in_relative_path i) (in_encrypted_path i) (in_is_virtual i).

Definition fuse_write env (ino : N) (offset : Z) (data : bytes) : ST (Mount C M) Errno N :=
  if negb (ev_writable env) then st_fail EROFS
  else if (offset <? 0)%Z then st_fail EINVAL
  else
    let offset := Z.to_N offset in
    let* s := st_get in
    let* info := st_lift (ok_or (mt_inodes s !! ino) ENOENT) in
    let* path := st_lift (ok_or (in_encrypted_path info) EIO) in
    let* new := st_map_err (λ _, EIO)
                  (rewrite_file env path (in_file_id info) (write_content offset data)) in
    do* st_put (set_inodes (alter (after_save new (ev_now env)) ino));
    st_ret (blen data mod U32)%N.

Record SetAttr := mkSetAttr {
  sa_mode : option N;
  sa_size : option N;
  sa_atime : option Z;
  sa_mtime : option Z;
  sa_ctime : option Z;
  sa_chgtime : option Z;
  sa_crtime : option Z;
}.
Definition opt {A B} (o : option A) (f : A → B → B) (b : B) : B :=
  match o with Some a => f a b | None => b end.
Definition set_modified (t : Z) (i : FileInfo) : FileInfo :=
  mkFileInfo (in_file_id i) (in_epoch_id i) (in_size i) (in_is_directory i) t (in_access_time i)
    (in_creation_time i) (in_permissions i) (in_relative_path i) (in_encrypted_path i) (in_is_virtual i).
Definition set_accessed (t : Z) (i : FileInfo) : FileInfo :=
  mkFileInfo (in_file_id i) (in_epoch_id i) (in_size i) (in_is_directory i) (in_modified_time i) t
    (in_creation_time i) (in_permissions i) (in_relative_path i) (in_encrypted_path i) (in_is_virtual i).
Definition set_created (t : Z) (i : FileInfo) : FileInfo :=
  mkFileInfo (in_file_id i) (in_epoch_id i) (in_size i) (in_is_directory i) (in_modified_time i)
    (in_access_time i) t (in_permissions i) (in_relative_path i) (in_encrypted_path i) (in_is_virtual i).
Definition set_mode (mode : N) (i : FileInfo) : FileInfo :=
  mkFileInfo (in_file_id i) (in_epoch_id i) (in_size i) (in_is_directory i) (in_modified_time i)
    (in_access_time i) (in_creation_time i) (N.land mode 511) (in_relative_path i) (in_encrypted_path i)
    (in_is_virtual i).
(** The attributes other than the size, in the order of the code: the last change time wins. *)
Definition set_attributes (a : SetAttr) (i : FileInfo) : FileInfo :=
  opt (sa_crtime a) set_created
    (opt (sa_chgtime a) set_modified
       (opt (sa_ctime a) set_modified
          (opt (sa_mtime a) set_modified
             (opt (sa_atime a) set_accessed
                (opt (sa_mode a) set_mode i))))).
Definition changes_attributes (a : SetAttr) : bool :=
  is_some (sa_mode a) || is_some (sa_size a) || is_some (sa_atime a) || is_some (sa_mtime a)
  || is_some (sa_ctime a) || is_some (sa_chgtime a) || is_some (sa_crtime a).

Definition fuse_setattr env (ino : N) (a : SetAttr) : ST (Mount C M) Errno FileInfo :=
  if negb (ev_writable env) then st_fail EROFS
  else
    let* s := st_get in
    let* info := st_lift (ok_or (mt_inodes s !! ino) ENOENT) in
    let* updated :=
      match sa_size a with
      | None => st_ret info
      | Some new_size =>
          let* path := st_lift (ok_or (in_encrypted_path info) EIO) in
          let* new := st_map_err (λ _, EIO)
                        (rewrite_file env path (in_file_id info) (λ content, Ok (resize new_size content))) in
          st_ret (after_save new (ev_now env) info)
      end in
    let updated := set_attributes a updated in
    do* (if changes_attributes a then st_put (set_inodes (<[ino := updated]>)) else st_ret tt);
    st_ret updated.
End Handlers.

(** ** Contents after a write *)

Lemma length_resize n b : length (resize n b) = N.to_nat n.
Proof. unfold resize. rewrite length_app, length_take, length_replicate. lia. Qed.
Lemma blen_resize n b : blen (resize n b) = n.
Proof. unfold blen. rewrite length_resize. lia. Qed.
(** What was there before the end stays, what is new is zero. *)
Lemma resize_lookup n b i :
  (i < n)%N → resize n b !! N.to_nat i = Some (default x00 (b !! N.to_nat i)).
Proof.
  intros Hi. unfold resize. destruct (decide (N.to_nat i < length b)) as [Hb|Hb].
  - rewrite lookup_app_l by (rewrite length_take; lia). rewrite lookup_take_lt by lia.
    by destruct (lookup_lt_is_Some_2 b (N.to_nat i) Hb) as [x ->].
  - rewrite lookup_app_r by (rewrite length_take; lia). rewrite lookup_replicate_2.
    + by rewrite (lookup_ge_None_2 b) by lia.
    + rewrite length_take. lia.
Qed.

(** The bytes after a write, one by one: the data in its range, elsewhere what was there,
    and zero in a gap. *)
Definition written_byte (offset : N) (data content : bytes) (i : N) : byte :=
  default x00 (if (offset <=? i)%N && (i <? offset + blen data)%N then data !! N.to_nat (i - offset)
               else content !! N.to_nat i).
Definition write_spec (offset : N) (data content content' : bytes) : Prop :=
  blen content' = N.max (blen content) (offset + blen data) ∧
  ∀ i, (i < blen content')%N → content' !! N.to_nat i = Some (written_byte offset data content i).

Lemma write_content_spec offset data content :
  (offset + blen data < U64)%N →
  ∃ content', write_content offset data content = Ok content' ∧ write_spec offset data content content'.
Proof.
  intros Hfit. unfold write_content. rewrite (proj2 (u64_checked_add_Some _ _ _) (conj eq_refl Hfit)).
  eexists. split; [reflexivity|].
  set (base := if (blen content <? offset + blen data)%N then resize (offset + blen data) content else content).
  assert (blen base = N.max (blen content) (offset + blen data)) as Hbase.
  { unfold base. destruct (N.ltb_spec (blen content) (offset + blen data)); [rewrite blen_resize|]; lia. }
  assert (∀ i, (i < blen base)%N → base !! N.to_nat i = Some (default x00 (content !! N.to_nat i))) as Hlook.
  { intros i Hi. rewrite Hbase in Hi. unfold base.
    destruct (N.ltb_spec (blen content) (offset + blen data)); [apply resize_lookup; lia|].
    destruct (lookup_lt_is_Some_2 content (N.to_nat i)) as [x ->]; [unfold blen in *; lia|done]. }
  unfold write_spec. unfold blen in *. rewrite !length_app, length_take, length_drop. split; [lia|].
  intros i Hi. unfold written_byte, blen.
  destruct (N.leb_spec offset i) as [Hoi|Hoi]; simpl.
  - rewrite lookup_app_r by (rewrite length_take; lia). rewrite length_take.
    replace (N.to_nat i - N.to_nat offset `min` length base) with (N.to_nat (i - offset)) by lia.
    destruct (N.ltb_spec i (offset + N.of_nat (length data))) as [Hie|Hie].
    + rewrite lookup_app_l by lia.
      destruct (lookup_lt_is_Some_2 data (N.to_nat (i - offset))) as [x ->]; [lia|done].
    + rewrite lookup_app_r by lia. rewrite lookup_drop. rewrite <-Hlook by lia. f_equal. lia.
  - rewrite lookup_app_l by (rewrite length_take; lia). rewrite lookup_take_lt by lia. apply Hlook. lia.
Qed.
Lemma write_content_Ok offset data content content' :
  write_content offset data content = Ok content' → write_spec offset data content content'.
Proof.
  intros E. destruct (decide (offset + blen data < U64)%N) as [Hf|Hf].
  - destruct (write_content_spec offset data content Hf) as (c & E' & Hs). congruence.
  - unfold write_content in E. destruct (u64_checked_add _ _) eqn:Ea; [|done].
    apply u64_checked_add_Some in Ea as [_ ?]. done.
Qed.
Lemma write_spec_piece offset data content content' :
  write_spec offset data content content' → piece offset (blen data) content' = data.
Proof.
  intros [Hl Hb]. apply list_eq_same_length with (n := length data).
  - done.
  - unfold piece. rewrite length_take, length_drop. unfold blen in *. lia.
  - intros i x y Hi. unfold piece. rewrite lookup_take_lt by (unfold blen; lia). rewrite lookup_drop.
    replace (N.to_nat offset + i) with (N.to_nat (offset + N.of_nat i)) by lia.
    rewrite Hb by (unfold blen in *; lia). unfold written_byte.
    destruct (N.leb_spec offset (offset + N.of_nat i)); [|lia].
    destruct (N.ltb_spec (offset + N.of_nat i) (offset + blen data)); [|unfold blen in *; lia]. simpl.
    replace (N.to_nat (offset + N.of_nat i - offset)) with i by lia. intros [= <-] ->. done.
Qed.

(** ** What the handlers keep *)

Section Invariant.
Context {C M : Type} {LM : LruMap CacheKey CachedChunk C} {MM : LruMap string CachedMetadata M}.
Context {LL : LruLaws CacheKey CachedChunk C} {ML : LruLaws string CachedMetadata M}.
Variables (max cap : N).
Hypothesis max_fits : (max * 3 < U64)%N.
Implicit Types (s : Mount C M) (env : Env).

(** A cached piece is a piece of a file that is there. *)
Definition cached_of (files : gmap string StoredFile) (k : CacheKey) (data : bytes) : Prop :=
  ∃ path f, files !! path = Some f ∧ sf_id f = key_file_id k ∧
            data = piece (key_offset k) (blen data) (sf_content f).

(** Identifiers name one file, every encrypted path of an inode is there, has no other inode,
    and the inode knows its identifier; directories and virtual files have none. *)
Record mount_inv s : Prop := {
  mi_cache : manager_inv max cap (cached_of (mt_files s)) (mt_cache s);
  mi_ids : ∀ p q f g, mt_files s !! p = Some f → mt_files s !! q = Some g → sf_id f = sf_id g → p = q;
  mi_known : ∀ ino i p, mt_inodes s !! ino = Some i → in_encrypted_path i = Some p →
    ∃ f, mt_files s !! p = Some f ∧ sf_id f = in_file_id i;
  mi_one : ∀ ino jno i j p, mt_inodes s !! ino = Some i → mt_inodes s !! jno = Some j →
    in_encrypted_path i = Some p → in_encrypted_path j = Some p → ino = jno;
  mi_plain : ∀ ino i, mt_inodes s !! ino = Some i → in_is_directory i || in_is_virtual i = true →
    in_encrypted_path i = None;
}.

(** The identifier of a new encryption is not in use. *)
Definition fresh env s : Prop :=
  match ev_saved env with
  | Ok (id, _) => ∀ p f, mt_files s !! p = Some f → sf_id f ≠ id
  | _ => True
  end.
Definition settled env : Prop := settles (ev_saved env) ∧ settles (ev_overlay env).

Lemma manager_inv_mono (Q Q' : CacheKey → bytes → Prop) (m : CacheManager C M) :
  manager_inv max cap Q m →
  (∀ k ch, (k, ch) ∈ entries (chunk_cache m) → Q k (ch_data ch) → Q' k (ch_data ch)) →
  manager_inv max cap Q' m.
Proof. intros [[] Hm] Hq. split; [|done]. split; try done. intros k ch Hin. apply Hq; auto. Qed.

Lemma on_cache_spec {A} (f : ST (CacheManager C M) string A) s a m' :
  f (mt_cache s) = (Ok a, m') → on_cache f s = (Ok a, set_cache m' s).
Proof. intros E. unfold on_cache, st_zoom. by rewrite E. Qed.

Lemma set_cache_inv m' s :
  mount_inv s → manager_inv max cap (cached_of (mt_files s)) m' → mount_inv (set_cache m' s).
Proof. intros [] Hm. by split. Qed.

(** Attributes may change as long as the identifier, the kind and the encrypted file stay. *)
Definition same_file (i i' : FileInfo) : Prop :=
  in_encrypted_path i' = in_encrypted_path i ∧ in_is_directory i' = in_is_directory i ∧
  in_is_virtual i' = in_is_virtual i.
Lemma inodes_update ino i i' (m : gmap N FileInfo) n j :
  m !! ino = Some i → same_file i i' → <[ino := i']> m !! n = Some j →
  ∃ j0, m !! n = Some j0 ∧ same_file j0 j ∧ (n ≠ ino → j = j0) ∧ (n = ino → j = i').
Proof.
  intros Hi Hs. destruct (decide (ino = n)) as [<-|Hne].
  - rewrite lookup_insert_eq. intros [= <-]. by exists i.
  - rewrite lookup_insert_ne by done. intros Hj. by exists j.
Qed.
Lemma set_info_inv ino i i' s :
  mount_inv s → mt_inodes s !! ino = Some i → same_file i i' → in_file_id i' = in_file_id i →
  mount_inv (set_inodes (<[ino := i']>) s).
Proof.
  intros [H1 H2 H3 H4 H5] Hi Hs Hf. split; simpl; [done|done| | |].
  - intros n j p Hj Hp. destruct (inodes_update _ _ _ _ _ _ Hi Hs Hj) as (j0 & Hj0 & (E & _) & Hne & Heq).
    rewrite E in Hp. destruct (H3 n j0 p Hj0 Hp) as (f & Hfile & Hid). exists f. split; [done|]. rewrite Hid.
    destruct (decide (n = ino)) as [->|Hn]; [|by rewrite (Hne Hn)]. rewrite (Heq eq_refl). congruence.
  - intros n1 n2 j1 j2 p Hj1 Hj2.
    destruct (inodes_update _ _ _ _ _ _ Hi Hs Hj1) as (k1 & Hk1 & (-> & _) & _).
    destruct (inodes_update _ _ _ _ _ _ Hi Hs Hj2) as (k2 & Hk2 & (-> & _) & _). by apply H4.
  - intros n j Hj. destruct (inodes_update _ _ _ _ _ _ Hi Hs Hj) as (j0 & Hj0 & (-> & -> & ->) & _). by apply (H5 n).
Qed.

(** *** Reading *)

(** What a reader of [size] bytes from [offset] gets of [content]: bytes that are there, all
    of them inside the range.  [o] is where they start. *)
Definition in_range_of (content : bytes) (offset size : N) (data : bytes) (o : N) : Prop :=
  (offset ≤ o)%N ∧ (o + blen data ≤ offset + size)%N ∧ data = piece o (blen data) content ∧
  (data = [] → size = 0%N ∨ (blen content ≤ offset)%N).
(** A piece that is cached starts inside the range. *)
Definition cached_inside s (file_id : string) (offset size : N) : Prop :=
  ∃ k ch, (k, ch) ∈ entries (chunk_cache (mt_cache s)) ∧ key_file_id k = file_id ∧
    (offset < key_offset k < offset + size)%N.

Lemma range_piece content offset size :
  in_range_of content offset size (piece offset size content) offset.
Proof.
  pose proof (piece_blen offset size content) as Hl. split; [done|]. split; [lia|]. split.
  - rewrite Hl. unfold piece. destruct (N.min_spec size (blen content - offset)) as [[_ ->]|[Hle ->]]; [done|].
    rewrite !take_ge; [done|rewrite length_drop; unfold blen in *; lia..].
  - intros E. rewrite E in Hl. unfold blen in *. simpl in Hl. lia.
Qed.

Lemma get_answer s ino i p f offset size now stamp :
  mount_inv s → (0 < size < U64)%N → mt_inodes s !! ino = Some i → in_encrypted_path i = Some p →
  mt_files s !! p = Some f →
  ∃ r m', CacheManager_get_chunk (mkCacheKey (in_file_id i) offset size) now stamp (mt_cache s) = (Ok r, m') ∧
    manager_inv max cap (cached_of (mt_files s)) m' ∧
    ∀ ch, r = Some ch → ∃ o, in_range_of (sf_content f) offset size (mg_data ch) o ∧
      (o = offset ∨ cached_inside s (in_file_id i) offset size).
Proof.
  intros Hs Hz Hi Hp Hf.
  destruct (manager_get_spec max cap _ (mkCacheKey (in_file_id i) offset size) now stamp _ (mi_cache _ Hs))
    as (r & m' & E & Hm' & Hsome & _); [simpl; lia|].
  exists r, m'. split; [done|]. split; [done|]. intros ch Hr. destruct (Hsome ch Hr) as (c' & Eg & _). simpl in Eg.
  destruct (get_chunk_raw (in_file_id i) offset size (chunk_cache (mt_cache s))) as (r' & c2 & E2 & _ & Hr'); [lia|].
  rewrite Eg in E2. injection E2 as <- _. destruct (Hr' _ eq_refl) as (k & ck & a & Hin & Hk & Ed & Hka & Hin' & Hz' & Hst).
  destruct (ci_pieces _ _ _ (proj1 (mi_cache _ Hs)) _ _ Hin) as (q & g & Hq & Hid & Hpc).
  assert (q = p) as ->.
  { apply (mi_ids _ Hs q p g f Hq Hf). rewrite Hid, Hk. destruct (mi_known _ Hs ino i p Hi Hp) as (h & Hh & <-). congruence. }
  assert (g = f) as -> by congruence.
  exists a. split.
  - split; [lia|]. split; [lia|]. split.
    + rewrite Ed at 1. rewrite Hpc, piece_piece by lia. f_equal. lia.
    + intros En. rewrite En in Hz'. unfold blen in Hz'. simpl in Hz'. lia.
  - destruct Hst as [->|[Hlt Ho]]; [by left|right]. exists k, ck. split_and!; try done; lia.
Qed.

(** A read leaves every file as it is, and returns bytes in the range. *)
Definition same_paths s s' : Prop :=
  ∀ n, in_encrypted_path <$> mt_inodes s' !! n = in_encrypted_path <$> mt_inodes s !! n.
Record read_post (ino offset size : N) s (r : res string bytes) s' : Prop := {
  rp_settles : settles r;
  rp_inv : mount_inv s';
  rp_files : mt_files s' = mt_files s;
  rp_paths : same_paths s s';
  rp_data : ∀ d i p f, r = Ok d → mt_inodes s !! ino = Some i → in_encrypted_path i = Some p →
    mt_files s !! p = Some f →
    ∃ o, in_range_of (sf_content f) offset size d o ∧
      (o = offset ∨ cached_inside s (in_file_id i) offset size);
}.

Lemma read_post_fail ino offset size s m' e :
  mount_inv s → manager_inv max cap (cached_of (mt_files s)) m' → read_post ino offset size s (Err e) (set_cache m' s).
Proof. intros Hs Hm. split; try done. by apply set_cache_inv. Qed.
Lemma read_post_exact ino i p f offset size d m' s :
  mount_inv s → manager_inv max cap (cached_of (mt_files s)) m' →
  mt_inodes s !! ino = Some i → in_encrypted_path i = Some p → mt_files s !! p = Some f →
  d = piece offset size (sf_content f) → read_post ino offset size s (Ok d) (set_cache m' s).
Proof.
  intros Hs Hm Hi Hp Hf ->. split; try done; [by apply set_cache_inv|]. intros d j q g [= <-] Hj Hq Hg.
  simplify_eq. exists offset. split; [apply range_piece|by left].
Qed.

Lemma overlay_post env ino i offset size s :
  mount_inv s → settled env → mt_inodes s !! ino = Some i → in_encrypted_path i = None →
  ∃ r s', read_virtual_overlay env ino i offset size s = (r, s') ∧ read_post ino offset size s r s'.
Proof.
  intros Hs [_ Hover] Hi Hnone. unfold read_virtual_overlay.
  destruct (ev_overlay env) as [text|e| |]; simpl in Hover; try done; [|by eexists _, s].
  unfold st_bind at 1, st_lift at 1. unfold st_bind, st_put.
  assert (∀ d, read_post ino offset size s (Ok d) (set_inodes <[ino := with_size_now (blen text) (ev_now env) i]> s)) as Hp.
  { intros d. split; try done; [by apply (set_info_inv ino i)| |].
    - intros n. simpl. destruct (decide (ino = n)) as [<-|Hnn]; [by rewrite lookup_insert_eq, Hi|].
      by rewrite lookup_insert_ne.
    - intros d' j p f _ Hj Hp. simplify_eq. }
  destruct (N.leb_spec (blen text) offset) as [Hle|Hlt]; [by eexists _, _|].
  rewrite slice_piece by lia. eexists _, _. split; [reflexivity|apply Hp].
Qed.

Lemma piece_min offset size content :
  piece offset (N.min (blen content - offset) size) content = piece offset size content.
Proof.
  destruct (range_piece content offset size) as (_ & _ & -> & _). rewrite piece_blen. f_equal. lia.
Qed.

Lemma read_encrypted_spec env i p f key s :
  manager_inv max cap (cached_of (mt_files s)) (mt_cache s) → mt_files s !! p = Some f →
  sf_id f = key_file_id key →
  (∃ e, read_encrypted env i p key s = (Err e, s) ∧ (ev_open_fault env, ev_decrypt_fault env) ≠ (None, None)) ∨
  ∃ m', read_encrypted env i p key s
          = (Ok (piece (key_offset key) (key_size key) (sf_content f)), set_cache m' s) ∧
        manager_inv max cap (cached_of (mt_files s)) m'.
Proof.
  intros Hm Hf Hid. unfold read_encrypted, open_file, decrypt_file.
  destruct (ev_open_fault env) as [e|]; [left; by exists e|].
  destruct (ev_decrypt_fault env) as [e|].
  { left. eexists. split; [|done]. unfold st_bind at 1. rewrite st_bind_get, Hf. reflexivity. }
  right. unfold st_bind at 1. rewrite st_bind_get, Hf.
  unfold st_lift at 1, ok_or at 1. unfold st_bind at 1, st_map_err. cbn [map_err st_ret].
  destruct (N.leb_spec (blen (sf_content f)) (key_offset key)) as [Hle|Hlt].
  { exists (mt_cache s). split; [|done]. rewrite <-piece_min.
    replace (blen (sf_content f) - key_offset key)%N with 0%N by lia. rewrite N.min_0_l. by destruct s. }
  rewrite slice_piece by lia. rewrite N.add_comm, N.add_sub, piece_min.
  set (data := piece (key_offset key) (key_size key) (sf_content f)).
  destruct (store_chunk_spec max cap (cached_of (mt_files s)) max_fits key
              (mkDecryptedChunk data (sf_epoch f) (ev_now env) (blen data) false) (60 * SECOND) (ev_now env) _ Hm)
    as (m2 & E2 & Hm2).
  { exists p, f. split; [done|]. split; [done|]. simpl.
    by destruct (range_piece (sf_content f) (key_offset key) (key_size key)) as (_ & _ & ? & _). }
  exists m2. split; [|done]. unfold st_bind at 1, st_lift at 1, unwrap at 1. unfold st_bind.
  by rewrite (on_cache_spec _ _ _ _ E2).
Qed.

Lemma read_file_data_spec env ino offset size s :
  mount_inv s → (size < U64)%N → settled env →
  ∃ r s', read_file_data env ino offset size s = (r, s') ∧ read_post ino (Z.to_N offset) size s r s'.
Proof.
  intros Hs Hz Henv. unfold read_file_data. rewrite st_bind_get.
  assert (set_cache (mt_cache s) s = s) as Es by by destruct s.
  pose proof (λ e, read_post_fail ino (Z.to_N offset) size s _ e Hs (mi_cache _ Hs)) as Hfail. rewrite Es in Hfail.
  destruct (mt_inodes s !! ino) as [i|] eqn:Hi; [|by eexists _, s].
  destruct (in_is_directory i) eqn:Hd; [by eexists _, s|].
  destruct (N.eqb_spec size 0) as [->|Hne].
  { eexists _, s. split; [done|]. split; try done. intros d j p f [= <-] Hj Hp Hf. exists (Z.to_N offset).
    split; [|by left]. split; [done|]. unfold blen. simpl. split; [lia|]. split; [done|by left]. }
  destruct (in_is_virtual i) eqn:Hv.
  { apply overlay_post; try done. apply (mi_plain _ Hs ino i Hi). by rewrite Hd, Hv. }
  destruct (in_encrypted_path i) as [p|] eqn:Hp; [|by eexists _, s].
  unfold st_bind at 1, st_lift at 1, ok_or at 1.
  destruct (mi_known _ Hs ino i p Hi Hp) as (f & Hf & Hid).
  destruct (get_answer s ino i p f (Z.to_N offset) size (ev_now env) (ev_now env) Hs) as (r & m' & E & Hm' & Hans);
    [lia|done..|].
  unfold st_bind at 1. rewrite (on_cache_spec _ _ _ _ E). destruct r as [ch|].
  { eexists _, _. split; [reflexivity|]. split; try done; [by apply set_cache_inv|].
    intros d j q g [= <-] Hj Hq Hg. simplify_eq. by apply Hans. }
  destruct (read_encrypted_spec env i p f (mkCacheKey (in_file_id i) (Z.to_N offset) size) (set_cache m' s))
    as [(e & -> & _)|(m2 & -> & Hm2)]; [done..| |]; eexists _, _; (split; [reflexivity|]).
  - by apply read_post_fail.
  - exact (read_post_exact ino i p f _ size _ m2 s Hs Hm2 Hi Hp Hf eq_refl).
Qed.

(** A read of a file of which nothing is cached is exact. *)
Lemma read_uncached env ino i p f offset size s :
  mount_inv s → (0 < size < U64)%N → ev_open_fault env = None → ev_decrypt_fault env = None →
  mt_inodes s !! ino = Some i → in_encrypted_path i = Some p → mt_files s !! p = Some f →
  (∀ e, e ∈ entries (chunk_cache (mt_cache s)) → key_file_id e.1 ≠ in_file_id i) →
  (read_file_data env ino offset size s).1 = Ok (piece (Z.to_N offset) size (sf_content f)).
Proof.
  intros Hs Hz Ho Hde Hi Hp Hf Hnone. unfold read_file_data. rewrite st_bind_get, Hi.
  destruct (in_is_directory i) eqn:Hd; [by rewrite (mi_plain _ Hs ino i Hi) in Hp; [|rewrite Hd]|].
  rewrite (proj2 (N.eqb_neq size 0)) by lia.
  destruct (in_is_virtual i) eqn:Hv; [by rewrite (mi_plain _ Hs ino i Hi) in Hp; [|rewrite Hd, Hv]|].
  rewrite Hp. unfold st_bind at 1, st_lift at 1, ok_or at 1.
  destruct (manager_get_spec max cap _ (mkCacheKey (in_file_id i) (Z.to_N offset) size) (ev_now env) (ev_now env) _
              (mi_cache _ Hs)) as (r & m' & E & Hm' & Hsome & _); [simpl; lia|].
  unfold st_bind at 1. rewrite (on_cache_spec _ _ _ _ E). destruct r as [ch|].
  { exfalso. destruct (Hsome ch eq_refl) as (c' & Eg & _). simpl in Eg.
    destruct (get_chunk_raw (in_file_id i) (Z.to_N offset) size (chunk_cache (mt_cache s))) as (r' & c2 & E2 & _ & Hr');
      [lia|].
    rewrite Eg in E2. injection E2 as <- _. destruct (Hr' _ eq_refl) as (k & ck & a & Hin & Hk & _).
    by apply (Hnone _ Hin). }
  destruct (mi_known _ Hs ino i p Hi Hp) as (h & Hh & Hid).
  destruct (read_encrypted_spec env i p f (mkCacheKey (in_file_id i) (Z.to_N offset) size) (set_cache m' s))
    as [(e & _ & Hno)|(m2 & -> & Hm2)]; [done|done|simpl; congruence| |done]. by rewrite Ho, Hde in Hno.
Qed.

(** *** Replacing a file *)

(** A saved file: nothing of its old contents is cached, and nothing of the new ones yet. *)
Lemma saved_inv ino i i' p f new m' s :
  mount_inv s → mt_inodes s !! ino = Some i → in_encrypted_path i = Some p → mt_files s !! p = Some f →
  manager_inv max cap (cached_of (mt_files s)) m' →
  (∀ e, e ∈ entries (chunk_cache m') → key_file_id e.1 ≠ in_file_id i) →
  (∀ q g, mt_files s !! q = Some g → sf_id g ≠ sf_id new) →
  same_file i i' → in_file_id i' = sf_id new →
  mount_inv (mkMount (<[ino := i']> (mt_inodes s)) (<[p := new]> (mt_files s)) m').
Proof.
  intros Hs Hi Hp Hf Hm Hgone Hfresh Hsame Hid. split; simpl.
  - eapply manager_inv_mono; [exact Hm|]. intros k ch Hin (q & g & Hq & Hg & Hd). exists q, g.
    split; [|done]. rewrite lookup_insert_ne; [done|]. intros <-. apply (Hgone _ Hin). simpl. rewrite <-Hg.
    destruct (mi_known _ Hs ino i p Hi Hp) as (h & Hh & <-). congruence.
  - intros q1 q2 g1 g2 H1 H2 E. destruct (decide (p = q1)) as [<-|N1], (decide (p = q2)) as [<-|N2]; [done|..].
    + rewrite lookup_insert_eq in H1. rewrite lookup_insert_ne in H2 by done. injection H1 as <-.
      by destruct (Hfresh q2 g2 H2).
    + rewrite lookup_insert_eq in H2. rewrite lookup_insert_ne in H1 by done. injection H2 as <-.
      by destruct (Hfresh q1 g1 H1).
    + rewrite lookup_insert_ne in H1, H2 by done. by apply (mi_ids _ Hs q1 q2 g1 g2).
  - intros n j q Hj Hq. destruct (inodes_update _ _ _ _ _ _ Hi Hsame Hj) as (j0 & Hj0 & (E & _) & Hne & Heq).
    destruct (decide (n = ino)) as [->|Hn].
    + rewrite (Heq eq_refl), Hid. exists new. rewrite E in Hq. simplify_eq. by rewrite lookup_insert_eq.
    + rewrite (Hne Hn) in *. rewrite lookup_insert_ne; [by apply (mi_known _ Hs n)|]. intros <-.
      apply Hn. by apply (mi_one _ Hs n ino j0 i p).
  - intros n1 n2 j1 j2 q Hj1 Hj2.
    destruct (inodes_update _ _ _ _ _ _ Hi Hsame Hj1) as (k1 & Hk1 & (-> & _) & _).
    destruct (inodes_update _ _ _ _ _ _ Hi Hsame Hj2) as (k2 & Hk2 & (-> & _) & _). by apply (mi_one _ Hs).
  - intros n j Hj. destruct (inodes_update _ _ _ _ _ _ Hi Hsame Hj) as (j0 & Hj0 & (-> & -> & ->) & _).
    by apply (mi_plain _ Hs n).
Qed.

Definition rewrite_post ino i p f (change : bytes → res string bytes) s (r : res string StoredFile) s' : Prop :=
  settles r ∧ mt_inodes s' = mt_inodes s ∧
  match r with
  | Ok new =>
      change (sf_content f) = Ok (sf_content new) ∧ mt_files s' = <[p := new]> (mt_files s) ∧
      (∀ e, e ∈ entries (chunk_cache (mt_cache s')) → key_file_id e.1 ≠ sf_id new) ∧
      ∀ i', same_file i i' → in_file_id i' = sf_id new → mount_inv (set_inodes (<[ino := i']>) s')
  | _ => mount_inv s' ∧ mt_files s' = mt_files s
  end.

Lemma rewrite_file_spec env ino i p f change s :
  mount_inv s → settled env → fresh env s → mt_inodes s !! ino = Some i → in_encrypted_path i = Some p →
  mt_files s !! p = Some f → (∀ c, settles (change c)) →
  ∃ r s', rewrite_file env p (in_file_id i) change s = (r, s') ∧ rewrite_post ino i p f change s r s'.
Proof.
  intros Hs [Hsaved _] Hfresh Hi Hp Hf Hch. unfold rewrite_file, fresh in *.
  unfold st_bind at 1, open_file. destruct (ev_open_fault env) as [e|]; [by eexists _, s|].
  rewrite st_bind_get, Hf. unfold st_lift at 1, ok_or. unfold st_bind at 1, decrypt_file.
  destruct (ev_decrypt_fault env) as [e|]; [by eexists _, s|]. unfold st_ret at 1.
  rewrite st_bind_lift. pose proof (Hch (sf_content f)) as Hset.
  destruct (change (sf_content f)) as [c'|e| |] eqn:Ec; simpl in Hset; try done; [|by eexists _, s].
  destruct (manager_invalidate_spec max cap _ max_fits (in_file_id i) (ev_now env) _ (mi_cache _ Hs))
    as (m' & E & Hm' & He).
  unfold st_bind at 1. rewrite (on_cache_spec _ _ _ _ E). unfold save_file. rewrite st_bind_lift.
  destruct (ev_saved env) as [[id epoch]|e| |]; simpl in Hsaved; try done.
  - unfold st_bind, st_put. eexists _, _. split; [reflexivity|]. split; [done|]. split; [done|].
    split; [done|]. split; [done|]. split.
    { intros [k ch] Hin. apply He in Hin as [Hin _].
      destruct (ci_pieces _ _ _ (proj1 (mi_cache _ Hs)) _ _ Hin) as (q & g & Hq & Hid & _). simpl. rewrite <-Hid. by apply (Hfresh q). }
    intros i' Hsame Hid.
    apply (saved_inv ino i i' p f (mkStoredFile id epoch c') m' s); try done. intros e' He'. by apply He.
  - eexists _, _. split; [reflexivity|]. split; [done|]. split; [done|]. split; [by apply set_cache_inv|done].
Qed.
End Invariant.

(** ** The mounted files as a map from paths to contents *)

Inductive mount_op :=
| OpRead (ino : N) (offset : Z) (size : N)
| OpWrite (ino : N) (offset : Z) (data : bytes)
| OpSetattr (ino : N) (a : SetAttr).
Inductive mount_reply :=
| Data (d : bytes)
| Written (n : N)
| Attributes (i : FileInfo).

(** Replies are errors, or: to a read, bytes of the file inside the range; to a write, the
    number of bytes, and the file is changed as [write_spec] says; to a change of the size,
    the file is cut or filled with zeros. *)
Inductive file_spec (paths : N → option string)
  : mount_op → gmap string bytes → res Errno mount_reply → gmap string bytes → Prop :=
| spec_refused op σ e : file_spec paths op σ (Err e) σ
| spec_read ino offset size σ p c d o :
    paths ino = Some p → σ !! p = Some c → in_range_of c (Z.to_N offset) size d o →
    file_spec paths (OpRead ino offset size) σ (Ok (Data d)) σ
| spec_read_other ino offset size σ d :
    paths ino = None → file_spec paths (OpRead ino offset size) σ (Ok (Data d)) σ
| spec_write ino offset data σ p c c' :
    paths ino = Some p → σ !! p = Some c → (0 ≤ offset)%Z → write_spec (Z.to_N offset) data c c' →
    file_spec paths (OpWrite ino offset data) σ (Ok (Written (blen data mod U32))) (<[p := c']> σ)
| spec_attributes ino a σ i :
    sa_size a = None → file_spec paths (OpSetattr ino a) σ (Ok (Attributes i)) σ
| spec_truncate ino a n σ p c i :
    sa_size a = Some n → paths ino = Some p → σ !! p = Some c → in_size i = n →
    file_spec paths (OpSetattr ino a) σ (Ok (Attributes i)) (<[p := resize n c]> σ).
Inductive file_specs (paths : N → option string)
  : list mount_op → gmap string bytes → list (res Errno mount_reply) → gmap string bytes → Prop :=
| file_specs_nil σ : file_specs paths [] σ [] σ
| file_specs_cons op ops σ r σ' rs σ'' :
    file_spec paths op σ r σ' → file_specs paths ops σ' rs σ'' →
    file_specs paths (op :: ops) σ (r :: rs) σ''.

(** The identifiers that new encryptions draw. *)
Definition new_id (x : Env * mount_op) : option string :=
  match ev_saved x.1 with Ok (id, _) => Some id | _ => None end.
Definition read_fits (x : Env * mount_op) : Prop :=
  match x.2 with OpRead _ _ size => (size < U64)%N | _ => True end.

Section Refinement.
Context {C M : Type} {LM : LruMap CacheKey CachedChunk C} {MM : LruMap string CachedMetadata M}.
Context {LL : LruLaws CacheKey CachedChunk C} {ML : LruLaws string CachedMetadata M}.
Implicit Types (s : Mount C M) (env : Env).

Definition apply_mount (x : Env * mount_op) : ST (Mount C M) Errno mount_reply :=
  match x.2 with
  | OpRead ino offset size => let* d := fuse_read x.1 ino offset size in st_ret (Data d)
  | OpWrite ino offset data => let* n := fuse_write x.1 ino offset data in st_ret (Written n)
  | OpSetattr ino a => let* i := fuse_setattr x.1 ino a in st_ret (Attributes i)
  end.
Fixpoint run_mount (xs : list (Env * mount_op)) s : list (res Errno mount_reply) * Mount C M :=
  match xs with
  | [] => ([], s)
  | x :: xs => let '(r, s) := apply_mount x s in let '(rs, s) := run_mount xs s in (r :: rs, s)
  end.

Definition contents s : gmap string bytes := sf_content <$> mt_files s.
Definition paths_of s (ino : N) : option string := mt_inodes s !! ino ≫= in_encrypted_path.
Definition file_ids s (id : string) : Prop := ∃ p f, mt_files s !! p = Some f ∧ sf_id f = id.

Variables (max cap : N).
Hypothesis max_fits : (max * 3 < U64)%N.

(** One call: what it does to the files is what the map says, and it stays in step. *)
Record step_post (x : Env * mount_op) s (r : res Errno mount_reply) s' : Prop := {
  sp_inv : mount_inv max cap s';
  sp_spec : file_spec (paths_of s) x.2 (contents s) r (contents s');
  sp_paths : ∀ n, paths_of s' n = paths_of s n;
  sp_ids : ∀ id, file_ids s' id → file_ids s id ∨ new_id x = Some id;
}.

Lemma same_paths_of s s' : same_paths s s' → ∀ n, paths_of s' n = paths_of s n.
Proof.
  intros Hp n. unfold paths_of. specialize (Hp n).
  destruct (mt_inodes s' !! n), (mt_inodes s !! n); simpl in *; congruence.
Qed.
Lemma contents_lookup s p f : mt_files s !! p = Some f → contents s !! p = Some (sf_content f).
Proof. intros Hf. unfold contents. by rewrite lookup_fmap, Hf. Qed.
Lemma step_refused x s s' e :
  mount_inv max cap s' → mt_files s' = mt_files s → mt_inodes s' = mt_inodes s → step_post x s (Err e) s'.
Proof.
  intros Hs Hf Hi. split; [done| | |].
  - unfold contents. rewrite Hf. constructor.
  - intros n. unfold paths_of. by rewrite Hi.
  - intros id (p & f & Hp & E). left. exists p, f. by rewrite <-Hf.
Qed.

Lemma read_step env ino offset size s :
  mount_inv max cap s → settled env → (size < U64)%N →
  ∃ r s', apply_mount (env, OpRead ino offset size) s = (r, s') ∧ step_post (env, OpRead ino offset size) s r s'.
Proof.
  intros Hs Henv Hz.
  destruct (read_file_data_spec max cap max_fits env ino offset size s Hs Hz Henv) as (r & s' & E & [H1 H2 H3 H4 H5]).
  unfold apply_mount, fuse_read, st_bind, st_map_err. simpl. rewrite E.
  assert (∀ id, file_ids s' id → file_ids s id) as Hids by (intros id; unfold file_ids; by rewrite H3).
  assert (contents s' = contents s) as Hc by (unfold contents; by rewrite H3).
  destruct r as [d|e| |]; try done; eexists _, s'; (split; [reflexivity|]); split;
    try (done || by apply same_paths_of); try (intros id Hid; left; by apply Hids); rewrite Hc; simpl; [|constructor].
  destruct (paths_of s ino) as [p|] eqn:Ep; [|by apply spec_read_other].
  unfold paths_of in Ep. destruct (mt_inodes s !! ino) as [i|] eqn:Hi; [simpl in Ep|done].
  destruct (mi_known _ _ _ Hs ino i p Hi Ep) as (f & Hf & _).
  destruct (H5 d i p f eq_refl eq_refl Ep Hf) as (o & Ho & _).
  apply (spec_read _ ino offset size _ p (sf_content f) d o); [|by apply contents_lookup|done].
  unfold paths_of. by rewrite Hi.
Qed.

(** A call that replaced the file of an inode. *)
Lemma step_saved x s s' r ino i i' p f new :
  mount_inv max cap (set_inodes (<[ino := i']>) s') → mt_inodes s' = mt_inodes s →
  mt_files s' = <[p := new]> (mt_files s) → new_id x = Some (sf_id new) →
  mt_inodes s !! ino = Some i → same_file i i' → in_encrypted_path i = Some p → mt_files s !! p = Some f →
  file_spec (paths_of s) x.2 (contents s) r (<[p := sf_content new]> (contents s)) →
  step_post x s r (set_inodes (<[ino := i']>) s').
Proof.
  intros Hs Hn Hfiles Hid Hi Hsame Hp Hf Hspec. split; [done| | |].
  - unfold contents in *. simpl. rewrite Hfiles, fmap_insert. exact Hspec.
  - intros n. unfold paths_of. simpl. rewrite Hn. destruct (decide (ino = n)) as [<-|Hne].
    + rewrite lookup_insert_eq, Hi. simpl. apply Hsame.
    + by rewrite lookup_insert_ne.
  - intros id (q & g & Hq & E). simpl in Hq. rewrite Hfiles in Hq. destruct (decide (p = q)) as [<-|Hne].
    + rewrite lookup_insert_eq in Hq. injection Hq as <-. right. congruence.
    + rewrite lookup_insert_ne in Hq by done. left. by exists q, g.
Qed.

Lemma rewrite_new_id env p id change s new s' :
  rewrite_file (C := C) (M := M) env p id change s = (Ok new, s') → ∀ op, new_id (env, op) = Some (sf_id new).
Proof.
  unfold rewrite_file, save_file. intros E op. st_inv. unfold new_id. simpl.
  match goal with H : ev_saved env = Ok ?x |- _ => rewrite H; by destruct x end.
Qed.
Lemma fresh_step x s : (∀ id, new_id x = Some id → ¬ file_ids s id) → fresh x.1 s.
Proof.
  intros Hf. unfold fresh, new_id in *. destruct (ev_saved x.1) as [[id epoch]|e| |]; try done.
  intros p f Hp E. apply (Hf id eq_refl). by exists p, f.
Qed.

Lemma insert_alter (m : gmap N FileInfo) ino i g : m !! ino = Some i → alter g ino m = <[ino := g i]> m.
Proof.
  intros Hi. apply map_eq. intros n. destruct (decide (ino = n)) as [<-|Hne].
  - by rewrite lookup_alter_eq, lookup_insert_eq, Hi.
  - by rewrite lookup_alter_ne, lookup_insert_ne.
Qed.

Lemma write_settles offset data c : settles (write_content offset data c).
Proof. unfold write_content. by destruct (u64_checked_add _ _). Qed.

Lemma write_step env ino offset data s :
  mount_inv max cap s → settled env → fresh env s →
  ∃ r s', apply_mount (env, OpWrite ino offset data) s = (r, s') ∧ step_post (env, OpWrite ino offset data) s r s'.
Proof.
  intros Hs Henv Hfr. pose proof (λ x e, step_refused x s s e Hs eq_refl eq_refl) as Hno.
  unfold apply_mount, fuse_write. cbn [fst snd].
  destruct (negb (ev_writable env)); [by eexists _, s|].
  destruct (Z.ltb_spec offset 0) as [Hneg|Hpos]; [by eexists _, s|].
  unfold st_bind at 1. rewrite st_bind_get, st_bind_lift.
  destruct (mt_inodes s !! ino) as [i|] eqn:Hi; [simpl|by eexists _, s]. rewrite st_bind_lift.
  destruct (in_encrypted_path i) as [p|] eqn:Hp; [simpl|by eexists _, s].
  destruct (mi_known _ _ _ Hs ino i p Hi Hp) as (f & Hf & _).
  destruct (rewrite_file_spec max cap max_fits env ino i p f (write_content (Z.to_N offset) data) s)
    as (r & s' & E & Hset & Hin & Hpost); try done; [apply write_settles|].
  unfold st_bind at 1, st_map_err. rewrite E. destruct r as [new|e| |]; try done; cbn [map_err].
  2:{ eexists _, s'. split; [reflexivity|]. destruct Hpost. by apply step_refused. }
  destruct Hpost as (Hch & Hfiles & _ & Hinv). unfold st_bind, st_put, st_ret.
  eexists _, _. split; [reflexivity|]. unfold set_inodes at 1. rewrite (insert_alter _ ino i) by by rewrite Hin.
  apply (step_saved _ s s' _ ino i (after_save new (ev_now env) i) p f new); try done.
  - by apply Hinv.
  - by apply (rewrite_new_id _ _ _ _ _ _ _ E).
  - eapply spec_write; [unfold paths_of; rewrite Hi; exact Hp|by apply contents_lookup|done|].
    by apply write_content_Ok.
Qed.

Lemma set_attributes_same a i :
  same_file i (set_attributes a i) ∧ in_file_id (set_attributes a i) = in_file_id i
  ∧ in_size (set_attributes a i) = in_size i.
Proof.
  unfold set_attributes, opt. destruct a as [mode size at_ mt ct cht crt]. simpl.
  by destruct mode, at_, mt, ct, cht, crt.
Qed.
Lemma set_info_step ino i i' s r x :
  mount_inv max cap s → mt_inodes s !! ino = Some i → same_file i i' → in_file_id i' = in_file_id i →
  file_spec (paths_of s) x.2 (contents s) r (contents s) → step_post x s r (set_inodes (<[ino := i']>) s).
Proof.
  intros Hs Hi Hsame Hid Hspec. split; [by apply (set_info_inv max cap ino i)|done| |].
  - intros n. unfold paths_of. simpl. destruct (decide (ino = n)) as [<-|Hne].
    + rewrite lookup_insert_eq, Hi. simpl. apply Hsame.
    + by rewrite lookup_insert_ne.
  - intros id Hf. by left.
Qed.

Lemma setattr_step env ino a s :
  mount_inv max cap s → settled env → fresh env s →
  ∃ r s', apply_mount (env, OpSetattr ino a) s = (r, s') ∧ step_post (env, OpSetattr ino a) s r s'.
Proof.
  intros Hs Henv Hfr. pose proof (λ x e, step_refused x s s e Hs eq_refl eq_refl) as Hno.
  unfold apply_mount, fuse_setattr. cbn [fst snd].
  destruct (negb (ev_writable env)); [by eexists _, s|].
  unfold st_bind at 1. rewrite st_bind_get, st_bind_lift.
  destruct (mt_inodes s !! ino) as [i|] eqn:Hi; [simpl|by eexists _, s].
  destruct (sa_size a) as [n|] eqn:Hsize.
  2:{ unfold st_bind at 1, st_ret at 1. destruct (set_attributes_same a i) as (H1 & H2 & _).
      destruct (changes_attributes a); unfold st_bind, st_put, st_ret; eexists _, _; (split; [reflexivity|]).
      - apply (set_info_step ino i); try done. by apply spec_attributes.
      - split; try done; [by apply spec_attributes|]. intros id Hid. by left. }
  unfold st_bind at 1. rewrite st_bind_lift.
  destruct (in_encrypted_path i) as [p|] eqn:Hp; [simpl|by eexists _, s].
  destruct (mi_known _ _ _ Hs ino i p Hi Hp) as (f & Hf & _).
  destruct (rewrite_file_spec max cap max_fits env ino i p f (λ content, Ok (resize n content)) s)
    as (r & s' & E & Hset & Hin & Hpost); try done.
  unfold st_bind at 1, st_map_err. rewrite E. destruct r as [new|e| |]; try done; cbn [map_err].
  2:{ eexists _, s'. split; [reflexivity|]. destruct Hpost. by apply step_refused. }
  destruct Hpost as (Hch & Hfiles & _ & Hinv). unfold st_ret at 1.
  assert (changes_attributes a = true) as -> by (unfold changes_attributes; rewrite Hsize; by destruct (sa_mode a)).
  unfold st_bind, st_put, st_ret. eexists _, _. split; [reflexivity|].
  destruct (set_attributes_same a (after_save new (ev_now env) i)) as (H1 & H2 & H3).
  assert (same_file i (set_attributes a (after_save new (ev_now env) i))) as Hsame.
  { destruct H1 as (E1 & E2 & E3). unfold same_file. by rewrite E1, E2, E3. }
  injection Hch as Hch.
  apply (step_saved _ s s' _ ino i _ p f new); try done.
  - by apply Hinv.
  - by apply (rewrite_new_id _ _ _ _ _ _ _ E).
  - rewrite <-Hch. eapply spec_truncate; [done|unfold paths_of; rewrite Hi; exact Hp|by apply contents_lookup|].
    rewrite H3. simpl. by rewrite <-Hch, blen_resize.
Qed.

Lemma mount_step x s :
  mount_inv max cap s → settled x.1 → read_fits x → (∀ id, new_id x = Some id → ¬ file_ids s id) →
  ∃ r s', apply_mount x s = (r, s') ∧ step_post x s r s'.
Proof.
  intros Hs Henv Hfit Hfr. apply fresh_step in Hfr. destruct x as [env [ino offset size|ino offset data|ino a]].
  - by apply read_step.
  - by apply write_step.
  - by apply setattr_step.
Qed.
Lemma file_spec_paths paths paths' op σ r σ' :
  (∀ n, paths n = paths' n) → file_spec paths op σ r σ' → file_spec paths' op σ r σ'.
Proof. intros Hp Hs. destruct Hs; rewrite ?Hp in *; eauto using file_spec. Qed.
Lemma file_specs_paths paths paths' ops σ rs σ' :
  (∀ n, paths n = paths' n) → file_specs paths ops σ rs σ' → file_specs paths' ops σ rs σ'.
Proof. intros Hp. induction 1; econstructor; eauto using file_spec_paths. Qed.
End Refinement.

(** ** Properties *)

Section Properties.
Context {C M : Type} {LM : LruMap CacheKey CachedChunk C} {MM : LruMap string CachedMetadata M}.
Context {LL : LruLaws CacheKey CachedChunk C} {ML : LruLaws string CachedMetadata M}.
Implicit Types s : Mount C M.


(** A read right after a successful write returns what was written. *)
Theorem read_after_write max cap env env' ino offset data n s s' :
  (max * 3 < U64)%N → mount_inv max cap s → settled env → fresh env s →
  fuse_write env ino offset data s = (Ok n, s') →
  (0 < blen data < U64)%N → ev_open_fault env' = None → ev_decrypt_fault env' = None →
  (fuse_read env' ino offset (blen data) s').1 = Ok data.
Proof.
  intros Hfit Hs Henv Hfr Hw Hz Ho Hd. unfold fuse_write in Hw.
  destruct (negb (ev_writable env)); [done|]. destruct (Z.ltb_spec offset 0); [done|].
  rewrite st_bind_get, st_bind_lift in Hw. destruct (mt_inodes s !! ino) as [i|] eqn:Hi; [simpl in Hw|done].
  rewrite st_bind_lift in Hw. destruct (in_encrypted_path i) as [p|] eqn:Hp; [simpl in Hw|done].
  destruct (mi_known _ _ _ Hs ino i p Hi Hp) as (f & Hf & _).
  destruct (rewrite_file_spec max cap Hfit env ino i p f (write_content (Z.to_N offset) data) s)
    as (r & s1 & E & _ & Hin & Hpost); try done; [apply write_settles|].
  unfold st_bind at 1, st_map_err in Hw. rewrite E in Hw. destruct r as [new|e| |]; try done.
  destruct Hpost as (Hch & Hfiles & Hgone & Hinv). simpl in Hw. injection Hw as _ <-.
  unfold set_inodes at 1. rewrite (insert_alter _ ino i) by by rewrite Hin.
  set (i' := after_save new (ev_now env) i). fold (set_inodes (<[ino := i']>) s1).
  unfold fuse_read, st_map_err.
  pose proof (read_uncached max cap Hfit env' ino i' p new offset (blen data) (set_inodes (<[ino := i']>) s1)) as Hr.
  destruct (read_file_data _ _ _ _ _) as [r s2]. simpl in *. rewrite Hr; try done.
  - simpl. f_equal. apply write_content_Ok in Hch. by eapply write_spec_piece.
  - by apply Hinv.
  - by rewrite lookup_insert_eq.
  - by rewrite Hfiles, lookup_insert_eq.
Qed.

(** A read starts where it was asked to, unless a cached piece of the file starts inside the
    range; it is empty only at the end of the file. *)
Theorem read_is_prefix max cap env ino i p f offset size d s :
  (max * 3 < U64)%N → mount_inv max cap s → settled env → (0 < size < U64)%N →
  mt_inodes s !! ino = Some i → in_encrypted_path i = Some p → mt_files s !! p = Some f →
  ~ cached_inside s (in_file_id i) (Z.to_N offset) size →
  (fuse_read env ino offset size s).1 = Ok d →
  d = piece (Z.to_N offset) (blen d) (sf_content f) ∧ (blen d ≤ size)%N ∧
  (d = [] → (blen (sf_content f) ≤ Z.to_N offset)%N).
Proof.
  intros Hfit Hs Henv Hz Hi Hp Hf Hno.
  destruct (read_file_data_spec max cap Hfit env ino offset size s Hs) as (r & s' & E & [_ _ _ _ Hd]); [lia|done|].
  unfold fuse_read, st_map_err. rewrite E. destruct r as [d'|e| |]; try done. intros [= <-].
  destruct (Hd d' i p f eq_refl Hi Hp Hf) as (o & (H1 & H2 & H3 & H4) & [->|?]); [|done].
  split; [done|]. split; [lia|]. intros He. destruct (H4 He); [lia|done].
Qed.
End Properties.

(** ** A concrete mount *)

Abbreviation toy_chunks := (lru_list CacheKey CachedChunk).
Abbreviation toy_metadata := (lru_list string CachedMetadata).
Definition note_info : FileInfo :=
  mkFileInfo "id-1" "1" 8 false 0 0 0 420 "/note" (Some "/note.encrypted") false.
Definition note_mount : Mount toy_chunks toy_metadata :=
  mkMount {[2%N := note_info]} {["/note.encrypted" := mkStoredFile "id-1" 1 (bytes_of "abcdefgh")]}
    (mkCacheManager (ChunkCache_new 64) (mkMetadataCache (lru_new 2) (mkMetadataCacheStats 0 0 0 0))
       InvalidationTracker_default (mkCacheConfig 64 2 0 true f32_0_8)).
Definition calm (id : string) (now : Z) : Env := mkEnv true None None (Ok (id, 1%N)) (Ok []) now.

Lemma note_files p f :
  mt_files note_mount !! p = Some f → p = "/note.encrypted" ∧ f = mkStoredFile "id-1" 1 (bytes_of "abcdefgh").
Proof. unfold note_mount. cbn [mt_files mt_inodes]. by intros [<- <-]%lookup_singleton_Some. Qed.
Lemma note_inodes n i : mt_inodes note_mount !! n = Some i → n = 2%N ∧ i = note_info.
Proof. unfold note_mount. cbn [mt_files mt_inodes]. by intros [<- <-]%lookup_singleton_Some. Qed.
Lemma note_mount_inv : mount_inv 64 2 note_mount.
Proof.
  split.
  - by apply (CacheManager_new_inv (mkCacheConfig 64 2 0 true f32_0_8)).
  - by intros p q f g [-> ->]%note_files [-> ->]%note_files.
  - intros ino i p [-> ->]%note_inodes [= <-]. by eexists.
  - by intros ino jno i j p [-> ->]%note_inodes [-> ->]%note_inodes.
  - by intros ino i [-> ->]%note_inodes.
Qed.

Definition note_ops : list (Env * mount_op) :=
  [(calm "x" 1, OpRead 2 4 4); (calm "id-2" 2, OpWrite 2 2 (bytes_of "XY"));
   (calm "y" 3, OpRead 2 0 8); (calm "id-3" 4, OpSetattr 2 (mkSetAttr None (Some 3%N) None None None None None));
   (calm "z" 5, OpRead 2 0 8)].


Lemma read_after_write_witness :
  (fuse_read (calm "z" 9) 2 2 2 (fuse_write (calm "id-2" 2) 2 2 (bytes_of "XY") note_mount).2).1
  = Ok (bytes_of "XY").
Proof.
  apply (read_after_write 64 2 (calm "id-2" 2) (calm "z" 9) 2 2 (bytes_of "XY") 2 note_mount).
  - by vm_compute.
  - exact note_mount_inv.
  - done.
  - by intros p f [-> ->]%note_files.
  - by vm_compute.
  - done.
  - done.
  - done.
Defined.

Lemma read_is_prefix_witness :
  bytes_of "cdef" = piece 2 4 (bytes_of "abcdefgh").
Proof.
  destruct (read_is_prefix 64 2 (calm "x" 1) 2 note_info "/note.encrypted"
              (mkStoredFile "id-1" 1 (bytes_of "abcdefgh")) 2 4 (bytes_of "cdef") note_mount) as [H _]; try done.
  - exact note_mount_inv.
  - intros (k & ch & Hin & _). by apply not_elem_of_nil in Hin.
Defined.

(** The second reader asks for the first eight bytes and gets the last four of them, which
    the first reader left in the cache. *)
Theorem second_read_is_misplaced :
  (run_mount [(calm "x" 1, OpRead 2 4 4); (calm "y" 2, OpRead 2 0 8)] note_mount).1
  = [Ok (Data (bytes_of "efgh")); Ok (Data (bytes_of "efgh"))].
Proof. by vm_compute. Qed.

(** A reader that starts inside a cached piece gets no more than its rest. *)
Theorem second_read_is_short :
  (run_mount [(calm "x" 1, OpRead 2 0 4); (calm "y" 2, OpRead 2 2 6)] note_mount).1
  = [Ok (Data (bytes_of "abcd")); Ok (Data (bytes_of "cd"))].
Proof. by vm_compute. Qed.
