(* ===== verification/MountRead.v ===== *)
(** * Decrypting pieces of mounted files
    ([crates/mount/src/filesystem/decrypt.rs], [read.rs], with [read_file_chunk] of
    [crates/client/src/state/client/files.rs])

    The manager that decrypts a piece of a file, retries, caches it and fetches the next
    one in the background, and the manager that reads a whole file piece by piece.  The
    outcomes of the client's calls, in their order, the epoch it reports and the clock are
    arguments; a background task is a step of its own.  [f32] arithmetic is the one of
    MountCache.v; the hash of the standard library is a class. *)

From Stdlib Require Import Strings.Byte Strings.Ascii Floats.SpecFloat.
From stdpp Require Import base tactics numbers sets list gmap strings pretty option.
From S2P Require Import Prelude StateError MountCache.
Open Scope hc_scope.
Open Scope hc_st_scope.

(** ** A piece of a decrypted file ([Client::read_file_chunk])

    [plaintext] is what loading and decrypting the file gives. *)
Definition read_file_chunk (plaintext : res string bytes) (offset size : N) : res string bytes :=
  if (size =? 0)%N then Ok []
  else
    let? plaintext := plaintext in
    if bool_decide (plaintext = []) then Ok []
    else
      let file_len := blen plaintext in
      if (file_len <=? offset)%N then Ok []
      else
        let max_len := N.min size (file_len - offset) in
        unwrap (slice offset (offset + max_len) plaintext).

(** ** The decryption manager ([decrypt.rs]) *)

Definition DEFAULT_CHUNK_SIZE : N := 64 * 1024.
Definition MAX_CHUNK_SIZE : N := 1024 * 1024.
Definition MIN_CHUNK_SIZE : N := 4 * 1024.

Record DecryptionMetrics := mkDecryptionMetrics {
  dm_total_operations : N;
  dm_cache_hits : N;
  dm_cache_misses : N;
  dm_avg_decrypt_time_us : N;
  dm_total_bytes_decrypted : N;
  dm_epoch_fallbacks : N;
  dm_prefetch_hits : N;
}.
Definition DecryptionMetrics_default : DecryptionMetrics := mkDecryptionMetrics 0 0 0 0 0 0 0.

(** [lookup.rs]. *)
Inductive MigrationStatus := Current | PendingMigration | InProgress | Completed | Failed (reason : string).
Inductive AccessPattern := Unknown | Sequential | Random | Mixed.

Record DecryptionContext := mkDecryptionContext {
  cx_file_id : string;
  cx_current_epoch : N;
  cx_migration_status : MigrationStatus;
  cx_preferred_chunk_size : N;
  cx_access_pattern : AccessPattern;
}.

Record ChunkConfig := mkChunkConfig {
  base_size : N;
  sequential_multiplier : f32;
  random_divisor : f32;
  max_size : N;
  min_size : N;
}.
Definition f32_of_u64 (n : N) : f32 := f32_round (Z.of_N n) 0 false.
Definition f32_2 : f32 := f32_of_u64 2.
Definition ChunkConfig_default : ChunkConfig :=
  mkChunkConfig DEFAULT_CHUNK_SIZE f32_2 f32_2 MAX_CHUNK_SIZE MIN_CHUNK_SIZE.

Record PrefetchTask := mkPrefetchTask {
  pt_file_id : string;
  pt_next_offset : N;
  pt_chunk_size : N;
  pt_created_at : Z;
}.
Record MemoryMonitor := mkMemoryMonitor {
  mm_current_usage : N;
  mm_pressure_threshold : N;
  mm_critical_threshold : N;
}.
Definition is_under_pressure (m : MemoryMonitor) : bool := (mm_pressure_threshold m <? mm_current_usage m)%N.
Definition is_critical (m : MemoryMonitor) : bool := (mm_critical_threshold m <? mm_current_usage m)%N.
Definition update_usage (n : N) (m : MemoryMonitor) : MemoryMonitor :=
  mkMemoryMonitor n (mm_pressure_threshold m) (mm_critical_threshold m).

(** [error.rs]; an error of another crate is its text. *)
Inductive MountError :=
| MeFuseError (msg : string)
| MeFileSystemError (msg : string)
| MeCacheError (msg : string)
| MeMigrationError (msg : string)
| MePlatformError (msg : string)
| MeClient (e : string)
| MeDecryption (msg : string)
| MeIoError (e : string)
| MeOther (e : string).

Record DecryptionManager (C M : Type) := mkDecryptionManager {
  dc_cache : CacheManager C M;
  dc_metrics : DecryptionMetrics;
  dc_chunk_config : ChunkConfig;
  dc_active_tasks : gmap string PrefetchTask;
  dc_memory_monitor : MemoryMonitor;
}.
Arguments mkDecryptionManager {C M}.
Arguments dc_cache {C M}.
Arguments dc_metrics {C M}.
Arguments dc_chunk_config {C M}.
Arguments dc_active_tasks {C M}.
Arguments dc_memory_monitor {C M}.

(** Sizes by access pattern, halved while a migration runs. *)
Definition calculate_optimal_chunk_size (config : ChunkConfig) (context : DecryptionContext)
    (requested_size : N) : N :=
  let base :=
    match cx_access_pattern context with
    | Sequential => trunc_to_u64 (SFmul 24 128 (f32_of_u64 (base_size config)) (sequential_multiplier config))
    | Random => trunc_to_u64 (SFdiv 24 128 (f32_of_u64 (base_size config)) (random_divisor config))
    | Mixed | Unknown => base_size config
    end in
  let adjusted := match cx_migration_status context with InProgress => (base / 2)%N | _ => base end in
  N.min (N.min (N.max adjusted (min_size config)) (max_size config)) requested_size.

Definition should_cache (s : MigrationStatus) : bool :=
  match s with
  | Current | PendingMigration | Completed => true
  | InProgress | Failed _ => false
  end.
Definition cache_ttl (s : MigrationStatus) : Z :=
  match s with PendingMigration => 30 * SECOND | _ => 300 * SECOND end.

Section Decrypt.
Context {C M : Type} `{LruMap CacheKey CachedChunk C} `{LruMap string CachedMetadata M}.
Implicit Types (s : DecryptionManager C M) (context : DecryptionContext).

Definition DecryptionManager_new (cache : CacheManager C M) : DecryptionManager C M :=
  mkDecryptionManager cache DecryptionMetrics_default ChunkConfig_default ∅
    (mkMemoryMonitor 0 (512 * 1024 * 1024) (1024 * 1024 * 1024)).

Definition put_cache (m : CacheManager C M) s : DecryptionManager C M :=
  mkDecryptionManager m (dc_metrics s) (dc_chunk_config s) (dc_active_tasks s) (dc_memory_monitor s).
Definition put_metrics (f : DecryptionMetrics → DecryptionMetrics) s : DecryptionManager C M :=
  mkDecryptionManager (dc_cache s) (f (dc_metrics s)) (dc_chunk_config s) (dc_active_tasks s) (dc_memory_monitor s).
Definition put_tasks (f : gmap string PrefetchTask → gmap string PrefetchTask) s : DecryptionManager C M :=
  mkDecryptionManager (dc_cache s) (dc_metrics s) (dc_chunk_config s) (f (dc_active_tasks s)) (dc_memory_monitor s).
(** The calls of the cache do not fail. *)
Definition with_cache_manager {A} (f : ST (CacheManager C M) string A) : ST (DecryptionManager C M) MountError A :=
  st_map_err MeDecryption (st_zoom dc_cache put_cache f).

Definition update_metrics_start (m : DecryptionMetrics) : DecryptionMetrics :=
  mkDecryptionMetrics (u64_wrap (dm_total_operations m + 1)) (dm_cache_hits m) (dm_cache_misses m)
    (dm_avg_decrypt_time_us m) (dm_total_bytes_decrypted m) (dm_epoch_fallbacks m) (dm_prefetch_hits m).
Definition update_metrics_cache_hit (m : DecryptionMetrics) : DecryptionMetrics :=
  mkDecryptionMetrics (dm_total_operations m) (u64_wrap (dm_cache_hits m + 1)) (dm_cache_misses m)
    (dm_avg_decrypt_time_us m) (dm_total_bytes_decrypted m) (dm_epoch_fallbacks m) (dm_prefetch_hits m).
Definition update_metrics_cache_miss (m : DecryptionMetrics) : DecryptionMetrics :=
  mkDecryptionMetrics (dm_total_operations m) (dm_cache_hits m) (u64_wrap (dm_cache_misses m + 1))
    (dm_avg_decrypt_time_us m) (dm_total_bytes_decrypted m) (dm_epoch_fallbacks m) (dm_prefetch_hits m).
Definition update_metrics_fallback (m : DecryptionMetrics) : DecryptionMetrics :=
  mkDecryptionMetrics (dm_total_operations m) (dm_cache_hits m) (dm_cache_misses m) (dm_avg_decrypt_time_us m)
    (dm_total_bytes_decrypted m) (u64_wrap (dm_epoch_fallbacks m + 1)) (dm_prefetch_hits m).
(** The division is by the number of operations, which was counted at the start; in the
    one state where the count has wrapped to zero it panics. *)
Definition update_metrics_success (micros bytes : N) (m : DecryptionMetrics) : res MountError DecryptionMetrics :=
  let total := dm_total_operations m in
  if (total =? 0)%N then Panic
  else
    let avg := (u64_wrap (u64_wrap (dm_avg_decrypt_time_us m * (total - 1)) + micros) / total)%N in
    Ok (mkDecryptionMetrics total (dm_cache_hits m) (dm_cache_misses m) avg
          (u64_wrap (dm_total_bytes_decrypted m + bytes)) (dm_epoch_fallbacks m) (dm_prefetch_hits m)).

(** [decrypt_with_epoch]: the epoch that is asked for is not used. *)
Definition decrypt_with_epoch (outcome : res string bytes) (current_epoch : N) (now : Z) (size : N)
  : res MountError DecryptedChunk :=
  let? data := map_err MeClient outcome in
  Ok (mkDecryptedChunk data current_epoch now (N.min (blen data) size) false).

(** The epochs that are tried when the first attempt fails. *)
Definition epochs_to_try (current_epoch : N) : list N :=
  if (0 <? current_epoch)%N then [current_epoch - 1; current_epoch]%N else [current_epoch].
Fixpoint try_epochs (epochs : list N) (outcomes : list (res string bytes)) (current_epoch : N) (now : Z) (size : N)
  : ST (DecryptionManager C M) MountError DecryptedChunk :=
  match epochs, outcomes with
  | _ :: epochs, outcome :: outcomes =>
      match decrypt_with_epoch outcome current_epoch now size with
      | Ok chunk =>
          do* st_put (put_metrics update_metrics_fallback);
          st_ret chunk
      | Err _ => try_epochs epochs outcomes current_epoch now size
      | Panic => st_lift Panic
      | Diverge => st_lift Diverge
      end
  | _, _ => st_fail (MeDecryption "All epoch fallback attempts failed")
  end.
Definition decrypt_with_fallback (outcomes : list (res string bytes)) (current_epoch : N) (now : Z) (size : N)
  : ST (DecryptionManager C M) MountError DecryptedChunk :=
  try_epochs (epochs_to_try current_epoch) outcomes current_epoch now size.

Definition cache_with_migration_awareness context (key : CacheKey) (chunk : DecryptedChunk) (now : Z)
  : ST (DecryptionManager C M) MountError unit :=
  if should_cache (cx_migration_status context)
  then with_cache_manager (store_chunk key chunk (cache_ttl (cx_migration_status context)) now)
  else st_ret tt.

(** Registers the task; its body is [run_prefetch]. *)
Definition maybe_trigger_prefetch context (current_offset chunk_size : N) (now : Z) s : DecryptionManager C M :=
  match cx_access_pattern context with
  | Sequential =>
      if is_under_pressure (dc_memory_monitor s) then s
      else if is_some (dc_active_tasks s !! cx_file_id context) then s
      else
        put_tasks (<[cx_file_id context :=
          mkPrefetchTask (cx_file_id context) (u64_wrap (current_offset + chunk_size)) chunk_size now]>) s
  | _ => s
  end.
Definition run_prefetch (task : PrefetchTask) (outcome : res string bytes) (epoch : N) (now : Z)
  : ST (DecryptionManager C M) MountError unit :=
  let key := mkCacheKey (pt_file_id task) (pt_next_offset task) (pt_chunk_size task) in
  do* match outcome with
      | Ok (x :: data) =>
          with_cache_manager
            (store_chunk key (mkDecryptedChunk (x :: data) epoch now (blen (x :: data)) false) (120 * SECOND) now)
      | Panic => st_lift Panic
      | Diverge => st_lift Diverge
      | _ => st_ret tt
      end;
  st_put (put_tasks (delete (pt_file_id task))).

(** [outcomes] are those of the client's reads, [micros] how long the call took. *)
Definition decrypt_chunk context (outcomes : list (res string bytes)) (current_epoch : N) (now : Z) (micros : N)
    (offset size : N) : ST (DecryptionManager C M) MountError DecryptedChunk :=
  do* st_put (put_metrics update_metrics_start);
  let key := mkCacheKey (cx_file_id context) offset size in
  let* cached := with_cache_manager (CacheManager_get_chunk key now now) in
  match cached with
  | Some chunk =>
      do* st_put (put_metrics update_metrics_cache_hit);
      st_ret (mkDecryptedChunk (mg_data chunk) (mg_epoch_id chunk) (mg_timestamp chunk) size true)
  | None =>
      do* st_put (put_metrics update_metrics_cache_miss);
      let* s := st_get in
      let optimal_size := calculate_optimal_chunk_size (dc_chunk_config s) context size in
      match outcomes with
      | [] => st_lift Diverge
      | outcome :: outcomes =>
          match decrypt_with_epoch outcome current_epoch now optimal_size with
          | Ok chunk =>
              do* cache_with_migration_awareness context key chunk now;
              do* st_put (maybe_trigger_prefetch context offset optimal_size now);
              let* s := st_get in
              let* m := st_lift (update_metrics_success micros optimal_size (dc_metrics s)) in
              do* st_put (put_metrics (λ _, m));
              st_ret chunk
          | Err _ => decrypt_with_fallback outcomes current_epoch now optimal_size
          | Panic => st_lift Panic
          | Diverge => st_lift Diverge
          end
      end
  end.
End Decrypt.

(** ** Whole files ([read.rs]) *)

Record ReadResult := mkReadResult {
  rr_data : bytes;
  rr_epoch_used : string;
  rr_from_cache : bool;
  rr_migration_triggered : bool;
}.

(** [first] and [second] are the outcomes of the two reads; [migration] of asking for the
    migration's status. *)
Definition read_with_epoch_fallback (first second : res string bytes) (migration : res string string)
    (file_id preferred_epoch : string) : res string ReadResult :=
  match first with
  | Ok data => Ok (mkReadResult data preferred_epoch false false)
  | Err _ =>
      let failed := "Failed to read file " +:+ file_id +:+ " from any available epoch" in
      match migration with
      | Ok _ =>
          match second with
          | Ok data => Ok (mkReadResult data "current" false false)
          | Err _ => Err failed
          | Panic => Panic
          | Diverge => Diverge
          end
      | Err _ => Err failed
      | Panic => Panic
      | Diverge => Diverge
      end
  | Panic => Panic
  | Diverge => Diverge
  end.

(** The loop: [read offset size] is a read with its fallback.  A chunk size of zero makes no
    progress: the loop runs out of any fuel. *)
Fixpoint read_loop (fuel : nat) (read : N → N → res string ReadResult) (chunk_size file_size offset : N)
    (result : bytes) : res string bytes :=
  if (offset <? file_size)%N then
    match fuel with
    | O => Diverge
    | S fuel =>
        let current := N.min chunk_size (file_size - offset) in
        let? r := read offset current in
        read_loop fuel read chunk_size file_size (offset + current) (result ++ rr_data r)
    end
  else Ok result.
Definition read_entire_file (fuel : nat) (read : N → N → res string ReadResult) (file_size : res string N)
    (file_id : string) (chunk_size : option N) : res string bytes :=
  let chunk_size := default (64 * 1024)%N chunk_size in
  let? file_size := map_err (λ _, "Could not determine file size for " +:+ file_id) file_size in
  read_loop fuel read chunk_size file_size 0 [].

(** [DefaultHasher] of the standard library, whose algorithm is not specified: 64 bits. *)
Class DefaultHasher := hash_bytes : bytes → N.
Class DefaultHasherLaws `{DefaultHasher} : Prop := hash_lt b : (hash_bytes b < U64)%N.

(** [format!("{:x}", n)]: digits without leading zeros. *)
Definition hex_digit (n : N) : ascii := Ascii.ascii_of_N (if (n <? 10)%N then 48 + n else 87 + n)%N.
Fixpoint hex_digits (fuel : nat) (n : N) (acc : string) : string :=
  match fuel with
  | O => acc
  | S fuel =>
      let acc := String (hex_digit (n mod 16)) acc in
      if (n <? 16)%N then acc else hex_digits fuel (n / 16) acc
  end.
Definition format_x (n : N) : string := hex_digits 16 n "".
Definition calculate_checksum `{DefaultHasher} (data : bytes) : string := format_x (hash_bytes data).

(** [checksum] is the one of the metadata, or why it could not be had. *)
Definition validate_read_integrity `{DefaultHasher} (checksum : res string bytes) (data : bytes) : res string bool :=
  match checksum with
  | Ok expected => Ok (bool_decide (calculate_checksum data = from_utf8_lossy expected))
  | Err _ => Ok true
  | Panic => Panic
  | Diverge => Diverge
  end.

(** ** Pieces and sizes *)

Lemma piece_short offset size content :
  piece offset (N.min size (blen content - offset)) content = piece offset size content.
Proof.
  unfold piece. destruct (N.min_spec size (blen content - offset)) as [[_ ->]|[Hle ->]]; [done|].
  rewrite !take_ge; [done|rewrite length_drop; unfold blen in *; lia..].
Qed.
Lemma read_file_chunk_piece plaintext offset size :
  read_file_chunk (Ok plaintext) offset size = Ok (piece offset size plaintext).
Proof.
  unfold read_file_chunk. destruct (N.eqb_spec size 0) as [->|Hz]; [done|]. simpl.
  case_bool_decide as Hn; [by subst; unfold piece; rewrite drop_nil, take_nil|].
  destruct (N.leb_spec (blen plaintext) offset) as [Hle|Hlt].
  - unfold piece. by rewrite drop_ge, take_nil by (unfold blen in *; lia).
  - rewrite slice_piece by lia. by rewrite N.add_comm, N.add_sub, piece_short.
Qed.

(** The size that is read is at most what was asked for and at most the limit, and at least
    the smallest size unless less was asked for. *)
Theorem optimal_chunk_size_bounds config context requested :
  (min_size config ≤ max_size config)%N →
  (N.min requested (min_size config) ≤ calculate_optimal_chunk_size config context requested
   ≤ N.min requested (max_size config))%N.
Proof. intros Hc. unfold calculate_optimal_chunk_size. lia. Qed.

(** Without a migration, sequential readers of the default configuration get twice the base
    size, random ones half of it. *)
Example optimal_chunk_sizes :
  let size p m := calculate_optimal_chunk_size ChunkConfig_default (mkDecryptionContext "f" 1 m 0 p) (U64 - 1) in
  (size Sequential Current, size Random Current, size Mixed Current, size Sequential InProgress)
  = (131072, 32768, 65536, 65536)%N.
Proof. by vm_compute. Qed.

(** ** What a decrypted piece is *)

Section Sound.
Context {C M : Type} {LM : LruMap CacheKey CachedChunk C} {MM : LruMap string CachedMetadata M}.
Context {LL : LruLaws CacheKey CachedChunk C} {ML : LruLaws string CachedMetadata M}.
Variables (max cap : N) (content : string → bytes).
Hypothesis max_fits : (max * 3 < U64)%N.
Implicit Types (s : DecryptionManager C M) (context : DecryptionContext).

Definition cache_inv s : Prop := manager_inv max cap (from_file content) (dc_cache s).

Lemma with_cache_manager_spec {A} (f : ST (CacheManager C M) string A) s a m' :
  f (dc_cache s) = (Ok a, m') → with_cache_manager f s = (Ok a, put_cache m' s).
Proof. intros E. unfold with_cache_manager, st_map_err, st_zoom. by rewrite E. Qed.

(** A client that reads pieces of the files as they are. *)
Definition reads_file (file_id : string) (offset size : N) (outcome : res string bytes) : Prop :=
  settles outcome ∧ ∀ d, outcome = Ok d → read_file_chunk (Ok (content file_id)) offset size = Ok d.

Definition good_chunk (file_id : string) (offset size : N) (chunk : DecryptedChunk) : Prop :=
  dc_data chunk = piece offset size (content file_id) ∧ dc_size chunk = blen (dc_data chunk) ∧
  dc_from_cache chunk = false.

Lemma decrypt_with_epoch_good file_id offset size outcome epoch now :
  reads_file file_id offset size outcome →
  (∃ chunk, decrypt_with_epoch outcome epoch now size = Ok chunk ∧ good_chunk file_id offset size chunk) ∨
  (∃ e, outcome = Err e ∧ decrypt_with_epoch outcome epoch now size = Err (MeClient e)).
Proof.
  intros [Hs Hr]. unfold decrypt_with_epoch. destruct outcome as [d|e| |]; try done; [left|right; by exists e].
  specialize (Hr d eq_refl). rewrite read_file_chunk_piece in Hr. injection Hr as Hd.
  eexists. split; [reflexivity|]. split; [done|]. split; [|done]. simpl. subst d. rewrite piece_blen. lia.
Qed.

(** Storing what was decrypted keeps the cache true to the files. *)
Lemma store_keeps_inv key chunk ttl now s :
  cache_inv s → from_file content (mkCacheKey (key_file_id key) (key_offset key) (blen (dc_data chunk))) (dc_data chunk) →
  ∃ m', with_cache_manager (store_chunk key chunk ttl now) s = (Ok tt, put_cache m' s) ∧
        manager_inv max cap (from_file content) m'.
Proof.
  intros Hs Hf. destruct (store_chunk_spec max cap (from_file content) max_fits key chunk ttl now _ Hs Hf)
    as (m' & E & Hm'). exists m'. by rewrite (with_cache_manager_spec _ _ _ _ E).
Qed.
Lemma piece_from_file file_id offset size :
  let d := piece offset size (content file_id) in from_file content (mkCacheKey file_id offset (blen d)) d.
Proof.
  simpl. unfold from_file. simpl. rewrite piece_blen. symmetry. apply piece_short.
Qed.

Lemma try_epochs_spec file_id offset size epochs outcomes epoch now s :
  cache_inv s → Forall (reads_file file_id offset size) outcomes → length epochs ≤ length outcomes →
  ∃ r s', try_epochs epochs outcomes epoch now size s = (r, s') ∧ cache_inv s' ∧
    ((∃ chunk, r = Ok chunk ∧ good_chunk file_id offset size chunk) ∨
     r = Err (MeDecryption "All epoch fallback attempts failed") ∧
     Forall (λ o, ∃ e, o = Err e) (take (length epochs) outcomes)).
Proof.
  intros Hs. revert outcomes. induction epochs as [|ep epochs IH]; intros outcomes Hf Hl; simpl.
  { eexists _, s. split; [reflexivity|]. split; [done|]. right. split; [done|constructor]. }
  destruct outcomes as [|o outcomes]; [simpl in Hl; lia|]. apply list.Forall_cons in Hf as [Ho Hf].
  destruct (decrypt_with_epoch_good file_id offset size o epoch now Ho) as [(chunk & -> & Hg)|(e & -> & ->)].
  - eexists _, _. split; [reflexivity|]. split; [done|]. left. by exists chunk.
  - destruct (IH outcomes Hf) as (r & s' & E & Hs' & Hr); [simpl in Hl; lia|].
    exists r, s'. split; [done|]. split; [done|]. destruct Hr as [?|[-> Hall]]; [by left|right].
    split; [done|]. simpl. constructor; [by exists e|done].
Qed.

Lemma prefetch_cache context offset size now s :
  dc_cache (maybe_trigger_prefetch context offset size now s) = dc_cache s ∧
  dc_metrics (maybe_trigger_prefetch context offset size now s) = dc_metrics s.
Proof.
  unfold maybe_trigger_prefetch. destruct (cx_access_pattern context); try done.
  destruct (is_under_pressure _); [done|]. by destruct (is_some _).
Qed.
Lemma cache_aware_spec context key chunk now s :
  cache_inv s → from_file content (mkCacheKey (key_file_id key) (key_offset key) (blen (dc_data chunk))) (dc_data chunk) →
  ∃ m', cache_with_migration_awareness context key chunk now s = (Ok tt, put_cache m' s) ∧
        manager_inv max cap (from_file content) m'.
Proof.
  intros Hs Hf. unfold cache_with_migration_awareness. destruct (should_cache _); [by apply store_keeps_inv|].
  exists (dc_cache s). split; [by destruct s|done].
Qed.

(** How many times the client is asked before a piece is given up. *)
Definition attempts (current_epoch : N) : nat := S (length (epochs_to_try current_epoch)).

Definition chunk_post context (outcomes : list (res string bytes)) (current_epoch offset size optimal : N)
    (cached : list (CacheKey * CachedChunk)) (r : res MountError DecryptedChunk) : Prop :=
  match r with
  | Ok chunk =>
      dc_from_cache chunk = true ∧ (∃ o, answers content (cx_file_id context) offset size cached (dc_data chunk) o) ∨
      good_chunk (cx_file_id context) offset optimal chunk
  | Err _ => Forall (λ o, ∃ e, o = Err e) (take (attempts current_epoch) outcomes)
  | _ => False
  end.

Lemma decrypt_chunk_spec context outcomes current_epoch now micros offset size s :
  cache_inv s → (size < U64)%N → (dm_total_operations (dc_metrics s) + 1 < U64)%N →
  let optimal := calculate_optimal_chunk_size (dc_chunk_config s) context size in
  Forall (reads_file (cx_file_id context) offset optimal) outcomes →
  attempts current_epoch ≤ length outcomes →
  ∃ r s', decrypt_chunk context outcomes current_epoch now micros offset size s = (r, s') ∧ cache_inv s' ∧
    chunk_post context outcomes current_epoch offset size optimal (entries (chunk_cache (dc_cache s))) r.
Proof.
  intros Hs Hz Hops optimal Hreads Hlen. unfold decrypt_chunk. unfold st_bind at 1, st_put at 1.
  set (key := mkCacheKey (cx_file_id context) offset size).
  destruct (manager_get_spec max cap _ key now now _ Hs) as (r & m1 & E & Hm1 & Hsome & _); [done|].
  unfold st_bind at 1. rewrite (with_cache_manager_spec _ (put_metrics update_metrics_start s) _ _ E).
  destruct r as [ch|].
  { eexists _, _. split; [reflexivity|]. split; [done|]. left. split; [done|]. simpl.
    destruct (Hsome ch eq_refl) as (c' & Eg & _). simpl in Eg.
    destruct (get_chunk_spec max content (cx_file_id context) offset size _ Hz (proj1 Hs)) as (r & c2 & E2 & _ & _ & Ha).
    rewrite Eg in E2. injection E2 as <- _. by apply Ha. }
  unfold st_bind at 1, st_put at 1. rewrite st_bind_get. cbn [dc_chunk_config put_metrics put_cache]. fold optimal.
  destruct outcomes as [|o outcomes]; [simpl in Hlen; unfold attempts in Hlen; lia|].
  apply list.Forall_cons in Hreads as [Ho Hreads].
  destruct (decrypt_with_epoch_good (cx_file_id context) offset optimal o current_epoch now Ho)
    as [(chunk & -> & Hg)|(e & -> & ->)].
  - destruct (cache_aware_spec context key chunk now
                (put_metrics update_metrics_cache_miss (put_cache m1 (put_metrics update_metrics_start s)))) as (m2 & E2 & Hm2);
      [done|destruct Hg as (-> & _); apply piece_from_file|].
    unfold st_bind at 1. rewrite E2. unfold st_bind at 1, st_put at 1. rewrite st_bind_get, st_bind_lift.
    rewrite (proj2 (prefetch_cache _ _ _ _ _)). unfold update_metrics_success.
    cbn [dc_metrics put_metrics put_cache update_metrics_cache_miss update_metrics_start dm_total_operations].
    unfold u64_wrap at 1. rewrite N.mod_small by done. rewrite (proj2 (N.eqb_neq _ 0)) by lia.
    eexists _, _. split; [reflexivity|]. split; [|by right].
    unfold cache_inv. cbn [dc_cache put_metrics]. by rewrite (proj1 (prefetch_cache _ _ _ _ _)).
  - destruct (try_epochs_spec (cx_file_id context) offset optimal (epochs_to_try current_epoch) outcomes current_epoch
                now (put_metrics update_metrics_cache_miss (put_cache m1 (put_metrics update_metrics_start s))))
      as (r & s' & E' & Hs' & Hr); [done|done|unfold attempts in Hlen; simpl in Hlen; lia|].
    exists r, s'. split; [exact E'|]. split; [done|]. destruct Hr as [(chunk & -> & Hg)|[-> Hall]]; [by right|].
    simpl. constructor; [by exists e|done].
Qed.
End Sound.


(** ** Reading a whole file *)

Section Whole.
Variables (content : bytes) (read : N → N → res string ReadResult).

(** Every read that is made returns the piece. *)
Hypothesis read_ok : ∀ offset size, (offset < blen content)%N →
  ∃ r, read offset size = Ok r ∧ rr_data r = piece offset size content.

Lemma take_piece offset n :
  (offset + n ≤ blen content)%N →
  take (N.to_nat offset) content ++ piece offset n content = take (N.to_nat (offset + n)) content.
Proof.
  intros Hl. unfold piece. rewrite <-(take_drop (N.to_nat offset) content) at 3.
  rewrite take_app, length_take. unfold blen in Hl.
  rewrite (take_ge (take _ _)) by (rewrite length_take; lia). f_equal. f_equal. lia.
Qed.

Lemma read_loop_ok fuel chunk_size offset :
  (0 < chunk_size)%N → (offset ≤ blen content)%N → (blen content - offset ≤ N.of_nat fuel)%N →
  read_loop fuel read chunk_size (blen content) offset (take (N.to_nat offset) content) = Ok content.
Proof.
  intros Hc. revert offset. induction fuel as [|fuel IH]; intros offset Ho Hf; simpl;
    (destruct (N.ltb_spec offset (blen content)) as [Hlt|Hge]; [|by rewrite take_ge by (unfold blen in *; lia)]).
  - lia.
  - destruct (read_ok offset (N.min chunk_size (blen content - offset)) Hlt) as (r & -> & Hd). simpl. rewrite Hd.
    rewrite take_piece by lia. apply IH; lia.
Qed.
End Whole.

(** Reading a whole file piece by piece returns the file, for every size of the pieces but
    zero, with one turn for each byte at most. *)
Theorem read_entire_file_complete content read file_id chunk_size fuel :
  (∀ offset size, (offset < blen content)%N → ∃ r, read offset size = Ok r ∧ rr_data r = piece offset size content) →
  chunk_size ≠ Some 0%N → length content ≤ fuel →
  read_entire_file fuel read (Ok (blen content)) file_id chunk_size = Ok content.
Proof.
  intros Hr Hc Hf. unfold read_entire_file. simpl.
  apply (read_loop_ok content read Hr fuel (default (64 * 1024)%N chunk_size) 0); [|lia|unfold blen; lia].
  destruct chunk_size as [n|]; simpl; [|lia]. destruct (decide (n = 0%N)) as [->|]; [done|lia].
Qed.

(** With pieces of size zero the loop does not end. *)
Theorem read_entire_file_diverges read file_size file_id fuel :
  (0 < file_size)%N → (∀ offset size, is_ok (read offset size) = true) →
  read_entire_file fuel read (Ok file_size) file_id (Some 0%N) = Diverge.
Proof.
  intros Hs Hr. unfold read_entire_file. simpl. generalize ([] : bytes).
  induction fuel as [|fuel IH]; intros b; simpl; (destruct (N.ltb_spec 0 file_size); [|lia]); [done|].
  rewrite N.min_0_l. specialize (Hr 0%N 0%N). destruct (read 0%N 0%N) as [r|e| |]; try done. simpl. apply IH.
Qed.

(** ** The integrity check *)

Lemma hex_digits_length fuel n acc : String.length (hex_digits fuel n acc) ≤ fuel + String.length acc.
Proof.
  revert n acc. induction fuel as [|fuel IH]; intros n acc; simpl; [lia|].
  destruct (n <? 16)%N; simpl; [lia|]. specialize (IH (n / 16)%N (String (hex_digit (n mod 16)) acc)). simpl in IH. lia.
Qed.
Definition ascii_char (c : ascii) : bool := (N_of_ascii c <? 128)%N.
Lemma hex_digits_ascii fuel n acc :
  string_all ascii_char acc = true → string_all ascii_char (hex_digits fuel n acc) = true.
Proof.
  revert n acc. induction fuel as [|fuel IH]; intros n acc Ha; simpl; [done|].
  assert (string_all ascii_char (String (hex_digit (n mod 16)) acc) = true) as Ha'.
  { simpl. rewrite Ha, andb_true_r. unfold ascii_char, hex_digit.
    assert (n mod 16 < 16)%N by (apply N.mod_lt; lia).
    destruct (N.ltb_spec (n mod 16) 10); rewrite N_ascii_embedding by lia; apply N.ltb_lt; lia. }
  destruct (n <? 16)%N; [done|]. by apply IH.
Qed.

Definition ascii_bytes (b : bytes) : bool := forallb (in_range 0 127) b.
(** A lossy decoding that is ASCII replaced nothing. *)
Lemma utf8_lossy_ascii fuel b :
  length b ≤ fuel → ascii_bytes (utf8_lossy_bytes fuel b) = true → utf8_lossy_bytes fuel b = b.
Proof.
  revert b. induction fuel as [|fuel IH]; intros [|x b] Hf; simpl in *; try done; [lia|].
  destruct (in_range 0 127 x) eqn:Ex.
  - simpl. rewrite Ex. simpl. intros Ha. f_equal. apply IH; [lia|done].
  - destruct (utf8_lead x) as [[n range]|]; [|done].
    destruct (length (take_cont n range b) =? n); [|done]. simpl. by rewrite Ex.
Qed.
Lemma bytes_of_ascii s : string_all ascii_char s = true → ascii_bytes (bytes_of s) = true.
Proof.
  induction s as [|c s IH]; [done|]. intros [Hc Hs]%andb_true_iff.
  change (bytes_of (String c s)) with (Ascii.byte_of_ascii c :: bytes_of s).
  cbn [ascii_bytes forallb]. apply andb_true_iff. split; [|by apply IH].
  destruct c as [[] [] [] [] [] [] [] []]; vm_compute in Hc |- *; congruence.
Qed.

(** The check compares sixteen digits with the text of a digest of thirty-two bytes: no file
    passes it. *)
Theorem read_integrity_never_valid `{DefaultHasher} expected data :
  length expected = 32 → validate_read_integrity (Ok expected) data = Ok false.
Proof.
  intros Hl. unfold validate_read_integrity. f_equal. apply bool_decide_eq_false. intros E.
  assert (bytes_of (calculate_checksum data) = utf8_lossy_bytes (length expected) expected) as Eb.
  { rewrite E. unfold from_utf8_lossy, bytes_of. apply String.list_byte_of_string_of_list_byte. }
  assert (ascii_bytes (bytes_of (calculate_checksum data)) = true) as Ha.
  { apply bytes_of_ascii. by apply hex_digits_ascii. }
  rewrite Eb in Ha. apply utf8_lossy_ascii in Ha; [|done]. rewrite Ha in Eb.
  apply (f_equal length) in Eb. rewrite bytes_of_length, Hl in Eb.
  pose proof (hex_digits_length 16 (hash_bytes data) "") as Hh. unfold calculate_checksum, format_x in Eb.
  rewrite Eb in Hh. simpl in Hh. lia.
Qed.

(** ** The theorems on concrete inputs *)

Abbreviation toy_chunks := (lru_list CacheKey CachedChunk).
Abbreviation toy_metadata := (lru_list string CachedMetadata).
Definition poem : bytes := bytes_of "abcdefgh".
Definition poem_content (file_id : string) : bytes := if bool_decide (file_id = "f"%string) then poem else [].
Definition poem_manager : DecryptionManager toy_chunks toy_metadata :=
  DecryptionManager_new (mkCacheManager (ChunkCache_new 64) (mkMetadataCache (lru_new 2) (mkMetadataCacheStats 0 0 0 0))
    InvalidationTracker_default (mkCacheConfig 64 2 0 true f32_0_8)).
Definition poem_context : DecryptionContext := mkDecryptionContext "f" 1 Current 65536 Sequential.


Lemma optimal_chunk_size_bounds_witness :
  (3 ≤ calculate_optimal_chunk_size ChunkConfig_default poem_context 3 ≤ 3)%N.
Proof.
  pose proof (optimal_chunk_size_bounds ChunkConfig_default poem_context 3) as H. apply H. by vm_compute.
Defined.

Definition poem_read (offset size : N) : res string ReadResult :=
  Ok (mkReadResult (piece offset size poem) "1" false false).
Lemma read_entire_file_complete_witness :
  read_entire_file 8 poem_read (Ok 8%N) "f" (Some 3%N) = Ok poem.
Proof.
  apply (read_entire_file_complete poem poem_read "f" (Some 3%N) 8); [|done|by vm_compute].
  intros offset size _. by eexists.
Defined.
Lemma read_entire_file_diverges_witness :
  read_entire_file 1000 poem_read (Ok 8%N) "f" (Some 0%N) = Diverge.
Proof. apply (read_entire_file_diverges poem_read 8 "f" 1000); [lia|done]. Defined.

#[local] Instance toy_hasher : DefaultHasher := λ b, blen b.
Lemma read_integrity_never_valid_witness : validate_read_integrity (Ok (replicate 32 x61)) poem = Ok false.
Proof. apply (read_integrity_never_valid (replicate 32 x61) poem). reflexivity. Defined.
