(* ===== verification/FileManager.v ===== *)
(** * Encrypting and decrypting files ([crates/client/src/file/encrypt.rs],
      [crates/client/src/file/decrypt.rs])

    The handlers of [FileEncryption] and [FileDecryption], over the epoch manager and
    its store, a coverage manager and the caches.  Random bytes are arguments, one
    clock reading stands for the readings of one call, and the three durations of the
    metrics are left out. *)

From Stdlib Require Import Strings.Byte.
From stdpp Require Import base tactics numbers sets list gmap strings pretty option sorting.
From S2P Require Import Prelude StateError Crypto Merkle Transparency Coverage HybridKem EpochState.
From S2P Require Import CutoverMessages FilePath Storage FileCache Welcome GroupUpdate Cutover Migration.
From S2P Require Import EpochManager FileContent.
Open Scope hc_scope.
Open Scope hc_st_scope.

Record EncryptionResult := mkEncryptionResult {
  er_encrypted_content : bytes;
  er_metadata : FileEncryptionMetadata;
  er_coverage_entry : FileEpochEntry;
  er_target_epoch : N;
  er_during_migration : bool;
}.

Record FileDecryptionMetadata := mkFileDecryptionMetadata {
  dm_file_id : string;
  dm_primary_epoch_id : N;
  dm_fallback_epoch_id : option N;
  dm_encrypted_size : N;
  dm_decrypted_size : N;
  dm_decrypted_at : Z;
  dm_integrity_verified : bool;
  dm_algorithm : string;
}.
Record DecryptionMetrics := mkDecryptionMetrics {
  cache_hit : bool;
  epochs_attempted : N;
}.
Record DecryptionResult := mkDecryptionResult {
  dr_content : bytes;
  dr_metadata : FileDecryptionMetadata;
  dr_epoch_used : N;
  dr_used_fallback : bool;
  dr_metrics : DecryptionMetrics;
}.
Record EpochStrategy := mkEpochStrategy {
  primary_epoch : N;
  fallback_epoch : option N;
}.

(** What the two managers share. *)
Record FileState (S W : Type) := mkFileState {
  fs_epochs : EpochManager S W;
  fs_coverage : CoverageManager;
  fs_cache : CacheManager;
}.
Arguments mkFileState {S W}.
Arguments fs_epochs {S W}.
Arguments fs_coverage {S W}.
Arguments fs_cache {S W}.

(** [serde_json::to_vec] on the metadata, for the cache. *)
Class MetadataJson := metadata_to_json : FileEncryptionMetadata → res string bytes.

(** The random values of one encryption. *)
Record Randomness := mkRandomness {
  rnd_file_key : array 32;
  rnd_file_id : array 32;
  rnd_wrap_nonce : array 12;
  rnd_content_nonce : array 12;
}.

Section Handlers.
Context {sha : Sha256} {aead : Aead} {hk : Hkdf} {hex : Hex} {ho : HashOrder} {mjson : MetadataJson}.
Context {ed : Ed25519} {ejson : EntryJson} {opdbg : OperationDebug}.
Context {S W : Type} {store : Storage S}.
(** Whether [try_reserve_exact] finds the memory. *)
Context (can_reserve : N → bool).

Abbreviation FS := (FileState S W).
Abbreviation FE := (ST FS EncryptionError).
Abbreviation FD := (ST FS DecryptionError).

Definition set_fs_cache (c : CacheManager) (st : FS) : FS := mkFileState (fs_epochs st) (fs_coverage st) c.
Definition set_fs_coverage (c : CoverageManager) (st : FS) : FS := mkFileState (fs_epochs st) c (fs_cache st).
Definition set_fs_storage (s : S) (st : FS) : FS :=
  mkFileState (set_em_storage s (fs_epochs st)) (fs_coverage st) (fs_cache st).

(** ** Encryption *)

(** A cache write whose failure is only logged. *)
Definition cache_write (f : CacheManager → res CacheError unit * CacheManager) : FE unit :=
  λ st, (Ok tt, set_fs_cache (f (fs_cache st)).2 st).

Definition select_target_epoch (em : EpochManager S W) : res EncryptionError N :=
  match em_current em with
  | Some e =>
      match get_migration_target_epoch em with
      | Some target => Ok target
      | None => Ok (epoch_id e)
      end
  | None => Err NoEpochAvailable
  end.

Definition create_aad (path : string) (epoch : N) : bytes :=
  arr (sha256 (bytes_of (normalize_file_identifier path) ++ bytes_of "|" ++ be_bytes 8 epoch)).

Definition generate_file_key (random : array 32) : res EncryptionError Key :=
  map_err (λ e, KeyGenerationFailure ("Failed to create AEAD key: " +:+ CryptoError_display e))
    (Key_from_bytes (arr random)).
Definition generate_file_id (random : array 32) : string := hex_encode (arr random).

Definition enc_get_epoch_key (id : N) (em : EpochManager S W) : res EncryptionError Key :=
  ok_or (em_get_epoch_key id em) (EpochKeyUnavailable ("Epoch " +:+ pretty id +:+ " key not available")).

Definition create_metadata (file_id path : string) (epoch version : N)
    (wrapped wrap_nonce aad_hash content_nonce : bytes) (original_size : N) (content : bytes) (now : Z)
  : FileEncryptionMetadata :=
  mkFileEncryptionMetadata file_id path None epoch version wrapped wrap_nonce aad_hash content_nonce
    None (create_header_aad file_id epoch version) now original_size (arr (sha256 content))
    "ChaCha20-Poly1305" (N.of_nat (length content)) (sha256 content).

Definition update_coverage_log (file_id : string) (epoch : N) (now : Z) : FE FileEpochEntry :=
  λ st, let '(r, c) := log_file_epoch file_id epoch now (fs_coverage st) in
        (map_err (λ e, CoverageUpdateFailure (CoverageManagerError_display e)) r, set_fs_coverage c st).

Definition storage_metadata (m : FileEncryptionMetadata) : FileMetadataData :=
  mkFileMetadataData (fm_file_path m) (Some (fm_file_id m)) (fm_group_id m) (fm_epoch_id m)
    (Some (fm_header_version m)) (Some (fm_wrapped_file_key m)) (Some (fm_key_wrap_nonce m))
    (Some (fm_key_wrap_aad_hash m)) (Some (fm_content_nonce m)) (fm_content_chunk_size m)
    (fm_algorithm m) (fm_file_size m) (fm_encrypted_at m) (fm_integrity_hash m)
    (mkAccessControlData [] [] false) 1 [] (fm_file_size m) (fm_encrypted_at m).

Definition store_metadata (m : FileEncryptionMetadata) : FE unit :=
  λ st, let '(r, s) := store_file_metadata (fm_file_path m) (storage_metadata m) (em_storage (fs_epochs st)) in
        (map_err (λ e, EncStorage (StorageError_display e)) r, set_fs_storage s st).

Definition encrypt_file (rnd : Randomness) (now : Z) (path : string) (content : bytes)
  : FE EncryptionResult :=
  let* st := st_get in
  let* target := st_lift (select_target_epoch (fs_epochs st)) in
  let during_migration := em_is_migration_active (fs_epochs st) in
  if during_migration && negb (is_epoch_key_verified target (fs_epochs st)) then
    st_fail (EpochKeyUnavailable ("Epoch " +:+ pretty target
               +:+ " key is not verified yet (rekey in progress)"))
  else
    let* file_key := st_lift (generate_file_key (rnd_file_key rnd)) in
    do* cache_write (cache_file_key path file_key now);
    let* epoch_key := st_lift (enc_get_epoch_key target (fs_epochs st)) in
    do* cache_write (store_epoch_key target epoch_key now);
    let normalized := normalize_file_identifier path in
    let file_id := generate_file_id (rnd_file_id rnd) in
    let wrap_aad := build_wrap_aad file_id normalized None target 1 in
    let* kek_bytes := st_lift (map_err (λ e, KeyGenerationFailure ("HKDF(KeyWrapping) failed: "
                        +:+ CryptoError_display e))
                        (hkdf_expand (arr (key_bytes epoch_key)) KeyWrapping 32)) in
    let* kek := st_lift (map_err (λ e, KeyGenerationFailure ("Failed to create KEK: "
                  +:+ CryptoError_display e)) (Key_from_bytes kek_bytes)) in
    let* (wrapped, wrap_nonce) := st_lift (wrap_file_key (rnd_wrap_nonce rnd) file_key kek wrap_aad) in
    let* (encrypted, content_nonce) :=
       st_lift (encrypt_content (rnd_content_nonce rnd) content file_key file_id) in
    let m := create_metadata file_id normalized target 1 wrapped wrap_nonce (hash_wrap_aad wrap_aad)
               content_nonce (N.of_nat (length content)) content now in
    do* match metadata_to_json m with
        | Ok b => cache_write (store_file_metadata_bytes normalized b now)
        | _ => st_ret tt
        end;
    let* entry := update_coverage_log file_id target now in
    do* store_metadata m;
    st_ret (mkEncryptionResult encrypted m entry target during_migration).

(** ** Decryption *)

Definition load_file_data (path : string) (s : S) : res DecryptionError (FileMetadataData * bytes) :=
  let? m := map_err (λ e, DecStorage (StorageError_display e)) (load_file_metadata path s) in
  let? m := ok_or m (FileNotFound ("No metadata found for: " +:+ path)) in
  let? c := map_err (λ e, DecStorage (StorageError_display e)) (get_file path s) in
  let? c := ok_or c (FileNotFound ("No content found for: " +:+ path)) in
  Ok (m, c).

Definition metadata_from_storage (d : FileMetadataData) : res DecryptionError FileEncryptionMetadata :=
  let missing field := InvalidMetadata ("Missing " +:+ field +:+ " in stored metadata") in
  let? file_id := ok_or (fd_file_id d) (missing "file_id") in
  let version := default 1%N (fd_header_version d) in
  let? wrapped := ok_or (fd_wrapped_file_key d) (missing "wrapped_file_key") in
  let? wrap_nonce := ok_or (fd_key_wrap_nonce d) (missing "key_wrap_nonce") in
  let? aad_hash := ok_or (fd_key_wrap_aad_hash d) (missing "key_wrap_aad_hash") in
  let? content_nonce := ok_or (fd_content_nonce d) (missing "content_nonce") in
  Ok (mkFileEncryptionMetadata file_id (normalize_file_identifier (fd_file_path d)) (fd_group_id d)
        (fd_epoch_id d) version wrapped wrap_nonce aad_hash content_nonce (fd_content_chunk_size d)
        (create_header_aad file_id (fd_epoch_id d) version) (fd_encrypted_at d) (fd_file_size d) []
        (fd_algorithm d) (fd_file_size d) (fd_integrity_hash d)).

Definition determine_epoch_strategy (d : FileMetadataData) (em : EpochManager S W) : EpochStrategy :=
  let primary := fd_epoch_id d in
  let differs o := match o with Some id => if (id =? primary)%N then None else Some id | None => None end in
  mkEpochStrategy primary
    (if em_is_migration_active em then
       match differs (get_migration_target_epoch em) with
       | Some id => Some id
       | None => differs (epoch_id <$> em_current em)
       end
     else None).

Definition dec_get_epoch_key (id : N) (now : Z) : FD Key :=
  λ st, match FileCache.get_epoch_key id now (fs_cache st) with
        | (Some key, c) => (Ok key, set_fs_cache c st)
        | (None, c) =>
            match em_get_epoch_key id (fs_epochs st) with
            | None => (Err (NoValidEpochKey ("Epoch " +:+ pretty id +:+ " key not available")), set_fs_cache c st)
            | Some key =>
                let '(r, c) := store_epoch_key id key now c in
                (match r with
                 | Ok _ => Ok key
                 | Err e => Err (DecCrypto ("Failed to cache epoch key: " +:+ CacheError_display e))
                 | Panic => Panic
                 | Diverge => Diverge
                 end, set_fs_cache c st)
            end
        end.

Definition attempt_decryption (encrypted : bytes) (m : FileEncryptionMetadata) (id : N) (now : Z)
  : FD (bytes * FileEncryptionMetadata * N) :=
  let* epoch_key := dec_get_epoch_key id now in
  let* file_key := st_lift (unwrap_file_key m epoch_key) in
  let* content := st_lift (decrypt_content can_reserve encrypted file_key m) in
  st_ret (content, m, id).

(** The rest of it is logging. *)
Definition update_access_stats (file_id : string) (epoch : N) (hit : bool) (now : Z) : FD unit :=
  λ st, let c := cache_update_access_stats file_id hit (fs_cache st) in
        let '(_, cov) := log_file_epoch file_id epoch now (fs_coverage st) in
        (Ok tt, mkFileState (fs_epochs st) cov c).

Definition decrypt_file (now : Z) (path : string) : FD DecryptionResult :=
  let* st := st_get in
  let* (d, encrypted) := st_lift (load_file_data path (em_storage (fs_epochs st))) in
  let* m := st_lift (metadata_from_storage d) in
  let strategy := determine_epoch_strategy d (fs_epochs st) in
  let* first := st_try (attempt_decryption encrypted m (primary_epoch strategy) now) in
  let* result :=
     match first, fallback_epoch strategy with
     | inr x, _ => st_ret (Some (x, 1%N, false))
     | inl _, Some id =>
         let* second := st_try (attempt_decryption encrypted m id now) in
         st_ret (match second with inr x => Some (x, 2%N, true) | inl _ => None end)
     | inl _, None => st_ret None
     end in
  let* (x, attempts, used_fallback) :=
     st_lift (ok_or result (NoValidEpochKey ("No valid epoch key found for file: " +:+ path))) in
  let '(content, fm, epoch_used) := x in
  let verified := verify_file_integrity content fm in
  do* update_access_stats (fm_file_id m) epoch_used (negb used_fallback) now;
  let* st := st_get in
  st_ret (mkDecryptionResult content
            (mkFileDecryptionMetadata (fm_file_id m) (primary_epoch strategy) (fallback_epoch strategy)
               (N.of_nat (length encrypted)) (N.of_nat (length content)) now verified "ChaCha20-Poly1305")
            epoch_used used_fallback
            (mkDecryptionMetrics (was_cache_hit (fm_file_id m) (fs_cache st)) attempts)).
End Handlers.

(** ** Properties *)

Section Properties.
Context {sha : Sha256} {aead : Aead} {al : AeadLaws} {hk : Hkdf} {hex : Hex} {ho : HashOrder}.
Context {mjson : MetadataJson} {ed : Ed25519} {ejson : EntryJson} {opdbg : OperationDebug}.
Context {S W : Type} {store : Storage S} {sl : StorageLaws S} (can_reserve : N → bool).
Implicit Types st : FileState S W.

(** Everything that a successful encryption has done. *)
Lemma encrypt_file_facts rnd now path content st r st1 :
  encrypt_file rnd now path content st = (Ok r, st1) →
  ∃ target epoch_key kek_bytes kek wrapped encrypted m,
    let npath := normalize_file_identifier path in
    let file_id := generate_file_id (rnd_file_id rnd) in
    let aad := build_wrap_aad file_id npath None target 1 in
    let file_key := mkKey (rnd_file_key rnd) in
    select_target_epoch (fs_epochs st) = Ok target
    ∧ em_get_epoch_key target (fs_epochs st) = Some epoch_key
    ∧ hkdf_expand (arr (key_bytes epoch_key)) KeyWrapping 32 = Ok kek_bytes
    ∧ Key_from_bytes kek_bytes = Ok kek
    ∧ wrap_file_key (rnd_wrap_nonce rnd) file_key kek aad = Ok (wrapped, arr (rnd_wrap_nonce rnd))
    ∧ encrypt_content (rnd_content_nonce rnd) content file_key file_id
        = Ok (encrypted, arr (rnd_content_nonce rnd))
    ∧ m = create_metadata file_id npath target 1 wrapped (arr (rnd_wrap_nonce rnd)) (hash_wrap_aad aad)
            (arr (rnd_content_nonce rnd)) (N.of_nat (length content)) content now
    ∧ er_encrypted_content r = encrypted ∧ er_metadata r = m ∧ er_target_epoch r = target
    ∧ (∃ c0, epoch_key_cache (fs_cache st1) = epoch_key_cache (store_epoch_key target epoch_key now c0).2)
    ∧ ∃ s1, store_file_metadata npath (storage_metadata m) (em_storage (fs_epochs st)) = (Ok tt, s1)
        ∧ fs_epochs st1 = set_em_storage s1 (fs_epochs st).
Proof.
  intros E. unfold encrypt_file in E. rewrite st_bind_get in E.
  apply st_bind_Ok in E as (target & s0 & H & E). apply st_lift_Ok in H as [Ht ->]. cbv zeta in E.
  destruct (_ && _); [done|].
  apply st_bind_Ok in E as (file_key & s0 & H & E). apply st_lift_Ok in H as [Hfk ->].
  unfold generate_file_key, Key_from_bytes, AEAD_KEY_LEN in Hfk. rewrite array_of_arr in Hfk.
  apply Ok_inj in Hfk. subst file_key.
  unfold st_bind at 1, cache_write at 1 in E.
  apply st_bind_Ok in E as (epoch_key & s0 & H & E). apply st_lift_Ok in H as [Hek ->].
  unfold enc_get_epoch_key in Hek. apply ok_or_Ok in Hek.
  unfold st_bind at 1, cache_write at 1 in E. cbv zeta in E.
  apply st_bind_Ok in E as (kek_bytes & s0 & H & E). apply st_lift_Ok in H as [Hkb ->]. apply map_err_Ok in Hkb.
  apply st_bind_Ok in E as (kek & s0 & H & E). apply st_lift_Ok in H as [Hkek ->]. apply map_err_Ok in Hkek.
  apply st_bind_Ok in E as ([wrapped n1] & s0 & H & E). apply st_lift_Ok in H as [Hw ->].
  apply st_bind_Ok in E as ([encrypted n2] & s0 & H & E). apply st_lift_Ok in H as [Hc ->].
  assert (n1 = arr (rnd_wrap_nonce rnd)) as ->.
  { unfold wrap_file_key in Hw. rewrite Nonce_from_array in Hw. cbn [map_err res_bind] in Hw. by inv_res. }
  assert (n2 = arr (rnd_content_nonce rnd)) as ->.
  { unfold encrypt_content in Hc. destruct (_ <? _)%N; [done|]. rewrite Nonce_from_array in Hc.
    cbn [map_err res_bind] in Hc. by inv_res. }
  cbv zeta in E. set (m := create_metadata _ _ _ _ _ _ _ _ _ _ _) in E.
  apply st_bind_Ok in E as ([] & s2 & Hj & E).
  apply st_bind_Ok in E as (entry & s3 & Hcov & E). apply st_bind_Ok in E as ([] & s4 & Hst & E).
  unfold st_ret in E. apply pair_eq in E as [Er <-]. apply Ok_inj in Er. subst r.
  assert (fs_epochs s2 = fs_epochs st ∧ epoch_key_cache (fs_cache s2)
    = epoch_key_cache (store_epoch_key target epoch_key now
        (cache_file_key path (mkKey (rnd_file_key rnd)) now (fs_cache st)).2).2) as [He2 Hk2].
  { destruct (metadata_to_json m) as [b| | |]; unfold cache_write, st_ret in Hj; apply pair_eq in Hj as [_ <-];
      simpl; try done. unfold store_file_metadata_bytes, cache_metadata. by destruct (lru_put _ _ _ (metadata_cache _)). }
  assert (fs_epochs s3 = fs_epochs s2 ∧ fs_cache s3 = fs_cache s2) as [He3 Hc3].
  { unfold update_coverage_log in Hcov. destruct (log_file_epoch _ _ _ _) as [x c].
    apply pair_eq in Hcov as [_ <-]. done. }
  unfold store_metadata in Hst. rewrite He3, He2 in Hst.
  destruct (store_file_metadata _ _ _) as [x s1] eqn:Hs. apply pair_eq in Hst as [Hx <-].
  apply map_err_Ok in Hx. destruct x as [[]| | |]; try done.
  exists target, epoch_key, kek_bytes, kek, wrapped, encrypted, m. cbv zeta. split_and!; try done.
  - eexists. cbn [fs_cache set_fs_storage]. by rewrite Hc3, Hk2.
  - exists s1. split; [done|]. cbn [fs_epochs set_fs_storage]. by rewrite He3, He2.
Qed.

Lemma attempt_succeeds encrypted m id now st epoch_key file_key content :
  (fst (FileCache.get_epoch_key id now (fs_cache st)) = Some epoch_key
   ∨ fst (FileCache.get_epoch_key id now (fs_cache st)) = None) →
  em_get_epoch_key id (fs_epochs st) = Some epoch_key →
  unwrap_file_key m epoch_key = Ok file_key →
  decrypt_content can_reserve encrypted file_key m = Ok content →
  ∃ st', attempt_decryption can_reserve encrypted m id now st = (Ok (content, m, id), st').
Proof.
  intros Hc He Hu Hd. unfold attempt_decryption.
  assert (∃ st', dec_get_epoch_key id now st = (Ok epoch_key, st')) as [st' Hk].
  { unfold dec_get_epoch_key. destruct (FileCache.get_epoch_key id now (fs_cache st)) as [o c].
    simpl in Hc. destruct Hc as [->| ->]; [by eexists|]. rewrite He.
    unfold store_epoch_key, cache_epoch_key, lru_put. destruct (negb _); simpl; [by eexists|].
    by destruct (_ && _); eexists. }
  unfold st_bind at 1. rewrite Hk. rewrite st_bind_lift, Hu. rewrite st_bind_lift, Hd. by eexists.
Qed.

(** A single record opens to its content. *)
Lemma record_roundtrip (nonce : array 12) content key fid enc m :
  encrypt_content nonce content key fid = Ok (enc, arr nonce) →
  fm_file_id m = fid → fm_content_nonce m = arr nonce → fm_content_chunk_size m = None →
  fm_file_size m = N.of_nat (length content) → (fm_header_version m < 3)%N →
  decrypt_content can_reserve enc key m = Ok content.
Proof using al.
  unfold encrypt_content, decrypt_content. intros E Hid Hn Hcs Hfs Hv.
  destruct (_ <? _)%N eqn:Hlt; [done|]. rewrite Nonce_from_array in E. cbn [map_err res_bind] in E.
  apply res_bind_Ok in E as (c & Hs & E). apply Ok_inj, pair_eq in E as [<- _]. apply map_err_Ok in Hs.
  rewrite Hfs, Hlt, Hcs, Hid, Hn. apply N.ltb_ge in Hlt.
  pose proof (seal_length _ _ _ _ _ _ Hs) as Hl.
  replace (_ <? N.of_nat (length c))%N with false
    by (symmetry; apply N.ltb_ge; rewrite Hl; unfold AEAD_TAG_SIZE, AEAD_TAG_LEN; lia).
  replace (3 <=? fm_header_version m)%N with false by (symmetry; by apply N.leb_gt).
  cbn [res_bind]. rewrite Nonce_from_array. cbn [map_err res_bind]. by rewrite (seal_open _ _ _ _ _ _ Hs).
Qed.

(** What the metadata of an encryption are read back as. *)
Definition reread (m : FileEncryptionMetadata) : FileEncryptionMetadata :=
  mkFileEncryptionMetadata (fm_file_id m) (normalize_file_identifier (fm_file_path m)) (fm_group_id m)
    (fm_epoch_id m) (fm_header_version m) (fm_wrapped_file_key m) (fm_key_wrap_nonce m)
    (fm_key_wrap_aad_hash m) (fm_content_nonce m) (fm_content_chunk_size m)
    (create_header_aad (fm_file_id m) (fm_epoch_id m) (fm_header_version m)) (fm_encrypted_at m)
    (fm_file_size m) [] (fm_algorithm m) (fm_file_size m) (fm_integrity_hash m).
Lemma metadata_reread m : metadata_from_storage (storage_metadata m) = Ok (reread m).
Proof. done. Qed.

(** Decryption, when its first attempt succeeds. *)
Lemma decrypt_first now path st d enc m content st' :
  load_file_data path (em_storage (fs_epochs st)) = Ok (d, enc) →
  metadata_from_storage d = Ok m →
  attempt_decryption can_reserve enc m (fd_epoch_id d) now st = (Ok (content, m, fd_epoch_id d), st') →
  ∃ r st3, decrypt_file can_reserve now path st = (Ok r, st3)
    ∧ dr_content r = content ∧ dm_integrity_verified (dr_metadata r) = verify_file_integrity content m
    ∧ dr_epoch_used r = fd_epoch_id d ∧ dr_used_fallback r = false.
Proof.
  intros Hl Hm Ha. unfold decrypt_file. rewrite st_bind_get, st_bind_lift, Hl. rewrite st_bind_lift, Hm.
  cbv zeta. unfold st_bind at 1, st_try. cbn [primary_epoch determine_epoch_strategy]. rewrite Ha.
  unfold st_bind at 1, st_ret at 1. rewrite st_bind_lift. cbn [ok_or].
  unfold st_bind at 1, update_access_stats. destruct (log_file_epoch _ _ _ _). eexists _, _. split; [reflexivity|]. done.
Qed.

End Properties.

(** ** Files and the epoch manager *)

Section WithEpochs.
Context {sha : Sha256} {aead : Aead} {hk : Hkdf} {hex : Hex} {ho : HashOrder} {mjson : MetadataJson}.
Context {ed : Ed25519} {ejson : EntryJson} {opdbg : OperationDebug}.
Context {cjson : CutoverJson} {pfmt : PercentFmt} {sdbg : StatusDebug}.
Context {wcodec : WelcomeCodec} {ucodec : UpdateCodec} {cdbg : CryptoDebug} {chrono : Chrono}.
Context {xc : X25519} {mk : MlKem} {emjson : EpochJson} {json : StorageJson}.
Context {W : Type} {net : Network W} {nst : NetworkStatus W}.

(** Nothing can be encrypted: whatever welcomes, updates, migrations and cutover messages
    an epoch manager has processed since it was made, it has no current epoch, and
    encrypting a file is refused without any effect. *)
Theorem encryption_always_refused (s : MockStorage) (w : W) (id : Ed25519KeyPair) (dev : string)
    (handles : option (CoveragePublisher * CoverageTransparencyVerifier)) (t now : Z)
    (em : EpochManager MockStorage W) (ops : list (em_op * Z)) (cov : CoverageManager)
    (cache : CacheManager) (rnd : Randomness) (path : string) (content : bytes) :
  EpochManager_new s w id dev handles t = Ok em →
  encrypt_file rnd now path content (mkFileState (run_em ops em) cov cache)
    = (Err NoEpochAvailable, mkFileState (run_em ops em) cov cache).
Proof.
  intros Hnew. unfold encrypt_file. rewrite st_bind_get, st_bind_lift. cbn [fs_epochs].
  destruct (em_bare_run ops em (em_bare_new _ _ _ _ _ _ _ Hnew)) as [Hc _].
  unfold select_target_epoch. by rewrite Hc.
Qed.
End WithEpochs.

(** ** A concrete file *)

Definition toy_metadata_json : MetadataJson := λ m, Ok (bytes_of (fm_file_id m)).

#[local] Existing Instances toy_sha256 toy_ed25519 toy_ed25519_laws toy_entry_json toy_hex
  toy_operation_debug toy_cutover_json toy_storage_json toy_network toy_hash_order
  toy_hash_order_laws toy_percent toy_status_debug toy_network_status toy_welcome_codec
  toy_update_codec toy_crypto_debug toy_chrono toy_x25519 toy_mlkem toy_hkdf toy_aead toy_aead_laws
  toy_epoch_json toy_metadata_json.

Lemma encryption_always_refused_witness :
  ∃ em, phone_manager = Ok em
    ∧ fst (encrypt_file (mkRandomness (zeros 32) (zeros 32) (zeros 12) (zeros 12)) 5 "a.txt" [x61]
             (mkFileState (run_em later_ops em) cov_manager CacheManager_new)) = Err NoEpochAvailable.
Proof.
  destruct phone_manager as [em| | |] eqn:E; [|discriminate E..]. exists em. split; [reflexivity|].
  by rewrite (encryption_always_refused store_1 cut_net phone_pair "phone" None 0 5 em later_ops
    cov_manager CacheManager_new (mkRandomness (zeros 32) (zeros 32) (zeros 12) (zeros 12)) "a.txt" [x61] E).
Defined.

(** A manager whose current epoch was set by hand. *)
Definition desk : FileState MockStorage (list PeerInfo * list (array 32 * NetworkMessage)) :=
  mkFileState (mkEpochManager (MigrationManager_new tablet_store cut_net cov_manager (dev_pair 7) 0)
                 (WelcomeProcessor_new (dev_pair 7) "desk") (GroupUpdateProcessor_new (dev_pair 7))
                 (Some tablet_epoch))
    cov_manager CacheManager_new.
Definition desk_random : Randomness :=
  mkRandomness (num_array 32 9) (num_array 32 10) (num_array 12 11) (num_array 12 12).
Definition desk_run := encrypt_file desk_random 100 "docs//report.txt" (bytes_of "hello") desk.
Definition ciphertext_of (r : res EncryptionError EncryptionResult) : bytes :=
  match r with Ok r => er_encrypted_content r | _ => [] end.
Definition desk_saved : MockStorage :=
  mock_store_file "docs/report.txt" (ciphertext_of desk_run.1) (em_storage (fs_epochs desk_run.2)).

