(* ===== verification/Rewrap.v ===== *)
(** * Rewrapping files and reading them in two epochs ([crates/client/src/file/rewrap.rs],
      [crates/client/src/file/access.rs])

    [RewrapManager] decrypts a stored file under the key of the current epoch and stores it
    again under the key of another, one file at a time, from a queue with priorities or in
    concurrent batches; [FileAccessManager] reads such files under the current epoch.  Both
    work on the in-memory store that [LocalFsStorage] delegates to, whose transactions apply
    every operation at once.  The epoch manager is read only and an argument; so are readings
    of the clock, measured durations, drawn nonces and the answers of the network.  A panic
    while a lock is held poisons the lock, which makes later uses of it panic. *)

From Stdlib Require Import Strings.Byte Floats.SpecFloat.
From stdpp Require Import base tactics numbers sets list gmap strings pretty option sorting.
From S2P Require Import Prelude StateError Crypto Merkle Transparency Coverage HybridKem EpochState.
From S2P Require Import CutoverMessages FilePath Storage FileCache Welcome GroupUpdate Cutover Migration.
From S2P Require Import EpochManager MountCache.
Open Scope hc_scope.
Open Scope hc_st_scope.

(** ** Data *)

Inductive FileError :=
| NotFound (path : string)
| FileAccessDenied (path : string)
| Corrupted (path : string)
| FileDecryptionError (msg : string)
| FileEncryptionError (msg : string)
| FileEncryption (msg : string)
| FileStorage (e : StorageError)
| FileNetwork (msg : string)
| FileEpoch (msg : string).

Inductive RewrapError :=
| RewrapFailed (path : string)
| BatchFailed (batch_id : string)
| ConcurrencyLimitExceeded
| InvalidConfig (msg : string)
| RewrapFile (e : FileError).

Inductive RewrapStrategy :=
| Immediate
| Batch (batch_size : N)
| Scheduled (interval_secs : N)
| Adaptive (access_threshold size_threshold : N).

Record RewrapConfig := mkRewrapConfig {
  rc_strategy : RewrapStrategy;
  rc_max_concurrent : N;
  rc_background_enabled : bool;
  rc_batch_size_bytes : N;
  rc_max_retries : N;
  rc_retry_delay_ms : N;
}.
Definition RewrapConfig_default : RewrapConfig :=
  mkRewrapConfig (Adaptive 10 (1024 * 1024)) 4 true (10 * 1024 * 1024) 3 1000.

Record RewrapProgress := mkRewrapProgress {
  total_files : N;
  completed_files : N;
  in_progress_files : N;
  failed_files : N;
  total_bytes : N;
  completed_bytes : N;
  throughput_bps : f64;
  estimated_completion : option Z;
  progress_percent : f64;
}.
Definition RewrapProgress_zero : RewrapProgress := mkRewrapProgress 0 0 0 0 0 0 f64_zero None f64_zero.

Record BatchRewrapStats := mkBatchRewrapStats {
  bs_batch_id : string;
  bs_file_count : N;
  bs_total_size : N;
  bs_start_time : Z;
  bs_completion_time : option Z;
  bs_success_rate : f64;
  bs_avg_file_time_ms : f64;
  bs_throughput_mbps : f64;
}.

Record RewrapTask := mkRewrapTask {
  rt_path : string;
  rt_priority : N;
  rt_retry_count : N;
  rt_estimated_size : N;
  rt_access_frequency : N;
  rt_created_at : Z;
}.

Record RewrapManager := mkRewrapManager {
  rm_storage : MockStorage;
  rm_config : RewrapConfig;
  rm_task_queue : list RewrapTask;
  rm_progress : RewrapProgress;
  rm_batch_stats : gmap string BatchRewrapStats;
  rm_performance_history : list (Z * f64);
  (** Whether the locks of the progress and the history, and of the queue, are poisoned. *)
  rm_progress_poisoned : bool;
  rm_queue_poisoned : bool;
}.

(** [Semaphore::new] panics above [Semaphore::MAX_PERMITS]. *)
Definition MAX_PERMITS : N := N.shiftr (U64 - 1) 3.
Definition RewrapManager_new (storage : MockStorage) (config : RewrapConfig) : res RewrapError RewrapManager :=
  if (MAX_PERMITS <? rc_max_concurrent config)%N then Panic
  else Ok (mkRewrapManager storage config [] RewrapProgress_zero ∅ [] false false).

(** [chrono]: a time so many seconds later, unless the duration or the time is out of range,
    which panics. *)
Class ChronoAdd := seconds_later : Z → Z → option Z.
Class ChronoAddLaws `{ChronoAdd} : Prop :=
  seconds_out_of_range now d : (9223372036854775 < d)%Z → seconds_later now d = None.

(** [f64 as i64]. *)
Definition trunc_to_i64 (x : f64) : Z :=
  match x with
  | S754_zero _ | S754_nan => 0
  | S754_infinity s => if s then - 2 ^ 63 else 2 ^ 63 - 1
  | S754_finite s m e =>
      if s then Z.max (- Z.shiftl (Zpos m) e) (- 2 ^ 63) else Z.min (Z.shiftl (Zpos m) e) (2 ^ 63 - 1)
  end.
Definition f64_add : f64 → f64 → f64 := SFadd 53 1024.
Definition f64_hundred : f64 := f64_of_u64 100.

(** What the attempt to rewrap one file draws and measures. *)
Record Attempt := mkAttempt {
  at_nonce : res CryptoError (array 12);
  at_modified : Z;
  at_duration : Z;
  at_measured : Z;
  at_estimated : Z;
}.

Section Rewrap.
Context {aead : Aead} {ho : HashOrder} {json : StorageJson} {chrono : ChronoAdd}.
Context {T W : Type}.
Abbreviation RW := (ST RewrapManager RewrapError).

Definition set_storage (s : MockStorage) (m : RewrapManager) : RewrapManager :=
  mkRewrapManager s (rm_config m) (rm_task_queue m) (rm_progress m) (rm_batch_stats m) (rm_performance_history m)
    (rm_progress_poisoned m) (rm_queue_poisoned m).
Definition set_queue (q : list RewrapTask) (m : RewrapManager) : RewrapManager :=
  mkRewrapManager (rm_storage m) (rm_config m) q (rm_progress m) (rm_batch_stats m) (rm_performance_history m)
    (rm_progress_poisoned m) (rm_queue_poisoned m).
Definition set_progress (p : RewrapProgress) (m : RewrapManager) : RewrapManager :=
  mkRewrapManager (rm_storage m) (rm_config m) (rm_task_queue m) p (rm_batch_stats m) (rm_performance_history m)
    (rm_progress_poisoned m) (rm_queue_poisoned m).
Definition set_history (h : list (Z * f64)) (m : RewrapManager) : RewrapManager :=
  mkRewrapManager (rm_storage m) (rm_config m) (rm_task_queue m) (rm_progress m) (rm_batch_stats m) h
    (rm_progress_poisoned m) (rm_queue_poisoned m).
Definition set_batch_stats (b : gmap string BatchRewrapStats) (m : RewrapManager) : RewrapManager :=
  mkRewrapManager (rm_storage m) (rm_config m) (rm_task_queue m) (rm_progress m) b (rm_performance_history m)
    (rm_progress_poisoned m) (rm_queue_poisoned m).
Definition poison_progress (m : RewrapManager) : RewrapManager :=
  mkRewrapManager (rm_storage m) (rm_config m) (rm_task_queue m) (rm_progress m) (rm_batch_stats m)
    (rm_performance_history m) true (rm_queue_poisoned m).
Definition poison_queue (m : RewrapManager) : RewrapManager :=
  mkRewrapManager (rm_storage m) (rm_config m) (rm_task_queue m) (rm_progress m) (rm_batch_stats m)
    (rm_performance_history m) (rm_progress_poisoned m) true.

(** [self.progress.write().unwrap()]. *)
Definition on_progress (f : RewrapProgress → RewrapProgress) : RW unit :=
  λ m, if rm_progress_poisoned m then (Panic, m) else (Ok tt, set_progress (f (rm_progress m)) m).

(** ** One file *)

Definition file_err {A} (r : res FileError A) : res RewrapError A := map_err RewrapFile r.
Definition enc_err {A} (r : res CryptoError A) : res RewrapError A :=
  map_err (λ e, RewrapFile (FileEncryptionError (CryptoError_display e))) r.

Definition get_file_metadata (path : string) (s : MockStorage) : res RewrapError FileMetadata :=
  ok_or (mock_get_file_metadata path s) (RewrapFile (NotFound path)).

(** The stored form is the nonce followed by the ciphertext. *)
Definition open_stored (path : string) (key : array 32) (data : bytes) : res FileError bytes :=
  if (length data <? 12)%nat then Err (FileDecryptionError "Invalid encrypted data format")
  else
    let? nonce := map_err (λ e, FileDecryptionError (CryptoError_display e)) (Nonce_from_bytes (take 12 data)) in
    let? k := map_err (λ e, FileDecryptionError (CryptoError_display e)) (Key_from_bytes (arr key)) in
    map_err (λ e, FileDecryptionError (CryptoError_display e)) (open k nonce FileData (bytes_of path) (drop 12 data)).
Definition seal_stored (path : string) (key : array 32) (drawn : res CryptoError (array 12)) (plaintext : bytes)
  : res RewrapError bytes :=
  let? nonce := enc_err drawn in
  let? k := enc_err (Key_from_bytes (arr key)) in
  let? ciphertext := enc_err (seal k (mkNonce nonce) FileData (bytes_of path) plaintext) in
  Ok (arr nonce ++ ciphertext).

Definition rewrapped_metadata (target : N) (now : Z) (d : FileMetadata) : FileMetadata :=
  mkFileMetadata (tf_path d) (tf_size d) target (tf_last_access d) now (tf_access_count d) false (tf_checksum d).

Definition load_stored (path : string) (s : MockStorage) : res RewrapError bytes :=
  let? found := map_err (λ e, RewrapFile (FileStorage e)) (mock_get_file path s) in
  ok_or found (RewrapFile (NotFound path)).
(** The transaction: the contents are stored, then the metadata is read, changed and stored.
    Nothing rolls back when it is missing. *)
Definition store_rewrapped (path : string) (target : EpochState) (a : Attempt) (new_data : bytes)
  : ST MockStorage RewrapError unit :=
  do* st_put mock_begin_transaction;
  do* st_put (apply_tx (TxStoreFile path new_data));
  let* s := st_get in
  let* d := st_lift (get_file_metadata path s) in
  do* st_put (apply_tx (TxStoreFileMetadataTyped path (rewrapped_metadata (epoch_id target) (at_modified a) d)));
  st_put (apply_tx TxCommit).

Definition rewrap_file_internal (em : EpochManager T W) (path : string) (target : EpochState) (a : Attempt)
  : ST MockStorage RewrapError unit :=
  let* s := st_get in
  let* old_data := st_lift (load_stored path s) in
  let* current := st_lift (ok_or (em_current em) (RewrapFile (FileEpoch "No current epoch available"))) in
  let* plaintext := st_lift (file_err (open_stored path (encryption_key current) old_data)) in
  let* new_data := st_lift (seal_stored path (encryption_key target) (at_nonce a) plaintext) in
  store_rewrapped path target a new_data.
Definition rewrap_file_with_current_epoch (path : string) (current target : EpochState) (a : Attempt)
  : ST MockStorage RewrapError unit :=
  let* s := st_get in
  let* old_data := st_lift (load_stored path s) in
  let* plaintext := st_lift (file_err (open_stored path (encryption_key current) old_data)) in
  let* new_data := st_lift (seal_stored path (encryption_key target) (at_nonce a) plaintext) in
  store_rewrapped path target a new_data.

Definition on_storage {A} (f : ST MockStorage RewrapError A) : RW A :=
  λ m, let '(r, s) := f (rm_storage m) in (r, set_storage s m).

(** ** The queue *)

Definition task_precedes (a b : RewrapTask) : bool :=
  if negb (rt_priority a =? rt_priority b)%N then (rt_priority b <? rt_priority a)%N
  else if negb (rt_access_frequency a =? rt_access_frequency b)%N
  then (rt_access_frequency b <? rt_access_frequency a)%N
  else if negb (rt_estimated_size a =? rt_estimated_size b)%N then (rt_estimated_size a <? rt_estimated_size b)%N
  else (rt_created_at a <? rt_created_at b)%Z.

Fixpoint insert_task (queue : list RewrapTask) (task : RewrapTask) : list RewrapTask :=
  match queue with
  | [] => [task]
  | existing :: rest => if task_precedes task existing then task :: queue else existing :: insert_task rest task
  end.

Definition queue_rewrap (path : string) (priority : N) (now : Z) : RW unit :=
  let* m := st_get in
  let* d := st_lift (get_file_metadata path (rm_storage m)) in
  let task := mkRewrapTask path priority 0 (tf_size d) (tf_access_count d) now in
  if rm_queue_poisoned m then st_lift Panic
  else
    do* st_put (set_queue (insert_task (rm_task_queue m) task));
    if rm_progress_poisoned m then do* st_put poison_queue; st_lift Panic
    else
      on_progress (λ p, mkRewrapProgress (u64_wrap (total_files p + 1)) (completed_files p) (in_progress_files p)
                          (failed_files p) (u64_wrap (total_bytes p + tf_size d)) (completed_bytes p)
                          (throughput_bps p) (estimated_completion p) (progress_percent p)).

(** ** Progress *)

Definition started (p : RewrapProgress) : RewrapProgress :=
  mkRewrapProgress (total_files p) (completed_files p) (u64_wrap (in_progress_files p + 1)) (failed_files p)
    (total_bytes p) (completed_bytes p) (throughput_bps p) (estimated_completion p) (progress_percent p).
Definition finished (ok : bool) (p : RewrapProgress) : RewrapProgress :=
  let completed := if ok then u64_wrap (completed_files p + 1) else completed_files p in
  let failed := if ok then failed_files p else u64_wrap (failed_files p + 1) in
  mkRewrapProgress (total_files p) completed (u64_wrap (in_progress_files p + (U64 - 1))) failed
    (total_bytes p) (completed_bytes p) (throughput_bps p) (estimated_completion p)
    (if (0 <? total_files p)%N
     then f64_mul (f64_div (f64_of_u64 completed) (f64_of_u64 (total_files p))) f64_hundred
     else progress_percent p).
Definition add_completed_bytes (size : N) (p : RewrapProgress) : RewrapProgress :=
  mkRewrapProgress (total_files p) (completed_files p) (in_progress_files p) (failed_files p) (total_bytes p)
    (u64_wrap (completed_bytes p + size)) (throughput_bps p) (estimated_completion p) (progress_percent p).
Definition with_throughput (t : f64) (p : RewrapProgress) : RewrapProgress :=
  mkRewrapProgress (total_files p) (completed_files p) (in_progress_files p) (failed_files p) (total_bytes p)
    (completed_bytes p) t (estimated_completion p) (progress_percent p).
Definition with_estimate (t : Z) (p : RewrapProgress) : RewrapProgress :=
  mkRewrapProgress (total_files p) (completed_files p) (in_progress_files p) (failed_files p) (total_bytes p)
    (completed_bytes p) (throughput_bps p) (Some t) (progress_percent p).

Definition HISTORY_LIMIT : nat := 1000.
Definition average (h : list (Z * f64)) : f64 :=
  f64_div (foldl f64_add f64_zero h.*2) (f64_of_u64 (N.of_nat (length h))).

(** The subtraction is that of [u64]: it wraps in a release build. *)
Definition remaining_bytes (p : RewrapProgress) : N := u64_wrap (total_bytes p + (U64 - completed_bytes p)).
Definition update_throughput_history (a : Attempt) (throughput : f64) : RW unit :=
  λ m,
    if rm_progress_poisoned m then (Panic, m)
    else
      let h := rm_performance_history m ++ [(at_measured a, throughput)] in
      let h := if (HISTORY_LIMIT <? length h)%nat then drop 1 h else h in
      let avg := average h in
      let p := with_throughput avg (rm_progress m) in
      let m := set_progress p (set_history h m) in
      if f64_gt avg f64_zero then
        let remaining_seconds := f64_div (f64_of_u64 (remaining_bytes p)) avg in
        match seconds_later (at_estimated a) (trunc_to_i64 remaining_seconds) with
        | None => (Panic, poison_progress m)
        | Some t => (Ok tt, set_progress (with_estimate t p) m)
        end
      else (Ok tt, m).

(** Without permits the wait for one does not end. *)
Definition rewrap_file (em : EpochManager T W) (path : string) (target : EpochState) (a : Attempt) : RW unit :=
  let* m := st_get in
  if (rc_max_concurrent (rm_config m) =? 0)%N then st_lift Diverge
  else
    do* on_progress started;
    let* result := st_try (on_storage (rewrap_file_internal em path target a)) in
    do* on_progress (finished (match result with inr _ => true | inl _ => false end));
    do* match result with
        | inl _ => st_ret tt
        | inr _ =>
            let* m := st_get in
            match get_file_metadata path (rm_storage m) with
            | Ok d =>
                do* on_progress (add_completed_bytes (tf_size d));
                update_throughput_history a (f64_div (f64_of_u64 (tf_size d)) (as_secs_f64 (at_duration a)))
            | _ => st_ret tt
            end
        end;
    st_lift (match result with inl e => Err e | inr _ => Ok tt end).

(** The loop of [process_queue].  [turns n] is what the [n]th attempt draws, with the time at
    which a failed task is queued again. *)
Fixpoint process_loop (fuel : nat) (em : EpochManager T W) (target : EpochState) (turns : nat → Attempt * Z) (n : nat)
  : RW nat :=
  let* m := st_get in
  if rm_queue_poisoned m then st_lift Panic
  else
    match rm_task_queue m with
    | [] => st_ret n
    | task :: rest =>
        match fuel with
        | O => st_lift Diverge
        | S fuel =>
            do* st_put (set_queue rest);
            let* result := st_try (rewrap_file em (rt_path task) target (turns n).1) in
            do* match result with
                | inr _ => st_ret tt
                | inl _ =>
                    if (rt_retry_count task <? rc_max_retries (rm_config m))%N then
                      let retry := mkRewrapTask (rt_path task) (rt_priority task) (rt_retry_count task + 1)
                                     (rt_estimated_size task) (rt_access_frequency task) (turns n).2 in
                      let* m := st_get in
                      st_put (set_queue (insert_task (rm_task_queue m) retry))
                    else st_ret tt
                end;
            process_loop fuel em target turns (n + 1)
        end
    end.

(** How often the tasks of the queue may still be tried. *)
Definition tries_left (max_retries : N) (t : RewrapTask) : nat :=
  N.to_nat (max_retries - rt_retry_count t) + 1.
Definition queue_fuel (m : RewrapManager) : nat :=
  sum_list (tries_left (rc_max_retries (rm_config m)) <$> rm_task_queue m).
Definition process_queue (em : EpochManager T W) (target : EpochState) (turns : nat → Attempt * Z) : RW unit :=
  λ m, (let* _ := process_loop (queue_fuel m) em target turns 0 in st_ret tt) m.

(** ** Batches *)

(** The files of a batch, each with what its task draws and measures. *)
Abbreviation Job := (string * Attempt)%type.

(** Tasks of a chunk one after the other; below, [batch_schedule_irrelevant] shows that every
    other order of their steps does the same. *)
Fixpoint run_jobs (current target : EpochState) (jobs : list Job) (s : MockStorage)
  : list (res RewrapError unit) * MockStorage :=
  match jobs with
  | [] => ([], s)
  | (path, a) :: jobs =>
      let '(r, s) := rewrap_file_with_current_epoch path current target a s in
      let '(rs, s) := run_jobs current target jobs s in (r :: rs, s)
  end.
(** [chunks]; the fuel is the length of the list. *)
Fixpoint chunks {A} (fuel : nat) (n : nat) (l : list A) : list (list A) :=
  match fuel, l with
  | _, [] | O, _ => []
  | S fuel, _ => take n l :: chunks fuel n (drop n l)
  end.
Fixpoint run_chunks (current target : EpochState) (cs : list (list Job)) (s : MockStorage)
  : list (res RewrapError unit) * MockStorage :=
  match cs with
  | [] => ([], s)
  | c :: cs =>
      let '(rs, s) := run_jobs current target c s in
      let '(rs', s) := run_chunks current target cs s in (rs ++ rs', s)
  end.

Fixpoint batch_size (jobs : list Job) (s : MockStorage) (acc : N) : N :=
  match jobs with
  | [] => acc
  | (path, _) :: jobs =>
      batch_size jobs s (match get_file_metadata path s with Ok d => u64_wrap (acc + tf_size d) | _ => acc end)
  end.

Record BatchClock := mkBatchClock {
  bk_id_millis : Z;
  bk_start : Z;
  bk_completion : Z;
  bk_duration : Z;
}.
Definition successes (rs : list (res RewrapError unit)) : nat :=
  sum_list ((λ r, match r with Ok _ => 1 | _ => 0 end) <$> rs).
Definition finish_stats (k : BatchClock) (jobs : list Job) (rs : list (res RewrapError unit)) (st : BatchRewrapStats)
  : BatchRewrapStats :=
  let count := f64_of_u64 (bs_file_count st) in
  let total_file_time := foldr Z.add 0%Z ((λ j, at_duration j.2) <$> jobs) in
  mkBatchRewrapStats (bs_batch_id st) (bs_file_count st) (bs_total_size st) (bs_start_time st) (Some (bk_completion k))
    (f64_mul (f64_div (f64_of_u64 (N.of_nat (successes rs))) count) f64_hundred)
    (f64_div (f64_of_u64 (Z.to_N (total_file_time / 10 ^ 6))) count)
    (if (SECOND <=? bk_duration k)%Z
     then f64_div (f64_div (f64_of_u64 (bs_total_size st)) (f64_of_u64 (1024 * 1024))) (as_secs_f64 (bk_duration k))
     else f64_zero).

(** [chunks(0)] panics. *)
Definition process_batch (em : EpochManager T W) (k : BatchClock) (jobs : list Job) (target : EpochState)
  : RW BatchRewrapStats :=
  let* m := st_get in
  let batch_id := "batch_" +:+ pretty (bk_id_millis k) in
  let file_count := (N.of_nat (length jobs) mod 2 ^ 32)%N in
  let stats := mkBatchRewrapStats batch_id file_count (batch_size jobs (rm_storage m) 0) (bk_start k) None
                 f64_zero f64_zero f64_zero in
  let* current := st_lift (ok_or (em_current em) (RewrapFile (FileEpoch "No current epoch available"))) in
  if (rc_max_concurrent (rm_config m) =? 0)%N then st_lift Panic
  else
    let cs := chunks (length jobs) (N.to_nat (rc_max_concurrent (rm_config m))) jobs in
    let '(rs, s) := run_chunks current target cs (rm_storage m) in
    let stats := finish_stats k jobs rs stats in
    do* st_put (λ m, set_batch_stats (<[batch_id := stats]> (rm_batch_stats m)) (set_storage s m));
    st_ret stats.

Definition get_progress (m : RewrapManager) : res RewrapError RewrapProgress :=
  if rm_progress_poisoned m then Panic else Ok (rm_progress m).
Definition get_batch_stats (batch_id : string) (m : RewrapManager) : option BatchRewrapStats :=
  rm_batch_stats m !! batch_id.
Definition get_all_batch_stats (m : RewrapManager) : gmap string BatchRewrapStats := rm_batch_stats m.

(** The same task as a sequence of accesses to the store, each of which takes its lock. *)
Inductive TaskState :=
| AtLoad
| AtBegin (new_data : bytes)
| AtStore (new_data : bytes)
| AtMetadata
| AtStoreMetadata (d : FileMetadata)
| AtCommit
| AtEnd (r : res RewrapError unit).
Definition res_end {A} (r : res RewrapError A) (next : A → TaskState) : TaskState :=
  match r with
  | Ok a => next a
  | Err e => AtEnd (Err e)
  | Panic => AtEnd Panic
  | Diverge => AtEnd Diverge
  end.
Definition task_step (current target : EpochState) (j : Job) (t : TaskState) (s : MockStorage) : TaskState * MockStorage :=
  let '(path, a) := j in
  match t with
  | AtLoad =>
      (res_end (let? old_data := load_stored path s in
                let? plaintext := file_err (open_stored path (encryption_key current) old_data) in
                seal_stored path (encryption_key target) (at_nonce a) plaintext) AtBegin, s)
  | AtBegin new_data => (AtStore new_data, mock_begin_transaction s)
  | AtStore new_data => (AtMetadata, apply_tx (TxStoreFile path new_data) s)
  | AtMetadata => (res_end (get_file_metadata path s) AtStoreMetadata, s)
  | AtStoreMetadata d =>
      (AtCommit, apply_tx (TxStoreFileMetadataTyped path (rewrapped_metadata (epoch_id target) (at_modified a) d)) s)
  | AtCommit => (AtEnd (Ok tt), apply_tx TxCommit s)
  | AtEnd r => (AtEnd r, s)
  end.
End Rewrap.

(** ** Reading in two epochs ([access.rs]) *)

Inductive AccessMode := Read | Write | ReadWrite.
#[export] Instance AccessMode_eq_dec : EqDecision AccessMode.
Proof. solve_decision. Defined.

Record AccessStats := mkAccessStats {
  total_accesses : N;
  successful_accesses : N;
  failed_accesses : N;
  avg_latency_ms : f64;
  dual_epoch_accesses : N;
  triggered_rewraps : N;
  network_failures : N;
  last_network_latency_ms : option N;
}.
Definition AccessStats_zero : AccessStats := mkAccessStats 0 0 0 f64_zero 0 0 0 None.

Record FileAccessManager (C : Type) := mkFileAccessManager {
  fa_storage : MockStorage;
  fa_user_context : option string;
  fa_stats : AccessStats;
  fa_metadata_cache : C;
  fa_performance_tracker : gmap string (list Z);
}.
Arguments mkFileAccessManager {C}.
Arguments fa_storage {C}.
Arguments fa_user_context {C}.
Arguments fa_stats {C}.
Arguments fa_metadata_cache {C}.
Arguments fa_performance_tracker {C}.

(** The two fields of [NetworkStatus] that are read. *)
Record PeerStatus := mkPeerStatus {
  peer_latencies : gmap (array 32) N;
  peer_error_rate : f64;
}.
Definition METADATA_CACHE_MAX_ENTRIES : N := 2048.
Definition f64_half : f64 := f64_round 1 (-1) false.

Section Access.
Context {aead : Aead} {C : Type} `{LruMap string FileMetadata C} {T W : Type}.
Abbreviation FA := (ST (FileAccessManager C) FileError).

Definition new_with_cache_limit (storage : MockStorage) (user_context : option string) (limit : N) : FileAccessManager C :=
  mkFileAccessManager storage user_context AccessStats_zero
    (lru_new (if (limit =? 0)%N then METADATA_CACHE_MAX_ENTRIES else limit)) ∅.
Definition with_cache_size (storage : MockStorage) (user_context : option string) (limit : N) : FileAccessManager C :=
  new_with_cache_limit storage user_context limit.
Definition FileAccessManager_new (storage : MockStorage) (user_context : option string) (limit : option N)
  : FileAccessManager C :=
  new_with_cache_limit storage user_context (default METADATA_CACHE_MAX_ENTRIES limit).

Definition set_user_context (user : option string) (f : FileAccessManager C) : FileAccessManager C :=
  mkFileAccessManager (fa_storage f) user (fa_stats f) (fa_metadata_cache f) (fa_performance_tracker f).
Definition set_stats (s : AccessStats) (f : FileAccessManager C) : FileAccessManager C :=
  mkFileAccessManager (fa_storage f) (fa_user_context f) s (fa_metadata_cache f) (fa_performance_tracker f).
Definition set_metadata_cache (c : C) (f : FileAccessManager C) : FileAccessManager C :=
  mkFileAccessManager (fa_storage f) (fa_user_context f) (fa_stats f) c (fa_performance_tracker f).
Definition set_tracker (t : gmap string (list Z)) (f : FileAccessManager C) : FileAccessManager C :=
  mkFileAccessManager (fa_storage f) (fa_user_context f) (fa_stats f) (fa_metadata_cache f) t.
Definition on_stats (g : AccessStats → AccessStats) : FA unit := st_put (λ f, set_stats (g (fa_stats f)) f).

(** The mean of the latencies; the sum is that of [u64]. *)
Definition average_latency (l : gmap (array 32) N) : option N :=
  if decide (l = ∅) then None
  else Some (u64_wrap (map_fold (λ _ n acc, n + acc)%N 0%N l) / N.of_nat (size l))%N.
Definition refresh_network_status (status : res string PeerStatus) : FA unit :=
  on_stats (λ s,
    match status with
    | Ok p => mkAccessStats (total_accesses s) (successful_accesses s) (failed_accesses s) (avg_latency_ms s)
                (dual_epoch_accesses s) (triggered_rewraps s) (network_failures s) (average_latency (peer_latencies p))
    | _ => mkAccessStats (total_accesses s) (successful_accesses s) (failed_accesses s) (avg_latency_ms s)
             (dual_epoch_accesses s) (triggered_rewraps s) (u64_wrap (network_failures s + 1)) (last_network_latency_ms s)
    end).

(** A file without metadata gets metadata of its own. *)
Definition load_file_metadata (path : string) (now : Z) (f : FileAccessManager C) : FileMetadata :=
  match mock_get_file_metadata path (fa_storage f) with
  | Some d => d
  | None => mkFileMetadata path 0 0 now now 1 false []
  end.
Definition touch (now : Z) (epoch : N) (d : FileMetadata) : FileMetadata :=
  mkFileMetadata (tf_path d) (tf_size d) epoch now (tf_last_modified d) (u64_wrap (tf_access_count d + 1))
    (tf_pending_rewrap d) (tf_checksum d).
Definition update_metadata_cache (path : string) (epoch : N) (now : Z) : FA unit :=
  λ f, match lru_get_mut path (touch now epoch) (fa_metadata_cache f) with
       | (Some _, c) => (Ok tt, set_metadata_cache c f)
       | (None, c) => (Ok tt, set_metadata_cache (lru_put path (load_file_metadata path now f) c) f)
       end.

Definition decrypt_file_with_epoch (path : string) (epoch : EpochState) (now : Z) : FA bytes :=
  let* f := st_get in
  let* found := st_lift (map_err FileStorage (mock_get_file path (fa_storage f))) in
  let* data := st_lift (ok_or found (NotFound path)) in
  let* plaintext := st_lift (open_stored path (encryption_key epoch) data) in
  do* update_metadata_cache path (epoch_id epoch) now;
  st_ret plaintext.

Definition try_access_current_epoch (em : EpochManager T W) (path : string) (now : Z) : FA bytes :=
  let* current := st_lift (ok_or (em_current em) (FileEpoch "No current epoch available")) in
  decrypt_file_with_epoch path current now.
Definition try_access_previous_epoch (path : string) : FA bytes := st_fail (NotFound path).

Definition wants_rewrap (d : FileMetadata) : bool := (5 <? tf_access_count d)%N && negb (tf_pending_rewrap d).
Definition should_rewrap_file (path : string) (now : Z) : FA bool :=
  λ f, match lru_get_mut path id (fa_metadata_cache f) with
       | (Some d, c) => (Ok (wants_rewrap d), set_metadata_cache c f)
       | (None, c) => (Ok (wants_rewrap (load_file_metadata path now f)), set_metadata_cache c f)
       end.
Definition pending (d : FileMetadata) : FileMetadata :=
  mkFileMetadata (tf_path d) (tf_size d) (tf_epoch_id d) (tf_last_access d) (tf_last_modified d) (tf_access_count d)
    true (tf_checksum d).
(** Nothing is queued: only the cached metadata changes. *)
Definition schedule_background_rewrap (path : string) (target : EpochState) : FA unit :=
  st_put (λ f, set_metadata_cache (lru_get_mut path pending (fa_metadata_cache f)).2 f).
Definition trigger_opportunistic_rewrap (em : EpochManager T W) (status : res string PeerStatus) (path : string) (now : Z)
  : FA unit :=
  do* on_stats (λ s, mkAccessStats (total_accesses s) (successful_accesses s) (failed_accesses s) (avg_latency_ms s)
                       (dual_epoch_accesses s) (u64_wrap (triggered_rewraps s + 1)) (network_failures s)
                       (last_network_latency_ms s));
  let* wanted := should_rewrap_file path now in
  if negb wanted then st_ret tt
  else if match status with Ok p => f64_gt (peer_error_rate p) f64_half | _ => false end then st_ret tt
  else
    let* current := st_lift (ok_or (em_current em) (FileEpoch "No current epoch available")) in
    schedule_background_rewrap path current.

Definition record_latency (latency : Z) (l : list Z) : list Z :=
  let l := l ++ [latency] in if (100 <? length l)%nat then drop 1 l else l.
Definition update_access_stats (path : string) (latency : Z) (success dual_epoch : bool) : FA unit :=
  st_put (λ f,
    let s := fa_stats f in
    let ok := if success then u64_wrap (successful_accesses s + 1) else successful_accesses s in
    let failed := if success then failed_accesses s else u64_wrap (failed_accesses s + 1) in
    let dual := if dual_epoch then u64_wrap (dual_epoch_accesses s + 1) else dual_epoch_accesses s in
    let total := u64_wrap (ok + failed) in
    let avg := f64_div (f64_add (f64_mul (avg_latency_ms s) (f64_of_u64 (u64_wrap (total + (U64 - 1)))))
                          (f64_of_u64 (Z.to_N (latency / 10 ^ 6)))) (f64_of_u64 total) in
    set_tracker (<[path := record_latency latency (default [] (fa_performance_tracker f !! path))]> (fa_performance_tracker f))
      (set_stats (mkAccessStats (total_accesses s) ok failed avg dual (triggered_rewraps s) (network_failures s)
                    (last_network_latency_ms s)) f)).

(** What one access is answered by the network and by the clock. *)
Record AccessTurn := mkAccessTurn {
  tn_status : res string PeerStatus;
  tn_status' : res string PeerStatus;
  tn_now : Z;
  tn_latency : Z;
}.
Definition access_file (em : EpochManager T W) (turn : AccessTurn) (path : string) (mode : AccessMode) : FA bytes :=
  do* refresh_network_status (tn_status turn);
  do* on_stats (λ s, mkAccessStats (u64_wrap (total_accesses s + 1)) (successful_accesses s) (failed_accesses s)
                       (avg_latency_ms s) (dual_epoch_accesses s) (triggered_rewraps s) (network_failures s)
                       (last_network_latency_ms s));
  let* first := st_try (try_access_current_epoch em path (tn_now turn)) in
  match first with
  | inr data => do* update_access_stats path (tn_latency turn) true false; st_ret data
  | inl (NotFound _) =>
      let* second := st_try (try_access_previous_epoch path) in
      match second with
      | inr data =>
          do* update_access_stats path (tn_latency turn) true true;
          do* (if decide (mode = Read) then st_ret tt
               else let* _ := st_try (trigger_opportunistic_rewrap em (tn_status' turn) path (tn_now turn)) in st_ret tt);
          st_ret data
      | inl e => do* update_access_stats path (tn_latency turn) false false; st_fail e
      end
  | inl e => do* update_access_stats path (tn_latency turn) false false; st_fail e
  end.

Definition get_stats (f : FileAccessManager C) : AccessStats := fa_stats f.
Definition get_file_performance (path : string) (f : FileAccessManager C) : option (list Z) :=
  fa_performance_tracker f !! path.
(** [LruCache::clear] pops until nothing is left. *)
Fixpoint pop_all (fuel : nat) (c : C) : C :=
  match fuel with
  | O => c
  | S fuel => pop_all fuel (lru_pop_lru c).2
  end.
Definition clear_cache (f : FileAccessManager C) : FileAccessManager C :=
  set_tracker ∅ (set_metadata_cache (pop_all (length (lru_iter (fa_metadata_cache f))) (fa_metadata_cache f)) f).
End Access.

(** ** Properties of one file *)

Section File.
Context {aead : Aead} {al : AeadLaws} {ho : HashOrder} {json : StorageJson} {chrono : ChronoAdd} {T W : Type}.
Implicit Types (em : EpochManager T W) (cur target : EpochState) (s : MockStorage).

(** The file at the path is [m], for whoever has the key. *)
Definition stored_as (path : string) (key : array 32) (m : bytes) s : Prop :=
  ∃ data, file_content s !! path = Some data ∧ open_stored path key data = Ok m.

Lemma seal_stored_opens path key drawn m data :
  seal_stored path key drawn m = Ok data → open_stored path key data = Ok m.
Proof.
  intros E. unfold seal_stored in E. apply res_bind_Ok in E as (nonce & N & E). apply res_bind_Ok in E as (k & K & E).
  apply res_bind_Ok in E as (ct & C & E). apply Ok_inj in E as <-. apply map_err_Ok in N, K, C.
  unfold open_stored. rewrite length_app, arr_length. cbn [Nat.ltb Nat.leb Nat.add].
  rewrite take_app_length', drop_app_length' by (symmetry; apply arr_length).
  unfold Nonce_from_bytes, AEAD_NONCE_LEN. rewrite array_of_arr. cbn [map_err res_bind].
  rewrite K. cbn [map_err res_bind]. by rewrite (seal_open _ _ _ _ _ _ C).
Qed.
Lemma seal_stored_total `{!AeadTotal} path key nonce m :
  (N.of_nat (length m) < 64 * 4294967295)%N → ∃ data, seal_stored path key (Ok nonce) m = Ok data.
Proof.
  intros L. unfold seal_stored. cbn [enc_err map_err res_bind]. unfold Key_from_bytes, AEAD_KEY_LEN.
  rewrite array_of_arr. cbn [enc_err map_err res_bind].
  destruct (seal_total (mkKey key) (mkNonce nonce) FileData (bytes_of path) m L) as [ct ->]. cbn. by eexists.
Qed.

(** Everything up to the transaction, which changes nothing. *)
Definition reseal (path : string) (cur target : array 32) (drawn : res CryptoError (array 12)) s : res RewrapError bytes :=
  let? old_data := load_stored path s in
  let? plaintext := file_err (open_stored path cur old_data) in
  seal_stored path target drawn plaintext.
Lemma with_current_eval path cur target a s :
  rewrap_file_with_current_epoch path cur target a s
  = match reseal path (encryption_key cur) (encryption_key target) (at_nonce a) s with
    | Ok data => store_rewrapped path target a data s
    | Err e => (Err e, s)
    | Panic => (Panic, s)
    | Diverge => (Diverge, s)
    end.
Proof.
  unfold rewrap_file_with_current_epoch, reseal, st_bind, st_get, st_lift. cbv beta iota.
  destruct (load_stored path s) as [old| | |]; cbn [res_bind]; try done.
  by destruct (file_err _) as [p| | |].
Qed.
Lemma internal_with_current em cur path target a s :
  em_current em = Some cur → rewrap_file_internal em path target a s = rewrap_file_with_current_epoch path cur target a s.
Proof.
  intros E. unfold rewrap_file_internal, rewrap_file_with_current_epoch. rewrite E. reflexivity.
Qed.

Definition store_new (path : string) (data : bytes) s : MockStorage :=
  apply_tx (TxStoreFile path data) (mock_begin_transaction s).
Lemma store_rewrapped_eval path target a data s :
  store_rewrapped path target a data s
  = match typed_file_metadata s !! path with
    | Some d => (Ok tt, apply_tx (TxStoreFileMetadataTyped path (rewrapped_metadata (epoch_id target) (at_modified a) d))
                          (store_new path data s))
    | None => (Err (RewrapFile (NotFound path)), store_new path data s)
    end.
Proof.
  unfold store_rewrapped, st_bind, st_put, st_get, st_lift, get_file_metadata, mock_get_file_metadata. cbv beta iota.
  change (typed_file_metadata (apply_tx (TxStoreFile path data) (mock_begin_transaction s))) with (typed_file_metadata s).
  by destruct (typed_file_metadata s !! path).
Qed.

Lemma reseal_stored `{!AeadTotal} path (cur target : array 32) nonce m s :
  stored_as path cur m s → (N.of_nat (length m) < 64 * 4294967295)%N →
  ∃ data, reseal path cur target (Ok nonce) s = Ok data ∧ open_stored path target data = Ok m.
Proof.
  intros (old & F & O) L. destruct (seal_stored_total path target nonce m L) as [data D]. exists data.
  split; [|by eapply seal_stored_opens]. unfold reseal, load_stored, mock_get_file. cbn [map_err res_bind]. rewrite F.
  cbn [ok_or res_bind]. rewrite O. exact D.
Qed.

(** Nothing but the path is touched. *)
Definition elsewhere (path : string) s s' : Prop :=
  ∀ p, p ≠ path → file_content s' !! p = file_content s !! p ∧ typed_file_metadata s' !! p = typed_file_metadata s !! p.
Lemma store_rewrapped_elsewhere path target a data s :
  elsewhere path s (store_rewrapped path target a data s).2.
Proof.
  intros p N. rewrite store_rewrapped_eval. destruct (typed_file_metadata s !! path) as [d|]; cbn;
    by rewrite ?lookup_insert_ne.
Qed.
Lemma with_current_elsewhere path cur target a s :
  elsewhere path s (rewrap_file_with_current_epoch path cur target a s).2.
Proof.
  rewrite with_current_eval. destruct (reseal _ _ _ _ _) as [data| | |]; try by intros p _.
  apply store_rewrapped_elsewhere.
Qed.

(** A file without metadata is stored under the new key although the answer is an error:
    nothing is rolled back, and what the current epoch could read is gone. *)
Theorem rewrap_without_metadata em cur path target a nonce m s `{!AeadTotal} :
  em_current em = Some cur → stored_as path (encryption_key cur) m s → (N.of_nat (length m) < 64 * 4294967295)%N →
  at_nonce a = Ok nonce → typed_file_metadata s !! path = None →
  ∃ s' ciphertext, rewrap_file_internal em path target a s = (Err (RewrapFile (NotFound path)), s')
    ∧ file_content s' !! path = Some (arr nonce ++ ciphertext) ∧ stored_as path (encryption_key target) m s'.
Proof.
  intros E M L D X. rewrite (internal_with_current em cur) by done. rewrite with_current_eval, D.
  destruct (reseal_stored path (encryption_key cur) (encryption_key target) nonce m s M L) as (data & R & O).
  rewrite R, store_rewrapped_eval, X.
  assert (∃ ct, data = arr nonce ++ ct) as [ct ->].
  { unfold reseal in R. apply res_bind_Ok in R as (old & _ & R). apply res_bind_Ok in R as (p & _ & R).
    unfold seal_stored in R. cbn [enc_err map_err res_bind] in R. apply res_bind_Ok in R as (k & _ & R).
    apply res_bind_Ok in R as (ct & _ & R). apply Ok_inj in R as <-. by eexists. }
  exists (store_new path (arr nonce ++ ct) s), ct. split; [done|]. cbn. rewrite lookup_insert_eq. split; [done|].
  exists (arr nonce ++ ct). cbn. by rewrite lookup_insert_eq.
Qed.
End File.

(** ** Reading *)

Section Reading.
Context {aead : Aead} {C : Type} `{LruMap string FileMetadata C} {T W : Type}.
Implicit Types (em : EpochManager T W) (f : FileAccessManager C).

Definition read_result em (path : string) (s : MockStorage) : res FileError bytes :=
  match em_current em with
  | None => Err (FileEpoch "No current epoch available")
  | Some cur => match file_content s !! path with
                | None => Err (NotFound path)
                | Some data => open_stored path (encryption_key cur) data
                end
  end.

(** Reading: an attempt under the current epoch. *)
Lemma try_current_eval em path now f :
  ∃ c, try_access_current_epoch em path now f = (read_result em path (fa_storage f), set_metadata_cache c f).
Proof.
  assert (f = set_metadata_cache (fa_metadata_cache f) f) as F by by destruct f.
  unfold try_access_current_epoch, read_result, st_bind, st_lift. destruct (em_current em) as [cur|]; cbn [ok_or].
  2: by exists (fa_metadata_cache f); rewrite <-F.
  unfold decrypt_file_with_epoch, st_bind, st_get, st_lift, mock_get_file. cbn [map_err].
  destruct (file_content (fa_storage f) !! path) as [data|]; cbn [ok_or].
  2: by exists (fa_metadata_cache f); rewrite <-F.
  destruct (open_stored _ _ data) as [p| | |]; try by exists (fa_metadata_cache f); rewrite <-F.
  unfold update_metadata_cache. destruct (lru_get_mut _ _ _) as [[d|] c]; by eexists.
Qed.
Lemma open_stored_settles path key data : settles (open_stored path key data).
Proof.
  unfold open_stored. destruct (_ <? _)%nat; [done|].
  unfold Nonce_from_bytes, Key_from_bytes. destruct (array_of AEAD_NONCE_LEN _); [|done].
  destruct (array_of AEAD_KEY_LEN _); [|done]. cbn [map_err res_bind]. unfold open. by destruct (chacha_decrypt _ _ _ _).
Qed.

(** What an access does to the manager, whatever it finds. *)
Definition counted (ok : bool) f f' : Prop :=
  fa_storage f' = fa_storage f
  ∧ total_accesses (fa_stats f') = u64_wrap (total_accesses (fa_stats f) + 1)
  ∧ successful_accesses (fa_stats f')
    = (if ok then u64_wrap (successful_accesses (fa_stats f) + 1) else successful_accesses (fa_stats f))
  ∧ failed_accesses (fa_stats f')
    = (if ok then failed_accesses (fa_stats f) else u64_wrap (failed_accesses (fa_stats f) + 1))
  ∧ dual_epoch_accesses (fa_stats f') = dual_epoch_accesses (fa_stats f)
  ∧ triggered_rewraps (fa_stats f') = triggered_rewraps (fa_stats f).
Lemma access_eval em turn path mode f :
  ∃ f', access_file em turn path mode f = (read_result em path (fa_storage f), f')
    ∧ counted (match read_result em path (fa_storage f) with Ok _ => true | _ => false end) f f'.
Proof.
  unfold access_file, refresh_network_status, on_stats, update_access_stats, try_access_previous_epoch.
  unfold st_bind at 1 2 3, st_put at 1 2. cbv beta iota.
  set (f1 := set_stats _ (set_stats _ f)). unfold st_try at 1.
  destruct (try_current_eval em path (tn_now turn) f1) as [c ->].
  change (fa_storage f1) with (fa_storage f).
  assert (settles (read_result em path (fa_storage f))) as S.
  { unfold read_result. destruct (em_current em) as [cur|]; [|done]. destruct (_ !! path); [|done]. apply open_stored_settles. }
  destruct (read_result em path (fa_storage f)) as [p|e| |] eqn:R; try done.
  - eexists. split; [reflexivity|]. subst f1. destruct (tn_status turn); done.
  - assert (∀ e', match e with NotFound _ => e' = NotFound path | _ => e' = e end → e' = e) as X.
    { intros e' He. destruct e; subst; try done. unfold read_result in R. destruct (em_current em); [|done].
      destruct (_ !! path); [|congruence]. unfold open_stored in R. destruct (_ <? _)%nat; [done|].
      unfold Nonce_from_bytes, Key_from_bytes in R. destruct (array_of AEAD_NONCE_LEN _); [|done].
      destruct (array_of AEAD_KEY_LEN _); [|done]. cbn [map_err res_bind] in R. unfold open in R.
      by destruct (chacha_decrypt _ _ _ _). }
    destruct e; try (eexists; split; [reflexivity|]; subst f1; destruct (tn_status turn); done).
    unfold st_try, st_fail, st_bind, st_put. cbv beta iota. eexists. split; [by rewrite (X (NotFound path) eq_refl)|].
    subst f1. destruct (tn_status turn); done.
Qed.

(** The managers that come about: whatever happens to the files meanwhile. *)
Inductive access_step : FileAccessManager C → FileAccessManager C → Prop :=
| StepAccess em turn path mode f : access_step f (access_file em turn path mode f).2
| StepContext user f : access_step f (set_user_context user f)
| StepClear f : access_step f (clear_cache f)
| StepFiles s f : access_step f (mkFileAccessManager s (fa_user_context f) (fa_stats f) (fa_metadata_cache f)
                                   (fa_performance_tracker f)).

(** The second epoch is never used: whatever is read, in whichever order, under whichever
    epochs, no access is ever counted as one of the previous epoch and no rewrap is ever
    triggered; every access is counted once, as successful or as failed. *)
Theorem access_single_epoch s user limit f :
  rtc access_step (FileAccessManager_new s user limit) f →
  dual_epoch_accesses (get_stats f) = 0%N ∧ triggered_rewraps (get_stats f) = 0%N
  ∧ total_accesses (get_stats f) = u64_wrap (successful_accesses (get_stats f) + failed_accesses (get_stats f)).
Proof.
  unfold get_stats. intros R. remember (FileAccessManager_new s user limit) as f0 eqn:F0.
  assert (dual_epoch_accesses (fa_stats f0) = 0%N ∧ triggered_rewraps (fa_stats f0) = 0%N
    ∧ total_accesses (fa_stats f0) = u64_wrap (successful_accesses (fa_stats f0) + failed_accesses (fa_stats f0))) as I
    by by subst.
  clear F0. induction R as [f|f f1 f2 X R IH]; [done|]. apply IH. destruct I as (I1 & I2 & I3).
  destruct X as [em turn path mode f| | |]; try done.
  destruct (access_eval em turn path mode f) as (f' & -> & _ & Ct & Cs & Cf & Cd & Cr). cbn [snd].
  rewrite Ct, Cs, Cf, Cd, Cr, I1, I2, I3. split_and!; [done..|]. unfold u64_wrap.
  destruct (match read_result em path (fa_storage f) with Ok _ => true | _ => false end).
  - rewrite !N.Div0.add_mod_idemp_l. f_equal. lia.
  - rewrite N.Div0.add_mod_idemp_l, N.Div0.add_mod_idemp_r. f_equal. lia.
Qed.
End Reading.

Section Both.
Context {aead : Aead} {al : AeadLaws} {at_ : AeadTotal} {ho : HashOrder} {json : StorageJson} {chrono : ChronoAdd}.
Context {C : Type} `{LruMap string FileMetadata C} {T W : Type}.
Implicit Types (em : EpochManager T W) (cur target : EpochState) (s : MockStorage).

End Both.

(** ** The queue *)

Section Queue.
Context {aead : Aead} {ho : HashOrder} {json : StorageJson} {chrono : ChronoAdd} {T W : Type}.
Implicit Types (em : EpochManager T W) (m : RewrapManager) (q : list RewrapTask).

(** The tasks stand in an order in which none precedes one before it. *)
Definition in_order q : Prop := StronglySorted (λ a b, task_precedes b a = false) q.

(** The order as one on numbers. *)
Lemma precedes_iff a b :
  task_precedes a b = true ↔
  (rt_priority b < rt_priority a)%N
  ∨ rt_priority a = rt_priority b
    ∧ ((rt_access_frequency b < rt_access_frequency a)%N
       ∨ rt_access_frequency a = rt_access_frequency b
         ∧ ((rt_estimated_size a < rt_estimated_size b)%N
            ∨ rt_estimated_size a = rt_estimated_size b ∧ (rt_created_at a < rt_created_at b)%Z)).
Proof.
  unfold task_precedes. destruct (N.eqb_spec (rt_priority a) (rt_priority b)); cbn [negb]; [|rewrite N.ltb_lt; lia].
  destruct (N.eqb_spec (rt_access_frequency a) (rt_access_frequency b)); cbn [negb]; [|rewrite N.ltb_lt; lia].
  destruct (N.eqb_spec (rt_estimated_size a) (rt_estimated_size b)); cbn [negb]; [|rewrite N.ltb_lt; lia].
  rewrite Z.ltb_lt. lia.
Qed.
Lemma precedes_asym a b : task_precedes a b = true → task_precedes b a = false.
Proof. intros P. apply not_true_is_false. intros Q. apply precedes_iff in P, Q. lia. Qed.
Lemma not_precedes_trans a b c : task_precedes b a = false → task_precedes c b = false → task_precedes c a = false.
Proof.
  intros P Q. apply not_true_iff_false in P, Q. apply not_true_iff_false. rewrite precedes_iff in *. lia.
Qed.

Lemma insert_task_perm q t : insert_task q t ≡ₚ t :: q.
Proof.
  induction q as [|x q IH]; cbn [insert_task]; [done|]. destruct (task_precedes t x); [done|]. rewrite IH.
  apply Permutation_swap.
Qed.
Lemma insert_task_in_order q t : in_order q → in_order (insert_task q t).
Proof.
  unfold in_order. induction 1 as [|x q S IH F]; cbn [insert_task]; [by repeat constructor|].
  destruct (task_precedes t x) eqn:P.
  - constructor; [by constructor|]. constructor; [by apply precedes_asym|].
    eapply list.Forall_impl; [exact F|]. cbn. intros y Y. by apply (not_precedes_trans t x y); [apply precedes_asym|].
  - constructor; [done|]. apply list.Forall_forall. intros y Y. rewrite insert_task_perm in Y.
    apply list.elem_of_cons in Y as [-> |Y]; [done|]. by eapply list.Forall_forall in F.
Qed.

(** What rewrapping one file leaves as it is. *)
Definition queue_kept m0 m : Prop :=
  rm_task_queue m = rm_task_queue m0 ∧ rm_config m = rm_config m0 ∧ rm_queue_poisoned m = rm_queue_poisoned m0.
Lemma update_history_keeps m0 a t : keeps (queue_kept m0) (update_throughput_history a t).
Proof.
  intros m K. unfold update_throughput_history. destruct (rm_progress_poisoned m); [done|]. cbv zeta.
  destruct (f64_gt _ _); [|done]. by destruct (seconds_later _ _).
Qed.
Lemma on_progress_keeps m0 f : keeps (queue_kept m0) (on_progress f).
Proof. intros m K. unfold on_progress. by destruct (rm_progress_poisoned m). Qed.
Lemma on_storage_keeps m0 {A} (f : ST MockStorage RewrapError A) : keeps (queue_kept m0) (on_storage f).
Proof. intros m K. unfold on_storage. by destruct (f (rm_storage m)). Qed.
Lemma rewrap_file_keeps m0 em path target a : keeps (queue_kept m0) (rewrap_file em path target a).
Proof.
  unfold rewrap_file. keep_st; auto using on_progress_keeps, on_storage_keeps, update_history_keeps, keeps_lift, keeps_ret.
Qed.

Definition weight (max_retries : N) q : nat := sum_list (tries_left max_retries <$> q).
Lemma weight_insert k q t : weight k (insert_task q t) = tries_left k t + weight k q.
Proof. unfold weight. by rewrite insert_task_perm. Qed.
Lemma tries_left_retry k t path prio size freq now :
  (rt_retry_count t < k)%N →
  tries_left k t = tries_left k (mkRewrapTask path prio (rt_retry_count t + 1) size freq now) + 1.
Proof. unfold tries_left. cbn. lia. Qed.

(** The loop over any property of the manager that its attempts keep. *)
Lemma process_loop_ind (P : RewrapManager → Prop) em target turns :
  (∀ m t q n, P m → rm_task_queue m = t :: q →
     P (let '(r, m1) := rewrap_file em (rt_path t) target (turns n).1 (set_queue q m) in
        match r with
        | Err _ => if (rt_retry_count t <? rc_max_retries (rm_config m))%N
                   then set_queue (insert_task q (mkRewrapTask (rt_path t) (rt_priority t) (rt_retry_count t + 1)
                          (rt_estimated_size t) (rt_access_frequency t) (turns n).2)) m1
                   else m1
        | _ => m1
        end)) →
  ∀ fuel n m, P m → P (process_loop fuel em target turns n m).2.
Proof.
  intros St. induction fuel as [|fuel IH]; intros n m M; cbn [process_loop]; rewrite st_bind_get;
    (destruct (rm_queue_poisoned m); [done|]); destruct (rm_task_queue m) as [|t q] eqn:Q; try done.
  specialize (St m t q n M Q). unfold st_bind at 1, st_put at 1. unfold st_bind at 1, st_try.
  pose proof (rewrap_file_keeps (set_queue q m) em (rt_path t) target (turns n).1 (set_queue q m)) as K.
  destruct (rewrap_file em _ target _ _) as [[[]|e| |] m1] eqn:R; try exact St.
  - unfold st_bind, st_ret. by apply IH.
  - destruct (_ <? _)%N.
    + unfold st_bind at 1 2, st_get, st_put. cbv beta iota. cbn [snd] in K.
      destruct K as (Kq & _ & _); [done|]. rewrite Kq. by apply IH.
    + unfold st_bind, st_ret. by apply IH.
Qed.

Lemma process_loop_in_order em target turns fuel n m :
  in_order (rm_task_queue m) → in_order (rm_task_queue (process_loop fuel em target turns n m).2).
Proof.
  apply (process_loop_ind (λ m, in_order (rm_task_queue m))). clear n m. intros m t q n O Q. rewrite Q in O. apply StronglySorted_inv in O as [O _].
  pose proof (rewrap_file_keeps (set_queue q m) em (rt_path t) target (turns n).1 (set_queue q m)) as K.
  destruct (rewrap_file em _ target _ _) as [r m1]. destruct K as (Kq & _ & _); [done|]. cbn in Kq.
  destruct r; [by rewrite Kq| |by rewrite Kq..]. destruct (_ <? _)%N; [|by rewrite Kq]. by apply insert_task_in_order.
Qed.

(** ** The end of [process_queue] *)

(** A settled attempt does not wait for ever, and panics only with the progress poisoned. *)
Definition good_end {A} (r : res RewrapError A) m : Prop :=
  match r with Ok _ | Err _ => True | Panic => rm_progress_poisoned m = true | Diverge => False end.
Lemma internal_settles em path target a s : settles (at_nonce a) → settles (rewrap_file_internal em path target a s).1.
Proof.
  intros N. unfold rewrap_file_internal, st_bind, st_get, st_lift, load_stored, mock_get_file. cbn [map_err res_bind].
  destruct (file_content s !! path) as [old|]; cbn [ok_or]; [|done]. destruct (em_current em) as [cur|]; cbn [ok_or]; [|done].
  pose proof (open_stored_settles path (encryption_key cur) old) as O.
  destruct (open_stored _ _ old) as [p| | |]; cbn [file_err map_err]; try done.
  assert (settles (seal_stored path (encryption_key target) (at_nonce a) p)) as Z.
  { unfold seal_stored, Key_from_bytes, AEAD_KEY_LEN. destruct (at_nonce a); try done. cbn [enc_err map_err res_bind].
    rewrite array_of_arr. cbn [enc_err map_err res_bind]. unfold seal. by destruct (chacha_encrypt _ _ _ _). }
  destruct (seal_stored _ _ _ _) as [data| | |]; try done. rewrite store_rewrapped_eval.
  by destruct (typed_file_metadata s !! path).
Qed.
Lemma rewrap_file_ends em path target a m :
  (0 < rc_max_concurrent (rm_config m))%N → settles (at_nonce a) →
  let '(r, m') := rewrap_file em path target a m in good_end r m'.
Proof.
  intros C N. unfold rewrap_file. rewrite st_bind_get. rewrite (proj2 (N.eqb_neq _ _)) by lia.
  unfold st_bind at 1, on_progress at 1. destruct (rm_progress_poisoned m) eqn:P; [done|].
  unfold st_bind at 1, st_try, on_storage. pose proof (internal_settles em path target a (rm_storage m) N) as I.
  change (rm_storage (set_progress (started (rm_progress m)) m)) with (rm_storage m).
  destruct (rewrap_file_internal em path target a (rm_storage m)) as [[[]|e| |] s]; try done.
  - unfold st_bind at 1, on_progress at 1.
    change (rm_progress_poisoned (set_storage s (set_progress (started (rm_progress m)) m))) with (rm_progress_poisoned m).
    rewrite P. unfold st_bind at 1. rewrite st_bind_get. destruct (get_file_metadata path _); try done.
    unfold st_bind, on_progress. cbn [rm_progress_poisoned set_progress set_storage]. rewrite P.
    unfold update_throughput_history. cbn [rm_progress_poisoned set_progress set_storage]. rewrite P. cbv zeta.
    destruct (f64_gt _ _); [|done]. by destruct (seconds_later _ _).
  - unfold st_bind, on_progress. cbn [rm_progress_poisoned set_progress set_storage]. by rewrite P.
Qed.

Lemma process_loop_ends em target turns fuel n m :
  (0 < rc_max_concurrent (rm_config m))%N → (∀ i, settles (at_nonce (turns i).1)) → rm_queue_poisoned m = false →
  weight (rc_max_retries (rm_config m)) (rm_task_queue m) ≤ fuel →
  match process_loop fuel em target turns n m with
  | (Ok n', m') => rm_task_queue m' = [] ∧ n' ≤ n + weight (rc_max_retries (rm_config m)) (rm_task_queue m)
  | (Panic, m') => rm_progress_poisoned m' = true
  | _ => False
  end.
Proof.
  intros C N. revert n m C. induction fuel as [|fuel IH]; intros n m C P L; cbn [process_loop]; rewrite st_bind_get, P;
    (destruct (rm_task_queue m) as [|t q] eqn:Q; [unfold st_ret; rewrite Q; split; [done|lia]|]).
  { cbn [weight fmap list_fmap sum_list] in L. unfold weight, tries_left in L. cbn in L. lia. }
  unfold st_bind at 1, st_put at 1. unfold st_bind at 1, st_try.
  pose proof (rewrap_file_keeps (set_queue q m) em (rt_path t) target (turns n).1 (set_queue q m)) as K.
  pose proof (rewrap_file_ends em (rt_path t) target (turns n).1 (set_queue q m) C (N n)) as G.
  assert (weight (rc_max_retries (rm_config m)) (t :: q)
    = tries_left (rc_max_retries (rm_config m)) t + weight (rc_max_retries (rm_config m)) q) as Wt by done.
  assert (0 < tries_left (rc_max_retries (rm_config m)) t) as T0 by (unfold tries_left; lia).
  destruct (rewrap_file em _ target _ _) as [r m1]. cbn [snd] in K. destruct K as (Kq & Kc & Kp); [done|].
  cbn in Kq, Kc, Kp.
  assert (∀ m2, rm_config m2 = rm_config m → rm_queue_poisoned m2 = false →
    weight (rc_max_retries (rm_config m)) (rm_task_queue m2) + 1 ≤ weight (rc_max_retries (rm_config m)) (t :: q) →
    match process_loop fuel em target turns (n + 1) m2 with
    | (Ok n', m') => rm_task_queue m' = [] ∧ n' ≤ n + weight (rc_max_retries (rm_config m)) (t :: q)
    | (Panic, m') => rm_progress_poisoned m' = true
    | _ => False
    end) as Go.
  { intros m2 C2 P2 L2. specialize (IH (n + 1) m2). rewrite C2 in IH.
    destruct (process_loop fuel em target turns (n + 1) m2) as [[n'| | |] m']; try (apply IH; [done..|lia]).
    destruct IH as [IH1 IH2]; [done..|lia|]. split; [done|lia]. }
  destruct r as [[]|e| |]; try done.
  - unfold st_bind, st_ret. apply Go; [done|congruence|]. rewrite Kq. lia.
  - destruct (_ <? _)%N eqn:R.
    + unfold st_bind at 1 2, st_get, st_put. cbv beta iota. apply Go; [done|cbn; congruence|]. cbn [rm_task_queue set_queue].
      rewrite Kq, weight_insert, Wt. apply N.ltb_lt in R.
      rewrite (tries_left_retry _ t (rt_path t) (rt_priority t) (rt_estimated_size t) (rt_access_frequency t) (turns n).2 R). lia.
    + unfold st_bind, st_ret. apply Go; [done|congruence|]. rewrite Kq. lia.
Qed.

End Queue.

(** ** The manager over time *)

Section Manager.
Context {aead : Aead} {ho : HashOrder} {json : StorageJson} {chrono : ChronoAdd} {T W : Type}.
Implicit Types (em : EpochManager T W) (m : RewrapManager) (q : list RewrapTask).

(** Whatever is called, and whatever else happens to the store. *)
Inductive manager_step : RewrapManager → RewrapManager → Prop :=
| StepQueue path priority now m : manager_step m (queue_rewrap path priority now m).2
| StepProcess em target turns m : manager_step m (process_queue em target turns m).2
| StepRewrap em path target a m : manager_step m (rewrap_file em path target a m).2
| StepBatch em k jobs target m : manager_step m (process_batch em k jobs target m).2
| StepStore s m : manager_step m (set_storage s m).

Lemma process_queue_state em target turns m :
  (process_queue em target turns m).2 = (process_loop (queue_fuel m) em target turns 0 m).2.
Proof. unfold process_queue, st_bind. by destruct (process_loop _ _ _ _ _ m) as [[] ?]. Qed.
Lemma queue_rewrap_queue path priority now m :
  in_order (rm_task_queue m) → in_order (rm_task_queue (queue_rewrap path priority now m).2).
Proof.
  intros O. unfold queue_rewrap. rewrite st_bind_get, st_bind_lift.
  destruct (get_file_metadata path (rm_storage m)); try done. cbv zeta. destruct (rm_queue_poisoned m); [done|].
  unfold st_bind at 1, st_put at 1. destruct (rm_progress_poisoned m) eqn:P; cbn.
  - by apply insert_task_in_order.
  - unfold on_progress. cbn. rewrite P. by apply insert_task_in_order.
Qed.
Lemma process_batch_queue em k jobs target m :
  rm_task_queue (process_batch em k jobs target m).2 = rm_task_queue m.
Proof.
  unfold process_batch. rewrite st_bind_get. cbv zeta. rewrite st_bind_lift. destruct (em_current em); cbn [ok_or]; [|done].
  destruct (_ =? _)%N; [done|]. by destruct (run_chunks _ _ _ _).
Qed.

(** The task that is taken next is one that no other precedes, whatever was done before. *)
Theorem next_task_is_first s config m0 m t q :
  RewrapManager_new s config = Ok m0 → rtc manager_step m0 m → rm_task_queue m = t :: q →
  Forall (λ t', task_precedes t' t = false) q.
Proof.
  intros N R Q. assert (in_order (rm_task_queue m)) as O; [|rewrite Q in O; by apply StronglySorted_inv in O as [_ O]].
  clear Q. assert (in_order (rm_task_queue m0)) as O0.
  { unfold RewrapManager_new in N. destruct (_ <? _)%N; [done|]. apply Ok_inj in N as <-. constructor. }
  clear N. induction R as [m|m m1 m2 X R IH]; [done|]. apply IH. destruct X.
  - by apply queue_rewrap_queue.
  - rewrite process_queue_state. by apply process_loop_in_order.
  - destruct (rewrap_file_keeps m em path target a m) as (-> & _ & _); done.
  - by rewrite process_batch_queue.
  - done.
Qed.

(** ** The bytes that remain *)

Definition size_at (path : string) (s : MockStorage) : option N := tf_size <$> typed_file_metadata s !! path.
Lemma internal_sizes em path target a s p : size_at p (rewrap_file_internal em path target a s).2 = size_at p s.
Proof.
  unfold rewrap_file_internal. rewrite st_bind_get, st_bind_lift. destruct (load_stored path s); try done.
  rewrite st_bind_lift. destruct (em_current em); cbn [ok_or]; [|done]. rewrite st_bind_lift.
  destruct (file_err _); try done. rewrite st_bind_lift. destruct (seal_stored _ _ _ _); try done.
  rewrite store_rewrapped_eval. unfold size_at. destruct (typed_file_metadata s !! path) as [d|] eqn:D; [|done]. cbn.
  destruct (decide (p = path)) as [-> |N]; [|by rewrite lookup_insert_ne]. by rewrite lookup_insert_eq, D.
Qed.

(** What an attempt adds to the completed bytes. *)
Lemma rewrap_file_bytes em path target a m :
  let '(r, m1) := rewrap_file em path target a m in
  (∀ p, size_at p (rm_storage m1) = size_at p (rm_storage m))
  ∧ total_bytes (rm_progress m1) = total_bytes (rm_progress m)
  ∧ (completed_bytes (rm_progress m1) = completed_bytes (rm_progress m)
     ∨ (∀ e, r ≠ Err e) ∧ ∃ size, size_at path (rm_storage m) = Some size
       ∧ completed_bytes (rm_progress m1) = u64_wrap (completed_bytes (rm_progress m) + size)).
Proof.
  unfold rewrap_file. rewrite st_bind_get. destruct (_ =? _)%N; [by cbn; auto|].
  unfold st_bind at 1, on_progress at 1. destruct (rm_progress_poisoned m) eqn:P; [by cbn; auto|].
  unfold st_bind at 1, st_try, on_storage. pose proof (λ p, internal_sizes em path target a (rm_storage m) p) as Z.
  change (rm_storage (set_progress (started (rm_progress m)) m)) with (rm_storage m).
  destruct (rewrap_file_internal em path target a (rm_storage m)) as [[[]|e| |] s]; cbn [snd] in Z; try by cbn; auto.
  - unfold st_bind at 1, on_progress at 1. cbn [rm_progress_poisoned set_progress set_storage]. rewrite P.
    unfold st_bind at 1. rewrite st_bind_get. unfold get_file_metadata, mock_get_file_metadata.
    cbn [rm_storage set_progress set_storage].
    destruct (typed_file_metadata s !! path) as [d|] eqn:D; cbn [ok_or]; [|by cbn; auto].
    assert (size_at path (rm_storage m) = Some (tf_size d)) as Sz by by rewrite <-Z; unfold size_at; rewrite D.
    unfold st_bind, on_progress. cbn [rm_progress_poisoned set_progress set_storage]. rewrite P.
    unfold update_throughput_history. cbn [rm_progress_poisoned set_progress set_storage]. rewrite P. cbv zeta.
    destruct (f64_gt _ _); [destruct (seconds_later _ _)|]; cbn; (split_and!; [done..|right; split; [done|by eexists]]).
  - unfold st_bind, on_progress. cbn [rm_progress_poisoned set_progress set_storage]. rewrite P. by cbn; auto.
Qed.

(** The bytes of the queued files are in the total and not among the completed ones. *)
Definition queued_bytes q : N := foldr N.add 0%N (rt_estimated_size <$> q).
Definition accounts m : Prop :=
  Forall (λ t, size_at (rt_path t) (rm_storage m) = Some (rt_estimated_size t)) (rm_task_queue m)
  ∧ (completed_bytes (rm_progress m) + queued_bytes (rm_task_queue m) ≤ total_bytes (rm_progress m) < U64)%N.
Lemma queued_bytes_insert q t : queued_bytes (insert_task q t) = (rt_estimated_size t + queued_bytes q)%N.
Proof.
  unfold queued_bytes. induction q as [|x q IH]; cbn [insert_task]; [done|]. destruct (task_precedes t x); [done|].
  cbn. rewrite IH. lia.
Qed.

Lemma process_loop_accounts em target turns fuel n m :
  accounts m → accounts (process_loop fuel em target turns n m).2.
Proof.
  apply (process_loop_ind accounts). clear n m. intros m t q n [F A] Q. rewrite Q in F, A.
  apply list.Forall_cons in F as [Ft F]. cbn [queued_bytes fmap list_fmap foldr] in A. fold (queued_bytes q) in A.
  pose proof (rewrap_file_keeps (set_queue q m) em (rt_path t) target (turns n).1 (set_queue q m)) as K.
  pose proof (rewrap_file_bytes em (rt_path t) target (turns n).1 (set_queue q m)) as B.
  destruct (rewrap_file em _ target _ _) as [r m1]. destruct K as (Kq & _ & _); [done|]. cbn in Kq.
  destruct B as (Bs & Bt & Bc). cbn [rm_storage rm_progress set_queue] in Bs, Bt, Bc.
  assert (Forall (λ t, size_at (rt_path t) (rm_storage m1) = Some (rt_estimated_size t)) q) as F1.
  { eapply list.Forall_impl; [exact F|]. cbn. intros x X. by rewrite Bs. }
  assert (accounts m1) as A1.
  { split; rewrite Kq; [done|]. rewrite Bt. destruct Bc as [-> |(_ & size & Sz & ->)]; [lia|].
    rewrite Ft in Sz. injection Sz as <-. unfold u64_wrap. rewrite N.mod_small; lia. }
  destruct r as [|e| |]; try exact A1. destruct (_ <? _)%N; [|exact A1].
  destruct Bc as [Bc|(X & _)]; [|by destruct (X e)]. split; cbn [rm_storage rm_progress rm_task_queue set_queue].
  - apply list.Forall_forall. intros x X. rewrite insert_task_perm in X. apply list.elem_of_cons in X as [-> |X].
    + cbn. by rewrite Bs.
    + by eapply list.Forall_forall in F1.
  - rewrite queued_bytes_insert, Bt, Bc. cbn. lia.
Qed.

(** A poisoned lock stays so. *)
Abbreviation poisoned := (λ m : RewrapManager, rm_progress_poisoned m = true).
Lemma rewrap_file_poisoned em path target a : keeps poisoned (rewrap_file em path target a).
Proof.
  intros m P. unfold rewrap_file. rewrite st_bind_get. destruct (_ =? _)%N; [done|].
  unfold st_bind at 1, on_progress at 1. by rewrite P.
Qed.
Lemma process_queue_poisoned em target turns m : poisoned m → poisoned (process_queue em target turns m).2.
Proof.
  rewrite process_queue_state. apply (process_loop_ind poisoned). clear m. intros m t q n P Q.
  pose proof (rewrap_file_poisoned em (rt_path t) target (turns n).1 (set_queue q m) P) as K.
  destruct (rewrap_file em _ target _ _) as [[] m1]; try done. by destruct (_ <? _)%N.
Qed.
Lemma queue_rewrap_poisoned path priority now m :
  rm_progress_poisoned (queue_rewrap path priority now m).2 = rm_progress_poisoned m.
Proof.
  unfold queue_rewrap. rewrite st_bind_get, st_bind_lift. destruct (get_file_metadata _ _); try done. cbv zeta.
  destruct (rm_queue_poisoned m); [done|]. unfold st_bind at 1, st_put at 1. destruct (rm_progress_poisoned m) eqn:P; [done|].
  unfold on_progress. cbn [rm_progress_poisoned set_queue]. by rewrite P.
Qed.

(** Files enter by the queue only, and their sizes add up to less than 2^64. *)
Inductive queue_step : RewrapManager → RewrapManager → Prop :=
| QueueAdd path priority now size m :
    size_at path (rm_storage m) = Some size → (total_bytes (rm_progress m) + size < U64)%N →
    queue_step m (queue_rewrap path priority now m).2
| QueueProcess em target turns m : queue_step m (process_queue em target turns m).2.

Lemma queue_rewrap_accounts path priority now size m :
  size_at path (rm_storage m) = Some size → (total_bytes (rm_progress m) + size < U64)%N →
  accounts m ∧ rm_progress_poisoned m = false → accounts (queue_rewrap path priority now m).2.
Proof.
  intros Sz L [[F A] P]. unfold queue_rewrap, get_file_metadata, mock_get_file_metadata. rewrite st_bind_get, st_bind_lift.
  unfold size_at in Sz. destruct (typed_file_metadata _ !! path) as [d|] eqn:D; [|done]. injection Sz as Sz. cbn [ok_or].
  cbv zeta. destruct (rm_queue_poisoned m); [by split|]. unfold st_bind at 1, st_put at 1. rewrite P. unfold on_progress.
  cbn [rm_progress_poisoned set_queue]. rewrite P. split; cbn [snd rm_storage rm_progress rm_task_queue set_queue set_progress].
  - apply list.Forall_forall. intros x X. rewrite insert_task_perm in X. apply list.elem_of_cons in X as [-> |X].
    + cbn. unfold size_at. by rewrite D.
    + by eapply list.Forall_forall in F.
  - cbn [completed_bytes total_bytes]. rewrite queued_bytes_insert. cbn [rt_estimated_size]. unfold u64_wrap.
    rewrite N.mod_small; lia.
Qed.

(** As long as files are rewrapped through the queue only, what is reported as completed never
    exceeds the total and the remaining bytes are their difference. *)
Theorem queue_progress_sound s config m0 m :
  RewrapManager_new s config = Ok m0 → rtc queue_step m0 m → rm_progress_poisoned m = false →
  (completed_bytes (rm_progress m) ≤ total_bytes (rm_progress m))%N
  ∧ remaining_bytes (rm_progress m) = (total_bytes (rm_progress m) - completed_bytes (rm_progress m))%N.
Proof.
  intros N R P. assert (poisoned m ∨ accounts m) as [A|[_ A]]; [|congruence|].
  { assert (poisoned m0 ∨ accounts m0) as A0.
    { right. unfold RewrapManager_new in N. destruct (_ <? _)%N; [done|]. apply Ok_inj in N as <-. split; [constructor|done]. }
    clear N P. induction R as [m|m m1 m2 X R IH]; [done|]. apply IH.
    destruct X as [path priority now size m Sz L|em target turns m].
    - destruct (rm_progress_poisoned m) eqn:P; [left; by rewrite queue_rewrap_poisoned|].
      destruct A0 as [?|A0]; [done|]. right. by eapply queue_rewrap_accounts.
    - destruct A0 as [A0|A0]; [left; by apply process_queue_poisoned|]. right. rewrite process_queue_state.
      by apply process_loop_accounts. }
  split; [lia|]. unfold remaining_bytes, u64_wrap.
  replace (_ + (U64 - _))%N with (total_bytes (rm_progress m) - completed_bytes (rm_progress m) + 1 * U64)%N by lia.
  rewrite N.Div0.mod_add, N.mod_small; lia.
Qed.

(** A file that is rewrapped without having been queued is completed but not in the total: the
    bytes that remain are then nearly 2^64, for a new manager and a file that is not empty. *)
Theorem unqueued_rewrap_underflows s config m0 em path target a d r m :
  RewrapManager_new s config = Ok m0 → rewrap_file em path target a m0 = (r, m) → settles (at_nonce a) →
  (∀ e, r ≠ Err e) → r ≠ Diverge → typed_file_metadata s !! path = Some d → (0 < tf_size d < U64)%N →
  completed_bytes (rm_progress m) = tf_size d ∧ total_bytes (rm_progress m) = 0%N
  ∧ remaining_bytes (rm_progress m) = (U64 - tf_size d)%N.
Proof.
  intros N E NS R R' D L. unfold RewrapManager_new in N. destruct (_ <? _)%N; [done|]. apply Ok_inj in N. subst m0.
  unfold rewrap_file in E. rewrite st_bind_get in E. destruct (_ =? _)%N; [by injection E as <- _|].
  unfold st_bind at 1, on_progress at 1 in E. cbn [rm_progress_poisoned rm_progress] in E.
  unfold st_bind at 1, st_try, on_storage in E. cbn [rm_storage set_progress] in E.
  pose proof (internal_sizes em path target a s path) as Z. pose proof (internal_settles em path target a s NS) as I.
  destruct (rewrap_file_internal em path target a s) as [[[]|e| |] s1]; cbn [snd] in Z; try done.
  - unfold st_bind at 1, on_progress at 1 in E. cbn [rm_progress_poisoned set_progress set_storage] in E.
    unfold st_bind at 1 in E. rewrite st_bind_get in E. unfold get_file_metadata, mock_get_file_metadata in E.
    cbn [rm_storage set_progress set_storage] in E. unfold size_at in Z. rewrite D in Z.
    destruct (typed_file_metadata s1 !! path) as [d1|]; [|done]. injection Z as Z. cbn [ok_or] in E.
    unfold st_bind, on_progress in E. cbn [rm_progress_poisoned set_progress set_storage] in E.
    unfold update_throughput_history in E. cbn [rm_progress_poisoned set_progress set_storage] in E. cbv zeta in E.
    assert (completed_bytes (rm_progress m) = tf_size d ∧ total_bytes (rm_progress m) = 0%N) as [Ec Et].
    { rewrite <-Z. unfold u64_wrap in E.
      destruct (f64_gt _ _); [destruct (seconds_later _ _)|]; injection E as _ <-; cbn; (split; [|done]);
        unfold u64_wrap; rewrite N.mod_small; lia. }
    split_and!; [done..|]. unfold remaining_bytes. rewrite Ec, Et. unfold u64_wrap. rewrite N.mod_small; lia.
  - unfold st_bind, on_progress, st_ret, st_lift in E. cbn in E. injection E as <- _. by destruct (R e).
Qed.
End Manager.

(** ** Concurrent tasks *)

Section Schedules.
Context {aead : Aead} {ho : HashOrder} {json : StorageJson} {chrono : ChronoAdd} {T W : Type}.
Context (cur target : EpochState).
Implicit Types (s : MockStorage) (j : string * Attempt) (t : TaskState).
Abbreviation Job := (string * Attempt)%type.
Abbreviation step := (task_step cur target).

(** What a step reads is at its own path, and what it writes does not depend on what it read. *)
Definition same_at (path : string) s s' : Prop :=
  file_content s' !! path = file_content s !! path ∧ typed_file_metadata s' !! path = typed_file_metadata s !! path.
Definition writes j t s : MockStorage := (step j t s).2.

Lemma step_reads j t s s' : same_at j.1 s s' → (step j t s').1 = (step j t s).1.
Proof.
  intros [C M]. destruct j as [path a], t; try done; cbn in *.
  - unfold load_stored, mock_get_file. by rewrite C.
  - unfold get_file_metadata, mock_get_file_metadata. by rewrite M.
Qed.
Lemma step_elsewhere j t s p : p ≠ j.1 → same_at p s (step j t s).2.
Proof. intros N. destruct j as [path a], t; cbn in *; split; cbn; by rewrite ?lookup_insert_ne. Qed.
Lemma writes_comm j1 j2 t1 t2 s : j1.1 ≠ j2.1 → writes j1 t1 (writes j2 t2 s) = writes j2 t2 (writes j1 t1 s).
Proof.
  intros N. destruct j1 as [p1 a1], j2 as [p2 a2]. cbn in N. unfold writes.
  destruct t1, t2; try reflexivity; cbn -[insert]; unfold mock_store_file, with_file_content, with_typed_file_metadata;
    cbn -[insert]; by rewrite insert_insert_ne by done.
Qed.

(** A task run to its end. *)
Definition run_task j t s : TaskState * MockStorage := Nat.iter 6 (λ x, step j x.1 x.2) (t, s).
Definition ended t : Prop := match t with AtEnd _ => True | _ => False end.
Lemma res_end_cases {A} (r : res RewrapError A) next : (∃ a, res_end r next = next a) ∨ ended (res_end r next).
Proof. destruct r; cbn; eauto. Qed.
Lemma run_task_ends j t s : ended (run_task j t s).1.
Proof.
  destruct j as [path a].
  assert (∀ r s, run_task (path, a) (AtEnd r) s = (AtEnd r, s)) as E0 by done.
  assert (∀ n t s, ended t → ended (Nat.iter n (λ x, step (path, a) x.1 x.2) (t, s)).1) as K.
  { clear. intros n. induction n as [|n IH]; intros t s E; [done|]. rewrite Nat.iter_succ_r. destruct t; try done. by apply IH. }
  unfold run_task. rewrite !Nat.iter_succ_r. cbn [Nat.iter nat_rect].
  destruct t; cbn [task_step fst snd]; try done.
  - destruct (res_end_cases (let? old_data := load_stored path s in
      let? plaintext := file_err (open_stored path (encryption_key cur) old_data) in
      seal_stored path (encryption_key target) (at_nonce a) plaintext) AtBegin) as [[d ->]|E].
    + cbn [task_step fst snd]. destruct (res_end_cases (get_file_metadata path
        (apply_tx (TxStoreFile path d) (mock_begin_transaction s))) AtStoreMetadata) as [[x ->]|E]; [done|].
      by apply (K 2).
    + by apply (K 5).
  - destruct (res_end_cases (get_file_metadata path (apply_tx (TxStoreFile path new_data) (mock_begin_transaction s)))
      AtStoreMetadata) as [[x ->]|E]; [done|]. by apply (K 3).
  - destruct (res_end_cases (get_file_metadata path (apply_tx (TxStoreFile path new_data) s))
      AtStoreMetadata) as [[x ->]|E]; [done|]. by apply (K 4).
  - destruct (res_end_cases (get_file_metadata path s) AtStoreMetadata) as [[x ->]|E]; [done|]. by apply (K 5).
Qed.
Lemma run_task_step j t s : run_task j (step j t s).1 (step j t s).2 = run_task j t s.
Proof.
  pose proof (run_task_ends j t s) as E. unfold run_task at 1. rewrite <-surjective_pairing.
  change (step j t s) with ((λ x : TaskState * MockStorage, step j x.1 x.2) (t, s)). rewrite <-Nat.iter_succ_r, Nat.iter_succ.
  fold (run_task j t s). destruct (run_task j t s) as [t' s']. cbn in E |- *. by destruct j, t'.
Qed.
Lemma run_task_alone path a s :
  run_task (path, a) AtLoad s
  = let '(r, s') := rewrap_file_with_current_epoch path cur target a s in (AtEnd r, s').
Proof.
  rewrite with_current_eval. unfold run_task. rewrite !Nat.iter_succ_r. cbn [Nat.iter nat_rect task_step fst snd].
  change (let? old_data := load_stored path s in
      let? plaintext := file_err (open_stored path (encryption_key cur) old_data) in
      seal_stored path (encryption_key target) (at_nonce a) plaintext)
    with (reseal path (encryption_key cur) (encryption_key target) (at_nonce a) s).
  destruct (reseal _ _ _ _ _) as [data| | |]; cbn [res_end task_step fst snd]; try done.
  rewrite store_rewrapped_eval. unfold get_file_metadata, mock_get_file_metadata.
  change (typed_file_metadata (apply_tx (TxStoreFile path data) (mock_begin_transaction s))) with (typed_file_metadata s).
  by destruct (typed_file_metadata s !! path).
Qed.

(** A step of one task before or after another task's run: the same. *)
Lemma run_task_comm j1 j2 t1 t2 s :
  j1.1 ≠ j2.1 →
  run_task j2 t2 (step j1 t1 s).2 = ((run_task j2 t2 s).1, (step j1 t1 (run_task j2 t2 s).2).2)
  ∧ (step j1 t1 (run_task j2 t2 s).2).1 = (step j1 t1 s).1.
Proof.
  intros N. unfold run_task. generalize 6. intros n. induction n as [|n [IH1 IH2]]; [done|].
  rewrite !Nat.iter_succ, IH1. cbn [fst snd].
  destruct (Nat.iter n (λ x, step j2 x.1 x.2) (t2, s)) as [t2' s2]. cbn [fst snd] in *. split.
  - rewrite (surjective_pairing (step j2 t2' (step j1 t1 s2).2)). f_equal.
    + apply step_reads. by apply step_elsewhere.
    + symmetry. by apply writes_comm.
  - rewrite <-IH2. apply step_reads. apply step_elsewhere. done.
Qed.

(** Tasks of a chunk: at each moment any of them makes its next access. *)
Inductive chunk_step : list (Job * TaskState) * MockStorage → list (Job * TaskState) * MockStorage → Prop :=
| TaskStep l1 j t l2 s : chunk_step (l1 ++ (j, t) :: l2, s) (l1 ++ (j, (step j t s).1) :: l2, (step j t s).2).
Definition all_at_load (jobs : list Job) : list (Job * TaskState) := (λ j, (j, AtLoad)) <$> jobs.
Definition all_ended (jobs : list Job) (rs : list (res RewrapError unit)) : list (Job * TaskState) :=
  zip_with (λ j r, (j, AtEnd r)) jobs rs.
Definition chunk_runs (jobs : list Job) s (rs : list (res RewrapError unit)) s' : Prop :=
  length rs = length jobs ∧ rtc chunk_step (all_at_load jobs, s) (all_ended jobs rs, s').

(** Where all tasks come to when they are run one after the other. *)
Fixpoint finish (l : list (Job * TaskState)) s : list TaskState * MockStorage :=
  match l with
  | [] => ([], s)
  | (j, t) :: l => let '(t, s) := run_task j t s in let '(ts, s) := finish l s in (t :: ts, s)
  end.
Lemma finish_step l1 j t l2 s :
  NoDup ((l1 ++ (j, t) :: l2).*1.*1) →
  finish (l1 ++ (j, (step j t s).1) :: l2) (step j t s).2 = finish (l1 ++ (j, t) :: l2) s.
Proof.
  revert s. induction l1 as [|[j1 t1] l1 IH]; intros s D; cbn [app finish].
  - by rewrite run_task_step.
  - cbn in D. apply list.NoDup_cons in D as [N D].
    assert (j.1 ≠ j1.1) as X. { intros E. apply N. rewrite <-E, !fmap_app. cbn. set_solver. }
    destruct (run_task_comm j j1 t t1 s X) as [R1 R2]. rewrite R1.
    destruct (run_task j1 t1 s) as [t1' s1]. cbn [fst snd] in *. rewrite <-R2. by rewrite (IH s1 D).
Qed.
Lemma chunk_steps_finish l s l' s' :
  NoDup (l.*1.*1) → rtc chunk_step (l, s) (l', s') → l'.*1 = l.*1 ∧ finish l' s' = finish l s.
Proof.
  intros D R. remember (l, s) as x eqn:X. remember (l', s') as y eqn:Y. revert l s D X.
  induction R as [x|x z y St R IH]; intros l s D X; subst.
  - by injection X as -> ->.
  - inversion St as [l1 j t l2 s0]; subst.
    destruct (IH eq_refl (l1 ++ (j, (step j t s).1) :: l2) (step j t s).2) as [I1 I2].
    + revert D. by rewrite !fmap_app.
    + done.
    + rewrite I1, I2. split; [by rewrite !fmap_app|]. by apply finish_step.
Qed.
Lemma finish_ended jobs rs s : length rs = length jobs → finish (all_ended jobs rs) s = (AtEnd <$> rs, s).
Proof.
  revert rs. induction jobs as [|j jobs IH]; intros [|r rs] L; try done. injection L as L. cbn [all_ended zip_with finish].
  fold (all_ended jobs rs). destruct j as [p a]. cbn [run_task Nat.iter nat_rect task_step fst snd]. by rewrite IH.
Qed.
Lemma finish_at_load jobs s :
  finish (all_at_load jobs) s = let '(rs, s') := run_jobs cur target jobs s in (AtEnd <$> rs, s').
Proof.
  revert s. induction jobs as [|[path a] jobs IH]; intros s; [done|]. cbn [all_at_load fmap list_fmap finish run_jobs].
  rewrite run_task_alone. destruct (rewrap_file_with_current_epoch path cur target a s) as [r s1].
  fold (all_at_load jobs). rewrite IH. by destruct (run_jobs cur target jobs s1).
Qed.
Lemma run_jobs_length jobs s : length (run_jobs cur target jobs s).1 = length jobs.
Proof.
  revert s. induction jobs as [|[path a] jobs IH]; intros s; [done|]. cbn [run_jobs].
  destruct (rewrap_file_with_current_epoch path cur target a s) as [r s1]. specialize (IH s1).
  destruct (run_jobs cur target jobs s1). cbn in *. by f_equal.
Qed.
Lemma run_one l1 j t l2 s :
  rtc chunk_step (l1 ++ (j, t) :: l2, s) (l1 ++ (j, (run_task j t s).1) :: l2, (run_task j t s).2).
Proof.
  unfold run_task. generalize 6. intros n. revert t s. induction n as [|n IH]; intros t s; [done|].
  rewrite Nat.iter_succ_r. eapply rtc_l; [constructor|].
  specialize (IH (step j t s).1 (step j t s).2). by rewrite <-surjective_pairing in IH.
Qed.
Lemma run_in_order l1 jobs s :
  let '(rs, s') := run_jobs cur target jobs s in
  rtc chunk_step (l1 ++ all_at_load jobs, s) (l1 ++ all_ended jobs rs, s').
Proof.
  revert l1 s. induction jobs as [|[path a] jobs IH]; intros l1 s; [apply rtc_refl|]. cbn [run_jobs].
  pose proof (run_one l1 (path, a) AtLoad (all_at_load jobs) s) as R. rewrite run_task_alone in R.
  destruct (rewrap_file_with_current_epoch path cur target a s) as [r s1]. cbn [fst snd] in R.
  specialize (IH (l1 ++ [((path, a), AtEnd r)]) s1). destruct (run_jobs cur target jobs s1) as [rs s']. cbn.
  rewrite <-!app_assoc in IH. cbn in IH. by etrans.
Qed.
#[local] Instance AtEnd_inj : Inj (=) (=) AtEnd.
Proof. by intros r r' [= ->]. Qed.
(** Every interleaving of tasks on different files does what running them in order does. *)
Lemma chunk_schedule jobs s rs s' :
  NoDup (jobs.*1) → chunk_runs jobs s rs s' ↔ run_jobs cur target jobs s = (rs, s').
Proof.
  intros D. split.
  - intros [L R]. apply chunk_steps_finish in R as [_ R].
    2: { unfold all_at_load. by rewrite <-!list_fmap_compose in *. }
    rewrite finish_ended, finish_at_load in R by done. destruct (run_jobs cur target jobs s) as [rs1 s1].
    injection R as R ->. apply (inj (fmap AtEnd)) in R. by rewrite R.
  - intros E. pose proof (run_jobs_length jobs s) as L. pose proof (run_in_order [] jobs s) as R. rewrite E in L, R. by split.
Qed.

(** What becomes of one file depends on it alone. *)
Lemma with_current_reads path a s s' :
  same_at path s s' →
  (rewrap_file_with_current_epoch path cur target a s').1 = (rewrap_file_with_current_epoch path cur target a s).1.
Proof.
  intros [C M]. rewrite !with_current_eval.
  assert (reseal path (encryption_key cur) (encryption_key target) (at_nonce a) s'
    = reseal path (encryption_key cur) (encryption_key target) (at_nonce a) s) as ->.
  { unfold reseal, load_stored, mock_get_file. by rewrite C. }
  destruct (reseal _ _ _ _ _); try done. rewrite !store_rewrapped_eval, M. by destruct (typed_file_metadata s !! path).
Qed.
Lemma run_jobs_alone jobs s0 s :
  NoDup (jobs.*1) → (∀ p, p ∈ jobs.*1 → same_at p s0 s) →
  (run_jobs cur target jobs s).1 = (λ j, (rewrap_file_with_current_epoch j.1 cur target j.2 s0).1) <$> jobs.
Proof.
  revert s. induction jobs as [|[path a] jobs IH]; intros s D Sm; [done|]. cbn in D. apply list.NoDup_cons in D as [N D].
  cbn [run_jobs fmap list_fmap fst snd]. pose proof (with_current_elsewhere path cur target a s) as El.
  rewrite <-(with_current_reads path a s0 s) by (apply Sm; cbn; set_solver).
  destruct (rewrap_file_with_current_epoch path cur target a s) as [r s1]. cbn [snd fst] in *.
  specialize (IH s1 D). destruct (run_jobs cur target jobs s1) as [rs s2]. cbn [fst] in *. f_equal. apply IH. intros p P.
  assert (p ≠ path) as X by by intros ->. destruct (El p X) as [E1 E2]. destruct (Sm p) as [S1 S2]; [cbn; set_solver|].
  split; congruence.
Qed.

(** Chunks one after the other, each in any schedule. *)
Inductive batch_runs : list (list Job) → MockStorage → list (res RewrapError unit) → MockStorage → Prop :=
| BatchDone s : batch_runs [] s [] s
| BatchChunk c cs s rs s1 rs' s' :
    chunk_runs c s rs s1 → batch_runs cs s1 rs' s' → batch_runs (c :: cs) s (rs ++ rs') s'.
Lemma batch_schedule cs s rs s' :
  Forall (λ c : list Job, NoDup (c.*1)) cs → batch_runs cs s rs s' ↔ run_chunks cur target cs s = (rs, s').
Proof.
  intros F. revert s rs. induction F as [|c cs D F IH]; intros s rs.
  - split; [by inversion 1|]. intros [= <- <-]. constructor.
  - cbn [run_chunks]. split.
    + inversion 1 as [|c' cs' s0 rs1 s1 rs2 s2 X1 X2]; subst. apply chunk_schedule in X1; [|done].
      apply IH in X2. by rewrite X1, X2.
    + destruct (run_jobs cur target c s) as [rs1 s1] eqn:E1. destruct (run_chunks cur target cs s1) as [rs2 s2] eqn:E2.
      intros [= <- <-]. econstructor; [by apply chunk_schedule|by apply IH].
Qed.
Lemma run_jobs_app l1 l2 s :
  run_jobs cur target (l1 ++ l2) s
  = let '(rs, s) := run_jobs cur target l1 s in
    let '(rs', s) := run_jobs cur target l2 s in (rs ++ rs', s).
Proof.
  revert s. induction l1 as [|[path a] l1 IH]; intros s; cbn [app run_jobs]; [by destruct (run_jobs cur target l2 s)|].
  destruct (rewrap_file_with_current_epoch path cur target a s) as [r s1]. rewrite IH.
  destruct (run_jobs cur target l1 s1) as [rs s2]. by destruct (run_jobs cur target l2 s2).
Qed.
Lemma run_chunks_jobs fuel n (jobs : list Job) s :
  0 < n → length jobs ≤ fuel → run_chunks cur target (chunks fuel n jobs) s = run_jobs cur target jobs s.
Proof.
  intros N. revert jobs s. induction fuel as [|fuel IH]; intros jobs s L.
  - destruct jobs; [done|cbn in L; lia].
  - destruct jobs as [|j jobs]; [done|]. cbn [chunks run_chunks]. remember (j :: jobs) as l eqn:El.
    transitivity (run_jobs cur target (take n l ++ drop n l) s); [|by rewrite take_drop]. rewrite run_jobs_app. destruct (run_jobs cur target (take n l) s) as [rs s1].
    rewrite IH; [done|]. subst l. rewrite length_drop. cbn in *. lia.
Qed.
Lemma chunks_NoDup fuel n (jobs : list Job) :
  NoDup (jobs.*1) → Forall (λ c : list Job, NoDup (c.*1)) (chunks fuel n jobs).
Proof.
  revert jobs. induction fuel as [|fuel IH]; intros jobs D; [by destruct jobs|]. destruct jobs as [|j jobs]; [done|].
  cbn [chunks]. remember (j :: jobs) as l eqn:El. clear El.
  rewrite <-(take_drop n l), fmap_app in D. apply NoDup_app in D as (D1 & _ & D2). constructor; [done|]. by apply IH.
Qed.
End Schedules.

Section Batches.
Context {aead : Aead} {ho : HashOrder} {json : StorageJson} {chrono : ChronoAdd} {T W : Type}.
Implicit Types (em : EpochManager T W).

(** C27: The files of a batch are rewrapped by tasks that run at the same time, as many as the
    configuration allows.  When the files are different ones, it does not matter in which
    order the tasks reach the store: every schedule ends in the store that [process_batch]
    is modelled with, each file has the result that rewrapping it alone has, and the reported
    rate is that of these results. *)
Theorem batch_schedule_irrelevant em cur k jobs target m rs s' :
  em_current em = Some cur → (0 < rc_max_concurrent (rm_config m))%N → NoDup (jobs.*1) →
  batch_runs cur target (chunks (length jobs) (N.to_nat (rc_max_concurrent (rm_config m))) jobs) (rm_storage m) rs s' →
  ∃ st m', process_batch em k jobs target m = (Ok st, m') ∧ rm_storage m' = s'
    ∧ get_batch_stats (bs_batch_id st) m' = Some st
    ∧ rs = (λ j, (rewrap_file_with_current_epoch j.1 cur target j.2 (rm_storage m)).1) <$> jobs
    ∧ bs_success_rate st = f64_mul (f64_div (f64_of_u64 (N.of_nat (successes rs)))
                              (f64_of_u64 (N.of_nat (length jobs) mod 2 ^ 32))) f64_hundred.
Proof.
  intros E C D R. apply batch_schedule in R; [|by apply chunks_NoDup]. unfold process_batch. rewrite st_bind_get. cbv zeta.
  rewrite st_bind_lift, E. cbn [ok_or]. rewrite (proj2 (N.eqb_neq _ _)) by lia. rewrite R.
  rewrite run_chunks_jobs in R by lia. eexists _, _. split_and!; [reflexivity|done| | |done].
  - unfold get_batch_stats. cbn. by rewrite lookup_insert_eq.
  - pose proof (run_jobs_alone cur target jobs (rm_storage m) (rm_storage m) D) as A. rewrite R in A. by apply A.
Qed.

(** Once the estimate has panicked, the manager answers nothing any more: every rewrap, every
    look at the progress and every further file for the queue panics, and with the first file
    for the queue its lock is poisoned too. *)
Theorem poisoned_manager_is_dead em m :
  rm_progress_poisoned m = true → (0 < rc_max_concurrent (rm_config m))%N →
  (∀ path target a, rewrap_file em path target a m = (Panic, m))
  ∧ get_progress m = Panic
  ∧ (∀ path priority now d, typed_file_metadata (rm_storage m) !! path = Some d →
       ∃ m', queue_rewrap path priority now m = (Panic, m') ∧ rm_queue_poisoned m' = true
         ∧ ∀ target turns, (process_queue em target turns m').1 = Panic).
Proof.
  intros P C. split_and!.
  - intros path target a. unfold rewrap_file. rewrite st_bind_get, (proj2 (N.eqb_neq _ _)) by lia.
    unfold st_bind, on_progress. by rewrite P.
  - unfold get_progress. by rewrite P.
  - intros path priority now d D. unfold queue_rewrap, get_file_metadata, mock_get_file_metadata.
    rewrite st_bind_get, st_bind_lift, D. cbn [ok_or]. cbv zeta.
    destruct (rm_queue_poisoned m) eqn:Q.
    + exists m. split_and!; [done..|]. intros target turns. unfold process_queue, st_bind.
      destruct (queue_fuel m); cbn [process_loop]; rewrite st_bind_get, Q; done.
    + rewrite P. eexists. split_and!; [reflexivity|done|]. intros target turns. unfold process_queue, st_bind.
      destruct (queue_fuel _); cbn [process_loop]; done.
Qed.
End Batches.

(** ** With the epoch manager of the client *)

Section WithEpochs.
Context {sha : Sha256} {aead : Aead} {hk : Hkdf} {hex : Hex} {ho : HashOrder}.
Context {ed : Ed25519} {ejson : EntryJson} {opdbg : OperationDebug}.
Context {cjson : CutoverJson} {pfmt : PercentFmt} {sdbg : StatusDebug}.
Context {wcodec : WelcomeCodec} {ucodec : UpdateCodec} {cdbg : CryptoDebug} {chrono : Chrono}.
Context {xc : X25519} {mk : MlKem} {emjson : EpochJson} {json : StorageJson}.
Context {W : Type} {net : Network W} {nst : NetworkStatus W} {C : Type} `{LruMap string FileMetadata C}.

(** Whatever an epoch manager of the client has processed since it was made, it has no current
    epoch: nothing is ever rewrapped or read through it, and the store stays as it is. *)
Theorem nothing_rewrapped_without_epoch (s : MockStorage) (w : W) (id : Ed25519KeyPair) (dev : string)
    (handles : option (CoveragePublisher * CoverageTransparencyVerifier)) (t : Z)
    (em : EpochManager MockStorage W) (ops : list (em_op * Z)) :
  EpochManager_new s w id dev handles t = Ok em →
  (∀ path target a s', ∃ e, rewrap_file_internal (run_em ops em) path target a s' = (Err (RewrapFile e), s'))
  ∧ ∀ (f : FileAccessManager C) turn path mode, ∃ e, (access_file (run_em ops em) turn path mode f).1 = Err e.
Proof.
  intros N. destruct (em_bare_run ops em (em_bare_new _ _ _ _ _ _ _ N)) as [E _]. split.
  - intros path target a s'. unfold rewrap_file_internal, load_stored, mock_get_file. rewrite st_bind_get, st_bind_lift.
    cbn [map_err res_bind]. destruct (file_content s' !! path); cbn [ok_or]; [|by eexists].
    rewrite st_bind_lift, E. by eexists.
  - intros f turn path mode. destruct (access_eval (run_em ops em) turn path mode f) as (f' & -> & _).
    unfold read_result. rewrite E. by eexists.
Qed.
End WithEpochs.

(** ** Concrete files *)

#[local] Existing Instances toy_sha256 toy_ed25519 toy_ed25519_laws toy_entry_json toy_hex
  toy_operation_debug toy_cutover_json toy_storage_json toy_network toy_hash_order
  toy_hash_order_laws toy_percent toy_status_debug toy_network_status toy_welcome_codec
  toy_update_codec toy_crypto_debug toy_chrono toy_x25519 toy_mlkem toy_hkdf toy_aead toy_aead_laws
  toy_aead_total toy_epoch_json.

(** Every time, with durations up to the limit of [chrono]. *)
#[local] Instance toy_chrono_add : ChronoAdd :=
  λ now d, if (d <=? 9223372036854775)%Z then Some (now + d * 10 ^ 9)%Z else None.
#[local] Instance toy_chrono_add_laws : ChronoAddLaws.
Proof. intros now d L. unfold seconds_later, toy_chrono_add. by rewrite (proj2 (Z.leb_gt _ _) L). Qed.

Abbreviation toy_net := (list PeerInfo * list (array 32 * NetworkMessage))%type.
Definition epoch_with (id key : N) : EpochState :=
  mkEpochState id (num_array 32 key) (key_source tablet_epoch) (members tablet_epoch) (status tablet_epoch) 0 0 0
    (metadata tablet_epoch).
Definition epochs_at (e : EpochState) : EpochManager MockStorage toy_net :=
  mkEpochManager (MigrationManager_new tablet_store cut_net cov_manager (dev_pair 7) 0)
    (WelcomeProcessor_new (dev_pair 7) "desk") (GroupUpdateProcessor_new (dev_pair 7)) (Some e).
Definition seven : EpochState := epoch_with 7 70.
Definition eight : EpochState := epoch_with 8 80.

Definition put_sealed (path text : string) (s : MockStorage) : MockStorage :=
  match seal_stored path (encryption_key seven) (Ok (num_array 12 5)) (bytes_of text) with
  | Ok data => mock_store_file path data s
  | _ => s
  end.
Definition put_metadata (path : string) (size count : N) (s : MockStorage) : MockStorage :=
  apply_tx (TxStoreFileMetadataTyped path (mkFileMetadata path size 7 1 1 count false [])) s.
Definition shelf : MockStorage :=
  put_metadata "b.txt" 3 9 (put_metadata "a.txt" 5 2
    (put_sealed "c.txt" "xyz" (put_sealed "b.txt" "bye" (put_sealed "a.txt" "hello" MockStorage_new)))).
Definition try_at (n : N) (duration : Z) : Attempt := mkAttempt (Ok (num_array 12 n)) 100 duration 100 100.
Definition turn_at (n : nat) : Attempt * Z := (try_at (N.of_nat n + 20) SECOND, Z.of_nat n).
Definition reader (s : MockStorage) : FileAccessManager (lru_list string FileMetadata) := FileAccessManager_new s None None.
Definition offline : AccessTurn := mkAccessTurn (Err "offline"%string) (Err "offline"%string) 200 SECOND.

Lemma hello_stored : stored_as "a.txt" (encryption_key seven) (bytes_of "hello") shelf.
Proof.
  destruct (file_content shelf !! "a.txt"%string) as [data|] eqn:D; [|vm_compute in D; discriminate D].
  exists data. split; [exact D|]. vm_compute in D. injection D as <-. vm_compute. reflexivity.
Qed.
(** Until the switch it cannot be read. *)
Example rewrapped_file_not_read_before :
  let s := (rewrap_file_internal (epochs_at seven) "a.txt" eight (try_at 9 SECOND) shelf).2 in
  ∃ e, (access_file (epochs_at seven) offline "a.txt" Read (reader s)).1 = Err (FileDecryptionError e).
Proof. eexists. vm_compute. reflexivity. Qed.

(** The file without metadata: an error, and gone for the current epoch. *)
Example unlisted_file_is_gone :
  let '(r, s) := rewrap_file_internal (epochs_at seven) "c.txt" eight (try_at 9 SECOND) shelf in
  r = Err (RewrapFile (NotFound "c.txt"))
  ∧ (access_file (epochs_at seven) offline "c.txt" Read (reader shelf)).1 = Ok (bytes_of "xyz")
  ∧ ∃ e, (access_file (epochs_at seven) offline "c.txt" Read (reader s)).1 = Err (FileDecryptionError e).
Proof. vm_compute. split_and!; [reflexivity..|]. by eexists. Qed.

Definition fresh_manager : RewrapManager := mkRewrapManager shelf RewrapConfig_default [] RewrapProgress_zero ∅ [] false false.
Definition queued_manager : RewrapManager :=
  (queue_rewrap "b.txt" 1 12 (queue_rewrap "a.txt" 1 11 fresh_manager).2).2.
(** The file that is read more often is first, although it was queued later. *)
Example queued_paths : rt_path <$> rm_task_queue queued_manager = ["b.txt"; "a.txt"]%string.
Proof. vm_compute. reflexivity. Qed.

Lemma next_task_is_first_witness :
  Forall (λ t, rt_path t = "a.txt"%string) (drop 1 (rm_task_queue queued_manager))
  ∧ ∀ t q, rm_task_queue queued_manager = t :: q → Forall (λ t', task_precedes t' t = false) q.
Proof.
  split; [by repeat constructor|]. intros t q Q.
  apply (next_task_is_first (T := MockStorage) (W := toy_net) shelf RewrapConfig_default fresh_manager queued_manager t q).
  - reflexivity.
  - eapply rtc_l; [apply (StepQueue "a.txt" 1 11)|]. eapply rtc_l; [apply (StepQueue "b.txt" 1 12)|]. apply rtc_refl.
  - exact Q.
Defined.
Lemma queue_progress_sound_witness :
  let m := (process_queue (epochs_at seven) eight turn_at queued_manager).2 in
  remaining_bytes (rm_progress m) = (total_bytes (rm_progress m) - completed_bytes (rm_progress m))%N.
Proof.
  apply (queue_progress_sound (T := MockStorage) (W := toy_net) shelf RewrapConfig_default fresh_manager).
  - reflexivity.
  - eapply rtc_l; [apply (QueueAdd "a.txt" 1 11 5); [reflexivity|vm_compute; reflexivity]|].
    eapply rtc_l; [apply (QueueAdd "b.txt" 1 12 3); [reflexivity|vm_compute; reflexivity]|].
    eapply rtc_l; [apply (QueueProcess (epochs_at seven) eight turn_at)|]. apply rtc_refl.
  - vm_compute. reflexivity.
Defined.

(** A file that was not queued and takes two hours: the bytes are rewrapped, then the estimate
    leaves the range of times and poisons the progress. *)
Example slow_unqueued_rewrap_panics :
  let '(r, m) := rewrap_file (epochs_at seven) "a.txt" eight (try_at 9 (7200 * SECOND)) fresh_manager in
  r = Panic ∧ rm_progress_poisoned m = true ∧ completed_files (rm_progress m) = 1%N
  ∧ (access_file (epochs_at eight) offline "a.txt" Read (reader (rm_storage m))).1 = Ok (bytes_of "hello").
Proof. vm_compute. done. Qed.
(** Every failed attempt counts as a failed file. *)
Example one_file_fails_four_times :
  let m := (queue_rewrap "b.txt" 1 12 (set_storage (put_metadata "b.txt" 3 9 MockStorage_new) fresh_manager)).2 in
  let '(r, m) := process_queue (epochs_at seven) eight turn_at m in
  r = Ok tt ∧ total_files (rm_progress m) = 1%N ∧ failed_files (rm_progress m) = 4%N.
Proof. vm_compute. done. Qed.

Definition two_jobs : list (string * Attempt) := [("a.txt"%string, try_at 31 SECOND); ("b.txt"%string, try_at 32 SECOND)].
Lemma two_paths : NoDup (two_jobs.*1).
Proof. repeat constructor; set_solver. Qed.
(** Both tasks of the only chunk end well. *)
Lemma both_end :
  batch_runs seven eight (chunks 2 4 two_jobs) shelf [Ok tt; Ok tt] (run_jobs seven eight two_jobs shelf).2.
Proof.
  change [Ok tt; Ok tt] with ([Ok tt; Ok tt] ++ [] : list (res RewrapError unit)). econstructor; [|constructor].
  split; [reflexivity|]. change (take 4 two_jobs) with two_jobs.
  assert (run_jobs seven eight two_jobs shelf = ([Ok tt; Ok tt], (run_jobs seven eight two_jobs shelf).2)) as E.
  { rewrite (surjective_pairing (run_jobs _ _ _ _)) at 1. f_equal. }
  apply (chunk_schedule seven eight two_jobs shelf) in E as [_ R]; [exact R|exact two_paths].
Qed.
Lemma batch_schedule_irrelevant_witness :
  ∃ st m', process_batch (epochs_at seven) (mkBatchClock 1 2 3 SECOND) two_jobs eight fresh_manager = (Ok st, m')
    ∧ rm_storage m' = (run_jobs seven eight two_jobs shelf).2 ∧ get_batch_stats "batch_1" m' = Some st.
Proof.
  destruct (batch_schedule_irrelevant (epochs_at seven) seven (mkBatchClock 1 2 3 SECOND) two_jobs eight fresh_manager
    [Ok tt; Ok tt] (run_jobs seven eight two_jobs shelf).2) as (st & m' & R & S & G & _).
  - reflexivity.
  - vm_compute. reflexivity.
  - exact two_paths.
  - exact both_end.
  - exists st, m'. split; [exact R|]. split; [exact S|].
    assert (bs_batch_id st = "batch_1"%string) as X; [|by rewrite X in G].
    apply (f_equal (λ x, match x.1 with Ok st => bs_batch_id st | _ => ""%string end)) in R. vm_compute in R. by symmetry.
Defined.
Lemma access_single_epoch_witness :
  dual_epoch_accesses (get_stats (access_file (epochs_at seven) offline "d.txt" Write (reader shelf)).2) = 0%N.
Proof.
  apply (access_single_epoch (T := MockStorage) (W := toy_net) shelf None None).
  eapply rtc_l; [apply (StepAccess (epochs_at seven) offline "d.txt" Write)|]. apply rtc_refl.
Defined.
