(* ===== verification/FileMessages.v ===== *)
(** * Messages about files ([crates/messages/src/file_metadata.rs])

    The signed metadata of an encrypted file, the update that moves a file to another epoch,
    and batches of such updates, with their validation.  The serialiser that the size limits
    ask is a parameter; a reading of the clock is an argument. *)

From Stdlib Require Import Strings.Byte.
From stdpp Require Import base tactics numbers sets list gmap strings pretty option.
From S2P Require Import Prelude Crypto EpochState CutoverMessages FileContent.
Open Scope hc_scope.

Inductive EncryptionAlgorithm :=
| ChaCha20Poly1305
| Aes256Gcm
| Future (name : string).
Record KeyDerivationParams := mkKeyDerivationParams {
  kd_salt : bytes;
  kd_context : string;
  kd_iterations : option N;
}.
Record FileEncryptionInfo := mkFileEncryptionInfo {
  ei_algorithm : EncryptionAlgorithm;
  ei_key_derivation : KeyDerivationParams;
  ei_iv_nonce : bytes;
  ei_auth_tag : bytes;
  ei_aad : bytes;
}.
Record FileVersion := mkFileVersion {
  fv_major : N;
  fv_minor : N;
  fv_patch : N;
  fv_pre_release : option string;
}.
Record AccessControl := mkAccessControl {
  read_users : list string;
  write_users : list string;
  admin_users : list string;
  group_permissions : gmap string (list string);
}.
Record FileMetadata := mkFileMetadata {
  md_file_id : bytes;
  md_file_path : string;
  md_epoch_id : bytes;
  md_wrapped_file_key : bytes;
  md_encryption_info : FileEncryptionInfo;
  md_file_size : N;
  md_original_hash : bytes;
  md_encrypted_hash : bytes;
  md_version : FileVersion;
  md_access_control : AccessControl;
  md_created_at : N;
  md_modified_at : N;
  md_owner_signature : bytes;
}.
Record CoverageUpdate := mkCoverageUpdate {
  cu_file_id : bytes;
  cu_from_epoch_id : bytes;
  cu_to_epoch_id : bytes;
  cu_new_metadata : FileMetadata;
  cu_inclusion_proof : list bytes;
  cu_timestamp : N;
  cu_admin_signature : bytes;
}.
Record CoverageRoot := mkCoverageRoot {
  cr_epoch_id : bytes;
  cr_root_hash : bytes;
  cr_file_count : N;
  cr_sequence : N;
  cr_timestamp : N;
  cr_epoch_coverage : gmap bytes N;
  cr_admin_signature : bytes;
}.
Record BatchCoverageUpdate := mkBatchCoverageUpdate {
  bu_from_epoch_id : bytes;
  bu_to_epoch_id : bytes;
  bu_file_updates : list CoverageUpdate;
  bu_combined_root : bytes;
  bu_timestamp : N;
  bu_total_files : N;
  bu_admin_signature : bytes;
}.

Definition MAX_MESSAGE_SIZE : N := 1024 * 1024.
Definition MAX_BATCH_SIZE : nat := 1000.

Definition identifier (a : EncryptionAlgorithm) : string :=
  match a with
  | ChaCha20Poly1305 => "chacha20-poly1305"
  | Aes256Gcm => "aes256-gcm"
  | Future name => name
  end.
Definition nonce_size (a : EncryptionAlgorithm) : nat :=
  match a with ChaCha20Poly1305 => 12 | Aes256Gcm => 12 | Future _ => 12 end.
Definition tag_size (a : EncryptionAlgorithm) : nat :=
  match a with ChaCha20Poly1305 => 16 | Aes256Gcm => 16 | Future _ => 16 end.

Definition FileVersion_new (major minor patch : N) : FileVersion := mkFileVersion major minor patch None.
Definition FileVersion_current : FileVersion := FileVersion_new 1 0 0.
Definition is_compatible (v other : FileVersion) : bool := (fv_major v =? fv_major other)%N.

Definition new_owner_only (owner : string) : AccessControl := mkAccessControl [owner] [owner] [owner] ∅.
Definition can_read (a : AccessControl) (user : string) : bool :=
  bool_decide (user ∈ read_users a) || bool_decide (user ∈ write_users a) || bool_decide (user ∈ admin_users a).
Definition can_write (a : AccessControl) (user : string) : bool :=
  bool_decide (user ∈ write_users a) || bool_decide (user ∈ admin_users a).
Definition can_admin (a : AccessControl) (user : string) : bool := bool_decide (user ∈ admin_users a).

Abbreviation checked := (res MessageError unit).
(** [if b { return Err(InvalidFormat(..)) }]. *)
Definition reject_if (b : bool) (msg : string) : checked := if b then Err (MsgInvalidFormat msg) else Ok tt.
Definition len_differs (b : bytes) (n : nat) : bool := negb (length b =? n)%nat.

Definition KeyDerivationParams_new_hkdf (salt : bytes) (context : string) : KeyDerivationParams :=
  mkKeyDerivationParams salt context None.
Definition KeyDerivationParams_validate (k : KeyDerivationParams) : checked :=
  let? _ := reject_if (length (kd_salt k) <? 16)%nat "Salt must be at least 16 bytes" in
  reject_if (bool_decide (kd_context k = ""%string)) "Context cannot be empty".

Definition FileEncryptionInfo_validate (i : FileEncryptionInfo) : checked :=
  let size what (b : bytes) n :=
    what +:+ " size " +:+ pretty (N.of_nat (length b)) +:+ " does not match expected " +:+ pretty (N.of_nat n)
    +:+ " for algorithm " +:+ identifier (ei_algorithm i) in
  let? _ := reject_if (len_differs (ei_iv_nonce i) (nonce_size (ei_algorithm i)))
              (size "IV/nonce"%string (ei_iv_nonce i) (nonce_size (ei_algorithm i))) in
  let? _ := reject_if (len_differs (ei_auth_tag i) (tag_size (ei_algorithm i)))
              (size "Auth tag"%string (ei_auth_tag i) (tag_size (ei_algorithm i))) in
  KeyDerivationParams_validate (ei_key_derivation i).
Definition FileEncryptionInfo_new (algorithm : EncryptionAlgorithm) (key_derivation : KeyDerivationParams)
    (iv_nonce auth_tag aad : bytes) : res MessageError FileEncryptionInfo :=
  let info := mkFileEncryptionInfo algorithm key_derivation iv_nonce auth_tag aad in
  let? _ := FileEncryptionInfo_validate info in
  Ok info.

(** [SystemTime::now().duration_since(UNIX_EPOCH)], in seconds, of a time in nanoseconds. *)
Definition unix_seconds (now : Z) : res MessageError N :=
  if (now <? 0)%Z then Err (MsgTimestampError "System clock error") else Ok (Z.to_N (now / 10 ^ 9)).

(** [serde_cbor::to_vec]. *)
Class FileCbor := {
  file_metadata_to_vec : FileMetadata → res string bytes;
  batch_to_vec : BatchCoverageUpdate → res string bytes;
}.

Section Messages.
Context {sha : Sha256} {cbor : FileCbor}.

Definition file_id_msg (path : string) : bytes := bytes_of "hybridcipher-file-id-v1:" ++ bytes_of path.
Definition calculate_file_id (path : string) : bytes := arr (sha256 (file_id_msg path)).

Definition FileMetadata_validate (m : FileMetadata) : checked :=
  let? _ := reject_if (bool_decide (md_file_path m = ""%string)) "file_path cannot be empty" in
  let? _ := reject_if (bool_decide (md_epoch_id m = [])) "epoch_id cannot be empty" in
  let? _ := reject_if (len_differs (md_wrapped_file_key m) 32) "wrapped_file_key must be 32 bytes" in
  let? _ := reject_if (len_differs (md_original_hash m) 32) "original_hash must be 32 bytes" in
  let? _ := reject_if (len_differs (md_encrypted_hash m) 32) "encrypted_hash must be 32 bytes" in
  let? _ := reject_if (len_differs (md_owner_signature m) 64) "owner_signature must be 64 bytes" in
  let? _ := FileEncryptionInfo_validate (md_encryption_info m) in
  let? _ := reject_if (bool_decide (md_file_id m ≠ calculate_file_id (md_file_path m)))
              "file_id does not match file_path" in
  reject_if (md_modified_at m <? md_created_at m)%N "modified_at cannot be before created_at".
Definition FileMetadata_new (now : Z) (file_path : string) (epoch_id wrapped_file_key : bytes)
    (encryption_info : FileEncryptionInfo) (file_size : N) (original_hash encrypted_hash : bytes)
    (access_control : AccessControl) (owner_signature : bytes) : res MessageError FileMetadata :=
  let file_id := calculate_file_id file_path in
  let? now := unix_seconds now in
  let metadata := mkFileMetadata file_id file_path epoch_id wrapped_file_key encryption_info file_size original_hash
                    encrypted_hash FileVersion_current access_control now now owner_signature in
  let? _ := FileMetadata_validate metadata in
  Ok metadata.
Definition within_limit (what : string) (serialized : res string bytes) : checked :=
  let? serialized := map_err (λ e, MsgSerializationError ("Serialization failed: " +:+ e)) serialized in
  reject_if (MAX_MESSAGE_SIZE <? N.of_nat (length serialized))%N
    (what +:+ " exceeds maximum size: " +:+ pretty (N.of_nat (length serialized)) +:+ " > "
     +:+ pretty MAX_MESSAGE_SIZE).
Definition check_size_limits (m : FileMetadata) : checked := within_limit "FileMetadata" (file_metadata_to_vec m).

Definition CoverageUpdate_validate (u : CoverageUpdate) : checked :=
  let? _ := reject_if (bool_decide (cu_file_id u ≠ md_file_id (cu_new_metadata u))) "file_id must match metadata file_id" in
  let? _ := reject_if (bool_decide (cu_to_epoch_id u ≠ md_epoch_id (cu_new_metadata u)))
              "to_epoch_id must match metadata epoch_id" in
  let? _ := reject_if (len_differs (cu_admin_signature u) 64) "admin_signature must be 64 bytes" in
  FileMetadata_validate (cu_new_metadata u).
Definition CoverageUpdate_new (now : Z) (file_id from_epoch_id to_epoch_id : bytes) (new_metadata : FileMetadata)
    (inclusion_proof : list bytes) (admin_signature : bytes) : res MessageError CoverageUpdate :=
  let? timestamp := unix_seconds now in
  let update := mkCoverageUpdate file_id from_epoch_id to_epoch_id new_metadata inclusion_proof timestamp admin_signature in
  let? _ := CoverageUpdate_validate update in
  Ok update.

(** The loop over the updates. *)
Fixpoint validate_updates (from_epoch_id to_epoch_id : bytes) (updates : list CoverageUpdate) : checked :=
  match updates with
  | [] => Ok tt
  | u :: updates =>
      let? _ := CoverageUpdate_validate u in
      let? _ := reject_if (bool_decide (cu_from_epoch_id u ≠ from_epoch_id)) "Inconsistent from_epoch_id in batch" in
      let? _ := reject_if (bool_decide (cu_to_epoch_id u ≠ to_epoch_id)) "Inconsistent to_epoch_id in batch" in
      validate_updates from_epoch_id to_epoch_id updates
  end.
Definition BatchCoverageUpdate_validate (b : BatchCoverageUpdate) : checked :=
  let? _ := reject_if (bool_decide (length (bu_file_updates b) = 0)) "file_updates cannot be empty" in
  let? _ := reject_if (MAX_BATCH_SIZE <? length (bu_file_updates b))%nat
              ("Batch size " +:+ pretty (N.of_nat (length (bu_file_updates b))) +:+ " exceeds maximum "
               +:+ pretty (N.of_nat MAX_BATCH_SIZE)) in
  let? _ := reject_if (len_differs (bu_combined_root b) 32) "combined_root must be 32 bytes" in
  let? _ := reject_if (len_differs (bu_admin_signature b) 64) "admin_signature must be 64 bytes" in
  let? _ := validate_updates (bu_from_epoch_id b) (bu_to_epoch_id b) (bu_file_updates b) in
  within_limit "BatchCoverageUpdate" (batch_to_vec b).
Definition BatchCoverageUpdate_new (now : Z) (from_epoch_id to_epoch_id : bytes) (file_updates : list CoverageUpdate)
    (combined_root admin_signature : bytes) : res MessageError BatchCoverageUpdate :=
  let? timestamp := unix_seconds now in
  let batch := mkBatchCoverageUpdate from_epoch_id to_epoch_id file_updates combined_root timestamp
                 (N.of_nat (length file_updates)) admin_signature in
  let? _ := BatchCoverageUpdate_validate batch in
  Ok batch.
End Messages.

(** ** What a validated message guarantees *)

Lemma reject_if_Ok b msg : reject_if b msg = Ok tt ↔ b = false.
Proof. unfold reject_if. destruct b; split; done. Qed.
Lemma then_reject_Ok b msg (r : checked) : res_bind (reject_if b msg) (λ _, r) = Ok tt ↔ b = false ∧ r = Ok tt.
Proof. unfold reject_if. destruct b; cbn; intuition discriminate. Qed.
Lemma then_Ok (r1 r2 : checked) : res_bind r1 (λ _, r2) = Ok tt ↔ r1 = Ok tt ∧ r2 = Ok tt.
Proof. destruct r1 as [[]| | |]; cbn; intuition discriminate. Qed.
Lemma len_differs_false b n : len_differs b n = false ↔ length b = n.
Proof. unfold len_differs. by rewrite negb_false_iff, Nat.eqb_eq. Qed.

(** Reads a chain of checks as the conjunction of what each of them asks. *)
Ltac read_checks :=
  repeat first
    [ rewrite then_reject_Ok | rewrite reject_if_Ok | rewrite then_Ok | rewrite len_differs_false
    | rewrite bool_decide_eq_false | rewrite N.ltb_ge | rewrite Nat.ltb_ge ].

Lemma FileEncryptionInfo_validate_Ok i :
  FileEncryptionInfo_validate i = Ok tt ↔
  length (ei_iv_nonce i) = 12 ∧ length (ei_auth_tag i) = 16
  ∧ 16 ≤ length (kd_salt (ei_key_derivation i)) ∧ kd_context (ei_key_derivation i) ≠ ""%string.
Proof.
  unfold FileEncryptionInfo_validate, KeyDerivationParams_validate. cbn zeta. read_checks.
  by destruct (ei_algorithm i).
Qed.

Section Validated.
Context {sha : Sha256} {cbor : FileCbor}.

(** The metadata that [validate] accepts. *)
Record metadata_ok (m : FileMetadata) : Prop := {
  mo_path : md_file_path m ≠ ""%string;
  mo_epoch : md_epoch_id m ≠ [];
  mo_key : length (md_wrapped_file_key m) = 32;
  mo_original : length (md_original_hash m) = 32;
  mo_encrypted : length (md_encrypted_hash m) = 32;
  mo_signature : length (md_owner_signature m) = 64;
  mo_encryption : FileEncryptionInfo_validate (md_encryption_info m) = Ok tt;
  mo_file_id : md_file_id m = calculate_file_id (md_file_path m);
  mo_times : (md_created_at m ≤ md_modified_at m)%N;
}.
Record update_ok (u : CoverageUpdate) : Prop := {
  uo_file_id : cu_file_id u = md_file_id (cu_new_metadata u);
  uo_epoch : cu_to_epoch_id u = md_epoch_id (cu_new_metadata u);
  uo_signature : length (cu_admin_signature u) = 64;
  uo_metadata : metadata_ok (cu_new_metadata u);
}.

Lemma FileMetadata_validate_Ok m : FileMetadata_validate m = Ok tt ↔ metadata_ok m.
Proof.
  unfold FileMetadata_validate. read_checks. split.
  - intros (?&?&?&?&?&?&?&?&?). split; first [done|by apply dec_stable|lia].
  - intros []. split_and!; first [done|by intros []].
Qed.
Lemma CoverageUpdate_validate_Ok u : CoverageUpdate_validate u = Ok tt ↔ update_ok u.
Proof.
  unfold CoverageUpdate_validate. read_checks. rewrite FileMetadata_validate_Ok. split.
  - intros (?&?&?&?). split; first [done|by apply dec_stable|lia].
  - intros []. split_and!; first [done|by intros []].
Qed.
Lemma validate_updates_Ok from to us :
  validate_updates from to us = Ok tt ↔
  Forall (λ u, update_ok u ∧ cu_from_epoch_id u = from ∧ cu_to_epoch_id u = to) us.
Proof.
  induction us as [|u us IH]; cbn [validate_updates]; [split; [constructor|done]|].
  read_checks. rewrite IH, CoverageUpdate_validate_Ok, list.Forall_cons.
  split; [intros (?&?&?&?)|intros ((?&?&?)&?)]; split_and!; first [done|by apply dec_stable|by intros []].
Qed.
Lemma within_limit_Ok what r :
  within_limit what r = Ok tt ↔ ∃ b, r = Ok b ∧ (N.of_nat (length b) ≤ MAX_MESSAGE_SIZE)%N.
Proof.
  unfold within_limit. destruct r as [b|e|msg|]; cbn [map_err res_bind]; [|split; [done|by intros (?&?&_)]..].
  rewrite reject_if_Ok, N.ltb_ge. split; [eauto|by intros (?&[=->]&?)].
Qed.

(** A batch is accepted when, and only when, it has between one and a thousand updates, its
    root and signature have their lengths, it is at most a megabyte when serialised, and every
    update leads between the epochs of the batch and is about the file whose metadata it
    brings: metadata for the epoch of arrival, with the identifier of its own path. *)
Theorem batch_validate_iff b :
  BatchCoverageUpdate_validate b = Ok tt ↔
  1 ≤ length (bu_file_updates b) ≤ MAX_BATCH_SIZE
  ∧ length (bu_combined_root b) = 32 ∧ length (bu_admin_signature b) = 64
  ∧ (∃ c, batch_to_vec b = Ok c ∧ (N.of_nat (length c) ≤ MAX_MESSAGE_SIZE)%N)
  ∧ ∀ u, u ∈ bu_file_updates b →
      update_ok u ∧ cu_from_epoch_id u = bu_from_epoch_id b ∧ md_epoch_id (cu_new_metadata u) = bu_to_epoch_id b
      ∧ cu_file_id u = calculate_file_id (md_file_path (cu_new_metadata u)).
Proof.
  unfold BatchCoverageUpdate_validate. read_checks. rewrite validate_updates_Ok, within_limit_Ok, list.Forall_forall.
  split.
  - intros (N0 & N1 & R & S & U & L). split_and!; auto; [lia|]. intros u Hu. destruct (U u Hu) as (O & F & T).
    split_and!; auto; [by rewrite <- (uo_epoch u O)|]. rewrite (uo_file_id u O). apply mo_file_id, O.
  - intros ((N0 & N1) & R & S & L & U). split_and!; auto; [lia|]. intros u Hu. destruct (U u Hu) as (O & F & T & _).
    split_and!; auto. by rewrite (uo_epoch u O).
Qed.

(** In an accepted batch two updates with one file identifier are about one path, when the
    hash does not collide on the paths of the batch: an update cannot pass for that of another
    file. *)
Theorem batch_identifies_files b :
  BatchCoverageUpdate_validate b = Ok tt →
  collision_free ((λ u, file_id_msg (md_file_path (cu_new_metadata u))) <$> bu_file_updates b) →
  ∀ u v, u ∈ bu_file_updates b → v ∈ bu_file_updates b → cu_file_id u = cu_file_id v →
    md_file_path (cu_new_metadata u) = md_file_path (cu_new_metadata v).
Proof.
  intros V C u v Hu Hv E. apply batch_validate_iff in V as (_ & _ & _ & _ & U).
  destruct (U u Hu) as (_ & _ & _ & Iu), (U v Hv) as (_ & _ & _ & Iv).
  apply bytes_of_inj, (app_inv_head (bytes_of "hybridcipher-file-id-v1:")).
  change (file_id_msg (md_file_path (cu_new_metadata u)) = file_id_msg (md_file_path (cu_new_metadata v))).
  apply (collision_free_eq _ _ _ C).
  - apply list_elem_of_fmap. eauto.
  - apply list_elem_of_fmap. eauto.
  - apply arr_inj. unfold calculate_file_id in Iu, Iv. congruence.
Qed.

(** What a constructor returns is what it was given, with the time and the identifier of the
    path filled in, and passes its own validation; a batch counts its updates. *)
Theorem new_batch_is_valid now from to us root sig b :
  BatchCoverageUpdate_new now from to us root sig = Ok b →
  (0 ≤ now)%Z ∧ BatchCoverageUpdate_validate b = Ok tt ∧ bu_file_updates b = us
  ∧ bu_total_files b = N.of_nat (length us) ∧ bu_timestamp b = Z.to_N (now / 10 ^ 9).
Proof.
  unfold BatchCoverageUpdate_new, unix_seconds. destruct (Z.ltb_spec now 0); [done|]. cbn [res_bind].
  intros E. apply res_bind_Ok in E as ([] & V & E). apply Ok_inj in E as <-. done.
Qed.
Lemma new_metadata_is_valid now path epoch key info size h1 h2 ac sig m :
  FileMetadata_new now path epoch key info size h1 h2 ac sig = Ok m →
  metadata_ok m ∧ md_file_path m = path ∧ md_created_at m = md_modified_at m ∧ md_wrapped_file_key m = key.
Proof.
  unfold FileMetadata_new, unix_seconds. destruct (Z.ltb_spec now 0); [done|]. cbn [res_bind].
  intros E. apply res_bind_Ok in E as ([] & V & E). apply Ok_inj in E as <-. by rewrite FileMetadata_validate_Ok in V.
Qed.

(** A file key wrapped the way the client wraps it has the tag of the cipher after it, 48
    bytes in all.  No metadata with such a key is accepted, and none can be made. *)
Theorem wrapped_key_never_valid {aead : Aead} `{!AeadLaws} nonce file_key kek aad wrapped n :
  wrap_file_key nonce file_key kek aad = Ok (wrapped, n) →
  (∀ m, md_wrapped_file_key m = wrapped → FileMetadata_validate m ≠ Ok tt)
  ∧ ∀ now path epoch info size h1 h2 ac sig m,
      FileMetadata_new now path epoch wrapped info size h1 h2 ac sig ≠ Ok m.
Proof.
  intros W. assert (length wrapped = 48) as L.
  { unfold wrap_file_key in W. apply res_bind_Ok in W as (non & _ & W). apply res_bind_Ok in W as (w & S & W).
    apply Ok_inj in W as [= -> _]. apply map_err_Ok, seal_length in S. by rewrite S, arr_length. }
  split.
  - intros m <- V. apply FileMetadata_validate_Ok in V. apply mo_key in V. congruence.
  - intros * E. apply new_metadata_is_valid in E as (V & _ & _ & K). apply mo_key in V. congruence.
Qed.
End Validated.

(** Who may administer may write, and who may write may read; whatever the permissions of the
    groups say, they are not asked. *)
Theorem access_is_ordered a user g :
  (can_admin a user = true → can_write a user = true) ∧ (can_write a user = true → can_read a user = true)
  ∧ let a' := mkAccessControl (read_users a) (write_users a) (admin_users a) g in
    can_admin a' user = can_admin a user ∧ can_write a' user = can_write a user ∧ can_read a' user = can_read a user.
Proof.
  unfold can_admin, can_write, can_read. cbn. rewrite !orb_true_iff. tauto.
Qed.
Lemma owner_only_owner owner user : can_read (new_owner_only owner) user = true ↔ user = owner.
Proof.
  unfold can_read, new_owner_only. cbn [read_users write_users admin_users].
  rewrite !orb_true_iff, !bool_decide_eq_true, !list_elem_of_singleton. tauto.
Qed.

(** ** A batch of two updates *)

#[local] Existing Instances toy_sha256 toy_aead toy_aead_laws.
Definition sample_cbor : FileCbor := {|
  file_metadata_to_vec := λ m, Ok (bytes_of (md_file_path m));
  batch_to_vec := λ b, Ok (bu_combined_root b);
|}.
#[local] Existing Instance sample_cbor.
Definition sample_info : FileEncryptionInfo :=
  mkFileEncryptionInfo Aes256Gcm (KeyDerivationParams_new_hkdf (replicate 16 x00) "files") (replicate 12 x01) (replicate 16 x02) [].
Definition sample_metadata (path : string) : FileMetadata :=
  mkFileMetadata (calculate_file_id path) path [x07] (replicate 32 x03) sample_info 5 (replicate 32 x04) (replicate 32 x05)
    FileVersion_current (new_owner_only "ana") 10 20 (replicate 64 x06).
Definition sample_update (path : string) : CoverageUpdate :=
  mkCoverageUpdate (calculate_file_id path) [x06] [x07] (sample_metadata path) [] 30 (replicate 64 x08).
Definition sample_updates : list CoverageUpdate := [sample_update "a/b.txt"; sample_update "c.txt"].
Definition sample_batch (total : N) : BatchCoverageUpdate :=
  mkBatchCoverageUpdate [x06] [x07] sample_updates (replicate 32 x09) 5 total (replicate 64 x0a).

Lemma batch_identifies_files_witness :
  md_file_path (cu_new_metadata (sample_update "c.txt")) = md_file_path (cu_new_metadata (sample_update "c.txt")).
Proof.
  apply (batch_identifies_files (sample_batch 2)); [vm_compute; reflexivity|decide_collision_free|..|reflexivity];
    right; left.
Defined.
Lemma new_batch_is_valid_witness :
  (0 ≤ 5000000000)%Z ∧ BatchCoverageUpdate_validate (sample_batch 2) = Ok tt ∧ bu_file_updates (sample_batch 2) = sample_updates
  ∧ bu_total_files (sample_batch 2) = 2%N ∧ bu_timestamp (sample_batch 2) = 5%N.
Proof.
  apply (new_batch_is_valid 5000000000 [x06] [x07] sample_updates (replicate 32 x09) (replicate 64 x0a)).
  vm_compute. reflexivity.
Defined.
Definition sample_key : Key := mkKey (sha256 []).
Definition sample_nonce : array 12 := dexist (replicate 12 x00) eq_refl.
Definition sample_wrapped : bytes := arr (sha256 []) ++ toy_aead_tag (sha256 []) sample_nonce (domain_aad FileData []) (arr (sha256 [])).
Lemma wrapped_key_never_valid_witness :
  wrap_file_key sample_nonce sample_key sample_key [] = Ok (sample_wrapped, arr sample_nonce)
  ∧ ∀ m, md_wrapped_file_key m = sample_wrapped → FileMetadata_validate m ≠ Ok tt.
Proof.
  assert (wrap_file_key sample_nonce sample_key sample_key [] = Ok (sample_wrapped, arr sample_nonce)) as W
    by (vm_compute; reflexivity).
  split; [exact W|]. exact (proj1 (wrapped_key_never_valid sample_nonce sample_key sample_key [] _ _ W)).
Defined.
(** The number of files that a batch declares is not compared with its updates. *)
Example batch_total_unchecked : BatchCoverageUpdate_validate (sample_batch 12345) = Ok tt.
Proof. vm_compute. reflexivity. Qed.
